(* ===== verification/_CoqProject ===== *)
-Q . S2P
Prelude.v
BitUtil.v
ArrayUtil.v
DataIO.v
Words.v
SymRun.v
Morton.v
ForUtil.v
PForUtil.v
ForUtil103.v
LongPack.v
ForUtil99.v
ForUtil912.v
Directory.v
FileDeleter.v
DeletionPolicy.v
IndexFileDeleter.v
FileNames.v
IntIntHashMap.v
WordBits.v
PriorityQueue.v
FixedBitSet.v
SparseFixedBitSet.v
DocIdSetIterator.v
FixedBitSetOps.v
LeafIterators.v
Conjunction.v
Nfa.v
Automaton.v
Builder.v
PointSets.v
Determinize.v
Rows.v
Liveness.v
Totality.v
BooleanOps.v
RegularOps.v
Sequence.v
Concat.v
Repetition.v
Bounded.v
Reversal.v
Makers.v
RunAutomaton.v
DecimalInterval.v
Utf8.v
Regexp.v
RegexpParser.v
QueryAutomata.v
Digits.v
BulkOperation.v
UnrolledCode.v
BulkPacked.v
PackedMutable.v
Packed64.v
PackedSingle.v
PackedSingleArray.v
GetMutable.v
BulkInterface.v
PackedStream.v
Growable.v
Paged.v
