(* ===== verification/Prelude.v ===== *)
(** * A verification development for Gocene

    Gocene is a port of the Lucene search library to Go.  This development models
    five groups of its code and proves them correct: the layers that decide what the
    bytes of an index mean, the packed integers under its in-memory and on-disk arrays,
    the bookkeeping that decides which files of an index live, the collections and
    document iterators of a search, and the automata that queries over terms are made of.

    ** The parts of the program and of the development

    _Bytes_.  Everything in the files of an index is written through a [DataOutput] and
    read through a [DataInput] ([spi/], [store/]); postings are blocks of small integers
    packed with frame-of-reference coding ([codecs/*for_util.go],
    [backward_codecs/lucene912/]), patched for a few large values
    ([codecs/*pfor_util.go]); the packing uses the bit tricks of [util/bit_util.go].

    - [Prelude] (this file): the results of Go code ([Ret], [Err], [Panic]), array access
      that panics out of range, counted and conditional loops, machine integers.
    - [BitUtil]: [util/bit_util.go], powers of two and zig-zag codes.  [Morton]: its
      [Interleave], [Deinterleave], [FlipFlop].
    - [DataIO]: the stream interfaces as classes with laws ([DataOutput], [DataInput],
      [SeekableInput]), the default methods of [store/data_output.go] and
      [spi/base_data_input.go] as clients of them, and the array-backed streams of
      [store/byte_array_data_output.go] and [store/byte_array_data_input.go] as
      implementations.
    - [Words]: machine words as a class with two instances, the integers ([int_word]) and
      words of symbolic bits ([sym_word]), and the relation between a run on the one and
      a run on the other.  [SymRun]: symbolic runs of the packing codecs.
    - [ForUtil]: [codecs/for_util.go]; [PForUtil]: [codecs/pfor_util.go]; [ForUtil103]:
      [codecs/lucene103_for_util.go] and [codecs/lucene103_pfor_util.go]; [LongPack]: what
      the two codecs that pack into [int64] share; [ForUtil99]:
      [codecs/lucene99_for_util.go]; [ForUtil912]:
      [backward_codecs/lucene912/lucene912_for_util.go].

    _Files_.  An index writer makes a commit by writing a [segments_N] file; older commits
    and the files only they use are deleted when a policy says so.

    - [Directory]: a directory of files as a class with laws, with the in-memory directory
      of [store/byte_buffers_directory.go] as an instance.
    - [FileDeleter]: the reference counts of [util/file_deleter.go].
    - [DeletionPolicy]: the policies of [index/*deletion_policy.go] as a class, with
      snapshots over any of them.
    - [IndexFileDeleter]: [index/index_file_deleter.go], a client of the three above.
    - [FileNames]: [index/index_file_names.go], [codecs/live_docs_format.go], and the files
      of a segment commit in [spi/segment_commit_info.go].

    _Packed integers_.  [util/packed/]: arrays and blocks of integers of 1 to 64 bits.

    - [Digits]: numbers as rows of digits, apart from any program.
    - [BulkOperation]: [bulk_operation.go], the encoders and decoders of values that lie bit
      after bit.  [UnrolledCode], [BulkPacked]: the 24 files [bulk_operation_packed*.go] whose
      decoders are written out; the body of each loop is a term over a class of words
      ([Word]), which is run on integers and also read as a tree that a checker decides.
    - [PackedSingle]: [bulk_operation_packed_single_block.go], values that do not cross words.
    - [PackedMutable]: the interface [Mutable] of [packed_ints.go] as a class with laws
      ([MutableOps], [MutableLaws]), what implementations share, and [Copy] as a client.
      [Packed64]: [packed64.go]; [PackedSingleArray]: [packed64_single_block.go]; [GetMutable]:
      the two behind the interface.
    - [BulkInterface]: the interface [BulkOperation] with its laws ([BulkLaws]).  [PackedStream]:
      [packed_writer.go] and [packed_reader_iterator.go], clients of it and of the streams.
    - [Growable]: [growable_writer.go], a client of [Copy] and again a [Mutable].  [Paged]:
      [abstract_paged_mutable.go], [paged_mutable.go], [paged_growable_writer.go], over pages
      behind an interface ([PagesLaws]) that both kinds of pages have.

    _Collections and iterators_.  Search counts, collects and intersects sets of
    documents.

    - [IntIntHashMap]: [internal/hppc/int_int_hash_map.go].  [PriorityQueue]:
      [util/priority_queue.go].
    - [WordBits]: 64-bit words as rows of bits.  [ArrayUtil]: how slices grow
      ([util/array_util.go]).  [FixedBitSet]: [util/fixed_bit_set.go] and its extensions;
      [FixedBitSetOps]: [OrIterator], and all operations together.  [SparseFixedBitSet]: [util/sparse_fixed_bit_set.go].
    - [DocIdSetIterator]: iterators over documents as a class with laws, what works over any
      of them, and two-phase iterators.  [LeafIterators]: iterators over bit sets and arrays.
      [Conjunction]: [search/conjunction_disi.go], a client of the class and again an instance,
      with its checks, its order of costs and the two-phase iterators it verifies last.

    _Automata_.  [util/automaton/] and the queries that use it.

    - [Nfa]: languages, apart from any program: paths, acceptance, simulation, products.
    - [Automaton]: the packed automata of [automaton.go].  [Builder]: [builder.go].
    - [PointSets], [Determinize]: the subset construction of [operations.go].
    - [Rows], [Liveness], [Totality], [BooleanOps], [RegularOps], [Sequence], [Concat],
      [Repetition], [Bounded], [Reversal]: the other operations of [operations.go]; the
      operations are in [Liveness], [BooleanOps] and [RegularOps], the files after them hold
      what they do to languages.
    - [Makers], [DecimalInterval]: the automata of [automata.go] for words, sets of
      characters, and decimal intervals.
    - [RunAutomaton]: [run_automaton.go], [byte_run_automaton.go],
      [character_run_automaton.go]: automata compiled to tables.
    - [Utf8]: UTF-8 as Go decodes and encodes it.  [Regexp], [RegexpParser]: the expressions
      of [regexp.go], their automata and their parser.
    - [QueryAutomata]: the automata of wildcard, prefix and regular-expression queries
      ([search/*_query.go]) and the term matchers of [search/uhighlight/]; it puts parser,
      conversion, determinization and compilation together.

    ** Conventions

    A [byte], [int32], [int64] or [int] is a [Z]; the wrap-around of Go is written out with
    [uwrap] and [swrap] ([to_byte], [to_int32], ...) where the code can leave the range.
    [int] is 64 bits wide.  A slice that is updated is a list that is passed along; where the
    code has two names for one array (the decoders of the block codecs split an array into
    itself) the model names the array ([buffer]) and keeps the arrays in one state ([bufs]), so
    that aliasing is the code's; the point sets of the determinization share objects through
    indices in the same way.  Slices are taken with a capacity equal to their length, except
    where the code grows them itself.  A Go string is the list of its bytes; where the code
    ranges over the characters of a string, the model takes its runes ([runes]).

    Pointer equality is a parameter: [same] says whether two arguments of an operation on
    automata are one object.  Java-style interfaces are classes; what the code does not
    contain (comparison functions, named automata, the decision of a user of a two-phase
    iterator) is an argument.

    Loops that count run by [go_for]; loops with a condition run by [go_while] or a [Fixpoint]
    with a bound on the iterations.  A bound that is too small gives [NoFuel], which no theorem
    below allows: a variable-length integer has at most 5 or 10 bytes; a copy of [n] bytes or values
    takes at most [n] chunks; the packing loop of the block codecs advances once per value; a
    loop up to the end of a packed block at most 64 times, and Euclid's algorithm 66 times; probing a
    hash table passes over each slot once; leap-frogging passes over each document once; a search
    over states visits each state once; determinization makes at most [2^n] sets of [n] states; the
    parser goes on by a byte per step, and nests at most as deep as the expression is long.

    Code over automata can fail in one way that is not the model's concern: an array beyond the
    largest length, on which [Oversize] of [util/array_util.go] panics ([ArrayUtil]).  This panic is kept apart as
    the error [ArrayTooLarge]; [runs m Q] says that [m] gives a
    result with [Q] or this error, so neither a panic, nor another error, nor a lack of fuel;
    [wpx X m Q] allows the errors in [X] as well.

    ** What the theorems show

    - Round trips: all integer formats, strings, maps and sets of the stream layer, over any
      streams that satisfy the laws; the block codecs for every width and every block, by running
      encoder and decoder on words of symbolic bits (one run per width, evaluated by the kernel)
      and transporting the result to integers along the relation of [Words]; patched coding over
      any lawful block codec; file names and their generations; decoding of what UTF-8 encodes.
    - Refinement: of the hash map to a finite map, of the heap to a multiset, of the bit sets to
      sets of positions, of conjunctions to intersections, of the packed automata to graphs, of
      compiled tables to languages, of packed arrays to lists ([mutable_refines],
      [growable_refines], [paged_refines], and [Copy] against the interface in [Copy_correct]), for every sequence of operations ([run_ops_refines],
      [queue_ops_refine], [mutations_correct], [sparse_ops_refine], [createConjunction_intersects],
      [build_refines], [RunAutomaton_correct]).
    - Safety of files: in every reachable state of the index file deleter the files that a commit,
      a checkpoint or a caller holds exist and have exact counts ([reachable_files_alive]); with
      the default policy only the last commit stays ([commit_keeps_only_last]).
    - Languages: what each operation on automata does to the words that are accepted, from
      union and concatenation to determinization, complement and minus, inclusion, decimal
      intervals, regular expressions and the queries, with termination and without panics.
    - Types: what the parser returns is well-formed and uses only what the flags permit.
    - Where the code loses data, panics or differs from what it says: [Lucene99_lossy],
      [Or_overwrites], [Repeat_correct], [IsTotalRange_decides],
      [PForUtil_negative_panics], [writer_unknown_count_panics], the last part of [NextHighestPowerOfTwo_spec].

    ** What is not modelled

    The map from definitions to code is in the manifest, which also lists the parts left out
    and why.  Within the modelled parts: prefix sums of the Lucene99 codec, group varints,
    reading existing commits from disk, renderings as text; among the automata the Levenshtein
    automata (tables of parametric descriptions), string unions and intervals of byte strings,
    the conversion from code points to UTF-8 bytes and so byte run automata of automata over code
    points, finite-string iterators and case folding, which is an error in the code as it stands.
    The theorems on expressions are about those the parser makes: a node [RComplement] of anything
    but a letter or class, which no parsed expression has, would overflow its limit on the work.
    Of packed integers: the block, delta and monotonic variants and the direct readers and writers.
    Outside them: the index writer and its threads, the file formats of the codecs, scoring, and
    the packages that sit on top of search. *)

From stdpp Require Import base tactics numbers list gmap strings.
From Stdlib Require Import ZArith Lia.

Local Open Scope Z_scope.

(** * Results of Go code

    A Go function returns a value, returns an [error], or panics.  [NoFuel]
    marks a loop whose bound on the number of iterations was too small: no
    theorem of the development that states a result can be met by it. *)

Inductive go (E A : Type) : Type :=
  | Ret (a : A)
  | Err (e : E)
  | Panic
  | NoFuel.
Arguments Ret {E A} a.
Arguments Err {E A} e.
Arguments Panic {E A}.
Arguments NoFuel {E A}.

#[global] Instance go_ret {E} : MRet (go E) := fun A a => Ret a.
#[global] Instance go_bind {E} : MBind (go E) := fun A B f m =>
  match m with
  | Ret a => f a
  | Err e => Err e
  | Panic => Panic
  | NoFuel => NoFuel
  end.

Lemma go_bind_ret {E A B} (a : A) (f : A → go E B) : (Ret a ≫= f) = f a.
Proof. reflexivity. Qed.

Lemma go_bind_Ret_inv {E A B} (m : go E A) (f : A → go E B) b :
  (m ≫= f) = Ret b → ∃ a, m = Ret a ∧ f a = Ret b.
Proof. destruct m; try discriminate. intros H. by exists a. Qed.

Lemma go_bind_assoc {E A B C} (m : go E A) (f : A → go E B) (g : B → go E C) :
  (m ≫= f) ≫= g = m ≫= (fun a => f a ≫= g).
Proof. by destruct m. Qed.

(** Go's [error] values: the end-of-stream sentinel and everything built with
    [fmt.Errorf] or [errors.New]. *)
Inductive goerr : Type :=
  | EOF
  | Errorf (msg : string).

Abbreviation M := (go goerr).

(** [assert]-style guard: panic unless the condition holds. *)
Definition must {E} (b : bool) : go E unit := if b then Ret tt else Panic.

(** * Slices

    [aget] and [aset] are Go's [l[i]] and [l[i] = v]: out of range they
    panic. *)

Definition aget {E A} (l : list A) (i : Z) : go E A :=
  if i <? 0 then Panic else
  match l !! Z.to_nat i with Some a => Ret a | None => Panic end.

Definition aset {E A} (l : list A) (i : Z) (v : A) : go E (list A) :=
  if i <? 0 then Panic else
  if Z.of_nat (length l) <=? i then Panic else Ret (<[Z.to_nat i := v]> l).

Lemma aget_Ret {E A} (l : list A) i a :
  0 ≤ i → l !! Z.to_nat i = Some a → @aget E A l i = Ret a.
Proof. intros Hi Hl. unfold aget. destruct (Z.ltb_spec i 0); [lia|]. by rewrite Hl. Qed.

Lemma aget_inv {E A} (l : list A) i a :
  @aget E A l i = Ret a → 0 ≤ i ∧ l !! Z.to_nat i = Some a.
Proof.
  unfold aget. destruct (Z.ltb_spec i 0); [discriminate|].
  destruct (l !! Z.to_nat i) eqn:?; [|discriminate]. intros [= ->]. by split.
Qed.

Lemma aget_ex {E A} (l : list A) i :
  0 ≤ i < Z.of_nat (length l) → ∃ a, @aget E A l i = Ret a ∧ l !! Z.to_nat i = Some a.
Proof.
  intros Hi. destruct (lookup_lt_is_Some_2 l (Z.to_nat i)) as [a Ha]; [lia|].
  exists a. split; [|done]. apply aget_Ret; [lia|done].
Qed.

Lemma aset_Ret {E A} (l : list A) i v :
  0 ≤ i < Z.of_nat (length l) → @aset E A l i v = Ret (<[Z.to_nat i := v]> l).
Proof.
  intros Hi. unfold aset. destruct (Z.ltb_spec i 0); [lia|].
  destruct (Z.leb_spec (Z.of_nat (length l)) i); [lia|done].
Qed.

Lemma aset_inv {E A} (l l' : list A) i v :
  @aset E A l i v = Ret l' →
  0 ≤ i < Z.of_nat (length l) ∧ l' = <[Z.to_nat i := v]> l.
Proof.
  unfold aset. destruct (Z.ltb_spec i 0); [discriminate|].
  destruct (Z.leb_spec (Z.of_nat (length l)) i); [discriminate|].
  intros [= <-]. split; [lia|done].
Qed.

(** [nthZ d l i] is [l[i]] where the index is in range. *)
Definition nthZ {A} (d : A) (l : list A) (i : Z) : A := default d (l !! Z.to_nat i).

Lemma nthZ_aget {E A} (d : A) (l : list A) i :
  0 ≤ i < Z.of_nat (length l) → @aget E A l i = Ret (nthZ d l i).
Proof.
  intros Hi. destruct (aget_ex (E:=E) l i Hi) as (a & -> & Ha). unfold nthZ. by rewrite Ha.
Qed.

Lemma nthZ_lookup {A} (d : A) (l : list A) i :
  0 ≤ i < Z.of_nat (length l) → l !! Z.to_nat i = Some (nthZ d l i).
Proof.
  intros Hi. destruct (lookup_lt_is_Some_2 l (Z.to_nat i)) as [a Ha]; [lia|].
  unfold nthZ. by rewrite Ha.
Qed.

Lemma nthZ_insert {A} (d : A) (l : list A) i j x :
  0 ≤ i < Z.of_nat (length l) → 0 ≤ j →
  nthZ d (<[Z.to_nat i := x]> l) j = if decide (i = j) then x else nthZ d l j.
Proof.
  intros Hi Hj. unfold nthZ. case_decide; subst.
  - by rewrite list_lookup_insert_eq by lia.
  - by rewrite list_lookup_insert_ne by lia.
Qed.

Lemma nthZ_app {A} (d : A) (l k : list A) j :
  0 ≤ j < Z.of_nat (length l) → nthZ d (l ++ k) j = nthZ d l j.
Proof. intros Hj. unfold nthZ. by rewrite lookup_app_l by lia. Qed.

Lemma nthZ_take {A} (d : A) (l : list A) n j : 0 ≤ j < Z.of_nat n → nthZ d (take n l) j = nthZ d l j.
Proof. intros Hj. unfold nthZ. by rewrite lookup_take_lt by lia. Qed.

Lemma aget_mid {E A} (pre suf : list A) x i :
  i = Z.of_nat (length pre) → @aget E A (pre ++ x :: suf) i = Ret x.
Proof. intros ->. apply aget_Ret; [lia|]. rewrite Nat2Z.id. by apply list_lookup_middle. Qed.

Lemma aset_mid {E A} (pre suf : list A) x v i :
  i = Z.of_nat (length pre) → @aset E A (pre ++ x :: suf) i v = Ret (pre ++ v :: suf).
Proof.
  intros ->. rewrite aset_Ret by (rewrite length_app; simpl; lia).
  rewrite Nat2Z.id, insert_app_r_alt, Nat.sub_diag; [done|lia].
Qed.

(** [copy(dst, src)] *)
Definition go_copy {A} (dst src : list A) : list A :=
  take (length dst) src ++ drop (length src) dst.

(** [l[a:b]], for a slice whose capacity is its length, and [copy(l[a:], src)]. *)
Definition slice {E A} (l : list A) (a b : Z) : go E (list A) :=
  if (0 <=? a) && (a <=? b) && (b <=? Z.of_nat (length l))
  then Ret (take (Z.to_nat (b - a)) (drop (Z.to_nat a) l)) else Panic.

Definition copy_at {E A} (l : list A) (a : Z) (src : list A) : go E (list A) :=
  if (0 <=? a) && (a <=? Z.of_nat (length l))
  then Ret (take (Z.to_nat a) l ++ go_copy (drop (Z.to_nat a) l) src) else Panic.

Lemma slice_mid {E A} (l1 l2 l3 : list A) a b :
  a = Z.of_nat (length l1) → b = a + Z.of_nat (length l2) → @slice E A (l1 ++ l2 ++ l3) a b = Ret l2.
Proof.
  intros -> ->. unfold slice. rewrite !length_app.
  rewrite !(proj2 (Z.leb_le _ _)) by lia. cbn [andb].
  by rewrite Nat2Z.id, drop_app_length, Z.add_simpl_l, Nat2Z.id, take_app_length.
Qed.

Lemma slice_all {E A} (l1 l2 : list A) a b :
  a = Z.of_nat (length l1) → b = a + Z.of_nat (length l2) → @slice E A (l1 ++ l2) a b = Ret l2.
Proof. intros Ha Hb. rewrite <- (app_nil_r l2) at 1. by apply slice_mid. Qed.

(** A copy into the middle: [l2] gives way to as many elements. *)
Lemma copy_at_mid {E A} (l1 l2 l3 src : list A) a :
  a = Z.of_nat (length l1) → length l2 = length src →
  @copy_at E A (l1 ++ l2 ++ l3) a src = Ret (l1 ++ src ++ l3).
Proof.
  intros -> Hl. unfold copy_at, go_copy. rewrite !length_app.
  rewrite !(proj2 (Z.leb_le _ _)) by lia. cbn [andb].
  rewrite Nat2Z.id, take_app_length, drop_app_length, length_app.
  rewrite firstn_all2 by lia. by rewrite <- Hl, drop_app_length.
Qed.

(** * Loops *)

(** [go_for n i body st] runs [body i], [body (i+1)], ..., [n] times. *)
Fixpoint go_for {E St} (n : nat) (i : Z) (body : Z → St → go E St) (st : St) : go E St :=
  match n with
  | O => Ret st
  | S n' => st' ← body i st; go_for n' (i + 1) body st'
  end.

(** [for cond(st) { st = body(st) }], at most [fuel] iterations. *)
Fixpoint go_while {E St} (fuel : nat) (cond : St → bool) (body : St → go E St) (st : St)
  : go E St :=
  if cond st then
    match fuel with
    | O => NoFuel
    | S f => st' ← body st; go_while f cond body st'
    end
  else Ret st.

Lemma go_for_inv {E St} (I : Z → St → Prop) (n : nat) lo (body : Z → St → go E St) st :
  I lo st →
  (∀ i s, lo ≤ i < lo + Z.of_nat n → I i s → ∃ s', body i s = Ret s' ∧ I (i + 1) s') →
  ∃ s', go_for n lo body st = Ret s' ∧ I (lo + Z.of_nat n) s'.
Proof.
  revert lo st. induction n as [|n IH]; intros lo st H0 Hstep.
  - exists st. split; [done|]. by rewrite Z.add_0_r.
  - destruct (Hstep lo st) as (s1 & E1 & I1); [lia|done|].
    destruct (IH (lo + 1) s1 I1) as (s' & E' & I').
    { intros i s Hi HI. apply Hstep; [lia|done]. }
    exists s'. split; [simpl; by rewrite E1|].
    by replace (lo + Z.of_nat (S n)) with (lo + 1 + Z.of_nat n) by lia.
Qed.

Lemma go_for_ext {E St} n lo (f g : Z → St → go E St) st :
  (∀ i s, lo ≤ i < lo + Z.of_nat n → f i s = g i s) → go_for n lo f st = go_for n lo g st.
Proof.
  revert lo st. induction n as [|n IH]; intros lo st Hfg; [done|]. simpl.
  rewrite Hfg by lia. destruct (g lo st); [|done..]. apply IH. intros. apply Hfg. lia.
Qed.

(** Total correctness of a [for cond] loop: an invariant and a measure that
    decreases in every iteration, with enough fuel. *)
Lemma go_while_inv {E St} (I : St → Prop) (mu : St → Z) (fuel : nat) cond
    (body : St → go E St) st :
  I st → mu st ≤ Z.of_nat fuel →
  (∀ s, I s → cond s = true →
     0 < mu s ∧ ∃ s', body s = Ret s' ∧ I s' ∧ mu s' < mu s) →
  ∃ s', go_while fuel cond body st = Ret s' ∧ I s' ∧ cond s' = false.
Proof.
  revert st. induction fuel as [|f IH]; intros st HI Hmu Hstep; simpl;
    destruct (cond st) eqn:Hc.
  - destruct (Hstep st HI Hc) as [? _]. lia.
  - by exists st.
  - destruct (Hstep st HI Hc) as (? & s' & E' & I' & Hlt).
    destruct (IH s' I' ltac:(lia) Hstep) as (s'' & ? & ?).
    exists s''. rewrite E'. by split.
  - by exists st.
Qed.

(** [for { ... }], at most [n] iterations: a step returns a new state or leaves the
    loop. The bound is binary, so that loops over all document numbers can be
    evaluated. *)
Fixpoint repeat_step {E St R} (n : positive) (step : St → go E (St + R)) (st : St) : go E (St + R) :=
  match n with
  | xH => step st
  | xO p =>
      r ← repeat_step p step st;
      match r with inl st => repeat_step p step st | inr x => Ret (inr x) end
  | xI p =>
      r ← step st;
      match r with
      | inl st =>
          r ← repeat_step p step st;
          match r with inl st => repeat_step p step st | inr x => Ret (inr x) end
      | inr x => Ret (inr x)
      end
  end.

Definition go_loop {E St R} (n : positive) (step : St → go E (St + R)) (st : St) : go E R :=
  r ← repeat_step n step st;
  match r with inl _ => NoFuel | inr x => Ret x end.

(** ** Weakest preconditions

    [wpx X r Q]: [r] is a result with [Q], or an error with [X]; panics and exhausted
    loops are excluded always.  [wp safe r Q] is the case in which [safe] excludes
    every error. *)
Definition wpx {E A} (X : E → Prop) (r : go E A) (Q : A → Prop) : Prop :=
  match r with Ret a => Q a | Err e => X e | Panic | NoFuel => False end.

Definition wp {E A} (safe : Prop) (r : go E A) (Q : A → Prop) : Prop :=
  match r with Ret a => Q a | Err _ => ¬ safe | Panic | NoFuel => False end.

Lemma wp_wpx {E A} safe (r : go E A) Q : wp safe r Q = wpx (fun _ => ¬ safe) r Q.
Proof. by destruct r. Qed.

Lemma wpx_bind {E A B} X (m : go E A) (f : A → go E B) Q :
  wpx X m (fun a => wpx X (f a) Q) → wpx X (m ≫= f) Q.
Proof. by destruct m. Qed.

Lemma wpx_mono {E A} (X X' : E → Prop) (m : go E A) (Q Q' : A → Prop) :
  wpx X m Q → (∀ e, X e → X' e) → (∀ a, Q a → Q' a) → wpx X' m Q'.
Proof. destruct m; cbn; auto. Qed.

Lemma wpx_post {E A} X (m : go E A) (Q Q' : A → Prop) : wpx X m Q → (∀ a, Q a → Q' a) → wpx X m Q'.
Proof. intros H HQ. by apply (wpx_mono X X m Q). Qed.

Lemma wp_bind {E A B} safe (m : go E A) (f : A → go E B) Q :
  wp safe m (fun a => wp safe (f a) Q) → wp safe (m ≫= f) Q.
Proof. by destruct m. Qed.

Lemma wp_mono {E A} (safe safe' : Prop) (m : go E A) (Q Q' : A → Prop) :
  wp safe m Q → (safe' → safe) → (∀ a, Q a → Q' a) → wp safe' m Q'.
Proof. destruct m; cbn; [auto|tauto|done|done]. Qed.

Lemma wp_Ret {E A} (safe : Prop) (m : go E A) (Q : A → Prop) :
  wp safe m Q → safe → ∃ a, m = Ret a ∧ Q a.
Proof. destruct m; cbn; [eauto|tauto|done|done]. Qed.

Lemma repeat_step_wpx {E St R} X (I : Z → St → Prop) (Q : R → Prop) (step : St → go E (St + R)) :
  (∀ m s, I m s → wpx X (step s) (fun r => match r with inl s' => ∃ m', m' < m ∧ I m' s' | inr x => Q x end)) →
  ∀ n m s, I m s →
  wpx X (repeat_step n step s)
    (fun r => match r with inl s' => ∃ m', m' ≤ m - Z.pos n ∧ I m' s' | inr x => Q x end).
Proof.
  intros Hstep.
  induction n as [p IH|p IH|]; intros m s HI; cbn [repeat_step].
  - apply wpx_bind. eapply wpx_post; [by apply Hstep|]. intros [s1|x]; [|done]. intros (m1 & Hm1 & HI1).
    apply wpx_bind. eapply wpx_post; [by apply IH|]. intros [s2|x]; [|done]. intros (m2 & Hm2 & HI2).
    eapply wpx_post; [by apply IH|]. intros [s3|x]; [|done]. intros (m3 & Hm3 & HI3). exists m3. split; [lia|done].
  - apply wpx_bind. eapply wpx_post; [by apply IH|]. intros [s2|x]; [|done]. intros (m2 & Hm2 & HI2).
    eapply wpx_post; [by apply IH|]. intros [s3|x]; [|done]. intros (m3 & Hm3 & HI3). exists m3. split; [lia|done].
  - eapply wpx_post; [by apply Hstep|]. intros [s1|x]; [|done]. intros (m1 & Hm1 & HI1). exists m1. split; [lia|done].
Qed.

(** Total correctness of such a loop: an invariant, and a measure that decreases and
    that the invariant bounds.  The measure need not be a function of the state. *)
Lemma go_loop_ghost {E St R} X (I : Z → St → Prop) (Q : R → Prop) n (step : St → go E (St + R)) m s :
  I m s → m < Z.pos n → (∀ m s, I m s → 0 ≤ m) →
  (∀ m s, I m s → wpx X (step s) (fun r => match r with inl s' => ∃ m', m' < m ∧ I m' s' | inr x => Q x end)) →
  wpx X (go_loop n step s) Q.
Proof.
  intros HI Hn Hpos Hstep. unfold go_loop. apply wpx_bind.
  eapply wpx_post; [by apply (repeat_step_wpx X I Q)|]. intros [s'|x]; [|done].
  intros (m' & Hm & HI'). specialize (Hpos m' s' HI'). lia.
Qed.

Lemma go_loop_wpx {E St R} X (I : St → Prop) (mu : St → Z) (Q : R → Prop) n (step : St → go E (St + R)) s :
  I s → mu s < Z.pos n → (∀ s, I s → 0 ≤ mu s) →
  (∀ s, I s → wpx X (step s) (fun r => match r with inl s' => I s' ∧ mu s' < mu s | inr x => Q x end)) →
  wpx X (go_loop n step s) Q.
Proof.
  intros HI Hn Hpos Hstep. apply (go_loop_ghost X (fun m s => I s ∧ m = mu s) Q n step (mu s)); [done|done| |].
  - intros m s' [HI' ->]. by apply Hpos.
  - intros m s' [HI' ->]. eapply wpx_post; [by apply Hstep|]. intros [s2|x]; [|done]. intros [HI2 Hlt]. by exists (mu s2).
Qed.

Lemma go_loop_wp {E St R} safe (I : St → Prop) (mu : St → Z) (Q : R → Prop) n (step : St → go E (St + R)) s :
  I s → mu s < Z.pos n → (∀ s, I s → 0 ≤ mu s) →
  (∀ s, I s → wp safe (step s) (fun r => match r with inl s' => I s' ∧ mu s' < mu s | inr x => Q x end)) →
  wp safe (go_loop n step s) Q.
Proof.
  intros HI Hn Hpos Hstep. rewrite wp_wpx. apply (go_loop_wpx _ I mu); [done..|].
  intros s' HI'. rewrite <- wp_wpx. by apply Hstep.
Qed.

(** A loop that panics before it can end. *)
Lemma repeat_step_panics {E St R} (I : Z → St → Prop) (step : St → go E (St + R)) :
  (∀ m s, I m s → step s = Panic ∨ ∃ s' m', step s = Ret (inl s') ∧ m' < m ∧ I m' s') →
  ∀ n m s, I m s →
  repeat_step n step s = Panic ∨ ∃ s' m', repeat_step n step s = Ret (inl s') ∧ m' ≤ m - Z.pos n ∧ I m' s'.
Proof.
  intros Hstep. induction n as [p IH|p IH|]; intros m s HI; cbn [repeat_step].
  - destruct (Hstep m s HI) as [->|(s1 & m1 & -> & Hm1 & HI1)]; [by left|]. rewrite go_bind_ret.
    destruct (IH m1 s1 HI1) as [->|(s2 & m2 & -> & Hm2 & HI2)]; [by left|]. rewrite go_bind_ret.
    destruct (IH m2 s2 HI2) as [->|(s3 & m3 & -> & Hm3 & HI3)]; [by left|]. right. exists s3, m3. split_and!; [done|lia|done].
  - destruct (IH m s HI) as [->|(s2 & m2 & -> & Hm2 & HI2)]; [by left|]. rewrite go_bind_ret.
    destruct (IH m2 s2 HI2) as [->|(s3 & m3 & -> & Hm3 & HI3)]; [by left|]. right. exists s3, m3. split_and!; [done|lia|done].
  - destruct (Hstep m s HI) as [->|(s1 & m1 & -> & Hm1 & HI1)]; [by left|]. right. exists s1, m1. split_and!; [done|lia|done].
Qed.

Lemma go_loop_panics {E St R} (I : St → Prop) (mu : St → Z) n (step : St → go E (St + R)) s :
  I s → mu s < Z.pos n → (∀ s, I s → 0 ≤ mu s) →
  (∀ s, I s → step s = Panic ∨ ∃ s', step s = Ret (inl s') ∧ I s' ∧ mu s' < mu s) →
  go_loop n step s = Panic.
Proof.
  intros HI Hn Hpos Hstep. unfold go_loop.
  destruct (repeat_step_panics (fun m s => I s ∧ m = mu s) step) with (n := n) (m := mu s) (s := s)
    as [->|(s' & m' & _ & Hm & HI' & ->)]; [|done|done|specialize (Hpos s' HI'); lia].
  intros m s0 [HI0 ->]. destruct (Hstep s0 HI0) as [|(s' & E' & HI' & Hlt)]; [by left|right; by exists s', (mu s')].
Qed.

Lemma go_for_app {E St} n m i (body : Z → St → go E St) st :
  go_for (n + m) i body st =
  (st' ← go_for n i body st; go_for m (i + Z.of_nat n) body st').
Proof.
  revert i st. induction n as [|n IH]; intros i st; simpl.
  - by rewrite Z.add_0_r.
  - destruct (body i st); simpl; try done.
    rewrite IH. by replace (i + 1 + Z.of_nat n) with (i + Z.pos (Pos.of_succ_nat n)) by lia.
Qed.

(** [for i := 0; i < n; i++ { l[i] = g(i) }] overwrites the first [n] elements. *)
Lemma go_for_overwrite {E A} (body : Z → list A → go E (list A)) (xs : list A) :
  (∀ i x l, xs !! i = Some x → body (Z.of_nat i) l = aset l (Z.of_nat i) x) →
  ∀ l, (length xs ≤ length l)%nat →
  go_for (length xs) 0 body l = Ret (xs ++ drop (length xs) l).
Proof.
  intros Hg l Hl.
  destruct (go_for_inv (E:=E) (fun i l' => l' = take (Z.to_nat i) xs ++ drop (Z.to_nat i) l)
    (length xs) 0 body l) as (l' & El & ->).
  - done.
  - intros i l' Hi ->. destruct (lookup_lt_is_Some_2 xs (Z.to_nat i)) as [x Hx]; [lia|].
    pose proof (fun l => Hg _ _ l Hx) as Hgi. rewrite Z2Nat.id in Hgi by lia. rewrite Hgi.
    rewrite aset_Ret; [eexists; split; [reflexivity|]|].
    + rewrite insert_app_r_alt by (rewrite length_take; lia).
      rewrite length_take, Nat.min_l, Nat.sub_diag by lia.
      replace (Z.to_nat (i + 1)) with (S (Z.to_nat i)) by lia.
      rewrite (take_S_r _ _ _ Hx), <- app_assoc. f_equal.
      destruct (lookup_lt_is_Some_2 l (Z.to_nat i)) as [y Hy]; [lia|].
      by rewrite (drop_S _ _ _ Hy).
    + rewrite length_app, length_take, length_drop. lia.
  - rewrite El. f_equal. rewrite Z.add_0_l, Nat2Z.id. by rewrite firstn_all.
Qed.

(** * Machine integers

    A Go integer of width [w] is the [Z] it denotes; [uwrap w] and [swrap w]
    are the conversions to the unsigned and the signed type of width [w]. *)

Definition uwrap (w z : Z) : Z := z mod 2 ^ w.
Definition swrap (w z : Z) : Z := (z + 2 ^ (w - 1)) mod 2 ^ w - 2 ^ (w - 1).

Definition in_uint (w z : Z) : Prop := 0 ≤ z < 2 ^ w.
Definition in_sint (w z : Z) : Prop := - 2 ^ (w - 1) ≤ z < 2 ^ (w - 1).

Abbreviation to_byte := (uwrap 8).
Abbreviation to_uint32 := (uwrap 32).
Abbreviation to_uint64 := (uwrap 64).
Abbreviation to_int16 := (swrap 16).
Abbreviation to_int32 := (swrap 32).
Abbreviation to_int64 := (swrap 64).
Abbreviation is_byte := (in_uint 8).

Lemma pow2_pos n : 0 ≤ n → 0 < 2 ^ n.
Proof. intros. by apply Z.pow_pos_nonneg. Qed.

Lemma pow2_split w : 0 < w → 2 ^ w = 2 * 2 ^ (w - 1).
Proof.
  intros. replace w with (Z.succ (w - 1)) at 1 by lia. rewrite Z.pow_succ_r by lia. lia.
Qed.

Lemma uwrap_range w z : 0 ≤ w → in_uint w (uwrap w z).
Proof. intros. apply Z.mod_pos_bound. by apply pow2_pos. Qed.

Lemma swrap_range w z : 0 < w → in_sint w (swrap w z).
Proof.
  intros Hw. unfold in_sint, swrap.
  pose proof (Z.mod_pos_bound (z + 2 ^ (w - 1)) (2 ^ w) (pow2_pos w ltac:(lia))).
  pose proof (pow2_split w Hw). lia.
Qed.

Lemma uwrap_id w z : in_uint w z → uwrap w z = z.
Proof. intros H. by apply Z.mod_small. Qed.

Lemma swrap_id w z : 0 < w → in_sint w z → swrap w z = z.
Proof.
  intros Hw [H1 H2]. unfold swrap. pose proof (pow2_split w Hw).
  rewrite Z.mod_small by lia. lia.
Qed.

Lemma uwrap_swrap w z : 0 < w → uwrap w (swrap w z) = uwrap w z.
Proof.
  intros Hw. unfold uwrap, swrap. rewrite Zminus_mod_idemp_l. f_equal. lia.
Qed.

Lemma swrap_uwrap w z : 0 < w → swrap w (uwrap w z) = swrap w z.
Proof. intros Hw. unfold uwrap, swrap. by rewrite Zplus_mod_idemp_l. Qed.

Lemma uwrap_uwrap w z : uwrap w (uwrap w z) = uwrap w z.
Proof. apply Zmod_mod. Qed.

Lemma swrap_swrap w z : 0 < w → swrap w (swrap w z) = swrap w z.
Proof. intros Hw. rewrite <- (swrap_uwrap w (swrap w z)), uwrap_swrap, swrap_uwrap; done. Qed.

(** ** Bits *)

Lemma uwrap_testbit w z i :
  0 ≤ w → 0 ≤ i → Z.testbit (uwrap w z) i = (i <? w) && Z.testbit z i.
Proof.
  intros Hw Hi. unfold uwrap. destruct (Z.ltb_spec i w).
  - by rewrite Z.mod_pow2_bits_low.
  - by rewrite Z.mod_pow2_bits_high by lia.
Qed.

Lemma in_uint_testbit_high w z i : 0 ≤ w → in_uint w z → w ≤ i → Z.testbit z i = false.
Proof. intros Hw H Hi. rewrite <- (uwrap_id w z H). apply Z.mod_pow2_bits_high. lia. Qed.

Lemma in_sint_testbit_high w z i :
  0 < w → in_sint w z → w - 1 ≤ i → Z.testbit z i = (z <? 0).
Proof.
  intros Hw [H1 H2] Hi. destruct (Z.ltb_spec z 0).
  - replace z with (Z.lnot (Z.pred (- z))) by (unfold Z.lnot; lia).
    rewrite Z.lnot_spec by lia.
    rewrite (in_uint_testbit_high (w - 1)); [done|lia| |lia]. split; lia.
  - apply (in_uint_testbit_high (w - 1)); [lia| |lia]. split; lia.
Qed.

Lemma in_sint_testbit_sign w z : 0 < w → in_sint w z → Z.testbit z (w - 1) = (z <? 0).
Proof. intros. apply (in_sint_testbit_high w); [done..|lia]. Qed.

Lemma swrap_testbit w z i :
  0 < w → 0 ≤ i → Z.testbit (swrap w z) i = Z.testbit z (Z.min i (w - 1)).
Proof.
  intros Hw Hi.
  assert (Hlow : ∀ j, 0 ≤ j < w → Z.testbit (swrap w z) j = Z.testbit z j).
  { intros j Hj. transitivity (Z.testbit (uwrap w (swrap w z)) j).
    - rewrite uwrap_testbit by lia. by rewrite (proj2 (Z.ltb_lt j w)) by lia.
    - rewrite uwrap_swrap, uwrap_testbit by lia. by rewrite (proj2 (Z.ltb_lt j w)) by lia. }
  destruct (Z.le_gt_cases i (w - 1)).
  - rewrite Z.min_l by lia. apply Hlow. lia.
  - rewrite Z.min_r by lia. rewrite <- (Hlow (w - 1)) by lia.
    rewrite (in_sint_testbit_sign w) by auto using swrap_range.
    apply in_sint_testbit_high with w; auto using swrap_range. lia.
Qed.

(** Two integers of the same width are equal when their bits are. *)
Lemma sint_bits_inj w a b :
  0 < w → in_sint w a → in_sint w b →
  (∀ i, 0 ≤ i < w → Z.testbit a i = Z.testbit b i) → a = b.
Proof.
  intros Hw Ha Hb H. apply Z.bits_inj'. intros n Hn.
  rewrite <- (swrap_id w a), <- (swrap_id w b) by done.
  rewrite !swrap_testbit by done. apply H. lia.
Qed.

Lemma uint_bits_inj w a b :
  0 ≤ w → in_uint w a → in_uint w b →
  (∀ i, 0 ≤ i < w → Z.testbit a i = Z.testbit b i) → a = b.
Proof.
  intros Hw Ha Hb H. apply Z.bits_inj'. intros n Hn.
  rewrite <- (uwrap_id w a), <- (uwrap_id w b) by done.
  rewrite !uwrap_testbit by done. destruct (Z.ltb_spec n w); [|done].
  simpl. apply H. lia.
Qed.

Lemma land_uint w a b : 0 ≤ w → 0 ≤ a → in_uint w b → in_uint w (Z.land a b).
Proof.
  intros Hw Ha [Hb1 Hb2]. split; [by apply Z.land_nonneg; left|].
  rewrite <- (uwrap_id w b) by done. unfold uwrap.
  rewrite <- Z.land_ones by done. rewrite Z.land_assoc, Z.land_ones by done.
  apply Z.mod_pos_bound. by apply pow2_pos.
Qed.

Lemma lor_uint w a b : 0 ≤ w → in_uint w a → in_uint w b → in_uint w (Z.lor a b).
Proof.
  intros Hw Ha Hb. split; [apply Z.lor_nonneg; split; [apply Ha|apply Hb]|].
  enough (Hm : Z.lor a b = uwrap w (Z.lor a b)).
  { rewrite Hm. apply uwrap_range. done. }
  apply Z.bits_inj'. intros n Hn. rewrite uwrap_testbit, Z.lor_spec by done.
  destruct (Z.ltb_spec n w); [done|].
  by rewrite !(in_uint_testbit_high w) by done.
Qed.

Lemma shiftr_uint w a n : 0 ≤ n → in_uint w a → in_uint w (Z.shiftr a n).
Proof.
  intros Hn [H1 H2]. split; [by apply Z.shiftr_nonneg|].
  rewrite Z.shiftr_div_pow2 by done. pose proof (pow2_pos n Hn).
  apply Z.le_lt_trans with a; [|done]. apply Z.div_le_upper_bound; nia.
Qed.

(** The range of the elements of a concrete list, by computation. *)
Lemma in_uints_check w l :
  forallb (fun x => (0 <=? x) && (x <? 2 ^ w)) l = true → Forall (in_uint w) l.
Proof.
  rewrite forallb_forall. intros H. apply Forall_forall. intros x Hx.
  apply list_elem_of_In, H, andb_true_iff in Hx as [?%Z.leb_le ?%Z.ltb_lt]. done.
Qed.

(** Facts about all bytes, by enumeration. *)
Lemma byte_forall (P : Z → bool) b :
  forallb P (seqZ 0 256) = true → is_byte b → P b = true.
Proof.
  intros HP Hb. rewrite forallb_forall in HP. apply HP, list_elem_of_In, elem_of_seqZ.
  unfold in_uint in Hb. lia.
Qed.

Lemma to_byte_is_byte z : is_byte (to_byte z).
Proof. by apply uwrap_range. Qed.
#[export] Hint Resolve to_byte_is_byte : core.

(** [ints] brings range hypotheses of the usual widths down to numerals. *)
Ltac ints_simpl :=
  unfold in_sint, in_uint in *;
  change (2 ^ (64 - 1)) with 9223372036854775808 in *;
  change (2 ^ 64) with 18446744073709551616 in *;
  change (2 ^ (32 - 1)) with 2147483648 in *;
  change (2 ^ 32) with 4294967296 in *;
  change (2 ^ (16 - 1)) with 32768 in *;
  change (2 ^ 16) with 65536 in *;
  change (2 ^ 8) with 256 in *.
Ltac ints := ints_simpl; lia.
