(* ===== verification/BitUtil.v ===== *)
(** Bit twiddling of [util/bit_util.go]: powers of two and zig-zag coding
    (interleaving is in [Morton]).  A Go [int] is a 64-bit integer; the values stay in
    range throughout, so no wrap-around is written where none can happen. *)

From stdpp Require Import base tactics numbers list.
From Stdlib Require Import ZArith Lia.
From S2P Require Import Prelude.

Local Open Scope Z_scope.

(** ** Definitions *)

(** [NextHighestPowerOfTwo]: [v |= v >> k] for [k = 1, 2, 4, 8, 16]. *)
Definition smear (v k : Z) : Z := Z.lor v (Z.shiftr v k).

Definition NextHighestPowerOfTwo (v : Z) : Z :=
  if v <=? 0 then v else
  let v := v - 1 in
  let v := smear v 1 in
  let v := smear v 2 in
  let v := smear v 4 in
  let v := smear v 8 in
  let v := smear v 16 in
  to_int64 (v + 1).

Definition NextHighestPowerOfTwoInt64 (v : Z) : Z :=
  if v <=? 0 then v else
  let v := v - 1 in
  let v := smear v 1 in
  let v := smear v 2 in
  let v := smear v 4 in
  let v := smear v 8 in
  let v := smear v 16 in
  let v := smear v 32 in
  to_int64 (v + 1).

Definition IsZeroOrPowerOfTwo (x : Z) : bool := Z.land x (to_int64 (x - 1)) =? 0.

Definition ZigZagEncodeInt (i : Z) : Z :=
  let v := to_int32 i in
  Z.lxor (Z.shiftr v 31) (to_int32 (Z.shiftl v 1)).

Definition ZigZagEncodeInt64 (l : Z) : Z :=
  Z.lxor (Z.shiftr l 63) (to_int64 (Z.shiftl l 1)).

Definition ZigZagDecodeInt (i : Z) : Z :=
  let u := to_uint32 i in
  to_int32 (Z.lxor (Z.shiftr u 1) (to_uint32 (to_int32 (- to_int32 (Z.land i 1))))).

Definition ZigZagDecodeInt64 (l : Z) : Z :=
  Z.lxor (to_int64 (Z.shiftr (to_uint64 l) 1)) (to_int64 (- Z.land l 1)).

(** ** Zig-zag *)

Lemma shiftr_sign w v : 0 < w → in_sint w v →
  Z.shiftr v (w - 1) = if v <? 0 then -1 else 0.
Proof.
  intros Hw [H1 H2]. rewrite Z.shiftr_div_pow2 by lia.
  pose proof (pow2_pos (w - 1) ltac:(lia)).
  destruct (Z.ltb_spec v 0).
  - symmetry. apply Z.div_unique with (v + 2 ^ (w - 1)); lia.
  - apply Z.div_small. lia.
Qed.

(** The arithmetic meaning of the encoding, at any width. *)
Lemma zigzag_encode_arith w v : 1 < w → in_sint w v →
  uwrap w (Z.lxor (Z.shiftr v (w - 1)) (swrap w (Z.shiftl v 1)))
  = if v <? 0 then -2 * v - 1 else 2 * v.
Proof.
  intros Hw Hv. rewrite shiftr_sign by (done || lia).
  pose proof (pow2_split w ltac:(lia)) as Hp.
  assert (Hs : Z.shiftl v 1 = 2 * v) by (rewrite Z.shiftl_mul_pow2 by lia; lia).
  destruct Hv as [Hv1 Hv2]. destruct (Z.ltb_spec v 0).
  - rewrite Z.lxor_m1_l. rewrite Hs. unfold Z.lnot.
    unfold uwrap. replace (Z.pred (- swrap w (2 * v))) with (-1 - swrap w (2 * v)) by lia.
    rewrite <- Zminus_mod_idemp_r.
    change (swrap w (2 * v) mod 2 ^ w) with (uwrap w (swrap w (2 * v))).
    rewrite uwrap_swrap by lia. unfold uwrap. rewrite Zminus_mod_idemp_r.
    rewrite Z.mod_small by lia. lia.
  - rewrite Z.lxor_0_l, uwrap_swrap, Hs by lia. apply uwrap_id. split; lia.
Qed.

Lemma land_1_mod a : Z.land a 1 = a mod 2.
Proof. change 1 with (Z.ones 1) at 1. by rewrite Z.land_ones by lia. Qed.

Lemma zigzag_parity v : (if v <? 0 then -2 * v - 1 else 2 * v) mod 2 = if v <? 0 then 1 else 0.
Proof. destruct (v <? 0); [|]; Z.div_mod_to_equations; lia. Qed.

Lemma zigzag_half v : Z.shiftr (if v <? 0 then -2 * v - 1 else 2 * v) 1 = if v <? 0 then - v - 1 else v.
Proof.
  rewrite Z.shiftr_div_pow2 by lia. change (2 ^ 1) with 2.
  destruct (v <? 0); Z.div_mod_to_equations; lia.
Qed.

Lemma mod2_uwrap w z : 0 < w → uwrap w z mod 2 = z mod 2.
Proof.
  intros Hw. unfold uwrap. rewrite (pow2_split w Hw).
  pose proof (pow2_pos (w - 1) ltac:(lia)).
  rewrite Z.rem_mul_r by lia.
  rewrite Z.mul_comm, Z_mod_plus_full. by rewrite Zmod_mod.
Qed.

Lemma lxor_sign_decode v :
  Z.lxor (if v <? 0 then - v - 1 else v) (- (if v <? 0 then 1 else 0)) = v.
Proof.
  destruct (v <? 0); simpl.
  - rewrite Z.lxor_m1_r. unfold Z.lnot. lia.
  - by rewrite Z.lxor_0_r.
Qed.

Lemma ZigZagEncodeInt_uint v : in_sint 32 v →
  to_uint32 (ZigZagEncodeInt v) = if v <? 0 then -2 * v - 1 else 2 * v.
Proof.
  intros Hv. unfold ZigZagEncodeInt. rewrite (swrap_id 32 v) by (done || lia).
  change 31 with (32 - 1). apply zigzag_encode_arith; [lia|done].
Qed.

Lemma ZigZagEncodeInt64_uint v : in_sint 64 v →
  to_uint64 (ZigZagEncodeInt64 v) = if v <? 0 then -2 * v - 1 else 2 * v.
Proof.
  intros Hv. unfold ZigZagEncodeInt64. change 63 with (64 - 1).
  apply zigzag_encode_arith; [lia|done].
Qed.

Lemma ZigZagDecodeInt_uint i v :
  in_sint 32 v → to_uint32 i = (if v <? 0 then -2 * v - 1 else 2 * v) →
  ZigZagDecodeInt i = v.
Proof.
  intros Hv Hi. unfold ZigZagDecodeInt. rewrite Hi, zigzag_half, land_1_mod.
  rewrite <- (mod2_uwrap 32 i) by lia. rewrite Hi, zigzag_parity.
  assert (Hm : to_int32 (- to_int32 (if v <? 0 then 1 else 0)) = - (if v <? 0 then 1 else 0))
    by (destruct (v <? 0); reflexivity).
  rewrite Hm. transitivity (Z.lxor (if v <? 0 then - v - 1 else v) (- (if v <? 0 then 1 else 0)));
    [|apply lxor_sign_decode].
  apply (sint_bits_inj 32); [lia|by apply swrap_range| |].
  { rewrite lxor_sign_decode. done. }
  intros n Hn. rewrite swrap_testbit, Z.min_l, !Z.lxor_spec, uwrap_testbit by lia.
  by rewrite (proj2 (Z.ltb_lt n 32)) by lia.
Qed.

Lemma ZigZagDecodeInt64_uint i v :
  in_sint 64 v → to_uint64 i = (if v <? 0 then -2 * v - 1 else 2 * v) →
  ZigZagDecodeInt64 i = v.
Proof.
  intros Hv Hi. unfold ZigZagDecodeInt64. rewrite Hi, zigzag_half, land_1_mod.
  rewrite <- (mod2_uwrap 64 i) by lia. rewrite Hi, zigzag_parity.
  rewrite (swrap_id 64 (if v <? 0 then - v - 1 else v)), (swrap_id 64); [apply lxor_sign_decode|..];
    destruct (Z.ltb_spec v 0); ints.
Qed.

(** ** Smearing: the next power of two *)

(** [filled v n u]: bit [i] of [u] is set iff one of the [n] bits of [v] from
    [i] up is. *)
Definition filled (v n u : Z) : Prop :=
  ∀ i, 0 ≤ i → Z.testbit u i = true ↔ ∃ k, 0 ≤ k < n ∧ Z.testbit v (i + k) = true.

Lemma filled_id v : filled v 1 v.
Proof.
  intros i Hi. split.
  - intros H. exists 0. split; [lia|]. by rewrite Z.add_0_r.
  - intros (k & Hk & H). by replace (i + k) with i in H by lia.
Qed.

Lemma filled_smear v n u : 0 < n → filled v n u → filled v (2 * n) (smear u n).
Proof.
  intros Hn H i Hi. unfold smear.
  rewrite Z.lor_spec, Z.shiftr_spec, orb_true_iff, (H i), (H (i + n)) by lia.
  split.
  - intros [(k & Hk & Hb)|(k & Hk & Hb)].
    + exists k. split; [lia|done].
    + exists (n + k). split; [lia|]. by rewrite Z.add_assoc.
  - intros (k & Hk & Hb). destruct (Z.lt_ge_cases k n).
    + left. exists k. split; [lia|done].
    + right. exists (k - n). split; [lia|]. by replace (i + n + (k - n)) with (i + k) by lia.
Qed.

Lemma filled_ones v n u : 0 < v < 2 ^ n → 0 ≤ n → filled v n u → u = Z.ones (Z.log2 v + 1).
Proof.
  intros Hv Hn H. pose proof (Z.log2_nonneg v).
  assert (Hlog : Z.log2 v < n) by (apply Z.log2_lt_pow2; lia).
  apply Z.bits_inj'. intros i Hi. rewrite Z.testbit_ones_nonneg by lia.
  apply eq_true_iff_eq. rewrite (H i Hi). split.
  - intros (k & Hk & Hb). apply Z.ltb_lt. destruct (Z.lt_ge_cases (Z.log2 v) (i + k)); [|lia].
    rewrite Z.bits_above_log2 in Hb by lia. done.
  - intros Hl%Z.ltb_lt. exists (Z.log2 v - i). split; [lia|].
    replace (i + (Z.log2 v - i)) with (Z.log2 v) by lia. apply Z.bit_log2. lia.
Qed.

Lemma filled_zero n u : 0 < n → filled 0 n u → u = 0.
Proof.
  intros Hn H. apply Z.bits_inj'. intros i Hi. rewrite Z.bits_0.
  apply not_true_is_false. rewrite (H i Hi). intros (k & _ & Hb). by rewrite Z.bits_0 in Hb.
Qed.

Lemma filled_next v n u : 0 < n → 0 ≤ v < 2 ^ n → filled v n u → u + 1 = 2 ^ Z.log2_up (v + 1).
Proof.
  intros Hn Hv H. destruct (Z.eq_dec v 0) as [->|Hv0].
  - by rewrite (filled_zero n u).
  - rewrite (filled_ones v n u) by (done || lia).
    rewrite Z.log2_up_eqn by lia. rewrite Z.ones_equiv.
    replace (Z.pred (v + 1)) with v by lia. unfold Z.succ. lia.
Qed.

Lemma log2_up_bound x n : 0 < x ≤ 2 ^ n → 0 ≤ n → 0 < 2 ^ Z.log2_up x ≤ 2 ^ n.
Proof.
  intros Hx Hn. split; [apply pow2_pos, Z.log2_up_nonneg|].
  apply Z.pow_le_mono_r; [lia|]. rewrite <- (Z.log2_up_pow2 n) by done.
  apply Z.log2_up_le_mono. lia.
Qed.

Lemma smear32_filled v :
  filled v 32 (smear (smear (smear (smear (smear v 1) 2) 4) 8) 16).
Proof.
  apply (filled_smear v 16); [lia|]. apply (filled_smear v 8); [lia|].
  apply (filled_smear v 4); [lia|]. apply (filled_smear v 2); [lia|].
  apply (filled_smear v 1); [lia|]. apply filled_id.
Qed.

Lemma NextHighestPowerOfTwo_small x :
  0 < x ≤ 2 ^ 32 → NextHighestPowerOfTwo x = 2 ^ Z.log2_up x.
Proof.
  intros Hx. unfold NextHighestPowerOfTwo. destruct (Z.leb_spec x 0); [lia|]. simpl.
  rewrite (filled_next (x - 1) 32) by (lia || apply smear32_filled).
  replace (x - 1 + 1) with x by lia. apply swrap_id; [lia|].
  pose proof (log2_up_bound x 32 Hx ltac:(lia)). ints.
Qed.

Lemma NextHighestPowerOfTwoInt64_small x :
  0 < x ≤ 2 ^ 62 → NextHighestPowerOfTwoInt64 x = 2 ^ Z.log2_up x.
Proof.
  intros Hx. unfold NextHighestPowerOfTwoInt64. destruct (Z.leb_spec x 0); [lia|]. simpl.
  rewrite (filled_next (x - 1) 64);
    [|lia|change (2 ^ 62) with 4611686018427387904 in Hx; change (2 ^ 64) with 18446744073709551616; lia
     |apply (filled_smear _ 32); [lia|apply smear32_filled]].
  replace (x - 1 + 1) with x by lia. apply swrap_id; [lia|].
  pose proof (log2_up_bound x 62 Hx ltac:(lia)) as [H1 H2].
  change (2 ^ 62) with 4611686018427387904 in H2. ints.
Qed.

(** Rounding up to a power of two: both functions leave non-positive values
    alone and return the least power of two that is not smaller, the [int64]
    one for every argument up to [2^62], the [int] one up to [2^32].  Beyond
    that the [int] version, which spreads the highest bit over 32 places only,
    can return a number that is no power of two. *)
Theorem NextHighestPowerOfTwo_spec :
  (∀ x, x ≤ 0 → NextHighestPowerOfTwo x = x ∧ NextHighestPowerOfTwoInt64 x = x)
  ∧ (∀ x, 0 < x ≤ 2 ^ 32 → NextHighestPowerOfTwo x = 2 ^ Z.log2_up x)
  ∧ (∀ x, 0 < x ≤ 2 ^ 62 → NextHighestPowerOfTwoInt64 x = 2 ^ Z.log2_up x)
  ∧ IsZeroOrPowerOfTwo (NextHighestPowerOfTwo (2 ^ 33 + 1)) = false.
Proof.
  split_and!.
  - intros x Hx. unfold NextHighestPowerOfTwo, NextHighestPowerOfTwoInt64.
    by rewrite (proj2 (Z.leb_le x 0)).
  - apply NextHighestPowerOfTwo_small.
  - apply NextHighestPowerOfTwoInt64_small.
  - vm_compute. reflexivity.
Qed.
