(* ===== verification/ArrayUtil.v ===== *)
(** Growing slices: [util/array_util.go]. *)

From stdpp Require Import base tactics numbers list.
From Stdlib Require Import ZArith Lia.
From S2P Require Import Prelude.

Local Open Scope Z_scope.

Definition NumBytesArrayHeader : Z := 24.
Definition MaxArrayLength : Z := 2147483647 - NumBytesArrayHeader.
Definition NumBytesObjectRef : Z := 8.

Definition roundUpToAlignment (size bytesPerElement : Z) : Z :=
  if bytesPerElement =? 4 then Z.land (size + 1) (Z.lnot 1)
  else if bytesPerElement =? 2 then Z.land (size + 3) (Z.lnot 3)
  else if bytesPerElement =? 1 then Z.land (size + 7) (Z.lnot 7)
  else size.

(** [oversize]. The panic on a size that is too large is an argument, for callers that
    tell it apart from other panics. *)
Definition oversize {E} (tooLarge : go E Z) (minTargetSize bytesPerElement : Z) : go E Z :=
  if minTargetSize <? 0 then Panic else
  if minTargetSize =? 0 then mret 0 else
  if MaxArrayLength <? minTargetSize then tooLarge else
  let extra := Z.shiftr minTargetSize 3 in
  let extra := if extra <? 3 then 3 else extra in
  let newSize := minTargetSize + extra in
  if (newSize + 7 <? 0) || (MaxArrayLength <? newSize + 7) then mret MaxArrayLength else
  mret (roundUpToAlignment newSize bytesPerElement).

(** A copy of exactly this length. *)
Definition GrowExact {E} (array : list Z) (newLength : Z) : go E (list Z) :=
  if newLength <? Z.of_nat (length array) then Panic
  else mret (array ++ repeat 0 (Z.to_nat newLength - length array)).

Example oversize_run :
  map (fun n => oversize (E := goerr) Panic n 4) [-1; 0; 1; 100; 2147483620; 2147483624] =
  [Panic; Ret 0; Ret 4; Ret 112; Ret 2147483623; Panic].
Proof. reflexivity. Qed.

(** What a slice of 8-byte elements grows to: by an eighth, but at least by three, up to
    the largest length. *)
Definition grown (n : Z) : Z :=
  let m := n + Z.max 3 (n / 8) in if MaxArrayLength <? m + 7 then MaxArrayLength else m.

Lemma oversize_grown {E} (tooLarge : go E Z) n :
  0 < n → oversize tooLarge n 8 = if MaxArrayLength <? n then tooLarge else Ret (grown n).
Proof.
  intros Hn. unfold oversize, grown, MaxArrayLength, NumBytesArrayHeader. rewrite Z.shiftr_div_pow2 by lia.
  change (2 ^ 3) with 8. cbv zeta.
  rewrite (proj2 (Z.ltb_ge n 0)), (proj2 (Z.eqb_neq n 0)) by lia. destruct (Z.ltb_spec (2147483647 - 24) n); [done|].
  assert (0 ≤ n / 8) by (apply Z.div_pos; lia).
  assert (E1 : (if n / 8 <? 3 then 3 else n / 8) = Z.max 3 (n / 8)) by (destruct (Z.ltb_spec (n / 8) 3); lia).
  rewrite E1, (proj2 (Z.ltb_ge (n + Z.max 3 (n / 8) + 7) 0)) by lia. cbn [orb].
  change (roundUpToAlignment (n + Z.max 3 (n / 8)) 8) with (n + Z.max 3 (n / 8)).
  by destruct (Z.ltb_spec (2147483647 - 24) (n + Z.max 3 (n / 8) + 7)).
Qed.

Lemma grown_ge n : 0 < n ≤ MaxArrayLength → n ≤ grown n.
Proof. intros Hn. unfold grown. destruct (Z.ltb_spec MaxArrayLength (n + Z.max 3 (n / 8) + 7)); lia. Qed.
