(* ===== verification/DataIO.v ===== *)
(** The byte-stream layer: the [DataOutput]/[DataInput] interfaces, the
    default methods of [store/data_output.go] and [spi/base_data_input.go]
    written against them, and the array-backed streams of
    [store/byte_array_data_output.go] and [store/byte_array_data_input.go]
    that implement them. *)

From stdpp Require Import base tactics numbers list gmap strings.
From Stdlib Require Import ZArith Lia.
From S2P Require Import Prelude BitUtil.

Local Open Scope Z_scope.

(** * Interfaces

    [PrimitiveWriter] and [DataInputCore] of the code.  A buffer argument is a
    Go slice: [out_bytes b offset length] writes [b[offset:offset+length]],
    [in_bytes b offset len] fills [b[offset:offset+len]] and returns the
    buffer.  The second class of each pair is what a client may rely on. *)

Class DataOutput (S : Type) := {
  out_byte : Z → S → M S;
  out_bytes : list Z → Z → Z → S → M S;
  (** what has been written so far *)
  out_view : S → list Z;
  (** [out_room s n]: [n] more bytes can be written *)
  out_room : S → nat → Prop
}.

Definition slice (b : list Z) (offset len : Z) : list Z :=
  take (Z.to_nat len) (drop (Z.to_nat offset) b).

Definition slice_ok (b : list Z) (offset len : Z) : Prop :=
  0 ≤ offset ∧ 0 ≤ len ∧ offset + len ≤ Z.of_nat (length b).

(** [copy(b[offset:], bs)] *)
Definition splice (b : list Z) (offset : Z) (bs : list Z) : list Z :=
  let n := Nat.min (length bs) (length b - Z.to_nat offset) in
  take (Z.to_nat offset) b ++ take n bs ++ drop (Z.to_nat offset + n) b.

Class DataOutputLaws (S : Type) `{DataOutput S} : Prop := {
  out_room_le s n m : (m ≤ n)%nat → out_room s n → out_room s m;
  out_byte_law b s n :
    is_byte b → out_room s (1 + n) →
    ∃ s', out_byte b s = Ret s' ∧ out_view s' = out_view s ++ [b] ∧ out_room s' n;
  out_bytes_law b offset len s n :
    slice_ok b offset len → Forall is_byte (slice b offset len) →
    out_room s (Z.to_nat len + n) →
    ∃ s', out_bytes b offset len s = Ret s'
      ∧ out_view s' = out_view s ++ slice b offset len ∧ out_room s' n
}.

Class DataInput (S : Type) := {
  in_byte : S → M (Z * S);
  in_bytes : list Z → Z → Z → S → M (list Z * S);
  (** an upper bound on the number of bytes not read yet *)
  in_left : S → nat;
  (** [in_at s l]: the stream is well formed and [l] are the bytes not read yet *)
  in_at : S → list Z → Prop
}.

Class DataInputLaws (S : Type) `{DataInput S} : Prop := {
  in_left_law s l : in_at s l → (length l ≤ in_left s)%nat;
  in_byte_law s b rest :
    in_at s (b :: rest) → ∃ s', in_byte s = Ret (b, s') ∧ in_at s' rest;
  in_byte_eof s : in_at s [] → in_byte s = Err EOF;
  in_bytes_law s buf offset bs rest :
    in_at s (bs ++ rest) → slice_ok buf offset (Z.of_nat (length bs)) →
    ∃ s', in_bytes buf offset (Z.of_nat (length bs)) s = Ret (splice buf offset bs, s')
      ∧ in_at s' rest;
  in_bytes_eof s l buf offset len :
    in_at s l → Z.of_nat (length l) < len → in_bytes buf offset len s = Err EOF
}.

(** [GetFilePointer] and [SetPosition] of an [IndexInput]. *)
Class SeekableInput (S : Type) := {
  in_pos : S → Z;
  in_seek : Z → S → M S
}.

Class SeekableInputLaws (S : Type) `{DataInput S} `{SeekableInput S} : Prop := {
  in_seek_law s bs rest : in_at s (bs ++ rest) →
    ∃ s', in_seek (in_pos s + Z.of_nat (length bs)) s = Ret s' ∧ in_at s' rest
}.

(** [f], at the head of [bs], moves behind it. *)
Definition skips {S} `{DataInput S} (f : S → M S) (bs : list Z) : Prop :=
  ∀ s rest, in_at s (bs ++ rest) → ∃ s', f s = Ret s' ∧ in_at s' rest.

(** * Specifications of encoders and decoders *)

(** [f] appends exactly [bs], whenever there is room for them. *)
Definition emits {S} `{DataOutput S} (f : S → M S) (bs : list Z) : Prop :=
  ∀ s n, out_room s (length bs + n) →
    ∃ s', f s = Ret s' ∧ out_view s' = out_view s ++ bs ∧ out_room s' n.

(** [f], at the head of [bs], consumes exactly [bs] and returns [a]. *)
Definition consumes {S A} `{DataInput S} (f : S → M (A * S)) (bs : list Z) (a : A) : Prop :=
  ∀ s rest, in_at s (bs ++ rest) → ∃ s', f s = Ret (a, s') ∧ in_at s' rest.

Section Spec.
Context {S : Type} `{DataOutputLaws S}.

Lemma emits_ret : emits (fun s : S => Ret s) [].
Proof. intros s n Hr. exists s. by rewrite app_nil_r. Qed.

Lemma emits_byte b : is_byte b → emits (out_byte b) [b].
Proof. intros Hb s n Hr. by apply out_byte_law. Qed.

Lemma emits_bind (f g : S → M S) bs cs :
  emits f bs → emits g cs → emits (fun s => s' ← f s; g s') (bs ++ cs).
Proof.
  intros Hf Hg s n Hr. rewrite length_app, <- Nat.add_assoc in Hr.
  destruct (Hf s _ Hr) as (s1 & E1 & V1 & R1).
  destruct (Hg s1 n R1) as (s2 & E2 & V2 & R2).
  exists s2. rewrite E1. simpl. rewrite E2, V2, V1, app_assoc. done.
Qed.

Lemma emits_cons b (g : S → M S) cs :
  is_byte b → emits g cs → emits (fun s => s' ← out_byte b s; g s') (b :: cs).
Proof. intros. apply (emits_bind _ _ [b]); [by apply emits_byte|done]. Qed.

Lemma emits_slice b offset len :
  slice_ok b offset len → Forall is_byte (slice b offset len) →
  emits (out_bytes b offset len) (slice b offset len).
Proof.
  intros Hok Hb s n Hr. apply out_bytes_law; [done..|].
  unfold slice in Hr. rewrite length_take, length_drop in Hr.
  destruct Hok as (? & ? & ?). by rewrite Nat.min_l in Hr by lia.
Qed.

Lemma bytes_slice_all (b : list Z) : slice b 0 (Z.of_nat (length b)) = b.
Proof. unfold slice. by rewrite Nat2Z.id, drop_0, firstn_all. Qed.

Lemma emits_bytes b : Forall is_byte b → emits (out_bytes b 0 (Z.of_nat (length b))) b.
Proof.
  intros Hb. rewrite <- (bytes_slice_all b) at 3. apply emits_slice.
  - unfold slice_ok. lia.
  - by rewrite bytes_slice_all.
Qed.

Lemma emits_ext (f g : S → M S) bs : (∀ s, f s = g s) → emits f bs → emits g bs.
Proof. intros E Hf s n Hr. rewrite <- E. by apply Hf. Qed.
End Spec.

Section SpecIn.
Context {S : Type} `{DataInputLaws S}.

Lemma consumes_ret {A} (a : A) : consumes (fun s : S => Ret (a, s)) [] a.
Proof. intros s rest Hv. by exists s. Qed.

Lemma consumes_byte b : consumes in_byte [b] b.
Proof. intros s rest Hv. by apply in_byte_law. Qed.

Lemma consumes_bind {A B} (f : S → M (A * S)) (g : A → S → M (B * S)) bs cs a b :
  consumes f bs a → consumes (g a) cs b →
  consumes (fun s => '(a, s') ← f s; g a s') (bs ++ cs) b.
Proof.
  intros Hf Hg s rest Hv. rewrite <- app_assoc in Hv.
  destruct (Hf s _ Hv) as (s1 & E1 & V1). destruct (Hg s1 _ V1) as (s2 & E2 & V2).
  exists s2. rewrite E1. simpl. by rewrite E2.
Qed.

Lemma consumes_fmap {A B} (f : S → M (A * S)) (h : A → B) bs a :
  consumes f bs a → consumes (fun s => '(a, s') ← f s; mret (h a, s')) bs (h a).
Proof.
  intros Hf s rest Hv. destruct (Hf s rest Hv) as (s1 & E1 & V1).
  exists s1. by rewrite E1.
Qed.

Lemma consumes_ext {A} (f g : S → M (A * S)) bs a :
  (∀ s, f s = g s) → consumes f bs a → consumes g bs a.
Proof. intros E Hf s rest Hv. rewrite <- E. by apply Hf. Qed.
End SpecIn.

(** * [BaseDataOutput] *)

Section BaseDataOutput.
Context {S : Type} `{DataOutput S}.

Definition WriteInt (i : Z) (s : S) : M S :=
  s ← out_byte (to_byte i) s;
  s ← out_byte (to_byte (Z.shiftr i 8)) s;
  s ← out_byte (to_byte (Z.shiftr i 16)) s;
  out_byte (to_byte (Z.shiftr i 24)) s.

Definition WriteShort (i : Z) (s : S) : M S :=
  s ← out_byte (to_byte i) s;
  out_byte (to_byte (Z.shiftr i 8)) s.

(** The loop shared by [WriteVInt] and [writeSignedVLong], at width [w]:
    [for (val & ^0x7F) != 0 { write (val & 0x7F) | 0x80; val >>= 7 }]. *)
Definition write_varint (w : Z) (fuel : nat) (val : Z) (s : S) : M S :=
  '(val, s) ← go_while fuel
    (fun '(val, _) => negb (Z.land val (uwrap w (Z.lnot 127)) =? 0))
    (fun '(val, s) =>
       s ← out_byte (to_byte (Z.lor (Z.land val 127) 128)) s;
       mret (Z.shiftr val 7, s))
    (val, s);
  out_byte (to_byte val) s.

Definition WriteVInt (i : Z) (s : S) : M S := write_varint 32 5 (to_uint32 i) s.

Definition WriteZInt (i : Z) (s : S) : M S := WriteVInt (to_int32 (ZigZagEncodeInt i)) s.

Definition WriteLong (i : Z) (s : S) : M S :=
  s ← WriteInt (to_int32 i) s;
  WriteInt (to_int32 (Z.shiftr i 32)) s.

Definition writeSignedVLong (i : Z) (s : S) : M S := write_varint 64 10 (to_uint64 i) s.

Definition WriteVLong (i : Z) (s : S) : M S :=
  if i <? 0 then Err (Errorf "cannot write negative vLong") else writeSignedVLong i s.

Definition WriteZLong (i : Z) (s : S) : M S := writeSignedVLong (ZigZagEncodeInt64 i) s.

(** A Go string is its bytes. *)
Definition WriteString (str : list Z) (s : S) : M S :=
  s ← WriteVInt (to_int32 (Z.of_nat (length str))) s;
  out_bytes str 0 (Z.of_nat (length str)) s.

Fixpoint write_pairs (l : list (list Z * list Z)) (s : S) : M S :=
  match l with
  | [] => Ret s
  | (k, v) :: l' => s ← WriteString k s; s ← WriteString v s; write_pairs l' s
  end.

(** [for k, v := range m] visits the entries in an order the language leaves
    open: the order [l] is an argument. *)
Definition WriteMapOfStrings (l : list (list Z * list Z)) (s : S) : M S :=
  s ← WriteVInt (to_int32 (Z.of_nat (length l))) s;
  write_pairs l s.

Fixpoint write_strings (l : list (list Z)) (s : S) : M S :=
  match l with
  | [] => Ret s
  | v :: l' => s ← WriteString v s; write_strings l' s
  end.

Definition WriteSetOfStrings (l : list (list Z)) (s : S) : M S :=
  s ← WriteVInt (to_int32 (Z.of_nat (length l))) s;
  write_strings l s.

Definition copyBufferSize : Z := 16384.

(** [CopyBytes]: the state of the loop is the reader, the writer, the copy
    buffer and the number of bytes left.  The buffer is a field allocated at
    the first call ([None] before it) and kept for the next ones. *)
Definition CopyBytes {I} `{DataInput I} (inp : I) (numBytes : Z)
    (copyBuffer : option (list Z)) (s : S) : M (I * S * option (list Z)) :=
  if numBytes <? 0 then Err (Errorf "numBytes must be non-negative") else
  let buf := default (repeat 0 (Z.to_nat copyBufferSize)) copyBuffer in
  '(inp, s, buf, _) ← go_while (Z.to_nat numBytes)
    (fun '(_, _, _, rem) => 0 <? rem)
    (fun '(inp, s, buf, rem) =>
       let toCopy := if copyBufferSize <? rem then copyBufferSize else rem in
       '(buf, inp) ← in_bytes buf 0 toCopy inp;
       s ← out_bytes buf 0 toCopy s;
       mret (inp, s, buf, rem - toCopy))
    (inp, s, buf, numBytes);
  mret (inp, s, Some buf).
End BaseDataOutput.

(** * [BaseDataInput] *)

Section BaseDataInput.
Context {S : Type} `{DataInput S}.

Definition ReadShort (s : S) : M (Z * S) :=
  '(b1, s) ← in_byte s;
  '(b2, s) ← in_byte s;
  mret (to_int16 (Z.lor (to_int16 (Z.shiftl (Z.land b2 255) 8)) (Z.land b1 255)), s).

Definition ReadInt (s : S) : M (Z * S) :=
  '(b1, s) ← in_byte s;
  '(b2, s) ← in_byte s;
  '(b3, s) ← in_byte s;
  '(b4, s) ← in_byte s;
  mret (Z.lor (Z.lor (Z.lor (to_int32 (Z.shiftl b4 24)) (to_int32 (Z.shiftl b3 16)))
                     (to_int32 (Z.shiftl b2 8))) b1, s).

(** The loop shared by [ReadVInt] and [ReadVLong] at width [w]; it reads a
    byte per iteration, so the number of unread bytes bounds it. *)
Definition read_varint (w : Z) (s : S) : M (Z * S) :=
  let fuel := in_left s in
  '(b, s) ← in_byte s;
  '(_, i, _, s) ← go_while fuel
    (fun '(b, _, _, _) => negb (Z.land b 128 =? 0))
    (fun '(_, i, shift, s) =>
       '(b, s) ← in_byte s;
       mret (b, Z.lor i (swrap w (Z.shiftl (Z.land b 127) shift)), shift + 7, s))
    (b, Z.land b 127, 7, s);
  mret (i, s).

Definition ReadVInt (s : S) : M (Z * S) := read_varint 32 s.

Definition ReadZInt (s : S) : M (Z * S) :=
  '(v, s) ← ReadVInt s; mret (to_int32 (ZigZagDecodeInt v), s).

Definition ReadLong (s : S) : M (Z * S) :=
  '(low, s) ← ReadInt s;
  '(high, s) ← ReadInt s;
  mret (Z.lor (to_uint32 low) (to_int64 (Z.shiftl high 32)), s).

Definition ReadVLong (s : S) : M (Z * S) := read_varint 64 s.

Definition ReadZLong (s : S) : M (Z * S) :=
  '(v, s) ← ReadVLong s; mret (ZigZagDecodeInt64 v, s).

(** [ReadInts] and [ReadLongs]: [dst[offset+i] = v] for [i < length]. *)
Definition read_array (rd : S → M (Z * S)) (dst : list Z) (offset len : Z) (s : S)
  : M (list Z * S) :=
  if Z.of_nat (length dst) <? offset + len then Err (Errorf "index out of bounds") else
  go_for (Z.to_nat len) 0
    (fun i '(dst, s) =>
       '(v, s) ← rd s;
       dst ← aset dst (offset + i) v;
       mret (dst, s))
    (dst, s).

Definition ReadInts := read_array ReadInt.
Definition ReadLongs := read_array ReadLong.

(** [make([]byte, length)] panics when the length read is negative. *)
Definition ReadString (s : S) : M (list Z * S) :=
  '(len, s) ← ReadVInt s;
  if len <? 0 then Panic else
  in_bytes (repeat 0 (Z.to_nat len)) 0 len s.

Definition ReadMapOfStrings (s : S) : M (gmap (list Z) (list Z) * S) :=
  '(count, s) ← ReadVInt s;
  if count =? 0 then mret (∅, s) else
  go_for (Z.to_nat count) 0
    (fun _ '(res, s) =>
       '(k, s) ← ReadString s;
       '(v, s) ← ReadString s;
       mret (<[k := v]> res, s))
    (∅, s).

(** [make([]string, 0, count)] panics when [count] is negative. *)
Definition ReadSetOfStrings (s : S) : M (list (list Z) * S) :=
  '(count, s) ← ReadVInt s;
  if count =? 0 then mret ([], s) else
  if count <? 0 then Panic else
  go_for (Z.to_nat count) 0
    (fun _ '(res, s) => '(v, s) ← ReadString s; mret (res ++ [v], s))
    ([], s).
End BaseDataInput.

(** * Variable-length integers

    The reference encoding: base-128 digits, least significant first, the high
    bit of a byte telling that more follow. *)

Fixpoint leb128 (n : nat) (v : Z) : list Z :=
  match n with
  | O => []
  | S n => if v <? 128 then [v] else (v mod 128 + 128) :: leb128 n (v / 128)
  end.

Lemma leb128_bytes n v : 0 ≤ v → Forall is_byte (leb128 n v).
Proof.
  revert v. induction n as [|n IH]; intros v Hv; simpl; [constructor|].
  destruct (Z.ltb_spec v 128).
  - constructor; [split; [done|]; change (2 ^ 8) with 256; lia|constructor].
  - constructor; [|apply IH; apply Z.div_pos; lia].
    unfold in_uint. change (2 ^ 8) with 256. Z.div_mod_to_equations; lia.
Qed.

Lemma land_not127 w val : 7 ≤ w → in_uint w val →
  (Z.land val (uwrap w (Z.lnot 127)) =? 0) = (val <? 128).
Proof.
  intros Hw Hv.
  assert (E : Z.land val (uwrap w (Z.lnot 127)) = Z.shiftl (Z.shiftr val 7) 7).
  { apply Z.bits_inj'. intros i Hi.
    rewrite Z.land_spec, uwrap_testbit, Z.lnot_spec by lia.
    change 127 with (Z.ones 7). rewrite Z.testbit_ones_nonneg by lia.
    destruct (Z.ltb_spec i 7).
    - rewrite Z.shiftl_spec_low by lia. by rewrite !andb_false_r.
    - rewrite Z.shiftl_spec_high, Z.shiftr_spec by lia.
      replace (i - 7 + 7) with i by lia. destruct (Z.ltb_spec i w); simpl.
      + by rewrite andb_true_r.
      + by rewrite (in_uint_testbit_high w val i) by (done || lia). }
  rewrite E, Z.shiftl_mul_pow2, Z.shiftr_div_pow2 by lia. change (2 ^ 7) with 128.
  destruct Hv as [Hv _]. apply eq_true_iff_eq. rewrite Z.eqb_eq, Z.ltb_lt.
  split; intros; Z.div_mod_to_equations; lia.
Qed.

Lemma vint_byte val : to_byte (Z.lor (Z.land val 127) 128) = val mod 128 + 128.
Proof.
  change 127 with (Z.ones 7). rewrite Z.land_ones by lia. change (2 ^ 7) with 128.
  pose proof (Z.mod_pos_bound val 128 ltac:(lia)).
  assert (Hc : (implb (val mod 128 <? 128)
     (to_byte (Z.lor (val mod 128) 128) =? val mod 128 + 128)) = true).
  { apply (byte_forall (fun a => implb (a <? 128) (to_byte (Z.lor a 128) =? a + 128)));
      [by vm_compute|ints]. }
  rewrite (proj2 (Z.ltb_lt _ _)) in Hc by lia. by apply Z.eqb_eq.
Qed.

Section VarInt.
Context {S : Type} `{DataOutputLaws S}.

Lemma write_varint_emits w fuel val :
  7 ≤ w → in_uint w val → val < 128 ^ Z.of_nat (1 + fuel) →
  emits (fun s : S => write_varint w fuel val s) (leb128 (1 + fuel) val).
Proof.
  intros Hw. revert val. induction fuel as [|fuel IH]; intros val Hv Hlt;
    unfold write_varint; simpl.
  - rewrite land_not127 by done. change (128 ^ Z.of_nat (1 + 0)) with 128 in Hlt.
    rewrite (proj2 (Z.ltb_lt val 128)) by lia. simpl.
    destruct Hv as [Hv1 Hv2]. rewrite uwrap_id by ints. apply emits_byte. ints.
  - rewrite land_not127 by done. destruct (Z.ltb_spec val 128); simpl.
    + destruct Hv as [Hv1 Hv2]. rewrite uwrap_id by ints. apply emits_byte. ints.
    + rewrite vint_byte. destruct Hv as [Hv1 Hv2].
      assert (Hq : Z.shiftr val 7 = val / 128) by (by rewrite Z.shiftr_div_pow2).
      rewrite Hq. intros s n Hr.
      assert (Hb : is_byte (val mod 128 + 128)).
      { unfold in_uint. change (2 ^ 8) with 256. Z.div_mod_to_equations; lia. }
      destruct (out_byte_law _ s _ Hb Hr) as (s1 & E1 & V1 & R1).
      destruct (IH (val / 128)) with (s := s1) (n := n) as (s2 & E2 & V2 & R2).
      { split; [Z.div_mod_to_equations; lia|].
        apply Z.le_lt_trans with val; [|done]. Z.div_mod_to_equations; lia. }
      { apply Z.div_lt_upper_bound; [lia|].
        replace (Z.of_nat (1 + Datatypes.S fuel)) with (Z.succ (Z.of_nat (1 + fuel))) in Hlt by lia.
        by rewrite Z.pow_succ_r in Hlt by lia. }
      { done. }
      exists s2. rewrite E1. split; [exact E2|]. rewrite V2, V1, <- app_assoc. done.
Qed.
End VarInt.

Lemma land127_mod a : Z.land a 127 = a mod 128.
Proof. change 127 with (Z.ones 7). by rewrite Z.land_ones. Qed.

Lemma land128_digit v : 0 ≤ v < 128 → Z.land v 128 = 0.
Proof.
  intros Hv. assert (Hc : implb (v <? 128) (Z.land v 128 =? 0) = true).
  { apply (byte_forall (fun a => implb (a <? 128) (Z.land a 128 =? 0))); [by vm_compute|ints]. }
  rewrite (proj2 (Z.ltb_lt _ _)) in Hc by lia. by apply Z.eqb_eq.
Qed.

Lemma land128_more d : 0 ≤ d < 128 → (Z.land (d + 128) 128 =? 0) = false.
Proof.
  intros Hd.
  assert (Hc : implb (d <? 128) (negb (Z.land (d + 128) 128 =? 0)) = true).
  { apply (byte_forall (fun a => implb (a <? 128) (negb (Z.land (a + 128) 128 =? 0))));
      [by vm_compute|ints]. }
  rewrite (proj2 (Z.ltb_lt _ _)) in Hc by lia. by apply negb_true_iff.
Qed.

(** Accumulating the next seven bits of [v] over the [sh] bits read so far. *)
Lemma varint_accumulate w v sh : 0 < w → 0 ≤ sh →
  Z.lor (swrap w (v mod 2 ^ sh)) (swrap w (Z.shiftl ((v / 2 ^ sh) mod 128) sh))
  = swrap w (v mod 2 ^ (sh + 7)).
Proof.
  intros Hw Hs. apply Z.bits_inj'. intros i Hi.
  rewrite Z.lor_spec, !swrap_testbit by lia. set (j := Z.min i (w - 1)).
  assert (Hj : 0 ≤ j) by lia. clearbody j.
  rewrite <- (Z.shiftr_div_pow2 v sh) by done. change 128 with (2 ^ 7).
  destruct (Z.lt_ge_cases j sh).
  - rewrite !Z.mod_pow2_bits_low, Z.shiftl_spec_low by lia. by rewrite orb_false_r.
  - rewrite Z.mod_pow2_bits_high, Z.shiftl_spec_high by lia. simpl.
    destruct (Z.lt_ge_cases j (sh + 7)).
    + rewrite !Z.mod_pow2_bits_low, Z.shiftr_spec by lia. f_equal. lia.
    + by rewrite !Z.mod_pow2_bits_high by lia.
Qed.

Section VarIntIn.
Context {S : Type} `{DataInputLaws S}.

(** The state of the reading loop after the digit of weight [2^sh]. *)
Lemma read_varint_loop w v0 n : 0 < w → in_uint w v0 →
  ∀ fuel sh (s : S) rest,
  0 ≤ sh →
  v0 / 2 ^ sh < 128 ^ Z.of_nat (1 + n) →
  (length (tail (leb128 (1 + n) (v0 / 2 ^ sh))) ≤ fuel)%nat →
  in_at s (tail (leb128 (1 + n) (v0 / 2 ^ sh)) ++ rest) →
  ∃ s' b sh',
    go_while fuel (fun '(b, _, _, _) => negb (Z.land b 128 =? 0))
      (fun '(_, i, shift, s) =>
         '(b, s) ← in_byte s;
         mret (b, Z.lor i (swrap w (Z.shiftl (Z.land b 127) shift)), shift + 7, s))
      (hd 0 (leb128 (1 + n) (v0 / 2 ^ sh)), swrap w (v0 mod 2 ^ (sh + 7)), sh + 7, s)
    = Ret (b, swrap w v0, sh', s') ∧ in_at s' rest.
Proof.
  intros Hw Hv0. induction n as [|n IH]; intros fuel sh s rest Hsh Hlt Hfuel Hview;
    pose proof (pow2_pos sh Hsh) as Hp;
    assert (Hv : 0 ≤ v0 / 2 ^ sh) by (destruct Hv0; apply Z.div_pos; lia).
  - change (128 ^ Z.of_nat (1 + 0)) with 128 in Hlt.
    simpl in *. rewrite (proj2 (Z.ltb_lt (v0 / 2 ^ sh) 128)) in * by lia. simpl in *.
    exists s, (v0 / 2 ^ sh), (sh + 7). split; [|done].
    destruct fuel; simpl; rewrite land128_digit by lia; simpl;
      (rewrite (Z.mod_small v0); [done|]); rewrite Z.pow_add_r by lia;
      change (2 ^ 7) with 128; destruct Hv0; split; try lia; Z.div_mod_to_equations; nia.
  - destruct (Z.ltb_spec (v0 / 2 ^ sh) 128) as [Hd|Hd].
    + simpl in *. rewrite (proj2 (Z.ltb_lt (v0 / 2 ^ sh) 128)) in * by lia. simpl in *.
      exists s, (v0 / 2 ^ sh), (sh + 7). split; [|done].
      destruct fuel; simpl; rewrite land128_digit by lia; simpl;
        (rewrite (Z.mod_small v0); [done|]); rewrite Z.pow_add_r by lia;
        change (2 ^ 7) with 128; destruct Hv0; split; try lia; Z.div_mod_to_equations; nia.
    + assert (Hdd : v0 / 2 ^ sh / 128 = v0 / 2 ^ (sh + 7)).
      { rewrite Z.pow_add_r by lia. change (2 ^ 7) with 128. by rewrite Z.div_div by lia. }
      assert (Hrec : leb128 (1 + Datatypes.S n) (v0 / 2 ^ sh)
        = ((v0 / 2 ^ sh) mod 128 + 128) :: leb128 (1 + n) (v0 / 2 ^ (sh + 7))).
      { rewrite <- Hdd. simpl. by rewrite (proj2 (Z.ltb_ge (v0 / 2 ^ sh) 128)) by lia. }
      rewrite Hrec in *. cbn [hd tail] in *.
      assert (Hne : leb128 (1 + n) (v0 / 2 ^ (sh + 7))
        = hd 0 (leb128 (1 + n) (v0 / 2 ^ (sh + 7))) :: tail (leb128 (1 + n) (v0 / 2 ^ (sh + 7))))
        by (simpl; by destruct (_ <? 128)).
      rewrite Hne in Hview, Hfuel. simpl in Hview, Hfuel.
      destruct fuel as [|fuel]; [lia|].
      destruct (in_byte_law s _ _ Hview) as (s1 & E1 & V1).
      cbn [go_while]. rewrite land128_more by (apply Z.mod_pos_bound; lia). cbn [negb].
      rewrite E1. cbn [mbind go_bind mret go_ret].
      assert (Hdig : Z.land (hd 0 (leb128 (1 + n) (v0 / 2 ^ (sh + 7)))) 127
        = (v0 / 2 ^ (sh + 7)) mod 128).
      { rewrite land127_mod. simpl. destruct (Z.ltb_spec (v0 / 2 ^ (sh + 7)) 128); simpl; [done|].
        rewrite Z.add_mod, Z_mod_same_full, Z.add_0_r, !Zmod_mod by lia. done. }
      simpl in E1. simpl in Hdig. rewrite Hdig, varint_accumulate by lia.
      replace (sh + 7 + 7) with ((sh + 7) + 7) by lia.
      apply IH; [lia| |simpl; lia|done].
      rewrite <- Hdd. apply Z.div_lt_upper_bound; [lia|].
      replace (Z.of_nat (1 + Datatypes.S n)) with (Z.succ (Z.of_nat (1 + n))) in Hlt by lia.
      by rewrite Z.pow_succ_r in Hlt by lia.
Qed.

Lemma read_varint_consumes w v n : 8 ≤ w → in_uint w v → v < 128 ^ Z.of_nat (1 + n) →
  consumes (fun s : S => read_varint w s) (leb128 (1 + n) v) (swrap w v).
Proof.
  intros Hw8 Hv Hlt s rest Hview. assert (Hw : 0 < w) by lia. unfold read_varint.
  assert (Hne : leb128 (1 + n) v = hd 0 (leb128 (1 + n) v) :: tail (leb128 (1 + n) v))
    by (simpl; by destruct (_ <? 128)).
  rewrite Hne in Hview. simpl in Hview.
  destruct (in_byte_law s _ _ Hview) as (s1 & E1 & V1).
  rewrite E1. cbn [mbind go_bind].
  assert (Hdig : Z.land (hd 0 (leb128 (1 + n) v)) 127 = swrap w (v mod 2 ^ (0 + 7))).
  { rewrite land127_mod. destruct Hv as [Hv1 Hv2].
    change (2 ^ (0 + 7)) with 128. pose proof (Z.mod_pos_bound v 128 ltac:(lia)).
    pose proof (Z.pow_le_mono_r 2 7 (w - 1) ltac:(lia) ltac:(lia)).
    rewrite swrap_id; [|lia|split; lia].
    simpl. destruct (Z.ltb_spec v 128); simpl; [done|].
    rewrite Z.add_mod, Z_mod_same_full, Z.add_0_r, !Zmod_mod by lia. done. }
  destruct (read_varint_loop w v n Hw Hv (in_left s) 0 s1 rest)
    as (s2 & b & sh & E2 & V2).
  { lia. } { by rewrite Z.div_1_r. }
  { rewrite Z.div_1_r. apply in_left_law in Hview. simpl in Hview |- *.
    rewrite length_app in Hview. lia. }
  { by rewrite Z.div_1_r. }
  exists s2. split; [|done]. rewrite Z.div_1_r, <- Hdig in E2. change (0 + 7) with 7 in E2.
  cbn [leb128 plus] in E2 |- *. rewrite E2. done.
Qed.
End VarIntIn.

(** * Fixed-width integers *)

Definition short_bytes (i : Z) : list Z := [to_byte i; to_byte (Z.shiftr i 8)].
Definition int_bytes (i : Z) : list Z :=
  [to_byte i; to_byte (Z.shiftr i 8); to_byte (Z.shiftr i 16); to_byte (Z.shiftr i 24)].
Definition long_bytes (i : Z) : list Z :=
  int_bytes (to_int32 i) ++ int_bytes (to_int32 (Z.shiftr i 32)).

(** Bit [i] of the byte of weight [2^k], shifted back to its place. *)
Lemma byte_at_testbit v k i : 0 ≤ k → 0 ≤ i →
  Z.testbit (Z.shiftl (to_byte (Z.shiftr v k)) k) i
  = (k <=? i) && (i <? k + 8) && Z.testbit v i.
Proof.
  intros Hk Hi. destruct (Z.leb_spec k i); simpl.
  - rewrite Z.shiftl_spec_high, uwrap_testbit, Z.shiftr_spec by lia.
    replace (i - k + k) with i by lia.
    destruct (Z.ltb_spec (i - k) 8), (Z.ltb_spec i (k + 8)); (done || lia).
  - by rewrite Z.shiftl_spec_low by lia.
Qed.

Lemma int_bytes_combine i : in_sint 32 i →
  Z.lor (Z.lor (Z.lor (to_int32 (Z.shiftl (to_byte (Z.shiftr i 24)) 24))
                      (to_int32 (Z.shiftl (to_byte (Z.shiftr i 16)) 16)))
               (to_int32 (Z.shiftl (to_byte (Z.shiftr i 8)) 8))) (to_byte i) = i.
Proof.
  intros Hi.
  assert (E0 : to_byte i = to_int32 (Z.shiftl (to_byte (Z.shiftr i 0)) 0)).
  { rewrite Z.shiftr_0_r, Z.shiftl_0_r. symmetry. apply swrap_id; [lia|].
    pose proof (to_byte_is_byte i). ints. }
  rewrite E0.
  rewrite <- (swrap_id 32 i) at 5 by (lia || done).
  apply Z.bits_inj'. intros n Hn. rewrite !Z.lor_spec, !swrap_testbit by lia.
  rewrite !byte_at_testbit by lia.
  destruct (Z.testbit i _); [|by rewrite !andb_false_r]. lia.
Qed.

Lemma short_bytes_combine i : in_sint 16 i →
  to_int16 (Z.lor (to_int16 (Z.shiftl (Z.land (to_byte (Z.shiftr i 8)) 255) 8))
                  (Z.land (to_byte i) 255)) = i.
Proof.
  intros Hi. change 255 with (Z.ones 8). rewrite !Z.land_ones by lia.
  change (_ mod 2 ^ 8) with (to_byte (to_byte (Z.shiftr i 8))) at 1.
  change (to_byte i mod 2 ^ 8) with (to_byte (to_byte i)). rewrite !uwrap_uwrap.
  apply (sint_bits_inj 16); [lia|by apply swrap_range|done|]. intros n Hn.
  rewrite swrap_testbit, Z.min_l, Z.lor_spec, swrap_testbit, Z.min_l by lia.
  rewrite byte_at_testbit, uwrap_testbit by lia.
  destruct (Z.testbit i n); [|by rewrite !andb_false_r]. lia.
Qed.

Lemma long_halves i : in_sint 64 i →
  Z.lor (to_uint32 (to_int32 i)) (to_int64 (Z.shiftl (to_int32 (Z.shiftr i 32)) 32)) = i.
Proof.
  intros Hi. apply Z.bits_inj'. intros n Hn.
  rewrite <- (swrap_id 64 i) at 3 by (lia || done).
  rewrite uwrap_swrap, Z.lor_spec, uwrap_testbit, !swrap_testbit by lia.
  destruct (Z.ltb_spec n 32); simpl.
  - rewrite Z.shiftl_spec_low, orb_false_r, Z.min_l by lia. done.
  - rewrite Z.shiftl_spec_high, swrap_testbit, Z.shiftr_spec by lia. f_equal. lia.
Qed.

Section FixedWidth.
Context {O I : Type} `{DataOutputLaws O} `{DataInputLaws I}.

Lemma WriteInt_emits i : emits (fun s : O => WriteInt i s) (int_bytes i).
Proof. repeat (apply emits_cons; [done|]). by apply emits_byte. Qed.

Lemma WriteShort_emits i : emits (fun s : O => WriteShort i s) (short_bytes i).
Proof. repeat (apply emits_cons; [done|]). by apply emits_byte. Qed.

Lemma WriteLong_emits i : emits (fun s : O => WriteLong i s) (long_bytes i).
Proof. apply emits_bind; apply WriteInt_emits. Qed.

Lemma ReadInt_consumes i : in_sint 32 i → consumes (fun s : I => ReadInt s) (int_bytes i) i.
Proof.
  intros Hi. rewrite <- (int_bytes_combine i Hi) at 2. unfold ReadInt, int_bytes.
  do 4 (eapply (consumes_bind _ _ [_]); [apply consumes_byte|]). apply consumes_ret.
Qed.

Lemma ReadShort_consumes i : in_sint 16 i → consumes (fun s : I => ReadShort s) (short_bytes i) i.
Proof.
  intros Hi. rewrite <- (short_bytes_combine i Hi) at 2. unfold ReadShort, short_bytes.
  do 2 (eapply (consumes_bind _ _ [_]); [apply consumes_byte|]). apply consumes_ret.
Qed.

Lemma ReadLong_consumes i : in_sint 64 i → consumes (fun s : I => ReadLong s) (long_bytes i) i.
Proof.
  intros Hi. rewrite <- (long_halves i Hi) at 2. unfold ReadLong, long_bytes.
  eapply consumes_bind; [by apply ReadInt_consumes, swrap_range|].
  rewrite <- (app_nil_r (int_bytes (to_int32 (Z.shiftr i 32)))).
  eapply consumes_bind; [by apply ReadInt_consumes, swrap_range|]. apply consumes_ret.
Qed.

(** The number of base-128 digits is at most five for 32 bits, ten for 64. *)
Definition vint_bytes (i : Z) : list Z := leb128 6 (to_uint32 i).
Definition vlong_bytes (i : Z) : list Z := leb128 11 (to_uint64 i).

Lemma vint_bytes_is_byte i : Forall is_byte (vint_bytes i).
Proof. apply leb128_bytes. by apply uwrap_range. Qed.

Lemma WriteVInt_emits i : emits (fun s : O => WriteVInt i s) (vint_bytes i).
Proof.
  apply (write_varint_emits 32 5); [lia|by apply uwrap_range|].
  pose proof (uwrap_range 32 i ltac:(lia)) as [_ Hu].
  eapply Z.lt_trans; [exact Hu|]. done.
Qed.

Lemma writeSignedVLong_emits i : emits (fun s : O => writeSignedVLong i s) (vlong_bytes i).
Proof.
  apply (write_varint_emits 64 10); [lia|by apply uwrap_range|].
  pose proof (uwrap_range 64 i ltac:(lia)) as [_ Hu].
  eapply Z.lt_trans; [exact Hu|]. done.
Qed.

Lemma ReadVInt_consumes i : in_sint 32 i → consumes (fun s : I => ReadVInt s) (vint_bytes i) i.
Proof.
  intros Hi. rewrite <- (swrap_id 32 i) at 2 by (lia || done).
  rewrite <- swrap_uwrap by lia.
  apply (read_varint_consumes 32 _ 5); [lia|by apply uwrap_range|].
  pose proof (uwrap_range 32 i ltac:(lia)) as [_ Hu].
  eapply Z.lt_trans; [exact Hu|]. done.
Qed.

Lemma ReadVLong_consumes i : in_sint 64 i → consumes (fun s : I => ReadVLong s) (vlong_bytes i) i.
Proof.
  intros Hi. rewrite <- (swrap_id 64 i) at 2 by (lia || done).
  rewrite <- swrap_uwrap by lia.
  apply (read_varint_consumes 64 _ 10); [lia|by apply uwrap_range|].
  pose proof (uwrap_range 64 i ltac:(lia)) as [_ Hu].
  eapply Z.lt_trans; [exact Hu|]. done.
Qed.
End FixedWidth.

(** * Strings, maps and sets of strings *)

Definition str_ok (s : list Z) : Prop := Forall is_byte s ∧ Z.of_nat (length s) < 2 ^ 31.

Definition string_bytes (s : list Z) : list Z := vint_bytes (Z.of_nat (length s)) ++ s.

Definition pairs_bytes (l : list (list Z * list Z)) : list Z :=
  concat (map (fun kv => string_bytes kv.1 ++ string_bytes kv.2) l).

Lemma int32_of_length (n : nat) : Z.of_nat n < 2 ^ 31 → in_sint 32 (Z.of_nat n).
Proof. change (2 ^ 31) with 2147483648. ints. Qed.

Lemma splice_all (buf bs : list Z) : length buf = length bs → splice buf 0 bs = bs.
Proof.
  intros Hl. unfold splice. simpl. rewrite Nat.sub_0_r, Hl, Nat.min_id, firstn_all.
  rewrite drop_ge by lia. apply app_nil_r.
Qed.

Section StringsOut.
Context {O : Type} `{DataOutputLaws O}.

Lemma WriteLen_emits (n : nat) : Z.of_nat n < 2 ^ 31 →
  emits (fun s : O => WriteVInt (to_int32 (Z.of_nat n)) s) (vint_bytes (Z.of_nat n)).
Proof.
  intros Hn. rewrite (swrap_id 32) by (lia || by apply int32_of_length). apply WriteVInt_emits.
Qed.

Lemma WriteString_emits str : str_ok str → emits (fun s : O => WriteString str s) (string_bytes str).
Proof.
  intros [Hb Hl]. unfold WriteString.
  apply (emits_bind _ _ (vint_bytes _)); [by apply WriteLen_emits|by apply emits_bytes].
Qed.

Lemma write_pairs_emits l : Forall (fun kv => str_ok kv.1 ∧ str_ok kv.2) l →
  emits (fun s : O => write_pairs l s) (pairs_bytes l).
Proof.
  induction 1 as [|[k v] l [Hk Hv] Hl IH]; simpl; [apply emits_ret|].
  unfold pairs_bytes. simpl. rewrite <- app_assoc.
  repeat (apply emits_bind; [by apply WriteString_emits|]). done.
Qed.

Lemma write_strings_emits l : Forall str_ok l →
  emits (fun s : O => write_strings l s) (concat (map string_bytes l)).
Proof.
  induction 1 as [|v l Hv Hl IH]; simpl; [apply emits_ret|].
  apply emits_bind; [by apply WriteString_emits|done].
Qed.

Lemma WriteMapOfStrings_emits l :
  Z.of_nat (length l) < 2 ^ 31 → Forall (fun kv => str_ok kv.1 ∧ str_ok kv.2) l →
  emits (fun s : O => WriteMapOfStrings l s) (vint_bytes (Z.of_nat (length l)) ++ pairs_bytes l).
Proof.
  intros Hn Hl. apply (emits_bind _ _ (vint_bytes _)); [by apply WriteLen_emits|].
  by apply write_pairs_emits.
Qed.

Lemma WriteSetOfStrings_emits l :
  Z.of_nat (length l) < 2 ^ 31 → Forall str_ok l →
  emits (fun s : O => WriteSetOfStrings l s)
    (vint_bytes (Z.of_nat (length l)) ++ concat (map string_bytes l)).
Proof.
  intros Hn Hl. apply (emits_bind _ _ (vint_bytes _)); [by apply WriteLen_emits|].
  by apply write_strings_emits.
Qed.
End StringsOut.

Section StringsIn.
Context {I : Type} `{DataInputLaws I}.

Lemma in_bytes_exact (bs : list Z) (s : I) rest :
  in_at s (bs ++ rest) →
  ∃ s', in_bytes (repeat 0 (length bs)) 0 (Z.of_nat (length bs)) s = Ret (bs, s')
    ∧ in_at s' rest.
Proof.
  intros Hs. destruct (in_bytes_law s (repeat 0 (length bs)) 0 bs rest Hs) as (s' & E & V).
  { unfold slice_ok. rewrite repeat_length. lia. }
  exists s'. rewrite E, splice_all by (by rewrite repeat_length). done.
Qed.

Lemma ReadString_consumes str : str_ok str →
  consumes (fun s : I => ReadString s) (string_bytes str) str.
Proof.
  intros [Hb Hl] s rest Hs. unfold string_bytes in Hs. rewrite <- app_assoc in Hs.
  destruct (ReadVInt_consumes _ (int32_of_length _ Hl) s _ Hs) as (s1 & E1 & V1).
  unfold ReadString. rewrite E1. simpl.
  rewrite (proj2 (Z.ltb_ge _ 0)), Nat2Z.id by lia. by apply in_bytes_exact.
Qed.

Lemma read_pairs_loop l : Forall (fun kv => str_ok kv.1 ∧ str_ok kv.2) l →
  ∀ i (res : gmap (list Z) (list Z)) (s : I) rest, in_at s (pairs_bytes l ++ rest) →
  ∃ s', go_for (length l) i
    (fun _ '((res, s) : gmap (list Z) (list Z) * I) =>
       '(k, s) ← ReadString s;
       '(v, s) ← ReadString s;
       mret (<[k := v]> res, s)) (res, s)
    = Ret (fold_left (fun m kv => <[kv.1 := kv.2]> m) l res, s') ∧ in_at s' rest.
Proof.
  induction 1 as [|[k v] l [Hk Hv] Hl IH]; intros i res s rest Hs; simpl.
  - by exists s.
  - unfold pairs_bytes in Hs. simpl in Hs. rewrite <- !app_assoc in Hs.
    destruct (ReadString_consumes k Hk s _ Hs) as (s1 & E1 & V1).
    destruct (ReadString_consumes v Hv s1 _ V1) as (s2 & E2 & V2).
    rewrite E1. simpl. rewrite E2. simpl. apply IH, V2.
Qed.

Lemma read_strings_loop l : Forall str_ok l →
  ∀ i res (s : I) rest, in_at s (concat (map string_bytes l) ++ rest) →
  ∃ s', go_for (length l) i
    (fun _ '(res, s) => '(v, s) ← ReadString s; mret (res ++ [v], s)) (res, s)
    = Ret (res ++ l, s') ∧ in_at s' rest.
Proof.
  induction 1 as [|v l Hv Hl IH]; intros i res s rest Hs; simpl.
  - exists s. by rewrite app_nil_r.
  - simpl in Hs. rewrite <- app_assoc in Hs.
    destruct (ReadString_consumes v Hv s _ Hs) as (s1 & E1 & V1).
    rewrite E1. simpl. destruct (IH (i + 1) (res ++ [v]) s1 rest V1) as (s2 & E2 & V2).
    exists s2. split; [|done]. rewrite E2, <- app_assoc. done.
Qed.

Lemma foldl_insert_perm (l : list (list Z * list Z)) (m : gmap (list Z) (list Z)) :
  l ≡ₚ map_to_list m → fold_left (fun m kv => <[kv.1 := kv.2]> m) l ∅ = m.
Proof.
  intros Hp. rewrite <- fold_left_rev_right.
  assert (E : ∀ r : list (list Z * list Z),
    fold_right (fun kv m => <[kv.1 := kv.2]> m) (∅ : gmap (list Z) (list Z)) r = list_to_map r).
  { induction r as [|[k v] r IH]; simpl; [done|]. by rewrite IH. }
  rewrite E. symmetry. apply list_to_map_flip. rewrite <- Hp. apply Permutation_rev.
Qed.

Lemma ReadMapOfStrings_consumes l m :
  l ≡ₚ map_to_list m → Z.of_nat (length l) < 2 ^ 31 →
  Forall (fun kv => str_ok kv.1 ∧ str_ok kv.2) l →
  consumes (fun s : I => ReadMapOfStrings s) (vint_bytes (Z.of_nat (length l)) ++ pairs_bytes l) m.
Proof.
  intros Hp Hn Hl s rest Hs. rewrite <- app_assoc in Hs.
  destruct (ReadVInt_consumes _ (int32_of_length _ Hn) s _ Hs) as (s1 & E1 & V1).
  unfold ReadMapOfStrings. rewrite E1. simpl.
  destruct (Z.eqb_spec (Z.of_nat (length l)) 0) as [H0'|H0'].
  - destruct l; [|simpl in H0'; lia]. exists s1. simpl in V1. split; [|done].
    by rewrite <- (foldl_insert_perm [] m Hp).
  - rewrite Nat2Z.id. rewrite <- (foldl_insert_perm l m Hp). by apply read_pairs_loop.
Qed.

Lemma ReadSetOfStrings_consumes l :
  Z.of_nat (length l) < 2 ^ 31 → Forall str_ok l →
  consumes (fun s : I => ReadSetOfStrings s)
    (vint_bytes (Z.of_nat (length l)) ++ concat (map string_bytes l)) l.
Proof.
  intros Hn Hl s rest Hs. rewrite <- app_assoc in Hs.
  destruct (ReadVInt_consumes _ (int32_of_length _ Hn) s _ Hs) as (s1 & E1 & V1).
  unfold ReadSetOfStrings. rewrite E1. simpl.
  destruct (Z.eqb_spec (Z.of_nat (length l)) 0) as [H0'|H0'].
  - destruct l; [|simpl in H0'; lia]. exists s1. by split.
  - rewrite (proj2 (Z.ltb_ge _ 0)), Nat2Z.id by lia. apply (read_strings_loop l Hl 0 []). done.
Qed.
End StringsIn.

(** * Copying between streams *)

Section Copy.
Context {O I : Type} `{DataOutputLaws O} `{DataInputLaws I}.

Definition copy_cond (st : I * O * list Z * Z) : bool := let '(_, _, _, rem) := st in 0 <? rem.

Lemma slice_splice_prefix (buf bs : list Z) :
  (length bs ≤ length buf)%nat → slice (splice buf 0 bs) 0 (Z.of_nat (length bs)) = bs.
Proof.
  intros Hl. unfold slice, splice. simpl. rewrite Nat.sub_0_r, Nat.min_l, firstn_all by lia.
  by rewrite drop_0, Nat2Z.id, take_app_length.
Qed.

Lemma splice_length (buf bs : list Z) offset :
  0 ≤ offset → length (splice buf offset bs) = length buf.
Proof.
  intros Ho. unfold splice. rewrite !length_app, !length_take, length_drop. lia.
Qed.

(** One chunk: [k] of the [length b2] bytes still to be copied. *)
Lemma copy_chunk (inp : I) (s : O) buf b2 rest n k :
  in_at inp (b2 ++ rest) → Forall is_byte b2 → out_room s (length b2 + n) →
  (k ≤ length b2)%nat → (k ≤ length buf)%nat →
  ∃ buf' inp' s', in_bytes buf 0 (Z.of_nat k) inp = Ret (buf', inp')
    ∧ out_bytes buf' 0 (Z.of_nat k) s = Ret s' ∧ in_at inp' (drop k b2 ++ rest)
    ∧ out_view s' = out_view s ++ take k b2 ∧ out_room s' (length (drop k b2) + n)
    ∧ length buf' = length buf.
Proof.
  intros Hi Hb Hr Hk Hl. rewrite <- (take_drop k b2), <- app_assoc in Hi.
  assert (Hc : length (take k b2) = k) by (rewrite length_take; lia).
  assert (Hok : slice_ok buf 0 (Z.of_nat (length (take k b2)))) by (unfold slice_ok; lia).
  destruct (in_bytes_law inp buf 0 _ _ Hi Hok) as (inp' & E & Hi').
  pose proof (slice_splice_prefix buf (take k b2) ltac:(lia)) as Hsl. rewrite Hc in E, Hok, Hsl.
  destruct (out_bytes_law (splice buf 0 (take k b2)) 0 (Z.of_nat k) s (length (drop k b2) + n))
    as (s' & E' & V & R).
  { unfold slice_ok in *. rewrite splice_length by lia. lia. }
  { rewrite Hsl. by apply Forall_take. }
  { rewrite Nat2Z.id, length_drop. by replace (k + (length b2 - k + n))%nat with (length b2 + n)%nat by lia. }
  rewrite Hsl in V. exists (splice buf 0 (take k b2)), inp', s'.
  rewrite splice_length by lia. done.
Qed.

(** The invariant of the loop: [b1] is copied, [b2] is not. *)
Definition copy_inv (bs rest v0 : list Z) (n : nat) (st : I * O * list Z * Z) : Prop :=
  let '(inp, s, buf, rem) := st in
  ∃ b1 b2, bs = b1 ++ b2 ∧ in_at inp (b2 ++ rest) ∧ out_view s = v0 ++ b1
    ∧ out_room s (length b2 + n) ∧ rem = Z.of_nat (length b2)
    ∧ length buf = Z.to_nat copyBufferSize.

(** [CopyBytes] moves exactly the next bytes of the reader to the writer,
    in chunks of the copy buffer, however many there are. *)
Theorem CopyBytes_correct (bs rest : list Z) (inp : I) (s : O) cb n :
  in_at inp (bs ++ rest) → Forall is_byte bs → out_room s (length bs + n) →
  (∀ b, cb = Some b → length b = Z.to_nat copyBufferSize) →
  ∃ inp' s' cb', CopyBytes inp (Z.of_nat (length bs)) cb s = Ret (inp', s', cb')
    ∧ in_at inp' rest ∧ out_view s' = out_view s ++ bs ∧ out_room s' n.
Proof.
  intros Hin Hbs Hroom Hcb. unfold CopyBytes. rewrite (proj2 (Z.ltb_ge _ 0)) by lia.
  match goal with |- context [go_while ?f ?c ?b ?st0] =>
    destruct (go_while_inv (E := goerr) (copy_inv bs rest (out_view s) n)
      (fun st => let '(_, _, _, rem) := st in rem) f c b st0) as ([[[inp' s'] buf'] rem'] & E & HI & Hc)
  end.
  - exists [], bs. rewrite app_nil_r. split_and!; try done.
    destruct cb as [b|]; [by apply Hcb|apply repeat_length].
  - lia.
  - intros [[[inp0 s0] buf] rem] (b1 & b2 & -> & Hi0 & Hv0 & Hr0 & -> & Hlen) Hpos%Z.ltb_lt.
    split; [done|].
    set (k := if copyBufferSize <? Z.of_nat (length b2) then copyBufferSize else Z.of_nat (length b2)).
    assert (Hk : 0 < k ≤ Z.of_nat (length b2) ∧ k ≤ copyBufferSize).
    { unfold k, copyBufferSize. destruct (Z.ltb_spec 16384 (Z.of_nat (length b2))); lia. }
    apply Forall_app in Hbs as [_ Hb2].
    destruct (copy_chunk inp0 s0 buf b2 rest n (Z.to_nat k) Hi0 Hb2 Hr0 ltac:(lia) ltac:(lia))
      as (buf1 & inp1 & s1 & E1 & E2 & V1 & V2 & R2 & Hlen1).
    rewrite Z2Nat.id in E1, E2 by lia. rewrite E1. simpl. rewrite E2. simpl.
    eexists. split; [done|]. split; [|lia].
    exists (b1 ++ take (Z.to_nat k) b2), (drop (Z.to_nat k) b2).
    rewrite V2, Hv0, <- !app_assoc, take_drop, Hlen1. split_and!; try done; rewrite length_drop; lia.
  - destruct HI as (b1 & b2 & -> & Hi0 & Hv0 & Hr0 & -> & Hlen).
    apply Z.ltb_ge in Hc. destruct b2; [|simpl in Hc; lia].
    rewrite app_nil_r in *. exists inp', s', (Some buf'). rewrite E. simpl. done.
Qed.
End Copy.

(** * Array-backed streams *)

Record ByteArrayDataOutput := { bo_bytes : list Z; bo_pos : Z; bo_limit : Z }.

Definition bo_write_byte (b : Z) (o : ByteArrayDataOutput) : M ByteArrayDataOutput :=
  bytes ← aset (bo_bytes o) (bo_pos o) b;
  mret {| bo_bytes := bytes; bo_pos := bo_pos o + 1; bo_limit := bo_limit o |}.

(** [copy(out.bytes[out.pos:], b[offset:offset+length])] copies what fits; the
    position advances by [length] all the same. *)
Definition bo_write_bytes (b : list Z) (offset len : Z) (o : ByteArrayDataOutput)
  : M ByteArrayDataOutput :=
  if (bo_pos o <? 0) || (Z.of_nat (length (bo_bytes o)) <? bo_pos o) then Panic else
  if (offset <? 0) || (len <? 0) || (Z.of_nat (length b) <? offset + len) then Panic else
  mret {| bo_bytes := splice (bo_bytes o) (bo_pos o) (slice b offset len);
          bo_pos := bo_pos o + len; bo_limit := bo_limit o |}.

#[export] Instance bo_output : DataOutput ByteArrayDataOutput := {
  out_byte := bo_write_byte;
  out_bytes := bo_write_bytes;
  out_view o := take (Z.to_nat (bo_pos o)) (bo_bytes o);
  out_room o n := 0 ≤ bo_pos o ∧ bo_pos o + Z.of_nat n ≤ Z.of_nat (length (bo_bytes o))
}.

Definition bo_reset (bytes : list Z) (offset len : Z) : ByteArrayDataOutput :=
  {| bo_bytes := bytes; bo_pos := offset; bo_limit := offset + len |}.

Lemma length_slice b offset len : slice_ok b offset len → length (slice b offset len) = Z.to_nat len.
Proof. intros (? & ? & ?). unfold slice. rewrite length_take, length_drop. lia. Qed.

Lemma splice_take (b bs : list Z) off :
  0 ≤ off → off + Z.of_nat (length bs) ≤ Z.of_nat (length b) →
  take (Z.to_nat (off + Z.of_nat (length bs))) (splice b off bs) = take (Z.to_nat off) b ++ bs.
Proof.
  intros Ho Hl. unfold splice. rewrite Nat.min_l, firstn_all by lia.
  rewrite app_assoc. apply take_app_length'. rewrite length_app, length_take. lia.
Qed.

#[export] Instance bo_output_laws : DataOutputLaws ByteArrayDataOutput.
Proof.
  split.
  - intros s n m Hle. simpl. lia.
  - intros b s n Hb [H1 H2]. simpl. unfold bo_write_byte. rewrite aset_Ret by lia. simpl.
    eexists. split; [done|]. simpl. split; [|rewrite length_insert; lia].
    replace (Z.to_nat (bo_pos s + 1)) with (S (Z.to_nat (bo_pos s))) by lia.
    rewrite (take_S_r _ _ b); [by rewrite take_insert_ge by lia|].
    apply list_lookup_insert_eq. lia.
  - intros b offset len s n Hok Hb [H1 H2]. simpl. unfold bo_write_bytes.
    pose proof (length_slice _ _ _ Hok) as Hsl. destruct Hok as (? & ? & ?).
    destruct (Z.ltb_spec (bo_pos s) 0); [lia|].
    destruct (Z.ltb_spec (Z.of_nat (length (bo_bytes s))) (bo_pos s)); [lia|]. simpl.
    destruct (Z.ltb_spec offset 0); [lia|]. destruct (Z.ltb_spec len 0); [lia|].
    destruct (Z.ltb_spec (Z.of_nat (length b)) (offset + len)); [lia|]. simpl.
    eexists. split; [done|]. simpl. split; [|rewrite splice_length by lia; lia].
    replace len with (Z.of_nat (length (slice b offset len))) at 1 by lia.
    apply splice_take; lia.
Qed.

Record ByteArrayDataInput := { bi_bytes : list Z; bi_pos : Z; bi_limit : Z }.

Definition bi_read_byte (i : ByteArrayDataInput) : M (Z * ByteArrayDataInput) :=
  if bi_limit i <=? bi_pos i then Err EOF else
  b ← aget (bi_bytes i) (bi_pos i);
  mret (b, {| bi_bytes := bi_bytes i; bi_pos := bi_pos i + 1; bi_limit := bi_limit i |}).

Definition bi_read_bytes (b : list Z) (offset len : Z) (i : ByteArrayDataInput)
  : M (list Z * ByteArrayDataInput) :=
  if bi_limit i <? bi_pos i + len then Err EOF else
  if (offset <? 0) || (Z.of_nat (length b) <? offset) then Panic else
  if (bi_pos i <? 0) || (len <? 0) || (Z.of_nat (length (bi_bytes i)) <? bi_pos i + len) then Panic else
  mret (splice b offset (slice (bi_bytes i) (bi_pos i) len),
        {| bi_bytes := bi_bytes i; bi_pos := bi_pos i + len; bi_limit := bi_limit i |}).

Definition bi_skip_bytes (count : Z) (i : ByteArrayDataInput) : ByteArrayDataInput :=
  {| bi_bytes := bi_bytes i; bi_pos := bi_pos i + count; bi_limit := bi_limit i |}.

Definition bi_reset (bytes : list Z) (offset len : Z) : ByteArrayDataInput :=
  {| bi_bytes := bytes; bi_pos := offset; bi_limit := offset + len |}.

Definition bi_eof (i : ByteArrayDataInput) : bool := bi_pos i =? bi_limit i.

#[export] Instance bi_input : DataInput ByteArrayDataInput := {
  in_byte := bi_read_byte;
  in_bytes := bi_read_bytes;
  in_left i := Z.to_nat (bi_limit i - bi_pos i);
  in_at i l := slice_ok (bi_bytes i) (bi_pos i) (bi_limit i - bi_pos i)
               ∧ l = slice (bi_bytes i) (bi_pos i) (bi_limit i - bi_pos i)
}.

Lemma slice_app_split b off len bs rest :
  slice_ok b off len → bs ++ rest = slice b off len →
  slice b off (Z.of_nat (length bs)) = bs ∧
  rest = slice b (off + Z.of_nat (length bs)) (len - Z.of_nat (length bs)) ∧
  Z.of_nat (length bs) ≤ len.
Proof.
  intros Hok E. pose proof (length_slice _ _ _ Hok) as Hlen. rewrite <- E, length_app in Hlen.
  destruct Hok as (? & ? & ?). unfold slice in *. rewrite Nat2Z.id.
  assert (Hle : (length bs ≤ Z.to_nat len)%nat) by lia.
  split; [|split; [|lia]].
  - transitivity (take (length bs) (take (Z.to_nat len) (drop (Z.to_nat off) b))).
    + by rewrite take_take, Nat.min_l by lia.
    + by rewrite <- E, take_app_length.
  - replace (Z.to_nat (off + Z.of_nat (length bs))) with (Z.to_nat off + length bs)%nat by lia.
    replace (Z.to_nat (len - Z.of_nat (length bs))) with (Z.to_nat len - length bs)%nat by lia.
    rewrite <- drop_drop, <- skipn_firstn_comm, <- E. by rewrite drop_app_length.
Qed.

#[export] Instance bi_input_laws : DataInputLaws ByteArrayDataInput.
Proof.
  split.
  - intros s l [Hok ->]. simpl. by rewrite length_slice.
  - intros s b rest [Hok Heq]. simpl in *.
    destruct (slice_app_split _ _ _ [b] rest Hok Heq) as (Hb & Hrest & Hle).
    simpl in Hle, Hb, Hrest. change (Z.of_nat 1) with 1 in *.
    destruct Hok as (? & ? & ?). unfold bi_read_byte.
    destruct (Z.leb_spec (bi_limit s) (bi_pos s)); [lia|].
    destruct (aget_ex (E := goerr) (bi_bytes s) (bi_pos s)) as (b' & E & Hl); [lia|].
    unfold slice in Hb. change (Z.to_nat 1) with 1%nat in Hb.
    rewrite (drop_S _ b' (Z.to_nat (bi_pos s))) in Hb by done. injection Hb as ->.
    rewrite E. simpl. eexists. split; [done|]. simpl.
    replace (bi_limit s - (bi_pos s + 1)) with (bi_limit s - bi_pos s - 1) by lia.
    split; [unfold slice_ok; lia|done].
  - intros s [Hok Heq]. simpl. unfold bi_read_byte.
    apply (f_equal length) in Heq. rewrite length_slice in Heq by done. simpl in Heq.
    destruct Hok as (? & ? & ?). by rewrite (proj2 (Z.leb_le _ _)) by lia.
  - intros s buf offset bs rest [Hok Heq] (? & ? & ?). simpl.
    destruct (slice_app_split _ _ _ bs rest Hok Heq) as (Hb & Hrest & Hle).
    destruct Hok as (? & ? & ?). unfold bi_read_bytes.
    rewrite (proj2 (Z.ltb_ge (bi_limit s) _)) by lia.
    rewrite (proj2 (Z.ltb_ge offset 0)), (proj2 (Z.ltb_ge _ offset)) by lia.
    rewrite (proj2 (Z.ltb_ge (bi_pos s) 0)), (proj2 (Z.ltb_ge (Z.of_nat (length bs)) 0)) by lia.
    rewrite (proj2 (Z.ltb_ge (Z.of_nat (length (bi_bytes s))) _)) by lia. simpl.
    eexists. rewrite Hb. split; [done|]. simpl.
    replace (bi_limit s - (bi_pos s + Z.of_nat (length bs)))
      with (bi_limit s - bi_pos s - Z.of_nat (length bs)) by lia.
    split; [unfold slice_ok; lia|done].
  - intros s l buf offset len [Hok ->] Hlt. simpl. unfold bi_read_bytes.
    rewrite length_slice in Hlt by done. destruct Hok as (? & ? & ?).
    by rewrite (proj2 (Z.ltb_lt _ _)) by lia.
Qed.

Definition bi_set_position (pos : Z) (i : ByteArrayDataInput) : ByteArrayDataInput :=
  {| bi_bytes := bi_bytes i; bi_pos := pos; bi_limit := bi_limit i |}.

#[export] Instance bi_seekable : SeekableInput ByteArrayDataInput := {
  in_pos := bi_pos;
  in_seek pos i := Ret (bi_set_position pos i)
}.

#[export] Instance bi_seekable_laws : SeekableInputLaws ByteArrayDataInput.
Proof.
  split. intros s bs rest [Hok Heq]. eexists. split; [done|]. simpl.
  destruct (slice_app_split _ _ _ bs rest Hok Heq) as (_ & Hrest & Hle).
  replace (bi_limit s - (bi_pos s + Z.of_nat (length bs)))
    with (bi_limit s - bi_pos s - Z.of_nat (length bs)) by lia.
  destruct Hok as (? & ? & ?). split; [unfold slice_ok; lia|done].
Qed.

(** * Properties *)

(** [w] and [r] are inverse to each other on the values satisfying [P], the
    encoding of [a] being [enc a]. *)
Definition roundtrips {O I A} `{DataOutput O} `{DataInput I}
    (w : A → O → M O) (r : I → M (A * I)) (enc : A → list Z) (P : A → Prop) : Prop :=
  ∀ a, P a → emits (w a) (enc a) ∧ consumes r (enc a) a.

Definition zint_bytes (i : Z) : list Z := vint_bytes (to_int32 (ZigZagEncodeInt i)).
Definition zlong_bytes (i : Z) : list Z := vlong_bytes (to_int64 (ZigZagEncodeInt64 i)).

Lemma leb128_length n v : (0 < n)%nat → (1 ≤ length (leb128 n v) ≤ n)%nat.
Proof.
  revert v. induction n as [|n IH]; intros v Hn; [lia|]. simpl.
  destruct (v <? 128); simpl; [lia|]. destruct n; simpl; [lia|].
  specialize (IH (v / 128) ltac:(lia)). simpl in IH. lia.
Qed.

(** Smaller values have shorter encodings: [k] digits hold [v < 128^k]. *)
Lemma leb128_short n k v : 0 ≤ v < 128 ^ Z.of_nat k → (0 < k)%nat →
  (length (leb128 n v) ≤ k)%nat.
Proof.
  revert k v. induction n as [|n IH]; intros k v Hv Hk; simpl; [lia|].
  destruct (Z.ltb_spec v 128); simpl; [lia|].
  destruct k as [|[|k]]; [lia|change (128 ^ Z.of_nat 1) with 128 in Hv; lia|].
  enough (length (leb128 n (v / 128)) ≤ S k)%nat by lia. apply IH; [|lia].
  split; [apply Z.div_pos; lia|]. apply Z.div_lt_upper_bound; [lia|].
  rewrite <- Z.pow_succ_r by lia. rewrite <- Nat2Z.inj_succ. lia.
Qed.

Section Totality.
Context {I : Type} `{DataInputLaws I}.

Lemma read_varint_loop_total w fuel st l :
  in_at (snd st) l → (length l < fuel)%nat →
  (∃ st' l', go_while fuel (fun '(b, _, _, _) => negb (Z.land b 128 =? 0))
    (fun '((_, i, shift, s) : Z * Z * Z * I) =>
       '(b, s) ← in_byte s;
       mret (b, Z.lor i (swrap w (Z.shiftl (Z.land b 127) shift)), shift + 7, s)) st
    = Ret st' ∧ in_at (snd st') l')
  ∨ go_while fuel (fun '(b, _, _, _) => negb (Z.land b 128 =? 0))
    (fun '((_, i, shift, s) : Z * Z * Z * I) =>
       '(b, s) ← in_byte s;
       mret (b, Z.lor i (swrap w (Z.shiftl (Z.land b 127) shift)), shift + 7, s)) st
    = Err EOF.
Proof.
  revert st l. induction fuel as [|fuel IH]; intros [[[b i] sh] s] l Hs Hf; [lia|].
  cbn [go_while]. destruct (negb _); [|left; by exists (b, i, sh, s), l].
  simpl in Hs. destruct l as [|b' l].
  - right. by rewrite (in_byte_eof s Hs).
  - destruct (in_byte_law s b' l Hs) as (s' & E & Hs'). rewrite E. simpl.
    apply (IH _ l); simpl in *; [done|lia].
Qed.

Lemma read_varint_total w (s : I) l : in_at s l →
  (∃ v s' l', read_varint w s = Ret (v, s') ∧ in_at s' l') ∨ read_varint w s = Err EOF.
Proof.
  intros Hs. unfold read_varint. destruct l as [|b l].
  { right. by rewrite (in_byte_eof s Hs). }
  pose proof (in_left_law s _ Hs) as Hl. simpl in Hl.
  destruct (in_byte_law s b l Hs) as (s1 & E & Hs1). rewrite E. simpl.
  destruct (read_varint_loop_total w (in_left s) (b, Z.land b 127, 7, s1) l)
    as [([[[b' i'] sh'] s'] & l' & E' & Hs')|E']; [done|lia| |].
  - left. exists i', s', l'. by rewrite E'.
  - right. by rewrite E'.
Qed.
End Totality.

(** C7. Every integer encoding of [DataOutput] is undone by the matching read
    of [DataInput], on any pair of streams that obey the stream interfaces and
    for every value of the type: the writer emits exactly the bytes the reader
    consumes.  A 32-bit variable-length integer takes at most five bytes. *)
Theorem integers_roundtrip {O I : Type} `{DataOutputLaws O} `{DataInputLaws I} :
  roundtrips (O := O) (I := I) WriteShort ReadShort short_bytes (in_sint 16) ∧
  roundtrips (O := O) (I := I) WriteInt ReadInt int_bytes (in_sint 32) ∧
  roundtrips (O := O) (I := I) WriteLong ReadLong long_bytes (in_sint 64) ∧
  roundtrips (O := O) (I := I) WriteVInt ReadVInt vint_bytes (in_sint 32) ∧
  roundtrips (O := O) (I := I) WriteVLong ReadVLong vlong_bytes (fun i => 0 ≤ i < 2 ^ 63) ∧
  (∀ i, (1 ≤ length (vint_bytes i) ≤ 5)%nat).
Proof.
  repeat split; try solve [apply WriteShort_emits | apply WriteInt_emits | apply WriteLong_emits
    | apply WriteVInt_emits | by apply ReadShort_consumes | by apply ReadInt_consumes
    | by apply ReadLong_consumes | by apply ReadVInt_consumes].
  - eapply emits_ext; [|apply writeSignedVLong_emits]. intros s. unfold WriteVLong.
    by rewrite (proj2 (Z.ltb_ge a 0)) by lia.
  - apply ReadVLong_consumes. change (2 ^ 63) with 9223372036854775808 in *. ints.
  - apply leb128_length. lia.
  - apply leb128_short; [|lia]. pose proof (uwrap_range 32 i ltac:(lia)) as Hu.
    change (128 ^ Z.of_nat 5) with 34359738368. ints.
Qed.

(** Zig-zag integers: the signed encodings are inverted by the readers for
    every 32-bit and 64-bit integer, and a 32-bit value of magnitude at most 64
    takes one byte. *)
Theorem zigzag_roundtrip {O I : Type} `{DataOutputLaws O} `{DataInputLaws I} :
  roundtrips (O := O) (I := I) WriteZInt ReadZInt zint_bytes (in_sint 32) ∧
  roundtrips (O := O) (I := I) WriteZLong ReadZLong zlong_bytes (in_sint 64) ∧
  (∀ i, -64 ≤ i < 64 → length (zint_bytes i) = 1%nat).
Proof.
  split; [|split].
  - intros i Hi. split; [apply WriteVInt_emits|].
    pose proof (ZigZagDecodeInt_uint (to_int32 (ZigZagEncodeInt i)) i Hi) as Hd.
    rewrite uwrap_swrap in Hd by lia. specialize (Hd (ZigZagEncodeInt_uint i Hi)).
    rewrite <- (swrap_id 32 i) at 2 by (lia || done). rewrite <- Hd at 2.
    unfold ReadZInt.
    apply (consumes_fmap _ (fun v => to_int32 (ZigZagDecodeInt v))).
    apply ReadVInt_consumes. by apply swrap_range.
  - intros i Hi. split.
    + unfold WriteZLong, writeSignedVLong, zlong_bytes, vlong_bytes.
      rewrite uwrap_swrap by lia. apply writeSignedVLong_emits.
    + pose proof (ZigZagDecodeInt64_uint (to_int64 (ZigZagEncodeInt64 i)) i Hi) as Hd.
      rewrite uwrap_swrap in Hd by lia. specialize (Hd (ZigZagEncodeInt64_uint i Hi)).
      rewrite <- Hd at 2. unfold ReadZLong. apply (consumes_fmap _ ZigZagDecodeInt64).
      apply ReadVLong_consumes. by apply swrap_range.
  - intros i Hi. unfold zint_bytes, vint_bytes. rewrite uwrap_swrap by lia.
    rewrite ZigZagEncodeInt_uint by ints. simpl.
    rewrite (proj2 (Z.ltb_lt _ 128)); [done|]. destruct (Z.ltb_spec i 0); lia.
Qed.

(** Strings, sets of strings and maps of strings survive a round trip.  The
    order in which the map is enumerated when it is written does not matter. *)
Theorem strings_roundtrip {O I : Type} `{DataOutputLaws O} `{DataInputLaws I} :
  roundtrips (O := O) (I := I) WriteString ReadString string_bytes str_ok ∧
  roundtrips (O := O) (I := I) WriteSetOfStrings ReadSetOfStrings
    (fun l => vint_bytes (Z.of_nat (length l)) ++ concat (map string_bytes l))
    (fun l => Z.of_nat (length l) < 2 ^ 31 ∧ Forall str_ok l) ∧
  (∀ (m : gmap (list Z) (list Z)) l, l ≡ₚ map_to_list m →
     Z.of_nat (length l) < 2 ^ 31 → Forall (fun kv => str_ok kv.1 ∧ str_ok kv.2) l →
     let bs := vint_bytes (Z.of_nat (length l)) ++ pairs_bytes l in
     emits (WriteMapOfStrings (S := O) l) bs ∧ consumes (ReadMapOfStrings (S := I)) bs m).
Proof.
  split; [|split].
  - intros str Hs. split; [by apply WriteString_emits|by apply ReadString_consumes].
  - intros l [Hn Hl]. split; [by apply WriteSetOfStrings_emits|by apply ReadSetOfStrings_consumes].
  - intros m l Hp Hn Hl bs. split; [by apply WriteMapOfStrings_emits|].
    by apply ReadMapOfStrings_consumes.
Qed.

(** Reading a variable-length integer terminates on every well-formed
    input, whatever its bytes: it returns a value, leaving a well-formed
    stream, or reports the end of the input; it neither panics nor runs on. *)
Theorem varint_reads_total {I : Type} `{DataInputLaws I} (s : I) l :
  in_at s l →
  ((∃ v s' l', ReadVInt s = Ret (v, s') ∧ in_at s' l') ∨ ReadVInt s = Err EOF) ∧
  ((∃ v s' l', ReadVLong s = Ret (v, s') ∧ in_at s' l') ∨ ReadVLong s = Err EOF).
Proof. intros Hs. split; by apply read_varint_total with l. Qed.

(** * Witnesses on array-backed streams *)

Lemma integers_roundtrip_witness :
  ∃ s, ReadVInt (bi_reset [172; 2] 0 2) = Ret (300, s) ∧ in_at s [].
Proof.
  destruct (integers_roundtrip (O := ByteArrayDataOutput) (I := ByteArrayDataInput))
    as (_ & _ & _ & H & _).
  destruct (H 300) as [_ Hc]; [ints|].
  destruct (Hc (bi_reset [172; 2] 0 2) []) as (s & E & V); [vm_compute; intuition congruence|].
  exists s. done.
Defined.

Lemma zigzag_roundtrip_witness :
  ∃ s, ReadZInt (bi_reset [1] 0 1) = Ret (-1, s) ∧ in_at s [].
Proof.
  destruct (zigzag_roundtrip (O := ByteArrayDataOutput) (I := ByteArrayDataInput)) as (H & _).
  destruct (H (-1)) as [_ Hc]; [ints|].
  destruct (Hc (bi_reset [1] 0 1) []) as (s & E & V); [vm_compute; intuition congruence|].
  exists s. done.
Defined.

Lemma strings_roundtrip_witness :
  ∃ s, ReadString (bi_reset [2; 104; 105] 0 3) = Ret ([104; 105], s) ∧ in_at s [].
Proof.
  destruct (strings_roundtrip (O := ByteArrayDataOutput) (I := ByteArrayDataInput)) as (H & _).
  destruct (H [104; 105]) as [_ Hc]; [split; [apply in_uints_check; vm_compute; reflexivity|done]|].
  destruct (Hc (bi_reset [2; 104; 105] 0 3) []) as (s & E & V); [vm_compute; intuition congruence|].
  exists s. done.
Defined.

Lemma varint_reads_total_witness :
  let s := bi_reset [255; 255] 0 2 in
  (∃ v s' l', ReadVInt s = Ret (v, s') ∧ in_at s' l') ∨ ReadVInt s = Err EOF.
Proof.
  intros s. apply (varint_reads_total s [255; 255]). vm_compute. intuition congruence.
Defined.

Lemma CopyBytes_correct_witness :
  ∃ inp s cb, CopyBytes (bi_reset [5; 6; 7; 8] 0 4) 3 None (bo_reset [0; 0; 0] 0 3) = Ret (inp, s, cb)
    ∧ in_at inp [8] ∧ out_view s = [5; 6; 7].
Proof.
  destruct (CopyBytes_correct [5; 6; 7] [8] (bi_reset [5; 6; 7; 8] 0 4) (bo_reset [0; 0; 0] 0 3) None 0)
    as (inp & s & cb & E & Hin & Hv & _).
  - vm_compute. intuition congruence.
  - apply in_uints_check. reflexivity.
  - vm_compute. intuition congruence.
  - intros b Hb. discriminate Hb.
  - exists inp, s, cb. split; [exact E|]. split; [exact Hin|exact Hv].
Defined.
