(* ===== verification/Words.v ===== *)
(** Machine words as an interface.  The bit-packing code of [codecs/] moves
    words through arrays and shifts, masks and ors them; its control flow never
    looks at them.  The definitions that model it take the word type as a
    parameter ([Word]): [int_word w] is Go's signed integer of width [w], and
    [sym_word w] is a vector of symbolic bits.  A run on symbolic words is an
    abstraction of the runs on all the integers it stands for
    ([sym_word_rel], [go_rel]). *)

From stdpp Require Import base tactics numbers list.
From Stdlib Require Import ZArith Lia.
From S2P Require Import Prelude.

Local Open Scope Z_scope.

(** * Go's shifts

    A count is converted to an unsigned integer, so a negative one is larger
    than every width. *)

Definition shift_out (w n : Z) : bool := (n <? 0) || (w <=? n).

(** [v << n] *)
Definition go_shl (w v n : Z) : Z := if shift_out w n then 0 else swrap w (Z.shiftl v n).

(** [v >> n] on a signed integer *)
Definition go_sar (w v n : Z) : Z := Z.shiftr v (if shift_out w n then w - 1 else n).

(** [int(uint(v) >> n)] *)
Definition go_shr (w v n : Z) : Z :=
  if shift_out w n then 0 else swrap w (Z.shiftr (uwrap w v) n).

(** * The interface *)

Class Word (W : Type) := {
  w_lit : Z → W;
  w_shl : W → Z → W;
  w_sar : W → Z → W;
  w_shr : W → Z → W;
  w_and : W → W → W;
  w_or : W → W → W;
  w_xor : W → W → W
}.

Definition int_word (w : Z) : Word Z := {|
  w_lit := swrap w;
  w_shl := go_shl w;
  w_sar := go_sar w;
  w_shr := go_shr w;
  w_and := Z.land;
  w_or := Z.lor;
  w_xor := Z.lxor
|}.

(** Word expressions: an array read inside may panic, so the operators work on
    results. *)
Declare Scope word_scope.
Delimit Scope word_scope with word.

Definition lift1 {E A B} (f : A → B) (m : go E A) : go E B := a ← m; Ret (f a).
Definition lift2 {E A B C} (f : A → B → C) (m : go E A) (n : go E B) : go E C :=
  a ← m; b ← n; Ret (f a b).

Notation "x <<' n" := (lift1 (fun a => w_shl a n) x) (at level 30, n at next level) : word_scope.
Notation "x >>' n" := (lift1 (fun a => w_sar a n) x) (at level 30, n at next level) : word_scope.
Notation "x >>>' n" := (lift1 (fun a => w_shr a n) x) (at level 30, n at next level) : word_scope.
Notation "x &' y" := (lift2 w_and x y) (at level 40, left associativity) : word_scope.
Notation "x |' y" := (lift2 w_or x y) (at level 50, left associativity) : word_scope.
Notation "# z" := (Ret (w_lit z)) (at level 1, z at level 0, format "# z") : word_scope.
(** [a[i]] and [a[i] = v; k] *)
Notation "a .[ i ]" := (aget a i) (at level 1, left associativity, format "a .[ i ]") : word_scope.
Notation "'store' a [ i ] ':=' v ; k" :=
  (mbind (fun x => mbind (fun a => k) (aset a i x)) v)
  (at level 100, a name, i at level 200, v at level 99, k at level 200, right associativity)
  : word_scope.

(** * Symbolic words *)

(** A bit is known, bit [k] of input value [i], or unknown. *)
Inductive sbit := SZ | SO | SV (i k : Z) | ST.

Definition sbit_or (a b : sbit) : sbit :=
  match a, b with
  | SZ, _ => b
  | _, SZ => a
  | SO, _ => SO
  | _, SO => SO
  | SV i k, SV j l => if (i =? j) && (k =? l) then a else ST
  | _, _ => ST
  end.

Definition sbit_and (a b : sbit) : sbit :=
  match a, b with
  | SZ, _ => SZ
  | _, SZ => SZ
  | SO, _ => b
  | _, SO => a
  | SV i k, SV j l => if (i =? j) && (k =? l) then a else ST
  | _, _ => ST
  end.

(** An inverted input bit is not represented: it is unknown. *)
Definition sbit_xor (a b : sbit) : sbit :=
  match a, b with
  | SZ, _ => b
  | _, SZ => a
  | SO, SO => SZ
  | SV i k, SV j l => if (i =? j) && (k =? l) then SZ else ST
  | _, _ => ST
  end.

(** A symbolic word lists its bits, the least significant first. *)
Fixpoint zip_bits (f : sbit → sbit → sbit) (a b : list sbit) : list sbit :=
  match a, b with
  | x :: a', y :: b' => f x y :: zip_bits f a' b'
  | _, _ => []
  end.

Fixpoint pos_bits (w : nat) (p : positive) : list sbit :=
  match w with
  | O => []
  | S w' =>
    match p with
    | xH => SO :: replicate w' SZ
    | xO p' => SZ :: pos_bits w' p'
    | xI p' => SO :: pos_bits w' p'
    end
  end.

Definition lit_bits (w : nat) (z : Z) : list sbit :=
  match uwrap (Z.of_nat w) z with Zpos p => pos_bits w p | _ => replicate w SZ end.

Fixpoint last_bit (d : sbit) (a : list sbit) : sbit :=
  match a with [] => d | x :: a' => last_bit x a' end.

Definition sym_word (w : Z) : Word (list sbit) :=
  let n_w := Z.to_nat w in {|
  w_lit := lit_bits n_w;
  w_shl a n := if shift_out w n then replicate n_w SZ
               else take n_w (replicate (Z.to_nat n) SZ ++ a);
  w_sar a n := let m := Z.to_nat (if shift_out w n then w - 1 else n) in
               drop m a ++ replicate m (last_bit SZ a);
  w_shr a n := if shift_out w n then replicate n_w SZ
               else drop (Z.to_nat n) a ++ replicate (Z.to_nat n) SZ;
  w_and := zip_bits sbit_and;
  w_or := zip_bits sbit_or;
  w_xor := zip_bits sbit_xor
|}.

(** * Abstraction *)

Record word_rel {W1 W2} (H1 : Word W1) (H2 : Word W2) (R : W1 → W2 → Prop) : Prop := {
  rel_lit z : R (w_lit z) (w_lit z);
  rel_shl a b n : R a b → R (w_shl a n) (w_shl b n);
  rel_sar a b n : R a b → R (w_sar a n) (w_sar b n);
  rel_shr a b n : R a b → R (w_shr a n) (w_shr b n);
  rel_and a b a' b' : R a b → R a' b' → R (w_and a a') (w_and b b');
  rel_or a b a' b' : R a b → R a' b' → R (w_or a a') (w_or b b');
  rel_xor a b a' b' : R a b → R a' b' → R (w_xor a a') (w_xor b b')
}.

Section Sym.
Context (env : Z → Z → bool) (w : Z) (Hw : 0 < w).

Definition sbit_rel (a : sbit) (b : bool) : Prop :=
  match a with
  | SZ => b = false
  | SO => b = true
  | SV i k => b = env i k
  | ST => True
  end.

(** The integer has width [w] and every bit is the one the word shows. *)
Definition sym_rel (a : list sbit) (z : Z) : Prop :=
  in_sint w z ∧ length a = Z.to_nat w ∧
  ∀ k x, a !! k = Some x → sbit_rel x (Z.testbit z (Z.of_nat k)).

Lemma sbit_or_rel a b x y : sbit_rel a x → sbit_rel b y → sbit_rel (sbit_or a b) (x || y).
Proof.
  destruct a, b; simpl; intros; subst; try done;
    try destruct_and?; rewrite ?orb_true_r, ?orb_false_r; try done.
  destruct ((i =? i0) && (k =? k0)) eqn:E; simpl; [|done].
  apply andb_true_iff in E as [->%Z.eqb_eq ->%Z.eqb_eq]. by rewrite orb_diag.
Qed.

Lemma sbit_and_rel a b x y : sbit_rel a x → sbit_rel b y → sbit_rel (sbit_and a b) (x && y).
Proof.
  destruct a, b; simpl; intros; subst; try done;
    rewrite ?andb_true_r, ?andb_false_r; try done.
  destruct ((i =? i0) && (k =? k0)) eqn:E; simpl; [|done].
  apply andb_true_iff in E as [->%Z.eqb_eq ->%Z.eqb_eq]. by rewrite andb_diag.
Qed.

Lemma sbit_xor_rel a b x y : sbit_rel a x → sbit_rel b y → sbit_rel (sbit_xor a b) (xorb x y).
Proof.
  destruct a, b; simpl; intros; subst; try done;
    rewrite ?xorb_false_l, ?xorb_false_r; try done.
  destruct ((i =? i0) && (k =? k0)) eqn:E; simpl; [|done].
  apply andb_true_iff in E as [->%Z.eqb_eq ->%Z.eqb_eq]. by rewrite xorb_nilpotent.
Qed.

Lemma zip_bits_length f a b : length a = length b → length (zip_bits f a b) = length a.
Proof. revert b. induction a; intros [|? b] [=]; simpl; auto. Qed.

Lemma zip_bits_lookup f a b k x : zip_bits f a b !! k = Some x →
  ∃ y z, a !! k = Some y ∧ b !! k = Some z ∧ x = f y z.
Proof.
  revert b k. induction a as [|y a IH]; intros [|z b] [|k] H; simplify_eq/=; eauto.
Qed.

Lemma pos_bits_length n p : length (pos_bits n p) = n.
Proof.
  revert p. induction n; intros [p|p|]; simpl; auto. by rewrite length_replicate.
Qed.

Lemma pos_bits_lookup n p k x : pos_bits n p !! k = Some x →
  sbit_rel x (Z.testbit (Zpos p) (Z.of_nat k)).
Proof.
  revert p k. induction n as [|n IH]; intros p k H; [done|].
  destruct p as [p|p|], k as [|k]; simpl in H; simplify_eq; try done.
  - apply IH in H. change (Zpos p~1) with (2 * Zpos p + 1).
    rewrite Nat2Z.inj_succ, Z.testbit_odd_succ by lia. done.
  - apply IH in H. change (Zpos p~0) with (2 * Zpos p).
    rewrite Nat2Z.inj_succ, Z.testbit_even_succ by lia. done.
  - apply lookup_replicate in H as [-> _]. unfold sbit_rel.
    change 1 with (2 * 0 + 1). rewrite Nat2Z.inj_succ, Z.testbit_odd_succ by lia.
    apply Z.bits_0.
Qed.

Lemma lit_bits_rel z : sym_rel (lit_bits (Z.to_nat w) z) (swrap w z).
Proof.
  split; [by apply swrap_range|]. unfold lit_bits. rewrite Z2Nat.id by lia.
  split.
  - destruct (uwrap w z); rewrite ?length_replicate, ?pos_bits_length; done.
  - intros k x Hx.
    assert (Hk : (k < Z.to_nat w)%nat).
    { apply lookup_lt_Some in Hx. revert Hx.
      destruct (uwrap w z); rewrite ?length_replicate, ?pos_bits_length; done. }
    rewrite swrap_testbit, Z.min_l by lia.
    assert (E : Z.testbit z (Z.of_nat k) = Z.testbit (uwrap w z) (Z.of_nat k)).
    { rewrite uwrap_testbit by lia. by rewrite (proj2 (Z.ltb_lt _ _)) by lia. }
    rewrite E. pose proof (uwrap_range w z ltac:(lia)) as Hr.
    destruct (uwrap w z) as [|p|p].
    + apply lookup_replicate in Hx as [-> _]. apply Z.bits_0.
    + by apply pos_bits_lookup in Hx.
    + unfold in_uint in Hr. lia.
Qed.

Lemma sym_rel_lookup a z k x : sym_rel a z → a !! k = Some x →
  (k < Z.to_nat w)%nat ∧ sbit_rel x (Z.testbit z (Z.of_nat k)).
Proof.
  intros (_ & Hl & Hb) Hx. split; [|by apply Hb].
  rewrite <- Hl. by eapply lookup_lt_Some.
Qed.

Lemma sym_zero_rel : sym_rel (replicate (Z.to_nat w) SZ) 0.
Proof.
  split; [|split].
  - unfold in_sint. pose proof (pow2_pos (w - 1) ltac:(lia)). lia.
  - by rewrite length_replicate.
  - intros k x [-> _]%lookup_replicate. apply Z.bits_0.
Qed.

(** Bitwise operators on both sides. *)
Lemma sym_bitop_rel f g z a b x y :
  (∀ c d u v, sbit_rel c u → sbit_rel d v → sbit_rel (f c d) (g u v)) →
  (∀ n, 0 ≤ n → Z.testbit z n = g (Z.testbit x n) (Z.testbit y n)) →
  sym_rel a x → sym_rel b y → sym_rel (zip_bits f a b) z.
Proof.
  intros Hfg Hbit (Hx & Hla & Ha) (Hy & Hlb & Hb). split; [|split].
  - enough (E : z = swrap w z) by (rewrite E; by apply swrap_range).
    apply Z.bits_inj'. intros n Hn. rewrite swrap_testbit, !Hbit by lia.
    rewrite <- (swrap_id w x), <- (swrap_id w y), !swrap_testbit by (done || lia).
    by replace (Z.min (Z.min n (w - 1)) (w - 1)) with (Z.min n (w - 1)) by lia.
  - rewrite zip_bits_length; congruence.
  - intros k c (d & e & Hd & He & ->)%zip_bits_lookup. rewrite Hbit by lia.
    apply Hfg; auto.
Qed.

Lemma sym_or_rel a b x y : sym_rel a x → sym_rel b y →
  sym_rel (zip_bits sbit_or a b) (Z.lor x y).
Proof. apply (sym_bitop_rel _ orb); [apply sbit_or_rel|intros; apply Z.lor_spec]. Qed.

Lemma sym_and_rel a b x y : sym_rel a x → sym_rel b y →
  sym_rel (zip_bits sbit_and a b) (Z.land x y).
Proof. apply (sym_bitop_rel _ andb); [apply sbit_and_rel|intros; apply Z.land_spec]. Qed.

Lemma sym_xor_rel a b x y : sym_rel a x → sym_rel b y →
  sym_rel (zip_bits sbit_xor a b) (Z.lxor x y).
Proof. apply (sym_bitop_rel _ xorb); [apply sbit_xor_rel|intros; apply Z.lxor_spec]. Qed.

Lemma shift_out_false n : shift_out w n = false → 0 ≤ n < w.
Proof. unfold shift_out. intros [?%Z.ltb_ge ?%Z.leb_gt]%orb_false_iff. lia. Qed.

Lemma sym_shl_rel a x n : sym_rel a x →
  sym_rel (@w_shl _ (sym_word w) a n) (go_shl w x n).
Proof.
  intros Ha. simpl. unfold go_shl. destruct (shift_out w n) eqn:Hn; [apply sym_zero_rel|].
  apply shift_out_false in Hn. split; [by apply swrap_range|]. split.
  - rewrite length_take, length_app, length_replicate. destruct Ha as (_ & -> & _). lia.
  - intros k c [Hc Hk]%lookup_take_Some. rewrite swrap_testbit, Z.min_l by lia.
    apply lookup_app_Some in Hc as [Hc|[Hle Hc]].
    + apply lookup_replicate in Hc as [-> Hc]. apply Z.shiftl_spec_low. lia.
    + rewrite length_replicate in *. rewrite Z.shiftl_spec by lia.
      apply (sym_rel_lookup _ _ _ _ Ha) in Hc as [_ Hc].
      by replace (Z.of_nat k - n) with (Z.of_nat (k - Z.to_nat n)) by lia.
Qed.

Lemma sym_shr_rel a x n : sym_rel a x →
  sym_rel (@w_shr _ (sym_word w) a n) (go_shr w x n).
Proof.
  intros Ha. simpl. unfold go_shr. destruct (shift_out w n) eqn:Hn; [apply sym_zero_rel|].
  apply shift_out_false in Hn. split; [by apply swrap_range|]. split.
  - rewrite length_app, length_replicate, length_drop. destruct Ha as (_ & -> & _). lia.
  - intros k c Hc. assert (Hk : (k < Z.to_nat w)%nat).
    { apply lookup_lt_Some in Hc. revert Hc.
      rewrite length_app, length_replicate, length_drop. destruct Ha as (_ & -> & _). lia. }
    rewrite swrap_testbit, Z.min_l, Z.shiftr_spec, uwrap_testbit by lia.
    apply lookup_app_Some in Hc as [Hc|[Hle Hc]].
    + rewrite lookup_drop in Hc. apply (sym_rel_lookup _ _ _ _ Ha) in Hc as [Hlt Hc].
      replace (Z.of_nat (Z.to_nat n + k)) with (Z.of_nat k + n) in Hc by lia.
      by rewrite (proj2 (Z.ltb_lt _ _)) by lia.
    + rewrite length_drop in Hle. destruct Ha as (_ & Hl & _).
      apply lookup_replicate in Hc as [-> Hc]. simpl.
      by rewrite (proj2 (Z.ltb_ge _ _)) by lia.
Qed.

Lemma last_bit_lookup d a : a ≠ [] → a !! (length a - 1)%nat = Some (last_bit d a).
Proof.
  revert d. induction a as [|x a IH]; intros d H; [done|]. simpl.
  destruct a as [|y a]; [done|]. simpl. specialize (IH x). simpl in IH.
  rewrite Nat.sub_0_r in IH. by apply IH.
Qed.

Lemma sym_sar_rel a x n : sym_rel a x →
  sym_rel (@w_sar _ (sym_word w) a n) (go_sar w x n).
Proof.
  intros Ha. simpl. unfold go_sar.
  assert (Hm : 0 ≤ (if shift_out w n then w - 1 else n) < w).
  { destruct (shift_out w n) eqn:Hn; [lia|]. by apply shift_out_false. }
  revert Hm. generalize (if shift_out w n then w - 1 else n). clear n. intros n Hn.
  assert (Hsx : ∀ k, w - 1 ≤ k → Z.testbit x k = Z.testbit x (w - 1)).
  { intros k Hk. destruct Ha as (Hx & _).
    by rewrite !(in_sint_testbit_high w) by (done || lia). }
  split; [|split].
  - destruct Ha as ([Hx1 Hx2] & _). pose proof (pow2_pos n ltac:(lia)).
    rewrite Z.shiftr_div_pow2 by lia. split.
    + apply Z.div_le_lower_bound; [lia|]. nia.
    + apply Z.div_lt_upper_bound; [lia|]. nia.
  - rewrite length_app, length_replicate, length_drop. destruct Ha as (_ & -> & _). lia.
  - intros k c Hc. rewrite Z.shiftr_spec by lia.
    apply lookup_app_Some in Hc as [Hc|[Hle Hc]].
    + rewrite lookup_drop in Hc. apply (sym_rel_lookup _ _ _ _ Ha) in Hc as [Hlt Hc].
      by replace (Z.of_nat k + n) with (Z.of_nat (Z.to_nat n + k)) by lia.
    + rewrite length_drop in Hle. pose proof Ha as (_ & Hl & _).
      apply lookup_replicate in Hc as [-> Hc].
      rewrite Hsx by lia. pose proof (last_bit_lookup SZ a) as Hlast.
      destruct (sym_rel_lookup _ _ _ _ Ha (Hlast ltac:(destruct a; simpl in *; (done || lia)))) as [_ Hb].
      by replace (Z.of_nat (length a - 1)) with (w - 1) in Hb by lia.
Qed.

Lemma sym_word_rel : word_rel (sym_word w) (int_word w) sym_rel.
Proof.
  split; simpl; intros.
  - by apply lit_bits_rel.
  - by apply sym_shl_rel.
  - by apply sym_sar_rel.
  - by apply sym_shr_rel.
  - by apply sym_and_rel.
  - by apply sym_or_rel.
  - by apply sym_xor_rel.
Qed.
End Sym.

(** * Related runs

    Every result of the first run is the image of a result of the second. *)

Definition go_rel {E A B} (R : A → B → Prop) (m : go E A) (n : go E B) : Prop :=
  ∀ a, m = Ret a → ∃ b, n = Ret b ∧ R a b.

Definition pair_rel {A B C D} (R : A → B → Prop) (Q : C → D → Prop) (p : A * C) (q : B * D) :=
  R p.1 q.1 ∧ Q p.2 q.2.

Section GoRel.
Context {E : Type}.

Lemma go_rel_ret {A B} (R : A → B → Prop) a b : R a b → go_rel (E:=E) R (Ret a) (Ret b).
Proof. intros H c [= <-]. eauto. Qed.

Lemma go_rel_bind {A B C D} (R : A → B → Prop) (Q : C → D → Prop) (m : go E A) n f g :
  go_rel R m n → (∀ a b, R a b → go_rel (E:=E) Q (f a) (g b)) →
  go_rel Q (m ≫= f) (n ≫= g).
Proof.
  intros Hm Hf c (a & -> & Hc)%go_bind_Ret_inv. destruct (Hm a eq_refl) as (b & -> & Hab).
  by apply (Hf a b Hab).
Qed.

Lemma go_rel_panic {A B} (R : A → B → Prop) (n : go E B) : go_rel (E:=E) R Panic n.
Proof. by intros ? [=]. Qed.

Lemma go_rel_if {A B} (R : A → B → Prop) (c : bool) (m m' : go E A) n n' :
  go_rel (E:=E) R m n → go_rel (E:=E) R m' n' →
  go_rel R (if c then m else m') (if c then n else n').
Proof. by destruct c. Qed.

Lemma go_rel_for {A B} (R : A → B → Prop) k i (f : Z → A → go E A) g a b :
  R a b → (∀ i a b, R a b → go_rel (E:=E) R (f i a) (g i b)) →
  go_rel R (go_for k i f a) (go_for k i g b).
Proof.
  intros Hab Hf. revert i a b Hab. induction k as [|k IH]; intros i a b Hab; simpl.
  - by apply go_rel_ret.
  - eapply go_rel_bind; [by apply Hf|]. intros. by apply IH.
Qed.

Lemma go_rel_while {A B} (R : A → B → Prop) k c d (f : A → go E A) g a b :
  R a b → (∀ a b, R a b → c a = d b) →
  (∀ a b, R a b → go_rel (E:=E) R (f a) (g b)) →
  go_rel R (go_while k c f a) (go_while k d g b).
Proof.
  intros Hab Hc Hf. revert a b Hab. induction k as [|k IH]; intros a b Hab; simpl;
    rewrite (Hc a b Hab); destruct (d b); try by apply go_rel_ret.
  - by intros ? [=].
  - eapply go_rel_bind; [by apply Hf|]. intros. by apply IH.
Qed.

Lemma go_rel_aget {A B} (R : A → B → Prop) (l : list A) (k : list B) i :
  Forall2 R l k → go_rel (E:=E) R (aget l i) (aget k i).
Proof.
  intros HR a [Hi Hl]%aget_inv. eapply Forall2_lookup_l in Hl as (b & Hb & Hab); [|done].
  exists b. split; [by apply aget_Ret|done].
Qed.

Lemma go_rel_aset {A B} (R : A → B → Prop) (l : list A) (k : list B) i a b :
  Forall2 R l k → R a b → go_rel (E:=E) (Forall2 R) (aset l i a) (aset k i b).
Proof.
  intros HR Hab l' [Hi ->]%aset_inv. rewrite (Forall2_length _ _ _ HR) in Hi.
  exists (<[Z.to_nat i:=b]> k). split; [by apply aset_Ret|]. by apply Forall2_insert.
Qed.

Lemma go_rel_lift1 {A B C D} (R : A → B → Prop) (Q : C → D → Prop) f g (m : go E A) n :
  go_rel R m n → (∀ a b, R a b → Q (f a) (g b)) → go_rel Q (lift1 f m) (lift1 g n).
Proof. intros Hm Hf. eapply go_rel_bind; [done|]. intros. apply go_rel_ret. auto. Qed.

Lemma go_rel_lift2 {A B C D U V} (R : A → B → Prop) (Q : C → D → Prop) (T : U → V → Prop)
    f g (m : go E A) n (m' : go E C) n' :
  go_rel R m n → go_rel Q m' n' → (∀ a b c d, R a b → Q c d → T (f a c) (g b d)) →
  go_rel T (lift2 f m m') (lift2 g n n').
Proof.
  intros Hm Hn Hf. eapply go_rel_bind; [done|]. intros a b Hab.
  eapply go_rel_bind; [done|]. intros c d Hcd. apply go_rel_ret. auto.
Qed.
End GoRel.

(** The relation of a type, found from the type: equality on indices, pointwise
    on lists and pairs, and what the context gives for words and streams. *)
Class RelOf (A B : Type) := rel_of : A → B → Prop.
#[export] Hint Mode RelOf ! - : typeclass_instances.
#[export] Instance rel_of_Z : RelOf Z Z | 100 := eq.
#[export] Instance rel_of_pair {A B C D} `{RelOf A B} `{RelOf C D} : RelOf (A * C) (B * D) :=
  pair_rel rel_of rel_of.
#[export] Instance rel_of_list {A B} `{RelOf A B} : RelOf (list A) (list B) := Forall2 rel_of.

Lemma rel_of_pair_intro {A B C D} `{RelOf A B} `{RelOf C D} (a : A) (b : B) (c : C) (d : D) :
  rel_of a b → rel_of c d → rel_of (a, c) (b, d).
Proof. by split. Qed.

Lemma rel_of_Z_intro (a : Z) : @rel_of Z Z rel_of_Z a a.
Proof. done. Qed.

Lemma rel_aget {E A B} `{RelOf A B} (l : list A) (k : list B) i :
  rel_of l k → go_rel (E:=E) rel_of (aget l i) (aget k i).
Proof. apply go_rel_aget. Qed.

Lemma rel_aset {E A B} `{RelOf A B} (l : list A) (k : list B) i a b :
  rel_of l k → rel_of a b → go_rel (E:=E) rel_of (aset l i a) (aset k i b).
Proof. apply go_rel_aset. Qed.

(** [rel] splits a pair of related programs along their common syntax: binds,
    loops, branches, array accesses and word operators; hypotheses on pairs are
    taken apart and equal indices identified. *)
Create HintDb rel.
#[export] Hint Resolve rel_of_pair_intro rel_of_Z_intro rel_aget : rel.

#[export] Hint Extern 1 (rel_of (w_lit _) _) => apply rel_lit; assumption : rel.
#[export] Hint Extern 1 (rel_of (w_shl _ _) _) => apply rel_shl; [assumption|] : rel.
#[export] Hint Extern 1 (rel_of (w_shr _ _) _) => apply rel_shr; [assumption|] : rel.
#[export] Hint Extern 1 (rel_of (w_and _ _) _) => apply rel_and; [assumption| |] : rel.
#[export] Hint Extern 1 (rel_of (w_or _ _) _) => apply rel_or; [assumption| |] : rel.

Ltac rel_intro :=
  match goal with
  | H : rel_of (_, _) (_, _) |- _ => destruct H as [? ?]; cbn [fst snd] in *
  | H : @rel_of Z Z rel_of_Z ?a ?b |- _ => change (a = b) in H; subst
  | H : @rel_of (_ * _) (_ * _) rel_of_pair ?a ?b |- _ => destruct H as [? ?]
  | a : (_ * _)%type |- _ => destruct a; cbn [fst snd] in *
  end.

Ltac rel_step :=
  first
  [ match goal with |- go_rel _ (let _ := _ in _) _ => progress cbv zeta beta end
  | assumption
  | progress (repeat rel_intro)
  | progress subst
  | match goal with
    | |- go_rel _ Panic _ => apply go_rel_panic
    | |- go_rel _ (Err _) _ => let H := fresh in intros ? H; discriminate H
    | |- go_rel _ (if _ then _ else _) _ => apply go_rel_if
    | |- go_rel _ (mret _) _ => apply go_rel_ret
    | |- go_rel _ (Ret _) _ => apply go_rel_ret
    | |- go_rel _ (mbind _ _) _ => apply (go_rel_bind rel_of); [|intros ? ? ?]
    | |- go_rel _ (go_for _ _ _ _) _ => apply go_rel_for; [|intros ? ? ? ?]
    | |- go_rel _ (go_while _ _ _ _) _ => apply go_rel_while; [|intros ? ? ?|intros ? ? ?]
    | |- go_rel _ (aget _ _) _ => apply rel_aget
    | |- go_rel _ (aset _ _ _) _ => apply rel_aset
    | |- go_rel _ (@lift1 _ ?A ?C ?f ?m) (@lift1 _ ?B ?D ?g ?n) =>
        refine (@go_rel_lift1 _ A B C D rel_of rel_of f g m n _ _); [|intros ? ? ?]
    | |- go_rel _ (@lift2 _ ?A ?C ?U ?f ?m ?m') (@lift2 _ ?B ?D ?V ?g ?n ?n') =>
        refine (@go_rel_lift2 _ A B C D U V rel_of rel_of rel_of f g m n m' n' _ _ _);
        [| |intros ? ? ? ? ? ?]
    | |- rel_of (_, _) (_, _) => apply rel_of_pair_intro
    | |- @rel_of Z Z rel_of_Z _ _ => reflexivity
    | |- rel_of (w_lit _) _ => apply rel_lit; assumption
    | |- rel_of (w_shl _ _) _ => apply rel_shl; [assumption|]
    | |- rel_of (w_sar _ _) _ => apply rel_sar; [assumption|]
    | |- rel_of (w_shr _ _) _ => apply rel_shr; [assumption|]
    | |- rel_of (w_and _ _) _ => apply rel_and; [assumption| |]
    | |- rel_of (w_or _ _) _ => apply rel_or; [assumption| |]
    end
  | solve [eauto 4 with rel]
  | reflexivity
  | match goal with |- ?g => progress cbv zeta beta end ].

Ltac rel := repeat rel_step.
