(* ===== verification/SymRun.v ===== *)
(** Running a block codec on symbolic words.  [sym_input] is the block whose
    value [i] has the bits [SV i 0 .. SV i (bpv-1)]; one run of the encoder and
    of the decoder on it, computed by the kernel, gives the round trip for all
    the blocks of integers below [2^bpv].  The lemmas of this file carry the
    result of such a run over to byte streams. *)

From stdpp Require Import base tactics numbers list strings.
From Stdlib Require Import ZArith Lia.
From S2P Require Import Prelude DataIO Words.

Local Open Scope Z_scope.

(** * Symbolic blocks and streams *)

Abbreviation sword := (list sbit).

Definition sym_input (w block bpv : Z) : list sword :=
  map (fun i => map (fun k => SV i k) (seqZ 0 bpv) ++ replicate (Z.to_nat (w - bpv)) SZ)
      (seqZ 0 block).

(** A buffer that may hold anything. *)
Definition sym_top (w block : Z) : list sword :=
  replicate (Z.to_nat block) (replicate (Z.to_nat w) ST).

(** The stream being written lists its words, the last one first; [T] words
    fit. *)
Definition sym_wr (T : nat) (a : sword) (out : list sword) : M (list sword) :=
  if (length out <? T)%nat then Ret (a :: out) else Panic.

Definition sym_rd (s : list sword) : M (sword * list sword) :=
  match s with [] => Err EOF | a :: s => Ret (a, s) end.

Definition sbit_eqb (a b : sbit) : bool :=
  match a, b with
  | SZ, SZ => true
  | SO, SO => true
  | SV i k, SV j l => (i =? j) && (k =? l)
  | _, _ => false
  end.

Fixpoint list_eqb {A} (f : A → A → bool) (a b : list A) : bool :=
  match a, b with
  | [], [] => true
  | x :: a, y :: b => f x y && list_eqb f a b
  | _, _ => false
  end.

Definition words_eqb : list sword → list sword → bool := list_eqb (list_eqb sbit_eqb).

(** Words of width [w] with all bits known. *)
Definition word_known (a : sword) : bool :=
  forallb (fun b => match b with ST => false | _ => true end) a.

Definition words_known (w : Z) (l : list sword) : bool :=
  forallb (fun a => (length a =? Z.to_nat w)%nat && word_known a) l.

Lemma list_eqb_eq {A} (f : A → A → bool) a b :
  (∀ x y, f x y = true → x = y) → list_eqb f a b = true → a = b.
Proof.
  intros Hf. revert b. induction a as [|x a IH]; intros [|y b] Hab; try done.
  simpl in Hab. apply andb_true_iff in Hab as [?%Hf ?%IH]. by subst.
Qed.

Lemma words_eqb_eq a b : words_eqb a b = true → a = b.
Proof.
  apply list_eqb_eq. intros x y. apply list_eqb_eq. intros u v.
  destruct u, v; try done. simpl. intros [->%Z.eqb_eq ->%Z.eqb_eq]%andb_true_iff. done.
Qed.

(** * The integer a known word shows *)

Section Values.
Context (env : Z → Z → bool) (w : Z) (Hw : 0 < w).

Definition sbit_val (b : sbit) : bool :=
  match b with SO => true | SV i k => env i k | _ => false end.

Fixpoint bits_val (a : sword) : Z :=
  match a with [] => 0 | b :: a => Z.b2z (sbit_val b) + 2 * bits_val a end.

Definition sym_val (a : sword) : Z := swrap w (bits_val a).

Lemma bits_val_testbit a k b : a !! k = Some b →
  Z.testbit (bits_val a) (Z.of_nat k) = sbit_val b.
Proof.
  revert k. induction a as [|c a IH]; intros [|k] Hk; simpl in Hk; simpl bits_val; [done..| |].
  - injection Hk as ->. by rewrite Z.add_b2z_double_bit0.
  - rewrite Nat2Z.inj_succ, Z.add_comm, Z.testbit_succ_r by lia. by apply IH.
Qed.

Lemma sym_rel_val a z : sym_rel env w a z →
  word_known a = true → z = sym_val a.
Proof.
  intros (Hz & Hl & Hb) Hk.
  apply (sint_bits_inj w); [done..|by apply swrap_range|]. intros i Hi.
  unfold sym_val. rewrite swrap_testbit, Z.min_l by lia.
  destruct (lookup_lt_is_Some_2 a (Z.to_nat i)) as [b Ha]; [lia|].
  pose proof (Hb _ _ Ha) as Hr. rewrite Z2Nat.id in Hr by lia.
  pose proof (bits_val_testbit _ _ _ Ha) as Ht. rewrite Z2Nat.id in Ht by lia.
  rewrite Ht. unfold word_known in Hk; rewrite forallb_forall in Hk.
  assert (Hin : List.In b a) by (by eapply list_elem_of_In, list_elem_of_lookup_2).
  specialize (Hk b Hin). by destruct b.
Qed.

Lemma sym_rel_vals l zs : Forall2 (sym_rel env w) l zs → words_known w l = true →
  zs = map sym_val l.
Proof.
  induction 1 as [|a z l zs Ha _ IH]; [done|]. simpl.
  intros [[_ Hka]%andb_true_iff Hkl]%andb_true_iff. f_equal; [by apply sym_rel_val|by apply IH].
Qed.

Lemma sym_val_rels l : words_known w l = true → Forall2 (sym_rel env w) l (map sym_val l).
Proof.
  unfold words_known. rewrite forallb_forall. intros Hl.
  apply Forall2_fmap_r, Forall_Forall2_diag, Forall_forall. intros a Ha.
  apply list_elem_of_In, Hl, andb_true_iff in Ha as [Hn%Nat.eqb_eq Hk].
  split; [by apply swrap_range|]. split; [done|]. intros k b Hb.
  pose proof (lookup_lt_Some _ _ _ Hb). unfold sym_val.
  rewrite swrap_testbit, Z.min_l, (bits_val_testbit _ _ _ Hb) by lia. by destruct b.
Qed.

Lemma sym_top_rel block (g : list Z) : Z.of_nat (length g) = block → Forall (in_sint w) g →
  Forall2 (sym_rel env w) (sym_top w block) g.
Proof.
  intros <- Hg. unfold sym_top. rewrite Nat2Z.id.
  induction Hg as [|z g Hz _ IH]; simpl; constructor; [|done].
  split; [done|]. split; [by rewrite length_replicate|].
  by intros k x [-> _]%lookup_replicate.
Qed.
End Values.

Section Inputs.
Context (w bpv : Z) (xs : list Z).
Hypothesis Hbpv : 0 < bpv < w.
Hypothesis Hxs : Forall (in_uint bpv) xs.

(** Bit [k] of value [i] of the block *)
Definition env_of (i k : Z) : bool := Z.testbit (default 0 (xs !! Z.to_nat i)) k.

Definition value_word (i : Z) : sword :=
  map (fun k => SV i k) (seqZ 0 bpv) ++ replicate (Z.to_nat (w - bpv)) SZ.

Lemma in_uint_sint x : in_uint bpv x → in_sint w x.
Proof.
  intros [H1 H2]. split.
  - pose proof (pow2_pos (w - 1) ltac:(lia)). lia.
  - apply Z.lt_le_trans with (2 ^ bpv); [done|]. apply Z.pow_le_mono_r; lia.
Qed.

Lemma value_word_rel i x : xs !! Z.to_nat i = Some x → sym_rel env_of w (value_word i) x.
Proof.
  intros Hi. assert (Hx : in_uint bpv x) by (by eapply Forall_lookup_1 in Hxs).
  split; [by apply in_uint_sint|]. split.
  - unfold value_word. rewrite length_app, length_map, length_seqZ, length_replicate. lia.
  - intros k b Hb. unfold value_word in Hb.
    apply lookup_app_Some in Hb as [Hb|[Hle Hb]].
    + apply list_lookup_fmap_Some in Hb as (j & -> & Hj).
      apply lookup_seqZ in Hj as [-> Hj]. simpl. unfold env_of. rewrite Hi. done.
    + apply lookup_replicate in Hb as [-> _]. simpl.
      rewrite length_map, length_seqZ in Hle.
      apply (in_uint_testbit_high bpv); [lia|done|lia].
Qed.

Lemma value_word_known i :
  word_known (value_word i) = true.
Proof.
  unfold word_known, value_word. apply forallb_forall. intros b [Hb|Hb]%in_app_or.
  - apply in_map_iff in Hb as (k & <- & _). done.
  - by apply list_elem_of_In, elem_of_replicate in Hb as [-> _].
Qed.

Lemma sym_input_lookup block i : 0 ≤ i < block →
  sym_input w block bpv !! Z.to_nat i = Some (value_word i).
Proof.
  intros Hi. unfold sym_input. apply list_lookup_fmap_Some. exists i.
  split; [done|]. apply lookup_seqZ. lia.
Qed.

Lemma sym_input_length block : 0 ≤ block → length (sym_input w block bpv) = Z.to_nat block.
Proof. intros. unfold sym_input. rewrite length_map, length_seqZ. lia. Qed.

Lemma sym_input_rel block : Z.of_nat (length xs) = block →
  Forall2 (sym_rel env_of w) (sym_input w block bpv) xs.
Proof.
  intros <-. apply Forall2_same_length_lookup. rewrite sym_input_length by lia.
  split; [lia|]. intros i a x Ha Hx. rewrite <- (Nat2Z.id i) in Ha, Hx.
  pose proof (lookup_lt_Some _ _ _ Hx).
  rewrite sym_input_lookup in Ha by lia. simplify_eq. by apply value_word_rel.
Qed.

(** The block is the only one its symbolic form stands for. *)
Lemma sym_input_inj block zs : Z.of_nat (length xs) = block →
  Forall2 (sym_rel env_of w) (sym_input w block bpv) zs → zs = xs.
Proof.
  intros Hl Hz. pose proof (sym_input_rel block Hl) as Hx.
  assert (Hk : words_known w (sym_input w block bpv) = true).
  { apply forallb_forall. intros a (i & <- & _)%in_map_iff.
    apply andb_true_iff. split; [|apply (value_word_known i)].
    apply Nat.eqb_eq. rewrite length_app, length_map, length_seqZ, length_replicate. lia. }
  pose proof (sym_rel_vals _ w ltac:(lia) _ _ Hz Hk).
  pose proof (sym_rel_vals _ w ltac:(lia) _ _ Hx Hk). congruence.
Qed.
End Inputs.

(** * Streams

    [enc] writes a word as [B] bytes. *)

Section Streams.
Context {O I : Type} `{DataOutputLaws O} `{DataInputLaws I}.
Context (env : Z → Z → bool) (w : Z) (enc : Z → list Z) (B : nat).
Hypothesis enc_length : ∀ z, length (enc z) = B.
Context (wr : Z → O → M O) (rd : I → M (Z * I)).
Hypothesis wr_emits : ∀ z, in_sint w z → emits (wr z) (enc z).
Hypothesis rd_consumes : ∀ z, in_sint w z → consumes rd (enc z) z.

Definition words_bytes (zs : list Z) : list Z := concat (map enc zs).

Lemma words_bytes_length zs : length (words_bytes zs) = (B * length zs)%nat.
Proof.
  unfold words_bytes. induction zs as [|z zs IH]; simpl; [lia|].
  rewrite length_app, enc_length, IH. lia.
Qed.

Definition out_rel (T n : nat) (v0 : list Z) : RelOf (list sword) O := fun ws o =>
  ∃ zs, Forall2 (sym_rel env w) (rev ws) zs ∧ out_view o = v0 ++ words_bytes zs
    ∧ ((length ws ≤ T)%nat → out_room o (B * (T - length ws) + n)).

Definition in_rel (rest : list Z) : RelOf (list sword) I := fun ws s =>
  ∃ zs, Forall2 (sym_rel env w) ws zs ∧ in_at s (words_bytes zs ++ rest).

Lemma sym_wr_rel T n v0 a z ws o :
  sym_rel env w a z → out_rel T n v0 ws o →
  go_rel (out_rel T n v0) (sym_wr T a ws) (wr z o).
Proof.
  intros Ha (zs & Hzs & Hv & Hroom) ws'. unfold sym_wr.
  destruct (Nat.ltb_spec (length ws) T) as [Hlt|]; [|done]. intros [= <-].
  destruct (wr_emits z (proj1 Ha) o (B * (T - S (length ws)) + n)%nat)
    as (o' & E & V & R).
  { rewrite enc_length. specialize (Hroom ltac:(lia)). eapply out_room_le; [|done]. nia. }
  exists o'. split; [done|]. exists (zs ++ [z]). split; [|split].
  - simpl. apply Forall2_app; [done|]. constructor; [done|constructor].
  - rewrite V, Hv, <- app_assoc. unfold words_bytes.
    by rewrite map_app, concat_app; simpl; rewrite app_nil_r.
  - intros _. exact R.
Qed.

Lemma sym_rd_rel rest ws s :
  in_rel rest ws s →
  go_rel (pair_rel (sym_rel env w) (in_rel rest)) (sym_rd ws) (rd s).
Proof.
  intros (zs & Hzs & Hat) p Hp. destruct ws as [|a ws]; [done|]. injection Hp as <-.
  apply Forall2_cons_inv_l in Hzs as (z & zs' & Ha & Hzs & ->).
  unfold words_bytes in Hat. simpl in Hat. rewrite <- app_assoc in Hat.
  destruct (rd_consumes z (proj1 Ha) s _ Hat) as (s' & E & V).
  exists (z, s'). split; [done|]. split; [done|]. by exists zs'.
Qed.

Lemma out_rel_nil T n o : out_room o (B * T + n) → out_rel T n (out_view o) [] o.
Proof.
  intros Hr. exists []. split; [constructor|]. split; [by rewrite app_nil_r|].
  intros _. by rewrite Nat.sub_0_r.
Qed.

(** What a finished symbolic encoder run says about the output. *)
Lemma out_rel_known (Hw : 0 < w) T n v0 ws o :
  out_rel T n v0 ws o → length ws = T → words_known w (rev ws) = true →
  out_view o = v0 ++ words_bytes (map (sym_val env w) (rev ws)) ∧ out_room o n.
Proof.
  intros (zs & Hzs & Hv & Hroom) <- Hk.
  rewrite <- (sym_rel_vals _ w Hw _ _ Hzs Hk). split; [done|].
  specialize (Hroom (le_n _)). by rewrite Nat.sub_diag, Nat.mul_0_r in Hroom.
Qed.

Lemma in_rel_vals ws zs s rest : Forall2 (sym_rel env w) ws zs →
  in_at s (words_bytes zs ++ rest) → in_rel rest ws s.
Proof. intros. by exists zs. Qed.

Lemma in_rel_nil rest s : in_rel rest [] s → in_at s rest.
Proof. intros (zs & ->%Forall2_nil_inv_l & Hat). exact Hat. Qed.
End Streams.

(** * Buffers *)

(** The two slices a decoder works on; [Ints] and [Tmp] name them where the
    code passes one of them, perhaps the same one twice. *)
Record bufs (W : Type) := mk_bufs { b_ints : list W; b_tmp : list W }.
Arguments mk_bufs {W} _ _.
Arguments b_ints {W} _.
Arguments b_tmp {W} _.

Inductive buffer := Ints | Tmp.

Definition buf_get {W} (b : buffer) (i : Z) (bf : bufs W) : M W :=
  match b with Ints => aget (b_ints bf) i | Tmp => aget (b_tmp bf) i end.

Definition buf_set {W} (b : buffer) (i : Z) (v : W) (bf : bufs W) : M (bufs W) :=
  match b with
  | Ints => l ← aset (b_ints bf) i v; mret (mk_bufs l (b_tmp bf))
  | Tmp => l ← aset (b_tmp bf) i v; mret (mk_bufs (b_ints bf) l)
  end.

Section BufsRel.
Context {W1 W2 : Type} {RW : RelOf W1 W2}.

#[export] Instance bufs_rel : RelOf (bufs W1) (bufs W2) := fun a b =>
  rel_of (b_ints a) (b_ints b) ∧ rel_of (b_tmp a) (b_tmp b).

Lemma bufs_rel_mk (a c : list W1) (b d : list W2) : rel_of a b → rel_of c d →
  rel_of (mk_bufs a c) (mk_bufs b d).
Proof. by split. Qed.

Lemma bufs_rel_ints (a : bufs W1) (b : bufs W2) : rel_of a b → rel_of (b_ints a) (b_ints b).
Proof. by intros []. Qed.

Lemma bufs_rel_tmp (a : bufs W1) (b : bufs W2) : rel_of a b → rel_of (b_tmp a) (b_tmp b).
Proof. by intros []. Qed.

Lemma buf_get_rel c i (a : bufs W1) (b : bufs W2) : rel_of a b →
  go_rel rel_of (buf_get c i a) (buf_get c i b).
Proof. intros [? ?]. destruct c; simpl; rel. Qed.

#[local] Hint Resolve bufs_rel_mk : rel.
Lemma buf_set_rel c i (v : W1) (u : W2) a b : rel_of v u → rel_of a b →
  go_rel rel_of (buf_set c i v a) (buf_set c i u b).
Proof. intros ? [? ?]. destruct c; simpl; rel. Qed.

Lemma go_copy_rel (a : list W1) (b : list W2) a' b' : rel_of a b → rel_of a' b' →
  rel_of (go_copy a a') (go_copy b b').
Proof.
  intros Hab Hab'. unfold go_copy.
  rewrite (Forall2_length _ _ _ Hab), (Forall2_length _ _ _ Hab').
  apply Forall2_app; [by apply Forall2_take|by apply Forall2_drop].
Qed.

Lemma rel_of_replicate n (a : W1) (b : W2) : rel_of a b → rel_of (replicate n a) (replicate n b).
Proof. apply Forall2_replicate. Qed.

Lemma rel_of_take n (a : list W1) (b : list W2) : rel_of a b → rel_of (take n a) (take n b).
Proof. apply Forall2_take. Qed.
End BufsRel.
#[export] Hint Resolve bufs_rel_mk bufs_rel_ints bufs_rel_tmp buf_get_rel buf_set_rel
  go_copy_rel rel_of_replicate rel_of_take : rel.

(** * Block codecs *)

(** Buffers of [n] and [m] words of width [w]. *)
Definition bufs_ok (w n m : Z) (f : bufs Z) : Prop :=
  Z.of_nat (length (b_ints f)) = n ∧ Z.of_nat (length (b_tmp f)) = m
  ∧ Forall (in_sint w) (b_ints f) ∧ Forall (in_sint w) (b_tmp f).

(** [enc] and [dec] carry the block [xs] over a stream as [bs]: whatever is in
    the working buffers, [enc] emits [bs] and [dec], at the head of [bs],
    consumes it and leaves what [post] allows. *)
Definition block_codec {O I F : Type} `{DataOutput O} `{DataInput I} (ok : F → Prop)
    (enc : F → O → M (F * O)) (dec : F → I → M (F * I)) (post : F → Prop) (bs : list Z) : Prop :=
  Forall is_byte bs
  ∧ (∀ f o n, ok f → out_room o (length bs + n) →
       ∃ f' o', enc f o = Ret (f', o') ∧ ok f' ∧ out_view o' = out_view o ++ bs ∧ out_room o' n)
  ∧ (∀ f s rest, ok f → in_at s (bs ++ rest) →
       ∃ f' s', dec f s = Ret (f', s') ∧ ok f' ∧ post f' ∧ in_at s' rest).

(** The same for a decoder that stores the block [xs] at the start of an array
    of the caller. *)
Definition array_codec {O I F : Type} `{DataOutput O} `{DataInput I} (ok : F → Prop)
    (enc : F → O → M (F * O)) (dec : F → I → list Z → M (F * list Z * I))
    (xs bs : list Z) : Prop :=
  Forall is_byte bs
  ∧ (∀ f o n, ok f → out_room o (length bs + n) →
       ∃ f' o', enc f o = Ret (f', o') ∧ ok f' ∧ out_view o' = out_view o ++ bs ∧ out_room o' n)
  ∧ (∀ f s dst rest, ok f → (length xs ≤ length dst)%nat → in_at s (bs ++ rest) →
       ∃ f' s', dec f s dst = Ret (f', xs ++ drop (length xs) dst, s') ∧ ok f' ∧ in_at s' rest).

(** One symbolic run: [enc] on the symbolic block fills [T] known words and
    [dec] on these words ends with the block in the first buffer. *)
Definition sym_check (w block m bpv : Z) (T : nat)
    (enc : bufs sword → list sword → list sword → M (bufs sword * list sword))
    (dec : bufs sword → list sword → M (bufs sword * list sword)) : bool :=
  let f0 := mk_bufs (sym_top w block) (sym_top w m) in
  let sized f := (Z.of_nat (length (b_ints f)) =? block) && (Z.of_nat (length (b_tmp f)) =? m) in
  match enc f0 (sym_input w block bpv) [] with
  | Ret (f1, ws) =>
    (length ws =? T)%nat && words_known w (rev ws) && sized f1 &&
    match dec f0 (rev ws) with
    | Ret (f2, []) => sized f2 && words_eqb (b_ints f2) (sym_input w block bpv)
    | _ => false
    end
  | _ => false
  end.

Section SymCodec.
Context {O I : Type} `{DataOutputLaws O} `{DataInputLaws I}.
Context (w : Z) (enc_word : Z → list Z) (B : nat).
Hypothesis enc_length : ∀ z, length (enc_word z) = B.
Hypothesis enc_bytes : ∀ z, Forall is_byte (enc_word z).

Lemma words_bytes_is_byte zs : Forall is_byte (words_bytes enc_word zs).
Proof.
  unfold words_bytes. induction zs as [|z zs IH]; simpl; [constructor|].
  by apply Forall_app_2.
Qed.

Lemma bufs_ok_top env block m f : bufs_ok w block m f →
  @rel_of _ _ (@bufs_rel _ _ (sym_rel env w)) (mk_bufs (sym_top w block) (sym_top w m)) f.
Proof. intros (? & ? & ? & ?). split; simpl; by apply sym_top_rel. Qed.

Lemma bufs_ok_of_rel env block m a f :
  @rel_of _ _ (@bufs_rel _ _ (sym_rel env w)) a f →
  (Z.of_nat (length (b_ints a)) =? block) && (Z.of_nat (length (b_tmp a)) =? m) = true →
  bufs_ok w block m f.
Proof.
  intros [Hi Ht] [Ea%Z.eqb_eq Eb%Z.eqb_eq]%andb_true_iff. unfold bufs_ok.
  rewrite <- (Forall2_length _ _ _ Hi), <- (Forall2_length _ _ _ Ht).
  split_and!; [done..| |]; eapply Forall2_Forall_r; (done || apply Forall_true; by intros ? ? []).
Qed.

Lemma sym_codec (block m bpv : Z) (T : nat) (xs : list Z) es ds
    (ez : bufs Z → list Z → O → M (bufs Z * O)) (dz : bufs Z → I → M (bufs Z * I)) :
  0 < bpv < w → Z.of_nat (length xs) = block → Forall (in_uint bpv) xs →
  (∀ env n v0 (RO := out_rel env w enc_word B T n v0) a b c d o p,
    @rel_of _ _ (@bufs_rel _ _ (sym_rel env w)) a b → Forall2 (sym_rel env w) c d →
    RO o p → go_rel (pair_rel (@bufs_rel _ _ (sym_rel env w)) RO) (es a c o) (ez b d p)) →
  (∀ env rest (RI := in_rel env w enc_word rest) a b s t,
    @rel_of _ _ (@bufs_rel _ _ (sym_rel env w)) a b →
    RI s t → go_rel (pair_rel (@bufs_rel _ _ (sym_rel env w)) RI) (ds a s) (dz b t)) →
  sym_check w block m bpv T es ds = true →
  ∃ bs, length bs = (B * T)%nat ∧
    block_codec (bufs_ok w block m) (fun f o => ez f xs o) dz (fun f => b_ints f = xs) bs.
Proof.
  intros Hb Hl Hxs Henc Hdec Hc. unfold sym_check in Hc.
  set (f0 := mk_bufs (sym_top w block) (sym_top w m)) in *.
  destruct (es f0 _ []) as [[f1 ws]| | |] eqn:Ees; try done.
  apply andb_true_iff in Hc as [[[Hlen%Nat.eqb_eq Hk]%andb_true_iff Hs1]%andb_true_iff Hc].
  destruct (ds f0 (rev ws)) as [[f2 [|]]| | |] eqn:Eds; try done.
  apply andb_true_iff in Hc as [Hs2 Hi2%words_eqb_eq].
  pose proof (sym_input_rel w bpv xs Hb Hxs block Hl) as Hin.
  set (env := env_of xs) in *. set (zs := map (sym_val env w) (rev ws)).
  assert (Hzl : length zs = T) by (unfold zs; by rewrite length_map, length_rev).
  exists (words_bytes enc_word zs).
  assert (Hbl : length (words_bytes enc_word zs) = (B * T)%nat)
    by (by rewrite (words_bytes_length _ B), Hzl).
  split; [done|]. split; [apply words_bytes_is_byte|]. split.
  - intros f o n Hf Hroom. rewrite Hbl in Hroom.
    destruct (Henc env n (out_view o) f0 f _ xs [] o (bufs_ok_top env block m f Hf) Hin
                (out_rel_nil _ _ _ _ _ _ _ Hroom) _ Ees) as ([f' o'] & E & [R1 R2]).
    exists f', o'. simpl in *. split; [done|]. split; [by eapply bufs_ok_of_rel|].
    by eapply (out_rel_known env w); [lia|..].
  - intros f s rest Hf Hat.
    destruct (Hdec env rest f0 f (rev ws) s (bufs_ok_top env block m f Hf)) with (a := (f2, @nil sword))
      as ([f' s'] & E & [R1 R2]); [|done|].
    { exists zs. split; [|done]. apply sym_val_rels; [lia|done]. }
    exists f', s'. simpl in *. split; [done|]. split; [by eapply bufs_ok_of_rel|]. split.
    + destruct R1 as [R1 _]. rewrite Hi2 in R1. by eapply sym_input_inj in R1.
    + by eapply in_rel_nil.
Qed.
End SymCodec.
