(* ===== verification/Morton.v ===== *)
(** Bit interleaving of [util/bit_util.go].  The functions compute on
    [uint64]; a [uint64] is represented by the [int64] with the same bits, on
    which [w_shr] is the shift of the unsigned type, and the conversions
    between the two are the identity. *)

From stdpp Require Import base tactics numbers list.
From Stdlib Require Import ZArith Lia.
From S2P Require Import Prelude Words SymRun.

Local Open Scope Z_scope.

Section Morton.
Context {W : Type} `{Word W}.

Definition magic0 : W := w_lit 0x5555555555555555.
Definition magic1 : W := w_lit 0x3333333333333333.
Definition magic2 : W := w_lit 0x0F0F0F0F0F0F0F0F.
Definition magic3 : W := w_lit 0x00FF00FF00FF00FF.
Definition magic4 : W := w_lit 0x0000FFFF0000FFFF.
Definition magic5 : W := w_lit 0x00000000FFFFFFFF.
Definition magic6 : W := w_lit 0xAAAAAAAAAAAAAAAA.

(** The five steps that spread the low 32 bits of [v] over the even bits. *)
Definition spread (v : W) : W :=
  let v := w_and (w_or v (w_shl v 16)) magic4 in
  let v := w_and (w_or v (w_shl v 8)) magic3 in
  let v := w_and (w_or v (w_shl v 4)) magic2 in
  let v := w_and (w_or v (w_shl v 2)) magic1 in
  w_and (w_or v (w_shl v 1)) magic0.

(** [uint64(uint32(even))] keeps the low 32 bits. *)
Definition interleave (even odd : W) : W :=
  let v1 := w_and even magic5 in
  let v2 := w_and odd magic5 in
  w_or (w_shl (spread v2) 1) (spread v1).

Definition deinterleave (b : W) : W :=
  let v := w_and b magic0 in
  let v := w_and (w_xor v (w_shr v 1)) magic1 in
  let v := w_and (w_xor v (w_shr v 2)) magic2 in
  let v := w_and (w_xor v (w_shr v 4)) magic3 in
  let v := w_and (w_xor v (w_shr v 8)) magic4 in
  w_and (w_xor v (w_shr v 16)) magic5.

Definition flip_flop (b : W) : W :=
  w_or (w_shr (w_and b magic6) 1) (w_shl (w_and b magic0) 1).
End Morton.

Definition Interleave (even odd : Z) : Z := interleave (H := int_word 64) even odd.
Definition Deinterleave (b : Z) : Z := deinterleave (H := int_word 64) b.
Definition FlipFlop (b : Z) : Z := flip_flop (H := int_word 64) b.

(** * Symbolic runs *)

Section Rel.
Context {W1 W2 : Type} {H1 : Word W1} {H2 : Word W2} (R : W1 → W2 → Prop).
Context (HR : word_rel H1 H2 R).

Ltac morton :=
  repeat first
    [ assumption
    | apply (rel_and _ _ _ HR) | apply (rel_or _ _ _ HR) | apply (rel_xor _ _ _ HR)
    | apply (rel_shl _ _ _ HR) | apply (rel_shr _ _ _ HR) | apply (rel_lit _ _ _ HR) ].

Lemma spread_rel a b : R a b → R (spread a) (spread b).
Proof using HR.
  intros Hab. unfold spread.
  apply (rel_and _ _ _ HR); [|apply (rel_lit _ _ _ HR)]. morton.
Qed.

Lemma interleave_rel a b c d : R a b → R c d → R (interleave a c) (interleave b d).
Proof using HR.
  intros Hab Hcd. unfold interleave. apply (rel_or _ _ _ HR); [apply (rel_shl _ _ _ HR)|];
    apply spread_rel; morton.
Qed.

Lemma deinterleave_rel a b : R a b → R (deinterleave a) (deinterleave b).
Proof using HR. intros Hab. unfold deinterleave. morton. Qed.

Lemma flip_flop_rel a b : R a b → R (flip_flop a) (flip_flop b).
Proof using HR. intros Hab. unfold flip_flop. morton. Qed.
End Rel.

(** The word whose bits are those of input [i]. *)
Definition sym_var (i : Z) : sword := map (fun k => SV i k) (seqZ 0 64).

Section Vars.
Context (a b : Z) (Ha : in_sint 64 a) (Hb : in_sint 64 b).

Definition pair_env (i k : Z) : bool := Z.testbit (if i =? 0 then a else b) k.
Abbreviation R := (sym_rel pair_env 64).

Lemma sym_var_rel i z : (if i =? 0 then a else b) = z → in_sint 64 z → R (sym_var i) z.
Proof.
  intros <- Hz. split; [done|]. split; [done|]. intros k x Hx.
  apply list_lookup_fmap_Some in Hx as (j & -> & Hj). apply lookup_seqZ in Hj as [-> Hj].
  done.
Qed.

(** Integers that one known word stands for are equal. *)
Lemma sym_rel_eq w u x y : R w x → R u y → w = u → word_known w = true → x = y.
Proof.
  intros Hx Hy <- Hk. rewrite (sym_rel_val pair_env 64 ltac:(lia) w x Hx Hk).
  by rewrite (sym_rel_val pair_env 64 ltac:(lia) w y Hy Hk).
Qed.
End Vars.

(** Interleaving is inverted by deinterleaving: the even bits of
    [Interleave even odd] are the low 32 bits of [even], its odd bits (reached
    through [FlipFlop]) those of [odd]; [FlipFlop] exchanges the two and undoes
    itself. *)
Theorem Morton_roundtrip even odd : in_sint 64 even → in_sint 64 odd →
  Deinterleave (Interleave even odd) = to_uint32 even
  ∧ Deinterleave (FlipFlop (Interleave even odd)) = to_uint32 odd
  ∧ FlipFlop (Interleave even odd) = Interleave odd even
  ∧ FlipFlop (FlipFlop even) = even.
Proof.
  intros He Ho.
  pose proof (sym_word_rel (pair_env even odd) 64 ltac:(lia)) as HR.
  pose proof (sym_var_rel even odd 0 even eq_refl He) as R0.
  pose proof (sym_var_rel even odd 1 odd eq_refl Ho) as R1.
  assert (Hmask : ∀ z i, sym_rel (pair_env even odd) 64 (sym_var i) z →
    sym_rel (pair_env even odd) 64 (@w_and _ (sym_word 64) (sym_var i) (@magic5 _ (sym_word 64)))
      (to_uint32 z)).
  { intros z i Hz. unfold uwrap. rewrite <- Z.land_ones by lia.
    apply (rel_and _ _ _ HR); [done|]. apply (rel_lit _ _ _ HR). }
  split_and!; eapply sym_rel_eq.
  - apply (deinterleave_rel _ HR), (interleave_rel _ HR); eassumption.
  - apply (Hmask _ _ R0).
  - vm_compute. reflexivity.
  - vm_compute. reflexivity.
  - apply (deinterleave_rel _ HR), (flip_flop_rel _ HR), (interleave_rel _ HR); eassumption.
  - apply (Hmask _ _ R1).
  - vm_compute. reflexivity.
  - vm_compute. reflexivity.
  - apply (flip_flop_rel _ HR), (interleave_rel _ HR); eassumption.
  - apply (interleave_rel _ HR); eassumption.
  - vm_compute. reflexivity.
  - vm_compute. reflexivity.
  - apply (flip_flop_rel _ HR), (flip_flop_rel _ HR); eassumption.
  - exact R0.
  - vm_compute. reflexivity.
  - vm_compute. reflexivity.
Qed.

Lemma Morton_roundtrip_witness : Deinterleave (Interleave 5 3) = 5.
Proof. apply (Morton_roundtrip 5 3); ints. Defined.
