(* ===== verification/ForUtil.v ===== *)
(** Frame-of-reference coding of blocks of 256 integers:
    [codecs/for_util.go].

    A [ForUtil] owns two buffers, [ints32] and [scratch]; a decoder splits the
    words it reads between them and recombines.  The word type, the word reader
    and the word writer are parameters (see [Words]); [Encode] and [Decode] at
    the end of the file are the code on [int32] and byte streams. *)

From stdpp Require Import base tactics numbers list strings.
From Stdlib Require Import ZArith Lia.
From S2P Require Import Prelude DataIO Words SymRun.

Local Open Scope Z_scope.

Definition ForUtilBlockSize : Z := 256.
Definition ForUtilBlockSizeLog2 : Z := 8.

Definition ForUtilNumBytes (bitsPerValue : Z) : Z :=
  Z.shiftl bitsPerValue (ForUtilBlockSizeLog2 - 3).

(** * Masks *)

Definition expandMask16 (m : Z) : Z := Z.lor m (go_shl 32 m 16).
Definition expandMask8 (m : Z) : Z := expandMask16 (Z.lor m (go_shl 32 m 8)).

Definition mask32 (bitsPerValue : Z) : Z :=
  if bitsPerValue <=? 0 then 0 else
  if 32 <=? bitsPerValue then -1 else
  to_int32 (Z.shiftl 1 bitsPerValue - 1).

Definition mask16 (bitsPerValue : Z) : Z :=
  if bitsPerValue <=? 0 then 0 else
  if 16 <=? bitsPerValue then -1 else
  expandMask16 (to_int32 (Z.shiftl 1 bitsPerValue - 1)).

Definition mask8 (bitsPerValue : Z) : Z :=
  if bitsPerValue <=? 0 then 0 else
  if 8 <=? bitsPerValue then -1 else
  expandMask8 (to_int32 (Z.shiftl 1 bitsPerValue - 1)).

(** The tables filled by [init]. *)
Definition masks8_table : list Z := map mask8 (seqZ 0 8).
Definition masks16_table : list Z := map mask16 (seqZ 0 16).
Definition masks32_table : list Z := map mask32 (seqZ 0 32).

Section ForUtil.
Context {W : Type} `{Word W}.

Definition masks8 (i : Z) : M W := m ← aget masks8_table i; Ret (w_lit m).
Definition masks16 (i : Z) : M W := m ← aget masks16_table i; Ret (w_lit m).
Definition masks32 (i : Z) : M W := m ← aget masks32_table i; Ret (w_lit m).

(** [switch primitiveSize] of the encoder *)
Definition masks_of (primitiveSize i : Z) : M W :=
  if primitiveSize =? 8 then masks8 i
  else if primitiveSize =? 16 then masks16 i else masks32 i.

(** ** Collapse and expand *)

Definition collapse8 (arr : list W) : M (list W) :=
  go_for 64 0 (fun i arr =>
    store arr [i] := (arr.[i] <<' 24) |' (arr.[64 + i] <<' 16) |' (arr.[128 + i] <<' 8)
                     |' arr.[192 + i];
    Ret arr)%word arr.

Definition expand8 (arr : list W) : M (list W) :=
  go_for 64 0 (fun i arr =>
    let v := arr.[i] in
    store arr [i] := (v >>' 24) &' #255;
    store arr [64 + i] := (v >>' 16) &' #255;
    store arr [128 + i] := (v >>' 8) &' #255;
    store arr [192 + i] := v &' #255;
    Ret arr)%word arr.

Definition collapse16 (arr : list W) : M (list W) :=
  go_for 128 0 (fun i arr =>
    store arr [i] := (arr.[i] <<' 16) |' (arr.[128 + i] &' #65535);
    Ret arr)%word arr.

Definition expand16 (arr : list W) : M (list W) :=
  go_for 128 0 (fun i arr =>
    let v := arr.[i] in
    store arr [i] := (v >>' 16) &' #65535;
    store arr [128 + i] := v &' #65535;
    Ret arr)%word arr.

(** ** Encode *)

Section Encode.
Context {O : Type} (wr : W → O → M O).

(** State of the first loops: [scratch] and [idx]. *)
Definition fill_shift (ints : list W) (numIntsPerShift shift : Z) (st : list W * Z)
  : M (list W * Z) :=
  go_for (Z.to_nat numIntsPerShift) 0 (fun i '(scratch, idx) =>
    (store scratch [i] := scratch.[i] |' (ints.[idx] <<' shift);
     Ret (scratch, idx + 1))%word) st.

(** The encoder for a block of [block] integers; [ForUtil] has 256 and
    shifts right with [>>].  The loop over the remaining integers writes a
    new scratch word in each iteration, so the block size bounds it. *)
Definition encode_words (rsh : M W → Z → M W) (block : Z) (ints : list W) (bitsPerValue primitiveSize : Z) (out : O)
  : M O :=
  let numInts := Z.quot (block * primitiveSize) 32 in
  let numIntsPerShift := bitsPerValue * Z.quot block 32 in
  let scratch := replicate (Z.to_nat block) (w_lit 0) in
  let shift := primitiveSize - bitsPerValue in
  '(scratch, idx) ← go_for (Z.to_nat numIntsPerShift) 0 (fun i '(scratch, idx) =>
    (store scratch [i] := ints.[idx] <<' shift;
     Ret (scratch, idx + 1))%word) (scratch, 0);
  '(scratch, idx, shift) ← go_while (Z.to_nat block)
    (fun '(_, _, shift) => 0 <=? shift)
    (fun '(scratch, idx, shift) =>
       '(scratch, idx) ← fill_shift ints numIntsPerShift shift (scratch, idx);
       mret (scratch, idx, shift - bitsPerValue))
    (scratch, idx, shift - bitsPerValue);
  let remainingBitsPerInt := shift + bitsPerValue in
  maskRemainingBitsPerInt ← masks_of primitiveSize remainingBitsPerInt;
  '(scratch, _, _, _) ← go_while (Z.to_nat block)
    (fun '(_, idx, _, _) => idx <? numInts)
    (fun '(scratch, idx, tmpIdx, remainingBitsPerValue) =>
       if remainingBitsPerInt <=? remainingBitsPerValue then
         let remainingBitsPerValue := remainingBitsPerValue - remainingBitsPerInt in
         (store scratch [tmpIdx] := scratch.[tmpIdx]
            |' ((rsh ints.[idx] remainingBitsPerValue) &' Ret maskRemainingBitsPerInt);
          let tmpIdx := tmpIdx + 1 in
          if remainingBitsPerValue =? 0
          then Ret (scratch, idx + 1, tmpIdx, bitsPerValue)
          else Ret (scratch, idx, tmpIdx, remainingBitsPerValue))%word
       else
         mask1 ← masks_of primitiveSize remainingBitsPerValue;
         mask2 ← masks_of primitiveSize (remainingBitsPerInt - remainingBitsPerValue);
         (store scratch [tmpIdx] := scratch.[tmpIdx]
            |' ((ints.[idx] &' Ret mask1) <<' (remainingBitsPerInt - remainingBitsPerValue));
          let idx := idx + 1 in
          let remainingBitsPerValue :=
            bitsPerValue - remainingBitsPerInt + remainingBitsPerValue in
          store scratch [tmpIdx] := scratch.[tmpIdx]
            |' ((rsh ints.[idx] remainingBitsPerValue) &' Ret mask2);
          Ret (scratch, idx, tmpIdx + 1, remainingBitsPerValue))%word)
    (scratch, idx, 0, bitsPerValue);
  go_for (Z.to_nat numIntsPerShift) 0 (fun i out => w ← aget scratch i; wr w out) out.

Definition encodeInternalForUtil :=
  encode_words (fun v n => v >>' n)%word ForUtilBlockSize.

(** [Encode] on words: the receiver's buffers, the block, the stream. *)
Definition encode_block (f : bufs W) (ints : list W) (bitsPerValue : Z) (out : O)
  : M (bufs W * O) :=
  if Z.of_nat (length ints) <? ForUtilBlockSize
  then Err (Errorf "ints array must have at least 256 elements") else
  let ints32 := go_copy (b_ints f) (take (Z.to_nat ForUtilBlockSize) ints) in
  '(ints32, nextPrimitive) ←
    (if bitsPerValue <=? 8 then a ← collapse8 ints32; mret (a, 8)
     else if bitsPerValue <=? 16 then a ← collapse16 ints32; mret (a, 16)
     else mret (ints32, 32));
  out ← encodeInternalForUtil ints32 bitsPerValue nextPrimitive out;
  mret (mk_bufs ints32 (b_tmp f), out).
End Encode.

(** ** Decode *)

Section Decode.
Context {I : Type} (rd : I → M (W * I)).

(** [count] words from the stream into [c[cIdx:]] *)
Definition read_words (count : Z) (c : buffer) (cIdx : Z) (bf : bufs W) (s : I)
  : M (bufs W * I) :=
  go_for (Z.to_nat count) 0 (fun i '(bf, s) =>
    '(v, s) ← rd s;
    bf ← buf_set c (cIdx + i) v bf;
    mret (bf, s)) (bf, s).

Definition splitInts (count : Z) (b : buffer) (bShift dec : Z) (bMask : M W)
    (c : buffer) (cIdx : Z) (cMask : M W) (bf : bufs W) (s : I) : M (bufs W * I) :=
  bMask ← bMask;
  cMask ← cMask;
  '(bf, s) ← read_words count c cIdx bf s;
  let maxIter := Z.quot (bShift - 1) dec in
  bf ← go_for (Z.to_nat (maxIter + 1)) 0 (fun j bf =>
    let shift := bShift - j * dec in
    let bOffset := count * j in
    go_for (Z.to_nat count) 0 (fun i bf =>
      v ← buf_get c (cIdx + i) bf;
      buf_set b (bOffset + i) (w_and (w_shr v shift) bMask) bf) bf) bf;
  bf ← go_for (Z.to_nat count) 0 (fun i bf =>
    v ← buf_get c (cIdx + i) bf;
    buf_set c (cIdx + i) (w_and v cMask) bf) bf;
  mret (bf, s).

(** [for iter, tmpIdx, intsIdx := 0, 0, base; iter < n;
         iter, tmpIdx, intsIdx = iter+1, tmpIdx+dTmp, intsIdx+dInts] *)
Definition recombine (n dTmp base dInts : Z)
    (body : list W → Z → Z → list W → M (list W)) (r : bufs W * I) : M (bufs W * I) :=
  let '(bf, s) := r in
  ints ← go_for (Z.to_nat n) 0
    (fun iter ints => body (b_tmp bf) (iter * dTmp) (base + iter * dInts) ints) (b_ints bf);
  mret (mk_bufs ints (b_tmp bf), s).

(** [decodeSlow] for a block of [block] integers; its local scratch array
    has the block's length.  The inner loop lowers [b] by
    [remainingBitsPerInt], which is positive. *)
Definition decode_slow (block bitsPerValue : Z) (ints : list W) (s : I) : M (list W * I) :=
  let numInts := bitsPerValue * Z.quot block 32 in
  mask ← masks32 bitsPerValue;
  '(bf, s) ← splitInts numInts Ints (32 - bitsPerValue) 32 (Ret mask) Tmp 0 (Ret (w_lit (-1)))
              (mk_bufs ints (replicate (Z.to_nat block) (w_lit 0))) s;
  let scratch := b_tmp bf in
  let remainingBitsPerInt := 32 - bitsPerValue in
  mask32Remaining ← masks32 remainingBitsPerInt;
  '(ints, _, _) ← go_for (Z.to_nat (block - numInts)) numInts
    (fun intsIdx '(ints, tmpIdx, remainingBits) =>
       let b := bitsPerValue - remainingBits in
       l ← (scratch.[tmpIdx] &' masks32 remainingBits)%word;
       let l := w_shl l b in
       '(l, b, tmpIdx) ← go_while (Z.to_nat bitsPerValue)
         (fun '(_, b, _) => remainingBitsPerInt <=? b)
         (fun '(l, b, tmpIdx) =>
            let b := b - remainingBitsPerInt in
            l ← (Ret l |' ((scratch.[tmpIdx] &' Ret mask32Remaining) <<' b))%word;
            mret (l, b, tmpIdx + 1))
         (l, b, tmpIdx + 1);
       '(l, remainingBits) ←
         (if 0 <? b then
            l ← (Ret l |' ((scratch.[tmpIdx] >>>' (remainingBitsPerInt - b)) &' masks32 b))%word;
            mret (l, remainingBitsPerInt - b)
          else mret (l, remainingBitsPerInt));
       ints ← aset ints intsIdx l;
       mret (ints, tmpIdx, remainingBits))
    (b_ints bf, 0, remainingBitsPerInt);
  mret (ints, s).

Definition decodeSlow (bitsPerValue : Z) (bf : bufs W) (s : I) : M (bufs W * I) :=
  '(ints, s) ← decode_slow ForUtilBlockSize bitsPerValue (b_ints bf) s;
  mret (mk_bufs ints (b_tmp bf), s).

Definition decode1 (bf : bufs W) (s : I) : M (bufs W * I) :=
  splitInts 8 Ints 7 1 (masks8 1) Ints 56 (masks8 1) bf s.

Definition decode2 (bf : bufs W) (s : I) : M (bufs W * I) :=
  splitInts 16 Ints 6 2 (masks8 2) Ints 48 (masks8 2) bf s.

Definition decode3 (bf : bufs W) (s : I) : M (bufs W * I) :=
  r ← splitInts 24 Ints 5 3 (masks8 3) Tmp 0 (masks8 2) bf s;
  recombine 8 3 48 2 (fun tmp tmpIdx intsIdx ints =>
    let l0 := tmp.[tmpIdx + 0] <<' 1 in
    let l0 := l0 |' (tmp.[tmpIdx + 1] >>>' 1) &' masks8 1 in
    store ints [intsIdx + 0] := l0;
    let l1 := (tmp.[tmpIdx + 1] &' masks8 1) <<' 2 in
    let l1 := l1 |' tmp.[tmpIdx + 2] in
    store ints [intsIdx + 1] := l1;
    Ret ints)%word r.

Definition decode4 (bf : bufs W) (s : I) : M (bufs W * I) :=
  splitInts 32 Ints 4 4 (masks8 4) Ints 32 (masks8 4) bf s.

Definition decode5 (bf : bufs W) (s : I) : M (bufs W * I) :=
  r ← splitInts 40 Ints 3 5 (masks8 5) Tmp 0 (masks8 3) bf s;
  recombine 8 5 40 3 (fun tmp tmpIdx intsIdx ints =>
    let l0 := tmp.[tmpIdx + 0] <<' 2 in
    let l0 := l0 |' (tmp.[tmpIdx + 1] >>>' 1) &' masks8 2 in
    store ints [intsIdx + 0] := l0;
    let l1 := (tmp.[tmpIdx + 1] &' masks8 1) <<' 4 in
    let l1 := l1 |' tmp.[tmpIdx + 2] <<' 1 in
    let l1 := l1 |' (tmp.[tmpIdx + 3] >>>' 2) &' masks8 1 in
    store ints [intsIdx + 1] := l1;
    let l2 := (tmp.[tmpIdx + 3] &' masks8 2) <<' 3 in
    let l2 := l2 |' tmp.[tmpIdx + 4] in
    store ints [intsIdx + 2] := l2;
    Ret ints)%word r.

Definition decode6 (bf : bufs W) (s : I) : M (bufs W * I) :=
  r ← splitInts 48 Ints 2 6 (masks8 6) Tmp 0 (masks8 2) bf s;
  recombine 16 3 48 1 (fun tmp tmpIdx intsIdx ints =>
    let l0 := tmp.[tmpIdx + 0] <<' 4 in
    let l0 := l0 |' tmp.[tmpIdx + 1] <<' 2 in
    let l0 := l0 |' tmp.[tmpIdx + 2] in
    store ints [intsIdx + 0] := l0;
    Ret ints)%word r.

Definition decode7 (bf : bufs W) (s : I) : M (bufs W * I) :=
  r ← splitInts 56 Ints 1 7 (masks8 7) Tmp 0 (masks8 1) bf s;
  recombine 8 7 56 1 (fun tmp tmpIdx intsIdx ints =>
    let l0 := tmp.[tmpIdx + 0] <<' 6 in
    let l0 := l0 |' tmp.[tmpIdx + 1] <<' 5 in
    let l0 := l0 |' tmp.[tmpIdx + 2] <<' 4 in
    let l0 := l0 |' tmp.[tmpIdx + 3] <<' 3 in
    let l0 := l0 |' tmp.[tmpIdx + 4] <<' 2 in
    let l0 := l0 |' tmp.[tmpIdx + 5] <<' 1 in
    let l0 := l0 |' tmp.[tmpIdx + 6] in
    store ints [intsIdx + 0] := l0;
    Ret ints)%word r.

Definition decode8 (bf : bufs W) (s : I) : M (bufs W * I) :=
  read_words 64 Ints 0 bf s.

Definition decode9 (bf : bufs W) (s : I) : M (bufs W * I) :=
  r ← splitInts 72 Ints 7 9 (masks16 9) Tmp 0 (masks16 7) bf s;
  recombine 8 9 72 7 (fun tmp tmpIdx intsIdx ints =>
    let l0 := tmp.[tmpIdx + 0] <<' 2 in
    let l0 := l0 |' (tmp.[tmpIdx + 1] >>>' 5) &' masks16 2 in
    store ints [intsIdx + 0] := l0;
    let l1 := (tmp.[tmpIdx + 1] &' masks16 5) <<' 4 in
    let l1 := l1 |' (tmp.[tmpIdx + 2] >>>' 3) &' masks16 4 in
    store ints [intsIdx + 1] := l1;
    let l2 := (tmp.[tmpIdx + 2] &' masks16 3) <<' 6 in
    let l2 := l2 |' (tmp.[tmpIdx + 3] >>>' 1) &' masks16 6 in
    store ints [intsIdx + 2] := l2;
    let l3 := (tmp.[tmpIdx + 3] &' masks16 1) <<' 8 in
    let l3 := l3 |' tmp.[tmpIdx + 4] <<' 1 in
    let l3 := l3 |' (tmp.[tmpIdx + 5] >>>' 6) &' masks16 1 in
    store ints [intsIdx + 3] := l3;
    let l4 := (tmp.[tmpIdx + 5] &' masks16 6) <<' 3 in
    let l4 := l4 |' (tmp.[tmpIdx + 6] >>>' 4) &' masks16 3 in
    store ints [intsIdx + 4] := l4;
    let l5 := (tmp.[tmpIdx + 6] &' masks16 4) <<' 5 in
    let l5 := l5 |' (tmp.[tmpIdx + 7] >>>' 2) &' masks16 5 in
    store ints [intsIdx + 5] := l5;
    let l6 := (tmp.[tmpIdx + 7] &' masks16 2) <<' 7 in
    let l6 := l6 |' tmp.[tmpIdx + 8] in
    store ints [intsIdx + 6] := l6;
    Ret ints)%word r.

Definition decode10 (bf : bufs W) (s : I) : M (bufs W * I) :=
  r ← splitInts 80 Ints 6 10 (masks16 10) Tmp 0 (masks16 6) bf s;
  recombine 16 5 80 3 (fun tmp tmpIdx intsIdx ints =>
    let l0 := tmp.[tmpIdx + 0] <<' 4 in
    let l0 := l0 |' (tmp.[tmpIdx + 1] >>>' 2) &' masks16 4 in
    store ints [intsIdx + 0] := l0;
    let l1 := (tmp.[tmpIdx + 1] &' masks16 2) <<' 8 in
    let l1 := l1 |' tmp.[tmpIdx + 2] <<' 2 in
    let l1 := l1 |' (tmp.[tmpIdx + 3] >>>' 4) &' masks16 2 in
    store ints [intsIdx + 1] := l1;
    let l2 := (tmp.[tmpIdx + 3] &' masks16 4) <<' 6 in
    let l2 := l2 |' tmp.[tmpIdx + 4] in
    store ints [intsIdx + 2] := l2;
    Ret ints)%word r.

Definition decode11 (bf : bufs W) (s : I) : M (bufs W * I) :=
  r ← splitInts 88 Ints 5 11 (masks16 11) Tmp 0 (masks16 5) bf s;
  recombine 8 11 88 5 (fun tmp tmpIdx intsIdx ints =>
    let l0 := tmp.[tmpIdx + 0] <<' 6 in
    let l0 := l0 |' tmp.[tmpIdx + 1] <<' 1 in
    let l0 := l0 |' (tmp.[tmpIdx + 2] >>>' 4) &' masks16 1 in
    store ints [intsIdx + 0] := l0;
    let l1 := (tmp.[tmpIdx + 2] &' masks16 4) <<' 7 in
    let l1 := l1 |' tmp.[tmpIdx + 3] <<' 2 in
    let l1 := l1 |' (tmp.[tmpIdx + 4] >>>' 3) &' masks16 2 in
    store ints [intsIdx + 1] := l1;
    let l2 := (tmp.[tmpIdx + 4] &' masks16 3) <<' 8 in
    let l2 := l2 |' tmp.[tmpIdx + 5] <<' 3 in
    let l2 := l2 |' (tmp.[tmpIdx + 6] >>>' 2) &' masks16 3 in
    store ints [intsIdx + 2] := l2;
    let l3 := (tmp.[tmpIdx + 6] &' masks16 2) <<' 9 in
    let l3 := l3 |' tmp.[tmpIdx + 7] <<' 4 in
    let l3 := l3 |' (tmp.[tmpIdx + 8] >>>' 1) &' masks16 4 in
    store ints [intsIdx + 3] := l3;
    let l4 := (tmp.[tmpIdx + 8] &' masks16 1) <<' 10 in
    let l4 := l4 |' tmp.[tmpIdx + 9] <<' 5 in
    let l4 := l4 |' tmp.[tmpIdx + 10] in
    store ints [intsIdx + 4] := l4;
    Ret ints)%word r.

Definition decode12 (bf : bufs W) (s : I) : M (bufs W * I) :=
  r ← splitInts 96 Ints 4 12 (masks16 12) Tmp 0 (masks16 4) bf s;
  recombine 32 3 96 1 (fun tmp tmpIdx intsIdx ints =>
    let l0 := tmp.[tmpIdx + 0] <<' 8 in
    let l0 := l0 |' tmp.[tmpIdx + 1] <<' 4 in
    let l0 := l0 |' tmp.[tmpIdx + 2] in
    store ints [intsIdx + 0] := l0;
    Ret ints)%word r.

Definition decode13 (bf : bufs W) (s : I) : M (bufs W * I) :=
  r ← splitInts 104 Ints 3 13 (masks16 13) Tmp 0 (masks16 3) bf s;
  recombine 8 13 104 3 (fun tmp tmpIdx intsIdx ints =>
    let l0 := tmp.[tmpIdx + 0] <<' 10 in
    let l0 := l0 |' tmp.[tmpIdx + 1] <<' 7 in
    let l0 := l0 |' tmp.[tmpIdx + 2] <<' 4 in
    let l0 := l0 |' tmp.[tmpIdx + 3] <<' 1 in
    let l0 := l0 |' (tmp.[tmpIdx + 4] >>>' 2) &' masks16 1 in
    store ints [intsIdx + 0] := l0;
    let l1 := (tmp.[tmpIdx + 4] &' masks16 2) <<' 11 in
    let l1 := l1 |' tmp.[tmpIdx + 5] <<' 8 in
    let l1 := l1 |' tmp.[tmpIdx + 6] <<' 5 in
    let l1 := l1 |' tmp.[tmpIdx + 7] <<' 2 in
    let l1 := l1 |' (tmp.[tmpIdx + 8] >>>' 1) &' masks16 2 in
    store ints [intsIdx + 1] := l1;
    let l2 := (tmp.[tmpIdx + 8] &' masks16 1) <<' 12 in
    let l2 := l2 |' tmp.[tmpIdx + 9] <<' 9 in
    let l2 := l2 |' tmp.[tmpIdx + 10] <<' 6 in
    let l2 := l2 |' tmp.[tmpIdx + 11] <<' 3 in
    let l2 := l2 |' tmp.[tmpIdx + 12] in
    store ints [intsIdx + 2] := l2;
    Ret ints)%word r.

Definition decode14 (bf : bufs W) (s : I) : M (bufs W * I) :=
  r ← splitInts 112 Ints 2 14 (masks16 14) Tmp 0 (masks16 2) bf s;
  recombine 16 7 112 1 (fun tmp tmpIdx intsIdx ints =>
    let l0 := tmp.[tmpIdx + 0] <<' 12 in
    let l0 := l0 |' tmp.[tmpIdx + 1] <<' 10 in
    let l0 := l0 |' tmp.[tmpIdx + 2] <<' 8 in
    let l0 := l0 |' tmp.[tmpIdx + 3] <<' 6 in
    let l0 := l0 |' tmp.[tmpIdx + 4] <<' 4 in
    let l0 := l0 |' tmp.[tmpIdx + 5] <<' 2 in
    let l0 := l0 |' tmp.[tmpIdx + 6] in
    store ints [intsIdx + 0] := l0;
    Ret ints)%word r.

Definition decode15 (bf : bufs W) (s : I) : M (bufs W * I) :=
  r ← splitInts 120 Ints 1 15 (masks16 15) Tmp 0 (masks16 1) bf s;
  recombine 8 15 120 1 (fun tmp tmpIdx intsIdx ints =>
    let l0 := tmp.[tmpIdx + 0] <<' 14 in
    let l0 := l0 |' tmp.[tmpIdx + 1] <<' 13 in
    let l0 := l0 |' tmp.[tmpIdx + 2] <<' 12 in
    let l0 := l0 |' tmp.[tmpIdx + 3] <<' 11 in
    let l0 := l0 |' tmp.[tmpIdx + 4] <<' 10 in
    let l0 := l0 |' tmp.[tmpIdx + 5] <<' 9 in
    let l0 := l0 |' tmp.[tmpIdx + 6] <<' 8 in
    let l0 := l0 |' tmp.[tmpIdx + 7] <<' 7 in
    let l0 := l0 |' tmp.[tmpIdx + 8] <<' 6 in
    let l0 := l0 |' tmp.[tmpIdx + 9] <<' 5 in
    let l0 := l0 |' tmp.[tmpIdx + 10] <<' 4 in
    let l0 := l0 |' tmp.[tmpIdx + 11] <<' 3 in
    let l0 := l0 |' tmp.[tmpIdx + 12] <<' 2 in
    let l0 := l0 |' tmp.[tmpIdx + 13] <<' 1 in
    let l0 := l0 |' tmp.[tmpIdx + 14] in
    store ints [intsIdx + 0] := l0;
    Ret ints)%word r.

Definition decode16 (bf : bufs W) (s : I) : M (bufs W * I) :=
  read_words 128 Ints 0 bf s.

(** [expand8(buf)] after a decoder that did not fail *)
Definition then_expand (expand : list W → M (list W)) (m : M (bufs W * I)) : M (bufs W * I) :=
  '(bf, s) ← m;
  ints ← expand (b_ints bf);
  mret (mk_bufs ints (b_tmp bf), s).

(** The switch of [Decode]. *)
Definition decode_block (bitsPerValue : Z) (f : bufs W) (s : I) : M (bufs W * I) :=
  match bitsPerValue with
  | 1 => then_expand expand8 (decode1 f s)
  | 2 => then_expand expand8 (decode2 f s)
  | 3 => then_expand expand8 (decode3 f s)
  | 4 => then_expand expand8 (decode4 f s)
  | 5 => then_expand expand8 (decode5 f s)
  | 6 => then_expand expand8 (decode6 f s)
  | 7 => then_expand expand8 (decode7 f s)
  | 8 => then_expand expand8 (decode8 f s)
  | 9 => then_expand expand16 (decode9 f s)
  | 10 => then_expand expand16 (decode10 f s)
  | 11 => then_expand expand16 (decode11 f s)
  | 12 => then_expand expand16 (decode12 f s)
  | 13 => then_expand expand16 (decode13 f s)
  | 14 => then_expand expand16 (decode14 f s)
  | 15 => then_expand expand16 (decode15 f s)
  | 16 => then_expand expand16 (decode16 f s)
  | _ => decodeSlow bitsPerValue f s
  end.
End Decode.
End ForUtil.

(** * The definitions preserve the relation between words *)

Section Rel.
Context {W1 W2 : Type} {H1 : Word W1} {H2 : Word W2} {RW : RelOf W1 W2}.
Context (HR : word_rel H1 H2 rel_of).

Lemma masks_rel (l : list Z) i :
  go_rel rel_of (m ← aget l i; Ret (w_lit m) : M W1) (m ← aget l i; Ret (w_lit m) : M W2).
Proof. destruct (aget l i); simpl; try by intros ? [=]. rel. Qed.

Lemma masks8_rel i : go_rel rel_of (masks8 i) (masks8 i).
Proof. apply masks_rel. Qed.
Lemma masks16_rel i : go_rel rel_of (masks16 i) (masks16 i).
Proof. apply masks_rel. Qed.
Lemma masks32_rel i : go_rel rel_of (masks32 i) (masks32 i).
Proof. apply masks_rel. Qed.
#[local] Hint Resolve masks8_rel masks16_rel masks32_rel : rel.

Lemma masks_of_rel p i : go_rel rel_of (masks_of p i) (masks_of p i).
Proof. unfold masks_of. rel. Qed.
#[local] Hint Resolve masks_of_rel : rel.

Lemma collapse8_rel a b : rel_of a b → go_rel rel_of (collapse8 a) (collapse8 b).
Proof. intros. unfold collapse8. rel. Qed.
Lemma collapse16_rel a b : rel_of a b → go_rel rel_of (collapse16 a) (collapse16 b).
Proof. intros. unfold collapse16. rel. Qed.
Lemma expand8_rel a b : rel_of a b → go_rel rel_of (expand8 a) (expand8 b).
Proof. intros. unfold expand8. rel. Qed.
Lemma expand16_rel a b : rel_of a b → go_rel rel_of (expand16 a) (expand16 b).
Proof. intros. unfold expand16. rel. Qed.
#[local] Hint Resolve collapse8_rel collapse16_rel expand8_rel expand16_rel : rel.

Section EncodeRel.
Context {O1 O2 : Type} {RO : RelOf O1 O2}.
Context (wr1 : W1 → O1 → M O1) (wr2 : W2 → O2 → M O2).
Hypothesis wr_rel : ∀ a b o p, rel_of a b → rel_of o p → go_rel rel_of (wr1 a o) (wr2 b p).
#[local] Hint Resolve wr_rel : rel.

Lemma fill_shift_rel a b n sh st1 st2 : rel_of a b → rel_of st1 st2 →
  go_rel rel_of (fill_shift a n sh st1) (fill_shift b n sh st2).
Proof. intros. unfold fill_shift. rel. Qed.
#[local] Hint Resolve fill_shift_rel : rel.

Lemma encode_words_rel rsh1 rsh2 block a b bpv p o1 o2 :
  (∀ m n k, go_rel rel_of m n → go_rel rel_of (rsh1 m k) (rsh2 n k)) →
  rel_of a b → rel_of o1 o2 →
  go_rel rel_of (encode_words wr1 rsh1 block a bpv p o1) (encode_words wr2 rsh2 block b bpv p o2).
Proof. intros Hsh Hab Ho. unfold encode_words. rel; eauto 5 with rel. Qed.

Lemma encode_block_rel f g a b bpv o p : rel_of f g → rel_of a b → rel_of o p →
  go_rel rel_of (encode_block wr1 f a bpv o) (encode_block wr2 g b bpv p).
Proof.
  intros Hf Hab Ho. unfold encode_block. rewrite (Forall2_length _ _ _ Hab).
  rel; eauto 6 with rel.
  apply encode_words_rel; [|done..]. intros. rel.
Qed.
End EncodeRel.

Section DecodeRel.
Context {I1 I2 : Type} {RI : RelOf I1 I2}.
Context (rd1 : I1 → M (W1 * I1)) (rd2 : I2 → M (W2 * I2)).
Hypothesis rd_rel : ∀ s t, rel_of s t → go_rel rel_of (rd1 s) (rd2 t).
#[local] Hint Resolve rd_rel : rel.

Lemma read_words_rel n c k a b s t : rel_of a b → rel_of s t →
  go_rel rel_of (read_words rd1 n c k a s) (read_words rd2 n c k b t).
Proof. intros. unfold read_words. rel. Qed.
#[local] Hint Resolve read_words_rel : rel.

Lemma splitInts_rel n b sh dec m1 m2 c k u1 u2 f g s t :
  go_rel rel_of m1 m2 → go_rel rel_of u1 u2 → rel_of f g → rel_of s t →
  go_rel rel_of (splitInts rd1 n b sh dec m1 c k u1 f s)
                (splitInts rd2 n b sh dec m2 c k u2 g t).
Proof.
  intros. unfold splitInts. rel.
Qed.

Lemma recombine_rel n dt base di body1 body2 r q :
  (∀ t1 t2 i j a b, rel_of t1 t2 → rel_of a b →
     go_rel rel_of (body1 t1 i j a) (body2 t2 i j b)) →
  rel_of r q →
  go_rel rel_of (@recombine W1 I1 n dt base di body1 r) (@recombine W2 I2 n dt base di body2 q).
Proof. intros. unfold recombine. rel. Qed.

Lemma decode_slow_rel block bpv a b s t : rel_of a b → rel_of s t →
  go_rel rel_of (decode_slow rd1 block bpv a s) (decode_slow rd2 block bpv b t).
Proof.
  intros. unfold decode_slow.
  assert (Hlit : ∀ z, rel_of (w_lit z : W1) (w_lit z : W2)) by (intros; rel).
  rel. apply splitInts_rel; rel.
Qed.

Ltac rel_decode :=
  intros; unfold decode1, decode2, decode3, decode4, decode5, decode6, decode7, decode8,
    decode9, decode10, decode11, decode12, decode13, decode14, decode15, decode16;
  first
  [ apply splitInts_rel; rel
  | apply read_words_rel; assumption
  | apply (go_rel_bind rel_of); [apply splitInts_rel; rel|intros ? ? ?];
    apply recombine_rel; [intros; rel|assumption] ].


Lemma decodeSlow_rel bpv a b s t : rel_of a b → rel_of s t →
  go_rel rel_of (decodeSlow rd1 bpv a s) (decodeSlow rd2 bpv b t).
Proof.
  intros. unfold decodeSlow. apply (go_rel_bind rel_of); [|intros ? ? ?; rel].
  apply decode_slow_rel; rel.
Qed.

Lemma then_expand_rel e1 e2 m n :
  (∀ a b, rel_of a b → go_rel rel_of (e1 a) (e2 b)) → go_rel rel_of m n →
  go_rel rel_of (@then_expand W1 I1 e1 m) (@then_expand W2 I2 e2 n).
Proof. intros. unfold then_expand. rel. Qed.

Lemma decode_block_rel bpv a b s t : rel_of a b → rel_of s t →
  go_rel rel_of (decode_block rd1 bpv a s) (decode_block rd2 bpv b t).
Proof.
  intros. unfold decode_block.
  repeat match goal with |- go_rel _ (match ?x with _ => _ end) _ => destruct x end;
    match goal with
    | |- go_rel _ (decodeSlow _ _ _ _) _ => by apply decodeSlow_rel
    | |- go_rel _ (then_expand expand8 _) _ =>
        apply then_expand_rel; [intros; by apply expand8_rel|]
    | |- go_rel _ (then_expand expand16 _) _ =>
        apply then_expand_rel; [intros; by apply expand16_rel|]
    end;
    rel_decode.
Qed.
End DecodeRel.
End Rel.

(** * [int32] blocks on byte streams *)

(** [binary.BigEndian.PutUint32] and [binary.BigEndian.Uint32] *)
Definition be32_put (v : Z) : list Z :=
  [to_byte (Z.shiftr v 24); to_byte (Z.shiftr v 16); to_byte (Z.shiftr v 8); to_byte v].

Definition be32_get (b : list Z) : M Z :=
  match b with
  | b0 :: b1 :: b2 :: b3 :: _ =>
      Ret (Z.lor (Z.lor (Z.lor b3 (to_uint32 (Z.shiftl b2 8))) (to_uint32 (Z.shiftl b1 16)))
                 (to_uint32 (Z.shiftl b0 24)))
  | _ => Panic
  end.

(** A four-byte buffer, filled and written, or read and decoded, in each
    iteration of the loops. *)
Definition write_be32 {O} `{DataOutput O} (v : Z) (out : O) : M O :=
  let buf := be32_put (to_uint32 v) in out_bytes buf 0 (Z.of_nat (length buf)) out.

Definition read_be32 {I} `{DataInput I} (inp : I) : M (Z * I) :=
  let buf := repeat 0 4 in
  '(buf, inp) ← in_bytes buf 0 (Z.of_nat (length buf)) inp;
  v ← be32_get buf;
  mret (to_int32 v, inp).

Lemma be32_roundtrip v : in_sint 32 v →
  ∃ u, be32_get (be32_put (to_uint32 v)) = Ret u ∧ to_int32 u = v.
Proof.
  intros Hv. eexists. split; [reflexivity|].
  apply (sint_bits_inj 32); [lia|by apply swrap_range|done|]. intros n Hn.
  rewrite swrap_testbit, Z.min_l, !Z.lor_spec, !uwrap_testbit by lia.
  rewrite (proj2 (Z.ltb_lt n 32)), !andb_true_l by lia.
  rewrite !byte_at_testbit, !uwrap_testbit by lia.
  rewrite (proj2 (Z.ltb_lt n 32)) by lia.
  destruct (Z.testbit v n); [|by rewrite !andb_false_r]. lia.
Qed.

Lemma be32_put_length v : length (be32_put v) = 4%nat.
Proof. done. Qed.
Lemma be32_put_bytes v : Forall is_byte (be32_put v).
Proof. repeat constructor; by apply uwrap_range. Qed.

Section ForUtilStreams.
Context {O I : Type} `{DataOutput O} `{DataInput I}.

(** A [ForUtil] is its two buffers. *)
Definition NewForUtil : bufs Z :=
  mk_bufs (repeat 0 (Z.to_nat ForUtilBlockSize)) (repeat 0 (Z.to_nat ForUtilBlockSize)).

Definition Encode (f : bufs Z) (ints : list Z) (bitsPerValue : Z) (out : O) : M (bufs Z * O) :=
  encode_block (H := int_word 32) write_be32 f ints bitsPerValue out.

(** [ints[i] = int64(uint32(buf[i]))] for the whole block *)
Definition promote (block : Z) (buf ints : list Z) : M (list Z) :=
  go_for (Z.to_nat block) 0 (fun i ints =>
    v ← aget buf i; aset ints i (to_uint32 v)) ints.

Definition Decode (f : bufs Z) (bitsPerValue : Z) (inp : I) (ints : list Z)
  : M (bufs Z * list Z * I) :=
  if Z.of_nat (length ints) <? ForUtilBlockSize
  then Err (Errorf "ints array must have at least 256 elements") else
  '(f, inp) ← decode_block (H := int_word 32) read_be32 bitsPerValue f inp;
  ints ← promote ForUtilBlockSize (b_ints f) ints;
  mret (f, ints, inp).
End ForUtilStreams.

Section Codec.
Context {O I : Type} `{DataOutputLaws O} `{DataInputLaws I}.

Lemma write_be32_emits v : emits (fun o : O => write_be32 v o) (be32_put (to_uint32 v)).
Proof. apply emits_bytes, be32_put_bytes. Qed.

Lemma read_be32_consumes v : in_sint 32 v →
  consumes (fun s : I => read_be32 s) (be32_put (to_uint32 v)) v.
Proof.
  intros Hv s rest Hs. destruct (in_bytes_exact _ s rest Hs) as (s' & E & Hs').
  exists s'. split; [|done]. unfold read_be32. rewrite repeat_length.
  rewrite be32_put_length in E. rewrite E.
  destruct (be32_roundtrip v Hv) as (u & Eu & Hu). cbv [mbind go_bind]. rewrite Eu.
  by rewrite Hu.
Qed.
End Codec.

(** [promote] after a block decoder, as in both [Decode] functions. *)
Definition decode_promote {I} (block : Z) (msg : string) (dec : bufs Z → I → M (bufs Z * I))
    (f : bufs Z) (inp : I) (ints : list Z) : M (bufs Z * list Z * I) :=
  if Z.of_nat (length ints) <? block then Err (Errorf msg) else
  '(f, inp) ← dec f inp;
  ints ← promote block (b_ints f) ints;
  mret (f, ints, inp).

Lemma promote_block block (xs dst : list Z) :
  Z.of_nat (length xs) = block → Forall (in_uint 32) xs →
  (length xs ≤ length dst)%nat → promote block xs dst = Ret (xs ++ drop (length xs) dst).
Proof.
  intros <- Hxs Hl. unfold promote. rewrite Nat2Z.id. apply go_for_overwrite; [|done].
  intros i x l Hi. rewrite (aget_Ret _ _ x); [|lia|by rewrite Nat2Z.id].
  simpl. by rewrite uwrap_id by (by eapply Forall_lookup_1 in Hxs).
Qed.

Lemma in_uint_mono a b x : 0 ≤ a ≤ b → in_uint a x → in_uint b x.
Proof.
  intros Hab [H1 H2]. split; [done|]. apply Z.lt_le_trans with (2 ^ a); [done|].
  apply Z.pow_le_mono_r; lia.
Qed.

(** A codec of [int32] blocks, given as functions on words: they preserve the
    relation between words, and one symbolic run succeeds at the width. *)
Section Blocks32.
Context {O I : Type} `{DataOutputLaws O} `{DataInputLaws I}.
Context (block : Z) (msg : string).
Context (encb : ∀ W, Word W → ∀ P, (W → P → M P) → bufs W → list W → Z → P → M (bufs W * P)).
Context (decb : ∀ W, Word W → ∀ J, (J → M (W * J)) → Z → bufs W → J → M (bufs W * J)).
Arguments encb {W} _ {P}.
Arguments decb {W} _ {J}.

Hypothesis encb_rel : ∀ {W1 W2} {H1 : Word W1} {H2 : Word W2} {RW : RelOf W1 W2}
    (HR : word_rel H1 H2 rel_of) {O1 O2} {RO : RelOf O1 O2} wr1 wr2,
  (∀ a b (o : O1) (p : O2), rel_of a b → rel_of o p → go_rel rel_of (wr1 a o) (wr2 b p)) →
  ∀ f g a b bpv o p, rel_of f g → rel_of a b → rel_of o p →
  go_rel rel_of (encb H1 wr1 f a bpv o) (encb H2 wr2 g b bpv p).
Hypothesis decb_rel : ∀ {W1 W2} {H1 : Word W1} {H2 : Word W2} {RW : RelOf W1 W2}
    (HR : word_rel H1 H2 rel_of) {I1 I2} {RI : RelOf I1 I2} rd1 rd2,
  (∀ (s : I1) (t : I2), rel_of s t → go_rel rel_of (rd1 s) (rd2 t)) →
  ∀ bpv a b s t, rel_of a b → rel_of s t →
  go_rel rel_of (decb H1 rd1 bpv a s) (decb H2 rd2 bpv b t).

Definition blocks_check (T : Z → Z) (bpv : Z) : bool :=
  sym_check 32 block block bpv (Z.to_nat (T bpv))
    (fun f xs o => encb (sym_word 32) (sym_wr (Z.to_nat (T bpv))) f xs bpv o)
    (fun f s => decb (sym_word 32) sym_rd bpv f s).

Lemma blocks_codec T bpv xs : blocks_check T bpv = true →
  1 ≤ bpv ≤ 31 → Z.of_nat (length xs) = block → Forall (in_uint bpv) xs →
  ∃ bs, length bs = (4 * Z.to_nat (T bpv))%nat ∧
    block_codec (bufs_ok 32 block block)
      (fun f (o : O) => encb (int_word 32) write_be32 f xs bpv o)
      (fun f (s : I) => decb (int_word 32) read_be32 bpv f s)
      (fun f => b_ints f = xs) bs.
Proof.
  intros Hc Hb Hl Hxs.
  apply (sym_codec (O := O) (I := I) 32 (fun v => be32_put (to_uint32 v)) 4
    (fun _ => be32_put_length _) (fun _ => be32_put_bytes _) block block bpv
    (Z.to_nat (T bpv)) xs
    (fun f xs o => encb (sym_word 32) (sym_wr (Z.to_nat (T bpv))) f xs bpv o)
    (fun f s => decb (sym_word 32) sym_rd bpv f s)
    (fun f xs o => encb (int_word 32) write_be32 f xs bpv o)
    (fun f s => decb (int_word 32) read_be32 bpv f s)); [lia|done..| | |exact Hc].
  - intros. apply (encb_rel (sym_word_rel env 32 ltac:(lia)) (RO := RO)); [|done..].
    intros. apply (sym_wr_rel env 32 _ 4 (fun _ => be32_put_length _)); [|done..].
    intros. apply write_be32_emits.
  - intros. apply (decb_rel (sym_word_rel env 32 ltac:(lia)) (RI := RI)); [|done..].
    intros. apply sym_rd_rel; [|done]. intros. by apply read_be32_consumes.
Qed.

Lemma blocks_array_codec T bpv xs : blocks_check T bpv = true →
  1 ≤ bpv ≤ 31 → 0 ≤ block ≤ Z.of_nat (length xs) →
  let blk := take (Z.to_nat block) xs in
  Forall (in_uint bpv) blk →
  (∀ f (o : O), encb (int_word 32) write_be32 f xs bpv o = encb (int_word 32) write_be32 f blk bpv o) →
  ∃ bs, length bs = (4 * Z.to_nat (T bpv))%nat ∧
    array_codec (bufs_ok 32 block block) (fun f (o : O) => encb (int_word 32) write_be32 f xs bpv o)
      (fun f (s : I) => decode_promote block msg (decb (int_word 32) read_be32 bpv) f s) blk bs.
Proof.
  intros Hc Hb Hl blk Hxs Htake.
  assert (Hbl : Z.of_nat (length blk) = block) by (unfold blk; rewrite length_take; lia).
  destruct (blocks_codec T bpv blk Hc Hb Hbl Hxs) as (bs & Hbs & Hbytes & He & Hd).
  exists bs. split; [done|]. split; [done|]. split.
  - intros f o n Hf Ho. rewrite Htake. by apply He.
  - intros f s dst rest Hf Hdst Hs. destruct (Hd f s rest Hf Hs) as (f' & s' & E & Hf' & Hi & Hs').
    exists f', s'. split; [|done]. unfold decode_promote.
    rewrite (proj2 (Z.ltb_ge _ _)) by lia. rewrite E. simpl. rewrite Hi.
    rewrite promote_block; [done|done| |done].
    eapply Forall_impl; [exact Hxs|]. intros x. apply in_uint_mono. lia.
Qed.
End Blocks32.

(** * [ForUtil] is correct *)

Abbreviation for_ok := (bufs_ok 32 ForUtilBlockSize ForUtilBlockSize).

Lemma for_check_all :
  forallb (blocks_check ForUtilBlockSize (@encode_block) (@decode_block) (Z.mul 8)) (seqZ 1 31) = true.
Proof. vm_compute. reflexivity. Qed.

Lemma widths_check (P : Z → bool) bpv : forallb P (seqZ 1 31) = true → 1 ≤ bpv ≤ 31 → P bpv = true.
Proof.
  rewrite forallb_forall. intros HP Hb. apply HP, list_elem_of_In, elem_of_seqZ. lia.
Qed.

Lemma for_array_codec {O I : Type} `{DataOutputLaws O} `{DataInputLaws I} bpv xs :
  1 ≤ bpv ≤ 31 → ForUtilBlockSize ≤ Z.of_nat (length xs) →
  let block := take (Z.to_nat ForUtilBlockSize) xs in
  Forall (in_uint bpv) block →
  ∃ bs, Z.of_nat (length bs) = ForUtilNumBytes bpv ∧
    array_codec for_ok (fun f (o : O) => Encode f xs bpv o)
      (fun f (s : I) dst => Decode f bpv s dst) block bs.
Proof.
  intros Hb Hl block Hxs.
  destruct (blocks_array_codec (O := O) (I := I) ForUtilBlockSize
    "ints array must have at least 256 elements" (@encode_block) (@decode_block)
    (@encode_block_rel) (@decode_block_rel) (Z.mul 8) bpv xs) as (bs & Hbs & Hc);
    [by apply (widths_check _ bpv for_check_all)|done|unfold ForUtilBlockSize in *; lia|done| |].
  - intros f o. fold block. unfold encode_block.
    assert (Hbl : Z.of_nat (length block) = ForUtilBlockSize)
      by (unfold block; rewrite length_take; unfold ForUtilBlockSize in *; lia).
    rewrite Hbl, Z.ltb_irrefl, (proj2 (Z.ltb_ge _ _)) by done.
    do 2 f_equal. unfold block. by rewrite take_take, Nat.min_id.
  - exists bs. split; [|exact Hc]. rewrite Hbs. unfold ForUtilNumBytes, ForUtilBlockSizeLog2.
    rewrite Z.shiftl_mul_pow2 by lia. change (2 ^ (8 - 3)) with 32. lia.
Qed.

(** C9. The frame-of-reference codec loses nothing: for every width from 1 to
    31 bits and every block of 256 values below [2^bpv], [Encode] emits
    [ForUtilNumBytes bpv] bytes from which [Decode] restores the block and
    nothing else of the destination changes, whatever the working buffers of
    either side held before. *)
Theorem ForUtil_roundtrip {O I : Type} `{DataOutputLaws O} `{DataInputLaws I} bpv xs :
  1 ≤ bpv ≤ 31 → ForUtilBlockSize ≤ Z.of_nat (length xs) →
  let block := take (Z.to_nat ForUtilBlockSize) xs in
  Forall (in_uint bpv) block →
  ∃ bs, Z.of_nat (length bs) = ForUtilNumBytes bpv ∧
    array_codec for_ok (fun f (o : O) => Encode f xs bpv o)
      (fun f (s : I) dst => Decode f bpv s dst) block bs.
Proof. apply for_array_codec. Qed.

Lemma ForUtil_roundtrip_witness :
  let xs := map (fun i => i mod 29) (seqZ 0 256) in
  ∃ bs, Z.of_nat (length bs) = 160 ∧
    array_codec for_ok (fun f (o : ByteArrayDataOutput) => Encode f xs 5 o)
      (fun f (s : ByteArrayDataInput) dst => Decode f 5 s dst)
      (take (Z.to_nat ForUtilBlockSize) xs) bs.
Proof.
  intros xs. apply (ForUtil_roundtrip 5 xs); [done|by vm_compute|].
  apply in_uints_check. vm_compute. reflexivity.
Defined.
