(* ===== verification/PForUtil.v ===== *)
(** Patched frame-of-reference coding: [codecs/pfor_util.go] (blocks of 256)
    and [codecs/lucene103_pfor_util.go] (blocks of 128).

    Up to seven values that need more bits than the rest are masked before the
    block goes to the frame-of-reference codec; their index and upper bits
    follow as exceptions.  The two files differ in the block size, the codec
    they call and their messages, which are parameters here; the codec is used
    through the interface [ForCodec] only. *)

From stdpp Require Import base tactics numbers list strings.
From Stdlib Require Import ZArith Lia.
From S2P Require Import Prelude DataIO Words SymRun ForUtil.

Local Open Scope Z_scope.

Definition PForMaxExceptions : Z := 7.

(** [bits.Len64] on a non-negative value; at least 1 bit, 64 for a negative
    value. *)
Definition bitsRequired (v : Z) : Z :=
  if v <? 0 then 64 else
  let n := if v =? 0 then 0 else Z.log2 v + 1 in
  if n =? 0 then 1 else n.

(** * The interface of the inner codec *)

Class ForCodec (F O I : Type) := {
  fc_encode : F → list Z → Z → O → M (F * O);
  fc_decode : F → Z → I → list Z → M (F * list Z * I);
  fc_bytes : Z → Z;
  fc_ok : F → Prop
}.

Class ForCodecLaws (F O I : Type) `{ForCodec F O I} `{DataOutput O} `{DataInput I} (block : Z)
  : Prop := {
  fc_law bpv xs : 1 ≤ bpv ≤ 31 → Z.of_nat (length xs) = block → Forall (in_uint bpv) xs →
    ∃ bs, Z.of_nat (length bs) = fc_bytes bpv ∧
      array_codec fc_ok (fun f o => fc_encode f xs bpv o) (fun f s dst => fc_decode f bpv s dst) xs bs
}.

(** * The codec *)

Section PFor.
Context {F O I : Type} `{ForCodec F O I} `{DataOutput O} `{DataInput I}.
Context (block : Z) (msg_short msg_mismatch : string).

(** The histogram of bit widths and the largest one. *)
Definition pfor_histogram (ints : list Z) : M (list Z * Z) :=
  go_for (Z.to_nat block) 0 (fun i '(histogram, maxBitsRequired) =>
    v ← aget ints i;
    let bits := bitsRequired v in
    c ← aget histogram bits;
    histogram ← aset histogram bits (c + 1);
    mret (histogram, if maxBitsRequired <? bits then bits else maxBitsRequired))
    (repeat 0 32, 0).

(** The loop that lowers the width as long as at most seven values exceed
    it: [b], [cumulativeExceptions], [patchedBitsRequired], [numExceptions]. *)
Definition pfor_pick (histogram : list Z) (maxBitsRequired : Z) : M (Z * Z) :=
  let minBits := Z.max 0 (maxBitsRequired - 8) in
  '(_, _, patched, num) ← go_while 32
    (fun '(b, cumulative, _, _) => (minBits <=? b) && negb (PForMaxExceptions <? cumulative))
    (fun '(b, cumulative, _, _) =>
       c ← aget histogram b;
       mret (b - 1, cumulative + c, b, cumulative))
    (maxBitsRequired, 0, maxBitsRequired, 0);
  mret (patched, num).

(** Masks the exceptional values: the state is [exceptions], [intsCopy] and
    [exceptionCount]. *)
Definition pfor_mask (patched maxUnpatchedValue : Z) (exceptions ints : list Z)
  : M (list Z * list Z * Z) :=
  go_for (Z.to_nat block) 0 (fun i '(exceptions, ints, count) =>
    x ← aget ints i;
    if maxUnpatchedValue <? x then
      exceptions ← aset exceptions (count * 2) (to_byte i);
      exceptions ← aset exceptions (count * 2 + 1) (to_byte (go_shr 32 x patched));
      ints ← aset ints i (Z.land x maxUnpatchedValue);
      mret (exceptions, ints, count + 1)
    else mret (exceptions, ints, count))
    (exceptions, ints, 0).

(** [allEqual] *)
Definition allEqual (l : list Z) : bool :=
  match l with [] => true | first :: l => forallb (fun x => x =? first) l end.

Definition pfor_shift (patched numExceptions : Z) (exceptions : list Z) : M (list Z) :=
  go_for (Z.to_nat numExceptions) 0 (fun i exceptions =>
    e ← aget exceptions (2 * i + 1);
    aset exceptions (2 * i + 1) (to_byte (Z.shiftl e patched))) exceptions.

(** The output part of [Encode]: a constant block of small values as a
    variable-length integer, any other with the inner codec. *)
Definition pfor_write (maxBitsRequired patchedBitsRequired numExceptions : Z)
    (exceptions intsCopy : list Z) (p : F) (out : O) : M (F * O) :=
  '(exceptions, p, out) ←
    (if allEqual intsCopy && (maxBitsRequired <=? 8) then
       exceptions ← pfor_shift patchedBitsRequired numExceptions exceptions;
       out ← out_byte (to_byte (Z.shiftl numExceptions 5)) out;
       first ← aget intsCopy 0;
       out ← WriteVInt first out;
       mret (exceptions, p, out)
     else
       let token := Z.lor (Z.shiftl numExceptions 5) patchedBitsRequired in
       out ← out_byte (to_byte token) out;
       '(p, out) ← fc_encode p intsCopy patchedBitsRequired out;
       mret (exceptions, p, out));
  out ← out_bytes exceptions 0 (Z.of_nat (length exceptions)) out;
  mret (p, out).

(** [PForUtil] is the [ForUtil] it owns. *)
Definition pfor_encode (p : F) (ints : list Z) (out : O) : M (F * O) :=
  if Z.of_nat (length ints) <? block then Err (Errorf msg_short) else
  '(histogram, maxBitsRequired) ← pfor_histogram ints;
  '(patchedBitsRequired, numExceptions) ← pfor_pick histogram maxBitsRequired;
  let maxUnpatchedValue := Z.shiftl 1 patchedBitsRequired - 1 in
  let exceptions := repeat 0 (Z.to_nat (numExceptions * 2)) in
  let intsCopy := go_copy (repeat 0 (Z.to_nat block)) ints in
  '(exceptions, intsCopy) ←
    (if 0 <? numExceptions then
       '(exceptions, intsCopy, exceptionCount) ←
         pfor_mask patchedBitsRequired (to_int32 maxUnpatchedValue) exceptions intsCopy;
       if negb (exceptionCount =? numExceptions) then Err (Errorf msg_mismatch)
       else mret (exceptions, intsCopy)
     else mret (exceptions, intsCopy));
  pfor_write maxBitsRequired patchedBitsRequired numExceptions exceptions intsCopy p out.

(** The loop over the exceptions of [Decode]. *)
Definition pfor_patch (bitsPerValue numExceptions : Z) (ints : list Z) (inp : I)
  : M (list Z * I) :=
  go_for (Z.to_nat numExceptions) 0 (fun _ '(ints, inp) =>
    '(idx, inp) ← in_byte inp;
    '(val, inp) ← in_byte inp;
    x ← aget ints idx;
    ints ← aset ints idx (Z.lor x (to_int64 (Z.shiftl val bitsPerValue)));
    mret (ints, inp)) (ints, inp).

Definition pfor_decode (p : F) (inp : I) (ints : list Z) : M (F * list Z * I) :=
  if Z.of_nat (length ints) <? block then Err (Errorf msg_short) else
  '(token, inp) ← in_byte inp;
  let bitsPerValue := Z.land token 31 in
  let numExceptions := Z.shiftr token 5 in
  '(p, ints, inp) ←
    (if bitsPerValue =? 0 then
       '(val, inp) ← ReadVInt inp;
       ints ← go_for (Z.to_nat block) 0 (fun i ints => aset ints i val) ints;
       mret (p, ints, inp)
     else fc_decode p bitsPerValue inp ints);
  '(ints, inp) ← pfor_patch bitsPerValue numExceptions ints inp;
  mret (p, ints, inp).

(** [PForUtilSkip]; [fc_bytes] is [ForUtilNumBytes]. *)
Definition pfor_skip `{!SeekableInput I} (inp : I) : M I :=
  '(token, inp) ← in_byte inp;
  let bitsPerValue := Z.land token 31 in
  let numExceptions := Z.shiftr token 5 in
  if bitsPerValue =? 0 then
    '(_, inp) ← ReadVLong inp;
    in_seek (in_pos inp + Z.shiftl numExceptions 1) inp
  else
    let numBytes := fc_bytes bitsPerValue in
    in_seek (in_pos inp + Z.shiftl numExceptions 1 + numBytes) inp.
End PFor.

(** * Reference: which values are exceptions *)

Fixpoint exceptions_of (p i : Z) (xs : list Z) : list (Z * Z) :=
  match xs with
  | [] => []
  | x :: xs => (if 2 ^ p - 1 <? x then [(i, Z.shiftr x p)] else []) ++ exceptions_of p (i + 1) xs
  end.

Definition masked (p : Z) (xs : list Z) : list Z := map (fun x => Z.land x (2 ^ p - 1)) xs.

Definition exc_bytes (l : list (Z * Z)) : list Z := concat (map (fun '(i, v) => [i; v]) l).

(** The number of values wider than [p] bits. *)
Definition above (p : Z) (xs : list Z) : Z :=
  Z.of_nat (length (List.filter (fun x => p <? bitsRequired x) xs)).

Definition width_count (b : Z) (xs : list Z) : Z :=
  Z.of_nat (length (List.filter (fun x => bitsRequired x =? b) xs)).

Lemma bitsRequired_range x : in_uint 31 x → 1 ≤ bitsRequired x ≤ 31.
Proof.
  intros [H1 H2]. unfold bitsRequired. destruct (Z.ltb_spec x 0); [lia|].
  destruct (Z.eqb_spec x 0); simpl; [lia|].
  assert (0 ≤ Z.log2 x < 31) by (split; [apply Z.log2_nonneg|apply Z.log2_lt_pow2; lia]).
  destruct (Z.eqb_spec (Z.log2 x + 1) 0); lia.
Qed.

Lemma bitsRequired_lt x p : 0 ≤ x → 1 ≤ p → (p <? bitsRequired x) = (2 ^ p - 1 <? x).
Proof.
  intros Hx Hp. unfold bitsRequired. rewrite (proj2 (Z.ltb_ge x 0)) by lia.
  pose proof (pow2_pos p ltac:(lia)).
  destruct (Z.eqb_spec x 0) as [->|Hx0].
  { simpl. destruct (Z.ltb_spec p 1), (Z.ltb_spec (2 ^ p - 1) 0); (done || lia). }
  pose proof (Z.log2_nonneg x). destruct (Z.eqb_spec (Z.log2 x + 1) 0); [lia|].
  apply eq_true_iff_eq. rewrite !Z.ltb_lt.
  pose proof (Z.log2_le_pow2 x p ltac:(lia)). lia.
Qed.

Lemma bitsRequired_pow x : 0 ≤ x → x < 2 ^ bitsRequired x.
Proof.
  intros Hx. unfold bitsRequired. rewrite (proj2 (Z.ltb_ge x 0)) by lia.
  destruct (Z.eqb_spec x 0) as [->|]; [done|].
  pose proof (Z.log2_nonneg x). destruct (Z.eqb_spec (Z.log2 x + 1) 0); [lia|].
  pose proof (Z.log2_spec x ltac:(lia)). rewrite <- Z.add_1_r in *. lia.
Qed.

Lemma above_cons p x xs : above p (x :: xs) = (if p <? bitsRequired x then 1 else 0) + above p xs.
Proof. unfold above. simpl. destruct (_ <? _); simpl; lia. Qed.

Lemma width_count_cons b x xs :
  width_count b (x :: xs) = (if bitsRequired x =? b then 1 else 0) + width_count b xs.
Proof. unfold width_count. simpl. destruct (_ =? _); simpl; lia. Qed.

Lemma above_pred b xs : above (b - 1) xs = above b xs + width_count b xs.
Proof.
  induction xs as [|x xs IH]; [done|]. rewrite !above_cons, width_count_cons.
  destruct (Z.ltb_spec (b - 1) (bitsRequired x)), (Z.ltb_spec b (bitsRequired x)),
    (Z.eqb_spec (bitsRequired x) b); lia.
Qed.

Lemma above_zero xs : Forall (in_uint 31) xs → above 0 xs = Z.of_nat (length xs).
Proof.
  induction 1 as [|x xs Hx _ IH]; [done|]. rewrite above_cons.
  pose proof (bitsRequired_range x Hx). rewrite (proj2 (Z.ltb_lt _ _)) by lia. simpl length. lia.
Qed.

Lemma above_max m xs : Forall (fun x => bitsRequired x ≤ m) xs → above m xs = 0.
Proof.
  induction 1 as [|x xs Hx _ IH]; [done|]. rewrite above_cons.
  rewrite (proj2 (Z.ltb_ge _ _)) by lia. lia.
Qed.

Lemma exceptions_of_length p i xs : 1 ≤ p → Forall (in_uint 31) xs →
  Z.of_nat (length (exceptions_of p i xs)) = above p xs.
Proof.
  intros Hp Hxs. revert i. induction Hxs as [|x xs Hx _ IH]; intros i; [done|].
  rewrite above_cons. simpl. destruct Hx as [Hx _].
  rewrite length_app, Nat2Z.inj_add, IH, bitsRequired_lt by lia.
  by destruct (_ <? _).
Qed.

Lemma exc_bytes_app l k : exc_bytes (l ++ k) = exc_bytes l ++ exc_bytes k.
Proof. unfold exc_bytes. by rewrite map_app, concat_app. Qed.

Lemma exc_bytes_length l : length (exc_bytes l) = (2 * length l)%nat.
Proof. unfold exc_bytes. induction l as [|[] l IH]; simpl in *; lia. Qed.

(** * The steps of the encoder *)

Section Steps.
Context (block : Z) (msg : string).

Lemma pfor_histogram_spec xs : Z.of_nat (length xs) = block → Forall (in_uint 31) xs →
  ∃ h m, pfor_histogram block xs = Ret (h, m) ∧ length h = 32%nat
    ∧ (∀ b : nat, (b < 32)%nat → h !! b = Some (width_count (Z.of_nat b) xs))
    ∧ 0 ≤ m ≤ 31 ∧ Forall (fun x => bitsRequired x ≤ m) xs.
Proof.
  intros Hl Hxs. unfold pfor_histogram. rewrite <- Hl, Nat2Z.id.
  destruct (go_for_inv (E := goerr) (fun i '(h, m) => length h = 32%nat
    ∧ (∀ b : nat, (b < 32)%nat → h !! b = Some (width_count (Z.of_nat b) (take (Z.to_nat i) xs)))
    ∧ 0 ≤ m ≤ 31 ∧ Forall (fun x => bitsRequired x ≤ m) (take (Z.to_nat i) xs))
    (length xs) 0 (fun i '(histogram, maxBitsRequired) =>
      v ← aget xs i;
      let bits := bitsRequired v in
      c ← aget histogram bits;
      histogram ← aset histogram bits (c + 1);
      mret (histogram, if maxBitsRequired <? bits then bits else maxBitsRequired))
    (repeat 0 32, 0)) as ([h m] & E & Hinv).
  - split_and!; [done| |lia..|constructor].
    intros b Hb. do 32 (destruct b as [|b]; [done|]). lia.
  - intros i [h m] Hi (Hh & Hc & Hm & Hf).
    destruct (aget_ex (E := goerr) xs i) as (x & -> & Hx); [lia|]. simpl.
    assert (Hr : 1 ≤ bitsRequired x ≤ 31).
    { apply bitsRequired_range. by eapply Forall_lookup_1 in Hxs. }
    rewrite (aget_Ret _ _ (width_count (bitsRequired x) (take (Z.to_nat i) xs)));
      [|lia|rewrite Hc, Z2Nat.id by lia; done].
    simpl. rewrite aset_Ret by lia. simpl. eexists. split; [reflexivity|].
    replace (Z.to_nat (i + 1)) with (S (Z.to_nat i)) by lia.
    rewrite (take_S_r _ _ _ Hx). split_and!.
    + by rewrite length_insert.
    + intros b Hb. unfold width_count in *. rewrite List.filter_app, length_app. simpl.
      destruct (Z.eqb_spec (bitsRequired x) (Z.of_nat b)) as [Heq|Hne].
      * rewrite Heq, Nat2Z.id, list_lookup_insert_eq by lia. f_equal. simpl. lia.
      * rewrite list_lookup_insert_ne, Hc by lia. f_equal. simpl. lia.
    + destruct (Z.ltb_spec m (bitsRequired x)); lia.
    + destruct (Z.ltb_spec m (bitsRequired x)); lia.
    + apply Forall_app_2; [|constructor; [|constructor]; destruct (Z.ltb_spec m (bitsRequired x)); lia].
      eapply Forall_impl; [exact Hf|]. simpl. intros y Hy.
      destruct (Z.ltb_spec m (bitsRequired x)); lia.
  - rewrite Z.add_0_l, Nat2Z.id, firstn_all in Hinv. destruct Hinv as (? & ? & ? & ?).
    by exists h, m.
Qed.

Lemma pfor_pick_spec xs h m : (7 < length xs)%nat → Forall (in_uint 31) xs →
  length h = 32%nat → (∀ b : nat, (b < 32)%nat → h !! b = Some (width_count (Z.of_nat b) xs)) →
  0 ≤ m ≤ 31 → Forall (fun x => bitsRequired x ≤ m) xs →
  ∃ p, pfor_pick h m = Ret (p, above p xs) ∧ 1 ≤ p ≤ 31 ∧ m - 8 ≤ p ≤ m ∧ above p xs ≤ 7.
Proof.
  intros Hlen Hxs Hh Hc Hm Hmax. unfold pfor_pick.
  assert (Hm1 : 1 ≤ m).
  { destruct Hxs as [|x xs Hx]; [simpl in Hlen; lia|]. inversion_clear Hmax.
    pose proof (bitsRequired_range x Hx). lia. }
  edestruct (go_while_inv (E := goerr) (fun '(b, cum, p, num) =>
      cum = above b xs ∧ num = above p xs ∧ num ≤ 7 ∧ 1 ≤ p ≤ m ∧ m - 8 ≤ p
      ∧ Z.max 0 (m - 8) - 1 ≤ b ≤ m)
    (fun '(b, _, _, _) => b - Z.max 0 (m - 8) + 1) 32) as ([[[b cum] p] num] & E & Hinv & _);
    [| | |rewrite E; destruct Hinv as (-> & -> & ? & ? & ? & ?); exists p; by split_and!; (done || lia)].
  - simpl. rewrite (above_max m xs Hmax). lia.
  - lia.
  - intros [[[b cum] p] num] (-> & -> & Hn & Hp1 & Hp8 & Hb) [Hb1%Z.leb_le Hc7]%andb_true_iff.
    apply negb_true_iff, Z.ltb_ge in Hc7. unfold PForMaxExceptions in Hc7. split; [lia|].
    rewrite (aget_Ret _ _ (width_count b xs)); [|lia|rewrite Hc, Z2Nat.id by lia; done].
    simpl. eexists. split; [reflexivity|]. simpl. rewrite above_pred.
    assert (b ≠ 0). { intros ->. rewrite above_zero in Hc7 by done. lia. }
    lia.
Qed.

Lemma land_mask x p : 0 ≤ p → Z.land x (2 ^ p - 1) = x mod 2 ^ p.
Proof. intros. rewrite Z.sub_1_r, <- Z.ones_equiv. by apply Z.land_ones. Qed.

Lemma pfor_mask_loop p suf : 1 ≤ p ≤ 31 → ∀ pre acc rest,
  Forall (fun x => in_uint 31 x ∧ x < 2 ^ (p + 8)) suf →
  (length pre + length suf ≤ 256)%nat →
  length rest = (2 * length (exceptions_of p (Z.of_nat (length pre)) suf))%nat →
  go_for (length suf) (Z.of_nat (length pre)) (fun i '(exceptions, ints, count) =>
    x ← aget ints i;
    if 2 ^ p - 1 <? x then
      exceptions ← aset exceptions (count * 2) (to_byte i);
      exceptions ← aset exceptions (count * 2 + 1) (to_byte (go_shr 32 x p));
      ints ← aset ints i (Z.land x (2 ^ p - 1));
      mret (exceptions, ints, count + 1)
    else mret (exceptions, ints, count))
    (exc_bytes acc ++ rest, pre ++ suf, Z.of_nat (length acc))
  = @Ret goerr _ (exc_bytes (acc ++ exceptions_of p (Z.of_nat (length pre)) suf),
      pre ++ masked p suf,
      Z.of_nat (length (acc ++ exceptions_of p (Z.of_nat (length pre)) suf))).
Proof.
  intros Hp. induction suf as [|x suf IH]; intros pre acc rest Hsuf Hlen Hrest.
  { simpl in *. destruct rest; [|done]. by rewrite !app_nil_r. }
  inversion Hsuf as [|? ? [[Hx0 Hx31] Hx] Hs]; subst. simpl in Hlen. simpl.
  rewrite aget_mid by done. simpl.
  assert (Hpre : Z.of_nat (length pre) + 1 = Z.of_nat (length (pre ++ [x])))
    by (rewrite length_app; simpl; lia).
  assert (Hpre' : ∀ y, Z.of_nat (length pre) + 1 = Z.of_nat (length (pre ++ [y])))
    by (intros; rewrite length_app; simpl; lia).
  simpl in Hrest. destruct (Z.ltb_spec (2 ^ p - 1) x) as [Hgt|Hle]; simpl in *.
  - destruct rest as [|r0 [|r1 rest]]; simpl in Hrest; [lia..|].
    rewrite (aset_mid (exc_bytes acc)) by (rewrite exc_bytes_length; lia). simpl.
    assert (Hidx : to_byte (Z.of_nat (length pre)) = Z.of_nat (length pre))
      by (apply uwrap_id; ints).
    assert (Hval : to_byte (go_shr 32 x p) = Z.shiftr x p).
    { unfold go_shr, shift_out. rewrite (proj2 (Z.ltb_ge p 0)), (proj2 (Z.leb_gt 32 p)) by lia.
      simpl. rewrite (uwrap_id 32) by ints. rewrite Z.shiftr_div_pow2 by lia.
      pose proof (pow2_pos p ltac:(lia)).
      assert (0 ≤ x / 2 ^ p < 256).
      { split; [apply Z.div_pos; lia|]. apply Z.div_lt_upper_bound; [lia|].
        rewrite Z.pow_add_r in Hx by lia. change (2 ^ 8) with 256 in Hx. lia. }
      rewrite swrap_id by ints. apply uwrap_id. ints. }
    rewrite Hidx, Hval.
    rewrite (cons_middle (Z.of_nat (length pre)) (exc_bytes acc)), app_assoc.
    rewrite (aset_mid (exc_bytes acc ++ _)) by (rewrite length_app, exc_bytes_length; simpl; lia).
    simpl. rewrite (aset_mid pre) by done. simpl.
    rewrite (Hpre' (Z.land x (2 ^ p - 1))) in *.
    specialize (IH (pre ++ [Z.land x (2 ^ p - 1)])
      (acc ++ [(Z.of_nat (length pre), Z.shiftr x p)]) rest Hs).
    rewrite exc_bytes_app, <- !app_assoc in IH. simpl in IH.
    rewrite <- app_assoc. simpl.
    replace (Z.of_nat (length acc) + 1)
      with (Z.of_nat (length (acc ++ [(Z.of_nat (length pre), Z.shiftr x p)])))
      by (rewrite length_app; simpl; lia).
    apply IH; [rewrite length_app; simpl; lia|lia].
  - rewrite (Hpre' (Z.land x (2 ^ p - 1))) in *.
    assert (Hm : Z.land x (2 ^ p - 1) = x).
    { rewrite land_mask by lia. apply Z.mod_small. lia. }
    rewrite Hm in *. specialize (IH (pre ++ [x]) acc rest Hs).
    rewrite <- !app_assoc in IH. simpl in IH. rewrite IH; [done| |done].
    rewrite length_app. simpl. lia.
Qed.

Lemma pfor_mask_step p xs : 1 ≤ p ≤ 31 → Z.of_nat (length xs) = block → block ≤ 256 →
  Forall (fun x => in_uint 31 x ∧ x < 2 ^ (p + 8)) xs →
  let n := Z.of_nat (length (exceptions_of p 0 xs)) in
  (if 0 <? n then
     '(exceptions, ints, count) ← pfor_mask block p (to_int32 (Z.shiftl 1 p - 1))
        (repeat 0 (Z.to_nat (n * 2))) xs;
     if negb (count =? n) then Err (Errorf msg) else mret (exceptions, ints)
   else mret (repeat 0 (Z.to_nat (n * 2)), xs))
  = @Ret goerr _ (exc_bytes (exceptions_of p 0 xs), masked p xs).
Proof.
  intros Hp Hl Hb Hxs n. assert (Hm : to_int32 (Z.shiftl 1 p - 1) = 2 ^ p - 1).
  { rewrite Z.shiftl_1_l. apply swrap_id; [lia|]. pose proof (pow2_pos p ltac:(lia)).
    assert (2 ^ p ≤ 2 ^ 31) by (apply Z.pow_le_mono_r; lia). ints. }
  assert (E : pfor_mask block p (to_int32 (Z.shiftl 1 p - 1)) (repeat 0 (Z.to_nat (n * 2))) xs
    = @Ret goerr _ (exc_bytes (exceptions_of p 0 xs), masked p xs, n)).
  { unfold pfor_mask. rewrite Hm, <- Hl, Nat2Z.id. pose proof (pfor_mask_loop p xs Hp [] []
      (repeat 0 (Z.to_nat (n * 2))) Hxs) as HE. simpl in HE. apply HE; [lia|].
    rewrite repeat_length. unfold n. change (Z.of_nat 0) with 0. lia. }
  destruct (Z.ltb_spec 0 n).
  - rewrite E. simpl. by rewrite Z.eqb_refl.
  - revert E. unfold n in *. destruct (exceptions_of p 0 xs) as [|e l] eqn:He; [|simpl in *; lia].
    intros _. simpl. do 2 f_equal. symmetry. clear -He Hxs Hp. revert He. generalize 0.
    induction Hxs as [|x xs [[Hx0 _] _] _ IH]; intros i He; [done|]. simpl in *.
    destruct (Z.ltb_spec (2 ^ p - 1) x); [done|]. simpl in He.
    rewrite (IH _ He), land_mask by lia. rewrite Z.mod_small by lia. done.
Qed.

Definition map_value (f : Z → Z) (l : list (Z * Z)) : list (Z * Z) :=
  map (fun '(i, v) => (i, f v)) l.

Lemma exc_value_at l i v pre suf : l = pre ++ (i, v) :: suf →
  exc_bytes l = (exc_bytes pre ++ [i]) ++ v :: exc_bytes suf.
Proof. intros ->. by rewrite exc_bytes_app, <- app_assoc. Qed.

Lemma pfor_shift_loop p suf : ∀ pre, Forall (fun e => is_byte (Z.shiftl e.2 p)) suf →
  go_for (length suf) (Z.of_nat (length pre)) (fun i exceptions =>
    e ← aget exceptions (2 * i + 1);
    aset exceptions (2 * i + 1) (to_byte (Z.shiftl e p))) (exc_bytes (pre ++ suf))
  = @Ret goerr _ (exc_bytes (pre ++ map_value (fun v => Z.shiftl v p) suf)).
Proof.
  induction suf as [|[i v] suf IH]; intros pre Hs; [done|]. inversion Hs as [|? ? Hv Hs']; subst.
  simpl. rewrite (exc_value_at _ i v pre suf eq_refl).
  assert (Hi : 2 * Z.of_nat (length pre) + 1 = Z.of_nat (length (exc_bytes pre ++ [i])))
    by (rewrite length_app, exc_bytes_length; simpl; lia).
  rewrite aget_mid by done. simpl. rewrite aset_mid by done. simpl.
  rewrite (uwrap_id 8) by done.
  rewrite <- (exc_value_at (pre ++ (i, Z.shiftl v p) :: suf) i (Z.shiftl v p) pre suf eq_refl).
  rewrite (cons_middle _ pre suf), app_assoc.
  replace (Z.of_nat (length pre) + 1) with (Z.of_nat (length (pre ++ [(i, Z.shiftl v p)])))
    by (rewrite length_app; simpl; lia).
  rewrite (IH _ Hs'). by rewrite <- app_assoc.
Qed.

Lemma pfor_shift_spec p l : Forall (fun e => is_byte (Z.shiftl e.2 p)) l →
  pfor_shift p (Z.of_nat (length l)) (exc_bytes l)
  = Ret (exc_bytes (map_value (fun v => Z.shiftl v p) l)).
Proof. intros Hl. unfold pfor_shift. rewrite Nat2Z.id. apply (pfor_shift_loop p l [] Hl). Qed.

Section Patch.
Context {I : Type} `{DataInputLaws I}.

Lemma pfor_patch_loop p b f tail suf : ∀ pre i (inp : I) rest,
  Forall (fun x => 2 ^ p - 1 < x →
    Z.lor (Z.land x (2 ^ p - 1)) (to_int64 (Z.shiftl (f (Z.shiftr x p)) b)) = x) suf →
  Forall (fun x => x ≤ 2 ^ p - 1 → Z.land x (2 ^ p - 1) = x) suf →
  let l := exceptions_of p (Z.of_nat (length pre)) suf in
  in_at inp (exc_bytes (map_value f l) ++ rest) →
  ∃ inp', go_for (length l) i (fun _ '(ints, inp) =>
      '(idx, inp) ← in_byte inp;
      '(val, inp) ← in_byte inp;
      x ← aget ints idx;
      ints ← aset ints idx (Z.lor x (to_int64 (Z.shiftl val b)));
      mret (ints, inp)) (pre ++ masked p suf ++ tail, inp)
    = Ret (pre ++ suf ++ tail, inp') ∧ in_at inp' rest.
Proof.
  induction suf as [|x suf IH]; intros pre i inp rest Hx Hs l Hin.
  { exists inp. by split. }
  inversion Hx as [|? ? Hx1 Hx2]; subst. inversion Hs as [|? ? Hs1 Hs2]; subst.
  assert (Hpre : Z.of_nat (length pre) + 1 = Z.of_nat (length (pre ++ [x])))
    by (rewrite length_app; simpl; lia).
  revert Hin. unfold l. simpl. rewrite Hpre. clear l.
  destruct (Z.ltb_spec (2 ^ p - 1) x) as [Hgt|Hle]; simpl; intros Hin.
  - destruct (in_byte_law _ _ _ Hin) as (s1 & -> & Hin1). simpl.
    destruct (in_byte_law _ _ _ Hin1) as (s2 & -> & Hin2). simpl.
    rewrite aget_mid by done. simpl. rewrite aset_mid by done. simpl.
    rewrite (Hx1 Hgt). specialize (IH (pre ++ [x]) (i + 1) s2 rest Hx2 Hs2 Hin2).
    by rewrite <- !app_assoc in IH.
  - rewrite (Hs1 Hle). specialize (IH (pre ++ [x]) i inp rest Hx2 Hs2 Hin).
    by rewrite <- !app_assoc in IH.
Qed.
End Patch.

Lemma lor_parts x p : 0 ≤ p → Z.lor (Z.land x (2 ^ p - 1)) (Z.shiftl (Z.shiftr x p) p) = x.
Proof.
  intros Hp. rewrite Z.sub_1_r, <- Z.ones_equiv. apply Z.bits_inj'. intros n Hn.
  rewrite Z.lor_spec, Z.land_spec, Z.testbit_ones_nonneg by lia.
  destruct (Z.ltb_spec n p).
  - rewrite Z.shiftl_spec_low by lia. by rewrite andb_true_r, orb_false_r.
  - rewrite Z.shiftl_spec_high, Z.shiftr_spec, andb_false_r by lia. simpl. f_equal. lia.
Qed.

Lemma parts_le x p : 0 ≤ p → 0 ≤ x → 0 ≤ Z.shiftl (Z.shiftr x p) p ≤ x.
Proof.
  intros Hp Hx. rewrite Z.shiftl_mul_pow2, Z.shiftr_div_pow2 by lia.
  pose proof (pow2_pos p Hp). pose proof (Z.mul_div_le x (2 ^ p)).
  pose proof (Z.div_pos x (2 ^ p)). nia.
Qed.

Lemma to_int64_parts x p : 0 ≤ p → in_uint 31 x →
  to_int64 (Z.shiftl (Z.shiftr x p) p) = Z.shiftl (Z.shiftr x p) p.
Proof.
  intros Hp [H1 H2]. pose proof (parts_le x p Hp H1). apply swrap_id; [lia|].
  change (2 ^ 31) with 2147483648 in H2. ints.
Qed.

(** The token packs the number of exceptions with the width. *)
Lemma token_parts k p : 0 ≤ k ≤ 7 → 0 ≤ p ≤ 31 →
  to_byte (Z.lor (Z.shiftl k 5) p) = Z.lor (Z.shiftl k 5) p
  ∧ Z.land (Z.lor (Z.shiftl k 5) p) 31 = p ∧ Z.shiftr (Z.lor (Z.shiftl k 5) p) 5 = k.
Proof.
  intros Hk Hp.
  assert (Hc : forallb (fun k => forallb (fun p =>
    (to_byte (Z.lor (Z.shiftl k 5) p) =? Z.lor (Z.shiftl k 5) p)
    && (Z.land (Z.lor (Z.shiftl k 5) p) 31 =? p)
    && (Z.shiftr (Z.lor (Z.shiftl k 5) p) 5 =? k)) (seqZ 0 32)) (seqZ 0 8) = true)
    by (vm_compute; reflexivity).
  rewrite forallb_forall in Hc.
  specialize (Hc k ltac:(apply list_elem_of_In, elem_of_seqZ; lia)).
  rewrite forallb_forall in Hc.
  specialize (Hc p ltac:(apply list_elem_of_In, elem_of_seqZ; lia)).
  apply andb_true_iff in Hc as [[H1%Z.eqb_eq H2%Z.eqb_eq]%andb_true_iff H3%Z.eqb_eq]. done.
Qed.

Lemma allEqual_repeat l : allEqual l = true → l = repeat (default 0 (head l)) (length l).
Proof.
  destruct l as [|a l]; [done|]. simpl. intros Hl. f_equal.
  induction l as [|y l IH]; [done|]. simpl in *.
  apply andb_true_iff in Hl as [->%Z.eqb_eq Hl]. f_equal. by apply IH.
Qed.
End Steps.

(** * The codec is correct over every correct inner codec *)

Section Codec.
Context {F O I : Type} `{ForCodec F O I} `{DataOutputLaws O} `{DataInputLaws I}.
Context `{!SeekableInput I} `{!SeekableInputLaws I}.
Context (block : Z) `{!ForCodecLaws F O I block} (msg_short msg_mismatch msg_dec : string).
Hypothesis Hblock : 8 ≤ block ≤ 256.

Lemma pfor_histogram_take xs : block ≤ Z.of_nat (length xs) →
  pfor_histogram block xs = pfor_histogram block (take (Z.to_nat block) xs).
Proof.
  intros Hl. apply go_for_ext. intros i [h m] Hi.
  destruct (aget_ex (E := goerr) (take (Z.to_nat block) xs) i) as (x & -> & Hx).
  { rewrite length_take. lia. }
  rewrite lookup_take_Some in Hx. destruct Hx as [Hx _]. by rewrite (aget_Ret _ _ x) by (done || lia).
Qed.

(** The encoder up to the output part: a width that leaves at most seven
    exceptions, their patches, and the masked block. *)
Lemma pfor_encode_front xs : block ≤ Z.of_nat (length xs) →
  let blk := take (Z.to_nat block) xs in Forall (in_uint 31) blk →
  ∃ m p, 1 ≤ p ≤ 31 ∧ m - 8 ≤ p ≤ m ∧ Forall (fun x => bitsRequired x ≤ m) blk
    ∧ above p blk ≤ 7
    ∧ ∀ (f : F) (o : O), pfor_encode block msg_short msg_mismatch f xs o
      = pfor_write m p (above p blk) (exc_bytes (exceptions_of p 0 blk)) (masked p blk) f o.
Proof.
  intros Hl blk Hxs. assert (Hbl : Z.of_nat (length blk) = block).
  { unfold blk. rewrite length_take. lia. }
  destruct (pfor_histogram_spec block blk Hbl Hxs) as (h & m & Eh & Hh & Hc & Hm & Hmax).
  destruct (pfor_pick_spec blk h m ltac:(lia) Hxs Hh Hc Hm Hmax) as (p & Ep & Hp & Hpm & Ha).
  exists m, p. split_and!; [lia..|done|done|]. intros f o. unfold pfor_encode.
  rewrite (proj2 (Z.ltb_ge _ _)), pfor_histogram_take by done. fold blk. rewrite Eh. simpl.
  rewrite Ep. simpl.
  assert (Hcopy : go_copy (repeat 0 (Z.to_nat block)) xs = blk).
  { unfold go_copy. rewrite repeat_length, drop_ge, app_nil_r; [done|].
    rewrite repeat_length. lia. }
  rewrite Hcopy, <- (exceptions_of_length p 0 blk) by (done || lia).
  rewrite (pfor_mask_step block msg_mismatch p blk Hp Hbl); [done|lia|].
  apply Forall_and. split; [done|]. clear -Hmax Hpm Hxs.
  induction Hmax as [|x l Hx _ IH]; inversion_clear Hxs; constructor; [|by apply IH].
  destruct H as [H _]. pose proof (bitsRequired_pow x H).
  apply Z.lt_le_trans with (2 ^ bitsRequired x); [done|]. apply Z.pow_le_mono_r; lia.
Qed.

Lemma exceptions_forall (P : Z * Z → Prop) p xs :
  ∀ i, 0 ≤ i → i + Z.of_nat (length xs) ≤ 256 →
  Forall (fun x => ∀ j, 0 ≤ j < 256 → P (j, Z.shiftr x p)) xs → Forall P (exceptions_of p i xs).
Proof.
  induction xs as [|x xs IH]; intros i Hi Hl Hxs; [constructor|]. simpl in *.
  inversion_clear Hxs as [|? ? Hx Hxs']. apply Forall_app_2; [|apply IH; [lia..|done]].
  destruct (_ <? _); [|constructor]. constructor; [apply Hx; lia|constructor].
Qed.

Lemma exc_bytes_is_byte f p xs : Z.of_nat (length xs) ≤ 256 →
  Forall (fun x => is_byte (f (Z.shiftr x p))) xs →
  Forall is_byte (exc_bytes (map_value f (exceptions_of p 0 xs))).
Proof.
  intros Hl Hxs. unfold exc_bytes, map_value. rewrite map_map. apply Forall_concat.
  apply Forall_fmap, (exceptions_forall _ p xs); [lia..|].
  eapply Forall_impl; [exact Hxs|]. intros x Hx j Hj. simpl.
  repeat constructor; [ints|ints|by apply Hx..].
Qed.

(** Either way of writing leaves a stream from which the patches restore the
    block: [f] is what the writer does to a patch, [b] the shift of the
    reader. *)
Lemma pfor_patch_spec p b f blk (ints tail : list Z) (inp : I) rest :
  1 ≤ p ≤ 31 → Forall (in_uint 31) blk →
  (∀ x, in_uint 31 x → Z.shiftl (f (Z.shiftr x p)) b = Z.shiftl (Z.shiftr x p) p) →
  in_at inp (exc_bytes (map_value f (exceptions_of p 0 blk)) ++ rest) →
  ∃ inp', pfor_patch b (above p blk) (masked p blk ++ tail) inp = Ret (blk ++ tail, inp')
    ∧ in_at inp' rest.
Proof.
  intros Hp Hblk Hf Hin. unfold pfor_patch.
  rewrite <- (exceptions_of_length p 0 blk) by (done || lia). rewrite Nat2Z.id.
  apply (pfor_patch_loop p b f tail blk []); [| |done].
  - eapply Forall_impl; [exact Hblk|]. intros x Hx _.
    rewrite (Hf x Hx), to_int64_parts by (done || lia). apply lor_parts. lia.
  - eapply Forall_impl; [exact Hblk|]. intros x [Hx _] Hle.
    rewrite land_mask by lia. apply Z.mod_small. lia.
Qed.

Lemma masked_uint p xs : 1 ≤ p → Forall (in_uint p) (masked p xs).
Proof.
  intros Hp. apply Forall_fmap, Forall_true. intros x. simpl. rewrite land_mask by lia.
  apply Z.mod_pos_bound, pow2_pos. lia.
Qed.

Lemma shiftr_byte x p m : 1 ≤ p → m - 8 ≤ p → 0 ≤ x → bitsRequired x ≤ m → is_byte (Z.shiftr x p).
Proof.
  intros Hp Hpm Hx Hb. pose proof (bitsRequired_pow x Hx).
  rewrite Z.shiftr_div_pow2 by lia. pose proof (pow2_pos p ltac:(lia)).
  assert (x < 2 ^ (p + 8)).
  { apply Z.lt_le_trans with (2 ^ bitsRequired x); [done|]. apply Z.pow_le_mono_r; lia. }
  split; [apply Z.div_pos; lia|]. apply Z.div_lt_upper_bound; [lia|].
  rewrite <- Z.pow_add_r by lia. done.
Qed.

Definition pfor_written (blk bs : list Z) (m p : Z) : Prop :=
  array_codec fc_ok
    (fun f o => pfor_write m p (above p blk) (exc_bytes (exceptions_of p 0 blk)) (masked p blk) f o)
    (fun f s dst => pfor_decode block msg_dec f s dst) blk bs
  ∧ skips (fun s : I => pfor_skip (F := F) (O := O) s) bs.

Section Block.
Context (blk : list Z) (m p : Z).
Hypothesis Hl : Z.of_nat (length blk) = block.
Hypothesis Hblk : Forall (in_uint 31) blk.
Hypothesis Hp : 1 ≤ p ≤ 31.
Hypothesis Hm : Forall (fun x => bitsRequired x ≤ m) blk.
Hypothesis Hk : above p blk ≤ 7.

Let E := exceptions_of p 0 blk.
Let k := above p blk.
Let v := default 0 (head (masked p blk)).

Lemma above_nonneg q xs : 0 ≤ above q xs.
Proof. unfold above. lia. Qed.

Lemma masked_head : in_uint p v ∧ aget (masked p blk) 0 = @Ret goerr _ v.
Proof.
  pose proof (masked_uint p blk ltac:(lia)) as Hu. unfold v. unfold masked in *.
  destruct blk; simpl in *; [lia|]. by inversion_clear Hu.
Qed.

Lemma masked_length : length (masked p blk) = length blk.
Proof. apply length_map. Qed.

Lemma unshifted_bytes : m - 8 ≤ p → Forall is_byte (exc_bytes (map_value id E)).
Proof.
  intros Hpm. apply exc_bytes_is_byte; [lia|]. apply Forall_forall. intros x Hx.
  rewrite Forall_forall in Hm, Hblk. apply (shiftr_byte x p m); [lia..| |by apply Hm].
  by apply Hblk.
Qed.

Lemma shifted_byte x : m ≤ 8 → x ∈ blk → is_byte (Z.shiftl (Z.shiftr x p) p).
Proof.
  intros Hm8 Hx. rewrite Forall_forall in Hm, Hblk. destruct (Hblk x Hx) as [Hx0 _].
  pose proof (parts_le x p ltac:(lia) Hx0). pose proof (bitsRequired_pow x Hx0).
  assert (2 ^ bitsRequired x ≤ 2 ^ 8).
  { apply Z.pow_le_mono_r; [lia|]. pose proof (Hm x Hx). simpl in *. lia. }
  ints.
Qed.

Lemma shifted_bytes : m ≤ 8 → Forall is_byte (exc_bytes (map_value (fun v => Z.shiftl v p) E)).
Proof.
  intros Hm8. apply exc_bytes_is_byte; [lia|]. apply Forall_forall. intros x Hx.
  by apply shifted_byte.
Qed.

Lemma shift_step : m ≤ 8 →
  pfor_shift p k (exc_bytes E) = Ret (exc_bytes (map_value (fun v => Z.shiftl v p) E)).
Proof.
  intros Hm8. unfold k. rewrite <- (exceptions_of_length p 0 blk) by (done || lia).
  apply pfor_shift_spec, exceptions_forall; [lia..|]. apply Forall_forall. intros x Hx j Hj.
  by apply shifted_byte.
Qed.

Lemma map_value_id l : map_value id l = l.
Proof. unfold map_value. induction l as [|[] l IH]; [done|]. simpl. f_equal. exact IH. Qed.

Lemma exc_bytes_count f : Z.of_nat (length (exc_bytes (map_value f E))) = Z.shiftl k 1.
Proof.
  rewrite exc_bytes_length. unfold map_value. rewrite length_map, Z.shiftl_mul_pow2 by lia.
  unfold k. rewrite <- (exceptions_of_length p 0 blk) by (done || lia).
  change (2 ^ 1) with 2. unfold E. lia.
Qed.

(** [ReadVLong] passes over a value written as a [VInt]. *)
Lemma ReadVLong_vint : consumes (fun s : I => ReadVLong s) (vint_bytes v) v.
Proof.
  destruct masked_head as [[Hv0 Hv1] _].
  assert (2 ^ p ≤ 2 ^ 31) by (apply Z.pow_le_mono_r; lia).
  assert (Hu : to_uint32 v = v) by (apply uwrap_id; ints).
  unfold vint_bytes. rewrite Hu. rewrite <- (swrap_id 64 v) at 2 by ints.
  apply (read_varint_consumes 64 _ 5); [lia|ints|]. apply Z.lt_trans with (2 ^ 32); ints.
Qed.

Lemma skips_const xb f : xb = exc_bytes (map_value f E) →
  skips (fun s : I => pfor_skip (F := F) (O := O) s) (to_byte (Z.shiftl k 5) :: vint_bytes v ++ xb).
Proof.
  intros -> s rest Hs. pose proof (above_nonneg p blk).
  destruct (token_parts k 0) as (T1 & T2 & T3); [unfold k; lia|lia|].
  rewrite Z.lor_0_r in T1, T2, T3. rewrite T1, <- app_comm_cons in Hs. unfold pfor_skip.
  destruct (in_byte_law _ _ _ Hs) as (s1 & -> & Hs1). simpl. rewrite T2, T3. simpl.
  rewrite <- app_assoc in Hs1.
  destruct (ReadVLong_vint s1 _ Hs1) as (s2 & -> & Hs2). simpl.
  rewrite <- (exc_bytes_count f). by apply in_seek_law.
Qed.

Lemma skips_packed cs : Z.of_nat (length cs) = fc_bytes p →
  skips (fun s : I => pfor_skip (F := F) (O := O) s)
    (to_byte (Z.lor (Z.shiftl k 5) p) :: cs ++ exc_bytes E).
Proof.
  intros Hcl s rest Hs. pose proof (above_nonneg p blk).
  destruct (token_parts k p) as (T1 & T2 & T3); [unfold k; lia|lia|].
  rewrite T1, <- app_comm_cons in Hs. unfold pfor_skip.
  destruct (in_byte_law _ _ _ Hs) as (s1 & -> & Hs1). simpl. rewrite T2, T3.
  rewrite (proj2 (Z.eqb_neq p 0)), <- Hcl by lia.
  rewrite <- (map_value_id E) in Hs1.
  rewrite <- (exc_bytes_count id), <- Z.add_assoc, <- Nat2Z.inj_add, Nat.add_comm, <- length_app.
  by apply in_seek_law.
Qed.

(** A constant block of small values. *)
Lemma pfor_written_const : m ≤ 8 → allEqual (masked p blk) = true →
  ∃ bs, pfor_written blk bs m p.
Proof.
  intros Hm8 Heq. destruct masked_head as [Hv Hfirst]. pose proof (shift_step Hm8) as Hsh.
  pose proof (shifted_bytes Hm8) as Hby. revert Hsh Hby.
  set (xb := exc_bytes (map_value _ E)). intros Hsh Hby.
  destruct (token_parts k 0) as (T1 & T2 & T3); [pose proof (above_nonneg p blk); unfold k; lia|lia|].
  rewrite Z.lor_0_r in T1, T2, T3. set (tok := Z.shiftl k 5) in *.
  assert (Hv32 : in_sint 32 v) by (by apply (in_uint_sint 32 p); [lia|]).
  assert (Hem : emits (fun o : O => o ← out_byte (to_byte tok) o; o ← WriteVInt v o;
    out_bytes xb 0 (Z.of_nat (length xb)) o) (to_byte tok :: vint_bytes v ++ xb)).
  { apply emits_cons; [done|]. apply emits_bind; [apply WriteVInt_emits|by apply emits_bytes]. }
  exists (to_byte tok :: vint_bytes v ++ xb). split; [split; [|split]|by eapply skips_const].
  - constructor; [done|]. apply Forall_app_2; [apply vint_bytes_is_byte|done].
  - intros f o n Hf Hroom. destruct (Hem o n Hroom) as (o' & Eo & V & R). exists f, o'.
    split; [|done]. unfold pfor_write. rewrite Heq, (proj2 (Z.leb_le m 8)) by lia. simpl andb.
    fold E k. rewrite Hsh. simpl. fold tok. rewrite Hfirst.
    destruct (out_byte (to_byte tok) o) as [o1| | |]; try done. simpl in *.
    destruct (WriteVInt v o1) as [o2| | |]; try done. simpl in *. by rewrite Eo.
  - intros f s dst rest Hf Hdst Hs. unfold pfor_decode.
    rewrite (proj2 (Z.ltb_ge _ _)) by lia. rewrite T1, <- app_comm_cons in Hs.
    destruct (in_byte_law _ _ _ Hs) as (s1 & -> & Hs1). simpl. rewrite T2, T3. simpl.
    rewrite <- app_assoc in Hs1.
    destruct (ReadVInt_consumes v Hv32 s1 _ Hs1) as (s2 & -> & Hs2). simpl.
    pose proof (allEqual_repeat _ Heq) as Hrep. fold v in Hrep. rewrite masked_length in Hrep.
    rewrite <- Hl, Nat2Z.id.
    pose proof (go_for_overwrite (E := goerr) (fun i ints => aset ints i v)
      (repeat v (length blk))) as Hfill.
    rewrite repeat_length in Hfill. rewrite Hfill; [|intros i x l Hi|done].
    + simpl. rewrite <- Hrep.
      destruct (pfor_patch_spec p 0 (fun v => Z.shiftl v p) blk [] (drop (length blk) dst) s2 rest Hp Hblk)
        as (s3 & E3 & Hs3); [intros; apply Z.shiftl_0_r|done|].
      exists f, s3. fold k in E3. by rewrite E3.
    + by apply list_elem_of_lookup_2, list_elem_of_In, repeat_spec in Hi as ->.
Qed.

(** Any other block goes through the inner codec. *)
Lemma pfor_written_packed : m - 8 ≤ p → allEqual (masked p blk) && (m <=? 8) = false →
  ∃ bs, pfor_written blk bs m p.
Proof.
  intros Hpm Heq.
  destruct (fc_law (F := F) (O := O) (I := I) p (masked p blk)) as (cs & Hcl & Hcs & Hce & Hcd);
    [lia|by rewrite masked_length|apply masked_uint; lia|].
  pose proof (unshifted_bytes Hpm) as Hby. rewrite map_value_id in Hby.
  destruct (token_parts k p) as (T1 & T2 & T3); [pose proof (above_nonneg p blk); unfold k; lia|lia|].
  set (tok := Z.lor (Z.shiftl k 5) p) in *. set (xb := exc_bytes E) in *.
  exists (to_byte tok :: cs ++ xb).
  split; [split; [|split]|by apply skips_packed].
  - constructor; [done|]. by apply Forall_app_2.
  - intros f o n Hf Hroom. simpl in Hroom. rewrite length_app in Hroom.
    unfold pfor_write. rewrite Heq. fold E k xb tok.
    destruct (out_byte_law (to_byte tok) o (length cs + (length xb + n))) as (o1 & -> & V1 & R1);
      [done|eapply out_room_le; [|done]; lia|]. simpl.
    destruct (Hce f o1 _ Hf R1) as (f' & o2 & -> & Hf' & V2 & R2). simpl.
    destruct (emits_bytes xb Hby o2 n R2) as (o3 & -> & V3 & R3).
    exists f', o3. split_and!; try done. rewrite V3, V2, V1, <- !app_assoc. done.
  - intros f s dst rest Hf Hdst Hs. unfold pfor_decode.
    rewrite (proj2 (Z.ltb_ge _ _)) by lia. rewrite T1, <- app_comm_cons in Hs.
    destruct (in_byte_law _ _ _ Hs) as (s1 & -> & Hs1). simpl. rewrite T2, T3.
    rewrite (proj2 (Z.eqb_neq p 0)) by lia. rewrite <- app_assoc in Hs1.
    destruct (Hcd f s1 dst _ Hf ltac:(rewrite masked_length; lia) Hs1) as (f' & s2 & -> & Hf' & Hs2).
    simpl. rewrite masked_length.
    destruct (pfor_patch_spec p p id blk [] (drop (length blk) dst) s2 rest Hp Hblk)
      as (s3 & E3 & Hs3); [done|by rewrite map_value_id|].
    exists f', s3. fold k in E3. by rewrite E3.
Qed.
End Block.

Lemma pfor_array_codec xs : block ≤ Z.of_nat (length xs) →
  let blk := take (Z.to_nat block) xs in Forall (in_uint 31) blk →
  ∃ bs, array_codec fc_ok (fun f (o : O) => pfor_encode block msg_short msg_mismatch f xs o)
    (fun f (s : I) dst => pfor_decode block msg_dec f s dst) blk bs
    ∧ skips (fun s : I => pfor_skip (F := F) (O := O) s) bs.
Proof.
  intros Hl blk Hxs. assert (Hbl : Z.of_nat (length blk) = block).
  { unfold blk. rewrite length_take. lia. }
  destruct (pfor_encode_front xs Hl Hxs) as (m & p & Hp & [Hp8 _] & Hm & Hk & Henc).
  assert (∃ bs, pfor_written blk bs m p) as (bs & (Hby & Hwe & Hwd) & Hsk).
  { destruct (allEqual (masked p blk) && (m <=? 8)) eqn:Hc; [|by apply pfor_written_packed].
    apply andb_true_iff in Hc as [? ?%Z.leb_le]. by apply pfor_written_const. }
  exists bs. split; [|done]. split; [done|]. split; [|done].
  intros f o n Hf Ho. rewrite Henc. by apply Hwe.
Qed.
End Codec.

(** * [PForUtil] over [ForUtil] *)

Section PForUtil.
Context {O I : Type} `{DataOutput O} `{DataInput I}.

#[export] Instance ForUtil_codec : ForCodec (bufs Z) O I := {
  fc_encode := Encode;
  fc_decode := Decode;
  fc_bytes := ForUtilNumBytes;
  fc_ok := for_ok
}.

#[export] Instance ForUtil_codec_laws `{!DataOutputLaws O} `{!DataInputLaws I} :
  ForCodecLaws (bufs Z) O I ForUtilBlockSize.
Proof.
  split. intros bpv xs Hb Hl Hxs.
  assert (Htake : take (Z.to_nat ForUtilBlockSize) xs = xs) by (apply take_ge; lia).
  destruct (for_array_codec (O := O) (I := I) bpv xs Hb ltac:(lia)) as (bs & Hbs & Hc);
    [by rewrite Htake|].
  rewrite Htake in Hc. by exists bs.
Qed.

Definition PForEncode : bufs Z → list Z → O → M (bufs Z * O) :=
  pfor_encode ForUtilBlockSize "ints array must have at least 256 elements"
    "exception count mismatch".

Definition PForDecode : bufs Z → I → list Z → M (bufs Z * list Z * I) :=
  pfor_decode ForUtilBlockSize "ints array must have at least 256 elements".

Definition PForUtilSkip `{!SeekableInput I} : I → M I := pfor_skip (F := bufs Z) (O := O).
End PForUtil.

(** A negative value has no slot in the histogram. *)
Lemma pfor_histogram_negative block xs i x :
  Forall (in_sint 32) xs → 0 ≤ block ≤ Z.of_nat (length xs) →
  xs !! i = Some x → Z.of_nat i < block → x < 0 → pfor_histogram block xs = Panic.
Proof.
  intros Hxs Hl Hi Hib Hneg. unfold pfor_histogram.
  assert (Hgen : ∀ n lo st, length (fst st) = 32%nat → 0 ≤ lo → lo + Z.of_nat n ≤ Z.of_nat (length xs) →
    lo ≤ Z.of_nat i < lo + Z.of_nat n →
    go_for (E := goerr) n lo (fun i '(histogram, maxBitsRequired) =>
      v ← aget xs i;
      let bits := bitsRequired v in
      c ← aget histogram bits;
      histogram ← aset histogram bits (c + 1);
      mret (histogram, if maxBitsRequired <? bits then bits else maxBitsRequired)) st = Panic).
  { induction n as [|n IH]; intros lo [h m] Hh Hlo Hn Hin; [lia|]. simpl in *.
    destruct (aget_ex (E := goerr) xs lo) as (y & -> & Hy); [lia|]. simpl.
    destruct (Z.ltb_spec y 0) as [Hy0|Hy0].
    - unfold bitsRequired. rewrite (proj2 (Z.ltb_lt y 0)) by done.
      assert (Hp : @aget goerr _ h 64 = Panic).
      { unfold aget. change (64 <? 0) with false. change (Z.to_nat 64) with 64%nat.
        by rewrite (proj2 (lookup_ge_None h 64)) by lia. }
      by rewrite Hp.
    - assert (Hu : in_uint 31 y).
      { eapply Forall_lookup_1 in Hxs; [|exact Hy]. split; [done|]. destruct Hxs. ints. }
      pose proof (bitsRequired_range y Hu).
      destruct (aget_ex (E := goerr) h (bitsRequired y)) as (c & -> & _); [lia|]. simpl.
      rewrite aset_Ret by lia. simpl.
      assert (Z.of_nat i ≠ lo).
      { intros <-. rewrite Nat2Z.id in Hy. simplify_eq. lia. }
      apply IH; [simpl; by rewrite length_insert|lia..]. }
  apply Hgen; [done|lia..].
Qed.

(** C8. Patched coding loses nothing: for every block of 256 non-negative
    [int32] values, [Encode] emits bytes from which [Decode] restores the
    block, and over which [PForUtilSkip] moves to the byte behind the block,
    whatever the [ForUtil] buffers of either side held before. *)
Theorem PForUtil_roundtrip {O I : Type} `{DataOutputLaws O} `{DataInputLaws I}
    `{!SeekableInput I} `{!SeekableInputLaws I} xs :
  ForUtilBlockSize ≤ Z.of_nat (length xs) →
  let block := take (Z.to_nat ForUtilBlockSize) xs in
  Forall (in_uint 31) block →
  ∃ bs, array_codec for_ok (fun f (o : O) => PForEncode (I := I) f xs o)
      (fun f (s : I) dst => PForDecode (O := O) f s dst) block bs
    ∧ skips (fun s : I => PForUtilSkip (O := O) s) bs.
Proof.
  intros Hl block Hb.
  exact (pfor_array_codec (F := bufs Z) (O := O) (I := I) ForUtilBlockSize _ _ _
           ltac:(done) xs Hl Hb).
Qed.

Lemma PForUtil_roundtrip_witness :
  let xs := map (fun i => if i =? 77 then 300 else i mod 4) (seqZ 0 256) in
  ∃ bs, array_codec for_ok (fun f (o : ByteArrayDataOutput) => PForEncode (I := ByteArrayDataInput) f xs o)
      (fun f (s : ByteArrayDataInput) dst => PForDecode (O := ByteArrayDataOutput) f s dst)
      (take (Z.to_nat ForUtilBlockSize) xs) bs
    ∧ skips (fun s : ByteArrayDataInput => PForUtilSkip (O := ByteArrayDataOutput) s) bs.
Proof.
  intros xs. apply (PForUtil_roundtrip xs); [by vm_compute|].
  apply in_uints_check. vm_compute. reflexivity.
Defined.

(** A block with a negative value cannot be encoded: [Encode] panics with
    an index out of range (the width of a negative value is 64, the histogram
    has 32 slots). *)
Theorem PForUtil_negative_panics {O I : Type} `{DataOutput O} `{DataInput I} f (o : O) xs i x :
  Forall (in_sint 32) xs → ForUtilBlockSize ≤ Z.of_nat (length xs) →
  xs !! i = Some x → Z.of_nat i < ForUtilBlockSize → x < 0 →
  PForEncode (I := I) f xs o = Panic.
Proof.
  intros Hxs Hl Hi Hib Hx. unfold PForEncode, pfor_encode.
  rewrite (proj2 (Z.ltb_ge _ _)) by done.
  rewrite (pfor_histogram_negative ForUtilBlockSize xs i x); [done|done|split; [done|lia]|done..].
Qed.

Lemma PForUtil_negative_panics_witness :
  PForEncode (I := ByteArrayDataInput) (NewForUtil) (map (fun i => if i =? 9 then -5 else i) (seqZ 0 256))
    (bo_reset (repeat 0 100%nat) 0 100) = Panic.
Proof.
  apply (PForUtil_negative_panics _ _ _ 9 (-5)); [|by vm_compute..|done].
  apply Forall_fmap, Forall_forall. intros i Hi%elem_of_seqZ. simpl.
  unfold in_sint. destruct (Z.eqb_spec i 9); lia.
Defined.
