(* ===== verification/ForUtil103.v ===== *)
(** Frame-of-reference coding of blocks of 128 integers:
    [codecs/lucene103_for_util.go], and the patched coding over it of
    [codecs/lucene103_pfor_util.go].  The masks, the encoder, [splitInts] and
    [decodeSlow] are those of [ForUtil] at the block size 128; this encoder
    shifts right logically. *)

From stdpp Require Import base tactics numbers list strings.
From Stdlib Require Import ZArith Lia.
From S2P Require Import Prelude DataIO Words SymRun ForUtil PForUtil.

Local Open Scope Z_scope.

Definition lucene103BlockSize : Z := 128.
Definition lucene103BlockSizeLog2 : Z := 7.

Definition lucene103ForNumBytes (bitsPerValue : Z) : Z :=
  Z.shiftl bitsPerValue (lucene103BlockSizeLog2 - 3).

Section ForUtil103.
Context {W : Type} `{Word W}.

(** ** Collapse and expand *)

Definition l103collapse8 (arr : list W) : M (list W) :=
  go_for 32 0 (fun i arr =>
    store arr [i] := (arr.[i] <<' 24) |' (arr.[32 + i] <<' 16) |' (arr.[64 + i] <<' 8)
                     |' arr.[96 + i];
    Ret arr)%word arr.

Definition l103expand8 (arr : list W) : M (list W) :=
  go_for 32 0 (fun i arr =>
    let l := arr.[i] in
    store arr [i] := (l >>>' 24) &' #255;
    store arr [32 + i] := (l >>>' 16) &' #255;
    store arr [64 + i] := (l >>>' 8) &' #255;
    store arr [96 + i] := l &' #255;
    Ret arr)%word arr.

Definition l103collapse16 (arr : list W) : M (list W) :=
  go_for 64 0 (fun i arr =>
    store arr [i] := (arr.[i] <<' 16) |' (arr.[64 + i] &' #65535);
    Ret arr)%word arr.

Definition l103expand16 (arr : list W) : M (list W) :=
  go_for 64 0 (fun i arr =>
    let l := arr.[i] in
    store arr [i] := (l >>>' 16) &' #65535;
    store arr [64 + i] := l &' #65535;
    Ret arr)%word arr.

(** ** Encode *)

Section Encode.
Context {O : Type} (wr : W → O → M O).

Definition l103encodeInternal :=
  encode_words wr (fun v n => v >>>' n)%word lucene103BlockSize.

Definition l103encode_block (f : bufs W) (ints : list W) (bitsPerValue : Z) (out : O)
  : M (bufs W * O) :=
  if Z.of_nat (length ints) <? lucene103BlockSize
  then Err (Errorf "lucene103 ForUtil.encode: ints must have at least 128 elements") else
  let ints32 := go_copy (b_ints f) (take (Z.to_nat lucene103BlockSize) ints) in
  '(ints32, nextPrimitive) ←
    (if bitsPerValue <=? 8 then a ← l103collapse8 ints32; mret (a, 8)
     else if bitsPerValue <=? 16 then a ← l103collapse16 ints32; mret (a, 16)
     else mret (ints32, 32));
  out ← l103encodeInternal ints32 bitsPerValue nextPrimitive out;
  mret (mk_bufs ints32 (b_tmp f), out).
End Encode.

(** ** Decode *)

Section Decode.
Context {I : Type} (rd : I → M (W * I)).

Definition l103splitInts := splitInts rd.

Definition l103decodeSlow (bitsPerValue : Z) (bf : bufs W) (s : I) : M (bufs W * I) :=
  '(ints, s) ← decode_slow rd lucene103BlockSize bitsPerValue (b_ints bf) s;
  mret (mk_bufs ints (b_tmp bf), s).

Definition l103decode1 (bf : bufs W) (s : I) : M (bufs W * I) :=
  l103splitInts 4 Ints 7 1 (masks8 1) Ints 28 (masks8 1) bf s.

Definition l103decode2 (bf : bufs W) (s : I) : M (bufs W * I) :=
  l103splitInts 8 Ints 6 2 (masks8 2) Ints 24 (masks8 2) bf s.

Definition l103decode3 (bf : bufs W) (s : I) : M (bufs W * I) :=
  r ← l103splitInts 12 Ints 5 3 (masks8 3) Tmp 0 (masks8 2) bf s;
  recombine 4 3 24 2 (fun tmp tmpIdx intsIdx ints =>
    let l0 := tmp.[tmpIdx + 0] <<' 1 in
    let l0 := l0 |' (tmp.[tmpIdx + 1] >>>' 1) &' masks8 1 in
    store ints [intsIdx + 0] := l0;
    let l1 := (tmp.[tmpIdx + 1] &' masks8 1) <<' 2 in
    let l1 := l1 |' tmp.[tmpIdx + 2] in
    store ints [intsIdx + 1] := l1;
    Ret ints)%word r.

Definition l103decode4 (bf : bufs W) (s : I) : M (bufs W * I) :=
  l103splitInts 16 Ints 4 4 (masks8 4) Ints 16 (masks8 4) bf s.

Definition l103decode5 (bf : bufs W) (s : I) : M (bufs W * I) :=
  r ← l103splitInts 20 Ints 3 5 (masks8 5) Tmp 0 (masks8 3) bf s;
  recombine 4 5 20 3 (fun tmp tmpIdx intsIdx ints =>
    let l0 := tmp.[tmpIdx + 0] <<' 2 in
    let l0 := l0 |' (tmp.[tmpIdx + 1] >>>' 1) &' masks8 2 in
    store ints [intsIdx + 0] := l0;
    let l1 := (tmp.[tmpIdx + 1] &' masks8 1) <<' 4 in
    let l1 := l1 |' tmp.[tmpIdx + 2] <<' 1 in
    let l1 := l1 |' (tmp.[tmpIdx + 3] >>>' 2) &' masks8 1 in
    store ints [intsIdx + 1] := l1;
    let l2 := (tmp.[tmpIdx + 3] &' masks8 2) <<' 3 in
    let l2 := l2 |' tmp.[tmpIdx + 4] in
    store ints [intsIdx + 2] := l2;
    Ret ints)%word r.

Definition l103decode6 (bf : bufs W) (s : I) : M (bufs W * I) :=
  r ← l103splitInts 24 Ints 2 6 (masks8 6) Tmp 0 (masks8 2) bf s;
  recombine 8 3 24 1 (fun tmp tmpIdx intsIdx ints =>
    let l0 := tmp.[tmpIdx + 0] <<' 4 in
    let l0 := l0 |' tmp.[tmpIdx + 1] <<' 2 in
    let l0 := l0 |' tmp.[tmpIdx + 2] in
    store ints [intsIdx + 0] := l0;
    Ret ints)%word r.

Definition l103decode7 (bf : bufs W) (s : I) : M (bufs W * I) :=
  r ← l103splitInts 28 Ints 1 7 (masks8 7) Tmp 0 (masks8 1) bf s;
  recombine 4 7 28 1 (fun tmp tmpIdx intsIdx ints =>
    let l0 := tmp.[tmpIdx + 0] <<' 6 in
    let l0 := l0 |' tmp.[tmpIdx + 1] <<' 5 in
    let l0 := l0 |' tmp.[tmpIdx + 2] <<' 4 in
    let l0 := l0 |' tmp.[tmpIdx + 3] <<' 3 in
    let l0 := l0 |' tmp.[tmpIdx + 4] <<' 2 in
    let l0 := l0 |' tmp.[tmpIdx + 5] <<' 1 in
    let l0 := l0 |' tmp.[tmpIdx + 6] in
    store ints [intsIdx + 0] := l0;
    Ret ints)%word r.

Definition l103decode8 (bf : bufs W) (s : I) : M (bufs W * I) :=
  read_words rd 32 Ints 0 bf s.

Definition l103decode9 (bf : bufs W) (s : I) : M (bufs W * I) :=
  r ← l103splitInts 36 Ints 7 9 (masks16 9) Tmp 0 (masks16 7) bf s;
  recombine 4 9 36 7 (fun tmp tmpIdx intsIdx ints =>
    let l0 := tmp.[tmpIdx + 0] <<' 2 in
    let l0 := l0 |' (tmp.[tmpIdx + 1] >>>' 5) &' masks16 2 in
    store ints [intsIdx + 0] := l0;
    let l1 := (tmp.[tmpIdx + 1] &' masks16 5) <<' 4 in
    let l1 := l1 |' (tmp.[tmpIdx + 2] >>>' 3) &' masks16 4 in
    store ints [intsIdx + 1] := l1;
    let l2 := (tmp.[tmpIdx + 2] &' masks16 3) <<' 6 in
    let l2 := l2 |' (tmp.[tmpIdx + 3] >>>' 1) &' masks16 6 in
    store ints [intsIdx + 2] := l2;
    let l3 := (tmp.[tmpIdx + 3] &' masks16 1) <<' 8 in
    let l3 := l3 |' tmp.[tmpIdx + 4] <<' 1 in
    let l3 := l3 |' (tmp.[tmpIdx + 5] >>>' 6) &' masks16 1 in
    store ints [intsIdx + 3] := l3;
    let l4 := (tmp.[tmpIdx + 5] &' masks16 6) <<' 3 in
    let l4 := l4 |' (tmp.[tmpIdx + 6] >>>' 4) &' masks16 3 in
    store ints [intsIdx + 4] := l4;
    let l5 := (tmp.[tmpIdx + 6] &' masks16 4) <<' 5 in
    let l5 := l5 |' (tmp.[tmpIdx + 7] >>>' 2) &' masks16 5 in
    store ints [intsIdx + 5] := l5;
    let l6 := (tmp.[tmpIdx + 7] &' masks16 2) <<' 7 in
    let l6 := l6 |' tmp.[tmpIdx + 8] in
    store ints [intsIdx + 6] := l6;
    Ret ints)%word r.

Definition l103decode10 (bf : bufs W) (s : I) : M (bufs W * I) :=
  r ← l103splitInts 40 Ints 6 10 (masks16 10) Tmp 0 (masks16 6) bf s;
  recombine 8 5 40 3 (fun tmp tmpIdx intsIdx ints =>
    let l0 := tmp.[tmpIdx + 0] <<' 4 in
    let l0 := l0 |' (tmp.[tmpIdx + 1] >>>' 2) &' masks16 4 in
    store ints [intsIdx + 0] := l0;
    let l1 := (tmp.[tmpIdx + 1] &' masks16 2) <<' 8 in
    let l1 := l1 |' tmp.[tmpIdx + 2] <<' 2 in
    let l1 := l1 |' (tmp.[tmpIdx + 3] >>>' 4) &' masks16 2 in
    store ints [intsIdx + 1] := l1;
    let l2 := (tmp.[tmpIdx + 3] &' masks16 4) <<' 6 in
    let l2 := l2 |' tmp.[tmpIdx + 4] in
    store ints [intsIdx + 2] := l2;
    Ret ints)%word r.

Definition l103decode11 (bf : bufs W) (s : I) : M (bufs W * I) :=
  r ← l103splitInts 44 Ints 5 11 (masks16 11) Tmp 0 (masks16 5) bf s;
  recombine 4 11 44 5 (fun tmp tmpIdx intsIdx ints =>
    let l0 := tmp.[tmpIdx + 0] <<' 6 in
    let l0 := l0 |' tmp.[tmpIdx + 1] <<' 1 in
    let l0 := l0 |' (tmp.[tmpIdx + 2] >>>' 4) &' masks16 1 in
    store ints [intsIdx + 0] := l0;
    let l1 := (tmp.[tmpIdx + 2] &' masks16 4) <<' 7 in
    let l1 := l1 |' tmp.[tmpIdx + 3] <<' 2 in
    let l1 := l1 |' (tmp.[tmpIdx + 4] >>>' 3) &' masks16 2 in
    store ints [intsIdx + 1] := l1;
    let l2 := (tmp.[tmpIdx + 4] &' masks16 3) <<' 8 in
    let l2 := l2 |' tmp.[tmpIdx + 5] <<' 3 in
    let l2 := l2 |' (tmp.[tmpIdx + 6] >>>' 2) &' masks16 3 in
    store ints [intsIdx + 2] := l2;
    let l3 := (tmp.[tmpIdx + 6] &' masks16 2) <<' 9 in
    let l3 := l3 |' tmp.[tmpIdx + 7] <<' 4 in
    let l3 := l3 |' (tmp.[tmpIdx + 8] >>>' 1) &' masks16 4 in
    store ints [intsIdx + 3] := l3;
    let l4 := (tmp.[tmpIdx + 8] &' masks16 1) <<' 10 in
    let l4 := l4 |' tmp.[tmpIdx + 9] <<' 5 in
    let l4 := l4 |' tmp.[tmpIdx + 10] in
    store ints [intsIdx + 4] := l4;
    Ret ints)%word r.

Definition l103decode12 (bf : bufs W) (s : I) : M (bufs W * I) :=
  r ← l103splitInts 48 Ints 4 12 (masks16 12) Tmp 0 (masks16 4) bf s;
  recombine 16 3 48 1 (fun tmp tmpIdx intsIdx ints =>
    let l0 := tmp.[tmpIdx + 0] <<' 8 in
    let l0 := l0 |' tmp.[tmpIdx + 1] <<' 4 in
    let l0 := l0 |' tmp.[tmpIdx + 2] in
    store ints [intsIdx + 0] := l0;
    Ret ints)%word r.

Definition l103decode13 (bf : bufs W) (s : I) : M (bufs W * I) :=
  r ← l103splitInts 52 Ints 3 13 (masks16 13) Tmp 0 (masks16 3) bf s;
  recombine 4 13 52 3 (fun tmp tmpIdx intsIdx ints =>
    let l0 := tmp.[tmpIdx + 0] <<' 10 in
    let l0 := l0 |' tmp.[tmpIdx + 1] <<' 7 in
    let l0 := l0 |' tmp.[tmpIdx + 2] <<' 4 in
    let l0 := l0 |' tmp.[tmpIdx + 3] <<' 1 in
    let l0 := l0 |' (tmp.[tmpIdx + 4] >>>' 2) &' masks16 1 in
    store ints [intsIdx + 0] := l0;
    let l1 := (tmp.[tmpIdx + 4] &' masks16 2) <<' 11 in
    let l1 := l1 |' tmp.[tmpIdx + 5] <<' 8 in
    let l1 := l1 |' tmp.[tmpIdx + 6] <<' 5 in
    let l1 := l1 |' tmp.[tmpIdx + 7] <<' 2 in
    let l1 := l1 |' (tmp.[tmpIdx + 8] >>>' 1) &' masks16 2 in
    store ints [intsIdx + 1] := l1;
    let l2 := (tmp.[tmpIdx + 8] &' masks16 1) <<' 12 in
    let l2 := l2 |' tmp.[tmpIdx + 9] <<' 9 in
    let l2 := l2 |' tmp.[tmpIdx + 10] <<' 6 in
    let l2 := l2 |' tmp.[tmpIdx + 11] <<' 3 in
    let l2 := l2 |' tmp.[tmpIdx + 12] in
    store ints [intsIdx + 2] := l2;
    Ret ints)%word r.

Definition l103decode14 (bf : bufs W) (s : I) : M (bufs W * I) :=
  r ← l103splitInts 56 Ints 2 14 (masks16 14) Tmp 0 (masks16 2) bf s;
  recombine 8 7 56 1 (fun tmp tmpIdx intsIdx ints =>
    let l0 := tmp.[tmpIdx + 0] <<' 12 in
    let l0 := l0 |' tmp.[tmpIdx + 1] <<' 10 in
    let l0 := l0 |' tmp.[tmpIdx + 2] <<' 8 in
    let l0 := l0 |' tmp.[tmpIdx + 3] <<' 6 in
    let l0 := l0 |' tmp.[tmpIdx + 4] <<' 4 in
    let l0 := l0 |' tmp.[tmpIdx + 5] <<' 2 in
    let l0 := l0 |' tmp.[tmpIdx + 6] in
    store ints [intsIdx + 0] := l0;
    Ret ints)%word r.

Definition l103decode15 (bf : bufs W) (s : I) : M (bufs W * I) :=
  r ← l103splitInts 60 Ints 1 15 (masks16 15) Tmp 0 (masks16 1) bf s;
  recombine 4 15 60 1 (fun tmp tmpIdx intsIdx ints =>
    let l0 := tmp.[tmpIdx + 0] <<' 14 in
    let l0 := l0 |' tmp.[tmpIdx + 1] <<' 13 in
    let l0 := l0 |' tmp.[tmpIdx + 2] <<' 12 in
    let l0 := l0 |' tmp.[tmpIdx + 3] <<' 11 in
    let l0 := l0 |' tmp.[tmpIdx + 4] <<' 10 in
    let l0 := l0 |' tmp.[tmpIdx + 5] <<' 9 in
    let l0 := l0 |' tmp.[tmpIdx + 6] <<' 8 in
    let l0 := l0 |' tmp.[tmpIdx + 7] <<' 7 in
    let l0 := l0 |' tmp.[tmpIdx + 8] <<' 6 in
    let l0 := l0 |' tmp.[tmpIdx + 9] <<' 5 in
    let l0 := l0 |' tmp.[tmpIdx + 10] <<' 4 in
    let l0 := l0 |' tmp.[tmpIdx + 11] <<' 3 in
    let l0 := l0 |' tmp.[tmpIdx + 12] <<' 2 in
    let l0 := l0 |' tmp.[tmpIdx + 13] <<' 1 in
    let l0 := l0 |' tmp.[tmpIdx + 14] in
    store ints [intsIdx + 0] := l0;
    Ret ints)%word r.

Definition l103decode16 (bf : bufs W) (s : I) : M (bufs W * I) :=
  read_words rd 64 Ints 0 bf s.

(** The switch of [decode]. *)
Definition l103decode_block (bitsPerValue : Z) (f : bufs W) (s : I) : M (bufs W * I) :=
  match bitsPerValue with
  | 1 => then_expand l103expand8 (l103decode1 f s)
  | 2 => then_expand l103expand8 (l103decode2 f s)
  | 3 => then_expand l103expand8 (l103decode3 f s)
  | 4 => then_expand l103expand8 (l103decode4 f s)
  | 5 => then_expand l103expand8 (l103decode5 f s)
  | 6 => then_expand l103expand8 (l103decode6 f s)
  | 7 => then_expand l103expand8 (l103decode7 f s)
  | 8 => then_expand l103expand8 (l103decode8 f s)
  | 9 => then_expand l103expand16 (l103decode9 f s)
  | 10 => then_expand l103expand16 (l103decode10 f s)
  | 11 => then_expand l103expand16 (l103decode11 f s)
  | 12 => then_expand l103expand16 (l103decode12 f s)
  | 13 => then_expand l103expand16 (l103decode13 f s)
  | 14 => then_expand l103expand16 (l103decode14 f s)
  | 15 => then_expand l103expand16 (l103decode15 f s)
  | 16 => then_expand l103expand16 (l103decode16 f s)
  | _ => l103decodeSlow bitsPerValue f s
  end.
End Decode.
End ForUtil103.

(** * The definitions preserve the relation between words *)

Section Rel.
Context {W1 W2 : Type} {H1 : Word W1} {H2 : Word W2} {RW : RelOf W1 W2}.
Context (HR : word_rel H1 H2 rel_of).
#[local] Hint Resolve masks8_rel masks16_rel masks32_rel : rel.

Lemma l103collapse8_rel a b : rel_of a b → go_rel rel_of (l103collapse8 a) (l103collapse8 b).
Proof using HR. intros. unfold l103collapse8. rel. Qed.
Lemma l103collapse16_rel a b : rel_of a b → go_rel rel_of (l103collapse16 a) (l103collapse16 b).
Proof using HR. intros. unfold l103collapse16. rel. Qed.
Lemma l103expand8_rel a b : rel_of a b → go_rel rel_of (l103expand8 a) (l103expand8 b).
Proof using HR. intros. unfold l103expand8. rel. Qed.
Lemma l103expand16_rel a b : rel_of a b → go_rel rel_of (l103expand16 a) (l103expand16 b).
Proof using HR. intros. unfold l103expand16. rel. Qed.
#[local] Hint Resolve l103collapse8_rel l103collapse16_rel : rel.

Lemma l103encode_block_rel {O1 O2} {RO : RelOf O1 O2} (wr1 : W1 → O1 → M O1) (wr2 : W2 → O2 → M O2)
    f g a b bpv o p :
  (∀ a b o p, rel_of a b → rel_of o p → go_rel rel_of (wr1 a o) (wr2 b p)) →
  rel_of f g → rel_of a b → rel_of o p →
  go_rel rel_of (l103encode_block wr1 f a bpv o) (l103encode_block wr2 g b bpv p).
Proof using HR.
  intros Hwr Hf Hab Ho. unfold l103encode_block. rewrite (Forall2_length _ _ _ Hab).
  rel; eauto 6 with rel.
  apply encode_words_rel; [done..| |done|done]. intros. rel.
Qed.

Lemma l103decode_block_rel {I1 I2} {RI : RelOf I1 I2} (rd1 : I1 → M (W1 * I1)) (rd2 : I2 → M (W2 * I2))
    bpv a b s t :
  (∀ s t, rel_of s t → go_rel rel_of (rd1 s) (rd2 t)) →
  rel_of a b → rel_of s t →
  go_rel rel_of (l103decode_block rd1 bpv a s) (l103decode_block rd2 bpv b t).
Proof using HR.
  intros Hrd Hab Hst. unfold l103decode_block.
  repeat match goal with |- go_rel _ (match ?x with _ => _ end) _ => destruct x end;
    match goal with
    | |- go_rel _ (l103decodeSlow _ _ _ _) _ =>
        unfold l103decodeSlow; apply (go_rel_bind rel_of); [|intros ? ? ?; rel];
        apply decode_slow_rel; [done..| |done]; rel
    | |- go_rel _ (then_expand l103expand8 _) _ =>
        apply then_expand_rel; [intros; by apply l103expand8_rel|]
    | |- go_rel _ (then_expand l103expand16 _) _ =>
        apply then_expand_rel; [intros; by apply l103expand16_rel|]
    end;
    unfold l103decode1, l103decode2, l103decode3, l103decode4, l103decode5, l103decode6,
      l103decode7, l103decode8, l103decode9, l103decode10, l103decode11, l103decode12,
      l103decode13, l103decode14, l103decode15, l103decode16, l103splitInts;
    first
    [ apply splitInts_rel; [done..| | |done|done]; rel
    | apply read_words_rel; done
    | apply (go_rel_bind rel_of); [apply splitInts_rel; [done..| | |done|done]; rel|intros ? ? ?];
      apply recombine_rel; [intros; rel|assumption] ].
Qed.
End Rel.

(** * [int32] blocks on byte streams *)

Section Streams103.
Context {O I : Type} `{DataOutput O} `{DataInput I}.

Definition newLucene103ForUtil : bufs Z :=
  mk_bufs (repeat 0 (Z.to_nat lucene103BlockSize)) (repeat 0 (Z.to_nat lucene103BlockSize)).

Definition l103Encode (f : bufs Z) (ints : list Z) (bitsPerValue : Z) (out : O) : M (bufs Z * O) :=
  l103encode_block (H := int_word 32) write_be32 f ints bitsPerValue out.

Definition l103Decode (f : bufs Z) (bitsPerValue : Z) (inp : I) (ints : list Z)
  : M (bufs Z * list Z * I) :=
  decode_promote lucene103BlockSize
    "lucene103 ForUtil.decode: ints must have at least 128 elements"
    (l103decode_block (H := int_word 32) read_be32 bitsPerValue) f inp ints.
End Streams103.

Abbreviation for103_ok := (bufs_ok 32 lucene103BlockSize lucene103BlockSize).

Lemma l103_check_all :
  forallb (blocks_check lucene103BlockSize (@l103encode_block) (@l103decode_block) (Z.mul 4))
    (seqZ 1 31) = true.
Proof. vm_compute. reflexivity. Qed.

Lemma l103_array_codec {O I : Type} `{DataOutputLaws O} `{DataInputLaws I} bpv xs :
  1 ≤ bpv ≤ 31 → lucene103BlockSize ≤ Z.of_nat (length xs) →
  let block := take (Z.to_nat lucene103BlockSize) xs in
  Forall (in_uint bpv) block →
  ∃ bs, Z.of_nat (length bs) = lucene103ForNumBytes bpv ∧
    array_codec for103_ok (fun f (o : O) => l103Encode f xs bpv o)
      (fun f (s : I) dst => l103Decode f bpv s dst) block bs.
Proof.
  intros Hb Hl block Hxs.
  destruct (blocks_array_codec (O := O) (I := I) lucene103BlockSize
    "lucene103 ForUtil.decode: ints must have at least 128 elements"
    (@l103encode_block) (@l103decode_block)) with (T := Z.mul 4) (bpv := bpv) (xs := xs)
    as (bs & Hbs & Hc);
    [..|exists bs; split; [|exact Hc]].
  - intros. by apply l103encode_block_rel.
  - intros. by apply l103decode_block_rel.
  - by apply (widths_check _ bpv l103_check_all).
  - done.
  - unfold lucene103BlockSize in *. lia.
  - done.
  - intros f o. fold block. unfold l103encode_block.
    assert (Hbl : Z.of_nat (length block) = lucene103BlockSize)
      by (unfold block; rewrite length_take; unfold lucene103BlockSize in *; lia).
    rewrite Hbl, Z.ltb_irrefl, (proj2 (Z.ltb_ge _ _)) by done.
    do 2 f_equal. unfold block. by rewrite take_take, Nat.min_id.
  - rewrite Hbs. unfold lucene103ForNumBytes, lucene103BlockSizeLog2.
    rewrite Z.shiftl_mul_pow2 by lia. change (2 ^ (7 - 3)) with 16. lia.
Qed.

Section PFor103.
Context {O I : Type} `{DataOutput O} `{DataInput I}.

#[local] Instance l103_codec : ForCodec (bufs Z) O I := {
  fc_encode := l103Encode;
  fc_decode := l103Decode;
  fc_bytes := lucene103ForNumBytes;
  fc_ok := for103_ok
}.

#[local] Instance l103_codec_laws `{!DataOutputLaws O} `{!DataInputLaws I} :
  ForCodecLaws (bufs Z) O I lucene103BlockSize.
Proof.
  split. intros bpv xs Hb Hl Hxs.
  assert (Htake : take (Z.to_nat lucene103BlockSize) xs = xs) by (apply take_ge; lia).
  destruct (l103_array_codec (O := O) (I := I) bpv xs Hb ltac:(lia)) as (bs & Hbs & Hc);
    [by rewrite Htake|].
  rewrite Htake in Hc. by exists bs.
Qed.

Definition l103PForEncode : bufs Z → list Z → O → M (bufs Z * O) :=
  pfor_encode lucene103BlockSize "lucene103 PForUtil.encode: ints must have at least 128 elements"
    "lucene103 PForUtil.encode: exception count mismatch".

Definition l103PForDecode : bufs Z → I → list Z → M (bufs Z * list Z * I) :=
  pfor_decode lucene103BlockSize "lucene103 PForUtil.decode: ints must have at least 128 elements".

Definition lucene103PForUtilSkip `{!SeekableInput I} : I → M I := pfor_skip (F := bufs Z) (O := O).

Lemma l103_pfor_codec `{!DataOutputLaws O} `{!DataInputLaws I} `{!SeekableInput I}
    `{!SeekableInputLaws I} xs :
  lucene103BlockSize ≤ Z.of_nat (length xs) →
  let block := take (Z.to_nat lucene103BlockSize) xs in
  Forall (in_uint 31) block →
  ∃ bs, array_codec for103_ok (fun f (o : O) => l103PForEncode f xs o)
      (fun f (s : I) dst => l103PForDecode f s dst) block bs
    ∧ skips (fun s : I => lucene103PForUtilSkip s) bs.
Proof.
  intros Hl block Hb.
  exact (pfor_array_codec (F := bufs Z) (O := O) (I := I) lucene103BlockSize _ _ _
           ltac:(done) xs Hl Hb).
Qed.
End PFor103.

(** The codecs of the 10.3 format, on blocks of 128: for every width from 1
    to 31 the frame-of-reference codec restores every block of values below
    [2^bpv] from [lucene103ForNumBytes bpv] bytes, and the patched codec over
    it restores (and skips) every block of non-negative [int32] values. *)
Theorem Lucene103_roundtrip {O I : Type} `{DataOutputLaws O} `{DataInputLaws I}
    `{!SeekableInput I} `{!SeekableInputLaws I} xs :
  lucene103BlockSize ≤ Z.of_nat (length xs) →
  let block := take (Z.to_nat lucene103BlockSize) xs in
  (∀ bpv, 1 ≤ bpv ≤ 31 → Forall (in_uint bpv) block →
   ∃ bs, Z.of_nat (length bs) = lucene103ForNumBytes bpv ∧
     array_codec for103_ok (fun f (o : O) => l103Encode f xs bpv o)
       (fun f (s : I) dst => l103Decode f bpv s dst) block bs)
  ∧ (Forall (in_uint 31) block →
     ∃ bs, array_codec for103_ok (fun f (o : O) => l103PForEncode (I := I) f xs o)
         (fun f (s : I) dst => l103PForDecode (O := O) f s dst) block bs
       ∧ skips (fun s : I => lucene103PForUtilSkip (O := O) s) bs).
Proof.
  intros Hl block. split; [|by apply l103_pfor_codec].
  intros bpv Hb Hxs. by apply l103_array_codec.
Qed.

Lemma Lucene103_roundtrip_witness :
  let xs := map (fun i => i mod 29) (seqZ 0 128) in
  (∃ bs, Z.of_nat (length bs) = 80 ∧
     array_codec for103_ok (fun f (o : ByteArrayDataOutput) => l103Encode f xs 5 o)
       (fun f (s : ByteArrayDataInput) dst => l103Decode f 5 s dst)
       (take (Z.to_nat lucene103BlockSize) xs) bs)
  ∧ ∃ bs, array_codec for103_ok
       (fun f (o : ByteArrayDataOutput) => l103PForEncode (I := ByteArrayDataInput) f xs o)
       (fun f (s : ByteArrayDataInput) dst => l103PForDecode (O := ByteArrayDataOutput) f s dst)
       (take (Z.to_nat lucene103BlockSize) xs) bs
     ∧ skips (fun s : ByteArrayDataInput => lucene103PForUtilSkip (O := ByteArrayDataOutput) s) bs.
Proof.
  intros xs.
  destruct (Lucene103_roundtrip (O := ByteArrayDataOutput) (I := ByteArrayDataInput) xs)
    as [Hfor Hpfor]; [by vm_compute|].
  split.
  - apply (Hfor 5); [done|]. apply in_uints_check. vm_compute. reflexivity.
  - apply Hpfor. apply in_uints_check. vm_compute. reflexivity.
Defined.
