(* ===== verification/LongPack.v ===== *)
(** What the two 64-bit frame-of-reference codecs share: masks replicated over
    64 bits and the packing loop of the encoders of
    [codecs/lucene99_for_util.go] and
    [backward_codecs/lucene912/lucene912_for_util.go] (128 integers, two or
    more per word). *)

From stdpp Require Import base tactics numbers list strings.
From Stdlib Require Import ZArith Lia.
From S2P Require Import Prelude DataIO Words SymRun ForUtil.

Local Open Scope Z_scope.

Definition expandMask32_64 (m : Z) : Z := Z.lor m (go_shl 64 m 32).
Definition expandMask16_64 (m : Z) : Z := expandMask32_64 (Z.lor m (go_shl 64 m 16)).
Definition expandMask8_64 (m : Z) : Z := expandMask16_64 (Z.lor m (go_shl 64 m 8)).

Section LongPack.
Context {W : Type} `{Word W} {O : Type} (wr : W → O → M O).
Context (masks : Z → Z → M W) (rsh : M W → Z → M W).

(** The encoder: the collapsed words [buf], the scratch words [tmp] (whose
    old contents the first loop overwrites), the number [numLongs] of
    collapsed words.  The last loop writes a new scratch word per iteration,
    so the length of [tmp] bounds it. *)
Definition encode_longs (buf tmp : list W) (bitsPerValue primitiveSize numLongs : Z) (out : O)
  : M (list W * O) :=
  let numLongsPerShift := bitsPerValue * 2 in
  let shift := primitiveSize - bitsPerValue in
  '(tmp, idx) ← go_for (Z.to_nat numLongsPerShift) 0 (fun i '(tmp, idx) =>
    (store tmp [i] := buf.[idx] <<' shift;
     Ret (tmp, idx + 1))%word) (tmp, 0);
  '(tmp, idx, shift) ← go_while 64
    (fun '(_, _, shift) => 0 <=? shift)
    (fun '(tmp, idx, shift) =>
       '(tmp, idx) ← go_for (Z.to_nat numLongsPerShift) 0 (fun i '(tmp, idx) =>
         (store tmp [i] := tmp.[i] |' (buf.[idx] <<' shift);
          Ret (tmp, idx + 1))%word) (tmp, idx);
       mret (tmp, idx, shift - bitsPerValue))
    (tmp, idx, shift - bitsPerValue);
  let remainingBitsPerLong := shift + bitsPerValue in
  maskRemaining ← masks primitiveSize remainingBitsPerLong;
  '(tmp, _, _, _) ← go_while (S (length tmp))
    (fun '(_, idx, _, _) => idx <? numLongs)
    (fun '(tmp, idx, tmpIdx, remainingBitsPerValue) =>
       if remainingBitsPerLong <=? remainingBitsPerValue then
         let remainingBitsPerValue := remainingBitsPerValue - remainingBitsPerLong in
         (store tmp [tmpIdx] := tmp.[tmpIdx]
            |' ((rsh buf.[idx] remainingBitsPerValue) &' Ret maskRemaining);
          let tmpIdx := tmpIdx + 1 in
          if remainingBitsPerValue =? 0
          then Ret (tmp, idx + 1, tmpIdx, bitsPerValue)
          else Ret (tmp, idx, tmpIdx, remainingBitsPerValue))%word
       else
         mask1 ← masks primitiveSize remainingBitsPerValue;
         mask2 ← masks primitiveSize (remainingBitsPerLong - remainingBitsPerValue);
         (store tmp [tmpIdx] := tmp.[tmpIdx]
            |' ((buf.[idx] &' Ret mask1) <<' (remainingBitsPerLong - remainingBitsPerValue));
          let idx := idx + 1 in
          let remainingBitsPerValue :=
            bitsPerValue - remainingBitsPerLong + remainingBitsPerValue in
          store tmp [tmpIdx] := tmp.[tmpIdx]
            |' ((rsh buf.[idx] remainingBitsPerValue) &' Ret mask2);
          Ret (tmp, idx, tmpIdx + 1, remainingBitsPerValue))%word)
    (tmp, idx, 0, bitsPerValue);
  out ← go_for (Z.to_nat numLongsPerShift) 0 (fun i out => w ← aget tmp i; wr w out) out;
  mret (tmp, out).
End LongPack.

(** The recombination loop shared by the decoders of bits 25 to 31. *)
Section Slow.
Context {W : Type} `{Word W} (masks32 : Z → M W).

Definition recombine_slow (bitsPerValue remainingBitsPerLong longsIdx0 : Z) (tmp longs : list W)
  : M (list W) :=
  mask32Remaining ← masks32 remainingBitsPerLong;
  '(longs, _, _) ← go_for (Z.to_nat (64 - longsIdx0)) longsIdx0
    (fun longsIdx '(longs, tmpIdx, remainingBits) =>
       let b := bitsPerValue - remainingBits in
       l ← (tmp.[tmpIdx] &' masks32 remainingBits)%word;
       let l := w_shl l b in
       '(l, b, tmpIdx) ← go_while (Z.to_nat bitsPerValue)
         (fun '(_, b, _) => remainingBitsPerLong <=? b)
         (fun '(l, b, tmpIdx) =>
            let b := b - remainingBitsPerLong in
            l ← (Ret l |' ((tmp.[tmpIdx] &' Ret mask32Remaining) <<' b))%word;
            mret (l, b, tmpIdx + 1))
         (l, b, tmpIdx + 1);
       '(l, remainingBits) ←
         (if 0 <? b then
            l ← (Ret l |' ((tmp.[tmpIdx] >>>' (remainingBitsPerLong - b)) &' masks32 b))%word;
            mret (l, remainingBitsPerLong - b)
          else mret (l, remainingBitsPerLong));
       longs ← aset longs longsIdx l;
       mret (longs, tmpIdx, remainingBits))
    (longs, 0, remainingBitsPerLong);
  mret longs.
End Slow.

Section LongPackRel.
Context {W1 W2 : Type} {H1 : Word W1} {H2 : Word W2} {RW : RelOf W1 W2}.
Context (HR : word_rel H1 H2 rel_of).
Context {O1 O2 : Type} {RO : RelOf O1 O2}.

Lemma encode_longs_rel (wr1 : W1 → O1 → M O1) (wr2 : W2 → O2 → M O2) m1 m2 rsh1 rsh2
    a b t u bpv p n o q :
  (∀ a b o p, rel_of a b → rel_of o p → go_rel rel_of (wr1 a o) (wr2 b p)) →
  (∀ p i, go_rel rel_of (m1 p i) (m2 p i)) →
  (∀ m n k, go_rel rel_of m n → go_rel rel_of (rsh1 m k) (rsh2 n k)) →
  rel_of a b → rel_of t u → rel_of o q →
  go_rel rel_of (encode_longs wr1 m1 rsh1 a t bpv p n o) (encode_longs wr2 m2 rsh2 b u bpv p n q).
Proof using HR.
  intros Hwr Hm Hsh Hab Htu Ho. unfold encode_longs.
  assert (Hlen : ∀ (x : list W1) (y : list W2), rel_of x y → length x = length y)
    by (intros; by eapply Forall2_length).
  rel; rewrite ?(Hlen _ _ ltac:(eassumption)); rel; eauto 6 with rel.
Qed.

Lemma recombine_slow_rel m1 m2 bpv r i t u a b :
  (∀ i, go_rel rel_of (m1 i) (m2 i)) → rel_of t u → rel_of a b →
  go_rel rel_of (recombine_slow m1 bpv r i t a) (recombine_slow m2 bpv r i u b).
Proof using HR. intros Hm Htu Hab. unfold recombine_slow. rel. Qed.
End LongPackRel.

(** * Big-endian 64-bit words *)

(** [binary.BigEndian.PutUint64] and [binary.BigEndian.Uint64] *)
Definition be64_put (v : Z) : list Z :=
  be32_put (to_uint32 (Z.shiftr v 32)) ++ be32_put (to_uint32 v).

Definition be64_get (b : list Z) : M Z :=
  hi ← be32_get b; lo ← be32_get (drop 4 b); Ret (Z.lor lo (Z.shiftl hi 32)).

Definition write_be64 {O} `{DataOutput O} (v : Z) (out : O) : M O :=
  let buf := be64_put (to_uint64 v) in out_bytes buf 0 (Z.of_nat (length buf)) out.

(** [int64(binary.BigEndian.Uint64(buf[i*8:]))] for [i < n] *)
Fixpoint be64_words (n : nat) (buf : list Z) : M (list Z) :=
  match n with
  | O => Ret []
  | S n => v ← be64_get buf; vs ← be64_words n (drop 8 buf); Ret (to_int64 v :: vs)
  end.

(** [count] words read with one [ReadBytes]. *)
Definition read_be64s {I} `{DataInput I} (count : Z) (inp : I) : M (list Z * I) :=
  let buf := repeat 0 (Z.to_nat (count * 8)) in
  '(buf, inp) ← in_bytes buf 0 (Z.of_nat (length buf)) inp;
  vs ← be64_words (Z.to_nat count) buf;
  mret (vs, inp).

Lemma be32_get_put u rest : in_uint 32 u → be32_get (be32_put u ++ rest) = Ret u.
Proof.
  intros Hu. unfold be32_get, be32_put. simpl. f_equal.
  apply (uint_bits_inj 32); [lia| |done|].
  - repeat apply lor_uint; try lia; try by apply uwrap_range.
    pose proof (to_byte_is_byte u). ints.
  - intros n Hn. rewrite !Z.lor_spec, !uwrap_testbit by lia.
    rewrite (proj2 (Z.ltb_lt n 32)), !andb_true_l by lia.
    rewrite !byte_at_testbit by lia.
    destruct (Z.testbit u n); [|by rewrite !andb_false_r]. lia.
Qed.

Lemma be64_put_length v : length (be64_put v) = 8%nat.
Proof. done. Qed.

Lemma be64_put_bytes v : Forall is_byte (be64_put v).
Proof. apply Forall_app_2; apply be32_put_bytes. Qed.

Lemma be64_roundtrip v rest : in_sint 64 v →
  ∃ u, be64_get (be64_put (to_uint64 v) ++ rest) = Ret u ∧ to_int64 u = v.
Proof.
  intros Hv. unfold be64_get, be64_put. rewrite <- app_assoc.
  rewrite be32_get_put by (by apply uwrap_range). cbv [mbind go_bind].
  match goal with |- context [drop 4 (be32_put ?a ++ ?b)] =>
    change (drop 4 (be32_put a ++ b)) with b end.
  rewrite be32_get_put by (by apply uwrap_range). simpl. eexists. split; [done|].
  apply (sint_bits_inj 64); [lia|by apply swrap_range|done|]. intros n Hn.
  rewrite swrap_testbit, Z.min_l, Z.lor_spec, !uwrap_testbit by lia.
  rewrite (proj2 (Z.ltb_lt n 64)) by lia. simpl.
  destruct (Z.ltb_spec n 32).
  - rewrite Z.shiftl_spec_low by lia. by rewrite orb_false_r.
  - rewrite Z.shiftl_spec_high, uwrap_testbit, Z.shiftr_spec, uwrap_testbit by lia.
    rewrite (proj2 (Z.ltb_lt (n - 32) 32)) by lia. simpl.
    replace (n - 32 + 32) with n by lia. by rewrite (proj2 (Z.ltb_lt n 64)) by lia.
Qed.

Abbreviation be64_enc := (fun v => be64_put (to_uint64 v)).

Lemma be64_words_put zs : Forall (in_sint 64) zs →
  be64_words (length zs) (words_bytes be64_enc zs) = Ret zs.
Proof.
  induction 1 as [|z zs Hz _ IH]; [done|]. simpl length.
  change (words_bytes be64_enc (z :: zs)) with (be64_put (to_uint64 z) ++ words_bytes be64_enc zs).
  cbn [be64_words].
  destruct (be64_roundtrip z (words_bytes be64_enc zs) Hz) as (u & -> & Hu). cbv [mbind go_bind].
  match goal with |- context [drop 8 (be64_put ?a ++ ?b)] =>
    change (drop 8 (be64_put a ++ b)) with b end.
  rewrite IH. by rewrite Hu.
Qed.

(** [count] words of a symbolic stream at once. *)
Definition sym_rdn (count : Z) (s : list sword) : M (list sword * list sword) :=
  if (Z.to_nat count <=? length s)%nat
  then Ret (take (Z.to_nat count) s, drop (Z.to_nat count) s) else Err EOF.

Section Streams64.
Context {O I : Type} `{DataOutputLaws O} `{DataInputLaws I}.

Lemma write_be64_emits v : emits (fun o : O => write_be64 v o) (be64_enc v).
Proof. apply emits_bytes, be64_put_bytes. Qed.

Lemma read_be64s_consumes zs : Forall (in_sint 64) zs →
  consumes (fun s : I => read_be64s (Z.of_nat (length zs)) s) (words_bytes be64_enc zs) zs.
Proof.
  intros Hz s rest Hs. destruct (in_bytes_exact _ s rest Hs) as (s' & E & Hs').
  exists s'. split; [|done]. unfold read_be64s.
  rewrite (words_bytes_length be64_enc 8 (fun _ => be64_put_length _)) in E.
  rewrite repeat_length. replace (Z.to_nat (Z.of_nat (length zs) * 8)) with (8 * length zs)%nat by lia.
  rewrite E. cbv [mbind go_bind]. by rewrite Nat2Z.id, be64_words_put.
Qed.

Lemma sym_rdn_rel env rest n ws (s : I) : 0 ≤ n →
  in_rel env 64 be64_enc rest ws s →
  go_rel (pair_rel (Forall2 (sym_rel env 64)) (in_rel env 64 be64_enc rest))
    (sym_rdn n ws) (read_be64s n s).
Proof.
  intros Hn (zs & Hzs & Hat) p Hp. unfold sym_rdn in Hp.
  destruct (Nat.leb_spec (Z.to_nat n) (length ws)) as [Hle|]; [|done]. injection Hp as <-.
  pose proof (Forall2_length _ _ _ Hzs) as Hlen.
  rewrite <- (take_drop (Z.to_nat n) zs) in Hat. unfold words_bytes in Hat.
  rewrite map_app, concat_app, <- app_assoc in Hat.
  destruct (read_be64s_consumes (take (Z.to_nat n) zs)) with (s := s)
    (rest := concat (map be64_enc (drop (Z.to_nat n) zs)) ++ rest) as (s' & E & V); [|done|].
  { apply Forall_take. eapply Forall2_Forall_r; [exact Hzs|].
    apply Forall_true. by intros ? ? []. }
  rewrite length_take, Nat.min_l, Z2Nat.id in E by lia.
  exists (take (Z.to_nat n) zs, s'). split; [done|]. split; simpl.
  - by apply Forall2_take.
  - exists (drop (Z.to_nat n) zs). split; [by apply Forall2_drop|done].
Qed.
End Streams64.
