(* ===== verification/ForUtil99.v ===== *)
(** Frame-of-reference coding on 64-bit words, blocks of 128 integers:
    [codecs/lucene99_for_util.go]. *)

From stdpp Require Import base tactics numbers list strings.
From Stdlib Require Import ZArith Lia.
From S2P Require Import Prelude DataIO Words SymRun ForUtil LongPack.

Local Open Scope Z_scope.

Definition lucene99BlockSize : Z := 128.
Definition lucene99BlockSizeLog2 : Z := 7.

Definition l99forNumBytes (bitsPerValue : Z) : Z :=
  Z.shiftl bitsPerValue (lucene99BlockSizeLog2 - 3).

(** * Masks *)

Definition l99mask32 (bitsPerValue : Z) : Z :=
  if bitsPerValue <=? 0 then 0 else
  if 32 <=? bitsPerValue then -1 else
  expandMask32_64 (to_int64 (Z.shiftl 1 bitsPerValue) - 1).

Definition l99mask16 (bitsPerValue : Z) : Z :=
  if bitsPerValue <=? 0 then 0 else
  if 16 <=? bitsPerValue then -1 else
  expandMask16_64 (to_int64 (Z.shiftl 1 bitsPerValue) - 1).

Definition l99mask8 (bitsPerValue : Z) : Z :=
  if bitsPerValue <=? 0 then 0 else
  if 8 <=? bitsPerValue then -1 else
  expandMask8_64 (to_int64 (Z.shiftl 1 bitsPerValue) - 1).

(** The tables filled by [init]. *)
Definition l99masks8_table : list Z := map l99mask8 (seqZ 0 8).
Definition l99masks16_table : list Z := map l99mask16 (seqZ 0 16).
Definition l99masks32_table : list Z := map l99mask32 (seqZ 0 32).

Section ForUtil99.
Context {W : Type} `{Word W}.

Definition l99masks8 (i : Z) : M W := m ← aget l99masks8_table i; Ret (w_lit m).
Definition l99masks16 (i : Z) : M W := m ← aget l99masks16_table i; Ret (w_lit m).
Definition l99masks32 (i : Z) : M W := m ← aget l99masks32_table i; Ret (w_lit m).

(** [switch nextPrimitive] of the encoder *)
Definition l99masks_of (nextPrimitive i : Z) : M W :=
  if nextPrimitive =? 8 then l99masks8 i
  else if nextPrimitive =? 16 then l99masks16 i else l99masks32 i.

(** ** Collapse and expand *)

Definition l99expand8 (arr : list W) : M (list W) :=
  go_for 16 0 (fun i arr =>
    let l := arr.[i] in
    store arr [i] := (l >>>' 56) &' #255;
    store arr [16 + i] := (l >>>' 48) &' #255;
    store arr [32 + i] := (l >>>' 40) &' #255;
    store arr [48 + i] := (l >>>' 32) &' #255;
    store arr [64 + i] := (l >>>' 24) &' #255;
    store arr [80 + i] := (l >>>' 16) &' #255;
    store arr [96 + i] := (l >>>' 8) &' #255;
    store arr [112 + i] := l &' #255;
    Ret arr)%word arr.

Definition l99collapse8 (arr : list W) : M (list W) :=
  go_for 16 0 (fun i arr =>
    store arr [i] := (arr.[i] <<' 56) |' (arr.[16 + i] <<' 48) |' (arr.[32 + i] <<' 40)
      |' (arr.[48 + i] <<' 32) |' (arr.[64 + i] <<' 24) |' (arr.[80 + i] <<' 16)
      |' (arr.[96 + i] <<' 8) |' arr.[112 + i];
    Ret arr)%word arr.

Definition l99expand16 (arr : list W) : M (list W) :=
  go_for 32 0 (fun i arr =>
    let l := arr.[i] in
    store arr [i] := (l >>>' 48) &' #65535;
    store arr [32 + i] := (l >>>' 32) &' #65535;
    store arr [64 + i] := (l >>>' 16) &' #65535;
    store arr [96 + i] := l &' #65535;
    Ret arr)%word arr.

Definition l99collapse16 (arr : list W) : M (list W) :=
  go_for 32 0 (fun i arr =>
    store arr [i] := (arr.[i] <<' 48) |' (arr.[32 + i] <<' 32) |' (arr.[64 + i] <<' 16)
      |' arr.[96 + i];
    Ret arr)%word arr.

Definition l99expand32 (arr : list W) : M (list W) :=
  go_for 64 0 (fun i arr =>
    let l := arr.[i] in
    store arr [i] := l >>>' 32;
    store arr [64 + i] := l &' #4294967295;
    Ret arr)%word arr.

Definition l99collapse32 (arr : list W) : M (list W) :=
  go_for 64 0 (fun i arr =>
    store arr [i] := (arr.[i] <<' 32) |' arr.[64 + i];
    Ret arr)%word arr.

(** ** Encode

    The state is the scratch buffer [tmp] of the [lucene99ForUtil].  Above
    16 bits per value the block is packed as it is: [l99collapse32] is not
    called. *)
Section Encode.
Context {O : Type} (wr : W → O → M O).

Definition l99encode_block (tmp ints : list W) (bitsPerValue : Z) (out : O) : M (list W * O) :=
  if Z.of_nat (length ints) <? lucene99BlockSize
  then Err (Errorf "lucene99 ForUtil.encode: ints must have at least 128 elements") else
  let buf := take (Z.to_nat lucene99BlockSize) ints in
  '(buf, nextPrimitive, numLongs) ←
    (if bitsPerValue <=? 8 then a ← l99collapse8 buf; mret (a, 8, Z.quot lucene99BlockSize 8)
     else if bitsPerValue <=? 16 then
       a ← l99collapse16 buf; mret (a, 16, Z.quot lucene99BlockSize 4)
     else mret (buf, 32, Z.quot lucene99BlockSize 2));
  encode_longs wr l99masks_of (fun v n => v >>>' n)%word buf tmp bitsPerValue nextPrimitive
    numLongs out.

(** The layout of the format: wide blocks are collapsed two to a word. *)
Definition l99_layout (tmp ints : list W) (bitsPerValue : Z) (out : O) : M (list W * O) :=
  if bitsPerValue <=? 16 then l99encode_block tmp ints bitsPerValue out else
  buf ← l99collapse32 (take (Z.to_nat lucene99BlockSize) ints);
  encode_longs wr l99masks_of (fun v n => v >>>' n)%word buf tmp bitsPerValue 32
    (Z.quot lucene99BlockSize 2) out.
End Encode.

(** ** Decode

    [b_ints] is the caller's array [longs], [b_tmp] the scratch buffer. *)
Section Decode.
Context {I : Type} (rdn : Z → I → M (list W * I)).

Definition l99readLongs (count : Z) (c : buffer) (bf : bufs W) (s : I) : M (bufs W * I) :=
  '(vs, s) ← rdn count s;
  bf ← go_for (Z.to_nat count) 0 (fun i bf => v ← aget vs i; buf_set c i v bf) bf;
  mret (bf, s).

Definition l99shiftLongs (a : buffer) (count : Z) (b : buffer) (bi shift : Z) (mask : M W)
    (bf : bufs W) : M (bufs W) :=
  mask ← mask;
  go_for (Z.to_nat count) 0 (fun i bf =>
    v ← buf_get a i bf; buf_set b (bi + i) (w_and (w_shr v shift) mask) bf) bf.

(** The loop [for ; shift >= 0; shift -= bitsPerValue] lowers [shift] from
    at most 31. *)
Definition l99decodeSlow (bitsPerValue : Z) (bf : bufs W) (s : I) : M (bufs W * I) :=
  let numLongs := Z.shiftl bitsPerValue 1 in
  '(bf, s) ← l99readLongs numLongs Tmp bf s;
  mask ← l99masks32 bitsPerValue;
  '(bf, longsIdx, shift) ← go_while 32
    (fun '(_, _, shift) => 0 <=? shift)
    (fun '(bf, longsIdx, shift) =>
       bf ← l99shiftLongs Tmp numLongs Ints longsIdx shift (Ret mask) bf;
       mret (bf, longsIdx + numLongs, shift - bitsPerValue))
    (bf, 0, 32 - bitsPerValue);
  let remainingBitsPerLong := shift + bitsPerValue in
  longs ← recombine_slow l99masks32 bitsPerValue remainingBitsPerLong longsIdx (b_tmp bf) (b_ints bf);
  mret (mk_bufs longs (b_tmp bf), s).

Definition l99decode1 (bf : bufs W) (s : I) : M (bufs W * I) :=
  '(bf, s) ← l99readLongs 2 Tmp bf s;
  bf ← l99shiftLongs Tmp 2 Ints 0 7 (l99masks8 1) bf;
  bf ← l99shiftLongs Tmp 2 Ints 2 6 (l99masks8 1) bf;
  bf ← l99shiftLongs Tmp 2 Ints 4 5 (l99masks8 1) bf;
  bf ← l99shiftLongs Tmp 2 Ints 6 4 (l99masks8 1) bf;
  bf ← l99shiftLongs Tmp 2 Ints 8 3 (l99masks8 1) bf;
  bf ← l99shiftLongs Tmp 2 Ints 10 2 (l99masks8 1) bf;
  bf ← l99shiftLongs Tmp 2 Ints 12 1 (l99masks8 1) bf;
  bf ← l99shiftLongs Tmp 2 Ints 14 0 (l99masks8 1) bf;
  mret (bf, s).

Definition l99decode2 (bf : bufs W) (s : I) : M (bufs W * I) :=
  '(bf, s) ← l99readLongs 4 Tmp bf s;
  bf ← l99shiftLongs Tmp 4 Ints 0 6 (l99masks8 2) bf;
  bf ← l99shiftLongs Tmp 4 Ints 4 4 (l99masks8 2) bf;
  bf ← l99shiftLongs Tmp 4 Ints 8 2 (l99masks8 2) bf;
  bf ← l99shiftLongs Tmp 4 Ints 12 0 (l99masks8 2) bf;
  mret (bf, s).

Definition l99decode3 (bf : bufs W) (s : I) : M (bufs W * I) :=
  '(bf, s) ← l99readLongs 6 Tmp bf s;
  bf ← l99shiftLongs Tmp 6 Ints 0 5 (l99masks8 3) bf;
  bf ← l99shiftLongs Tmp 6 Ints 6 2 (l99masks8 3) bf;
  recombine 2 3 12 2 (fun tmp tmpIdx longsIdx longs =>
    let l0 := (tmp.[tmpIdx + 0] &' l99masks8 2) <<' 1 in
    let l0 := l0 |' (tmp.[tmpIdx + 1] >>>' 1) &' l99masks8 1 in
    store longs [longsIdx + 0] := l0;
    let l1 := (tmp.[tmpIdx + 1] &' l99masks8 1) <<' 2 in
    let l1 := l1 |' tmp.[tmpIdx + 2] &' l99masks8 2 in
    store longs [longsIdx + 1] := l1;
    Ret longs)%word (bf, s).

Definition l99decode4 (bf : bufs W) (s : I) : M (bufs W * I) :=
  '(bf, s) ← l99readLongs 8 Ints bf s;
  bf ← l99shiftLongs Ints 8 Ints 0 4 (l99masks8 4) bf;
  bf ← l99shiftLongs Ints 8 Ints 8 0 (l99masks8 4) bf;
  mret (bf, s).

Definition l99decode5 (bf : bufs W) (s : I) : M (bufs W * I) :=
  '(bf, s) ← l99readLongs 10 Tmp bf s;
  bf ← l99shiftLongs Tmp 10 Ints 0 3 (l99masks8 5) bf;
  recombine 2 5 10 3 (fun tmp tmpIdx longsIdx longs =>
    let l0 := (tmp.[tmpIdx + 0] &' l99masks8 3) <<' 2 in
    let l0 := l0 |' (tmp.[tmpIdx + 1] >>>' 1) &' l99masks8 2 in
    store longs [longsIdx + 0] := l0;
    let l1 := (tmp.[tmpIdx + 1] &' l99masks8 1) <<' 4 in
    let l1 := l1 |' (tmp.[tmpIdx + 2] &' l99masks8 3) <<' 1 in
    let l1 := l1 |' (tmp.[tmpIdx + 3] >>>' 2) &' l99masks8 1 in
    store longs [longsIdx + 1] := l1;
    let l2 := (tmp.[tmpIdx + 3] &' l99masks8 2) <<' 3 in
    let l2 := l2 |' tmp.[tmpIdx + 4] &' l99masks8 3 in
    store longs [longsIdx + 2] := l2;
    Ret longs)%word (bf, s).

Definition l99decode6 (bf : bufs W) (s : I) : M (bufs W * I) :=
  '(bf, s) ← l99readLongs 12 Tmp bf s;
  bf ← l99shiftLongs Tmp 12 Ints 0 2 (l99masks8 6) bf;
  bf ← l99shiftLongs Tmp 12 Tmp 0 0 (l99masks8 2) bf;
  recombine 4 3 12 1 (fun tmp tmpIdx longsIdx longs =>
    let l0 := tmp.[tmpIdx + 0] <<' 4 in
    let l0 := l0 |' tmp.[tmpIdx + 1] <<' 2 in
    let l0 := l0 |' tmp.[tmpIdx + 2] in
    store longs [longsIdx + 0] := l0;
    Ret longs)%word (bf, s).

Definition l99decode7 (bf : bufs W) (s : I) : M (bufs W * I) :=
  '(bf, s) ← l99readLongs 14 Tmp bf s;
  bf ← l99shiftLongs Tmp 14 Ints 0 1 (l99masks8 7) bf;
  bf ← l99shiftLongs Tmp 14 Tmp 0 0 (l99masks8 1) bf;
  recombine 2 7 14 1 (fun tmp tmpIdx longsIdx longs =>
    let l0 := tmp.[tmpIdx + 0] <<' 6 in
    let l0 := l0 |' tmp.[tmpIdx + 1] <<' 5 in
    let l0 := l0 |' tmp.[tmpIdx + 2] <<' 4 in
    let l0 := l0 |' tmp.[tmpIdx + 3] <<' 3 in
    let l0 := l0 |' tmp.[tmpIdx + 4] <<' 2 in
    let l0 := l0 |' tmp.[tmpIdx + 5] <<' 1 in
    let l0 := l0 |' tmp.[tmpIdx + 6] in
    store longs [longsIdx + 0] := l0;
    Ret longs)%word (bf, s).

Definition l99decode8 (bf : bufs W) (s : I) : M (bufs W * I) :=
  l99readLongs 16 Ints bf s.

Definition l99decode9 (bf : bufs W) (s : I) : M (bufs W * I) :=
  '(bf, s) ← l99readLongs 18 Tmp bf s;
  bf ← l99shiftLongs Tmp 18 Ints 0 7 (l99masks16 9) bf;
  recombine 2 9 18 7 (fun tmp tmpIdx longsIdx longs =>
    let l0 := (tmp.[tmpIdx + 0] &' l99masks16 7) <<' 2 in
    let l0 := l0 |' (tmp.[tmpIdx + 1] >>>' 5) &' l99masks16 2 in
    store longs [longsIdx + 0] := l0;
    let l1 := (tmp.[tmpIdx + 1] &' l99masks16 5) <<' 4 in
    let l1 := l1 |' (tmp.[tmpIdx + 2] >>>' 3) &' l99masks16 4 in
    store longs [longsIdx + 1] := l1;
    let l2 := (tmp.[tmpIdx + 2] &' l99masks16 3) <<' 6 in
    let l2 := l2 |' (tmp.[tmpIdx + 3] >>>' 1) &' l99masks16 6 in
    store longs [longsIdx + 2] := l2;
    let l3 := (tmp.[tmpIdx + 3] &' l99masks16 1) <<' 8 in
    let l3 := l3 |' (tmp.[tmpIdx + 4] &' l99masks16 7) <<' 1 in
    let l3 := l3 |' (tmp.[tmpIdx + 5] >>>' 6) &' l99masks16 1 in
    store longs [longsIdx + 3] := l3;
    let l4 := (tmp.[tmpIdx + 5] &' l99masks16 6) <<' 3 in
    let l4 := l4 |' (tmp.[tmpIdx + 6] >>>' 4) &' l99masks16 3 in
    store longs [longsIdx + 4] := l4;
    let l5 := (tmp.[tmpIdx + 6] &' l99masks16 4) <<' 5 in
    let l5 := l5 |' (tmp.[tmpIdx + 7] >>>' 2) &' l99masks16 5 in
    store longs [longsIdx + 5] := l5;
    let l6 := (tmp.[tmpIdx + 7] &' l99masks16 2) <<' 7 in
    let l6 := l6 |' tmp.[tmpIdx + 8] &' l99masks16 7 in
    store longs [longsIdx + 6] := l6;
    Ret longs)%word (bf, s).

Definition l99decode10 (bf : bufs W) (s : I) : M (bufs W * I) :=
  '(bf, s) ← l99readLongs 20 Tmp bf s;
  bf ← l99shiftLongs Tmp 20 Ints 0 6 (l99masks16 10) bf;
  recombine 4 5 20 3 (fun tmp tmpIdx longsIdx longs =>
    let l0 := (tmp.[tmpIdx + 0] &' l99masks16 6) <<' 4 in
    let l0 := l0 |' (tmp.[tmpIdx + 1] >>>' 2) &' l99masks16 4 in
    store longs [longsIdx + 0] := l0;
    let l1 := (tmp.[tmpIdx + 1] &' l99masks16 2) <<' 8 in
    let l1 := l1 |' (tmp.[tmpIdx + 2] &' l99masks16 6) <<' 2 in
    let l1 := l1 |' (tmp.[tmpIdx + 3] >>>' 4) &' l99masks16 2 in
    store longs [longsIdx + 1] := l1;
    let l2 := (tmp.[tmpIdx + 3] &' l99masks16 4) <<' 6 in
    let l2 := l2 |' tmp.[tmpIdx + 4] &' l99masks16 6 in
    store longs [longsIdx + 2] := l2;
    Ret longs)%word (bf, s).

Definition l99decode11 (bf : bufs W) (s : I) : M (bufs W * I) :=
  '(bf, s) ← l99readLongs 22 Tmp bf s;
  bf ← l99shiftLongs Tmp 22 Ints 0 5 (l99masks16 11) bf;
  recombine 2 11 22 5 (fun tmp tmpIdx longsIdx longs =>
    let l0 := (tmp.[tmpIdx + 0] &' l99masks16 5) <<' 6 in
    let l0 := l0 |' (tmp.[tmpIdx + 1] &' l99masks16 5) <<' 1 in
    let l0 := l0 |' (tmp.[tmpIdx + 2] >>>' 4) &' l99masks16 1 in
    store longs [longsIdx + 0] := l0;
    let l1 := (tmp.[tmpIdx + 2] &' l99masks16 4) <<' 7 in
    let l1 := l1 |' (tmp.[tmpIdx + 3] &' l99masks16 5) <<' 2 in
    let l1 := l1 |' (tmp.[tmpIdx + 4] >>>' 3) &' l99masks16 2 in
    store longs [longsIdx + 1] := l1;
    let l2 := (tmp.[tmpIdx + 4] &' l99masks16 3) <<' 8 in
    let l2 := l2 |' (tmp.[tmpIdx + 5] &' l99masks16 5) <<' 3 in
    let l2 := l2 |' (tmp.[tmpIdx + 6] >>>' 2) &' l99masks16 3 in
    store longs [longsIdx + 2] := l2;
    let l3 := (tmp.[tmpIdx + 6] &' l99masks16 2) <<' 9 in
    let l3 := l3 |' (tmp.[tmpIdx + 7] &' l99masks16 5) <<' 4 in
    let l3 := l3 |' (tmp.[tmpIdx + 8] >>>' 1) &' l99masks16 4 in
    store longs [longsIdx + 3] := l3;
    let l4 := (tmp.[tmpIdx + 8] &' l99masks16 1) <<' 10 in
    let l4 := l4 |' (tmp.[tmpIdx + 9] &' l99masks16 5) <<' 5 in
    let l4 := l4 |' tmp.[tmpIdx + 10] &' l99masks16 5 in
    store longs [longsIdx + 4] := l4;
    Ret longs)%word (bf, s).

Definition l99decode12 (bf : bufs W) (s : I) : M (bufs W * I) :=
  '(bf, s) ← l99readLongs 24 Tmp bf s;
  bf ← l99shiftLongs Tmp 24 Ints 0 4 (l99masks16 12) bf;
  bf ← l99shiftLongs Tmp 24 Tmp 0 0 (l99masks16 4) bf;
  recombine 8 3 24 1 (fun tmp tmpIdx longsIdx longs =>
    let l0 := tmp.[tmpIdx + 0] <<' 8 in
    let l0 := l0 |' tmp.[tmpIdx + 1] <<' 4 in
    let l0 := l0 |' tmp.[tmpIdx + 2] in
    store longs [longsIdx + 0] := l0;
    Ret longs)%word (bf, s).

Definition l99decode13 (bf : bufs W) (s : I) : M (bufs W * I) :=
  '(bf, s) ← l99readLongs 26 Tmp bf s;
  bf ← l99shiftLongs Tmp 26 Ints 0 3 (l99masks16 13) bf;
  recombine 2 13 26 3 (fun tmp tmpIdx longsIdx longs =>
    let l0 := (tmp.[tmpIdx + 0] &' l99masks16 3) <<' 10 in
    let l0 := l0 |' (tmp.[tmpIdx + 1] &' l99masks16 3) <<' 7 in
    let l0 := l0 |' (tmp.[tmpIdx + 2] &' l99masks16 3) <<' 4 in
    let l0 := l0 |' (tmp.[tmpIdx + 3] &' l99masks16 3) <<' 1 in
    let l0 := l0 |' (tmp.[tmpIdx + 4] >>>' 2) &' l99masks16 1 in
    store longs [longsIdx + 0] := l0;
    let l1 := (tmp.[tmpIdx + 4] &' l99masks16 2) <<' 11 in
    let l1 := l1 |' (tmp.[tmpIdx + 5] &' l99masks16 3) <<' 8 in
    let l1 := l1 |' (tmp.[tmpIdx + 6] &' l99masks16 3) <<' 5 in
    let l1 := l1 |' (tmp.[tmpIdx + 7] &' l99masks16 3) <<' 2 in
    let l1 := l1 |' (tmp.[tmpIdx + 8] >>>' 1) &' l99masks16 2 in
    store longs [longsIdx + 1] := l1;
    let l2 := (tmp.[tmpIdx + 8] &' l99masks16 1) <<' 12 in
    let l2 := l2 |' (tmp.[tmpIdx + 9] &' l99masks16 3) <<' 9 in
    let l2 := l2 |' (tmp.[tmpIdx + 10] &' l99masks16 3) <<' 6 in
    let l2 := l2 |' (tmp.[tmpIdx + 11] &' l99masks16 3) <<' 3 in
    let l2 := l2 |' tmp.[tmpIdx + 12] &' l99masks16 3 in
    store longs [longsIdx + 2] := l2;
    Ret longs)%word (bf, s).

Definition l99decode14 (bf : bufs W) (s : I) : M (bufs W * I) :=
  '(bf, s) ← l99readLongs 28 Tmp bf s;
  bf ← l99shiftLongs Tmp 28 Ints 0 2 (l99masks16 14) bf;
  bf ← l99shiftLongs Tmp 28 Tmp 0 0 (l99masks16 2) bf;
  recombine 4 7 28 1 (fun tmp tmpIdx longsIdx longs =>
    let l0 := tmp.[tmpIdx + 0] <<' 12 in
    let l0 := l0 |' tmp.[tmpIdx + 1] <<' 10 in
    let l0 := l0 |' tmp.[tmpIdx + 2] <<' 8 in
    let l0 := l0 |' tmp.[tmpIdx + 3] <<' 6 in
    let l0 := l0 |' tmp.[tmpIdx + 4] <<' 4 in
    let l0 := l0 |' tmp.[tmpIdx + 5] <<' 2 in
    let l0 := l0 |' tmp.[tmpIdx + 6] in
    store longs [longsIdx + 0] := l0;
    Ret longs)%word (bf, s).

Definition l99decode15 (bf : bufs W) (s : I) : M (bufs W * I) :=
  '(bf, s) ← l99readLongs 30 Tmp bf s;
  bf ← l99shiftLongs Tmp 30 Ints 0 1 (l99masks16 15) bf;
  bf ← l99shiftLongs Tmp 30 Tmp 0 0 (l99masks16 1) bf;
  recombine 2 15 30 1 (fun tmp tmpIdx longsIdx longs =>
    let l0 := tmp.[tmpIdx + 0] <<' 14 in
    let l0 := l0 |' tmp.[tmpIdx + 1] <<' 13 in
    let l0 := l0 |' tmp.[tmpIdx + 2] <<' 12 in
    let l0 := l0 |' tmp.[tmpIdx + 3] <<' 11 in
    let l0 := l0 |' tmp.[tmpIdx + 4] <<' 10 in
    let l0 := l0 |' tmp.[tmpIdx + 5] <<' 9 in
    let l0 := l0 |' tmp.[tmpIdx + 6] <<' 8 in
    let l0 := l0 |' tmp.[tmpIdx + 7] <<' 7 in
    let l0 := l0 |' tmp.[tmpIdx + 8] <<' 6 in
    let l0 := l0 |' tmp.[tmpIdx + 9] <<' 5 in
    let l0 := l0 |' tmp.[tmpIdx + 10] <<' 4 in
    let l0 := l0 |' tmp.[tmpIdx + 11] <<' 3 in
    let l0 := l0 |' tmp.[tmpIdx + 12] <<' 2 in
    let l0 := l0 |' tmp.[tmpIdx + 13] <<' 1 in
    let l0 := l0 |' tmp.[tmpIdx + 14] in
    store longs [longsIdx + 0] := l0;
    Ret longs)%word (bf, s).

Definition l99decode16 (bf : bufs W) (s : I) : M (bufs W * I) :=
  l99readLongs 32 Ints bf s.

Definition l99decode17 (bf : bufs W) (s : I) : M (bufs W * I) :=
  '(bf, s) ← l99readLongs 34 Tmp bf s;
  bf ← l99shiftLongs Tmp 34 Ints 0 15 (l99masks32 17) bf;
  recombine 2 17 34 15 (fun tmp tmpIdx longsIdx longs =>
    let l0 := (tmp.[tmpIdx + 0] &' l99masks32 15) <<' 2 in
    let l0 := l0 |' (tmp.[tmpIdx + 1] >>>' 13) &' l99masks32 2 in
    store longs [longsIdx + 0] := l0;
    let l1 := (tmp.[tmpIdx + 1] &' l99masks32 13) <<' 4 in
    let l1 := l1 |' (tmp.[tmpIdx + 2] >>>' 11) &' l99masks32 4 in
    store longs [longsIdx + 1] := l1;
    let l2 := (tmp.[tmpIdx + 2] &' l99masks32 11) <<' 6 in
    let l2 := l2 |' (tmp.[tmpIdx + 3] >>>' 9) &' l99masks32 6 in
    store longs [longsIdx + 2] := l2;
    let l3 := (tmp.[tmpIdx + 3] &' l99masks32 9) <<' 8 in
    let l3 := l3 |' (tmp.[tmpIdx + 4] >>>' 7) &' l99masks32 8 in
    store longs [longsIdx + 3] := l3;
    let l4 := (tmp.[tmpIdx + 4] &' l99masks32 7) <<' 10 in
    let l4 := l4 |' (tmp.[tmpIdx + 5] >>>' 5) &' l99masks32 10 in
    store longs [longsIdx + 4] := l4;
    let l5 := (tmp.[tmpIdx + 5] &' l99masks32 5) <<' 12 in
    let l5 := l5 |' (tmp.[tmpIdx + 6] >>>' 3) &' l99masks32 12 in
    store longs [longsIdx + 5] := l5;
    let l6 := (tmp.[tmpIdx + 6] &' l99masks32 3) <<' 14 in
    let l6 := l6 |' (tmp.[tmpIdx + 7] >>>' 1) &' l99masks32 14 in
    store longs [longsIdx + 6] := l6;
    let l7 := (tmp.[tmpIdx + 7] &' l99masks32 1) <<' 16 in
    let l7 := l7 |' (tmp.[tmpIdx + 8] &' l99masks32 15) <<' 1 in
    let l7 := l7 |' (tmp.[tmpIdx + 9] >>>' 14) &' l99masks32 1 in
    store longs [longsIdx + 7] := l7;
    let l8 := (tmp.[tmpIdx + 9] &' l99masks32 14) <<' 3 in
    let l8 := l8 |' (tmp.[tmpIdx + 10] >>>' 12) &' l99masks32 3 in
    store longs [longsIdx + 8] := l8;
    let l9 := (tmp.[tmpIdx + 10] &' l99masks32 12) <<' 5 in
    let l9 := l9 |' (tmp.[tmpIdx + 11] >>>' 10) &' l99masks32 5 in
    store longs [longsIdx + 9] := l9;
    let l10 := (tmp.[tmpIdx + 11] &' l99masks32 10) <<' 7 in
    let l10 := l10 |' (tmp.[tmpIdx + 12] >>>' 8) &' l99masks32 7 in
    store longs [longsIdx + 10] := l10;
    let l11 := (tmp.[tmpIdx + 12] &' l99masks32 8) <<' 9 in
    let l11 := l11 |' (tmp.[tmpIdx + 13] >>>' 6) &' l99masks32 9 in
    store longs [longsIdx + 11] := l11;
    let l12 := (tmp.[tmpIdx + 13] &' l99masks32 6) <<' 11 in
    let l12 := l12 |' (tmp.[tmpIdx + 14] >>>' 4) &' l99masks32 11 in
    store longs [longsIdx + 12] := l12;
    let l13 := (tmp.[tmpIdx + 14] &' l99masks32 4) <<' 13 in
    let l13 := l13 |' (tmp.[tmpIdx + 15] >>>' 2) &' l99masks32 13 in
    store longs [longsIdx + 13] := l13;
    let l14 := (tmp.[tmpIdx + 15] &' l99masks32 2) <<' 15 in
    let l14 := l14 |' tmp.[tmpIdx + 16] &' l99masks32 15 in
    store longs [longsIdx + 14] := l14;
    Ret longs)%word (bf, s).

Definition l99decode18 (bf : bufs W) (s : I) : M (bufs W * I) :=
  '(bf, s) ← l99readLongs 36 Tmp bf s;
  bf ← l99shiftLongs Tmp 36 Ints 0 14 (l99masks32 18) bf;
  recombine 4 9 36 7 (fun tmp tmpIdx longsIdx longs =>
    let l0 := (tmp.[tmpIdx + 0] &' l99masks32 14) <<' 4 in
    let l0 := l0 |' (tmp.[tmpIdx + 1] >>>' 10) &' l99masks32 4 in
    store longs [longsIdx + 0] := l0;
    let l1 := (tmp.[tmpIdx + 1] &' l99masks32 10) <<' 8 in
    let l1 := l1 |' (tmp.[tmpIdx + 2] >>>' 6) &' l99masks32 8 in
    store longs [longsIdx + 1] := l1;
    let l2 := (tmp.[tmpIdx + 2] &' l99masks32 6) <<' 12 in
    let l2 := l2 |' (tmp.[tmpIdx + 3] >>>' 2) &' l99masks32 12 in
    store longs [longsIdx + 2] := l2;
    let l3 := (tmp.[tmpIdx + 3] &' l99masks32 2) <<' 16 in
    let l3 := l3 |' (tmp.[tmpIdx + 4] &' l99masks32 14) <<' 2 in
    let l3 := l3 |' (tmp.[tmpIdx + 5] >>>' 12) &' l99masks32 2 in
    store longs [longsIdx + 3] := l3;
    let l4 := (tmp.[tmpIdx + 5] &' l99masks32 12) <<' 6 in
    let l4 := l4 |' (tmp.[tmpIdx + 6] >>>' 8) &' l99masks32 6 in
    store longs [longsIdx + 4] := l4;
    let l5 := (tmp.[tmpIdx + 6] &' l99masks32 8) <<' 10 in
    let l5 := l5 |' (tmp.[tmpIdx + 7] >>>' 4) &' l99masks32 10 in
    store longs [longsIdx + 5] := l5;
    let l6 := (tmp.[tmpIdx + 7] &' l99masks32 4) <<' 14 in
    let l6 := l6 |' tmp.[tmpIdx + 8] &' l99masks32 14 in
    store longs [longsIdx + 6] := l6;
    Ret longs)%word (bf, s).

Definition l99decode19 (bf : bufs W) (s : I) : M (bufs W * I) :=
  '(bf, s) ← l99readLongs 38 Tmp bf s;
  bf ← l99shiftLongs Tmp 38 Ints 0 13 (l99masks32 19) bf;
  recombine 2 19 38 13 (fun tmp tmpIdx longsIdx longs =>
    let l0 := (tmp.[tmpIdx + 0] &' l99masks32 13) <<' 6 in
    let l0 := l0 |' (tmp.[tmpIdx + 1] >>>' 7) &' l99masks32 6 in
    store longs [longsIdx + 0] := l0;
    let l1 := (tmp.[tmpIdx + 1] &' l99masks32 7) <<' 12 in
    let l1 := l1 |' (tmp.[tmpIdx + 2] >>>' 1) &' l99masks32 12 in
    store longs [longsIdx + 1] := l1;
    let l2 := (tmp.[tmpIdx + 2] &' l99masks32 1) <<' 18 in
    let l2 := l2 |' (tmp.[tmpIdx + 3] &' l99masks32 13) <<' 5 in
    let l2 := l2 |' (tmp.[tmpIdx + 4] >>>' 8) &' l99masks32 5 in
    store longs [longsIdx + 2] := l2;
    let l3 := (tmp.[tmpIdx + 4] &' l99masks32 8) <<' 11 in
    let l3 := l3 |' (tmp.[tmpIdx + 5] >>>' 2) &' l99masks32 11 in
    store longs [longsIdx + 3] := l3;
    let l4 := (tmp.[tmpIdx + 5] &' l99masks32 2) <<' 17 in
    let l4 := l4 |' (tmp.[tmpIdx + 6] &' l99masks32 13) <<' 4 in
    let l4 := l4 |' (tmp.[tmpIdx + 7] >>>' 9) &' l99masks32 4 in
    store longs [longsIdx + 4] := l4;
    let l5 := (tmp.[tmpIdx + 7] &' l99masks32 9) <<' 10 in
    let l5 := l5 |' (tmp.[tmpIdx + 8] >>>' 3) &' l99masks32 10 in
    store longs [longsIdx + 5] := l5;
    let l6 := (tmp.[tmpIdx + 8] &' l99masks32 3) <<' 16 in
    let l6 := l6 |' (tmp.[tmpIdx + 9] &' l99masks32 13) <<' 3 in
    let l6 := l6 |' (tmp.[tmpIdx + 10] >>>' 10) &' l99masks32 3 in
    store longs [longsIdx + 6] := l6;
    let l7 := (tmp.[tmpIdx + 10] &' l99masks32 10) <<' 9 in
    let l7 := l7 |' (tmp.[tmpIdx + 11] >>>' 4) &' l99masks32 9 in
    store longs [longsIdx + 7] := l7;
    let l8 := (tmp.[tmpIdx + 11] &' l99masks32 4) <<' 15 in
    let l8 := l8 |' (tmp.[tmpIdx + 12] &' l99masks32 13) <<' 2 in
    let l8 := l8 |' (tmp.[tmpIdx + 13] >>>' 11) &' l99masks32 2 in
    store longs [longsIdx + 8] := l8;
    let l9 := (tmp.[tmpIdx + 13] &' l99masks32 11) <<' 8 in
    let l9 := l9 |' (tmp.[tmpIdx + 14] >>>' 5) &' l99masks32 8 in
    store longs [longsIdx + 9] := l9;
    let l10 := (tmp.[tmpIdx + 14] &' l99masks32 5) <<' 14 in
    let l10 := l10 |' (tmp.[tmpIdx + 15] &' l99masks32 13) <<' 1 in
    let l10 := l10 |' (tmp.[tmpIdx + 16] >>>' 12) &' l99masks32 1 in
    store longs [longsIdx + 10] := l10;
    let l11 := (tmp.[tmpIdx + 16] &' l99masks32 12) <<' 7 in
    let l11 := l11 |' (tmp.[tmpIdx + 17] >>>' 6) &' l99masks32 7 in
    store longs [longsIdx + 11] := l11;
    let l12 := (tmp.[tmpIdx + 17] &' l99masks32 6) <<' 13 in
    let l12 := l12 |' tmp.[tmpIdx + 18] &' l99masks32 13 in
    store longs [longsIdx + 12] := l12;
    Ret longs)%word (bf, s).

Definition l99decode20 (bf : bufs W) (s : I) : M (bufs W * I) :=
  '(bf, s) ← l99readLongs 40 Tmp bf s;
  bf ← l99shiftLongs Tmp 40 Ints 0 12 (l99masks32 20) bf;
  recombine 8 5 40 3 (fun tmp tmpIdx longsIdx longs =>
    let l0 := (tmp.[tmpIdx + 0] &' l99masks32 12) <<' 8 in
    let l0 := l0 |' (tmp.[tmpIdx + 1] >>>' 4) &' l99masks32 8 in
    store longs [longsIdx + 0] := l0;
    let l1 := (tmp.[tmpIdx + 1] &' l99masks32 4) <<' 16 in
    let l1 := l1 |' (tmp.[tmpIdx + 2] &' l99masks32 12) <<' 4 in
    let l1 := l1 |' (tmp.[tmpIdx + 3] >>>' 8) &' l99masks32 4 in
    store longs [longsIdx + 1] := l1;
    let l2 := (tmp.[tmpIdx + 3] &' l99masks32 8) <<' 12 in
    let l2 := l2 |' tmp.[tmpIdx + 4] &' l99masks32 12 in
    store longs [longsIdx + 2] := l2;
    Ret longs)%word (bf, s).

Definition l99decode21 (bf : bufs W) (s : I) : M (bufs W * I) :=
  '(bf, s) ← l99readLongs 42 Tmp bf s;
  bf ← l99shiftLongs Tmp 42 Ints 0 11 (l99masks32 21) bf;
  recombine 2 21 42 11 (fun tmp tmpIdx longsIdx longs =>
    let l0 := (tmp.[tmpIdx + 0] &' l99masks32 11) <<' 10 in
    let l0 := l0 |' (tmp.[tmpIdx + 1] >>>' 1) &' l99masks32 10 in
    store longs [longsIdx + 0] := l0;
    let l1 := (tmp.[tmpIdx + 1] &' l99masks32 1) <<' 20 in
    let l1 := l1 |' (tmp.[tmpIdx + 2] &' l99masks32 11) <<' 9 in
    let l1 := l1 |' (tmp.[tmpIdx + 3] >>>' 2) &' l99masks32 9 in
    store longs [longsIdx + 1] := l1;
    let l2 := (tmp.[tmpIdx + 3] &' l99masks32 2) <<' 19 in
    let l2 := l2 |' (tmp.[tmpIdx + 4] &' l99masks32 11) <<' 8 in
    let l2 := l2 |' (tmp.[tmpIdx + 5] >>>' 3) &' l99masks32 8 in
    store longs [longsIdx + 2] := l2;
    let l3 := (tmp.[tmpIdx + 5] &' l99masks32 3) <<' 18 in
    let l3 := l3 |' (tmp.[tmpIdx + 6] &' l99masks32 11) <<' 7 in
    let l3 := l3 |' (tmp.[tmpIdx + 7] >>>' 4) &' l99masks32 7 in
    store longs [longsIdx + 3] := l3;
    let l4 := (tmp.[tmpIdx + 7] &' l99masks32 4) <<' 17 in
    let l4 := l4 |' (tmp.[tmpIdx + 8] &' l99masks32 11) <<' 6 in
    let l4 := l4 |' (tmp.[tmpIdx + 9] >>>' 5) &' l99masks32 6 in
    store longs [longsIdx + 4] := l4;
    let l5 := (tmp.[tmpIdx + 9] &' l99masks32 5) <<' 16 in
    let l5 := l5 |' (tmp.[tmpIdx + 10] &' l99masks32 11) <<' 5 in
    let l5 := l5 |' (tmp.[tmpIdx + 11] >>>' 6) &' l99masks32 5 in
    store longs [longsIdx + 5] := l5;
    let l6 := (tmp.[tmpIdx + 11] &' l99masks32 6) <<' 15 in
    let l6 := l6 |' (tmp.[tmpIdx + 12] &' l99masks32 11) <<' 4 in
    let l6 := l6 |' (tmp.[tmpIdx + 13] >>>' 7) &' l99masks32 4 in
    store longs [longsIdx + 6] := l6;
    let l7 := (tmp.[tmpIdx + 13] &' l99masks32 7) <<' 14 in
    let l7 := l7 |' (tmp.[tmpIdx + 14] &' l99masks32 11) <<' 3 in
    let l7 := l7 |' (tmp.[tmpIdx + 15] >>>' 8) &' l99masks32 3 in
    store longs [longsIdx + 7] := l7;
    let l8 := (tmp.[tmpIdx + 15] &' l99masks32 8) <<' 13 in
    let l8 := l8 |' (tmp.[tmpIdx + 16] &' l99masks32 11) <<' 2 in
    let l8 := l8 |' (tmp.[tmpIdx + 17] >>>' 9) &' l99masks32 2 in
    store longs [longsIdx + 8] := l8;
    let l9 := (tmp.[tmpIdx + 17] &' l99masks32 9) <<' 12 in
    let l9 := l9 |' (tmp.[tmpIdx + 18] &' l99masks32 11) <<' 1 in
    let l9 := l9 |' (tmp.[tmpIdx + 19] >>>' 10) &' l99masks32 1 in
    store longs [longsIdx + 9] := l9;
    let l10 := (tmp.[tmpIdx + 19] &' l99masks32 10) <<' 11 in
    let l10 := l10 |' tmp.[tmpIdx + 20] &' l99masks32 11 in
    store longs [longsIdx + 10] := l10;
    Ret longs)%word (bf, s).

Definition l99decode22 (bf : bufs W) (s : I) : M (bufs W * I) :=
  '(bf, s) ← l99readLongs 44 Tmp bf s;
  bf ← l99shiftLongs Tmp 44 Ints 0 10 (l99masks32 22) bf;
  recombine 4 11 44 5 (fun tmp tmpIdx longsIdx longs =>
    let l0 := (tmp.[tmpIdx + 0] &' l99masks32 10) <<' 12 in
    let l0 := l0 |' (tmp.[tmpIdx + 1] &' l99masks32 10) <<' 2 in
    let l0 := l0 |' (tmp.[tmpIdx + 2] >>>' 8) &' l99masks32 2 in
    store longs [longsIdx + 0] := l0;
    let l1 := (tmp.[tmpIdx + 2] &' l99masks32 8) <<' 14 in
    let l1 := l1 |' (tmp.[tmpIdx + 3] &' l99masks32 10) <<' 4 in
    let l1 := l1 |' (tmp.[tmpIdx + 4] >>>' 6) &' l99masks32 4 in
    store longs [longsIdx + 1] := l1;
    let l2 := (tmp.[tmpIdx + 4] &' l99masks32 6) <<' 16 in
    let l2 := l2 |' (tmp.[tmpIdx + 5] &' l99masks32 10) <<' 6 in
    let l2 := l2 |' (tmp.[tmpIdx + 6] >>>' 4) &' l99masks32 6 in
    store longs [longsIdx + 2] := l2;
    let l3 := (tmp.[tmpIdx + 6] &' l99masks32 4) <<' 18 in
    let l3 := l3 |' (tmp.[tmpIdx + 7] &' l99masks32 10) <<' 8 in
    let l3 := l3 |' (tmp.[tmpIdx + 8] >>>' 2) &' l99masks32 8 in
    store longs [longsIdx + 3] := l3;
    let l4 := (tmp.[tmpIdx + 8] &' l99masks32 2) <<' 20 in
    let l4 := l4 |' (tmp.[tmpIdx + 9] &' l99masks32 10) <<' 10 in
    let l4 := l4 |' tmp.[tmpIdx + 10] &' l99masks32 10 in
    store longs [longsIdx + 4] := l4;
    Ret longs)%word (bf, s).

Definition l99decode23 (bf : bufs W) (s : I) : M (bufs W * I) :=
  '(bf, s) ← l99readLongs 46 Tmp bf s;
  bf ← l99shiftLongs Tmp 46 Ints 0 9 (l99masks32 23) bf;
  recombine 2 23 46 9 (fun tmp tmpIdx longsIdx longs =>
    let l0 := (tmp.[tmpIdx + 0] &' l99masks32 9) <<' 14 in
    let l0 := l0 |' (tmp.[tmpIdx + 1] &' l99masks32 9) <<' 5 in
    let l0 := l0 |' (tmp.[tmpIdx + 2] >>>' 4) &' l99masks32 5 in
    store longs [longsIdx + 0] := l0;
    let l1 := (tmp.[tmpIdx + 2] &' l99masks32 4) <<' 19 in
    let l1 := l1 |' (tmp.[tmpIdx + 3] &' l99masks32 9) <<' 10 in
    let l1 := l1 |' (tmp.[tmpIdx + 4] &' l99masks32 9) <<' 1 in
    let l1 := l1 |' (tmp.[tmpIdx + 5] >>>' 8) &' l99masks32 1 in
    store longs [longsIdx + 1] := l1;
    let l2 := (tmp.[tmpIdx + 5] &' l99masks32 8) <<' 15 in
    let l2 := l2 |' (tmp.[tmpIdx + 6] &' l99masks32 9) <<' 6 in
    let l2 := l2 |' (tmp.[tmpIdx + 7] >>>' 3) &' l99masks32 6 in
    store longs [longsIdx + 2] := l2;
    let l3 := (tmp.[tmpIdx + 7] &' l99masks32 3) <<' 20 in
    let l3 := l3 |' (tmp.[tmpIdx + 8] &' l99masks32 9) <<' 11 in
    let l3 := l3 |' (tmp.[tmpIdx + 9] &' l99masks32 9) <<' 2 in
    let l3 := l3 |' (tmp.[tmpIdx + 10] >>>' 7) &' l99masks32 2 in
    store longs [longsIdx + 3] := l3;
    let l4 := (tmp.[tmpIdx + 10] &' l99masks32 7) <<' 16 in
    let l4 := l4 |' (tmp.[tmpIdx + 11] &' l99masks32 9) <<' 7 in
    let l4 := l4 |' (tmp.[tmpIdx + 12] >>>' 2) &' l99masks32 7 in
    store longs [longsIdx + 4] := l4;
    let l5 := (tmp.[tmpIdx + 12] &' l99masks32 2) <<' 21 in
    let l5 := l5 |' (tmp.[tmpIdx + 13] &' l99masks32 9) <<' 12 in
    let l5 := l5 |' (tmp.[tmpIdx + 14] &' l99masks32 9) <<' 3 in
    let l5 := l5 |' (tmp.[tmpIdx + 15] >>>' 6) &' l99masks32 3 in
    store longs [longsIdx + 5] := l5;
    let l6 := (tmp.[tmpIdx + 15] &' l99masks32 6) <<' 17 in
    let l6 := l6 |' (tmp.[tmpIdx + 16] &' l99masks32 9) <<' 8 in
    let l6 := l6 |' (tmp.[tmpIdx + 17] >>>' 1) &' l99masks32 8 in
    store longs [longsIdx + 6] := l6;
    let l7 := (tmp.[tmpIdx + 17] &' l99masks32 1) <<' 22 in
    let l7 := l7 |' (tmp.[tmpIdx + 18] &' l99masks32 9) <<' 13 in
    let l7 := l7 |' (tmp.[tmpIdx + 19] &' l99masks32 9) <<' 4 in
    let l7 := l7 |' (tmp.[tmpIdx + 20] >>>' 5) &' l99masks32 4 in
    store longs [longsIdx + 7] := l7;
    let l8 := (tmp.[tmpIdx + 20] &' l99masks32 5) <<' 18 in
    let l8 := l8 |' (tmp.[tmpIdx + 21] &' l99masks32 9) <<' 9 in
    let l8 := l8 |' tmp.[tmpIdx + 22] &' l99masks32 9 in
    store longs [longsIdx + 8] := l8;
    Ret longs)%word (bf, s).

Definition l99decode24 (bf : bufs W) (s : I) : M (bufs W * I) :=
  '(bf, s) ← l99readLongs 48 Tmp bf s;
  bf ← l99shiftLongs Tmp 48 Ints 0 8 (l99masks32 24) bf;
  bf ← l99shiftLongs Tmp 48 Tmp 0 0 (l99masks32 8) bf;
  recombine 16 3 48 1 (fun tmp tmpIdx longsIdx longs =>
    let l0 := tmp.[tmpIdx + 0] <<' 16 in
    let l0 := l0 |' tmp.[tmpIdx + 1] <<' 8 in
    let l0 := l0 |' tmp.[tmpIdx + 2] in
    store longs [longsIdx + 0] := l0;
    Ret longs)%word (bf, s).

(** The switch of [decode]. *)
Definition l99decode_block (bitsPerValue : Z) (f : bufs W) (s : I) : M (bufs W * I) :=
  match bitsPerValue with
  | 1 => then_expand l99expand8 (l99decode1 f s)
  | 2 => then_expand l99expand8 (l99decode2 f s)
  | 3 => then_expand l99expand8 (l99decode3 f s)
  | 4 => then_expand l99expand8 (l99decode4 f s)
  | 5 => then_expand l99expand8 (l99decode5 f s)
  | 6 => then_expand l99expand8 (l99decode6 f s)
  | 7 => then_expand l99expand8 (l99decode7 f s)
  | 8 => then_expand l99expand8 (l99decode8 f s)
  | 9 => then_expand l99expand16 (l99decode9 f s)
  | 10 => then_expand l99expand16 (l99decode10 f s)
  | 11 => then_expand l99expand16 (l99decode11 f s)
  | 12 => then_expand l99expand16 (l99decode12 f s)
  | 13 => then_expand l99expand16 (l99decode13 f s)
  | 14 => then_expand l99expand16 (l99decode14 f s)
  | 15 => then_expand l99expand16 (l99decode15 f s)
  | 16 => then_expand l99expand16 (l99decode16 f s)
  | 17 => then_expand l99expand32 (l99decode17 f s)
  | 18 => then_expand l99expand32 (l99decode18 f s)
  | 19 => then_expand l99expand32 (l99decode19 f s)
  | 20 => then_expand l99expand32 (l99decode20 f s)
  | 21 => then_expand l99expand32 (l99decode21 f s)
  | 22 => then_expand l99expand32 (l99decode22 f s)
  | 23 => then_expand l99expand32 (l99decode23 f s)
  | 24 => then_expand l99expand32 (l99decode24 f s)
  | _ => then_expand l99expand32 (l99decodeSlow bitsPerValue f s)
  end.
End Decode.
End ForUtil99.

(** [l99encode_block] with the buffers of a block codec; the destination array
    of the decoder is not touched. *)
Definition l99_on_bufs {W O} (enc : list W → O → M (list W * O)) (f : bufs W) (out : O)
  : M (bufs W * O) :=
  '(tmp, out) ← enc (b_tmp f) out; mret (mk_bufs (b_ints f) tmp, out).

(** * The definitions preserve the relation between words *)

Section Rel.
Context {W1 W2 : Type} {H1 : Word W1} {H2 : Word W2} {RW : RelOf W1 W2}.
Context (HR : word_rel H1 H2 rel_of).

Lemma l99masks8_rel i : go_rel rel_of (l99masks8 i) (l99masks8 i).
Proof using HR. by apply masks_rel. Qed.
Lemma l99masks16_rel i : go_rel rel_of (l99masks16 i) (l99masks16 i).
Proof using HR. by apply masks_rel. Qed.
Lemma l99masks32_rel i : go_rel rel_of (l99masks32 i) (l99masks32 i).
Proof using HR. by apply masks_rel. Qed.
#[local] Hint Resolve l99masks8_rel l99masks16_rel l99masks32_rel : rel.

Lemma l99masks_of_rel p i : go_rel rel_of (l99masks_of p i) (l99masks_of p i).
Proof using HR. unfold l99masks_of. rel. Qed.

Lemma l99collapse8_rel a b : rel_of a b → go_rel rel_of (l99collapse8 a) (l99collapse8 b).
Proof using HR. intros. unfold l99collapse8. rel. Qed.
Lemma l99collapse16_rel a b : rel_of a b → go_rel rel_of (l99collapse16 a) (l99collapse16 b).
Proof using HR. intros. unfold l99collapse16. rel. Qed.
Lemma l99collapse32_rel a b : rel_of a b → go_rel rel_of (l99collapse32 a) (l99collapse32 b).
Proof using HR. intros. unfold l99collapse32. rel. Qed.
Lemma l99expand8_rel a b : rel_of a b → go_rel rel_of (l99expand8 a) (l99expand8 b).
Proof using HR. intros. unfold l99expand8. rel. Qed.
Lemma l99expand16_rel a b : rel_of a b → go_rel rel_of (l99expand16 a) (l99expand16 b).
Proof using HR. intros. unfold l99expand16. rel. Qed.
Lemma l99expand32_rel a b : rel_of a b → go_rel rel_of (l99expand32 a) (l99expand32 b).
Proof using HR. intros. unfold l99expand32. rel. Qed.
#[local] Hint Resolve l99collapse8_rel l99collapse16_rel l99collapse32_rel : rel.

Section EncodeRel.
Context {O1 O2 : Type} {RO : RelOf O1 O2}.
Context (wr1 : W1 → O1 → M O1) (wr2 : W2 → O2 → M O2).
Hypothesis wr_rel : ∀ a b o p, rel_of a b → rel_of o p → go_rel rel_of (wr1 a o) (wr2 b p).

Lemma l99encode_longs_rel a b t u bpv p n o q : rel_of a b → rel_of t u → rel_of o q →
  go_rel rel_of
    (encode_longs wr1 l99masks_of (fun v n => v >>>' n)%word a t bpv p n o)
    (encode_longs wr2 l99masks_of (fun v n => v >>>' n)%word b u bpv p n q).
Proof using HR wr_rel.
  intros. apply encode_longs_rel; [done..| | |done|done|done].
  - intros. by apply l99masks_of_rel.
  - intros. rel.
Qed.
#[local] Hint Resolve l99encode_longs_rel : rel.

Lemma l99encode_block_rel t u a b bpv o q : rel_of t u → rel_of a b → rel_of o q →
  go_rel rel_of (l99encode_block wr1 t a bpv o) (l99encode_block wr2 u b bpv q).
Proof using HR wr_rel.
  intros Ht Hab Ho. unfold l99encode_block. rewrite (Forall2_length _ _ _ Hab).
  rel; eauto 6 with rel.
Qed.

Lemma l99_layout_rel t u a b bpv o q : rel_of t u → rel_of a b → rel_of o q →
  go_rel rel_of (l99_layout wr1 t a bpv o) (l99_layout wr2 u b bpv q).
Proof using HR wr_rel.
  intros Ht Hab Ho. unfold l99_layout. destruct (bpv <=? 16).
  - by apply l99encode_block_rel.
  - rel; eauto 6 with rel.
Qed.
End EncodeRel.

Section DecodeRel.
Context {I1 I2 : Type} {RI : RelOf I1 I2}.
Context (rd1 : Z → I1 → M (list W1 * I1)) (rd2 : Z → I2 → M (list W2 * I2)).
Hypothesis rd_rel : ∀ n s t, 0 ≤ n → rel_of s t → go_rel rel_of (rd1 n s) (rd2 n t).

Lemma l99readLongs_rel n c a b s t : 0 ≤ n → rel_of a b → rel_of s t →
  go_rel rel_of (l99readLongs rd1 n c a s) (l99readLongs rd2 n c b t).
Proof using rd_rel.
  intros. unfold l99readLongs. apply (go_rel_bind rel_of); [by apply rd_rel|intros ? ? ?]. rel.
Qed.

Lemma l99shiftLongs_rel a n b bi sh m1 m2 f g : go_rel rel_of m1 m2 → rel_of f g →
  go_rel rel_of (l99shiftLongs a n b bi sh m1 f) (l99shiftLongs a n b bi sh m2 g).
Proof using HR. intros. unfold l99shiftLongs. rel. Qed.

Lemma l99decodeSlow_rel bpv a b s t : 0 ≤ bpv → rel_of a b → rel_of s t →
  go_rel rel_of (l99decodeSlow rd1 bpv a s) (l99decodeSlow rd2 bpv b t).
Proof using HR rd_rel.
  intros Hb Hab Hst. unfold l99decodeSlow.
  apply (go_rel_bind rel_of);
    [apply l99readLongs_rel; [by apply Z.shiftl_nonneg|done..]|intros ? ? ?].
  rel; eauto using l99shiftLongs_rel, go_rel_ret with rel.
  apply recombine_slow_rel; [done|intros; by apply l99masks32_rel|rel..].
Qed.

Ltac rel_decode99 :=
  unfold l99decode1, l99decode2, l99decode3, l99decode4, l99decode5, l99decode6,
    l99decode7, l99decode8, l99decode9, l99decode10, l99decode11, l99decode12,
    l99decode13, l99decode14, l99decode15, l99decode16, l99decode17, l99decode18,
    l99decode19, l99decode20, l99decode21, l99decode22, l99decode23, l99decode24;
  repeat match goal with
  | |- go_rel _ (l99readLongs _ _ _ _ _) _ => apply l99readLongs_rel; [lia|rel..]
  | |- go_rel _ (l99shiftLongs _ _ _ _ _ _ _) _ => apply l99shiftLongs_rel; rel
  | |- go_rel _ (recombine _ _ _ _ _ _) _ => apply recombine_rel; [intros; rel|rel]
  | |- go_rel _ (mret _) _ => apply go_rel_ret; rel
  | |- go_rel _ (mbind _ _) _ => apply (go_rel_bind rel_of); [|intros ? ? ?; repeat rel_intro]
  end.

Lemma l99decode_block_rel bpv a b s t : 0 ≤ bpv → rel_of a b → rel_of s t →
  go_rel rel_of (l99decode_block rd1 bpv a s) (l99decode_block rd2 bpv b t).
Proof using HR rd_rel.
  intros Hb Hab Hst. unfold l99decode_block.
  repeat match goal with |- go_rel _ (match ?x with _ => _ end) _ => destruct x end;
    match goal with
    | |- go_rel _ (then_expand l99expand8 _) _ =>
        apply then_expand_rel; [intros; by apply l99expand8_rel|]
    | |- go_rel _ (then_expand l99expand16 _) _ =>
        apply then_expand_rel; [intros; by apply l99expand16_rel|]
    | |- go_rel _ (then_expand l99expand32 _) _ =>
        apply then_expand_rel; [intros; by apply l99expand32_rel|]
    end;
    match goal with
    | |- go_rel _ (l99decodeSlow _ _ _ _) _ => apply l99decodeSlow_rel; [lia|done..]
    | _ => rel_decode99
    end.
Qed.
End DecodeRel.
End Rel.

(** * [int64] blocks on byte streams *)

Section Streams99.
Context {O I : Type} `{DataOutput O} `{DataInput I}.

(** A [lucene99ForUtil] is its scratch buffer. *)
Definition newLucene99ForUtil : list Z := repeat 0 (Z.to_nat (Z.quot lucene99BlockSize 2)).

Definition l99Encode (tmp ints : list Z) (bitsPerValue : Z) (out : O) : M (list Z * O) :=
  l99encode_block (H := int_word 64) write_be64 tmp ints bitsPerValue out.

Definition l99Decode (bitsPerValue : Z) (f : bufs Z) (inp : I) : M (bufs Z * I) :=
  if Z.of_nat (length (b_ints f)) <? lucene99BlockSize
  then Err (Errorf "lucene99 ForUtil.decode: longs must have at least 128 elements") else
  l99decode_block (H := int_word 64) read_be64s bitsPerValue f inp.
End Streams99.

Definition l99_check (bpv : Z) : bool :=
  sym_check 64 lucene99BlockSize 64 bpv (Z.to_nat (2 * bpv))
    (fun f xs o => l99_on_bufs (fun t o =>
       l99_layout (H := sym_word 64) (sym_wr (Z.to_nat (2 * bpv))) t xs bpv o) f o)
    (fun f s => l99decode_block (H := sym_word 64) sym_rdn bpv f s).

Lemma l99_check_all : forallb (fun bpv => (bpv =? 4) || l99_check bpv) (seqZ 1 31) = true.
Proof. vm_compute. reflexivity. Qed.

(** The destination array and the scratch buffer. *)
Abbreviation for99_ok := (bufs_ok 64 lucene99BlockSize 64).

Lemma l99_codec {O I : Type} `{DataOutputLaws O} `{DataInputLaws I} bpv xs :
  1 ≤ bpv ≤ 31 → bpv ≠ 4 → Z.of_nat (length xs) = lucene99BlockSize → Forall (in_uint bpv) xs →
  ∃ bs, Z.of_nat (length bs) = l99forNumBytes bpv ∧
    block_codec for99_ok
      (l99_on_bufs (fun t (o : O) => l99_layout (H := int_word 64) write_be64 t xs bpv o))
      (fun f (s : I) => l99Decode bpv f s) (fun f => b_ints f = xs) bs.
Proof.
  intros Hb H4 Hl Hxs.
  assert (Hc : l99_check bpv = true).
  { pose proof (widths_check _ bpv l99_check_all Hb) as Hc. simpl in Hc.
    by rewrite (proj2 (Z.eqb_neq bpv 4)) in Hc. }
  destruct (sym_codec (O := O) (I := I) 64 be64_enc 8
    (fun _ => be64_put_length _) (fun _ => be64_put_bytes _) lucene99BlockSize 64 bpv
    (Z.to_nat (2 * bpv)) xs
    (fun f xs o => l99_on_bufs (fun t o =>
       l99_layout (H := sym_word 64) (sym_wr (Z.to_nat (2 * bpv))) t xs bpv o) f o)
    (fun f s => l99decode_block (H := sym_word 64) sym_rdn bpv f s)
    (fun f xs o => l99_on_bufs (fun t (o : O) =>
       l99_layout (H := int_word 64) write_be64 t xs bpv o) f o)
    (fun f s => l99decode_block (H := int_word 64) read_be64s bpv f s))
    as (bs & Hbl & Hby & He & Hd); [lia|done..| | |exact Hc|].
  - intros env n v0 RO a b c d o p Hab Hcd Ho. unfold l99_on_bufs. destruct Hab as [Hi Ht].
    apply (go_rel_bind (@rel_of _ _ (@rel_of_pair _ _ _ _ (@rel_of_list _ _ (sym_rel env 64)) RO))).
    + apply (l99_layout_rel (sym_word_rel env 64 ltac:(lia)) (RO := RO)); [|done..].
      intros. apply (sym_wr_rel env 64 _ 8 (fun _ => be64_put_length _)); [|done..].
      intros. apply write_be64_emits.
    + intros [t1 o1] [t2 o2] [Ht' Ho']. apply go_rel_ret. split; [|done]. by split.
  - intros. apply (l99decode_block_rel (sym_word_rel env 64 ltac:(lia)) (RI := RI)); [|lia|done..].
    intros. by apply sym_rdn_rel.
  - exists bs. split; [|split; [done|split; [done|]]].
    + rewrite Hbl. unfold l99forNumBytes, lucene99BlockSizeLog2.
      rewrite Z.shiftl_mul_pow2 by lia. change (2 ^ (7 - 3)) with 16. lia.
    + intros f s rest Hf Hs. unfold l99Decode. rewrite (proj1 Hf). by apply Hd.
Qed.

(** The 9.9 decoder inverts the 9.9 layout: for every width from 1 to 31
    bits but 4, and every block of 128 values below [2^bpv], the
    [l99forNumBytes bpv] bytes of the layout are decoded to the block, whatever
    the scratch buffer and the destination held; and up to 16 bits the layout
    is what [encode] writes. *)
Theorem Lucene99_decode_layout {O I : Type} `{DataOutputLaws O} `{DataInputLaws I} bpv xs :
  1 ≤ bpv ≤ 31 → bpv ≠ 4 → Z.of_nat (length xs) = lucene99BlockSize → Forall (in_uint bpv) xs →
  (bpv ≤ 16 → ∀ t (o : O),
     l99Encode t xs bpv o = l99_layout (H := int_word 64) write_be64 t xs bpv o)
  ∧ ∃ bs, Z.of_nat (length bs) = l99forNumBytes bpv ∧
    block_codec for99_ok
      (l99_on_bufs (fun t (o : O) => l99_layout (H := int_word 64) write_be64 t xs bpv o))
      (fun f (s : I) => l99Decode bpv f s) (fun f => b_ints f = xs) bs.
Proof.
  intros Hb H4 Hl Hxs. split; [|by apply l99_codec].
  intros H16 t o. unfold l99_layout. by rewrite (proj2 (Z.leb_le bpv 16)).
Qed.

Lemma Lucene99_decode_layout_witness :
  let xs := map (fun i => i mod 29) (seqZ 0 128) in
  ∃ bs, Z.of_nat (length bs) = 80 ∧
    block_codec for99_ok
      (l99_on_bufs (fun t (o : ByteArrayDataOutput) =>
         l99_layout (H := int_word 64) write_be64 t xs 5 o))
      (fun f (s : ByteArrayDataInput) => l99Decode 5 f s) (fun f => b_ints f = xs) bs.
Proof.
  intros xs. apply (Lucene99_decode_layout (O := ByteArrayDataOutput) (I := ByteArrayDataInput) 5 xs);
    [done|done|by vm_compute|]. apply in_uints_check. vm_compute. reflexivity.
Defined.

(** A block written by [encode] into a fresh array and read back by [decode]. *)
Definition l99_write_read (bpv : Z) (xs : list Z) : M (list Z) :=
  let n := l99forNumBytes bpv in
  '(tmp, out) ← l99Encode newLucene99ForUtil xs bpv (bo_reset (repeat 0 (Z.to_nat n)) 0 n);
  '(f, _) ← l99Decode bpv (mk_bufs (repeat 0 (Z.to_nat lucene99BlockSize)) tmp)
              (bi_reset (bo_bytes out) 0 n);
  mret (b_ints f).

Definition l99_sample : list Z := map (fun i => i mod 16) (seqZ 0 128).

Lemma l99_lossy_all :
  forallb (fun bpv => match l99_write_read bpv l99_sample with
                      | Ret ys => negb (list_eqb Z.eqb ys l99_sample) | _ => false end)
    (4 :: seqZ 17 15) = true.
Proof. vm_compute. reflexivity. Qed.

(** At 4 bits and from 17 bits on, what [encode] writes is not what
    [decode] reads back: a block of values below 16 comes back changed, without
    an error.  ([l99decode4] overwrites the words it still has to split, and
    [encode] leaves out [l99collapse32].) *)
Theorem Lucene99_lossy bpv : bpv = 4 ∨ 17 ≤ bpv ≤ 31 →
  Forall (in_uint bpv) l99_sample ∧
  ∃ ys, l99_write_read bpv l99_sample = Ret ys ∧ ys ≠ l99_sample.
Proof.
  intros Hb. split.
  - apply (Forall_impl (in_uint 4)); [apply in_uints_check; vm_compute; reflexivity|].
    intros x. apply in_uint_mono. lia.
  - pose proof l99_lossy_all as Ha. rewrite forallb_forall in Ha.
    assert (Hin : List.In bpv (4 :: seqZ 17 15)).
    { destruct Hb as [->|Hb]; [by left|right]. apply list_elem_of_In, elem_of_seqZ. lia. }
    specialize (Ha bpv Hin). cbv beta in Ha. revert Ha.
    destruct (l99_write_read bpv l99_sample) as [ys| | |]; try done. intros Hn.
    exists ys. split; [done|]. intros ->. apply negb_true_iff in Hn.
    assert (Ht : list_eqb Z.eqb l99_sample l99_sample = true) by (vm_compute; reflexivity).
    congruence.
Qed.

Lemma Lucene99_lossy_witness :
  ∃ ys, l99_write_read 4 l99_sample = Ret ys ∧ ys ≠ l99_sample.
Proof. apply (Lucene99_lossy 4). left. reflexivity. Defined.
