(* ===== verification/ForUtil912.v ===== *)
(** Frame-of-reference coding of the 9.12 format, blocks of 128 integers on
    64-bit words: [backward_codecs/lucene912/lucene912_for_util.go]. *)

From stdpp Require Import base tactics numbers list strings.
From Stdlib Require Import ZArith Lia.
From S2P Require Import Prelude DataIO Words SymRun ForUtil LongPack.

Local Open Scope Z_scope.

Definition BlockSize : Z := 128.
Definition BlockSizeLog2 : Z := 7.

Definition forUtilNumBytes (bitsPerValue : Z) : Z := Z.shiftl bitsPerValue (BlockSizeLog2 - 3).

(** * Masks *)

Definition forUtilMask32 (bitsPerValue : Z) : Z :=
  expandMask32_64 (go_shl 64 1 bitsPerValue - 1).
Definition forUtilMask16 (bitsPerValue : Z) : Z :=
  expandMask16_64 (go_shl 64 1 bitsPerValue - 1).
Definition forUtilMask8 (bitsPerValue : Z) : Z :=
  expandMask8_64 (go_shl 64 1 bitsPerValue - 1).

(** The tables filled by [init]. *)
Definition fuMASKS8_table : list Z := map forUtilMask8 (seqZ 0 8).
Definition fuMASKS16_table : list Z := map forUtilMask16 (seqZ 0 16).
Definition fuMASKS32_table : list Z := map forUtilMask32 (seqZ 0 32).

Section ForUtil912.
Context {W : Type} `{Word W}.

(** [fuMASKS8[i]], also under the name [fuMASK8_i] in the code. *)
Definition fuMASKS8 (i : Z) : M W := m ← aget fuMASKS8_table i; Ret (w_lit m).
Definition fuMASKS16 (i : Z) : M W := m ← aget fuMASKS16_table i; Ret (w_lit m).
Definition fuMASKS32 (i : Z) : M W := m ← aget fuMASKS32_table i; Ret (w_lit m).

(** [switch primitiveSize] of the encoder *)
Definition fuMASKS_of (primitiveSize i : Z) : M W :=
  if primitiveSize =? 8 then fuMASKS8 i
  else if primitiveSize =? 16 then fuMASKS16 i else fuMASKS32 i.

(** ** Collapse and expand *)

Definition forUtilExpand8 (arr : list W) : M (list W) :=
  go_for 16 0 (fun i arr =>
    let l := arr.[i] in
    store arr [i] := (l >>' 56) &' #255;
    store arr [16 + i] := (l >>' 48) &' #255;
    store arr [32 + i] := (l >>' 40) &' #255;
    store arr [48 + i] := (l >>' 32) &' #255;
    store arr [64 + i] := (l >>' 24) &' #255;
    store arr [80 + i] := (l >>' 16) &' #255;
    store arr [96 + i] := (l >>' 8) &' #255;
    store arr [112 + i] := l &' #255;
    Ret arr)%word arr.

Definition forUtilCollapse8 (arr : list W) : M (list W) :=
  go_for 16 0 (fun i arr =>
    store arr [i] := (arr.[i] <<' 56) |' (arr.[16 + i] <<' 48) |' (arr.[32 + i] <<' 40)
      |' (arr.[48 + i] <<' 32) |' (arr.[64 + i] <<' 24) |' (arr.[80 + i] <<' 16)
      |' (arr.[96 + i] <<' 8) |' arr.[112 + i];
    Ret arr)%word arr.

Definition forUtilExpand16 (arr : list W) : M (list W) :=
  go_for 32 0 (fun i arr =>
    let l := arr.[i] in
    store arr [i] := (l >>' 48) &' #65535;
    store arr [32 + i] := (l >>' 32) &' #65535;
    store arr [64 + i] := (l >>' 16) &' #65535;
    store arr [96 + i] := l &' #65535;
    Ret arr)%word arr.

Definition forUtilCollapse16 (arr : list W) : M (list W) :=
  go_for 32 0 (fun i arr =>
    store arr [i] := (arr.[i] <<' 48) |' (arr.[32 + i] <<' 32) |' (arr.[64 + i] <<' 16)
      |' arr.[96 + i];
    Ret arr)%word arr.

Definition forUtilExpand32 (arr : list W) : M (list W) :=
  go_for 64 0 (fun i arr =>
    let l := arr.[i] in
    store arr [i] := l >>>' 32;
    store arr [64 + i] := l &' #4294967295;
    Ret arr)%word arr.

Definition forUtilCollapse32 (arr : list W) : M (list W) :=
  go_for 64 0 (fun i arr =>
    store arr [i] := (arr.[i] <<' 32) |' arr.[64 + i];
    Ret arr)%word arr.

(** ** Encode

    The caller's array [longs] is collapsed in place. *)
Section Encode.
Context {O : Type} (wr : W → O → M O).

Definition forUtilEncodeInternal (longs : list W) (bitsPerValue primitiveSize : Z) (tmp : list W)
    (out : O) : M (list W * O) :=
  encode_longs wr fuMASKS_of (fun v n => v >>' n)%word longs tmp bitsPerValue primitiveSize
    (Z.quot (BlockSize * primitiveSize) 64) out.

Definition forUtil_encode (tmp longs : list W) (bitsPerValue : Z) (out : O) : M (bufs W * O) :=
  '(longs, nextPrimitive) ←
    (if bitsPerValue <=? 8 then a ← forUtilCollapse8 longs; mret (a, 8)
     else if bitsPerValue <=? 16 then a ← forUtilCollapse16 longs; mret (a, 16)
     else a ← forUtilCollapse32 longs; mret (a, 32));
  '(tmp, out) ← forUtilEncodeInternal longs bitsPerValue nextPrimitive tmp out;
  mret (mk_bufs longs tmp, out).
End Encode.

(** ** Decode

    [b_ints] is the caller's array [longs], [b_tmp] the scratch array. *)
Section Decode.
Context {I : Type} (rd : I → M (W * I)).

(** The word [c[cIndex+i]] is masked after its own pieces are stored: when
    [b] and [c] are the same array the order matters. *)
Definition forUtilSplitLongs (count : Z) (b : buffer) (bShift dec : Z) (bMask : M W)
    (c : buffer) (cIndex : Z) (cMask : M W) (bf : bufs W) (s : I) : M (bufs W * I) :=
  bMask ← bMask;
  cMask ← cMask;
  '(bf, s) ← read_words rd count c cIndex bf s;
  let maxIter := Z.quot (bShift - 1) dec in
  bf ← go_for (Z.to_nat count) 0 (fun i bf =>
    bf ← go_for (Z.to_nat (maxIter + 1)) 0 (fun j bf =>
      v ← buf_get c (cIndex + i) bf;
      buf_set b (count * j + i) (w_and (w_shr v (bShift - j * dec)) bMask) bf) bf;
    v ← buf_get c (cIndex + i) bf;
    buf_set c (cIndex + i) (w_and v cMask) bf) bf;
  mret (bf, s).

Definition forUtilDecodeSlow (bitsPerValue : Z) (bf : bufs W) (s : I) : M (bufs W * I) :=
  let numLongs := bitsPerValue * 2 in
  mask ← fuMASKS32 bitsPerValue;
  '(bf, s) ← forUtilSplitLongs numLongs Ints (32 - bitsPerValue) 32 (Ret mask)
               Tmp 0 (Ret (w_lit (-1))) bf s;
  longs ← recombine_slow fuMASKS32 bitsPerValue (32 - bitsPerValue) numLongs (b_tmp bf) (b_ints bf);
  mret (mk_bufs longs (b_tmp bf), s).

Definition forUtilDecode1 (bf : bufs W) (s : I) : M (bufs W * I) :=
  forUtilSplitLongs 2 Ints 7 1 (fuMASKS8 1) Ints 14 (fuMASKS8 1) bf s.

Definition forUtilDecode2 (bf : bufs W) (s : I) : M (bufs W * I) :=
  forUtilSplitLongs 4 Ints 6 2 (fuMASKS8 2) Ints 12 (fuMASKS8 2) bf s.

Definition forUtilDecode3 (bf : bufs W) (s : I) : M (bufs W * I) :=
  '(bf, s) ← forUtilSplitLongs 6 Ints 5 3 (fuMASKS8 3) Tmp 0 (fuMASKS8 2) bf s;
  recombine 2 3 12 2 (fun tmp tmpIdx longsIdx longs =>
    let l0 := tmp.[tmpIdx + 0] <<' 1 in
    let l0 := l0 |' (tmp.[tmpIdx + 1] >>' 1) &' fuMASKS8 1 in
    store longs [longsIdx + 0] := l0;
    let l1 := (tmp.[tmpIdx + 1] &' fuMASKS8 1) <<' 2 in
    let l1 := l1 |' tmp.[tmpIdx + 2] in
    store longs [longsIdx + 1] := l1;
    Ret longs)%word (bf, s).

Definition forUtilDecode4 (bf : bufs W) (s : I) : M (bufs W * I) :=
  forUtilSplitLongs 8 Ints 4 4 (fuMASKS8 4) Ints 8 (fuMASKS8 4) bf s.

Definition forUtilDecode5 (bf : bufs W) (s : I) : M (bufs W * I) :=
  '(bf, s) ← forUtilSplitLongs 10 Ints 3 5 (fuMASKS8 5) Tmp 0 (fuMASKS8 3) bf s;
  recombine 2 5 10 3 (fun tmp tmpIdx longsIdx longs =>
    let l0 := tmp.[tmpIdx + 0] <<' 2 in
    let l0 := l0 |' (tmp.[tmpIdx + 1] >>' 1) &' fuMASKS8 2 in
    store longs [longsIdx + 0] := l0;
    let l1 := (tmp.[tmpIdx + 1] &' fuMASKS8 1) <<' 4 in
    let l1 := l1 |' tmp.[tmpIdx + 2] <<' 1 in
    let l1 := l1 |' (tmp.[tmpIdx + 3] >>' 2) &' fuMASKS8 1 in
    store longs [longsIdx + 1] := l1;
    let l2 := (tmp.[tmpIdx + 3] &' fuMASKS8 2) <<' 3 in
    let l2 := l2 |' tmp.[tmpIdx + 4] in
    store longs [longsIdx + 2] := l2;
    Ret longs)%word (bf, s).

Definition forUtilDecode6 (bf : bufs W) (s : I) : M (bufs W * I) :=
  '(bf, s) ← forUtilSplitLongs 12 Ints 2 6 (fuMASKS8 6) Tmp 0 (fuMASKS8 2) bf s;
  recombine 4 3 12 1 (fun tmp tmpIdx longsIdx longs =>
    let l0 := tmp.[tmpIdx + 0] <<' 4 in
    let l0 := l0 |' tmp.[tmpIdx + 1] <<' 2 in
    let l0 := l0 |' tmp.[tmpIdx + 2] in
    store longs [longsIdx + 0] := l0;
    Ret longs)%word (bf, s).

Definition forUtilDecode7 (bf : bufs W) (s : I) : M (bufs W * I) :=
  '(bf, s) ← forUtilSplitLongs 14 Ints 1 7 (fuMASKS8 7) Tmp 0 (fuMASKS8 1) bf s;
  recombine 2 7 14 1 (fun tmp tmpIdx longsIdx longs =>
    let l0 := tmp.[tmpIdx + 0] <<' 6 in
    let l0 := l0 |' tmp.[tmpIdx + 1] <<' 5 in
    let l0 := l0 |' tmp.[tmpIdx + 2] <<' 4 in
    let l0 := l0 |' tmp.[tmpIdx + 3] <<' 3 in
    let l0 := l0 |' tmp.[tmpIdx + 4] <<' 2 in
    let l0 := l0 |' tmp.[tmpIdx + 5] <<' 1 in
    let l0 := l0 |' tmp.[tmpIdx + 6] in
    store longs [longsIdx + 0] := l0;
    Ret longs)%word (bf, s).

Definition forUtilDecode8 (bf : bufs W) (s : I) : M (bufs W * I) :=
  read_words rd 16 Ints 0 bf s.

Definition forUtilDecode9 (bf : bufs W) (s : I) : M (bufs W * I) :=
  '(bf, s) ← forUtilSplitLongs 18 Ints 7 9 (fuMASKS16 9) Tmp 0 (fuMASKS16 7) bf s;
  recombine 2 9 18 7 (fun tmp tmpIdx longsIdx longs =>
    let l0 := tmp.[tmpIdx + 0] <<' 2 in
    let l0 := l0 |' (tmp.[tmpIdx + 1] >>' 5) &' fuMASKS16 2 in
    store longs [longsIdx + 0] := l0;
    let l1 := (tmp.[tmpIdx + 1] &' fuMASKS16 5) <<' 4 in
    let l1 := l1 |' (tmp.[tmpIdx + 2] >>' 3) &' fuMASKS16 4 in
    store longs [longsIdx + 1] := l1;
    let l2 := (tmp.[tmpIdx + 2] &' fuMASKS16 3) <<' 6 in
    let l2 := l2 |' (tmp.[tmpIdx + 3] >>' 1) &' fuMASKS16 6 in
    store longs [longsIdx + 2] := l2;
    let l3 := (tmp.[tmpIdx + 3] &' fuMASKS16 1) <<' 8 in
    let l3 := l3 |' tmp.[tmpIdx + 4] <<' 1 in
    let l3 := l3 |' (tmp.[tmpIdx + 5] >>' 6) &' fuMASKS16 1 in
    store longs [longsIdx + 3] := l3;
    let l4 := (tmp.[tmpIdx + 5] &' fuMASKS16 6) <<' 3 in
    let l4 := l4 |' (tmp.[tmpIdx + 6] >>' 4) &' fuMASKS16 3 in
    store longs [longsIdx + 4] := l4;
    let l5 := (tmp.[tmpIdx + 6] &' fuMASKS16 4) <<' 5 in
    let l5 := l5 |' (tmp.[tmpIdx + 7] >>' 2) &' fuMASKS16 5 in
    store longs [longsIdx + 5] := l5;
    let l6 := (tmp.[tmpIdx + 7] &' fuMASKS16 2) <<' 7 in
    let l6 := l6 |' tmp.[tmpIdx + 8] in
    store longs [longsIdx + 6] := l6;
    Ret longs)%word (bf, s).

Definition forUtilDecode10 (bf : bufs W) (s : I) : M (bufs W * I) :=
  '(bf, s) ← forUtilSplitLongs 20 Ints 6 10 (fuMASKS16 10) Tmp 0 (fuMASKS16 6) bf s;
  recombine 4 5 20 3 (fun tmp tmpIdx longsIdx longs =>
    let l0 := tmp.[tmpIdx + 0] <<' 4 in
    let l0 := l0 |' (tmp.[tmpIdx + 1] >>' 2) &' fuMASKS16 4 in
    store longs [longsIdx + 0] := l0;
    let l1 := (tmp.[tmpIdx + 1] &' fuMASKS16 2) <<' 8 in
    let l1 := l1 |' tmp.[tmpIdx + 2] <<' 2 in
    let l1 := l1 |' (tmp.[tmpIdx + 3] >>' 4) &' fuMASKS16 2 in
    store longs [longsIdx + 1] := l1;
    let l2 := (tmp.[tmpIdx + 3] &' fuMASKS16 4) <<' 6 in
    let l2 := l2 |' tmp.[tmpIdx + 4] in
    store longs [longsIdx + 2] := l2;
    Ret longs)%word (bf, s).

Definition forUtilDecode11 (bf : bufs W) (s : I) : M (bufs W * I) :=
  '(bf, s) ← forUtilSplitLongs 22 Ints 5 11 (fuMASKS16 11) Tmp 0 (fuMASKS16 5) bf s;
  recombine 2 11 22 5 (fun tmp tmpIdx longsIdx longs =>
    let l0 := tmp.[tmpIdx + 0] <<' 6 in
    let l0 := l0 |' tmp.[tmpIdx + 1] <<' 1 in
    let l0 := l0 |' (tmp.[tmpIdx + 2] >>' 4) &' fuMASKS16 1 in
    store longs [longsIdx + 0] := l0;
    let l1 := (tmp.[tmpIdx + 2] &' fuMASKS16 4) <<' 7 in
    let l1 := l1 |' tmp.[tmpIdx + 3] <<' 2 in
    let l1 := l1 |' (tmp.[tmpIdx + 4] >>' 3) &' fuMASKS16 2 in
    store longs [longsIdx + 1] := l1;
    let l2 := (tmp.[tmpIdx + 4] &' fuMASKS16 3) <<' 8 in
    let l2 := l2 |' tmp.[tmpIdx + 5] <<' 3 in
    let l2 := l2 |' (tmp.[tmpIdx + 6] >>' 2) &' fuMASKS16 3 in
    store longs [longsIdx + 2] := l2;
    let l3 := (tmp.[tmpIdx + 6] &' fuMASKS16 2) <<' 9 in
    let l3 := l3 |' tmp.[tmpIdx + 7] <<' 4 in
    let l3 := l3 |' (tmp.[tmpIdx + 8] >>' 1) &' fuMASKS16 4 in
    store longs [longsIdx + 3] := l3;
    let l4 := (tmp.[tmpIdx + 8] &' fuMASKS16 1) <<' 10 in
    let l4 := l4 |' tmp.[tmpIdx + 9] <<' 5 in
    let l4 := l4 |' tmp.[tmpIdx + 10] in
    store longs [longsIdx + 4] := l4;
    Ret longs)%word (bf, s).

Definition forUtilDecode12 (bf : bufs W) (s : I) : M (bufs W * I) :=
  '(bf, s) ← forUtilSplitLongs 24 Ints 4 12 (fuMASKS16 12) Tmp 0 (fuMASKS16 4) bf s;
  recombine 8 3 24 1 (fun tmp tmpIdx longsIdx longs =>
    let l0 := tmp.[tmpIdx + 0] <<' 8 in
    let l0 := l0 |' tmp.[tmpIdx + 1] <<' 4 in
    let l0 := l0 |' tmp.[tmpIdx + 2] in
    store longs [longsIdx + 0] := l0;
    Ret longs)%word (bf, s).

Definition forUtilDecode13 (bf : bufs W) (s : I) : M (bufs W * I) :=
  '(bf, s) ← forUtilSplitLongs 26 Ints 3 13 (fuMASKS16 13) Tmp 0 (fuMASKS16 3) bf s;
  recombine 2 13 26 3 (fun tmp tmpIdx longsIdx longs =>
    let l0 := tmp.[tmpIdx + 0] <<' 10 in
    let l0 := l0 |' tmp.[tmpIdx + 1] <<' 7 in
    let l0 := l0 |' tmp.[tmpIdx + 2] <<' 4 in
    let l0 := l0 |' tmp.[tmpIdx + 3] <<' 1 in
    let l0 := l0 |' (tmp.[tmpIdx + 4] >>' 2) &' fuMASKS16 1 in
    store longs [longsIdx + 0] := l0;
    let l1 := (tmp.[tmpIdx + 4] &' fuMASKS16 2) <<' 11 in
    let l1 := l1 |' tmp.[tmpIdx + 5] <<' 8 in
    let l1 := l1 |' tmp.[tmpIdx + 6] <<' 5 in
    let l1 := l1 |' tmp.[tmpIdx + 7] <<' 2 in
    let l1 := l1 |' (tmp.[tmpIdx + 8] >>' 1) &' fuMASKS16 2 in
    store longs [longsIdx + 1] := l1;
    let l2 := (tmp.[tmpIdx + 8] &' fuMASKS16 1) <<' 12 in
    let l2 := l2 |' tmp.[tmpIdx + 9] <<' 9 in
    let l2 := l2 |' tmp.[tmpIdx + 10] <<' 6 in
    let l2 := l2 |' tmp.[tmpIdx + 11] <<' 3 in
    let l2 := l2 |' tmp.[tmpIdx + 12] in
    store longs [longsIdx + 2] := l2;
    Ret longs)%word (bf, s).

Definition forUtilDecode14 (bf : bufs W) (s : I) : M (bufs W * I) :=
  '(bf, s) ← forUtilSplitLongs 28 Ints 2 14 (fuMASKS16 14) Tmp 0 (fuMASKS16 2) bf s;
  recombine 4 7 28 1 (fun tmp tmpIdx longsIdx longs =>
    let l0 := tmp.[tmpIdx + 0] <<' 12 in
    let l0 := l0 |' tmp.[tmpIdx + 1] <<' 10 in
    let l0 := l0 |' tmp.[tmpIdx + 2] <<' 8 in
    let l0 := l0 |' tmp.[tmpIdx + 3] <<' 6 in
    let l0 := l0 |' tmp.[tmpIdx + 4] <<' 4 in
    let l0 := l0 |' tmp.[tmpIdx + 5] <<' 2 in
    let l0 := l0 |' tmp.[tmpIdx + 6] in
    store longs [longsIdx + 0] := l0;
    Ret longs)%word (bf, s).

Definition forUtilDecode15 (bf : bufs W) (s : I) : M (bufs W * I) :=
  '(bf, s) ← forUtilSplitLongs 30 Ints 1 15 (fuMASKS16 15) Tmp 0 (fuMASKS16 1) bf s;
  recombine 2 15 30 1 (fun tmp tmpIdx longsIdx longs =>
    let l0 := tmp.[tmpIdx + 0] <<' 14 in
    let l0 := l0 |' tmp.[tmpIdx + 1] <<' 13 in
    let l0 := l0 |' tmp.[tmpIdx + 2] <<' 12 in
    let l0 := l0 |' tmp.[tmpIdx + 3] <<' 11 in
    let l0 := l0 |' tmp.[tmpIdx + 4] <<' 10 in
    let l0 := l0 |' tmp.[tmpIdx + 5] <<' 9 in
    let l0 := l0 |' tmp.[tmpIdx + 6] <<' 8 in
    let l0 := l0 |' tmp.[tmpIdx + 7] <<' 7 in
    let l0 := l0 |' tmp.[tmpIdx + 8] <<' 6 in
    let l0 := l0 |' tmp.[tmpIdx + 9] <<' 5 in
    let l0 := l0 |' tmp.[tmpIdx + 10] <<' 4 in
    let l0 := l0 |' tmp.[tmpIdx + 11] <<' 3 in
    let l0 := l0 |' tmp.[tmpIdx + 12] <<' 2 in
    let l0 := l0 |' tmp.[tmpIdx + 13] <<' 1 in
    let l0 := l0 |' tmp.[tmpIdx + 14] in
    store longs [longsIdx + 0] := l0;
    Ret longs)%word (bf, s).

Definition forUtilDecode16 (bf : bufs W) (s : I) : M (bufs W * I) :=
  read_words rd 32 Ints 0 bf s.

Definition forUtilDecode17 (bf : bufs W) (s : I) : M (bufs W * I) :=
  '(bf, s) ← forUtilSplitLongs 34 Ints 15 17 (fuMASKS32 17) Tmp 0 (fuMASKS32 15) bf s;
  recombine 2 17 34 15 (fun tmp tmpIdx longsIdx longs =>
    let l0 := tmp.[tmpIdx + 0] <<' 2 in
    let l0 := l0 |' (tmp.[tmpIdx + 1] >>' 13) &' fuMASKS32 2 in
    store longs [longsIdx + 0] := l0;
    let l1 := (tmp.[tmpIdx + 1] &' fuMASKS32 13) <<' 4 in
    let l1 := l1 |' (tmp.[tmpIdx + 2] >>' 11) &' fuMASKS32 4 in
    store longs [longsIdx + 1] := l1;
    let l2 := (tmp.[tmpIdx + 2] &' fuMASKS32 11) <<' 6 in
    let l2 := l2 |' (tmp.[tmpIdx + 3] >>' 9) &' fuMASKS32 6 in
    store longs [longsIdx + 2] := l2;
    let l3 := (tmp.[tmpIdx + 3] &' fuMASKS32 9) <<' 8 in
    let l3 := l3 |' (tmp.[tmpIdx + 4] >>' 7) &' fuMASKS32 8 in
    store longs [longsIdx + 3] := l3;
    let l4 := (tmp.[tmpIdx + 4] &' fuMASKS32 7) <<' 10 in
    let l4 := l4 |' (tmp.[tmpIdx + 5] >>' 5) &' fuMASKS32 10 in
    store longs [longsIdx + 4] := l4;
    let l5 := (tmp.[tmpIdx + 5] &' fuMASKS32 5) <<' 12 in
    let l5 := l5 |' (tmp.[tmpIdx + 6] >>' 3) &' fuMASKS32 12 in
    store longs [longsIdx + 5] := l5;
    let l6 := (tmp.[tmpIdx + 6] &' fuMASKS32 3) <<' 14 in
    let l6 := l6 |' (tmp.[tmpIdx + 7] >>' 1) &' fuMASKS32 14 in
    store longs [longsIdx + 6] := l6;
    let l7 := (tmp.[tmpIdx + 7] &' fuMASKS32 1) <<' 16 in
    let l7 := l7 |' tmp.[tmpIdx + 8] <<' 1 in
    let l7 := l7 |' (tmp.[tmpIdx + 9] >>' 14) &' fuMASKS32 1 in
    store longs [longsIdx + 7] := l7;
    let l8 := (tmp.[tmpIdx + 9] &' fuMASKS32 14) <<' 3 in
    let l8 := l8 |' (tmp.[tmpIdx + 10] >>' 12) &' fuMASKS32 3 in
    store longs [longsIdx + 8] := l8;
    let l9 := (tmp.[tmpIdx + 10] &' fuMASKS32 12) <<' 5 in
    let l9 := l9 |' (tmp.[tmpIdx + 11] >>' 10) &' fuMASKS32 5 in
    store longs [longsIdx + 9] := l9;
    let l10 := (tmp.[tmpIdx + 11] &' fuMASKS32 10) <<' 7 in
    let l10 := l10 |' (tmp.[tmpIdx + 12] >>' 8) &' fuMASKS32 7 in
    store longs [longsIdx + 10] := l10;
    let l11 := (tmp.[tmpIdx + 12] &' fuMASKS32 8) <<' 9 in
    let l11 := l11 |' (tmp.[tmpIdx + 13] >>' 6) &' fuMASKS32 9 in
    store longs [longsIdx + 11] := l11;
    let l12 := (tmp.[tmpIdx + 13] &' fuMASKS32 6) <<' 11 in
    let l12 := l12 |' (tmp.[tmpIdx + 14] >>' 4) &' fuMASKS32 11 in
    store longs [longsIdx + 12] := l12;
    let l13 := (tmp.[tmpIdx + 14] &' fuMASKS32 4) <<' 13 in
    let l13 := l13 |' (tmp.[tmpIdx + 15] >>' 2) &' fuMASKS32 13 in
    store longs [longsIdx + 13] := l13;
    let l14 := (tmp.[tmpIdx + 15] &' fuMASKS32 2) <<' 15 in
    let l14 := l14 |' tmp.[tmpIdx + 16] in
    store longs [longsIdx + 14] := l14;
    Ret longs)%word (bf, s).

Definition forUtilDecode18 (bf : bufs W) (s : I) : M (bufs W * I) :=
  '(bf, s) ← forUtilSplitLongs 36 Ints 14 18 (fuMASKS32 18) Tmp 0 (fuMASKS32 14) bf s;
  recombine 4 9 36 7 (fun tmp tmpIdx longsIdx longs =>
    let l0 := tmp.[tmpIdx + 0] <<' 4 in
    let l0 := l0 |' (tmp.[tmpIdx + 1] >>' 10) &' fuMASKS32 4 in
    store longs [longsIdx + 0] := l0;
    let l1 := (tmp.[tmpIdx + 1] &' fuMASKS32 10) <<' 8 in
    let l1 := l1 |' (tmp.[tmpIdx + 2] >>' 6) &' fuMASKS32 8 in
    store longs [longsIdx + 1] := l1;
    let l2 := (tmp.[tmpIdx + 2] &' fuMASKS32 6) <<' 12 in
    let l2 := l2 |' (tmp.[tmpIdx + 3] >>' 2) &' fuMASKS32 12 in
    store longs [longsIdx + 2] := l2;
    let l3 := (tmp.[tmpIdx + 3] &' fuMASKS32 2) <<' 16 in
    let l3 := l3 |' tmp.[tmpIdx + 4] <<' 2 in
    let l3 := l3 |' (tmp.[tmpIdx + 5] >>' 12) &' fuMASKS32 2 in
    store longs [longsIdx + 3] := l3;
    let l4 := (tmp.[tmpIdx + 5] &' fuMASKS32 12) <<' 6 in
    let l4 := l4 |' (tmp.[tmpIdx + 6] >>' 8) &' fuMASKS32 6 in
    store longs [longsIdx + 4] := l4;
    let l5 := (tmp.[tmpIdx + 6] &' fuMASKS32 8) <<' 10 in
    let l5 := l5 |' (tmp.[tmpIdx + 7] >>' 4) &' fuMASKS32 10 in
    store longs [longsIdx + 5] := l5;
    let l6 := (tmp.[tmpIdx + 7] &' fuMASKS32 4) <<' 14 in
    let l6 := l6 |' tmp.[tmpIdx + 8] in
    store longs [longsIdx + 6] := l6;
    Ret longs)%word (bf, s).

Definition forUtilDecode19 (bf : bufs W) (s : I) : M (bufs W * I) :=
  '(bf, s) ← forUtilSplitLongs 38 Ints 13 19 (fuMASKS32 19) Tmp 0 (fuMASKS32 13) bf s;
  recombine 2 19 38 13 (fun tmp tmpIdx longsIdx longs =>
    let l0 := tmp.[tmpIdx + 0] <<' 6 in
    let l0 := l0 |' (tmp.[tmpIdx + 1] >>' 7) &' fuMASKS32 6 in
    store longs [longsIdx + 0] := l0;
    let l1 := (tmp.[tmpIdx + 1] &' fuMASKS32 7) <<' 12 in
    let l1 := l1 |' (tmp.[tmpIdx + 2] >>' 1) &' fuMASKS32 12 in
    store longs [longsIdx + 1] := l1;
    let l2 := (tmp.[tmpIdx + 2] &' fuMASKS32 1) <<' 18 in
    let l2 := l2 |' tmp.[tmpIdx + 3] <<' 5 in
    let l2 := l2 |' (tmp.[tmpIdx + 4] >>' 8) &' fuMASKS32 5 in
    store longs [longsIdx + 2] := l2;
    let l3 := (tmp.[tmpIdx + 4] &' fuMASKS32 8) <<' 11 in
    let l3 := l3 |' (tmp.[tmpIdx + 5] >>' 2) &' fuMASKS32 11 in
    store longs [longsIdx + 3] := l3;
    let l4 := (tmp.[tmpIdx + 5] &' fuMASKS32 2) <<' 17 in
    let l4 := l4 |' tmp.[tmpIdx + 6] <<' 4 in
    let l4 := l4 |' (tmp.[tmpIdx + 7] >>' 9) &' fuMASKS32 4 in
    store longs [longsIdx + 4] := l4;
    let l5 := (tmp.[tmpIdx + 7] &' fuMASKS32 9) <<' 10 in
    let l5 := l5 |' (tmp.[tmpIdx + 8] >>' 3) &' fuMASKS32 10 in
    store longs [longsIdx + 5] := l5;
    let l6 := (tmp.[tmpIdx + 8] &' fuMASKS32 3) <<' 16 in
    let l6 := l6 |' tmp.[tmpIdx + 9] <<' 3 in
    let l6 := l6 |' (tmp.[tmpIdx + 10] >>' 10) &' fuMASKS32 3 in
    store longs [longsIdx + 6] := l6;
    let l7 := (tmp.[tmpIdx + 10] &' fuMASKS32 10) <<' 9 in
    let l7 := l7 |' (tmp.[tmpIdx + 11] >>' 4) &' fuMASKS32 9 in
    store longs [longsIdx + 7] := l7;
    let l8 := (tmp.[tmpIdx + 11] &' fuMASKS32 4) <<' 15 in
    let l8 := l8 |' tmp.[tmpIdx + 12] <<' 2 in
    let l8 := l8 |' (tmp.[tmpIdx + 13] >>' 11) &' fuMASKS32 2 in
    store longs [longsIdx + 8] := l8;
    let l9 := (tmp.[tmpIdx + 13] &' fuMASKS32 11) <<' 8 in
    let l9 := l9 |' (tmp.[tmpIdx + 14] >>' 5) &' fuMASKS32 8 in
    store longs [longsIdx + 9] := l9;
    let l10 := (tmp.[tmpIdx + 14] &' fuMASKS32 5) <<' 14 in
    let l10 := l10 |' tmp.[tmpIdx + 15] <<' 1 in
    let l10 := l10 |' (tmp.[tmpIdx + 16] >>' 12) &' fuMASKS32 1 in
    store longs [longsIdx + 10] := l10;
    let l11 := (tmp.[tmpIdx + 16] &' fuMASKS32 12) <<' 7 in
    let l11 := l11 |' (tmp.[tmpIdx + 17] >>' 6) &' fuMASKS32 7 in
    store longs [longsIdx + 11] := l11;
    let l12 := (tmp.[tmpIdx + 17] &' fuMASKS32 6) <<' 13 in
    let l12 := l12 |' tmp.[tmpIdx + 18] in
    store longs [longsIdx + 12] := l12;
    Ret longs)%word (bf, s).

Definition forUtilDecode20 (bf : bufs W) (s : I) : M (bufs W * I) :=
  '(bf, s) ← forUtilSplitLongs 40 Ints 12 20 (fuMASKS32 20) Tmp 0 (fuMASKS32 12) bf s;
  recombine 8 5 40 3 (fun tmp tmpIdx longsIdx longs =>
    let l0 := tmp.[tmpIdx + 0] <<' 8 in
    let l0 := l0 |' (tmp.[tmpIdx + 1] >>' 4) &' fuMASKS32 8 in
    store longs [longsIdx + 0] := l0;
    let l1 := (tmp.[tmpIdx + 1] &' fuMASKS32 4) <<' 16 in
    let l1 := l1 |' tmp.[tmpIdx + 2] <<' 4 in
    let l1 := l1 |' (tmp.[tmpIdx + 3] >>' 8) &' fuMASKS32 4 in
    store longs [longsIdx + 1] := l1;
    let l2 := (tmp.[tmpIdx + 3] &' fuMASKS32 8) <<' 12 in
    let l2 := l2 |' tmp.[tmpIdx + 4] in
    store longs [longsIdx + 2] := l2;
    Ret longs)%word (bf, s).

Definition forUtilDecode21 (bf : bufs W) (s : I) : M (bufs W * I) :=
  '(bf, s) ← forUtilSplitLongs 42 Ints 11 21 (fuMASKS32 21) Tmp 0 (fuMASKS32 11) bf s;
  recombine 2 21 42 11 (fun tmp tmpIdx longsIdx longs =>
    let l0 := tmp.[tmpIdx + 0] <<' 10 in
    let l0 := l0 |' (tmp.[tmpIdx + 1] >>' 1) &' fuMASKS32 10 in
    store longs [longsIdx + 0] := l0;
    let l1 := (tmp.[tmpIdx + 1] &' fuMASKS32 1) <<' 20 in
    let l1 := l1 |' tmp.[tmpIdx + 2] <<' 9 in
    let l1 := l1 |' (tmp.[tmpIdx + 3] >>' 2) &' fuMASKS32 9 in
    store longs [longsIdx + 1] := l1;
    let l2 := (tmp.[tmpIdx + 3] &' fuMASKS32 2) <<' 19 in
    let l2 := l2 |' tmp.[tmpIdx + 4] <<' 8 in
    let l2 := l2 |' (tmp.[tmpIdx + 5] >>' 3) &' fuMASKS32 8 in
    store longs [longsIdx + 2] := l2;
    let l3 := (tmp.[tmpIdx + 5] &' fuMASKS32 3) <<' 18 in
    let l3 := l3 |' tmp.[tmpIdx + 6] <<' 7 in
    let l3 := l3 |' (tmp.[tmpIdx + 7] >>' 4) &' fuMASKS32 7 in
    store longs [longsIdx + 3] := l3;
    let l4 := (tmp.[tmpIdx + 7] &' fuMASKS32 4) <<' 17 in
    let l4 := l4 |' tmp.[tmpIdx + 8] <<' 6 in
    let l4 := l4 |' (tmp.[tmpIdx + 9] >>' 5) &' fuMASKS32 6 in
    store longs [longsIdx + 4] := l4;
    let l5 := (tmp.[tmpIdx + 9] &' fuMASKS32 5) <<' 16 in
    let l5 := l5 |' tmp.[tmpIdx + 10] <<' 5 in
    let l5 := l5 |' (tmp.[tmpIdx + 11] >>' 6) &' fuMASKS32 5 in
    store longs [longsIdx + 5] := l5;
    let l6 := (tmp.[tmpIdx + 11] &' fuMASKS32 6) <<' 15 in
    let l6 := l6 |' tmp.[tmpIdx + 12] <<' 4 in
    let l6 := l6 |' (tmp.[tmpIdx + 13] >>' 7) &' fuMASKS32 4 in
    store longs [longsIdx + 6] := l6;
    let l7 := (tmp.[tmpIdx + 13] &' fuMASKS32 7) <<' 14 in
    let l7 := l7 |' tmp.[tmpIdx + 14] <<' 3 in
    let l7 := l7 |' (tmp.[tmpIdx + 15] >>' 8) &' fuMASKS32 3 in
    store longs [longsIdx + 7] := l7;
    let l8 := (tmp.[tmpIdx + 15] &' fuMASKS32 8) <<' 13 in
    let l8 := l8 |' tmp.[tmpIdx + 16] <<' 2 in
    let l8 := l8 |' (tmp.[tmpIdx + 17] >>' 9) &' fuMASKS32 2 in
    store longs [longsIdx + 8] := l8;
    let l9 := (tmp.[tmpIdx + 17] &' fuMASKS32 9) <<' 12 in
    let l9 := l9 |' tmp.[tmpIdx + 18] <<' 1 in
    let l9 := l9 |' (tmp.[tmpIdx + 19] >>' 10) &' fuMASKS32 1 in
    store longs [longsIdx + 9] := l9;
    let l10 := (tmp.[tmpIdx + 19] &' fuMASKS32 10) <<' 11 in
    let l10 := l10 |' tmp.[tmpIdx + 20] in
    store longs [longsIdx + 10] := l10;
    Ret longs)%word (bf, s).

Definition forUtilDecode22 (bf : bufs W) (s : I) : M (bufs W * I) :=
  '(bf, s) ← forUtilSplitLongs 44 Ints 10 22 (fuMASKS32 22) Tmp 0 (fuMASKS32 10) bf s;
  recombine 4 11 44 5 (fun tmp tmpIdx longsIdx longs =>
    let l0 := tmp.[tmpIdx + 0] <<' 12 in
    let l0 := l0 |' tmp.[tmpIdx + 1] <<' 2 in
    let l0 := l0 |' (tmp.[tmpIdx + 2] >>' 8) &' fuMASKS32 2 in
    store longs [longsIdx + 0] := l0;
    let l1 := (tmp.[tmpIdx + 2] &' fuMASKS32 8) <<' 14 in
    let l1 := l1 |' tmp.[tmpIdx + 3] <<' 4 in
    let l1 := l1 |' (tmp.[tmpIdx + 4] >>' 6) &' fuMASKS32 4 in
    store longs [longsIdx + 1] := l1;
    let l2 := (tmp.[tmpIdx + 4] &' fuMASKS32 6) <<' 16 in
    let l2 := l2 |' tmp.[tmpIdx + 5] <<' 6 in
    let l2 := l2 |' (tmp.[tmpIdx + 6] >>' 4) &' fuMASKS32 6 in
    store longs [longsIdx + 2] := l2;
    let l3 := (tmp.[tmpIdx + 6] &' fuMASKS32 4) <<' 18 in
    let l3 := l3 |' tmp.[tmpIdx + 7] <<' 8 in
    let l3 := l3 |' (tmp.[tmpIdx + 8] >>' 2) &' fuMASKS32 8 in
    store longs [longsIdx + 3] := l3;
    let l4 := (tmp.[tmpIdx + 8] &' fuMASKS32 2) <<' 20 in
    let l4 := l4 |' tmp.[tmpIdx + 9] <<' 10 in
    let l4 := l4 |' tmp.[tmpIdx + 10] in
    store longs [longsIdx + 4] := l4;
    Ret longs)%word (bf, s).

Definition forUtilDecode23 (bf : bufs W) (s : I) : M (bufs W * I) :=
  '(bf, s) ← forUtilSplitLongs 46 Ints 9 23 (fuMASKS32 23) Tmp 0 (fuMASKS32 9) bf s;
  recombine 2 23 46 9 (fun tmp tmpIdx longsIdx longs =>
    let l0 := tmp.[tmpIdx + 0] <<' 14 in
    let l0 := l0 |' tmp.[tmpIdx + 1] <<' 5 in
    let l0 := l0 |' (tmp.[tmpIdx + 2] >>' 4) &' fuMASKS32 5 in
    store longs [longsIdx + 0] := l0;
    let l1 := (tmp.[tmpIdx + 2] &' fuMASKS32 4) <<' 19 in
    let l1 := l1 |' tmp.[tmpIdx + 3] <<' 10 in
    let l1 := l1 |' tmp.[tmpIdx + 4] <<' 1 in
    let l1 := l1 |' (tmp.[tmpIdx + 5] >>' 8) &' fuMASKS32 1 in
    store longs [longsIdx + 1] := l1;
    let l2 := (tmp.[tmpIdx + 5] &' fuMASKS32 8) <<' 15 in
    let l2 := l2 |' tmp.[tmpIdx + 6] <<' 6 in
    let l2 := l2 |' (tmp.[tmpIdx + 7] >>' 3) &' fuMASKS32 6 in
    store longs [longsIdx + 2] := l2;
    let l3 := (tmp.[tmpIdx + 7] &' fuMASKS32 3) <<' 20 in
    let l3 := l3 |' tmp.[tmpIdx + 8] <<' 11 in
    let l3 := l3 |' tmp.[tmpIdx + 9] <<' 2 in
    let l3 := l3 |' (tmp.[tmpIdx + 10] >>' 7) &' fuMASKS32 2 in
    store longs [longsIdx + 3] := l3;
    let l4 := (tmp.[tmpIdx + 10] &' fuMASKS32 7) <<' 16 in
    let l4 := l4 |' tmp.[tmpIdx + 11] <<' 7 in
    let l4 := l4 |' (tmp.[tmpIdx + 12] >>' 2) &' fuMASKS32 7 in
    store longs [longsIdx + 4] := l4;
    let l5 := (tmp.[tmpIdx + 12] &' fuMASKS32 2) <<' 21 in
    let l5 := l5 |' tmp.[tmpIdx + 13] <<' 12 in
    let l5 := l5 |' tmp.[tmpIdx + 14] <<' 3 in
    let l5 := l5 |' (tmp.[tmpIdx + 15] >>' 6) &' fuMASKS32 3 in
    store longs [longsIdx + 5] := l5;
    let l6 := (tmp.[tmpIdx + 15] &' fuMASKS32 6) <<' 17 in
    let l6 := l6 |' tmp.[tmpIdx + 16] <<' 8 in
    let l6 := l6 |' (tmp.[tmpIdx + 17] >>' 1) &' fuMASKS32 8 in
    store longs [longsIdx + 6] := l6;
    let l7 := (tmp.[tmpIdx + 17] &' fuMASKS32 1) <<' 22 in
    let l7 := l7 |' tmp.[tmpIdx + 18] <<' 13 in
    let l7 := l7 |' tmp.[tmpIdx + 19] <<' 4 in
    let l7 := l7 |' (tmp.[tmpIdx + 20] >>' 5) &' fuMASKS32 4 in
    store longs [longsIdx + 7] := l7;
    let l8 := (tmp.[tmpIdx + 20] &' fuMASKS32 5) <<' 18 in
    let l8 := l8 |' tmp.[tmpIdx + 21] <<' 9 in
    let l8 := l8 |' tmp.[tmpIdx + 22] in
    store longs [longsIdx + 8] := l8;
    Ret longs)%word (bf, s).

Definition forUtilDecode24 (bf : bufs W) (s : I) : M (bufs W * I) :=
  '(bf, s) ← forUtilSplitLongs 48 Ints 8 24 (fuMASKS32 24) Tmp 0 (fuMASKS32 8) bf s;
  recombine 16 3 48 1 (fun tmp tmpIdx longsIdx longs =>
    let l0 := tmp.[tmpIdx + 0] <<' 16 in
    let l0 := l0 |' tmp.[tmpIdx + 1] <<' 8 in
    let l0 := l0 |' tmp.[tmpIdx + 2] in
    store longs [longsIdx + 0] := l0;
    Ret longs)%word (bf, s).

(** The switch of [decode]. *)
Definition forUtil_decode (bitsPerValue : Z) (f : bufs W) (s : I) : M (bufs W * I) :=
  match bitsPerValue with
  | 1 => then_expand forUtilExpand8 (forUtilDecode1 f s)
  | 2 => then_expand forUtilExpand8 (forUtilDecode2 f s)
  | 3 => then_expand forUtilExpand8 (forUtilDecode3 f s)
  | 4 => then_expand forUtilExpand8 (forUtilDecode4 f s)
  | 5 => then_expand forUtilExpand8 (forUtilDecode5 f s)
  | 6 => then_expand forUtilExpand8 (forUtilDecode6 f s)
  | 7 => then_expand forUtilExpand8 (forUtilDecode7 f s)
  | 8 => then_expand forUtilExpand8 (forUtilDecode8 f s)
  | 9 => then_expand forUtilExpand16 (forUtilDecode9 f s)
  | 10 => then_expand forUtilExpand16 (forUtilDecode10 f s)
  | 11 => then_expand forUtilExpand16 (forUtilDecode11 f s)
  | 12 => then_expand forUtilExpand16 (forUtilDecode12 f s)
  | 13 => then_expand forUtilExpand16 (forUtilDecode13 f s)
  | 14 => then_expand forUtilExpand16 (forUtilDecode14 f s)
  | 15 => then_expand forUtilExpand16 (forUtilDecode15 f s)
  | 16 => then_expand forUtilExpand16 (forUtilDecode16 f s)
  | 17 => then_expand forUtilExpand32 (forUtilDecode17 f s)
  | 18 => then_expand forUtilExpand32 (forUtilDecode18 f s)
  | 19 => then_expand forUtilExpand32 (forUtilDecode19 f s)
  | 20 => then_expand forUtilExpand32 (forUtilDecode20 f s)
  | 21 => then_expand forUtilExpand32 (forUtilDecode21 f s)
  | 22 => then_expand forUtilExpand32 (forUtilDecode22 f s)
  | 23 => then_expand forUtilExpand32 (forUtilDecode23 f s)
  | 24 => then_expand forUtilExpand32 (forUtilDecode24 f s)
  | _ => then_expand forUtilExpand32 (forUtilDecodeSlow bitsPerValue f s)
  end.
End Decode.
End ForUtil912.

(** * The definitions preserve the relation between words *)

Section Rel.
Context {W1 W2 : Type} {H1 : Word W1} {H2 : Word W2} {RW : RelOf W1 W2}.
Context (HR : word_rel H1 H2 rel_of).

Lemma fuMASKS8_rel i : go_rel rel_of (fuMASKS8 i) (fuMASKS8 i).
Proof using HR. by apply masks_rel. Qed.
Lemma fuMASKS16_rel i : go_rel rel_of (fuMASKS16 i) (fuMASKS16 i).
Proof using HR. by apply masks_rel. Qed.
Lemma fuMASKS32_rel i : go_rel rel_of (fuMASKS32 i) (fuMASKS32 i).
Proof using HR. by apply masks_rel. Qed.
#[local] Hint Resolve fuMASKS8_rel fuMASKS16_rel fuMASKS32_rel : rel.

Lemma fuMASKS_of_rel p i : go_rel rel_of (fuMASKS_of p i) (fuMASKS_of p i).
Proof using HR. unfold fuMASKS_of. rel. Qed.

Lemma forUtilCollapse8_rel a b : rel_of a b →
  go_rel rel_of (forUtilCollapse8 a) (forUtilCollapse8 b).
Proof using HR. intros. unfold forUtilCollapse8. rel. Qed.
Lemma forUtilCollapse16_rel a b : rel_of a b →
  go_rel rel_of (forUtilCollapse16 a) (forUtilCollapse16 b).
Proof using HR. intros. unfold forUtilCollapse16. rel. Qed.
Lemma forUtilCollapse32_rel a b : rel_of a b →
  go_rel rel_of (forUtilCollapse32 a) (forUtilCollapse32 b).
Proof using HR. intros. unfold forUtilCollapse32. rel. Qed.
Lemma forUtilExpand8_rel a b : rel_of a b →
  go_rel rel_of (forUtilExpand8 a) (forUtilExpand8 b).
Proof using HR. intros. unfold forUtilExpand8. rel. Qed.
Lemma forUtilExpand16_rel a b : rel_of a b →
  go_rel rel_of (forUtilExpand16 a) (forUtilExpand16 b).
Proof using HR. intros. unfold forUtilExpand16. rel. Qed.
Lemma forUtilExpand32_rel a b : rel_of a b →
  go_rel rel_of (forUtilExpand32 a) (forUtilExpand32 b).
Proof using HR. intros. unfold forUtilExpand32. rel. Qed.
#[local] Hint Resolve forUtilCollapse8_rel forUtilCollapse16_rel forUtilCollapse32_rel : rel.

Lemma forUtil_encode_rel {O1 O2} {RO : RelOf O1 O2} (wr1 : W1 → O1 → M O1) (wr2 : W2 → O2 → M O2)
    t u a b bpv o q :
  (∀ a b o p, rel_of a b → rel_of o p → go_rel rel_of (wr1 a o) (wr2 b p)) →
  rel_of t u → rel_of a b → rel_of o q →
  go_rel rel_of (forUtil_encode wr1 t a bpv o) (forUtil_encode wr2 u b bpv q).
Proof using HR.
  intros Hwr Ht Hab Ho. unfold forUtil_encode, forUtilEncodeInternal. rel.
  apply encode_longs_rel; [done..| | |done|done|done].
  - intros. by apply fuMASKS_of_rel.
  - intros. rel.
Qed.

Section DecodeRel.
Context {I1 I2 : Type} {RI : RelOf I1 I2}.
Context (rd1 : I1 → M (W1 * I1)) (rd2 : I2 → M (W2 * I2)).
Hypothesis rd_rel : ∀ s t, rel_of s t → go_rel rel_of (rd1 s) (rd2 t).

Lemma forUtilSplitLongs_rel n b sh dec m1 m2 c k u1 u2 f g s t :
  go_rel rel_of m1 m2 → go_rel rel_of u1 u2 → rel_of f g → rel_of s t →
  go_rel rel_of (forUtilSplitLongs rd1 n b sh dec m1 c k u1 f s)
                (forUtilSplitLongs rd2 n b sh dec m2 c k u2 g t).
Proof using HR rd_rel.
  intros. unfold forUtilSplitLongs.
  assert (Hrd : ∀ c k a b, rel_of a b →
    go_rel rel_of (read_words rd1 n c k a s) (read_words rd2 n c k b t))
    by (intros; by apply read_words_rel).
  rel.
Qed.

Ltac rel_decode912 :=
  unfold forUtilDecode1, forUtilDecode2, forUtilDecode3, forUtilDecode4, forUtilDecode5,
    forUtilDecode6, forUtilDecode7, forUtilDecode8, forUtilDecode9, forUtilDecode10,
    forUtilDecode11, forUtilDecode12, forUtilDecode13, forUtilDecode14, forUtilDecode15,
    forUtilDecode16, forUtilDecode17, forUtilDecode18, forUtilDecode19, forUtilDecode20,
    forUtilDecode21, forUtilDecode22, forUtilDecode23, forUtilDecode24, forUtilDecodeSlow;
  repeat match goal with
  | |- go_rel _ (forUtilSplitLongs _ _ _ _ _ _ _ _ _ _ _) _ => apply forUtilSplitLongs_rel; rel
  | |- go_rel _ (read_words _ _ _ _ _ _) _ => by apply read_words_rel
  | |- go_rel _ (recombine _ _ _ _ _ _) _ => apply recombine_rel; [intros; rel|rel]
  | |- go_rel _ (recombine_slow _ _ _ _ _ _) _ =>
      apply recombine_slow_rel; [done|intros; by apply fuMASKS32_rel|rel..]
  | |- go_rel _ (fuMASKS32 _) _ => by apply fuMASKS32_rel
  | |- go_rel _ (mret _) _ => apply go_rel_ret; rel
  | |- go_rel _ (mbind _ _) _ => apply (go_rel_bind rel_of); [|intros ? ? ?; repeat rel_intro]
  end.

Lemma forUtil_decode_rel bpv a b s t : rel_of a b → rel_of s t →
  go_rel rel_of (forUtil_decode rd1 bpv a s) (forUtil_decode rd2 bpv b t).
Proof using HR rd_rel.
  intros Hab Hst. unfold forUtil_decode.
  repeat match goal with |- go_rel _ (match ?x with _ => _ end) _ => destruct x end;
    match goal with
    | |- go_rel _ (then_expand forUtilExpand8 _) _ =>
        apply then_expand_rel; [intros; by apply forUtilExpand8_rel|]
    | |- go_rel _ (then_expand forUtilExpand16 _) _ =>
        apply then_expand_rel; [intros; by apply forUtilExpand16_rel|]
    | |- go_rel _ (then_expand forUtilExpand32 _) _ =>
        apply then_expand_rel; [intros; by apply forUtilExpand32_rel|]
    end;
    rel_decode912.
Qed.
End DecodeRel.
End Rel.

(** * [int64] blocks on byte streams *)

Section Streams912.
Context {O I : Type} `{DataOutput O} `{DataInput I}.

Definition l912Encode (tmp longs : list Z) (bitsPerValue : Z) (out : O) : M (bufs Z * O) :=
  forUtil_encode (H := int_word 64) WriteLong tmp longs bitsPerValue out.

Definition l912Decode (bitsPerValue : Z) (f : bufs Z) (inp : I) : M (bufs Z * I) :=
  forUtil_decode (H := int_word 64) ReadLong bitsPerValue f inp.
End Streams912.

Definition f912_check (bpv : Z) : bool :=
  sym_check 64 BlockSize 64 bpv (Z.to_nat (2 * bpv))
    (fun f xs o => forUtil_encode (H := sym_word 64) (sym_wr (Z.to_nat (2 * bpv))) (b_tmp f) xs bpv o)
    (fun f s => forUtil_decode (H := sym_word 64) sym_rd bpv f s).

Lemma f912_check_all : forallb f912_check (seqZ 1 31) = true.
Proof. vm_compute. reflexivity. Qed.

Lemma long_bytes_length v : length (long_bytes v) = 8%nat.
Proof. done. Qed.

Lemma long_bytes_is_byte v : Forall is_byte (long_bytes v).
Proof. repeat (constructor; [by apply uwrap_range|]). constructor. Qed.

(** The caller's array and the scratch array. *)
Abbreviation for912_ok := (bufs_ok 64 BlockSize 64).

(** The 9.12 codec loses nothing: for every width from 1 to 31 bits and
    every block of 128 values below [2^bpv], [encode] emits
    [forUtilNumBytes bpv] bytes, collapsing the caller's array on the way, and
    [decode] restores the block from them in an array with any contents. *)
Theorem Lucene912_roundtrip {O I : Type} `{DataOutputLaws O} `{DataInputLaws I} bpv xs :
  1 ≤ bpv ≤ 31 → Z.of_nat (length xs) = BlockSize → Forall (in_uint bpv) xs →
  ∃ bs, Z.of_nat (length bs) = forUtilNumBytes bpv ∧
    block_codec for912_ok (fun f (o : O) => l912Encode (b_tmp f) xs bpv o)
      (fun f (s : I) => l912Decode bpv f s) (fun f => b_ints f = xs) bs.
Proof.
  intros Hb Hl Hxs. pose proof (widths_check _ bpv f912_check_all Hb) as Hc.
  destruct (sym_codec (O := O) (I := I) 64 long_bytes 8 long_bytes_length long_bytes_is_byte
    BlockSize 64 bpv (Z.to_nat (2 * bpv)) xs
    (fun f xs o => forUtil_encode (H := sym_word 64) (sym_wr (Z.to_nat (2 * bpv))) (b_tmp f) xs bpv o)
    (fun f s => forUtil_decode (H := sym_word 64) sym_rd bpv f s)
    (fun f xs o => forUtil_encode (H := int_word 64) WriteLong (b_tmp f) xs bpv o)
    (fun f s => forUtil_decode (H := int_word 64) ReadLong bpv f s))
    as (bs & Hbl & Hcodec); [lia|done..| | |exact Hc|].
  - intros env n v0 RO a b c d o p [_ Ht] Hcd Ho.
    apply (forUtil_encode_rel (sym_word_rel env 64 ltac:(lia)) (RO := RO)); [|done..].
    intros. apply (sym_wr_rel env 64 _ 8 long_bytes_length); [|done..].
    intros. apply WriteLong_emits.
  - intros. apply (forUtil_decode_rel (sym_word_rel env 64 ltac:(lia)) (RI := RI)); [|done..].
    intros. apply sym_rd_rel; [|done]. intros. by apply ReadLong_consumes.
  - exists bs. split; [|exact Hcodec]. rewrite Hbl. unfold forUtilNumBytes, BlockSizeLog2.
    rewrite Z.shiftl_mul_pow2 by lia. change (2 ^ (7 - 3)) with 16. lia.
Qed.

Lemma Lucene912_roundtrip_witness :
  let xs := map (fun i => i mod 29) (seqZ 0 128) in
  ∃ bs, Z.of_nat (length bs) = 80 ∧
    block_codec for912_ok (fun f (o : ByteArrayDataOutput) => l912Encode (b_tmp f) xs 5 o)
      (fun f (s : ByteArrayDataInput) => l912Decode 5 f s) (fun f => b_ints f = xs) bs.
Proof.
  intros xs. apply (Lucene912_roundtrip (O := ByteArrayDataOutput) (I := ByteArrayDataInput) 5 xs);
    [done|by vm_compute|]. apply in_uints_check. vm_compute. reflexivity.
Defined.
