(* ===== verification/Directory.v ===== *)
(** The directory of index files, as the file deleters see it: the interface
    with its laws, and the in-memory directory of
    [store/byte_buffers_directory.go] as an implementation. *)

From stdpp Require Import base tactics numbers list gmap strings sorting.
From Stdlib Require Import ZArith Lia.
From S2P Require Import Prelude.

Local Open Scope Z_scope.

(** [store.ErrFileNotFound], [fs.ErrNotExist], [ErrIllegalState] and the rest. *)
Inductive dir_err :=
  | ErrFileNotFound (name : string)
  | NotExist (name : string)
  | ErrIllegalState
  | OtherErr (msg : string).

Definition is_missing (e : dir_err) : bool :=
  match e with ErrFileNotFound _ | NotExist _ => true | _ => false end.

(** A failing operation may leave the directory in another state, so the
    result carries it in every case. *)
Class Directory (D : Type) := {
  DeleteFile : string → D → option dir_err * D;
  ListAll : D → (list string + dir_err);
  dir_files : D → gset string
}.

Class DirectoryLaws (D : Type) `{Directory D} : Prop := {
  delete_ok name d d' : DeleteFile name d = (None, d') →
    dir_files d' = dir_files d ∖ {[name]};
  delete_err name d e d' : DeleteFile name d = (Some e, d') → dir_files d' = dir_files d;
  delete_missing name d d' e :
    DeleteFile name d = (Some e, d') → is_missing e = true → name ∉ dir_files d;
  list_all d l : ListAll d = inl l → ∀ f, f ∈ l ↔ f ∈ dir_files d
}.

(** * [ByteBuffersDirectory] *)

Record ByteBuffersDirectory := {
  bb_files : gmap string (list Z);
  bb_open : bool
}.

Definition EnsureOpen (d : ByteBuffersDirectory) : option dir_err :=
  if bb_open d then None else Some ErrIllegalState.

Definition bb_DeleteFile (name : string) (d : ByteBuffersDirectory)
  : option dir_err * ByteBuffersDirectory :=
  match EnsureOpen d with
  | Some e => (Some e, d)
  | None =>
      match bb_files d !! name with
      | None => (Some (ErrFileNotFound name), d)
      | Some _ => (None, {| bb_files := delete name (bb_files d); bb_open := bb_open d |})
      end
  end.

(** The order of [sort.Strings]. *)
Definition string_le (a b : string) : Prop := String.leb a b = true.
#[export] Instance string_le_dec : RelDecision string_le :=
  fun a b => bool_eq_dec (String.leb a b) true.

Definition bb_ListAll (d : ByteBuffersDirectory) : list string + dir_err :=
  match EnsureOpen d with
  | Some e => inr e
  | None => inl (merge_sort string_le (fst <$> map_to_list (bb_files d)))
  end.

Definition bb_FileExists (name : string) (d : ByteBuffersDirectory) : bool :=
  if bb_open d then bool_decide (is_Some (bb_files d !! name)) else false.

(** [CreateOutput] makes an empty file.  (The table of open handles, which it
    also updates, only matters to [Rename].) *)
Definition bb_CreateOutput (name : string) (d : ByteBuffersDirectory)
  : option dir_err * ByteBuffersDirectory :=
  match EnsureOpen d with
  | Some e => (Some e, d)
  | None =>
      match bb_files d !! name with
      | Some _ => (Some (OtherErr "file already exists"), d)
      | None => (None, {| bb_files := <[name := []]> (bb_files d); bb_open := bb_open d |})
      end
  end.

#[export] Instance bb_directory : Directory ByteBuffersDirectory := {
  DeleteFile := bb_DeleteFile;
  ListAll := bb_ListAll;
  dir_files d := dom (bb_files d)
}.

#[export] Instance bb_directory_laws : DirectoryLaws ByteBuffersDirectory.
Proof.
  split; simpl; unfold bb_DeleteFile, bb_ListAll, EnsureOpen.
  - intros name [fs [|]] d'; simpl; [|done]. destruct (fs !! name); [|done].
    intros [= <-]. simpl. apply dom_delete_L.
  - intros name [fs [|]] e d'; simpl; [|by intros [= _ <-]].
    by destruct (fs !! name); [|intros [= _ <-]].
  - intros name [fs [|]] d' e; simpl; [|by intros [= <- _]].
    destruct (fs !! name) eqn:E; [done|]. intros _ _. by apply not_elem_of_dom.
  - intros [fs [|]] l; simpl; [|done]. intros [= <-] f.
    rewrite (merge_sort_Permutation string_le (fst <$> map_to_list fs)).
    rewrite list_elem_of_fmap, elem_of_dom. split.
    + intros ([k v] & -> & ?%elem_of_map_to_list). by exists v.
    + intros [v ?]. exists (f, v). by rewrite elem_of_map_to_list.
Qed.
