(* ===== verification/FileDeleter.v ===== *)
(** Reference counts of index files: [util/file_deleter.go].

    A file is deleted when its count drops to zero; in one batch the
    [segments_] files go first, so that a crash leaves no commit point without
    its files.  Messages to the log are not modelled. *)

From stdpp Require Import base tactics numbers list gmap strings.
From Stdlib Require Import ZArith Lia.
From S2P Require Import Prelude Directory.

Local Open Scope Z_scope.

Record FileDeleterRefCount := { rc_FileName : string; rc_InitDone : bool; rc_Count : Z }.

Record FileDeleter (D : Type) := {
  directory : D;
  refCounts : gmap string FileDeleterRefCount;
  SegmentsPrefix : string;
  TolerateMissingOnDelete : bool
}.
Arguments directory {D} _.
Arguments refCounts {D} _.
Arguments SegmentsPrefix {D} _.
Arguments TolerateMissingOnDelete {D} _.

(** The errors an operation joins. *)
Inductive fd_err :=
  | DeleteErr (e : dir_err)
  | DecRefOf (name : string) (count : Z).

Definition rc_IncRef (r : FileDeleterRefCount) : FileDeleterRefCount :=
  {| rc_FileName := rc_FileName r; rc_InitDone := true; rc_Count := rc_Count r + 1 |}.

Definition rc_DecRef (r : FileDeleterRefCount) : FileDeleterRefCount :=
  {| rc_FileName := rc_FileName r; rc_InitDone := rc_InitDone r; rc_Count := rc_Count r - 1 |}.

Section FileDeleter.
Context {D : Type} `{Directory D}.
Implicit Types (d : FileDeleter D) (f name : string) (names : list string).

Definition NewFileDeleter (dir : D) (windows : bool) : FileDeleter D :=
  {| directory := dir; refCounts := ∅; SegmentsPrefix := "segments_";
     TolerateMissingOnDelete := windows |}.

Definition set_counts (m : gmap string FileDeleterRefCount) d : FileDeleter D :=
  {| directory := directory d; refCounts := m; SegmentsPrefix := SegmentsPrefix d;
     TolerateMissingOnDelete := TolerateMissingOnDelete d |}.

Definition set_directory (dir : D) d : FileDeleter D :=
  {| directory := dir; refCounts := refCounts d; SegmentsPrefix := SegmentsPrefix d;
     TolerateMissingOnDelete := TolerateMissingOnDelete d |}.

(** The entry of a file, made on demand.  The code returns a pointer to it: a
    change of the entry is a write to the map. *)
Definition getRefCountInternal name d : FileDeleterRefCount * FileDeleter D :=
  match refCounts d !! name with
  | Some rc => (rc, d)
  | None =>
      let rc := {| rc_FileName := name; rc_InitDone := false; rc_Count := 0 |} in
      (rc, set_counts (<[name := rc]> (refCounts d)) d)
  end.

Definition IncRef name d : FileDeleter D :=
  let '(rc, d) := getRefCountInternal name d in
  set_counts (<[name := rc_IncRef rc]> (refCounts d)) d.

Fixpoint IncRefAll names d : FileDeleter D :=
  match names with
  | [] => d
  | name :: names' => IncRefAll names' (IncRef name d)
  end.

Definition decRef name d : bool * option fd_err * FileDeleter D :=
  let '(rc, d) := getRefCountInternal name d in
  if rc_Count rc <=? 0 then (false, Some (DecRefOf name (rc_Count rc)), d) else
  let rc := rc_DecRef rc in
  let d := set_counts (<[name := rc]> (refCounts d)) d in
  if rc_Count rc =? 0 then (true, None, set_counts (base.delete name (refCounts d)) d)
  else (false, None, d).

Definition deleteOne name d : option fd_err * FileDeleter D :=
  let '(e, dir) := DeleteFile name (directory d) in
  let d := set_directory dir d in
  match e with
  | None => (None, d)
  | Some (NotExist n) =>
      if TolerateMissingOnDelete d then (None, d) else (Some (DeleteErr (NotExist n)), d)
  | Some e => (Some (DeleteErr e), d)
  end.

(** One pass over the names [keep] selects. *)
Fixpoint delete_pass (keep : string → bool) names d : list fd_err * FileDeleter D :=
  match names with
  | [] => ([], d)
  | name :: names' =>
      if keep name then
        let '(e, d) := deleteOne name d in
        let '(es, d) := delete_pass keep names' d in
        (option_list e ++ es, d)
      else delete_pass keep names' d
  end.

Definition delete (toDelete : list string) d : list fd_err * FileDeleter D :=
  match toDelete with
  | [] => ([], d)
  | _ =>
      let '(e1, d) := delete_pass (String.prefix (SegmentsPrefix d)) toDelete d in
      let '(e2, d) := delete_pass (fun n => negb (String.prefix (SegmentsPrefix d) n)) toDelete d in
      (e1 ++ e2, d)
  end.

(** The loop of [DecRefAll]: the files to delete, the errors, the deleter. *)
Fixpoint decref_loop names d : list string * list fd_err * FileDeleter D :=
  match names with
  | [] => ([], [], d)
  | name :: names' =>
      let '(drop, e, d) := decRef name d in
      let '(toDelete, es, d) := decref_loop names' d in
      match e with
      | Some e => (toDelete, e :: es, d)
      | None => (if drop then name :: toDelete else toDelete, es, d)
      end
  end.

Definition DecRefAll names d : list fd_err * FileDeleter D :=
  let '(toDelete, es, d) := decref_loop names d in
  let '(es', d) := delete toDelete d in
  (es ++ es', d).

Definition InitRefCount name d : FileDeleter D :=
  match refCounts d !! name with
  | Some _ => d
  | None => set_counts (<[name := {| rc_FileName := name; rc_InitDone := false; rc_Count := 0 |}]>
              (refCounts d)) d
  end.

Definition GetRefCount name d : Z := match refCounts d !! name with Some rc => rc_Count rc | None => 0 end.

Definition AllFiles d : list string := fst <$> map_to_list (refCounts d).

Definition Exists name d : bool :=
  match refCounts d !! name with Some rc => 0 <? rc_Count rc | None => false end.

Definition UnrefedFiles d : list string :=
  fst <$> filter (fun p => rc_Count p.2 = 0) (map_to_list (refCounts d)).

Definition DeleteFilesIfNoRef (files : list string) d : list fd_err * FileDeleter D :=
  delete (base.filter (fun name => Exists name d = false) files) d.

Definition ForceDelete name d : option fd_err * FileDeleter D :=
  deleteOne name (set_counts (base.delete name (refCounts d)) d).

Definition DeleteFileIfNoRef name d : option fd_err * FileDeleter D :=
  if Exists name d then (None, d) else deleteOne name d.
End FileDeleter.

(** * Occurrences in a list of names *)

Fixpoint occ (f : string) (l : list string) : Z :=
  match l with
  | [] => 0
  | x :: l' => (if decide (x = f) then 1 else 0) + occ f l'
  end.

Lemma occ_nonneg f l : 0 ≤ occ f l.
Proof. induction l as [|x l IH]; simpl; [done|]. destruct (decide (x = f)); lia. Qed.

Lemma occ_app f l k : occ f (l ++ k) = occ f l + occ f k.
Proof. induction l as [|x l IH]; simpl; lia. Qed.

Lemma occ_pos f l : f ∈ l ↔ 0 < occ f l.
Proof.
  induction l as [|x l IH]; simpl.
  - by rewrite elem_of_nil.
  - pose proof (occ_nonneg f l). rewrite elem_of_cons, IH.
    destruct (decide (x = f)) as [->|Hn]; split; [lia|by left|intros [->|]; [done|lia]|right; lia].
Qed.

Lemma occ_zero f l : f ∉ l → occ f l = 0.
Proof. rewrite occ_pos. pose proof (occ_nonneg f l). lia. Qed.

(** * What the operations do to counts and directory *)

Section Spec.
Context {D : Type} `{DirectoryLaws D}.
Implicit Types (d : FileDeleter D) (f name : string) (names : list string).

(** No count is negative. *)
Definition counts_ok d : Prop := ∀ f rc, refCounts d !! f = Some rc → 0 ≤ rc_Count rc.

(** Nothing but the counts differs. *)
Definition same_but_counts d d' : Prop :=
  directory d' = directory d ∧ SegmentsPrefix d' = SegmentsPrefix d
  ∧ TolerateMissingOnDelete d' = TolerateMissingOnDelete d.

#[export] Instance same_but_counts_preorder : PreOrder same_but_counts.
Proof. split; [by intros ?|]. intros x y z (? & ? & ?) (? & ? & ?). split_and!; congruence. Qed.

Lemma GetRefCount_nonneg f d : counts_ok d → 0 ≤ GetRefCount f d.
Proof. intros Hd. unfold GetRefCount. destruct (_ !! f) eqn:E; [by eapply Hd|done]. Qed.

Lemma Exists_count f d : Exists f d = (0 <? GetRefCount f d).
Proof. unfold Exists, GetRefCount. by destruct (_ !! f). Qed.

(** A write to one entry. *)
Lemma GetRefCount_insert f name rc d :
  GetRefCount f (set_counts (<[name := rc]> (refCounts d)) d)
  = if decide (name = f) then rc_Count rc else GetRefCount f d.
Proof.
  unfold GetRefCount. simpl. case_decide as E.
  - subst. by rewrite lookup_insert_eq.
  - by rewrite lookup_insert_ne.
Qed.

Lemma GetRefCount_delete f name d :
  GetRefCount f (set_counts (base.delete name (refCounts d)) d)
  = if decide (name = f) then 0 else GetRefCount f d.
Proof.
  unfold GetRefCount. simpl. case_decide as E.
  - subst. by rewrite lookup_delete_eq.
  - by rewrite lookup_delete_ne.
Qed.

Lemma counts_ok_insert name rc d :
  counts_ok d → 0 ≤ rc_Count rc → counts_ok (set_counts (<[name := rc]> (refCounts d)) d).
Proof.
  intros Hd Hrc f rc'. simpl. rewrite lookup_insert_Some. intros [[_ <-]|[_ Hl]]; [done|by eapply Hd].
Qed.

Lemma counts_ok_delete name d :
  counts_ok d → counts_ok (set_counts (base.delete name (refCounts d)) d).
Proof. intros Hd f rc'. simpl. rewrite lookup_delete_Some. intros [_ Hl]. by eapply Hd. Qed.

Lemma getRefCountInternal_spec name d rc d' :
  getRefCountInternal name d = (rc, d') → counts_ok d →
  rc_Count rc = GetRefCount name d ∧ (∀ f, GetRefCount f d' = GetRefCount f d)
  ∧ counts_ok d' ∧ same_but_counts d d'.
Proof.
  unfold getRefCountInternal. intros E Hd. destruct (refCounts d !! name) eqn:El.
  - simplify_eq. unfold GetRefCount at 1. by rewrite El.
  - simplify_eq. unfold GetRefCount at 1. rewrite El. split_and!; try done.
    + intros f. rewrite GetRefCount_insert. case_decide; [subst; simpl|done].
      unfold GetRefCount. by rewrite El.
    + by apply counts_ok_insert.
Qed.

Lemma IncRef_spec name d :
  counts_ok d →
  (∀ f, GetRefCount f (IncRef name d) = GetRefCount f d + if decide (name = f) then 1 else 0)
  ∧ counts_ok (IncRef name d) ∧ same_but_counts d (IncRef name d).
Proof.
  intros Hd. unfold IncRef. destruct (getRefCountInternal name d) as [rc d1] eqn:E.
  destruct (getRefCountInternal_spec _ _ _ _ E Hd) as (Hc & Hf & Hok & Hs).
  pose proof (GetRefCount_nonneg name d Hd). split_and!.
  - intros f. rewrite GetRefCount_insert, <- Hf. case_decide; [|lia]. subst. simpl. rewrite Hf. lia.
  - apply counts_ok_insert; [done|simpl; lia].
  - by etransitivity.
Qed.

Lemma IncRefAll_spec names d :
  counts_ok d →
  (∀ f, GetRefCount f (IncRefAll names d) = GetRefCount f d + occ f names)
  ∧ counts_ok (IncRefAll names d) ∧ same_but_counts d (IncRefAll names d).
Proof.
  revert d. induction names as [|name names IH]; intros d Hd; simpl.
  - split_and!; [intros; lia|done..].
  - destruct (IncRef_spec name d Hd) as (Hc & Hok & Hs).
    destruct (IH _ Hok) as (Hc' & Hok' & Hs'). split_and!; [|done|by etransitivity].
    intros f. rewrite Hc', Hc. lia.
Qed.

(** Releasing a reference that is held. *)
Lemma decRef_held name d :
  counts_ok d → 0 < GetRefCount name d →
  ∃ d', decRef name d = (GetRefCount name d =? 1, None, d') ∧ counts_ok d' ∧ same_but_counts d d'
    ∧ ∀ f, GetRefCount f d' = GetRefCount f d - if decide (name = f) then 1 else 0.
Proof.
  intros Hd Hpos. unfold decRef. destruct (getRefCountInternal name d) as [rc d1] eqn:E.
  destruct (getRefCountInternal_spec _ _ _ _ E Hd) as (Hc & Hf & Hok & Hs).
  rewrite (proj2 (Z.leb_gt (rc_Count rc) 0)) by lia.
  assert (Hok' : counts_ok (set_counts (<[name := rc_DecRef rc]> (refCounts d1)) d1))
    by (apply counts_ok_insert; [done|simpl; lia]).
  pose proof (λ f, GetRefCount_insert f name (rc_DecRef rc) d1) as Hf2.
  cbv zeta. change (rc_Count (rc_DecRef rc)) with (rc_Count rc - 1) in *.
  assert (Hs2 : same_but_counts d (set_counts (<[name := rc_DecRef rc]> (refCounts d1)) d1)) by done.
  set (d2 := set_counts _ d1) in *. clearbody d2. rewrite Hc in *.
  destruct (Z.eqb_spec (GetRefCount name d - 1) 0) as [E1|E1].
  - rewrite (proj2 (Z.eqb_eq (GetRefCount name d) 1)) by lia. eexists. split; [done|].
    split_and!; [by apply counts_ok_delete|done|].
    intros f. rewrite GetRefCount_delete, Hf2, Hf. case_decide; [subst; lia|lia].
  - rewrite (proj2 (Z.eqb_neq (GetRefCount name d) 1)) by lia. eexists. split; [done|].
    split_and!; [done|done|]. intros f. rewrite Hf2, Hf. case_decide; [subst; lia|lia].
Qed.

(** Releasing one that is not held is an error, without effect on the counts. *)
Lemma decRef_not_held name d :
  counts_ok d → GetRefCount name d = 0 →
  ∃ d', decRef name d = (false, Some (DecRefOf name 0), d') ∧ counts_ok d' ∧ same_but_counts d d'
    ∧ ∀ f, GetRefCount f d' = GetRefCount f d.
Proof.
  intros Hd Hz. unfold decRef. destruct (getRefCountInternal name d) as [rc d1] eqn:E.
  destruct (getRefCountInternal_spec _ _ _ _ E Hd) as (Hc & Hf & Hok & Hs).
  rewrite Hc, Hz. by exists d1.
Qed.

(** Any release: whether the file is dropped, the error, the counts. *)
Lemma decRef_spec name d drop e d' :
  counts_ok d → decRef name d = (drop, e, d') →
  counts_ok d' ∧ same_but_counts d d' ∧ (drop = true → GetRefCount name d' = 0)
  ∧ (∀ f, GetRefCount f d' ≤ GetRefCount f d)
  ∧ (0 < GetRefCount name d → e = None)
  ∧ (∀ f, 0 < GetRefCount f d → GetRefCount f d' = GetRefCount f d - occ f [name])
  ∧ (0 < GetRefCount name d → GetRefCount name d' = 0 → drop = true).
Proof.
  intros Hd E. pose proof (GetRefCount_nonneg name d Hd).
  destruct (decide (GetRefCount name d = 0)) as [Hz|Hnz].
  - destruct (decRef_not_held name d Hd Hz) as (d1 & E1 & Hok & Hs & Hf).
    rewrite E1 in E. simplify_eq. split_and!; try done; try lia.
    + intros f. by rewrite Hf.
    + intros f Hp. rewrite Hf. simpl. case_decide; [subst; lia|lia].
  - destruct (decRef_held name d Hd ltac:(lia)) as (d1 & E1 & Hok & Hs & Hf).
    rewrite E1 in E. simplify_eq. rewrite Hf, (decide_True (P := name = name)) by done.
    split_and!; try done; try lia.
    + intros f. rewrite Hf. case_decide; lia.
    + intros f Hp. rewrite Hf. simpl. case_decide; lia.
Qed.
(** The loop over a batch. *)
Lemma decref_loop_spec names d toDelete es d' :
  counts_ok d → decref_loop names d = (toDelete, es, d') →
  counts_ok d' ∧ same_but_counts d d'
  ∧ (∀ f, GetRefCount f d' ≤ GetRefCount f d)
  ∧ (∀ f, f ∈ toDelete → f ∈ names ∧ GetRefCount f d' = 0).
Proof.
  revert d toDelete es d'. induction names as [|name names IH]; simpl; intros d toDelete es d' Hd E.
  - simplify_eq. split_and!; try done. intros f. by rewrite elem_of_nil.
  - destruct (decRef name d) as [[drop e] d1] eqn:E1.
    destruct (decref_loop names d1) as [[del es1] d2] eqn:E2.
    destruct (decRef_spec _ _ _ _ _ Hd E1) as (Hok1 & Hs1 & Hdrop & Hle1 & _).
    destruct (IH _ _ _ _ Hok1 E2) as (Hok2 & Hs2 & Hle2 & Hdel).
    assert (Hd' : d' = d2 ∧ ∀ f, f ∈ toDelete → f ∈ del ∨ (f = name ∧ drop = true)).
    { destruct e; [by simplify_eq; auto|]. simplify_eq. split; [done|].
      intros f. destruct drop; [|by left]. rewrite elem_of_cons. naive_solver. }
    destruct Hd' as [-> Hin]. split_and!; [done|by etransitivity| |].
    + intros f. specialize (Hle1 f). specialize (Hle2 f). lia.
    + intros f [Hf|[-> Hf]]%Hin.
      * destruct (Hdel f Hf). split; [by right|done].
      * split; [by left|]. pose proof (GetRefCount_nonneg name d2 Hok2).
        specialize (Hle2 name). rewrite (Hdrop Hf) in Hle2. lia.
Qed.

(** ... when all the references it releases are held. *)
Lemma decref_loop_held names d toDelete es d' :
  counts_ok d → (∀ f, occ f names ≤ GetRefCount f d) →
  decref_loop names d = (toDelete, es, d') →
  es = [] ∧ (∀ f, GetRefCount f d' = GetRefCount f d - occ f names)
  ∧ (∀ f, f ∈ names → GetRefCount f d' = 0 → f ∈ toDelete).
Proof.
  revert d toDelete es d'. induction names as [|name names IH]; simpl; intros d toDelete es d' Hd Hh E.
  - simplify_eq. split_and!; [done|intros; lia|]. intros f. by rewrite elem_of_nil.
  - assert (Hpos : 0 < GetRefCount name d).
    { specialize (Hh name). rewrite decide_True in Hh by done. pose proof (occ_nonneg name names). lia. }
    destruct (decRef_held name d Hd Hpos) as (d1 & E1 & Hok1 & Hs1 & Hf1). rewrite E1 in E.
    destruct (decref_loop names d1) as [[del es1] d2] eqn:E2.
    destruct (IH d1 del es1 d2 Hok1) as (-> & Hf2 & Hdel); [|done|].
    { intros f. rewrite Hf1. specialize (Hh f). case_decide; lia. }
    simplify_eq. split_and!; [done| |].
    + intros f. rewrite Hf2, Hf1. case_decide; lia.
    + intros f [->|Hin]%elem_of_cons Hz.
      * destruct (decide (name ∈ names)) as [Hn|Hn].
        -- destruct (_ =? _); [right|]; by apply Hdel.
        -- rewrite Hf2, Hf1, decide_True, occ_zero in Hz by done.
           rewrite (proj2 (Z.eqb_eq _ 1)) by lia. by left.
      * destruct (_ =? _); [right|]; by apply Hdel.
Qed.

Definition files d : gset string := dir_files (directory d).

(** Deleting changes nothing but the directory. *)
Definition same_but_dir d d' : Prop :=
  refCounts d' = refCounts d ∧ SegmentsPrefix d' = SegmentsPrefix d
  ∧ TolerateMissingOnDelete d' = TolerateMissingOnDelete d.

#[export] Instance same_but_dir_preorder : PreOrder same_but_dir.
Proof. split; [by intros ?|]. intros x y z (? & ? & ?) (? & ? & ?). split_and!; congruence. Qed.

Lemma deleteOne_spec name d e d' :
  deleteOne name d = (e, d') →
  same_but_dir d d' ∧ files d ∖ {[name]} ⊆ files d' ∧ files d' ⊆ files d
  ∧ (e = None → name ∉ files d').
Proof.
  unfold deleteOne, files. destruct (DeleteFile name (directory d)) as [[err|] dir] eqn:E.
  - pose proof (delete_err _ _ _ _ E) as Hd. pose proof (delete_missing _ _ _ _ E) as Hm.
    assert (Hgen : d' = set_directory dir d ∧ (e = None → is_missing err = true) →
      same_but_dir d d' ∧ dir_files (directory d) ∖ {[name]} ⊆ dir_files (directory d')
      ∧ dir_files (directory d') ⊆ dir_files (directory d)
      ∧ (e = None → name ∉ dir_files (directory d'))).
    { intros [-> Hn]. simpl. rewrite Hd. split_and!; [done|set_solver|done|auto]. }
    intros Heq. apply Hgen. destruct err; try (by simplify_eq).
    destruct (TolerateMissingOnDelete _); by simplify_eq.
  - intros [= <- <-]. simpl. rewrite (delete_ok _ _ _ E). split_and!; [done|done|set_solver|set_solver].
Qed.

Lemma delete_pass_spec keep names d es d' :
  delete_pass keep names d = (es, d') →
  same_but_dir d d' ∧ files d' ⊆ files d
  ∧ (∀ f, f ∈ files d → f ∉ names → f ∈ files d')
  ∧ (es = [] → ∀ f, f ∈ names → keep f = true → f ∉ files d').
Proof.
  revert d es d'. induction names as [|name names IH]; simpl; intros d es d' E.
  - simplify_eq. split_and!; [done|done|done|]. intros _ f. by rewrite elem_of_nil.
  - destruct (keep name) eqn:Ek.
    + destruct (deleteOne name d) as [e d1] eqn:E1. destruct (delete_pass keep names d1) as [es1 d2] eqn:E2.
      destruct (deleteOne_spec _ _ _ _ E1) as (Hs1 & Hsup1 & Hsub1 & Hn1).
      destruct (IH _ _ _ E2) as (Hs2 & Hsub2 & Hsup2 & Hn2). injection E as <- <-.
      split_and!; [by etransitivity|set_solver| |].
      * intros f Hf Hin. apply Hsup2; set_solver.
      * intros [He ->]%app_eq_nil f [->|Hin]%elem_of_cons Hk; [|by apply Hn2].
        destruct e; [done|]. intros ?%Hsub2. by apply Hn1.
    + destruct (IH _ _ _ E) as (Hs & Hsub & Hsup & Hn). split_and!; [done|done|set_solver|].
      intros He f [->|Hin]%elem_of_cons Hk; [congruence|by apply Hn].
Qed.

Lemma delete_pass_errors keep names d es d' :
  delete_pass keep names d = (es, d') → ∀ e, e ∈ es → ∃ e', e = DeleteErr e'.
Proof.
  revert d es d'. induction names as [|name names IH]; simpl; intros d es d' E.
  - simplify_eq. intros e. by rewrite elem_of_nil.
  - destruct (keep name); [|by eapply IH].
    destruct (deleteOne name d) as [e d1] eqn:E1. destruct (delete_pass keep names d1) as [es1 d2] eqn:E2.
    injection E as <- <-. intros e' [Hin|Hin]%elem_of_app; [|by eapply IH].
    destruct e as [e|]; simpl in Hin; [|by rewrite elem_of_nil in Hin].
    apply list_elem_of_singleton in Hin as ->. unfold deleteOne in E1.
    destruct (DeleteFile name (directory d)) as [[err|] dir]; [|done].
    by destruct err; try destruct (TolerateMissingOnDelete _); simplify_eq; eexists.
Qed.

Lemma delete_errors names d es d' :
  delete names d = (es, d') → ∀ e, e ∈ es → ∃ e', e = DeleteErr e'.
Proof.
  unfold delete. intros E. destruct names as [|n names].
  { simplify_eq. intros e. by rewrite elem_of_nil. }
  destruct (delete_pass (String.prefix (SegmentsPrefix d)) (n :: names) d) as [e1 d1] eqn:E1.
  destruct (delete_pass (fun n => negb (String.prefix (SegmentsPrefix d1) n)) (n :: names) d1)
    as [e2 d2] eqn:E2. injection E as <- <-.
  intros e [Hin|Hin]%elem_of_app.
  - exact (delete_pass_errors _ _ _ _ _ E1 e Hin).
  - exact (delete_pass_errors _ _ _ _ _ E2 e Hin).
Qed.

(** A batch of deletions: nothing but files of the batch disappears, and
    without an error all of them do. *)
Lemma delete_spec names d es d' :
  delete names d = (es, d') →
  same_but_dir d d' ∧ files d' ⊆ files d
  ∧ (∀ f, f ∈ files d → f ∉ names → f ∈ files d')
  ∧ (es = [] → ∀ f, f ∈ names → f ∉ files d').
Proof.
  unfold delete. intros E. destruct names as [|n names].
  { simplify_eq. split_and!; [done|done|done|]. intros _ f. by rewrite elem_of_nil. }
  set (l := n :: names) in *. clearbody l.
  destruct (delete_pass (String.prefix (SegmentsPrefix d)) l d) as [e1 d1] eqn:E1.
  destruct (delete_pass (fun n => negb (String.prefix (SegmentsPrefix d1) n)) l d1) as [e2 d2] eqn:E2.
  destruct (delete_pass_spec _ _ _ _ _ E1) as (Hs1 & Hsub1 & Hsup1 & Hn1).
  destruct (delete_pass_spec _ _ _ _ _ E2) as (Hs2 & Hsub2 & Hsup2 & Hn2). injection E as <- <-.
  split_and!; [by etransitivity|set_solver|auto|].
  intros [-> ->]%app_eq_nil f Hin. destruct (String.prefix (SegmentsPrefix d) f) eqn:Hp.
  - intros ?%Hsub2. by eapply Hn1.
  - apply Hn2; [done..|]. destruct Hs1 as (_ & -> & _). by rewrite Hp.
Qed.

(** [DecRefAll], whatever the counts are: no file that is still referenced
    afterwards disappears. *)
Lemma DecRefAll_safe names d es d' :
  counts_ok d → DecRefAll names d = (es, d') →
  counts_ok d' ∧ (∀ f, GetRefCount f d' ≤ GetRefCount f d) ∧ files d' ⊆ files d
  ∧ (∀ f, f ∈ files d → 0 < GetRefCount f d' → f ∈ files d')
  ∧ (∀ f, f ∈ files d → f ∉ names → f ∈ files d').
Proof.
  intros Hd. unfold DecRefAll. destruct (decref_loop names d) as [[del es1] d1] eqn:E1.
  destruct (delete del d1) as [es2 d2] eqn:E2. intros [= <- <-].
  destruct (decref_loop_spec _ _ _ _ _ Hd E1) as (Hok & (Hdir & _) & Hle & Hdel).
  destruct (delete_spec _ _ _ _ E2) as ((Hc & _) & Hsub & Hsup & _).
  assert (Hfiles : files d1 = files d) by (unfold files; by rewrite Hdir).
  assert (Hcnt : ∀ f, GetRefCount f d2 = GetRefCount f d1) by (intros f; unfold GetRefCount; by rewrite Hc).
  rewrite Hfiles in *. split_and!; [|intros f; by rewrite Hcnt|done| |].
  - intros f rc. rewrite Hc. apply Hok.
  - intros f Hf. rewrite Hcnt. intros Hpos. apply Hsup; [done|]. intros [_ Hz]%Hdel. lia.
  - intros f Hf Hn. apply Hsup; [done|]. by intros [? _]%Hdel.
Qed.

(** ... and when all the references it releases are held, they are gone
    afterwards, every error comes from the directory, and without one the files
    nobody references any more are gone too. *)
Lemma DecRefAll_held names d es d' :
  counts_ok d → (∀ f, occ f names ≤ GetRefCount f d) → DecRefAll names d = (es, d') →
  (∀ f, GetRefCount f d' = GetRefCount f d - occ f names)
  ∧ (∀ e, e ∈ es → ∃ e', e = DeleteErr e')
  ∧ (es = [] → ∀ f, f ∈ names → GetRefCount f d' = 0 → f ∉ files d').
Proof.
  intros Hd Hh. unfold DecRefAll. destruct (decref_loop names d) as [[del es1] d1] eqn:E1.
  destruct (delete del d1) as [es2 d2] eqn:E2. intros [= <- <-].
  destruct (decref_loop_held _ _ _ _ _ Hd Hh E1) as (-> & Hf & Hdel).
  destruct (delete_spec _ _ _ _ E2) as ((Hc & _) & _ & _ & Hn). simpl.
  assert (Hcnt : ∀ f, GetRefCount f d2 = GetRefCount f d1) by (intros f; unfold GetRefCount; by rewrite Hc).
  split_and!.
  - intros f. by rewrite Hcnt.
  - apply (delete_errors _ _ _ _ E2).
  - intros He f Hin. rewrite Hcnt. intros Hz. apply Hn; [done|by apply Hdel].
Qed.
End Spec.

(** * Properties *)

Section Properties.
Context {D : Type} `{Directory D}.

Lemma delete_pass_prefix keep names (d : FileDeleter D) es d' :
  delete_pass keep names d = (es, d') → SegmentsPrefix d' = SegmentsPrefix d.
Proof.
  revert d es d'. induction names as [|name names IH]; simpl; intros d es d' E; [by simplify_eq|].
  destruct (keep name); [|by eapply IH].
  destruct (deleteOne name d) as [e d1] eqn:E1. destruct (delete_pass keep names d1) as [es1 d2] eqn:E2.
  injection E as _ <-. rewrite (IH _ _ _ E2). unfold deleteOne in E1.
  destruct (DeleteFile name (directory d)) as [[err|] dir]; [|by simplify_eq].
  destruct err; try destruct (TolerateMissingOnDelete _); by simplify_eq.
Qed.

Lemma delete_pass_filter keep names (d : FileDeleter D) :
  delete_pass keep names d
  = delete_pass (λ _, true) (base.filter (λ n, keep n = true) names) d.
Proof.
  revert d. induction names as [|name names IH]; intros d; [done|]. rewrite filter_cons. simpl.
  destruct (keep name) eqn:E.
  - rewrite decide_True by done. simpl. destruct (deleteOne name d) as [e d1]. by rewrite IH.
  - rewrite decide_False by done. apply IH.
Qed.

Lemma delete_pass_app keep l k (d : FileDeleter D) :
  delete_pass keep (l ++ k) d
  = let '(e1, d) := delete_pass keep l d in
    let '(e2, d) := delete_pass keep k d in (e1 ++ e2, d).
Proof.
  revert d. induction l as [|x l IH]; intros d; simpl.
  - by destruct (delete_pass keep k d).
  - destruct (keep x); [|apply IH]. destruct (deleteOne x d) as [e d1]. rewrite IH.
    destruct (delete_pass keep l d1) as [e1 d2]. destruct (delete_pass keep k d2) as [e2 d3].
    by rewrite app_assoc.
Qed.
End Properties.

(** C32. Releasing references.  When the caller holds every reference it
    releases, the counts drop by exactly the number of times each file is
    named, the only errors are those of the directory, and without one exactly
    the files that lost their last reference are deleted.  In no case does a
    file disappear that is still referenced. *)
Theorem DecRefAll_correct {D} `{DirectoryLaws D} names (d : FileDeleter D) es d' :
  counts_ok d → (∀ f, occ f names ≤ GetRefCount f d) → DecRefAll names d = (es, d') →
  (∀ f, GetRefCount f d' = GetRefCount f d - occ f names)
  ∧ (∀ f, f ∈ files d → 0 < GetRefCount f d' → f ∈ files d')
  ∧ (∀ e, e ∈ es → ∃ e', e = DeleteErr e')
  ∧ (es = [] → ∀ f, f ∈ files d' ↔ f ∈ files d ∧ (f ∈ names → 0 < GetRefCount f d')).
Proof.
  intros Hd Hh E. destruct (DecRefAll_safe _ _ _ _ Hd E) as (Hok & _ & Hsub & Hsafe & Hoth).
  destruct (DecRefAll_held _ _ _ _ Hd Hh E) as (Hf & He & Hgone).
  split_and!; [done|done|done|]. intros Hes f. split.
  - intros Hin. split; [by apply Hsub|]. intros Hn.
    pose proof (GetRefCount_nonneg f d' Hok). destruct (decide (GetRefCount f d' = 0)); [|lia].
    by destruct (Hgone Hes f Hn).
  - intros [Hin Hn]. destruct (decide (f ∈ names)); [by apply Hsafe; auto|by apply Hoth].
Qed.

Definition sample_deleter : FileDeleter ByteBuffersDirectory :=
  IncRefAll ["_0.cfs"; "segments_1"; "_0.cfs"]
    (NewFileDeleter {| bb_files := <["_0.cfs" := []]> (<["segments_1" := []]> ∅); bb_open := true |} false).

Lemma DecRefAll_correct_witness :
  GetRefCount "_0.cfs" (DecRefAll ["_0.cfs"; "segments_1"] sample_deleter).2 = 1.
Proof.
  destruct (IncRefAll_spec ["_0.cfs"; "segments_1"; "_0.cfs"] (NewFileDeleter
    {| bb_files := <["_0.cfs" := []]> (<["segments_1" := []]> ∅); bb_open := true |} false))
    as (Hc & Hok & _); [by intros f rc|].
  destruct (DecRefAll ["_0.cfs"; "segments_1"] sample_deleter) as [es d'] eqn:E.
  assert (Hheld : ∀ f, occ f ["_0.cfs"; "segments_1"] ≤ GetRefCount f sample_deleter).
  { intros f. unfold sample_deleter. rewrite Hc. unfold GetRefCount. simpl. rewrite lookup_empty.
    repeat case_decide; lia. }
  simpl snd. rewrite (proj1 (DecRefAll_correct _ _ es d' Hok Hheld E) "_0.cfs"). reflexivity.
Defined.

(** The order of a batch of deletions: the [segments_] files one after the
    other, and only then the other files. *)
Theorem delete_segments_first {D} `{Directory D} names (d : FileDeleter D) :
  delete names d
  = delete_pass (λ _, true)
      (base.filter (λ n, String.prefix (SegmentsPrefix d) n = true) names
       ++ base.filter (λ n, String.prefix (SegmentsPrefix d) n = false) names) d.
Proof.
  rewrite delete_pass_app, <- delete_pass_filter. unfold delete. destruct names as [|x names]; [done|].
  destruct (delete_pass (String.prefix (SegmentsPrefix d)) (x :: names) d) as [e1 d1] eqn:E1.
  assert (Hp : SegmentsPrefix d1 = SegmentsPrefix d) by (eapply delete_pass_prefix; exact E1).
  rewrite Hp, (delete_pass_filter (λ n, negb (String.prefix (SegmentsPrefix d) n))).
  replace (base.filter (λ n, negb (String.prefix (SegmentsPrefix d) n) = true) (x :: names))
    with (base.filter (λ n, String.prefix (SegmentsPrefix d) n = false) (x :: names)); [done|].
  apply list_filter_iff. intros y. by rewrite negb_true_iff.
Qed.
