(* ===== verification/DeletionPolicy.v ===== *)
(** Deletion policies: [index/index_deletion_policy.go],
    [index/keep_only_last_commit_deletion_policy.go],
    [index/keep_last_n_commits_deletion_policy.go], [index/no_deletion_policy.go].

    A policy is handed the commits of an index, oldest first, and calls
    [Delete] on those it wants to see removed.  What [Delete] does is the
    business of the caller: a policy is a function of it, for any type of
    commits and any state [Delete] works on. *)

From stdpp Require Import base tactics numbers list gmap strings.
From Stdlib Require Import ZArith Lia.
From S2P Require Import Prelude.

Local Open Scope Z_scope.

(** A call returns, or waits for ever for a lock its own goroutine holds. *)
Inductive outcome (A : Type) : Type :=
  | Done (a : A)
  | Blocked.
Arguments Done {A} a.
Arguments Blocked {A}.

#[global] Instance outcome_ret : MRet outcome := fun A a => Done a.
#[global] Instance outcome_bind : MBind outcome := fun A B f m =>
  match m with Done a => f a | Blocked => Blocked end.

Lemma outcome_bind_Done {A B} (m : outcome A) (f : A → outcome B) b :
  m ≫= f = Done b ↔ ∃ a, m = Done a ∧ f a = Done b.
Proof.
  destruct m as [a|]; simpl; split; [by exists a|by intros (? & [= ->] & ?)|done|by intros (? & ? & _)].
Qed.

Inductive pol_err :=
  | Errorf (msg : string)
  | FailedToDelete (i : Z) (e : pol_err).

(** [Delete] of a commit, as a policy sees it. *)
Definition deleter (C St : Type) : Type := C → St → outcome (option pol_err * St).

(** [OnCommit] and [OnInit] return an error, the policy and the state; [gen]
    is [GetGeneration]. *)
Class DeletionPolicy (P : Type → Type) := {
  OnCommit : ∀ {C St}, deleter C St → (C → Z) → list C → P C → St →
    outcome (option pol_err * P C * St);
  OnInit : ∀ {C St}, deleter C St → (C → Z) → list C → P C → St →
    outcome (option pol_err * P C * St)
}.

(** A sequence of calls of [Delete]. *)
Inductive runs {C St} (Delete : deleter C St) : list C → St → St → Prop :=
  | runs_nil st : runs Delete [] st st
  | runs_cons c l e st st1 st2 :
      Delete c st = Done (e, st1) → runs Delete l st1 st2 → runs Delete (c :: l) st st2.

(** A policy touches the index through [Delete] on the commits it got, and in
    no other way. *)
Class DeletionPolicyLaws (P : Type → Type) `{DeletionPolicy P} : Prop := {
  on_commit_law {C St} (Delete : deleter C St) gen commits p st r p' st' :
    OnCommit Delete gen commits p st = Done (r, p', st') →
    ∃ l, l ⊆ commits ∧ runs Delete l st st';
  on_init_law {C St} (Delete : deleter C St) gen commits p st r p' st' :
    OnInit Delete gen commits p st = Done (r, p', st') →
    ∃ l, l ⊆ commits ∧ runs Delete l st st'
}.

(** * Keeping the last commits *)

(** [for i := ... { if err := commits[i].Delete(); err != nil { return ... } }] *)
Fixpoint delete_each {C St} (Delete : deleter C St) (i : Z) (l : list C) (st : St)
  : outcome (option pol_err * St) :=
  match l with
  | [] => mret (None, st)
  | c :: l' =>
      '(e, st) ← Delete c st;
      match e with
      | Some e => mret (Some (FailedToDelete i e), st)
      | None => delete_each Delete (i + 1) l' st
      end
  end.

Inductive NoDeletionPolicy (C : Type) : Type := NewNoDeletionPolicy.
Arguments NewNoDeletionPolicy {C}.

#[export] Instance no_deletion : DeletionPolicy NoDeletionPolicy := {
  OnCommit C St Delete gen commits p st := mret (None, p, st);
  OnInit C St Delete gen commits p st := mret (None, p, st)
}.

Inductive KeepAllDeletionPolicy (C : Type) : Type := NewKeepAllDeletionPolicy.
Arguments NewKeepAllDeletionPolicy {C}.

#[export] Instance keep_all : DeletionPolicy KeepAllDeletionPolicy := {
  OnCommit C St Delete gen commits p st := mret (None, p, st);
  OnInit C St Delete gen commits p st := mret (None, p, st)
}.

Inductive KeepOnlyLastCommitDeletionPolicy (C : Type) : Type := NewKeepOnlyLastCommitDeletionPolicy.
Arguments NewKeepOnlyLastCommitDeletionPolicy {C}.

Definition keep_only_last_OnCommit {C St} (Delete : deleter C St) (commits : list C) (st : St)
  : outcome (option pol_err * St) :=
  if Z.of_nat (length commits) <=? 1 then mret (None, st)
  else delete_each Delete 0 (take (length commits - 1) commits) st.

#[export] Instance keep_only_last : DeletionPolicy KeepOnlyLastCommitDeletionPolicy := {
  OnCommit C St Delete gen commits p st :=
    '(e, st) ← keep_only_last_OnCommit Delete commits st; mret (e, p, st);
  OnInit C St Delete gen commits p st :=
    '(e, st) ← keep_only_last_OnCommit Delete commits st; mret (e, p, st)
}.

Record KeepLastNCommitsDeletionPolicy (C : Type) := { numCommitsToKeep : Z }.
Arguments numCommitsToKeep {C} _.

Definition NewKeepLastNCommitsDeletionPolicy {C} (n : Z) : M (KeepLastNCommitsDeletionPolicy C) :=
  if n <=? 0 then Panic else mret {| numCommitsToKeep := n |}.

Definition keep_last_n_OnCommit {C St} (Delete : deleter C St) (commits : list C)
    (p : KeepLastNCommitsDeletionPolicy C) (st : St) : outcome (option pol_err * St) :=
  delete_each Delete 0 (take (Z.to_nat (Z.of_nat (length commits) - numCommitsToKeep p)) commits) st.

#[export] Instance keep_last_n : DeletionPolicy KeepLastNCommitsDeletionPolicy := {
  OnCommit C St Delete gen commits p st :=
    '(e, st) ← keep_last_n_OnCommit Delete commits p st; mret (e, p, st);
  OnInit C St Delete gen commits p st :=
    '(e, st) ← keep_last_n_OnCommit Delete commits p st; mret (e, p, st)
}.

(** * [SnapshotDeletionPolicy] *)

(** [snap_mu] tells whether the mutex is held. *)
Record SnapshotDeletionPolicy (P : Type → Type) (C : Type) := {
  snap_mu : bool;
  primary : P C;
  snap_refCounts : gmap Z Z;
  indexCommits : gmap Z C;
  lastCommit : option C;
  initCalled : bool
}.
Arguments snap_mu {P C} _.
Arguments primary {P C} _.
Arguments snap_refCounts {P C} _.
Arguments indexCommits {P C} _.
Arguments lastCommit {P C} _.
Arguments initCalled {P C} _.

Section Snapshot.
Context {P : Type → Type} `{DeletionPolicy P}.

Definition NewSnapshotDeletionPolicy {C} (primary : P C) : SnapshotDeletionPolicy P C :=
  {| snap_mu := false; primary := primary; snap_refCounts := ∅; indexCommits := ∅;
     lastCommit := None; initCalled := false |}.

Definition set_mu {C} (b : bool) (s : SnapshotDeletionPolicy P C) : SnapshotDeletionPolicy P C :=
  {| snap_mu := b; primary := primary s; snap_refCounts := snap_refCounts s;
     indexCommits := indexCommits s; lastCommit := lastCommit s; initCalled := initCalled s |}.

(** [p.mu.Lock(); defer p.mu.Unlock()] around [f] *)
Definition with_lock {C A} (f : SnapshotDeletionPolicy P C → outcome (A * SnapshotDeletionPolicy P C))
    (s : SnapshotDeletionPolicy P C) : outcome (A * SnapshotDeletionPolicy P C) :=
  if snap_mu s then Blocked else
  '(a, s) ← f (set_mu true s);
  mret (a, set_mu false s).

(** [snapshotCommitPoint.Delete] *)
Definition snap_Delete {C St} (Delete : deleter C St) (gen : C → Z) (s : SnapshotDeletionPolicy P C)
  : deleter C St := fun c st =>
  if snap_mu s then Blocked else
  if bool_decide (is_Some (snap_refCounts s !! gen c)) then mret (None, st) else Delete c st.

Definition set_primary {C} (p : P C) (s : SnapshotDeletionPolicy P C) : SnapshotDeletionPolicy P C :=
  {| snap_mu := snap_mu s; primary := p; snap_refCounts := snap_refCounts s;
     indexCommits := indexCommits s; lastCommit := lastCommit s; initCalled := initCalled s |}.

(** [if len(commits) > 0 { p.lastCommit = commits[len(commits)-1] }] *)
Definition set_last {C} (commits : list C) (s : SnapshotDeletionPolicy P C) : SnapshotDeletionPolicy P C :=
  {| snap_mu := snap_mu s; primary := primary s; snap_refCounts := snap_refCounts s;
     indexCommits := indexCommits s;
     lastCommit := match last commits with Some c => Some c | None => lastCommit s end;
     initCalled := initCalled s |}.

(** The commits [OnInit] finds that are snapshotted already. *)
Definition set_index {C} (gen : C → Z) (commits : list C) (s : SnapshotDeletionPolicy P C)
  : SnapshotDeletionPolicy P C :=
  {| snap_mu := snap_mu s; primary := primary s; snap_refCounts := snap_refCounts s;
     indexCommits := foldl (fun m c =>
       if bool_decide (is_Some (snap_refCounts s !! gen c)) then <[gen c := c]> m else m)
       (indexCommits s) commits;
     lastCommit := lastCommit s; initCalled := initCalled s |}.

Definition set_init {C} (s : SnapshotDeletionPolicy P C) : SnapshotDeletionPolicy P C :=
  {| snap_mu := snap_mu s; primary := primary s; snap_refCounts := snap_refCounts s;
     indexCommits := indexCommits s; lastCommit := lastCommit s; initCalled := true |}.

Definition snap_OnCommit {C St} (Delete : deleter C St) (gen : C → Z) (commits : list C)
    (s : SnapshotDeletionPolicy P C) (st : St)
  : outcome (option pol_err * SnapshotDeletionPolicy P C * St) :=
  '(e, st, s) ← with_lock (fun s =>
    '(e, p, st) ← OnCommit (snap_Delete Delete gen s) gen commits (primary s) st;
    let s := set_primary p s in
    match e with
    | Some e => mret (Some e, st, s)
    | None => mret (None, st, set_last commits s)
    end) s;
  mret (e, s, st).

Definition snap_OnInit {C St} (Delete : deleter C St) (gen : C → Z) (commits : list C)
    (s : SnapshotDeletionPolicy P C) (st : St)
  : outcome (option pol_err * SnapshotDeletionPolicy P C * St) :=
  '(e, st, s) ← with_lock (fun s =>
    let s := set_init s in
    '(e, p, st) ← OnInit (snap_Delete Delete gen s) gen commits (primary s) st;
    let s := set_primary p s in
    match e with
    | Some e => mret (Some e, st, s)
    | None => mret (None, st, set_last commits (set_index gen commits s))
    end) s;
  mret (e, s, st).

Definition snap_counts {C} (counts : gmap Z Z) (index : gmap Z C) (s : SnapshotDeletionPolicy P C)
  : SnapshotDeletionPolicy P C :=
  {| snap_mu := snap_mu s; primary := primary s; snap_refCounts := counts;
     indexCommits := index; lastCommit := lastCommit s; initCalled := initCalled s |}.

Definition incRef {C} (gen : C → Z) (ic : C) (s : SnapshotDeletionPolicy P C)
  : SnapshotDeletionPolicy P C :=
  let refCount := default 0 (snap_refCounts s !! gen ic) in
  snap_counts (<[gen ic := refCount + 1]> (snap_refCounts s))
    (match lastCommit s with Some c => <[gen ic := c]> (indexCommits s) | None => indexCommits s end) s.

Definition Snapshot {C} (gen : C → Z) (s : SnapshotDeletionPolicy P C)
  : outcome ((C + pol_err) * SnapshotDeletionPolicy P C) :=
  with_lock (fun s =>
    if negb (initCalled s) then mret (inr (Errorf "this instance is not being used by IndexWriter"), s) else
    match lastCommit s with
    | None => mret (inr (Errorf "no index commit to snapshot"), s)
    | Some c => mret (inl c, incRef gen c s)
    end) s.

Definition releaseGen {C} (gen : Z) (s : SnapshotDeletionPolicy P C)
  : option pol_err * SnapshotDeletionPolicy P C :=
  if negb (initCalled s) then (Some (Errorf "this instance is not being used by IndexWriter"), s) else
  match snap_refCounts s !! gen with
  | None => (Some (Errorf "commit is not currently snapshotted"), s)
  | Some refCount =>
      let refCount := refCount - 1 in
      if refCount =? 0
      then (None, snap_counts (delete gen (snap_refCounts s)) (delete gen (indexCommits s)) s)
      else (None, snap_counts (<[gen := refCount]> (snap_refCounts s)) (indexCommits s) s)
  end.

Definition ReleaseGen {C} (gen : Z) (s : SnapshotDeletionPolicy P C)
  : outcome (option pol_err * SnapshotDeletionPolicy P C) :=
  with_lock (fun s => mret (releaseGen gen s)) s.

Definition Release {C} (gen : C → Z) (commit : C) (s : SnapshotDeletionPolicy P C)
  : outcome (option pol_err * SnapshotDeletionPolicy P C) :=
  with_lock (fun s => mret (releaseGen (gen commit) s)) s.

Definition GetSnapshots {C} (s : SnapshotDeletionPolicy P C) : list C :=
  snd <$> map_to_list (indexCommits s).

Definition GetSnapshotCount {C} (s : SnapshotDeletionPolicy P C) : Z :=
  map_fold (fun _ refCount total => total + refCount) 0 (snap_refCounts s).

Definition GetIndexCommit {C} (gen : Z) (s : SnapshotDeletionPolicy P C) : option C :=
  indexCommits s !! gen.

#[export] Instance snapshot_policy : DeletionPolicy (SnapshotDeletionPolicy P) := {
  OnCommit C St := snap_OnCommit;
  OnInit C St := snap_OnInit
}.
End Snapshot.

(** * Laws *)

Lemma delete_each_runs {C St} (Delete : deleter C St) i l st r st' :
  delete_each Delete i l st = Done (r, st') → ∃ k, k ⊆ l ∧ runs Delete k st st'.
Proof.
  revert i st. induction l as [|c l IH]; simpl; intros i st E.
  - injection E as <- <-. exists []. split; [done|constructor].
  - apply outcome_bind_Done in E as ([e st1] & Ed & E). destruct e as [e|].
    + injection E as <- <-. exists [c]. split; [set_solver|]. by repeat econstructor.
    + destruct (IH _ _ E) as (k & Hk & Hr). exists (c :: k). split; [set_solver|by econstructor].
Qed.

Lemma policy_runs_mono {C St} (l commits : list C) (Delete : deleter C St) k st st' :
  k ⊆ l → l ⊆ commits → runs Delete k st st' → ∃ k, k ⊆ commits ∧ runs Delete k st st'.
Proof. intros H1 H2 Hr. exists k. split; [by transitivity l|done]. Qed.

Lemma runs_none {C St} (Delete : deleter C St) (commits : list C) st :
  ∃ l, l ⊆ commits ∧ runs Delete l st st.
Proof. exists []. split; [by intros x ?%elem_of_nil|constructor]. Qed.

Lemma take_subseteq {A} n (l : list A) : take n l ⊆ l.
Proof. intros x. apply subseteq_take. Qed.

#[export] Instance no_deletion_laws : DeletionPolicyLaws NoDeletionPolicy.
Proof. split; intros * [= _ _ <-]; apply runs_none. Qed.

#[export] Instance keep_all_laws : DeletionPolicyLaws KeepAllDeletionPolicy.
Proof. split; intros * [= _ _ <-]; apply runs_none. Qed.

Lemma keep_only_last_runs {C St} (Delete : deleter C St) commits st r st' :
  keep_only_last_OnCommit Delete commits st = Done (r, st') →
  ∃ l, l ⊆ commits ∧ runs Delete l st st'.
Proof.
  unfold keep_only_last_OnCommit. case_match.
  - intros [= _ <-]. by apply runs_none.
  - intros (k & Hk & Hr)%delete_each_runs. eapply policy_runs_mono; [exact Hk|apply take_subseteq|done].
Qed.

#[export] Instance keep_only_last_laws : DeletionPolicyLaws KeepOnlyLastCommitDeletionPolicy.
Proof.
  split; intros * ([e st1] & E & [= _ _ <-])%outcome_bind_Done; by eapply keep_only_last_runs.
Qed.

#[export] Instance keep_last_n_laws : DeletionPolicyLaws KeepLastNCommitsDeletionPolicy.
Proof.
  split; intros * ([e st1] & (k & Hk & Hr)%delete_each_runs & [= _ _ <-])%outcome_bind_Done;
    (eapply policy_runs_mono; [exact Hk|apply take_subseteq|done]).
Qed.

Section SnapshotLaws.
Context {P : Type → Type} `{DeletionPolicyLaws P}.

Lemma with_lock_Done {C A} (f : SnapshotDeletionPolicy P C → outcome (A * SnapshotDeletionPolicy P C)) s r :
  with_lock f s = Done r → ∃ a s', snap_mu s = false ∧ f (set_mu true s) = Done (a, s')
    ∧ r = (a, set_mu false s').
Proof.
  unfold with_lock. destruct (snap_mu s) eqn:E; [done|].
  intros ([a s'] & Ef & [= <-])%outcome_bind_Done. by exists a, s'.
Qed.

(** A commit of a locked policy cannot be deleted. *)
Lemma snap_Delete_locked {C St} (Delete : deleter C St) gen (s : SnapshotDeletionPolicy P C) c st :
  snap_mu s = true → snap_Delete Delete gen s c st = Blocked.
Proof. intros Hm. unfold snap_Delete. by rewrite Hm. Qed.

Lemma runs_locked {C St} (Delete : deleter C St) gen (s : SnapshotDeletionPolicy P C) l st st' :
  snap_mu s = true → runs (snap_Delete Delete gen s) l st st' → st' = st.
Proof. intros Hm Hr. destruct Hr; [done|]. by rewrite snap_Delete_locked in H1. Qed.

Lemma snap_OnCommit_keeps {C St} (Delete : deleter C St) gen commits s st r s' st' :
  snap_OnCommit Delete gen commits s st = Done (r, s', st') → st' = st.
Proof.
  unfold snap_OnCommit. intros ([[e st1] s1] & E & [= <- <- <-])%outcome_bind_Done.
  apply with_lock_Done in E as ([? ?] & s2 & Hm & E & [= -> -> ->]).
  apply outcome_bind_Done in E as ([[e p] st1] & (l & _ & Hr)%on_commit_law & E).
  apply runs_locked in Hr as ->; [|done]. destruct e; injection E; congruence.
Qed.

Lemma snap_OnInit_keeps {C St} (Delete : deleter C St) gen commits s st r s' st' :
  snap_OnInit Delete gen commits s st = Done (r, s', st') → st' = st.
Proof.
  unfold snap_OnInit. intros ([[e st1] s1] & E & [= <- <- <-])%outcome_bind_Done.
  apply with_lock_Done in E as ([? ?] & s2 & Hm & E & [= -> -> ->]).
  apply outcome_bind_Done in E as ([[e p] st1] & (l & _ & Hr)%on_init_law & E).
  apply runs_locked in Hr as ->; [|done]. destruct e; injection E; congruence.
Qed.

#[export] Instance snapshot_policy_laws : DeletionPolicyLaws (SnapshotDeletionPolicy P).
Proof.
  split; intros * E.
  - apply snap_OnCommit_keeps in E as ->. apply runs_none.
  - apply snap_OnInit_keeps in E as ->. apply runs_none.
Qed.
End SnapshotLaws.

(** * Properties *)

Lemma delete_each_total {C St} (f : C → St → St) (Delete : deleter C St) i l st :
  (∀ c st, Delete c st = Done (None, f c st)) →
  delete_each Delete i l st = Done (None, foldl (fun st c => f c st) st l).
Proof.
  intros Hd. revert i st. induction l as [|c l IH]; intros i st; simpl; [done|].
  rewrite Hd. simpl. apply IH.
Qed.

(** What the policies delete, when deleting a commit succeeds: all but
    the last one, all but the last [n], or none, oldest first. *)
Theorem policies_delete {C St} (f : C → St → St) (Delete : deleter C St) gen commits st :
  (∀ c st, Delete c st = Done (None, f c st)) →
  let deleted n := foldl (fun st c => f c st) st (take (length commits - n) commits) in
  OnCommit (P := KeepOnlyLastCommitDeletionPolicy) Delete gen commits
    NewKeepOnlyLastCommitDeletionPolicy st
    = Done (None, NewKeepOnlyLastCommitDeletionPolicy, deleted 1%nat)
  ∧ (∀ n, 0 < n → NewKeepLastNCommitsDeletionPolicy (C := C) n = Ret {| numCommitsToKeep := n |} ∧
      OnCommit Delete gen commits {| numCommitsToKeep := n |} st
      = Done (None, {| numCommitsToKeep := n |}, deleted (Z.to_nat n)))
  ∧ OnCommit (P := NoDeletionPolicy) Delete gen commits NewNoDeletionPolicy st
    = Done (None, NewNoDeletionPolicy, st)
  ∧ OnCommit (P := KeepAllDeletionPolicy) Delete gen commits NewKeepAllDeletionPolicy st
    = Done (None, NewKeepAllDeletionPolicy, st).
Proof.
  intros Hd deleted. split_and!; [| |done|done].
  - simpl. unfold keep_only_last_OnCommit, deleted. case_match eqn:E.
    + apply Z.leb_le in E. by replace (length commits - 1)%nat with 0%nat by lia.
    + by rewrite (delete_each_total f).
  - intros n Hn. split.
    + unfold NewKeepLastNCommitsDeletionPolicy. by rewrite (proj2 (Z.leb_gt _ _)).
    + simpl. unfold keep_last_n_OnCommit. rewrite (delete_each_total f) by done. simpl.
      unfold deleted. by replace (Z.to_nat (Z.of_nat (length commits) - n))
        with (length commits - Z.to_nat n)%nat by lia.
Qed.

Lemma policies_delete_witness :
  OnCommit (P := KeepOnlyLastCommitDeletionPolicy) (fun (c : nat) (st : list nat) => Done (None, c :: st))
    Z.of_nat [1; 2; 3]%nat NewKeepOnlyLastCommitDeletionPolicy []
  = Done (None, NewKeepOnlyLastCommitDeletionPolicy, [2; 1]%nat).
Proof.
  apply (policies_delete (fun (c : nat) st => c :: st)
    (fun (c : nat) (st : list nat) => Done (None, c :: st)) Z.of_nat [1; 2; 3]%nat []).
  reflexivity.
Defined.

(** C33. [SnapshotDeletionPolicy] holds its mutex while the primary policy
    runs, and [Delete] of the commits it hands out takes the same mutex: as
    soon as the primary policy deletes a commit, the call waits for itself.
    With the default primary policy [OnCommit] and [OnInit] never return once
    there are two commits; and whenever they do return, no commit was
    deleted, whatever the primary policy is. *)
Theorem Snapshot_OnCommit_blocks {P} `{DeletionPolicyLaws P} {C St} (Delete : deleter C St) gen commits
    (s : SnapshotDeletionPolicy KeepOnlyLastCommitDeletionPolicy C)
    (s' : SnapshotDeletionPolicy P C) st :
  ((2 ≤ length commits)%nat → snap_OnCommit Delete gen commits s st = Blocked
     ∧ snap_OnInit Delete gen commits s st = Blocked)
  ∧ (∀ r s'' st', snap_OnCommit Delete gen commits s' st = Done (r, s'', st')
       ∨ snap_OnInit Delete gen commits s' st = Done (r, s'', st') → st' = st).
Proof.
  split.
  - intros Hl. unfold snap_OnCommit, snap_OnInit, with_lock. destruct (snap_mu s); [done|].
    destruct commits as [|c1 [|c2 commits]]; simpl in Hl; [lia|lia|].
    simpl. unfold keep_only_last_OnCommit. rewrite (proj2 (Z.leb_gt _ 1)) by (simpl; lia). by simpl.
  - intros r s'' st' [E|E]; [by eapply snap_OnCommit_keeps|by eapply snap_OnInit_keeps].
Qed.

Lemma Snapshot_OnCommit_blocks_witness :
  snap_OnCommit (fun (c : nat) (st : list nat) => Done (None, c :: st)) Z.of_nat [1; 2]%nat
    (NewSnapshotDeletionPolicy NewKeepOnlyLastCommitDeletionPolicy) [] = Blocked.
Proof.
  apply (Snapshot_OnCommit_blocks (P := NoDeletionPolicy)
    (fun (c : nat) (st : list nat) => Done (None, c :: st)) Z.of_nat [1; 2]%nat
    (NewSnapshotDeletionPolicy NewKeepOnlyLastCommitDeletionPolicy)
    (NewSnapshotDeletionPolicy NewNoDeletionPolicy) []).
  simpl. lia.
Defined.

(** How often a generation is snapshotted. *)
Definition snapshots {P C} (s : SnapshotDeletionPolicy P C) (gen : Z) : Z :=
  default 0 (snap_refCounts s !! gen).

(** The state between two calls: the mutex is free, every recorded count is
    positive and has its commit. *)
Definition snapshot_ok {P C} (s : SnapshotDeletionPolicy P C) : Prop :=
  snap_mu s = false ∧ (∀ g n, snap_refCounts s !! g = Some n → 0 < n)
  ∧ dom (indexCommits s) = dom (snap_refCounts s).

Section SnapshotProps.
Context {P : Type → Type} `{DeletionPolicy P} {C : Type}.
Implicit Types s : SnapshotDeletionPolicy P C.

Lemma with_lock_free {A} (f : SnapshotDeletionPolicy P C → outcome (A * SnapshotDeletionPolicy P C)) s :
  snap_mu s = false → with_lock f s = '(a, s) ← f (set_mu true s); mret (a, set_mu false s).
Proof. intros Hm. unfold with_lock. by rewrite Hm. Qed.

Lemma Snapshot_taken (gen : C → Z) s c :
  snapshot_ok s → initCalled s = true → lastCommit s = Some c →
  ∃ s', Snapshot gen s = Done (inl c, s') ∧ snapshot_ok s' ∧ initCalled s' = true
    ∧ GetIndexCommit (gen c) s' = Some c
    ∧ ∀ g, snapshots s' g = snapshots s g + if decide (gen c = g) then 1 else 0.
Proof.
  intros (Hm & Hpos & Hdom) Hi Hl. unfold Snapshot. rewrite with_lock_free by done.
  simpl. rewrite Hi, Hl. simpl. eexists. split; [done|]. unfold incRef, snapshots, GetIndexCommit.
  unfold snapshot_ok. simpl. rewrite Hl. split_and!; try done.
  - intros g n. simpl. rewrite lookup_insert_Some. intros [[_ <-]|[_ Hg]]; [|by eapply Hpos].
    destruct (snap_refCounts s !! gen c) eqn:E; simpl; [specialize (Hpos _ _ E)|]; lia.
  - simpl. rewrite !dom_insert_L. by rewrite Hdom.
  - by rewrite lookup_insert_eq.
  - intros g. case_decide as E.
    + subst. by rewrite lookup_insert_eq.
    + rewrite lookup_insert_ne by done. lia.
Qed.

Lemma ReleaseGen_held gen s :
  snapshot_ok s → initCalled s = true → 0 < snapshots s gen →
  ∃ s', ReleaseGen gen s = Done (None, s') ∧ snapshot_ok s' ∧ initCalled s' = true
    ∧ ∀ g, snapshots s' g = snapshots s g - if decide (gen = g) then 1 else 0.
Proof.
  intros (Hm & Hpos & Hdom) Hi Hh. unfold ReleaseGen. rewrite with_lock_free by done.
  unfold snapshots in *. destruct (snap_refCounts s !! gen) as [n|] eqn:E; simpl in Hh; [|lia].
  unfold releaseGen. simpl. rewrite Hi, E. simpl.
  destruct (Z.eqb_spec (n - 1) 0) as [En|En]; (eexists; split; [done|]); unfold snapshot_ok; simpl; split_and!; try done.
  - intros g m. simpl. rewrite lookup_delete_Some. intros [_ Hg]. by eapply Hpos.
  - simpl. by rewrite !dom_delete_L, Hdom.
  - intros g. case_decide as Eg.
    + subst. rewrite lookup_delete_eq, E. simpl. lia.
    + rewrite lookup_delete_ne by done. lia.
  - intros g m. simpl. rewrite lookup_insert_Some. intros [[_ <-]|[_ Hg]]; [lia|by eapply Hpos].
  - simpl. rewrite Hdom, dom_insert_L. assert (gen ∈ dom (snap_refCounts s)) by (by apply elem_of_dom_2 in E).
    set_solver.
  - intros g. case_decide as Eg.
    + subst. by rewrite lookup_insert_eq, E.
    + rewrite lookup_insert_ne by done. lia.
Qed.

Lemma ReleaseGen_not_held gen s :
  snapshot_ok s → initCalled s = true → snapshots s gen = 0 →
  ReleaseGen gen s = Done (Some (Errorf "commit is not currently snapshotted"), s).
Proof.
  intros (Hm & Hpos & Hdom) Hi Hz. unfold ReleaseGen. rewrite with_lock_free by done.
  unfold snapshots in *. unfold releaseGen. simpl. rewrite Hi.
  destruct (snap_refCounts s !! gen) as [n|] eqn:E.
  - simpl in Hz. subst. specialize (Hpos _ _ E). lia.
  - destruct s. simpl in *. by subst.
Qed.
End SnapshotProps.

(** C34. Snapshots are counted: taking one returns the last commit and adds
    one to its generation, releasing takes one away, and releasing what is not
    snapshotted is an error without effect.  The bookkeeping invariant
    survives, so a snapshot can be taken and released any number of times. *)
Theorem Snapshot_Release_correct {P} `{DeletionPolicy P} {C} (gen : C → Z)
    (s : SnapshotDeletionPolicy P C) c :
  snapshot_ok s → initCalled s = true → lastCommit s = Some c →
  ∃ s1, Snapshot gen s = Done (inl c, s1) ∧ snapshot_ok s1
    ∧ GetIndexCommit (gen c) s1 = Some c
    ∧ (∀ g, snapshots s1 g = snapshots s g + if decide (gen c = g) then 1 else 0)
    ∧ (∃ s2, Release gen c s1 = Done (None, s2) ∧ snapshot_ok s2
         ∧ ∀ g, snapshots s2 g = snapshots s g)
    ∧ (∀ g, snapshots s1 g = 0 →
         ReleaseGen g s1 = Done (Some (Errorf "commit is not currently snapshotted"), s1)).
Proof.
  intros Hs Hi Hl. destruct (Snapshot_taken gen s c Hs Hi Hl) as (s1 & E1 & Hs1 & Hi1 & Hg & Hc1).
  exists s1. split_and!; [done..| |by intros; apply ReleaseGen_not_held].
  assert (Hpos : 0 < snapshots s1 (gen c)).
  { rewrite Hc1, decide_True by done. destruct Hs as (_ & Hpos & _). unfold snapshots.
    destruct (snap_refCounts s !! gen c) eqn:E; simpl; [specialize (Hpos _ _ E)|]; lia. }
  destruct (ReleaseGen_held (gen c) s1 Hs1 Hi1 Hpos) as (s2 & E2 & Hs2 & _ & Hc2).
  exists s2. split_and!; [exact E2|done|]. intros g. rewrite Hc2, Hc1. lia.
Qed.

Lemma Snapshot_Release_correct_witness :
  ∃ s1, Snapshot Z.of_nat {| snap_mu := false; primary := NewNoDeletionPolicy; snap_refCounts := {[ 7 := 2 ]};
      indexCommits := {[ 7 := 7%nat ]}; lastCommit := Some 7%nat; initCalled := true |} = Done (inl 7%nat, s1)
    ∧ snapshots s1 7 = 3.
Proof.
  destruct (Snapshot_Release_correct Z.of_nat
    {| snap_mu := false; primary := NewNoDeletionPolicy; snap_refCounts := {[ 7 := 2 ]};
       indexCommits := {[ 7 := 7%nat ]}; lastCommit := Some 7%nat; initCalled := true |} 7%nat)
    as (s1 & E & _ & _ & Hc & _).
  - split; [done|]. split; [|reflexivity].
    intros g n Hg. simpl in Hg. apply lookup_singleton_Some in Hg as [_ <-]. lia.
  - reflexivity.
  - reflexivity.
  - exists s1. split; [exact E|]. by rewrite Hc.
Defined.
