(* ===== verification/IndexFileDeleter.v ===== *)
(** Which files of an index are alive: [index/index_file_deleter.go].

    The deleter counts references to files on behalf of the commits of the
    index, of the last checkpoint that was not a commit, and of callers that
    hold files themselves.  A deletion policy decides which commits go.

    [NewIndexFileDeleter], which reads the commits of an existing index from
    disk, is not modelled: the histories below start with an index that has no
    commit yet. *)

From stdpp Require Import base tactics numbers list gmap strings.
From Stdlib Require Import ZArith Lia Ascii.
From S2P Require Import Prelude Directory FileDeleter DeletionPolicy.

Local Open Scope Z_scope.

(** * Data *)

(** What the deleter reads of a [SegmentInfos]: its generation, the name of its
    [segments_N] file and the files of its segments. *)
Record SegmentInfos := {
  si_generation : Z;
  si_fileName : string;
  si_segments : list (list string)
}.

(** The names of [l] not in [seen], each once. *)
Fixpoint add_files (seen : gset string) (l : list string) : list string :=
  match l with
  | [] => []
  | f :: l' => if decide (f ∈ seen) then add_files seen l' else f :: add_files ({[f]} ∪ seen) l'
  end.

Definition filesFromInfos (infos : SegmentInfos) (includeSegmentsFile : bool) : list string :=
  let fn := si_fileName infos in
  if includeSegmentsFile && negb (String.eqb fn "")
  then fn :: add_files {[fn]} (concat (si_segments infos))
  else add_files ∅ (concat (si_segments infos)).

(** [indexFileDeleterCommitPoint] with its [IndexCommit]; both have a flag. *)
Record CommitPoint := {
  cp_generation : Z;
  cp_segmentsFileName : string;
  cp_files : list string;
  cp_deleted : bool;
  ic_deleted : bool
}.

(** [directoryAsFileDeleter]: a missing file counts as deleted. *)
Record directoryAsFileDeleter (D : Type) := { adapted : D }.
Arguments adapted {D} _.

#[export] Instance adapter_directory {D} `{Directory D} : Directory (directoryAsFileDeleter D) := {
  DeleteFile name d :=
    let '(e, dir) := DeleteFile name (adapted d) in
    (match e with
     | Some e => if is_missing e then None else Some e
     | None => None
     end, {| adapted := dir |});
  ListAll d := ListAll (adapted d);
  dir_files d := dir_files (adapted d)
}.

#[export] Instance adapter_directory_laws {D} `{DirectoryLaws D} :
  DirectoryLaws (directoryAsFileDeleter D).
Proof.
  split; simpl.
  - intros name [d] d'. simpl. destruct (DeleteFile name d) as [[e|] dir] eqn:E.
    + destruct (is_missing e) eqn:Em; [|done]. intros [= <-]. simpl.
      rewrite (delete_err _ _ _ _ E). pose proof (delete_missing _ _ _ _ E Em). set_solver.
    + intros [= <-]. simpl. by apply delete_ok.
  - intros name [d] e d'. simpl. destruct (DeleteFile name d) as [[e'|] dir] eqn:E; [|done].
    destruct (is_missing e') eqn:Em; [done|]. intros [= <- <-]. simpl. by eapply delete_err.
  - intros name [d] d' e. simpl. destruct (DeleteFile name d) as [[e'|] dir] eqn:E; [|done].
    destruct (is_missing e') eqn:Em; [done|]. intros [= <- <-]. congruence.
  - intros [d] l. simpl. apply list_all.
Qed.

Inductive ifd_err :=
  | FileErr (e : fd_err)
  | PolicyErr (e : pol_err)
  | CommitDeletedAlready (name : string)
  | ListErr (e : dir_err).

(** The commit points live in [points]; [commits] and [commitsToDelete] hold
    indices into it, as the code holds pointers. *)
Record IndexFileDeleter (D : Type) (P : Type → Type) := {
  points : list CommitPoint;
  commits : list nat;
  commitsToDelete : list nat;
  lastFiles : list string;
  fileDeleter : FileDeleter (directoryAsFileDeleter D);
  policy : P nat
}.
Arguments points {D P} _.
Arguments commits {D P} _.
Arguments commitsToDelete {D P} _.
Arguments lastFiles {D P} _.
Arguments fileDeleter {D P} _.
Arguments policy {D P} _.

(** * [CodecFilePattern]

    The regular expression asks for an underscore, one or more lower-case
    letters or digits, possibly another underscore and anything, a dot, and
    anything; it is matched anywhere in a name. *)

Definition alnum (c : Ascii.ascii) : bool :=
  let n := Z.of_N (Ascii.N_of_ascii c) in
  ((97 <=? n) && (n <=? 122)) || ((48 <=? n) && (n <=? 57)).

Fixpoint skip_alnum (l : list Ascii.ascii) : list Ascii.ascii :=
  match l with c :: l' => if alnum c then skip_alnum l' else l | [] => [] end.

(** There is a dot before the next line break. *)
Fixpoint dot_ahead (l : list Ascii.ascii) : bool :=
  match l with
  | [] => false
  | c :: l' =>
      if Ascii.eqb c "."%char then true
      else if Ascii.eqb c (Ascii.ascii_of_N 10) then false else dot_ahead l'
  end.

Definition pattern_here (l : list Ascii.ascii) : bool :=
  match l with
  | c :: a :: _ =>
      Ascii.eqb c "_"%char && alnum a &&
      match skip_alnum (tail l) with
      | c :: rest => Ascii.eqb c "."%char || (Ascii.eqb c "_"%char && dot_ahead rest)
      | [] => false
      end
  | _ => false
  end.

Fixpoint pattern_any (l : list Ascii.ascii) : bool :=
  match l with [] => false | _ :: l' => pattern_here l || pattern_any l' end.

Definition CodecFilePattern (name : string) : bool := pattern_any (String.list_ascii_of_string name).

Definition has_suffix (suf s : string) : bool :=
  let n := (String.length s - String.length suf)%nat in
  (String.length suf <=? String.length s)%nat
  && String.eqb (String.substring n (String.length suf) s) suf.

Definition index_file (name : string) : bool :=
  CodecFilePattern name || String.prefix "segments" name || String.prefix "pending_segments" name.

Example pattern_examples :
  map CodecFilePattern ["_0.cfs"; "_0_Lucene90_0.dvd"; "_1_x_y"; "a.txt"; "x_y.z"; "_.a"; "__a.b"]
  = [true; true; false; false; true; false; true].
Proof. reflexivity. Qed.

(** * Operations *)

Section IndexFileDeleter.
Context {D : Type} {P : Type → Type} `{Directory D} `{DeletionPolicy P}.
Implicit Types (s : IndexFileDeleter D P) (infos : SegmentInfos).

Definition set_points (pts : list CommitPoint) (cs del : list nat) (p : P nat) s
  : IndexFileDeleter D P :=
  {| points := pts; commits := cs; commitsToDelete := del; lastFiles := lastFiles s;
     fileDeleter := fileDeleter s; policy := p |}.

Definition set_files (last : list string) (fd : FileDeleter (directoryAsFileDeleter D)) s
  : IndexFileDeleter D P :=
  {| points := points s; commits := commits s; commitsToDelete := commitsToDelete s;
     lastFiles := last; fileDeleter := fd; policy := policy s |}.

Definition incRefSegmentInfos infos (isCommit : bool) s : IndexFileDeleter D P :=
  set_files (lastFiles s) (IncRefAll (filesFromInfos infos isCommit) (fileDeleter s)) s.

Definition newIndexFileDeleterCommitPoint infos : CommitPoint :=
  {| cp_generation := si_generation infos;
     cp_segmentsFileName := si_fileName infos;
     cp_files := filesFromInfos infos true;
     cp_deleted := false; ic_deleted := false |}.

(** [IndexCommit.Delete] with the hook of the commit point: it marks the point
    and queues it, once.  (A commit handed to a policy always has a point.) *)
Definition commit_Delete : deleter nat (list CommitPoint * list nat) := fun i '(pts, del) =>
  match pts !! i with
  | None => mret (None, (pts, del))
  | Some cp =>
      if ic_deleted cp then mret (None, (pts, del)) else
      let marked := {| cp_generation := cp_generation cp;
                       cp_segmentsFileName := cp_segmentsFileName cp;
                       cp_files := cp_files cp; cp_deleted := true; ic_deleted := true |} in
      mret (None, (<[i := marked]> pts, if cp_deleted cp then del else del ++ [i]))
  end.

Definition point_generation (pts : list CommitPoint) (i : nat) : Z :=
  match pts !! i with Some cp => cp_generation cp | None => 0 end.

Definition point_deleted (pts : list CommitPoint) (i : nat) : bool :=
  match pts !! i with Some cp => cp_deleted cp | None => false end.

Definition point_files (pts : list CommitPoint) (i : nat) : list string :=
  match pts !! i with Some cp => cp_files cp | None => [] end.

Fixpoint assertCommitsNotDeleted (pts : list CommitPoint) (cs : list nat) : option ifd_err :=
  match cs with
  | [] => None
  | i :: cs' =>
      match pts !! i with
      | Some cp => if cp_deleted cp then Some (CommitDeletedAlready (cp_segmentsFileName cp))
                   else assertCommitsNotDeleted pts cs'
      | None => assertCommitsNotDeleted pts cs'
      end
  end.

Fixpoint decref_points (pts : list CommitPoint) (del : list nat)
    (fd : FileDeleter (directoryAsFileDeleter D))
  : list fd_err * FileDeleter (directoryAsFileDeleter D) :=
  match del with
  | [] => ([], fd)
  | i :: del' =>
      let '(es, fd) := DecRefAll (point_files pts i) fd in
      let '(es', fd) := decref_points pts del' fd in
      (es ++ es', fd)
  end.

Definition deleteCommits s : list ifd_err * IndexFileDeleter D P :=
  match commitsToDelete s with
  | [] => ([], s)
  | del =>
      let '(es, fd) := decref_points (points s) del (fileDeleter s) in
      let s := set_files (lastFiles s) fd s in
      (FileErr <$> es,
       set_points (points s) (base.filter (fun i => point_deleted (points s) i = false) (commits s))
         [] (policy s) s)
  end.

(** The common end of [Checkpoint] and [RevisitPolicy]. *)
Definition consult_policy s : outcome (list ifd_err * IndexFileDeleter D P) :=
  match assertCommitsNotDeleted (points s) (commits s) with
  | Some e => mret ([e], s)
  | None =>
      '(e, p, (pts, del)) ← OnCommit commit_Delete (point_generation (points s)) (commits s)
                             (policy s) (points s, commitsToDelete s);
      let s := set_points pts (commits s) del p s in
      match e with
      | Some e => mret ([PolicyErr e], s)
      | None => mret (deleteCommits s)
      end
  end.

Definition checkpointLocked infos (isCommit : bool) s : outcome (list ifd_err * IndexFileDeleter D P) :=
  let s := incRefSegmentInfos infos isCommit s in
  if isCommit then
    let i := length (points s) in
    consult_policy (set_points (points s ++ [newIndexFileDeleterCommitPoint infos])
                      (commits s ++ [i]) (commitsToDelete s) (policy s) s)
  else
    let '(es, fd) := DecRefAll (lastFiles s) (fileDeleter s) in
    match es with
    | [] => mret ([], set_files (filesFromInfos infos false) fd s)
    | _ => mret (FileErr <$> es, set_files [] fd s)
    end.

Definition Checkpoint := checkpointLocked.

Definition RevisitPolicy s : outcome (list ifd_err * IndexFileDeleter D P) :=
  match commits s with
  | [] => mret ([], s)
  | _ => consult_policy s
  end.

Definition IncRefFiles (names : list string) s : IndexFileDeleter D P :=
  set_files (lastFiles s) (IncRefAll names (fileDeleter s)) s.

Definition DecRefFiles (names : list string) s : list ifd_err * IndexFileDeleter D P :=
  let '(es, fd) := DecRefAll names (fileDeleter s) in
  (FileErr <$> es, set_files (lastFiles s) fd s).

Definition DecRef infos s : list ifd_err * IndexFileDeleter D P :=
  DecRefFiles (filesFromInfos infos false) s.

Definition DeleteNewFiles (names : list string) s : list ifd_err * IndexFileDeleter D P :=
  let '(es, fd) := DeleteFilesIfNoRef names (fileDeleter s) in
  (FileErr <$> es, set_files (lastFiles s) fd s).

Definition Refresh s : list ifd_err * IndexFileDeleter D P :=
  match ListAll (directory (fileDeleter s)) with
  | inr e => ([ListErr e], s)
  | inl names =>
      DeleteNewFiles
        (base.filter (fun name =>
           negb (has_suffix "write.lock" name)
           && negb (Exists name (fileDeleter s)) && index_file name = true) names) s
  end.

Definition Close s : list ifd_err * IndexFileDeleter D P :=
  match lastFiles s with
  | [] => ([], s)
  | _ =>
      let '(es, fd) := DecRefAll (lastFiles s) (fileDeleter s) in
      (FileErr <$> es, set_files [] fd s)
  end.

(** A deleter for an index without commits. *)
Definition ifd_init (dir : D) (windows : bool) (p : P nat) : IndexFileDeleter D P :=
  {| points := []; commits := []; commitsToDelete := []; lastFiles := [];
     fileDeleter := NewFileDeleter {| adapted := dir |} windows; policy := p |}.
End IndexFileDeleter.

(** * The lists of files *)

Lemma filter_all {A} (Q : A → Prop) `{∀ x, Decision (Q x)} (l : list A) :
  (∀ x, x ∈ l → Q x) → base.filter Q l = l.
Proof.
  induction l as [|x l IH]; intros Hl; [done|]. rewrite filter_cons, decide_True by (apply Hl; by left).
  by rewrite IH by (intros y Hy; apply Hl; by right).
Qed.

Lemma filter_none {A} (Q : A → Prop) `{∀ x, Decision (Q x)} (l : list A) :
  (∀ x, x ∈ l → ¬ Q x) → base.filter Q l = [].
Proof.
  induction l as [|x l IH]; intros Hl; [done|]. rewrite filter_cons, decide_False by (apply Hl; by left).
  apply IH. intros y Hy. apply Hl. by right.
Qed.

Lemma add_files_spec seen l f : f ∈ add_files seen l ↔ f ∈ l ∧ f ∉ seen.
Proof.
  revert seen. induction l as [|x l IH]; intros seen; simpl.
  - rewrite elem_of_nil. by split; [|intros [? _]].
  - destruct (decide (x ∈ seen)) as [Hx|Hx].
    + rewrite IH, elem_of_cons. split; [intros [? ?]; split; [by right|done]|].
      intros [[->|?] ?]; [done|by split].
    + rewrite !elem_of_cons, IH, not_elem_of_union, not_elem_of_singleton.
      destruct (decide (f = x)) as [->|Hne]; [split; auto|].
      split; [intros [?|(? & _ & ?)]; [done|by split; [right|]]|].
      intros [[?|?] ?]; [done|by right].
Qed.

Lemma add_files_NoDup seen l : NoDup (add_files seen l).
Proof.
  revert seen. induction l as [|x l IH]; intros seen; simpl; [constructor|].
  destruct (decide (x ∈ seen)); [done|]. constructor; [|done].
  rewrite add_files_spec. set_solver.
Qed.

Lemma filesFromInfos_spec infos b f :
  f ∈ filesFromInfos infos b
  ↔ (b = true ∧ si_fileName infos ≠ "" ∧ f = si_fileName infos) ∨ f ∈ concat (si_segments infos).
Proof.
  unfold filesFromInfos. destruct (String.eqb_spec (si_fileName infos) "") as [E|E]; simpl.
  - rewrite andb_false_r, add_files_spec. set_solver.
  - rewrite andb_true_r. destruct b.
    + rewrite elem_of_cons, add_files_spec, not_elem_of_singleton.
      destruct (decide (f = si_fileName infos)); naive_solver.
    + rewrite add_files_spec. set_solver.
Qed.

Lemma filesFromInfos_NoDup infos b : NoDup (filesFromInfos infos b).
Proof.
  unfold filesFromInfos. case_match; [|apply add_files_NoDup].
  constructor; [|apply add_files_NoDup]. rewrite add_files_spec. set_solver.
Qed.

(** * The invariant *)

(** References the commits [l] make to [f]. *)
Fixpoint commit_refs (pts : list CommitPoint) (f : string) (l : list nat) : Z :=
  match l with [] => 0 | i :: l' => occ f (point_files pts i) + commit_refs pts f l' end.

Lemma commit_refs_nonneg pts f l : 0 ≤ commit_refs pts f l.
Proof. induction l as [|i l IH]; simpl; [done|]. pose proof (occ_nonneg f (point_files pts i)). lia. Qed.

Lemma commit_refs_app pts f l k : commit_refs pts f (l ++ k) = commit_refs pts f l + commit_refs pts f k.
Proof. induction l as [|i l IH]; simpl; lia. Qed.

#[export] Instance commit_refs_proper pts f : Proper ((≡ₚ) ==> eq) (commit_refs pts f).
Proof. intros l k Hp. induction Hp; simpl; lia. Qed.

Lemma commit_refs_ext pts pts' f l :
  (∀ i, i ∈ l → point_files pts' i = point_files pts i) → commit_refs pts' f l = commit_refs pts f l.
Proof.
  induction l as [|i l IH]; intros Hl; simpl; [done|].
  rewrite Hl, IH by set_solver. done.
Qed.

Lemma commit_refs_in pts f l i : i ∈ l → f ∈ point_files pts i → 0 < commit_refs pts f l.
Proof.
  induction l as [|j l IH]; [by rewrite elem_of_nil|]. simpl.
  pose proof (commit_refs_nonneg pts f l). pose proof (occ_nonneg f (point_files pts j)).
  intros [<-|Hi]%elem_of_cons Hf; [apply occ_pos in Hf; lia|]. specialize (IH Hi Hf). lia.
Qed.

(** The commit points a policy can change: what is queued are exactly the
    commits marked as deleted. *)
Record points_ok (cs : list nat) (st : list CommitPoint * list nat) : Prop := {
  po_nodup : NoDup cs;
  po_valid i : i ∈ cs → (i < length st.1)%nat;
  po_queue_nodup : NoDup st.2;
  po_queue i : i ∈ st.2 ↔ i ∈ cs ∧ point_deleted st.1 i = true;
  po_flags i cp : st.1 !! i = Some cp → ic_deleted cp = cp_deleted cp
}.

(** What stays when commits are marked. *)
Definition marked (st st' : list CommitPoint * list nat) : Prop :=
  length st'.1 = length st.1 ∧ ∀ i, point_files st'.1 i = point_files st.1 i.

#[export] Instance marked_preorder : PreOrder marked.
Proof. split; [by intros ?|]. intros x y z [? H1] [? H2]. split; [congruence|]. intros i. by rewrite H2. Qed.

Lemma point_deleted_insert pts i j cp :
  (i < length pts)%nat →
  point_deleted (<[i := cp]> pts) j = if decide (i = j) then cp_deleted cp else point_deleted pts j.
Proof.
  intros Hi. unfold point_deleted. case_decide as E.
  - subst. by rewrite list_lookup_insert_eq.
  - by rewrite list_lookup_insert_ne.
Qed.

Lemma point_files_insert pts i j cp :
  (i < length pts)%nat → cp_files cp = point_files pts i →
  point_files (<[i := cp]> pts) j = point_files pts j.
Proof.
  intros Hi Hf. unfold point_files in *. destruct (decide (i = j)) as [<-|E].
  - by rewrite list_lookup_insert_eq.
  - by rewrite list_lookup_insert_ne.
Qed.

Lemma commit_Delete_ok cs i st e st' :
  points_ok cs st → i ∈ cs → commit_Delete i st = Done (e, st') →
  e = None ∧ points_ok cs st' ∧ marked st st'
  ∧ ∀ j, point_deleted st'.1 j = point_deleted st.1 j || bool_decide (i = j).
Proof.
  destruct st as [pts del]. intros Hok Hi. pose proof (po_valid _ _ Hok i Hi) as Hv.
  destruct Hok as [Hnd Hval Hqn Hq Hfl]. simpl in *.
  destruct (lookup_lt_is_Some_2 pts i Hv) as [cp Hcp]. rewrite Hcp.
  rewrite (Hfl i cp Hcp). destruct (cp_deleted cp) eqn:Ed; intros [= <- <-]; simpl.
  - split_and!; [done|by split|done|]. intros j. case_bool_decide; [|by rewrite orb_false_r].
    subst. unfold point_deleted. by rewrite Hcp, Ed.
  - assert (Hd : ∀ j, point_deleted (<[i:={| cp_generation := cp_generation cp;
        cp_segmentsFileName := cp_segmentsFileName cp; cp_files := cp_files cp;
        cp_deleted := true; ic_deleted := true |}]> pts) j
        = point_deleted pts j || bool_decide (i = j)).
    { intros j. rewrite point_deleted_insert by done. simpl.
      case_decide; case_bool_decide; try done; [by rewrite orb_true_r|by rewrite orb_false_r]. }
    split_and!; [done| | |exact Hd].
    + split; simpl.
      * done.
      * intros j Hj. rewrite length_insert. by apply Hval.
      * apply NoDup_app. split_and!; [done| |apply NoDup_singleton].
        intros j Hj ->%list_elem_of_singleton. apply Hq in Hj as [_ Hj].
        unfold point_deleted in Hj. rewrite Hcp in Hj. congruence.
      * intros j. rewrite elem_of_app, list_elem_of_singleton, Hq, Hd, orb_true_iff, bool_decide_eq_true.
        naive_solver.
      * intros j c. destruct (decide (i = j)) as [<-|Hne].
        -- rewrite list_lookup_insert_eq by done. by intros [= <-].
        -- rewrite list_lookup_insert_ne by done. apply Hfl.
    + split; simpl; [by rewrite length_insert|]. intros j. apply point_files_insert; [done|].
      unfold point_files. by rewrite Hcp.
Qed.

Lemma runs_commit_Delete cs l st st' :
  points_ok cs st → l ⊆ cs → runs commit_Delete l st st' → points_ok cs st' ∧ marked st st'.
Proof.
  intros Hok Hl Hr. induction Hr as [|c l e st st1 st2 E Hr IH]; [done|].
  destruct (commit_Delete_ok cs c st e st1 Hok) as (_ & Hok1 & Hm & _); [set_solver|done|].
  destruct IH as [Hok2 Hm2]; [done|set_solver|]. split; [done|by etransitivity].
Qed.

Section Inv.
Context {D : Type} {P : Type → Type} `{DirectoryLaws D} `{DeletionPolicyLaws P}.
Implicit Types (s : IndexFileDeleter D P) (ext : string → Z) (infos : SegmentInfos).

(** [ext f] is the number of references to [f] that callers hold. *)
Record ifd_inv ext s : Prop := {
  inv_counts : counts_ok (fileDeleter s);
  inv_refs f : GetRefCount f (fileDeleter s)
    = commit_refs (points s) f (commits s) + occ f (lastFiles s) + ext f;
  inv_ext f : 0 ≤ ext f;
  inv_points : points_ok (commits s) (points s, commitsToDelete s)
}.

Definition ifiles s : gset string := files (fileDeleter s).

(** Files that are referenced afterwards do not disappear. *)
Definition keeps (fd fd' : FileDeleter (directoryAsFileDeleter D)) : Prop :=
  ∀ f, f ∈ files fd → 0 < GetRefCount f fd' → f ∈ files fd'.

Lemma IncRefAll_keeps names (fd : FileDeleter (directoryAsFileDeleter D)) : counts_ok fd → files (IncRefAll names fd) = files fd.
Proof. intros Hok. destruct (IncRefAll_spec names fd Hok) as (_ & _ & Hs & _). unfold files. by rewrite Hs. Qed.

Lemma decref_points_spec pts del fd es fd' :
  counts_ok fd → (∀ f, commit_refs pts f del ≤ GetRefCount f fd) →
  decref_points pts del fd = (es, fd') →
  counts_ok fd' ∧ (∀ f, GetRefCount f fd' = GetRefCount f fd - commit_refs pts f del)
  ∧ files fd' ⊆ files fd ∧ keeps fd fd'
  ∧ (es = [] → ∀ f, 0 < commit_refs pts f del → GetRefCount f fd' = 0 → f ∉ files fd').
Proof.
  revert fd es fd'. induction del as [|i del IH]; simpl; intros fd es fd' Hok Hh E.
  - injection E as <- <-. split_and!; [done|intros; lia|done|by intros f|]. intros _ f. lia.
  - destruct (DecRefAll (point_files pts i) fd) as [es1 fd1] eqn:E1.
    destruct (decref_points pts del fd1) as [es2 fd2] eqn:E2. injection E as <- <-.
    assert (Hh1 : ∀ f, occ f (point_files pts i) ≤ GetRefCount f fd).
    { intros f. specialize (Hh f). pose proof (commit_refs_nonneg pts f del). lia. }
    destruct (DecRefAll_safe _ _ _ _ Hok E1) as (Hok1 & Hle1 & Hsub1 & Hk1 & _).
    destruct (DecRefAll_held _ _ _ _ Hok Hh1 E1) as (Hc1 & _ & Hg1).
    destruct (IH fd1 es2 fd2 Hok1) as (Hok2 & Hc2 & Hsub2 & Hk2 & Hg2); [|done|].
    { intros f. rewrite Hc1. specialize (Hh f). lia. }
    split_and!; [done| |set_solver| |].
    + intros f. rewrite Hc2, Hc1. lia.
    + intros f Hf Hpos. apply Hk2; [|done]. apply Hk1; [done|].
      pose proof (commit_refs_nonneg pts f del). rewrite Hc2 in Hpos. lia.
    + intros [-> ->]%app_eq_nil f Hpos Hz.
      pose proof (commit_refs_nonneg pts f del). destruct (decide (0 < commit_refs pts f del)); [by apply Hg2|].
      intros Hf%Hsub2. apply (Hg1 eq_refl f); [apply occ_pos; lia| |done].
      rewrite Hc2 in Hz. lia.
Qed.

(** The commits that are not marked and those that are queued. *)
Definition live_commits s : list nat :=
  base.filter (fun i => point_deleted (points s) i = false) (commits s).

Lemma commits_split cs pts del :
  points_ok cs (pts, del) → cs ≡ₚ del ++ base.filter (fun i => point_deleted pts i = false) cs.
Proof.
  intros [Hnd _ Hqn Hq _]. simpl in *. apply NoDup_Permutation; [done| |].
  - apply NoDup_app. split_and!; [done| |by apply NoDup_filter].
    intros i Hi [Hf _]%list_elem_of_filter. apply Hq in Hi as [_ Hi]. congruence.
  - intros i. rewrite elem_of_app, list_elem_of_filter, Hq.
    destruct (point_deleted pts i); naive_solver.
Qed.

Lemma deleteCommits_ok ext s es s' :
  ifd_inv ext s → deleteCommits s = (es, s') →
  ifd_inv ext s' ∧ keeps (fileDeleter s) (fileDeleter s') ∧ ifiles s' ⊆ ifiles s
  ∧ points s' = points s ∧ lastFiles s' = lastFiles s ∧ policy s' = policy s
  ∧ commits s' = live_commits s ∧ commitsToDelete s' = []
  ∧ (es = [] → ∀ f, 0 < commit_refs (points s) f (commitsToDelete s) →
       GetRefCount f (fileDeleter s') = 0 → f ∉ ifiles s').
Proof.
  intros [Hc Hr He Hp] E. unfold deleteCommits in E. pose proof (commits_split _ _ _ Hp) as Hsplit.
  destruct (commitsToDelete s) as [|d del] eqn:Ed.
  - injection E as <- <-. assert (Hlive : commits s = live_commits s).
    { unfold live_commits. symmetry. apply filter_all. intros i Hi.
      destruct (point_deleted (points s) i) eqn:Edel; [|done].
      assert (Hn : i ∈ []) by (apply (po_queue _ _ Hp); done). by apply elem_of_nil in Hn. }
    split_and!; try done; [|by intros f].
    constructor; try done. by rewrite Ed.
  - destruct (decref_points (points s) (d :: del) (fileDeleter s)) as [es1 fd] eqn:E1.
    injection E as <- <-. set (dl := d :: del) in *. clearbody dl.
    assert (Href : ∀ f, commit_refs (points s) f (commits s)
      = commit_refs (points s) f dl + commit_refs (points s) f (live_commits s)).
    { intros f. rewrite <- commit_refs_app. by rewrite <- Hsplit. }
    assert (Hle : ∀ f, commit_refs (points s) f dl ≤ GetRefCount f (fileDeleter s)).
    { intros f. rewrite Hr, Href. pose proof (commit_refs_nonneg (points s) f (live_commits s)).
      pose proof (occ_nonneg f (lastFiles s)). specialize (He f). lia. }
    destruct (decref_points_spec _ _ _ _ _ Hc Hle E1) as (Hc' & Hf & Hsub & Hk & Hg).
    split_and!; try done.
    + constructor; simpl; [done| |done|].
      * intros f. rewrite Hf, Hr, Href. fold (live_commits s). lia.
      * destruct Hp as [Hnd Hval _ Hq Hfl]. simpl in *. split; simpl.
        -- by apply NoDup_filter.
        -- intros i [_ Hi]%list_elem_of_filter. by apply Hval.
        -- constructor.
        -- intros i. rewrite elem_of_nil, list_elem_of_filter. naive_solver congruence.
        -- done.
    + intros Hes. simpl. apply Hg. by destruct es1.
Qed.

(** ** Every operation

    [op_ok s ext' s' new]: the invariant holds again, no file with
    references disappeared, and only the files [new] got references. *)
Definition op_ok s ext' s' (new : list string) : Prop :=
  ifd_inv ext' s' ∧ keeps (fileDeleter s) (fileDeleter s') ∧ ifiles s' ⊆ ifiles s
  ∧ ∀ f, GetRefCount f (fileDeleter s') ≤ GetRefCount f (fileDeleter s) + occ f new.

Lemma op_ok_id ext s : ifd_inv ext s → op_ok s ext s [].
Proof. intros Hi. split_and!; [done|by intros f|done|]. intros f. simpl. lia. Qed.

(** An operation that acquires, followed by one that only releases. *)
Lemma op_ok_trans s s1 ext2 s2 new :
  ifiles s1 = ifiles s →
  (∀ f, GetRefCount f (fileDeleter s1) ≤ GetRefCount f (fileDeleter s) + occ f new) →
  op_ok s1 ext2 s2 [] → op_ok s ext2 s2 new.
Proof.
  intros Hf Hle (Hi & Hk & Hsub & Hc). unfold op_ok, ifiles in *. split_and!; [done| |by rewrite <- Hf|].
  - intros f Hin. apply Hk. by rewrite Hf.
  - intros f. specialize (Hle f). specialize (Hc f). simpl in Hc. lia.
Qed.

Lemma op_ok_ext s ext ext' s' new : (∀ f, ext' f = ext f) → op_ok s ext s' new → op_ok s ext' s' new.
Proof.
  intros He ([Hc Hr Hn Hp] & Hk). split; [|done]. constructor; [done| | |done].
  - intros f. by rewrite He.
  - intros f. by rewrite He.
Qed.

Lemma consult_policy_ok ext s es s' :
  ifd_inv ext s → consult_policy s = Done (es, s') → op_ok s ext s' [].
Proof.
  intros Hi E. unfold consult_policy in E.
  destruct (assertCommitsNotDeleted (points s) (commits s)) as [e|].
  { injection E as _ <-. by apply op_ok_id. }
  apply outcome_bind_Done in E as ([[e p] [pts del]] & EP & E).
  apply on_commit_law in EP as (l & Hl & Hr).
  destruct (runs_commit_Delete _ _ _ _ (inv_points _ _ Hi) Hl Hr) as [Hok [Hlen Hfiles]]. simpl in *.
  assert (Hi1 : ifd_inv ext (set_points pts (commits s) del p s)).
  { destruct Hi as [Hc Href He _]. constructor; simpl; [done| |done|done].
    intros f. rewrite Href. do 2 f_equal. symmetry. by apply commit_refs_ext. }
  destruct e as [e|].
  - injection E as _ <-. split_and!; [done|by intros f|done|]. intros f. simpl. lia.
  - injection E as E. apply (deleteCommits_ok ext) in E as (Hi2 & Hk & Hsub & Hpts & Hlast & _ & Hcs & _);
      [|done].
    split_and!; [done|done|done|]. intros f.
    rewrite (inv_refs _ _ Hi2), (inv_refs _ _ Hi), Hlast, Hpts, Hcs. simpl.
    pose proof (commits_split _ _ _ Hok) as Hsplit. unfold live_commits. simpl.
    assert (Href : commit_refs (points s) f (commits s) = commit_refs pts f (commits s))
      by (symmetry; by apply commit_refs_ext).
    pose proof (commit_refs_proper pts f _ _ Hsplit) as Hs. rewrite commit_refs_app in Hs.
    pose proof (commit_refs_nonneg pts f del). lia.
Qed.

Lemma DecRefFiles_gen ext s names last es fd :
  ifd_inv ext s → (∀ f, occ f names ≤ GetRefCount f (fileDeleter s)) →
  DecRefAll names (fileDeleter s) = (es, fd) →
  counts_ok fd ∧ (∀ f, GetRefCount f fd = GetRefCount f (fileDeleter s) - occ f names)
  ∧ keeps (fileDeleter s) fd ∧ ifiles (set_files last fd s) ⊆ ifiles s.
Proof.
  intros Hi Hh E.
  destruct (DecRefAll_safe _ _ _ _ (inv_counts _ _ Hi) E) as (Hok & _ & Hsub & Hk & _).
  destruct (DecRefAll_held _ _ _ _ (inv_counts _ _ Hi) Hh E) as (Hc & _). done.
Qed.

Lemma last_held ext s f : ifd_inv ext s → occ f (lastFiles s) ≤ GetRefCount f (fileDeleter s).
Proof.
  intros Hi. rewrite (inv_refs _ _ Hi). pose proof (inv_ext _ _ Hi f).
  pose proof (commit_refs_nonneg (points s) f (commits s)). lia.
Qed.

(** The state after the new files got their references, in the two cases. *)
Lemma checkpoint_acquire ext s infos b :
  ifd_inv ext s →
  let names := filesFromInfos infos b in
  counts_ok (IncRefAll names (fileDeleter s))
  ∧ (∀ f, GetRefCount f (IncRefAll names (fileDeleter s)) = GetRefCount f (fileDeleter s) + occ f names)
  ∧ files (IncRefAll names (fileDeleter s)) = files (fileDeleter s).
Proof.
  intros Hi names. destruct (IncRefAll_spec names _ (inv_counts _ _ Hi)) as (Hc & Hok & _).
  split_and!; [done|done|]. apply IncRefAll_keeps, Hi.
Qed.

Lemma checkpoint_commit_state ext s infos :
  ifd_inv ext s →
  ifd_inv ext (set_points (points s ++ [newIndexFileDeleterCommitPoint infos])
     (commits s ++ [length (points s)]) (commitsToDelete s) (policy s) (incRefSegmentInfos infos true s)).
Proof.
  intros Hi. destruct (checkpoint_acquire ext s infos true Hi) as (Hok & Hc & _).
  destruct (inv_points _ _ Hi) as [Hnd Hval Hqn Hq Hfl]. simpl in *.
  assert (Hnew : length (points s) ∉ commits s) by (intros Hin%Hval; lia).
  assert (Hlk : ∀ i, i ∈ commits s →
    (points s ++ [newIndexFileDeleterCommitPoint infos]) !! i = points s !! i)
    by (intros i ?%Hval; by apply lookup_app_l).
  assert (Hlast : (points s ++ [newIndexFileDeleterCommitPoint infos]) !! length (points s)
    = Some (newIndexFileDeleterCommitPoint infos)) by (by apply list_lookup_middle).
  constructor; simpl; [done| |apply Hi|].
  - intros f. rewrite Hc, (inv_refs _ _ Hi), commit_refs_app. simpl.
    rewrite (commit_refs_ext (points s) (points s ++ [newIndexFileDeleterCommitPoint infos])) by (intros i Hi'; unfold point_files; by rewrite Hlk).
    unfold point_files at 1. rewrite Hlast. simpl. lia.
  - split; simpl.
    + apply NoDup_app. split_and!; [done| |apply NoDup_singleton].
      by intros i Hin ->%list_elem_of_singleton.
    + intros i. rewrite elem_of_app, list_elem_of_singleton, length_app. simpl.
      intros [?%Hval| ->]; lia.
    + done.
    + intros i. rewrite Hq, elem_of_app, list_elem_of_singleton. unfold point_deleted. split.
      * intros [Hin Hd]. rewrite Hlk by done. auto.
      * intros [[Hin| ->] Hd]; [by rewrite Hlk in Hd|by rewrite Hlast in Hd].
    + intros i cp. destruct (decide (i < length (points s))%nat) as [Hlt|Hge].
      * rewrite lookup_app_l by done. apply Hfl.
      * rewrite lookup_app_r, list_lookup_singleton_Some by lia. by intros [_ <-].
Qed.

(** A checkpoint that is not a commit and fails to delete an old file drops
    its own list of files: their references are never released. *)
Definition leaked infos (b : bool) (es : list ifd_err) (f : string) : Z :=
  if b then 0 else match es with [] => 0 | _ => occ f (filesFromInfos infos false) end.

Lemma Checkpoint_ok ext s infos b es s' :
  ifd_inv ext s → Checkpoint infos b s = Done (es, s') →
  op_ok s (λ f, ext f + leaked infos b es f) s' (filesFromInfos infos b).
Proof.
  intros Hi E. unfold Checkpoint, checkpointLocked in E.
  destruct (checkpoint_acquire ext s infos b Hi) as (Hok & Hc & Hf). destruct b.
  - eapply op_ok_trans; [| |eapply op_ok_ext;
      [|exact (consult_policy_ok _ _ _ _ (checkpoint_commit_state ext s infos Hi) E)]].
    + done.
    + intros f. simpl. rewrite Hc. lia.
    + intros f. simpl. lia.
  - set (s1 := incRefSegmentInfos infos false s) in *.
    set (names := filesFromInfos infos false) in *.
    assert (Hi1 : ifd_inv (λ f, ext f + occ f names) s1).
    { constructor; simpl; [done| |intros f; pose proof (inv_ext _ _ Hi f); pose proof (occ_nonneg f names); lia|
        exact (inv_points _ _ Hi)].
      intros f. fold names. rewrite Hc, (inv_refs _ _ Hi). lia. }
    destruct (DecRefAll (lastFiles s1) (fileDeleter s1)) as [es1 fd] eqn:E1.
    destruct (DecRefFiles_gen _ _ _ [] _ _ Hi1 (λ f, last_held _ s1 f Hi1) E1) as (Hok2 & Hc2 & Hk2 & Hsub2).
    assert (Hop : ∀ ext' last, (∀ f, ext f ≤ ext' f ∧ ext' f + occ f last = ext f + occ f names) →
      op_ok s ext' (set_files last fd s1) names).
    { intros ext' last Hext. apply (op_ok_trans s s1); [done|intros f; simpl; rewrite Hc; lia|].
      split_and!; [|done|done|].
      - constructor; simpl; [done| | |exact (inv_points _ _ Hi)].
        + intros f. rewrite Hc2, (inv_refs _ _ Hi1). simpl. destruct (Hext f). lia.
        + intros f. destruct (Hext f). pose proof (inv_ext _ _ Hi f). lia.
      - intros f. simpl. rewrite Hc2. pose proof (occ_nonneg f (lastFiles s1)). simpl in *. lia. }
    destruct es1 as [|e es1]; injection E as <- <-.
    + apply Hop. intros f. simpl. fold names. lia.
    + apply Hop. intros f. simpl. fold names. pose proof (occ_nonneg f names). lia.
Qed.

Lemma RevisitPolicy_ok ext s es s' :
  ifd_inv ext s → RevisitPolicy s = Done (es, s') → op_ok s ext s' [].
Proof.
  intros Hi E. unfold RevisitPolicy in E. destruct (commits s) eqn:Ec.
  - injection E as _ <-. by apply op_ok_id.
  - by eapply consult_policy_ok.
Qed.

Lemma IncRefFiles_ok ext s names :
  ifd_inv ext s → op_ok s (λ f, ext f + occ f names) (IncRefFiles names s) names.
Proof.
  intros Hi. destruct (IncRefAll_spec names _ (inv_counts _ _ Hi)) as (Hc & Hok & _).
  pose proof (IncRefAll_keeps names _ (inv_counts _ _ Hi)) as Hf.
  split_and!; [|intros f ? _|change (files (IncRefAll names (fileDeleter s)) ⊆ files (fileDeleter s))|];
    [|change (f ∈ files (IncRefAll names (fileDeleter s)))| |]; [|by rewrite Hf..|intros f; simpl; rewrite Hc; lia].
  constructor; simpl; [done| | |exact (inv_points _ _ Hi)].
  - intros f. rewrite Hc, (inv_refs _ _ Hi). lia.
  - intros f. pose proof (inv_ext _ _ Hi f). pose proof (occ_nonneg f names). lia.
Qed.

Lemma DecRefFiles_ok ext s names es s' :
  ifd_inv ext s → (∀ f, occ f names ≤ ext f) → DecRefFiles names s = (es, s') →
  op_ok s (λ f, ext f - occ f names) s' [].
Proof.
  intros Hi Hh E. unfold DecRefFiles in E.
  destruct (DecRefAll names (fileDeleter s)) as [es1 fd] eqn:E1. injection E as _ <-.
  destruct (DecRefFiles_gen ext s names (lastFiles s) es1 fd Hi) as (Hok & Hc & Hk & Hsub); [|done|].
  { intros f. rewrite (inv_refs _ _ Hi). pose proof (commit_refs_nonneg (points s) f (commits s)).
    pose proof (occ_nonneg f (lastFiles s)). specialize (Hh f). lia. }
  split_and!; [|done|done|].
  - constructor; simpl; [done| | |exact (inv_points _ _ Hi)].
    + intros f. rewrite Hc, (inv_refs _ _ Hi). lia.
    + intros f. specialize (Hh f). lia.
  - intros f. simpl. rewrite Hc. pose proof (occ_nonneg f names). lia.
Qed.

Lemma Close_ok ext s es s' : ifd_inv ext s → Close s = (es, s') → op_ok s ext s' [].
Proof.
  intros Hi E. unfold Close in E. pose proof (λ f, last_held ext s f Hi) as Hh.
  destruct (lastFiles s) as [|n names] eqn:El.
  { injection E as _ <-. by apply op_ok_id. }
  destruct (DecRefAll (n :: names) (fileDeleter s)) as [es1 fd] eqn:E1. injection E as _ <-.
  destruct (DecRefFiles_gen ext s (n :: names) [] es1 fd Hi Hh E1) as (Hok & Hc & Hk & Hsub).
  split_and!; [|done|done|].
  - constructor; [done| |exact (inv_ext _ _ Hi)|exact (inv_points _ _ Hi)].
    intros f. simpl fileDeleter. rewrite Hc, (inv_refs _ _ Hi), El. simpl. lia.
  - intros f. simpl fileDeleter. rewrite Hc. pose proof (occ_nonneg f (n :: names)). simpl in *. lia.
Qed.

Lemma DeleteNewFiles_ok ext s names es s' :
  ifd_inv ext s → DeleteNewFiles names s = (es, s') →
  op_ok s ext s' [] ∧ (∀ f, GetRefCount f (fileDeleter s') = GetRefCount f (fileDeleter s))
  ∧ (es = [] → ∀ f, f ∈ names → GetRefCount f (fileDeleter s) = 0 → f ∉ ifiles s').
Proof.
  intros Hi E. unfold DeleteNewFiles, DeleteFilesIfNoRef in E.
  match type of E with context [delete ?l ?d] => destruct (delete l d) as [es1 fd] eqn:E1 end.
  injection E as <- <-. destruct (delete_spec _ _ _ _ E1) as ((Hc & _) & Hsub & Hsup & Hg).
  assert (Hcnt : ∀ f, GetRefCount f fd = GetRefCount f (fileDeleter s))
    by (intros f; unfold GetRefCount; by rewrite Hc).
  split_and!; [split_and!| |].
  - constructor; simpl; [| |exact (inv_ext _ _ Hi)|exact (inv_points _ _ Hi)].
    + intros f rc. rewrite Hc. apply (inv_counts _ _ Hi).
    + intros f. rewrite Hcnt. apply (inv_refs _ _ Hi).
  - intros f Hf Hpos. apply Hsup; [done|]. intros [He _]%list_elem_of_filter.
    rewrite Exists_count in He. simpl in Hpos. rewrite Hcnt in Hpos. apply Z.ltb_ge in He. lia.
  - done.
  - intros f. simpl. rewrite Hcnt. lia.
  - done.
  - intros Hes f Hin Hz. apply Hg; [by destruct es1|]. apply list_elem_of_filter. split; [|done].
    rewrite Exists_count, Hz. done.
Qed.

(** Deleting files that nothing refers to changes only the directory, and removes
    nothing else. *)
Lemma DeleteNewFiles_frame names s es s' :
  DeleteNewFiles names s = (es, s') →
  commits s' = commits s ∧ lastFiles s' = lastFiles s ∧
  (∀ f, GetRefCount f (fileDeleter s') = GetRefCount f (fileDeleter s)) ∧ ifiles s' ⊆ ifiles s ∧
  ∀ f, f ∈ ifiles s → f ∉ ifiles s' → f ∈ names ∧ Exists f (fileDeleter s) = false.
Proof.
  intros E. unfold DeleteNewFiles, DeleteFilesIfNoRef in E.
  match type of E with context [delete ?l ?d] => destruct (delete l d) as [es1 fd] eqn:E1 end.
  injection E as _ <-. destruct (delete_spec _ _ _ _ E1) as ((Hc & _) & Hsub & Hsup & _).
  split_and!; [done|done| |exact Hsub|].
  - intros f. unfold GetRefCount. simpl. by rewrite Hc.
  - intros f Hf Hf'. destruct (decide (f ∈ base.filter (fun n => Exists n (fileDeleter s) = false) names))
      as [[? ?]%list_elem_of_filter|Hn]; [done|]. destruct Hf'. by apply Hsup.
Qed.

(** Removed are only index files that nothing refers to, except for locks. *)
Lemma Refresh_frame ext s es s' :
  ifd_inv ext s → Refresh s = (es, s') →
  commits s' = commits s ∧ lastFiles s' = lastFiles s ∧
  (∀ f, GetRefCount f (fileDeleter s') = GetRefCount f (fileDeleter s)) ∧ ifiles s' ⊆ ifiles s ∧
  ∀ f, f ∈ ifiles s → f ∉ ifiles s' →
    index_file f = true ∧ has_suffix "write.lock" f = false ∧ GetRefCount f (fileDeleter s) = 0.
Proof.
  intros Hi E. unfold Refresh in E. destruct (ListAll (directory (fileDeleter s))) as [names|e] eqn:El.
  - apply DeleteNewFiles_frame in E as (K1 & K2 & K3 & K4 & K5). split_and!; [done..|].
    intros f Hf Hf'. destruct (K5 f Hf Hf') as [[Hq _]%list_elem_of_filter He].
    apply andb_true_iff in Hq as [[Hl _]%andb_true_iff Hx]. split_and!; [done|by apply negb_true_iff|].
    rewrite Exists_count in He. apply Z.ltb_ge in He. pose proof (GetRefCount_nonneg f _ (inv_counts _ _ Hi)). lia.
  - injection E as _ <-. split_and!; [done..|]. intros f Hf Hn. by destruct Hn.
Qed.

Lemma Refresh_ok ext s es s' :
  ifd_inv ext s → Refresh s = (es, s') →
  op_ok s ext s' []
  ∧ (es = [] → ∀ f, f ∈ ifiles s' → index_file f = true → has_suffix "write.lock" f = false →
       0 < GetRefCount f (fileDeleter s')).
Proof.
  intros Hi E. unfold Refresh in E. destruct (ListAll (directory (fileDeleter s))) as [names|e] eqn:El.
  - apply (DeleteNewFiles_ok ext) in E as (Hop & Hc & Hg); [|done]. split; [done|].
    intros Hes f Hf Hx Hl. rewrite Hc. pose proof (GetRefCount_nonneg f _ (inv_counts _ _ Hi)).
    destruct (decide (GetRefCount f (fileDeleter s) = 0)) as [Hz|]; [|lia].
    exfalso. apply (Hg Hes f); [|done|done]. apply list_elem_of_filter. split.
    + by rewrite Hl, Hx, Exists_count, Hz.
    + apply (list_all _ _ El). destruct Hop as (_ & _ & Hsub & _). apply (Hsub f Hf).
  - injection E as <- <-. split; [by apply op_ok_id|done].
Qed.

(** * Histories

    A state of the index: the references callers hold, and the deleter.
    Between two calls, writers add files to the directory. *)

Definition with_directory (dir : D) s : IndexFileDeleter D P :=
  set_files (lastFiles s) (set_directory {| adapted := dir |} (fileDeleter s)) s.

Inductive ifd_step : (string → Z) * IndexFileDeleter D P → (string → Z) * IndexFileDeleter D P → Prop :=
  | step_write ext s dir :
      ifiles s ⊆ dir_files dir → ifd_step (ext, s) (ext, with_directory dir s)
  | step_checkpoint ext s infos b es s' :
      (∀ f, f ∈ filesFromInfos infos b → f ∈ ifiles s) →
      Checkpoint infos b s = Done (es, s') →
      ifd_step (ext, s) (λ f, ext f + leaked infos b es f, s')
  | step_revisit ext s es s' :
      RevisitPolicy s = Done (es, s') → ifd_step (ext, s) (ext, s')
  | step_inc ext s names :
      (∀ f, f ∈ names → f ∈ ifiles s) →
      ifd_step (ext, s) (λ f, ext f + occ f names, IncRefFiles names s)
  | step_dec ext s names es s' :
      (∀ f, occ f names ≤ ext f) → DecRefFiles names s = (es, s') →
      ifd_step (ext, s) (λ f, ext f - occ f names, s')
  | step_delete_new ext s names es s' :
      DeleteNewFiles names s = (es, s') → ifd_step (ext, s) (ext, s')
  | step_refresh ext s es s' :
      Refresh s = (es, s') → ifd_step (ext, s) (ext, s')
  | step_close ext s es s' :
      Close s = (es, s') → ifd_step (ext, s) (ext, s').

(** The invariant of a history: the counts are right and referenced files are
    in the directory. *)
Definition ifd_good (st : (string → Z) * IndexFileDeleter D P) : Prop :=
  ifd_inv st.1 st.2 ∧ ∀ f, 0 < GetRefCount f (fileDeleter st.2) → f ∈ ifiles st.2.

Lemma op_ok_good ext s ext' s' new :
  ifd_good (ext, s) → (∀ f, f ∈ new → f ∈ ifiles s) → op_ok s ext' s' new → ifd_good (ext', s').
Proof.
  intros [_ Hall] Hnew (Hi & Hk & _ & Hle). split; [done|]. simpl in *. intros f Hpos.
  apply (Hk f); [|done]. destruct (decide (f ∈ new)) as [Hin|Hin]; [by apply Hnew|].
  apply Hall. specialize (Hle f). rewrite (occ_zero f new) in Hle by done. lia.
Qed.

Lemma ifd_step_good st st' : ifd_good st → ifd_step st st' → ifd_good st'.
Proof.
  intros Hg Hstep.
  assert (Hnil : ∀ s f, f ∈ [] → f ∈ ifiles s) by (intros s f ?%elem_of_nil; done).
  destruct Hstep as [ext s dir Hd|ext s infos b es s' Hf E|ext s es s' E|ext s names Hf
    |ext s names es s' Hh E|ext s names es s' E|ext s es s' E|ext s es s' E].
  - destruct Hg as [[Hc Hr He Hp] Hall]. split; [by constructor|]. intros f Hpos. by apply Hd, Hall.
  - eapply op_ok_good; [done|exact Hf|]. apply Checkpoint_ok; [apply Hg|done].
  - eapply op_ok_good; [done|apply Hnil|]. eapply RevisitPolicy_ok; [apply Hg|done].
  - eapply op_ok_good; [done|exact Hf|]. apply IncRefFiles_ok, Hg.
  - eapply op_ok_good; [done|apply Hnil|]. eapply DecRefFiles_ok; [apply Hg|done..].
  - eapply op_ok_good; [done|apply Hnil|]. eapply DeleteNewFiles_ok; [apply Hg|done].
  - eapply op_ok_good; [done|apply Hnil|]. eapply Refresh_ok; [apply Hg|done].
  - eapply op_ok_good; [done|apply Hnil|]. eapply Close_ok; [apply Hg|done].
Qed.

Lemma ifd_init_good dir w p : ifd_good (λ _, 0, ifd_init dir w p).
Proof.
  split; [constructor; simpl|simpl].
  - by intros f rc.
  - intros f. reflexivity.
  - done.
  - split; simpl; [constructor|by intros i ?%elem_of_nil|constructor| |done].
    intros i. rewrite elem_of_nil. by split; [|intros [? _]].
  - intros f. unfold GetRefCount. simpl. rewrite lookup_empty. lia.
Qed.

Lemma rtc_ifd_good st st' : ifd_good st → rtc ifd_step st st' → ifd_good st'.
Proof. intros Hg Hr. induction Hr; [done|]. by eauto using ifd_step_good. Qed.
End Inv.

(** C1. The safety of file deletion.  In every state an index can reach from
    an empty one, by any interleaving of writes, checkpoints, policy decisions
    and references taken and released by callers, with any deletion policy and
    with deletions that may fail: the count of a file is the number of commits,
    checkpoint lists and callers that refer to it, and every such file is in
    the directory; in particular all files of all commits are. *)
Theorem reachable_files_alive {D} {P : Type → Type} `{DirectoryLaws D} `{DeletionPolicyLaws P}
    dir w (p : P nat) ext (s : IndexFileDeleter D P) :
  rtc ifd_step (λ _, 0, ifd_init dir w p) (ext, s) →
  (∀ f, GetRefCount f (fileDeleter s)
     = commit_refs (points s) f (commits s) + occ f (lastFiles s) + ext f)
  ∧ (∀ i f, i ∈ commits s → f ∈ point_files (points s) i → f ∈ ifiles s)
  ∧ (∀ f, f ∈ lastFiles s → f ∈ ifiles s)
  ∧ (∀ f, 0 < ext f → f ∈ ifiles s).
Proof.
  intros Hr. apply rtc_ifd_good in Hr as [Hi Hall]; [|apply ifd_init_good]. simpl in *.
  assert (Hpos : ∀ f, 0 ≤ commit_refs (points s) f (commits s) ∧ 0 ≤ occ f (lastFiles s) ∧ 0 ≤ ext f).
  { intros f. pose proof (inv_ext _ _ Hi f). split_and!; [apply commit_refs_nonneg|apply occ_nonneg|done]. }
  split_and!; [apply (inv_refs _ _ Hi)| | |].
  - intros i f Hin Hf. apply Hall. rewrite (inv_refs _ _ Hi).
    pose proof (commit_refs_in _ _ _ _ Hin Hf). specialize (Hpos f). lia.
  - intros f Hf. apply Hall. rewrite (inv_refs _ _ Hi). apply occ_pos in Hf. specialize (Hpos f). lia.
  - intros f Hf. apply Hall. rewrite (inv_refs _ _ Hi). specialize (Hpos f). lia.
Qed.

Definition sample_infos (n : nat) (name : string) : SegmentInfos :=
  {| si_generation := Z.of_nat n; si_fileName := name; si_segments := [["_0.cfs"; "_0.si"]] |}.

Definition sample_ifd : IndexFileDeleter ByteBuffersDirectory KeepOnlyLastCommitDeletionPolicy :=
  ifd_init {| bb_files := <["_0.cfs" := []]> (<["_0.si" := []]> (<["segments_1" := []]>
                (<["segments_2" := []]> ∅))); bb_open := true |} false NewKeepOnlyLastCommitDeletionPolicy.

(** Two commits that share their segment: the second one removes [segments_1]. *)
Example two_commits :
  ('(es1, s) ← Checkpoint (sample_infos 1 "segments_1") true sample_ifd;
   '(es2, s) ← Checkpoint (sample_infos 2 "segments_2") true s;
   mret (es1 ++ es2, commits s, ListAll (directory (fileDeleter s))))
  = Done ([], [1%nat], inl ["_0.cfs"; "_0.si"; "segments_2"]).
Proof. vm_compute. reflexivity. Qed.

Lemma reachable_files_alive_witness :
  ∃ s, Checkpoint (sample_infos 1 "segments_1") true sample_ifd = Done ([], s) ∧ commits s = [0%nat]
    ∧ ∀ f, f ∈ point_files (points s) 0 → f ∈ ifiles s.
Proof.
  assert (Hf : ∀ f, f ∈ filesFromInfos (sample_infos 1 "segments_1") true → f ∈ ifiles sample_ifd).
  { apply Forall_forall. apply (bool_decide_unpack _). vm_compute. exact I. }
  destruct (Checkpoint (sample_infos 1 "segments_1") true sample_ifd) as [[es s]|] eqn:E; [|by vm_compute in E].
  assert (Hc : es = [] ∧ commits s = [0%nat]) by (vm_compute in E; by injection E as <- <-).
  destruct Hc as [-> Hc]. exists s. split_and!; [done|done|]. intros f.
  apply (reachable_files_alive _ _ _ _ s (rtc_l _ _ _ _ (step_checkpoint _ _ _ _ _ _ Hf E) (rtc_refl _ _))).
  rewrite Hc. by left.
Defined.

(** * The default policy *)

Definition mark (i : nat) (st : list CommitPoint * list nat) : list CommitPoint * list nat :=
  match commit_Delete i st with Done (_, st') => st' | Blocked => st end.

Lemma commit_Delete_total i st : commit_Delete i st = Done (None, mark i st).
Proof.
  unfold mark. destruct st as [pts del]. simpl. destruct (pts !! i) as [cp|]; [|done].
  by destruct (ic_deleted cp).
Qed.

Lemma foldl_mark cs l st :
  points_ok cs st → l ⊆ cs →
  let st' := foldl (λ st i, mark i st) st l in
  points_ok cs st' ∧ marked st st'
  ∧ ∀ j, point_deleted st'.1 j = point_deleted st.1 j || bool_decide (j ∈ l).
Proof.
  revert st. induction l as [|i l IH]; intros st Hok Hl st'.
  - split_and!; [done|done|]. intros j. by rewrite orb_false_r.
  - destruct (commit_Delete_ok cs i st None (mark i st) Hok) as (_ & Hok1 & Hm & Hd);
      [set_solver|apply commit_Delete_total|].
    destruct (IH _ Hok1) as (Hok2 & Hm2 & Hd2); [set_solver|].
    split_and!; [done|by etransitivity|]. intros j. subst st'. simpl. rewrite Hd2, Hd, <- orb_assoc.
    f_equal. destruct (decide (i = j)) as [->|Hne].
    + rewrite (bool_decide_true (j = j)) by done. simpl. symmetry. apply bool_decide_true. by left.
    + rewrite (bool_decide_false (i = j)) by done. simpl. apply bool_decide_ext.
      rewrite elem_of_cons. naive_solver.
Qed.

Section KeepOnlyLast.
Context {D : Type} `{DirectoryLaws D}.
Notation ifd := (IndexFileDeleter D KeepOnlyLastCommitDeletionPolicy).
Implicit Types s : ifd.

Lemma assertCommitsNotDeleted_None pts cs :
  (∀ i, i ∈ cs → point_deleted pts i = false) → assertCommitsNotDeleted pts cs = None.
Proof.
  induction cs as [|i cs IH]; intros Hl; simpl; [done|].
  assert (Hi : point_deleted pts i = false) by (apply Hl; by left). unfold point_deleted in Hi.
  rewrite IH by (intros j Hj; apply Hl; by right). destruct (pts !! i) as [cp|]; [|done]. by rewrite Hi.
Qed.

(** Consulting the policy when no commit is queued: one commit survives. *)
Lemma consult_keep_only_last ext s cs n :
  ifd_inv ext s → commitsToDelete s = [] → commits s = cs ++ [n] →
  ∃ es s', consult_policy s = Done (es, s') ∧ commits s' = [n] ∧ commitsToDelete s' = []
    ∧ lastFiles s' = lastFiles s ∧ (∀ i, point_files (points s') i = point_files (points s) i)
    ∧ ifd_inv ext s' ∧ (es = [] → ∀ i f, i ∈ cs → f ∈ point_files (points s) i → f ∈ ifiles s' →
        0 < GetRefCount f (fileDeleter s')).
Proof.
  intros Hi Hq Hcs. pose proof (inv_points _ _ Hi) as Hp. rewrite Hq in Hp.
  assert (Hlive : ∀ i, i ∈ commits s → point_deleted (points s) i = false).
  { intros i Hin. destruct (point_deleted (points s) i) eqn:Ed; [|done].
    assert (Hn : i ∈ []) by (apply (po_queue _ _ Hp); done). by apply elem_of_nil in Hn. }
  unfold consult_policy. rewrite assertCommitsNotDeleted_None by done. simpl.
  assert (Hdel : keep_only_last_OnCommit commit_Delete (commits s) (points s, commitsToDelete s)
    = Done (None, foldl (λ st i, mark i st) (points s, commitsToDelete s) cs)).
  { unfold keep_only_last_OnCommit. rewrite Hcs, length_app. simpl.
    replace (length cs + 1 - 1)%nat with (length cs) by lia. rewrite take_app_length.
    case_match eqn:E; [|by apply delete_each_total; intros; apply commit_Delete_total].
    apply Z.leb_le in E. by destruct cs; [|simpl in E; lia]. }
  rewrite Hdel. simpl. destruct (foldl_mark (commits s) cs (points s, [])) as (Hok & [Hlen Hf] & Hd);
    [done|rewrite Hcs; set_solver|]. rewrite Hq.
  destruct (foldl (λ st i, mark i st) (points s, []) cs) as [pts del]. simpl in *.
  set (s1 := set_points pts (commits s) del (policy s) s).
  assert (Hi1 : ifd_inv ext s1).
  { destruct Hi as [Hc Href He _]. constructor; simpl; [done| |done|done].
    intros f. rewrite Href. do 2 f_equal. symmetry. by apply commit_refs_ext. }
  destruct (deleteCommits s1) as [es s2] eqn:E2.
  destruct (deleteCommits_ok ext s1 es s2 Hi1 E2) as (Hi2 & _ & _ & Hpts & Hlast & _ & Hcs2 & Hq2 & Hg).
  assert (Hn : n ∉ cs).
  { pose proof (po_nodup _ _ Hp) as Hnd. rewrite Hcs in Hnd. apply NoDup_app in Hnd as (_ & Hnd & _).
    intros Hin. apply (Hnd n Hin). by left. }
  exists es, s2. split_and!; [done| |done..| | |].
  - rewrite Hcs2. unfold live_commits, s1. simpl. rewrite Hcs, filter_app, filter_none, filter_all; [done| |].
    + intros i ->%list_elem_of_singleton. rewrite Hd, bool_decide_false, orb_false_r by done.
      apply Hlive. rewrite Hcs. set_solver.
    + intros i Hin. by rewrite Hd, (bool_decide_true (i ∈ cs)), orb_true_r by done.
  - intros i. rewrite Hpts. apply Hf.
  - done.
  - intros Hes i f Hin Hfi Hdir. pose proof (GetRefCount_nonneg f _ (inv_counts _ _ Hi2)).
    destruct (decide (GetRefCount f (fileDeleter s2) = 0)) as [Hz|]; [|lia].
    exfalso. apply (Hg Hes f); [|done|done]. apply (commit_refs_in pts f del i).
    + apply (po_queue _ _ Hok). simpl. rewrite Hd, bool_decide_true, orb_true_r by done.
      split; [rewrite Hcs; set_solver|done].
    + simpl. by rewrite Hf.
Qed.
End KeepOnlyLast.

(** C31. Committing with the default policy.  The call returns; exactly the
    new commit is left; and unless the directory reported an error, a file of
    an earlier commit is still there only if something else refers to it: the
    new commit, the last checkpoint, or a caller. *)
Theorem commit_keeps_only_last {D} `{DirectoryLaws D} ext infos
    (s : IndexFileDeleter D KeepOnlyLastCommitDeletionPolicy) :
  ifd_inv ext s → commitsToDelete s = [] →
  ∃ es s', Checkpoint infos true s = Done (es, s') ∧ commits s' = [length (points s)]
    ∧ commitsToDelete s' = []
    ∧ point_files (points s') (length (points s)) = filesFromInfos infos true
    ∧ (es = [] → ∀ i f, i ∈ commits s → f ∈ point_files (points s) i → f ∈ ifiles s' →
         f ∈ filesFromInfos infos true ∨ f ∈ lastFiles s ∨ 0 < ext f).
Proof.
  intros Hi Hq. unfold Checkpoint, checkpointLocked.
  pose proof (checkpoint_commit_state ext s infos Hi) as Hi1.
  destruct (consult_keep_only_last ext _ (commits s) (length (points s)) Hi1 Hq eq_refl)
    as (es & s' & E & Hcs & Hq' & Hlast & Hfiles & Hi' & Hg).
  assert (Hnew : point_files (points s') (length (points s)) = filesFromInfos infos true).
  { rewrite Hfiles. unfold point_files. simpl. by rewrite list_lookup_middle. }
  exists es, s'. split_and!; [done..|]. intros Hes i f Hin Hf Hdir.
  assert (Hpos : 0 < GetRefCount f (fileDeleter s')).
  { apply (Hg Hes i f Hin); [|done]. unfold point_files in *. simpl.
    rewrite lookup_app_l by (apply (po_valid _ _ (inv_points _ _ Hi)); done). done. }
  rewrite (inv_refs _ _ Hi'), Hcs, Hlast in Hpos. simpl in Hpos. rewrite Hnew in Hpos.
  pose proof (inv_ext _ _ Hi f).
  destruct (decide (f ∈ filesFromInfos infos true)) as [|Hn1]; [by left|].
  destruct (decide (f ∈ lastFiles s)) as [|Hn2]; [by right; left|].
  rewrite !occ_zero in Hpos by done. right; right. lia.
Qed.

Lemma commit_keeps_only_last_witness :
  ∃ es s', Checkpoint (sample_infos 1 "segments_1") true sample_ifd = Done (es, s') ∧ commits s' = [0%nat].
Proof.
  destruct (commit_keeps_only_last (λ _, 0) (sample_infos 1 "segments_1") sample_ifd) as (es & s' & E & Hc & _).
  - apply (ifd_init_good (P := KeepOnlyLastCommitDeletionPolicy)).
  - reflexivity.
  - exists es, s'. exact (conj E Hc).
Defined.

(** C35. [Refresh] cleans up, in a state of the invariant: it changes nothing but the
    directory (the counts, the commits and the files of the last checkpoint stay), and
    there it removes only index files (names of the pattern of index files, or that
    start with [segments] or [pending_segments]) that nothing refers to and that are
    not locks: so a referenced file, a [write.lock] and a file that is not the
    index's are left alone, also if an error is reported. If no error is reported
    (listing the directory and deleting each of the files can fail), every
    unreferenced index file that is not a lock is gone. *)
Theorem Refresh_collects {D} {P : Type → Type} `{DirectoryLaws D} `{DeletionPolicyLaws P} ext
    (s : IndexFileDeleter D P) es s' :
  ifd_inv ext s → Refresh s = (es, s') →
  ifd_inv ext s' ∧ commits s' = commits s ∧ lastFiles s' = lastFiles s
  ∧ (∀ f, GetRefCount f (fileDeleter s') = GetRefCount f (fileDeleter s))
  ∧ (∀ f, f ∈ ifiles s' → f ∈ ifiles s)
  ∧ (∀ f, f ∈ ifiles s →
       index_file f = false ∨ has_suffix "write.lock" f = true ∨ 0 < GetRefCount f (fileDeleter s) → f ∈ ifiles s')
  ∧ (es = [] → ∀ f, f ∈ ifiles s' → index_file f = true → has_suffix "write.lock" f = false →
       0 < GetRefCount f (fileDeleter s')).
Proof.
  intros Hi E. destruct (Refresh_ok ext s es s' Hi E) as ((Hi' & _) & Hg).
  destruct (Refresh_frame ext s es s' Hi E) as (K1 & K2 & K3 & K4 & K5). split_and!; [exact Hi'|exact K1|exact K2|exact K3|exact K4| |exact Hg].
  intros f Hf Hcase. destruct (decide (f ∈ ifiles s')) as [|Hn]; [done|].
  destruct (K5 f Hf Hn) as (Hx & Hl & Hz). destruct Hcase as [Hc|[Hc|Hc]]; [congruence|congruence|lia].
Qed.

(** A directory with a referenced and an unreferenced index file, a lock and a file
    of somebody else. *)
Definition sample_dir : ByteBuffersDirectory :=
  {| bb_files := <["_0.cfs" := []]> (<["_1.cfs" := []]> (<["write.lock" := []]> (<["readme" := []]>
                   (<["segments_1" := []]> ∅)))); bb_open := true |}.

Lemma Refresh_collects_witness :
  ∃ s es s', IncRefFiles ["_0.cfs"] (ifd_init sample_dir false NewKeepOnlyLastCommitDeletionPolicy) = s ∧
    Refresh s = (es, s') ∧ es = [] ∧ "_0.cfs" ∈ ifiles s' ∧ "write.lock" ∈ ifiles s' ∧ "readme" ∈ ifiles s' ∧
    "_1.cfs" ∉ ifiles s' ∧ "segments_1" ∉ ifiles s'.
Proof.
  set (s := IncRefFiles ["_0.cfs"] (ifd_init sample_dir false NewKeepOnlyLastCommitDeletionPolicy)).
  destruct (Refresh s) as [es s'] eqn:E. exists s, es, s'.
  assert (Hin : ∀ f, f ∈ ["_0.cfs"; "write.lock"; "readme"] → f ∈ ifiles s).
  { apply Forall_forall. apply (bool_decide_unpack _). vm_compute. exact I. }
  destruct (Refresh_collects (λ f, 0 + occ f ["_0.cfs"]) s es s') as (_ & _ & _ & Hc & _ & Hkeep & Hgone); [|exact E|].
  - apply (ifd_step_good (λ _, 0, ifd_init sample_dir false NewKeepOnlyLastCommitDeletionPolicy)
      (λ f, 0 + occ f ["_0.cfs"], s)).
    + apply (ifd_init_good (P := KeepOnlyLastCommitDeletionPolicy)).
    + apply step_inc. intros f ->%list_elem_of_singleton. apply (Hin "_0.cfs"). by left.
  - assert (Hes : es = []) by (pose proof (f_equal fst E) as E1; vm_compute in E1; by symmetry).
    split; [reflexivity|]. split; [exact E|]. split; [exact Hes|]. split_and!.
    + apply Hkeep; [apply Hin; by left|]. right; right. vm_compute. reflexivity.
    + apply Hkeep; [apply Hin; by right; left|]. right; left. reflexivity.
    + apply Hkeep; [apply Hin; by right; right; left|]. left. reflexivity.
    + intros Hf. specialize (Hgone Hes _ Hf eq_refl eq_refl). rewrite Hc in Hgone. vm_compute in Hgone. discriminate.
    + intros Hf. specialize (Hgone Hes _ Hf eq_refl eq_refl). rewrite Hc in Hgone. vm_compute in Hgone. discriminate.
Defined.
