(* ===== verification/FileNames.v ===== *)
(** Names of index files: [index/index_file_names.go], the live-docs names of
    [codecs/live_docs_format.go], and the names [spi/segment_commit_info.go]
    says a segment uses. *)

From stdpp Require Import base tactics numbers list strings.
From Stdlib Require Import ZArith Lia Ascii.
From S2P Require Import Prelude.

Local Open Scope Z_scope.

(** A Go string is the list of its bytes. *)
Notation name := (list ascii).
Definition lit (s : string) : name := String.list_ascii_of_string s.

Definition underscore : ascii := "_"%char.
Definition dot : ascii := "."%char.

(** * Numerals of the standard library *)

(** The digit of [v], for [0 <= v < 36]. *)
Definition digit (v : Z) : ascii :=
  ascii_of_N (Z.to_N (if v <? 10 then 48 + v else 87 + v)).

(** The digits of [v > 0], least significant last; [acc] are those behind. *)
Fixpoint digits (fuel : nat) (b v : Z) (acc : name) : name :=
  match fuel with
  | O => acc
  | S fuel' => if v =? 0 then acc else digits fuel' b (v / b) (digit (v mod b) :: acc)
  end.

(** [strconv.FormatInt]; an [int64] has at most 64 digits in any base. *)
Definition FormatInt (v b : Z) : name :=
  if v =? 0 then lit "0"
  else if v <? 0 then "-"%char :: digits 64 b (- v) [] else digits 64 b v [].

(** The value of a digit, upper case included; 36 for other bytes. *)
Definition digit_value (c : ascii) : Z :=
  let n := Z.of_N (N_of_ascii c) in
  if (48 <=? n) && (n <=? 57) then n - 48
  else if (97 <=? n) && (n <=? 122) then n - 87
  else if (65 <=? n) && (n <=? 90) then n - 55
  else 36.

Definition numeral_value (b : Z) (l : name) : Z := foldl (fun a c => a * b + digit_value c) 0 l.

(** [strconv.ParseInt(s, b, 64)] for [b] not 0; [None] is any of its errors. *)
Definition ParseInt (s : name) (b : Z) : option Z :=
  let '(neg, s) := match s with
                   | c :: s' =>
                       if Ascii.eqb c "-"%char then (true, s')
                       else if Ascii.eqb c "+"%char then (false, s') else (false, s)
                   | [] => (false, s)
                   end in
  match s with
  | [] => None
  | _ =>
      if forallb (fun c => digit_value c <? b) s then
        let v := if neg then - numeral_value b s else numeral_value b s in
        if (- 2 ^ 63 <=? v) && (v <? 2 ^ 63) then Some v else None
      else None
  end.

(** * [index_file_names.go] *)

Definition SegmentFileName (segmentName segmentSuffix ext : name) : name :=
  match ext, segmentSuffix with
  | [], [] => segmentName
  | _, _ =>
      segmentName ++ (match segmentSuffix with [] => [] | _ => underscore :: segmentSuffix end)
      ++ (match ext with [] => [] | _ => dot :: ext end)
  end.

Definition FileNameFromGeneration (base ext : name) (gen : Z) : name :=
  if gen =? -1 then []
  else if gen =? 0 then SegmentFileName base [] ext
  else SegmentFileName base (FormatInt gen 36) ext.

(** [strings.IndexByte] *)
Fixpoint IndexByte (s : name) (c : ascii) : Z :=
  match s with
  | [] => -1
  | x :: s' => if Ascii.eqb x c then 0 else let i := IndexByte s' c in if i =? -1 then -1 else i + 1
  end.

(** [filename[1:]] of an empty name panics. *)
Definition indexOfSegmentName (filename : name) : M Z :=
  match filename with
  | [] => Panic
  | _ :: rest =>
      let idx := IndexByte rest underscore in
      if negb (idx =? -1) then mret (idx + 1) else mret (IndexByte filename dot)
  end.

Definition StripSegmentName (filename : name) : M name :=
  idx ← indexOfSegmentName filename;
  mret (if negb (idx =? -1) then drop (Z.to_nat idx) filename else filename).

Definition ParseSegmentName (filename : name) : M name :=
  idx ← indexOfSegmentName filename;
  mret (if negb (idx =? -1) then take (Z.to_nat idx) filename else filename).

Definition StripExtension (filename : name) : name :=
  let idx := IndexByte filename dot in
  if negb (idx =? -1) then take (Z.to_nat idx) filename else filename.

Definition GetExtension (filename : name) : name :=
  let idx := IndexByte filename dot in
  if idx =? -1 then [] else drop (Z.to_nat (idx + 1)) filename.

(** [strings.Split] for a separator of one byte. *)
Fixpoint Split (s : name) (c : ascii) : list name :=
  match s with
  | [] => [[]]
  | x :: s' =>
      if Ascii.eqb x c then [] :: Split s' c
      else match Split s' c with p :: ps => (x :: p) :: ps | [] => [[x]] end
  end.

(** [for len(parts) > 1 && parts[len(parts)-1] == "" { drop it }], from the
    reversed list. *)
Fixpoint drop_empty (rev_parts : list name) : list name :=
  match rev_parts with
  | [] :: ((_ :: _) as ps) => drop_empty ps
  | ps => ps
  end.

Definition javaSplit (s : name) (sep : ascii) : list name :=
  match s with
  | [] => [[]]
  | _ => reverse (drop_empty (reverse (Split s sep)))
  end.

Definition TrimPrefix (s : name) (c : ascii) : name :=
  match s with x :: s' => if Ascii.eqb x c then s' else s | [] => s end.

Definition ParseGeneration (filename : name) : Z :=
  let parts := javaSplit (TrimPrefix (StripExtension filename) underscore) underscore in
  if (length parts =? 2)%nat || (length parts =? 4)%nat then
    match parts !! 1%nat with
    | Some p => match ParseInt p 36 with Some g => g | None => 0 end
    | None => 0
    end
  else 0.

(** * [codecs/live_docs_format.go] *)

(** [alphabet[i]] *)
Definition alphabet : name := lit "0123456789abcdefghijklmnopqrstuvwxyz".

(** The loop fills a buffer of 13 bytes from the end. *)
Definition strconvBase36 (generation : Z) : M name :=
  if generation =? 0 then mret (lit "0") else
  let neg := generation <? 0 in
  let g := if neg then to_uint64 (to_int64 (- generation)) else to_uint64 generation in
  '(buf, i, _) ← go_while (E := goerr) 64 (fun '(_, _, g) => 0 <? g)
    (fun '(buf, i, g) =>
       let i := i - 1 in
       c ← aget alphabet (g mod 36);
       buf ← aset buf i c;
       mret (buf, i, g / 36))
    (repeat zero 13, 13, g);
  let out := drop (Z.to_nat i) buf in
  mret (if neg then "-"%char :: out else out).

Definition fileNameFromGeneration (segmentName ext : name) (generation : Z) : M name :=
  if generation =? 0 then mret (segmentName ++ dot :: ext) else
  g ← strconvBase36 generation;
  mret (segmentName ++ underscore :: g ++ dot :: ext).

(** * [SegmentCommitInfo] *)

Record SegmentCommitInfo := {
  Info_Name : name;
  Info_Files : list name;
  delGen : Z;
  fieldInfosGen : Z;
  docValuesGen : Z;
  fieldInfosFiles : list name;
  docValuesUpdatesFiles : list (list name)
}.

(** [add]: a name is taken once. *)
Definition add_name (out : list name) (n : name) : list name :=
  if decide (n ∈ out) then out else out ++ [n].

(** [fmt.Sprintf("_%s_%d.ext", name[1:], gen)]; slicing an empty name panics. *)
Definition sidecar (info_name : name) (gen : Z) (ext : string) : M name :=
  match info_name with
  | [] => Panic
  | _ :: rest => mret (underscore :: rest ++ underscore :: FormatInt gen 10 ++ dot :: lit ext)
  end.

Definition add_sidecar (sci : SegmentCommitInfo) (gen : Z) (ext : string) (out : list name)
  : M (list name) :=
  if gen <? 0 then mret out else n ← sidecar (Info_Name sci) gen ext; mret (add_name out n).

Definition GetFiles (sci : SegmentCommitInfo) : M (list name) :=
  let out := foldl add_name [] (Info_Files sci) in
  out ← add_sidecar sci (delGen sci) "liv" out;
  out ← add_sidecar sci (fieldInfosGen sci) "fnm" out;
  out ← add_sidecar sci (docValuesGen sci) "dvd" out;
  let out := foldl add_name out (fieldInfosFiles sci) in
  mret (foldl add_name out (concat (docValuesUpdatesFiles sci))).

(** * Numerals *)

Lemma digit_value_digit v : 0 ≤ v < 36 → digit_value (digit v) = v.
Proof.
  intros Hv. assert (Hin : v ∈ seqZ 0 36) by (apply elem_of_seqZ; lia). revert v Hv Hin.
  assert (Hall : Forall (λ v, digit_value (digit v) = v) (seqZ 0 36)).
  { apply (bool_decide_unpack _). vm_compute. exact I. }
  intros v _ Hin. by eapply Forall_forall in Hin; [|exact Hall].
Qed.

(** A byte of a numeral is no separator and no sign. *)
Lemma digit_value_plain c : digit_value c < 36 →
  c ≠ underscore ∧ c ≠ dot ∧ c ≠ "-"%char ∧ c ≠ "+"%char.
Proof. intros Hc. split_and!; intros ->; vm_compute in Hc; done. Qed.

Notation value b := (foldl (fun a c => a * b + digit_value c)).

Lemma digits_fuel n m b v acc : 2 ≤ b → 0 ≤ v < b ^ Z.of_nat n → (n ≤ m)%nat →
  digits n b v acc = digits m b v acc.
Proof.
  intros Hb. revert m v acc. induction n as [|n IH]; intros m v acc Hv Hm.
  - assert (v = 0) as -> by (simpl in Hv; lia). by destruct m.
  - destruct m as [|m]; [lia|]. simpl. case_match; [done|]. apply IH; [|lia].
    rewrite Nat2Z.inj_succ, Z.pow_succ_r in Hv by lia.
    split; [apply Z.div_pos; lia|apply Z.div_lt_upper_bound; lia].
Qed.

Lemma digits_S n b v acc :
  digits (S n) b v acc = if v =? 0 then acc else digits n b (v / b) (digit (v mod b) :: acc).
Proof. done. Qed.

Lemma digits_0 n b acc : digits n b 0 acc = acc.
Proof. by destruct n. Qed.

Lemma digits_app n b v acc : digits n b v acc = digits n b v [] ++ acc.
Proof.
  revert v acc. induction n as [|n IH]; intros v acc; simpl; [done|].
  case_match; [done|]. rewrite (IH _ (_ :: acc)), (IH _ [_]), <- app_assoc. done.
Qed.

Lemma digits_value n b v acc : 2 ≤ b ≤ 36 → 0 ≤ v < b ^ Z.of_nat n →
  value b 0 (digits n b v acc) = value b v acc.
Proof.
  intros Hb. revert v acc. induction n as [|n IH]; intros v acc Hv.
  - assert (v = 0) as -> by (simpl in Hv; lia). done.
  - simpl. case_match eqn:E; [apply Z.eqb_eq in E; by subst|].
    rewrite Nat2Z.inj_succ, Z.pow_succ_r in Hv by lia.
    rewrite IH by (split; [apply Z.div_pos; lia|apply Z.div_lt_upper_bound; lia]). simpl.
    pose proof (Z.mod_pos_bound v b ltac:(lia)). rewrite digit_value_digit by lia.
    f_equal. pose proof (Z.div_mod v b). lia.
Qed.

Lemma digits_range n b v acc : 2 ≤ b ≤ 36 → 0 ≤ v →
  Forall (λ c, digit_value c < b) acc → Forall (λ c, digit_value c < b) (digits n b v acc).
Proof.
  intros Hb. revert v acc. induction n as [|n IH]; intros v acc Hv Hacc; simpl; [done|].
  case_match; [done|]. pose proof (Z.mod_pos_bound v b ltac:(lia)).
  apply IH; [apply Z.div_pos; lia|]. constructor; [rewrite digit_value_digit; lia|done].
Qed.

Lemma pow_64 b : 2 ≤ b → 2 ^ 63 < b ^ Z.of_nat 64.
Proof. intros Hb. pose proof (Z.pow_le_mono_l 2 b 64). change (Z.of_nat 64) with 64. lia. Qed.

Lemma FormatInt_pos v b : 0 < v → FormatInt v b = digits 64 b v [].
Proof.
  intros Hv. unfold FormatInt. rewrite (proj2 (Z.eqb_neq v 0)), (proj2 (Z.ltb_ge v 0)) by lia. done.
Qed.

Lemma FormatInt_value v b : 2 ≤ b ≤ 36 → 0 ≤ v < 2 ^ 63 → numeral_value b (FormatInt v b) = v.
Proof.
  intros Hb Hv. destruct (decide (v = 0)) as [->|Hnz]; [done|].
  rewrite FormatInt_pos by lia. unfold numeral_value. pose proof (pow_64 b ltac:(lia)).
  by rewrite digits_value by lia.
Qed.

Lemma FormatInt_range v b : 2 ≤ b ≤ 36 → 0 ≤ v → Forall (λ c, digit_value c < b) (FormatInt v b).
Proof.
  intros Hb Hv. destruct (decide (v = 0)) as [->|Hnz].
  - constructor; [|constructor]. change (0 < b). lia.
  - rewrite FormatInt_pos by lia. apply digits_range; [lia|lia|constructor].
Qed.

Lemma FormatInt_nonempty v b : 2 ≤ b ≤ 36 → 0 ≤ v < 2 ^ 63 → FormatInt v b ≠ [].
Proof.
  intros Hb Hv E. pose proof (FormatInt_value v b Hb Hv) as Hval. rewrite E in Hval.
  change (0 = v) in Hval. subst. done.
Qed.

(** Parsing is inverse to formatting. *)
Lemma ParseInt_FormatInt v b : 2 ≤ b ≤ 36 → 0 ≤ v < 2 ^ 63 → ParseInt (FormatInt v b) b = Some v.
Proof.
  intros Hb Hv. pose proof (FormatInt_value v b Hb Hv) as Hval.
  pose proof (FormatInt_range v b Hb ltac:(lia)) as Hr.
  destruct (FormatInt v b) as [|c s] eqn:E; [by destruct (FormatInt_nonempty v b Hb Hv)|].
  assert (Hall : forallb (λ c, digit_value c <? b) (c :: s) = true).
  { apply forallb_forall. intros x Hx%list_elem_of_In. apply Z.ltb_lt.
    by eapply Forall_forall in Hx; [|exact Hr]. }
  pose proof (Forall_inv Hr) as Hc. simpl in Hc.
  destruct (digit_value_plain c ltac:(lia)) as (_ & _ & Hm & Hp). unfold ParseInt.
  apply Ascii.eqb_neq in Hm, Hp. rewrite Hm, Hp, Hall, Hval.
  rewrite (proj2 (Z.leb_le _ v)), (proj2 (Z.ltb_lt v _)) by lia. done.
Qed.

(** Decimal digits read in base 36 give a larger number, from 10 on. *)
Lemma decimal_in_36 n v : 0 ≤ v < 10 ^ Z.of_nat n →
  ∃ w, v ≤ w ∧ (10 ≤ v → v < w) ∧ ∀ acc, value 36 0 (digits n 10 v acc) = value 36 w acc.
Proof.
  revert v. induction n as [|n IH]; intros v Hv.
  - exists 0. assert (v = 0) as -> by (simpl in Hv; lia). split_and!; [lia|lia|done].
  - simpl. destruct (Z.eqb_spec v 0) as [->|Hnz]; [exists 0; split_and!; [lia|lia|done]|].
    rewrite Nat2Z.inj_succ, Z.pow_succ_r in Hv by lia.
    destruct (IH (v / 10)) as (w & Hw & _ & Hval).
    { split; [apply Z.div_pos; lia|apply Z.div_lt_upper_bound; lia]. }
    pose proof (Z.mod_pos_bound v 10 ltac:(lia)). pose proof (Z.div_mod v 10 ltac:(lia)).
    exists (w * 36 + v mod 10). split_and!.
    + lia.
    + intros H10. assert (1 ≤ v / 10) by (apply Z.div_le_lower_bound; lia). lia.
    + intros acc. rewrite Hval. simpl. by rewrite digit_value_digit by lia.
Qed.

Lemma FormatInt_10_36 v : 10 ≤ v < 2 ^ 63 → FormatInt v 10 ≠ FormatInt v 36.
Proof.
  intros Hv E. pose proof (FormatInt_value v 36 ltac:(lia) ltac:(lia)) as H36.
  rewrite <- E, FormatInt_pos in H36 by lia. pose proof (pow_64 10 ltac:(lia)).
  destruct (decimal_in_36 64 v ltac:(lia)) as (w & _ & Hlt & Hval).
  unfold numeral_value in H36. rewrite Hval in H36. simpl in H36. lia.
Qed.

Lemma FormatInt_small v : 0 ≤ v < 10 → FormatInt v 10 = FormatInt v 36.
Proof.
  intros Hv. assert (Hin : v ∈ seqZ 0 10) by (apply elem_of_seqZ; lia). revert v Hv Hin.
  assert (Hall : Forall (λ v, FormatInt v 10 = FormatInt v 36) (seqZ 0 10)).
  { apply (bool_decide_unpack _). vm_compute. exact I. }
  intros v _ Hin. by eapply Forall_forall in Hin; [|exact Hall].
Qed.

(** * The loop of [strconvBase36] *)

Lemma alphabet_digit v : 0 ≤ v < 36 → aget (E := goerr) alphabet v = Ret (digit v).
Proof.
  intros Hv. assert (Hin : v ∈ seqZ 0 36) by (apply elem_of_seqZ; lia). revert v Hv Hin.
  assert (Hall : Forall (λ v, alphabet !! Z.to_nat v = Some (digit v)) (seqZ 0 36)).
  { apply (bool_decide_unpack _). vm_compute. exact I. }
  intros v Hv Hin. eapply Forall_forall in Hin; [|exact Hall]. cbv beta in Hin.
  apply aget_Ret; [lia|exact Hin].
Qed.

Lemma drop_insert_step {A} (buf : list A) c i : 1 ≤ i ≤ Z.of_nat (length buf) →
  drop (Z.to_nat (i - 1)) (<[Z.to_nat (i - 1) := c]> buf) = c :: drop (Z.to_nat i) buf.
Proof.
  intros Hi. rewrite insert_take_drop, drop_app_length' by (rewrite ?length_take; lia).
  by replace (S (Z.to_nat (i - 1))) with (Z.to_nat i) by lia.
Qed.

#[local] Opaque digits.

Definition base36_inv (g0 : Z) (st : name * Z * Z) : Prop :=
  let '(buf, i, g) := st in
  length buf = 13%nat ∧ 0 ≤ i ≤ 13 ∧ 0 ≤ g < 36 ^ i
  ∧ digits 64 36 g (drop (Z.to_nat i) buf) = digits 64 36 g0 [].

Lemma strconvBase36_eq v : in_sint 64 v → strconvBase36 v = Ret (FormatInt v 36).
Proof.
  intros Hv. unfold strconvBase36, FormatInt. destruct (Z.eqb_spec v 0) as [|Hnz]; [done|].
  set (g := if v <? 0 then to_uint64 (to_int64 (- v)) else to_uint64 v).
  assert (Hg : g = Z.abs v ∧ 0 < g ≤ 2 ^ 63).
  { unfold g, in_sint in *. change (2 ^ (64 - 1)) with (2 ^ 63) in Hv. destruct (Z.ltb_spec v 0).
    - assert (to_uint64 (to_int64 (- v)) = - v) as ->; [|lia].
      etrans; [apply (uwrap_swrap 64); lia|]. apply uwrap_id. unfold in_uint. lia.
    - assert (to_uint64 v = v) as ->; [|lia]. apply uwrap_id. unfold in_uint. lia. }
  destruct Hg as [Hg Hpos]. clearbody g.
  match goal with |- context [go_while ?f ?c ?b ?st0] =>
    destruct (go_while_inv (E := goerr) (base36_inv g) (fun st => let '(_, i, _) := st in i) f c b st0)
      as ([[buf i] g'] & E & (Hlen & Hi & Hg' & Hd) & Hc) end.
  - unfold base36_inv. split; [done|]. split; [lia|]. split; [|done].
    split; [lia|]. change (36 ^ 13) with 170581728179578208256. lia.
  - cbv beta iota. lia.
  - intros [[buf i] g1] (Hlen & Hi & Hg1 & Hd) Hc%Z.ltb_lt.
    assert (1 ≤ i) by (destruct (decide (i = 0)) as [->|]; [simpl in Hg1; lia|lia]).
    pose proof (Z.mod_pos_bound g1 36 ltac:(lia)).
    split; [lia|]. rewrite alphabet_digit by lia. simpl. rewrite aset_Ret by lia. simpl.
    eexists. split; [done|]. split; [|lia]. split_and!.
    + by rewrite length_insert.
    + lia.
    + lia.
    + apply Z.div_pos; lia.
    + apply Z.div_lt_upper_bound; [lia|]. rewrite <- Z.pow_succ_r by lia. replace (Z.succ (i - 1)) with i by lia. apply Hg1.
    + rewrite <- Hd. rewrite (drop_insert_step buf (digit (g1 mod 36)) i) by lia.
      rewrite <- (digits_fuel 63 64); [|lia| |lia].
      * change 64%nat with (S 63). rewrite (digits_S 63 36 g1). by rewrite (proj2 (Z.eqb_neq g1 0)) by lia.
      * split; [apply Z.div_pos; lia|].
        apply Z.le_lt_trans with g1; [apply Z.div_le_upper_bound; lia|].
        apply Z.lt_le_trans with (36 ^ i); [lia|apply Z.pow_le_mono_r; lia].
  - rewrite E. simpl. apply Z.ltb_ge in Hc. assert (g' = 0) as -> by lia. rewrite digits_0 in Hd.
    rewrite Hd, Hg. destruct (Z.ltb_spec v 0); [by rewrite Z.abs_neq by lia|by rewrite Z.abs_eq by lia].
Qed.

(** * Cutting names *)

Lemma IndexByte_app l c rest : Forall (.≠ c) l → IndexByte (l ++ c :: rest) c = Z.of_nat (length l).
Proof.
  induction 1 as [|x l Hx Hl IH]; simpl; [by rewrite Ascii.eqb_refl|].
  rewrite (proj2 (Ascii.eqb_neq x c)), IH by done. rewrite (proj2 (Z.eqb_neq _ (-1))); lia.
Qed.

Lemma IndexByte_none l c : Forall (.≠ c) l → IndexByte l c = -1.
Proof.
  induction 1 as [|x l Hx Hl IH]; simpl; [done|]. by rewrite (proj2 (Ascii.eqb_neq x c)), IH.
Qed.

Lemma Split_none l c : Forall (.≠ c) l → Split l c = [l].
Proof.
  induction 1 as [|x l Hx Hl IH]; simpl; [done|]. by rewrite (proj2 (Ascii.eqb_neq x c)), IH.
Qed.

Lemma Split_app l c rest : Forall (.≠ c) l → Split (l ++ c :: rest) c = l :: Split rest c.
Proof.
  induction 1 as [|x l Hx Hl IH]; simpl; [by rewrite Ascii.eqb_refl|].
  by rewrite (proj2 (Ascii.eqb_neq x c)), IH.
Qed.

Lemma javaSplit_one l c : Forall (.≠ c) l → l ≠ [] → javaSplit l c = [l].
Proof. intros Hl Hn. unfold javaSplit. destruct l; [done|]. by rewrite Split_none by done. Qed.

Lemma javaSplit_two l k c : Forall (.≠ c) l → Forall (.≠ c) k → k ≠ [] →
  javaSplit (l ++ c :: k) c = [l; k].
Proof.
  intros Hl Hk Hn. unfold javaSplit. rewrite Split_app, Split_none by done.
  destruct l, k; done.
Qed.

(** A segment name: an underscore and some bytes that are no separators; the
    writer makes them with [FormatInt]. *)
Definition plain (c : ascii) : Prop := c ≠ underscore ∧ c ≠ dot.
Definition segment_name (n : name) : Prop := ∃ r, n = underscore :: r ∧ r ≠ [] ∧ Forall plain r.

Lemma plain_underscore l : Forall plain l → Forall (.≠ underscore) l.
Proof. intros Hl. eapply Forall_impl; [exact Hl|]. by intros c [? _]. Qed.

Lemma plain_dot l : Forall plain l → Forall (.≠ dot) l.
Proof. intros Hl. eapply Forall_impl; [exact Hl|]. by intros c [_ ?]. Qed.

Lemma FormatInt_plain v b : 2 ≤ b ≤ 36 → 0 ≤ v → Forall plain (FormatInt v b).
Proof.
  intros Hb Hv. eapply Forall_impl; [by apply FormatInt_range|].
  intros c Hc. simpl in Hc. destruct (digit_value_plain c ltac:(lia)) as (? & ? & _). done.
Qed.

Lemma segment_name_FormatInt v : 0 ≤ v < 2 ^ 63 → segment_name (underscore :: FormatInt v 36).
Proof.
  intros Hv. exists (FormatInt v 36). split_and!; [done| |by apply FormatInt_plain; lia].
  by apply FormatInt_nonempty; lia.
Qed.

(** The shapes of the names built from a generation. *)
Lemma FileNameFromGeneration_shape base ext gen : ext ≠ [] → 0 ≤ gen < 2 ^ 63 →
  FileNameFromGeneration base ext gen
  = base ++ (if gen =? 0 then [] else underscore :: FormatInt gen 36) ++ dot :: ext.
Proof.
  intros He Hg. unfold FileNameFromGeneration, SegmentFileName. rewrite (proj2 (Z.eqb_neq gen (-1))) by lia.
  destruct ext as [|c ext]; [done|]. destruct (Z.eqb_spec gen 0); [done|].
  destruct (FormatInt gen 36) eqn:E; [|done].
  by destruct (FormatInt_nonempty gen 36 ltac:(lia) Hg).
Qed.

Lemma fileNameFromGeneration_eq base ext gen : ext ≠ [] → 0 ≤ gen < 2 ^ 63 →
  fileNameFromGeneration base ext gen = Ret (FileNameFromGeneration base ext gen).
Proof.
  intros He Hg. rewrite FileNameFromGeneration_shape by done. unfold fileNameFromGeneration.
  destruct (Z.eqb_spec gen 0); [done|]. rewrite strconvBase36_eq; [done|].
  unfold in_sint. change (64 - 1) with 63. lia.
Qed.

Section Shape.
Context (r ext : name) (gen : Z).
Hypotheses (Hr : Forall plain r) (Hne : r ≠ []) (He : Forall plain ext) (Hene : ext ≠ [])
  (Hg : 0 ≤ gen < 2 ^ 63).

Let suffix : name := if gen =? 0 then [] else underscore :: FormatInt gen 36.
Let f : name := underscore :: r ++ suffix ++ dot :: ext.

Lemma suffix_dot : Forall (.≠ dot) suffix.
Proof.
  unfold suffix. case_match; constructor; [done|]. apply plain_dot, FormatInt_plain; lia.
Qed.

Lemma before_dot : Forall (.≠ dot) (underscore :: r ++ suffix).
Proof. constructor; [done|]. apply Forall_app. split; [by apply plain_dot|apply suffix_dot]. Qed.

Lemma f_app : f = (underscore :: r ++ suffix) ++ dot :: ext.
Proof. unfold f. simpl. by rewrite <- app_assoc. Qed.

Lemma StripExtension_f : StripExtension f = underscore :: r ++ suffix.
Proof.
  unfold StripExtension. rewrite f_app, IndexByte_app by apply before_dot.
  rewrite (proj2 (Z.eqb_neq _ (-1))) by lia. cbn [negb]. by rewrite Nat2Z.id, take_app_length.
Qed.

Lemma GetExtension_f : GetExtension f = ext.
Proof.
  unfold GetExtension. rewrite f_app, IndexByte_app by apply before_dot.
  rewrite (proj2 (Z.eqb_neq _ (-1))) by lia.
  rewrite (cons_middle dot), app_assoc. apply drop_app_length'. rewrite length_app. simpl. lia.
Qed.

Lemma indexOfSegmentName_f : indexOfSegmentName f = Ret (Z.of_nat (length (underscore :: r))).
Proof.
  unfold indexOfSegmentName, f, suffix. destruct (Z.eqb_spec gen 0) as [Eg|Eg]; simpl app.
  - rewrite IndexByte_none.
    + change (underscore :: r ++ dot :: ext) with ((underscore :: r) ++ dot :: ext).
      rewrite IndexByte_app; [done|]. constructor; [done|by apply plain_dot].
    + apply Forall_app. split; [by apply plain_underscore|]. constructor; [done|by apply plain_underscore].
  - rewrite IndexByte_app by (by apply plain_underscore).
    rewrite (proj2 (Z.eqb_neq _ (-1))) by lia. simpl. do 2 f_equal. lia.
Qed.

Lemma ParseSegmentName_f : ParseSegmentName f = Ret (underscore :: r).
Proof.
  unfold ParseSegmentName. rewrite indexOfSegmentName_f. cbn [mbind go_bind].
  rewrite (proj2 (Z.eqb_neq _ (-1))) by lia. cbn [negb]. rewrite Nat2Z.id. unfold f.
  change (underscore :: r ++ suffix ++ dot :: ext) with ((underscore :: r) ++ suffix ++ dot :: ext).
  by rewrite take_app_length.
Qed.

Lemma ParseGeneration_f : ParseGeneration f = gen.
Proof.
  unfold ParseGeneration. rewrite StripExtension_f. unfold TrimPrefix. rewrite Ascii.eqb_refl.
  unfold suffix. destruct (Z.eqb_spec gen 0) as [Eg|Eg].
  - rewrite app_nil_r, javaSplit_one by (try done; by apply plain_underscore). done.
  - rewrite javaSplit_two; [|by apply plain_underscore|apply plain_underscore, FormatInt_plain; lia|
      apply FormatInt_nonempty; lia].
    cbn [length Nat.eqb orb]. change ([r; FormatInt gen 36] !! 1%nat) with (Some (FormatInt gen 36)).
    cbv iota beta. by rewrite ParseInt_FormatInt by lia.
Qed.
End Shape.

(** * Properties *)

(** C40. File names of a segment: the name made from a segment name, an
    extension and a generation is taken apart again by [ParseSegmentName],
    [ParseGeneration] and [GetExtension], and the live-docs format, which has
    its own code for base 36, makes the same name. *)
Theorem FileNameFromGeneration_parse n ext gen :
  segment_name n → Forall plain ext → ext ≠ [] → 0 ≤ gen < 2 ^ 63 →
  let f := FileNameFromGeneration n ext gen in
  ParseSegmentName f = Ret n ∧ ParseGeneration f = gen ∧ GetExtension f = ext
  ∧ fileNameFromGeneration n ext gen = Ret f.
Proof.
  intros (r & -> & Hne & Hr) He Hene Hg f.
  split_and!; [| | |by apply fileNameFromGeneration_eq]; unfold f;
    rewrite FileNameFromGeneration_shape by done; simpl app.
  - by apply ParseSegmentName_f.
  - by apply ParseGeneration_f.
  - by apply GetExtension_f.
Qed.

Lemma FileNameFromGeneration_parse_witness :
  ParseGeneration (FileNameFromGeneration (lit "_1x") (lit "liv") 46655) = 46655.
Proof.
  apply (FileNameFromGeneration_parse (lit "_1x") (lit "liv") 46655).
  - apply (segment_name_FormatInt 69). lia.
  - repeat constructor; discriminate.
  - discriminate.
  - lia.
Defined.

(** The files of a segment. *)
Lemma add_name_spec out n x : x ∈ add_name out n ↔ x ∈ out ∨ x = n.
Proof.
  unfold add_name. case_decide as E; [|by rewrite elem_of_app, list_elem_of_singleton].
  split; [by left|]. by intros [Hx|Hx]; subst.
Qed.

Lemma add_names_spec l out x : x ∈ foldl add_name out l ↔ x ∈ out ∨ x ∈ l.
Proof.
  revert out. induction l as [|n l IH]; intros out; simpl.
  - rewrite elem_of_nil. tauto.
  - rewrite IH, add_name_spec, elem_of_cons. tauto.
Qed.

Definition sidecar_name (r : name) (gen : Z) (ext : string) : name :=
  underscore :: r ++ underscore :: FormatInt gen 10 ++ dot :: lit ext.

Lemma add_sidecar_spec sci r gen ext out : Info_Name sci = underscore :: r →
  ∃ out', add_sidecar sci gen ext out = Ret out'
    ∧ ∀ x, x ∈ out' ↔ x ∈ out ∨ (0 ≤ gen ∧ x = sidecar_name r gen ext).
Proof.
  intros Hn. unfold add_sidecar, sidecar. rewrite Hn. destruct (Z.ltb_spec gen 0).
  - exists out. split; [done|]. intros x. split; [by left|intros [Hx|[? _]]; [done|lia]].
  - eexists. split; [done|]. intros x. rewrite add_name_spec. fold (sidecar_name r gen ext).
    split; [intros [Hx|Hx]; auto|intros [Hx|[_ Hx]]; auto].
Qed.

Lemma GetFiles_spec sci r : Info_Name sci = underscore :: r →
  ∃ fs, GetFiles sci = Ret fs ∧ ∀ x, x ∈ fs ↔
    x ∈ Info_Files sci ++ fieldInfosFiles sci ++ concat (docValuesUpdatesFiles sci)
    ∨ (0 ≤ delGen sci ∧ x = sidecar_name r (delGen sci) "liv")
    ∨ (0 ≤ fieldInfosGen sci ∧ x = sidecar_name r (fieldInfosGen sci) "fnm")
    ∨ (0 ≤ docValuesGen sci ∧ x = sidecar_name r (docValuesGen sci) "dvd").
Proof.
  intros Hn. unfold GetFiles.
  destruct (add_sidecar_spec sci r (delGen sci) "liv" (foldl add_name [] (Info_Files sci)) Hn) as (o1 & -> & H1).
  destruct (add_sidecar_spec sci r (fieldInfosGen sci) "fnm" o1 Hn) as (o2 & E2 & H2).
  destruct (add_sidecar_spec sci r (docValuesGen sci) "dvd" o2 Hn) as (o3 & E3 & H3).
  cbn [mbind go_bind]. rewrite E2. cbn [mbind go_bind]. rewrite E3. cbn [mbind go_bind].
  eexists. split; [done|]. intros x.
  rewrite !add_names_spec, H3, H2, H1, add_names_spec, !elem_of_app, elem_of_nil. tauto.
Qed.

Lemma sidecar_name_last r gen ext x c : lit ext = x ++ [c] → last (sidecar_name r gen ext) = Some c.
Proof.
  intros E. unfold sidecar_name. rewrite E.
  replace (underscore :: r ++ underscore :: FormatInt gen 10 ++ dot :: x ++ [c])
    with ((underscore :: r ++ underscore :: FormatInt gen 10 ++ dot :: x) ++ [c]).
  - by rewrite last_snoc.
  - simpl. by rewrite <- !app_assoc, <- app_comm_cons, <- app_assoc.
Qed.

(** The live-docs file of a segment and the files the segment says it
    uses: the format names the file in base 36, [GetFiles] lists it in base 10.
    Up to generation 9 the file is listed.  From generation 10 on it is not
    (unless another list names it): nothing protects it from the file
    deleter any more. *)
Theorem live_docs_file_listed sci : segment_name (Info_Name sci) → 1 ≤ delGen sci < 2 ^ 63 →
  ∃ f fs, fileNameFromGeneration (Info_Name sci) (lit "liv") (delGen sci) = Ret f
    ∧ GetFiles sci = Ret fs
    ∧ (delGen sci < 10 → f ∈ fs)
    ∧ (10 ≤ delGen sci →
         (f ∈ fs ↔ f ∈ Info_Files sci ++ fieldInfosFiles sci ++ concat (docValuesUpdatesFiles sci))).
Proof.
  intros (r & Hn & Hne & Hr) Hg. destruct (GetFiles_spec sci r Hn) as (fs & Efs & Hfs).
  rewrite Hn. set (f := FileNameFromGeneration (underscore :: r) (lit "liv") (delGen sci)).
  assert (Hf : f = underscore :: r ++ underscore :: FormatInt (delGen sci) 36 ++ dot :: lit "liv").
  { unfold f. rewrite FileNameFromGeneration_shape by (done || lia).
    rewrite (proj2 (Z.eqb_neq _ 0)) by lia. done. }
  exists f, fs. split_and!; [apply fileNameFromGeneration_eq; [done|lia]|done| |]; rewrite Hfs.
  - intros Hlt. right; left. split; [lia|]. rewrite Hf. unfold sidecar_name. by rewrite FormatInt_small by lia.
  - intros Hge. split; [|by left]. assert (Hlast : last f = Some "v"%char).
    { rewrite Hf. replace (underscore :: r ++ underscore :: FormatInt (delGen sci) 36 ++ dot :: lit "liv")
        with ((underscore :: r ++ underscore :: FormatInt (delGen sci) 36 ++ dot :: lit "li") ++ ["v"%char]).
      - by rewrite last_snoc.
      - simpl. by rewrite <- !app_assoc, <- app_comm_cons, <- app_assoc. }
    intros [?|[[_ E]|[[_ E]|[_ E]]]]; [done|exfalso..].
    + rewrite Hf in E. unfold sidecar_name in E.
      apply (inj (cons underscore)), app_inv_head, (inj (cons underscore)), app_inv_tail in E.
      exact (FormatInt_10_36 (delGen sci) ltac:(lia) (eq_sym E)).
    + rewrite E, (sidecar_name_last _ _ _ (lit "fn") "m"%char) in Hlast by done. done.
    + rewrite E, (sidecar_name_last _ _ _ (lit "dv") "d"%char) in Hlast by done. done.
Qed.

Definition sample_segment (gen : Z) : SegmentCommitInfo :=
  {| Info_Name := lit "_0"; Info_Files := [lit "_0.si"]; delGen := gen; fieldInfosGen := -1;
     docValuesGen := -1; fieldInfosFiles := []; docValuesUpdatesFiles := [] |}.

Example live_docs_names :
  map (λ g, (fileNameFromGeneration (lit "_0") (lit "liv") g, GetFiles (sample_segment g))) [9; 10]
  = [(Ret (lit "_0_9.liv"), Ret [lit "_0.si"; lit "_0_9.liv"]);
     (Ret (lit "_0_a.liv"), Ret [lit "_0.si"; lit "_0_10.liv"])].
Proof. vm_compute. reflexivity. Qed.

Lemma live_docs_file_listed_witness :
  ∃ f fs, fileNameFromGeneration (lit "_0") (lit "liv") 10 = Ret f ∧ GetFiles (sample_segment 10) = Ret fs
    ∧ f ∉ fs.
Proof.
  destruct (live_docs_file_listed (sample_segment 10)) as (f & fs & Ef & Efs & _ & Hin).
  - apply (segment_name_FormatInt 0). lia.
  - simpl. lia.
  - exists f, fs. split_and!; [exact Ef|exact Efs|]. rewrite Hin by (simpl; lia).
    vm_compute in Ef. injection Ef as <-. simpl. rewrite list_elem_of_singleton. discriminate.
Defined.
