(* ===== verification/IntIntHashMap.v ===== *)
(** The hash map of [internal/hppc/int_int_hash_map.go]: open addressing with
    linear probing, removal by shifting back, growth by rehashing; refined to a
    finite map.

    The load factor is the default one, 0.75; for the sizes that occur (at most
    [2^30]) the floating-point products and quotients of the code round to the
    same integers as the exact ones below. *)

From stdpp Require Import base tactics numbers list gmap.
From Stdlib Require Import ZArith Lia.
From S2P Require Import Prelude.

Local Open Scope Z_scope.

(** * [bit_mixer.go], [hash_containers.go] *)

Definition phiC32 : Z := 0x9e3779b9.

Definition MixPhi (k : Z) : Z :=
  let h := to_uint32 (to_uint32 k * phiC32) in
  to_int32 (Z.lxor h (Z.shiftr h 16)).

Definition DefaultExpectedElements : Z := 4.
Definition MinHashArrayLength : Z := 4.
Definition MaxHashArrayLength : Z := Z.shiftr 0x80000000 1.

(** [math.Ceil(float64(arraySize) * 0.75)] *)
Definition ExpandAtCount (arraySize : Z) : Z :=
  let res := (3 * arraySize + 3) / 4 in
  if arraySize - 1 <? res then arraySize - 1 else res.

Definition NextBufferSize (arraySize : Z) : M Z :=
  if arraySize =? MaxHashArrayLength then Panic else mret (Z.shiftl arraySize 1).

Definition nextHighestPowerOfTwo (n : Z) : Z :=
  if n <=? 0 then 1 else
  let n := n - 1 in
  let n := Z.lor n (Z.shiftr n 1) in
  let n := Z.lor n (Z.shiftr n 2) in
  let n := Z.lor n (Z.shiftr n 4) in
  let n := Z.lor n (Z.shiftr n 8) in
  let n := Z.lor n (Z.shiftr n 16) in
  let n := Z.lor n (Z.shiftr n 32) in
  n + 1.

(** [math.Ceil(float64(elements) / 0.75)] *)
Definition MinBufferSize (elements : Z) : M Z :=
  if elements <? 0 then Panic else
  let length := (4 * elements + 2) / 3 in
  let length := if length =? elements then length + 1 else length in
  let l := if length <? MinHashArrayLength then MinHashArrayLength
           else if negb (Z.land length (length - 1) =? 0) then nextHighestPowerOfTwo length
           else length in
  if MaxHashArrayLength <? l then Panic else mret l.

(** * The map *)

Record IntIntHashMap := {
  keys : list Z;
  values : list Z;
  assigned : Z;
  mask : Z;
  resizeAt : Z;
  hasEmptyKey : bool
}.

Definition set_arrays (ks vs : list Z) (m : IntIntHashMap) : IntIntHashMap :=
  {| keys := ks; values := vs; assigned := assigned m; mask := mask m; resizeAt := resizeAt m;
     hasEmptyKey := hasEmptyKey m |}.

Definition set_assigned (a : Z) (m : IntIntHashMap) : IntIntHashMap :=
  {| keys := keys m; values := values m; assigned := a; mask := mask m; resizeAt := resizeAt m;
     hasEmptyKey := hasEmptyKey m |}.

Definition set_empty_key (b : bool) (m : IntIntHashMap) : IntIntHashMap :=
  {| keys := keys m; values := values m; assigned := assigned m; mask := mask m;
     resizeAt := resizeAt m; hasEmptyKey := b |}.

Definition Size (m : IntIntHashMap) : Z := if hasEmptyKey m then assigned m + 1 else assigned m.

Definition IsEmpty (m : IntIntHashMap) : bool := Size m =? 0.

(** [int(MixPhi(int32(key))) & mask] *)
Definition ideal (msk key : Z) : Z := Z.land (MixPhi (to_int32 key)) msk.

Definition next (msk slot : Z) : Z := Z.land (slot + 1) msk.

(** The probing loop all operations share: whether the key was met, and the
    slot of the key or of the empty place the loop stopped at. *)
Fixpoint probe (fuel : nat) (ks : list Z) (msk key slot : Z) : M (bool * Z) :=
  match fuel with
  | O => NoFuel
  | S fuel' =>
      existing ← aget ks slot;
      if existing =? 0 then mret (false, slot) else
      if existing =? key then mret (true, slot) else
      probe fuel' ks msk key (next msk slot)
  end.

(** A probe that finds anything meets each slot once at most. *)
Definition locate (m : IntIntHashMap) (key : Z) : M (bool * Z) :=
  probe (length (keys m)) (keys m) (mask m) key (ideal (mask m) key).

Definition allocateBuffers (arraySize : Z) (m : IntIntHashMap) : IntIntHashMap :=
  {| keys := repeat 0 (Z.to_nat (arraySize + 1)); values := repeat 0 (Z.to_nat (arraySize + 1));
     assigned := assigned m; mask := arraySize - 1; resizeAt := ExpandAtCount arraySize;
     hasEmptyKey := hasEmptyKey m |}.

(** [for keys[slot] != 0 { slot = (slot + 1) & mask }] *)
Definition find_empty (ks : list Z) (msk slot : Z) : M Z :=
  '(_, slot) ← probe (length ks) ks msk 0 slot; mret slot.

(** The loop runs from the last slot but one down to the first. *)
Definition rehash (fromKeys fromValues : list Z) (m : IntIntHashMap) : M IntIntHashMap :=
  let from := Z.of_nat (length fromKeys) - 1 in
  k ← aget fromKeys from;
  ks ← aset (keys m) (Z.of_nat (length (keys m)) - 1) k;
  v ← aget fromValues from;
  vs ← aset (values m) (Z.of_nat (length (values m)) - 1) v;
  '(ks, vs) ← go_for (Z.to_nat from) 0 (fun i '(ks, vs) =>
    let from := from - 1 - i in
    existing ← aget fromKeys from;
    if existing =? 0 then mret (ks, vs) else
    slot ← find_empty ks (mask m) (ideal (mask m) existing);
    ks ← aset ks slot existing;
    v ← aget fromValues from;
    vs ← aset vs slot v;
    mret (ks, vs)) (ks, vs);
  mret (set_arrays ks vs m).

Definition allocateThenInsertThenRehash (slot pendingKey pendingValue : Z) (m : IntIntHashMap)
  : M IntIntHashMap :=
  let prevKeys := keys m in
  let prevValues := values m in
  size ← NextBufferSize (mask m + 1);
  let m := allocateBuffers size m in
  prevKeys ← aset prevKeys slot pendingKey;
  prevValues ← aset prevValues slot pendingValue;
  rehash prevKeys prevValues m.

(** A new key at the empty slot the probe stopped at. *)
Definition insert_at (slot key value : Z) (m : IntIntHashMap) : M IntIntHashMap :=
  m ← (if assigned m =? resizeAt m then allocateThenInsertThenRehash slot key value m
       else ks ← aset (keys m) slot key;
            vs ← aset (values m) slot value;
            mret (set_arrays ks vs m));
  mret (set_assigned (assigned m + 1) m).

Definition Put (key value : Z) (m : IntIntHashMap) : M (Z * IntIntHashMap) :=
  if key =? 0 then
    previousValue ← (if hasEmptyKey m then aget (values m) (mask m + 1) else mret 0);
    vs ← aset (values m) (mask m + 1) value;
    mret (previousValue, set_empty_key true (set_arrays (keys m) vs m))
  else
    '(found, slot) ← locate m key;
    if (found : bool) then
      previousValue ← aget (values m) slot;
      vs ← aset (values m) slot value;
      mret (previousValue, set_arrays (keys m) vs m)
    else
      m ← insert_at slot key value m;
      mret (0, m).

Definition GetOrDefault (key defaultValue : Z) (m : IntIntHashMap) : M Z :=
  if key =? 0 then (if hasEmptyKey m then aget (values m) (mask m + 1) else mret defaultValue) else
  '(found, slot) ← locate m key;
  if (found : bool) then aget (values m) slot else mret defaultValue.

Definition Get (key : Z) (m : IntIntHashMap) : M Z := GetOrDefault key 0 m.

Definition ContainsKey (key : Z) (m : IntIntHashMap) : M bool :=
  if key =? 0 then mret (hasEmptyKey m) else '(found, _) ← locate m key; mret found.

(** [^slot] marks a key that is absent. *)
Definition IndexOf (key : Z) (m : IntIntHashMap) : M Z :=
  if key =? 0 then mret (if hasEmptyKey m then mask m + 1 else Z.lnot (mask m + 1)) else
  '(found, slot) ← locate m key;
  mret (if (found : bool) then slot else Z.lnot slot).

Definition indexExists (index : Z) : bool := 0 <=? index.

Definition IndexGet (index : Z) (m : IntIntHashMap) : M Z := aget (values m) index.

Definition IndexReplace (index newValue : Z) (m : IntIntHashMap) : M (Z * IntIntHashMap) :=
  previousValue ← aget (values m) index;
  vs ← aset (values m) index newValue;
  mret (previousValue, set_arrays (keys m) vs m).

Definition indexInsert (index key value : Z) (m : IntIntHashMap) : M IntIntHashMap :=
  let index := if index <? 0 then Z.lnot index else index in
  if key =? 0 then
    vs ← aset (values m) index value;
    mret (set_empty_key true (set_arrays (keys m) vs m))
  else insert_at index key value m.

Definition PutIfAbsent (key value : Z) (m : IntIntHashMap) : M (bool * IntIntHashMap) :=
  keyIndex ← IndexOf key m;
  if negb (indexExists keyIndex) then m ← indexInsert keyIndex key value m; mret (true, m)
  else mret (false, m).

Definition PutOrAdd (key putValue incrementValue : Z) (m : IntIntHashMap) : M (Z * IntIntHashMap) :=
  keyIndex ← IndexOf key m;
  if indexExists keyIndex then
    v ← aget (values m) keyIndex;
    let putValue := to_int64 (v + incrementValue) in
    '(_, m) ← IndexReplace keyIndex putValue m;
    mret (putValue, m)
  else
    m ← indexInsert keyIndex key putValue m;
    mret (putValue, m).

Definition AddTo (key incrementValue : Z) (m : IntIntHashMap) : M (Z * IntIntHashMap) :=
  PutOrAdd key incrementValue incrementValue m.

(** The loop of [shiftConflictingKeys]: it looks at each slot once at most. *)
Fixpoint shift_loop (fuel : nat) (msk gapSlot distance : Z) (ks vs : list Z)
  : M (Z * list Z * list Z) :=
  match fuel with
  | O => NoFuel
  | S fuel' =>
      let slot := Z.land (gapSlot + (distance + 1)) msk in
      existing ← aget ks slot;
      if existing =? 0 then mret (gapSlot, ks, vs) else
      let idealSlot := ideal msk existing in
      let shift := Z.land (slot - idealSlot) msk in
      if distance + 1 <=? shift then
        ks ← aset ks gapSlot existing;
        v ← aget vs slot;
        vs ← aset vs gapSlot v;
        shift_loop fuel' msk slot 0 ks vs
      else shift_loop fuel' msk gapSlot (distance + 1) ks vs
  end.

Definition shiftConflictingKeys (gapSlot : Z) (m : IntIntHashMap) : M IntIntHashMap :=
  '(gapSlot, ks, vs) ← shift_loop (length (keys m)) (mask m) gapSlot 0 (keys m) (values m);
  ks ← aset ks gapSlot 0;
  vs ← aset vs gapSlot 0;
  mret (set_assigned (assigned m - 1) (set_arrays ks vs m)).

Definition Remove (key : Z) (m : IntIntHashMap) : M (Z * IntIntHashMap) :=
  if key =? 0 then
    if negb (hasEmptyKey m) then mret (0, m) else
    previousValue ← aget (values m) (mask m + 1);
    vs ← aset (values m) (mask m + 1) 0;
    mret (previousValue, set_empty_key false (set_arrays (keys m) vs m))
  else
    '(found, slot) ← locate m key;
    if (found : bool) then
      previousValue ← aget (values m) slot;
      m ← shiftConflictingKeys slot m;
      mret (previousValue, m)
    else mret (0, m).

Definition IndexRemove (index : Z) (m : IntIntHashMap) : M (Z * IntIntHashMap) :=
  previousValue ← aget (values m) index;
  if mask m <? index then
    vs ← aset (values m) index 0;
    mret (previousValue, set_empty_key false (set_arrays (keys m) vs m))
  else m ← shiftConflictingKeys index m; mret (previousValue, m).

Definition Clear (m : IntIntHashMap) : IntIntHashMap :=
  set_empty_key false (set_assigned 0 (set_arrays (repeat 0 (length (keys m))) (values m) m)).

(** Without arrays ([keys == nil]) the buffers are made, otherwise they grow
    when the expected number of elements asks for it. *)
Definition ensureCapacity (fresh : bool) (expectedElements : Z) (m : IntIntHashMap) : M IntIntHashMap :=
  if fresh || (resizeAt m <? expectedElements) then
    size ← MinBufferSize expectedElements;
    let m' := allocateBuffers size m in
    if negb fresh && negb (IsEmpty m') then rehash (keys m) (values m) m' else mret m'
  else mret m.

Definition NewIntIntHashMapWithExpectedElements (expectedElements : Z) : M IntIntHashMap :=
  ensureCapacity true expectedElements
    {| keys := []; values := []; assigned := 0; mask := 0; resizeAt := 0; hasEmptyKey := false |}.

Definition NewIntIntHashMap : M IntIntHashMap :=
  NewIntIntHashMapWithExpectedElements DefaultExpectedElements.

Definition Release (m : IntIntHashMap) : M IntIntHashMap :=
  ensureCapacity true DefaultExpectedElements
    {| keys := []; values := []; assigned := 0; mask := mask m; resizeAt := resizeAt m;
       hasEmptyKey := false |}.


(** [Iter]: the entries in the order of the slots, the empty key last. *)
Definition Iter (m : IntIntHashMap) : M (list (Z * Z)) :=
  res ← go_for (length (keys m)) 0 (fun i res =>
    k ← aget (keys m) i;
    if k =? 0 then mret res else v ← aget (values m) i; mret (res ++ [(k, v)])) [];
  if hasEmptyKey m then v ← aget (values m) (mask m + 1); mret (res ++ [(0, v)])
  else mret res.
Example hash_map_run :
  (m ← NewIntIntHashMap;
   '(_, m) ← Put 5 50 m; '(_, m) ← Put 0 7 m; '(_, m) ← Put 9 90 m; '(_, m) ← Put 1 10 m;
   '(p, m) ← Put 5 55 m; '(r, m) ← Remove 9 m; '(_, m) ← AddTo 1 5 m; '(_, m) ← Put (-3) 1 m;
   a ← Get 5 m; b ← Get 9 m; c ← Get 0 m; d ← Get 1 m;
   mret (p, r, [a; b; c; d], Size m, mask m)) = Ret (50, 90, [55; 0; 7; 15], 4, 7).
Proof. vm_compute. reflexivity. Qed.

(** * Slots

    A table has [n] slots, [n] a power of two; [dist a b] is the number of
    steps the probing makes from slot [a] to slot [b]. *)

Abbreviation cell := (nthZ 0).

Definition dist (n a b : Z) : Z := if a <=? b then b - a else b - a + n.

(** [is_size n]: [n] is a length the buffers can have. *)
Definition is_size (n : Z) : Prop := ∃ k, 0 ≤ k ≤ 30 ∧ n = 2 ^ k.

Ltac dists :=
  unfold dist in *;
  repeat match goal with
         | |- context [?a <=? ?b] => destruct (Z.leb_spec a b)
         | H : context [?a <=? ?b] |- _ => destruct (Z.leb_spec a b)
         end; lia.

Lemma cell_aget (l : list Z) i : 0 ≤ i < Z.of_nat (length l) → @aget goerr _ l i = Ret (cell l i).
Proof. apply nthZ_aget. Qed.

Lemma cell_repeat k i : cell (repeat 0 k) i = 0.
Proof.
  unfold nthZ. destruct (repeat 0 k !! Z.to_nat i) eqn:E; [|done].
  apply list_elem_of_lookup_2, list_elem_of_In, repeat_spec in E. by subst.
Qed.

Section slots.
Context (n : Z) (Hn : is_size n).

Lemma size_bounds : 1 ≤ n ≤ 2 ^ 30.
Proof.
  destruct Hn as (k & Hk & ->). pose proof (pow2_pos k ltac:(lia)).
  pose proof (Z.pow_le_mono_r 2 k 30 ltac:(lia) ltac:(lia)). lia.
Qed.

Lemma slot_mask x : Z.land x (n - 1) = x mod n.
Proof.
  destruct Hn as (k & Hk & ->). replace (2 ^ k - 1) with (Z.ones k) by (rewrite Z.ones_equiv; lia).
  apply Z.land_ones. lia.
Qed.

Lemma slot_mask_range x : 0 ≤ Z.land x (n - 1) < n.
Proof. rewrite slot_mask. apply Z.mod_pos_bound. pose proof size_bounds. lia. Qed.

Lemma ideal_range key : 0 ≤ ideal (n - 1) key < n.
Proof. apply slot_mask_range. Qed.
#[local] Opaque ideal.

Lemma wrap_spec x : 
  - n ≤ x < 2 * n → Z.land x (n - 1) = if x <? 0 then x + n else if x <? n then x else x - n.
Proof.
  intros Hx. rewrite slot_mask. destruct (Z.ltb_spec x 0); [|destruct (Z.ltb_spec x n)].
  - symmetry. apply Z.mod_unique with (-1); lia.
  - apply Z.mod_small. lia.
  - symmetry. apply Z.mod_unique with 1; lia.
Qed.

Lemma next_spec i :
  0 ≤ i < n → next (n - 1) i = if i + 1 <? n then i + 1 else 0.
Proof.
  intros Hi. unfold next. rewrite wrap_spec by lia. 
  destruct (Z.ltb_spec (i + 1) 0); [lia|]. destruct (Z.ltb_spec (i + 1) n); lia.
Qed.

(** ** Probing *)

Lemma probe_spec ks key z :
  Z.of_nat (length ks) = n + 1 → 0 ≤ z < n → cell ks z = 0 →
  ∀ fuel s, 0 ≤ s < n → dist n s z < Z.of_nat fuel →
  ∃ b i, probe fuel ks (n - 1) key s = Ret (b, i) ∧ 0 ≤ i < n ∧
    (∀ j, 0 ≤ j < n → dist n s j < dist n s i → cell ks j ≠ 0 ∧ cell ks j ≠ key) ∧
    if (b : bool) then cell ks i = key ∧ key ≠ 0 else cell ks i = 0.
Proof.
  intros Hlen Hz Ez. induction fuel as [|fuel IH]; intros s Hs Hd; [dists|].
  cbn [probe]. rewrite cell_aget by lia. rewrite go_bind_ret.
  destruct (Z.eqb_spec (cell ks s) 0) as [E0|E0].
  { exists false, s. split_and!; try done; try lia. intros j Hj. dists. }
  destruct (Z.eqb_spec (cell ks s) key) as [Ek|Ek].
  { exists true, s. split_and!; try done; try lia; try congruence. intros j Hj. dists. }
  assert (Hsz : s ≠ z) by congruence.
  rewrite next_spec by done. set (s' := if s + 1 <? n then s + 1 else 0).
  assert (Hs' : 0 ≤ s' < n ∧ ∀ j, 0 ≤ j < n → j ≠ s → dist n s' j = dist n s j - 1).
  { unfold s'. destruct (Z.ltb_spec (s + 1) n); (split; [lia|]; intros; dists). }
  destruct Hs' as [Hs' Hdist].
  destruct (IH s' Hs') as (b & i & Ep & Hi & Hbefore & Hb).
  { rewrite Hdist by congruence. lia. }
  exists b, i. rewrite Ep. split_and!; [done|lia|lia| |done].
  intros j Hj Hlt. destruct (decide (j = s)) as [->|Hjs]; [done|].
  apply Hbefore; [done|]. destruct (decide (i = s)) as [->|His].
  - exfalso. dists.
  - rewrite !Hdist by done. lia.
Qed.

(** ** Tables

    [gap] is a slot that is considered empty although its cell is not yet, [-1]
    if there is none. A key is found from its ideal slot without meeting an
    empty cell, is in one slot only, and the live slots are the finite map [g]. *)

Definition live (gap : Z) (ks : list Z) (i : Z) : Prop := 0 ≤ i < n ∧ i ≠ gap ∧ cell ks i ≠ 0.

Record table (gap : Z) (ks vs : list Z) (g : gmap Z Z) : Prop := {
  t_keys : Z.of_nat (length ks) = n + 1;
  t_values : Z.of_nat (length vs) = n + 1;
  t_path : ∀ i j, live gap ks i → 0 ≤ j < n →
    dist n (ideal (n - 1) (cell ks i)) j < dist n (ideal (n - 1) (cell ks i)) i → cell ks j ≠ 0;
  t_uniq : ∀ i j, live gap ks i → live gap ks j → cell ks i = cell ks j → i = j;
  t_map : ∀ key v, g !! key = Some v ↔ ∃ i, live gap ks i ∧ cell ks i = key ∧ cell vs i = v
}.

Lemma table_map_in gap ks vs g i :
  table gap ks vs g → live gap ks i → g !! cell ks i = Some (cell vs i).
Proof. intros T Hi. apply (t_map _ _ _ _ T). eauto. Qed.

Lemma table_no_zero gap ks vs g : table gap ks vs g → g !! 0 = None.
Proof.
  intros T. destruct (g !! 0) eqn:E; [|done].
  apply (t_map _ _ _ _ T) in E as (i & (_ & _ & H) & ? & _). done.
Qed.

(** A table with fewer entries than slots has an empty one. *)
Lemma table_empty_slot ks vs g :
  table (-1) ks vs g → Z.of_nat (size g) < n → ∃ z, 0 ≤ z < n ∧ cell ks z = 0.
Proof.
  intros T Hsize.
  destruct (decide (Exists (fun z => cell ks z = 0) (seqZ 0 n))) as [He|He].
  { apply Exists_exists in He as (z & Hz%elem_of_seqZ & ?). exists z. split; [lia|done]. }
  exfalso. apply not_Exists_Forall in He; [|apply _]. rewrite Forall_forall in He.
  assert (Hlive : ∀ z, z ∈ seqZ 0 n → live (-1) ks z).
  { intros z Hz. pose proof (He z Hz). apply elem_of_seqZ in Hz. unfold live. split_and!; (done || lia). }
  assert (Hsub : (list_to_set (cell ks <$> seqZ 0 n) : gset Z) ⊆ dom g).
  { intros key. rewrite elem_of_list_to_set, list_elem_of_fmap. intros (z & -> & Hz).
    apply elem_of_dom. eexists. by apply (table_map_in _ _ _ _ z T), Hlive. }
  apply subseteq_size in Hsub. rewrite size_dom, size_list_to_set in Hsub.
  - rewrite length_fmap, length_seqZ in Hsub. lia.
  - apply NoDup_fmap_2_strong; [|apply NoDup_seqZ].
    intros i j Hi Hj. apply (t_uniq _ _ _ _ T); auto.
Qed.

(** The probe for [key] from its ideal slot decides whether it is present. *)
Lemma table_probe ks vs g key fuel :
  table (-1) ks vs g → Z.of_nat (size g) < n → n < Z.of_nat fuel → key ≠ 0 →
  ∃ b i, probe fuel ks (n - 1) key (ideal (n - 1) key) = Ret (b, i) ∧ 0 ≤ i < n ∧
    if (b : bool) then live (-1) ks i ∧ cell ks i = key ∧ g !! key = Some (cell vs i)
    else cell ks i = 0 ∧ g !! key = None ∧
      ∀ j, 0 ≤ j < n → dist n (ideal (n - 1) key) j < dist n (ideal (n - 1) key) i → cell ks j ≠ 0.
Proof.
  intros T Hsize Hfuel Hkey. pose proof (ideal_range key) as Hh.
  destruct (table_empty_slot _ _ _ T Hsize) as (z & Hz & Ez).
  destruct (probe_spec ks key z (t_keys _ _ _ _ T) Hz Ez fuel _ Hh) as (b & i & Ep & Hi & Hbefore & Hb).
  { dists. }
  clear Ez. exists b, i. split_and!; [done|lia|lia|]. destruct b.
  - destruct Hb as [Hk _]. assert (live (-1) ks i) by (unfold live; split_and!; [lia..|congruence]).
    split_and!; [done..|]. rewrite <- Hk. by apply table_map_in with (1 := T).
  - split_and!; [done| |intros; by apply Hbefore].
    destruct (g !! key) as [v|] eqn:Eg; [|done]. exfalso.
    apply (t_map _ _ _ _ T) in Eg as (j & Hj & Ej & _).
    destruct (Z.lt_trichotomy (dist n (ideal (n - 1) key) j) (dist n (ideal (n - 1) key) i))
      as [Hlt|[Heq|Hgt]].
    + by destruct (Hbefore j (proj1 Hj) Hlt).
    + assert (i = j) as -> by (destruct Hj as (? & _); dists). congruence.
    + apply (t_path _ _ _ _ T j i Hj Hi); [by rewrite Ej|done].
Qed.

(** ** Writing *)

Lemma table_replace gap ks vs g i v :
  table gap ks vs g → live gap ks i →
  table gap ks (<[Z.to_nat i := v]> vs) (<[cell ks i := v]> g).
Proof.
  intros T Hi. destruct T as [Hks Hvs Hpath Huniq Hmap]. split; try done.
  - by rewrite length_insert.
  - intros key w. assert (0 ≤ i < n) as Hr by apply Hi.
    destruct (decide (key = cell ks i)) as [->|Hne].
    + rewrite lookup_insert_eq. split.
      * intros [= <-]. exists i. split_and!; [done..|]. rewrite nthZ_insert by lia. by case_decide.
      * intros (j & Hj & Ej & <-). rewrite (Huniq j i) by done.
        rewrite nthZ_insert by lia. by case_decide.
    + rewrite lookup_insert_ne, Hmap by done. 
      apply exist_proper. intros j. split; intros (Hj & <- & <-); (split_and!; [done..|]);
        rewrite nthZ_insert by (destruct Hj; lia); case_decide; congruence.
Qed.

Lemma table_insert ks vs g i key v :
  table (-1) ks vs g → 0 ≤ i < n → cell ks i = 0 → key ≠ 0 → g !! key = None →
  (∀ j, 0 ≤ j < n → dist n (ideal (n - 1) key) j < dist n (ideal (n - 1) key) i → cell ks j ≠ 0) →
  table (-1) (<[Z.to_nat i := key]> ks) (<[Z.to_nat i := v]> vs) (<[key := v]> g).
Proof.
  intros T Hi Ei Hkey Hg Hpathi. pose proof (fun j => table_map_in _ _ _ _ j T) as Hin.
  destruct T as [Hks Hvs Hpath Huniq Hmap].
  assert (Hcell : ∀ j, 0 ≤ j → cell (<[Z.to_nat i := key]> ks) j = if decide (i = j) then key else cell ks j).
  { intros j Hj. apply nthZ_insert; lia. }
  assert (Hlive : ∀ j, live (-1) (<[Z.to_nat i := key]> ks) j ↔ j = i ∨ live (-1) ks j ∧ j ≠ i).
  { intros j. unfold live. split.
    - intros (Hj & _ & Hc). rewrite Hcell in Hc by lia. case_decide; [by left|right]. 
      split_and!; try done; lia.
    - intros [->|((Hj & _ & Hc) & Hji)].
      + rewrite Hcell by lia. case_decide; [|done]. split_and!; (done || lia).
      + rewrite Hcell by lia. case_decide; [congruence|]. split_and!; (done || lia). }
  assert (Hdiff : ∀ j, live (-1) ks j → cell ks j ≠ key).
  { intros j Hj Ej. apply Hin in Hj. congruence. }
  split.
  - by rewrite length_insert.
  - by rewrite length_insert.
  - intros a j Ha Hj. rewrite (Hcell j) by lia. case_decide; [done|].
    apply Hlive in Ha as [->|[Ha Hai]].
    + rewrite Hcell by lia. case_decide; [|done]. by apply Hpathi.
    + rewrite Hcell by (destruct Ha; lia). case_decide; [congruence|]. by apply Hpath.
  - intros a b Ha Hb. rewrite !Hcell by (destruct Ha, Hb; lia).
    apply Hlive in Ha as [->|[Ha Hai]]; apply Hlive in Hb as [->|[Hb Hbi]]; repeat case_decide; try congruence.
    + intros E. by destruct (Hdiff b).
    + intros E. by destruct (Hdiff a).
    + by apply Huniq.
  - intros key' v'. destruct (decide (key' = key)) as [->|Hne].
    + rewrite lookup_insert_eq. split.
      * intros [= <-]. exists i. rewrite Hlive, Hcell, nthZ_insert by lia.
        case_decide; [|done]. eauto.
      * intros (j & Hj & Ej & <-). rewrite Hcell in Ej by (destruct Hj; lia).
        rewrite nthZ_insert by (destruct Hj; lia). case_decide; [done|].
        apply Hlive in Hj as [->|[Hj _]]; [done|]. by destruct (Hdiff j).
    + rewrite lookup_insert_ne, Hmap by done. split; intros (j & Hj & <- & <-); exists j.
      * assert (j ≠ i) by (intros ->; by destruct Hj as (_ & _ & ?)).
        rewrite Hlive, Hcell, nthZ_insert by (destruct Hj; lia). case_decide; [congruence|]. eauto.
      * apply Hlive in Hj as [->|[Hj Hji]].
        { rewrite Hcell in Hne by lia. by case_decide. }
        rewrite Hcell, nthZ_insert by (destruct Hj; lia). case_decide; [congruence|]. eauto.
Qed.

(** ** Removing *)

(** Considering a live slot empty removes its key. *)
Lemma table_open_gap ks vs g i :
  table (-1) ks vs g → live (-1) ks i → table i ks vs (delete (cell ks i) g).
Proof.
  intros T Hi. destruct T as [Hks Hvs Hpath Huniq Hmap].
  assert (Hlive : ∀ j, live i ks j ↔ live (-1) ks j ∧ j ≠ i).
  { intros j. unfold live. split; intros ?; split_and!; try tauto; lia. }
  split; try done.
  - intros a j [Ha _]%Hlive. by apply Hpath.
  - intros a b [Ha _]%Hlive [Hb _]%Hlive. by apply Huniq.
  - intros key v. rewrite lookup_delete_Some, Hmap. split.
    + intros (Hne & j & Hj & <- & <-). exists j. rewrite Hlive. split_and!; try done. congruence.
    + intros (j & [Hj Hji]%Hlive & <- & <-). split; [|by eauto].
      intros E. apply Hji. symmetry. by apply Huniq.
Qed.

(** [scanned gap d ks]: no key in the [d] slots after the gap is reached
    through the gap. *)
Definition scanned (gap d : Z) (ks : list Z) : Prop :=
  ∀ j, 0 ≤ j < n → 1 ≤ dist n gap j ≤ d →
    cell ks j ≠ 0 ∧ dist n (ideal (n - 1) (cell ks j)) j < dist n gap j.

Lemma table_close_gap gap ks vs g d z :
  table gap ks vs g → 0 ≤ gap < n → scanned gap d ks →
  0 ≤ z < n → dist n gap z = d + 1 → 0 ≤ d → cell ks z = 0 →
  table (-1) (<[Z.to_nat gap := 0]> ks) (<[Z.to_nat gap := 0]> vs) g.
Proof.
  intros T Hgap Hscan Hz Hdz Hd Ez. destruct T as [Hks Hvs Hpath Huniq Hmap].
  assert (Hcell : ∀ l j, Z.of_nat (length l) = n + 1 → 0 ≤ j →
    cell (<[Z.to_nat gap := 0]> l) j = if decide (gap = j) then 0 else cell l j).
  { intros l j Hl Hj. apply nthZ_insert; lia. }
  assert (Hlive : ∀ j, live (-1) (<[Z.to_nat gap := 0]> ks) j ↔ live gap ks j).
  { intros j. unfold live. split.
    - intros (Hj & _ & Hc). rewrite Hcell in Hc by lia. case_decide; [done|]. split_and!; (done || lia).
    - intros (Hj & Hjg & Hc). rewrite Hcell by lia. case_decide; [congruence|]. split_and!; (done || lia). }
  assert (Heq : ∀ l j, Z.of_nat (length l) = n + 1 → live gap ks j →
    cell (<[Z.to_nat gap := 0]> l) j = cell l j).
  { intros l j Hl (Hj & Hjg & _). rewrite Hcell by (done || lia). case_decide; congruence. }
  split.
  - by rewrite length_insert.
  - by rewrite length_insert.
  - intros a j Ha%Hlive Hj. rewrite Heq by done. intros Hlt.
    rewrite Hcell by (done || lia). case_decide as Hgj; [|by apply (Hpath a j)].
    subst j. exfalso. pose proof (ideal_range (cell ks a)) as Hh.
    set (h := ideal (n - 1) (cell ks a)) in *. pose proof Ha as (Har & Hag & Hac).
    destruct (Z.lt_trichotomy (dist n gap a) (d + 1)) as [Hin|[Hat|Hpast]].
    + destruct (Hscan a Har) as [_ Hs]; [dists|]. fold h in Hs. dists.
    + assert (a = z) as -> by dists. done.
    + apply (Hpath a z Ha Hz); [|done]. fold h. dists.
  - intros a b Ha%Hlive Hb%Hlive. rewrite !Heq by done. by apply Huniq.
  - intros key v. rewrite Hmap. apply exist_proper. intros j. rewrite Hlive.
    split; intros (Hj & Hk & Hv); (split; [done|]); rewrite ?Heq in * by done; by split.
Qed.

(** A key that may be reached through the gap is moved into it. *)
Lemma table_move_gap gap ks vs g slot :
  table gap ks vs g → 0 ≤ gap < n → live gap ks slot → cell ks gap ≠ 0 →
  dist n gap slot ≤ dist n (ideal (n - 1) (cell ks slot)) slot →
  table slot (<[Z.to_nat gap := cell ks slot]> ks) (<[Z.to_nat gap := cell vs slot]> vs) g.
Proof.
  intros T Hgap Hslot Hgc Hd. destruct T as [Hks Hvs Hpath Huniq Hmap].
  assert (Hcell : ∀ l x j, Z.of_nat (length l) = n + 1 → 0 ≤ j →
    cell (<[Z.to_nat gap := x]> l) j = if decide (gap = j) then x else cell l j).
  { intros l x j Hl Hj. apply nthZ_insert; lia. }
  pose proof Hslot as (Hsr & Hsg & Hsc). set (ks' := <[Z.to_nat gap := cell ks slot]> ks).
  assert (Hnz : ∀ j, 0 ≤ j → cell ks j ≠ 0 → cell ks' j ≠ 0).
  { intros j Hj Hc. unfold ks'. rewrite Hcell by done. by case_decide. }
  (** the live slot of the old table for one of the new *)
  set (old := fun j => if decide (j = gap) then slot else j).
  assert (Hlive : ∀ j, live slot ks' j → live gap ks (old j) ∧ old j ≠ gap).
  { intros j (Hj & Hjs & Hc). unfold old. unfold ks' in Hc. rewrite Hcell in Hc by (done || lia).
    case_decide; repeat case_decide; try congruence; unfold live; split_and!; (done || lia). }
  assert (Hold : ∀ l j, Z.of_nat (length l) = n + 1 → live slot ks' j →
    cell (<[Z.to_nat gap := cell l slot]> l) j = cell l (old j)).
  { intros l j Hl (Hj & _ & _). unfold old. rewrite Hcell by (done || lia). repeat case_decide; congruence. }
  split.
  - unfold ks'. by rewrite length_insert.
  - by rewrite length_insert.
  - intros a j Ha Hj. pose proof (Hlive a Ha) as [Hoa _]. unfold ks' at 1 2. rewrite Hold by done.
    intros Hlt. apply Hnz; [lia|]. pose proof Ha as (Har & _ & _).
    destruct (decide (a = gap)) as [->|Hag]; unfold old in *; case_decide; try done.
    + apply (Hpath slot j Hslot Hj). pose proof (ideal_range (cell ks slot)). dists.
    + by apply (Hpath a j).
  - intros a b Ha Hb. unfold ks'. rewrite !Hold by done. intros E.
    apply Huniq in E; [|by apply Hlive..]. destruct Ha as (_ & ? & _), Hb as (_ & ? & _).
    unfold old in E. repeat case_decide; congruence.
  - intros key v. rewrite Hmap. split.
    + intros (j & Hj & Hk & Hv). pose proof Hj as (Hjr & Hjg & Hjc).
      set (i := if decide (j = slot) then gap else j).
      assert (Hi : live slot ks' i).
      { unfold i, live. case_decide; split_and!; first [lia|congruence|apply Hnz; [lia|done]]. }
      exists i. split; [done|]. unfold ks'. rewrite !Hold by done.
      assert (old i = j) as -> by (unfold old, i; repeat case_decide; congruence). done.
    + intros (j & Hj & Hk & Hv). unfold ks' in Hk. rewrite Hold in Hk, Hv by done.
      exists (old j). split; [by apply Hlive|done].
Qed.

Lemma shift_loop_spec z :
  0 ≤ z < n → ∀ fuel gap d ks vs g,
  table gap ks vs g → 0 ≤ gap < n → cell ks gap ≠ 0 → cell ks z = 0 →
  0 ≤ d < dist n gap z → scanned gap d ks → dist n gap z - d ≤ Z.of_nat fuel →
  ∃ gap' ks' vs', shift_loop fuel (n - 1) gap d ks vs = Ret (gap', ks', vs') ∧
    0 ≤ gap' < n ∧ Z.of_nat (length ks') = n + 1 ∧ Z.of_nat (length vs') = n + 1 ∧
    table (-1) (<[Z.to_nat gap' := 0]> ks') (<[Z.to_nat gap' := 0]> vs') g ∧
    cell ks' n = cell ks n ∧ cell vs' n = cell vs n.
Proof.
  intros Hz. induction fuel as [|fuel IH]; intros gap d ks vs g T Hgap Hgc Ez Hd Hscan Hfuel; [lia|].
  cbn [shift_loop].
  assert (Hdn : dist n gap z < n) by dists.
  rewrite (wrap_spec (gap + (d + 1))) by lia.
  set (slot := if gap + (d + 1) <? 0 then _ else _).
  assert (Hslot : 0 ≤ slot < n ∧ dist n gap slot = d + 1).
  { unfold slot. destruct (Z.ltb_spec (gap + (d + 1)) 0); [lia|].
    destruct (Z.ltb_spec (gap + (d + 1)) n); (split; [lia|dists]). }
  clearbody slot. destruct Hslot as [Hsr Hsd].
  pose proof (t_keys _ _ _ _ T) as Hks. pose proof (t_values _ _ _ _ T) as Hvs.
  rewrite (cell_aget ks slot) by lia. rewrite go_bind_ret.
  destruct (Z.eqb_spec (cell ks slot) 0) as [E0|E0].
  { exists gap, ks, vs. split_and!; try done; try lia.
    apply (table_close_gap gap ks vs g d slot); (done || lia). }
  assert (Hsz : slot ≠ z) by congruence.
  assert (Hslive : live gap ks slot) by (unfold live; split_and!; [lia|lia|dists|done]).
  pose proof (ideal_range (cell ks slot)) as Hh.
  rewrite (wrap_spec (slot - _)) by lia.
  assert (Hsh : (if slot - ideal (n - 1) (cell ks slot) <? 0
                 then slot - ideal (n - 1) (cell ks slot) + n
                 else if slot - ideal (n - 1) (cell ks slot) <? n
                 then slot - ideal (n - 1) (cell ks slot)
                 else slot - ideal (n - 1) (cell ks slot) - n) = dist n (ideal (n - 1) (cell ks slot)) slot).
  { destruct (Z.ltb_spec (slot - ideal (n - 1) (cell ks slot)) 0); [dists|].
    destruct (Z.ltb_spec (slot - ideal (n - 1) (cell ks slot)) n); dists. }
  rewrite Hsh.
  destruct (Z.leb_spec (d + 1) (dist n (ideal (n - 1) (cell ks slot)) slot)) as [Hmove|Hstay].
  - rewrite aset_Ret, go_bind_ret, cell_aget, go_bind_ret, aset_Ret, go_bind_ret by lia.
    assert (gap ≠ slot) by dists.
    edestruct (IH slot 0) as (gap' & ks' & vs' & -> & Hr).
    + apply table_move_gap; [done..|lia].
    + lia.
    + rewrite nthZ_insert by lia. by case_decide.
    + rewrite nthZ_insert by lia. case_decide; [congruence|done].
    + dists.
    + intros j Hj. lia.
    + dists.
    + exists gap', ks', vs'. split; [done|]. rewrite !nthZ_insert in Hr by lia. by repeat case_decide; [lia|].
  - apply IH; try done; [dists| |lia].
    intros j Hj Hjd. destruct (decide (j = slot)) as [->|Hjs]; [split; [done|lia]|].
    apply Hscan; [done|]. dists.
Qed.

(** ** Rehashing *)

Lemma find_empty_spec ks vs g key :
  table (-1) ks vs g → Z.of_nat (size g) < n → g !! key = None →
  ∃ i, find_empty ks (n - 1) (ideal (n - 1) key) = Ret i ∧ 0 ≤ i < n ∧ cell ks i = 0 ∧
    ∀ j, 0 ≤ j < n → dist n (ideal (n - 1) key) j < dist n (ideal (n - 1) key) i → cell ks j ≠ 0.
Proof.
  intros T Hsize Hg. pose proof (ideal_range key) as Hh.
  pose proof (t_keys _ _ _ _ T) as Hks.
  destruct (table_empty_slot _ _ _ T Hsize) as (z & Hz & Ez).
  destruct (probe_spec ks 0 z Hks Hz Ez (length ks) _ Hh) as (b & i & Ep & Hi & Hbefore & Hb); [dists|].
  exists i. unfold find_empty. rewrite Ep. split_and!; try done; try lia.
  - by destruct b; [destruct Hb|].
  - intros j Hj Hlt. by apply Hbefore.
Qed.
End slots.

Lemma table_fresh n ks vs :
  Z.of_nat (length ks) = n + 1 → Z.of_nat (length vs) = n + 1 →
  (∀ i, 0 ≤ i < n → cell ks i = 0) → table n (-1) ks vs ∅.
Proof.
  intros Hks Hvs Hz. assert (Hno : ∀ i, ¬ live n (-1) ks i).
  { intros i (Hi & _ & Hc). by apply Hc, Hz. }
  split; try done.
  - intros i j Hi. by destruct (Hno i).
  - intros i j Hi. by destruct (Hno i).
  - intros key v. split; [by intros E%lookup_empty_Some|]. intros (i & Hi & _). by destruct (Hno i).
Qed.

Lemma table_last_value n ks vs g v :
  table n (-1) ks vs g → 0 ≤ n → table n (-1) ks (<[Z.to_nat n := v]> vs) g.
Proof.
  intros [Hks Hvs Hpath Huniq Hmap] Hn. split; try done.
  - by rewrite length_insert.
  - intros key w. rewrite Hmap. apply exist_proper. intros i.
    split; intros (Hl & Hk & Hv); (split_and!; [done..|]); pose proof Hl as (? & _);
      rewrite nthZ_insert in * by lia; case_decide; (done || lia).
Qed.

(** What the loop of [rehash] has moved when it is down to slot [lo]. *)
Definition moved (n lo : Z) (ks vs : list Z) (g : gmap Z Z) : Prop :=
  ∀ key v, g !! key = Some v ↔ ∃ i, lo ≤ i ∧ live n (-1) ks i ∧ cell ks i = key ∧ cell vs i = v.

Lemma moved_sub n lo ks vs g gi : table n (-1) ks vs g → moved n lo ks vs gi → gi ⊆ g.
Proof.
  intros T Hm. apply map_subseteq_spec. intros key v (i & _ & Hi & <- & <-)%Hm.
  by apply (table_map_in n (-1) ks vs).
Qed.

Lemma moved_step n lo ks vs g gi :
  table n (-1) ks vs g → moved n (lo + 1) ks vs gi → 0 ≤ lo < n →
  if decide (cell ks lo = 0) then moved n lo ks vs gi
  else gi !! cell ks lo = None ∧ moved n lo ks vs (<[cell ks lo := cell vs lo]> gi).
Proof.
  intros T Hm Hlo. pose proof (t_uniq _ _ _ _ _ T) as Huniq.
  assert (Hstep : ∀ i, live n (-1) ks i → lo ≤ i → i = lo ∨ lo + 1 ≤ i) by (intros; lia).
  case_decide as E.
  - intros key v. rewrite (Hm key v). split; intros (i & Hi & Hl & Hr).
    + exists i. split; [lia|done].
    + exists i. destruct (Hstep i Hl Hi) as [->|]; [by destruct Hl as (_ & _ & ?)|done].
  - assert (Hlive : live n (-1) ks lo) by (unfold live; split_and!; (done || lia)).
    split.
    + destruct (gi !! cell ks lo) as [v|] eqn:Eg; [|done]. exfalso.
      apply Hm in Eg as (i & Hi & Hl & Ek & _). apply Huniq in Ek; [lia|done..].
    + intros key v. destruct (decide (key = cell ks lo)) as [->|Hne].
      * rewrite lookup_insert_eq. split.
        { intros [= <-]. exists lo. split_and!; (done || lia). }
        intros (i & Hi & Hl & Ek & <-). by rewrite (Huniq i lo).
      * rewrite lookup_insert_ne, (Hm key v) by done. split; intros (i & Hi & Hl & <- & <-).
        { exists i. split_and!; (done || lia). }
        exists i. destruct (Hstep i Hl Hi) as [->|]; done.
Qed.

Lemma rehash_spec n n' ks0 vs0 g m :
  is_size n' → table n (-1) ks0 vs0 g → 0 < n → Z.of_nat (size g) < n' →
  keys m = repeat 0 (Z.to_nat (n' + 1)) → values m = repeat 0 (Z.to_nat (n' + 1)) →
  mask m = n' - 1 →
  ∃ ks vs, rehash ks0 vs0 m = Ret (set_arrays ks vs m) ∧ table n' (-1) ks vs g ∧
    cell ks n' = cell ks0 n ∧ cell vs n' = cell vs0 n.
Proof.
  intros Hn' T Hn Hsize Ek Ev Em. pose proof (size_bounds n' Hn') as Hb.
  pose proof (t_keys _ _ _ _ _ T) as Hks. pose proof (t_values _ _ _ _ _ T) as Hvs.
  unfold rehash. rewrite Ek, Ev, Em, !repeat_length, Hks.
  rewrite Z2Nat.id by lia. replace (n + 1 - 1) with n by lia. replace (n' + 1 - 1) with n' by lia.
  rewrite (cell_aget ks0 n), go_bind_ret, aset_Ret, go_bind_ret by (rewrite ?repeat_length; lia).
  rewrite (cell_aget vs0 n), go_bind_ret, aset_Ret, go_bind_ret by (rewrite ?repeat_length; lia).
  edestruct (go_for_inv (E:=goerr) (fun i '(ks, vs) => ∃ gi, table n' (-1) ks vs gi ∧
    moved n (n - i) ks0 vs0 gi ∧ cell ks n' = cell ks0 n ∧ cell vs n' = cell vs0 n)
    (Z.to_nat n) 0) as ([ks vs] & -> & (gi & Ti & Hgi & Hce)); cycle 2.
  - rewrite go_bind_ret. exists ks, vs. split_and!; try apply Hce; [done|].
    enough (gi = g) as <- by done. apply map_eq. intros key. apply option_eq. intros v.
    rewrite (t_map _ _ _ _ _ T), (Hgi key v). apply exist_proper. intros i.
    split; [tauto|]. intros (Hl & ?). split; [destruct Hl; lia|done].
  - exists ∅. rewrite !nthZ_insert by (rewrite ?repeat_length; lia). split_and!; try by case_decide.
    + apply table_fresh; rewrite ?length_insert, ?repeat_length; try lia.
      intros i Hi. rewrite nthZ_insert by (rewrite ?repeat_length; lia).
      case_decide; [lia|]. apply cell_repeat.
    + intros key v. split; [by intros E%lookup_empty_Some|]. intros (i & Hi & (? & _) & _). lia.
  - intros i [ks vs] Hi (gi & Ti & Hgi & Hck & Hcv).
    pose proof (t_keys _ _ _ _ _ Ti) as Hks'. pose proof (t_values _ _ _ _ _ Ti) as Hvs'.
    set (lo := n - 1 - i). assert (Hlo : 0 ≤ lo < n) by lia.
    replace (n - i) with (lo + 1) in Hgi by lia. replace (n - (i + 1)) with lo by lia.
    pose proof (moved_step _ _ _ _ _ _ T Hgi Hlo) as Hstep.
    rewrite (cell_aget ks0 lo), go_bind_ret by lia.
    destruct (Z.eqb_spec (cell ks0 lo) 0) as [E|E]; case_decide; try done.
    + exists (ks, vs). split; [done|]. by exists gi.
    + destruct Hstep as [Hnone Hm].
      assert (Z.of_nat (size gi) < n').
      { pose proof (map_subseteq_size _ _ (moved_sub _ _ _ _ _ _ T Hgi)). lia. }
      destruct (find_empty_spec n' Hn' ks vs gi (cell ks0 lo)) as (slot & -> & Hslot & Es & Hpath); [done..|].
      rewrite go_bind_ret, aset_Ret, go_bind_ret by lia.
      rewrite (cell_aget vs0 lo), go_bind_ret, aset_Ret, go_bind_ret by lia.
      eexists (_, _). split; [done|]. exists (<[cell ks0 lo := cell vs0 lo]> gi). split_and!.
      * by apply table_insert.
      * done.
      * rewrite nthZ_insert by lia. case_decide; [lia|done].
      * rewrite nthZ_insert by lia. case_decide; [lia|done].
Qed.

(** * The map a state represents

    The empty key (0) has its own flag and the last cell of the values. *)

Record rep (m : IntIntHashMap) (G : gmap Z Z) : Prop := {
  r_size : is_size (mask m + 1);
  r_table : table (mask m + 1) (-1) (keys m) (values m) (delete 0 G);
  r_last : cell (keys m) (mask m + 1) = 0;
  r_assigned : assigned m = Z.of_nat (size (delete 0 G));
  r_resizeAt : resizeAt m = ExpandAtCount (mask m + 1);
  r_room : assigned m ≤ resizeAt m;
  r_empty : G !! 0 = if hasEmptyKey m then Some (cell (values m) (mask m + 1)) else None
}.

(** A further key can be added: there is room in the buffers, or they can grow. *)
Definition can_grow (m : IntIntHashMap) : Prop := assigned m ≠ resizeAt m ∨ mask m + 1 ≠ 2 ^ 30.

Lemma ExpandAtCount_lt n : ExpandAtCount n ≤ n - 1.
Proof. unfold ExpandAtCount. destruct (Z.ltb_spec (n - 1) ((3 * n + 3) / 4)); lia. Qed.

Lemma ExpandAtCount_double n : 1 ≤ n → ExpandAtCount n < ExpandAtCount (n * 2).
Proof.
  intros Hn. unfold ExpandAtCount.
  destruct (Z.ltb_spec (n - 1) ((3 * n + 3) / 4)), (Z.ltb_spec (n * 2 - 1) ((3 * (n * 2) + 3) / 4));
    Z.to_euclidean_division_equations; lia.
Qed.

Lemma is_size_double n : is_size n → n ≠ 2 ^ 30 → is_size (n * 2).
Proof.
  intros (k & Hk & ->) Hne. exists (k + 1). assert (k ≠ 30) by congruence.
  rewrite Z.pow_add_r by lia. lia.
Qed.

Section rep.
Context (m : IntIntHashMap) (G : gmap Z Z) (R : rep m G).

Lemma rep_lengths : Z.of_nat (length (keys m)) = mask m + 2 ∧ Z.of_nat (length (values m)) = mask m + 2
  ∧ 0 ≤ mask m.
Proof.
  pose proof (t_keys _ _ _ _ _ (r_table _ _ R)). pose proof (t_values _ _ _ _ _ (r_table _ _ R)).
  pose proof (size_bounds _ (r_size _ _ R)). lia.
Qed.

Lemma rep_Size : Size m = Z.of_nat (size G).
Proof.
  unfold Size. rewrite (r_assigned _ _ R). pose proof (r_empty _ _ R) as E.
  destruct (hasEmptyKey m).
  - assert (size (delete 0 G) = Nat.pred (size G)) by (by apply map_size_delete_Some; rewrite E).
    assert (size G ≠ 0%nat) by (intros H0%map_size_empty_inv; rewrite H0 in E; by apply lookup_empty_Some in E). lia.
  - by rewrite delete_id.
Qed.

Lemma locate_spec key :
  key ≠ 0 →
  ∃ b i, locate m key = Ret (b, i) ∧ 0 ≤ i ≤ mask m ∧
    if (b : bool) then live (mask m + 1) (-1) (keys m) i ∧ cell (keys m) i = key ∧
                       G !! key = Some (cell (values m) i)
    else cell (keys m) i = 0 ∧ G !! key = None ∧
      ∀ j, 0 ≤ j < mask m + 1 →
        dist (mask m + 1) (ideal (mask m) key) j < dist (mask m + 1) (ideal (mask m) key) i →
        cell (keys m) j ≠ 0.
Proof.
  intros Hkey. destruct R as [Hn T _ Hass Hres Hroom _].
  pose proof (t_keys _ _ _ _ _ T). pose proof (ExpandAtCount_lt (mask m + 1)).
  destruct (table_probe _ Hn _ _ _ key (length (keys m)) T) as (b & i & Ep & Hi & Hb); [lia|lia|done|].
  replace (mask m + 1 - 1) with (mask m) in * by lia.
  exists b, i. unfold locate. split_and!; [done|lia|lia|].
  rewrite lookup_delete_ne in Hb by done. done.
Qed.

Lemma rep_set_value i v :
  0 ≤ i ≤ mask m → cell (keys m) i ≠ 0 →
  rep (set_arrays (keys m) (<[Z.to_nat i := v]> (values m)) m) (<[cell (keys m) i := v]> G).
Proof.
  intros Hi Hc. destruct R as [Hn T Hlast Hass Hres Hroom Hempty].
  assert (Hl : live (mask m + 1) (-1) (keys m) i) by (unfold live; split_and!; (done || lia)).
  pose proof (t_values _ _ _ _ _ T). split; cbn; try done.
  - rewrite delete_insert_ne by done. by apply table_replace.
  - rewrite delete_insert_ne, map_size_insert_Some; [done| |done].
    eexists. by apply table_map_in with (1 := T).
  - rewrite lookup_insert_ne, nthZ_insert by (done || lia). case_decide; [lia|done].
Qed.

(** The empty key's cell takes a value, and the flag is set. *)
Lemma rep_set_empty v :
  ∃ vs, @aset goerr _ (values m) (mask m + 1) v = Ret vs ∧
    rep (set_empty_key true (set_arrays (keys m) vs m)) (<[0 := v]> G).
Proof.
  pose proof rep_lengths as (Hks & Hvs & Hm).
  destruct R as [Hn T Hlast Hass Hres Hroom Hempty].
  eexists. split; [apply aset_Ret; lia|]. split; cbn; rewrite ?delete_insert_eq; try done.
  - apply table_last_value; [done|lia].
  - rewrite lookup_insert_eq, nthZ_insert by lia. by case_decide.
Qed.
End rep.

(** * The operations *)

(** A new key at the empty slot its probe stopped at. *)
Lemma insert_at_spec m G i key v :
  rep m G → can_grow m → key ≠ 0 → 0 ≤ i ≤ mask m → cell (keys m) i = 0 → G !! key = None →
  (∀ j, 0 ≤ j < mask m + 1 →
     dist (mask m + 1) (ideal (mask m) key) j < dist (mask m + 1) (ideal (mask m) key) i →
     cell (keys m) j ≠ 0) →
  ∃ m', insert_at i key v m = Ret m' ∧ rep m' (<[key := v]> G).
Proof.
  intros R Hgrow Hkey Hi Ei Hg Hpath. pose proof (rep_lengths _ _ R) as (Hks & Hvs & Hm).
  destruct R as [Hn T Hlast Hass Hres Hroom Hempty].
  assert (Hg' : delete 0 G !! key = None) by (by rewrite lookup_delete_ne).
  assert (T' : table (mask m + 1) (-1) (<[Z.to_nat i := key]> (keys m)) (<[Z.to_nat i := v]> (values m))
                 (delete 0 (<[key := v]> G))).
  { rewrite delete_insert_ne by done. apply table_insert; try done; [lia|].
    by replace (mask m + 1 - 1) with (mask m) by lia. }
  assert (Hsz : Z.of_nat (size (delete 0 (<[key := v]> G))) = assigned m + 1).
  { rewrite delete_insert_ne, map_size_insert_None by done. lia. }
  assert (HG0 : (<[key := v]> G : gmap Z Z) !! 0 = G !! 0) by (by rewrite lookup_insert_ne).
  unfold insert_at. destruct (Z.eqb_spec (assigned m) (resizeAt m)) as [Hfull|Hfull].
  - assert (Hne : mask m + 1 ≠ 2 ^ 30) by (by destruct Hgrow).
    unfold allocateThenInsertThenRehash, NextBufferSize. change MaxHashArrayLength with (2 ^ 30).
    rewrite (proj2 (Z.eqb_neq _ _) Hne), Z.shiftl_mul_pow2 by lia.
    change (2 ^ 1) with 2. rewrite (go_bind_ret (E:=goerr) ((mask m + 1) * 2)).
    rewrite !aset_Ret, !go_bind_ret by lia.
    pose proof (is_size_double _ Hn Hne) as Hn'. pose proof (ExpandAtCount_double (mask m + 1) ltac:(lia)).
    pose proof (ExpandAtCount_lt ((mask m + 1) * 2)).
    edestruct (rehash_spec (mask m + 1) ((mask m + 1) * 2)) as (ks & vs & -> & Tn & Hck & Hcv);
      [done|exact T'|lia|lia|done..|].
    rewrite go_bind_ret. eexists. split; [done|].
    split; cbn; replace ((mask m + 1) * 2 - 1 + 1) with ((mask m + 1) * 2) by lia; try done; try lia.
    + rewrite Hck, nthZ_insert by lia. case_decide; [lia|done].
    + rewrite HG0, Hempty, Hcv, nthZ_insert by lia. case_decide; [lia|done].
  - rewrite !aset_Ret, !go_bind_ret by lia. eexists. split; [done|]. split; cbn; try done; try lia.
    + rewrite nthZ_insert by lia. case_decide; [lia|done].
    + rewrite HG0, Hempty, nthZ_insert by lia. case_decide; [lia|done].
Qed.

Lemma Put_spec m G key v :
  rep m G → can_grow m →
  ∃ m', Put key v m = Ret (default 0 (G !! key), m') ∧ rep m' (<[key := v]> G).
Proof.
  intros R Hgrow. pose proof (rep_lengths _ _ R) as (Hks & Hvs & Hm). unfold Put.
  destruct (Z.eqb_spec key 0) as [->|Hkey].
  - destruct (rep_set_empty m G R v) as (vs & Es & R'). rewrite (r_empty _ _ R), Es.
    eexists. split; [|exact R']. destruct (hasEmptyKey m); [|done]. by rewrite cell_aget by lia.
  - destruct (locate_spec m G R key Hkey) as ([] & i & -> & Hi & Hb); rewrite go_bind_ret.
    + destruct Hb as (Hl & <- & ->). rewrite (cell_aget (values m) i), go_bind_ret, aset_Ret, go_bind_ret by lia.
      eexists. split; [done|]. apply rep_set_value; [done..|lia|apply Hl].
    + destruct Hb as (Ei & Hg & Hpath).
      destruct (insert_at_spec m G i key v R Hgrow Hkey Hi Ei Hg Hpath) as (m' & -> & R').
      rewrite Hg. by exists m'.
Qed.

Lemma GetOrDefault_spec m G key d :
  rep m G → GetOrDefault key d m = Ret (default d (G !! key)).
Proof.
  intros R. pose proof (rep_lengths _ _ R) as (Hks & Hvs & Hm). unfold GetOrDefault.
  destruct (Z.eqb_spec key 0) as [->|Hkey].
  - rewrite (r_empty _ _ R). destruct (hasEmptyKey m); [|done]. by rewrite cell_aget by lia.
  - destruct (locate_spec m G R key Hkey) as ([] & i & -> & Hi & Hb); rewrite go_bind_ret.
    + destruct Hb as (_ & _ & ->). by rewrite cell_aget by lia.
    + by destruct Hb as (_ & -> & _).
Qed.

Lemma ContainsKey_spec m G key :
  rep m G → ContainsKey key m = Ret (bool_decide (is_Some (G !! key))).
Proof.
  intros R. unfold ContainsKey. destruct (Z.eqb_spec key 0) as [->|Hkey].
  - rewrite (r_empty _ _ R). by destruct (hasEmptyKey m).
  - destruct (locate_spec m G R key Hkey) as ([] & i & -> & Hi & Hb); rewrite go_bind_ret.
    + destruct Hb as (_ & _ & ->). done.
    + destruct Hb as (_ & -> & _). done.
Qed.

(** An index is the slot of the key, or the complement of the slot it goes to. *)
Lemma IndexOf_spec m G key :
  rep m G →
  ∃ i, IndexOf key m = Ret i ∧
    if indexExists i
    then 0 ≤ i ≤ mask m + 1 ∧ G !! key = Some (cell (values m) i) ∧
      ∀ v, rep (set_arrays (keys m) (<[Z.to_nat i := v]> (values m)) m) (<[key := v]> G)
    else G !! key = None ∧ 
      ∀ v, can_grow m → ∃ m', indexInsert i key v m = Ret m' ∧ rep m' (<[key := v]> G).
Proof.
  intros R. pose proof (rep_lengths _ _ R) as (Hks & Hvs & Hm). unfold IndexOf, indexExists, indexInsert.
  destruct (Z.eqb_spec key 0) as [->|Hkey].
  - pose proof (r_empty _ _ R) as E. pose proof (rep_set_empty m G R) as Hset.
    destruct (hasEmptyKey m) eqn:Ee; eexists; (split; [done|]).
    + destruct (Z.leb_spec 0 (mask m + 1)); [|lia]. split_and!; [lia..|done|].
      intros v. destruct (Hset v) as (vs & Es & R'). rewrite aset_Ret in Es by lia.
      injection Es as <-. unfold set_empty_key, set_arrays in *. cbn in *. by rewrite Ee.
    + unfold Z.lnot. destruct (Z.leb_spec 0 (Z.pred (- (mask m + 1)))); [lia|].
      split; [done|]. intros v _. destruct (Z.ltb_spec (Z.pred (- (mask m + 1))) 0); [|lia].
      replace (Z.pred (- Z.pred (- (mask m + 1)))) with (mask m + 1) by lia.
      destruct (Hset v) as (vs & -> & R'). rewrite go_bind_ret. by eexists.
  - destruct (locate_spec m G R key Hkey) as ([] & i & -> & Hi & Hb); rewrite go_bind_ret;
      eexists; (split; [done|]).
    + destruct Hb as (Hl & <- & Hg). destruct (Z.leb_spec 0 i); [|lia].
      split_and!; [lia..|done|]. intros v. by apply rep_set_value; [| |apply Hl].
    + destruct Hb as (Ei & Hg & Hpath). unfold Z.lnot.
      destruct (Z.leb_spec 0 (Z.pred (- i))); [lia|]. split; [done|]. intros v Hgrow.
      destruct (Z.ltb_spec (Z.pred (- i)) 0); [|lia].
      replace (Z.pred (- Z.pred (- i))) with i by lia. by apply insert_at_spec.
Qed.

Lemma PutIfAbsent_spec m G key v :
  rep m G → can_grow m →
  ∃ m', PutIfAbsent key v m = Ret (bool_decide (G !! key = None), m') ∧
    rep m' (match G !! key with Some _ => G | None => <[key := v]> G end).
Proof.
  intros R Hgrow. unfold PutIfAbsent.
  destruct (IndexOf_spec m G key R) as (i & -> & Hi). rewrite go_bind_ret.
  destruct (indexExists i); cbn [negb].
  - destruct Hi as (_ & -> & _). by exists m.
  - destruct Hi as (Hg & Hins). destruct (Hins v Hgrow) as (m' & -> & R'). rewrite Hg. by exists m'.
Qed.

Lemma PutOrAdd_spec m G key v incr :
  rep m G → can_grow m →
  let new := match G !! key with Some x => to_int64 (x + incr) | None => v end in
  ∃ m', PutOrAdd key v incr m = Ret (new, m') ∧ rep m' (<[key := new]> G).
Proof.
  intros R Hgrow. unfold PutOrAdd. pose proof (rep_lengths _ _ R) as (Hks & Hvs & Hm).
  destruct (IndexOf_spec m G key R) as (i & -> & Hi). rewrite go_bind_ret. destruct (indexExists i).
  - destruct Hi as (Hr & -> & Hrep). rewrite (cell_aget (values m) i), go_bind_ret by lia.
    unfold IndexReplace. rewrite (cell_aget (values m) i), go_bind_ret, aset_Ret by lia.
    eexists. split; [done|]. apply Hrep.
  - destruct Hi as (Hg & Hins). destruct (Hins v Hgrow) as (m' & -> & R'). rewrite Hg. by exists m'.
Qed.

Lemma shiftConflictingKeys_spec m G i :
  rep m G → 0 ≤ i ≤ mask m → cell (keys m) i ≠ 0 →
  ∃ m', shiftConflictingKeys i m = Ret m' ∧ rep m' (delete (cell (keys m) i) G).
Proof.
  intros R Hi Hc. pose proof (rep_lengths _ _ R) as (Hks & Hvs & Hm).
  destruct R as [Hn T Hlast Hass Hres Hroom Hempty]. pose proof (ExpandAtCount_lt (mask m + 1)).
  assert (Hl : live (mask m + 1) (-1) (keys m) i) by (unfold live; split_and!; (done || lia)).
  pose proof (table_map_in _ _ _ _ _ i T Hl) as Hin. rewrite lookup_delete_ne in Hin by done.
  pose proof (table_open_gap _ _ _ _ i T Hl) as Tg. rewrite delete_delete in Tg.
  destruct (table_empty_slot _ _ _ _ T) as (z & Hz & Ez); [lia|].
  assert (i ≠ z) by congruence.
  destruct (shift_loop_spec _ Hn z Hz (length (keys m)) i 0 _ _ _ Tg)
    as (gap & ks & vs & Ep & Hgap & Hlk & Hlv & Tn & Hck & Hcv); try done; try lia; try dists.
  { intros j. lia. }
  replace (mask m + 1 - 1) with (mask m) in Ep by lia.
  unfold shiftConflictingKeys. rewrite Ep, go_bind_ret, !aset_Ret, !go_bind_ret by lia.
  eexists. split; [done|]. assert (Hsz : size (delete (cell (keys m) i) (delete 0 G)) = Nat.pred (size (delete 0 G))).
  { apply map_size_delete_Some. by rewrite lookup_delete_ne, Hin. }
  assert (size (delete 0 G) ≠ 0%nat).
  { intros E%map_size_empty_inv. pose proof (table_map_in _ _ _ _ _ i T Hl) as E'.
    rewrite E in E'. by apply lookup_empty_Some in E'. }
  split; cbn; try done; try lia.
  - rewrite nthZ_insert by lia. case_decide; [lia|congruence].
  - rewrite delete_delete, Hsz. lia.
  - rewrite lookup_delete_ne, nthZ_insert, Hcv by (done || lia). case_decide; [lia|done].
Qed.

(** The empty key's cell and flag are cleared. *)
Lemma rep_clear_empty m G :
  rep m G →
  ∃ vs, @aset goerr _ (values m) (mask m + 1) 0 = Ret vs ∧
    rep (set_empty_key false (set_arrays (keys m) vs m)) (delete 0 G).
Proof.
  intros R. pose proof (rep_lengths _ _ R) as (Hks & Hvs & Hm).
  destruct R as [Hn T Hlast Hass Hres Hroom Hempty].
  eexists. split; [apply aset_Ret; lia|]. split; cbn; rewrite ?delete_delete_eq; try done.
  - apply table_last_value; [done|lia].
  - by rewrite lookup_delete_eq.
Qed.

Lemma Remove_spec m G key :
  rep m G → ∃ m', Remove key m = Ret (default 0 (G !! key), m') ∧ rep m' (delete key G).
Proof.
  intros R. pose proof (rep_lengths _ _ R) as (Hks & Hvs & Hm). unfold Remove.
  destruct (Z.eqb_spec key 0) as [->|Hkey].
  - rewrite (r_empty _ _ R). destruct (rep_clear_empty m G R) as (vs & Es & R').
    destruct (hasEmptyKey m) eqn:Ee; cbn [negb].
    + rewrite cell_aget, go_bind_ret, Es, go_bind_ret by lia. by eexists.
    + exists m. rewrite delete_id; [done|]. by rewrite (r_empty _ _ R), Ee.
  - destruct (locate_spec m G R key Hkey) as ([] & i & -> & Hi & Hb); rewrite go_bind_ret.
    + destruct Hb as (Hl & <- & ->). rewrite (cell_aget (values m) i), go_bind_ret by lia.
      destruct (shiftConflictingKeys_spec m G i R Hi) as (m' & -> & R'); [apply Hl|]. by exists m'.
    + destruct Hb as (_ & Hg & _). exists m. rewrite Hg, delete_id; done.
Qed.

(** * Buffer sizes *)

(** [smears x w y]: every bit of [y] is the disjunction of the [w] bits of [x]
    from there upwards. *)
Definition smears (x w y : Z) : Prop :=
  ∀ i, 0 ≤ i → Z.testbit y i = true ↔ ∃ s, 0 ≤ s < w ∧ Z.testbit x (i + s) = true.

Lemma smears_self x : smears x 1 x.
Proof.
  intros i Hi. split; [intros H; exists 0; split; [lia|by rewrite Z.add_0_r]|].
  intros (s & Hs & H). by replace (i + s) with i in H by lia.
Qed.

Lemma smears_double x w y : 0 < w → smears x w y → smears x (2 * w) (Z.lor y (Z.shiftr y w)).
Proof.
  intros Hw Hy i Hi. rewrite Z.lor_spec, Z.shiftr_spec, orb_true_iff by done.
  rewrite (Hy i), (Hy (i + w)) by lia. split.
  - intros [(s & Hs & H)|(s & Hs & H)]; [exists s|exists (w + s)]; (split; [lia|]); [done|].
    by rewrite Z.add_assoc.
  - intros (s & Hs & H). destruct (decide (s < w)); [left; exists s; split; [lia|done]|].
    right. exists (s - w). split; [lia|]. by replace (i + w + (s - w)) with (i + s) by lia.
Qed.

Lemma nextHighestPowerOfTwo_spec n :
  1 < n ≤ 2 ^ 62 → nextHighestPowerOfTwo n = 2 ^ Z.log2_up n.
Proof.
  intros Hn. unfold nextHighestPowerOfTwo. destruct (Z.leb_spec n 0); [lia|]. cbv zeta.
  pose proof (smears_double (n - 1) 1 _ eq_refl (smears_self (n - 1))) as H1.
  pose proof (smears_double (n - 1) 2 _ eq_refl H1) as H2.
  pose proof (smears_double (n - 1) 4 _ eq_refl H2) as H4.
  pose proof (smears_double (n - 1) 8 _ eq_refl H4) as H8.
  pose proof (smears_double (n - 1) 16 _ eq_refl H8) as H16.
  pose proof (smears_double (n - 1) 32 _ eq_refl H16) as H32.
  cbn [Z.mul Pos.mul] in H32. set (y := Z.lor _ (Z.shiftr _ 32)). change (smears (n - 1) 64 y) in H32.
  enough (y = Z.ones (Z.log2 (n - 1) + 1)) as ->.
  { rewrite Z.log2_up_eqn by lia. rewrite Z.ones_equiv. unfold Z.succ, Z.pred.
    replace (n + -1) with (n - 1) by lia. lia. }
  assert (0 < 2 ^ 62) by lia.
  assert (Hlog : 0 ≤ Z.log2 (n - 1) < 62).
  { split; [apply Z.log2_nonneg|]. apply Z.log2_lt_pow2; lia. }
  apply Z.bits_inj'. intros i Hi. rewrite Z.testbit_ones_nonneg by lia.
  apply eq_bool_prop_intro. rewrite !Is_true_true, (H32 i Hi), Z.ltb_lt. split.
  - intros (s & Hs & Ht). destruct (Z.lt_ge_cases (Z.log2 (n - 1)) (i + s)); [|lia].
    by rewrite Z.bits_above_log2 in Ht by lia.
  - intros Hi'. exists (Z.log2 (n - 1) - i). split; [lia|].
    replace (i + (Z.log2 (n - 1) - i)) with (Z.log2 (n - 1)) by lia. apply Z.bit_log2. lia.
Qed.

Lemma land_pred_zero n : 0 < n → Z.land n (n - 1) = 0 → n = 2 ^ Z.log2 n.
Proof.
  intros Hn E. pose proof (Z.log2_spec n Hn) as Hl. pose proof (Z.log2_nonneg n).
  destruct (decide (n = 2 ^ Z.log2 n)) as [|Hne]; [done|]. exfalso.
  assert (Z.log2 (n - 1) = Z.log2 n) as Hlog by (apply Z.log2_unique; lia).
  assert (Z.testbit (Z.land n (n - 1)) (Z.log2 n) = true) as Ht.
  { rewrite Z.land_spec, Z.bit_log2 by done. rewrite <- Hlog. apply Z.bit_log2.
    pose proof (pow2_pos (Z.log2 n) ltac:(lia)). lia. }
  by rewrite E, Z.testbit_0_l in Ht.
Qed.

Lemma MinBufferSize_spec e :
  0 ≤ e ≤ 805306368 → ∃ n, MinBufferSize e = Ret n ∧ is_size n ∧ 4 ≤ n ∧ e ≤ ExpandAtCount n.
Proof.
  intros He. unfold MinBufferSize. destruct (Z.ltb_spec e 0); [lia|]. cbv zeta.
  set (len := if (4 * e + 2) / 3 =? e then _ else _).
  assert (Hlen : 4 * e ≤ 3 * len ∧ e + 1 ≤ len ∧ len ≤ 2 ^ 30).
  { unfold len. change (2 ^ 30) with 1073741824.
    destruct (Z.eqb_spec ((4 * e + 2) / 3) e); Z.to_euclidean_division_equations; lia. }
  clearbody len. destruct Hlen as (Hlen & Hlen1 & Hmax).
  set (l := if len <? MinHashArrayLength then _ else _).
  assert (Hl : is_size l ∧ 4 ≤ l ∧ len ≤ l).
  { unfold l, MinHashArrayLength. destruct (Z.ltb_spec len 4) as [H4|H4].
    { split; [by exists 2|lia]. }
    assert (Hp : ∀ k, 0 ≤ k → 2 ^ k ≤ 2 ^ 30 → is_size (2 ^ k)).
    { intros k Hk Hle. exists k. split; [|done]. split; [done|]. 
      by apply (Z.pow_le_mono_r_iff 2). }
    destruct (Z.eqb_spec (Z.land len (len - 1)) 0) as [E|E]; cbn [negb].
    - split; [|lia]. apply land_pred_zero in E; [|lia]. rewrite E.
      apply Hp; [apply Z.log2_nonneg|]. by rewrite <- E.
    - assert (2 ^ 30 < 2 ^ 62) by done.
      rewrite nextHighestPowerOfTwo_spec by lia. pose proof (Z.log2_up_spec len ltac:(lia)).
      split; [|lia]. apply Hp; [apply Z.log2_up_nonneg|].
      apply Z.pow_le_mono_r; [lia|]. by apply (Z.log2_up_le_mono len (2 ^ 30)). }
  clearbody l. destruct Hl as (Hs & H4 & Hle). pose proof (size_bounds l Hs) as Hb.
  change MaxHashArrayLength with (2 ^ 30). destruct (Z.ltb_spec (2 ^ 30) l); [lia|].
  exists l. split_and!; try done. unfold ExpandAtCount.
  destruct (Z.ltb_spec (l - 1) ((3 * l + 3) / 4)); Z.to_euclidean_division_equations; lia.
Qed.

Lemma MinBufferSize_panics e : e < 0 ∨ 805306368 < e < 2 ^ 60 → MinBufferSize e = Panic.
Proof.
  change (2 ^ 60) with 1152921504606846976. intros He. unfold MinBufferSize.
  destruct (Z.ltb_spec e 0); [done|]. destruct He as [|He]; [lia|]. cbv zeta.
  set (len := if (4 * e + 2) / 3 =? e then _ else _).
  assert (Hlen : 1073741824 < len ≤ 2305843009213693952).
  { unfold len. destruct (Z.eqb_spec ((4 * e + 2) / 3) e); Z.to_euclidean_division_equations; lia. }
  clearbody len. unfold MinHashArrayLength. destruct (Z.ltb_spec len 4); [lia|].
  change MaxHashArrayLength with 1073741824.
  enough (∀ l, len ≤ l → (if 1073741824 <? l then Panic else mret l : M Z) = Panic) as Hall.
  { apply Hall. destruct (Z.eqb_spec (Z.land len (len - 1)) 0); cbn [negb]; [lia|].
    rewrite nextHighestPowerOfTwo_spec by (change (2 ^ 62) with 4611686018427387904; lia).
    pose proof (Z.log2_up_spec len ltac:(lia)). lia. }
  intros l Hl. destruct (Z.ltb_spec 1073741824 l); [done|lia].
Qed.

Lemma rep_allocate n m :
  is_size n → assigned m = 0 → hasEmptyKey m = false → rep (allocateBuffers n m) ∅.
Proof.
  intros Hn Ea Ee. pose proof (size_bounds n Hn).
  assert (0 ≤ ExpandAtCount n).
  { unfold ExpandAtCount. destruct (Z.ltb_spec (n - 1) ((3 * n + 3) / 4));
      Z.to_euclidean_division_equations; lia. }
  split; cbn; rewrite ?Z.sub_add, ?delete_empty, ?Ea, ?Ee; try done.
  - apply table_fresh; rewrite ?repeat_length; try lia. intros. apply cell_repeat.
  - apply cell_repeat.
Qed.

Lemma New_spec e :
  0 ≤ e ≤ 805306368 →
  ∃ m, NewIntIntHashMapWithExpectedElements e = Ret m ∧ rep m ∅ ∧ e ≤ resizeAt m.
Proof.
  intros He. destruct (MinBufferSize_spec e He) as (n & E & Hn & H4 & Hexp).
  unfold NewIntIntHashMapWithExpectedElements, ensureCapacity. cbn [orb]. rewrite E, go_bind_ret.
  eexists. split; [done|]. split; [by apply rep_allocate|done].
Qed.

Lemma Release_spec m : ∃ m', Release m = Ret m' ∧ rep m' ∅.
Proof.
  destruct (MinBufferSize_spec DefaultExpectedElements) as (n & E & Hn & _); [done|].
  unfold Release, ensureCapacity. cbn [orb]. rewrite E, go_bind_ret.
  eexists. split; [done|]. by apply rep_allocate.
Qed.

Lemma Clear_spec m G : rep m G → rep (Clear m) ∅.
Proof.
  intros R. pose proof (rep_lengths _ _ R) as (Hks & Hvs & Hm).
  destruct R as [Hn T Hlast Hass Hres Hroom Hempty].
  split; cbn; rewrite ?delete_empty; try done; try lia.
  - apply table_fresh; rewrite ?repeat_length; try lia. intros. apply cell_repeat.
  - apply cell_repeat.
Qed.

(** * Sequences of operations *)

Inductive op : Type :=
  | OPut (key value : Z)
  | OPutIfAbsent (key value : Z)
  | OPutOrAdd (key putValue incrementValue : Z)
  | ORemove (key : Z)
  | OGet (key : Z)
  | OGetOrDefault (key defaultValue : Z)
  | OContainsKey (key : Z)
  | OSize
  | OClear
  | ORelease.

Definition flag (b : bool) : Z := if b then 1 else 0.

(** An operation's result, and the state after it. *)
Definition run_op (o : op) (m : IntIntHashMap) : M (Z * IntIntHashMap) :=
  match o with
  | OPut k v => Put k v m
  | OPutIfAbsent k v => '(b, m) ← PutIfAbsent k v m; mret (flag b, m)
  | OPutOrAdd k v i => PutOrAdd k v i m
  | ORemove k => Remove k m
  | OGet k => v ← Get k m; mret (v, m)
  | OGetOrDefault k d => v ← GetOrDefault k d m; mret (v, m)
  | OContainsKey k => b ← ContainsKey k m; mret (flag b, m)
  | OSize => mret (Size m, m)
  | OClear => mret (0, Clear m)
  | ORelease => m ← Release m; mret (0, m)
  end.

(** What the operation is on finite maps. *)
Definition spec_op (o : op) (G : gmap Z Z) : Z * gmap Z Z :=
  match o with
  | OPut k v => (default 0 (G !! k), <[k := v]> G)
  | OPutIfAbsent k v =>
      match G !! k with Some _ => (0, G) | None => (1, <[k := v]> G) end
  | OPutOrAdd k v i =>
      let new := match G !! k with Some x => to_int64 (x + i) | None => v end in
      (new, <[k := new]> G)
  | ORemove k => (default 0 (G !! k), delete k G)
  | OGet k => (default 0 (G !! k), G)
  | OGetOrDefault k d => (default d (G !! k), G)
  | OContainsKey k => (flag (bool_decide (is_Some (G !! k))), G)
  | OSize => (Z.of_nat (size G), G)
  | OClear | ORelease => (0, ∅)
  end.

Fixpoint run_ops (os : list op) (m : IntIntHashMap) : M (list Z * IntIntHashMap) :=
  match os with
  | [] => mret ([], m)
  | o :: os => '(r, m) ← run_op o m; '(rs, m) ← run_ops os m; mret (r :: rs, m)
  end.

Fixpoint spec_ops (os : list op) (G : gmap Z Z) : list Z * gmap Z Z :=
  match os with
  | [] => ([], G)
  | o :: os => let '(r, G) := spec_op o G in let '(rs, G) := spec_ops os G in (r :: rs, G)
  end.

Lemma run_op_spec o m G :
  rep m G → can_grow m →
  ∃ m', run_op o m = Ret ((spec_op o G).1, m') ∧ rep m' (spec_op o G).2.
Proof.
  intros R Hgrow. destruct o as [k v|k v|k v i|k|k|k d|k| | |]; cbn [run_op spec_op fst snd].
  - by apply Put_spec.
  - destruct (PutIfAbsent_spec m G k v R Hgrow) as (m' & -> & R'). exists m'.
    destruct (G !! k); done.
  - destruct (PutOrAdd_spec m G k v i R Hgrow) as (m' & -> & R'). by exists m'.
  - by apply Remove_spec.
  - unfold Get. rewrite (GetOrDefault_spec m G) by done. by exists m.
  - rewrite (GetOrDefault_spec m G) by done. by exists m.
  - rewrite (ContainsKey_spec m G) by done. by exists m.
  - rewrite (rep_Size m G) by done. by exists m.
  - exists (Clear m). split; [done|]. by apply Clear_spec with G.
  - destruct (Release_spec m) as (m' & -> & R'). by exists m'.
Qed.

Lemma size_insert_le (G : gmap Z Z) k v : (size (<[k := v]> G) ≤ S (size G))%nat.
Proof.
  destruct (G !! k) eqn:E.
  - rewrite map_size_insert_Some; [lia|by rewrite E].
  - rewrite map_size_insert_None; [lia|done].
Qed.

Lemma size_delete_le (G : gmap Z Z) k : (size (delete k G) ≤ size G)%nat.
Proof. apply map_subseteq_size, delete_subseteq. Qed.

Lemma spec_op_size o (G : gmap Z Z) : (size (spec_op o G).2 ≤ S (size G))%nat.
Proof.
  destruct o; cbn; rewrite ?map_size_empty; try lia; try apply size_insert_le.
  - destruct (G !! key); cbn; [lia|apply size_insert_le].
  - pose proof (size_delete_le G key). lia.
Qed.

(** Below the largest number of keys the map always takes one more. *)
Lemma can_grow_below m G : rep m G → Z.of_nat (size G) < 805306368 → can_grow m.
Proof.
  intros R Hsize. unfold can_grow. rewrite (r_assigned _ _ R), (r_resizeAt _ _ R).
  destruct (decide (mask m + 1 = 2 ^ 30)) as [->|]; [left|by right].
  change (ExpandAtCount (2 ^ 30)) with 805306368. pose proof (size_delete_le G 0). lia.
Qed.

Lemma run_ops_spec os m G :
  rep m G → Z.of_nat (size G) + Z.of_nat (length os) ≤ 805306368 →
  ∃ m', run_ops os m = Ret ((spec_ops os G).1, m') ∧ rep m' (spec_ops os G).2.
Proof.
  revert m G. induction os as [|o os IH]; intros m G R Hlen; [by exists m|].
  cbn [length] in Hlen. cbn [run_ops spec_ops].
  destruct (run_op_spec o m G R) as (m1 & -> & R1); [apply can_grow_below with G; [done|lia]|].
  pose proof (spec_op_size o G). rewrite go_bind_ret. destruct (spec_op o G) as [r G1].
  destruct (IH m1 G1 R1) as (m2 & -> & R2); [cbn in *; lia|].
  rewrite go_bind_ret. destruct (spec_ops os G1) as [rs G2]. by exists m2.
Qed.

(** The entries [Iter] lists are those of the map, each once. *)
Lemma Iter_loop m G :
  rep m G → ∃ res, go_for (length (keys m)) 0 (fun i res =>
    k ← @aget goerr _ (keys m) i;
    if k =? 0 then mret res else v ← aget (values m) i; mret (res ++ [(k, v)])) [] = Ret res ∧
  NoDup res ∧ ∀ k v, (k, v) ∈ res ↔ delete 0 G !! k = Some v.
Proof.
  intros R. pose proof (rep_lengths _ _ R) as (Hks & Hvs & Hm).
  destruct R as [Hn T Hlast _ _ _ _].
  set (l := live (mask m + 1) (-1) (keys m)).
  edestruct (go_for_inv (E:=goerr) (fun i res => NoDup res ∧ ∀ k v, (k, v) ∈ res ↔
    ∃ j, j < i ∧ l j ∧ cell (keys m) j = k ∧ cell (values m) j = v)
    (length (keys m)) 0) as (res & -> & Hnd & Hres); cycle 2.
  - exists res. split_and!; [done..|]. intros k v. rewrite Hres, (t_map _ _ _ _ _ T).
    apply exist_proper. intros j. split; [tauto|]. intros (Hl & ?). split; [destruct Hl; lia|done].
  - split; [constructor|]. intros k v. split; [by intros ?%not_elem_of_nil|].
    intros (j & Hj & (? & _) & _). lia.
  - intros i res Hi (Hnd & Hres). rewrite (cell_aget (keys m) i), go_bind_ret by lia.
    destruct (Z.eqb_spec (cell (keys m) i) 0) as [E|E].
    + exists res. split_and!; [done..|]. intros k v. rewrite Hres.
      apply exist_proper. intros j. split; intros (Hj & Hl & Hr); (split; [|done]); [lia|].
      destruct (decide (j = i)) as [->|]; [by destruct Hl as (_ & _ & ?)|lia].
    + rewrite (cell_aget (values m) i), go_bind_ret by lia. eexists. split; [done|].
      assert (Hl : l i).
      { unfold l, live. split_and!; try done; try lia. destruct (decide (i = mask m + 1)); [congruence|lia]. }
      split.
      * apply NoDup_app. split_and!; [done| |apply NoDup_singleton].
        intros [k v] (j & Hj & Hlj & Ek & _)%Hres [= Ek' _]%list_elem_of_singleton.
        assert (j = i); [|lia]. apply (t_uniq _ _ _ _ _ T); [done..|congruence].
      * intros k v. rewrite elem_of_app, Hres, list_elem_of_singleton. split.
        { intros [(j & Hj & Hr)|[= -> ->]]; [exists j|exists i]; (split; [lia|done]). }
        intros (j & Hj & Hlj & <- & <-). destruct (decide (j = i)) as [->|]; [by right|left].
        exists j. split; [lia|done].
Qed.

Lemma Iter_spec m G : rep m G → ∃ res, Iter m = Ret res ∧ res ≡ₚ map_to_list G.
Proof.
  intros R. pose proof (rep_lengths _ _ R) as (Hks & Hvs & Hm). unfold Iter.
  destruct (Iter_loop m G R) as (res & -> & Hnd & Hres). rewrite go_bind_ret.
  pose proof (r_empty _ _ R) as Hempty. destruct (hasEmptyKey m).
  - rewrite (cell_aget (values m)), go_bind_ret by lia. eexists. split; [done|].
    set (v := cell (values m) (mask m + 1)) in *. rewrite <- (insert_delete_id _ _ _ Hempty).
    rewrite map_to_list_insert by apply lookup_delete_eq.
    rewrite (comm (++) res). cbn. constructor. apply NoDup_Permutation; [done|apply NoDup_map_to_list|].
    intros [k w]. by rewrite Hres, elem_of_map_to_list.
  - exists res. split; [done|]. apply NoDup_Permutation; [done|apply NoDup_map_to_list|].
    intros [k w]. rewrite Hres, elem_of_map_to_list. by rewrite delete_id.
Qed.

(** C18. Any sequence of operations on a new map ([NewIntIntHashMapWithExpectedElements])
    returns what the same operations return on finite maps, each at its own
    position: insertions and their variants, removals that shift keys back,
    lookups, sizes, clearing; no operation panics, loops or loses a key while
    there are at most 805306368 of them (0.75 of the largest buffer), however
    keys collide and however often the buffers grow. The entries [Iter] lists
    in the end are the entries of the finite map, each once. *)
Theorem run_ops_refines (e : Z) (os : list op) :
  0 ≤ e ≤ 805306368 → Z.of_nat (length os) ≤ 805306368 →
  ∃ m m' entries,
    NewIntIntHashMapWithExpectedElements e = Ret m ∧
    run_ops os m = Ret ((spec_ops os ∅).1, m') ∧
    Iter m' = Ret entries ∧ entries ≡ₚ map_to_list (spec_ops os ∅).2.
Proof.
  intros He Hos. destruct (New_spec e He) as (m & Em & R & _).
  destruct (run_ops_spec os m ∅ R) as (m' & Er & R'); [rewrite map_size_empty; lia|].
  destruct (Iter_spec m' _ R') as (entries & Ei & Hp). by exists m, m', entries.
Qed.

Lemma run_ops_refines_witness :
  ∃ m m' entries,
    NewIntIntHashMapWithExpectedElements 0 = Ret m ∧
    run_ops [OPut 5 50; OPut 0 7; OPutIfAbsent 5 1; OPutOrAdd 5 1 3; OPut 9 90; OPut 13 1; OPut 17 2;
             ORemove 9; OGet 9; OGet 5; OContainsKey 0; OSize; OGetOrDefault 17 (-1)] m
    = Ret ([0; 0; 0; 53; 0; 0; 0; 90; 0; 53; 1; 4; 2], m') ∧
    Iter m' = Ret entries ∧ entries ≡ₚ [(0, 7); (5, 53); (17, 2); (13, 1)].
Proof.
  destruct (run_ops_refines 0
    [OPut 5 50; OPut 0 7; OPutIfAbsent 5 1; OPutOrAdd 5 1 3; OPut 9 90; OPut 13 1; OPut 17 2;
     ORemove 9; OGet 9; OGet 5; OContainsKey 0; OSize; OGetOrDefault 17 (-1)])
    as (m & m' & entries & Em & Er & Ei & Hp); [lia|cbn; lia|].
  exists m, m', entries. split_and!; [exact Em| |exact Ei|].
  - rewrite Er. vm_compute. reflexivity.
  - rewrite Hp. apply NoDup_Permutation.
    + apply NoDup_map_to_list.
    + repeat (constructor; [set_solver|]). constructor.
    + intros [k v]. vm_compute (map_to_list _). set_solver.
Defined.

(** A map made for [e] elements ([MinBufferSize]) has a power of two of slots
    and takes [e] elements before it first grows; a number of elements that is
    negative or needs more than the largest buffer is refused with a panic. *)
Theorem New_capacity (e : Z) :
  e < 2 ^ 60 →
  if (0 <=? e) && (e <=? 805306368)
  then ∃ m k, NewIntIntHashMapWithExpectedElements e = Ret m ∧ mask m + 1 = 2 ^ k ∧ 2 ≤ k ≤ 30 ∧
    Z.of_nat (length (keys m)) = 2 ^ k + 1 ∧ e ≤ resizeAt m < 2 ^ k ∧ Size m = 0
  else NewIntIntHashMapWithExpectedElements e = Panic.
Proof.
  intros Hmax. destruct (Z.leb_spec 0 e), (Z.leb_spec e 805306368); cbn [andb];
    unfold NewIntIntHashMapWithExpectedElements, ensureCapacity; cbn [orb].
  - destruct (MinBufferSize_spec e) as (n & -> & (k & Hk & ->) & H4 & Hexp); [lia|].
    pose proof (ExpandAtCount_lt (2 ^ k)). pose proof (pow2_pos k ltac:(lia)).
    rewrite go_bind_ret. eexists _, k. split; [done|]. cbn. rewrite repeat_length.
    split_and!; try lia; try done. apply (Z.pow_le_mono_r_iff 2); lia.
  - by rewrite MinBufferSize_panics by lia.
  - by rewrite MinBufferSize_panics by lia.
  - by rewrite MinBufferSize_panics by lia.
Qed.

Lemma New_capacity_witness :
  (∃ m k, NewIntIntHashMapWithExpectedElements 100 = Ret m ∧ mask m + 1 = 2 ^ k ∧ 2 ≤ k ≤ 30 ∧
    Z.of_nat (length (keys m)) = 2 ^ k + 1 ∧ 100 ≤ resizeAt m < 2 ^ k ∧ Size m = 0) ∧
  NewIntIntHashMapWithExpectedElements 805306369 = Panic.
Proof. split; [by apply (New_capacity 100)|by apply (New_capacity 805306369)]. Defined.
