(* ===== verification/WordBits.v ===== *)
(** 64-bit words as rows of bits, for the bit sets: Go's operations on [uint64]
    bit by bit, the searches for the first and last bit and the population
    count of [util/fixed_bit_set.go]. *)

From stdpp Require Import base tactics numbers list.
From Stdlib Require Import ZArith Lia.
From S2P Require Import Prelude.

Local Open Scope Z_scope.

(** * Operations *)

Definition ones64 : Z := 18446744073709551615.

(** [^x] of a [uint64] *)
Definition not64 (x : Z) : Z := Z.lxor x ones64.

(** [x << n] of a [uint64] *)
Definition shl64 (x n : Z) : Z := to_uint64 (Z.shiftl x n).

Definition m1 : Z := 0x5555555555555555.
Definition m2 : Z := 0x3333333333333333.
Definition m4 : Z := 0x0f0f0f0f0f0f0f0f.
Definition h01 : Z := 0x0101010101010101.

Definition popcount (x : Z) : Z :=
  let x := to_uint64 (x - Z.land (Z.shiftr x 1) m1) in
  let x := to_uint64 (Z.land x m2 + Z.land (Z.shiftr x 2) m2) in
  let x := Z.land (to_uint64 (x + Z.shiftr x 4)) m4 in
  Z.shiftr (to_uint64 (x * h01)) 56.

(** [if x & mask == 0 { n += by; x >>= by }] *)
Definition tz_step (mask by_ : Z) (nx : Z * Z) : Z * Z :=
  let '(n, x) := nx in if Z.land x mask =? 0 then (n + by_, Z.shiftr x by_) else (n, x).

Definition trailingZeros (x : Z) : Z :=
  if x =? 0 then 64 else
  let '(n, x) := tz_step 0x3 2 (tz_step 0xF 4 (tz_step 0xFF 8 (tz_step 0xFFFF 16
                   (tz_step 0xFFFFFFFF 32 (0, x))))) in
  if Z.land x 0x1 =? 0 then n + 1 else n.

(** [if x <= bound { n += by; x <<= by }] *)
Definition lz_step (bound by_ : Z) (nx : Z * Z) : Z * Z :=
  let '(n, x) := nx in if x <=? bound then (n + by_, shl64 x by_) else (n, x).

Definition leadingZeros (x : Z) : Z :=
  if x =? 0 then 64 else
  let '(n, x) := lz_step 0x3FFFFFFFFFFFFFFF 2 (lz_step 0x0FFFFFFFFFFFFFFF 4
                   (lz_step 0x00FFFFFFFFFFFFFF 8 (lz_step 0x0000FFFFFFFFFFFF 16
                   (lz_step 0x00000000FFFFFFFF 32 (0, x))))) in
  if x <=? 0x7FFFFFFFFFFFFFFF then n + 1 else n.

(** [w &^ m] *)
Definition andnot (w m : Z) : Z := Z.land w (not64 m).

(** * Bits of words *)

Ltac idx := Z.to_euclidean_division_equations; lia.

Lemma shiftr6 i : Z.shiftr i 6 = i / 64.
Proof. rewrite Z.shiftr_div_pow2 by lia. done. Qed.

Lemma land63 i : Z.land i 63 = i mod 64.
Proof. apply (Z.land_ones i 6). lia. Qed.

Lemma testbit_ones64 k : 0 ≤ k → Z.testbit ones64 k = (k <? 64).
Proof. intros Hk. change ones64 with (Z.ones 64). by apply Z.testbit_ones_nonneg. Qed.

Lemma testbit_not64 w k : 0 ≤ k < 64 → Z.testbit (not64 w) k = negb (Z.testbit w k).
Proof.
  intros Hk. unfold not64. rewrite Z.lxor_spec, testbit_ones64 by lia.
  rewrite (proj2 (Z.ltb_lt _ _)) by lia. by rewrite xorb_true_r.
Qed.

Lemma testbit_shl64 x n k : 0 ≤ k < 64 → Z.testbit (shl64 x n) k = Z.testbit x (k - n).
Proof.
  intros Hk. unfold shl64. rewrite uwrap_testbit, Z.shiftl_spec by lia.
  by rewrite (proj2 (Z.ltb_lt _ _)) by lia.
Qed.

Lemma testbit_one k : Z.testbit 1 k = (k =? 0).
Proof.
  destruct (Z.eqb_spec k 0) as [->|]; [done|]. destruct (Z.lt_ge_cases k 0); [by apply Z.testbit_neg_r|].
  change 1 with (2 ^ 0). apply Z.pow2_bits_false. lia.
Qed.

Lemma testbit_bit n k : 0 ≤ k < 64 → Z.testbit (shl64 1 n) k = (k =? n).
Proof. intros Hk. rewrite testbit_shl64, testbit_one by done. destruct (Z.eqb_spec k n), (Z.eqb_spec (k - n) 0); lia. Qed.

Lemma low_mask n : 0 ≤ n < 64 → shl64 1 n - 1 = Z.ones n.
Proof.
  intros Hn. unfold shl64. rewrite Z.shiftl_1_l, Z.ones_equiv, uwrap_id; [lia|].
  split; [by apply Z.pow_nonneg|]. apply Z.pow_lt_mono_r; lia.
Qed.

Lemma testbit_low n k : 0 ≤ n < 64 → 0 ≤ k → Z.testbit (shl64 1 n - 1) k = (k <? n).
Proof. intros Hn Hk. rewrite low_mask by done. apply Z.testbit_ones_nonneg; lia. Qed.

Lemma lxor_uint w a b : 0 ≤ w → in_uint w a → in_uint w b → in_uint w (Z.lxor a b).
Proof.
  intros Hw Ha Hb. split; [apply Z.lxor_nonneg; split; intros; [apply Hb|apply Ha]|].
  enough (Hm : Z.lxor a b = uwrap w (Z.lxor a b)) by (rewrite Hm; by apply uwrap_range).
  apply Z.bits_inj'. intros n Hn. rewrite uwrap_testbit, Z.lxor_spec by done.
  destruct (Z.ltb_spec n w); [done|]. by rewrite !(in_uint_testbit_high w).
Qed.

Abbreviation is_word := (in_uint 64).

Lemma ones64_word : is_word ones64.
Proof. done. Qed.

Lemma not64_word x : is_word x → is_word (not64 x).
Proof. intros. apply lxor_uint; done. Qed.

Lemma shl64_word x n : is_word (shl64 x n).
Proof. by apply uwrap_range. Qed.

Lemma low_word n : 0 ≤ n < 64 → is_word (shl64 1 n - 1).
Proof.
  intros Hn. rewrite low_mask, Z.ones_equiv by done. pose proof (pow2_pos n ltac:(lia)).
  split; [lia|]. pose proof (Z.pow_lt_mono_r 2 n 64). lia.
Qed.

Create HintDb words.
#[export] Hint Resolve ones64_word not64_word shl64_word low_word : words.

(** A word that is not 0 has a bit. *)
Lemma word_zero x : is_word x → (∀ k, 0 ≤ k < 64 → Z.testbit x k = false) → x = 0.
Proof. intros Hx H. apply (uint_bits_inj 64); [done|done|done|]. intros k Hk. by rewrite H, Z.testbit_0_l. Qed.

(** [Bitwise f u]: the word operation [f] is [u] on each bit. *)
Class Bitwise (f : Z → Z → Z) (u : bool → bool → bool) := {
  bitwise_word v w : is_word v → is_word w → is_word (f v w);
  bitwise_bit v w k : 0 ≤ k < 64 → Z.testbit (f v w) k = u (Z.testbit v k) (Z.testbit w k)
}.

#[global] Instance lor_bitwise : Bitwise Z.lor orb.
Proof. split; intros; [by apply lor_uint|apply Z.lor_spec]. Qed.
#[global] Instance land_bitwise : Bitwise Z.land andb.
Proof. split; intros v w; [intros [Hv _] Hw; by apply land_uint|intros; apply Z.land_spec]. Qed.
#[global] Instance lxor_bitwise : Bitwise Z.lxor xorb.
Proof. split; intros; [by apply lxor_uint|apply Z.lxor_spec]. Qed.
#[global] Instance andnot_bitwise : Bitwise andnot (fun a b => a && negb b).
Proof.
  split; intros v w; unfold andnot.
  - intros [Hv _] Hw. apply land_uint; auto with words. lia.
  - intros k Hk. by rewrite Z.land_spec, testbit_not64.
Qed.

Lemma testbit_start n k : 0 ≤ n < 64 → 0 ≤ k < 64 → Z.testbit (shl64 ones64 n) k = (n <=? k).
Proof.
  intros Hn Hk. rewrite testbit_shl64 by done. destruct (Z.leb_spec n k).
  - rewrite testbit_ones64 by lia. apply Z.ltb_lt. lia.
  - apply Z.testbit_neg_r. lia.
Qed.

Lemma testbit_end m k : 0 ≤ m < 64 → 0 ≤ k < 64 → Z.testbit (Z.shiftr ones64 (63 - m)) k = (k <=? m).
Proof.
  intros Hm Hk. rewrite Z.shiftr_spec, testbit_ones64 by lia.
  destruct (Z.ltb_spec (k + (63 - m)) 64), (Z.leb_spec k m); (done || lia).
Qed.

(** * Trailing and leading zeros *)

(** The first set bit of [x] is among the [W] bits from [n] on, which are the
    first ones of [y]. *)
Definition tz_inv (x W : Z) (ny : Z * Z) : Prop :=
  0 ≤ ny.1 ∧ ny.1 + W ≤ 64 ∧ ny.2 = Z.shiftr x ny.1 ∧
  (∀ k, 0 ≤ k < ny.1 → Z.testbit x k = false) ∧
  ∃ k, 0 ≤ k < W ∧ Z.testbit ny.2 k = true.

Lemma land_low_zero y s : 0 ≤ s → Z.land y (Z.ones s) = 0 → ∀ k, 0 ≤ k < s → Z.testbit y k = false.
Proof.
  intros Hs E k Hk. assert (Z.testbit (Z.land y (Z.ones s)) k = false) as H by (by rewrite E, Z.testbit_0_l).
  rewrite Z.land_spec, Z.testbit_ones_nonneg in H by lia.
  by rewrite (proj2 (Z.ltb_lt k s)), andb_true_r in H by lia.
Qed.

Lemma land_low_nonzero y s : 0 ≤ s → Z.land y (Z.ones s) ≠ 0 → ∃ k, 0 ≤ k < s ∧ Z.testbit y k = true.
Proof.
  intros Hs H0. set (v := Z.land y (Z.ones s)) in *.
  assert (Hv : 0 < v). { assert (0 ≤ v); [|lia]. unfold v. rewrite Z.land_ones by done. by apply Z.mod_pos_bound, pow2_pos. }
  pose proof (Z.bit_log2 v Hv) as Hb. unfold v in Hb at 1.
  rewrite Z.land_spec, Z.testbit_ones_nonneg, andb_true_iff, Z.ltb_lt in Hb by (done || apply Z.log2_nonneg).
  exists (Z.log2 v). pose proof (Z.log2_nonneg v). split; [lia|apply Hb].
Qed.

Lemma tz_step_inv x s mask p : 0 < s → mask = Z.ones s → tz_inv x (2 * s) p → tz_inv x s (tz_step mask s p).
Proof.
  intros Hs -> (Hn & Hn2 & Ey & Hlow & (k & Hk & Hb)). destruct p as [n y]. cbn [fst snd] in *.
  unfold tz_step. destruct (Z.eqb_spec (Z.land y (Z.ones s)) 0) as [E|E]; unfold tz_inv; cbn [fst snd].
  - pose proof (land_low_zero y s ltac:(lia) E) as Hz. split_and!; [lia|lia| | |].
    + by rewrite Ey, Z.shiftr_shiftr by lia.
    + intros j Hj. destruct (decide (j < n)); [apply Hlow; lia|].
      specialize (Hz (j - n) ltac:(lia)). rewrite Ey, Z.shiftr_spec in Hz by lia.
      by replace (j - n + n) with j in Hz by lia.
    + destruct (decide (k < s)); [rewrite Hz in Hb by lia; done|].
      exists (k - s). split; [lia|]. rewrite Z.shiftr_spec by lia. by replace (k - s + s) with k by lia.
  - split_and!; [done|lia|done|done|]. apply land_low_nonzero; [lia|done].
Qed.

Lemma trailingZeros_spec x :
  is_word x → x ≠ 0 →
  0 ≤ trailingZeros x < 64 ∧ Z.testbit x (trailingZeros x) = true ∧
  ∀ k, 0 ≤ k < trailingZeros x → Z.testbit x k = false.
Proof.
  intros Hx H0. unfold trailingZeros. rewrite (proj2 (Z.eqb_neq x 0) H0).
  assert (H : tz_inv x 64 (0, x)).
  { unfold tz_inv. cbn [fst snd]. split_and!; [lia|lia|by rewrite Z.shiftr_0_r|intros; lia|].
    assert (0 < x) by (destruct Hx; lia). exists (Z.log2 x). split; [|by apply Z.bit_log2].
    split; [apply Z.log2_nonneg|]. apply Z.log2_lt_pow2; [done|apply Hx]. }
  apply (tz_step_inv x 32 0xFFFFFFFF) in H; [|done|done].
  apply (tz_step_inv x 16 0xFFFF) in H; [|done|done].
  apply (tz_step_inv x 8 0xFF) in H; [|done|done].
  apply (tz_step_inv x 4 0xF) in H; [|done|done].
  apply (tz_step_inv x 2 0x3) in H; [|done|done].
  destruct (tz_step _ _ _) as [n y]. destruct H as (Hn & Hn2 & Ey & Hlow & (k & Hk & Hb)). cbn [fst snd] in *.
  assert (Hyx : ∀ j, 0 ≤ j → Z.testbit y j = Z.testbit x (n + j)).
  { intros j Hj. rewrite Ey, Z.shiftr_spec by done. f_equal. lia. }
  change (Z.land y 1) with (Z.land y (Z.ones 1)). destruct (Z.eqb_spec (Z.land y (Z.ones 1)) 0) as [E|E].
  - pose proof (land_low_zero y 1 ltac:(lia) E 0 ltac:(lia)) as Hz.
    assert (k = 1) as -> by (destruct (decide (k = 0)) as [->|]; [congruence|lia]).
    split_and!; [lia|lia|by rewrite <- Hyx by lia|]. intros j Hj.
    destruct (decide (j = n)) as [->|]; [|apply Hlow; lia]. rewrite Hyx in Hz by lia.
    by rewrite Z.add_0_r in Hz.
  - apply land_low_nonzero in E as (j & Hj & Hbj); [|lia]. assert (j = 0) as -> by lia.
    rewrite Hyx, Z.add_0_r in Hbj by lia. split_and!; [lia|lia|done|done].
Qed.

(** [x] has between [64 - n - W] and [64 - n] bits, and [y] is [x] shifted by [n]. *)
Definition lz_inv (x W : Z) (ny : Z * Z) : Prop :=
  0 ≤ ny.1 ∧ ny.1 + W ≤ 64 ∧ ny.2 = x * 2 ^ ny.1 ∧ 2 ^ (64 - ny.1 - W) ≤ x < 2 ^ (64 - ny.1).

Lemma lz_step_inv x s bound p :
  0 < s → bound = 2 ^ (64 - s) - 1 → lz_inv x (2 * s) p → lz_inv x s (lz_step bound s p).
Proof.
  intros Hs -> (Hn & Hn2 & Ey & Hlo & Hhi). destruct p as [n y]. cbn [fst snd] in *.
  assert (Hp : ∀ a b, 0 ≤ a → 0 ≤ b → 2 ^ (a + b) = 2 ^ a * 2 ^ b) by (intros; by apply Z.pow_add_r).
  assert (Hcmp : y ≤ 2 ^ (64 - s) - 1 ↔ x < 2 ^ (64 - n - s)).
  { rewrite Ey. replace (64 - s) with (64 - n - s + n) by lia. rewrite Hp by lia.
    pose proof (pow2_pos n Hn). nia. }
  unfold lz_step. destruct (Z.leb_spec y (2 ^ (64 - s) - 1)) as [E|E]; unfold lz_inv; cbn [fst snd].
  - apply Hcmp in E. split_and!; [lia|lia| | |].
    + unfold shl64. rewrite Z.shiftl_mul_pow2, Ey, <- Z.mul_assoc, <- Hp by lia. apply uwrap_id.
      assert (0 ≤ x) by (pose proof (pow2_pos (64 - n - 2 * s) ltac:(lia)); lia).
      split; [apply Z.mul_nonneg_nonneg; [done|apply Z.pow_nonneg; lia]|].
      apply Z.lt_le_trans with (2 ^ (64 - n - s) * 2 ^ (n + s)).
      * apply Z.mul_lt_mono_pos_r; [apply pow2_pos; lia|done].
      * rewrite <- Hp by lia. by replace (64 - n - s + (n + s)) with 64 by lia.
    + by replace (64 - (n + s) - s) with (64 - n - 2 * s) by lia.
    + by replace (64 - (n + s)) with (64 - n - s) by lia.
  - split_and!; [lia|lia|done| |done]. destruct (Z.le_gt_cases (2 ^ (64 - n - s)) x); [done|].
    assert (y ≤ 2 ^ (64 - s) - 1) by (by apply Hcmp). lia.
Qed.

Lemma leadingZeros_spec x : is_word x → x ≠ 0 → leadingZeros x = 63 - Z.log2 x.
Proof.
  intros Hx H0. unfold leadingZeros. rewrite (proj2 (Z.eqb_neq x 0) H0).
  assert (H : lz_inv x 64 (0, x)).
  { unfold lz_inv. cbn [fst snd]. destruct Hx. split_and!; try lia. }
  apply (lz_step_inv x 32 0x00000000FFFFFFFF) in H; [|done|done].
  apply (lz_step_inv x 16 0x0000FFFFFFFFFFFF) in H; [|done|done].
  apply (lz_step_inv x 8 0x00FFFFFFFFFFFFFF) in H; [|done|done].
  apply (lz_step_inv x 4 0x0FFFFFFFFFFFFFFF) in H; [|done|done].
  apply (lz_step_inv x 2 0x3FFFFFFFFFFFFFFF) in H; [|done|done].
  apply (lz_step_inv x 1 0x7FFFFFFFFFFFFFFF) in H; [|done|done].
  destruct (lz_step 0x3FFFFFFFFFFFFFFF _ _) as [n y] eqn:E.
  assert (Hr : ∀ p, lz_inv x 1 p → p.1 = 63 - Z.log2 x).
  { intros [m z] (Hm & Hm2 & _ & Hlog). cbn [fst] in *. assert (Z.log2 x = 63 - m); [|lia].
    apply Z.log2_unique; [lia|]. replace (63 - m) with (64 - m - 1) by lia.
    replace (Z.succ (64 - m - 1)) with (64 - m) by lia. done. }
  rewrite <- (Hr _ H). unfold lz_step. by destruct (y <=? 0x7FFFFFFFFFFFFFFF).
Qed.

(** * Counting *)

(** [count P a b]: how many positions [i] with [a ≤ i < b] have [P]. *)
Definition count (P : Z → bool) (a b : Z) : Z :=
  Z.of_nat (length (filter (fun i => P i = true) (seqZ a (b - a)))).

Lemma count_split P a b c : a ≤ b ≤ c → count P a c = count P a b + count P b c.
Proof.
  intros H. unfold count. replace (c - a) with ((b - a) + (c - b)) by lia.
  rewrite seqZ_app, filter_app, length_app by lia. replace (a + (b - a)) with b by lia. lia.
Qed.

Lemma count_ext P Q a b : (∀ i, a ≤ i < b → P i = Q i) → count P a b = count Q a b.
Proof.
  intros H. unfold count. f_equal.
  assert (Hl : ∀ i, i ∈ seqZ a (b - a) → P i = Q i) by (intros i Hi%elem_of_seqZ; apply H; lia).
  induction (seqZ a (b - a)) as [|i l IH]; [done|]. rewrite !filter_cons, (Hl i) by left.
  case_decide; cbn; rewrite IH; try done; intros; apply Hl; by right.
Qed.

Lemma count_nil P a b : b ≤ a → count P a b = 0.
Proof. intros H. unfold count. by rewrite seqZ_nil by lia. Qed.

Lemma count_none P a b : (∀ i, a ≤ i < b → P i = false) → count P a b = 0.
Proof.
  intros H. rewrite (count_ext P (fun _ => false)) by done. unfold count.
  induction (seqZ a (b - a)) as [|i l IH]; [done|]. by rewrite filter_cons_False.
Qed.

Lemma count_cons P a b : a < b → count P a b = Z.b2z (P a) + count P (a + 1) b.
Proof.
  intros H. rewrite (count_split P a (a + 1) b) by lia. f_equal. unfold count.
  replace (a + 1 - a) with 1 by lia. rewrite seqZ_cons by lia. rewrite seqZ_nil by lia.
  rewrite filter_cons. destruct (P a); by case_decide.
Qed.

Lemma count_shift P k a b : count (fun i => P (k + i)) a b = count P (k + a) (k + b).
Proof.
  unfold count. replace (k + b - (k + a)) with (b - a) by lia.
  rewrite <- fmap_add_seqZ. f_equal. induction (seqZ a (b - a)) as [|i l IH]; [done|].
  cbn [fmap list_fmap]. rewrite !filter_cons. repeat case_decide; cbn; by rewrite ?IH.
Qed.

(** ** The population count

    The word is cut into digits of 1, then 2, then 4 bits; each step adds the
    neighbours, and the multiplication adds the bytes. *)

Fixpoint val (k : Z) (ds : list Z) : Z :=
  match ds with [] => 0 | d :: ds => d + 2 ^ k * val k ds end.

Fixpoint evens (ds : list Z) : list Z :=
  match ds with [] => [] | d :: [] => [d] | d :: _ :: ds => d :: evens ds end.

Definition odds (ds : list Z) : list Z := evens (tail ds).

(** Neighbours added *)
Fixpoint add_pairs (ds : list Z) : list Z :=
  match ds with [] => [] | d :: [] => [d] | d :: d' :: ds => (d + d') :: add_pairs ds end.

Definition sum_list (ds : list Z) : Z := foldr Z.add 0 ds.

Definition digits (b : Z) (n : nat) (ds : list Z) : Prop := length ds = n ∧ Forall (fun d => 0 ≤ d ≤ b) ds.

(** Induction over pairs of digits. *)
Lemma pairs_ind (P : list Z → Prop) :
  P [] → (∀ a b ds, P ds → P (a :: b :: ds)) → ∀ n ds, length ds = (2 * n)%nat → P ds.
Proof.
  intros H0 H2. induction n as [|n IH]; intros ds Hl.
  - by apply length_zero_iff_nil in Hl as ->.
  - destruct ds as [|a [|b ds]]; [cbn in Hl; lia..|]. apply H2, IH. cbn in Hl. lia.
Qed.

Lemma evens_cons d ds : evens (d :: ds) = d :: evens (tail ds).
Proof. by destruct ds. Qed.

Lemma val_pairs k ds n :
  0 ≤ k → length ds = (2 * n)%nat → val k ds = val (2 * k) (evens ds) + 2 ^ k * val (2 * k) (evens (tail ds)).
Proof.
  intros Hk. revert n ds. apply (pairs_ind (fun ds => val k ds = _)); [cbn; lia|].
  intros a b ds IH. cbn [tail]. rewrite !evens_cons. cbn [val tail]. rewrite IH.
  assert (Hp : 2 ^ (2 * k) = 2 ^ k * 2 ^ k) by (rewrite <- Z.pow_add_r by lia; f_equal; lia).
  rewrite Hp. ring.
Qed.

Lemma val_add_pairs k ds n :
  length ds = (2 * n)%nat → val k (add_pairs ds) = val k (evens ds) + val k (evens (tail ds)).
Proof.
  revert n ds. apply (pairs_ind (fun ds => val k (add_pairs ds) = _)); [done|].
  intros a b ds IH. cbn [tail]. rewrite !evens_cons. cbn [add_pairs val tail]. rewrite IH. ring.
Qed.

Lemma sum_add_pairs ds n : length ds = (2 * n)%nat → sum_list (add_pairs ds) = sum_list ds.
Proof.
  revert n ds. apply (pairs_ind (fun ds => sum_list (add_pairs ds) = _)); [done|].
  intros a b ds IH. unfold sum_list in *. cbn. rewrite IH. lia.
Qed.

Lemma digits_add_pairs b n ds : digits b (2 * n) ds → digits (2 * b) n (add_pairs ds).
Proof.
  unfold digits. revert ds. induction n as [|n IH]; intros ds [Hl Hd].
  - by apply length_zero_iff_nil in Hl as ->.
  - destruct ds as [|x [|y ds]]; [cbn in Hl; lia..|].
    apply Forall_cons_1 in Hd as [Hx Hd]. apply Forall_cons_1 in Hd as [Hy Hd].
    destruct (IH ds) as [Hl' Hd']; [split; [cbn in Hl; lia|done]|].
    split; cbn [add_pairs length]; [by rewrite Hl'|]. constructor; [lia|done].
Qed.

Lemma val_range k ds : 0 ≤ k → Forall (fun d => 0 ≤ d < 2 ^ k) ds → 0 ≤ val k ds < 2 ^ (k * Z.of_nat (length ds)).
Proof.
  intros Hk. induction 1 as [|d ds Hd _ IH]; [cbn; rewrite Z.mul_0_r; done|]. cbn [val length].
  rewrite Nat2Z.inj_succ, Z.mul_succ_r, Z.add_comm, Z.pow_add_r by lia. 
  set (B := 2 ^ k) in *. set (N := 2 ^ (k * Z.of_nat (length ds))) in *. nia.
Qed.

Lemma land_split m a c X Y :
  0 ≤ m → 0 ≤ a < 2 ^ m → 0 ≤ c < 2 ^ m →
  Z.land (a + 2 ^ m * X) (c + 2 ^ m * Y) = Z.land a c + 2 ^ m * Z.land X Y.
Proof.
  intros Hm Ha Hc. pose proof (pow2_pos m Hm).
  assert (Hbit : ∀ a X k, 0 ≤ a < 2 ^ m → 0 ≤ k →
    Z.testbit (a + 2 ^ m * X) k = if k <? m then Z.testbit a k else Z.testbit X (k - m)).
  { intros a0 X0 k Ha0 Hk. destruct (Z.ltb_spec k m).
    - rewrite <- (Z.mod_pow2_bits_low (a0 + _) m) by done.
      rewrite Z.mul_comm, Z_mod_plus_full, Z.mod_small by done. done.
    - replace k with (k - m + m) at 1 by lia. rewrite <- Z.div_pow2_bits by lia.
      rewrite Z.mul_comm, Z_div_plus_full, Z.div_small by lia. done. }
  assert (Hl : 0 ≤ Z.land a c < 2 ^ m) by (apply (land_uint m); [done|lia|done]).
  apply Z.bits_inj'. intros k Hk. rewrite Z.land_spec, !Hbit by done.
  destruct (k <? m); by rewrite Z.land_spec.
Qed.

(** Masking every other digit *)
Lemma val_mask k ds n :
  0 < k → length ds = (2 * n)%nat → Forall (fun d => 0 ≤ d < 2 ^ k) ds →
  Z.land (val k ds) (val (2 * k) (repeat (2 ^ k - 1) n)) = val (2 * k) (evens ds).
Proof.
  intros Hk. revert ds. induction n as [|n IH]; intros ds Hl Hd.
  { by apply length_zero_iff_nil in Hl as ->. }
  destruct ds as [|a [|b ds]]; [cbn in Hl; lia..|].
  apply Forall_cons_1 in Hd as [Ha Hd]. apply Forall_cons_1 in Hd as [Hb Hd].
  rewrite evens_cons. cbn [val repeat tail]. rewrite <- (IH ds) by (done || cbn in Hl; lia).
  set (M := val (2 * k) (repeat (2 ^ k - 1) n)).
  assert (Hp : 2 ^ (2 * k) = 2 ^ k * 2 ^ k) by (rewrite <- Z.pow_add_r by lia; f_equal; lia).
  assert (Hpos : 0 < 2 ^ k) by (apply pow2_pos; lia).
  replace (a + 2 ^ k * (b + 2 ^ k * val k ds)) with ((a + 2 ^ k * b) + 2 ^ (2 * k) * val k ds) by (rewrite Hp; ring).
  rewrite land_split by (rewrite ?Hp; nia). f_equal.
  replace (2 ^ k - 1) with (Z.ones k) by (rewrite Z.ones_equiv; lia).
  rewrite Z.land_ones by lia. rewrite Z.mul_comm, Z_mod_plus_full. by apply Z.mod_small.
Qed.

Lemma val_snoc_zero k ds : val k (ds ++ [0]) = val k ds.
Proof. induction ds as [|d ds IH]; cbn [app val]; [lia|]. by rewrite IH. Qed.

Lemma val_shift k ds : 0 ≤ k → Forall (fun d => 0 ≤ d < 2 ^ k) ds → Z.shiftr (val k ds) k = val k (tail ds).
Proof.
  intros Hk Hd. destruct ds as [|d ds]; [apply Z.shiftr_0_l|]. apply Forall_cons_1 in Hd as [Hd _].
  pose proof (pow2_pos k Hk). cbn [val tail]. rewrite Z.shiftr_div_pow2 by done.
  rewrite Z.mul_comm, Z_div_plus_full, Z.div_small by lia. done.
Qed.

Lemma evens_snoc ds n d : length ds = (2 * n + 1)%nat → evens (ds ++ [d]) = evens ds.
Proof.
  revert ds. induction n as [|n IH]; intros ds Hl.
  - destruct ds as [|a [|]]; cbn in Hl; try lia. done.
  - destruct ds as [|a [|b ds]]; [cbn in Hl; lia..|]. 
    cbn [app]. rewrite !evens_cons. cbn [tail]. rewrite IH by (cbn in Hl; lia). done.
Qed.

Lemma odds_mask k ds n :
  0 < k → length ds = (2 * n)%nat → Forall (fun d => 0 ≤ d < 2 ^ k) ds →
  Z.land (Z.shiftr (val k ds) k) (val (2 * k) (repeat (2 ^ k - 1) n)) = val (2 * k) (evens (tail ds)).
Proof.
  intros Hk Hl Hd. rewrite val_shift by (done || lia).
  destruct ds as [|d ds]; [by apply Z.land_0_l|]. cbn [tail]. destruct n as [|n]; [cbn in Hl; lia|].
  apply Forall_cons_1 in Hd as [_ Hd]. pose proof (pow2_pos k ltac:(lia)).
  rewrite <- (val_snoc_zero k ds), val_mask.
  - by rewrite (evens_snoc ds n) by (cbn in Hl; lia).
  - done.
  - rewrite length_app. cbn in *. lia.
  - apply Forall_app. split; [done|]. constructor; [lia|done].
Qed.

Lemma digits_lt b n ds k : digits b n ds → b < 2 ^ k → Forall (fun d => 0 ≤ d < 2 ^ k) ds.
Proof. intros [_ Hd] Hb. eapply Forall_impl; [exact Hd|]. cbn. lia. Qed.

(** The lowest bits of a word *)
Fixpoint bit_digits (n : nat) (x : Z) : list Z :=
  match n with O => [] | S n => Z.b2z (Z.testbit x 0) :: bit_digits n (Z.shiftr x 1) end.

Lemma bit_digits_digits n : ∀ x, digits 1 n (bit_digits n x).
Proof.
  induction n as [|n IH]; intros x; [by split|]. destruct (IH (Z.shiftr x 1)) as [Hl Hd].
  split; cbn [bit_digits length]; [by rewrite Hl|]. constructor; [|done]. by destruct (Z.testbit x 0).
Qed.

Lemma val_bit_digits n : ∀ x, val 1 (bit_digits n x) = x mod 2 ^ Z.of_nat n.
Proof.
  induction n as [|n IH]; intros x; [by rewrite Z.mod_1_r|]. cbn [bit_digits val].
  rewrite IH, Nat2Z.inj_succ, Z.pow_succ_r, Z.bit0_odd, Z.shiftr_div_pow2 by lia.
  change (2 ^ 1) with 2. pose proof (pow2_pos (Z.of_nat n) ltac:(lia)).
  rewrite Z.rem_mul_r by lia. rewrite Zmod_odd. by destruct (Z.odd x).
Qed.

Lemma sum_bit_digits n : ∀ x, sum_list (bit_digits n x) = count (Z.testbit x) 0 (Z.of_nat n).
Proof.
  induction n as [|n IH]; intros x; [done|]. unfold sum_list in *. cbn [bit_digits foldr]. rewrite IH.
  rewrite (count_cons (Z.testbit x)) by lia. f_equal.
  rewrite (count_ext _ (fun i => Z.testbit x (1 + i))).
  - rewrite count_shift. f_equal. lia.
  - intros i Hi. rewrite Z.shiftr_spec by lia. f_equal. lia.
Qed.

Lemma mul_h01 rs :
  digits 8 8 rs → Z.shiftr (to_uint64 (val 8 rs * h01)) 56 = sum_list rs.
Proof.
  intros [Hl Hd].
  destruct rs as [|r0 [|r1 [|r2 [|r3 [|r4 [|r5 [|r6 [|r7 [|]]]]]]]]]; try discriminate Hl. clear Hl.
  rewrite !Forall_cons in Hd. destruct Hd as (H0 & H1 & H2 & H3 & H4 & H5 & H6 & H7 & _).
  unfold sum_list, h01. cbn [foldr val]. change (2 ^ 8) with 256.
  set (S := r0 + (r1 + (r2 + (r3 + (r4 + (r5 + (r6 + (r7 + 0)))))))).
  (** the bytes below the top one, and what overflows the word *)
  set (L := r0 + 256 * (r0 + r1) + 256 ^ 2 * (r0 + r1 + r2) + 256 ^ 3 * (r0 + r1 + r2 + r3)
    + 256 ^ 4 * (r0 + r1 + r2 + r3 + r4) + 256 ^ 5 * (r0 + r1 + r2 + r3 + r4 + r5)
    + 256 ^ 6 * (r0 + r1 + r2 + r3 + r4 + r5 + r6)).
  set (R := r1 + r2 + r3 + r4 + r5 + r6 + r7 + 256 * (r2 + r3 + r4 + r5 + r6 + r7)
    + 256 ^ 2 * (r3 + r4 + r5 + r6 + r7) + 256 ^ 3 * (r4 + r5 + r6 + r7) + 256 ^ 4 * (r5 + r6 + r7)
    + 256 ^ 5 * (r6 + r7) + 256 ^ 6 * r7).
  assert (HL : 0 ≤ L < 2 ^ 56) by (unfold L; lia).
  assert (HS : 0 ≤ S < 256) by (unfold S; lia).
  rewrite Z.shiftr_div_pow2 by lia. symmetry. apply Z.div_unique with L; [lia|].
  unfold uwrap. symmetry. apply Z.mod_unique with R; [lia|]. unfold S, L, R. ring.
Qed.

Lemma popcount_spec x : is_word x → popcount x = count (Z.testbit x) 0 64.
Proof.
  intros Hx. change 64 with (Z.of_nat 64). rewrite <- sum_bit_digits.
  pose proof (bit_digits_digits 64 x) as D1. set (b := bit_digits 64 x) in *.
  assert (Ex : x = val 1 b).
  { unfold b. rewrite val_bit_digits. symmetry. by apply Z.mod_small. }
  unfold popcount. rewrite Ex. clearbody b. clear Hx Ex x.
  pose proof (digits_add_pairs 1 32 _ D1) as D2. set (p := add_pairs b) in *.
  pose proof (digits_add_pairs 2 16 _ D2) as D4. set (q := add_pairs p) in *.
  pose proof (digits_add_pairs 4 8 _ D4) as D8.
  assert (Hword : ∀ k n ds c, 0 ≤ k → digits c n ds → c < 2 ^ k → k * Z.of_nat n = 64 → to_uint64 (val k ds) = val k ds).
  { intros k n ds c Hk D Hc Hn. apply uwrap_id.
    pose proof (val_range k ds Hk (digits_lt _ _ _ _ D Hc)) as Hr. destruct D as [Hl _].
    by rewrite Hl, Hn in Hr. }
  change m1 with (val (2 * 1) (repeat (2 ^ 1 - 1) 32)).
  rewrite (odds_mask 1 b 32) by (lia || apply D1 || by apply (digits_lt 1 64)).
  rewrite (val_pairs 1 b 32) by (lia || apply D1).
  replace (_ + 2 ^ 1 * _ - _) with (val (2 * 1) p)
    by (unfold p; rewrite (val_add_pairs _ b 32) by apply D1; change (2 ^ 1) with 2; lia).
  rewrite (Hword (2 * 1) 32%nat p 2) by (done || lia). change (2 * 1) with 2.
  change m2 with (val (2 * 2) (repeat (2 ^ 2 - 1) 16)).
  rewrite (odds_mask 2 p 16) by (lia || apply D2 || by apply (digits_lt 2 32)).
  rewrite (val_mask 2 p 16) by (lia || apply D2 || by apply (digits_lt 2 32)).
  rewrite <- (val_add_pairs (2 * 2) p 16) by apply D2. fold q.
  rewrite (Hword (2 * 2) 16%nat q 4) by (done || lia). change (2 * 2) with 4.
  assert (Hadd : val 4 q + Z.shiftr (val 4 q) 4 = val 4 (zip_with Z.add q (tail q ++ [0])) ∧
    digits 8 16 (zip_with Z.add q (tail q ++ [0])) ∧
    evens (zip_with Z.add q (tail q ++ [0])) = add_pairs q).
  { rewrite val_shift by (lia || by apply (digits_lt 4 16)). destruct D4 as [Hl Hd]. clearbody q.
    do 16 (destruct q as [|? q]; [discriminate Hl|]). destruct q; [|discriminate Hl]. clear - Hd.
    rewrite !Forall_cons in Hd. cbn [tail app zip_with val evens add_pairs]. split_and!.
    - ring.
    - split; [done|]. repeat (constructor; [lia|]). constructor.
    - done. }
  destruct Hadd as (-> & D8' & Ev). rewrite (Hword 4 16%nat _ 8) by (done || lia).
  change m4 with (val (2 * 4) (repeat (2 ^ 4 - 1) 8)).
  rewrite (val_mask 4 _ 8) by (lia || apply D8' || by apply (digits_lt 8 16)).
  rewrite Ev. change (2 * 4) with 8. rewrite mul_h01 by done.
  unfold q. rewrite (sum_add_pairs _ 8) by apply D4. rewrite (sum_add_pairs _ 16) by apply D2.
  apply (sum_add_pairs _ 32), D1.
Qed.

(** * Words of sets *)

Lemma word_at ws i : Forall is_word ws → is_word (nthZ 0 ws i).
Proof.
  intros H. unfold nthZ. destruct (ws !! Z.to_nat i) as [w|] eqn:E; [|done].
  rewrite Forall_forall in H. apply H. by eapply list_elem_of_lookup_2.
Qed.

(** The position [i] of a set. *)
Definition bit (ws : list Z) (i : Z) : bool := Z.testbit (nthZ 0 ws (i / 64)) (i mod 64).

Lemma bit_insert ws w x i :
  0 ≤ w < Z.of_nat (length ws) → 0 ≤ i →
  bit (<[Z.to_nat w := x]> ws) i = if decide (i / 64 = w) then Z.testbit x (i mod 64) else bit ws i.
Proof.
  intros Hw Hi. unfold bit. rewrite nthZ_insert by (done || idx).
  repeat case_decide; congruence.
Qed.

Definition in_range (i n : Z) : bool := (0 <=? i) && (i <? n).

Lemma in_range_spec i n : in_range i n = true ↔ 0 ≤ i < n.
Proof. unfold in_range. rewrite andb_true_iff, Z.leb_le, Z.ltb_lt. done. Qed.

Lemma land_bit_zero w n : 0 ≤ n < 64 → is_word w → negb (Z.land w (shl64 1 n) =? 0) = Z.testbit w n.
Proof.
  intros Hn Hw. destruct (Z.testbit w n) eqn:E.
  - apply negb_true_iff, Z.eqb_neq. intros H0.
    assert (Z.testbit (Z.land w (shl64 1 n)) n = true) as Ht
      by (rewrite Z.land_spec, E, testbit_bit, Z.eqb_refl by done; done).
    by rewrite H0, Z.testbit_0_l in Ht.
  - apply negb_false_iff, Z.eqb_eq, word_zero.
    { apply land_uint; auto with words; try lia. apply Hw. }
    intros k Hk. rewrite Z.land_spec, testbit_bit by done.
    destruct (Z.eqb_spec k n) as [->|]; [by rewrite E|apply andb_false_r].
Qed.

(** [first_from P lo hi r]: [r] is the first position of [P] in the range, or -1. *)
Definition first_from (P : Z → bool) (lo hi r : Z) : Prop :=
  (lo ≤ r < hi ∧ P r = true ∧ ∀ i, lo ≤ i < r → P i = false) ∨
  (r = -1 ∧ ∀ i, lo ≤ i < hi → P i = false).

Definition last_upto (P : Z → bool) (hi r : Z) : Prop :=
  (0 ≤ r ≤ hi ∧ P r = true ∧ ∀ i, r < i ≤ hi → P i = false) ∨
  (r = -1 ∧ ∀ i, 0 ≤ i ≤ hi → P i = false).

(** * [math/bits] *)

Definition OnesCount64 (x : Z) : Z := count (Z.testbit x) 0 64.

Fixpoint pos_zeros (p : positive) : Z :=
  match p with xO p => pos_zeros p + 1 | _ => 0 end.

Definition TrailingZeros64 (x : Z) : Z := match x with Z.pos p => pos_zeros p | _ => 64 end.

Definition LeadingZeros64 (x : Z) : Z := if x =? 0 then 64 else 63 - Z.log2 x.

Lemma TrailingZeros64_spec x :
  is_word x → x ≠ 0 →
  0 ≤ TrailingZeros64 x < 64 ∧ Z.testbit x (TrailingZeros64 x) = true ∧
  ∀ k, 0 ≤ k < TrailingZeros64 x → Z.testbit x k = false.
Proof.
  intros Hx H0. destruct x as [|p|p]; [done| |destruct Hx; lia]. cbn [TrailingZeros64].
  assert (H : 0 ≤ pos_zeros p ∧ Z.testbit (Z.pos p) (pos_zeros p) = true ∧
    ∀ k, 0 ≤ k < pos_zeros p → Z.testbit (Z.pos p) k = false).
  { clear Hx H0. induction p as [p _|p (IH0 & IH1 & IH2)|]; cbn [pos_zeros]; [split_and!; [done..|lia]| |split_and!; [done..|lia]].
    change (Z.pos p~0) with (2 * Z.pos p). split_and!; [lia| |].
    - rewrite Z.add_1_r, Z.testbit_even_succ by done. done.
    - intros k Hk. destruct (Z.eq_dec k 0) as [->|]; [apply Z.testbit_even_0|].
      replace k with (Z.succ (k - 1)) by lia. rewrite Z.testbit_even_succ by lia. apply IH2. lia. }
  destruct H as (H1 & H2 & H3). split_and!; [done| |done..].
  destruct (Z.lt_ge_cases (pos_zeros p) 64); [done|].
  by rewrite (in_uint_testbit_high 64) in H2.
Qed.

Lemma top_bit x :
  is_word x → x ≠ 0 →
  0 ≤ 63 - LeadingZeros64 x < 64 ∧ Z.testbit x (63 - LeadingZeros64 x) = true ∧
  ∀ k, 63 - LeadingZeros64 x < k → Z.testbit x k = false.
Proof.
  intros Hx H0. unfold LeadingZeros64. rewrite (proj2 (Z.eqb_neq x 0) H0).
  replace (63 - (63 - Z.log2 x)) with (Z.log2 x) by lia. assert (0 < x) by (destruct Hx; lia). split_and!.
  - apply Z.log2_nonneg.
  - apply Z.log2_lt_pow2; [done|apply Hx].
  - by apply Z.bit_log2.
  - intros k Hk. apply Z.bits_above_log2; lia.
Qed.
