(* ===== verification/PriorityQueue.v ===== *)
(** The bounded binary heap of [util/priority_queue.go]: its invariant, that
    popping sorts, and that inserting with overflow keeps the largest elements. *)

From stdpp Require Import base tactics numbers list strings sorting.
From Stdlib Require Import ZArith Lia.
From S2P Require Import Prelude WordBits.

Local Open Scope Z_scope.

(** [size] is the length of [heap] throughout; both are kept, as in the code. *)
Record PriorityQueue (T : Type) := {
  heap : list T;
  size : Z;
  maxSize : Z
}.
Arguments heap {T}.
Arguments size {T}.
Arguments maxSize {T}.

Section queue.
Context {T : Type} (zero : T) (lessFunc : T → T → bool).

Definition set_heap (h : list T) (n : Z) (pq : PriorityQueue T) : PriorityQueue T :=
  {| heap := h; size := n; maxSize := maxSize pq |}.

Definition NewPriorityQueue (maxSize : Z) : M (PriorityQueue T) :=
  if maxSize <? 0 then Err (Errorf "maxSize must be non-negative")
  else mret {| heap := []; size := 0; maxSize := maxSize |}.

(** [heap[i], heap[j] = heap[j], heap[i]] *)
Definition swap (h : list T) (i j : Z) : M (list T) :=
  a ← aget h j; b ← aget h i; h ← aset h i a; aset h j b.

Fixpoint up_heap (fuel : nat) (h : list T) (index : Z) : M (list T) :=
  match fuel with
  | O => NoFuel
  | S fuel =>
      if index =? 0 then mret h else
      let parent := Z.quot (index - 1) 2 in
      a ← aget h index; b ← aget h parent;
      if lessFunc a b then h ← swap h index parent; up_heap fuel h parent else mret h
  end.

(** The index goes down. *)
Definition upHeap (h : list T) (index : Z) : M (list T) := up_heap (S (Z.to_nat index)) h index.

(** [if child < size && less(heap[child], heap[smallest]) { smallest = child }] *)
Definition smaller (h : list T) (n child smallest : Z) : M Z :=
  if child <? n then a ← aget h child; b ← aget h smallest;
                     mret (if lessFunc a b then child else smallest)
  else mret smallest.

Fixpoint down_heap (fuel : nat) (h : list T) (n index : Z) : M (list T) :=
  match fuel with
  | O => NoFuel
  | S fuel =>
      let leftChild := 2 * index + 1 in
      let rightChild := 2 * index + 2 in
      smallest ← smaller h n leftChild index;
      smallest ← smaller h n rightChild smallest;
      if smallest =? index then mret h
      else h ← swap h index smallest; down_heap fuel h n smallest
  end.

(** The index goes up, below [n]. *)
Definition downHeap (h : list T) (n index : Z) : M (list T) := down_heap (S (Z.to_nat n)) h n index.

Definition Top (pq : PriorityQueue T) : M T :=
  if size pq =? 0 then mret zero else aget (heap pq) 0.

(** [heap[0] = element; downHeap(0)] *)
Definition replace_top (element : T) (pq : PriorityQueue T) : M (PriorityQueue T) :=
  h ← aset (heap pq) 0 element;
  h ← downHeap h (size pq) 0;
  mret (set_heap h (size pq) pq).

Definition Add (element : T) (pq : PriorityQueue T) : M (bool * PriorityQueue T) :=
  if size pq <? maxSize pq then
    let h := heap pq ++ [element] in
    let n := size pq + 1 in
    h ← upHeap h (n - 1);
    mret (true, set_heap h n pq)
  else
    top ← Top pq;
    if lessFunc element top then pq ← replace_top element pq; mret (true, pq)
    else mret (false, pq).

Definition Pop (pq : PriorityQueue T) : M (T * PriorityQueue T) :=
  if size pq =? 0 then mret (zero, pq) else
  result ← aget (heap pq) 0;
  let n := size pq - 1 in
  if 0 <? n then
    last ← aget (heap pq) n;
    h ← aset (heap pq) 0 last;
    let h := take (Z.to_nat n) h in
    h ← downHeap h n 0;
    mret (result, set_heap h n pq)
  else mret (result, set_heap [] n pq).

Definition UpdateTop (pq : PriorityQueue T) : M (PriorityQueue T) :=
  if 0 <? size pq then h ← downHeap (heap pq) (size pq) 0; mret (set_heap h (size pq) pq)
  else mret pq.

Definition UpdateTopWith (newTop : T) (pq : PriorityQueue T) : M (PriorityQueue T) :=
  if size pq =? 0 then mret pq else replace_top newTop pq.

Definition Clear (pq : PriorityQueue T) : PriorityQueue T := set_heap [] 0 pq.

Definition Get (index : Z) (pq : PriorityQueue T) : M T :=
  if (index <? 0) || (size pq <=? index) then Err (Errorf "index out of bounds")
  else aget (heap pq) index.

Definition PQSet (index : Z) (element : T) (pq : PriorityQueue T) : M (PriorityQueue T) :=
  if (index <? 0) || (size pq <=? index) then Err (Errorf "index out of bounds")
  else h ← aset (heap pq) index element; mret (set_heap h (size pq) pq).

Definition ToSlice (pq : PriorityQueue T) : list T := take (Z.to_nat (size pq)) (heap pq).

(** [for i := size/2 - 1; i >= 0; i-- { downHeap(i) }] *)
Definition build_heap (h : list T) (n : Z) : M (list T) :=
  let first := Z.quot n 2 - 1 in
  go_for (Z.to_nat (first + 1)) 0 (fun k h => downHeap h n (first - k)) h.

Definition AddAll (elements : list T) (pq : PriorityQueue T) : M (PriorityQueue T) :=
  if maxSize pq <? size pq + Z.of_nat (length elements) then Err (Errorf "cannot add")
  else
    let h := heap pq ++ elements in
    let n := size pq + Z.of_nat (length elements) in
    h ← build_heap h n;
    mret (set_heap h n pq).

Definition InsertWithOverflow (element : T) (pq : PriorityQueue T)
  : M (T * bool * PriorityQueue T) :=
  if size pq <? maxSize pq then '(_, pq) ← Add element pq; mret (zero, false, pq) else
  if negb (0 <? size pq) then mret (element, true, pq) else
  ret ← aget (heap pq) 0;
  if lessFunc ret element then pq ← replace_top element pq; mret (ret, true, pq)
  else mret (element, true, pq).

(** The first element [eq] holds of is replaced by the last one. *)
Definition Remove (eq : T → bool) (pq : PriorityQueue T) : M (bool * PriorityQueue T) :=
  match list_find (fun x => eq x = true) (take (Z.to_nat (size pq)) (heap pq)) with
  | None => mret (false, pq)
  | Some (i, _) =>
      let i := Z.of_nat i in
      last ← aget (heap pq) (size pq - 1);
      h ← aset (heap pq) i last;
      let h := take (Z.to_nat (size pq - 1)) h in
      let n := size pq - 1 in
      h ← (if i <? n then h ← upHeap h i; downHeap h n i else mret h);
      mret (true, set_heap h n pq)
  end.
End queue.

Example heap_run :
  (pq ← NewPriorityQueue (T:=Z) 4;
   pq ← AddAll Z.ltb [5; 3; 9; 1] pq;
   '(x, pq) ← Pop 0 Z.ltb pq;
   '(_, _, pq) ← InsertWithOverflow 0 Z.ltb 7 pq;
   '(o, _, pq) ← InsertWithOverflow 0 Z.ltb 4 pq;
   '(b, pq) ← Remove Z.ltb (Z.eqb 5) pq;
   mret (x, o, b, ToSlice pq)) = Ret (1, 3, true, [4; 7; 9]).
Proof. vm_compute. reflexivity. Qed.

(** * The heap order

    [lessFunc] is a strict weak order: asymmetric, and "not less" is transitive. *)

Class StrictWeakOrder {T} (lessFunc : T → T → bool) := {
  less_asym a b : lessFunc a b = true → lessFunc b a = false;
  not_less_trans a b c : lessFunc a b = false → lessFunc b c = false → lessFunc a c = false
}.

#[global] Instance Zltb_order : StrictWeakOrder Z.ltb.
Proof. split; intros *; rewrite ?Z.ltb_lt, ?Z.ltb_ge; lia. Qed.

Section heaps.
Context {T : Type} (zero : T) (less : T → T → bool) `{!StrictWeakOrder less}.

Lemma less_irrefl a : less a a = false.
Proof. destruct (less a a) eqn:E; [|done]. by rewrite (less_asym a a E) in E. Qed.

Abbreviation at_ := (nthZ zero).
Definition parent (i : Z) : Z := (i - 1) / 2.

Lemma at_aget (h : list T) i : 0 ≤ i < Z.of_nat (length h) → @aget goerr _ h i = Ret (at_ h i).
Proof. apply nthZ_aget. Qed.

Lemma at_elem (h : list T) i : 0 ≤ i < Z.of_nat (length h) → at_ h i ∈ h.
Proof. intros Hi. eapply list_elem_of_lookup_2. by apply nthZ_lookup. Qed.

Lemma elem_at (h : list T) x : x ∈ h → ∃ i, 0 ≤ i < Z.of_nat (length h) ∧ at_ h i = x.
Proof.
  intros [i Hi]%list_elem_of_lookup. exists (Z.of_nat i).
  unfold nthZ. rewrite Nat2Z.id, Hi. split; [|done]. apply lookup_lt_Some in Hi. lia.
Qed.

Lemma swap_spec (h : list T) i j :
  0 ≤ i < Z.of_nat (length h) → 0 ≤ j < Z.of_nat (length h) → i ≠ j →
  ∃ h', swap h i j = Ret h' ∧ h' ≡ₚ h ∧ length h' = length h ∧
    ∀ k, 0 ≤ k → at_ h' k = if decide (k = i) then at_ h j else if decide (k = j) then at_ h i else at_ h k.
Proof.
  intros Hi Hj Hij. unfold swap.
  rewrite (at_aget h j), go_bind_ret, (at_aget h i), go_bind_ret by done.
  rewrite aset_Ret, go_bind_ret, aset_Ret by (rewrite ?length_insert; lia).
  eexists. split; [done|]. rewrite !length_insert. split_and!; [|done|].
  - apply Permutation_inj. rewrite !length_insert. split; [done|].
    set (x := Z.to_nat i). set (y := Z.to_nat j).
    exists (fun k => if decide (k = x) then y else if decide (k = y) then x else k). split.
    + intros a b. repeat case_decide; congruence.
    + intros k. assert (x ≠ y) by lia. assert (x < length h ∧ y < length h)%nat as [? ?] by lia.
      destruct (decide (k = y)) as [->|Hky]; [|destruct (decide (k = x)) as [->|Hkx]].
      * rewrite list_lookup_insert_eq by (rewrite length_insert; done). repeat case_decide; try done.
        symmetry. by apply nthZ_lookup.
      * rewrite list_lookup_insert_ne, list_lookup_insert_eq by done. repeat case_decide; try done.
        symmetry. by apply nthZ_lookup.
      * by rewrite !list_lookup_insert_ne by done.
  - intros k Hk. rewrite !nthZ_insert by (rewrite ?length_insert; lia). repeat case_decide; congruence.
Qed.

(** [ok h j]: the element at [j] is not less than its parent. *)
Definition ok (h : list T) (j : Z) : Prop := less (at_ h j) (at_ h (parent j)) = false.

Definition heap_from (lo : Z) (h : list T) : Prop :=
  ∀ j, 1 ≤ j < Z.of_nat (length h) → lo ≤ parent j → ok h j.

Definition is_heap (h : list T) : Prop := heap_from 0 h.

Ltac parents := unfold parent in *; Z.to_euclidean_division_equations; lia.

Lemma heap_top h i : is_heap h → 0 ≤ i < Z.of_nat (length h) → less (at_ h i) (at_ h 0) = false.
Proof.
  intros Hh [Hi Hn]. revert i Hi Hn.
  apply (Z_lt_induction (fun i => i < Z.of_nat (length h) → less (at_ h i) (at_ h 0) = false)).
  intros i IH Hn. destruct (decide (i = 0)) as [->|]; [apply less_irrefl|].
  destruct (decide (0 ≤ i)).
  - apply not_less_trans with (at_ h (parent i)); [apply Hh; parents|apply IH; parents].
  - unfold nthZ. replace (Z.to_nat i) with 0%nat by lia. apply less_irrefl.
Qed.

(** ** Sifting up *)

(** The heap order holds but for the element at [i] and its parent. *)
Definition up_ok (h : list T) (i : Z) : Prop :=
  (∀ j, 1 ≤ j < Z.of_nat (length h) → j ≠ i → ok h j) ∧
  (∀ j, 1 ≤ j < Z.of_nat (length h) → parent j = i → 1 ≤ i → less (at_ h j) (at_ h (parent i)) = false).

Lemma up_ok_swap h h' i :
  1 ≤ i < Z.of_nat (length h) → up_ok h i → less (at_ h i) (at_ h (parent i)) = true →
  length h' = length h →
  (∀ k, 0 ≤ k → at_ h' k = if decide (k = i) then at_ h (parent i)
                           else if decide (k = parent i) then at_ h i else at_ h k) →
  up_ok h' (parent i).
Proof.
  intros Hi [Hok Hch] Hl Hlen Hat. apply less_asym in Hl. unfold up_ok. rewrite Hlen. 
  split.
  - intros j Hj Hjp. unfold ok. rewrite !Hat by parents.
    destruct (decide (j = i)) as [->|Hji]; [repeat case_decide; try done; parents|].
    repeat case_decide; try congruence; [apply Hch; (done || lia)| |by apply Hok].
    apply not_less_trans with (at_ h (parent i)); [|done].
    replace (parent i) with (parent j) by done. by apply Hok.
  - intros j Hj Hjp Hp. rewrite !Hat by parents. 
    repeat case_decide; try parents; try (by apply Hok; parents).
    apply not_less_trans with (at_ h (parent i)); [|apply Hok; parents].
    rewrite <- Hjp. by apply Hok.
Qed.

Lemma up_heap_spec fuel : ∀ h i,
  0 ≤ i < Z.of_nat (length h) → i < Z.of_nat fuel → up_ok h i →
  ∃ h', up_heap less fuel h i = Ret h' ∧ h' ≡ₚ h ∧ is_heap h'.
Proof.
  induction fuel as [|fuel IH]; intros h i Hi Hfuel Hup; [lia|]. cbn [up_heap].
  destruct (Z.eqb_spec i 0) as [->|Hi0].
  { exists h. split_and!; [done..|]. intros j Hj _. apply Hup; lia. }
  replace (Z.quot (i - 1) 2) with (parent i) by parents.
  rewrite (at_aget h i), go_bind_ret, (at_aget h (parent i)), go_bind_ret by parents.
  destruct (less (at_ h i) (at_ h (parent i))) eqn:El.
  - destruct (swap_spec h i (parent i)) as (h1 & -> & Hp & Hlen & Hat); [parents..|].
    rewrite go_bind_ret. destruct (IH h1 (parent i)) as (h' & -> & Hp' & Hh'); [parents..| |].
    + apply (up_ok_swap h h1 i); (done || lia).
    + exists h'. split_and!; [done| |done]. by rewrite Hp'.
  - exists h. split_and!; [done..|]. intros j Hj _. destruct (decide (j = i)) as [->|]; [done|by apply Hup].
Qed.

Lemma upHeap_spec h i :
  0 ≤ i < Z.of_nat (length h) → up_ok h i → ∃ h', upHeap less h i = Ret h' ∧ h' ≡ₚ h ∧ is_heap h'.
Proof. intros Hi Hup. apply up_heap_spec; (done || lia). Qed.

(** ** Sifting down *)

(** From [lo] on the heap order holds but for the element at [i] and its children. *)
Definition down_ok (lo : Z) (h : list T) (i : Z) : Prop :=
  (∀ j, 1 ≤ j < Z.of_nat (length h) → lo ≤ parent j → parent j ≠ i → ok h j) ∧
  (∀ j, 1 ≤ j < Z.of_nat (length h) → parent j = i → 1 ≤ i → lo ≤ parent i →
     less (at_ h j) (at_ h (parent i)) = false).

Lemma smaller_spec h c s :
  0 ≤ s < Z.of_nat (length h) → 0 ≤ c →
  ∃ s', smaller less h (Z.of_nat (length h)) c s = Ret s' ∧
    (s' = s ∨ s' = c ∧ c < Z.of_nat (length h)) ∧ less (at_ h s) (at_ h s') = false ∧
    (c < Z.of_nat (length h) → less (at_ h c) (at_ h s') = false).
Proof.
  intros Hs Hc. unfold smaller. destruct (Z.ltb_spec c (Z.of_nat (length h))) as [Hlt|Hge].
  - rewrite (at_aget h c), go_bind_ret, (at_aget h s), go_bind_ret by lia.
    eexists. split; [done|]. destruct (less (at_ h c) (at_ h s)) eqn:E; split_and!;
      auto using less_irrefl, less_asym.
  - exists s. split_and!; auto using less_irrefl. lia.
Qed.

Lemma down_ok_swap lo h h' i s :
  0 ≤ i → lo ≤ i → parent s = i → i < s < Z.of_nat (length h) → down_ok lo h i →
  (∀ j, 1 ≤ j < Z.of_nat (length h) → parent j = i → less (at_ h j) (at_ h s) = false) →
  less (at_ h i) (at_ h s) = false → length h' = length h →
  (∀ k, 0 ≤ k → at_ h' k = if decide (k = i) then at_ h s
                           else if decide (k = s) then at_ h i else at_ h k) →
  down_ok lo h' s.
Proof.
  intros Hi Hlo Hps Hs [Hok Hch] Hmin His Hlen Hat. unfold down_ok. rewrite Hlen. split.
  - intros j Hj Hpj Hjs. unfold ok. rewrite !Hat by parents.
    destruct (decide (parent j = i)) as [Hji|Hji].
    + assert (j ≠ i) by parents. repeat case_decide; try congruence. by apply Hmin.
    + assert (j ≠ s) by congruence. repeat case_decide; try congruence; [|by apply Hok].
      subst j. apply Hch; (done || lia).
  - intros j Hj Hpj _ _. assert (j ≠ i ∧ j ≠ s) as [? ?] by parents.
    rewrite !Hat, Hps by parents. repeat case_decide; try congruence.
    rewrite <- Hpj. apply Hok; lia.
Qed.

Lemma down_heap_spec lo fuel : ∀ h i,
  0 ≤ i < Z.of_nat (length h) → lo ≤ i → Z.of_nat (length h) - i ≤ Z.of_nat fuel → down_ok lo h i →
  ∃ h', down_heap less fuel h (Z.of_nat (length h)) i = Ret h' ∧ h' ≡ₚ h ∧ heap_from lo h'.
Proof.
  induction fuel as [|fuel IH]; intros h i Hi Hlo Hfuel Hdown; [lia|]. cbn [down_heap].
  destruct (smaller_spec h (2 * i + 1) i) as (s1 & -> & Hs1 & Hi1 & Hl1); [lia..|]. rewrite go_bind_ret.
  destruct (smaller_spec h (2 * i + 2) s1) as (s & -> & Hs & Hi2 & Hr); [lia..|]. rewrite go_bind_ret.
  assert (Hmin : ∀ j, 1 ≤ j < Z.of_nat (length h) → parent j = i → less (at_ h j) (at_ h s) = false).
  { intros j Hj Hp. assert (j = 2 * i + 1 ∨ j = 2 * i + 2) as [->| ->] by parents; [|apply Hr; lia].
    apply not_less_trans with (at_ h s1); [apply Hl1; lia|done]. }
  assert (His : less (at_ h i) (at_ h s) = false) by (by apply not_less_trans with (at_ h s1)).
  destruct (Z.eqb_spec s i) as [->|Hsi].
  - exists h. split_and!; [done..|]. intros j Hj Hp. 
    destruct (decide (parent j = i)) as [E|]; [|by apply Hdown]. unfold ok. rewrite E. by apply Hmin.
  - assert (Hps : parent s = i ∧ i < s < Z.of_nat (length h)) by parents. destruct Hps as [Hps Hsr].
    destruct (swap_spec h i s) as (h1 & -> & Hp & Hlen & Hat); [lia..|]. rewrite go_bind_ret.
    rewrite <- Hlen. destruct (IH h1 s) as (h' & -> & Hp' & Hh'); [lia..| |].
    + apply (down_ok_swap lo h h1 i s); (done || lia).
    + exists h'. split_and!; [done| |done]. by rewrite Hp'.
Qed.

Lemma downHeap_spec lo h n i :
  n = Z.of_nat (length h) → 0 ≤ i < n → lo ≤ i → down_ok lo h i →
  ∃ h', downHeap less h n i = Ret h' ∧ h' ≡ₚ h ∧ heap_from lo h'.
Proof. intros -> Hi Hlo Hd. apply down_heap_spec; (done || lia). Qed.

(** A heap whose first element is replaced is sifted down from there. *)
Lemma down_ok_top h x : is_heap h → h ≠ [] → down_ok 0 (<[0%nat := x]> h) 0.
Proof.
  intros Hh Hne. assert (Hlen : 0 < Z.of_nat (length h)) by (destruct h; [done|cbn; lia]).
  split; rewrite length_insert; [|intros; lia]. intros j Hj _ Hp. unfold ok.
  change 0%nat with (Z.to_nat 0). rewrite !nthZ_insert by parents. 
  repeat case_decide; try congruence; try lia. apply Hh; parents.
Qed.

Lemma heap_down_ok h i : is_heap h → down_ok 0 h i.
Proof.
  intros Hh. split; [intros; by apply Hh|]. intros j Hj <- Hp _.
  apply not_less_trans with (at_ h (parent j)); apply Hh; parents.
Qed.

Lemma build_heap_spec h :
  ∃ h', build_heap less h (Z.of_nat (length h)) = Ret h' ∧ h' ≡ₚ h ∧ is_heap h'.
Proof.
  unfold build_heap. remember (Z.of_nat (length h)) as n eqn:Hn. remember (Z.quot n 2 - 1) as first eqn:Hfirst.
  destruct (go_for_inv (E:=goerr) (fun k h' => h' ≡ₚ h ∧ heap_from (first + 1 - k) h')
    (Z.to_nat (first + 1)) 0 (fun k h => downHeap less h n (first - k)) h) as (h' & -> & Hp & Hh).
  - split; [done|]. intros j Hj Hp. parents.
  - intros k h1 Hk (Hp & Hh). apply Permutation_length in Hp as Hlen.
    destruct (downHeap_spec (first - k) h1 n (first - k)) as (h2 & -> & Hp2 & Hh2); try parents.
    + split; [intros j Hj Hpj Hne; apply Hh; lia|]. intros. parents.
    + exists h2. split; [done|]. split; [by rewrite Hp2|]. by replace (first + 1 - (k + 1)) with (first - k) by lia.
  - exists h'. split_and!; [done..|]. intros j Hj Hp0. apply Hh; [done|parents].
Qed.

(** * The operations *)

Definition pq_ok (pq : PriorityQueue T) : Prop :=
  size pq = Z.of_nat (length (heap pq)) ∧ is_heap (heap pq) ∧ size pq ≤ maxSize pq.

(** [became pq l pq']: [pq'] is a heap of the elements [l], of the same capacity. *)
Definition became (pq : PriorityQueue T) (l : list T) (pq' : PriorityQueue T) : Prop :=
  pq_ok pq' ∧ heap pq' ≡ₚ l ∧ maxSize pq' = maxSize pq.

#[global] Instance became_proper pq : Proper ((≡ₚ) ==> (=) ==> iff) (became pq).
Proof. intros l l' Hl ? pq' ->. unfold became. by rewrite Hl. Qed.

Lemma became_heap pq h l n :
  is_heap h → h ≡ₚ l → n = Z.of_nat (length l) → n ≤ maxSize pq → became pq l (set_heap h n pq).
Proof.
  intros Hh Hp -> Hn. apply Permutation_length in Hp as Hl.
  unfold became, pq_ok. split_and!; cbn; (done || lia).
Qed.

Lemma heap_least h t r : is_heap h → h = t :: r → Forall (fun y => less y t = false) h.
Proof.
  intros Hh E. apply Forall_forall. intros y (i & Hi & <-)%elem_at.
  replace t with (at_ h 0) by (by rewrite E). by apply heap_top.
Qed.

Lemma is_heap_take h n : is_heap h → is_heap (take n h).
Proof.
  intros Hh j Hj _. rewrite length_take in Hj. unfold ok. rewrite !nthZ_take by parents. apply Hh; parents.
Qed.

Lemma replace_top_spec pq t r x :
  pq_ok pq → heap pq = t :: r → ∃ pq', replace_top less x pq = Ret pq' ∧ became pq (x :: r) pq'.
Proof.
  intros (Hs & Hh & Hm) E. unfold replace_top. rewrite Hs, E in *. cbn [length] in *.
  rewrite aset_Ret, go_bind_ret by (cbn; lia).
  destruct (downHeap_spec 0 (x :: r) (Z.of_nat (S (length r))) 0) as (h & Eh & Hp & Hh'); try (cbn; lia).
  { by apply (down_ok_top (t :: r) x). }
  change (<[Z.to_nat 0 := x]> (t :: r)) with (x :: r). rewrite Eh, go_bind_ret. eexists. split; [done|].
  apply became_heap; (done || cbn; lia).
Qed.

Lemma Add_room_spec pq x :
  pq_ok pq → size pq < maxSize pq →
  ∃ pq', Add zero less x pq = Ret (true, pq') ∧ became pq (x :: heap pq) pq'.
Proof.
  intros (Hs & Hh & Hm) Hroom. unfold Add. destruct (Z.ltb_spec (size pq) (maxSize pq)); [|lia].
  destruct (upHeap_spec (heap pq ++ [x]) (size pq + 1 - 1)) as (h & -> & Hp & Hh').
  - rewrite length_app. cbn. lia.
  - split; rewrite length_app; cbn; [|intros; parents]. intros j Hj Hji.
    unfold ok. rewrite !nthZ_app by parents. apply Hh; parents.
  - rewrite go_bind_ret. eexists. split; [done|]. apply became_heap; [done| |cbn; lia|lia].
    rewrite Hp. by rewrite (comm (++)).
Qed.

Lemma AddAll_spec pq xs :
  pq_ok pq →
  if maxSize pq <? size pq + Z.of_nat (length xs) then ∃ e, AddAll less xs pq = Err e
  else ∃ pq', AddAll less xs pq = Ret pq' ∧ became pq (heap pq ++ xs) pq'.
Proof.
  intros (Hs & Hh & Hm). unfold AddAll.
  destruct (Z.ltb_spec (maxSize pq) (size pq + Z.of_nat (length xs))); [by eexists|].
  destruct (build_heap_spec (heap pq ++ xs)) as (h & Eh & Hp & Hh').
  replace (size pq + Z.of_nat (length xs)) with (Z.of_nat (length (heap pq ++ xs)))
    by (rewrite length_app; lia).
  rewrite Eh, go_bind_ret. eexists. split; [done|]. apply became_heap; (done || rewrite ?length_app; lia).
Qed.

Lemma Pop_spec pq :
  pq_ok pq →
  match heap pq with
  | [] => Pop zero less pq = Ret (zero, pq)
  | t :: r => ∃ pq', Pop zero less pq = Ret (t, pq') ∧ became pq r pq'
  end.
Proof.
  intros (Hs & Hh & Hm). unfold Pop. destruct (heap pq) as [|t r] eqn:E.
  { rewrite Hs. by destruct pq. }
  rewrite Hs. cbn [length]. destruct (Z.eqb_spec (Z.of_nat (S (length r))) 0); [lia|].
  rewrite (aget_Ret (t :: r) 0 t), go_bind_ret by done.
  destruct r as [|last r' _] using rev_ind; cbn [length].
  { rewrite (proj2 (Z.ltb_ge _ _)) by lia. eexists. split; [done|].
    apply became_heap; [|done..|cbn in *; lia]. intros j Hj. cbn in Hj. lia. }
  cbn [length] in *. rewrite length_app in *. cbn [length] in *.
  destruct (Z.ltb_spec 0 (Z.of_nat (S (length r' + 1)) - 1)); [|lia].
  rewrite (aget_mid (t :: r') [] last), go_bind_ret by (cbn; lia).
  rewrite aset_Ret, go_bind_ret by (cbn; lia).
  assert (Htake : ∀ y, take (S (length r')) (y :: r' ++ [last]) = y :: r').
  { intros y. rewrite firstn_cons. by rewrite take_app_length. }
  replace (Z.to_nat (Z.of_nat (S (length r' + 1)) - 1)) with (S (length r')) by lia.
  change (<[Z.to_nat 0 := last]> (t :: r' ++ [last])) with (last :: r' ++ [last]). rewrite Htake.
  destruct (downHeap_spec 0 (last :: r') (Z.of_nat (S (length r' + 1)) - 1) 0) as (h & -> & Hp & Hh');
    [cbn; lia..| |].
  { apply (down_ok_top (t :: r') last); [|done].
    rewrite <- Htake. by apply is_heap_take. }
  rewrite go_bind_ret. eexists. split; [done|]. rewrite (comm (++) r').
  apply became_heap; [done|done|cbn [app length]; lia|rewrite Hs in Hm; lia].
Qed.

Lemma Top_spec pq : pq_ok pq → Top zero pq = Ret (default zero (head (heap pq))).
Proof.
  intros (Hs & _). unfold Top. rewrite Hs. by destruct (heap pq).
Qed.

Lemma InsertWithOverflow_spec pq x :
  pq_ok pq →
  if size pq <? maxSize pq
  then ∃ pq', InsertWithOverflow zero less x pq = Ret (zero, false, pq') ∧ became pq (x :: heap pq) pq'
  else match heap pq with
       | t :: r => if less t x
                   then ∃ pq', InsertWithOverflow zero less x pq = Ret (t, true, pq') ∧ became pq (x :: r) pq'
                   else InsertWithOverflow zero less x pq = Ret (x, true, pq)
       | [] => InsertWithOverflow zero less x pq = Ret (x, true, pq)
       end.
Proof.
  intros Hok. pose proof Hok as (Hs & Hh & Hm). unfold InsertWithOverflow.
  destruct (Z.ltb_spec (size pq) (maxSize pq)) as [Hroom|Hfull].
  - destruct (Add_room_spec pq x Hok Hroom) as (pq' & -> & Hb). by exists pq'.
  - rewrite Hs. destruct (heap pq) as [|t r] eqn:E; [done|]. cbn [length].
    rewrite (proj2 (Z.ltb_lt _ _)) by lia. cbn [negb]. rewrite (aget_Ret (t :: r) 0 t), go_bind_ret by done.
    destruct (less t x); [|done]. destruct (replace_top_spec pq t r x Hok E) as (pq' & -> & Hb). by exists pq'.
Qed.

Lemma UpdateTopWith_spec pq x :
  pq_ok pq →
  match heap pq with
  | [] => UpdateTopWith less x pq = Ret pq
  | t :: r => ∃ pq', UpdateTopWith less x pq = Ret pq' ∧ became pq (x :: r) pq'
  end.
Proof.
  intros Hok. pose proof Hok as (Hs & _). unfold UpdateTopWith. rewrite Hs.
  destruct (heap pq) as [|t r] eqn:E; [done|]. cbn [length].
  destruct (Z.eqb_spec (Z.of_nat (S (length r))) 0); [lia|]. by apply replace_top_spec with t.
Qed.

(** ** Removing from the middle *)

Lemma upHeap_noop h i :
  0 ≤ i < Z.of_nat (length h) → i = 0 ∨ less (at_ h i) (at_ h (parent i)) = false → upHeap less h i = Ret h.
Proof.
  intros Hi Hno. unfold upHeap. cbn [up_heap]. destruct (Z.eqb_spec i 0) as [|Hi0]; [done|].
  destruct Hno as [|Hno]; [done|]. replace (Z.quot (i - 1) 2) with (parent i) by parents.
  rewrite (at_aget h i), go_bind_ret, (at_aget h (parent i)), go_bind_ret by parents. by rewrite Hno.
Qed.

(** A heap with another element at [i] is a heap again after sifting up and down. *)
Lemma resift h i x :
  is_heap h → 0 ≤ i < Z.of_nat (length h) →
  ∃ h', (h1 ← upHeap less (<[Z.to_nat i := x]> h) i; downHeap less h1 (Z.of_nat (length h)) i) = Ret h' ∧
    h' ≡ₚ <[Z.to_nat i := x]> h ∧ is_heap h'.
Proof.
  intros Hh Hi. set (h1 := <[Z.to_nat i := x]> h).
  assert (Hlen : length h1 = length h) by apply length_insert.
  assert (Hat : ∀ j, 0 ≤ j → at_ h1 j = if decide (i = j) then x else at_ h j) by (intros; by apply nthZ_insert).
  assert (Hkids : ∀ j, 1 ≤ j < Z.of_nat (length h) → parent j = i → 1 ≤ i → less (at_ h j) (at_ h (parent i)) = false).
  { intros j Hj E Hi1. apply not_less_trans with (at_ h i); [rewrite <- E|]; apply Hh; parents. }
  assert (Hrest : ∀ j, 1 ≤ j < Z.of_nat (length h) → j ≠ i → parent j ≠ i → ok h1 j).
  { intros j Hj Hji Hp. unfold ok. rewrite !Hat by parents. repeat case_decide; try congruence. apply Hh; parents. }
  destruct (decide (1 ≤ i ∧ less (at_ h1 i) (at_ h1 (parent i)) = true)) as [[Hi1 Hl]|Hno].
  - rewrite !Hat in Hl by parents. case_decide; [|done]. case_decide; [parents|].
    apply less_asym in Hl. destruct (upHeap_spec h1 i) as (h2 & -> & Hp2 & Hh2); [lia| |].
    + split; rewrite Hlen.
      * intros j Hj Hji. destruct (decide (parent j = i)) as [E|]; [|by apply Hrest].
        unfold ok. rewrite !Hat, E by parents. repeat case_decide; try congruence.
        apply not_less_trans with (at_ h (parent i)); [by apply Hkids|done].
      * intros j Hj E _. rewrite !Hat by parents. repeat case_decide; try parents. by apply Hkids.
    + rewrite go_bind_ret. apply Permutation_length in Hp2 as Hl2.
      destruct (downHeap_spec 0 h2 (Z.of_nat (length h)) i) as (h3 & -> & Hp3 & Hh3); try lia.
      { by apply heap_down_ok. }
      exists h3. split_and!; [done| |done]. by rewrite Hp3.
  - rewrite upHeap_noop, go_bind_ret; [|lia|].
    2: { destruct (decide (i = 0)); [by left|right]. destruct (less _ _) eqn:E; [|done]. destruct Hno. split; [lia|done]. }
    destruct (downHeap_spec 0 h1 (Z.of_nat (length h)) i) as (h3 & -> & Hp3 & Hh3); try lia.
    + split; rewrite Hlen.
      * intros j Hj _ Hp. destruct (decide (j = i)) as [->|]; [|by apply Hrest].
        unfold ok. destruct (less _ _) eqn:E; [|done]. destruct Hno. split; [lia|done].
      * intros j Hj E Hi1 _. rewrite !Hat by parents. repeat case_decide; try parents. by apply Hkids.
    + by exists h3.
Qed.

Lemma insert_Permutation (l : list T) i x y : l !! i = Some x → x :: <[i := y]> l ≡ₚ y :: l.
Proof.
  intros Hx. pose proof (lookup_lt_Some _ _ _ Hx). rewrite insert_take_drop by done.
  rewrite <- (take_drop_middle l i x Hx) at 3. solve_Permutation.
Qed.

Lemma Remove_one pq eq :
  pq_ok pq →
  match list_find (fun x => eq x = true) (heap pq) with
  | None => Remove less eq pq = Ret (false, pq)
  | Some (_, x) => ∃ pq' l, Remove less eq pq = Ret (true, pq') ∧ heap pq ≡ₚ x :: l ∧ became pq l pq'
  end.
Proof.
  intros (Hs & Hh & Hm). unfold Remove. rewrite Hs, Nat2Z.id, firstn_all.
  destruct (list_find _ (heap pq)) as [[i x]|] eqn:E; [|done].
  apply list_find_Some in E as (Hx & _ & _). pose proof (lookup_lt_Some _ _ _ Hx) as Hlt.
  destruct (heap pq) as [|last h0 _] eqn:Eh using rev_ind; [done|].
  rewrite length_app in *. cbn [length] in *.
  rewrite (aget_mid h0 [] last), go_bind_ret by lia.
  rewrite aset_Ret, go_bind_ret by (rewrite length_app; cbn; lia). rewrite Nat2Z.id.
  replace (Z.to_nat (Z.of_nat (length h0 + 1) - 1)) with (length h0) by lia.
  replace (Z.of_nat (length h0 + 1) - 1) with (Z.of_nat (length h0)) by lia.
  assert (Hh0 : is_heap h0).
  { replace h0 with (take (length h0) (h0 ++ [last])) by apply take_app_length. by apply is_heap_take. }
  destruct (Z.ltb_spec (Z.of_nat i) (Z.of_nat (length h0))) as [Hin|Hlast].
  - rewrite lookup_app_l in Hx by lia. rewrite insert_app_l by lia.
    rewrite take_app_length' by (rewrite length_insert; done).
    destruct (resift h0 (Z.of_nat i) last Hh0) as (h & Er & Hp & Hh'); [lia|].
    rewrite Nat2Z.id in *. rewrite Er, go_bind_ret. eexists _, (<[i := last]> h0). split; [done|]. split.
    + rewrite insert_Permutation by done. by rewrite (comm (++)).
    + apply became_heap; [done..|rewrite length_insert; lia|lia].
  - assert (i = length h0) as -> by lia. rewrite list_lookup_middle in Hx by done. injection Hx as <-.
    rewrite take_insert_ge, take_app_length by lia. cbn. eexists _, h0. split; [done|].
    split; [by rewrite (comm (++))|]. apply became_heap; (done || lia).
Qed.

(** * The queue as a bounded collection

    What an operation does to the elements [l] of a queue with room for [cap],
    whatever their order in the heap. *)

Inductive op : Type :=
  | OAdd (x : T)
  | OInsertWithOverflow (x : T)
  | OPop
  | OTop
  | OUpdateTop
  | OUpdateTopWith (x : T)
  | OSet (index : Z) (x : T)
  | OSetTop (x : T)
  | OGet (index : Z)
  | OToSlice
  | OAddAll (xs : list T)
  | ORemove (eq : T → bool)
  | OClear.

Inductive result : Type :=
  | RUnit
  | RBool (b : bool)
  | RElement (x : T)
  | ROverflow (x : T) (displaced : bool)
  | RList (xs : list T)
  | RError.

(** An operation that may return an error and then changes nothing. *)
Definition or_error (pq : PriorityQueue T) (r : M (PriorityQueue T)) : M (result * PriorityQueue T) :=
  match r with Ret pq => Ret (RUnit, pq) | Err _ => Ret (RError, pq) | Panic => Panic | NoFuel => NoFuel end.

(** [OSetTop] is [Set(0, x)] followed by [UpdateTop()]. *)
Definition run_op (o : op) (pq : PriorityQueue T) : M (result * PriorityQueue T) :=
  match o with
  | OAdd x => '(b, pq) ← Add zero less x pq; mret (RBool b, pq)
  | OInsertWithOverflow x => '(y, b, pq) ← InsertWithOverflow zero less x pq; mret (ROverflow y b, pq)
  | OPop => '(x, pq) ← Pop zero less pq; mret (RElement x, pq)
  | OTop => x ← Top zero pq; mret (RElement x, pq)
  | OUpdateTopWith x => pq ← UpdateTopWith less x pq; mret (RUnit, pq)
  | OUpdateTop => pq ← UpdateTop less pq; mret (RUnit, pq)
  | OSet i x => or_error pq (PQSet i x pq)
  | OSetTop x => or_error pq (pq ← PQSet 0 x pq; UpdateTop less pq)
  | OGet i => match Get i pq with
              | Ret x => Ret (RElement x, pq) | Err _ => Ret (RError, pq)
              | Panic => Panic | NoFuel => NoFuel end
  | OToSlice => mret (RList (ToSlice pq), pq)
  | OAddAll xs => or_error pq (AddAll less xs pq)
  | ORemove eq => '(b, pq) ← Remove less eq pq; mret (RBool b, pq)
  | OClear => mret (RUnit, Clear pq)
  end.

(** What an operation needs: [Add] to a queue without room panics when the element is
    less than the zero value; [Set] leaves the order to its caller. *)
Definition heap_ordered (h : list T) : bool :=
  forallb (fun j => negb (less (at_ h j) (at_ h (parent j)))) (seqZ 1 (Z.of_nat (length h) - 1)).

Definition legal (o : op) (pq : PriorityQueue T) : bool :=
  match o with
  | OAdd x => (1 <=? maxSize pq) || negb (less x zero)
  | OSet i x => negb (in_range i (size pq)) || heap_ordered (<[Z.to_nat i := x]> (heap pq))
  | _ => true
  end.

Fixpoint legal_run (os : list op) (pq : PriorityQueue T) : bool :=
  match os with
  | [] => true
  | o :: os => legal o pq && match run_op o pq with Ret (_, pq) => legal_run os pq | _ => true end
  end.

(** [least t l]: no element of [l] is less than [t]. *)
Definition least (t : T) (l : list T) : Prop := Forall (fun y => less y t = false) l.

Inductive spec_op (cap : Z) : op → list T → result → list T → Prop :=
  | spec_Add x l : Z.of_nat (length l) < cap → spec_op cap (OAdd x) l (RBool true) (x :: l)
  | spec_Add_replace x t l : Z.of_nat (length (t :: l)) = cap → least t (t :: l) → less x t = true →
      spec_op cap (OAdd x) (t :: l) (RBool true) (x :: l)
  | spec_Add_reject x t l : Z.of_nat (length (t :: l)) = cap → least t (t :: l) → less x t = false →
      spec_op cap (OAdd x) (t :: l) (RBool false) (t :: l)
  | spec_Add_no_room x : cap = 0 → less x zero = false → spec_op cap (OAdd x) [] (RBool false) []
  | spec_Insert x l : Z.of_nat (length l) < cap →
      spec_op cap (OInsertWithOverflow x) l (ROverflow zero false) (x :: l)
  | spec_Insert_replace x t l : Z.of_nat (length (t :: l)) = cap → least t (t :: l) → less t x = true →
      spec_op cap (OInsertWithOverflow x) (t :: l) (ROverflow t true) (x :: l)
  | spec_Insert_reject x l : Z.of_nat (length l) = cap → Forall (fun y => less y x = false) l →
      spec_op cap (OInsertWithOverflow x) l (ROverflow x true) l
  | spec_Pop t l : least t (t :: l) → spec_op cap OPop (t :: l) (RElement t) l
  | spec_Pop_empty : spec_op cap OPop [] (RElement zero) []
  | spec_Top t l : least t (t :: l) → spec_op cap OTop (t :: l) (RElement t) (t :: l)
  | spec_Top_empty : spec_op cap OTop [] (RElement zero) []
  | spec_UpdateTop_same l : spec_op cap OUpdateTop l RUnit l
  | spec_Set i x y l : 0 ≤ i < Z.of_nat (length (y :: l)) → (i = 0 → least y (y :: l)) →
      spec_op cap (OSet i x) (y :: l) RUnit (x :: l)
  | spec_Set_out i x l : in_range i (Z.of_nat (length l)) = false → spec_op cap (OSet i x) l RError l
  | spec_SetTop x t l : least t (t :: l) → spec_op cap (OSetTop x) (t :: l) RUnit (x :: l)
  | spec_SetTop_empty x : spec_op cap (OSetTop x) [] RError []
  | spec_Get i y l : 0 ≤ i < Z.of_nat (length (y :: l)) → (i = 0 → least y (y :: l)) →
      spec_op cap (OGet i) (y :: l) (RElement y) (y :: l)
  | spec_Get_out i l : in_range i (Z.of_nat (length l)) = false → spec_op cap (OGet i) l RError l
  | spec_ToSlice l xs : xs ≡ₚ l → spec_op cap OToSlice l (RList xs) l
  | spec_UpdateTop x t l : least t (t :: l) → spec_op cap (OUpdateTopWith x) (t :: l) RUnit (x :: l)
  | spec_UpdateTop_empty x : spec_op cap (OUpdateTopWith x) [] RUnit []
  | spec_AddAll xs l : Z.of_nat (length (l ++ xs)) ≤ cap → spec_op cap (OAddAll xs) l RUnit (l ++ xs)
  | spec_AddAll_full xs l : cap < Z.of_nat (length (l ++ xs)) → spec_op cap (OAddAll xs) l RError l
  | spec_Remove eq x l : eq x = true → spec_op cap (ORemove eq) (x :: l) (RBool true) l
  | spec_Remove_none eq l : Forall (fun x => eq x = false) l → spec_op cap (ORemove eq) l (RBool false) l
  | spec_Clear l : spec_op cap OClear l RUnit [].

(** The operation up to the order of the elements. *)
Definition spec_step (cap : Z) (o : op) (l : list T) (r : result) (l' : list T) : Prop :=
  ∃ l1 l2, l ≡ₚ l1 ∧ spec_op cap o l1 r l2 ∧ l2 ≡ₚ l'.

Fixpoint run_ops (os : list op) (pq : PriorityQueue T) : M (list result * PriorityQueue T) :=
  match os with
  | [] => mret ([], pq)
  | o :: os => '(r, pq) ← run_op o pq; '(rs, pq) ← run_ops os pq; mret (r :: rs, pq)
  end.

Inductive spec_ops (cap : Z) : list op → list T → list result → list T → Prop :=
  | spec_ops_nil l l' : l ≡ₚ l' → spec_ops cap [] l [] l'
  | spec_ops_cons o os r rs l l1 l2 :
      spec_step cap o l r l1 → spec_ops cap os l1 rs l2 → spec_ops cap (o :: os) l (r :: rs) l2.

Lemma became_step pq pq' l r o cap :
  cap = maxSize pq → became pq l pq' → spec_op cap o (heap pq) r l →
  pq_ok pq' ∧ maxSize pq' = cap ∧ spec_step cap o (heap pq) r (heap pq').
Proof.
  intros -> (Hok & Hp & Hm) Hs. split_and!; [done..|]. exists (heap pq), l. by rewrite Hp.
Qed.

Lemma unchanged_step pq r o cap :
  cap = maxSize pq → pq_ok pq → spec_op cap o (heap pq) r (heap pq) →
  pq_ok pq ∧ maxSize pq = cap ∧ spec_step cap o (heap pq) r (heap pq).
Proof. intros -> Hok Hs. split_and!; [done..|]. by exists (heap pq), (heap pq). Qed.

Lemma Add_full_spec pq x :
  pq_ok pq → 1 ≤ maxSize pq → maxSize pq ≤ size pq →
  ∃ t l, heap pq = t :: l ∧
    if less x t then ∃ pq', Add zero less x pq = Ret (true, pq') ∧ became pq (x :: l) pq'
    else Add zero less x pq = Ret (false, pq).
Proof.
  intros Hok H1 Hfull. pose proof Hok as (Hs & Hh & Hm).
  destruct (heap pq) as [|t l] eqn:E; [cbn in *; lia|]. exists t, l. split; [done|].
  unfold Add. rewrite (proj2 (Z.ltb_ge _ _)) by lia. rewrite (Top_spec pq Hok), E, go_bind_ret.
  change (default zero (head (t :: l))) with t.
  destruct (less x t); [|done]. destruct (replace_top_spec pq t l x Hok E) as (pq' & -> & Hb). by exists pq'.
Qed.

Lemma Add_no_room pq x : pq_ok pq → maxSize pq < 1 → Add zero less x pq = if less x zero then Panic else Ret (false, pq).
Proof.
  intros Hok H1. pose proof Hok as (Hs & _ & Hm). assert (E : heap pq = []) by (destruct (heap pq); [done|cbn in Hs; lia]).
  unfold Add. rewrite (proj2 (Z.ltb_ge _ _)) by lia. rewrite (Top_spec pq Hok), E, go_bind_ret. cbn [head default from_option].
  destruct (less x zero); [|done]. unfold replace_top. by rewrite E.
Qed.

Lemma heap_ordered_spec h : heap_ordered h = true → is_heap h.
Proof.
  unfold heap_ordered. rewrite forallb_forall. intros Hh j Hj _. unfold ok. apply negb_true_iff, Hh.
  apply list_elem_of_In, elem_of_seqZ. lia.
Qed.

Lemma index_check i (pq : PriorityQueue T) : (i <? 0) || (size pq <=? i) = negb (in_range i (size pq)).
Proof.
  unfold in_range. destruct (Z.ltb_spec i 0), (Z.leb_spec (size pq) i), (Z.leb_spec 0 i), (Z.ltb_spec i (size pq));
    (done || lia).
Qed.

(** The element at a position, first. *)
Lemma heap_split h i : 0 ≤ i < Z.of_nat (length h) →
  ∃ l, h ≡ₚ at_ h i :: l ∧ ∀ x, <[Z.to_nat i := x]> h ≡ₚ x :: l.
Proof.
  intros Hi. pose proof (nthZ_lookup zero h i Hi) as Hx. exists (delete (Z.to_nat i) h).
  assert (Hd : h ≡ₚ at_ h i :: delete (Z.to_nat i) h) by (by apply delete_Permutation). split; [exact Hd|].
  intros x. apply (Permutation_cons_inv (a := at_ h i)). rewrite (insert_Permutation h _ (at_ h i) x Hx), perm_swap.
  by rewrite <- Hd.
Qed.

Lemma heap_least_at h i l : is_heap h → h ≡ₚ at_ h i :: l → i = 0 → least (at_ h i) (at_ h i :: l).
Proof.
  intros Hh Hp ->. unfold least. rewrite <- Hp. apply Forall_forall. intros y (j & Hj & <-)%elem_at. by apply heap_top.
Qed.

Lemma UpdateTop_spec pq : pq_ok pq → ∃ pq', UpdateTop less pq = Ret pq' ∧ became pq (heap pq) pq'.
Proof.
  intros Hok. pose proof Hok as (Hs & Hh & Hm). unfold UpdateTop. destruct (Z.ltb_spec 0 (size pq)).
  - destruct (downHeap_spec 0 (heap pq) (size pq) 0) as (h & -> & Hp & Hh'); [done|lia|lia|by apply heap_down_ok|].
    rewrite go_bind_ret. eexists. split; [done|]. by apply became_heap; [|..].
  - exists pq. split; [done|]. by split_and!.
Qed.

Lemma PQSet_spec pq i x :
  pq_ok pq → in_range i (size pq) = true →
  PQSet i x pq = Ret (set_heap (<[Z.to_nat i := x]> (heap pq)) (size pq) pq).
Proof.
  intros (Hs & _) Hi. unfold PQSet. rewrite index_check, Hi. cbn [negb]. apply in_range_spec in Hi.
  by rewrite aset_Ret, go_bind_ret by lia.
Qed.

(** [Set(0, x)] and [UpdateTop()] are [UpdateTopWith(x)] on a queue that is not empty. *)
Lemma SetTop_UpdateTopWith pq x : pq_ok pq → 0 < size pq →
  (pq ← PQSet 0 x pq; UpdateTop less pq) = UpdateTopWith less x pq.
Proof.
  intros Hok Hpos. pose proof Hok as (Hs & _). rewrite PQSet_spec by (done || by apply in_range_spec).
  rewrite go_bind_ret. unfold UpdateTop, UpdateTopWith, replace_top. cbn [size heap set_heap].
  rewrite (proj2 (Z.ltb_lt _ _)), (proj2 (Z.eqb_neq _ _)), aset_Ret by lia. by rewrite go_bind_ret.
Qed.

Lemma queue_op_refines o pq :
  pq_ok pq → legal o pq = true →
  ∃ r pq', run_op o pq = Ret (r, pq') ∧ pq_ok pq' ∧ maxSize pq' = maxSize pq ∧
    spec_step (maxSize pq) o (heap pq) r (heap pq').
Proof.
  intros Hok Hlegal. pose proof Hok as (Hs & Hh & Hm). pose proof (heap_least (heap pq)) as Hleast.
  destruct o as [x|x| | | |x|i x|x|i| |xs|eq|]; cbn [run_op].
  - destruct (Z.lt_ge_cases (maxSize pq) 1) as [H0|H1].
    { cbn [legal] in Hlegal. rewrite (proj2 (Z.leb_gt _ _)) in Hlegal by done. apply negb_true_iff in Hlegal.
      rewrite Add_no_room, Hlegal by done. eexists _, _. split; [done|]. apply unchanged_step; [done..|].
      assert (heap pq = []) as -> by (destruct (heap pq); [done|cbn in Hs; lia]). constructor; [lia|done]. }
    destruct (Z.lt_ge_cases (size pq) (maxSize pq)) as [Hroom|Hfull].
    + destruct (Add_room_spec pq x Hok Hroom) as (pq' & -> & Hb). eexists _, _. split; [done|].
      eapply became_step; [done..|]. constructor. lia.
    + destruct (Add_full_spec pq x Hok H1 Hfull) as (t & l & E & Hadd). specialize (Hleast t l Hh E).
      rewrite E in *. destruct (less x t) eqn:El.
      * destruct Hadd as (pq' & -> & Hb). eexists _, _. split; [done|].
        rewrite <- E. eapply became_step; [done..|]. rewrite E. constructor; (done || lia).
      * rewrite Hadd. eexists _, _. split; [done|]. rewrite <- E.
        apply unchanged_step; [done..|]. rewrite E. constructor; (done || lia).
  - pose proof (InsertWithOverflow_spec pq x Hok) as Hins.
    destruct (Z.ltb_spec (size pq) (maxSize pq)) as [Hroom|Hfull].
    { destruct Hins as (pq' & -> & Hb). eexists _, _. split; [done|].
      eapply became_step; [done..|]. constructor. lia. }
    destruct (heap pq) as [|t l] eqn:E.
    { rewrite Hins. eexists _, _. split; [done|]. rewrite <- E. apply unchanged_step; [done..|]. rewrite E.
      cbn in Hs. constructor; [cbn; lia|constructor]. }
    specialize (Hleast t l Hh eq_refl).
    destruct (less t x) eqn:El.
    + destruct Hins as (pq' & -> & Hb). eexists _, _. split; [done|].
      rewrite <- E. eapply became_step; [done..|]. rewrite E. constructor; (done || lia).
    + rewrite Hins. eexists _, _. split; [done|]. rewrite <- E.
      apply unchanged_step; [done..|]. rewrite E. constructor; [lia|].
      eapply Forall_impl; [exact Hleast|]. intros y Hy. by apply not_less_trans with t.
  - pose proof (Pop_spec pq Hok) as Hpop. destruct (heap pq) as [|t l] eqn:E.
    + rewrite Hpop. eexists _, _. split; [done|]. rewrite <- E. 
      apply unchanged_step; [done..|]. rewrite E. constructor.
    + destruct Hpop as (pq' & -> & Hb). eexists _, _. split; [done|].
      rewrite <- E. eapply became_step; [done..|]. rewrite E. constructor. by apply Hleast with l.
  - rewrite (Top_spec pq Hok), go_bind_ret. eexists _, _. split; [done|].
    apply unchanged_step; [done..|]. destruct (heap pq) as [|t l] eqn:E; constructor. by apply Hleast with l.
  - destruct (UpdateTop_spec pq Hok) as (pq' & -> & Hb). eexists _, _. split; [done|].
    eapply became_step; [done..|]. constructor.
  - pose proof (UpdateTopWith_spec pq x Hok) as Hupd. destruct (heap pq) as [|t l] eqn:E.
    + rewrite Hupd. eexists _, _. split; [done|]. rewrite <- E.
      apply unchanged_step; [done..|]. rewrite E. constructor.
    + destruct Hupd as (pq' & -> & Hb). eexists _, _. split; [done|].
      rewrite <- E. eapply became_step; [done..|]. rewrite E. constructor. by apply Hleast with l.
  - destruct (in_range i (size pq)) eqn:Hi.
    + rewrite PQSet_spec by done. eexists _, _. split; [done|]. cbn [legal] in Hlegal. rewrite Hi in Hlegal. cbn [negb orb] in Hlegal.
      apply in_range_spec in Hi. destruct (heap_split (heap pq) i ltac:(lia)) as (l & Hp & Hset).
      apply heap_ordered_spec in Hlegal. split_and!; [|done|].
      * unfold pq_ok. cbn. rewrite length_insert. done.
      * exists (at_ (heap pq) i :: l), (x :: l). split_and!; [done| |cbn; by rewrite Hset].
        constructor; [|by apply heap_least_at]. apply Permutation_length in Hp. rewrite <- Hp. lia.
    + unfold PQSet. rewrite index_check, Hi. eexists _, _. split; [done|]. apply unchanged_step; [done..|].
      constructor. by rewrite <- Hs.
  - destruct (heap pq) as [|t l] eqn:E.
    + cbn in Hs. unfold PQSet. rewrite Hs. cbn. eexists _, _. split; [done|]. rewrite <- E.
      apply unchanged_step; [done..|]. rewrite E. constructor.
    + rewrite SetTop_UpdateTopWith by (done || (cbn in Hs; lia)).
      pose proof (UpdateTopWith_spec pq x Hok) as Hupd. rewrite E in Hupd. destruct Hupd as (pq' & -> & Hb).
      eexists _, _. split; [done|]. rewrite <- E. eapply became_step; [done..|]. rewrite E. constructor. by apply Hleast with l.
  - unfold Get. rewrite index_check. destruct (in_range i (size pq)) eqn:Hi; cbn [negb].
    + apply in_range_spec in Hi. rewrite at_aget by lia. eexists _, _. split; [done|]. split_and!; [done..|].
      destruct (heap_split (heap pq) i ltac:(lia)) as (l & Hp & _).
      exists (at_ (heap pq) i :: l), (at_ (heap pq) i :: l). split_and!; [done| |done].
      constructor; [|by apply heap_least_at]. apply Permutation_length in Hp. rewrite <- Hp. lia.
    + eexists _, _. split; [done|]. apply unchanged_step; [done..|]. constructor. by rewrite <- Hs.
  - eexists _, _. split; [done|]. apply unchanged_step; [done..|]. constructor.
    unfold ToSlice. by rewrite Hs, Nat2Z.id, firstn_all.
  - pose proof (AddAll_spec pq xs Hok) as Hall.
    destruct (Z.ltb_spec (maxSize pq) (size pq + Z.of_nat (length xs))).
    + destruct Hall as (e & ->). eexists _, _. split; [done|].
      apply unchanged_step; [done..|]. constructor. rewrite length_app. lia.
    + destruct Hall as (pq' & -> & Hb). eexists _, _. split; [done|].
      eapply became_step; [done..|]. constructor. rewrite length_app. lia.
  - pose proof (Remove_one pq eq Hok) as Hrem. destruct (list_find _ (heap pq)) as [[i x]|] eqn:E.
    + destruct Hrem as (pq' & l & -> & Hp & Hok' & Hp' & Hm'). eexists _, _. split; [done|].
      split_and!; [done..|]. apply list_find_Some in E as (_ & Hx & _).
      exists (x :: l), l. split_and!; [done|by constructor|done].
    + rewrite Hrem. eexists _, _. split; [done|]. apply unchanged_step; [done..|]. constructor.
      apply list_find_None in E. eapply Forall_impl; [exact E|]. intros y. cbn. by destruct (eq y).
  - eexists _, _. split; [done|]. apply (became_step pq _ []); [done| |constructor].
    apply became_heap; [|done|done|cbn; lia]. intros j Hj. cbn in Hj. lia.
Qed.

Lemma queue_ops_from os : ∀ pq,
  pq_ok pq → legal_run os pq = true →
  ∃ rs pq', run_ops os pq = Ret (rs, pq') ∧ pq_ok pq' ∧ maxSize pq' = maxSize pq ∧
    spec_ops (maxSize pq) os (heap pq) rs (heap pq').
Proof.
  induction os as [|o os IH]; intros pq Hok H1; cbn [run_ops].
  { eexists _, pq. split_and!; [done..|]. by constructor. }
  cbn [legal_run] in H1. apply andb_true_iff in H1 as [Ho H1].
  destruct (queue_op_refines o pq Hok Ho) as (r & pq1 & E & Hok1 & Hm1 & Hstep). rewrite E in *. rewrite go_bind_ret.
  destruct (IH pq1) as (rs & pq2 & -> & Hok2 & Hm2 & Hsteps); [done|done|].
  eexists _, pq2. split; [done|]. split_and!; [done|lia|]. rewrite Hm1 in Hsteps. by econstructor.
Qed.

Lemma New_empty n : 0 ≤ n → ∃ pq, NewPriorityQueue n = Ret pq ∧ pq_ok pq ∧ heap pq = [] ∧ maxSize pq = n.
Proof.
  intros Hn. unfold NewPriorityQueue. destruct (Z.ltb_spec n 0); [lia|].
  eexists. split; [done|]. split_and!; [|done..]. unfold pq_ok. cbn. split_and!; [done| |lia].
  intros j Hj. cbn in Hj. lia.
Qed.

(** C36. A sequence of operations on a new queue of any capacity, with a comparison
    that is a strict weak order: each operation returns and does what it does on a
    bounded collection. The element popped or shown is a least one, a full queue gives
    up its least element for a larger one ([InsertWithOverflow]) or - this is what the
    code does - for a smaller one ([Add]), and no element is lost or made up
    otherwise; and the queue ends as a heap within its bound. Two things are asked of
    the sequence ([legal_run]): with a capacity of 0, an element that [Add] gets is
    not less than the zero value (it panics then: [Add_no_room_panics]); and an
    element that [Set] puts anywhere, without [UpdateTop] after [Set(0, x)], fits in the
    order of the heap, since [Set] does not restore it. *)
Theorem queue_ops_refine (n : Z) (os : list op) (pq : PriorityQueue T) :
  0 ≤ n → NewPriorityQueue n = Ret pq → legal_run os pq = true →
  ∃ rs pq', run_ops os pq = Ret (rs, pq') ∧ pq_ok pq' ∧ spec_ops n os [] rs (heap pq').
Proof.
  intros Hn En Hl. destruct (New_empty n Hn) as (pq0 & E0 & Hok & Eh & Em). rewrite En in E0. injection E0 as <-.
  destruct (queue_ops_from os pq Hok Hl) as (rs & pq' & Er & Hok' & _ & Hs).
  rewrite Em, Eh in Hs. by exists rs, pq'.
Qed.

(** ** Sorting *)

Fixpoint pop_all (n : nat) (pq : PriorityQueue T) : M (list T * PriorityQueue T) :=
  match n with
  | O => mret ([], pq)
  | S n => '(x, pq) ← Pop zero less pq; '(xs, pq) ← pop_all n pq; mret (x :: xs, pq)
  end.

Definition not_after (a b : T) : Prop := less b a = false.

Lemma pop_all_spec n : ∀ pq,
  pq_ok pq → length (heap pq) = n →
  ∃ xs pq', pop_all n pq = Ret (xs, pq') ∧ xs ≡ₚ heap pq ∧ Sorted not_after xs ∧ heap pq' = [].
Proof.
  induction n as [|n IH]; intros pq Hok Hn; cbn [pop_all].
  { destruct (heap pq) eqn:E; [|done]. eexists _, pq. split_and!; [done..|constructor|done]. }
  pose proof (Pop_spec pq Hok) as Hpop. destruct Hok as (Hs & Hh & _).
  destruct (heap pq) as [|t r] eqn:E; [done|]. pose proof (heap_least _ t r Hh eq_refl) as Hleast.
  destruct Hpop as (pq1 & -> & Hok1 & Hp1 & _). rewrite go_bind_ret.
  destruct (IH pq1 Hok1) as (xs & pq' & -> & Hp & Hsort & He); [rewrite Hp1; cbn in Hn; lia|].
  eexists _, pq'. split; [done|]. split_and!; [by rewrite Hp, Hp1| |done].
  constructor; [done|]. destruct xs as [|y ys]; constructor. unfold not_after.
  rewrite Forall_forall in Hleast. apply Hleast. right. rewrite <- Hp1, <- Hp. by left.
Qed.

(** Bulk-adding and popping sorts: [AddAll] (Floyd's construction) of any
    elements that fit followed by as many [Pop]s returns them, each once, from
    the least on, and leaves the queue empty. *)
Theorem AddAll_Pop_sorts (n : Z) (xs : list T) :
  Z.of_nat (length xs) ≤ n →
  ∃ ys pq', (pq ← NewPriorityQueue n; pq ← AddAll less xs pq; pop_all (length xs) pq) = Ret (ys, pq') ∧
    ys ≡ₚ xs ∧ Sorted not_after ys ∧ heap pq' = [].
Proof.
  intros Hn. destruct (New_empty n) as (pq & -> & Hok & Eh & Em); [lia|]. rewrite go_bind_ret.
  pose proof (AddAll_spec pq xs Hok) as Hall. pose proof Hok as (Hs & _). rewrite Em, Hs, Eh in Hall.
  cbn [length app] in Hall. rewrite (proj2 (Z.ltb_ge _ _)) in Hall by lia.
  destruct Hall as (pq1 & -> & Hok1 & Hp1 & _). rewrite go_bind_ret.
  destruct (pop_all_spec (length xs) pq1 Hok1) as (ys & pq' & -> & Hp & Hsort & He); [by rewrite Hp1|].
  exists ys, pq'. split_and!; [done| |done..]. by rewrite Hp.
Qed.

(** ** The largest elements *)

(** The elements are inserted one by one; what overflows is collected. *)
Fixpoint insert_all (xs : list T) (pq : PriorityQueue T) : M (list T * PriorityQueue T) :=
  match xs with
  | [] => mret ([], pq)
  | x :: xs =>
      '(y, displaced, pq) ← InsertWithOverflow zero less x pq;
      '(ys, pq) ← insert_all xs pq;
      mret (if (displaced : bool) then y :: ys else ys, pq)
  end.

(** Every element out is no larger than every element kept. *)
Definition separated (out kept : list T) : Prop := ∀ y z, y ∈ out → z ∈ kept → less z y = false.

Lemma insert_all_spec xs : ∀ pq out,
  pq_ok pq → separated out (heap pq) → (out = [] ∨ size pq = maxSize pq) →
  ∃ ys pq', insert_all xs pq = Ret (ys, pq') ∧ pq_ok pq' ∧ maxSize pq' = maxSize pq ∧
    heap pq' ++ ys ≡ₚ heap pq ++ xs ∧ separated (out ++ ys) (heap pq') ∧
    (out ++ ys = [] ∨ size pq' = maxSize pq').
Proof.
  induction xs as [|x xs IH]; intros pq out Hok Hsep Hfull; cbn [insert_all].
  { exists [], pq. rewrite !app_nil_r. by split_and!. }
  pose proof Hok as (Hs & Hh & Hm). pose proof (InsertWithOverflow_spec pq x Hok) as Hins.
  destruct (Z.ltb_spec (size pq) (maxSize pq)) as [Hroom|Hmax].
  { destruct Hfull as [->|]; [|lia]. destruct Hins as (pq1 & -> & Hok1 & Hp1 & Hm1). rewrite go_bind_ret.
    destruct (IH pq1 [] Hok1) as (ys & pq' & -> & Hok' & Hm' & Hp & Hsep' & Hfull'); [|by left|].
    { intros y z Hy. by apply not_elem_of_nil in Hy. }
    eexists ys, pq'. split_and!; [done..|lia| |done|done]. rewrite Hp, Hp1. solve_Permutation. }
  assert (Hx : ∃ y pq1, InsertWithOverflow zero less x pq = Ret (y, true, pq1) ∧ pq_ok pq1 ∧
    maxSize pq1 = maxSize pq ∧ y :: heap pq1 ≡ₚ x :: heap pq ∧ separated (out ++ [y]) (heap pq1) ∧
    size pq1 = maxSize pq1).
  { destruct (heap pq) as [|t l] eqn:E.
    { exists x, pq. rewrite E. split_and!; try done; [|lia]. intros y z _ Hz. by apply not_elem_of_nil in Hz. }
    pose proof (heap_least _ t l Hh eq_refl) as Hleast. rewrite Forall_forall in Hleast.
    destruct (less t x) eqn:El.
    - destruct Hins as (pq1 & -> & Hok1 & Hp1 & Hm1). exists t, pq1. split_and!; try done.
      + rewrite Hp1. solve_Permutation.
      + intros y z Hy Hz. rewrite Hp1 in Hz. apply elem_of_app in Hy as [Hy|Hy%list_elem_of_singleton].
        * apply elem_of_cons in Hz as [->|Hz]; [|apply Hsep; [done|by right]].
          apply not_less_trans with t; [by apply less_asym|apply Hsep; [done|by left]].
        * subst y. apply elem_of_cons in Hz as [->|Hz]; [by apply less_asym|]. apply Hleast. by right.
      + destruct Hok1 as (-> & _). rewrite Hp1, Hm1. cbn in *. lia.
    - rewrite Hins. exists x, pq. rewrite E. split_and!; try done; [|lia].
      intros y z Hy Hz. apply elem_of_app in Hy as [Hy|Hy%list_elem_of_singleton]; [by apply Hsep|].
      subst y. apply not_less_trans with t; [by apply Hleast|done]. }
  destruct Hx as (y & pq1 & -> & Hok1 & Hm1 & Hp1 & Hsep1 & Hf1). rewrite go_bind_ret.
  destruct (IH pq1 (out ++ [y]) Hok1 Hsep1) as (ys & pq' & -> & Hok' & Hm' & Hp & Hsep' & Hfull'); [by right|].
  rewrite <- app_assoc in *. eexists (y :: ys), pq'. split_and!; [done..|lia| |done|done].
  rewrite <- Permutation_middle, Hp, app_comm_cons, Hp1. solve_Permutation.
Qed.

(** C37. [InsertWithOverflow] keeps the largest elements: after inserting any
    elements into a new queue of size [n], the queue holds [min n (length xs)]
    of them, the others were handed back, and no element handed back is larger
    than one that was kept. *)
Theorem InsertWithOverflow_keeps_largest (n : Z) (xs : list T) :
  0 ≤ n →
  ∃ ys pq', (pq ← NewPriorityQueue n; insert_all xs pq) = Ret (ys, pq') ∧
    heap pq' ++ ys ≡ₚ xs ∧ separated ys (heap pq') ∧
    size pq' = Z.min n (Z.of_nat (length xs)).
Proof.
  intros Hn. destruct (New_empty n Hn) as (pq & -> & Hok & Eh & Em). rewrite go_bind_ret.
  destruct (insert_all_spec xs pq [] Hok) as (ys & pq' & -> & Hok' & Hm' & Hp & Hsep & Hfull).
  { intros y z Hy. by apply not_elem_of_nil in Hy. }
  { by left. }
  rewrite Eh in Hp. cbn [app] in *. exists ys, pq'. split_and!; [done..|].
  apply Permutation_length in Hp. rewrite length_app in Hp. destruct Hok' as (Hs' & _ & Hmax).
  destruct Hfull as [->|Hf]; [cbn in Hp|]; lia.
Qed.

(** A full queue without room panics in [Add] as soon as the element is less
    than the zero value, instead of refusing it. *)
Lemma Add_no_room_panics x : less x zero = true → (pq ← NewPriorityQueue 0; Add zero less x pq) = Panic.
Proof. intros Hx. cbn. by rewrite Hx. Qed.
End heaps.

Lemma queue_ops_refine_witness :
  ∃ pq rs pq', NewPriorityQueue 3 = Ret pq ∧
    run_ops 0 Z.ltb
      [OAdd 4; OAddAll [7; 2]; OInsertWithOverflow 5; OAdd 1; OSet 2 9; OSetTop 6; OPop; OUpdateTop; ORemove (Z.eqb 7); OTop] pq
      = Ret (rs, pq') ∧
    rs = [RBool true; RUnit; ROverflow 2 true; RBool true; RUnit; RUnit; RElement 6; RUnit; RBool true; RElement 9] ∧
    spec_ops 0 Z.ltb 3
      [OAdd 4; OAddAll [7; 2]; OInsertWithOverflow 5; OAdd 1; OSet 2 9; OSetTop 6; OPop; OUpdateTop; ORemove (Z.eqb 7); OTop]
      [] rs [9].
Proof.
  destruct (New_empty 0 Z.ltb 3) as (pq & En & _); [lia|].
  destruct (queue_ops_refine 0 Z.ltb 3
    [OAdd 4; OAddAll [7; 2]; OInsertWithOverflow 5; OAdd 1; OSet 2 9; OSetTop 6; OPop; OUpdateTop; ORemove (Z.eqb 7); OTop] pq)
    as (rs & pq' & Er & _ & Hs); [lia|exact En|vm_compute in En; injection En as <-; vm_compute; reflexivity|].
  exists pq, rs, pq'. split; [exact En|]. split; [exact Er|].
  vm_compute in En. injection En as <-. vm_compute in Er. injection Er as <- <-. by split.
Defined.

Lemma AddAll_Pop_sorts_witness :
  ∃ ys pq', (pq ← NewPriorityQueue 8; pq ← AddAll Z.ltb [5; 3; 9; 1; 5] pq; pop_all 0 Z.ltb 5 pq) = Ret (ys, pq') ∧
    ys ≡ₚ [5; 3; 9; 1; 5] ∧ Sorted (not_after Z.ltb) ys ∧ ys = [1; 3; 5; 5; 9].
Proof.
  destruct (AddAll_Pop_sorts 0 Z.ltb 8 [5; 3; 9; 1; 5]) as (ys & pq' & E & Hp & Hs & _); [cbn; lia|].
  exists ys, pq'. split_and!; [exact E|exact Hp|exact Hs|]. vm_compute in E. by injection E as <- _.
Defined.

Lemma InsertWithOverflow_keeps_largest_witness :
  ∃ ys pq', (pq ← NewPriorityQueue 2; insert_all 0 Z.ltb [5; 3; 9; 1; 7] pq) = Ret (ys, pq') ∧
    ys = [3; 1; 5] ∧ heap pq' = [7; 9] ∧ separated Z.ltb ys (heap pq').
Proof.
  destruct (InsertWithOverflow_keeps_largest 0 Z.ltb 2 [5; 3; 9; 1; 7]) as (ys & pq' & E & _ & Hsep & _); [lia|].
  exists ys, pq'. pose proof E as E'. vm_compute in E'. injection E' as <- <-. by split_and!.
Defined.
