(* ===== verification/FixedBitSet.v ===== *)
(** The bit set of [util/fixed_bit_set.go] and [fixed_bit_set_extensions.go],
    stored in 64-bit words: every operation against the set of positions it
    holds, bit by bit. *)

From stdpp Require Import base tactics numbers list strings.
From Stdlib Require Import ZArith Lia.
From S2P Require Import Prelude ArrayUtil WordBits.

Local Open Scope Z_scope.

(** * The bit set *)

Record FixedBitSet := { bits : list Z; size : Z }.

Definition set_bits (ws : list Z) (fs : FixedBitSet) : FixedBitSet := {| bits := ws; size := size fs |}.

Definition wordsNeeded (numBits : Z) : Z :=
  if numBits <=? 0 then 0 else Z.shiftr (numBits + 64 - 1) 6.

Definition NewFixedBitSet (numBits : Z) : M FixedBitSet :=
  if numBits <? 0 then Err (Errorf "numBits must be non-negative") else
  mret {| bits := repeat 0 (Z.to_nat (wordsNeeded numBits)); size := numBits |}.

Definition NewFixedBitSetOfBits (ws : list Z) (numBits : Z) : M FixedBitSet :=
  if numBits <? 0 then Err (Errorf "numBits must be non-negative") else
  let needed := wordsNeeded numBits in
  if Z.of_nat (length ws) <? needed then Err (Errorf "bits too short") else
  mret {| bits := take (Z.to_nat needed) ws; size := numBits |}.

Definition wordIndex (bitIndex : Z) : Z := Z.shiftr bitIndex 6.
Definition bitIndex (bitIndex : Z) : Z := Z.land bitIndex 63.

Definition check_index (index : Z) (fs : FixedBitSet) : M unit :=
  must (negb ((index <? 0) || (size fs <=? index))).

Definition Get (index : Z) (fs : FixedBitSet) : M bool :=
  check_index index fs ;;
  w ← aget (bits fs) (wordIndex index);
  mret (negb (Z.land w (shl64 1 (bitIndex index)) =? 0)).

(** [fs.bits[wordIdx] = f(fs.bits[wordIdx], 1 << bitIdx)] *)
Definition update_bit (f : Z → Z → Z) (index : Z) (fs : FixedBitSet) : M FixedBitSet :=
  check_index index fs ;;
  w ← aget (bits fs) (wordIndex index);
  ws ← aset (bits fs) (wordIndex index) (f w (shl64 1 (bitIndex index)));
  mret (set_bits ws fs).

Definition FBSet (index : Z) (fs : FixedBitSet) : M FixedBitSet := update_bit Z.lor index fs.
Definition Clear (index : Z) (fs : FixedBitSet) : M FixedBitSet := update_bit andnot index fs.
Definition Flip (index : Z) (fs : FixedBitSet) : M FixedBitSet := update_bit Z.lxor index fs.

Definition GetAndClear (index : Z) (fs : FixedBitSet) : M (bool * FixedBitSet) :=
  check_index index fs ;;
  w ← aget (bits fs) (wordIndex index);
  let mask := shl64 1 (bitIndex index) in
  let old := negb (Z.land w mask =? 0) in
  ws ← aset (bits fs) (wordIndex index) (andnot w mask);
  mret (old, set_bits ws fs).

Definition GetAndSet (i : Z) (fs : FixedBitSet) : M (bool * FixedBitSet) :=
  prev ← Get i fs; fs ← FBSet i fs; mret (prev, fs).

Definition ClearAll (fs : FixedBitSet) : FixedBitSet := set_bits (map (fun _ => 0) (bits fs)) fs.

Definition clearExtraBits (fs : FixedBitSet) : M FixedBitSet :=
  if size fs =? 0 then mret fs else
  let lastWord := wordIndex (size fs - 1) in
  let bitsInLastWord := size fs - lastWord * 64 in
  if bitsInLastWord <? 64 then
    let mask := shl64 1 bitsInLastWord - 1 in
    w ← aget (bits fs) lastWord;
    ws ← aset (bits fs) lastWord (Z.land w mask);
    mret (set_bits ws fs)
  else mret fs.

Definition SetAll (fs : FixedBitSet) : M FixedBitSet :=
  clearExtraBits (set_bits (map (fun _ => ones64) (bits fs)) fs).

Definition Not (fs : FixedBitSet) : M FixedBitSet :=
  clearExtraBits (set_bits (map not64 (bits fs)) fs).

(** [for i := range fs.bits { fs.bits[i] = f(fs.bits[i], other.bits[i]) }] *)
Definition combine (f : Z → Z → Z) (fs other : FixedBitSet) : M FixedBitSet :=
  if negb (size fs =? size other) then Err (Errorf "bitset sizes do not match") else
  ws ← go_for (length (bits fs)) 0 (fun i ws =>
    v ← aget ws i; w ← aget (bits other) i; aset ws i (f v w)) (bits fs);
  mret (set_bits ws fs).

Definition And (fs other : FixedBitSet) : M FixedBitSet := combine Z.land fs other.
Definition Or (fs other : FixedBitSet) : M FixedBitSet := combine Z.lor fs other.
Definition Xor (fs other : FixedBitSet) : M FixedBitSet := combine Z.lxor fs other.
Definition AndNot (fs other : FixedBitSet) : M FixedBitSet := combine andnot fs other.

(** [SetRange], [FlipRange] and [ClearRange] differ in what they do to the words at
    the ends of the range ([ends]) and between them ([middle]). *)
Definition write_range (ends : Z → Z → Z) (middle : Z → Z) (startIndex endIndex : Z) (fs : FixedBitSet)
  : M FixedBitSet :=
  if endIndex <=? startIndex then mret fs else
  let startWord := wordIndex startIndex in
  let endWord := wordIndex (endIndex - 1) in
  let startMask := shl64 ones64 (bitIndex startIndex) in
  let endMask := Z.shiftr ones64 (63 - bitIndex (endIndex - 1)) in
  if startWord =? endWord then
    w ← aget (bits fs) startWord;
    ws ← aset (bits fs) startWord (ends w (Z.land startMask endMask));
    mret (set_bits ws fs)
  else
    w ← aget (bits fs) startWord;
    ws ← aset (bits fs) startWord (ends w startMask);
    ws ← go_for (Z.to_nat (endWord - (startWord + 1))) (startWord + 1) (fun i ws =>
      w ← aget ws i; aset ws i (middle w)) ws;
    w ← aget ws endWord;
    ws ← aset ws endWord (ends w endMask);
    mret (set_bits ws fs).

(** [SetRange] and [FlipRange] check the range; [ClearRange] cuts it off. *)
Definition update_range (ends : Z → Z → Z) (middle : Z → Z) (startIndex endIndex : Z) (fs : FixedBitSet)
  : M FixedBitSet :=
  must (negb ((startIndex <? 0) || (size fs <? startIndex))) ;;
  must (negb ((endIndex <? 0) || (size fs <? endIndex))) ;;
  write_range ends middle startIndex endIndex fs.

Definition FlipRange (startIndex endIndex : Z) (fs : FixedBitSet) : M FixedBitSet :=
  update_range Z.lxor not64 startIndex endIndex fs.

Definition SetRange (startIndex endIndex : Z) (fs : FixedBitSet) : M FixedBitSet :=
  update_range Z.lor (fun _ => ones64) startIndex endIndex fs.

Definition ClearRange (startIndex endIndex : Z) (fs : FixedBitSet) : M FixedBitSet :=
  let startIndex := if startIndex <? 0 then 0 else startIndex in
  let endIndex := if size fs <? endIndex then size fs else endIndex in
  write_range andnot (fun _ => 0) startIndex endIndex fs.

(** * Searching *)

Fixpoint next_set_loop (fuel : nat) (ws : list Z) (wordIdx word : Z) : M Z :=
  match fuel with
  | O => NoFuel
  | S fuel =>
      if wordIdx <? Z.of_nat (length ws) then
        if negb (word =? 0) then mret (wordIdx * 64 + trailingZeros word) else
        let wordIdx := wordIdx + 1 in
        word ← (if wordIdx <? Z.of_nat (length ws) then aget ws wordIdx else mret word);
        next_set_loop fuel ws wordIdx word
      else mret (-1)
  end.

Definition NextSetBit (fromIndex : Z) (fs : FixedBitSet) : M Z :=
  if size fs <=? fromIndex then mret (-1) else
  let fromIndex := if fromIndex <? 0 then 0 else fromIndex in
  w ← aget (bits fs) (wordIndex fromIndex);
  let word := Z.land w (shl64 ones64 (bitIndex fromIndex)) in
  next_set_loop (S (length (bits fs))) (bits fs) (wordIndex fromIndex) word.

Fixpoint prev_set_loop (fuel : nat) (ws : list Z) (wordIdx word : Z) : M Z :=
  match fuel with
  | O => NoFuel
  | S fuel =>
      if 0 <=? wordIdx then
        if negb (word =? 0) then mret (wordIdx * 64 + 63 - leadingZeros word) else
        let wordIdx := wordIdx - 1 in
        word ← (if 0 <=? wordIdx then aget ws wordIdx else mret word);
        prev_set_loop fuel ws wordIdx word
      else mret (-1)
  end.

Definition PrevSetBit (fromIndex : Z) (fs : FixedBitSet) : M Z :=
  if fromIndex <? 0 then mret (-1) else
  let fromIndex := if size fs <=? fromIndex then size fs - 1 else fromIndex in
  let bitIdx := bitIndex fromIndex in
  w ← aget (bits fs) (wordIndex fromIndex);
  let word := if bitIdx =? 63 then w else Z.land w (shl64 1 (bitIdx + 1) - 1) in
  prev_set_loop (S (length (bits fs))) (bits fs) (wordIndex fromIndex) word.

Fixpoint next_clear_loop (fuel : nat) (fs : FixedBitSet) (wordIdx word : Z) : M Z :=
  match fuel with
  | O => NoFuel
  | S fuel =>
      if negb (word =? 0) then
        let result := wordIdx * 64 + trailingZeros word in
        mret (if size fs <=? result then size fs else result)
      else
        let wordIdx := wordIdx + 1 in
        if Z.of_nat (length (bits fs)) <=? wordIdx then mret (size fs) else
        w ← aget (bits fs) wordIdx;
        next_clear_loop fuel fs wordIdx (not64 w)
  end.

Definition NextClearBit (fromIndex : Z) (fs : FixedBitSet) : M Z :=
  check_index fromIndex fs ;;
  w ← aget (bits fs) (wordIndex fromIndex);
  let word := Z.land (not64 w) (shl64 ones64 (bitIndex fromIndex)) in
  next_clear_loop (S (length (bits fs))) fs (wordIndex fromIndex) word.

(** * Counting *)

Definition sum_popcounts (ws : list Z) : Z := foldl (fun count word => count + popcount word) 0 ws.

Definition Cardinality (fs : FixedBitSet) : Z := sum_popcounts (bits fs).

Definition CardinalityRange (from to_ : Z) (fs : FixedBitSet) : M Z :=
  must (negb ((from <? 0) || (to_ <? from) || (size fs <? to_))) ;;
  '(cardinality, from, done) ←
    (if negb (Z.land from 63 =? 0) then
       w ← aget (bits fs) (Z.shiftr from 6);
       let word := Z.shiftr w (Z.land from 63) in
       let numBitsTilNextWord := Z.land (- from) 63 in
       if to_ - from <? numBitsTilNextWord then
         mret (popcount (Z.land word (shl64 1 (to_ - from) - 1)), from, true)
       else mret (popcount word, from + numBitsTilNextWord, false)
     else mret (0, from, false));
  if (done : bool) then mret cardinality else
  cardinality ← go_for (Z.to_nat (Z.shiftr to_ 6 - Z.shiftr from 6)) (Z.shiftr from 6) (fun i c =>
    w ← aget (bits fs) i; mret (c + popcount w)) cardinality;
  if negb (Z.land to_ 63 =? 0) then
    w ← aget (bits fs) (Z.shiftr to_ 6);
    mret (cardinality + popcount (shl64 w (Z.land (- to_) 63)))
  else mret cardinality.

Definition IsEmpty (fs : FixedBitSet) : bool := forallb (fun word => word =? 0) (bits fs).

(** [for i := 0; i < n; i++ { count += popcount(f(a.bits[i], b.bits[i])) }] *)
Definition count_common (f : Z → Z → Z) (a b : FixedBitSet) : Z :=
  sum_popcounts (zip_with f (bits a) (bits b)).

(** The words of [a] from the common length on. *)
Definition count_rest (a b : FixedBitSet) : Z :=
  sum_popcounts (drop (length (bits a) `min` length (bits b)) (bits a)).

Definition IntersectionCount (a b : FixedBitSet) : Z := count_common Z.land a b.
Definition UnionCount (a b : FixedBitSet) : Z := count_common Z.lor a b + count_rest a b + count_rest b a.
Definition AndNotCount (a b : FixedBitSet) : Z := count_common andnot a b + count_rest a b.

Definition Intersects (fs other : FixedBitSet) : bool :=
  existsb (fun w => negb (w =? 0)) (zip_with Z.land (bits fs) (bits other)).

Definition Equals (fs other : FixedBitSet) : bool :=
  if negb (size fs =? size other) then false else bool_decide (bits fs = bits other).

(** * Copying *)

Definition readNBits (ws : list Z) (from numBits : Z) : M Z :=
  w ← aget ws (Z.shiftr from 6);
  let word := Z.shiftr w (Z.land from 63) in
  let numBitsSoFar := 64 - Z.land from 63 in
  word ← (if numBitsSoFar <? numBits then
            w' ← aget ws (Z.shiftr from 6 + 1);
            mret (Z.lor word (shl64 w' (64 - Z.land from 63)))
          else mret word);
  mret (Z.land word (shl64 1 numBits - 1)).

(** [destBits[i] |= x] *)
Definition or_word (ws : list Z) (i x : Z) : M (list Z) := w ← aget ws i; aset ws i (Z.lor w x).

Definition FixedBitSetOrRange (source : FixedBitSet) (sourceFrom : Z) (dest : FixedBitSet)
    (destFrom length_ : Z) : M FixedBitSet :=
  must (negb ((length_ <? 0) || (sourceFrom <? 0) || (destFrom <? 0) ||
              (size source - length_ <? sourceFrom) || (size dest - length_ <? destFrom))) ;;
  if length_ =? 0 then mret dest else
  '(destBits, sourceFrom, destFrom, length_) ←
    (if negb (Z.land destFrom 63 =? 0) then
       let numBitsNeeded := Z.min (64 - Z.land destFrom 63) length_ in
       x ← readNBits (bits source) sourceFrom numBitsNeeded;
       destBits ← or_word (bits dest) (Z.shiftr destFrom 6) (shl64 x (Z.land destFrom 63));
       mret (destBits, sourceFrom + numBitsNeeded, destFrom + numBitsNeeded, length_ - numBitsNeeded)
     else mret (bits dest, sourceFrom, destFrom, length_));
  if length_ =? 0 then mret (set_bits destBits dest) else
  let numFullWords := Z.shiftr length_ 6 in
  let sourceWordFrom := Z.shiftr sourceFrom 6 in
  let destWordFrom := Z.shiftr destFrom 6 in
  destBits ←
    (if Z.land sourceFrom 63 =? 0 then
       go_for (Z.to_nat numFullWords) 0 (fun i destBits =>
         x ← aget (bits source) (sourceWordFrom + i);
         or_word destBits (destWordFrom + i) x) destBits
     else
       go_for (Z.to_nat numFullWords) 0 (fun i destBits =>
         x ← aget (bits source) (sourceWordFrom + i);
         y ← aget (bits source) (sourceWordFrom + i + 1);
         or_word destBits (destWordFrom + i)
           (Z.lor (Z.shiftr x (Z.land sourceFrom 63)) (shl64 y (64 - Z.land sourceFrom 63)))) destBits);
  let sourceFrom := sourceFrom + Z.shiftl numFullWords 6 in
  let destFrom := destFrom + Z.shiftl numFullWords 6 in
  let length_ := length_ - Z.shiftl numFullWords 6 in
  destBits ←
    (if 0 <? length_ then
       x ← readNBits (bits source) sourceFrom length_;
       or_word destBits (Z.shiftr destFrom 6) x
     else mret destBits);
  mret (set_bits destBits dest).

Definition bits2words (numBits : Z) : Z := Z.shiftr (numBits - 1) 6 + 1.

Definition FixedBitSetBits2Words (numBits : Z) : Z := bits2words numBits.

Definition ensureCapacityInternal (fs : FixedBitSet) (desiredBit : Z) (preserveData : bool) : M FixedBitSet :=
  if desiredBit <? size fs then mret (if preserveData then fs else ClearAll fs) else
  let numWords := bits2words desiredBit in
  arr ← (if Z.of_nat (length (bits fs)) <=? numWords then
           if preserveData then GrowExact (bits fs) (numWords + 1)
           else n ← oversize Panic (numWords + 1) 8; mret (repeat 0 (Z.to_nat n))
         else mret (bits fs));
  mret {| bits := arr; size := Z.shiftl (Z.of_nat (length arr)) 6 |}.

Definition FixedBitSetEnsureCapacity (fs : FixedBitSet) (desiredBit : Z) : M FixedBitSet :=
  ensureCapacityInternal fs desiredBit true.

Definition EnsureCapacityAndClear (fs : FixedBitSet) (desiredBit : Z) : M FixedBitSet :=
  ensureCapacityInternal fs desiredBit false.

Example bit_set_run :
  (fs ← NewFixedBitSet 200;
   fs ← SetRange 10 140 fs; fs ← Clear 64 fs; fs ← FlipRange 130 150 fs; fs ← FBSet 199 fs;
   a ← NextSetBit 128 fs; b ← NextSetBit 150 fs; c ← PrevSetBit 198 fs; d ← NextClearBit 11 fs;
   n ← CardinalityRange 60 135 fs;
   e ← NewFixedBitSet 100; e ← FixedBitSetOrRange fs 55 e 3 90;
   x ← NextClearBit 3 e;
   mret (a, b, c, d, Cardinality fs, n, x, Cardinality e)) = Ret (128, 199, 149, 64, 130, 69, 12, 79).
Proof. vm_compute. reflexivity. Qed.

Lemma wordIndex_div i : wordIndex i = i / 64.
Proof. apply shiftr6. Qed.

Lemma bitIndex_mod i : bitIndex i = i mod 64.
Proof. apply land63. Qed.

(** * The positions a bit set holds *)

Definition fbit (fs : FixedBitSet) (i : Z) : bool := bit (bits fs) i.

(** Enough words, and no bits beyond the size. *)
Record wf (fs : FixedBitSet) : Prop := {
  wf_size : 0 ≤ size fs;
  wf_length : Z.of_nat (length (bits fs)) = (size fs + 63) / 64;
  wf_words : Forall is_word (bits fs);
  wf_ghost : ∀ i, size fs ≤ i < 64 * Z.of_nat (length (bits fs)) → fbit fs i = false
}.

Lemma wf_in fs i : wf fs → 0 ≤ i < size fs → 0 ≤ i / 64 < Z.of_nat (length (bits fs)).
Proof. intros W Hi. rewrite (wf_length _ W). idx. Qed.

Lemma bit_map f ws i :
  0 ≤ i < 64 * Z.of_nat (length ws) → bit (map f ws) i = Z.testbit (f (nthZ 0 ws (i / 64))) (i mod 64).
Proof.
  intros Hi. unfold bit. f_equal. unfold nthZ. rewrite list_lookup_fmap.
  destruct (lookup_lt_is_Some_2 ws (Z.to_nat (i / 64))) as [w ->]; [idx|done].
Qed.

(** New words of the right shape make a well-formed set again. *)
Lemma wf_set_bits fs ws :
  wf fs → length ws = length (bits fs) → Forall is_word ws →
  (∀ i, size fs ≤ i < 64 * Z.of_nat (length ws) → bit ws i = false) → wf (set_bits ws fs).
Proof. intros W Hlen Hws Hg. split; cbn; [apply W|rewrite Hlen; apply W|done|done]. Qed.

(** [becomes fs P fs']: [fs'] is a set of the same size that holds [P]. *)
Definition becomes (fs : FixedBitSet) (P : Z → bool) (fs' : FixedBitSet) : Prop :=
  wf fs' ∧ size fs' = size fs ∧ ∀ i, 0 ≤ i < size fs → fbit fs' i = P i.

Lemma becomes_set_bits fs ws P :
  wf fs → length ws = length (bits fs) → Forall is_word ws →
  (∀ i, 0 ≤ i < 64 * Z.of_nat (length ws) → bit ws i = if i <? size fs then P i else false) →
  becomes fs P (set_bits ws fs).
Proof.
  intros W Hlen Hws HP. pose proof (wf_size _ W). split; [|split; [done|]].
  - apply wf_set_bits; try done. intros i Hi. rewrite HP by lia. by rewrite (proj2 (Z.ltb_ge _ _)) by lia.
  - intros i Hi. unfold fbit. cbn. rewrite HP; [by rewrite (proj2 (Z.ltb_lt _ _)) by lia|].
    rewrite Hlen, (wf_length _ W). idx.
Qed.

(** A position beyond the size is not set. *)
Lemma fbit_beyond fs i :
  wf fs → 0 ≤ i < 64 * Z.of_nat (length (bits fs)) → fbit fs i = if i <? size fs then fbit fs i else false.
Proof. intros W Hi. destruct (Z.ltb_spec i (size fs)); [done|]. apply (wf_ghost _ W). lia. Qed.

(** ** Single bits *)

Lemma check_index_spec i fs : check_index i fs = if in_range i (size fs) then Ret tt else Panic.
Proof.
  unfold check_index, must, in_range.
  destruct (Z.ltb_spec i 0), (Z.leb_spec (size fs) i), (Z.leb_spec 0 i), (Z.ltb_spec i (size fs)); try done; lia.
Qed.

Lemma update_bit_spec f u i fs :
  Bitwise f u → (∀ b, u b false = b) → wf fs →
  if in_range i (size fs)
  then ∃ fs', update_bit f i fs = Ret fs' ∧
       becomes fs (fun j => if j =? i then u (fbit fs i) true else fbit fs j) fs'
  else update_bit f i fs = Panic.
Proof.
  intros Hf Hu W. unfold update_bit. rewrite check_index_spec.
  destruct (in_range i (size fs)) eqn:Hi; [|done]. apply in_range_spec in Hi.
  cbn [mbind go_bind]. rewrite wordIndex_div, bitIndex_mod. pose proof (wf_in fs i W Hi) as Hw.
  rewrite (nthZ_aget 0), go_bind_ret, aset_Ret, go_bind_ret by done. eexists. split; [done|].
  apply becomes_set_bits; [done|apply length_insert| |].
  - apply Forall_insert; [apply W|]. apply bitwise_word; auto with words. apply word_at, W.
  - rewrite length_insert. intros j Hj. rewrite bit_insert by (done || lia).
    destruct (Z.ltb_spec j (size fs)) as [Hjs|Hjs].
    + case_decide as E.
      * rewrite bitwise_bit, testbit_bit by idx. 
        destruct (Z.eqb_spec (j mod 64) (i mod 64)), (Z.eqb_spec j i); try idx.
        { subst. done. } rewrite Hu, <- E. done.
      * destruct (Z.eqb_spec j i); [congruence|done].
    + case_decide as E; [|apply (wf_ghost _ W); lia].
      rewrite bitwise_bit, testbit_bit by idx. destruct (Z.eqb_spec (j mod 64) (i mod 64)); [idx|].
      rewrite Hu, <- E. apply (wf_ghost _ W); lia.
Qed.

Lemma Get_spec i fs :
  wf fs → Get i fs = if in_range i (size fs) then Ret (fbit fs i) else Panic.
Proof.
  intros W. unfold Get. rewrite check_index_spec. destruct (in_range i (size fs)) eqn:Hi; [|done].
  apply in_range_spec in Hi. cbn [mbind go_bind]. rewrite wordIndex_div, bitIndex_mod.
  rewrite (nthZ_aget 0), go_bind_ret by (by apply wf_in).
  rewrite land_bit_zero; [done|idx|apply word_at, W].
Qed.

Lemma GetAndClear_Clear i fs :
  GetAndClear i fs = (b ← Get i fs; fs' ← Clear i fs; mret (b, fs')).
Proof.
  unfold GetAndClear, Get, Clear, update_bit. destruct (check_index i fs); [|done..].
  cbn [mbind go_bind]. destruct (aget (bits fs) (wordIndex i)); [|done..]. cbn.
  by destruct (aset _ _ _).
Qed.

(** ** All bits *)

Lemma clearExtraBits_spec fs ws P :
  wf fs → length ws = length (bits fs) → Forall is_word ws →
  (∀ i, 0 ≤ i < size fs → bit ws i = P i) →
  ∃ fs', clearExtraBits (set_bits ws fs) = Ret fs' ∧ becomes fs P fs'.
Proof.
  intros W Hlen Hws HP. pose proof (wf_size _ W) as Hs. pose proof (wf_length _ W) as Hl.
  unfold clearExtraBits. cbn [size bits set_bits]. destruct (Z.eqb_spec (size fs) 0) as [E0|E0].
  { eexists. split; [done|]. apply becomes_set_bits; try done. intros i Hi. rewrite E0 in *. idx. }
  rewrite wordIndex_div. set (n := size fs - (size fs - 1) / 64 * 64).
  assert (Hn : 1 ≤ n ≤ 64) by (unfold n; idx).
  destruct (Z.ltb_spec n 64) as [Hlt|Hge].
  - rewrite (nthZ_aget 0), go_bind_ret, aset_Ret, go_bind_ret by (rewrite Hlen, Hl; idx).
    eexists. split; [done|]. apply (becomes_set_bits fs _ P); rewrite ?length_insert; try done.
    + apply Forall_insert; [done|]. apply land_uint; [done|apply (word_at ws _ Hws)|apply low_word; lia].
    + intros i Hi. rewrite bit_insert by (rewrite ?Hlen, ?Hl; idx). case_decide as E.
      * rewrite Z.land_spec, testbit_low by idx.
        destruct (Z.ltb_spec (i mod 64) n), (Z.ltb_spec i (size fs)); unfold n in *; try idx.
        rewrite andb_true_r, <- E. apply HP. lia.
      * rewrite (proj2 (Z.ltb_lt i (size fs))); [apply HP|]; rewrite Hlen, Hl in Hi; idx.
  - eexists. split; [done|]. apply becomes_set_bits; try done. intros i Hi.
    rewrite (proj2 (Z.ltb_lt i (size fs))); [apply HP|]; rewrite Hlen, Hl in Hi; unfold n in *; idx.
Qed.

Lemma Forall_map_word f ws : Forall is_word ws → (∀ w, is_word w → is_word (f w)) → Forall is_word (map f ws).
Proof. intros H Hf. apply Forall_fmap. eapply Forall_impl; [exact H|]. intros w Hw. by apply Hf. Qed.

Lemma bit_in_words fs i : wf fs → 0 ≤ i < size fs → 0 ≤ i < 64 * Z.of_nat (length (bits fs)).
Proof. intros W Hi. rewrite (wf_length _ W). idx. Qed.

Lemma SetAll_spec fs : wf fs → ∃ fs', SetAll fs = Ret fs' ∧ becomes fs (fun _ => true) fs'.
Proof.
  intros W. apply clearExtraBits_spec; [done|apply length_map|by apply Forall_map_word; [apply W|]|].
  intros i Hi. rewrite bit_map, testbit_ones64 by (idx || by apply bit_in_words). apply Z.ltb_lt. idx.
Qed.

Lemma Not_spec fs : wf fs → ∃ fs', Not fs = Ret fs' ∧ becomes fs (fun i => negb (fbit fs i)) fs'.
Proof.
  intros W. apply clearExtraBits_spec; [done|apply length_map|apply Forall_map_word; [apply W|auto with words]|].
  intros i Hi. rewrite bit_map, testbit_not64 by (idx || by apply bit_in_words). done.
Qed.

Lemma ClearAll_spec fs : wf fs → becomes fs (fun _ => false) (ClearAll fs).
Proof.
  intros W. apply becomes_set_bits; [done|apply length_map|by apply Forall_map_word; [apply W|]|].
  intros i Hi. rewrite length_map in Hi. rewrite bit_map, Z.testbit_0_l by done. by destruct (i <? size fs).
Qed.

Lemma combine_spec f u fs other :
  Bitwise f u → u false false = false → wf fs → wf other →
  if size fs =? size other
  then ∃ fs', combine f fs other = Ret fs' ∧ becomes fs (fun i => u (fbit fs i) (fbit other i)) fs'
  else ∃ e, combine f fs other = Err e.
Proof.
  intros Hf Hu W Wo. unfold combine. destruct (Z.eqb_spec (size fs) (size other)) as [Es|Es]; cbn [negb]; [|by eexists].
  assert (Hlen : length (bits other) = length (bits fs)).
  { apply Nat2Z.inj. by rewrite (wf_length _ W), (wf_length _ Wo), Es. }
  edestruct (go_for_inv (E:=goerr) (fun i ws => length ws = length (bits fs) ∧ Forall is_word ws ∧
    ∀ j, 0 ≤ j < 64 * Z.of_nat (length (bits fs)) →
      bit ws j = if j / 64 <? i then u (fbit fs j) (fbit other j) else fbit fs j)
    (length (bits fs)) 0) as (ws & -> & Hl & Hws & Hb); cycle 2.
  - rewrite go_bind_ret. eexists. split; [done|]. apply becomes_set_bits; try done. rewrite Hl.
    intros i Hi. rewrite Hb, (proj2 (Z.ltb_lt (i / 64) _)) by idx.
    destruct (Z.ltb_spec i (size fs)); [done|]. rewrite (wf_ghost fs W), (wf_ghost other Wo); [done|lia..].
  - split_and!; [done|apply W|]. intros j Hj. by rewrite (proj2 (Z.ltb_ge _ _)) by idx.
  - intros i ws Hi (Hl & Hws & Hb).
    rewrite (nthZ_aget 0 ws), go_bind_ret, (nthZ_aget 0 (bits other)), go_bind_ret, aset_Ret by lia.
    eexists. split; [done|]. split_and!; [by rewrite length_insert| |].
    + apply Forall_insert; [done|]. apply bitwise_word; by apply word_at, Wo || by apply word_at.
    + intros j Hj. rewrite bit_insert by lia. case_decide as E.
      * rewrite bitwise_bit by idx. rewrite (proj2 (Z.ltb_lt (j / 64) (i + 1))) by lia.
        assert (Z.testbit (nthZ 0 ws i) (j mod 64) = fbit fs j) as ->.
        { rewrite <- E. fold (bit ws j). rewrite Hb by done. by rewrite (proj2 (Z.ltb_ge _ _)) by lia. }
        rewrite <- E. done.
      * rewrite Hb by done. destruct (Z.ltb_spec (j / 64) i), (Z.ltb_spec (j / 64) (i + 1)); (done || lia).
Qed.

(** ** Ranges *)

Section range.
Context (f : Z → Z → Z) (u : bool → bool → bool) (middle : Z → Z) `{!Bitwise f u}.
Context (Hu : ∀ b, u b false = b).
Context (Hmid : ∀ w, is_word w → is_word (middle w) ∧
  ∀ k, 0 ≤ k < 64 → Z.testbit (middle w) k = u (Z.testbit w k) true).

Definition range_bit (P : Z → bool) (a b i : Z) : bool :=
  if (a <=? i) && (i <? b) then u (P i) true else P i.

(** A word combined with a mask that selects the positions of the range in it. *)
Lemma masked_bit fs w v mask a b j :
  is_word v → is_word mask → j / 64 = w → Z.testbit v (j mod 64) = fbit fs j →
  Z.testbit mask (j mod 64) = (a <=? j) && (j <? b) →
  Z.testbit (f v mask) (j mod 64) = range_bit (fbit fs) a b j.
Proof.
  intros Hv Hm Hj Eb Em. rewrite bitwise_bit, Eb, Em by idx. unfold range_bit.
  destruct ((a <=? j) && (j <? b)); [done|apply Hu].
Qed.

Ltac bools :=
  repeat match goal with
         | |- context [?x <=? ?y] => destruct (Z.leb_spec x y)
         | |- context [?x <? ?y] => destruct (Z.ltb_spec x y)
         end; try done; idx.

Lemma update_range_words fs a b :
  wf fs → 0 ≤ a < b → b ≤ size fs →
  let sw := a / 64 in let ew := (b - 1) / 64 in
  let startMask := shl64 ones64 (a mod 64) in
  let endMask := Z.shiftr ones64 (63 - (b - 1) mod 64) in
  ∃ ws, (if sw =? ew then
           w ← @aget goerr _ (bits fs) sw;
           aset (bits fs) sw (f w (Z.land startMask endMask))
         else
           w ← aget (bits fs) sw;
           ws ← aset (bits fs) sw (f w startMask);
           ws ← go_for (Z.to_nat (ew - (sw + 1))) (sw + 1) (fun i ws =>
             w ← aget ws i; aset ws i (middle w)) ws;
           w ← aget ws ew;
           aset ws ew (f w endMask)) = Ret ws ∧
    length ws = length (bits fs) ∧ Forall is_word ws ∧
    ∀ j, 0 ≤ j < 64 * Z.of_nat (length (bits fs)) → bit ws j = range_bit (fbit fs) a b j.
Proof.
  intros W Ha Hb sw ew sm em.
  pose proof (wf_in fs a W ltac:(lia)) as Hsw. pose proof (wf_in fs (b - 1) W ltac:(lia)) as Hew.
  assert (Hsm : ∀ k, 0 ≤ k < 64 → Z.testbit sm k = (a mod 64 <=? k)) by (intros; apply testbit_start; idx).
  assert (Hem : ∀ k, 0 ≤ k < 64 → Z.testbit em k = (k <=? (b - 1) mod 64)) by (intros; apply testbit_end; idx).
  assert (Hsmw : is_word sm) by apply shl64_word.
  assert (Hemw : is_word em) by (apply shiftr_uint; [idx|done]).
  destruct (Z.eqb_spec sw ew) as [E|E].
  - rewrite (nthZ_aget 0), go_bind_ret, aset_Ret by done. eexists. split; [done|].
    split_and!; [apply length_insert| |].
    + apply Forall_insert; [apply W|]. apply bitwise_word; [apply word_at, W|]. by apply land_bitwise.
    + intros j Hj. rewrite bit_insert by (done || lia). case_decide as Ej.
      * apply masked_bit with sw; try done.
        { apply word_at, W. } { by apply land_bitwise. } { by rewrite <- Ej. }
        rewrite Z.land_spec, Hsm, Hem by idx. unfold sw, ew in *. bools.
      * unfold range_bit, sw, ew in *. bools.
  - assert (Hlt : sw < ew) by (unfold sw, ew in *; idx).
    rewrite (nthZ_aget 0), go_bind_ret, aset_Ret, go_bind_ret by done.
    edestruct (go_for_inv (E:=goerr) (fun i ws => length ws = length (bits fs) ∧ Forall is_word ws ∧
      ∀ j, 0 ≤ j < 64 * Z.of_nat (length (bits fs)) →
        bit ws j = if j / 64 <? i then range_bit (fbit fs) a b j else fbit fs j)
      (Z.to_nat (ew - (sw + 1))) (sw + 1)) as (ws & -> & Hl & Hws & Hbit); cycle 2.
    + replace (sw + 1 + Z.of_nat (Z.to_nat (ew - (sw + 1)))) with ew in Hbit by lia.
      rewrite go_bind_ret, (nthZ_aget 0), go_bind_ret, aset_Ret by (rewrite Hl; done).
      eexists. split; [done|]. split_and!; [by rewrite length_insert| |].
      * apply Forall_insert; [done|]. apply bitwise_word; [by apply word_at|done].
      * intros j Hj. rewrite bit_insert by (rewrite ?Hl; done || lia). case_decide as Ej.
        { apply masked_bit with ew; try done.
          - by apply word_at.
          - rewrite <- Ej. fold (bit ws j). rewrite Hbit by done. by rewrite (proj2 (Z.ltb_ge _ _)) by lia.
          - rewrite Hem by idx. unfold sw, ew in *. bools. }
        rewrite Hbit by done. destruct (Z.ltb_spec (j / 64) ew); [done|].
        unfold range_bit, sw, ew in *. bools.
    + split_and!; [apply length_insert| |].
      * apply Forall_insert; [apply W|]. apply bitwise_word; [apply word_at, W|done].
      * intros j Hj. rewrite bit_insert by (done || lia). case_decide as Ej.
        { rewrite (proj2 (Z.ltb_lt _ _)) by lia. apply masked_bit with sw; try done.
          - apply word_at, W.
          - by rewrite <- Ej.
          - rewrite Hsm by idx. unfold sw, ew in *. bools. }
        destruct (Z.ltb_spec (j / 64) (sw + 1)); [|done]. unfold range_bit, sw, ew in *. bools.
    + intros i ws Hi (Hl & Hws & Hbit). rewrite (nthZ_aget 0), go_bind_ret, aset_Ret by lia.
      eexists. split; [done|]. destruct (Hmid (nthZ 0 ws i)) as [Hmw Hmb]; [by apply word_at|].
      split_and!; [by rewrite length_insert|by apply Forall_insert|].
      intros j Hj. rewrite bit_insert by lia. case_decide as Ej.
      * rewrite (proj2 (Z.ltb_lt (j / 64) (i + 1))) by lia. rewrite Hmb, <- Ej by idx. fold (bit ws j).
        rewrite Hbit by done. rewrite (proj2 (Z.ltb_ge _ _)) by lia. unfold range_bit, sw, ew in *.
        rewrite (proj2 (Z.leb_le a j)), (proj2 (Z.ltb_lt j b)) by idx. done.
      * rewrite Hbit by done. destruct (Z.ltb_spec (j / 64) i), (Z.ltb_spec (j / 64) (i + 1)); (done || lia).
Qed.

Definition valid_range (a b n : Z) : bool := (0 <=? a) && (a <=? n) && (0 <=? b) && (b <=? n).

(** The part of the range from 0 on; above the size, nothing is there to write. *)
Lemma write_range_spec fs a b :
  wf fs → 0 ≤ a → b ≤ size fs →
  ∃ fs', write_range f middle a b fs = Ret fs' ∧ becomes fs (range_bit (fbit fs) a b) fs'.
Proof.
  intros W Ha Hb. unfold write_range. destruct (Z.leb_spec b a) as [Hba|Hab].
  - exists fs. split; [done|]. split_and!; [done..|]. intros i Hi. unfold range_bit. bools.
  - rewrite !wordIndex_div, !bitIndex_mod.
    destruct (update_range_words fs a b W) as (ws & E & Hl & Hws & Hbit); [lia..|].
    assert (Hbecomes : becomes fs (range_bit (fbit fs) a b) (set_bits ws fs)).
    { apply becomes_set_bits; try done. intros i Hi. rewrite Hbit by (rewrite <- Hl; done).
      destruct (Z.ltb_spec i (size fs)); [done|]. unfold range_bit.
      rewrite (proj2 (Z.ltb_ge i b)), andb_false_r by lia. apply (wf_ghost _ W). rewrite <- Hl. lia. }
    exists (set_bits ws fs). split; [|done]. cbv zeta in E.
    destruct (a / 64 =? (b - 1) / 64).
    + apply go_bind_Ret_inv in E as (w & -> & E). by rewrite go_bind_ret, E.
    + apply go_bind_Ret_inv in E as (w & -> & E). apply go_bind_Ret_inv in E as (ws1 & E1 & E).
      apply go_bind_Ret_inv in E as (ws2 & E2 & E). apply go_bind_Ret_inv in E as (w' & E3 & E).
      by rewrite go_bind_ret, E1, go_bind_ret, E2, go_bind_ret, E3, go_bind_ret, E.
Qed.

Lemma update_range_spec fs a b :
  wf fs →
  if valid_range a b (size fs)
  then ∃ fs', update_range f middle a b fs = Ret fs' ∧ becomes fs (range_bit (fbit fs) a b) fs'
  else update_range f middle a b fs = Panic.
Proof.
  intros W. unfold update_range, valid_range, must.
  destruct (Z.ltb_spec a 0), (Z.leb_spec 0 a); try lia; cbn [orb andb negb]; [done|].
  destruct (Z.ltb_spec (size fs) a), (Z.leb_spec a (size fs)); try lia; cbn [orb andb negb]; [done|].
  destruct (Z.ltb_spec b 0), (Z.leb_spec 0 b); try lia; cbn [orb andb negb]; [done|].
  destruct (Z.ltb_spec (size fs) b), (Z.leb_spec b (size fs)); try lia; cbn [orb andb negb]; [done|].
  rewrite !go_bind_ret. by apply write_range_spec.
Qed.
End range.

Lemma becomes_ext fs fs' P Q :
  (∀ i, 0 ≤ i < size fs → P i = Q i) → becomes fs P fs' → becomes fs Q fs'.
Proof.
  intros HPQ (W & Hs & HP). split_and!; [done..|]. intros i Hi. by rewrite HP, HPQ.
Qed.

Lemma xor_false_r b : xorb b false = b.
Proof. by destruct b. Qed.

Lemma middle_ones w : is_word w → is_word ones64 ∧ ∀ k, 0 ≤ k < 64 → Z.testbit ones64 k = Z.testbit w k || true.
Proof. intros Hw. split; [done|]. intros k Hk. rewrite testbit_ones64, orb_true_r by lia. apply Z.ltb_lt. lia. Qed.

Lemma middle_not w : is_word w → is_word (not64 w) ∧ ∀ k, 0 ≤ k < 64 → Z.testbit (not64 w) k = xorb (Z.testbit w k) true.
Proof. intros Hw. split; [auto with words|]. intros k Hk. by rewrite testbit_not64, xorb_true_r. Qed.

Lemma middle_zero w : is_word w → is_word 0 ∧ ∀ k, 0 ≤ k < 64 → Z.testbit 0 k = Z.testbit w k && negb true.
Proof. intros Hw. split; [done|]. intros k Hk. by rewrite Z.testbit_0_l, andb_false_r. Qed.

Lemma SetRange_spec a b fs :
  wf fs →
  if valid_range a b (size fs)
  then ∃ fs', SetRange a b fs = Ret fs' ∧ becomes fs (fun i => fbit fs i || (a <=? i) && (i <? b)) fs'
  else SetRange a b fs = Panic.
Proof.
  intros W. pose proof (update_range_spec Z.lor orb _ orb_false_r middle_ones fs a b W) as Hs.
  destruct (valid_range a b (size fs)); [|exact Hs]. destruct Hs as (fs' & E & Hb). exists fs'. split; [exact E|].
  eapply becomes_ext; [|exact Hb]. intros i Hi. unfold range_bit. destruct ((a <=? i) && (i <? b)); [done|by rewrite orb_false_r].
Qed.

Lemma NewFixedBitSet_spec n : 0 ≤ n → ∃ fs, NewFixedBitSet n = Ret fs ∧ wf fs ∧ size fs = n ∧ ∀ i, fbit fs i = false.
Proof.
  intros Hn. unfold NewFixedBitSet. destruct (Z.ltb_spec n 0); [lia|]. eexists. split; [done|].
  assert (Hb : ∀ k i, bit (repeat 0 k) i = false).
  { intros k i. unfold bit, nthZ. destruct (repeat 0 k !! Z.to_nat (i / 64)) eqn:E; [|by rewrite Z.testbit_0_l].
    apply list_elem_of_lookup_2, list_elem_of_In, repeat_spec in E. subst. by rewrite Z.testbit_0_l. }
  split_and!; [|done|intros; apply Hb]. split; cbn; [done| | |intros; apply Hb].
  - rewrite repeat_length. unfold wordsNeeded. destruct (Z.leb_spec n 0); [idx|].
    rewrite shiftr6. idx.
  - apply Forall_forall. intros x Hx%list_elem_of_In%repeat_spec. by subst.
Qed.

(** * Searching *)

(** ** The next and the previous set bit *)

Lemma bit_word ws w k : 0 ≤ k < 64 → bit ws (64 * w + k) = Z.testbit (nthZ 0 ws w) k.
Proof.
  intros Hk. unfold bit. replace ((64 * w + k) / 64) with w by idx.
  by replace ((64 * w + k) mod 64) with k by idx.
Qed.

Lemma split_index i : i = 64 * (i / 64) + i mod 64 ∧ 0 ≤ i mod 64 < 64.
Proof. idx. Qed.

(** [word] holds the positions of [P] in the word [w]. *)
Definition word_of (P : Z → bool) (w word : Z) : Prop :=
  is_word word ∧ ∀ k, 0 ≤ k < 64 → Z.testbit word k = P (64 * w + k).

Lemma word_of_zero P w word : word_of P w word → word = 0 → ∀ i, 64 * w ≤ i < 64 * w + 64 → P i = false.
Proof.
  intros [Hw HP] -> i Hi. replace i with (64 * w + (i - 64 * w)) by lia.
  rewrite <- HP by lia. apply Z.testbit_0_l.
Qed.

Lemma word_of_first P w word :
  word_of P w word → word ≠ 0 →
  let r := w * 64 + trailingZeros word in
  64 * w ≤ r < 64 * w + 64 ∧ P r = true ∧ ∀ i, 64 * w ≤ i < r → P i = false.
Proof.
  intros [Hw HP] H0 r. destruct (trailingZeros_spec word Hw H0) as (Hr & Hb & Hlow). unfold r.
  split_and!; [lia|lia|rewrite HP in Hb by lia; rewrite <- Hb; f_equal; lia|].
  intros i Hi. replace i with (64 * w + (i - 64 * w)) by lia. rewrite <- HP by lia. apply Hlow. lia.
Qed.

Lemma word_of_last P w word :
  word_of P w word → word ≠ 0 →
  let r := w * 64 + 63 - leadingZeros word in
  64 * w ≤ r < 64 * w + 64 ∧ P r = true ∧ ∀ i, r < i < 64 * w + 64 → P i = false.
Proof.
  intros [Hw HP] H0 r. unfold r. rewrite leadingZeros_spec by done.
  assert (Hpos : 0 < word) by (destruct Hw; lia). pose proof (Z.log2_nonneg word).
  assert (Z.log2 word < 64) by (apply Z.log2_lt_pow2; [done|apply Hw]).
  split_and!; [lia|lia| |].
  - replace (w * 64 + 63 - (63 - Z.log2 word)) with (64 * w + Z.log2 word) by lia.
    rewrite <- HP by lia. by apply Z.bit_log2.
  - intros i Hi. replace i with (64 * w + (i - 64 * w)) by lia. rewrite <- HP by lia.
    apply Z.bits_above_log2; lia.
Qed.

Lemma next_set_loop_spec P ws :
  Forall is_word ws → ∀ fuel w word,
  Z.of_nat (length ws) - w < Z.of_nat fuel → 0 ≤ w ≤ Z.of_nat (length ws) →
  (w < Z.of_nat (length ws) → word_of P w word) →
  (∀ i, 64 * (w + 1) ≤ i < 64 * Z.of_nat (length ws) → P i = bit ws i) →
  ∃ r, next_set_loop fuel ws w word = Ret r ∧ first_from P (64 * w) (64 * Z.of_nat (length ws)) r.
Proof.
  intros Hws. induction fuel as [|fuel IH]; intros w word Hfuel Hw Hword HP; [|cbn [next_set_loop]].
  { exfalso. lia. }
  destruct (Z.ltb_spec w (Z.of_nat (length ws))) as [Hlt|Hge].
  2: { exists (-1). split; [done|]. right. split; [done|]. intros i Hi. lia. }
  specialize (Hword Hlt). destruct (Z.eqb_spec word 0) as [E|E]; cbn [negb].
  - pose proof (word_of_zero _ _ _ Hword E) as Hz.
    assert (Hnext : ∃ word', (if w + 1 <? Z.of_nat (length ws) then aget ws (w + 1) else mret word) = @Ret goerr _ word' ∧
      (w + 1 < Z.of_nat (length ws) → word_of P (w + 1) word')).
    { destruct (Z.ltb_spec (w + 1) (Z.of_nat (length ws))); [|by eexists; split; [|lia]].
      rewrite (nthZ_aget 0) by lia. eexists. split; [done|]. intros _. split; [by apply word_at|].
      intros k Hk. rewrite HP by lia. by rewrite bit_word. }
    destruct Hnext as (word' & -> & Hword'). rewrite go_bind_ret.
    destruct (IH (w + 1) word') as (r & -> & Hr); [lia|lia|done|intros; apply HP; lia|].
    exists r. split; [done|]. destruct Hr as [(Hr & Hb & Hlow)|(-> & Hnone)]; [left|right].
    + split_and!; [lia|lia|done|]. intros i Hi. destruct (decide (i < 64 * w + 64)); [apply Hz; lia|apply Hlow; lia].
    + split; [done|]. intros i Hi. destruct (decide (i < 64 * w + 64)); [apply Hz; lia|apply Hnone; lia].
  - eexists. split; [done|]. left. pose proof (word_of_first _ _ _ Hword E) as (Hr & Hb & Hlow).
    split_and!; [lia|lia|done|done].
Qed.

Lemma prev_set_loop_spec P ws :
  Forall is_word ws → ∀ fuel w word,
  w + 1 < Z.of_nat fuel → -1 ≤ w < Z.of_nat (length ws) →
  (0 ≤ w → word_of P w word) →
  (∀ i, 0 ≤ i < 64 * w → P i = bit ws i) →
  ∃ r, prev_set_loop fuel ws w word = Ret r ∧ last_upto P (64 * w + 63) r.
Proof.
  intros Hws. induction fuel as [|fuel IH]; intros w word Hfuel Hw Hword HP; [lia|]. cbn [prev_set_loop].
  destruct (Z.leb_spec 0 w) as [Hge|Hneg].
  2: { exists (-1). split; [done|]. right. split; [done|]. intros i Hi. lia. }
  specialize (Hword Hge). destruct (Z.eqb_spec word 0) as [E|E]; cbn [negb].
  - pose proof (word_of_zero _ _ _ Hword E) as Hz.
    assert (Hnext : ∃ word', (if 0 <=? w - 1 then aget ws (w - 1) else mret word) = @Ret goerr _ word' ∧
      (0 ≤ w - 1 → word_of P (w - 1) word')).
    { destruct (Z.leb_spec 0 (w - 1)); [|by eexists; split; [|lia]].
      rewrite (nthZ_aget 0) by lia. eexists. split; [done|]. intros _. split; [by apply word_at|].
      intros k Hk. rewrite HP by lia. by rewrite bit_word. }
    destruct Hnext as (word' & -> & Hword'). rewrite go_bind_ret.
    destruct (IH (w - 1) word') as (r & -> & Hr); [lia|lia|done|intros; apply HP; lia|].
    exists r. split; [done|]. destruct Hr as [(Hr & Hb & Hup)|(-> & Hnone)]; [left|right].
    + split_and!; [lia|lia|done|]. intros i Hi. destruct (decide (64 * w ≤ i)); [apply Hz; lia|apply Hup; lia].
    + split; [done|]. intros i Hi. destruct (decide (64 * w ≤ i)); [apply Hz; lia|apply Hnone; lia].
  - eexists. split; [done|]. left. pose proof (word_of_last _ _ _ Hword E) as (Hr & Hb & Hup).
    split_and!; [lia|lia|done|]. intros i Hi. apply Hup. lia.
Qed.

(** The word of a position, masked from it on. *)
Lemma word_of_from (Q : Z → bool) word from :
  0 ≤ from → is_word word →
  (∀ k, 0 ≤ k < 64 → Z.testbit word k = Q (64 * (from / 64) + k)) →
  word_of (fun i => Q i && (from <=? i)) (from / 64) (Z.land word (shl64 ones64 (from mod 64))).
Proof.
  intros Hf Hw Hk. split; [apply land_uint; auto with words; destruct Hw; lia|].
  intros k Hk'. rewrite Z.land_spec, testbit_start, Hk by idx. f_equal.
  destruct (Z.leb_spec (from mod 64) k), (Z.leb_spec from (64 * (from / 64) + k)); idx.
Qed.

(** What a search restricted by [from] found. *)
Lemma first_from_restrict Q from lo hi r :
  lo ≤ from → first_from (fun i => Q i && (from <=? i)) lo hi r → first_from Q from hi r.
Proof.
  intros Hlo [(Hr & Hb & Hlow)|(-> & Hnone)]; [left|right].
  - apply andb_true_iff in Hb as [Hb Hf%Z.leb_le]. split_and!; [lia|lia|done|].
    intros i Hi. specialize (Hlow i ltac:(lia)). rewrite (proj2 (Z.leb_le from i)), andb_true_r in Hlow by lia. done.
  - split; [done|]. intros i Hi. specialize (Hnone i ltac:(lia)).
    rewrite (proj2 (Z.leb_le from i)), andb_true_r in Hnone by lia. done.
Qed.

(** A search in the words never ends beyond the size. *)
Lemma first_from_size fs lo r :
  wf fs → 0 ≤ lo → first_from (fbit fs) lo (64 * Z.of_nat (length (bits fs))) r →
  first_from (fbit fs) lo (size fs) r.
Proof.
  intros W Hlo. pose proof (wf_length _ W) as Hl.
  intros [(Hr & Hb & Hlow)|(-> & Hnone)]; [left|right].
  - split_and!; [lia| |done|done]. destruct (Z.lt_ge_cases r (size fs)); [done|].
    by rewrite (wf_ghost _ W) in Hb by lia.
  - split; [done|]. intros i Hi. apply Hnone. rewrite Hl. idx.
Qed.

Lemma NextSetBit_spec fs from :
  wf fs →
  if (size fs =? 0) && (from <? 0) then NextSetBit from fs = Panic
  else ∃ r, NextSetBit from fs = Ret r ∧ first_from (fbit fs) (Z.max 0 from) (size fs) r.
Proof.
  intros W. pose proof (wf_size _ W) as Hs. pose proof (wf_length _ W) as Hl.
  unfold NextSetBit. destruct (Z.leb_spec (size fs) from) as [Hge|Hlt].
  { rewrite (proj2 (Z.ltb_ge from 0)), andb_false_r by lia.
    exists (-1). split; [done|]. right. split; [done|]. lia. }
  replace (if from <? 0 then 0 else from) with (Z.max 0 from) by (destruct (Z.ltb_spec from 0); lia).
  destruct (Z.eqb_spec (size fs) 0) as [E0|E0]; cbn [andb].
  { rewrite (proj2 (Z.ltb_lt from 0)) by lia. replace (Z.max 0 from) with 0 by lia.
    destruct (bits fs) eqn:Eb; [done|]. rewrite E0 in Hl. change ((0 + 63) / 64) with 0 in Hl. cbn [length] in Hl. lia. }
  set (start := Z.max 0 from). assert (Hst : 0 ≤ start < size fs) by lia.
  pose proof (wf_in fs start W Hst) as Hw. rewrite wordIndex_div, bitIndex_mod, (nthZ_aget 0), go_bind_ret by done.
  destruct (next_set_loop_spec (fun i => fbit fs i && (start <=? i)) (bits fs) (wf_words _ W)
    (S (length (bits fs))) (start / 64) (Z.land (nthZ 0 (bits fs) (start / 64)) (shl64 ones64 (start mod 64))))
    as (r & -> & Hr); [lia|lia| | |].
  - intros _. apply word_of_from; [lia|apply word_at, W|]. intros k Hk. unfold fbit. by rewrite bit_word.
  - intros i Hi. rewrite (proj2 (Z.leb_le start i)), andb_true_r by idx. done.
  - exists r. split; [done|]. apply first_from_size; [done|lia|].
    apply first_from_restrict with (64 * (start / 64)); [idx|done].
Qed.

Lemma PrevSetBit_spec fs from :
  wf fs →
  if (size fs =? 0) && (0 <=? from) then PrevSetBit from fs = Panic
  else ∃ r, PrevSetBit from fs = Ret r ∧ last_upto (fbit fs) (Z.min from (size fs - 1)) r.
Proof.
  intros W. pose proof (wf_size _ W) as Hs. pose proof (wf_length _ W) as Hl.
  unfold PrevSetBit. destruct (Z.ltb_spec from 0) as [Hneg|Hpos].
  { rewrite (proj2 (Z.leb_gt 0 from)), andb_false_r by lia.
    exists (-1). split; [done|]. right. split; [done|]. lia. }
  replace (if size fs <=? from then size fs - 1 else from) with (Z.min from (size fs - 1))
    by (destruct (Z.leb_spec (size fs) from); lia).
  rewrite (proj2 (Z.leb_le 0 from)), andb_true_r by lia.
  destruct (Z.eqb_spec (size fs) 0) as [E0|E0].
  { replace (Z.min from (size fs - 1)) with (-1) by lia. done. }
  set (last := Z.min from (size fs - 1)). assert (Hlast : 0 ≤ last < size fs) by lia.
  pose proof (wf_in fs last W Hlast) as Hw. rewrite wordIndex_div, bitIndex_mod, (nthZ_aget 0), go_bind_ret by done.
  set (word := if last mod 64 =? 63 then _ else _).
  destruct (prev_set_loop_spec (fun i => fbit fs i && (i <=? last)) (bits fs) (wf_words _ W)
    (S (length (bits fs))) (last / 64) word) as (r & -> & Hr); [lia|lia| | |].
  - intros _. pose proof (word_at (bits fs) (last / 64) (wf_words _ W)) as Hww.
    unfold word. split.
    + destruct (Z.eqb_spec (last mod 64) 63); [done|]. apply land_uint; [done|apply Hww|apply low_word; idx].
    + intros k Hk. unfold fbit. rewrite bit_word by done.
      destruct (Z.eqb_spec (last mod 64) 63).
      * rewrite (proj2 (Z.leb_le _ last)), andb_true_r by idx. done.
      * rewrite Z.land_spec, testbit_low by idx. f_equal.
        destruct (Z.ltb_spec k (last mod 64 + 1)), (Z.leb_spec (64 * (last / 64) + k) last); idx.
  - intros i Hi. rewrite (proj2 (Z.leb_le i last)), andb_true_r by idx. done.
  - exists r. split; [done|]. destruct Hr as [(Hr & Hb & Hup)|(-> & Hnone)]; [left|right].
    + apply andb_true_iff in Hb as [Hb Hle%Z.leb_le]. split_and!; [lia|lia|done|].
      intros i Hi. specialize (Hup i ltac:(idx)). rewrite (proj2 (Z.leb_le i last)), andb_true_r in Hup by lia. done.
    + split; [done|]. intros i Hi. specialize (Hnone i ltac:(idx)).
      rewrite (proj2 (Z.leb_le i last)), andb_true_r in Hnone by lia. done.
Qed.

Lemma next_clear_loop_spec P fs :
  wf fs → ∀ fuel w word,
  Z.of_nat (length (bits fs)) - w < Z.of_nat fuel → 0 ≤ w < Z.of_nat (length (bits fs)) →
  word_of P w word →
  (∀ i, 64 * (w + 1) ≤ i < 64 * Z.of_nat (length (bits fs)) → P i = negb (fbit fs i)) →
  ∃ r, next_clear_loop fuel fs w word = Ret (if r =? -1 then size fs else Z.min (size fs) r) ∧
    first_from P (64 * w) (64 * Z.of_nat (length (bits fs))) r.
Proof.
  intros W. induction fuel as [|fuel IH]; intros w word Hfuel Hw Hword HP; [lia|]. cbn [next_clear_loop].
  destruct (Z.eqb_spec word 0) as [E|E]; cbn [negb].
  - pose proof (word_of_zero _ _ _ Hword E) as Hz.
    destruct (Z.leb_spec (Z.of_nat (length (bits fs))) (w + 1)) as [Hend|Hmore].
    + exists (-1). split; [done|]. right. split; [done|]. intros i Hi. apply Hz. lia.
    + rewrite (nthZ_aget 0), go_bind_ret by lia.
      destruct (IH (w + 1) (not64 (nthZ 0 (bits fs) (w + 1)))) as (r & -> & Hr); [lia|lia| |intros; apply HP; lia|].
      * split; [apply not64_word, word_at, W|]. intros k Hk. rewrite HP by lia.
        unfold fbit. by rewrite bit_word, testbit_not64.
      * exists r. split; [done|]. destruct Hr as [(Hr & Hb & Hlow)|(-> & Hnone)]; [left|right].
        -- split_and!; [lia|lia|done|]. intros i Hi.
           destruct (decide (i < 64 * w + 64)); [apply Hz; lia|apply Hlow; lia].
        -- split; [done|]. intros i Hi. destruct (decide (i < 64 * w + 64)); [apply Hz; lia|apply Hnone; lia].
  - pose proof (word_of_first _ _ _ Hword E) as (Hr & Hb & Hlow).
    exists (w * 64 + trailingZeros word). split.
    + f_equal. destruct (Z.eqb_spec (w * 64 + trailingZeros word) (-1)); [lia|].
      destruct (Z.leb_spec (size fs) (w * 64 + trailingZeros word)); lia.
    + left. split_and!; [lia|lia|done|done].
Qed.

Lemma NextClearBit_spec fs from :
  wf fs →
  if in_range from (size fs)
  then ∃ r, NextClearBit from fs = Ret r ∧ from ≤ r ≤ size fs ∧ (r < size fs → fbit fs r = false) ∧
         ∀ i, from ≤ i < r → fbit fs i = true
  else NextClearBit from fs = Panic.
Proof.
  intros W. pose proof (wf_length _ W) as Hl. unfold NextClearBit. rewrite check_index_spec.
  destruct (in_range from (size fs)) eqn:Hi; [|done]. apply in_range_spec in Hi. cbn [mbind go_bind].
  pose proof (wf_in fs from W Hi) as Hw. rewrite wordIndex_div, bitIndex_mod, (nthZ_aget 0), go_bind_ret by done.
  destruct (next_clear_loop_spec (fun i => negb (fbit fs i) && (from <=? i)) fs W
    (S (length (bits fs))) (from / 64)
    (Z.land (not64 (nthZ 0 (bits fs) (from / 64))) (shl64 ones64 (from mod 64)))) as (r & -> & Hr); [lia|lia| | |].
  - apply word_of_from; [lia|apply not64_word, word_at, W|]. intros k Hk. 
    unfold fbit. by rewrite testbit_not64, bit_word.
  - intros i Hi'. rewrite (proj2 (Z.leb_le from i)), andb_true_r by idx. done.
  - eexists. split; [done|].
    apply first_from_restrict with (from := from) in Hr; [|idx].
    destruct Hr as [(Hr & Hb & Hlow)|(-> & Hnone)].
    + apply negb_true_iff in Hb. destruct (Z.eqb_spec r (-1)); [lia|].
      split_and!; [lia|lia|intros; by replace (Z.min (size fs) r) with r by lia|].
      intros i Hi'. apply negb_false_iff, Hlow. lia.
    + cbn. split_and!; [lia|lia|lia|]. intros i Hi'. apply negb_false_iff, Hnone. rewrite Hl. idx.
Qed.

(** Searching a bit set: [Get] tells membership; [NextSetBit] returns the first
    position that is set at or after an index, and -1 if there is none;
    [PrevSetBit] the last one at or before it; [NextClearBit] the first one
    that is not set, or the size. An empty bit set makes [NextSetBit] of a
    negative index and [PrevSetBit] of any other panic. *)
Theorem searches_correct (fs : FixedBitSet) (from : Z) :
  wf fs →
  Get from fs = (if (0 <=? from) && (from <? size fs) then Ret (fbit fs from) else Panic) ∧
  (if (size fs =? 0) && (from <? 0) then NextSetBit from fs = Panic
   else ∃ r, NextSetBit from fs = Ret r ∧ first_from (fbit fs) (Z.max 0 from) (size fs) r) ∧
  (if (size fs =? 0) && (0 <=? from) then PrevSetBit from fs = Panic
   else ∃ r, PrevSetBit from fs = Ret r ∧ last_upto (fbit fs) (Z.min from (size fs - 1)) r) ∧
  (if (0 <=? from) && (from <? size fs)
   then ∃ r, NextClearBit from fs = Ret r ∧ from ≤ r ≤ size fs ∧ (r < size fs → fbit fs r = false) ∧
          ∀ i, from ≤ i < r → fbit fs i = true
   else NextClearBit from fs = Panic).
Proof.
  intros W. split_and!; [by apply Get_spec|by apply NextSetBit_spec|by apply PrevSetBit_spec|by apply NextClearBit_spec].
Qed.

Lemma searches_correct_witness :
  ∃ fs, NewFixedBitSet 100 = Ret fs ∧
    (∃ r, NextSetBit (-5) fs = Ret r ∧ first_from (fbit fs) 0 100 r) ∧
    (∃ r, PrevSetBit 500 fs = Ret r ∧ last_upto (fbit fs) 99 r).
Proof.
  destruct (NewFixedBitSet_spec 100) as (fs & En & W & Hs & _); [lia|].
  pose proof (searches_correct fs (-5) W) as (_ & Hn & _).
  pose proof (searches_correct fs 500 W) as (_ & _ & Hp & _).
  rewrite Hs in Hn, Hp. exists fs. split_and!; [exact En|exact Hn|exact Hp].
Defined.

(** ** Counting the positions of a set *)

Lemma word_of_popcount P w word : word_of P w word → popcount word = count P (64 * w) (64 * w + 64).
Proof.
  intros [Hw HP]. rewrite popcount_spec by done. rewrite (count_ext _ (fun k => P (64 * w + k))).
  - rewrite count_shift. f_equal. lia.
  - intros k Hk. apply HP. lia.
Qed.

Lemma foldl_popcount ws : ∀ c, foldl (fun count word => count + popcount word) c ws = c + sum_popcounts ws.
Proof.
  unfold sum_popcounts. induction ws as [|w ws IH]; intros c; [cbn; lia|]. cbn [foldl].
  rewrite IH, (IH (0 + popcount w)). lia.
Qed.

Lemma sum_popcounts_cons w ws : sum_popcounts (w :: ws) = popcount w + sum_popcounts ws.
Proof. unfold sum_popcounts. cbn [foldl]. rewrite foldl_popcount. done. Qed.

Lemma bit_cons w ws i : 0 ≤ i → bit (w :: ws) (64 + i) = bit ws i.
Proof.
  intros Hi. unfold bit. replace ((64 + i) / 64) with (1 + i / 64) by idx.
  replace ((64 + i) mod 64) with (i mod 64) by idx. unfold nthZ.
  replace (Z.to_nat (1 + i / 64)) with (S (Z.to_nat (i / 64))) by idx. done.
Qed.

Lemma sum_popcounts_spec ws :
  Forall is_word ws → sum_popcounts ws = count (bit ws) 0 (64 * Z.of_nat (length ws)).
Proof.
  induction 1 as [|w ws Hw Hws IH]; [done|]. rewrite sum_popcounts_cons, IH.
  rewrite (count_split (bit (w :: ws)) 0 64) by (cbn [length]; lia). f_equal.
  - apply (word_of_popcount (bit (w :: ws)) 0). split; [done|]. intros k Hk.
    rewrite (bit_word (w :: ws) 0 k) by done. done.
  - rewrite (count_ext (bit ws) (fun i => bit (w :: ws) (64 + i))).
    + rewrite count_shift. f_equal. cbn [length]. lia.
    + intros i Hi. by rewrite bit_cons by lia.
Qed.

(** Positions beyond the size do not count. *)
Lemma count_size fs P n :
  wf fs → 64 * Z.of_nat (length (bits fs)) = n → (∀ i, size fs ≤ i < n → P i = false) →
  count P 0 n = count P 0 (size fs).
Proof.
  intros W <- HP. pose proof (wf_size _ W). pose proof (wf_length _ W) as Hl.
  rewrite (count_split P 0 (size fs)) by (rewrite Hl; idx). rewrite (count_none P (size fs)) by done. lia.
Qed.

Lemma Cardinality_spec fs : wf fs → Cardinality fs = count (fbit fs) 0 (size fs).
Proof.
  intros W. unfold Cardinality. rewrite sum_popcounts_spec by apply W.
  apply (count_size fs); [done|done|apply W].
Qed.

Lemma combine_counts f u a b :
  Bitwise f u → wf a → wf b → size a = size b →
  u false false = false →
  count_common f a b = count (fun i => u (fbit a i) (fbit b i)) 0 (size a).
Proof.
  intros Hf Wa Wb Hs Hu. unfold count_common.
  assert (Hlen : length (bits b) = length (bits a)).
  { apply Nat2Z.inj. by rewrite (wf_length _ Wa), (wf_length _ Wb), Hs. }
  rewrite sum_popcounts_spec.
  - rewrite length_zip_with, Hlen, Nat.min_id. 
    rewrite (count_ext _ (fun i => u (fbit a i) (fbit b i))).
    + apply (count_size a); [done|done|]. intros i Hi.
      rewrite (wf_ghost _ Wa), (wf_ghost _ Wb); [done|rewrite Hlen; lia|lia].
    + intros i Hi. unfold bit at 1, nthZ. rewrite lookup_zip_with.
      assert (0 ≤ i / 64 < Z.of_nat (length (bits a))) by idx.
      rewrite (nthZ_lookup 0 (bits a)), (nthZ_lookup 0 (bits b)) by (rewrite ?Hlen; lia). cbn.
      by rewrite bitwise_bit by idx.
  - apply Forall_lookup_2. intros i x Hx. apply lookup_zip_with_Some in Hx as (v & w & -> & Hv & Hw).
    apply bitwise_word; [exact (Forall_lookup_1 _ _ _ _ (wf_words _ Wa) Hv)|exact (Forall_lookup_1 _ _ _ _ (wf_words _ Wb) Hw)].
Qed.

Lemma count_rest_same a b : wf a → wf b → size a = size b → count_rest a b = 0.
Proof.
  intros Wa Wb Hs. unfold count_rest.
  assert (Hlen : length (bits b) = length (bits a)).
  { apply Nat2Z.inj. by rewrite (wf_length _ Wa), (wf_length _ Wb), Hs. }
  by rewrite Hlen, Nat.min_id, drop_all.
Qed.

Section cardinality_range.
Context (fs : FixedBitSet) (W : wf fs).

(** A word with the first [n] positions from [s] on. *)
Lemma popcount_run word P s n :
  is_word word → 0 ≤ n ≤ 64 →
  (∀ k, 0 ≤ k < 64 → Z.testbit word k = (k <? n) && P (s + k)) →
  popcount word = count P s (s + n).
Proof.
  intros Hw Hn HP. rewrite popcount_spec, (count_split _ 0 n) by (done || lia).
  rewrite (count_none _ n) by (intros k Hk; rewrite HP by lia; by rewrite (proj2 (Z.ltb_ge _ _)) by lia).
  rewrite (count_ext _ (fun k => P (s + k))).
  - rewrite (count_shift P s 0 n), !Z.add_0_r. done.
  - intros k Hk. rewrite HP by lia. by rewrite (proj2 (Z.ltb_lt _ _)) by lia.
Qed.

Lemma fbit_in_word i k :
  0 ≤ i < 64 * Z.of_nat (length (bits fs)) → 0 ≤ k < 64 - i mod 64 →
  fbit fs (i + k) = Z.testbit (nthZ 0 (bits fs) (i / 64)) (k + i mod 64).
Proof.
  intros Hi Hk. unfold fbit, bit. replace ((i + k) / 64) with (i / 64) by idx.
  by replace ((i + k) mod 64) with (k + i mod 64) by idx.
Qed.

(** The word at [from], shifted down to it. *)
Lemma from_word from k :
  0 ≤ from < 64 * Z.of_nat (length (bits fs)) → 0 ≤ k < 64 →
  Z.testbit (Z.shiftr (nthZ 0 (bits fs) (from / 64)) (from mod 64)) k =
  (k <? 64 - from mod 64) && fbit fs (from + k).
Proof.
  intros Hf Hk. rewrite Z.shiftr_spec by lia. destruct (Z.ltb_spec k (64 - from mod 64)); cbn [andb].
  - symmetry. apply fbit_in_word; [done|lia].
  - apply in_uint_testbit_high with 64; [lia|apply word_at, W|lia].
Qed.

Lemma full_words_count n : ∀ from c,
  0 ≤ from → from + Z.of_nat n ≤ Z.of_nat (length (bits fs)) →
  go_for n from (fun i c => w ← @aget goerr _ (bits fs) i; mret (c + popcount w)) c =
  Ret (c + count (fbit fs) (64 * from) (64 * (from + Z.of_nat n))).
Proof.
  induction n as [|n IH]; intros from c Hf Hn; cbn [go_for].
  - rewrite count_nil, Z.add_0_r by lia. done.
  - rewrite (nthZ_aget 0), go_bind_ret by lia. 
    change (mret (c + popcount (nthZ 0 (bits fs) from)) ≫= _) with
      (go_for n (from + 1) (fun i c => w ← @aget goerr _ (bits fs) i; mret (c + popcount w))
         (c + popcount (nthZ 0 (bits fs) from))).
    rewrite IH by lia. f_equal. rewrite (word_of_popcount (fbit fs) from).
    + rewrite (count_split (fbit fs) (64 * from) (64 * from + 64) (64 * (from + Z.of_nat (S n)))) by lia.
      replace (64 * (from + 1)) with (64 * from + 64) by lia.
      replace (from + 1 + Z.of_nat n) with (from + Z.of_nat (S n)) by lia. lia.
    + split; [apply word_at, W|]. intros k Hk. symmetry. by apply bit_word.
Qed.

(** The last word, shifted up so that the positions from [to] on fall out. *)
Lemma to_word_count to_ :
  0 ≤ to_ < 64 * Z.of_nat (length (bits fs)) →
  popcount (shl64 (nthZ 0 (bits fs) (to_ / 64)) (64 - to_ mod 64)) =
  count (fbit fs) (64 * (to_ / 64)) to_.
Proof.
  intros Ht. rewrite popcount_spec by apply shl64_word. set (t := to_ mod 64). 
  assert (0 ≤ t < 64 ∧ to_ = 64 * (to_ / 64) + t) as [Ht64 Eto] by (unfold t; idx).
  rewrite (count_split _ 0 (64 - t)) by lia. rewrite (count_none _ 0).
  2: { intros k Hk. rewrite testbit_shl64 by lia. apply Z.testbit_neg_r. lia. }
  rewrite (count_ext _ (fun k => fbit fs (64 * (to_ / 64) - (64 - t) + k))).
  - rewrite (count_shift (fbit fs) (64 * (to_ / 64) - (64 - t)) (64 - t) 64), Z.add_0_l. f_equal; lia.
  - intros k Hk. rewrite testbit_shl64 by lia.
    replace (64 * (to_ / 64) - (64 - t) + k) with (64 * (to_ / 64) + (k - (64 - t))) by lia.
    symmetry. apply bit_word. lia.
Qed.

Lemma CardinalityRange_spec from to_ :
  if (0 <=? from) && (from <=? to_) && (to_ <=? size fs)
  then CardinalityRange from to_ fs = Ret (count (fbit fs) from to_)
  else CardinalityRange from to_ fs = Panic.
Proof.
  unfold CardinalityRange, must. pose proof (wf_length _ W) as Hl.
  destruct (Z.ltb_spec from 0), (Z.leb_spec 0 from); try lia; cbn [orb andb negb]; [done|].
  destruct (Z.ltb_spec to_ from), (Z.leb_spec from to_); try lia; cbn [orb andb negb]; [done|].
  destruct (Z.ltb_spec (size fs) to_), (Z.leb_spec to_ (size fs)); try lia; cbn [orb andb negb]; [done|].
  rewrite go_bind_ret, !land63, !shiftr6.
  set (rest := fun cardinality from => c ← go_for (Z.to_nat (to_ / 64 - Z.shiftr from 6)) (Z.shiftr from 6)
      (fun i c => w ← @aget goerr _ (bits fs) i; mret (c + popcount w)) cardinality;
    if negb (to_ mod 64 =? 0)
    then w ← aget (bits fs) (to_ / 64); mret (c + popcount (shl64 w (- to_ mod 64)))
    else mret c).
  assert (Hrest : ∀ c f, 0 ≤ f ≤ to_ → f mod 64 = 0 → rest c f = Ret (c + count (fbit fs) f to_)).
  { intros c f Hf Hal. unfold rest. rewrite !shiftr6, full_words_count by idx. rewrite go_bind_ret.
    replace (64 * (f / 64)) with f by idx.
    replace (64 * (f / 64 + Z.of_nat (Z.to_nat (to_ / 64 - f / 64)))) with (64 * (to_ / 64)) by idx.
    destruct (Z.eqb_spec (to_ mod 64) 0) as [E|E]; cbn [negb].
    - by replace (64 * (to_ / 64)) with to_ by idx.
    - rewrite (nthZ_aget 0), go_bind_ret by idx. replace (- to_ mod 64) with (64 - to_ mod 64) by idx.
      rewrite to_word_count by idx. rewrite (count_split (fbit fs) f (64 * (to_ / 64)) to_) by idx.
      unfold mret, go_ret. f_equal. lia. }
  destruct (Z.eqb_spec (from mod 64) 0) as [Ea|Ea]; cbn [negb].
  { change (rest 0 from = Ret (count (fbit fs) from to_)). rewrite Hrest by lia. done. }
  assert (Hfrom : 0 ≤ from < 64 * Z.of_nat (length (bits fs))) by (rewrite Hl; idx).
  rewrite (nthZ_aget 0 (bits fs) (from / 64)), go_bind_ret by idx.
  set (word := Z.shiftr (nthZ 0 (bits fs) (from / 64)) (from mod 64)).
  assert (Hword : is_word word) by (apply shiftr_uint; [idx|apply word_at, W]).
  replace (- from mod 64) with (64 - from mod 64) by idx.
  destruct (Z.ltb_spec (to_ - from) (64 - from mod 64)) as [Hin|Hout].
  - change (@Ret goerr _ (popcount (Z.land word (shl64 1 (to_ - from) - 1))) = Ret (count (fbit fs) from to_)).
    f_equal. rewrite (popcount_run _ (fbit fs) from (to_ - from)); [f_equal; lia| |idx|].
    + apply land_uint; [done|apply Hword|apply low_word; idx].
    + intros k Hk. unfold word. rewrite Z.land_spec, testbit_low, from_word by idx.
      destruct (Z.ltb_spec k (to_ - from)); [|apply andb_false_r].
      rewrite (proj2 (Z.ltb_lt k (64 - _))) by lia. apply andb_true_r.
  - change (rest (popcount word) (from + (64 - from mod 64)) = Ret (count (fbit fs) from to_)).
    rewrite Hrest by idx. f_equal. rewrite (popcount_run word (fbit fs) from (64 - from mod 64)); [|done|idx|].
    + symmetry. apply count_split. idx.
    + intros k Hk. apply from_word; idx.
Qed.
End cardinality_range.

(** Counting: the parallel-prefix population count is the number of bits of a
    word, and with it [Cardinality] counts the positions of a set,
    [CardinalityRange] those in a range (cut at word boundaries, with shifts
    for the ends) and the counts of two sets of one size those of their
    intersection, union and difference. *)
Theorem counts_correct (fs other : FixedBitSet) (from to_ : Z) :
  wf fs → wf other → size fs = size other →
  Cardinality fs = count (fbit fs) 0 (size fs) ∧
  (if (0 <=? from) && (from <=? to_) && (to_ <=? size fs)
   then CardinalityRange from to_ fs = Ret (count (fbit fs) from to_)
   else CardinalityRange from to_ fs = Panic) ∧
  IntersectionCount fs other = count (fun i => fbit fs i && fbit other i) 0 (size fs) ∧
  UnionCount fs other = count (fun i => fbit fs i || fbit other i) 0 (size fs) ∧
  AndNotCount fs other = count (fun i => fbit fs i && negb (fbit other i)) 0 (size fs).
Proof.
  intros W Wo Hs. unfold IntersectionCount, UnionCount, AndNotCount.
  rewrite (count_rest_same fs other), (count_rest_same other fs), !Z.add_0_r by done.
  split_and!; [by apply Cardinality_spec|by apply CardinalityRange_spec|..].
  - by apply (combine_counts Z.land andb); [apply _|..].
  - by apply (combine_counts Z.lor orb); [apply _|..].
  - by apply (combine_counts andnot (fun a b => a && negb b)); [apply _|..].
Qed.

Lemma counts_correct_witness :
  ∃ fs, NewFixedBitSet 100 = Ret fs ∧ Cardinality fs = count (fbit fs) 0 100 ∧
    CardinalityRange 7 90 fs = Ret (count (fbit fs) 7 90) ∧ CardinalityRange 7 101 fs = Panic.
Proof.
  destruct (NewFixedBitSet_spec 100) as (fs & En & W & Hs & _); [lia|].
  pose proof (counts_correct fs fs 7 90 W W eq_refl) as (Hc & Hr & _).
  pose proof (counts_correct fs fs 7 101 W W eq_refl) as (_ & Hr' & _).
  rewrite Hs in Hc, Hr, Hr'. exists fs. split_and!; [exact En|exact Hc|exact Hr|exact Hr'].
Defined.

(** * Copying ranges *)

Lemma readNBits_spec ws from n :
  Forall is_word ws → 0 ≤ from → 1 ≤ n < 64 → from + n ≤ 64 * Z.of_nat (length ws) →
  ∃ x, readNBits ws from n = Ret x ∧ is_word x ∧ ∀ k, 0 ≤ k < 64 → Z.testbit x k = (k <? n) && bit ws (from + k).
Proof.
  intros Hws Hf Hn Hlen. unfold readNBits. rewrite shiftr6, land63.
  rewrite (nthZ_aget 0 ws (from / 64)), go_bind_ret by idx. set (s := from mod 64). set (w := from / 64).
  assert (Hs : 0 ≤ s < 64 ∧ from = 64 * w + s) by (unfold s, w; idx).
  set (lo := Z.shiftr (nthZ 0 ws w) s).
  assert (Hlo : is_word lo) by (apply shiftr_uint; [lia|by apply word_at]).
  assert (Hlob : ∀ k, 0 ≤ k < 64 → Z.testbit lo k = (k <? 64 - s) && bit ws (from + k)).
  { intros k Hk. unfold lo. rewrite Z.shiftr_spec by lia. destruct (Z.ltb_spec k (64 - s)); cbn [andb].
    - rewrite <- bit_word by lia. f_equal. lia.
    - apply in_uint_testbit_high with 64; [lia|by apply word_at|lia]. }
  assert (Hword : ∃ x, (if 64 - s <? n then w' ← aget ws (w + 1); mret (Z.lor lo (shl64 w' (64 - s))) else mret lo)
    = @Ret goerr _ x ∧ is_word x ∧ ∀ k, 0 ≤ k < n → Z.testbit x k = bit ws (from + k)).
  { destruct (Z.ltb_spec (64 - s) n) as [Hmore|Hall].
    - rewrite (nthZ_aget 0), go_bind_ret by (unfold s, w in *; idx). eexists. split; [done|].
      split; [apply lor_uint; auto with words; lia|]. intros k Hk.
      rewrite Z.lor_spec, Hlob, testbit_shl64 by lia. destruct (Z.ltb_spec k (64 - s)); cbn [andb].
      + rewrite (Z.testbit_neg_r _ (k - _)), orb_false_r by lia. done.
      + rewrite orb_false_l, <- bit_word by lia. f_equal. lia.
    - eexists. split; [done|]. split; [done|]. intros k Hk. rewrite Hlob by lia.
      by rewrite (proj2 (Z.ltb_lt _ _)) by lia. }
  destruct Hword as (x & -> & Hx & Hb). rewrite go_bind_ret. eexists. split; [done|].
  split; [apply land_uint; [lia|apply Hx|by apply low_word; lia]|]. intros k Hk.
  rewrite Z.land_spec, testbit_low by lia. destruct (Z.ltb_spec k n); [|apply andb_false_r].
  rewrite Hb by lia. apply andb_true_r.
Qed.

(** [ored d lo hi Q ws]: the positions of [Q] from [lo] up to [hi] have been
    added to those of the words [d]. *)
Definition ored (d : list Z) (lo hi : Z) (Q : Z → bool) (ws : list Z) : Prop :=
  length ws = length d ∧ Forall is_word ws ∧
  ∀ i, 0 ≤ i < 64 * Z.of_nat (length d) → bit ws i = bit d i || ((lo <=? i) && (i <? hi) && Q i).

(** One more word, whose bits [n] positions of [Q] from [at] on. *)
Lemma ored_word d lo at_ n Q ws x :
  ored d lo at_ Q ws → 0 ≤ lo ≤ at_ → 0 ≤ n → at_ mod 64 + n ≤ 64 → at_ / 64 < Z.of_nat (length d) →
  is_word x → (∀ k, 0 ≤ k < 64 → Z.testbit x k = (at_ mod 64 <=? k) && (k <? at_ mod 64 + n) && Q (64 * (at_ / 64) + k)) →
  ∃ ws', or_word ws (at_ / 64) x = Ret ws' ∧ ored d lo (at_ + n) Q ws'.
Proof.
  intros (Hl & Hws & Hb) Hlo Hn Hfit Hin Hx Hxb. unfold or_word.
  rewrite (nthZ_aget 0), go_bind_ret, aset_Ret by (rewrite Hl; idx). eexists. split; [done|].
  split_and!; [by rewrite length_insert|apply Forall_insert; [done|apply lor_uint; [lia|by apply word_at|done]]|].
  intros i Hi. rewrite bit_insert by (rewrite ?Hl; idx). case_decide as E.
  - rewrite Z.lor_spec, Hxb, <- E by idx. fold (bit ws i). rewrite Hb by done.
    replace (64 * (i / 64) + i mod 64) with i by idx.
    destruct (bit d i); [done|]. cbn [orb].
    destruct (Z.leb_spec lo i), (Z.ltb_spec i at_), (Z.ltb_spec i (at_ + n)),
      (Z.leb_spec (at_ mod 64) (i mod 64)), (Z.ltb_spec (i mod 64) (at_ mod 64 + n)); try idx;
      cbn [andb orb]; rewrite ?orb_false_r, ?orb_diag; try done; by destruct (Q i).
  - rewrite Hb by done. f_equal. f_equal. f_equal.
    destruct (Z.ltb_spec i at_), (Z.ltb_spec i (at_ + n)); try done; idx.
Qed.

Lemma ored_start d lo Q : Forall is_word d → ored d lo lo Q d.
Proof.
  intros Hd. split_and!; [done..|]. intros i Hi.
  destruct (Z.leb_spec lo i), (Z.ltb_spec i lo); try lia; by rewrite orb_false_r.
Qed.

Section or_range.
Context (src : list Z) (Hsrc : Forall is_word src) (shift : Z).

(** The positions of the source, moved by [shift]. *)
Definition moved_bit (i : Z) : bool := bit src (i + shift).

(** [n] bits read from the source go to the word at [at_]. *)
Lemma ored_read d lo at_ n ws x :
  ored d lo at_ moved_bit ws → 0 ≤ lo ≤ at_ → 0 ≤ n → at_ mod 64 + n ≤ 64 → at_ / 64 < Z.of_nat (length d) →
  is_word x → (∀ k, 0 ≤ k < 64 → Z.testbit x k = (k <? n) && bit src (at_ + shift + k)) →
  ∃ ws', or_word ws (at_ / 64) (shl64 x (at_ mod 64)) = Ret ws' ∧ ored d lo (at_ + n) moved_bit ws'.
Proof.
  intros Ho Hlo Hn Hfit Hin Hx Hxb. apply ored_word; try done; [auto with words|].
  intros k Hk. rewrite testbit_shl64 by done. destruct (Z.leb_spec (at_ mod 64) k); cbn [andb].
  - rewrite Hxb by idx. unfold moved_bit. f_equal.
    + destruct (Z.ltb_spec (k - at_ mod 64) n), (Z.ltb_spec k (at_ mod 64 + n)); (done || lia).
    + f_equal. idx.
  - apply Z.testbit_neg_r. lia.
Qed.

(** The loop over full words, for either way the word [i] is put together. *)
Lemma or_words_loop (word : Z → M Z) d lo at_ n ws :
  ored d lo at_ moved_bit ws → 0 ≤ lo ≤ at_ → at_ mod 64 = 0 → 0 ≤ n →
  at_ / 64 + n ≤ Z.of_nat (length d) →
  (∀ i, 0 ≤ i < n → ∃ x, word i = Ret x ∧ is_word x ∧
     ∀ k, 0 ≤ k < 64 → Z.testbit x k = bit src (at_ + 64 * i + shift + k)) →
  ∃ ws', go_for (Z.to_nat n) 0 (fun i ws => x ← word i; or_word ws (at_ / 64 + i) x) ws = Ret ws' ∧
    ored d lo (at_ + 64 * n) moved_bit ws'.
Proof.
  intros Ho Hlo Hal Hn Hin Hword.
  destruct (go_for_inv (E:=goerr) (fun i ws => ored d lo (at_ + 64 * i) moved_bit ws)
    (Z.to_nat n) 0 (fun i ws => x ← word i; or_word ws (at_ / 64 + i) x) ws) as (ws' & E & Ho').
  - by rewrite Z.mul_0_r, Z.add_0_r.
  - intros i ws1 Hi Ho1. destruct (Hword i ltac:(lia)) as (x & -> & Hx & Hxb). rewrite go_bind_ret.
    destruct (ored_word d lo (at_ + 64 * i) 64 moved_bit ws1 x Ho1) as (ws2 & E2 & Ho2); try done; try idx.
    + intros k Hk. replace ((at_ + 64 * i) mod 64) with 0 by idx.
      rewrite (proj2 (Z.leb_le 0 k)), (proj2 (Z.ltb_lt k (0 + 64))) by lia. cbn [andb].
      rewrite Hxb by done. unfold moved_bit. f_equal. idx.
    + exists ws2. replace (at_ / 64 + i) with ((at_ + 64 * i) / 64) by idx. split; [done|].
      by replace (at_ + 64 * (i + 1)) with (at_ + 64 * i + 64) by lia.
  - exists ws'. split; [done|]. by rewrite Z2Nat.id in Ho' by lia.
Qed.
End or_range.

Lemma must_true (b : bool) : b = true → @must goerr b = Ret tt.
Proof. by intros ->. Qed.

Lemma ored_becomes fs lo hi Q ws :
  wf fs → 0 ≤ lo → hi ≤ size fs → ored (bits fs) lo hi Q ws →
  becomes fs (fun i => fbit fs i || ((lo <=? i) && (i <? hi) && Q i)) (set_bits ws fs).
Proof.
  intros W Hlo Hhi (Hl & Hws & Hb). apply becomes_set_bits; try done. intros i Hi.
  rewrite Hb by (rewrite <- Hl; lia). destruct (Z.ltb_spec i (size fs)); [done|].
  rewrite (proj2 (Z.ltb_ge i hi)), andb_false_r, orb_false_r by lia. apply (wf_ghost _ W). rewrite <- Hl. lia.
Qed.

(** The part of [FixedBitSetOrRange] from an aligned target on. *)
Lemma or_aligned src d lo sf df n ws :
  Forall is_word src → ored d lo df (moved_bit src (sf - df)) ws → 0 ≤ lo ≤ df → df mod 64 = 0 → 0 ≤ sf → 1 ≤ n →
  sf + n ≤ 64 * Z.of_nat (length src) → df + n ≤ 64 * Z.of_nat (length d) →
  ∃ ws', (destBits ←
    (if sf mod 64 =? 0 then
       go_for (Z.to_nat (n / 64)) 0 (fun i destBits =>
         x ← @aget goerr _ src (sf / 64 + i);
         or_word destBits (df / 64 + i) x) ws
     else
       go_for (Z.to_nat (n / 64)) 0 (fun i destBits =>
         x ← aget src (sf / 64 + i);
         y ← aget src (sf / 64 + i + 1);
         or_word destBits (df / 64 + i)
           (Z.lor (Z.shiftr x (sf mod 64)) (shl64 y (64 - sf mod 64)))) ws);
    if 0 <? n - Z.shiftl (n / 64) 6 then
       x ← readNBits src (sf + Z.shiftl (n / 64) 6) (n - Z.shiftl (n / 64) 6);
       or_word destBits ((df + Z.shiftl (n / 64) 6) / 64) x
    else mret destBits) = Ret ws' ∧ ored d lo (df + n) (moved_bit src (sf - df)) ws'.
Proof.
  intros Hsrc Ho Hlo Hal Hsf Hn Hs Hd. rewrite Z.shiftl_mul_pow2 by lia. change (2 ^ 6) with 64.
  assert (Hloop : ∃ ws', (if sf mod 64 =? 0 then
       go_for (Z.to_nat (n / 64)) 0 (fun i destBits =>
         x ← @aget goerr _ src (sf / 64 + i);
         or_word destBits (df / 64 + i) x) ws
     else
       go_for (Z.to_nat (n / 64)) 0 (fun i destBits =>
         x ← aget src (sf / 64 + i);
         y ← aget src (sf / 64 + i + 1);
         or_word destBits (df / 64 + i)
           (Z.lor (Z.shiftr x (sf mod 64)) (shl64 y (64 - sf mod 64)))) ws) = Ret ws' ∧
    ored d lo (df + 64 * (n / 64)) (moved_bit src (sf - df)) ws').
  { destruct (Z.eqb_spec (sf mod 64) 0) as [E|E].
    - apply (or_words_loop src (sf - df) (fun i => aget src (sf / 64 + i))); try done; try idx.
      intros i Hi. rewrite (nthZ_aget 0) by idx. eexists. split; [done|]. split; [by apply word_at|].
      intros k Hk. rewrite <- bit_word by done. f_equal. idx.
    - destruct (or_words_loop src (sf - df) (fun i => x ← aget src (sf / 64 + i); y ← aget src (sf / 64 + i + 1);
        mret (Z.lor (Z.shiftr x (sf mod 64)) (shl64 y (64 - sf mod 64)))) d lo df (n / 64) ws)
        as (ws' & El & Ho'); try done; try idx.
      + intros i Hi. rewrite (nthZ_aget 0 src (sf / 64 + i)), go_bind_ret by idx.
        rewrite (nthZ_aget 0 src (sf / 64 + i + 1)), go_bind_ret by idx. eexists. split; [done|]. split.
        { apply lor_uint; [lia|apply shiftr_uint; [idx|by apply word_at]|auto with words]. }
        intros k Hk. rewrite Z.lor_spec, Z.shiftr_spec, testbit_shl64 by lia.
        replace (df + 64 * i + (sf - df) + k) with (sf + 64 * i + k) by lia.
        destruct (Z.lt_ge_cases (k + sf mod 64) 64) as [Hlt|Hge].
        * rewrite (Z.testbit_neg_r _ (k - _)), orb_false_r by lia. rewrite <- bit_word by idx. f_equal. idx.
        * rewrite (in_uint_testbit_high 64), orb_false_l by (lia || by apply word_at).
          rewrite <- bit_word by idx. f_equal. idx.
      + exists ws'. split; [|done]. rewrite <- El. apply go_for_ext. intros i s Hi.
        destruct (aget src (sf / 64 + i)); [|done..]. cbn [mbind go_bind].
        by destruct (aget src (sf / 64 + i + 1)). }
  destruct Hloop as (ws1 & -> & Ho1). rewrite go_bind_ret.
  destruct (Z.ltb_spec 0 (n - n / 64 * 64)) as [Hmore|Hdone].
  - destruct (readNBits_spec src (sf + n / 64 * 64) (n - n / 64 * 64)) as (x & -> & Hx & Hxb);
      [done|idx|idx|idx|]. rewrite go_bind_ret. replace (n / 64 * 64) with (64 * (n / 64)) in * by lia.
    destruct (ored_read src (sf - df) d lo (df + 64 * (n / 64)) (n - 64 * (n / 64)) ws1 x)
      as (ws2 & E2 & Ho2); try done; try idx.
    + intros k Hk. rewrite Hxb by done. do 2 f_equal. lia.
    + exists ws2. split; [|by replace (df + n) with (df + 64 * (n / 64) + (n - 64 * (n / 64))) by lia].
      rewrite <- E2. f_equal. replace ((df + 64 * (n / 64)) mod 64) with 0 by idx.
      unfold shl64. rewrite Z.shiftl_0_r. symmetry. by apply uwrap_id.
  - exists ws1. split; [done|]. by replace (df + n) with (df + 64 * (n / 64)) by idx.
Qed.

(** The bits up to the first word boundary of the target. *)
Lemma or_head source dest sf df n :
  wf source → wf dest → 0 ≤ sf → 0 ≤ df → 1 ≤ n → sf + n ≤ size source → df + n ≤ size dest →
  let head := if negb (df mod 64 =? 0) then Z.min (64 - df mod 64) n else 0 in
  ∃ ws, (if negb (df mod 64 =? 0) then
       x ← readNBits (bits source) sf (Z.min (64 - df mod 64) n);
       destBits ← or_word (bits dest) (df / 64) (shl64 x (df mod 64));
       mret (destBits, sf + Z.min (64 - df mod 64) n, df + Z.min (64 - df mod 64) n, n - Z.min (64 - df mod 64) n)
     else @mret _ (@go_ret goerr) _ (bits dest, sf, df, n)) = Ret (ws, sf + head, df + head, n - head) ∧
    ored (bits dest) df (df + head) (moved_bit (bits source) (sf - df)) ws.
Proof.
  intros Ws Wd Hsf Hdf Hn Hse Hde. pose proof (wf_length _ Ws) as Hls. pose proof (wf_length _ Wd) as Hld.
  pose proof (wf_words _ Ws) as Hsw. pose proof (wf_words _ Wd) as Hdw.
  destruct (Z.eqb_spec (df mod 64) 0) as [E|E]; cbn [negb].
  - exists (bits dest). rewrite !Z.add_0_r, Z.sub_0_r. split; [done|]. by apply ored_start.
  - set (k := Z.min (64 - df mod 64) n). cbv zeta.
    destruct (readNBits_spec (bits source) sf k) as (x & -> & Hx & Hxb); [done|lia|idx|rewrite Hls; idx|].
    rewrite go_bind_ret.
    destruct (ored_read (bits source) (sf - df) (bits dest) df df k (bits dest) x)
      as (ws & -> & Ho); try done; try idx; [by apply ored_start| |].
    + intros j Hj. rewrite Hxb by done. do 2 f_equal. lia.
    + rewrite go_bind_ret. by exists ws.
Qed.

Definition or_range_valid (source dest : FixedBitSet) (sf df n : Z) : bool :=
  (0 <=? n) && (0 <=? sf) && (0 <=? df) && (sf + n <=? size source) && (df + n <=? size dest).

(** The code's own check, which cannot overflow. *)
Lemma or_range_check source dest sf df n :
  negb ((n <? 0) || (sf <? 0) || (df <? 0) || (size source - n <? sf) || (size dest - n <? df))
  = or_range_valid source dest sf df n.
Proof.
  unfold or_range_valid. rewrite !negb_orb, <- !Z.leb_antisym. f_equal; [f_equal|].
  - destruct (Z.leb_spec sf (size source - n)), (Z.leb_spec (sf + n) (size source)); (done || lia).
  - destruct (Z.leb_spec df (size dest - n)), (Z.leb_spec (df + n) (size dest)); (done || lia).
Qed.

(** The words [ored] describes are those of the target with the range added. *)
Lemma ored_range source dest sf df n ws :
  wf dest → 0 ≤ df → df + n ≤ size dest →
  ored (bits dest) df (df + n) (moved_bit (bits source) (sf - df)) ws →
  becomes dest (fun i => fbit dest i || ((df <=? i) && (i <? df + n) && fbit source (i - df + sf)))
    (set_bits ws dest).
Proof.
  intros Wd Hdf Hde Ho. apply ored_becomes in Ho; try done. eapply becomes_ext; [|exact Ho].
  intros i Hi. cbn. unfold moved_bit, fbit. by replace (i + (sf - df)) with (i - df + sf) by lia.
Qed.

(** C39. [FixedBitSetOrRange], which copies word by word with shifts, adds to the
    target exactly the positions of the source's range, moved to the target's
    range, for every alignment of the two; bad ranges panic. *)
Theorem OrRange_correct (source dest : FixedBitSet) (sourceFrom destFrom n : Z) :
  wf source → wf dest →
  if (0 <=? n) && (0 <=? sourceFrom) && (0 <=? destFrom) &&
     (sourceFrom + n <=? size source) && (destFrom + n <=? size dest)
  then ∃ dest', FixedBitSetOrRange source sourceFrom dest destFrom n = Ret dest' ∧
    wf dest' ∧ size dest' = size dest ∧ ∀ i, 0 ≤ i < size dest →
      fbit dest' i = fbit dest i ||
        ((destFrom <=? i) && (i <? destFrom + n) && fbit source (i - destFrom + sourceFrom))
  else FixedBitSetOrRange source sourceFrom dest destFrom n = Panic.
Proof.
  intros Ws Wd. fold (or_range_valid source dest sourceFrom destFrom n).
  unfold FixedBitSetOrRange. rewrite or_range_check.
  destruct (or_range_valid _ _ _ _ _) eqn:Hv; [|done]. unfold or_range_valid in Hv.
  rewrite !andb_true_iff, !Z.leb_le in Hv. destruct Hv as ((((Hn & Hsf) & Hdf) & Hse) & Hde).
  unfold must. rewrite go_bind_ret.
  pose proof (wf_length _ Ws) as Hls. pose proof (wf_length _ Wd) as Hld.
  pose proof (fun ws => ored_range source dest sourceFrom destFrom n ws Wd Hdf Hde) as Hgoal.
  destruct (Z.eqb_spec n 0) as [->|Hn0].
  { exists dest. split; [done|]. replace dest with (set_bits (bits dest) dest) at 1 2 3 by (by destruct dest).
    apply Hgoal. rewrite Z.add_0_r. apply ored_start, Wd. }
  rewrite !land63, !shiftr6.
  destruct (or_head source dest sourceFrom destFrom n Ws Wd) as (ws & -> & Ho); [lia..|]. rewrite go_bind_ret.
  set (head := if negb (destFrom mod 64 =? 0) then _ else _) in *.
  assert (Hhead : 0 ≤ head ≤ n ∧ (head = n ∨ (destFrom + head) mod 64 = 0)).
  { unfold head. destruct (Z.eqb_spec (destFrom mod 64) 0); cbn [negb]; idx. }
  destruct (Z.eqb_spec (n - head) 0) as [Ez|Ez].
  { eexists. split; [done|]. apply Hgoal. by replace head with n in Ho by lia. }
  destruct Hhead as [Hhr [Hhn|Hal]]; [lia|]. rewrite !land63, !shiftr6.
  destruct (or_aligned (bits source) (bits dest) destFrom (sourceFrom + head) (destFrom + head) (n - head) ws)
    as (ws' & E & Ho'); try done; try lia; [apply Ws| |rewrite Hls; idx|rewrite Hld; idx|].
  { by replace (sourceFrom + head - (destFrom + head)) with (sourceFrom - destFrom) by lia. }
  exists (set_bits ws' dest). split; [by rewrite <- go_bind_assoc, E|]. apply Hgoal.
  replace (destFrom + n) with (destFrom + head + (n - head)) by lia.
  by replace (sourceFrom - destFrom) with (sourceFrom + head - (destFrom + head)) by lia.
Qed.

Lemma OrRange_correct_witness :
  ∃ source dest source' dest', NewFixedBitSet 200 = Ret source ∧ NewFixedBitSet 150 = Ret dest ∧
    FBSet 137 source = Ret source' ∧ FixedBitSetOrRange source' 70 dest 5 130 = Ret dest' ∧ wf dest' ∧
    fbit dest' 72 = fbit dest 72 || fbit source' 137.
Proof.
  destruct (NewFixedBitSet_spec 200) as (source & Es & Ws & Hs & _); [lia|].
  destruct (NewFixedBitSet_spec 150) as (dest & Ed & Wd & Hd & _); [lia|].
  pose proof (update_bit_spec Z.lor orb 137 source _ orb_false_r Ws) as Hset. rewrite Hs in Hset.
  destruct Hset as (source' & Er & Ws' & Hs' & _).
  pose proof (OrRange_correct source' dest 70 5 130 Ws' Wd) as Hor. rewrite Hs', Hs, Hd in Hor.
  destruct Hor as (dest' & Eo & Wd' & _ & Hb). exists source, dest, source', dest'.
  split_and!; [exact Es|exact Ed|exact Er|exact Eo|exact Wd'|]. by rewrite Hb by lia.
Defined.
