(* ===== verification/SparseFixedBitSet.v ===== *)
(** The sparse bit set of [util/sparse_fixed_bit_set.go]: blocks of 4096 bits that
    store their non-zero words only, next to a word that says which they are.
    Refined to a set of positions; the in-place union is shown to lose bits. *)

From stdpp Require Import base tactics numbers list strings.
From Stdlib Require Import ZArith Lia.
From S2P Require Import Prelude WordBits.

Local Open Scope Z_scope.

(** A [nil] array of a block is the empty list: the code treats the two alike. *)
Record SparseFixedBitSet := {
  indices : list Z;
  bits : list (list Z);
  length_ : Z;
  nonZeroLongCount : Z;
  ramBytesUsed : Z
}.

Definition set_indices (l : list Z) (s : SparseFixedBitSet) : SparseFixedBitSet :=
  {| indices := l; bits := bits s; length_ := length_ s; nonZeroLongCount := nonZeroLongCount s;
     ramBytesUsed := ramBytesUsed s |}.

Definition set_bits (l : list (list Z)) (s : SparseFixedBitSet) : SparseFixedBitSet :=
  {| indices := indices s; bits := l; length_ := length_ s; nonZeroLongCount := nonZeroLongCount s;
     ramBytesUsed := ramBytesUsed s |}.

Definition add_count (n : Z) (s : SparseFixedBitSet) : SparseFixedBitSet :=
  {| indices := indices s; bits := bits s; length_ := length_ s;
     nonZeroLongCount := nonZeroLongCount s + n; ramBytesUsed := ramBytesUsed s |}.

Definition add_ram (n : Z) (s : SparseFixedBitSet) : SparseFixedBitSet :=
  {| indices := indices s; bits := bits s; length_ := length_ s;
     nonZeroLongCount := nonZeroLongCount s; ramBytesUsed := ramBytesUsed s + n |}.

(** [s.indices[i] = v] and [s.bits[i] = v] *)
Definition store_index (i v : Z) (s : SparseFixedBitSet) : M SparseFixedBitSet :=
  l ← aset (indices s) i v; mret (set_indices l s).

Definition store_bits (i : Z) (v : list Z) (s : SparseFixedBitSet) : M SparseFixedBitSet :=
  l ← aset (bits s) i v; mret (set_bits l s).

Definition mask4096 : Z := 4095.

Definition blockCount (length : Z) : Z :=
  let bc := Z.shiftr length 12 in
  if Z.shiftl bc 12 <? length then bc + 1 else bc.

Definition baseRam (bc : Z) : Z := 24 + bc * 8 + bc * 24.

Definition NewSparseFixedBitSet (length : Z) : M SparseFixedBitSet :=
  if length <? 1 then Err (Errorf "length needs to be >= 1"%string) else
  let bc := blockCount length in
  mret {| indices := repeat 0 (Z.to_nat bc); bits := repeat [] (Z.to_nat bc); length_ := length;
          nonZeroLongCount := 0; ramBytesUsed := baseRam bc |}.

Definition ClearAll (s : SparseFixedBitSet) : SparseFixedBitSet :=
  {| indices := map (fun _ => 0) (indices s); bits := map (fun _ => []) (bits s);
     length_ := length_ s; nonZeroLongCount := 0; ramBytesUsed := baseRam (blockCount (length_ s)) |}.

Definition Length (s : SparseFixedBitSet) : Z := length_ s.

Definition Cardinality (s : SparseFixedBitSet) : Z :=
  foldl (fun cardinality bitArray => foldl (fun c b => c + OnesCount64 b) cardinality bitArray) 0 (bits s).

Definition check_index (i : Z) (s : SparseFixedBitSet) : M unit :=
  if (i <? 0) || (length_ s <=? i) then Panic else mret tt.

(** [uint64(1) << uint(i64&63)], and the words of the block before it *)
Definition long_bit (i64 : Z) : Z := shl64 1 (Z.land i64 63).

Definition offset_of (index i64bit : Z) : Z := OnesCount64 (Z.land index (i64bit - 1)).

Definition Get (i : Z) (s : SparseFixedBitSet) : M bool :=
  _ ← check_index i s;
  let i4096 := Z.shiftr i 12 in
  index ← aget (indices s) i4096;
  let i64bit := long_bit (Z.shiftr i 6) in
  if Z.land index i64bit =? 0 then mret false else
  bitArray ← aget (bits s) i4096;
  let idx := offset_of index i64bit in
  if Z.of_nat (length bitArray) <=? idx then mret false else
  b ← aget bitArray idx;
  mret (negb (Z.land b (long_bit i) =? 0)).

(** * Insertion *)

Definition sparseOversize (s : Z) : Z :=
  let newSize := s + Z.shiftr s 1 in
  if 50 <? newSize then 64 else newSize.

Definition insertBlock (i4096 i64bit i : Z) (s : SparseFixedBitSet) : M SparseFixedBitSet :=
  s ← store_index i4096 i64bit s;
  s ← store_bits i4096 [long_bit i] s;
  mret (add_ram 8 (add_count 1 s)).

Definition insertLong (i4096 i64bit i index : Z) (s : SparseFixedBitSet) : M SparseFixedBitSet :=
  current ← aget (indices s) i4096;
  s ← store_index i4096 (Z.lor current i64bit) s;
  let o := offset_of index i64bit in
  bitArray ← aget (bits s) i4096;
  let len := Z.of_nat (length bitArray) in
  spare ← (if 0 <? len then last ← aget bitArray (len - 1); mret (last =? 0) else mret false);
  if (spare : bool) then
    src ← slice bitArray o (len - 1);
    bitArray ← copy_at bitArray (o + 1) src;
    bitArray ← aset bitArray o (long_bit i);
    s ← store_bits i4096 bitArray s;
    mret (add_count 1 s)
  else
    let newSize := sparseOversize (len + 1) in
    let newBitArray := repeat 0 (Z.to_nat newSize) in
    before ← slice bitArray 0 o;
    newBitArray ← copy_at newBitArray 0 before;
    newBitArray ← aset newBitArray o (long_bit i);
    after ← slice bitArray o len;
    newBitArray ← copy_at newBitArray (o + 1) after;
    s ← store_bits i4096 newBitArray s;
    mret (add_count 1 (add_ram ((newSize - len) * 8) s)).

(** [s.bits[i4096][location] |= bit] *)
Definition or_at (i4096 location bit : Z) (s : SparseFixedBitSet) : M SparseFixedBitSet :=
  bitArray ← aget (bits s) i4096;
  w ← aget bitArray location;
  bitArray ← aset bitArray location (Z.lor w bit);
  store_bits i4096 bitArray s.

Definition SetBit (i : Z) (s : SparseFixedBitSet) : M SparseFixedBitSet :=
  _ ← check_index i s;
  let i4096 := Z.shiftr i 12 in
  index ← aget (indices s) i4096;
  let i64bit := long_bit (Z.shiftr i 6) in
  if negb (Z.land index i64bit =? 0) then or_at i4096 (offset_of index i64bit) (long_bit i) s
  else if index =? 0 then insertBlock i4096 i64bit i s
  else insertLong i4096 i64bit i index s.

Definition GetAndSet (i : Z) (s : SparseFixedBitSet) : M (bool * SparseFixedBitSet) :=
  _ ← check_index i s;
  let i4096 := Z.shiftr i 12 in
  index ← aget (indices s) i4096;
  let i64bit := long_bit (Z.shiftr i 6) in
  if negb (Z.land index i64bit =? 0) then
    let location := offset_of index i64bit in
    let bit := long_bit i in
    bitArray ← aget (bits s) i4096;
    w ← aget bitArray location;
    let v := negb (Z.land w bit =? 0) in
    s ← or_at i4096 location bit s;
    mret (v, s)
  else if index =? 0 then s ← insertBlock i4096 i64bit i s; mret (false, s)
  else s ← insertLong i4096 i64bit i index s; mret (false, s).

(** * Removal *)

Definition removeLong (i4096 i64 index o : Z) (s : SparseFixedBitSet) : M SparseFixedBitSet :=
  let index := Z.land index (not64 (long_bit i64)) in
  s ← store_index i4096 index s;
  s ← (if index =? 0 then store_bits i4096 [] s else
    let length := OnesCount64 index in
    bitArray ← aget (bits s) i4096;
    let len := Z.of_nat (List.length bitArray) in
    bitArray ← (if o + 1 <? len then src ← slice bitArray (o + 1) len; copy_at bitArray o src else mret bitArray);
    bitArray ← (if length <? len then aset bitArray length 0 else mret bitArray);
    store_bits i4096 bitArray s);
  mret (add_count (-1) s).

Definition and_ (i4096 i64 mask : Z) (s : SparseFixedBitSet) : M SparseFixedBitSet :=
  index ← aget (indices s) i4096;
  let i64bit := long_bit i64 in
  if negb (Z.land index i64bit =? 0) then
    let o := offset_of index i64bit in
    bitArray ← aget (bits s) i4096;
    if o <? Z.of_nat (length bitArray) then
      w ← aget bitArray o;
      let newBits := Z.land w mask in
      if newBits =? 0 then removeLong i4096 i64 index o s
      else bitArray ← aset bitArray o newBits; store_bits i4096 bitArray s
    else mret s
  else mret s.

Definition Clear (i : Z) (s : SparseFixedBitSet) : M SparseFixedBitSet :=
  _ ← check_index i s;
  and_ (Z.shiftr i 12) (Z.shiftr i 6) (not64 (long_bit i)) s.

Definition maskForRange (from to_ : Z) : Z := shl64 (to_uint64 (shl64 1 (to_ - from + 1) - 1)) from.

Definition clearWithinBlock (i4096 from to_ : Z) (s : SparseFixedBitSet) : M SparseFixedBitSet :=
  let firstLong := Z.shiftr from 6 in
  let lastLong := Z.shiftr to_ 6 in
  if firstLong =? lastLong then
    and_ i4096 firstLong (not64 (maskForRange (Z.land from 63) (Z.land to_ 63))) s
  else
    s ← and_ i4096 lastLong (not64 (maskForRange 0 (Z.land to_ 63))) s;
    s ← go_for (Z.to_nat (lastLong - 1 - firstLong)) 0 (fun k s => and_ i4096 (lastLong - 1 - k) 0 s) s;
    and_ i4096 firstLong (not64 (maskForRange (Z.land from 63) 63)) s.

Definition clear_block (i : Z) (s : SparseFixedBitSet) : M SparseFixedBitSet :=
  index ← aget (indices s) i;
  let s := add_count (- OnesCount64 index) s in
  s ← store_index i 0 s;
  store_bits i [] s.

Definition ClearRange (from to_ : Z) (s : SparseFixedBitSet) : M SparseFixedBitSet :=
  if to_ <=? from then mret s else
  let from := if from <? 0 then 0 else from in
  let to_ := if length_ s <? to_ then length_ s else to_ in
  let firstBlock := Z.shiftr from 12 in
  let lastBlock := Z.shiftr (to_ - 1) 12 in
  if firstBlock =? lastBlock then
    clearWithinBlock firstBlock (Z.land from mask4096) (Z.land (to_ - 1) mask4096) s
  else
    s ← clearWithinBlock firstBlock (Z.land from mask4096) mask4096 s;
    s ← go_for (Z.to_nat (lastBlock - (firstBlock + 1))) (firstBlock + 1) clear_block s;
    clearWithinBlock lastBlock 0 (Z.land (to_ - 1) mask4096) s.

(** * Searching *)

Fixpoint firstDoc (fuel : nat) (i4096 i4096upper : Z) (s : SparseFixedBitSet) : M Z :=
  match fuel with
  | O => NoFuel
  | S fuel =>
      if (i4096 <? i4096upper) && (i4096 <? Z.of_nat (length (indices s))) then
        index ← aget (indices s) i4096;
        if negb (index =? 0) then
          let i64 := TrailingZeros64 index in
          bitArray ← aget (bits s) i4096;
          if 0 <? Z.of_nat (length bitArray) then
            b ← aget bitArray 0;
            mret (Z.lor (Z.lor (Z.shiftl i4096 12) (Z.shiftl i64 6)) (TrailingZeros64 b))
          else firstDoc fuel (i4096 + 1) i4096upper s
        else firstDoc fuel (i4096 + 1) i4096upper s
      else mret (-1)
  end.

Definition nextSetBitInRange (start upperBound : Z) (s : SparseFixedBitSet) : M Z :=
  if length_ s <=? start then mret (-1) else
  let i4096 := Z.shiftr start 12 in
  if Z.of_nat (length (indices s)) <=? i4096 then mret (-1) else
  index ← aget (indices s) i4096;
  let i64 := Z.shiftr start 6 in
  let i64bit := long_bit i64 in
  let o := offset_of index i64bit in
  bitArray ← aget (bits s) i4096;
  let here := negb (Z.land index i64bit =? 0) in
  b ← (if here && (o <? Z.of_nat (length bitArray))
       then w ← aget bitArray o; mret (Z.shiftr w (Z.land start 63)) else mret 0);
  if negb (b =? 0) then mret (start + TrailingZeros64 b) else
  let o := if here then o + 1 else o in
  let indexBits := Z.shiftr (Z.shiftr index (Z.land i64 63)) 1 in
  if indexBits =? 0 then
    let i4096upper := if upperBound =? length_ s then Z.of_nat (length (indices s)) else blockCount upperBound in
    firstDoc (S (length (indices s))) (i4096 + 1) i4096upper s
  else
    let i64 := i64 + (1 + TrailingZeros64 indexBits) in
    if o <? Z.of_nat (length bitArray) then
      b ← aget bitArray o; mret (Z.shiftl i64 6 + TrailingZeros64 b)
    else mret (-1).

(** The optional argument is a [None] when it is not given. *)
Definition NextSetBit (start : Z) (upperBound : option Z) (s : SparseFixedBitSet) : M Z :=
  let ub := match upperBound with
            | Some u => if u <? length_ s then u else length_ s
            | None => length_ s end in
  if length_ s <=? start then mret (-1) else
  let start := if start <? 0 then 0 else start in
  res ← nextSetBitInRange start ub s;
  if (res <? ub) && (0 <=? res) then mret res else mret (-1).

Fixpoint lastDoc (fuel : nat) (i4096 : Z) (s : SparseFixedBitSet) : M Z :=
  match fuel with
  | O => NoFuel
  | S fuel =>
      if 0 <=? i4096 then
        index ← aget (indices s) i4096;
        if negb (index =? 0) then
          let i64 := 63 - LeadingZeros64 index in
          bitArray ← aget (bits s) i4096;
          let idx := OnesCount64 index - 1 in
          if (0 <? Z.of_nat (length bitArray)) && ((0 <=? idx) && (idx <? Z.of_nat (length bitArray))) then
            b ← aget bitArray idx;
            mret (Z.lor (Z.lor (Z.shiftl i4096 12) (Z.shiftl i64 6)) (63 - LeadingZeros64 b))
          else lastDoc fuel (i4096 - 1) s
        else lastDoc fuel (i4096 - 1) s
      else mret (-1)
  end.

Definition PrevSetBit (i : Z) (s : SparseFixedBitSet) : M Z :=
  if i <? 0 then mret (-1) else
  let i := if length_ s <=? i then length_ s - 1 else i in
  let i4096 := Z.shiftr i 12 in
  let lastDoc := lastDoc (S (length (indices s))) in
  if Z.of_nat (length (indices s)) <=? i4096 then lastDoc (Z.of_nat (length (indices s)) - 1) s else
  index ← aget (indices s) i4096;
  let i64 := Z.shiftr i 6 in
  let i64bit := long_bit i64 in
  let indexBits := Z.land index (i64bit - 1) in
  let o := OnesCount64 indexBits in
  bitArray ← aget (bits s) i4096;
  b ← (if negb (Z.land index i64bit =? 0) && (o <? Z.of_nat (length bitArray))
       then w ← aget bitArray o; mret (Z.land w (to_uint64 (shl64 1 (Z.land i 63 + 1) - 1))) else mret 0);
  if negb (b =? 0) then mret (Z.shiftl i64 6 + (63 - LeadingZeros64 b)) else
  if indexBits =? 0 then lastDoc (i4096 - 1) s else
  let i64 := 63 - LeadingZeros64 indexBits in
  if (0 <? o) && (o - 1 <? Z.of_nat (length bitArray)) then
    b ← aget bitArray (o - 1);
    mret (Z.lor (Z.lor (Z.shiftl i4096 12) (Z.shiftl i64 6)) (63 - LeadingZeros64 b))
  else mret (-1).

Definition IsEmpty (s : SparseFixedBitSet) : bool := nonZeroLongCount s =? 0.

(** * Union *)

Definition longBits (index : Z) (bitArray : list Z) (i64 : Z) : M Z :=
  if Z.land index (long_bit i64) =? 0 then mret 0 else
  let idx := offset_of index (long_bit i64) in
  if idx <? Z.of_nat (length bitArray) then aget bitArray idx else mret 0.

(** The step at word [i] of a block. When the array of the block has room
    ([reuse]), [newBits] and [currentBits] are one array: what is read is what
    the earlier steps have written. *)
Definition or_step (reuse : bool) (currentIndex index newIndex : Z) (currentBits otherBits : list Z)
    (i : Z) (st : list Z * Z) : M (list Z * Z) :=
  let '(newBits, newO) := st in
  if negb (Z.land newIndex (shl64 1 i) =? 0) then
    a ← longBits currentIndex (if reuse then newBits else currentBits) i;
    b ← longBits index otherBits i;
    newBits ← aset newBits newO (Z.lor a b);
    mret (newBits, newO + 1)
  else mret st.

Definition orBlock (i4096 index : Z) (otherBits : list Z) (count : Z) (s : SparseFixedBitSet)
  : M SparseFixedBitSet :=
  currentIndex ← aget (indices s) i4096;
  if currentIndex =? 0 then
    s ← store_index i4096 index s;
    newBits ← slice otherBits 0 count;
    s ← store_bits i4096 newBits s;
    mret (add_count count (add_ram (Z.of_nat (length newBits) * 8) s))
  else
    currentBits ← aget (bits s) i4096;
    let newIndex := Z.lor currentIndex index in
    let requiredCapacity := OnesCount64 newIndex in
    let reuse := requiredCapacity <=? Z.of_nat (length currentBits) in
    let newBits := if reuse then currentBits else repeat 0 (Z.to_nat (sparseOversize requiredCapacity)) in
    let s := if reuse then s
             else add_ram ((Z.of_nat (length newBits) - Z.of_nat (length currentBits)) * 8) s in
    '(newBits, _) ← go_for 64 0 (or_step reuse currentIndex index newIndex currentBits otherBits) (newBits, 0);
    s ← store_index i4096 newIndex s;
    s ← store_bits i4096 newBits s;
    mret (add_count (count - OnesCount64 (Z.land currentIndex index)) s).

Definition Or (other s : SparseFixedBitSet) : M SparseFixedBitSet :=
  if negb (length_ s =? length_ other) then Err (Errorf "bitset lengths do not match"%string) else
  go_for (length (indices other)) 0 (fun i s =>
    index ← aget (indices other) i;
    if negb (index =? 0) then
      otherBits ← aget (bits other) i;
      orBlock i index otherBits (OnesCount64 index) s
    else mret s) s.

Definition RamBytesUsed (s : SparseFixedBitSet) : Z := ramBytesUsed s.

(** The copies of the arrays are equal to them. *)
Definition Clone (s : SparseFixedBitSet) : SparseFixedBitSet :=
  {| indices := indices s; bits := bits s; length_ := length_ s;
     nonZeroLongCount := nonZeroLongCount s; ramBytesUsed := ramBytesUsed s |}.

Definition equal_arrays (a b : list Z) : M bool :=
  if negb (Z.of_nat (length a) =? Z.of_nat (length b)) then mret false else
  go_for (length a) 0 (fun j (equal : bool) =>
    if equal then x ← aget a j; y ← aget b j; mret (x =? y) else mret false) true.

Definition Equals (s other : SparseFixedBitSet) : M bool :=
  if negb (length_ s =? length_ other) then mret false else
  if negb (nonZeroLongCount s =? nonZeroLongCount other) then mret false else
  go_for (length (indices s)) 0 (fun i (equal : bool) =>
    if equal then
      x ← aget (indices s) i; y ← aget (indices other) i;
      if negb (x =? y) then mret false else
      a ← aget (bits s) i; b ← aget (bits other) i;
      equal_arrays a b
    else mret false) true.

(** A run on concrete sets. *)
Fixpoint set_all (l : list Z) (s : SparseFixedBitSet) : M SparseFixedBitSet :=
  match l with [] => mret s | i :: l => s ← SetBit i s; set_all l s end.

Example sparse_run :
  (s ← NewSparseFixedBitSet 20000;
   s ← set_all [5; 4095; 4096; 130; 12345; 64; 19999; 200; 300; 400; 500] s;
   s ← Clear 130 s;
   '(a, s) ← GetAndSet 300 s;
   b ← NextSetBit 4097 None s; c ← NextSetBit 65 (Some 200) s; d ← PrevSetBit 12344 s; e ← PrevSetBit 499 s;
   f ← NextSetBit 501 None s;
   s ← ClearRange 200 12000 s;
   g ← PrevSetBit 12344 s;
   mret (a, b, c, d, e, f, g, Cardinality s, nonZeroLongCount s)) =
  Ret (true, 12345, -1, 4096, 400, 4095, 64, 4, 4).
Proof. vm_compute. reflexivity. Qed.

(** * Blocks

    [nz W a b]: the words of [W] from [a] to [b] that are not 0. *)

Definition nonzero (w : Z) : bool := negb (w =? 0).

Definition nz (W : Z → Z) (a b : Z) : list Z := filter (fun w => nonzero w = true) (W <$> seqZ a (b - a)).

Definition put (W : Z → Z) (k v : Z) : Z → Z := fun j => if j =? k then v else W j.

Definition one (w : Z) : list Z := if nonzero w then [w] else [].

Lemma put_same W k v : put W k v k = v.
Proof. unfold put. by rewrite Z.eqb_refl. Qed.

Lemma put_other W k v j : j ≠ k → put W k v j = W j.
Proof. intros H. unfold put. by rewrite (proj2 (Z.eqb_neq j k)). Qed.

Lemma nonzero_spec w : nonzero w = true ↔ w ≠ 0.
Proof. unfold nonzero. by rewrite negb_true_iff, Z.eqb_neq. Qed.

Lemma nz_split W a b c : a ≤ b ≤ c → nz W a c = nz W a b ++ nz W b c.
Proof.
  intros H. unfold nz. replace (c - a) with ((b - a) + (c - b)) by lia.
  rewrite seqZ_app, fmap_app, filter_app by lia. by replace (a + (b - a)) with b by lia.
Qed.

Lemma nz_ext W W' a b : (∀ j, a ≤ j < b → W j = W' j) → nz W a b = nz W' a b.
Proof.
  intros H. unfold nz. f_equal. apply list_fmap_ext. intros i j Hi.
  apply list_elem_of_lookup_2, elem_of_seqZ in Hi. apply H. lia.
Qed.

Lemma nz_one W k : nz W k (k + 1) = one (W k).
Proof.
  unfold nz, one. replace (k + 1 - k) with 1 by lia. rewrite seqZ_cons by lia. rewrite seqZ_nil by lia.
  cbn [fmap list_fmap]. rewrite filter_cons. destruct (nonzero (W k)); by case_decide.
Qed.

Lemma nz_nil W a b : (∀ j, a ≤ j < b → W j = 0) → nz W a b = [].
Proof.
  intros H. unfold nz. assert (Hl : ∀ w, w ∈ W <$> seqZ a (b - a) → w = 0).
  { intros w (j & -> & Hj%elem_of_seqZ)%list_elem_of_fmap. apply H. lia. }
  induction (W <$> seqZ a (b - a)) as [|w l IH]; [done|]. rewrite filter_cons, (Hl w) by left.
  case_decide; [done|]. apply IH. intros; apply Hl; by right.
Qed.

Lemma nz_nonzero W a b : Forall (fun w => w ≠ 0) (nz W a b).
Proof. apply Forall_forall. intros w [Hw _]%list_elem_of_filter. by apply nonzero_spec. Qed.

Lemma length_nz W a b : Z.of_nat (length (nz W a b)) = count (fun j => nonzero (W j)) a b.
Proof.
  unfold nz, count. f_equal. induction (seqZ a (b - a)) as [|j l IH]; [done|].
  cbn [fmap list_fmap]. rewrite !filter_cons. repeat case_decide; cbn; by rewrite ?IH.
Qed.

(** A block whose words are [W 0], ..., [W 63]. *)
Record rep (index : Z) (arr : list Z) (W : Z → Z) : Prop := {
  rep_word : is_word index;
  rep_bit : ∀ k, 0 ≤ k < 64 → Z.testbit index k = nonzero (W k);
  rep_arr : ∃ n, arr = nz W 0 64 ++ repeat 0 n
}.

Lemma rep_offset index arr W k :
  rep index arr W → 0 ≤ k < 64 → offset_of index (shl64 1 k) = Z.of_nat (length (nz W 0 k)).
Proof.
  intros R Hk. unfold offset_of, OnesCount64. rewrite length_nz, (count_split _ 0 k 64) by lia.
  rewrite (count_none _ k 64), Z.add_0_r.
  - apply count_ext. intros i Hi. rewrite Z.land_spec, testbit_low by lia.
    rewrite (proj2 (Z.ltb_lt i k)), andb_true_r by lia. apply R. lia.
  - intros i Hi. rewrite Z.land_spec, testbit_low by lia. by rewrite (proj2 (Z.ltb_ge i k)), andb_false_r by lia.
Qed.

Lemma rep_count index arr W : rep index arr W → OnesCount64 index = Z.of_nat (length (nz W 0 64)).
Proof. intros R. unfold OnesCount64. rewrite length_nz. apply count_ext, R. Qed.

Lemma rep_ext index arr W W' : (∀ k, 0 ≤ k < 64 → W k = W' k) → rep index arr W → rep index arr W'.
Proof.
  intros H [R1 R2 [n ->]]. split; [done| |].
  - intros k Hk. by rewrite R2, H.
  - exists n. f_equal. by apply nz_ext.
Qed.

(** Everything an operation on the word [k] of a block needs: the array around it,
    and that putting another word there gives a block again. *)
Lemma rep_at index arr W k :
  rep index arr W → 0 ≤ k < 64 →
  ∃ pre suf n, arr = pre ++ one (W k) ++ suf ++ repeat 0 n ∧
    offset_of index (shl64 1 k) = Z.of_nat (length pre) ∧
    OnesCount64 index = Z.of_nat (length (pre ++ one (W k) ++ suf)) ∧
    Forall (fun w => w ≠ 0) (pre ++ suf) ∧
    ∀ v index' m, is_word index' → (∀ j, 0 ≤ j < 64 → Z.testbit index' j = nonzero (put W k v j)) →
      rep index' (pre ++ one v ++ suf ++ repeat 0 m) (put W k v) ∧
      OnesCount64 index' = Z.of_nat (length (pre ++ one v ++ suf)).
Proof.
  intros R Hk. pose proof (rep_count _ _ _ R) as Hc. pose proof (rep_offset _ _ _ k R Hk) as Ho.
  destruct R as [R1 R2 [n ->]].
  assert (Hsplit : ∀ W', nz W' 0 64 = nz W' 0 k ++ one (W' k) ++ nz W' (k + 1) 64).
  { intros W'. rewrite (nz_split W' 0 k 64), (nz_split W' k (k + 1) 64), nz_one by lia. done. }
  rewrite Hsplit in Hc |- *. exists (nz W 0 k), (nz W (k + 1) 64), n.
  split_and!; [by rewrite <- !app_assoc|done|done|apply Forall_app; split; apply nz_nonzero|].
  intros v index' m Hi Hb.
  assert (En : nz (put W k v) 0 64 = nz W 0 k ++ one v ++ nz W (k + 1) 64).
  { rewrite Hsplit, put_same. f_equal; [|f_equal]; apply nz_ext; intros j Hj; by rewrite put_other by lia. }
  assert (R' : rep index' (nz W 0 k ++ one v ++ nz W (k + 1) 64 ++ repeat 0 m) (put W k v)).
  { split; [done|done|]. exists m. by rewrite En, <- !app_assoc. }
  split; [done|]. by rewrite (rep_count _ _ _ R'), En.
Qed.

Lemma long_bit_eq i : long_bit i = shl64 1 (i mod 64).
Proof. unfold long_bit. by rewrite land63. Qed.

(** ** The words of the index after a change *)

Lemma index_put index arr W k v :
  rep index arr W → 0 ≤ k < 64 →
  is_word (Z.lor index (shl64 1 k)) ∧ is_word (Z.land index (not64 (shl64 1 k))) ∧
  ∀ j, 0 ≤ j < 64 →
    Z.testbit (if nonzero v then Z.lor index (shl64 1 k) else Z.land index (not64 (shl64 1 k))) j =
    nonzero (put W k v j).
Proof.
  intros R Hk. pose proof (rep_word _ _ _ R) as Hw. split_and!.
  - apply lor_uint; auto with words; lia.
  - apply land_uint; auto with words; try lia. apply Hw.
  - intros j Hj. destruct (nonzero v) eqn:Ev.
    + rewrite Z.lor_spec, testbit_bit, (rep_bit _ _ _ R) by done. unfold put.
      destruct (Z.eqb_spec j k); [by rewrite orb_true_r, Ev|apply orb_false_r].
    + rewrite Z.land_spec, testbit_not64, testbit_bit, (rep_bit _ _ _ R) by done. unfold put.
      destruct (Z.eqb_spec j k); [by rewrite andb_false_r, Ev|apply andb_true_r].
Qed.

Lemma rep_nil : rep 0 [] (fun _ => 0).
Proof.
  split; [done|intros; by rewrite Z.testbit_0_l|]. exists O. by rewrite nz_nil.
Qed.

(** * Sets of blocks *)

Definition block (W : Z → Z) (b : Z) : Z → Z := fun k => W (64 * b + k).

Definition wbit (W : Z → Z) (i : Z) : bool := Z.testbit (W (i / 64)) (i mod 64).

Definition blocks (s : SparseFixedBitSet) : Z := (length_ s + 4095) / 4096.

(** [models s W]: the words of the set are [W 0], [W 1], ...; there are no bits
    beyond the length, and the number of words that are not 0 is right. *)
Record models (s : SparseFixedBitSet) (W : Z → Z) : Prop := {
  m_length : 1 ≤ length_ s;
  m_indices : Z.of_nat (length (indices s)) = blocks s;
  m_bits : Z.of_nat (length (bits s)) = blocks s;
  m_words : ∀ j, is_word (W j);
  m_rep : ∀ b, 0 ≤ b < blocks s → rep (nthZ 0 (indices s) b) (nthZ [] (bits s) b) (block W b);
  m_count : nonZeroLongCount s = count (fun j => nonzero (W j)) 0 (64 * blocks s);
  m_ghost : ∀ i, length_ s ≤ i → wbit W i = false
}.

(** The set holds the positions of [P]. *)
Definition holds (s : SparseFixedBitSet) (P : Z → bool) : Prop :=
  ∃ W, models s W ∧ ∀ i, 0 ≤ i → wbit W i = if i <? length_ s then P i else false.

Lemma holds_ext s P Q : (∀ i, 0 ≤ i < length_ s → P i = Q i) → holds s P → holds s Q.
Proof.
  intros H (W & HM & HP). exists W. split; [done|]. intros i Hi. rewrite HP by done.
  destruct (Z.ltb_spec i (length_ s)); [by apply H|done].
Qed.

Lemma models_holds s W : models s W → holds s (wbit W).
Proof.
  intros HM. exists W. split; [done|]. intros i Hi. destruct (Z.ltb_spec i (length_ s)); [done|].
  by apply (m_ghost _ _ HM).
Qed.

Lemma wbit_word W j k : 0 ≤ k < 64 → wbit W (64 * j + k) = Z.testbit (W j) k.
Proof. intros Hk. unfold wbit. replace ((64 * j + k) / 64) with j by idx. by replace ((64 * j + k) mod 64) with k by idx. Qed.

Lemma count_nonzero_block W b :
  count (fun j => nonzero (block W b j)) 0 64 = count (fun j => nonzero (W j)) (64 * b) (64 * b + 64).
Proof.
  rewrite (count_shift (fun j => nonzero (W j)) (64 * b)). f_equal; lia.
Qed.

(** One block of the set is replaced. *)
Lemma models_block s s' W W' b index arr :
  models s W → 0 ≤ b < blocks s → rep index arr (block W' b) →
  (∀ j, j / 64 ≠ b → W' j = W j) → (∀ j, is_word (W' j)) → (∀ i, length_ s ≤ i → wbit W' i = false) →
  length_ s' = length_ s → indices s' = <[Z.to_nat b := index]> (indices s) →
  bits s' = <[Z.to_nat b := arr]> (bits s) →
  nonZeroLongCount s' = nonZeroLongCount s + count (fun j => nonzero (block W' b j)) 0 64
                        - count (fun j => nonzero (block W b j)) 0 64 →
  models s' W'.
Proof.
  intros HM Hb R Hout Hw Hg El Ei Eb Ec.
  assert (En : blocks s' = blocks s) by (unfold blocks; by rewrite El).
  pose proof (m_indices _ _ HM) as Hi. pose proof (m_bits _ _ HM) as Hbs.
  split; rewrite ?En, ?El, ?Ei, ?Eb, ?length_insert; [apply HM|done|done|done| | |done].
  - intros c Hc. rewrite !nthZ_insert by lia. case_decide as Hbc; [by subst|].
    apply rep_ext with (block W c); [|by apply (m_rep _ _ HM)].
    intros k Hk. unfold block. symmetry. apply Hout. idx.
  - rewrite Ec, (m_count _ _ HM), !count_nonzero_block.
    assert (Hs : ∀ U, count (fun j => nonzero (U j)) 0 (64 * blocks s) =
      count (fun j => nonzero (U j)) 0 (64 * b) + count (fun j => nonzero (U j)) (64 * b) (64 * b + 64)
      + count (fun j => nonzero (U j)) (64 * b + 64) (64 * blocks s)).
    { intros U. rewrite (count_split _ 0 (64 * b)), (count_split _ (64 * b) (64 * b + 64) (64 * blocks s)) by lia. lia. }
    rewrite !Hs. rewrite (count_ext (fun j => nonzero (W' j)) (fun j => nonzero (W j)) 0) by (intros; by rewrite Hout by idx).
    rewrite (count_ext (fun j => nonzero (W' j)) (fun j => nonzero (W j)) (64 * b + 64)) by (intros; by rewrite Hout by idx).
    lia.
Qed.

Lemma count_put W k v :
  0 ≤ k < 64 →
  count (fun j => nonzero (put W k v j)) 0 64 =
  count (fun j => nonzero (W j)) 0 64 + Z.b2z (nonzero v) - Z.b2z (nonzero (W k)).
Proof.
  intros Hk.
  assert (Hs : ∀ U, count (fun j => nonzero (U j)) 0 64 =
    count (fun j => nonzero (U j)) 0 k + Z.b2z (nonzero (U k)) + count (fun j => nonzero (U j)) (k + 1) 64).
  { intros U. rewrite (count_split _ 0 k 64), (count_cons _ k 64) by lia. lia. }
  rewrite !Hs, put_same.
  rewrite (count_ext (fun j => nonzero (put W k v j)) (fun j => nonzero (W j)) 0)
    by (intros; by rewrite put_other by lia).
  rewrite (count_ext (fun j => nonzero (put W k v j)) (fun j => nonzero (W j)) (k + 1))
    by (intros; by rewrite put_other by lia).
  lia.
Qed.

(** One word of the set is replaced: [s'] differs from [s] in the block [b]. *)
Lemma models_put s s' W b k v index arr :
  models s W → 0 ≤ b < blocks s → 0 ≤ k < 64 → rep index arr (put (block W b) k v) → is_word v →
  (∀ t, 0 ≤ t < 64 → length_ s ≤ 64 * (64 * b + k) + t → Z.testbit v t = false) →
  length_ s' = length_ s → indices s' = <[Z.to_nat b := index]> (indices s) →
  bits s' = <[Z.to_nat b := arr]> (bits s) →
  nonZeroLongCount s' = nonZeroLongCount s + Z.b2z (nonzero v) - Z.b2z (nonzero (W (64 * b + k))) →
  models s' (put W (64 * b + k) v).
Proof.
  intros HM Hb Hk R Hv Hg El Ei Eb Ec.
  assert (Hblock : ∀ j, 0 ≤ j < 64 → put (block W b) k v j = block (put W (64 * b + k) v) b j).
  { intros j Hj. unfold put, block. destruct (Z.eqb_spec j k), (Z.eqb_spec (64 * b + j) (64 * b + k)); (done || lia). }
  eapply (models_block s s' W); eauto.
  - by apply (rep_ext _ _ _ _ Hblock).
  - intros j Hj. apply put_other. idx.
  - intros j. unfold put. destruct (j =? 64 * b + k); [done|apply HM].
  - intros i Hi. unfold wbit, put. destruct (Z.eqb_spec (i / 64) (64 * b + k)) as [E|E]; [|by apply (m_ghost _ _ HM)].
    apply Hg; [idx|]. rewrite <- E. idx.
  - rewrite Ec. rewrite (count_ext _ (fun j => nonzero (put (block W b) k v j))) by (intros; by rewrite Hblock).
    rewrite count_put by done. change (block W b k) with (W (64 * b + k)). lia.
Qed.

(** ** Changing one word *)

Lemma store_index_Ret b v s : 0 ≤ b < Z.of_nat (length (indices s)) →
  store_index b v s = Ret (set_indices (<[Z.to_nat b := v]> (indices s)) s).
Proof. intros Hb. unfold store_index. by rewrite aset_Ret by done. Qed.

Lemma store_bits_Ret b v s : 0 ≤ b < Z.of_nat (length (bits s)) →
  store_bits b v s = Ret (set_bits (<[Z.to_nat b := v]> (bits s)) s).
Proof. intros Hb. unfold store_bits. by rewrite aset_Ret by done. Qed.

Lemma insert_same {A} (d : A) (l : list A) b : 0 ≤ b < Z.of_nat (length l) → <[Z.to_nat b := nthZ d l b]> l = l.
Proof. intros Hb. apply list_insert_id. by apply nthZ_lookup. Qed.

Lemma one_nonzero w : w ≠ 0 → one w = [w].
Proof. intros H. unfold one, nonzero. by rewrite (proj2 (Z.eqb_neq w 0)). Qed.

(** The index word tells whether the word is stored. *)
Lemma stored index arr W k : rep index arr W → 0 ≤ k < 64 →
  negb (Z.land index (shl64 1 k) =? 0) = nonzero (W k).
Proof. intros R Hk. rewrite land_bit_zero by (done || apply R). by apply R. Qed.

Lemma index_keep index arr W k v : rep index arr W → 0 ≤ k < 64 → nonzero v = nonzero (W k) →
  ∀ j, 0 ≤ j < 64 → Z.testbit index j = nonzero (put W k v j).
Proof.
  intros R Hk Hv j Hj. rewrite (rep_bit _ _ _ R) by done. unfold put.
  destruct (Z.eqb_spec j k) as [->|]; congruence.
Qed.

Lemma or_at_spec s W b k x :
  models s W → 0 ≤ b < blocks s → 0 ≤ k < 64 → W (64 * b + k) ≠ 0 → is_word x →
  (∀ t, 0 ≤ t < 64 → length_ s ≤ 64 * (64 * b + k) + t → Z.testbit x t = false) →
  ∃ s', or_at b (offset_of (nthZ 0 (indices s) b) (shl64 1 k)) x s = Ret s' ∧ length_ s' = length_ s ∧
    models s' (put W (64 * b + k) (Z.lor (W (64 * b + k)) x)).
Proof.
  intros HM Hb Hk H0 Hx Hg. pose proof (m_rep _ _ HM b Hb) as R.
  pose proof (m_indices _ _ HM) as Hi. pose proof (m_bits _ _ HM) as Hbs.
  destruct (rep_at _ _ _ k R Hk) as (pre & suf & n & Ea & Eo & _ & _ & Hput).
  change (block W b k) with (W (64 * b + k)) in *. set (w := W (64 * b + k)) in *.
  rewrite one_nonzero in Ea by done. unfold or_at.
  rewrite (nthZ_aget []), go_bind_ret, Ea, Eo by lia. cbn [app].
  rewrite aget_mid, go_bind_ret, aset_mid, go_bind_ret, store_bits_Ret by (done || lia).
  assert (Hv : Z.lor w x ≠ 0) by (intros [? _]%Z.lor_eq_0_iff; done).
  eexists. split; [done|]. split; [done|].
  eapply (models_put s _ W b k (Z.lor w x) (nthZ 0 (indices s) b)); eauto; cbn.
  - specialize (Hput (Z.lor w x) (nthZ 0 (indices s) b) n). rewrite one_nonzero in Hput by done.
    apply Hput; [apply R|]; apply (index_keep _ _ _ _ _ R Hk).
    change (block W b k) with w. unfold nonzero. by rewrite !(proj2 (Z.eqb_neq _ 0)).
  - apply lor_uint; [lia|apply HM|done].
  - intros t Ht Hlen. rewrite Z.lor_spec, Hg by done. rewrite orb_false_r. unfold w. rewrite <- wbit_word by done.
    by apply (m_ghost _ _ HM).
  - by rewrite insert_same by lia.
  - fold w. unfold nonzero. rewrite !(proj2 (Z.eqb_neq _ 0)) by done. cbn. lia.
Qed.

Lemma insertBlock_spec s W b k i :
  models s W → 0 ≤ b < blocks s → 0 ≤ k < 64 → nthZ 0 (indices s) b = 0 → i mod 64 = i - 64 * (64 * b + k) →
  i < length_ s →
  ∃ s', insertBlock b (shl64 1 k) i s = Ret s' ∧ length_ s' = length_ s ∧
    models s' (put W (64 * b + k) (long_bit i)) ∧ W (64 * b + k) = 0.
Proof.
  intros HM Hb Hk H0 Hik Hlt. pose proof (m_rep _ _ HM b Hb) as R.
  pose proof (m_indices _ _ HM) as Hi. pose proof (m_bits _ _ HM) as Hbs.
  destruct (rep_at _ _ _ k R Hk) as (pre & suf & n & Ea & _ & Ec & _ & Hput).
  destruct (index_put _ _ _ k (long_bit i) R Hk) as (Hw & _ & Hbits).
  rewrite H0 in *. change (OnesCount64 0) with 0 in Ec. rewrite !length_app in Ec.
  assert (Hone : block W b k = 0).
  { unfold one, nonzero in Ec. destruct (Z.eqb_spec (block W b k) 0); [done|cbn in Ec; lia]. }
  destruct pre; [|cbn in Ec; lia]. destruct suf; [|cbn in Ec; lia].
  assert (Hv : long_bit i ≠ 0).
  { rewrite long_bit_eq. intros E. assert (Ht : Z.testbit (shl64 1 (i mod 64)) (i mod 64) = false) by (by rewrite E, Z.testbit_0_l).
    rewrite testbit_bit, Z.eqb_refl in Ht by idx. done. }
  unfold insertBlock. rewrite store_index_Ret, go_bind_ret, store_bits_Ret, go_bind_ret by (cbn; lia).
  eexists. split; [done|]. split; [done|]. split; [|done].
  eapply (models_put s _ W b k (long_bit i) (shl64 1 k)); eauto; cbn.
  - specialize (Hput (long_bit i) (shl64 1 k) O). rewrite one_nonzero in Hput by done. apply Hput; [auto with words|].
    unfold nonzero in Hbits at 1. rewrite (proj2 (Z.eqb_neq _ 0)) in Hbits by done. cbn in Hbits.
    rewrite Z.lor_0_l in Hbits. done.
  - apply shl64_word.
  - intros t Ht Hlen. rewrite long_bit_eq, testbit_bit by done. apply Z.eqb_neq. lia.
  - change (W (64 * b + k)) with (block W b k). rewrite Hone. unfold nonzero.
    rewrite (proj2 (Z.eqb_neq _ 0)) by done. cbn. lia.
Qed.

Lemma count_le P a b : a ≤ b → count P a b ≤ b - a.
Proof.
  intros H. unfold count. pose proof (length_filter (fun i => P i = true) (seqZ a (b - a))) as Hl.
  rewrite length_seqZ in Hl. lia.
Qed.

Lemma sparseOversize_ge n : 1 ≤ n ≤ 64 → n ≤ sparseOversize n.
Proof.
  intros Hn. unfold sparseOversize. pose proof (Z.shiftr_nonneg n 1).
  destruct (Z.ltb_spec 50 (n + Z.shiftr n 1)); lia.
Qed.

(** A new word between the others: in the spare room of the array, or in a
    larger array. *)
Lemma insert_spare pre suf n x :
  let arr := pre ++ suf ++ repeat 0 (S n) in
  let o := Z.of_nat (length pre) in
  (src ← slice arr o (Z.of_nat (length arr) - 1);
   arr ← copy_at arr (o + 1) src;
   aset arr o x) = @Ret goerr _ (pre ++ [x] ++ suf ++ repeat 0 n).
Proof.
  cbv zeta. change (repeat 0 (S n)) with (0 :: repeat 0 n). rewrite repeat_cons. 
  replace (pre ++ suf ++ repeat 0 n ++ [0]) with (pre ++ (suf ++ repeat 0 n) ++ [0]) by (by rewrite <- app_assoc).
  rewrite slice_mid by (rewrite ?length_app; cbn [length]; lia). rewrite go_bind_ret.
  destruct ((suf ++ repeat 0 n) ++ [0]) as [|y ys] eqn:E; [by destruct (suf ++ repeat 0 n)|].
  replace (pre ++ y :: ys) with ((pre ++ [y]) ++ ys ++ []) by (by rewrite app_nil_r, <- app_assoc).
  assert (Hl : length ys = length (suf ++ repeat 0 n)).
  { apply (f_equal length) in E. rewrite length_app in E. cbn in E. lia. }
  rewrite copy_at_mid by (done || (rewrite length_app; cbn [length]; lia)).
  rewrite go_bind_ret, app_nil_r, <- app_assoc. cbn [app]. by rewrite aset_mid.
Qed.

Lemma insert_grown pre suf x N :
  let arr := pre ++ suf in
  let o := Z.of_nat (length pre) in
  Z.of_nat (length arr) + 1 ≤ N →
  (before ← slice arr 0 o;
   new ← copy_at (repeat 0 (Z.to_nat N)) 0 before;
   new ← aset new o x;
   after ← slice arr o (Z.of_nat (length arr));
   copy_at new (o + 1) after) =
  @Ret goerr _ (pre ++ [x] ++ suf ++ repeat 0 (Z.to_nat N - length pre - 1 - length suf)).
Proof.
  cbv zeta. rewrite length_app. intros HN. 
  replace (slice (pre ++ suf) 0 (Z.of_nat (length pre))) with (@Ret goerr _ pre)
    by (symmetry; apply (slice_mid [] pre suf); cbn [length]; lia).
  rewrite go_bind_ret.
  replace (Z.to_nat N) with (length pre + (1 + (length suf + (Z.to_nat N - length pre - 1 - length suf))))%nat at 1 by lia.
  set (m := (Z.to_nat N - length pre - 1 - length suf)%nat). rewrite !repeat_app. cbn [repeat app].
  change (repeat 0 (length pre) ++ ?r) with ([] ++ repeat 0 (length pre) ++ r).
  rewrite copy_at_mid by (rewrite ?repeat_length; done). rewrite go_bind_ret. cbn [app].
  rewrite aset_mid, go_bind_ret by done. rewrite slice_all, go_bind_ret by lia.
  change (x :: ?r) with ([x] ++ r). rewrite (app_assoc pre [x]).
  rewrite copy_at_mid by (rewrite ?length_app, ?repeat_length; cbn [length]; lia). by rewrite <- app_assoc.
Qed.

(** The last word of a full array is not 0. *)
Lemma last_nonzero l : Forall (fun w => w ≠ 0) l → l ≠ [] →
  ∃ y, @aget goerr Z l (Z.of_nat (length l) - 1) = Ret y ∧ y ≠ 0.
Proof.
  intros H Hl. destruct l as [|y l _] using rev_ind; [done|]. exists y. apply Forall_app in H as [_ H].
  apply Forall_cons in H as [H _]. split; [|done]. rewrite length_app. cbn [length].
  apply (aget_mid l []). lia.
Qed.

Lemma last_spare {A} (l : list A) x n y :
  @aget goerr A (l ++ repeat x (S n)) (Z.of_nat (length (l ++ repeat x (S n))) - 1) = Ret y → y = x.
Proof.
  change (repeat x (S n)) with (x :: repeat x n). rewrite repeat_cons, app_assoc, length_app. cbn [length].
  rewrite aget_mid by lia. congruence.
Qed.

Lemma long_bit_word i : is_word (long_bit i).
Proof. apply shl64_word. Qed.

Lemma long_bit_bit i t : 0 ≤ t < 64 → Z.testbit (long_bit i) t = (t =? i mod 64).
Proof. intros Ht. by rewrite long_bit_eq, testbit_bit. Qed.

Lemma long_bit_nonzero i : long_bit i ≠ 0.
Proof.
  intros E. assert (Ht : Z.testbit (long_bit i) (i mod 64) = false) by (by rewrite E, Z.testbit_0_l).
  rewrite long_bit_bit, Z.eqb_refl in Ht by idx. done.
Qed.

Lemma insertLong_spec s W b k i :
  models s W → 0 ≤ b < blocks s → 0 ≤ k < 64 → nthZ 0 (indices s) b ≠ 0 → W (64 * b + k) = 0 →
  i mod 64 = i - 64 * (64 * b + k) → i < length_ s →
  ∃ s', insertLong b (shl64 1 k) i (nthZ 0 (indices s) b) s = Ret s' ∧ length_ s' = length_ s ∧
    models s' (put W (64 * b + k) (long_bit i)).
Proof.
  intros HM Hb Hk H0 HW Hik Hlt. pose proof (m_rep _ _ HM b Hb) as R.
  pose proof (m_indices _ _ HM) as Hi. pose proof (m_bits _ _ HM) as Hbs.
  destruct (rep_at _ _ _ k R Hk) as (pre & suf & n & Ea & Eo & Ec & Hnz & Hput).
  destruct (index_put _ _ _ k (long_bit i) R Hk) as (Hw & _ & Hbits).
  change (block W b k) with (W (64 * b + k)) in *. rewrite HW in *. change (one 0) with (@nil Z) in *.
  cbn [app] in Ea, Ec. pose proof (long_bit_nonzero i) as Hv. pose proof (rep_count _ _ _ R) as Hc.
  assert (Hroom : OnesCount64 (nthZ 0 (indices s) b) ≤ 63).
  { rewrite Hc, length_nz. pose proof (count_put (block W b) k 1 Hk) as Hcp.
    change (block W b k) with (W (64 * b + k)) in Hcp. rewrite HW in Hcp. change (nonzero 1) with true in Hcp.
    change (nonzero 0) with false in Hcp. cbn [Z.b2z] in Hcp.
    pose proof (count_le (fun j => nonzero (put (block W b) k 1 j)) 0 64). lia. }
  assert (Hsome : OnesCount64 (nthZ 0 (indices s) b) ≠ 0).
  { intros E. apply H0, word_zero; [apply R|]. intros j Hj. rewrite (rep_bit _ _ _ R) by done.
    destruct (nonzero (block W b j)) eqn:En; [|done].
    pose proof (count_put (block W b) j 0 Hj) as Hcp. rewrite En in Hcp. change (nonzero 0) with false in Hcp. cbn [Z.b2z] in Hcp.
    rewrite Hc, length_nz in E. rewrite E in Hcp. unfold count in Hcp. lia. }
  (** either way, the new array has the word in its place *)
  enough (Hgo : ∃ s' m, insertLong b (shl64 1 k) i (nthZ 0 (indices s) b) s = Ret s' ∧ length_ s' = length_ s ∧
    indices s' = <[Z.to_nat b := Z.lor (nthZ 0 (indices s) b) (shl64 1 k)]> (indices s) ∧
    bits s' = <[Z.to_nat b := pre ++ one (long_bit i) ++ suf ++ repeat 0 m]> (bits s) ∧
    nonZeroLongCount s' = nonZeroLongCount s + 1).
  { destruct Hgo as (s' & m & E & El & Ei & Eb & En). exists s'. split_and!; [done..|].
    eapply (models_put s s' W b k (long_bit i)); eauto.
    - apply Hput; [done|]. unfold nonzero in Hbits at 1. rewrite (proj2 (Z.eqb_neq _ 0)) in Hbits by done. done.
    - apply long_bit_word.
    - intros t Ht Hlen. rewrite long_bit_bit by done. apply Z.eqb_neq. lia.
    - rewrite En, HW. unfold nonzero. rewrite (proj2 (Z.eqb_neq _ 0)) by done. cbn. lia. }
  rewrite length_app in Ec. unfold insertLong. rewrite one_nonzero by done.
  rewrite (nthZ_aget 0), go_bind_ret, store_index_Ret, go_bind_ret by lia. cbn [bits set_indices].
  rewrite (nthZ_aget []), go_bind_ret, Eo, Ea by lia.
  destruct n as [|n].
  - rewrite app_nil_r. rewrite (proj2 (Z.ltb_lt 0 _)) by (rewrite length_app; lia).
    destruct (last_nonzero (pre ++ suf)) as (y & -> & Hy); [done|by intros E; rewrite <- length_app, E in Ec|].
    rewrite go_bind_ret. cbn [mret go_ret mbind go_bind]. rewrite (proj2 (Z.eqb_neq y 0)) by done.
    set (N := sparseOversize _).
    assert (HN : Z.of_nat (length (pre ++ suf)) + 1 ≤ N) by (apply sparseOversize_ge; rewrite length_app; lia).
    pose proof (insert_grown pre suf (long_bit i) N HN) as Hg. cbv zeta in Hg.
    apply go_bind_Ret_inv in Hg as (before & E1 & Hg). apply go_bind_Ret_inv in Hg as (new1 & E2 & Hg).
    apply go_bind_Ret_inv in Hg as (new2 & E3 & Hg). apply go_bind_Ret_inv in Hg as (after & E4 & Hg).
    rewrite E1, go_bind_ret, E2, go_bind_ret, E3, go_bind_ret, E4, go_bind_ret, Hg, go_bind_ret.
    rewrite store_bits_Ret by (cbn; lia). eexists _, _. split_and!; [done..|]. done.
  - rewrite (proj2 (Z.ltb_lt 0 _)) by (rewrite !length_app; cbn; lia).
    destruct (aget_ex (E:=goerr) (pre ++ suf ++ repeat 0 (S n)) (Z.of_nat (length (pre ++ suf ++ repeat 0 (S n))) - 1)) as (y & Ey & _).
    { rewrite !length_app. cbn. lia. }
    rewrite Ey, go_bind_ret. rewrite app_assoc in Ey. apply last_spare in Ey as ->. cbn [mret go_ret mbind go_bind]. cbn [Z.eqb].
    pose proof (insert_spare pre suf n (long_bit i)) as Hg. cbv zeta in Hg.
    apply go_bind_Ret_inv in Hg as (src & E1 & Hg). apply go_bind_Ret_inv in Hg as (new1 & E2 & Hg).
    rewrite E1, go_bind_ret, E2, go_bind_ret, Hg, go_bind_ret, store_bits_Ret by (cbn; lia).
    eexists _, n. split_and!; [done..|]. done.
Qed.

(** ** [Set], [GetAndSet] and [Get] *)

Lemma shiftr12 i : Z.shiftr i 12 = i / 4096.
Proof. rewrite Z.shiftr_div_pow2 by lia. done. Qed.

(** The block and the word of a position. *)
Lemma locate s i : 0 ≤ i < length_ s →
  0 ≤ i / 4096 < blocks s ∧ 0 ≤ (i / 64) mod 64 < 64 ∧ 64 * (i / 4096) + (i / 64) mod 64 = i / 64 ∧
  i mod 64 = i - 64 * (64 * (i / 4096) + (i / 64) mod 64).
Proof. intros Hi. unfold blocks. split_and!; idx. Qed.

Lemma check_index_range i s : check_index i s = if in_range i (length_ s) then Ret tt else Panic.
Proof.
  unfold check_index, in_range.
  destruct (Z.ltb_spec i 0), (Z.leb_spec (length_ s) i), (Z.leb_spec 0 i), (Z.ltb_spec i (length_ s)); try done; lia.
Qed.

Definition with_bit (W : Z → Z) (i : Z) : Z → Z := put W (i / 64) (Z.lor (W (i / 64)) (long_bit i)).

Lemma wbit_put W w v j : wbit (put W w v) j = if j / 64 =? w then Z.testbit v (j mod 64) else wbit W j.
Proof. unfold wbit, put. by destruct (j / 64 =? w). Qed.

Lemma wbit_with_bit W i j : 0 ≤ j → wbit (with_bit W i) j = if j =? i then true else wbit W j.
Proof.
  intros Hj. unfold with_bit. rewrite wbit_put. destruct (Z.eqb_spec (j / 64) (i / 64)) as [E|E].
  - rewrite Z.lor_spec, long_bit_bit, <- E by idx. fold (wbit W j).
    destruct (Z.eqb_spec (j mod 64) (i mod 64)), (Z.eqb_spec j i);
      [apply orb_true_r|idx|idx|apply orb_false_r].
  - destruct (Z.eqb_spec j i); [congruence|done].
Qed.

Lemma add_bit_spec s W i :
  models s W → 0 ≤ i < length_ s →
  let index := nthZ 0 (indices s) (i / 4096) in
  let i64bit := shl64 1 ((i / 64) mod 64) in
  negb (Z.land index i64bit =? 0) = nonzero (W (i / 64)) ∧
  ∃ s', (if nonzero (W (i / 64)) then or_at (i / 4096) (offset_of index i64bit) (long_bit i) s
         else if index =? 0 then insertBlock (i / 4096) i64bit i s
         else insertLong (i / 4096) i64bit i index s) = Ret s' ∧
    length_ s' = length_ s ∧ models s' (with_bit W i).
Proof.
  intros HM Hi. destruct (locate s i Hi) as (Hb & Hk & Hw & Hik). cbv zeta.
  rewrite (stored _ _ _ _ (m_rep _ _ HM _ Hb) Hk). unfold block, with_bit. rewrite Hw. split; [done|].
  set (b := i / 4096) in *. set (k := (i / 64) mod 64) in *. rewrite <- Hw.
  destruct (nonzero (W (64 * b + k))) eqn:Enz.
  - apply nonzero_spec in Enz. apply or_at_spec; try done; [apply long_bit_word|].
    intros t Ht Hlen. rewrite long_bit_bit by done. apply Z.eqb_neq. lia.
  - assert (HW : W (64 * b + k) = 0).
    { unfold nonzero in Enz. by apply negb_false_iff, Z.eqb_eq in Enz. }
    rewrite HW, Z.lor_0_l. destruct (Z.eqb_spec (nthZ 0 (indices s) b) 0).
    + destruct (insertBlock_spec s W b k i) as (s' & ? & ? & ? & _); try done; [lia|by exists s'].
    + apply insertLong_spec; try done. lia.
Qed.

(** The index word and the array of a block are there. *)
Lemma block_get s W b : models s W → 0 ≤ b < blocks s →
  @aget goerr Z (indices s) b = Ret (nthZ 0 (indices s) b) ∧
  @aget goerr (list Z) (bits s) b = Ret (nthZ [] (bits s) b).
Proof.
  intros HM Hb. pose proof (m_indices _ _ HM). pose proof (m_bits _ _ HM).
  split; apply nthZ_aget; lia.
Qed.

Lemma SetBit_spec s W i :
  models s W → 0 ≤ i < length_ s →
  ∃ s', SetBit i s = Ret s' ∧ length_ s' = length_ s ∧ models s' (with_bit W i).
Proof.
  intros HM Hi. destruct (add_bit_spec s W i HM Hi) as (Est & s' & Es & Hs).
  exists s'. split; [|done]. unfold SetBit. rewrite check_index_range, (proj2 (in_range_spec _ _)) by done.
  cbn [mbind go_bind]. rewrite shiftr12, shiftr6, long_bit_eq.
  destruct (block_get s W (i / 4096) HM) as [-> _]; [by apply locate|]. rewrite go_bind_ret, Est. done.
Qed.

(** A stored word is found at its offset. *)
Lemma stored_word s W b k :
  models s W → 0 ≤ b < blocks s → 0 ≤ k < 64 → W (64 * b + k) ≠ 0 →
  let o := offset_of (nthZ 0 (indices s) b) (shl64 1 k) in
  0 ≤ o < Z.of_nat (length (nthZ [] (bits s) b)) ∧ @aget goerr Z (nthZ [] (bits s) b) o = Ret (W (64 * b + k)).
Proof.
  intros HM Hb Hk H0. destruct (rep_at _ _ _ k (m_rep _ _ HM b Hb) Hk) as (pre & suf & n & -> & -> & _).
  change (block W b k) with (W (64 * b + k)). rewrite one_nonzero by done. cbv zeta. split.
  - rewrite !length_app. cbn [length]. lia.
  - cbn [app]. by apply aget_mid.
Qed.

Lemma GetAndSet_spec s W i :
  models s W → 0 ≤ i < length_ s →
  ∃ s', GetAndSet i s = Ret (wbit W i, s') ∧ length_ s' = length_ s ∧ models s' (with_bit W i).
Proof.
  intros HM Hi. destruct (add_bit_spec s W i HM Hi) as (Est & s' & Es & Hs).
  exists s'. split; [|done]. destruct (locate s i Hi) as (Hb & Hk & Hw & _).
  unfold GetAndSet. rewrite check_index_range, (proj2 (in_range_spec _ _)) by done.
  cbn [mbind go_bind]. rewrite shiftr12, shiftr6, (long_bit_eq (i / 64)).
  destruct (block_get s W (i / 4096) HM Hb) as [-> ->]. rewrite go_bind_ret, Est.
  destruct (nonzero (W (i / 64))) eqn:Enz.
  - apply nonzero_spec in Enz. rewrite <- Hw in Enz.
    destruct (stored_word s W _ _ HM Hb Hk Enz) as [_ Ea]. rewrite go_bind_ret, Ea, go_bind_ret, Es, go_bind_ret, Hw.
    rewrite long_bit_eq, land_bit_zero by (apply HM || idx). done.
  - assert (HW : W (i / 64) = 0) by (unfold nonzero in Enz; by apply negb_false_iff, Z.eqb_eq in Enz).
    assert (Hf : wbit W i = false) by (unfold wbit; by rewrite HW, Z.testbit_0_l).
    rewrite Hf. by destruct (nthZ 0 (indices s) (i / 4096) =? 0); rewrite Es, go_bind_ret.
Qed.

Lemma sparse_Get_spec s W i :
  models s W → Get i s = if in_range i (length_ s) then Ret (wbit W i) else Panic.
Proof.
  intros HM. unfold Get. rewrite check_index_range. destruct (in_range i (length_ s)) eqn:Hi; [|done].
  apply in_range_spec in Hi. destruct (locate s i Hi) as (Hb & Hk & Hw & _).
  cbn [mbind go_bind]. rewrite shiftr12, shiftr6, (long_bit_eq (i / 64)).
  destruct (block_get s W (i / 4096) HM Hb) as [-> ->]. rewrite go_bind_ret.
  pose proof (stored _ _ _ _ (m_rep _ _ HM _ Hb) Hk) as Hst. unfold block in Hst. rewrite Hw in Hst.
  destruct (Z.land _ _ =? 0); cbn [negb] in Hst.
  - assert (HW : W (i / 64) = 0) by (by apply eq_sym, negb_false_iff, Z.eqb_eq in Hst).
    unfold wbit. by rewrite HW, Z.testbit_0_l.
  - apply eq_sym, nonzero_spec in Hst. rewrite <- Hw in Hst.
    destruct (stored_word s W _ _ HM Hb Hk Hst) as [Ho Ea]. rewrite go_bind_ret, (proj2 (Z.leb_gt _ _)) by lia.
    rewrite Ea, go_bind_ret, Hw, long_bit_eq, land_bit_zero by (apply HM || idx). done.
Qed.

(** ** Removing bits *)

(** The words after the removed one move down. *)
Lemma remove_array pre w suf n :
  let arr := pre ++ [w] ++ suf ++ repeat 0 n in
  let o := Z.of_nat (length pre) in
  let len := Z.of_nat (length arr) in
  let rest := Z.of_nat (length (pre ++ suf)) in
  (arr ← (if o + 1 <? len then src ← slice arr (o + 1) len; copy_at arr o src else mret arr);
   if rest <? len then aset arr rest 0 else mret arr) = @Ret goerr _ (pre ++ suf ++ repeat 0 (S n)).
Proof.
  cbv zeta. assert (Hlt : (Z.of_nat (length (pre ++ suf)) <? Z.of_nat (length (pre ++ [w] ++ suf ++ repeat 0 n))) = true).
  { apply Z.ltb_lt. rewrite !length_app. cbn. lia. }
  rewrite Hlt. set (l := suf ++ repeat 0 n).
  assert (Hz : ∀ ys z, [w] ++ l = ys ++ [z] →
    @aset goerr _ (pre ++ l ++ [z]) (Z.of_nat (length (pre ++ suf))) 0 = Ret (pre ++ suf ++ repeat 0 (S n))).
  { intros ys z E. unfold l in *. destruct n as [|n].
    - rewrite app_nil_r, app_assoc. cbn [repeat]. by rewrite aset_mid, <- app_assoc.
    - assert (z = 0) as ->.
      { change (repeat 0 (S n)) with (0 :: repeat 0 n) in E. rewrite repeat_cons, !app_assoc in E.
        by apply app_inj_tail in E as [_ ->]. }
      replace (pre ++ (suf ++ repeat 0 (S n)) ++ [0]) with ((pre ++ suf) ++ 0 :: repeat 0 n ++ [0])
        by (by rewrite <- !app_assoc).
      rewrite aset_mid by done. rewrite <- repeat_cons, <- app_assoc. done. }
  destruct (Z.ltb_spec (Z.of_nat (length pre) + 1) (Z.of_nat (length (pre ++ [w] ++ l)))) as [Hmore|Hend].
  - rewrite app_assoc. rewrite slice_all by (rewrite !length_app; cbn [length]; lia).
    rewrite go_bind_ret, <- app_assoc.
    destruct (exists_last (l:=[w] ++ l)) as (ys & x & E); [done|]. rewrite E in Hz |- *.
    rewrite copy_at_mid; [|done|]. 2: { apply (f_equal length) in E. rewrite !length_app in E. cbn in E. lia. }
    rewrite go_bind_ret. by apply Hz with ys.
  - assert (l = []) as El by (destruct l; [done|rewrite !length_app in Hend; cbn in Hend; lia]).
    cbn [mret go_ret mbind go_bind]. rewrite El in Hz |- *. by apply (Hz []).
Qed.

Lemma land_word a m : is_word a → is_word m → is_word (Z.land a m).
Proof. intros [Ha _] Hm. by apply land_uint. Qed.

Lemma removeLong_spec s W b i64 :
  models s W → 0 ≤ b < blocks s →
  let k := i64 mod 64 in
  W (64 * b + k) ≠ 0 →
  ∃ s', removeLong b i64 (nthZ 0 (indices s) b) (offset_of (nthZ 0 (indices s) b) (shl64 1 k)) s = Ret s' ∧
    length_ s' = length_ s ∧ models s' (put W (64 * b + k) 0).
Proof.
  intros HM Hb k H0. assert (Hk : 0 ≤ k < 64) by (unfold k; idx).
  pose proof (m_rep _ _ HM b Hb) as R. pose proof (m_indices _ _ HM) as Hi. pose proof (m_bits _ _ HM) as Hbs.
  destruct (rep_at _ _ _ k R Hk) as (pre & suf & n & Ea & Eo & _ & _ & Hput).
  destruct (index_put _ _ _ k 0 R Hk) as (_ & Hw & Hbits). change (nonzero 0) with false in Hbits.
  change (block W b k) with (W (64 * b + k)) in Ea. rewrite one_nonzero in Ea by done.
  specialize (Hput 0 _ (S n) Hw Hbits). change (one 0) with (@nil Z) in Hput. cbn [app] in Hput.
  destruct Hput as [R' Ec]. unfold removeLong. rewrite long_bit_eq. fold k. set (index := Z.land _ _) in *.
  enough (Hgo : ∃ s' arr, (s ← store_index b index s;
      s ← (if index =? 0 then store_bits b [] s else
        let length := OnesCount64 index in
        bitArray ← aget (bits s) b;
        let len := Z.of_nat (List.length bitArray) in
        bitArray ← (if Z.of_nat (List.length pre) + 1 <? len
                    then src ← slice bitArray (Z.of_nat (List.length pre) + 1) len;
                         copy_at bitArray (Z.of_nat (List.length pre)) src else mret bitArray);
        bitArray ← (if length <? len then aset bitArray length 0 else mret bitArray);
        store_bits b bitArray s);
      mret (add_count (-1) s)) = Ret s' ∧ rep index arr (put (block W b) k 0) ∧ length_ s' = length_ s ∧
      indices s' = <[Z.to_nat b := index]> (indices s) ∧ bits s' = <[Z.to_nat b := arr]> (bits s) ∧
      nonZeroLongCount s' = nonZeroLongCount s - 1).
  { destruct Hgo as (s' & arr & E & Ra & El & Ei & Eb & En). rewrite Eo. exists s'. split_and!; [done..|].
    eapply (models_put s s' W b k 0); eauto; [done|intros; apply Z.testbit_0_l|].
    rewrite En. change (nonzero 0) with false. rewrite (proj2 (nonzero_spec _)) by done. cbn. lia. }
  rewrite store_index_Ret, go_bind_ret by lia. destruct (Z.eqb_spec index 0) as [E0|E0].
  - rewrite store_bits_Ret, go_bind_ret by (cbn; lia). exists (add_count (-1) (set_bits (<[Z.to_nat b := []]> (bits s))
      (set_indices (<[Z.to_nat b := index]> (indices s)) s))), []. split_and!; try done.
    rewrite E0 in Ec. change (OnesCount64 0) with 0 in Ec. rewrite length_app in Ec.
    destruct pre; [|cbn in Ec; lia]. destruct suf; [|cbn in Ec; lia].
    destruct R' as [R1 R2 [m Em]]. split; [done..|]. exists O.
    destruct (nz (put (block W b) k 0) 0 64) as [|x l] eqn:Enz; [done|]. exfalso.
    pose proof (nz_nonzero (put (block W b) k 0) 0 64) as Hnz. rewrite Enz in Hnz. injection Em as Ex _.
    apply Forall_cons in Hnz as [Hx _]. done.
  - cbv zeta. cbn [bits set_indices]. rewrite (nthZ_aget []), go_bind_ret, Ea, Ec by lia.
    pose proof (remove_array pre (W (64 * b + k)) suf n) as Hr. cbv zeta in Hr.
    apply go_bind_Ret_inv in Hr as (arr & E1 & E2). rewrite E1, go_bind_ret, E2, go_bind_ret.
    rewrite store_bits_Ret, go_bind_ret by (cbn; lia). eexists _, _. split_and!; [done|exact R'|done..].
Qed.

Lemma models_ext s W W' : (∀ j, W j = W' j) → models s W → models s W'.
Proof.
  intros H [H1 H2 H3 H4 H5 H6 H7]. split; try done.
  - intros j. by rewrite <- H.
  - intros b Hb. apply rep_ext with (block W b); [intros; apply H|by apply H5].
  - rewrite H6. apply count_ext. intros j Hj. by rewrite H.
  - intros i Hi. unfold wbit. rewrite <- H. by apply H7.
Qed.

Lemma and_spec s W b i64 mask :
  models s W → 0 ≤ b < blocks s → is_word mask →
  let w := 64 * b + i64 mod 64 in
  ∃ s', and_ b i64 mask s = Ret s' ∧ length_ s' = length_ s ∧ models s' (put W w (Z.land (W w) mask)).
Proof.
  intros HM Hb Hmask w. assert (Hk : 0 ≤ i64 mod 64 < 64) by idx.
  pose proof (m_rep _ _ HM b Hb) as R. pose proof (m_bits _ _ HM) as Hbs. pose proof (m_indices _ _ HM) as Hi.
  unfold and_. destruct (block_get s W b HM Hb) as [Ei Eb]. rewrite Ei, go_bind_ret, long_bit_eq.
  rewrite (stored _ _ _ _ R Hk). change (block W b (i64 mod 64)) with (W w).
  destruct (nonzero (W w)) eqn:Enz.
  2: { exists s. split_and!; [done..|]. unfold nonzero in Enz. apply negb_false_iff, Z.eqb_eq in Enz.
       apply models_ext with W; [|done]. intros j. unfold put. destruct (Z.eqb_spec j w) as [->|]; [|done].
       by rewrite Enz, Z.land_0_l. }
  apply nonzero_spec in Enz. destruct (stored_word s W b _ HM Hb Hk Enz) as [Ho Ea].
  rewrite Eb, go_bind_ret. rewrite (proj2 (Z.ltb_lt _ _)) by apply Ho. rewrite Ea, go_bind_ret.
  change (W (64 * b + i64 mod 64)) with (W w). set (v := Z.land (W w) mask).
  destruct (Z.eqb_spec v 0) as [Ev|Ev].
  - rewrite Ev. by apply removeLong_spec.
  - destruct (rep_at _ _ _ _ R Hk) as (pre & suf & n & Earr & Eo & _ & _ & Hput).
    change (block W b (i64 mod 64)) with (W w) in Earr. rewrite one_nonzero in Earr by done.
    rewrite Earr, Eo. cbn [app]. rewrite aset_mid, go_bind_ret, store_bits_Ret by (done || lia).
    eexists. split; [done|]. split; [done|].
    eapply (models_put s _ W b (i64 mod 64) v (nthZ 0 (indices s) b)); eauto; cbn.
    + specialize (Hput v (nthZ 0 (indices s) b) n). rewrite one_nonzero in Hput by done.
      apply Hput; [apply R|]; apply (index_keep _ _ _ _ _ R Hk).
      change (block W b (i64 mod 64)) with (W w). by rewrite !(proj2 (nonzero_spec _)).
    + apply land_word; [apply HM|done].
    + intros t Ht Hlen. unfold v. rewrite Z.land_spec. fold w in Hlen. rewrite <- wbit_word by done.
      by rewrite (m_ghost _ _ HM).
    + by rewrite insert_same by lia.
    + fold w. rewrite !(proj2 (nonzero_spec _)) by done. cbn. lia.
Qed.

(** What the change is for the positions: those of the word stay that are in the mask. *)
Definition masked (P : Z → bool) (w mask i : Z) : bool :=
  P i && (if i / 64 =? w then Z.testbit mask (i mod 64) else true).

Lemma and_holds s P b i64 mask :
  holds s P → 0 ≤ b < blocks s → is_word mask →
  ∃ s', and_ b i64 mask s = Ret s' ∧ length_ s' = length_ s ∧
    holds s' (masked P (64 * b + i64 mod 64) mask).
Proof.
  intros (W & HM & HP) Hb Hmask. destruct (and_spec s W b i64 mask HM Hb Hmask) as (s' & E & El & HM').
  exists s'. split_and!; [done..|]. eexists. split; [exact HM'|]. intros i Hi. rewrite wbit_put, El.
  pose proof (HP i Hi) as Hp. unfold masked, wbit in *. destruct (Z.eqb_spec (i / 64) (64 * b + i64 mod 64)) as [Ew|Ew].
  - rewrite Z.land_spec, <- Ew, Hp. by destruct (i <? length_ s).
  - rewrite Hp, andb_true_r. done.
Qed.

Lemma sparse_Clear_spec s P i :
  holds s P →
  if in_range i (length_ s)
  then ∃ s', Clear i s = Ret s' ∧ length_ s' = length_ s ∧ holds s' (fun j => if j =? i then false else P j)
  else Clear i s = Panic.
Proof.
  intros HP. unfold Clear. rewrite check_index_range. destruct (in_range i (length_ s)) eqn:Hi; [|done].
  apply in_range_spec in Hi. destruct (locate s i Hi) as (Hb & Hk & Hw & _). cbn [mbind go_bind].
  rewrite shiftr12, shiftr6.
  destruct (and_holds s P (i / 4096) (i / 64) (not64 (long_bit i)) HP Hb) as (s' & -> & El & HP').
  { apply not64_word, long_bit_word. }
  exists s'. split_and!; [done..|]. eapply holds_ext; [|exact HP']. intros j Hj. unfold masked. rewrite Hw.
  destruct (Z.eqb_spec (j / 64) (i / 64)) as [E|E].
  - rewrite testbit_not64, long_bit_bit by idx.
    destruct (Z.eqb_spec (j mod 64) (i mod 64)), (Z.eqb_spec j i); [apply andb_false_r|idx|idx|apply andb_true_r].
  - destruct (Z.eqb_spec j i); [congruence|apply andb_true_r].
Qed.

(** ** Clearing a range *)

Definition cleared (P : Z → bool) (lo hi i : Z) : bool := if (lo <=? i) && (i <? hi) then false else P i.

Lemma cleared_twice s P lo mid hi : lo ≤ mid ≤ hi →
  holds s (cleared (cleared P mid hi) lo mid) → holds s (cleared P lo hi).
Proof.
  intros H. apply holds_ext. intros i Hi. unfold cleared.
  destruct (Z.leb_spec lo i), (Z.ltb_spec i mid), (Z.leb_spec mid i), (Z.ltb_spec i hi); cbn; try done; lia.
Qed.

Lemma low_bits n k : 0 ≤ n ≤ 64 → 0 ≤ k < 64 → Z.testbit (to_uint64 (shl64 1 n - 1)) k = (k <? n).
Proof.
  intros Hn Hk. destruct (Z.eq_dec n 64) as [->|].
  - change (to_uint64 (shl64 1 64 - 1)) with ones64. apply testbit_ones64; lia.
  - rewrite uwrap_testbit, (proj2 (Z.ltb_lt k 64)) by lia. by rewrite testbit_low by lia.
Qed.

Lemma maskForRange_bit a c k : 0 ≤ a ≤ c → c < 64 → 0 ≤ k < 64 →
  Z.testbit (maskForRange a c) k = (a <=? k) && (k <=? c).
Proof.
  intros Ha Hc Hk. unfold maskForRange. rewrite testbit_shl64 by done.
  destruct (Z.leb_spec a k); [|by rewrite Z.testbit_neg_r by lia].
  rewrite low_bits by lia. destruct (Z.ltb_spec (k - a) (c - a + 1)), (Z.leb_spec k c); (done || lia).
Qed.

(** A part of one word is cleared. *)
Lemma and_range s P b l mask a c :
  holds s P → 0 ≤ b < blocks s → 0 ≤ l < 64 → 0 ≤ a ≤ c → c < 64 → is_word mask →
  (∀ k, 0 ≤ k < 64 → Z.testbit mask k = negb ((a <=? k) && (k <=? c))) →
  ∃ s', and_ b l mask s = Ret s' ∧ length_ s' = length_ s ∧
    holds s' (cleared P (64 * (64 * b + l) + a) (64 * (64 * b + l) + c + 1)).
Proof.
  intros HP Hb Hl Ha Hc Hm Hmask. destruct (and_holds s P b l mask HP Hb Hm) as (s' & E & El & HP').
  exists s'. split_and!; [done..|]. eapply holds_ext; [|exact HP']. intros i Hi. unfold masked, cleared.
  rewrite (Z.mod_small l 64) by lia. destruct (Z.eqb_spec (i / 64) (64 * b + l)) as [Ew|Ew].
  - rewrite Hmask by idx.
    destruct (Z.leb_spec a (i mod 64)), (Z.leb_spec (i mod 64) c), (Z.leb_spec (64 * (64 * b + l) + a) i),
      (Z.ltb_spec i (64 * (64 * b + l) + c + 1)); cbn; rewrite ?andb_true_r, ?andb_false_r; try done; idx.
  - rewrite andb_true_r. destruct (Z.leb_spec (64 * (64 * b + l) + a) i), (Z.ltb_spec i (64 * (64 * b + l) + c + 1));
      cbn; try done; idx.
Qed.

Lemma not_range a c : 0 ≤ a ≤ c → c < 64 → 
  is_word (not64 (maskForRange a c)) ∧
  ∀ k, 0 ≤ k < 64 → Z.testbit (not64 (maskForRange a c)) k = negb ((a <=? k) && (k <=? c)).
Proof.
  intros Ha Hc. split; [apply not64_word, shl64_word|]. intros k Hk.
  by rewrite testbit_not64, maskForRange_bit.
Qed.

Lemma clearWithinBlock_spec s P b from to_ :
  holds s P → 0 ≤ b < blocks s → 0 ≤ from ≤ to_ → to_ < 4096 →
  ∃ s', clearWithinBlock b from to_ s = Ret s' ∧ length_ s' = length_ s ∧
    holds s' (cleared P (4096 * b + from) (4096 * b + to_ + 1)).
Proof.
  intros HP Hb Hf Ht. unfold clearWithinBlock. rewrite !shiftr6, (land63 from), (land63 to_).
  assert (En : ∀ s', length_ s' = length_ s → blocks s' = blocks s) by (intros s' E; unfold blocks; by rewrite E).
  destruct (Z.eqb_spec (from / 64) (to_ / 64)) as [E|E].
  - destruct (not_range (from mod 64) (to_ mod 64)) as [Hw Hm]; [idx..|].
    destruct (and_range s P b (from / 64) (not64 (maskForRange (from mod 64) (to_ mod 64))) (from mod 64) (to_ mod 64) HP Hb)
      as (s' & -> & El & HP'); [idx|idx|idx|done|done|].
    exists s'. split_and!; [done..|].
    replace (64 * (64 * b + from / 64) + from mod 64) with (4096 * b + from) in HP' by idx.
    by replace (64 * (64 * b + from / 64) + to_ mod 64 + 1) with (4096 * b + to_ + 1) in HP' by idx.
  - assert (Hlt : from / 64 < to_ / 64) by idx.
    destruct (not_range 0 (to_ mod 64)) as [Hw Hm]; [idx..|].
    destruct (and_range s P b (to_ / 64) (not64 (maskForRange 0 (to_ mod 64))) 0 (to_ mod 64) HP Hb)
      as (s1 & -> & El1 & HP1); [idx|idx|idx|done|done|].
    rewrite go_bind_ret, Z.add_0_r in *.
    destruct (go_for_inv (fun k s' => length_ s' = length_ s ∧
        holds s' (cleared P (64 * (64 * b + to_ / 64 - k)) (4096 * b + to_ + 1)))
      (Z.to_nat (to_ / 64 - 1 - from / 64)) 0 (fun k s => and_ b (to_ / 64 - 1 - k) 0 s) s1) as (s2 & -> & El2 & HP2).
    + split; [done|]. rewrite Z.sub_0_r.
      by replace (4096 * b + to_ + 1) with (64 * (64 * b + to_ / 64) + to_ mod 64 + 1) by idx.
    + intros k s' Hk [El' HP'].
      destruct (and_range s' _ b (to_ / 64 - 1 - k) 0 0 63 HP') as (s'' & -> & El'' & HP'');
        [by rewrite En|idx|lia|lia|done| |].
      { intros j Hj. rewrite Z.testbit_0_l. destruct (Z.leb_spec 0 j), (Z.leb_spec j 63); (done || lia). }
      exists s''. split_and!; [done|congruence|].
      replace (64 * (64 * b + to_ / 64 - (k + 1))) with (64 * (64 * b + (to_ / 64 - 1 - k)) + 0) by lia.
      apply (cleared_twice _ _ _ (64 * (64 * b + to_ / 64 - k))); [idx|].
      by replace (64 * (64 * b + to_ / 64 - k)) with (64 * (64 * b + (to_ / 64 - 1 - k)) + 63 + 1) at 2 by lia.
    + rewrite go_bind_ret. destruct (not_range (from mod 64) 63) as [Hw' Hm']; [idx..|].
      destruct (and_range s2 _ b (from / 64) (not64 (maskForRange (from mod 64) 63)) (from mod 64) 63 HP2)
        as (s' & -> & El & HP'); [by rewrite En|idx|idx|idx|done|done|].
      exists s'. split_and!; [done|congruence|].
      apply (cleared_twice _ _ _ (64 * (64 * b + from / 64 + 1))); [idx|].
      replace (64 * (64 * b + to_ / 64 - (0 + Z.of_nat (Z.to_nat (to_ / 64 - 1 - from / 64)))))
        with (64 * (64 * b + from / 64 + 1)) in HP' by idx.
      replace (64 * (64 * b + from / 64) + from mod 64) with (4096 * b + from) in HP' by idx.
      by replace (64 * (64 * b + from / 64) + 63 + 1) with (64 * (64 * b + from / 64 + 1)) in HP' by lia.
Qed.

Lemma clear_block_spec s P b :
  holds s P → 0 ≤ b < blocks s →
  ∃ s', clear_block b s = Ret s' ∧ length_ s' = length_ s ∧ holds s' (cleared P (4096 * b) (4096 * (b + 1))).
Proof.
  intros (W & HM & HP) Hb. pose proof (m_rep _ _ HM b Hb) as R. pose proof (m_indices _ _ HM) as Hi.
  pose proof (m_bits _ _ HM) as Hbs. unfold clear_block. destruct (block_get s W b HM Hb) as [-> _].
  rewrite go_bind_ret, store_index_Ret, go_bind_ret, store_bits_Ret by (cbn; lia).
  eexists. split; [done|]. split; [done|]. set (W' := fun j => if j / 64 =? b then 0 else W j).
  assert (Hbit : ∀ i, wbit W' i = if i / 4096 =? b then false else wbit W i).
  { intros i. unfold wbit, W'. replace (i / 64 / 64) with (i / 4096) by idx.
    destruct (i / 4096 =? b); [apply Z.testbit_0_l|done]. }
  assert (H0 : ∀ j, 0 ≤ j < 64 → block W' b j = 0).
  { intros j Hj. unfold block, W'. rewrite (proj2 (Z.eqb_eq _ b)) by idx. done. }
  exists W'. split.
  - eapply (models_block s _ W W' b 0 []); eauto; cbn.
    + apply rep_ext with (fun _ => 0); [intros; by rewrite H0|apply rep_nil].
    + intros j Hj. unfold W'. by rewrite (proj2 (Z.eqb_neq _ _)).
    + intros j. unfold W'. destruct (j / 64 =? b); [done|apply HM].
    + intros i Hlen. rewrite Hbit. destruct (i / 4096 =? b); [done|by apply (m_ghost _ _ HM)].
    + rewrite (rep_count _ _ _ R), length_nz.
      rewrite (count_none (fun j => nonzero (block W' b j))) by (intros j Hj; by rewrite H0). lia.
  - intros i Hi'. rewrite Hbit, HP by done. cbn [length_ set_bits set_indices add_count]. unfold cleared.
    destruct (Z.eqb_spec (i / 4096) b), (Z.leb_spec (4096 * b) i), (Z.ltb_spec i (4096 * (b + 1))); cbn;
      (idx || by destruct (i <? length_ s)).
Qed.

(** The arguments are in order after they are cut to the set, or there is nothing to do. *)
Definition clear_range_ok (from to_ n : Z) : bool := (to_ <=? from) || (Z.max 0 from <? Z.min to_ n).

Lemma land4095 i : Z.land i mask4096 = i mod 4096.
Proof. apply (Z.land_ones i 12). lia. Qed.

Lemma ClearRange_spec s P from to_ :
  holds s P → clear_range_ok from to_ (length_ s) = true →
  ∃ s', ClearRange from to_ s = Ret s' ∧ length_ s' = length_ s ∧ holds s' (cleared P from to_).
Proof.
  intros HP Hok. unfold ClearRange, clear_range_ok in *.
  destruct (Z.leb_spec to_ from) as [Hle|Hlt].
  { exists s. split_and!; [done..|]. eapply holds_ext; [|exact HP]. intros i Hi. unfold cleared.
    destruct (Z.leb_spec from i), (Z.ltb_spec i to_); cbn; (done || lia). }
  cbn [orb] in Hok. apply Z.ltb_lt in Hok.
  replace (if from <? 0 then 0 else from) with (Z.max 0 from) by (destruct (Z.ltb_spec from 0); lia).
  replace (if length_ s <? to_ then length_ s else to_) with (Z.min to_ (length_ s))
    by (destruct (Z.ltb_spec (length_ s) to_); lia).
  set (f := Z.max 0 from) in *. set (t := Z.min to_ (length_ s)) in *.
  assert (Hbounds : 0 ≤ f < t ∧ t ≤ length_ s) by lia.
  assert (Heff : ∀ s', length_ s' = length_ s → holds s' (cleared P f t) → holds s' (cleared P from to_)).
  { intros s' El. apply holds_ext. rewrite El. intros i Hi. unfold cleared, f, t.
    destruct (Z.leb_spec (Z.max 0 from) i), (Z.ltb_spec i (Z.min to_ (length_ s))), (Z.leb_spec from i), (Z.ltb_spec i to_);
      cbn; (done || lia). }
  assert (En : ∀ s', length_ s' = length_ s → blocks s' = blocks s) by (intros s' E; unfold blocks; by rewrite E).
  assert (Hn : (t - 1) / 4096 < blocks s) by (unfold blocks; idx).
  rewrite !shiftr12, (land4095 f), (land4095 (t - 1)).
  destruct (Z.eqb_spec (f / 4096) ((t - 1) / 4096)) as [E|E].
  - destruct (clearWithinBlock_spec s P (f / 4096) (f mod 4096) ((t - 1) mod 4096) HP) as (s' & -> & El & HP'); [idx..|].
    exists s'. split_and!; [done..|]. apply Heff; [done|].
    replace (4096 * (f / 4096) + f mod 4096) with f in HP' by idx.
    by replace (4096 * (f / 4096) + (t - 1) mod 4096 + 1) with t in HP' by idx.
  - assert (Hlt2 : f / 4096 < (t - 1) / 4096) by idx.
    destruct (clearWithinBlock_spec s P (f / 4096) (f mod 4096) mask4096 HP) as (s1 & -> & El1 & HP1); [unfold mask4096; idx..|].
    replace (4096 * (f / 4096) + f mod 4096) with f in HP1 by idx.
    replace (4096 * (f / 4096) + mask4096 + 1) with (4096 * (f / 4096 + 1)) in HP1 by (unfold mask4096; lia).
    rewrite go_bind_ret.
    assert (Hext : ∀ s' mid hi, length_ s' = length_ s → f ≤ mid ≤ hi →
      holds s' (cleared (cleared P f mid) mid hi) → holds s' (cleared P f hi)).
    { intros s' mid hi El Hmid. apply holds_ext. intros i Hi. unfold cleared.
      destruct (Z.leb_spec f i), (Z.ltb_spec i mid), (Z.leb_spec mid i), (Z.ltb_spec i hi); cbn; (done || lia). }
    destruct (go_for_inv (fun k s' => length_ s' = length_ s ∧ holds s' (cleared P f (4096 * k)))
      (Z.to_nat ((t - 1) / 4096 - (f / 4096 + 1))) (f / 4096 + 1) clear_block s1) as (s2 & -> & El2 & HP2).
    + done.
    + intros k s' Hk [El' HP']. destruct (clear_block_spec s' _ k HP') as (s'' & -> & El'' & HP''); [rewrite En by done; idx|].
      exists s''. split_and!; [done|congruence|]. apply (Hext _ (4096 * k)); [congruence|idx|done].
    + replace (f / 4096 + 1 + Z.of_nat (Z.to_nat ((t - 1) / 4096 - (f / 4096 + 1)))) with ((t - 1) / 4096) in HP2 by lia.
      rewrite go_bind_ret.
      destruct (clearWithinBlock_spec s2 _ ((t - 1) / 4096) 0 ((t - 1) mod 4096) HP2) as (s' & -> & El & HP'); [rewrite ?En by done; idx..|].
      exists s'. split_and!; [done|congruence|]. apply Heff; [congruence|].
      replace (4096 * ((t - 1) / 4096) + (t - 1) mod 4096 + 1) with t in HP' by idx. rewrite Z.add_0_r in HP'.
      apply (Hext _ (4096 * ((t - 1) / 4096))); [congruence|idx|done].
Qed.

(** ** The empty set, and counting *)

Lemma models_empty n count ram : 1 ≤ n → count = 0 → 
  let bc := Z.to_nat ((n + 4095) / 4096) in
  models {| indices := repeat 0 bc; bits := repeat [] bc; length_ := n; nonZeroLongCount := count; ramBytesUsed := ram |}
    (fun _ => 0).
Proof.
  intros Hn -> bc. assert (Hz : ∀ {A} (x : A) b, nthZ x (repeat x bc) b = x).
  { intros A x b. unfold nthZ. destruct (repeat x bc !! Z.to_nat b) eqn:E; [|done].
    by apply list_elem_of_lookup_2, list_elem_of_In, repeat_spec in E. }
  split; unfold blocks; cbn [length_ indices bits nonZeroLongCount].
  - done.
  - rewrite repeat_length. unfold bc. idx.
  - rewrite repeat_length. unfold bc. idx.
  - done.
  - intros b Hb. rewrite !Hz. apply rep_nil.
  - by rewrite count_none.
  - intros i Hi. unfold wbit. apply Z.testbit_0_l.
Qed.

Lemma blockCount_eq n : blockCount n = (n + 4095) / 4096.
Proof.
  unfold blockCount. rewrite shiftr12, Z.shiftl_mul_pow2 by lia. change (2 ^ 12) with 4096.
  destruct (Z.ltb_spec (n / 4096 * 4096) n); idx.
Qed.

Lemma New_holds n : 1 ≤ n →
  ∃ s, NewSparseFixedBitSet n = Ret s ∧ length_ s = n ∧ holds s (fun _ => false).
Proof.
  intros Hn. unfold NewSparseFixedBitSet. rewrite (proj2 (Z.ltb_ge _ _)), blockCount_eq by lia.
  eexists. split; [done|]. split; [done|]. eexists. split; [by apply models_empty|].
  intros i Hi. unfold wbit. rewrite Z.testbit_0_l. cbn [length_]. by destruct (i <? n).
Qed.

Lemma map_const {A B} (x : B) (l : list A) : map (fun _ => x) l = repeat x (length l).
Proof. induction l as [|a l IH]; [done|]. cbn. by rewrite IH. Qed.

Lemma ClearAll_holds s P : holds s P → holds (ClearAll s) (fun _ => false).
Proof.
  intros (W & HM & _). pose proof (m_length _ _ HM) as Hn. unfold ClearAll. rewrite !map_const.
  pose proof (m_indices _ _ HM) as Hi. pose proof (m_bits _ _ HM) as Hb.
  replace (length (indices s)) with (Z.to_nat ((length_ s + 4095) / 4096)) by (unfold blocks in Hi; lia).
  replace (length (bits s)) with (Z.to_nat ((length_ s + 4095) / 4096)) by (unfold blocks in Hb; lia).
  eexists. split; [by apply models_empty|].
  intros i Hi'. unfold wbit. rewrite Z.testbit_0_l. cbn [length_]. by destruct (i <? length_ s).
Qed.

Definition ones_of (l : list Z) : Z := foldl (fun c b => c + OnesCount64 b) 0 l.

Lemma foldl_ones l : ∀ c, foldl (fun c b => c + OnesCount64 b) c l = c + ones_of l.
Proof.
  unfold ones_of. induction l as [|w l IH]; intros c; cbn [foldl]; [lia|].
  rewrite IH, (IH (0 + _)). lia.
Qed.

Lemma ones_of_app l1 l2 : ones_of (l1 ++ l2) = ones_of l1 + ones_of l2.
Proof. unfold ones_of at 1. rewrite foldl_app. apply foldl_ones. Qed.

Lemma ones_of_zeros n : ones_of (repeat 0 n) = 0.
Proof. induction n as [|n IH]; [done|]. change (repeat 0 (S n)) with ([0] ++ repeat 0 n). by rewrite ones_of_app, IH. Qed.

Lemma OnesCount_word W j : OnesCount64 (W j) = count (wbit W) (64 * j) (64 * j + 64).
Proof.
  unfold OnesCount64. replace (64 * j) with (64 * j + 0) at 1 by lia. rewrite <- count_shift.
  apply count_ext. intros i Hi. by rewrite wbit_word.
Qed.

Lemma ones_of_nz W a n : 0 ≤ n → ones_of (nz W a (a + n)) = count (wbit W) (64 * a) (64 * (a + n)).
Proof.
  intros Hn. revert n Hn. apply natlike_ind.
  - rewrite nz_nil by (intros; lia). by rewrite count_nil by lia.
  - intros n Hn IH. rewrite (nz_split W a (a + n)), ones_of_app, IH by lia.
    rewrite (count_split _ (64 * a) (64 * (a + n)) (64 * (a + Z.succ n))) by lia. f_equal.
    replace (a + Z.succ n) with (a + n + 1) by lia. rewrite nz_one.
    replace (64 * (a + n + 1)) with (64 * (a + n) + 64) by lia. rewrite <- OnesCount_word.
    unfold one, nonzero, ones_of. destruct (Z.eqb_spec (W (a + n)) 0) as [->|]; [done|cbn [negb foldl]; lia].
Qed.

Lemma Cardinality_blocks W l : ∀ b c, 0 ≤ b →
  (∀ i, 0 ≤ i < Z.of_nat (length l) → ∃ index, rep index (nthZ [] l i) (block W (b + i))) →
  foldl (fun cardinality bitArray => foldl (fun c b => c + OnesCount64 b) cardinality bitArray) c l =
  c + count (wbit W) (4096 * b) (4096 * (b + Z.of_nat (length l))).
Proof.
  induction l as [|arr l IH]; intros b c Hb H; cbn [foldl length].
  - rewrite count_nil by lia. lia.
  - rewrite foldl_ones. rewrite (IH (b + 1)); [|lia|].
    2: { intros i Hi. destruct (H (i + 1)) as [index R]; [cbn; lia|]. exists index.
         replace (b + 1 + i) with (b + (i + 1)) by lia. unfold nthZ in *.
         replace (Z.to_nat (i + 1)) with (S (Z.to_nat i)) in R by lia. done. }
    rewrite (count_split _ (4096 * b) (4096 * (b + 1))) by lia.
    destruct (H 0) as [index [_ _ [n E]]]; [cbn; lia|]. change (nthZ [] (arr :: l) 0) with arr in E.
    rewrite E, ones_of_app, ones_of_zeros. rewrite (ones_of_nz _ 0 64) by lia.
    assert (Hs : count (wbit (block W (b + 0))) (64 * 0) (64 * (0 + 64)) = count (wbit W) (4096 * b) (4096 * (b + 1))).
    { replace (4096 * (b + 1)) with (4096 * b + 64 * (0 + 64)) by lia. replace (4096 * b) with (4096 * b + 64 * 0) at 1 by lia.
      rewrite <- count_shift. apply count_ext. intros i Hi. unfold wbit, block. f_equal; [f_equal|]; idx. }
    rewrite Hs. replace (4096 * (b + 1 + Z.of_nat (length l))) with (4096 * (b + Z.of_nat (S (length l)))) by lia. lia.
Qed.

Lemma Cardinality_holds s P : holds s P → Cardinality s = count P 0 (length_ s).
Proof.
  intros (W & HM & HP). pose proof (m_bits _ _ HM) as Hb. pose proof (m_length _ _ HM) as Hl. unfold Cardinality.
  rewrite (Cardinality_blocks W _ 0) by (lia || (intros i Hi; eexists; apply (m_rep _ _ HM); lia)).
  rewrite Z.add_0_l, Z.mul_0_r, Z.add_0_l, Hb, (count_split _ 0 (length_ s)) by (unfold blocks; idx).
  rewrite (count_none _ (length_ s)); [|intros i Hi; apply (m_ghost _ _ HM); lia].
  rewrite Z.add_0_r. apply count_ext. intros i Hi. rewrite HP by lia. by rewrite (proj2 (Z.ltb_lt _ _)) by lia.
Qed.

Lemma count_zero_inv P a b : count P a b = 0 → ∀ i, a ≤ i < b → P i = false.
Proof.
  intros H i Hi. rewrite (count_split P a i b), (count_cons P i b) in H by lia. unfold count in H.
  destruct (P i); [cbn in H; lia|done].
Qed.

Lemma IsEmpty_holds s P : holds s P → IsEmpty s = (count P 0 (length_ s) =? 0).
Proof.
  intros HP. rewrite <- (Cardinality_holds s P HP). destruct HP as (W & HM & HP).
  rewrite (Cardinality_holds s (wbit W)) by (by apply models_holds).
  unfold IsEmpty. rewrite (m_count _ _ HM). pose proof (m_length _ _ HM) as Hl.
  destruct (Z.eqb_spec (count (fun j => nonzero (W j)) 0 (64 * blocks s)) 0) as [E|E]; symmetry.
  - apply Z.eqb_eq, count_none. intros i Hi. unfold wbit.
    pose proof (count_zero_inv _ _ _ E (i / 64)) as H0. unfold nonzero in H0.
    apply negb_false_iff, Z.eqb_eq in H0 as ->; [apply Z.testbit_0_l|unfold blocks; idx].
  - apply Z.eqb_neq. intros E2. apply E, count_none. intros j Hj. unfold nonzero. apply negb_false_iff, Z.eqb_eq.
    apply word_zero; [apply HM|]. intros k Hk. rewrite <- wbit_word by done.
    destruct (Z.lt_ge_cases (64 * j + k) (length_ s)); [|by apply (m_ghost _ _ HM)].
    apply (count_zero_inv _ _ _ E2). lia.
Qed.

(** * Searching *)

Lemma lor_shiftl a n c : 0 ≤ n → 0 ≤ c < 2 ^ n → Z.lor (Z.shiftl a n) c = a * 2 ^ n + c.
Proof.
  intros Hn Hc. assert (Hl : Z.land (Z.shiftl a n) c = 0).
  { apply Z.bits_inj'. intros k Hk. rewrite Z.land_spec, Z.shiftl_spec, Z.testbit_0_l by done.
    destruct (Z.lt_ge_cases k n); [by rewrite Z.testbit_neg_r by lia|].
    by rewrite (in_uint_testbit_high n c) by done; apply andb_false_r. }
  rewrite <- Z.lxor_lor, <- Z.add_nocarry_lxor by done. by rewrite Z.shiftl_mul_pow2.
Qed.

Lemma lor_position b k t : 0 ≤ k < 64 → 0 ≤ t < 64 →
  Z.lor (Z.lor (Z.shiftl b 12) (Z.shiftl k 6)) t = 64 * (64 * b + k) + t.
Proof.
  intros Hk Ht. replace (Z.lor (Z.shiftl b 12) (Z.shiftl k 6)) with (Z.shiftl (64 * b + k) 6).
  - rewrite lor_shiftl by lia. lia.
  - rewrite lor_shiftl by (rewrite ?Z.shiftl_mul_pow2 by lia; lia). rewrite !Z.shiftl_mul_pow2 by lia. lia.
Qed.

(** Where a word is in the array of its block. *)
Lemma rep_word_at index arr W k : rep index arr W → 0 ≤ k < 64 → W k ≠ 0 →
  @aget goerr Z arr (Z.of_nat (length (nz W 0 k))) = Ret (W k) ∧
  OnesCount64 index = Z.of_nat (length (nz W 0 k)) + 1 + Z.of_nat (length (nz W (k + 1) 64)) ∧
  Z.of_nat (length (nz W 0 k)) < Z.of_nat (length arr).
Proof.
  intros R Hk H0. rewrite (rep_count _ _ _ R). destruct R as [_ _ [n ->]].
  rewrite (nz_split W 0 k 64), (nz_split W k (k + 1) 64), nz_one, one_nonzero by (done || lia).
  rewrite <- !app_assoc. split_and!; [by apply aget_mid|rewrite !length_app; cbn [length]; lia..].
Qed.

(** The bits of words that are 0. *)
Lemma zero_words W lo hi : (∀ j, lo ≤ j < hi → W j = 0) → ∀ i, 64 * lo ≤ i < 64 * hi → wbit W i = false.
Proof. intros H i Hi. unfold wbit. rewrite H by idx. apply Z.testbit_0_l. Qed.

Lemma index_zero index arr W k : rep index arr W → 0 ≤ k < 64 → Z.testbit index k = false → W k = 0.
Proof.
  intros R Hk H. rewrite (rep_bit _ _ _ R) in H by done. unfold nonzero in H.
  by apply negb_false_iff, Z.eqb_eq in H.
Qed.

Lemma index_nonzero index arr W k : rep index arr W → 0 ≤ k < 64 → Z.testbit index k = true → W k ≠ 0.
Proof. intros R Hk H. rewrite (rep_bit _ _ _ R) in H by done. by apply nonzero_spec. Qed.

Lemma first_in_word W lo hi j :
  is_word (W j) → W j ≠ 0 → (∀ i, lo ≤ i < 64 * j → wbit W i = false) → lo ≤ 64 * j → 64 * j + 64 ≤ hi →
  first_from (wbit W) lo hi (64 * j + TrailingZeros64 (W j)).
Proof.
  intros Hw H0 Hbefore Hlo Hhi. destruct (TrailingZeros64_spec _ Hw H0) as (Ht & Hb & Hlow). left.
  split_and!; [lia|lia|by rewrite wbit_word|].
  intros i Hi. destruct (Z.lt_ge_cases i (64 * j)); [apply Hbefore; lia|].
  replace i with (64 * j + (i - 64 * j)) by lia. rewrite wbit_word by lia. apply Hlow. lia.
Qed.

Lemma last_in_word W hi j :
  is_word (W j) → W j ≠ 0 → (∀ i, 64 * j + 64 ≤ i ≤ hi → wbit W i = false) → 0 ≤ j → 64 * j + 63 ≤ hi →
  last_upto (wbit W) hi (64 * j + (63 - LeadingZeros64 (W j))).
Proof.
  intros Hw H0 Hafter Hj Hhi. destruct (top_bit _ Hw H0) as (Ht & Hb & Hhigh). left.
  split_and!; [lia|lia|by rewrite wbit_word|].
  intros i Hi. destruct (Z.lt_ge_cases i (64 * j + 64)); [|apply Hafter; lia].
  replace i with (64 * j + (i - 64 * j)) by lia. rewrite wbit_word by lia. apply Hhigh. lia.
Qed.

Lemma first_from_skip P lo mid hi r :
  lo ≤ mid → (∀ i, lo ≤ i < mid → P i = false) → first_from P mid hi r → first_from P lo hi r.
Proof.
  intros Hlo H [(Hr & Hb & Hlow)|(-> & Hnone)]; [left|right].
  - split_and!; [lia|lia|done|]. intros i Hi. destruct (Z.lt_ge_cases i mid); [apply H; lia|apply Hlow; lia].
  - split; [done|]. intros i Hi. destruct (Z.lt_ge_cases i mid); [apply H; lia|apply Hnone; lia].
Qed.

Lemma last_upto_skip P mid hi r :
  mid ≤ hi → (∀ i, mid < i ≤ hi → P i = false) → last_upto P mid r → last_upto P hi r.
Proof.
  intros Hlo H [(Hr & Hb & Hlow)|(-> & Hnone)]; [left|right].
  - split_and!; [lia|lia|done|]. intros i Hi. destruct (Z.le_gt_cases i mid); [apply Hlow; lia|apply H; lia].
  - split; [done|]. intros i Hi. destruct (Z.le_gt_cases i mid); [apply Hnone; lia|apply H; lia].
Qed.

Lemma block_zero index arr W : rep index arr W → index = 0 → ∀ k, 0 ≤ k < 64 → W k = 0.
Proof. intros R -> k Hk. apply (index_zero _ _ _ _ R Hk), Z.testbit_0_l. Qed.

Lemma zero_block W b : (∀ k, 0 ≤ k < 64 → block W b k = 0) → ∀ i, 4096 * b ≤ i < 4096 * (b + 1) → wbit W i = false.
Proof.
  intros H i Hi. apply (zero_words W (64 * b) (64 * (b + 1))); [|lia]. intros j Hj.
  replace j with (64 * b + (j - 64 * b)) by lia. apply H. lia.
Qed.


Lemma firstDoc_spec s W upper : models s W → upper ≤ blocks s → ∀ fuel b,
  blocks s - b < Z.of_nat fuel → 0 ≤ b ≤ blocks s →
  ∃ r, firstDoc fuel b upper s = Ret r ∧ first_from (wbit W) (4096 * b) (4096 * upper) r.
Proof.
  intros HM Hup. pose proof (m_indices _ _ HM) as Hi.
  induction fuel as [|fuel IH]; intros b Hfuel Hb; [lia|]. cbn [firstDoc].
  destruct (Z.ltb_spec b upper) as [Hlt|Hge]; cbn [andb].
  2: { exists (-1). split; [done|]. right. split; [done|]. lia. }
  rewrite Hi, (proj2 (Z.ltb_lt _ _)) by lia.
  destruct (block_get s W b HM) as [-> ->]; [lia|]. rewrite go_bind_ret.
  pose proof (m_rep _ _ HM b ltac:(lia)) as R. set (index := nthZ 0 (indices s) b) in *.
  destruct (Z.eqb_spec index 0) as [E|E]; cbn [negb].
  - destruct (IH (b + 1)) as (r & -> & Hr); [lia..|]. exists r. split; [done|].
    apply (first_from_skip _ _ (4096 * (b + 1))); [lia| |done]. apply zero_block. by apply (block_zero _ _ _ R).
  - rewrite go_bind_ret. destruct (TrailingZeros64_spec index (rep_word _ _ _ R) E) as (Hk & Hb1 & Hlow).
    set (k := TrailingZeros64 index) in *. pose proof (index_nonzero _ _ _ _ R Hk Hb1) as H0.
    destruct (rep_word_at _ _ _ _ R Hk H0) as (Ea & _ & Hlen).
    rewrite nz_nil in Ea, Hlen by (intros j Hj; apply (index_zero _ _ _ _ R); [lia|apply Hlow; lia]).
    cbn [length] in Ea, Hlen. change (Z.of_nat 0) with 0 in *. rewrite (proj2 (Z.ltb_lt _ _)) by done.
    rewrite Ea, go_bind_ret. eexists. split; [done|]. change (block W b k) with (W (64 * b + k)) in *.
    pose proof (TrailingZeros64_spec _ (m_words _ _ HM (64 * b + k)) H0) as (Ht & _).
    rewrite lor_position by done. apply first_in_word; [apply HM|done| |lia|lia].
    intros i Hi'. apply (zero_words W (64 * b) (64 * b + k)); [|lia]. intros j Hj.
    replace j with (64 * b + (j - 64 * b)) by lia. apply (index_zero _ _ _ _ R); [lia|apply Hlow; lia].
Qed.

Lemma lastDoc_spec s W : models s W → ∀ fuel b,
  b + 1 < Z.of_nat fuel → -1 ≤ b < blocks s →
  ∃ r, lastDoc fuel b s = Ret r ∧ last_upto (wbit W) (4096 * b + 4095) r.
Proof.
  intros HM. induction fuel as [|fuel IH]; intros b Hfuel Hb; [lia|]. cbn [lastDoc]. destruct (Z.leb_spec 0 b) as [Hge|Hlt].
  2: { exists (-1). split; [done|]. right. split; [done|]. lia. }
  destruct (block_get s W b HM) as [-> ->]; [lia|]. rewrite go_bind_ret.
  pose proof (m_rep _ _ HM b ltac:(lia)) as R. set (index := nthZ 0 (indices s) b) in *.
  destruct (Z.eqb_spec index 0) as [E|E]; cbn [negb].
  - destruct (IH (b - 1)) as (r & -> & Hr); [lia..|]. exists r. split; [done|].
    apply (last_upto_skip _ (4096 * (b - 1) + 4095)); [lia| |done]. intros i Hi'.
    apply (zero_block _ b); [|lia]. by apply (block_zero _ _ _ R).
  - rewrite go_bind_ret. destruct (top_bit index (rep_word _ _ _ R) E) as (Hk & Hb1 & Hhigh).
    set (k := 63 - LeadingZeros64 index) in *. pose proof (index_nonzero _ _ _ _ R Hk Hb1) as H0.
    destruct (rep_word_at _ _ _ _ R Hk H0) as (Ea & Ec & Hlen).
    rewrite (nz_nil _ (k + 1)) in Ec by (intros j Hj; apply (index_zero _ _ _ _ R); [lia|apply Hhigh; lia]).
    cbn [length] in Ec. replace (OnesCount64 index - 1) with (Z.of_nat (length (nz (block W b) 0 k))) by lia.
    rewrite (proj2 (Z.ltb_lt 0 _)), (proj2 (Z.leb_le _ _)), (proj2 (Z.ltb_lt _ _)) by lia. cbn [andb].
    rewrite Ea, go_bind_ret. eexists. split; [done|]. change (block W b k) with (W (64 * b + k)) in *.
    pose proof (top_bit _ (m_words _ _ HM (64 * b + k)) H0) as (Ht & _).
    rewrite lor_position by done. apply last_in_word; [apply HM|done| |lia|lia].
    intros i Hi'. apply (zero_words W (64 * b + k + 1) (64 * b + 64)); [|lia]. intros j Hj.
    replace j with (64 * b + (j - 64 * b)) by lia. apply (index_zero _ _ _ _ R); [lia|apply Hhigh; lia].
Qed.

(** The words of a block after the word [k], as the code sees them: the index word
    shifted by [k + 1]. *)
Lemma later_words index arr W k : rep index arr W → 0 ≤ k < 64 →
  let later := Z.shiftr (Z.shiftr index k) 1 in
  is_word later ∧
  (later = 0 → ∀ j, k < j < 64 → W j = 0) ∧
  (later ≠ 0 → let k' := k + (1 + TrailingZeros64 later) in
     k < k' < 64 ∧ W k' ≠ 0 ∧ ∀ j, k < j < k' → W j = 0).
Proof.
  intros R Hk later. assert (El : later = Z.shiftr index (k + 1)) by (apply Z.shiftr_shiftr; lia).
  assert (Hbit : ∀ t, 0 ≤ t → Z.testbit later t = Z.testbit index (k + 1 + t)).
  { intros t Ht. rewrite El, Z.shiftr_spec by done. f_equal. lia. }
  assert (Hw : is_word later).
  { destruct (rep_word _ _ _ R) as [Hi1 Hi2]. rewrite El, Z.shiftr_div_pow2 by lia.
    pose proof (pow2_pos (k + 1) ltac:(lia)). split; [by apply Z.div_pos|]. apply Z.div_lt_upper_bound; nia. }
  split_and!; [done| |].
  - intros E j Hj. apply (index_zero _ _ _ _ R); [lia|]. replace j with (k + 1 + (j - k - 1)) by lia.
    rewrite <- Hbit, E by lia. apply Z.testbit_0_l.
  - intros E. destruct (TrailingZeros64_spec later Hw E) as (Ht & Hb & Hlow). rewrite Hbit in Hb by lia. cbv zeta.
    assert (Hk' : k + (1 + TrailingZeros64 later) < 64).
    { destruct (Z.lt_ge_cases (k + (1 + TrailingZeros64 later)) 64); [done|].
      rewrite (in_uint_testbit_high 64) in Hb; [done|done|apply R|lia]. }
    split_and!; [lia|done| |].
    + apply (index_nonzero _ _ _ _ R); [lia|]. by rewrite Z.add_assoc.
    + intros j Hj. apply (index_zero _ _ _ _ R); [lia|]. replace j with (k + 1 + (j - k - 1)) by lia.
      rewrite <- Hbit by lia. apply Hlow. lia.
Qed.

(** The bits of the word of [start] from [start] on. *)
Lemma rest_of_word W start :
  is_word (W (start / 64)) → 0 ≤ start →
  let b := Z.shiftr (W (start / 64)) (start mod 64) in
  (b = 0 → ∀ i, start ≤ i < 64 * (start / 64) + 64 → wbit W i = false) ∧
  (b ≠ 0 → ∀ hi, 64 * (start / 64) + 64 ≤ hi → first_from (wbit W) start hi (start + TrailingZeros64 b)).
Proof.
  intros Hw Hs b. assert (Hbit : ∀ t, 0 ≤ t → start mod 64 + t < 64 → Z.testbit b t = wbit W (start + t)).
  { intros t Ht Hlt. unfold b, wbit. rewrite Z.shiftr_spec by done.
    replace ((start + t) / 64) with (start / 64) by idx. f_equal. idx. }
  assert (Hwb : is_word b).
  { destruct Hw as [Hi1 Hi2]. unfold b. rewrite Z.shiftr_div_pow2 by idx.
    pose proof (pow2_pos (start mod 64) ltac:(idx)). split; [by apply Z.div_pos|]. apply Z.div_lt_upper_bound; nia. }
  split.
  - intros E i Hi. replace i with (start + (i - start)) by lia. rewrite <- Hbit, E by idx. apply Z.testbit_0_l.
  - intros E hi Hhi. destruct (TrailingZeros64_spec b Hwb E) as (Ht & Hb & Hlow).
    assert (Hlt : start mod 64 + TrailingZeros64 b < 64).
    { destruct (Z.lt_ge_cases (start mod 64 + TrailingZeros64 b) 64); [done|].
      clear Hlow. set (t := TrailingZeros64 b) in *. clearbody t.
      unfold b in Hb. by rewrite Z.shiftr_spec, (in_uint_testbit_high 64) in Hb by (done || lia). }
    left. split_and!; [lia|idx|by rewrite <- Hbit by lia|].
    intros i Hi. replace i with (start + (i - start)) by lia. rewrite <- Hbit by lia. apply Hlow. lia.
Qed.

Lemma blockCount_covers s ub : 1 ≤ length_ s → ub ≤ length_ s →
  let upper := if ub =? length_ s then blocks s else blockCount ub in
  ub ≤ 4096 * upper ∧ upper ≤ blocks s.
Proof.
  intros Hn Hub. rewrite blockCount_eq. unfold blocks. cbv zeta.
  destruct (Z.eqb_spec ub (length_ s)); idx.
Qed.

Lemma nextSetBitInRange_spec s W start ub :
  models s W → 0 ≤ start < length_ s → ub ≤ length_ s →
  ∃ r hi, nextSetBitInRange start ub s = Ret r ∧ ub ≤ hi ∧ first_from (wbit W) start hi r.
Proof.
  intros HM Hs Hub. destruct (locate s start Hs) as (Hb & Hk & Hw & Hm).
  destruct (blockCount_covers s ub (m_length _ _ HM) Hub) as [Hcov Hup]. cbv zeta in Hcov, Hup.
  pose proof (m_rep _ _ HM _ Hb) as R. pose proof (m_indices _ _ HM) as Hi.
  set (b := start / 4096) in *. set (k := (start / 64) mod 64) in *.
  unfold nextSetBitInRange. rewrite (proj2 (Z.leb_gt _ _)), shiftr12 by lia. fold b.
  rewrite Hi, (proj2 (Z.leb_gt _ _)) by lia. destruct (block_get s W b HM Hb) as [-> ->]. rewrite !go_bind_ret.
  rewrite shiftr6, long_bit_eq, land63, land63. fold k.
  rewrite (stored _ _ _ _ R Hk), (rep_offset _ _ _ k R Hk). change (nonzero (block W b k)) with (nonzero (W (64 * b + k))).
  destruct (rest_of_word W start (m_words _ _ HM _) ltac:(lia)) as [Hrest0 Hrest].
  destruct (later_words _ _ _ k R Hk) as (_ & Hlater0 & Hlater). cbv zeta in Hrest0, Hrest, Hlater0, Hlater.
  set (index := nthZ 0 (indices s) b) in *. set (arr := nthZ [] (bits s) b) in *.
  set (later := Z.shiftr (Z.shiftr index k) 1) in *.
  (** the rest of the word at [start] *)
  assert (Hthis : (if nonzero (W (64 * b + k)) && (Z.of_nat (length (nz (block W b) 0 k)) <? Z.of_nat (length arr))
     then w ← aget arr (Z.of_nat (length (nz (block W b) 0 k))); mret (Z.shiftr w (start mod 64)) else mret 0) =
     @Ret goerr Z (Z.shiftr (W (start / 64)) (start mod 64))).
  { destruct (nonzero (W (64 * b + k))) eqn:E.
    - apply nonzero_spec in E. destruct (rep_word_at _ _ _ _ R Hk E) as (Ea & _ & Hl).
      rewrite (proj2 (Z.ltb_lt _ _)) by done. cbn [andb]. by rewrite Ea, go_bind_ret, <- Hw.
    - unfold nonzero in E. apply negb_false_iff, Z.eqb_eq in E. rewrite <- Hw, E. by rewrite Z.shiftr_0_l. }
  rewrite Hthis, go_bind_ret. destruct (Z.eqb_spec (Z.shiftr (W (start / 64)) (start mod 64)) 0) as [E|E]; cbn [negb].
  2: { eexists _, (4096 * blocks s). split; [done|]. split; [unfold blocks; idx|]. apply Hrest; [done|]. idx. }
  specialize (Hrest0 E). destruct (Z.eqb_spec later 0) as [El|El].
  - (** no further word in this block *)
    specialize (Hlater0 El). destruct (firstDoc_spec s W _ HM Hup (S (length (indices s))) (b + 1)) as (r & -> & Hr); [lia|lia|].
    exists r. eexists. split; [done|]. split; [exact Hcov|].
    apply (first_from_skip _ _ (4096 * (b + 1))); [idx| |done]. intros i Hi'.
    destruct (Z.lt_ge_cases i (64 * (start / 64) + 64)); [apply Hrest0; lia|].
    apply (zero_words W (64 * b + k + 1) (64 * b + 64)); [|lia]. intros j Hj.
    replace j with (64 * b + (j - 64 * b)) by lia. apply Hlater0. lia.
  - (** the next word of this block *)
    destruct (Hlater El) as (Hk' & H0' & Hbetween). clear Hlater. set (k' := k + (1 + TrailingZeros64 later)) in *.
    destruct (rep_word_at _ _ _ k' R ltac:(lia) H0') as (Ea & _ & Hl).
    assert (Eo : (if nonzero (W (64 * b + k)) then Z.of_nat (length (nz (block W b) 0 k)) + 1
                  else Z.of_nat (length (nz (block W b) 0 k))) = Z.of_nat (length (nz (block W b) 0 k'))).
    { rewrite (nz_split (block W b) 0 k k'), (nz_split (block W b) k (k + 1) k'), nz_one by lia.
      rewrite (nz_nil _ (k + 1)) by (intros; apply Hbetween; lia). rewrite !length_app. unfold one.
      change (block W b k) with (W (64 * b + k)). destruct (nonzero (W (64 * b + k))); cbn [length]; lia. }
    rewrite Eo, (proj2 (Z.ltb_lt _ _)), Ea, go_bind_ret by done.
    change (block W b k') with (W (64 * b + k')) in *.
    replace (start / 64 + (1 + TrailingZeros64 later)) with (64 * b + k') by lia.
    rewrite Z.shiftl_mul_pow2 by lia. replace ((64 * b + k') * 2 ^ 6) with (64 * (64 * b + k')) by lia.
    eexists _, (4096 * blocks s). split; [done|]. split; [unfold blocks; idx|].
    apply first_in_word; [apply HM|done| |idx|lia]. intros i Hi'.
    destruct (Z.lt_ge_cases i (64 * (start / 64) + 64)); [apply Hrest0; lia|].
    apply (zero_words W (64 * b + k + 1) (64 * b + k')); [|lia]. intros j Hj.
    replace j with (64 * b + (j - 64 * b)) by lia. apply Hbetween. lia.
Qed.

Lemma first_from_cut P lo ub hi r : ub ≤ hi → first_from P lo hi r → 0 ≤ lo →
  first_from P lo ub (if (r <? ub) && (0 <=? r) then r else -1).
Proof.
  intros Hub Hr Hlo. destruct (Z.ltb_spec r ub), (Z.leb_spec 0 r); cbn [andb];
    destruct Hr as [(Hr & Hb & Hlow)|(-> & Hnone)]; try lia.
  - left. split_and!; [lia|lia|done|done].
  - right. split; [done|]. intros; apply Hnone; lia.
  - right. split; [done|]. intros; apply Hlow; lia.
  - right. split; [done|]. intros; lia.
Qed.

Lemma first_from_ext P Q lo hi r : (∀ i, lo ≤ i < hi → P i = Q i) → first_from P lo hi r → first_from Q lo hi r.
Proof.
  intros H [(Hr & Hb & Hlow)|(-> & Hnone)]; [left|right].
  - split_and!; [lia|lia|by rewrite <- H by lia|]. intros i Hi. rewrite <- H by lia. by apply Hlow.
  - split; [done|]. intros i Hi. rewrite <- H by lia. by apply Hnone.
Qed.

Lemma last_upto_ext P Q hi r : (∀ i, 0 ≤ i ≤ hi → P i = Q i) → last_upto P hi r → last_upto Q hi r.
Proof.
  intros H [(Hr & Hb & Hlow)|(-> & Hnone)]; [left|right].
  - split_and!; [lia|lia|by rewrite <- H by lia|]. intros i Hi. rewrite <- H by lia. by apply Hlow.
  - split; [done|]. intros i Hi. rewrite <- H by lia. by apply Hnone.
Qed.

Definition upper_bound (upperBound : option Z) (n : Z) : Z :=
  match upperBound with Some u => Z.min u n | None => n end.

Lemma sparse_NextSetBit_spec s P start upperBound :
  holds s P →
  ∃ r, NextSetBit start upperBound s = Ret r ∧
    first_from P (Z.max 0 start) (upper_bound upperBound (length_ s)) r.
Proof.
  intros (W & HM & HP). unfold NextSetBit.
  replace (match upperBound with Some u => if u <? length_ s then u else length_ s | None => length_ s end)
    with (upper_bound upperBound (length_ s))
    by (destruct upperBound as [u|]; cbn; [destruct (Z.ltb_spec u (length_ s)); lia|done]).
  set (ub := upper_bound upperBound (length_ s)).
  assert (Hub : ub ≤ length_ s) by (unfold ub; destruct upperBound; cbn; lia).
  pose proof (m_length _ _ HM) as Hn. destruct (Z.leb_spec (length_ s) start).
  { exists (-1). split; [done|]. right. split; [done|]. lia. }
  replace (if start <? 0 then 0 else start) with (Z.max 0 start) by (destruct (Z.ltb_spec start 0); lia).
  destruct (nextSetBitInRange_spec s W (Z.max 0 start) ub HM) as (r & hi & -> & Hhi & Hr); [lia|done|].
  rewrite go_bind_ret. exists (if (r <? ub) && (0 <=? r) then r else -1).
  split; [by destruct ((r <? ub) && (0 <=? r))|].
  apply first_from_ext with (wbit W).
  - intros i Hi. rewrite HP by lia. by rewrite (proj2 (Z.ltb_lt _ _)) by lia.
  - apply (first_from_cut _ _ _ hi); [done|done|lia].
Qed.

(** The words of a block before the word [k]. *)
Lemma earlier_words index arr W k : rep index arr W → 0 ≤ k < 64 →
  let earlier := Z.land index (shl64 1 k - 1) in
  (earlier = 0 → ∀ j, 0 ≤ j < k → W j = 0) ∧
  (earlier ≠ 0 → let k' := 63 - LeadingZeros64 earlier in
     0 ≤ k' < k ∧ W k' ≠ 0 ∧ ∀ j, k' < j < k → W j = 0).
Proof.
  intros R Hk earlier.
  assert (Hbit : ∀ t, 0 ≤ t → Z.testbit earlier t = Z.testbit index t && (t <? k)).
  { intros t Ht. unfold earlier. by rewrite Z.land_spec, testbit_low by lia. }
  assert (Hw : is_word earlier) by (apply land_word; [apply R|by apply low_word]).
  split.
  - intros E j Hj. apply (index_zero _ _ _ _ R); [lia|]. pose proof (Hbit j ltac:(lia)) as H.
    rewrite E, Z.testbit_0_l, (proj2 (Z.ltb_lt j k)), andb_true_r in H by lia. done.
  - intros E. destruct (top_bit earlier Hw E) as (Ht & Hb & Hhigh). rewrite Hbit in Hb by lia. cbv zeta.
    apply andb_true_iff in Hb as [Hb Hlt%Z.ltb_lt]. split_and!; [lia|lia| |].
    + by apply (index_nonzero _ _ _ _ R); [lia|].
    + intros j Hj. apply (index_zero _ _ _ _ R); [lia|]. specialize (Hhigh j ltac:(lia)).
      rewrite Hbit, (proj2 (Z.ltb_lt j k)), andb_true_r in Hhigh by lia. done.
Qed.

(** The bits of the word of [i] up to [i]. *)
Lemma start_of_word W i :
  is_word (W (i / 64)) → 0 ≤ i →
  let b := Z.land (W (i / 64)) (to_uint64 (shl64 1 (i mod 64 + 1) - 1)) in
  (b = 0 → ∀ j, 64 * (i / 64) ≤ j ≤ i → wbit W j = false) ∧
  (b ≠ 0 → last_upto (wbit W) i (64 * (i / 64) + (63 - LeadingZeros64 b))).
Proof.
  intros Hw Hi b. assert (Hbit : ∀ t, 0 ≤ t < 64 → Z.testbit b t = wbit W (64 * (i / 64) + t) && (t <=? i mod 64)).
  { intros t Ht. unfold b. rewrite Z.land_spec, low_bits, wbit_word by idx. f_equal.
    destruct (Z.ltb_spec t (i mod 64 + 1)), (Z.leb_spec t (i mod 64)); (done || lia). }
  assert (Hwb : is_word b) by (apply land_word; [done|by apply uwrap_range]).
  split.
  - intros E j Hj. pose proof (Hbit (j - 64 * (i / 64)) ltac:(idx)) as H.
    rewrite E, Z.testbit_0_l, (proj2 (Z.leb_le _ _)), andb_true_r in H by idx.
    by replace (64 * (i / 64) + (j - 64 * (i / 64))) with j in H by lia.
  - intros E. destruct (top_bit b Hwb E) as (Ht & Hb & Hhigh). rewrite Hbit in Hb by lia.
    apply andb_true_iff in Hb as [Hb Hle%Z.leb_le]. left. split_and!; [idx|idx|done|].
    intros j Hj. pose proof (Hhigh (j - 64 * (i / 64)) ltac:(lia)) as H.
    rewrite Hbit, (proj2 (Z.leb_le _ _)), andb_true_r in H by idx.
    by replace (64 * (i / 64) + (j - 64 * (i / 64))) with j in H by lia.
Qed.

Lemma prev_in_models s W i :
  models s W → 0 ≤ i < length_ s →
  ∃ r, PrevSetBit i s = Ret r ∧ last_upto (wbit W) i r.
Proof.
  intros HM Hs. destruct (locate s i Hs) as (Hb & Hk & Hw & Hm).
  pose proof (m_rep _ _ HM _ Hb) as R. pose proof (m_indices _ _ HM) as Hi.
  set (b := i / 4096) in *. set (k := (i / 64) mod 64) in *.
  unfold PrevSetBit. rewrite (proj2 (Z.ltb_ge i 0)), (proj2 (Z.leb_gt (length_ s) i)), shiftr12 by lia. fold b.
  rewrite Hi, (proj2 (Z.leb_gt (blocks s) b)) by lia. destruct (block_get s W b HM Hb) as [-> ->]. rewrite !go_bind_ret.
  rewrite shiftr6, long_bit_eq, land63. fold k. pose proof (rep_offset _ _ _ k R Hk) as Ho. unfold offset_of in Ho.
  rewrite (stored _ _ _ _ R Hk), Ho. change (nonzero (block W b k)) with (nonzero (W (64 * b + k))).
  destruct (start_of_word W i (m_words _ _ HM _) ltac:(lia)) as [Hrest0 Hrest].
  destruct (earlier_words _ _ _ k R Hk) as (Hearlier0 & Hearlier). cbv zeta in Hrest0, Hrest, Hearlier0, Hearlier.
  set (index := nthZ 0 (indices s) b) in *. set (arr := nthZ [] (bits s) b) in *.
  set (earlier := Z.land index (shl64 1 k - 1)) in *.
  assert (Hthis : (if nonzero (W (64 * b + k)) && (Z.of_nat (length (nz (block W b) 0 k)) <? Z.of_nat (length arr))
     then w ← aget arr (Z.of_nat (length (nz (block W b) 0 k))); mret (Z.land w (to_uint64 (shl64 1 (i mod 64 + 1) - 1)))
     else mret 0) = @Ret goerr Z (Z.land (W (i / 64)) (to_uint64 (shl64 1 (i mod 64 + 1) - 1)))).
  { destruct (nonzero (W (64 * b + k))) eqn:E.
    - apply nonzero_spec in E. destruct (rep_word_at _ _ _ _ R Hk E) as (Ea & _ & Hl).
      rewrite (proj2 (Z.ltb_lt _ _)) by done. cbn [andb]. by rewrite Ea, go_bind_ret, <- Hw.
    - unfold nonzero in E. apply negb_false_iff, Z.eqb_eq in E. rewrite <- Hw, E. by rewrite Z.land_0_l. }
  rewrite Hthis, go_bind_ret. set (rest := Z.land (W (i / 64)) _) in *.
  destruct (Z.eqb_spec rest 0) as [E|E]; cbn [negb].
  2: { eexists. split; [done|]. rewrite Z.shiftl_mul_pow2 by lia. change (2 ^ 6) with 64.
       rewrite (Z.mul_comm _ 64). by apply Hrest. }
  specialize (Hrest0 E). destruct (Z.eqb_spec earlier 0) as [El|El].
  - specialize (Hearlier0 El). destruct (lastDoc_spec s W HM (S (length (indices s))) (b - 1)) as (r & -> & Hr); [lia|lia|].
    exists r. split; [done|]. apply (last_upto_skip _ (4096 * (b - 1) + 4095)); [idx| |done]. intros j Hj.
    destruct (Z.lt_ge_cases j (64 * (i / 64))); [|apply Hrest0; lia].
    apply (zero_words W (64 * b) (64 * b + k)); [|lia]. intros w Hwd.
    replace w with (64 * b + (w - 64 * b)) by lia. apply Hearlier0. lia.
  - destruct (Hearlier El) as (Hk' & H0' & Hbetween). clear Hearlier. set (k' := 63 - LeadingZeros64 earlier) in *.
    destruct (rep_word_at _ _ _ k' R ltac:(lia) H0') as (Ea & _ & Hl).
    assert (Eo : Z.of_nat (length (nz (block W b) 0 k)) - 1 = Z.of_nat (length (nz (block W b) 0 k'))).
    { rewrite (nz_split (block W b) 0 k' k), (nz_split (block W b) k' (k' + 1) k), nz_one, one_nonzero by (done || lia).
      rewrite (nz_nil _ (k' + 1)) by (intros; apply Hbetween; lia). rewrite !length_app. cbn [length]. lia. }
    rewrite Eo, (proj2 (Z.ltb_lt 0 _)), (proj2 (Z.ltb_lt _ (Z.of_nat (length arr)))) by lia. cbn [andb].
    rewrite Ea, go_bind_ret. change (block W b k') with (W (64 * b + k')) in *.
    pose proof (top_bit _ (m_words _ _ HM (64 * b + k')) H0') as (Ht & _).
    rewrite lor_position by lia. eexists. split; [done|].
    apply last_in_word; [apply HM|done| |lia|idx]. intros j Hj.
    destruct (Z.lt_ge_cases j (64 * (i / 64))); [|apply Hrest0; lia].
    apply (zero_words W (64 * b + k' + 1) (64 * b + k)); [|lia]. intros w Hwd.
    replace w with (64 * b + (w - 64 * b)) by lia. apply Hbetween. lia.
Qed.

Lemma sparse_PrevSetBit_spec s P i :
  holds s P → ∃ r, PrevSetBit i s = Ret r ∧ last_upto P (Z.min i (length_ s - 1)) r.
Proof.
  intros (W & HM & HP). pose proof (m_length _ _ HM) as Hn. destruct (Z.ltb_spec i 0) as [Hneg|Hpos].
  { exists (-1). unfold PrevSetBit. rewrite (proj2 (Z.ltb_lt _ _)) by done. split; [done|]. right. split; [done|]. lia. }
  assert (E : PrevSetBit i s = PrevSetBit (Z.min i (length_ s - 1)) s).
  { unfold PrevSetBit. rewrite !(proj2 (Z.ltb_ge _ 0)) by lia.
    rewrite (proj2 (Z.leb_gt (length_ s) (Z.min i (length_ s - 1)))) by lia.
    by replace (if length_ s <=? i then length_ s - 1 else i) with (Z.min i (length_ s - 1))
      by (destruct (Z.leb_spec (length_ s) i); lia). }
  rewrite E. destruct (prev_in_models s W (Z.min i (length_ s - 1)) HM) as (r & -> & Hr); [lia|].
  exists r. split; [done|]. apply last_upto_ext with (wbit W); [|done].
  intros j Hj. rewrite HP by lia. by rewrite (proj2 (Z.ltb_lt _ _)) by lia.
Qed.

(** ** Single positions *)

Lemma holds_with_bit s P i :
  holds s P → 0 ≤ i < length_ s →
  (∃ s', SetBit i s = Ret s' ∧ length_ s' = length_ s ∧ holds s' (fun j => if j =? i then true else P j)) ∧
  (∃ s', GetAndSet i s = Ret (P i, s') ∧ length_ s' = length_ s ∧ holds s' (fun j => if j =? i then true else P j)) ∧
  Get i s = Ret (P i).
Proof.
  intros (W & HM & HP) Hi. pose proof (HP i ltac:(lia)) as Hpi. rewrite (proj2 (Z.ltb_lt i _)) in Hpi by lia.
  assert (Hh : ∀ s', length_ s' = length_ s → models s' (with_bit W i) → holds s' (fun j => if j =? i then true else P j)).
  { intros s' El HM'. exists (with_bit W i). split; [done|]. intros j Hj. rewrite wbit_with_bit, HP, El by done.
    destruct (Z.eqb_spec j i) as [->|]; [by rewrite (proj2 (Z.ltb_lt i _)) by lia|done]. }
  split_and!.
  - destruct (SetBit_spec s W i HM Hi) as (s' & -> & El & HM'). exists s'. split_and!; [done..|by apply Hh].
  - destruct (GetAndSet_spec s W i HM Hi) as (s' & -> & El & HM'). rewrite Hpi.
    exists s'. split_and!; [done..|by apply Hh].
  - by rewrite (sparse_Get_spec s W), (proj2 (in_range_spec _ _)), Hpi.
Qed.

(** An index out of range panics. *)
Lemma out_of_range s P i : holds s P → in_range i (length_ s) = false →
  SetBit i s = Panic ∧ GetAndSet i s = Panic ∧ Clear i s = Panic ∧ Get i s = Panic.
Proof. intros HP Hi. unfold SetBit, GetAndSet, Clear, Get. by rewrite !check_index_range, Hi. Qed.

(** * Union *)

(** The union of block [b] comes out right: the array of the block has no room for
    the words of both, or the new words all come after the old ones. *)
Definition block_safe (currentIndex index : Z) (currentBits : list Z) : bool :=
  (currentIndex =? 0) || (Z.of_nat (length currentBits) <? OnesCount64 (Z.lor currentIndex index)) ||
  forallb (fun k => negb (Z.testbit index k && negb (Z.testbit currentIndex k)) ||
                    forallb (fun j => (j <=? k) || negb (Z.testbit currentIndex j)) (seqZ 0 64)) (seqZ 0 64).

Definition or_safe (s other : SparseFixedBitSet) : bool :=
  forallb (fun b => block_safe (nthZ 0 (indices s) b) (nthZ 0 (indices other) b) (nthZ [] (bits s) b))
    (seqZ 0 (Z.of_nat (length (indices s)))).

Lemma count_or P Q a b :
  count (fun i => P i || Q i) a b = count P a b + count Q a b - count (fun i => P i && Q i) a b.
Proof.
  unfold count. induction (seqZ a (b - a)) as [|i l IH]; [done|].
  rewrite !filter_cons. destruct (P i), (Q i); cbn [orb andb]; repeat case_decide; try done; cbn [length]; lia.
Qed.

(** The words of a block of the union. *)
Definition join (W V : Z → Z) (k : Z) : Z := Z.lor (W k) (V k).

Lemma nonzero_lor a b : is_word a → is_word b → nonzero (Z.lor a b) = nonzero a || nonzero b.
Proof.
  intros [Ha _] [Hb _]. unfold nonzero. destruct (Z.eqb_spec a 0), (Z.eqb_spec b 0), (Z.eqb_spec (Z.lor a b) 0) as [E|E];
    cbn; try done; subst; cbn in *; try done; apply Z.lor_eq_0_iff in E as [? ?]; done.
Qed.

Section or_block.
Context (ci oi : Z) (ca oa : list Z) (W V : Z → Z).
Context (Rc : rep ci ca W) (Ro : rep oi oa V).
Context (HW : ∀ k, 0 ≤ k < 64 → is_word (W k)) (HV : ∀ k, 0 ≤ k < 64 → is_word (V k)).

#[local] Abbreviation U := (join W V).

Lemma join_word k : 0 ≤ k < 64 → is_word (U k).
Proof using HW HV. intros Hk. apply lor_uint; [lia|by apply HW|by apply HV]. Qed.

Lemma join_nonzero k : 0 ≤ k < 64 → nonzero (U k) = nonzero (W k) || nonzero (V k).
Proof using HW HV. intros Hk. apply nonzero_lor; [by apply HW|by apply HV]. Qed.

Lemma join_index k : 0 ≤ k < 64 → Z.testbit (Z.lor ci oi) k = nonzero (U k).
Proof using All.
  intros Hk. rewrite Z.lor_spec, join_nonzero by done. f_equal; [by apply (rep_bit _ _ _ Rc)|by apply (rep_bit _ _ _ Ro)].
Qed.

Lemma longBits_spec arr X index i : rep index arr X → 0 ≤ i < 64 → longBits index arr i = Ret (X i).
Proof.
  intros R Hi. unfold longBits. rewrite long_bit_eq, (Z.mod_small i) by lia.
  pose proof (stored _ _ _ _ R Hi) as Hs. destruct (Z.eqb_spec (Z.land index (shl64 1 i)) 0); cbn [negb] in Hs.
  - unfold nonzero in Hs. apply eq_sym, negb_false_iff, Z.eqb_eq in Hs. by rewrite Hs.
  - apply eq_sym, nonzero_spec in Hs. destruct (rep_word_at _ _ _ _ R Hi Hs) as (Ea & _ & Hl).
    rewrite (rep_offset _ _ _ _ R Hi), (proj2 (Z.ltb_lt _ _)) by done. done.
Qed.

(** When the old array is written to: no new word comes before an old one. *)
Definition in_order : Prop := ∀ k j, 0 ≤ k < j → j < 64 → V k ≠ 0 → W k = 0 → W j = 0.

Lemma in_order_rank i : in_order → 0 ≤ i < 64 → W i ≠ 0 → length (nz U 0 i) = length (nz W 0 i).
Proof using HW HV.
  intros Ho Hi H0. apply Nat2Z.inj. rewrite !length_nz. apply count_ext. intros k Hk.
  rewrite join_nonzero by lia. destruct (nonzero (V k)) eqn:Ev; [|apply orb_false_r].
  rewrite orb_true_r. symmetry. apply nonzero_spec. apply nonzero_spec in Ev. intros E.
  apply H0, (Ho k i); (done || lia).
Qed.

Lemma or_loop reuse init :
  (if reuse : bool then init = ca ∧ in_order else True) →
  Z.of_nat (length (nz U 0 64)) ≤ Z.of_nat (length init) →
  go_for 64 0 (or_step reuse ci oi (Z.lor ci oi) ca oa) (init, 0) =
  @Ret goerr _ (nz U 0 64 ++ drop (length (nz U 0 64)) init, Z.of_nat (length (nz U 0 64))).
Proof using All.
  intros Hr Hlen.
  destruct (go_for_inv (E:=goerr) (fun i st => st = (nz U 0 i ++ drop (length (nz U 0 i)) init, Z.of_nat (length (nz U 0 i))))
    64 0 (or_step reuse ci oi (Z.lor ci oi) ca oa) (init, 0)) as (st & -> & ->); [| |done].
  { by rewrite nz_nil by (intros; lia). }
  intros i st Hi ->. assert (Hi' : 0 ≤ i < 64) by lia. clear Hi. unfold or_step.
  pose proof (rep_word _ _ _ Rc) as Hcw. pose proof (rep_word _ _ _ Ro) as How.
  rewrite land_bit_zero by (done || by apply lor_uint). rewrite join_index by done.
  rewrite (nz_split U 0 i (i + 1)), nz_one by lia. unfold one. set (l := nz U 0 i) in *.
  destruct (nonzero (U i)) eqn:En.
  2: { eexists. split; [done|]. by rewrite app_nil_r. }
  assert (Hl : (length l < length init)%nat).
  { rewrite (nz_split U 0 i 64), (nz_split U i (i + 1) 64), nz_one, one_nonzero in Hlen by (by apply nonzero_spec || lia).
    rewrite !length_app in Hlen. cbn [length] in Hlen. fold l in Hlen. lia. }
  assert (Hread : longBits ci (if reuse then l ++ drop (length l) init else ca) i = Ret (W i)).
  { destruct reuse; [|by apply longBits_spec]. destruct Hr as [-> Ho].
    unfold longBits. rewrite long_bit_eq, (Z.mod_small i) by lia.
    pose proof (stored _ _ _ _ Rc Hi') as Hs. destruct (Z.eqb_spec (Z.land ci (shl64 1 i)) 0); cbn [negb] in Hs.
    - unfold nonzero in Hs. apply eq_sym, negb_false_iff, Z.eqb_eq in Hs. by rewrite Hs.
    - apply eq_sym, nonzero_spec in Hs. destruct (rep_word_at _ _ _ _ Rc Hi' Hs) as (Ea & _ & Hl2).
      pose proof (in_order_rank i Ho Hi' Hs) as Erank. fold l in Erank.
      rewrite (rep_offset _ _ _ _ Rc Hi'), (proj2 (Z.ltb_lt _ _)) by (rewrite length_app, length_drop; lia).
      rewrite <- Erank in Ea |- *. apply aget_inv in Ea as [_ Ea]. apply aget_Ret; [lia|].
      rewrite Nat2Z.id in *. rewrite lookup_app_r, lookup_drop by lia. by rewrite Nat.sub_diag, Nat.add_0_r. }
  rewrite Hread, go_bind_ret, (longBits_spec oa V oi), go_bind_ret by done.
  destruct (lookup_lt_is_Some_2 init (length l) Hl) as [x Hx]. rewrite (drop_S _ _ _ Hx).
  rewrite aset_mid, go_bind_ret by done. eexists. split; [done|].
  rewrite length_app. cbn [length]. rewrite Nat.add_1_r, <- app_assoc. f_equal. lia.
Qed.
End or_block.

Lemma block_safe_order ci oi ca W V :
  rep ci ca W → (∃ oa, rep oi oa V) → block_safe ci oi ca = true → ci ≠ 0 →
  OnesCount64 (Z.lor ci oi) ≤ Z.of_nat (length ca) → in_order W V.
Proof.
  intros Rc [oa Ro] Hs H0 Hlen k j Hkj Hj Hv Hw. unfold block_safe in Hs.
  rewrite (proj2 (Z.eqb_neq ci 0)), (proj2 (Z.ltb_ge _ _)) in Hs by (done || lia). cbn [orb] in Hs.
  rewrite forallb_forall in Hs. specialize (Hs k). rewrite <- list_elem_of_In, elem_of_seqZ in Hs.
  specialize (Hs ltac:(lia)). rewrite (rep_bit _ _ _ Ro), (rep_bit _ _ _ Rc) in Hs by lia.
  rewrite (proj2 (nonzero_spec (V k))), Hw in Hs by done. cbn in Hs.
  rewrite forallb_forall in Hs. specialize (Hs j). rewrite <- list_elem_of_In, elem_of_seqZ in Hs.
  specialize (Hs ltac:(lia)). rewrite (proj2 (Z.leb_gt _ _)) in Hs by lia. cbn in Hs.
  apply negb_true_iff in Hs. by apply (index_zero _ _ _ _ Rc); [lia|].
Qed.

Lemma nz_counts W V ci oi ca oa :
  rep ci ca W → rep oi oa V → (∀ k, 0 ≤ k < 64 → is_word (W k)) → (∀ k, 0 ≤ k < 64 → is_word (V k)) →
  count (fun k => nonzero (join W V k)) 0 64 =
  count (fun k => nonzero (W k)) 0 64 + OnesCount64 oi - OnesCount64 (Z.land ci oi).
Proof.
  intros Rc Ro HW HV. rewrite (count_ext _ (fun k => nonzero (W k) || nonzero (V k)))
    by (intros; by apply join_nonzero).
  rewrite count_or. f_equal; [f_equal|]; apply count_ext; intros k Hk.
  - symmetry. by apply (rep_bit _ _ _ Ro).
  - rewrite Z.land_spec. by rewrite (rep_bit _ _ _ Rc), (rep_bit _ _ _ Ro).
Qed.

(** One block of the union. *)

Lemma count_mono P Q a b : (∀ i, a ≤ i < b → P i = true → Q i = true) → count P a b ≤ count Q a b.
Proof.
  intros H. unfold count. assert (Hl : ∀ i, i ∈ seqZ a (b - a) → P i = true → Q i = true).
  { intros i Hi%elem_of_seqZ. apply H. lia. }
  induction (seqZ a (b - a)) as [|i l IH]; [done|]. rewrite !filter_cons.
  specialize (IH (fun i Hi => Hl i (list_elem_of_further _ _ _ Hi))).
  pose proof (Hl i (list_elem_of_here _ _)) as Hi. repeat case_decide; cbn [length]; try lia. by destruct Hi.
Qed.

Lemma drop_repeat {A} (x : A) m : ∀ n, drop m (repeat x n) = repeat x (n - m).
Proof. induction m as [|m IH]; intros [|n]; try done. apply IH. Qed.

(** The array the words of the union go into: it has room, and what they do not
    overwrite is 0. *)
Lemma or_tail ci oi ca oa W V :
  rep ci ca W → rep oi oa V → (∀ k, 0 ≤ k < 64 → is_word (W k)) → (∀ k, 0 ≤ k < 64 → is_word (V k)) →
  let ni := Z.lor ci oi in
  let l := nz (join W V) 0 64 in
  let init := if OnesCount64 ni <=? Z.of_nat (length ca) then ca
              else repeat 0 (Z.to_nat (sparseOversize (OnesCount64 ni))) in
  OnesCount64 ni = Z.of_nat (length l) ∧ Z.of_nat (length l) ≤ Z.of_nat (length init) ∧
  ∃ m, drop (length l) init = repeat 0 m.
Proof.
  intros Rc Ro HW HV ni l init.
  assert (Hones : OnesCount64 ni = Z.of_nat (length l)).
  { unfold l. rewrite length_nz. apply count_ext. by apply (join_index ci oi ca oa). }
  split; [done|]. unfold init. destruct (Z.leb_spec (OnesCount64 ni) (Z.of_nat (length ca))) as [Hle|Hgt].
  - split; [lia|]. destruct Rc as [_ _ [n Ec]].
    assert (Hge : (length (nz W 0 64) ≤ length l)%nat).
    { apply Nat2Z.inj_le. unfold l. rewrite !length_nz. apply count_mono. intros k Hk Hn.
      rewrite join_nonzero by done. by rewrite Hn. }
    rewrite Ec, drop_app_ge by done. eexists. apply drop_repeat.
  - rewrite repeat_length. split; [|eexists; apply drop_repeat].
    pose proof (count_le (Z.testbit ni) 0 64) as Hc. fold (OnesCount64 ni) in Hc.
    pose proof (sparseOversize_ge (OnesCount64 ni)). lia.
Qed.

(** What [orBlock] stores. *)
Lemma orBlock_stores s W V b oi oa :
  models s W → 0 ≤ b < blocks s → rep oi oa (block V b) → (∀ j, is_word (V j)) →
  block_safe (nthZ 0 (indices s) b) oi (nthZ [] (bits s) b) = true →
  let ci := nthZ 0 (indices s) b in
  ∃ s' arr, orBlock b oi oa (OnesCount64 oi) s = Ret s' ∧ length_ s' = length_ s ∧
    rep (Z.lor ci oi) arr (join (block W b) (block V b)) ∧
    indices s' = <[Z.to_nat b := Z.lor ci oi]> (indices s) ∧ bits s' = <[Z.to_nat b := arr]> (bits s) ∧
    nonZeroLongCount s' = nonZeroLongCount s + (OnesCount64 oi - OnesCount64 (Z.land ci oi)).
Proof.
  intros HM Hb Ro HVw Hsafe ci. pose proof (m_rep _ _ HM b Hb) as Rc. pose proof (m_indices _ _ HM) as Hi.
  pose proof (m_bits _ _ HM) as Hbs. fold ci in Rc, Hsafe. set (ca := nthZ [] (bits s) b) in *.
  assert (HW : ∀ k, 0 ≤ k < 64 → is_word (block W b k)) by (intros; apply HM).
  assert (HV : ∀ k, 0 ≤ k < 64 → is_word (block V b k)) by (intros; apply HVw).
  unfold orBlock. destruct (block_get s W b HM Hb) as [Egi Egb]. rewrite Egi, go_bind_ret. fold ci.
  destruct (Z.eqb_spec ci 0) as [E0|E0].
  - rewrite E0 in *. rewrite store_index_Ret, go_bind_ret by lia. pose proof (rep_count _ _ _ Ro) as Hoc.
    assert (Esl : slice oa 0 (OnesCount64 oi) = @Ret goerr _ (nz (block V b) 0 64)).
    { destruct Ro as [_ _ [n ->]]. apply (slice_mid [] (nz (block V b) 0 64)); cbn [length]; lia. }
    rewrite Esl, go_bind_ret, store_bits_Ret, go_bind_ret by (cbn; lia).
    eexists _, (nz (block V b) 0 64). split_and!; [done|done| |done|done|].
    + rewrite Z.lor_0_l. apply rep_ext with (block V b).
      * intros k Hk. unfold join. rewrite (block_zero _ _ _ Rc eq_refl k Hk). by rewrite Z.lor_0_l.
      * destruct Ro as [R1 R2 _]. split; [done|done|]. exists O. by rewrite app_nil_r.
    + cbn. rewrite Z.land_0_l. change (OnesCount64 0) with 0. lia.
  - rewrite Egb, go_bind_ret. fold ca.
    destruct (or_tail ci oi ca oa _ _ Rc Ro HW HV) as (Hones & Hlen & m & Em). cbv zeta in Hones, Hlen, Em.
    set (ni := Z.lor ci oi) in *. set (reuse := OnesCount64 ni <=? Z.of_nat (length ca)) in *.
    set (init := if reuse then ca else repeat 0 (Z.to_nat (sparseOversize (OnesCount64 ni)))) in *.
    set (s1 := if reuse then s else add_ram _ s).
    assert (Hs1 : indices s1 = indices s ∧ bits s1 = bits s ∧ length_ s1 = length_ s ∧ nonZeroLongCount s1 = nonZeroLongCount s)
      by (unfold s1; by destruct reuse).
    pose proof (or_loop ci oi ca oa _ _ Rc Ro HW HV reuse init) as Hloop. fold ni in Hloop.
    rewrite Hloop; [|unfold init|done].
    2: { destruct reuse eqn:Er; [|done]. split; [done|]. apply Z.leb_le in Er.
         eapply block_safe_order; eauto. }
    rewrite go_bind_ret. destruct Hs1 as (Es1 & Es2 & Es3 & Es4).
    rewrite store_index_Ret, go_bind_ret, store_bits_Ret, go_bind_ret by (cbn; rewrite ?Es1, ?Es2; lia).
    eexists _, _. split_and!; [done|done| |cbn; by rewrite Es1|cbn; by rewrite Es2|cbn; lia].
    split; [apply lor_uint; [lia|apply Rc|apply Ro]|apply (join_index ci oi ca oa); done|].
    exists m. by rewrite Em.
Qed.

Lemma orBlock_spec s W V b oi oa :
  models s W → 0 ≤ b < blocks s → rep oi oa (block V b) → (∀ j, is_word (V j)) →
  (∀ i, length_ s ≤ i → wbit V i = false) →
  block_safe (nthZ 0 (indices s) b) oi (nthZ [] (bits s) b) = true →
  ∃ s', orBlock b oi oa (OnesCount64 oi) s = Ret s' ∧ length_ s' = length_ s ∧
    models s' (fun j => if j / 64 =? b then Z.lor (W j) (V j) else W j) ∧
    ∀ c, 0 ≤ c → c ≠ b →
      nthZ 0 (indices s') c = nthZ 0 (indices s) c ∧ nthZ [] (bits s') c = nthZ [] (bits s) c.
Proof.
  intros HM Hb Ro HVw HVg Hsafe. pose proof (m_indices _ _ HM) as Hi. pose proof (m_bits _ _ HM) as Hbs.
  destruct (orBlock_stores s W V b oi oa HM Hb Ro HVw Hsafe) as (s' & arr & E & El & R & Ei & Eb & En).
  exists s'. split_and!; [done..| |].
  - assert (Hblock : ∀ k, 0 ≤ k < 64 → join (block W b) (block V b) k =
      block (fun j => if j / 64 =? b then Z.lor (W j) (V j) else W j) b k).
    { intros k Hk. unfold block, join. by rewrite (proj2 (Z.eqb_eq _ b)) by idx. }
    eapply (models_block s s' W _ b); eauto.
    + by apply (rep_ext _ _ _ _ Hblock).
    + intros j Hj. cbn. by rewrite (proj2 (Z.eqb_neq _ _)).
    + intros j. cbn. destruct (j / 64 =? b); [apply lor_uint; [lia|apply HM|apply HVw]|apply HM].
    + intros i Hlen. unfold wbit. pose proof (m_ghost _ _ HM i Hlen) as Hg. pose proof (HVg i Hlen) as Hg2.
      unfold wbit in Hg, Hg2. destruct (i / 64 / 64 =? b); [|done]. by rewrite Z.lor_spec, Hg, Hg2.
    + rewrite En, <- (count_ext _ _ 0 64 (fun k Hk => f_equal nonzero (Hblock k Hk))).
      rewrite (nz_counts _ _ _ _ _ _ (m_rep _ _ HM b Hb) Ro) by (intros; first [apply HM|apply HVw]). lia.
  - intros c Hc Hne. rewrite Ei, Eb, !nthZ_insert by lia. by rewrite !decide_False by congruence.
Qed.


Lemma models_ext' s W W' : (∀ j, 0 ≤ j → W j = W' j) → (∀ j, is_word (W' j)) → models s W → models s W'.
Proof.
  intros H Hw [H1 H2 H3 H4 H5 H6 H7]. split; try done.
  - intros b Hb. apply rep_ext with (block W b); [|by apply H5]. intros k Hk. apply H. lia.
  - rewrite H6. apply count_ext. intros j Hj. by rewrite H by lia.
  - intros i Hi. unfold wbit. rewrite <- H by idx. by apply H7.
Qed.

Lemma Or_spec s other W V :
  models s W → models other V → length_ s = length_ other → or_safe s other = true →
  ∃ s', Or other s = Ret s' ∧ length_ s' = length_ s ∧ models s' (fun j => Z.lor (W j) (V j)).
Proof.
  intros HM HV El Hsafe. unfold Or. rewrite (proj2 (Z.eqb_eq _ _)) by done. cbn [negb].
  assert (En : blocks other = blocks s) by (unfold blocks; by rewrite El).
  pose proof (m_indices _ _ HV) as HVi. pose proof (m_indices _ _ HM) as Hi. pose proof (m_length _ _ HM) as Hn.
  assert (Hblock : ∀ b, 0 ≤ b < blocks s →
    block_safe (nthZ 0 (indices s) b) (nthZ 0 (indices other) b) (nthZ [] (bits s) b) = true).
  { intros b Hb. unfold or_safe in Hsafe. rewrite forallb_forall in Hsafe. apply Hsafe.
    apply list_elem_of_In, elem_of_seqZ. lia. }
  set (Wi := fun i j => if j / 64 <? i then Z.lor (W j) (V j) else W j).
  assert (HWi : ∀ i j, is_word (Wi i j)).
  { intros i j. unfold Wi. destruct (j / 64 <? i); [apply lor_uint; [lia|apply HM|apply HV]|apply HM]. }
  match goal with |- context [go_for _ 0 ?body s] =>
    destruct (go_for_inv (fun i s' => length_ s' = length_ s ∧ models s' (Wi i) ∧
      ∀ c, i ≤ c < blocks s → nthZ 0 (indices s') c = nthZ 0 (indices s) c ∧ nthZ [] (bits s') c = nthZ [] (bits s) c)
      (length (indices other)) 0 body s) as (s' & -> & El' & HM' & _)
  end.
  - split_and!; [done| |done]. apply models_ext' with W; [|apply HWi|done].
    intros j Hj. unfold Wi. by rewrite (proj2 (Z.ltb_ge _ _)) by idx.
  - intros i s1 Hi1 (El1 & HM1 & Hsame). assert (Hb : 0 ≤ i < blocks s) by lia.
    destruct (block_get other V i HV) as [-> ->]; [by rewrite En|]. rewrite go_bind_ret.
    pose proof (m_rep _ _ HV i ltac:(lia)) as Ro. set (oi := nthZ 0 (indices other) i) in *.
    assert (Hnext : ∀ j, Wi (i + 1) j = if j / 64 =? i then Z.lor (Wi i j) (V j) else Wi i j).
    { intros j. unfold Wi. destruct (Z.ltb_spec (j / 64) (i + 1)), (Z.ltb_spec (j / 64) i), (Z.eqb_spec (j / 64) i);
        (done || lia). }
    destruct (Z.eqb_spec oi 0) as [E|E]; cbn [negb].
    + exists s1. split_and!; [done|done| |intros; apply Hsame; lia].
      apply models_ext' with (Wi i); [|apply HWi|done]. intros j Hj. rewrite Hnext.
      destruct (Z.eqb_spec (j / 64) i) as [Ej|]; [|done].
      replace j with (64 * i + j mod 64) by idx.
      pose proof (block_zero _ _ _ Ro E (j mod 64) ltac:(idx)) as H0. unfold block in H0. by rewrite H0, Z.lor_0_r.
    + rewrite go_bind_ret. destruct (Hsame i ltac:(lia)) as [Esi Esb].
      destruct (orBlock_spec s1 (Wi i) V i oi (nthZ [] (bits other) i) HM1) as (s2 & -> & El2 & HM2 & Hsame2).
      * unfold blocks. rewrite El1. done.
      * done.
      * apply HV.
      * intros k Hk. apply (m_ghost _ _ HV). lia.
      * rewrite Esi, Esb. by apply Hblock.
      * exists s2. split_and!; [done|congruence| |].
        -- by apply (models_ext _ _ _ (fun j => eq_sym (Hnext j))).
        -- intros c Hc. destruct (Hsame2 c) as [-> ->]; [lia|lia|]. apply Hsame. lia.
  - exists s'. split_and!; [done..|].
    apply models_ext' with (Wi (0 + Z.of_nat (length (indices other)))); [| |done].
    2: { intros j. apply lor_uint; [lia|apply HM|apply HV]. }
    intros j Hj. unfold Wi. rewrite HVi, Z.add_0_l, En. destruct (Z.ltb_spec (j / 64) (blocks s)) as [|Hge]; [done|].
    assert (V j = 0) as ->; [|by rewrite Z.lor_0_r]. apply word_zero; [apply HV|]. intros k Hk.
    rewrite <- wbit_word by done. apply (m_ghost _ _ HV). rewrite <- El. unfold blocks in Hge. idx.
Qed.

Lemma holds_models s P W : models s W → holds s P → ∀ i, 0 ≤ i < length_ s → wbit W i = P i.
Proof.
  intros HM (V & HV & HP) i Hi. pose proof (sparse_Get_spec s W i HM) as H1. pose proof (sparse_Get_spec s V i HV) as H2.
  rewrite (proj2 (in_range_spec _ _)) in H1, H2 by done. rewrite H1 in H2. injection H2 as ->.
  rewrite HP by lia. by rewrite (proj2 (Z.ltb_lt _ _)) by lia.
Qed.

(** The union of two sparse bit sets of one length is the union of the sets, if
    every block of the first either has no room for the words of both or gets
    its new words after its old ones; sets of different lengths are refused
    with an error. *)
Theorem Or_correct (s other : SparseFixedBitSet) (P Q : Z → bool) :
  holds s P → holds other Q → or_safe s other = true →
  if length_ s =? length_ other
  then ∃ s', Or other s = Ret s' ∧ length_ s' = length_ s ∧ holds s' (fun i => P i || Q i)
  else ∃ e, Or other s = Err e.
Proof.
  intros (W & HM & HP) (V & HV & HQ) Hsafe. destruct (Z.eqb_spec (length_ s) (length_ other)) as [El|El].
  - destruct (Or_spec s other W V HM HV El Hsafe) as (s' & -> & El' & HM'). exists s'. split_and!; [done..|].
    eexists. split; [exact HM'|]. intros i Hi. unfold wbit. rewrite Z.lor_spec. 
    change (wbit W i || wbit V i = if i <? length_ s' then P i || Q i else false).
    rewrite HP, HQ, <- El, El' by done. by destruct (i <? length_ s).
  - unfold Or. rewrite (proj2 (Z.eqb_neq _ _)) by done. by eexists.
Qed.

Definition mem_list (l : list Z) (i : Z) : bool := existsb (Z.eqb i) l.

Lemma set_all_spec l : ∀ s P, holds s P → forallb (fun i => in_range i (length_ s)) l = true →
  ∃ s', set_all l s = Ret s' ∧ length_ s' = length_ s ∧ holds s' (fun i => mem_list l i || P i).
Proof.
  induction l as [|i l IH]; intros s P HP Hl; cbn [set_all].
  { exists s. split_and!; [done..|]. eapply holds_ext; [|exact HP]. done. }
  cbn [forallb] in Hl. apply andb_true_iff in Hl as [Hi Hl]. apply in_range_spec in Hi.
  destruct (holds_with_bit s P i HP Hi) as ((s1 & -> & El & HP1) & _). rewrite go_bind_ret.
  destruct (IH s1 _ HP1) as (s' & -> & El' & HP'); [by rewrite El|]. exists s'. split_and!; [done|congruence|].
  eapply holds_ext; [|exact HP']. intros j Hj. cbn. unfold mem_list. destruct (j =? i); cbn; [by rewrite orb_true_r|done].
Qed.

Lemma Or_correct_witness :
  ∃ a b c, (a ← NewSparseFixedBitSet 10000; set_all [69; 9000] a) = Ret a ∧
    (b ← NewSparseFixedBitSet 10000; set_all [69; 70; 200; 5000] b) = Ret b ∧ or_safe a b = true ∧
    Or b a = Ret c ∧ holds c (fun i => mem_list [69; 9000] i || false || (mem_list [69; 70; 200; 5000] i || false)).
Proof.
  destruct (New_holds 10000) as (s & En & El & HP); [lia|]. 
  destruct (set_all_spec [69; 9000] s _ HP) as (a & Ea & Ela & Ha); [rewrite El; reflexivity|].
  destruct (set_all_spec [69; 70; 200; 5000] s _ HP) as (b & Eb & Elb & Hb); [rewrite El; reflexivity|].
  assert (Hsafe : or_safe a b = true).
  { vm_compute in En. injection En as <-. vm_compute in Ea. injection Ea as <-. vm_compute in Eb. injection Eb as <-.
    vm_compute. reflexivity. }
  pose proof (Or_correct a b _ _ Ha Hb Hsafe) as H. rewrite Ela, Elb, El in H. destruct H as (c & Ec & _ & Hc).
  exists a, b, c. rewrite En, !go_bind_ret. split; [exact Ea|]. split; [exact Eb|]. split; [exact Hsafe|].
  split; [exact Ec|exact Hc].
Defined.

(** Otherwise a union can lose positions and make up others: where the array of
    a block has room, the words of the union are written into it in ascending
    order over words that are still to be read. Here the union of [69; 134]
    and [7] loses both elements of the first set and has 71 and 135 instead. *)
Theorem Or_overwrites :
  (a ← NewSparseFixedBitSet 4096; a ← set_all [69; 134] a;
   b ← NewSparseFixedBitSet 4096; b ← set_all [7] b;
   c ← Or b a;
   x0 ← Get 7 c; x1 ← Get 69 c; x2 ← Get 71 c; x3 ← Get 134 c; x4 ← Get 135 c;
   mret [x0; x1; x2; x3; x4]) = Ret [true; false; true; false; true].
Proof. vm_compute. reflexivity. Qed.

(** * Equality *)

Lemma equal_arrays_spec a b : ∃ r, equal_arrays a b = Ret r ∧ (r = true → a = b).
Proof.
  unfold equal_arrays. destruct (Z.eqb_spec (Z.of_nat (length a)) (Z.of_nat (length b))) as [El|]; [|by exists false].
  destruct (go_for_inv (E := goerr) (fun j (r : bool) => r = true → take (Z.to_nat j) a = take (Z.to_nat j) b) (length a) 0
    (fun j equal => if equal then x ← aget a j; y ← aget b j; mret (x =? y) else mret false) true) as (r & E & Hr).
  - done.
  - intros j r Hj IH. destruct r; [|by exists false].
    destruct (aget_ex (E := goerr) a j) as (x & -> & Hx); [lia|]. destruct (aget_ex (E := goerr) b j) as (y & -> & Hy); [lia|].
    rewrite !go_bind_ret. eexists. split; [done|]. intros ->%Z.eqb_eq. replace (Z.to_nat (j + 1)) with (S (Z.to_nat j)) by lia.
    by rewrite (take_S_r _ _ _ Hx), (take_S_r _ _ _ Hy), IH.
  - exists r. split; [exact E|]. intros Htrue. specialize (Hr Htrue). rewrite !firstn_all2 in Hr by lia. done.
Qed.

(** Sets that are found equal have the same arrays. *)
Lemma Equals_arrays s other W V :
  models s W → models other V →
  ∃ r, Equals s other = Ret r ∧
    (r = true → length_ s = length_ other ∧ indices s = indices other ∧ bits s = bits other).
Proof.
  intros HM HV. unfold Equals. destruct (Z.eqb_spec (length_ s) (length_ other)) as [El|]; [|by exists false]. cbn [negb].
  destruct (_ =? _); [|by exists false]. cbn [negb].
  assert (Eb : blocks other = blocks s) by (unfold blocks; by rewrite El).
  pose proof (m_indices _ _ HM) as Hi. pose proof (m_bits _ _ HM) as Hbits.
  pose proof (m_indices _ _ HV) as Hi'. pose proof (m_bits _ _ HV) as Hbits'. rewrite Eb in *.
  match goal with |- context [go_for _ 0 ?f true] =>
    destruct (go_for_inv (E := goerr) (fun i (r : bool) => r = true →
      take (Z.to_nat i) (indices s) = take (Z.to_nat i) (indices other) ∧
      take (Z.to_nat i) (bits s) = take (Z.to_nat i) (bits other)) (length (indices s)) 0 f true) as (r & E & Hr) end.
  - done.
  - intros i r Hin IH. destruct r; [|by exists false].
    destruct (aget_ex (E := goerr) (indices s) i) as (x & -> & Hx); [lia|].
    destruct (aget_ex (E := goerr) (indices other) i) as (y & -> & Hy); [lia|]. rewrite !go_bind_ret.
    destruct (Z.eqb_spec x y) as [->|]; [|by exists false]. cbn [negb].
    destruct (aget_ex (E := goerr) (bits s) i) as (a & -> & Ha); [lia|].
    destruct (aget_ex (E := goerr) (bits other) i) as (b & -> & Hb); [lia|]. rewrite !go_bind_ret.
    destruct (equal_arrays_spec a b) as (r & -> & Hr). exists r. split; [done|]. intros ->%Hr.
    destruct IH as [IH1 IH2]; [done|]. replace (Z.to_nat (i + 1)) with (S (Z.to_nat i)) by lia.
    by rewrite (take_S_r _ _ _ Hx), (take_S_r _ _ _ Hy), (take_S_r _ _ _ Ha), (take_S_r _ _ _ Hb), IH1, IH2.
  - exists r. split; [exact E|]. intros Htrue. destruct (Hr Htrue) as [H1 H2].
    rewrite !firstn_all2 in H1, H2 by lia. done.
Qed.

Lemma Equals_spec s other P Q :
  holds s P → holds other Q →
  ∃ r, Equals s other = Ret r ∧ (r = true → length_ s = length_ other ∧ ∀ i, 0 ≤ i < length_ s → P i = Q i).
Proof.
  intros HP HQ. pose proof HP as (W & HM & _). pose proof HQ as (V & HV & _).
  destruct (Equals_arrays s other W V HM HV) as (r & E & Hr). exists r. split; [exact E|]. intros Htrue.
  destruct (Hr Htrue) as (El & Ei & Eb). split; [exact El|]. intros i Hi.
  destruct (holds_with_bit s P i HP Hi) as (_ & _ & H1). destruct (holds_with_bit other Q i HQ ltac:(lia)) as (_ & _ & H2).
  assert (EG : Get i s = Get i other) by (unfold Get, check_index; by rewrite El, Ei, Eb). congruence.
Qed.

(** * All operations *)

Inductive op : Type :=
  | OSet (i : Z)
  | OGetAndSet (i : Z)
  | OClear (i : Z)
  | OClearRange (from to_ : Z)
  | OClearAll
  | OGet (i : Z)
  | ONextSetBit (start : Z) (upperBound : option Z)
  | OPrevSetBit (i : Z)
  | OCardinality
  | OIsEmpty
  | OOr (other : SparseFixedBitSet) (Q : Z → bool)
  | OEquals (other : SparseFixedBitSet) (Q : Z → bool).

Definition run_op (o : op) (s : SparseFixedBitSet) : M (Z * SparseFixedBitSet) :=
  match o with
  | OSet i => s ← SetBit i s; mret (0, s)
  | OGetAndSet i => '(b, s) ← GetAndSet i s; mret (Z.b2z b, s)
  | OClear i => s ← Clear i s; mret (0, s)
  | OClearRange a b => s ← ClearRange a b s; mret (0, s)
  | OClearAll => mret (0, ClearAll s)
  | OGet i => b ← Get i s; mret (Z.b2z b, s)
  | ONextSetBit i u => r ← NextSetBit i u s; mret (r, s)
  | OPrevSetBit i => r ← PrevSetBit i s; mret (r, s)
  | OCardinality => mret (Cardinality s, s)
  | OIsEmpty => mret (Z.b2z (IsEmpty s), s)
  | OOr other _ => s ← Or other s; mret (0, s)
  | OEquals other _ => b ← Equals s other; mret (Z.b2z b, s)
  end.

Fixpoint run_ops (l : list op) (s : SparseFixedBitSet) : M (list Z * SparseFixedBitSet) :=
  match l with
  | [] => mret ([], s)
  | o :: l => '(r, s) ← run_op o s; '(rs, s) ← run_ops l s; mret (r :: rs, s)
  end.

(** The operations that are covered: indices in range; a range to clear that has a
    part in the set or is empty ([ClearRange_past_the_end] below shows why); a union
    with a set of the same length in which no word is overwritten before it is read
    ([Or_overwrites] above). *)
Definition legal (o : op) (s : SparseFixedBitSet) : bool :=
  match o with
  | OSet i | OGetAndSet i | OClear i | OGet i => in_range i (length_ s)
  | OClearRange a b => clear_range_ok a b (length_ s)
  | OOr other _ => (length_ s =? length_ other) && or_safe s other
  | _ => true
  end.

(** Each operation, on the set that it is run on. *)
Fixpoint legal_run (l : list op) (s : SparseFixedBitSet) : bool :=
  match l with
  | [] => true
  | o :: l => legal o s && match run_op o s with Ret (_, s) => legal_run l s | _ => true end
  end.

(** The other sets hold what is said of them. *)
Definition operand_ok (o : op) : Prop :=
  match o with OOr other Q | OEquals other Q => holds other Q | _ => True end.

(** The same on a set of positions below [n]. *)
Definition effect (o : op) (P : Z → bool) (j : Z) : bool :=
  match o with
  | OSet i | OGetAndSet i => if j =? i then true else P j
  | OClear i => if j =? i then false else P j
  | OClearRange a b => if (a <=? j) && (j <? b) then false else P j
  | OClearAll => false
  | OOr _ Q => P j || Q j
  | _ => P j
  end.

(** A set that is found equal holds the same positions; one that holds the same
    positions need not be found equal ([Equals_incomplete] below). *)
Definition answer (n : Z) (o : op) (P : Z → bool) (r : Z) : Prop :=
  match o with
  | OSet _ | OClear _ | OClearRange _ _ | OClearAll | OOr _ _ => r = 0
  | OGetAndSet i | OGet i => r = Z.b2z (P i)
  | ONextSetBit i u => first_from P (Z.max 0 i) (upper_bound u n) r
  | OPrevSetBit i => last_upto P (Z.min i (n - 1)) r
  | OCardinality => r = count P 0 n
  | OIsEmpty => r = Z.b2z (count P 0 n =? 0)
  | OEquals other Q => r = 0 ∨ r = 1 ∧ length_ other = n ∧ ∀ i, 0 ≤ i < n → P i = Q i
  end.

Fixpoint answers (n : Z) (l : list op) (P : Z → bool) (rs : list Z) : Prop :=
  match l, rs with
  | [], [] => True
  | o :: l, r :: rs => answer n o P r ∧ answers n l (effect o P) rs
  | _, _ => False
  end.

Lemma sparse_op_correct o s P :
  holds s P → operand_ok o → legal o s = true →
  ∃ r s', run_op o s = Ret (r, s') ∧ length_ s' = length_ s ∧ answer (length_ s) o P r ∧ holds s' (effect o P).
Proof.
  intros HP Ho Hl. destruct o; cbn [legal run_op answer operand_ok] in *.
  - apply in_range_spec in Hl. destruct (holds_with_bit s P i HP Hl) as ((s' & -> & El & HP') & _).
    by eexists _, s'.
  - apply in_range_spec in Hl. destruct (holds_with_bit s P i HP Hl) as (_ & (s' & -> & El & HP') & _).
    by eexists _, s'.
  - pose proof (sparse_Clear_spec s P i HP) as H. rewrite Hl in H. destruct H as (s' & -> & El & HP'). by eexists _, s'.
  - destruct (ClearRange_spec s P from to_ HP Hl) as (s' & -> & El & HP'). by eexists _, s'.
  - eexists _, _. split_and!; [done..|]. by apply ClearAll_holds with P.
  - apply in_range_spec in Hl. destruct (holds_with_bit s P i HP Hl) as (_ & _ & ->). by eexists _, s.
  - destruct (sparse_NextSetBit_spec s P start upperBound HP) as (r & -> & Hr). by eexists _, s.
  - destruct (sparse_PrevSetBit_spec s P i HP) as (r & -> & Hr). by eexists _, s.
  - eexists _, s. split_and!; [done..| |done]. by apply Cardinality_holds.
  - eexists _, s. split_and!; [done..| |done]. by rewrite <- (IsEmpty_holds s P).
  - apply andb_true_iff in Hl as [El Hsafe]. pose proof (Or_correct s other P Q HP Ho Hsafe) as H. rewrite El in H.
    destruct H as (s' & -> & El' & HP'). by eexists _, s'.
  - destruct (Equals_spec s other P Q HP Ho) as (r & -> & Hr). eexists _, s. split_and!; [done..| |done].
    destruct r; [right|by left]. destruct (Hr eq_refl) as [El HPQ]. by split_and!.
Qed.

Lemma sparse_ops_from l : ∀ s P,
  holds s P → Forall operand_ok l → legal_run l s = true →
  ∃ rs s' Q, run_ops l s = Ret (rs, s') ∧ length_ s' = length_ s ∧ answers (length_ s) l P rs ∧ holds s' Q.
Proof.
  induction l as [|o l IH]; intros s P HP Hok Hl; [by exists [], s, P|].
  apply Forall_cons in Hok as [Ho Hok]. cbn [legal_run] in Hl. apply andb_true_iff in Hl as [Hlo Hl].
  destruct (sparse_op_correct o s P HP Ho Hlo) as (r & s1 & Eo & El & Ha & HP1). rewrite Eo in Hl.
  destruct (IH s1 (effect o P) HP1 Hok Hl) as (rs & s' & Q & Es & El' & Has & HQ).
  exists (r :: rs), s', Q. cbn [run_ops]. rewrite Eo, go_bind_ret, Es, go_bind_ret. rewrite El in *. done.
Qed.

(** C17. The sparse bit set is a set of positions: on a new set of any positive
    length, a sequence of the operations above (set, clear, with and without the old
    value, clear a range or everything, the searches, the counts, union and equality
    with other sets of positions) returns, without panics, what it returns on a set
    of positions: membership, the first position from an index on and below an
    optional bound, the last one up to an index, how many there are, and equality
    only with a set of the same positions. Covered are the sequences that are
    [legal_run]: indices are in range; a range to clear is empty or has a part in the
    set; a union is with a set of the same length and overwrites no word before it is
    read. In the other cases the code goes wrong ([ClearRange_past_the_end],
    [Or_overwrites]) or, for an index out of range, panics, as stated here for the
    set after the sequence; and it can tell apart sets of the same positions
    ([Equals_incomplete]). *)
Theorem sparse_ops_refine (n : Z) (l : list op) (s : SparseFixedBitSet) :
  1 ≤ n → Forall operand_ok l → NewSparseFixedBitSet n = Ret s → legal_run l s = true →
  ∃ rs s', run_ops l s = Ret (rs, s') ∧ answers n l (fun _ => false) rs ∧
    ∀ i, in_range i n = false → SetBit i s' = Panic ∧ GetAndSet i s' = Panic ∧ Clear i s' = Panic ∧ Get i s' = Panic.
Proof.
  intros Hn Hok En Hl. destruct (New_holds n Hn) as (s0 & E0 & El & HP). rewrite En in E0. injection E0 as <-.
  destruct (sparse_ops_from l s _ HP Hok Hl) as (rs & s' & Q & Es & El' & Ha & HQ).
  exists rs, s'. rewrite <- El. split_and!; [done..|]. rewrite <- El'. intros i. by apply out_of_range with Q.
Qed.

Lemma sparse_ops_refine_witness :
  ∃ s other rs s', NewSparseFixedBitSet 10000 = Ret s ∧ set_all [69; 70; 200; 5000] s = Ret other ∧
    run_ops [OSet 69; OSet 4100; OGetAndSet 9000; OClear 4100; OClearRange 4000 9000; ONextSetBit 0 None;
             OEquals other (mem_list [69; 70; 200; 5000]); OOr other (mem_list [69; 70; 200; 5000]);
             OCardinality] s = Ret (rs, s') ∧
    answers 10000 [OSet 69; OSet 4100; OGetAndSet 9000; OClear 4100; OClearRange 4000 9000; ONextSetBit 0 None;
             OEquals other (mem_list [69; 70; 200; 5000]); OOr other (mem_list [69; 70; 200; 5000]);
             OCardinality] (fun _ => false) rs.
Proof.
  destruct (New_holds 10000) as (s & En & El & HP); [lia|].
  destruct (set_all_spec [69; 70; 200; 5000] s _ HP) as (other & Eo & _ & Ho); [rewrite El; reflexivity|].
  destruct (sparse_ops_refine 10000 [OSet 69; OSet 4100; OGetAndSet 9000; OClear 4100; OClearRange 4000 9000; ONextSetBit 0 None;
      OEquals other (mem_list [69; 70; 200; 5000]); OOr other (mem_list [69; 70; 200; 5000]);
             OCardinality] s) as (rs & s' & Er & Ha & _).
  - lia.
  - assert (Hother : holds other (mem_list [69; 70; 200; 5000])).
    { eapply holds_ext; [|exact Ho]. intros i Hi. apply orb_false_r. }
    repeat (constructor; [exact Logic.I|]). repeat (constructor; [exact Hother|]).
    repeat (constructor; [exact Logic.I|]). constructor.
  - exact En.
  - vm_compute in En. injection En as <-. vm_compute in Eo. injection Eo as <-. vm_compute. reflexivity.
  - exists s, other, rs, s'. split; [exact En|]. split; [exact Eo|]. split; [exact Er|exact Ha].
Defined.

(** The ends of a range are cut to the set, but a range that lies past its end is
    not empty then: [ClearRange(200, 300)] clears positions of a set of length 100. *)
Example ClearRange_past_the_end :
  (s ← NewSparseFixedBitSet 100; s ← set_all [60; 64; 99] s; s ← ClearRange 200 300 s;
   x0 ← Get 60 s; x1 ← Get 64 s; x2 ← Get 99 s; mret [x0; x1; x2]) = Ret [true; false; false].
Proof. vm_compute. reflexivity. Qed.

(** [Equals] compares the arrays with their spare room: sets of the same positions
    can differ for it. *)
Example Equals_incomplete :
  (a ← NewSparseFixedBitSet 100; a ← set_all [5] a;
   b ← NewSparseFixedBitSet 100; b ← set_all [5; 70] b; b ← Clear 70 b;
   x ← NextSetBit 0 None a; y ← NextSetBit 0 None b; e ← Equals a b;
   mret (x, y, Cardinality a, Cardinality b, e)) = Ret (5, 5, 1, 1, false).
Proof. vm_compute. reflexivity. Qed.
