(* ===== verification/DocIdSetIterator.v ===== *)
(** Iterators over document numbers ([util/doc_id_set_iterator.go],
    [search/doc_id_set_iterator.go], [search/two_phase_iterator.go]): the
    interface with its laws, what works over any iterator that obeys them, and
    the first implementations. *)

From stdpp Require Import base tactics numbers list sorting.
From Stdlib Require Import ZArith Lia Sorted.
From Stdlib Require Import SpecFloat.
From S2P Require Import Prelude WordBits FixedBitSet.

Local Open Scope Z_scope.

Definition NO_MORE_DOCS : Z := 2147483647.

(** * The interface

    A method that moves the iterator returns the document and the iterator after
    it. After an error the iterator is not used any more. *)

Class DocIdSetIterator (It : Type) := {
  DocID : It → Z;
  NextDoc : It → M (Z * It);
  Advance : Z → It → M (Z * It);
  Cost : It → Z
}.

(** Enough for every loop that goes to a greater document number each time. *)
Definition all_docs : positive := 2147483649.

(** ** Functions over any iterator *)

Definition SlowAdvance `{DocIdSetIterator It} (target : Z) (it : It) : M (Z * It) :=
  go_loop all_docs (fun it =>
    '(doc, it) ← NextDoc it;
    mret (if target <=? doc then inr (doc, it) else inl it)) it.

Definition DefaultIntoBitSet `{DocIdSetIterator It} (upTo : Z) (bitSet : FixedBitSet) (offset : Z) (it : It)
  : M (FixedBitSet * It) :=
  go_loop all_docs (fun '(doc, bitSet, it) =>
    if doc <? upTo then
      bitSet ← FBSet (doc - offset) bitSet;
      '(next, it) ← NextDoc it;
      mret (inl (next, bitSet, it))
    else mret (inr (bitSet, it))) (DocID it, bitSet, it).

Definition DefaultDocIDRunEnd `{DocIdSetIterator It} (it : It) : Z := DocID it + 1.

(** * Ranges *)

Record RangeDocIdSetIterator := { Doc : Z; minDoc : Z; maxDoc : Z }.

Definition set_doc (d : Z) (r : RangeDocIdSetIterator) : RangeDocIdSetIterator :=
  {| Doc := d; minDoc := minDoc r; maxDoc := maxDoc r |}.

Definition NewRangeDocIdSetIterator (minDoc maxDoc : Z) : RangeDocIdSetIterator :=
  {| Doc := -1; minDoc := minDoc; maxDoc := maxDoc |}.

Definition range_Advance (target : Z) (r : RangeDocIdSetIterator) : M (Z * RangeDocIdSetIterator) :=
  let r := if maxDoc r <=? target then set_doc NO_MORE_DOCS r
           else if target <? minDoc r then set_doc (minDoc r) r
           else set_doc target r in
  mret (Doc r, r).

Definition range_NextDoc (r : RangeDocIdSetIterator) : M (Z * RangeDocIdSetIterator) := range_Advance (Doc r + 1) r.

#[export] Instance range_iterator : DocIdSetIterator RangeDocIdSetIterator := {
  DocID := Doc;
  NextDoc := range_NextDoc;
  Advance := range_Advance;
  Cost r := maxDoc r - minDoc r
}.

Definition range_IntoBitSet (upTo : Z) (bitSet : FixedBitSet) (offset : Z) (r : RangeDocIdSetIterator)
  : M (FixedBitSet * RangeDocIdSetIterator) :=
  if Doc r <? upTo then
    let limit := upTo in
    let limit := if maxDoc r <? limit then maxDoc r else limit in
    if Doc r <? limit then
      bitSet ← SetRange (Doc r - offset) (limit - offset) bitSet;
      '(_, r) ← range_Advance limit r;
      mret (bitSet, r)
    else mret (bitSet, r)
  else mret (bitSet, r).

Definition range_DocIDRunEnd (r : RangeDocIdSetIterator) : Z := maxDoc r.

Definition Empty : RangeDocIdSetIterator := NewRangeDocIdSetIterator 0 0.

Definition All (maxDoc : Z) : M RangeDocIdSetIterator :=
  if maxDoc <? 0 then Panic else mret (NewRangeDocIdSetIterator 0 maxDoc).

Definition Range (minDoc maxDoc : Z) : M RangeDocIdSetIterator :=
  if maxDoc <=? minDoc then Panic else
  if minDoc <? 0 then Panic else mret (NewRangeDocIdSetIterator minDoc maxDoc).

(** * Two phases

    A [TwoPhaseVerifier] says whether the document that the approximation is on
    matches, and what it costs to find out, a [float32] (a [spec_float] of 24 bits). *)

Local Abbreviation float32 := spec_float.

Record TwoPhaseVerifier := { matches : Z → M bool; matchCost : float32 }.

Record TwoPhaseIterator (It : Type) := { approximation : It; verifier : TwoPhaseVerifier }.
Arguments approximation {It} t.
Arguments verifier {It} t.

Definition NewTwoPhaseIterator {It} (approx : It) (v : TwoPhaseVerifier) : TwoPhaseIterator It :=
  {| approximation := approx; verifier := v |}.

Definition NewTwoPhaseIteratorWithMatchCost {It} (approx : It) (matches : Z → M bool) (matchCost : float32)
  : TwoPhaseIterator It := NewTwoPhaseIterator approx {| matches := matches; matchCost := matchCost |}.

Definition Matches `{DocIdSetIterator It} (t : TwoPhaseIterator It) : M bool :=
  matches (verifier t) (DocID (approximation t)).

Definition MatchCost {It} (t : TwoPhaseIterator It) : float32 := matchCost (verifier t).

Definition set_approximation {It} (it : It) (t : TwoPhaseIterator It) : TwoPhaseIterator It :=
  {| approximation := it; verifier := verifier t |}.

(** [twoPhaseIteratorAsDocIdSetIterator] *)
Definition two_phase_doNext `{DocIdSetIterator It} (doc : Z) (t : TwoPhaseIterator It) : M (Z * TwoPhaseIterator It) :=
  go_loop all_docs (fun '(doc, t) =>
    if doc =? NO_MORE_DOCS then mret (inr (NO_MORE_DOCS, t)) else
    match_ ← Matches t;
    if (match_ : bool) then mret (inr (doc, t)) else
    '(doc, it) ← NextDoc (approximation t);
    mret (inl (doc, set_approximation it t))) (doc, t).

Definition two_phase_NextDoc `{DocIdSetIterator It} (t : TwoPhaseIterator It) : M (Z * TwoPhaseIterator It) :=
  '(doc, it) ← NextDoc (approximation t); two_phase_doNext doc (set_approximation it t).

Definition two_phase_Advance `{DocIdSetIterator It} (target : Z) (t : TwoPhaseIterator It) : M (Z * TwoPhaseIterator It) :=
  '(doc, it) ← Advance target (approximation t); two_phase_doNext doc (set_approximation it t).

#[export] Instance two_phase_iterator `{DocIdSetIterator It} : DocIdSetIterator (TwoPhaseIterator It) := {
  DocID t := DocID (approximation t);
  NextDoc := two_phase_NextDoc;
  Advance := two_phase_Advance;
  Cost t := Cost (approximation t)
}.

(** [TwoPhaseIterator.IntoBitSet] *)
Definition two_phase_IntoBitSet `{DocIdSetIterator It} (upTo : Z) (bitSet : FixedBitSet) (offset : Z) (t : TwoPhaseIterator It)
  : M (FixedBitSet * TwoPhaseIterator It) :=
  go_loop all_docs (fun '(doc, bitSet, t) =>
    if doc <? upTo then
      match_ ← Matches t;
      bitSet ← (if (match_ : bool) then FBSet (doc - offset) bitSet else mret bitSet);
      '(doc, it) ← NextDoc (approximation t);
      mret (inl (doc, bitSet, set_approximation it t))
    else mret (inr (bitSet, t))) (DocID (approximation t), bitSet, t).

(** A value of one of two iterator types. *)
#[export] Instance sum_iterator {A B} `{DocIdSetIterator A, DocIdSetIterator B} : DocIdSetIterator (A + B) := {
  DocID it := match it with inl a => DocID a | inr b => DocID b end;
  NextDoc it := match it with
                | inl a => '(d, a) ← NextDoc a; mret (d, inl a)
                | inr b => '(d, b) ← NextDoc b; mret (d, inr b)
                end;
  Advance target it := match it with
                | inl a => '(d, a) ← Advance target a; mret (d, inl a)
                | inr b => '(d, b) ← Advance target b; mret (d, inr b)
                end;
  Cost it := match it with inl a => Cost a | inr b => Cost b end
}.

(** All documents of an iterator. *)
Definition scan `{DocIdSetIterator It} (it : It) : M (list Z) :=
  go_loop all_docs (fun '(docs, it) =>
    '(doc, it) ← NextDoc it;
    mret (if doc =? NO_MORE_DOCS then inr docs else inl (docs ++ [doc], it))) ([], it).

Example scan_run :
  (r ← Range 3 12;
   let t := NewTwoPhaseIterator r {| matches := fun d => mret (Z.even d); matchCost := S754_zero false |} in
   '(d, t) ← Advance 5 t; docs ← scan t;
   mret (d, docs)) = Ret (6, [8; 10]).
Proof. vm_compute. reflexivity. Qed.

(** * The laws

    [first_doc P from d]: [d] is the first document of [P] from [from] on, or
    [NO_MORE_DOCS]. *)

Definition first_doc (P : Z → bool) (from d : Z) : Prop :=
  from ≤ d ≤ NO_MORE_DOCS ∧ (d < NO_MORE_DOCS → P d = true) ∧ ∀ i, from ≤ i < d → P i = false.

(** What a result of moving [it] to the first document from [from] on has to be. *)
Definition moves {It : Type} (pos : It → Z) (denotes : It → (Z → bool) → Prop) (reliable : It → Prop)
    (it : It) (P : Z → bool) (from : Z) (r : Z * It) : Prop :=
  let '(d, it') := r in
  denotes it' P ∧ pos it' = d ∧ (reliable it → reliable it') ∧ first_doc P from d.

(** An iterator denotes a set of documents; it is before the first one, on one of
    them, or after the last one, and moves to the first one from a target
    beyond its position on. It may fail with an error unless it is [reliable]
    (it may read a file). *)
Class Lawful (It : Type) `{DocIdSetIterator It} := {
  denotes : It → (Z → bool) → Prop;
  reliable : It → Prop;
  denotes_ext it P Q : (∀ i, P i = Q i) → denotes it P → denotes it Q;
  position it P : denotes it P →
    -1 ≤ DocID it ≤ NO_MORE_DOCS ∧ (0 ≤ DocID it < NO_MORE_DOCS → P (DocID it) = true);
  NextDoc_moves it P : denotes it P → DocID it < NO_MORE_DOCS →
    wp (reliable it) (NextDoc it) (moves DocID denotes reliable it P (DocID it + 1));
  Advance_moves target it P : denotes it P → DocID it < target ≤ NO_MORE_DOCS →
    wp (reliable it) (Advance target it) (moves DocID denotes reliable it P target)
}.

Lemma first_doc_end P from : from ≤ NO_MORE_DOCS → (∀ i, from ≤ i < NO_MORE_DOCS → P i = false) → first_doc P from NO_MORE_DOCS.
Proof. intros Hf H. split_and!; [done|done|lia|done]. Qed.

Lemma first_doc_ext P Q from d : (∀ i, from ≤ i < NO_MORE_DOCS → P i = Q i) → first_doc P from d → first_doc Q from d.
Proof.
  intros H (Hd & Hm & Hn). split_and!; [lia|lia| |].
  - intros. rewrite <- H by lia. by apply Hm.
  - intros i Hi. rewrite <- H by lia. by apply Hn.
Qed.

(** No documents up to [mid], and [d] is the first one from there on. *)
Lemma first_doc_skip P from mid d : from ≤ mid → (∀ i, from ≤ i < mid → P i = false) → first_doc P mid d → first_doc P from d.
Proof.
  intros Hle H (Hd & Hm & Hn). split_and!; [lia|lia|done|].
  intros i Hi. destruct (Z.lt_ge_cases i mid); [apply H; lia|apply Hn; lia].
Qed.

(** Two first documents from one place on are the same. *)
Lemma first_doc_unique P from d e : first_doc P from d → first_doc P from e → d = e.
Proof.
  intros (Hd & Hm & Hn) (He & Hm' & Hn'). destruct (Z.lt_trichotomy d e) as [Hlt|[|Hlt]]; [|done|].
  - rewrite Hn' in Hm by lia. specialize (Hm ltac:(lia)). done.
  - rewrite Hn in Hm' by lia. specialize (Hm' ltac:(lia)). done.
Qed.

(** * The implementations obey the laws *)

Definition between (lo hi i : Z) : bool := (lo <=? i) && (i <? hi).

Record range_denotes (r : RangeDocIdSetIterator) (P : Z → bool) : Prop := {
  rd_bounds : 0 ≤ minDoc r ∧ (minDoc r < maxDoc r ∨ minDoc r = 0 ∧ maxDoc r = 0) ∧ maxDoc r ≤ NO_MORE_DOCS;
  rd_docs i : P i = between (minDoc r) (maxDoc r) i;
  rd_position : Doc r = -1 ∨ Doc r = NO_MORE_DOCS ∨ minDoc r ≤ Doc r < maxDoc r
}.

Lemma range_moves r P target :
  range_denotes r P → 0 ≤ target ≤ NO_MORE_DOCS →
  wp True (range_Advance target r) (moves Doc range_denotes (fun _ => True) r P target).
Proof.
  intros [Hb Hd Hp] Ht. unfold range_Advance, moves. cbn -[NO_MORE_DOCS].
  destruct (Z.leb_spec (maxDoc r) target), (Z.ltb_spec target (minDoc r)); try lia;
    cbn [set_doc Doc minDoc maxDoc]; (split; [split; cbn [set_doc Doc minDoc maxDoc]; [done|done|lia]|]);
    (split; [done|split; [done|]]).
  - apply first_doc_end; [lia|]. intros i Hi. rewrite Hd. unfold between. by rewrite (proj2 (Z.ltb_ge _ _)), andb_false_r by lia.
  - split_and!; [lia|lia| |].
    + intros Hlt. rewrite Hd. unfold between. by rewrite (proj2 (Z.leb_le _ _)), (proj2 (Z.ltb_lt _ _)) by lia.
    + intros i Hi. rewrite Hd. unfold between. by rewrite (proj2 (Z.leb_gt _ _)) by lia.
  - split_and!; [lia|lia| |].
    + intros _. rewrite Hd. unfold between. by rewrite (proj2 (Z.leb_le _ _)), (proj2 (Z.ltb_lt _ _)) by lia.
    + intros i Hi. lia.
Qed.

#[export, refine] Instance range_lawful : Lawful RangeDocIdSetIterator := {
  denotes := range_denotes;
  reliable _ := True
}.
Proof.
  - intros r P Q HPQ [Hb Hd Hp]. split; [done| |done]. intros i. by rewrite <- HPQ.
  - intros r P [Hb Hd Hp]. cbn. split; [lia|]. intros Hr. rewrite Hd. unfold between.
    by rewrite (proj2 (Z.leb_le _ _)), (proj2 (Z.ltb_lt _ _)) by lia.
  - intros r P HD Hlt. apply range_moves; [done|]. destruct HD as [? ? Hp]. cbn in *. lia.
  - intros target r P HD Ht. apply range_moves; [done|]. destruct HD as [? ? Hp]. cbn in *. lia.
Defined.

(** A result for [it] gives one for a wrapper of it. *)
Lemma moves_wrap {A B} (posA : A → Z) dA relA (posB : B → Z) dB relB (f : A → B) a b P Q from d a' :
  moves posA dA relA a P from (d, a') →
  posB (f a') = posA a' → (dA a' P → dB (f a') Q) → (relB b → relA a) → (relA a' → relB (f a')) →
  (∀ i, P i = Q i) → moves posB dB relB b Q from (d, f a').
Proof.
  intros (H1 & H2 & H3 & H4) Hp Hd Hr1 Hr2 HPQ. split_and!; [by apply Hd|congruence|tauto|].
  apply first_doc_ext with P; [intros; apply HPQ|done].
Qed.

#[export, refine] Instance sum_lawful {A B} `{Lawful A, Lawful B} : Lawful (A + B) := {
  denotes it P := match it with inl a => denotes a P | inr b => denotes b P end;
  reliable it := match it with inl a => reliable a | inr b => reliable b end
}.
Proof.
  - intros [a|b] P Q HPQ; by apply denotes_ext.
  - intros [a|b] P; cbn; apply position.
  - intros [a|b] P HD Hlt; apply wp_bind; (eapply wp_mono; [by apply NextDoc_moves|done|]); by intros [d it'].
  - intros target [a|b] P HD Hlt; apply wp_bind; (eapply wp_mono; [by apply Advance_moves|done|]); by intros [d it'].
Defined.

(** ** Two phases: the documents of the approximation that the verifier accepts *)

(** On the documents of [PA], a verifier answers [PM] or fails. *)
Definition verifies (m : Z → M bool) (PA PM : Z → bool) : Prop :=
  ∀ d, 0 ≤ d < NO_MORE_DOCS → PA d = true → m d = Ret (PM d) ∨ ∃ e, m d = Err e.

Definition never_fails (m : Z → M bool) : Prop := ∀ d e, m d ≠ Err e.

Section two_phase.
Context {It : Type} `{Lawful It}.

Definition two_phase_denotes (t : TwoPhaseIterator It) (P : Z → bool) : Prop :=
  ∃ PA PM, denotes (approximation t) PA ∧ (∀ i, P i = PA i && PM i) ∧ verifies (matches (verifier t)) PA PM ∧
    (0 ≤ DocID (approximation t) < NO_MORE_DOCS → PM (DocID (approximation t)) = true).

Definition two_phase_reliable (t : TwoPhaseIterator It) : Prop :=
  reliable (approximation t) ∧ never_fails (matches (verifier t)).

Lemma two_phase_doNext_moves t PA PM P from doc it :
  denotes it PA → DocID it = doc → (two_phase_reliable t → reliable it) →
  (∀ i, P i = PA i && PM i) → verifies (matches (verifier t)) PA PM → 0 ≤ from → first_doc PA from doc →
  wp (two_phase_reliable t) (two_phase_doNext doc (set_approximation it t))
    (moves (fun t => DocID (approximation t)) two_phase_denotes two_phase_reliable t P from).
Proof.
  intros HD Hp Hr HP HV Hf HF. unfold two_phase_doNext.
  apply (go_loop_wp _ (fun '(doc, t') => verifier t' = verifier t ∧ denotes (approximation t') PA ∧
    DocID (approximation t') = doc ∧ (two_phase_reliable t → reliable (approximation t')) ∧
    from ≤ doc ≤ NO_MORE_DOCS ∧ ∀ i, from ≤ i < doc → P i = false) (fun '(doc, _) => NO_MORE_DOCS - doc)).
  - destruct HF as (Hle & _ & Hn). split_and!; [done|done|done|done|lia|lia|]. intros i Hi. by rewrite HP, Hn.
  - destruct HF. unfold NO_MORE_DOCS, all_docs in *. lia.
  - intros [d t']. lia.
  - clear dependent it doc. intros [doc t'] (Em & HD & Hp & Hr & Hle & Hn). unfold Matches. rewrite Em, Hp.
    destruct (Z.eqb_spec doc NO_MORE_DOCS) as [->|Hne].
    + cbn -[NO_MORE_DOCS]. split_and!; [|done| |].
      * exists PA, PM. rewrite Em. split_and!; [done..|lia].
      * intros Hrel. split; [by apply Hr|rewrite Em; apply Hrel].
      * apply first_doc_end; [lia|done].
    + assert (Hin : PA doc = true) by (rewrite <- Hp; apply (position _ _ HD); lia).
      destruct (HV doc) as [->|[e Ee]]; [lia|done| |].
      2: { rewrite Ee. intros Hrel. by apply (proj2 Hrel doc e). }
      rewrite go_bind_ret. destruct (PM doc) eqn:Epm.
      * cbn. split_and!; [|done| |].
        -- exists PA, PM. rewrite Em, Hp. done.
        -- intros Hrel. split; [by apply Hr|rewrite Em; apply Hrel].
        -- split_and!; [lia|lia| |done]. intros _. by rewrite HP, Epm, Hin.
      * apply wp_bind. eapply wp_mono; [apply (NextDoc_moves (approximation t') PA HD); lia|done|].
        intros [d it'] (HD' & Hp' & Hr' & HF). cbn. destruct HF as (Hd & Hm & Hn'). rewrite Hp in Hd, Hn'.
        split; [|lia]. split_and!; [done..|by intros; apply Hr', Hr|lia|lia|].
        intros i Hi. destruct (Z.lt_ge_cases i doc); [apply Hn; lia|]. rewrite HP.
        destruct (Z.eq_dec i doc) as [->|]; [by rewrite Epm, andb_false_r|by rewrite Hn' by lia].
Qed.

#[export, refine] Instance two_phase_lawful : Lawful (TwoPhaseIterator It) := {
  denotes := two_phase_denotes;
  reliable := two_phase_reliable
}.
Proof.
  - intros t P Q HPQ (PA & PM & H1 & H2 & H3 & H4). exists PA, PM. split_and!; try done. intros i. by rewrite <- HPQ.
  - intros t P (PA & PM & HD & HP & HV & Hpos). cbn. destruct (position _ _ HD) as [H1 H2]. split; [done|].
    intros Hr. by rewrite HP, H2, Hpos.
  - intros t P (PA & PM & HD & HP & HV & Hpos) Hlt. cbn in *. destruct (position _ _ HD) as [Hp _]. apply wp_bind.
    eapply wp_mono; [by apply NextDoc_moves|by intros []|]. intros [d it'] (HD' & Hp' & Hr' & HF).
    apply two_phase_doNext_moves with PA PM; try done; [|lia]. intros [? _]. by apply Hr'.
  - intros target t P (PA & PM & HD & HP & HV & Hpos) Hlt. cbn in *. destruct (position _ _ HD) as [Hp _]. apply wp_bind.
    eapply wp_mono; [by apply Advance_moves|by intros []|]. intros [d it'] (HD' & Hp' & Hr' & HF).
    apply two_phase_doNext_moves with PA PM; try done; [|lia]. intros [? _]. by apply Hr'.
Defined.
End two_phase.

(** * What works over any lawful iterator *)

Section clients.
Context {It : Type} `{Lawful It}.

Lemma SlowAdvance_moves it P target :
  denotes it P → DocID it < target ≤ NO_MORE_DOCS →
  wp (reliable it) (SlowAdvance target it) (moves DocID denotes reliable it P target).
Proof.
  intros HD Ht. unfold SlowAdvance.
  apply (go_loop_wp _ (fun it' => denotes it' P ∧ DocID it' < target ∧ (reliable it → reliable it'))
    (fun it' => target - DocID it')).
  - split_and!; [done|lia|done].
  - destruct (position _ _ HD). unfold NO_MORE_DOCS, all_docs in *. lia.
  - intros it'. lia.
  - intros it' (HD' & Hlt & Hr). apply wp_bind.
    eapply wp_mono; [apply (NextDoc_moves it' P HD'); lia|done|].
    intros [d it2] (HD2 & Hp2 & Hr2 & Hd & Hm & Hn). cbn. destruct (Z.leb_spec target d); cbn.
    + split_and!; [done|done|tauto|]. split_and!; [lia|lia|done|]. intros i Hi. apply Hn. lia.
    + split; [|lia]. split_and!; [done|lia|tauto].
Qed.

(** A scan finds the documents after the position, in order. *)
Lemma scan_lists it P :
  denotes it P → DocID it < NO_MORE_DOCS →
  wp (reliable it) (scan it) (fun l =>
    StronglySorted Z.lt l ∧ ∀ i, i ∈ l ↔ DocID it < i < NO_MORE_DOCS ∧ P i = true).
Proof.
  intros HD Hlt. unfold scan.
  apply (go_loop_wp _ (fun '(l, it') => denotes it' P ∧ DocID it ≤ DocID it' < NO_MORE_DOCS ∧
      (reliable it → reliable it') ∧ StronglySorted Z.lt l ∧
      ∀ i, i ∈ l ↔ DocID it < i ≤ DocID it' ∧ P i = true)
    (fun '(_, it') => NO_MORE_DOCS - DocID it')).
  - split_and!; [done|lia|lia|done|constructor|]. intros i. split; [by intros ?%not_elem_of_nil|lia].
  - destruct (position _ _ HD). unfold NO_MORE_DOCS, all_docs in *. lia.
  - intros [l it']. lia.
  - intros [l it'] (HD' & Hpos & Hr & Hs & Hl). apply wp_bind.
    eapply wp_mono; [apply (NextDoc_moves it' P HD'); lia|done|].
    intros [d it2] (HD2 & Hp2 & Hr2 & Hd & Hm & Hn). cbn -[NO_MORE_DOCS].
    destruct (Z.eqb_spec d NO_MORE_DOCS) as [->|Hne]; cbn -[NO_MORE_DOCS].
    + split; [done|]. intros i. rewrite Hl. split; [intros; split; [lia|tauto]|].
      intros [Hi HP]. split; [|done]. destruct (Z.le_gt_cases i (DocID it')); [lia|].
      by rewrite Hn in HP by lia.
    + split; [|lia]. split_and!; [done|lia|lia|tauto| |].
      * apply StronglySorted_app_2; [|done|by repeat constructor].
        intros x y Hx%Hl Hy%list_elem_of_singleton. lia.
      * intros i. rewrite elem_of_app, Hl, list_elem_of_singleton. split.
        -- intros [[Hi HP]| ->]; [split; [lia|done]|]. split; [lia|apply Hm; lia].
        -- intros [Hi HP]. destruct (Z.le_gt_cases i (DocID it')); [left; split; [lia|done]|].
           right. destruct (Z.lt_ge_cases i d); [by rewrite Hn in HP by lia|lia].
Qed.

(** Loading the documents from the position up to [upTo] into a bit set. *)
Definition loads (it : It) (P : Z → bool) (upTo offset : Z) (bitSet : FixedBitSet) (r : FixedBitSet * It) : Prop :=
  let '(bitSet', it') := r in
  becomes bitSet (fun j => fbit bitSet j || (P (j + offset) && between (DocID it) upTo (j + offset))) bitSet' ∧
  denotes it' P ∧ first_doc P (Z.max (DocID it) upTo) (DocID it').

Lemma FBSet_becomes i fs : wf fs → 0 ≤ i < size fs →
  ∃ fs', FBSet i fs = Ret fs' ∧ becomes fs (fun j => fbit fs j || (j =? i)) fs'.
Proof.
  intros W Hi. pose proof (update_bit_spec Z.lor orb i fs _ orb_false_r W) as Hs.
  rewrite (proj2 (in_range_spec _ _)) in Hs by done. destruct Hs as (fs' & E & Hb). exists fs'. split; [done|].
  eapply becomes_ext; [|done]. intros j Hj. cbn. destruct (Z.eqb_spec j i) as [->|]; [done|by rewrite orb_false_r].
Qed.

Lemma DefaultIntoBitSet_loads it P upTo offset bitSet :
  denotes it P → 0 ≤ DocID it → upTo ≤ NO_MORE_DOCS → wf bitSet → offset ≤ DocID it → upTo - offset ≤ size bitSet →
  wp (reliable it) (DefaultIntoBitSet upTo bitSet offset it) (loads it P upTo offset bitSet).
Proof.
  intros HD Hz Hup W Hoff Hsize. unfold DefaultIntoBitSet. destruct (position _ _ HD) as [Hpos _].
  apply (go_loop_wp _ (fun '(doc, bs, it') => denotes it' P ∧ DocID it' = doc ∧ DocID it ≤ doc ∧
      (reliable it → reliable it') ∧ (Z.max (DocID it) upTo ≤ doc → first_doc P (Z.max (DocID it) upTo) doc) ∧
      becomes bitSet (fun j => fbit bitSet j || (P (j + offset) && between (DocID it) (Z.min doc upTo) (j + offset))) bs)
    (fun '(doc, _, _) => NO_MORE_DOCS - doc)).
  - split_and!; [done|done|lia|done| |].
    + intros Hle. split_and!; [lia|lia| |lia]. intros Hlt. apply (position _ _ HD). lia.
    + split_and!; [done|done|]. intros j Hj. unfold between.
      destruct (Z.leb_spec (DocID it) (j + offset)), (Z.ltb_spec (j + offset) (Z.min (DocID it) upTo));
        cbn; rewrite ?andb_false_r, ?orb_false_r; (done || lia).
  - unfold NO_MORE_DOCS, all_docs in *. lia.
  - intros [[doc bs] it'] (HD' & <- & _). destruct (position _ _ HD'). lia.
  - intros [[doc bs] it'] (HD' & Hp' & Hge & Hr & Hfirst & Hb). destruct (Z.ltb_spec doc upTo) as [Hlt|Hge2].
    + destruct Hb as (W' & Hs' & Hb'). destruct (FBSet_becomes (doc - offset) bs W') as (bs2 & -> & W2 & Hs2 & Hb2); [lia|].
      rewrite go_bind_ret. apply wp_bind. eapply wp_mono; [apply (NextDoc_moves it' P HD'); lia|done|].
      intros [d it2] (HD2 & Hp2 & Hr2 & Hd & Hm & Hn). cbn. split; [|lia].
      split_and!; [done|done|lia|tauto| |].
      * intros Hle. split_and!; [lia|lia|done|]. intros i Hi. apply Hn. lia.
      * split; [done|split; [congruence|]]. intros j Hj. rewrite Hb2, Hb' by lia. rewrite <- orb_assoc. f_equal. unfold between.
        destruct (Z.eqb_spec j (doc - offset)) as [->|Hne].
        -- replace (doc - offset + offset) with doc by lia. rewrite orb_true_r.
           assert (P doc = true) as ->.
           { destruct (position _ _ HD') as [_ Hin]. rewrite Hp' in Hin. apply Hin. lia. }
           by rewrite (proj2 (Z.leb_le _ _)), (proj2 (Z.ltb_lt _ _)) by lia.
        -- rewrite orb_false_r. destruct (P (j + offset)) eqn:EP; [|done]. cbn [andb]. f_equal.
           destruct (Z.ltb_spec (j + offset) (Z.min doc upTo)), (Z.ltb_spec (j + offset) (Z.min d upTo)); try done; try lia.
           by rewrite Hn in EP by lia.
    + cbn. rewrite Z.min_r in Hb by lia. split_and!; [done|done|].
      rewrite Hp'. apply Hfirst. lia.
Qed.
End clients.

(** ** Ranges load themselves in one step *)

Lemma range_IntoBitSet_loads r P upTo offset bitSet :
  denotes r P → 0 ≤ DocID r → upTo ≤ NO_MORE_DOCS → wf bitSet → offset ≤ DocID r → upTo - offset ≤ size bitSet →
  ∃ res, range_IntoBitSet upTo bitSet offset r = Ret res ∧ loads r P upTo offset bitSet res.
Proof.
  intros HD Hz Hup W Hoff Hsize. destruct (position _ _ HD) as [Hpos _]. destruct HD as [Hb Hd Hp].
  cbn [DocID range_iterator] in *. pose proof (wf_size _ W) as Hs0.
  assert (Hstay : Doc r = NO_MORE_DOCS ∨ upTo ≤ Doc r → loads r P upTo offset bitSet (bitSet, r)).
  { intros Hcase. cbn. split_and!; [|by split|].
    - split; [done|split; [done|]]. intros j Hj. unfold between.
      destruct (Z.leb_spec (Doc r) (j + offset)), (Z.ltb_spec (j + offset) upTo); cbn;
        rewrite ?andb_false_r, ?orb_false_r; try done; lia.
    - split_and!; [lia|lia| |lia]. intros Hlt. rewrite Hd. unfold between.
      by rewrite (proj2 (Z.leb_le _ _)), (proj2 (Z.ltb_lt _ _)) by lia. }
  unfold range_IntoBitSet. destruct (Z.ltb_spec (Doc r) upTo) as [Hlt|Hge].
  2: { eexists. split; [done|]. apply Hstay. by right. }
  set (limit := if maxDoc r <? upTo then maxDoc r else upTo).
  assert (Hlimit : limit = Z.min (maxDoc r) upTo) by (unfold limit; destruct (Z.ltb_spec (maxDoc r) upTo); lia).
  destruct (Z.ltb_spec (Doc r) limit) as [Hlt2|Hge2].
  2: { eexists. split; [done|]. apply Hstay. left. lia. }
  pose proof (SetRange_spec (Doc r - offset) (limit - offset) bitSet W) as Hset. unfold valid_range in Hset.
  rewrite !(proj2 (Z.leb_le _ _)) in Hset by lia. destruct Hset as (bs & -> & W' & Hs' & Hb').
  rewrite go_bind_ret.
  pose proof (range_moves r P limit ltac:(by split) ltac:(lia)) as Hm.
  destruct (range_Advance limit r) as [[d r']| | |]; try done. cbn -[NO_MORE_DOCS] in Hm |- *.
  destruct Hm as (HD' & Hp' & _ & HF). eexists. split; [done|]. cbn -[NO_MORE_DOCS]. split_and!; [|done|].
  - split; [done|split; [done|]]. intros j Hj. rewrite Hb' by done. unfold between. rewrite Hd. unfold between.
    destruct (Z.leb_spec (Doc r - offset) j), (Z.ltb_spec j (limit - offset)), (Z.leb_spec (minDoc r) (j + offset)),
      (Z.ltb_spec (j + offset) (maxDoc r)), (Z.leb_spec (Doc r) (j + offset)), (Z.ltb_spec (j + offset) upTo);
      cbn; rewrite ?orb_false_r, ?orb_true_r; try done; lia.
  - rewrite Hp'. destruct HF as (Hd1 & Hd2 & Hd3). split_and!; [|lia|done|intros; apply Hd3; lia].
    destruct (Z.lt_ge_cases d upTo) as [Hlt3|]; [|lia]. exfalso. specialize (Hd2 ltac:(lia)).
    rewrite Hd in Hd2. unfold between in Hd2. rewrite (proj2 (Z.ltb_ge d (maxDoc r))), andb_false_r in Hd2 by lia. done.
Qed.

(** Loading a range of documents into a bit set with one call of [SetRange] does
    what the inherited loop does that sets one bit per document: the same bits,
    for the documents from the position on and below the bound, shifted down by
    the offset, and the same position afterwards. *)
Theorem range_IntoBitSet_equivalent (r : RangeDocIdSetIterator) (P : Z → bool) (upTo offset : Z) (bitSet : FixedBitSet) :
  range_denotes r P → 0 ≤ Doc r → upTo ≤ NO_MORE_DOCS → wf bitSet → offset ≤ Doc r → upTo - offset ≤ size bitSet →
  ∃ b1 r1 b2 r2,
    DefaultIntoBitSet upTo bitSet offset r = Ret (b1, r1) ∧ range_IntoBitSet upTo bitSet offset r = Ret (b2, r2) ∧
    Doc r1 = Doc r2 ∧ wf b1 ∧ wf b2 ∧
    ∀ j, 0 ≤ j < size bitSet →
      fbit b1 j = (fbit bitSet j || (P (j + offset) && between (Doc r) upTo (j + offset))) ∧ fbit b2 j = fbit b1 j.
Proof.
  intros HD Hz Hup W Hoff Hsize.
  pose proof (DefaultIntoBitSet_loads r P upTo offset bitSet HD Hz Hup W Hoff Hsize) as H1.
  destruct (wp_Ret _ _ _ H1 Logic.I) as ([b1 r1] & E1 & (W1 & Hs1 & Hb1) & HD1 & HF1).
  destruct (range_IntoBitSet_loads r P upTo offset bitSet HD Hz Hup W Hoff Hsize) as ([b2 r2] & E2 & (W2 & Hs2 & Hb2) & HD2 & HF2).
  exists b1, r1, b2, r2. split_and!; [done|done| |done|done|].
  - by apply (first_doc_unique _ _ _ _ HF1).
  - intros j Hj. rewrite Hb1, Hb2 by done. done.
Qed.

Lemma range_IntoBitSet_equivalent_witness :
  ∃ bitSet b1 r1 b2 r2, let r := {| Doc := 40; minDoc := 10; maxDoc := 200 |} in
    NewFixedBitSet 64 = Ret bitSet ∧
    DefaultIntoBitSet 90 bitSet 30 r = Ret (b1, r1) ∧ range_IntoBitSet 90 bitSet 30 r = Ret (b2, r2) ∧ Doc r1 = Doc r2.
Proof.
  destruct (NewFixedBitSet_spec 64) as (bitSet & En & W & Hs & _); [lia|].
  destruct (range_IntoBitSet_equivalent {| Doc := 40; minDoc := 10; maxDoc := 200 |} (between 10 200) 90 30 bitSet)
    as (b1 & r1 & b2 & r2 & E1 & E2 & Er & _); [|cbn; lia|unfold NO_MORE_DOCS; lia|exact W|cbn; lia|rewrite Hs; lia|].
  { split; cbn; [unfold NO_MORE_DOCS; lia|reflexivity|lia]. }
  exists bitSet, b1, r1, b2, r2. split_and!; [exact En|exact E1|exact E2|exact Er].
Defined.

(** The approximation's runs are handed out as runs of the documents that also
    pass the verifier: here [DocIDRunEnd] promises 0 to 9, of which only the even
    ones match. *)
Definition two_phase_DocIDRunEnd {It} (run_end : It → Z) (t : TwoPhaseIterator It) : Z := run_end (approximation t).

Example two_phase_run_end_wrong :
  (r ← All 10;
   let t := NewTwoPhaseIterator r {| matches := fun d => mret (Z.even d); matchCost := S754_zero false |} in
   '(d, t) ← NextDoc t;
   '(e, _) ← NextDoc t;
   mret (d, two_phase_DocIDRunEnd range_DocIDRunEnd t, e)) = Ret (0, 10, 2).
Proof. vm_compute. reflexivity. Qed.
