(* ===== verification/FixedBitSetOps.v ===== *)
(** Every change to a fixed bit set, with the union with an iterator ([OrIterator] of
    [util/fixed_bit_set.go]), against the set of positions it holds. *)

From stdpp Require Import base tactics numbers list.
From Stdlib Require Import ZArith Lia.
From S2P Require Import Prelude ArrayUtil WordBits FixedBitSet DocIdSetIterator.

Local Open Scope Z_scope.

Definition OrIterator `{DocIdSetIterator It} (it : It) (fs : FixedBitSet) : M (FixedBitSet * It) :=
  go_loop all_docs (fun '(fs, it) =>
    '(doc, it) ← NextDoc it;
    if doc =? NO_MORE_DOCS then mret (inr (fs, it)) else
    fs ← FBSet doc fs;
    mret (inl (fs, it))) (fs, it).

(** * The changes *)

Inductive mutation : Type :=
  | MSet (index : Z)
  | MGetAndSet (index : Z)
  | MClear (index : Z)
  | MGetAndClear (index : Z)
  | MFlip (index : Z)
  | MSetRange (startIndex endIndex : Z)
  | MClearRange (startIndex endIndex : Z)
  | MFlipRange (startIndex endIndex : Z)
  | MClearAll
  | MSetAll
  | MNot
  | MAnd (other : FixedBitSet)
  | MOr (other : FixedBitSet)
  | MXor (other : FixedBitSet)
  | MAndNot (other : FixedBitSet)
  | MOrIterator {It} {D : DocIdSetIterator It} {L : Lawful It} (it : It) (P : Z → bool)
  | MEnsureCapacity (desiredBit : Z)
  | MEnsureCapacityAndClear (desiredBit : Z).

(** The bit set afterwards, and what [GetAndSet] and [GetAndClear] return. *)
Definition run_mutation (m : mutation) (fs : FixedBitSet) : M (option bool * FixedBitSet) :=
  let quiet (r : M FixedBitSet) := fs ← r; mret (None, fs) in
  match m with
  | MSet i => quiet (FBSet i fs)
  | MGetAndSet i => '(b, fs) ← GetAndSet i fs; mret (Some b, fs)
  | MClear i => quiet (Clear i fs)
  | MGetAndClear i => '(b, fs) ← GetAndClear i fs; mret (Some b, fs)
  | MFlip i => quiet (Flip i fs)
  | MSetRange a b => quiet (SetRange a b fs)
  | MClearRange a b => quiet (ClearRange a b fs)
  | MFlipRange a b => quiet (FlipRange a b fs)
  | MClearAll => quiet (mret (ClearAll fs))
  | MSetAll => quiet (SetAll fs)
  | MNot => quiet (Not fs)
  | MAnd o => quiet (And fs o)
  | MOr o => quiet (Or fs o)
  | MXor o => quiet (Xor fs o)
  | MAndNot o => quiet (AndNot fs o)
  | MOrIterator it _ => '(fs, _) ← OrIterator it fs; mret (None, fs)
  | MEnsureCapacity d => quiet (FixedBitSetEnsureCapacity fs d)
  | MEnsureCapacityAndClear d => quiet (EnsureCapacityAndClear fs d)
  end.

(** The words for [desiredBit] and one more. *)
Definition words_for (desiredBit : Z) : Z := (desiredBit - 1) / 64 + 2.

(** The indices are in range, the operand has the same size, the documents that the
    iterator still has are in range, the words fit a slice. *)
Definition accepted (m : mutation) (n : Z) : Prop :=
  match m with
  | MSet i | MGetAndSet i | MClear i | MGetAndClear i | MFlip i => in_range i n = true
  | MSetRange a b | MFlipRange a b => valid_range a b n = true
  | MAnd o | MOr o | MXor o | MAndNot o => n = size o
  | MOrIterator it P => ∀ i, DocID it < i < NO_MORE_DOCS → P i = true → i < n
  | MEnsureCapacityAndClear d => d < n ∨ words_for d ≤ MaxArrayLength
  | MClearRange _ _ | MClearAll | MSetAll | MNot | MEnsureCapacity _ => True
  end.

(** The operand is a bit set, or a lawful iterator that has not ended and does not
    fail; a set that grows stays within the numbers. *)
Definition operand_ok (m : mutation) : Prop :=
  match m with
  | MAnd o | MOr o | MXor o | MAndNot o => wf o
  | MOrIterator it P => denotes it P ∧ reliable it ∧ DocID it < NO_MORE_DOCS
  | MEnsureCapacity d => d < 2 ^ 62
  | _ => True
  end.

(** What becomes of the membership [P] of positions. *)
Definition effect (m : mutation) (P : Z → bool) (i : Z) : bool :=
  match m with
  | MSet j | MGetAndSet j => if i =? j then true else P i
  | MClear j | MGetAndClear j => if i =? j then false else P i
  | MFlip j => if i =? j then negb (P i) else P i
  | MSetRange a b => P i || between a b i
  | MClearRange a b => P i && negb (between a b i)
  | MFlipRange a b => xorb (P i) (between a b i)
  | MClearAll | MEnsureCapacityAndClear _ => false
  | MSetAll => true
  | MNot => negb (P i)
  | MAnd o => P i && fbit o i
  | MOr o => P i || fbit o i
  | MXor o => xorb (P i) (fbit o i)
  | MAndNot o => P i && negb (fbit o i)
  | MOrIterator it Q => P i || (between (DocID it + 1) NO_MORE_DOCS i && Q i)
  | MEnsureCapacity _ => P i
  end.

Definition answer (m : mutation) (P : Z → bool) : option bool :=
  match m with MGetAndSet i | MGetAndClear i => Some (P i) | _ => None end.

Definition new_size (m : mutation) (n : Z) : Z :=
  match m with
  | MEnsureCapacity d => if d <? n then n else 64 * words_for d
  | MEnsureCapacityAndClear d => if d <? n then n else 64 * grown (words_for d)
  | _ => n
  end.

(** [done_by m fs r]: [r] is what [m] should give on [fs]. *)
Definition done_by (m : mutation) (fs : FixedBitSet) (r : M (option bool * FixedBitSet)) : Prop :=
  ∃ fs', r = Ret (answer m (fbit fs), fs') ∧ wf fs' ∧ size fs' = new_size m (size fs) ∧
    ∀ i, 0 ≤ i < size fs' → fbit fs' i = effect m (fbit fs) i.

Definition fails {A} (r : M A) : Prop := r = Panic ∨ ∃ e, r = Err e.

(** * The operations on one set keep the size *)

(** An operation that returns no value. *)
Lemma done_quietly m fs (r : M FixedBitSet) P :
  answer m (fbit fs) = None → new_size m (size fs) = size fs →
  (∃ fs', r = Ret fs' ∧ becomes fs P fs') → (∀ i, 0 ≤ i < size fs → P i = effect m (fbit fs) i) →
  done_by m fs (fs ← r; mret (None, fs)).
Proof.
  intros Ha Hn (fs' & -> & W & Hs & Hb) HP. exists fs'. rewrite Ha, Hn. split_and!; [done..|].
  intros i Hi. rewrite Hs in Hi. by rewrite Hb, HP.
Qed.

Lemma fails_quietly (r : M FixedBitSet) : fails r → fails (fs ← r; mret (@None bool, fs)).
Proof. by intros [->|[e ->]]; [left|right; exists e]. Qed.

Definition checked (m : mutation) (fs : FixedBitSet) (r : M (option bool * FixedBitSet)) : Prop :=
  (accepted m (size fs) → done_by m fs r) ∧ (¬ accepted m (size fs) → fails r).

Lemma checked_quietly m fs (b : bool) (r : M FixedBitSet) P :
  answer m (fbit fs) = None → new_size m (size fs) = size fs → (accepted m (size fs) ↔ b = true) →
  (if b then ∃ fs', r = Ret fs' ∧ becomes fs P fs' else fails r) →
  (∀ i, 0 ≤ i < size fs → P i = effect m (fbit fs) i) →
  checked m fs (fs ← r; mret (None, fs)).
Proof.
  intros Ha Hn Hb Hr HP. destruct b; split; intros Hacc.
  - by apply (done_quietly m fs r P).
  - by rewrite Hb in Hacc.
  - by rewrite Hb in Hacc.
  - by apply fails_quietly.
Qed.

(** One position *)
Lemma update_bit_checked m f u i fs :
  Bitwise f u → (∀ b, u b false = b) → wf fs →
  answer m (fbit fs) = None → new_size m (size fs) = size fs → (accepted m (size fs) ↔ in_range i (size fs) = true) →
  (∀ j, effect m (fbit fs) j = if j =? i then u (fbit fs i) true else fbit fs j) →
  checked m fs (fs ← update_bit f i fs; mret (None, fs)).
Proof.
  intros Hf Hu W Ha Hn Hacc He. pose proof (update_bit_spec f u i fs Hf Hu W) as Hs.
  eapply (checked_quietly m fs (in_range i (size fs))); [done|done|done| |intros j _; symmetry; apply He].
  destruct (in_range i (size fs)); [exact Hs|by left].
Qed.

(** A position and what it was before *)
Lemma get_and_update_checked m f u i fs :
  Bitwise f u → (∀ b, u b false = b) → wf fs →
  answer m (fbit fs) = Some (fbit fs i) → new_size m (size fs) = size fs →
  (accepted m (size fs) ↔ in_range i (size fs) = true) →
  (∀ j, effect m (fbit fs) j = if j =? i then u (fbit fs i) true else fbit fs j) →
  checked m fs ('(b, fs) ← (b ← Get i fs; fs' ← update_bit f i fs; mret (b, fs')); mret (Some b, fs)).
Proof.
  intros Hf Hu W Ha Hn Hacc He. pose proof (update_bit_spec f u i fs Hf Hu W) as Hs. rewrite Get_spec by done.
  unfold checked. rewrite Hacc. destruct (in_range i (size fs)); split; try done; intros _; [|by left].
  destruct Hs as (fs' & -> & W' & Hsz & Hb). exists fs'. rewrite Ha, Hn. split_and!; [done..|].
  intros j Hj. rewrite Hsz in Hj. by rewrite Hb, He.
Qed.

(** A range *)
Lemma update_range_checked m f u middle a b fs :
  Bitwise f u → (∀ b, u b false = b) →
  (∀ w, is_word w → is_word (middle w) ∧ ∀ k, 0 ≤ k < 64 → Z.testbit (middle w) k = u (Z.testbit w k) true) → wf fs →
  answer m (fbit fs) = None → new_size m (size fs) = size fs → (accepted m (size fs) ↔ valid_range a b (size fs) = true) →
  (∀ i, effect m (fbit fs) i = u (fbit fs i) (between a b i)) →
  checked m fs (fs ← update_range f middle a b fs; mret (None, fs)).
Proof.
  intros Hf Hu Hmid W Ha Hn Hacc He. pose proof (update_range_spec f u middle Hu Hmid fs a b W) as Hs.
  eapply (checked_quietly m fs (valid_range a b (size fs)) _ (range_bit u (fbit fs) a b)); [done|done|done| |].
  - destruct (valid_range a b (size fs)); [exact Hs|by left].
  - intros i Hi. rewrite He. unfold range_bit, between. destruct ((a <=? i) && (i <? b)); [done|by rewrite Hu].
Qed.

Lemma ClearRange_clears a b fs :
  wf fs → ∃ fs', ClearRange a b fs = Ret fs' ∧ becomes fs (fun i => fbit fs i && negb (between a b i)) fs'.
Proof.
  intros W. unfold ClearRange.
  assert (Ea : (if a <? 0 then 0 else a) = Z.max 0 a) by (destruct (Z.ltb_spec a 0); lia).
  assert (Eb : (if size fs <? b then size fs else b) = Z.min (size fs) b) by (destruct (Z.ltb_spec (size fs) b); lia).
  rewrite Ea, Eb.
  destruct (write_range_spec andnot (fun a b => a && negb b) (fun _ => 0) (fun b => andb_true_r b) middle_zero
    fs (Z.max 0 a) (Z.min (size fs) b) W) as (fs' & E & Hb); [lia..|].
  exists fs'. split; [exact E|]. eapply becomes_ext; [|exact Hb]. intros i Hi. unfold range_bit, between.
  destruct (Z.leb_spec (Z.max 0 a) i), (Z.ltb_spec i (Z.min (size fs) b)), (Z.leb_spec a i), (Z.ltb_spec i b);
    cbn; rewrite ?andb_true_r, ?andb_false_r; (done || lia).
Qed.

(** Two sets *)
Lemma combine_checked m f u fs other :
  Bitwise f u → wf fs → wf other →
  answer m (fbit fs) = None → new_size m (size fs) = size fs → (accepted m (size fs) ↔ size fs = size other) →
  (∀ i, effect m (fbit fs) i = u (fbit fs i) (fbit other i)) → u false false = false →
  checked m fs (fs ← combine f fs other; mret (None, fs)).
Proof.
  intros Hf W Wo Ha Hn Hacc He Hu. pose proof (combine_spec f u fs other) as Hs.
  eapply (checked_quietly m fs (size fs =? size other) _ (fun i => u (fbit fs i) (fbit other i))); [done|done| | |done].
  - by rewrite Hacc, Z.eqb_eq.
  - specialize (Hs Hf). destruct (size fs =? size other); [by apply Hs|right; by apply Hs].
Qed.

(** * Growing *)

(** A position beyond the words is not set. *)
Lemma fbit_outside fs i : wf fs → size fs ≤ i → fbit fs i = false.
Proof.
  intros W Hi. destruct (Z.lt_ge_cases i (64 * Z.of_nat (length (bits fs)))) as [Hlt|Hge].
  - by apply (wf_ghost _ W).
  - unfold fbit, bit, nthZ. rewrite lookup_ge_None_2 by (pose proof (wf_size _ W); idx). apply Z.testbit_0_l.
Qed.

(** A set of all the bits of some words. *)
Lemma wf_whole ws : Forall is_word ws → wf {| bits := ws; size := 64 * Z.of_nat (length ws) |}.
Proof. intros Hws. split; cbn; [lia|idx|done|lia]. Qed.

Lemma bit_app_zeros ws k i : bit (ws ++ repeat 0 k) i = bit ws i.
Proof.
  unfold bit, nthZ. destruct (decide (Z.to_nat (i / 64) < length ws)%nat) as [Hlt|Hge].
  - by rewrite lookup_app_l.
  - rewrite lookup_app_r, (lookup_ge_None_2 ws) by lia. destruct (repeat 0 k !! _) as [x|] eqn:E; [|done].
    apply list_elem_of_lookup_2, list_elem_of_In, repeat_spec in E. by subst.
Qed.

Lemma is_word_zeros k : Forall is_word (repeat 0 k).
Proof. apply Forall_forall. intros x Hx%list_elem_of_In%repeat_spec. by subst. Qed.

Lemma bit_zeros k i : bit (repeat 0 k) i = false.
Proof. rewrite <- (app_nil_l (repeat 0 k)), bit_app_zeros. unfold bit, nthZ. apply Z.testbit_0_l. Qed.

(** Where the size is not enough, the words are not either. *)
Lemma grows fs d : wf fs → size fs ≤ d → Z.of_nat (length (bits fs)) ≤ bits2words d ∧ bits2words d + 1 = words_for d ∧ 0 < words_for d.
Proof.
  intros W Hd. pose proof (wf_size _ W). rewrite (wf_length _ W). unfold bits2words, words_for.
  rewrite shiftr6. repeat split; idx.
Qed.

Lemma EnsureCapacity_done fs d : wf fs → done_by (MEnsureCapacity d) fs (run_mutation (MEnsureCapacity d) fs).
Proof.
  intros W. unfold done_by. cbn [run_mutation answer new_size effect].
  unfold FixedBitSetEnsureCapacity, ensureCapacityInternal. destruct (Z.ltb_spec d (size fs)) as [Hlt|Hge].
  - by exists fs.
  - destruct (grows fs d W Hge) as (H1 & H2 & H3). cbv zeta. rewrite (proj2 (Z.leb_le _ _)), H2 by lia.
    unfold GrowExact. rewrite (proj2 (Z.ltb_ge _ _)) by lia. cbn [mbind go_bind mret go_ret].
    set (arr := _ ++ _). assert (Hlen : Z.of_nat (length arr) = words_for d).
    { unfold arr. rewrite length_app, repeat_length. lia. }
    rewrite Z.shiftl_mul_pow2 by lia. change (2 ^ 6) with 64. eexists. split; [done|].
    replace (Z.of_nat (length arr) * 64) with (64 * Z.of_nat (length arr)) by lia. split_and!.
    + apply wf_whole. apply Forall_app. split; [apply W|apply is_word_zeros].
    + cbn [size]. lia.
    + intros i _. unfold fbit. cbn [bits]. apply bit_app_zeros.
Qed.

Lemma EnsureCapacityAndClear_checked fs d :
  wf fs → checked (MEnsureCapacityAndClear d) fs (run_mutation (MEnsureCapacityAndClear d) fs).
Proof.
  intros W. unfold checked, done_by. cbn [run_mutation answer new_size effect accepted].
  unfold EnsureCapacityAndClear, ensureCapacityInternal. destruct (Z.ltb_spec d (size fs)) as [Hlt|Hge].
  - split; [|lia]. intros _. destruct (ClearAll_spec fs W) as (W' & Hs & Hb). exists (ClearAll fs).
    split_and!; [done..|]. intros i Hi. rewrite Hs in Hi. by apply Hb.
  - destruct (grows fs d W Hge) as (H1 & H2 & H3). cbv zeta.
    rewrite (proj2 (Z.leb_le _ _)), H2, oversize_grown by lia.
    destruct (Z.ltb_spec MaxArrayLength (words_for d)) as [Hbig|Hfit]; split; intros Hacc; [lia|by left| |lia].
    cbn [mbind go_bind mret go_ret]. pose proof (grown_ge (words_for d) ltac:(lia)).
    rewrite Z.shiftl_mul_pow2 by lia. change (2 ^ 6) with 64.
    eexists. split; [done|]. rewrite Z.mul_comm. split_and!.
    + apply wf_whole, is_word_zeros.
    + cbn [size]. rewrite repeat_length. lia.
    + intros i _. unfold fbit. cbn [bits]. apply bit_zeros.
Qed.

(** * The union with an iterator *)

Section iterator.
Context {It : Type} `{Lawful It}.

(** What a union has done when the iterator is on [pos]: the documents up to there,
    from [from] on, are in the set. *)
Definition ored_to (fs : FixedBitSet) (P : Z → bool) (from pos : Z) (fs' : FixedBitSet) : Prop :=
  becomes fs (fun i => fbit fs i || (between from (pos + 1) i && P i)) fs'.

Lemma ored_to_step fs P from pos d fs1 fs2 :
  from - 1 ≤ pos → first_doc P (pos + 1) d → d < NO_MORE_DOCS → ored_to fs P from pos fs1 →
  becomes fs1 (fun j => fbit fs1 j || (j =? d)) fs2 → ored_to fs P from d fs2.
Proof.
  intros Hpos (Hd & Hm & Hn) Hlt (W1 & Hs1 & Hb1) (W2 & Hs2 & Hb2). split_and!; [done|congruence|].
  intros i Hi. rewrite Hb2, Hb1 by lia. rewrite <- orb_assoc. f_equal. unfold between.
  destruct (Z.eqb_spec i d) as [->|Hne].
  - rewrite Hm by done. rewrite orb_true_r, andb_true_r. symmetry. apply andb_true_iff.
    split; [apply Z.leb_le|apply Z.ltb_lt]; lia.
  - rewrite orb_false_r. destruct (P i) eqn:EP; [|by rewrite !andb_false_r]. rewrite !andb_true_r. f_equal.
    destruct (Z.ltb_spec i (pos + 1)), (Z.ltb_spec i (d + 1)); try done; try lia. by rewrite Hn in EP by lia.
Qed.

Lemma OrIterator_spec it P fs :
  denotes it P → reliable it → DocID it < NO_MORE_DOCS → wf fs →
  (∀ i, DocID it < i < NO_MORE_DOCS → P i = true → i < size fs) →
  ∃ r, OrIterator it fs = Ret r ∧
    becomes fs (fun i => fbit fs i || (between (DocID it + 1) NO_MORE_DOCS i && P i)) (fst r).
Proof.
  intros HD Hr Hlt W Hfit. destruct (position _ _ HD) as [Hp0 _].
  apply (wp_Ret True (OrIterator it fs)
    (fun r => becomes fs (fun i => fbit fs i || (between (DocID it + 1) NO_MORE_DOCS i && P i)) (fst r))); [|done].
  unfold OrIterator.
  apply (go_loop_wp _ (fun '(fs', it') => denotes it' P ∧ reliable it' ∧ DocID it ≤ DocID it' < NO_MORE_DOCS ∧
    ored_to fs P (DocID it + 1) (DocID it') fs') (fun '(_, it') => NO_MORE_DOCS - DocID it')).
  - split_and!; [done|done|lia|done|]. split_and!; [done|done|]. intros i Hi. unfold between.
    destruct (Z.leb_spec (DocID it + 1) i), (Z.ltb_spec i (DocID it + 1)); cbn; rewrite ?orb_false_r; (done || lia).
  - unfold NO_MORE_DOCS, all_docs in *. lia.
  - intros [fs' it']. lia.
  - intros [fs' it'] (HD' & Hr' & Hpos & Hored). apply wp_bind.
    eapply wp_mono; [by apply NextDoc_moves; [|lia]|done|]. intros [d it2] (HD2 & Hp2 & Hr2 & HF).
    pose proof HF as (Hd & Hm & Hn). destruct (Z.eqb_spec d NO_MORE_DOCS) as [->|Hne].
    + cbn -[NO_MORE_DOCS]. destruct Hored as (W' & Hs' & Hb'). split_and!; [done..|]. intros i Hi. rewrite Hb' by done.
      f_equal. destruct (P i) eqn:EP; [|by rewrite !andb_false_r]. rewrite !andb_true_r. unfold between. f_equal.
      destruct (Z.ltb_spec i (DocID it' + 1)), (Z.ltb_spec i NO_MORE_DOCS); try done; try lia. by rewrite Hn in EP by lia.
    + pose proof Hored as (W' & Hs' & _). destruct (FBSet_becomes d fs' W') as (fs2 & -> & Hb2).
      { rewrite Hs'. split; [lia|]. apply Hfit; [lia|]. apply Hm. lia. }
      rewrite go_bind_ret. cbn -[NO_MORE_DOCS]. split; [|lia].
      split_and!; [done|by apply Hr2|lia|lia|]. rewrite Hp2.
      by apply (ored_to_step fs P (DocID it + 1) (DocID it') d fs' fs2); [lia|done|lia|..].
Qed.

Lemma OrIterator_panics it P fs i :
  denotes it P → reliable it → wf fs → DocID it < i < NO_MORE_DOCS → P i = true → size fs ≤ i →
  OrIterator it fs = Panic.
Proof.
  intros HD Hr W Hi HP Hout. destruct (position _ _ HD) as [Hp0 _]. unfold OrIterator.
  apply (go_loop_panics (fun '(fs', it') => denotes it' P ∧ reliable it' ∧ DocID it ≤ DocID it' < i ∧ wf fs' ∧ size fs' = size fs)
    (fun '(_, it') => NO_MORE_DOCS - DocID it')).
  - split_and!; (done || lia).
  - unfold NO_MORE_DOCS, all_docs in *. lia.
  - intros [fs' it']. lia.
  - intros [fs' it'] (HD' & Hr' & Hpos & W' & Hs').
    destruct (wp_Ret _ _ _ (NextDoc_moves it' P HD' ltac:(lia)) Hr') as ([d it2] & -> & HD2 & Hp2 & Hr2 & Hd & Hm & Hn).
    rewrite go_bind_ret. assert (Hdi : d ≤ i) by (destruct (Z.le_gt_cases d i); [done|]; by rewrite Hn in HP by lia).
    rewrite (proj2 (Z.eqb_neq _ _)) by lia. destruct (Z.lt_ge_cases d (size fs)) as [Hin|Hbig].
    + right. destruct (FBSet_becomes d fs' W') as (fs2 & -> & W2 & Hs2 & _); [lia|]. eexists. split; [done|].
      cbn. split; [|lia]. split_and!; [done|by apply Hr2|lia| |done|congruence].
      assert (d ≠ i) by lia. lia.
    + left. pose proof (update_bit_spec Z.lor orb d fs' _ orb_false_r W') as Hs. unfold FBSet.
      destruct (in_range d (size fs')) eqn:Ein; [|by rewrite Hs]. apply in_range_spec in Ein. lia.
Qed.
End iterator.

(** The side conditions on the bit operation. *)
Ltac bitwise := first [done|apply _|apply orb_false_r|apply xor_false_r].

(** C38. Every operation that changes a bit set of any size, but for the union with a
    range of another bit set: setting, clearing and flipping a bit, with or without
    its old value, a range of bits (which [ClearRange] cuts off at the ends of the
    set) or all bits; the combinations with another bit set; the union with the
    documents that an iterator has not yet visited; growing, with the bits kept or
    cleared. If the indices are in range, the other set has the same size, the
    remaining documents are in range, and the words of a set that is grown and
    cleared fit a slice, then the operation returns the old value where it promises
    one and a well-formed bit set (no bits beyond the size) of the expected size that
    holds exactly the positions it should; otherwise it panics or returns an error.
    The other set is well-formed, the iterator is lawful, has not ended and does not
    fail, and the bit that a set is grown for with its bits kept is below 2^62. *)
Theorem mutations_correct (m : mutation) (fs : FixedBitSet) :
  wf fs → operand_ok m →
  (accepted m (size fs) →
   ∃ fs', run_mutation m fs = Ret (answer m (fbit fs), fs') ∧ wf fs' ∧ size fs' = new_size m (size fs) ∧
     ∀ i, 0 ≤ i < size fs' → fbit fs' i = effect m (fbit fs) i) ∧
  (¬ accepted m (size fs) → run_mutation m fs = Panic ∨ ∃ e, run_mutation m fs = Err e).
Proof.
  intros W Ho. change (checked m fs (run_mutation m fs)).
  assert (Hminus : ∀ b, b && negb false = b) by apply andb_true_r.
  destruct m; cbn [run_mutation operand_ok] in *.
  - apply (update_bit_checked _ Z.lor orb index); try bitwise. intros j. cbn. by rewrite orb_true_r.
  - apply (get_and_update_checked _ Z.lor orb index); try bitwise. intros j. cbn. by rewrite orb_true_r.
  - apply (update_bit_checked _ andnot (fun a b => a && negb b) index); try bitwise. intros j. cbn. by rewrite andb_false_r.
  - rewrite GetAndClear_Clear. apply (get_and_update_checked _ andnot (fun a b => a && negb b) index); try bitwise.
    intros j. cbn. by rewrite andb_false_r.
  - apply (update_bit_checked _ Z.lxor xorb index); try bitwise.
    intros j. cbn. rewrite xorb_true_r. by destruct (Z.eqb_spec j index) as [->|].
  - by apply (update_range_checked _ Z.lor orb (fun _ => ones64)); [apply _|apply orb_false_r|apply middle_ones|..].
  - split; [|by intros []]. intros _. eapply done_quietly; [done|done|by apply ClearRange_clears|done].
  - by apply (update_range_checked _ Z.lxor xorb not64); [apply _|apply xor_false_r|apply middle_not|..].
  - split; [|by intros []]. intros _. eapply done_quietly; [done|done|exists (ClearAll fs); split; [done|by apply ClearAll_spec]|done].
  - split; [|by intros []]. intros _. eapply done_quietly; [done|done|by apply SetAll_spec|done].
  - split; [|by intros []]. intros _. eapply done_quietly; [done|done|by apply Not_spec|done].
  - by apply (combine_checked _ Z.land andb); [apply _|..].
  - by apply (combine_checked _ Z.lor orb); [apply _|..].
  - by apply (combine_checked _ Z.lxor xorb); [apply _|..].
  - by apply (combine_checked _ andnot (fun a b => a && negb b)); [apply _|..].
  - destruct Ho as (HD & Hr & Hlt). split; cbn [accepted].
    + intros Hfit. destruct (OrIterator_spec it P fs HD Hr Hlt W Hfit) as ([fs' it'] & -> & W' & Hs & Hb).
      cbn [fst] in *. exists fs'. split_and!; [done..|]. intros i Hi. rewrite Hs in Hi. by apply Hb.
    + intros Hbad. left. destruct (OrIterator it fs) as [[fs' it']|e| |] eqn:E; [| |done|].
      all: exfalso; apply Hbad; intros i Hi HP; apply Z.nle_gt; intros Hout;
        by rewrite (OrIterator_panics it P fs i) in E.
  - split; [intros _; by apply EnsureCapacity_done|by intros []].
  - by apply EnsureCapacityAndClear_checked.
Qed.

Lemma mutations_correct_witness :
  ∃ fs fs' fs2, NewFixedBitSet 130 = Ret fs ∧ run_mutation (MGetAndSet 128) fs = Ret (Some false, fs') ∧
    run_mutation (MOrIterator (NewRangeDocIdSetIterator 60 70) (between 60 70)) fs' = Ret (None, fs2) ∧
    wf fs2 ∧ fbit fs2 59 = false ∧ fbit fs2 69 = true ∧ fbit fs2 128 = true.
Proof.
  destruct (NewFixedBitSet_spec 130) as (fs & En & W & Hs & Hfs); [lia|].
  destruct (mutations_correct (MGetAndSet 128) fs W I) as [(fs' & Er & W' & Hs' & Hb) _]; [by rewrite Hs|].
  cbn [answer new_size effect] in *. rewrite Hs in Hs'. rewrite Hfs in Er.
  destruct (mutations_correct (MOrIterator (NewRangeDocIdSetIterator 60 70) (between 60 70)) fs' W') as [(fs2 & E2 & W2 & Hs2 & Hb2) _].
  - split; [split; cbn -[NO_MORE_DOCS]; [unfold NO_MORE_DOCS; lia|done|by left]|done].
  - cbn -[NO_MORE_DOCS]. unfold between. lia.
  - cbn [answer new_size effect] in *. rewrite Hs' in Hs2. exists fs, fs', fs2.
    split; [exact En|]. split; [exact Er|]. split; [exact E2|]. split; [exact W2|].
    rewrite !Hb2, !Hb, !Hfs by lia. split_and!; reflexivity.
Defined.
