(* ===== verification/LeafIterators.v ===== *)
(** Iterators over stored sets of documents: over the bits of a bit set
    ([util/bit_set_iterator.go]) and over a sorted array
    ([util/int_array_doc_id_set.go]). *)

From stdpp Require Import base tactics numbers list strings.
From Stdlib Require Import ZArith Lia.
From S2P Require Import Prelude WordBits SparseFixedBitSet FixedBitSet DocIdSetIterator.

Local Open Scope Z_scope.

(** * Iterating over bits *)

(** A [Bits] value: one of the two bit sets, or another implementation, whose
    [Get] answers on the indices below its length. *)
Inductive Bits : Type :=
  | FixedBits (fs : FixedBitSet.FixedBitSet)
  | SparseBits (sfs : SparseFixedBitSet.SparseFixedBitSet)
  | OtherBits (get : Z → bool) (len : Z).

Definition bits_Length (b : Bits) : Z :=
  match b with
  | FixedBits fs => FixedBitSet.size fs
  | SparseBits sfs => SparseFixedBitSet.Length sfs
  | OtherBits _ len => len
  end.

Definition bits_Get (i : Z) (b : Bits) : M bool :=
  match b with
  | FixedBits fs => FixedBitSet.Get i fs
  | SparseBits sfs => SparseFixedBitSet.Get i sfs
  | OtherBits get _ => mret (get i)
  end.

Record BitSetIterator := { set : Bits; length_ : Z; doc : Z; cost : Z }.

Definition NewBitSetIterator (b : Bits) (cost : Z) : M BitSetIterator :=
  if cost <? 0 then Panic else mret {| set := b; length_ := bits_Length b; doc := -1; cost := cost |}.

Definition SetDocId (d : Z) (b : BitSetIterator) : BitSetIterator :=
  {| set := set b; length_ := length_ b; doc := d; cost := cost b |}.

Definition GetBitSet (b : BitSetIterator) : Bits := set b.

(** [for i := i; i < n; i++ { if get(i) { return i } }; return -1] *)
Fixpoint linear_scan (fuel : nat) (get : Z → bool) (i n : Z) : M Z :=
  if i <? n then
    match fuel with
    | O => NoFuel
    | S fuel => if get i then mret i else linear_scan fuel get (i + 1) n
    end
  else mret (-1).

(** The next set bit, or -1; a scan by [Get] ends at [limit]. *)
Definition next_bit (b : Bits) (start limit : Z) : M Z :=
  match b with
  | FixedBits fs => FixedBitSet.NextSetBit start fs
  | SparseBits sfs => SparseFixedBitSet.NextSetBit start None sfs
  | OtherBits get _ => linear_scan (Z.to_nat (limit - start)) get start limit
  end.

Definition bit_Advance (target : Z) (b : BitSetIterator) : M (Z * BitSetIterator) :=
  if length_ b <=? target then mret (NO_MORE_DOCS, SetDocId NO_MORE_DOCS b) else
  next ← next_bit (set b) target (length_ b);
  let d := if next <? 0 then NO_MORE_DOCS else next in
  mret (d, SetDocId d b).

Definition bit_NextDoc (b : BitSetIterator) : M (Z * BitSetIterator) := bit_Advance (doc b + 1) b.

#[export] Instance bit_iterator : DocIdSetIterator BitSetIterator := {
  DocID := doc;
  NextDoc := bit_NextDoc;
  Advance := bit_Advance;
  Cost := cost
}.

Definition bit_IntoBitSet (upTo : Z) (dest : FixedBitSet.FixedBitSet) (offset : Z) (b : BitSetIterator)
  : M (FixedBitSet.FixedBitSet * BitSetIterator) :=
  if upTo <=? doc b then mret (dest, b) else
  let start := doc b + 1 in
  let start := if start <? 0 then 0 else start in
  go_loop all_docs (fun '(start, dest, b) =>
    if upTo <=? start then mret (inr (dest, SetDocId (upTo - 1) b)) else
    next ← next_bit (set b) start (Z.min upTo (length_ b));
    if (next <? 0) || (upTo <=? next) then
      mret (inr (dest, SetDocId (if upTo <=? next then upTo - 1 else NO_MORE_DOCS) b))
    else
      dest ← FixedBitSet.FBSet (next + offset) dest;
      mret (inl (next + 1, dest, SetDocId next b))) (start, dest, b).

Definition bit_DocIDRunEnd (b : BitSetIterator) : M (Z * BitSetIterator) :=
  if (doc b <? 0) || (length_ b <=? doc b) then mret (doc b + 1, b) else
  runEnd ← go_loop all_docs (fun runEnd =>
    more ← (if runEnd <? length_ b then bits_Get runEnd (set b) else mret false);
    mret (if (more : bool) then inl (runEnd + 1) else inr runEnd)) (doc b + 1);
  mret (runEnd, SetDocId (runEnd - 1) b).

(** * Iterating over a sorted array *)

Record IntArrayDocIdSet := { set_docs : list Z; set_length : Z }.

Definition NewIntArrayDocIdSet (docs : list Z) (length : Z) : M IntArrayDocIdSet :=
  if Z.of_nat (List.length docs) <=? length then Err (Errorf "length exceeds array length"%string) else
  d ← aget docs length;
  if negb (d =? NO_MORE_DOCS) then Err (Errorf "docs[length] must be NO_MORE_DOCS"%string) else
  _ ← go_for (Z.to_nat (length - 1)) 1 (fun i _ =>
    a ← aget docs i; b ← aget docs (i - 1);
    if a <? b then Err (Errorf "docs array must be sorted"%string) else mret tt) tt;
  mret {| set_docs := docs; set_length := length |}.

Record IntArrayDocIdSetIterator := { arr : list Z; len : Z; idx_ : Z; cur : Z }.

Definition NewIntArrayDocIdSetIterator (docs : list Z) (length : Z) : IntArrayDocIdSetIterator :=
  {| arr := docs; len := length; idx_ := 0; cur := -1 |}.

Definition Iterator (s : IntArrayDocIdSet) : IntArrayDocIdSetIterator :=
  NewIntArrayDocIdSetIterator (set_docs s) (set_length s).

Definition place (i d : Z) (it : IntArrayDocIdSetIterator) : IntArrayDocIdSetIterator :=
  {| arr := arr it; len := len it; idx_ := i; cur := d |}.

Definition array_NextDoc (it : IntArrayDocIdSetIterator) : M (Z * IntArrayDocIdSetIterator) :=
  if len it <=? idx_ it then mret (NO_MORE_DOCS, place (idx_ it) NO_MORE_DOCS it) else
  d ← aget (arr it) (idx_ it);
  mret (d, place (idx_ it + 1) d it).

(** [for it.i+bound < it.length && it.docs[it.i+bound] < target { bound *= 2 }] *)
Fixpoint gallop (fuel : nat) (it : IntArrayDocIdSetIterator) (target bound : Z) : M Z :=
  if idx_ it + bound <? len it then
    d ← aget (arr it) (idx_ it + bound);
    if d <? target then
      match fuel with O => NoFuel | S fuel => gallop fuel it target (bound * 2) end
    else mret bound
  else mret bound.

(** [sort.Search] of the standard library *)
Fixpoint search_loop (fuel : nat) (f : Z → M bool) (i j : Z) : M Z :=
  if i <? j then
    match fuel with
    | O => NoFuel
    | S fuel =>
        let h := Z.shiftr (i + j) 1 in
        b ← f h;
        if (b : bool) then search_loop fuel f i h else search_loop fuel f (h + 1) j
    end
  else mret i.

Definition sort_Search (n : Z) (f : Z → M bool) : M Z := search_loop (Z.to_nat n) f 0 n.

Definition array_Advance (target : Z) (it : IntArrayDocIdSetIterator) : M (Z * IntArrayDocIdSetIterator) :=
  if len it <=? idx_ it then mret (NO_MORE_DOCS, place (idx_ it) NO_MORE_DOCS it) else
  bound ← gallop (Z.to_nat (len it)) it target 1;
  let low := idx_ it + bound / 2 in
  let high := idx_ it + bound + 1 in
  let high := if len it <? high then len it else high in
  idx ← sort_Search (high - low) (fun i => d ← aget (arr it) (low + i); mret (target <=? d));
  let i := low + idx in
  if len it <=? i then mret (NO_MORE_DOCS, place i NO_MORE_DOCS it) else
  d ← aget (arr it) i;
  mret (d, place (i + 1) d it).

#[export] Instance array_iterator : DocIdSetIterator IntArrayDocIdSetIterator := {
  DocID := cur;
  NextDoc := array_NextDoc;
  Advance := array_Advance;
  Cost it := len it
}.

Example leaves_run :
  (fs ← FixedBitSet.NewFixedBitSet 300; fs ← FixedBitSet.SetRange 100 130 fs; fs ← FixedBitSet.FBSet 250 fs;
   b ← NewBitSetIterator (FixedBits fs) 31;
   '(d1, b) ← Advance 128 b; l1 ← scan b;
   let a := [1; 4; 5; 9; 12; 20; 33; 40; 41; 77; NO_MORE_DOCS] in
   s ← NewIntArrayDocIdSet a 10;
   '(d2, it) ← Advance 6 (Iterator s); '(d3, it) ← Advance 34 it; l2 ← scan it;
   mret (d1, l1, d2, d3, l2)) = Ret (128, [129; 250], 9, 40, [41; 77]).
Proof. vm_compute. reflexivity. Qed.

(** [IntoBitSet] leaves out the current document and shifts the others up by the
    offset, where the interface says that it loads the documents from the current
    one on, shifted down: the iterator is at 3; of 3, 5 and 6, shifted down by 2,
    [DefaultIntoBitSet] makes 1, 3 and 4, this one 7 and 8. *)
Example bit_IntoBitSet_differs :
  (fs ← FixedBitSet.NewFixedBitSet 10; fs ← FixedBitSet.FBSet 3 fs; fs ← FixedBitSet.SetRange 5 7 fs;
   b ← NewBitSetIterator (FixedBits fs) 3; '(_, b) ← NextDoc b;
   dest ← FixedBitSet.NewFixedBitSet 10;
   '(d1, _) ← DefaultIntoBitSet 10 dest 2 b;
   '(d2, _) ← bit_IntoBitSet 10 dest 2 b;
   mret (FixedBitSet.bits d1, FixedBitSet.bits d2)) = Ret ([2 ^ 1 + 2 ^ 3 + 2 ^ 4], [2 ^ 7 + 2 ^ 8]).
Proof. vm_compute. reflexivity. Qed.

(** [DocIDRunEnd] moves the iterator: the next document after it is 9, not 6. *)
Example bit_DocIDRunEnd_moves :
  (fs ← FixedBitSet.NewFixedBitSet 10; fs ← FixedBitSet.SetRange 5 8 fs; fs ← FixedBitSet.FBSet 9 fs;
   b ← NewBitSetIterator (FixedBits fs) 3; '(d, b) ← NextDoc b;
   '(e, b) ← bit_DocIDRunEnd b; '(f, _) ← NextDoc b;
   mret (d, e, f)) = Ret (5, 8, 9).
Proof. vm_compute. reflexivity. Qed.

(** * The laws *)

Definition bits_denotes (b : Bits) (B : Z → bool) : Prop :=
  match b with
  | FixedBits fs => FixedBitSet.wf fs ∧ ∀ i, 0 ≤ i < FixedBitSet.size fs → FixedBitSet.fbit fs i = B i
  | SparseBits sfs => SparseFixedBitSet.holds sfs B
  | OtherBits get n => 0 ≤ n ∧ ∀ i, 0 ≤ i < n → get i = B i
  end.

Lemma bits_Get_spec b B i : bits_denotes b B → 0 ≤ i < bits_Length b → bits_Get i b = Ret (B i).
Proof.
  destruct b as [fs|sfs|get n]; cbn; intros HB Hi.
  - destruct HB as [W HB]. rewrite FixedBitSet.Get_spec by done. rewrite (proj2 (in_range_spec _ _)) by done.
    by rewrite HB.
  - by destruct (SparseFixedBitSet.holds_with_bit sfs B i HB Hi) as (_ & _ & ->).
  - destruct HB as [_ HB]. by rewrite HB.
Qed.

Lemma linear_scan_spec get B n : (∀ i, 0 ≤ i < n → get i = B i) → ∀ fuel i,
  0 ≤ i → n - i ≤ Z.of_nat fuel →
  ∃ r, linear_scan fuel get i n = Ret r ∧ first_from B i n r.
Proof.
  intros HB. induction fuel as [|fuel IH]; intros i Hi Hf; cbn [linear_scan]; destruct (Z.ltb_spec i n); try lia.
  - exists (-1). split; [done|]. right. split; [done|]. lia.
  - rewrite HB by lia. destruct (B i) eqn:Eb.
    + exists i. split; [done|]. left. split_and!; [lia|lia|done|lia].
    + destruct (IH (i + 1)) as (r & -> & Hr); [lia|lia|]. exists r. split; [done|].
      apply (first_from_skip _ _ (i + 1)); [lia| |done]. intros j Hj. by replace j with i by lia.
  - exists (-1). split; [done|]. right. split; [done|]. lia.
Qed.

Lemma next_bit_spec b B start :
  bits_denotes b B → 0 ≤ start < bits_Length b →
  ∃ r, next_bit b start (bits_Length b) = Ret r ∧ first_from B start (bits_Length b) r.
Proof.
  destruct b as [fs|sfs|get n]; cbn [bits_denotes bits_Length next_bit]; intros HB Hs.
  - destruct HB as [W HB]. pose proof (FixedBitSet.NextSetBit_spec fs start W) as H.
    rewrite (proj2 (Z.ltb_ge _ _)), andb_false_r in H by lia. destruct H as (r & -> & Hr). exists r. split; [done|].
    rewrite Z.max_r in Hr by lia. eapply first_from_ext; [|done]. intros i Hi. apply HB. lia.
  - destruct (SparseFixedBitSet.sparse_NextSetBit_spec sfs B start None HB) as (r & -> & Hr). exists r. split; [done|].
    by rewrite Z.max_r in Hr by lia.
  - destruct HB as [H0 HB]. apply linear_scan_spec; [done|lia|lia].
Qed.

(** A search that finds nothing is the end of the documents. *)
Lemma first_from_doc P B start n r :
  (∀ i, P i = B i && between 0 n i) → 0 ≤ start ≤ n → n ≤ NO_MORE_DOCS →
  first_from B start n r → first_doc P start (if r <? 0 then NO_MORE_DOCS else r).
Proof.
  intros HP Hs Hn [(Hr & Hb & Hlow)|(-> & Hnone)]; [rewrite (proj2 (Z.ltb_ge _ _)) by lia|].
  - split_and!; [lia|lia| |].
    + intros _. rewrite HP, Hb. unfold between. by rewrite (proj2 (Z.leb_le _ _)), (proj2 (Z.ltb_lt _ _)) by lia.
    + intros i Hi. by rewrite HP, Hlow by lia.
  - cbn -[NO_MORE_DOCS]. apply first_doc_end; [lia|]. intros i Hi. rewrite HP. unfold between.
    destruct (Z.ltb_spec i n); [by rewrite Hnone by lia|by rewrite !andb_false_r].
Qed.

Record bit_denotes (b : BitSetIterator) (P : Z → bool) : Prop := {
  bd_length : length_ b = bits_Length (set b) ∧ 0 ≤ length_ b ≤ NO_MORE_DOCS;
  bd_bits : ∃ B, bits_denotes (set b) B ∧ ∀ i, P i = B i && between 0 (length_ b) i;
  bd_position : doc b = -1 ∨ doc b = NO_MORE_DOCS ∨ 0 ≤ doc b < NO_MORE_DOCS ∧ P (doc b) = true
}.

(** The document may be set to any document of the set, or the end. *)
Lemma bit_denotes_at b P d :
  bit_denotes b P → d = NO_MORE_DOCS ∨ 0 ≤ d < NO_MORE_DOCS ∧ P d = true → bit_denotes (SetDocId d b) P.
Proof. intros [H1 H2 H3] Hd. split; [done|done|cbn -[NO_MORE_DOCS]; tauto]. Qed.

Lemma bit_moves b P target :
  bit_denotes b P → 0 ≤ target ≤ NO_MORE_DOCS →
  wp True (bit_Advance target b) (moves doc bit_denotes (fun _ => True) b P target).
Proof.
  intros HD Ht. pose proof HD as [[El Hl] (B & HB & HP) _]. unfold bit_Advance.
  assert (Hfirst : ∀ d, first_doc P target d → moves doc bit_denotes (fun _ => True) b P target (d, SetDocId d b)).
  { intros d HF. pose proof HF as (Hle & Hm & _). split_and!; [|done|done|done].
    apply bit_denotes_at; [done|]. destruct (Z.eq_dec d NO_MORE_DOCS); [by left|right]. split; [lia|]. apply Hm. lia. }
  destruct (Z.leb_spec (length_ b) target) as [Hge|Hlt].
  - apply Hfirst, first_doc_end; [lia|]. intros i Hi. rewrite HP. unfold between.
    by rewrite (proj2 (Z.ltb_ge i (length_ b))), !andb_false_r by lia.
  - rewrite El in Hlt |- *. destruct (next_bit_spec (set b) B target HB) as (r & -> & Hr); [lia|].
    rewrite go_bind_ret. apply Hfirst. apply (first_from_doc _ B _ (bits_Length (set b))); [|lia|lia|done].
    intros i. by rewrite HP, El.
Qed.

#[export, refine] Instance bit_lawful : Lawful BitSetIterator := {
  denotes := bit_denotes;
  reliable _ := True
}.
Proof.
  - intros b P Q HPQ [H1 (B & HB & HP) H3]. split; [done| |by rewrite <- HPQ].
    exists B. split; [done|]. intros i. by rewrite <- HPQ.
  - intros b P [H1 H2 H3]. cbn. unfold NO_MORE_DOCS in *. split; [lia|]. intros Hr.
    destruct H3 as [|[|[_ H3]]]; [lia|lia|done].
  - intros b P HD Hlt. apply bit_moves; [done|]. destruct HD as [H1 H2 H3]. cbn in *. lia.
  - intros target b P HD Ht. apply bit_moves; [done|]. destruct HD as [H1 H2 H3]. cbn in *. lia.
Defined.

(** ** Sorted arrays *)

#[local] Abbreviation at_ it := (nthZ 0 (arr it)).

Record array_denotes (it : IntArrayDocIdSetIterator) (P : Z → bool) : Prop := {
  ad_len : 0 ≤ len it ≤ Z.of_nat (length (arr it));
  ad_sorted i j : 0 ≤ i < j → j < len it → at_ it i < at_ it j;
  ad_range i : 0 ≤ i < len it → 0 ≤ at_ it i < NO_MORE_DOCS;
  ad_docs d : P d = true ↔ ∃ i, 0 ≤ i < len it ∧ at_ it i = d;
  ad_position : idx_ it = 0 ∧ cur it = -1 ∨ 1 ≤ idx_ it ≤ len it ∧ cur it = at_ it (idx_ it - 1) ∨
    idx_ it = len it ∧ cur it = NO_MORE_DOCS
}.

(** What both moves end with: the element at [i]. *)
Definition take_at (i : Z) (it : IntArrayDocIdSetIterator) : M (Z * IntArrayDocIdSetIterator) :=
  if len it <=? i then mret (NO_MORE_DOCS, place i NO_MORE_DOCS it) else
  d ← aget (arr it) i;
  mret (d, place (i + 1) d it).

Lemma take_at_moves it P target i :
  array_denotes it P → 0 ≤ i ≤ len it → target ≤ NO_MORE_DOCS →
  (∀ j, 0 ≤ j < i → at_ it j < target) → (i < len it → target ≤ at_ it i) →
  wp True (take_at i it) (moves cur array_denotes (fun _ => True) it P target).
Proof.
  intros HD Hi Ht Hbefore Hat. pose proof HD as [Hl Hs Hr Hd _]. unfold take_at.
  destruct (Z.leb_spec (len it) i) as [Hge|Hlt].
  - split_and!; [|done|done|].
    + destruct HD as [H1 H2 H3 H4 H5]. split; try done. cbn -[NO_MORE_DOCS]. lia.
    + apply first_doc_end; [lia|]. intros y Hy. destruct (P y) eqn:EP; [|done].
      apply Hd in EP as (j & Hj & <-). specialize (Hbefore j). lia.
  - rewrite (nthZ_aget 0) by lia. rewrite go_bind_ret. specialize (Hr i ltac:(lia)). split_and!; [|done|done|].
    + destruct HD as [H1 H2 H3 H4 H5]. split; try done. cbn -[NO_MORE_DOCS]. right. left. split; [lia|]. f_equal. lia.
    + split_and!; [by apply Hat|lia| |].
      * intros _. apply Hd. exists i. split; [lia|done].
      * intros y Hy. destruct (P y) eqn:EP; [|done]. apply Hd in EP as (j & Hj & <-).
        destruct (Z.lt_trichotomy j i) as [Hji|[->|Hji]]; [specialize (Hbefore j); lia|lia|].
        specialize (Hs i j). lia.
Qed.

(** Everything before the index is at most the current document. *)
Lemma before_index it P : array_denotes it P → cur it < NO_MORE_DOCS →
  0 ≤ idx_ it ≤ len it ∧ -1 ≤ cur it ∧ (∀ j, 0 ≤ j < idx_ it → at_ it j ≤ cur it) ∧ (idx_ it < len it → cur it < at_ it (idx_ it)).
Proof.
  intros [Hl Hs Hr _ Hp] Hlt. destruct Hp as [[-> ->]|[[Hi ->]|[? ?]]]; [| |lia].
  - split_and!; [lia|lia|lia|lia|]. intros. specialize (Hr 0). lia.
  - split_and!; [lia|lia|specialize (Hr (idx_ it - 1)); lia| |].
    + intros j Hj. destruct (Z.eq_dec j (idx_ it - 1)) as [->|]; [lia|]. specialize (Hs j (idx_ it - 1)). lia.
    + intros. apply Hs; lia.
Qed.

Lemma search_loop_spec (f : Z → M bool) (g : Z → bool) n :
  (∀ h, 0 ≤ h < n → f h = Ret (g h)) → (∀ h k, 0 ≤ h ≤ k → k < n → g h = true → g k = true) →
  ∀ fuel i j, 0 ≤ i ≤ j → j ≤ n → j - i ≤ Z.of_nat fuel →
  (∀ h, 0 ≤ h < i → g h = false) → (j < n → g j = true) →
  ∃ r, search_loop fuel f i j = Ret r ∧ i ≤ r ≤ j ∧ (∀ h, 0 ≤ h < r → g h = false) ∧ (r < n → g r = true).
Proof.
  intros Hf Hmono. induction fuel as [|fuel IH]; intros i j Hij Hjn Hfuel Hlow Hhigh; cbn [search_loop];
    destruct (Z.ltb_spec i j); try lia.
  - exists i. split_and!; [done|lia|lia|done|]. by replace i with j by lia.
  - set (h := Z.shiftr (i + j) 1). assert (Hh : i ≤ h < j).
    { unfold h. rewrite Z.shiftr_div_pow2 by lia. change (2 ^ 1) with 2. idx. }
    rewrite Hf, go_bind_ret by lia. destruct (g h) eqn:Eg.
    + destruct (IH i h) as (r & -> & Hr & Hr1 & Hr2); [lia|lia|lia|done|done|]. exists r. split_and!; [done|lia|lia|done|done].
    + destruct (IH (h + 1) j) as (r & -> & Hr & Hr1 & Hr2); [lia|lia|lia| |done|].
      * intros k Hk. destruct (g k) eqn:Ek; [|done]. rewrite (Hmono k h) in Eg; [done|lia|lia|done].
      * exists r. split_and!; [done|lia|lia|done|done].
  - exists i. split_and!; [done|lia|lia|done|]. by replace i with j by lia.
Qed.

Lemma gallop_spec it P target : array_denotes it P → 0 ≤ idx_ it → ∀ fuel bound,
  1 ≤ bound → len it ≤ bound + Z.of_nat fuel →
  (1 < bound → idx_ it + bound / 2 < len it ∧ at_ it (idx_ it + bound / 2) < target) →
  ∃ r, gallop fuel it target bound = Ret r ∧ 1 ≤ r ∧
    (1 < r → idx_ it + r / 2 < len it ∧ at_ it (idx_ it + r / 2) < target) ∧
    (idx_ it + r < len it → target ≤ at_ it (idx_ it + r)).
Proof.
  intros [Hl _ _ _ _] Hi. induction fuel as [|fuel IH]; intros bound Hb Hf Hinv; cbn [gallop];
    (destruct (Z.ltb_spec (idx_ it + bound) (len it)) as [Hlt|Hge];
     [|exists bound; split_and!; [done|lia|done|lia]]);
    rewrite (nthZ_aget 0), go_bind_ret by lia;
    (destruct (Z.ltb_spec (at_ it (idx_ it + bound)) target) as [Hd|Hd];
     [|exists bound; split_and!; [done|lia|done|done]]); [lia|].
  apply IH; [lia|lia|]. intros _. replace (bound * 2 / 2) with bound by idx. done.
Qed.

Lemma array_Advance_moves it P target :
  array_denotes it P → cur it < target ≤ NO_MORE_DOCS →
  wp True (array_Advance target it) (moves cur array_denotes (fun _ => True) it P target).
Proof.
  intros HD Ht. pose proof HD as [Hl Hs _ _ _]. destruct (before_index it P HD) as (Hi & _ & Hbefore & _); [lia|].
  unfold array_Advance. destruct (Z.leb_spec (len it) (idx_ it)) as [Hge|Hlt].
  { pose proof (take_at_moves it P target (idx_ it) HD) as H. unfold take_at in H.
    rewrite (proj2 (Z.leb_le _ _)) in H by done. apply H; [lia|lia| |lia]. intros j Hj. specialize (Hbefore j). lia. }
  destruct (gallop_spec it P target HD ltac:(lia) (Z.to_nat (len it)) 1) as (bound & -> & Hb & Hlow & Hhigh); [lia|lia|lia|].
  rewrite go_bind_ret. set (low := idx_ it + bound / 2) in *.
  replace (if len it <? idx_ it + bound + 1 then len it else idx_ it + bound + 1) with (Z.min (len it) (idx_ it + bound + 1))
    by (destruct (Z.ltb_spec (len it) (idx_ it + bound + 1)); lia).
  set (high := Z.min (len it) (idx_ it + bound + 1)).
  assert (Hlh : idx_ it ≤ low ≤ high).
  { unfold low, high. destruct (Z.eq_dec bound 1) as [->|]; [change (1 / 2) with 0; lia|]. specialize (Hlow ltac:(lia)).
    split; [idx|]. assert (bound / 2 < bound + 1) by idx. lia. }
  unfold sort_Search. destruct (search_loop_spec (fun i => d ← aget (arr it) (low + i); mret (target <=? d))
    (fun i => target <=? at_ it (low + i)) (high - low)) with (fuel := Z.to_nat (high - low)) (i := 0) (j := high - low)
    as (r & -> & Hr & Hr1 & Hr2).
  - intros h Hh. by rewrite (nthZ_aget 0), go_bind_ret by lia.
  - intros h k Hhk Hk Hg. apply Z.leb_le in Hg. apply Z.leb_le. destruct (Z.eq_dec h k) as [->|]; [done|].
    specialize (Hs (low + h) (low + k)). lia.
  - lia.
  - lia.
  - lia.
  - lia.
  - lia.
  - rewrite go_bind_ret. change (wp True (take_at (low + r) it) (moves cur array_denotes (fun _ => True) it P target)).
    apply take_at_moves; [done|lia|lia| |].
    + intros j Hj. destruct (Z.lt_ge_cases j (idx_ it)); [specialize (Hbefore j); lia|].
      destruct (Z.lt_ge_cases j low) as [Hjl|Hjl].
      * assert (Hb1 : 1 < bound) by (destruct (Z.eq_dec bound 1) as [->|]; [change (1 / 2) with 0 in low; lia|lia]).
        destruct (Hlow Hb1) as [Hll Hv]. specialize (Hs j low). lia.
      * specialize (Hr1 (j - low) ltac:(lia)). apply Z.leb_gt in Hr1. by replace (low + (j - low)) with j in Hr1 by lia.
    + intros Hlt2. destruct (Z.lt_ge_cases r (high - low)) as [Hin|Hout].
      * specialize (Hr2 Hin). by apply Z.leb_le in Hr2.
      * (** the search went past [high]: that is past the element the gallop stopped at *)
        assert (Hlast : idx_ it + bound < len it) by lia. specialize (Hhigh Hlast).
        assert (0 ≤ bound / 2 ≤ bound) by idx. specialize (Hr1 (idx_ it + bound - low) ltac:(unfold low in *; lia)). apply Z.leb_gt in Hr1.
        replace (low + (idx_ it + bound - low)) with (idx_ it + bound) in Hr1 by lia. lia.
Qed.

#[export, refine] Instance array_lawful : Lawful IntArrayDocIdSetIterator := {
  denotes := array_denotes;
  reliable _ := True
}.
Proof.
  - intros it P Q HPQ [H1 H2 H3 H4 H5]. split; try done. intros d. by rewrite <- HPQ.
  - intros it P [Hl Hs Hr Hd Hp]. cbn -[NO_MORE_DOCS]. destruct Hp as [[_ ->]|[[Hi ->]|[_ ->]]].
    + unfold NO_MORE_DOCS. split; [lia|lia].
    + pose proof (Hr (idx_ it - 1)). split; [lia|]. intros _. apply Hd. exists (idx_ it - 1). split; [lia|done].
    + split; [unfold NO_MORE_DOCS; lia|lia].
  - intros it P HD Hlt. cbn -[NO_MORE_DOCS] in *. destruct (before_index it P HD Hlt) as (Hi & Hc & Hbefore & Hat).
    change (wp True (take_at (idx_ it) it) (moves cur array_denotes (fun _ => True) it P (cur it + 1))).
    apply take_at_moves; [done|lia|lia| |lia]. intros j Hj. specialize (Hbefore j Hj). lia.
  - intros target it P HD Ht. by apply array_Advance_moves.
Defined.
