(* ===== verification/Conjunction.v ===== *)
(** Conjunctions of iterators ([search/conjunction_disi.go]): the leap-frogging
    [conjunctionDISI], the [bitSetConjunctionDISI] that looks documents up in
    bit sets, and how [createConjunction] puts them and two-phase iterators
    together. *)

From stdpp Require Import base tactics numbers list sorting.
From Stdlib Require Import ZArith Lia Sorted.
From Stdlib Require Import SpecFloat.
From S2P Require Import Prelude WordBits DocIdSetIterator LeafIterators.

Local Open Scope Z_scope.

(** * [conjunctionDISI] *)

Record conjunctionDISI (It : Type) := { lead1 : It; lead2 : It; others : list It }.
Arguments lead1 {It} c.
Arguments lead2 {It} c.
Arguments others {It} c.

Definition set_lead1 {It} (it : It) (c : conjunctionDISI It) : conjunctionDISI It :=
  {| lead1 := it; lead2 := lead2 c; others := others c |}.
Definition set_lead2 {It} (it : It) (c : conjunctionDISI It) : conjunctionDISI It :=
  {| lead1 := lead1 c; lead2 := it; others := others c |}.
Definition set_others {It} (l : list It) (c : conjunctionDISI It) : conjunctionDISI It :=
  {| lead1 := lead1 c; lead2 := lead2 c; others := l |}.

Definition newConjunctionDISI {It} (iterators : list It) : M (conjunctionDISI It) :=
  l1 ← aget iterators 0; l2 ← aget iterators 1;
  l ← slice iterators 2 (Z.of_nat (length iterators));
  mret {| lead1 := l1; lead2 := l2; others := l |}.

(** [for _, other := range c.others]: the iterators that are behind [doc] go to it;
    the loop ends at the first one that has gone past it. *)
Fixpoint advance_others `{DocIdSetIterator It} (doc : Z) (l : list It) : M (list It * option Z) :=
  match l with
  | [] => mret ([], None)
  | other :: l =>
      if DocID other <? doc then
        '(next, other) ← Advance doc other;
        if doc <? next then mret (other :: l, Some next)
        else '(l, r) ← advance_others doc l; mret (other :: l, r)
      else '(l, r) ← advance_others doc l; mret (other :: l, r)
  end.

Definition agree_others `{DocIdSetIterator It} (c : conjunctionDISI It) (doc : Z)
  : M ((conjunctionDISI It * Z) + (Z * conjunctionDISI It)) :=
  '(l, r) ← advance_others doc (others c);
  let c := set_others l c in
  match r with
  | Some next => '(doc, l1) ← Advance next (lead1 c); mret (inl (set_lead1 l1 c, doc))
  | None => mret (inr (doc, c))
  end.

(** One iteration of [doNext] *)
Definition conj_step `{DocIdSetIterator It} (st : conjunctionDISI It * Z)
  : M ((conjunctionDISI It * Z) + (Z * conjunctionDISI It)) :=
  let '(c, doc) := st in
  '(next2, l2) ← Advance doc (lead2 c);
  let c := set_lead2 l2 c in
  if negb (next2 =? doc) then
    '(doc, l1) ← Advance next2 (lead1 c);
    let c := set_lead1 l1 c in
    if negb (doc =? next2) then mret (inl (c, doc)) else agree_others c doc
  else agree_others c doc.

Definition conj_doNext `{DocIdSetIterator It} (doc : Z) (c : conjunctionDISI It) : M (Z * conjunctionDISI It) :=
  go_loop all_docs conj_step (c, doc).

Definition conj_NextDoc `{DocIdSetIterator It} (c : conjunctionDISI It) : M (Z * conjunctionDISI It) :=
  '(doc, l1) ← NextDoc (lead1 c); conj_doNext doc (set_lead1 l1 c).

Definition conj_Advance `{DocIdSetIterator It} (target : Z) (c : conjunctionDISI It) : M (Z * conjunctionDISI It) :=
  '(doc, l1) ← Advance target (lead1 c); conj_doNext doc (set_lead1 l1 c).

#[export] Instance conj_iterator `{DocIdSetIterator It} : DocIdSetIterator (conjunctionDISI It) := {
  DocID c := DocID (lead1 c);
  NextDoc := conj_NextDoc;
  Advance := conj_Advance;
  Cost c := Cost (lead1 c)
}.

Definition conj_DocIDRunEnd `{DocIdSetIterator It} (c : conjunctionDISI It) : Z := DocID (lead1 c) + 1.

(** * [bitSetConjunctionDISI] *)

Record bitSetConjunctionDISI (It : Type) := {
  lead : It;
  bitSetIters : list BitSetIterator;
  bitSets : list Bits;
  minLength : Z
}.
Arguments lead {It} b.
Arguments bitSetIters {It} b.
Arguments bitSets {It} b.
Arguments minLength {It} b.

Definition set_lead {It} (it : It) (b : bitSetConjunctionDISI It) : bitSetConjunctionDISI It :=
  {| lead := it; bitSetIters := bitSetIters b; bitSets := bitSets b; minLength := minLength b |}.

Definition set_iters {It} (l : list BitSetIterator) (b : bitSetConjunctionDISI It) : bitSetConjunctionDISI It :=
  {| lead := lead b; bitSetIters := l; bitSets := bitSets b; minLength := minLength b |}.

(** Do all bit sets have the document? The loop ends at the first one that has not. *)
Fixpoint all_match (doc : Z) (l : list Bits) : M bool :=
  match l with
  | [] => mret true
  | bs :: l => b ← bits_Get doc bs; if (b : bool) then all_match doc l else mret false
  end.

Definition bits_step `{DocIdSetIterator It} (st : bitSetConjunctionDISI It * Z)
  : M ((bitSetConjunctionDISI It * Z) + (Z * bitSetConjunctionDISI It)) :=
  let '(b, doc) := st in
  if minLength b <=? doc then
    b ← (if negb (doc =? NO_MORE_DOCS) then '(_, l) ← Advance NO_MORE_DOCS (lead b); mret (set_lead l b) else mret b);
    mret (inr (NO_MORE_DOCS, b))
  else
    allMatch ← all_match doc (bitSets b);
    if (allMatch : bool) then mret (inr (doc, set_iters (map (SetDocId doc) (bitSetIters b)) b)) else
    '(doc, l) ← NextDoc (lead b);
    mret (inl (set_lead l b, doc)).

Definition bits_doNext `{DocIdSetIterator It} (doc : Z) (b : bitSetConjunctionDISI It) : M (Z * bitSetConjunctionDISI It) :=
  go_loop all_docs bits_step (b, doc).

Definition bits_NextDoc `{DocIdSetIterator It} (b : bitSetConjunctionDISI It) : M (Z * bitSetConjunctionDISI It) :=
  '(doc, l) ← NextDoc (lead b); bits_doNext doc (set_lead l b).

Definition bits_Advance `{DocIdSetIterator It} (target : Z) (b : bitSetConjunctionDISI It) : M (Z * bitSetConjunctionDISI It) :=
  '(doc, l) ← Advance target (lead b); bits_doNext doc (set_lead l b).

#[export] Instance bits_conj_iterator `{DocIdSetIterator It} : DocIdSetIterator (bitSetConjunctionDISI It) := {
  DocID b := DocID (lead b);
  NextDoc := bits_NextDoc;
  Advance := bits_Advance;
  Cost b := Cost (lead b)
}.

Definition bits_conj_DocIDRunEnd `{DocIdSetIterator It} (b : bitSetConjunctionDISI It) : Z := DocID (lead b) + 1.

(** * Putting them together *)

Section create.

(** [slices.SortFunc] leaves the order of equal elements open. *)
Context (SortFunc : ∀ A : Type, (A → A → Z) → list A → list A).

Definition MaxInt : Z := 9223372036854775807.

Definition newBitSetConjunctionDISI {It} (lead : It) (bsIters : list BitSetIterator) : bitSetConjunctionDISI It :=
  let bsIters := SortFunc _ (fun a b => to_int64 (cost a - cost b)) bsIters in
  {| lead := lead; bitSetIters := bsIters; bitSets := map GetBitSet bsIters;
     minLength := foldl (fun minLen bs => if bits_Length bs <? minLen then bits_Length bs else minLen)
                    MaxInt (map GetBitSet bsIters) |}.

Definition compare_costs `{DocIdSetIterator It} (a b : It) : Z :=
  if Cost a <? Cost b then -1 else if Cost b <? Cost a then 1 else 0.

(** An iterator over bits that is dearer than the cheapest iterator. *)
Definition promoted {It} (minCost : Z) (it : BitSetIterator + It) : option BitSetIterator :=
  match it with inl b => if minCost <? cost b then Some b else None | inr _ => None end.

(** The iterators joined, without the two-phase iterators: one iterator or a
    [conjunctionDISI], and perhaps a [bitSetConjunctionDISI] over that. *)
Definition joined (It : Type) : Type :=
  let J := (BitSetIterator + It)%type in
  ((J + conjunctionDISI J) + bitSetConjunctionDISI (J + conjunctionDISI J))%type.

Definition join_iterators `{DocIdSetIterator It} (minCost : Z) (allIterators : list (BitSetIterator + It)) : M (joined It) :=
  let bitSetIters := omap (promoted minCost) allIterators in
  let iterators := filter (fun it => promoted minCost it = None) allIterators in
  let iterators := SortFunc _ compare_costs iterators in
  disi ← (if Z.of_nat (length iterators) =? 1 then it ← aget iterators 0; mret (inl it)
          else c ← newConjunctionDISI iterators; mret (inr c));
  mret (if 0 <? Z.of_nat (length bitSetIters) then inr (newBitSetConjunctionDISI disi bitSetIters) else inl disi).

Definition compare_match_costs {It} (a b : TwoPhaseIterator It) : Z :=
  if SFltb (MatchCost a) (MatchCost b) then -1 else if SFltb (MatchCost b) (MatchCost a) then 1 else 0.

(** The verifiers in turn, up to the first that does not accept the document. *)
Fixpoint match_all (matchFns : list (Z → M bool)) (doc : Z) : M bool :=
  match matchFns with
  | [] => mret true
  | fn :: matchFns => ok ← fn doc; if (ok : bool) then match_all matchFns doc else mret false
  end.

(** [totalMatchCost += tpi.MatchCost()] *)
Definition total_match_cost {It} (l : list (TwoPhaseIterator It)) : spec_float :=
  foldl (fun total t => SFadd 24 128 total (MatchCost t)) (S754_zero false) l.

Definition conjunction (It : Type) : Type := (joined It + TwoPhaseIterator (joined It))%type.

(** The approximations of the two-phase iterators are among [allIterators], or were
    taken apart into some of them ([addTwoPhaseIteratorToConjunction] has put them
    there): the same objects, which the conjunction moves.  They are on its document
    whenever a verifier is asked ([parts_on_document] below), so that the verifiers
    get that document. *)
Definition createConjunction `{DocIdSetIterator It} (allIterators : list (BitSetIterator + It))
    (twoPhaseIterators : list (TwoPhaseIterator (BitSetIterator + It))) : M (conjunction It) :=
  if (Z.of_nat (length allIterators) =? 0) && (Z.of_nat (length twoPhaseIterators) =? 0) then Panic else
  curDoc ← (if 0 <? Z.of_nat (length allIterators) then it ← aget allIterators 0; mret (DocID it)
            else t ← aget twoPhaseIterators 0; mret (DocID (approximation t)));
  if negb (forallb (fun it => DocID it =? curDoc) allIterators) then Panic else
  let minCost := foldl (fun m it => if Cost it <? m then Cost it else m) (2 ^ 62 - 1) allIterators in
  if negb (forallb (fun t => DocID (approximation t) =? curDoc) twoPhaseIterators) then Panic else
  disi ← join_iterators minCost allIterators;
  if 0 <? Z.of_nat (length twoPhaseIterators) then
    let twoPhaseIterators := SortFunc _ compare_match_costs twoPhaseIterators in
    let matchFns := map (fun t => matches (verifier t)) twoPhaseIterators in
    mret (inr (NewTwoPhaseIteratorWithMatchCost disi (match_all matchFns) (total_match_cost twoPhaseIterators)))
  else mret (inl disi).

End create.

(** * A conjunction is an iterator over the intersection *)

Definition in_all (Ps : list (Z → bool)) (i : Z) : bool := forallb (fun Q => Q i) Ps.

Lemma in_all_cons Q Ps i : in_all (Q :: Ps) i = Q i && in_all Ps i.
Proof. done. Qed.

Section conjunction.
Context {It : Type} `{Lawful It}.
Implicit Types (c : conjunctionDISI It).

Definition conj_reliable c : Prop := reliable (lead1 c) ∧ reliable (lead2 c) ∧ Forall reliable (others c).

(** The documents of the parts. *)
Record parts c (P1 P2 : Z → bool) (Ps : list (Z → bool)) : Prop := {
  p_lead1 : denotes (lead1 c) P1;
  p_lead2 : denotes (lead2 c) P2;
  p_others : Forall2 denotes (others c) Ps
}.

Definition meet (P1 P2 : Z → bool) (Ps : list (Z → bool)) (i : Z) : bool := P1 i && P2 i && in_all Ps i.

Definition conj_denotes c (P : Z → bool) : Prop :=
  ∃ P1 P2 Ps, parts c P1 P2 Ps ∧ (∀ i, P i = meet P1 P2 Ps i) ∧
    DocID (lead2 c) = DocID (lead1 c) ∧ Forall (fun o => DocID o = DocID (lead1 c)) (others c).

(** After the other iterators: all are on [doc], or one is past it. *)
Definition advanced (Ps : list (Z → bool)) (doc : Z) (l : list It) (r : list It * option Z) : Prop :=
  let '(l', next) := r in
  Forall2 denotes l' Ps ∧ (Forall reliable l → Forall reliable l') ∧
  match next with
  | None => Forall (fun o => DocID o = doc) l' ∧ (doc < NO_MORE_DOCS → in_all Ps doc = true)
  | Some n => doc < n ≤ NO_MORE_DOCS ∧ Forall (fun o => DocID o ≤ n) l' ∧ ∀ i, doc ≤ i < n → in_all Ps i = false
  end.

Lemma advanced_cons Q Ps doc o o' l r :
  denotes o' Q → DocID o' = doc → (reliable o → reliable o') → 0 ≤ doc →
  advanced Ps doc l r → advanced (Q :: Ps) doc (o :: l) (o' :: r.1, r.2).
Proof.
  intros HD Hp Hr Hd. destruct r as [l' next]. intros (H2 & Hrel & Hn). split_and!; [by constructor| |].
  - intros [? ?]%Forall_cons. constructor; [by apply Hr|by apply Hrel].
  - cbn [snd]. destruct next as [n|].
    + destruct Hn as (Hn & Hl & Hnone). split_and!; [lia|lia|constructor; [lia|done]|].
      intros i Hi. by rewrite in_all_cons, Hnone, andb_false_r.
    + destruct Hn as [Hl Hall]. split; [by constructor|]. intros Hlt. rewrite in_all_cons, Hall, andb_true_r by done.
      destruct (position _ _ HD) as [_ Hm]. rewrite Hp in Hm. apply Hm. lia.
Qed.

Lemma advance_others_spec doc : 0 ≤ doc ≤ NO_MORE_DOCS → ∀ l Ps,
  Forall2 denotes l Ps → Forall (fun o => DocID o ≤ doc) l →
  wp (Forall reliable l) (advance_others doc l) (advanced Ps doc l).
Proof.
  intros Hd. induction l as [|o l IH]; intros Ps H2 Hl; cbn [advance_others].
  { apply Forall2_nil_inv_l in H2 as ->. cbn. split_and!; [constructor|done|constructor|done]. }
  apply Forall2_cons_inv_l in H2 as (Q & Ps' & HD & H2 & ->). apply Forall_cons in Hl as [Ho Hl].
  assert (Hrest : ∀ o', denotes o' Q → DocID o' = doc → (reliable o → reliable o') →
    wp (Forall reliable (o :: l)) ('(l, r) ← advance_others doc l; mret (o' :: l, r)) (advanced (Q :: Ps') doc (o :: l))).
  { intros o' HD' Hp' Hr'. apply wp_bind. eapply wp_mono; [by apply IH|by intros [? ?]%Forall_cons|].
    intros [l' next] Ha. by apply (advanced_cons Q Ps' doc o o' l (l', next)); [..|lia|]. }
  destruct (Z.ltb_spec (DocID o) doc) as [Hlt|Hge]; [|apply Hrest; [done|lia|done]].
  apply wp_bind. eapply wp_mono; [apply (Advance_moves doc o Q HD); lia|by intros [? ?]%Forall_cons|].
  intros [next o'] (HD' & Hp' & Hr' & Hn & Hm & Hnone).
  destruct (Z.ltb_spec doc next) as [Hgt|Hle]; [|apply Hrest; [done|lia|done]].
  cbn. split_and!; [by constructor| |lia|lia|constructor; [lia|]|].
  - intros [? ?]%Forall_cons. constructor; [by apply Hr'|done].
  - eapply Forall_impl; [exact Hl|]. cbn. lia.
  - intros i Hi. change (in_all (Q :: Ps') i = false). by rewrite in_all_cons, Hnone by lia.
Qed.

(** What holds before an iteration of [doNext]: [lead1] is on [doc], the others are
    not past it, and there is no common document before it. *)
Definition conj_inv (c0 : conjunctionDISI It) (P1 P2 : Z → bool) (Ps : list (Z → bool)) (from : Z)
    (st : conjunctionDISI It * Z) : Prop :=
  let '(c, doc) := st in
  parts c P1 P2 Ps ∧ DocID (lead1 c) = doc ∧ DocID (lead2 c) < doc ∧ Forall (fun o => DocID o ≤ doc) (others c) ∧
  (conj_reliable c0 → conj_reliable c) ∧ from ≤ doc ≤ NO_MORE_DOCS ∧ ∀ i, from ≤ i < doc → meet P1 P2 Ps i = false.

Definition conj_result (c0 : conjunctionDISI It) (P1 P2 : Z → bool) (Ps : list (Z → bool)) (from doc : Z)
    (r : (conjunctionDISI It * Z) + (Z * conjunctionDISI It)) : Prop :=
  match r with
  | inl (c', doc') => conj_inv c0 P1 P2 Ps from (c', doc') ∧ NO_MORE_DOCS - doc' < NO_MORE_DOCS - doc
  | inr r => moves (fun c => DocID (lead1 c)) conj_denotes conj_reliable c0 (meet P1 P2 Ps) from r
  end.

(** Both leads are on [doc]. *)
Lemma agree_others_spec c0 c P1 P2 Ps from doc :
  parts c P1 P2 Ps → DocID (lead1 c) = doc → DocID (lead2 c) = doc → Forall (fun o => DocID o ≤ doc) (others c) →
  (conj_reliable c0 → conj_reliable c) → 0 ≤ from → from ≤ doc ≤ NO_MORE_DOCS →
  (∀ i, from ≤ i < doc → meet P1 P2 Ps i = false) →
  wp (conj_reliable c0) (agree_others c doc) (conj_result c0 P1 P2 Ps from doc).
Proof.
  intros [D1 D2 D3] Hp1 Hp2 Ho Hrel Hf Hdoc Hnone. unfold agree_others. apply wp_bind.
  eapply wp_mono; [apply (advance_others_spec doc ltac:(lia) _ _ D3 Ho)|by intros (? & ? & ?)%Hrel|].
  intros [l [n|]] (HD & Hr & Hn).
  - destruct Hn as (Hn & Hl & Hnone2). apply wp_bind.
    eapply wp_mono; [apply (Advance_moves n (lead1 c) P1 D1); lia|by intros (? & ? & ?)%Hrel|].
    intros [d l1] (HD1 & Hp1' & Hr1 & Hd & Hm & Hnone1). cbn. split; [|lia].
    split_and!; [by split|done|lia| | |lia|lia|].
    + eapply Forall_impl; [exact Hl|]. cbn. lia.
    + intros Hc0. destruct (Hrel Hc0) as (? & ? & ?). split_and!; cbn; [by apply Hr1|done|by apply Hr].
    + intros i Hi. destruct (Z.lt_ge_cases i doc); [apply Hnone; lia|]. unfold meet.
      destruct (Z.lt_ge_cases i n); [by rewrite Hnone2, andb_false_r by lia|by rewrite Hnone1 by lia].
  - destruct Hn as [Hl Hall]. cbn. split_and!; [|done| |].
    + exists P1, P2, Ps. split_and!; [by split|done|cbn; congruence|]. cbn. by rewrite Hp1.
    + intros Hc0. destruct (Hrel Hc0) as (? & ? & ?). split_and!; cbn; [done|done|by apply Hr].
    + split_and!; [lia|lia| |done]. intros Hlt. unfold meet. rewrite Hall by done.
      destruct (position _ _ D1) as [_ Hm1], (position _ _ D2) as [_ Hm2]. rewrite Hp1 in Hm1. rewrite Hp2 in Hm2.
      by rewrite Hm1, Hm2 by lia.
Qed.

Lemma conj_step_spec c0 P1 P2 Ps from c doc :
  0 ≤ from → conj_inv c0 P1 P2 Ps from (c, doc) →
  wp (conj_reliable c0) (conj_step (c, doc)) (conj_result c0 P1 P2 Ps from doc).
Proof.
  intros Hf ([D1 D2 D3] & Hp1 & Hp2 & Ho & Hrel & Hdoc & Hnone). unfold conj_step. apply wp_bind.
  eapply wp_mono; [apply (Advance_moves doc (lead2 c) P2 D2); lia|by intros (? & ? & ?)%Hrel|].
  intros [next2 l2] (HD2 & Hp2' & Hr2 & Hn2 & Hm2 & Hnone2).
  destruct (Z.eqb_spec next2 doc) as [->|Hne]; cbn [negb].
  - apply agree_others_spec; try done.
    intros Hc0. destruct (Hrel Hc0) as (? & ? & ?). split_and!; cbn; [done|by apply Hr2|done].
  - apply wp_bind. eapply wp_mono; [apply (Advance_moves next2 (lead1 c) P1 D1); lia|by intros (? & ? & ?)%Hrel|].
    intros [d l1] (HD1 & Hp1' & Hr1 & Hd & Hm1 & Hnone1).
    assert (Hrel' : conj_reliable c0 → conj_reliable (set_lead1 l1 (set_lead2 l2 c))).
    { intros Hc0. destruct (Hrel Hc0) as (? & ? & ?). split_and!; cbn; [by apply Hr1|by apply Hr2|done]. }
    assert (Hempty : ∀ i, from ≤ i < d → meet P1 P2 Ps i = false).
    { intros i Hi. destruct (Z.lt_ge_cases i doc); [apply Hnone; lia|]. unfold meet.
      destruct (Z.lt_ge_cases i next2); [by rewrite Hnone2, andb_false_r by lia|by rewrite Hnone1 by lia]. }
    assert (Ho' : Forall (fun o => DocID o ≤ d) (others c)) by (eapply Forall_impl; [exact Ho|]; cbn; lia).
    destruct (Z.eqb_spec d next2) as [->|Hne2]; cbn [negb].
    + eapply wp_mono; [apply (agree_others_spec c0 (set_lead1 l1 (set_lead2 l2 c)) P1 P2 Ps from next2)|done|];
        try done; first [by split|lia|idtac].
      intros [[c' d']|r]; [|done]. intros [Hinv Hlt]. split; [done|lia].
    + cbn. split; [|lia]. split_and!; [by split|done|lia|done|done|lia|lia|done].
Qed.

Lemma conj_doNext_moves c0 c P1 P2 Ps from doc :
  parts c P1 P2 Ps → 0 ≤ from → first_doc P1 from doc → DocID (lead1 c) = doc → DocID (lead2 c) < from →
  Forall (fun o => DocID o < from) (others c) → (conj_reliable c0 → conj_reliable c) →
  wp (conj_reliable c0) (conj_doNext doc c)
    (moves (fun c => DocID (lead1 c)) conj_denotes conj_reliable c0 (meet P1 P2 Ps) from).
Proof.
  intros HD Hf (Hd & Hm & Hn) Hp1 Hp2 Ho Hrel. unfold conj_doNext.
  apply (go_loop_wp _ (conj_inv c0 P1 P2 Ps from) (fun '(_, doc) => NO_MORE_DOCS - doc)).
  - split_and!; [done|done|lia| |done|lia|lia|].
    + eapply Forall_impl; [exact Ho|]. cbn. lia.
    + intros i Hi. unfold meet. by rewrite Hn.
  - unfold NO_MORE_DOCS, all_docs in *. lia.
  - intros [c' d']. unfold conj_inv. lia.
  - intros [c' d'] Hinv. eapply wp_mono; [by apply (conj_step_spec c0 P1 P2 Ps from c' d' Hf)|done|].
    by intros [[c2 d2]|r].
Qed.

(** A move of the first iterator, and then the others. *)
Lemma conj_move c P P1 P2 Ps from (m : M (Z * It)) :
  conj_denotes c P → parts c P1 P2 Ps → (∀ i, P i = meet P1 P2 Ps i) → 0 ≤ from → DocID (lead1 c) < from →
  wp (reliable (lead1 c)) m (moves DocID denotes reliable (lead1 c) P1 from) →
  wp (conj_reliable c) ('(doc, l1) ← m; conj_doNext doc (set_lead1 l1 c))
    (moves (fun c => DocID (lead1 c)) conj_denotes conj_reliable c P from).
Proof.
  intros (_ & _ & _ & _ & _ & H3 & H4) [D1 D2 D3] HP Hf Hlt Hm. apply wp_bind.
  eapply wp_mono; [exact Hm|by intros [? _]|]. intros [d l1] (HD1 & Hp1' & Hr1 & HF).
  eapply wp_mono; [apply (conj_doNext_moves c (set_lead1 l1 c) P1 P2 Ps from d)|done|].
  - by split.
  - done.
  - done.
  - done.
  - cbn. lia.
  - cbn. eapply Forall_impl; [exact H4|]. cbn. lia.
  - intros (? & ? & ?). split_and!; cbn; [by apply Hr1|done|done].
  - intros [d' c'] (HD' & Hp' & Hr' & HF'). split_and!; [|done|done|].
    + destruct HD' as (Q1 & Q2 & Qs & ? & ? & ? & ?). exists Q1, Q2, Qs. split_and!; try done. intros i. by rewrite HP.
    + apply first_doc_ext with (meet P1 P2 Ps); [by intros; rewrite HP|done].
Qed.

#[export, refine] Instance conj_lawful : Lawful (conjunctionDISI It) := {
  denotes := conj_denotes;
  reliable := conj_reliable
}.
Proof.
  - intros c P Q HPQ (P1 & P2 & Ps & HD & HP & H3 & H4). exists P1, P2, Ps. split_and!; [done| |done|done].
    intros i. by rewrite <- HPQ.
  - intros c P (P1 & P2 & Ps & [D1 D2 D3] & HP & H3 & H4). cbn. destruct (position _ _ D1) as [Hp1 Hm1].
    split; [done|]. intros Hr. rewrite HP. unfold meet, in_all. rewrite Hm1 by done.
    destruct (position _ _ D2) as [_ Hm2]. rewrite H3 in Hm2. rewrite Hm2 by done. cbn.
    apply forallb_forall. intros Q HQ%list_elem_of_In. apply list_elem_of_lookup in HQ as [n HQ].
    destruct (Forall2_lookup_r _ _ _ _ _ D3 HQ) as (o & Ho & HDo). rewrite Forall_forall in H4.
    specialize (H4 o (list_elem_of_lookup_2 _ _ _ Ho)). destruct (position _ _ HDo) as [_ Hmo]. rewrite H4 in Hmo. by apply Hmo.
  - intros c P HD Hlt. pose proof HD as (P1 & P2 & Ps & Hparts & HP & _). pose proof Hparts as [D1 _ _].
    cbn in *. destruct (position _ _ D1) as [Hp1 _].
    apply (conj_move c P P1 P2 Ps); [done|done|done|lia|lia|]. by apply NextDoc_moves.
  - intros target c P HD Hlt. pose proof HD as (P1 & P2 & Ps & Hparts & HP & _). pose proof Hparts as [D1 _ _].
    cbn in *. destruct (position _ _ D1) as [Hp1 _].
    apply (conj_move c P P1 P2 Ps); [done|done|done|lia|lia|]. by apply Advance_moves.
Defined.
End conjunction.

(** * The conjunction with bit sets *)

Lemma all_match_spec doc l Bs :
  Forall2 (fun bs B => bits_denotes bs B ∧ 0 ≤ doc < bits_Length bs) l Bs →
  all_match doc l = Ret (in_all Bs doc).
Proof.
  induction 1 as [|bs B l Bs [HB Hd] _ IH]; [done|]. cbn [all_match].
  rewrite (bits_Get_spec _ B), go_bind_ret, in_all_cons by done. by destruct (B doc).
Qed.

Section bit_conjunction.
Context {It : Type} `{Lawful It}.
Implicit Types (b : bitSetConjunctionDISI It).

(** The bit sets are those of the iterators; the documents are those of the lead
    that are in all of them. *)
Record bits_parts b (P1 : Z → bool) (Ps : list (Z → bool)) : Prop := {
  bp_lead : denotes (lead b) P1;
  bp_iters : Forall2 bit_denotes (bitSetIters b) Ps;
  bp_sets : bitSets b = map GetBitSet (bitSetIters b);
  bp_min : Forall (fun it => minLength b ≤ length_ it) (bitSetIters b);
  bp_min_any : ∀ i, in_all Ps i = true → i < minLength b;
  bp_bound : minLength b ≤ NO_MORE_DOCS
}.

Definition bits_meet (P1 : Z → bool) (Ps : list (Z → bool)) (i : Z) : bool := P1 i && in_all Ps i.

Definition bits_conj_denotes b (P : Z → bool) : Prop :=
  ∃ P1 Ps, bits_parts b P1 Ps ∧ (∀ i, P i = bits_meet P1 Ps i) ∧
    (0 ≤ DocID (lead b) < NO_MORE_DOCS →
     P (DocID (lead b)) = true ∧ Forall (fun it => doc it = DocID (lead b)) (bitSetIters b)).

Lemma bits_parts_lead b P1 Ps l : bits_parts b P1 Ps → denotes l P1 → bits_parts (set_lead l b) P1 Ps.
Proof. intros [H1 H2 H3 H4 H5 H6] Hl. by split. Qed.

(** On a match the iterators are put on the document. *)
Lemma bits_parts_doc b P1 Ps d : bits_parts b P1 Ps → 0 ≤ d < NO_MORE_DOCS → in_all Ps d = true →
  bits_parts (set_iters (map (SetDocId d) (bitSetIters b)) b) P1 Ps.
Proof.
  intros [H1 H2 H3 H4 H5 H6] Hd Hall. split; cbn; [done| | | |done|done].
  - clear -H2 Hall Hd. induction H2 as [|it P l Ps HD _ IH]; [constructor|]. rewrite in_all_cons in Hall.
    apply andb_true_iff in Hall as [Hp Hall]. constructor; [apply bit_denotes_at; [done|by right]|by apply IH].
  - rewrite H3, map_map. by apply map_ext.
  - rewrite Forall_forall in H4 |- *. intros it (it0 & -> & Hin)%list_elem_of_fmap. cbn. by apply H4.
Qed.

Lemma bits_look b P1 Ps d : bits_parts b P1 Ps → 0 ≤ d < minLength b → all_match d (bitSets b) = Ret (in_all Ps d).
Proof.
  intros [_ H2 -> H4 _ _] Hd.
  assert (HBs : ∃ Bs, Forall2 (fun bs B => bits_denotes bs B ∧ 0 ≤ d < bits_Length bs) (map GetBitSet (bitSetIters b)) Bs ∧
    in_all Bs d = in_all Ps d).
  { induction H2 as [|it P l Ps HD _ IH]; [exists []; by split; [constructor|]|].
    apply Forall_cons in H4 as [Hlen H4]. destruct (IH H4) as (Bs & HF & E).
    destruct HD as [[El Hl] (B & HB & HP) _]. exists (B :: Bs). split.
    - constructor; [|done]. unfold GetBitSet. split; [done|lia].
    - rewrite !in_all_cons, E, HP. unfold between. rewrite (proj2 (Z.leb_le _ _)), (proj2 (Z.ltb_lt _ _)) by lia.
      by rewrite andb_true_r. }
  destruct HBs as (Bs & HF & <-). by apply all_match_spec.
Qed.

Definition bits_inv (b0 : bitSetConjunctionDISI It) (P1 : Z → bool) (Ps : list (Z → bool)) (from : Z)
    (st : bitSetConjunctionDISI It * Z) : Prop :=
  let '(b, doc) := st in
  bits_parts b P1 Ps ∧ DocID (lead b) = doc ∧ (reliable (lead b0) → reliable (lead b)) ∧
  from ≤ doc ≤ NO_MORE_DOCS ∧ ∀ i, from ≤ i < doc → bits_meet P1 Ps i = false.

Definition bits_pos b : Z := DocID (lead b).
Definition bits_reliable b : Prop := reliable (lead b).

Lemma bits_step_spec b0 P1 Ps from b doc :
  0 ≤ from → bits_inv b0 P1 Ps from (b, doc) →
  wp (bits_reliable b0) (bits_step (b, doc)) (fun r =>
    match r with
    | inl (b', doc') => bits_inv b0 P1 Ps from (b', doc') ∧ NO_MORE_DOCS - doc' < NO_MORE_DOCS - doc
    | inr r => moves bits_pos bits_conj_denotes bits_reliable b0 (bits_meet P1 Ps) from r
    end).
Proof.
  intros Hf (HD & Hp & Hrel & Hdoc & Hnone). pose proof HD as [D1 _ _ _ Hmin Hbound]. unfold bits_step.
  destruct (Z.leb_spec (minLength b) doc) as [Hge|Hlt].
  - (** no bit set reaches [doc] *)
    assert (Hend : ∀ b', bits_parts b' P1 Ps → DocID (lead b') = NO_MORE_DOCS → (bits_reliable b0 → bits_reliable b') →
      moves bits_pos bits_conj_denotes bits_reliable b0 (bits_meet P1 Ps) from (NO_MORE_DOCS, b')).
    { intros b' HD' Hp' Hr'. split_and!; [|done|done|].
      - exists P1, Ps. split_and!; [done|done|]. rewrite Hp'. lia.
      - apply first_doc_end; [lia|]. intros i Hi. destruct (Z.lt_ge_cases i doc); [apply Hnone; lia|].
        unfold bits_meet. destruct (in_all Ps i) eqn:E; [|apply andb_false_r]. apply Hmin in E. lia. }
    destruct (Z.eqb_spec doc NO_MORE_DOCS) as [E|Hne]; cbn [negb].
    + cbn. apply Hend; [done|congruence|done].
    + apply wp_bind. apply wp_bind.
      eapply wp_mono; [apply (Advance_moves NO_MORE_DOCS (lead b) P1 D1); lia|exact Hrel|].
      intros [d l] (HD' & Hp' & Hr' & Hd & _). cbn -[NO_MORE_DOCS]. apply Hend; [by apply bits_parts_lead|cbn; lia|].
      intros Hb0. by apply Hr', Hrel.
  - rewrite (bits_look b P1 Ps), go_bind_ret by (done || lia). destruct (position _ _ D1) as [Hpos Hm]. rewrite Hp in Hm.
    destruct (in_all Ps doc) eqn:Eall.
    + cbn. split_and!; [|done|done|].
      * exists P1, Ps. split_and!; [apply bits_parts_doc; (done || lia)|done|]. cbn. rewrite Hp. intros Hr.
        unfold bits_meet. rewrite Hm, Eall by done. split; [done|].
        apply Forall_forall. by intros ? (? & -> & _)%list_elem_of_fmap.
      * split_and!; [lia|lia| |done]. intros Hlt2. unfold bits_meet. by rewrite Hm, Eall by lia.
    + apply wp_bind. eapply wp_mono; [apply (NextDoc_moves (lead b) P1 D1); lia|exact Hrel|].
      intros [d l] (HD' & Hp' & Hr' & Hd & Hm' & Hnone'). cbn. rewrite Hp in Hd, Hnone'. split; [|lia].
      split_and!; [by apply bits_parts_lead|done|intros; by apply Hr', Hrel|lia|lia|].
      intros i Hi. destruct (Z.lt_ge_cases i doc); [apply Hnone; lia|]. unfold bits_meet.
      destruct (Z.eq_dec i doc) as [->|]; [by rewrite Eall, andb_false_r|by rewrite Hnone' by lia].
Qed.

Lemma bits_move b P P1 Ps from (m : M (Z * It)) :
  bits_parts b P1 Ps → (∀ i, P i = bits_meet P1 Ps i) → 0 ≤ from →
  wp (reliable (lead b)) m (moves DocID denotes reliable (lead b) P1 from) →
  wp (bits_reliable b) ('(doc, l) ← m; bits_doNext doc (set_lead l b))
    (moves bits_pos bits_conj_denotes bits_reliable b P from).
Proof.
  intros HD HP Hf Hm. apply wp_bind. eapply wp_mono; [exact Hm|done|]. intros [d l] (HD1 & Hp1 & Hr1 & Hd & Hmd & Hn).
  eapply (wp_mono (bits_reliable b) _ _ (moves bits_pos bits_conj_denotes bits_reliable b (bits_meet P1 Ps) from)); [|done|].
  - unfold bits_doNext. apply (go_loop_wp _ (bits_inv b P1 Ps from) (fun '(_, doc) => NO_MORE_DOCS - doc)).
    + split_and!; [by apply bits_parts_lead|done|done|lia|lia|]. intros i Hi. unfold bits_meet. by rewrite Hn.
    + unfold NO_MORE_DOCS, all_docs in *. lia.
    + intros [b' d']. unfold bits_inv. lia.
    + intros [b' d'] Hinv. eapply wp_mono; [by apply (bits_step_spec b P1 Ps from b' d' Hf)|done|].
      by intros [[b2 d2]|r].
  - intros [d' b'] (HD' & Hp' & Hr' & HF'). split_and!; [|done|done|].
    + destruct HD' as (Q1 & Qs & ? & HQ & HQp). exists Q1, Qs. split_and!; [done|intros; by rewrite HP|].
      intros Hr. rewrite HP. by apply HQp.
    + apply first_doc_ext with (bits_meet P1 Ps); [by intros; rewrite HP|done].
Qed.

#[export, refine] Instance bits_conj_lawful : Lawful (bitSetConjunctionDISI It) := {
  denotes := bits_conj_denotes;
  reliable := bits_reliable
}.
Proof.
  - intros b P Q HPQ (P1 & Ps & HD & HP & Hm). exists P1, Ps. split_and!; [done| |]; intros; rewrite <- HPQ; auto.
  - intros b P (P1 & Ps & [D1 _ _ _ _ _] & HP & Hm). cbn. destruct (position _ _ D1) as [Hp _].
    split; [done|]. intros Hr. by apply Hm.
  - intros b P (P1 & Ps & HD & HP & Hm) Hlt. pose proof HD as [D1 _ _ _ _ _]. cbn in *. destruct (position _ _ D1) as [Hp _].
    apply (bits_move b P P1 Ps); [done|done|lia|]. by apply NextDoc_moves.
  - intros target b P (P1 & Ps & HD & HP & Hm) Ht. pose proof HD as [D1 _ _ _ _ _]. cbn in *. destruct (position _ _ D1) as [Hp _].
    apply (bits_move b P P1 Ps); [done|done|lia|]. by apply Advance_moves.
Defined.
End bit_conjunction.

(** * [createConjunction] *)

#[export] Instance joined_iterator `{DocIdSetIterator It} : DocIdSetIterator (joined It) :=
  sum_iterator (A := (BitSetIterator + It) + conjunctionDISI (BitSetIterator + It)).
#[export] Instance joined_lawful `{Lawful It} : Lawful (joined It) :=
  sum_lawful (A := (BitSetIterator + It) + conjunctionDISI (BitSetIterator + It)).
#[export] Instance conjunction_iterator `{DocIdSetIterator It} : DocIdSetIterator (conjunction It) :=
  sum_iterator (A := joined It).
#[export] Instance conjunction_lawful `{Lawful It} : Lawful (conjunction It) :=
  sum_lawful (A := joined It).

(** The documents that the iterators of a conjunction are on. *)
Definition leads `{DocIdSetIterator It} (c : It + conjunctionDISI It) : list Z :=
  match c with inl it => [DocID it] | inr c => DocID (lead1 c) :: DocID (lead2 c) :: map DocID (others c) end.

Definition part_documents `{DocIdSetIterator It} (c : joined It) : list Z :=
  match c with inl d => leads d | inr b => leads (lead b) ++ map doc (bitSetIters b) end.

Lemma leads_on_document {J : Type} `{Lawful J} (c : J + conjunctionDISI J) P d :
  denotes c P → d ∈ leads c → d = DocID c.
Proof.
  destruct c as [it|c]; [by intros _ ->%list_elem_of_singleton|].
  intros (P1 & P2 & Ps & _ & _ & H2 & H3). cbn. rewrite !elem_of_cons, list_elem_of_fmap.
  intros [->|[->|(o & -> & Ho)]]; [done|done|]. rewrite Forall_forall in H3. by apply H3.
Qed.

(** When a conjunction is on a document, all its iterators are on it. *)
Lemma parts_on_document `{Lawful It} (c : joined It) P :
  denotes c P → 0 ≤ DocID c < NO_MORE_DOCS → Forall (fun d => d = DocID c) (part_documents c).
Proof.
  intros HD Hr. apply Forall_forall. intros d Hd. destruct c as [c|b]; [by apply (leads_on_document c P)|].
  destruct HD as (P1 & Ps & [D1 _ _ _ _ _] & _ & Hm). destruct (Hm Hr) as [_ HF].
  apply elem_of_app in Hd as [Hd|(it & -> & Hit)%list_elem_of_fmap]; [by apply (leads_on_document (lead b) P1)|].
  rewrite Forall_forall in HF. by apply HF.
Qed.

Lemma foldl_min {A} (f : A → Z) l : ∀ m,
  let r := foldl (fun m x => if f x <? m then f x else m) m l in
  r ≤ m ∧ Forall (fun x => r ≤ f x) l ∧ (r = m ∨ ∃ x, x ∈ l ∧ r = f x).
Proof.
  induction l as [|x l IH]; intros m; cbn [foldl]; [split_and!; [lia|constructor|by left]|].
  set (m' := if f x <? m then f x else m).
  assert (Hm : m' ≤ m ∧ m' ≤ f x ∧ (m' = m ∨ m' = f x)) by (unfold m'; destruct (Z.ltb_spec (f x) m); lia).
  destruct (IH m') as (H1 & H2 & H3). split_and!; [lia|constructor; [lia|done]|].
  destruct H3 as [H3|(y & Hy & H3)]; [|right; exists y; split; [by right|done]].
  destruct Hm as (_ & _ & [Hm|Hm]); [left; congruence|right; exists x; split; [by left|congruence]].
Qed.

Lemma Forall2_perm {A B} (R : A → B → Prop) l l' k : l' ≡ₚ l → Forall2 R l k → ∃ k', Forall2 R l' k' ∧ k' ≡ₚ k.
Proof.
  intros Hp. symmetry in Hp. revert k. induction Hp as [|x l l' _ IH|x y l|l1 l2 l3 _ IH1 _ IH2]; intros k HF.
  - by exists k.
  - apply Forall2_cons_inv_l in HF as (z & k' & Hz & HF & ->). destruct (IH k' HF) as (k2 & H1 & H2).
    exists (z :: k2). split; [by constructor|by rewrite H2].
  - apply Forall2_cons_inv_l in HF as (z1 & k1 & Hz1 & HF & ->). apply Forall2_cons_inv_l in HF as (z2 & k2 & Hz2 & HF & ->).
    exists (z2 :: z1 :: k2). split; [by repeat constructor|by constructor].
  - destruct (IH1 k HF) as (k1 & H1 & H2). destruct (IH2 k1 H1) as (k2 & H3 & H4). exists k2. split; [done|by rewrite H4].
Qed.

Lemma in_all_perm Ps Qs i : Ps ≡ₚ Qs → in_all Ps i = in_all Qs i.
Proof.
  induction 1 as [|P l l' _ IH|P Q l|l1 l2 l3 _ IH1 _ IH2]; rewrite ?in_all_cons; [done|by rewrite IH| |congruence].
  rewrite !andb_assoc. f_equal. apply andb_comm.
Qed.

Section create_spec.
Context {It : Type} `{Lawful It}.
Context (SortFunc : ∀ A : Type, (A → A → Z) → list A → list A).
Hypothesis SortFunc_perm : ∀ A cmp (l : list A), SortFunc A cmp l ≡ₚ l.

#[local] Abbreviation J := (BitSetIterator + It)%type.

Lemma partition_spec minCost (l : list J) Ps :
  Forall2 denotes l Ps →
  ∃ Pb Pr, Forall2 bit_denotes (omap (promoted minCost) l) Pb ∧
    Forall2 denotes (filter (fun it => promoted minCost it = None) l) Pr ∧
    ∀ i, in_all Ps i = in_all Pr i && in_all Pb i.
Proof.
  induction 1 as [|it P l Ps HD _ (Pb & Pr & H1 & H2 & H3)].
  { exists [], []. split_and!; [constructor|constructor|done]. }
  destruct (promoted minCost it) as [b|] eqn:E.
  - exists (P :: Pb), Pr. rewrite filter_cons_False by congruence. cbn [omap list_omap]. rewrite E. split_and!; [|done|].
    + constructor; [|done]. destruct it as [b'|]; cbn in E; [|done]. by destruct (minCost <? cost b'); [injection E as ->|].
    + intros i. rewrite !in_all_cons, H3. destruct (P i), (in_all Pr i); done.
  - exists Pb, (P :: Pr). rewrite filter_cons_True by done. cbn [omap list_omap]. rewrite E. split_and!; [done|by constructor|].
    intros i. rewrite !in_all_cons, H3. by rewrite andb_assoc.
Qed.

Lemma bits_parts_new {L : Type} `{Lawful L} (l : L) (its : list BitSetIterator) P1 Pb :
  denotes l P1 → Forall2 bit_denotes its Pb → its ≠ [] →
  ∃ Pb', bits_parts (newBitSetConjunctionDISI SortFunc l its) P1 Pb' ∧ ∀ i, in_all Pb' i = in_all Pb i.
Proof.
  intros HD Hits Hne. unfold newBitSetConjunctionDISI. set (sorted := SortFunc _ _ its).
  assert (Hperm : sorted ≡ₚ its) by apply SortFunc_perm. clearbody sorted.
  destruct (Forall2_perm _ _ _ _ Hperm Hits) as (Pb' & HF & HPb). exists Pb'.
  split; [|intros i; by apply in_all_perm].
  assert (Hne' : sorted ≠ []) by (intros ->; by apply Hne, Permutation_nil_r).
  destruct (foldl_min bits_Length (map GetBitSet sorted) MaxInt) as (_ & Hle & Hex). set (m := foldl _ _ _) in *.
  assert (Hmin : Forall (fun it => m ≤ length_ it ∧ length_ it ≤ NO_MORE_DOCS) sorted).
  { apply Forall_forall. intros it Hin. rewrite Forall_forall in Hle.
    apply list_elem_of_lookup in Hin as [n Hn]. destruct (Forall2_lookup_l _ _ _ _ _ HF Hn) as (P & _ & [[El Hl] _ _]).
    specialize (Hle (GetBitSet it)). rewrite El. split; [|lia]. apply Hle. apply list_elem_of_fmap_2.
    by eapply list_elem_of_lookup_2. }
  assert (Hbound : m ≤ NO_MORE_DOCS).
  { destruct sorted as [|it sorted']; [done|]. apply Forall_cons in Hmin as [Hmin _]. lia. }
  split; cbn; [done|done|done| | |done].
  - eapply Forall_impl; [exact Hmin|]. by intros it [? _].
  - intros i Hi. destruct Hex as [Hex|(bs & Hin & Hex)]; [unfold MaxInt, NO_MORE_DOCS in *; lia|].
    apply list_elem_of_fmap in Hin as (it & -> & Hin). apply list_elem_of_lookup in Hin as [n Hn].
    destruct (Forall2_lookup_l _ _ _ _ _ HF Hn) as (P & HPn & [[El _] (B & _ & HP) _]).
    assert (HPi : P i = true).
    { unfold in_all in Hi. rewrite forallb_forall in Hi. apply Hi, list_elem_of_In. by eapply list_elem_of_lookup_2. }
    rewrite HP in HPi. unfold between in HPi. rewrite Hex. unfold GetBitSet. rewrite <- El.
    destruct (Z.ltb_spec i (length_ it)); [done|]. by rewrite !andb_false_r in HPi.
Qed.
Lemma newConjunctionDISI_parts {L : Type} `{Lawful L} (l : list L) Ps p :
  Forall2 denotes l Ps → (2 ≤ length l)%nat → Forall (fun it => DocID it = p) l →
  ∃ c, newConjunctionDISI l = Ret c ∧ conj_denotes c (in_all Ps) ∧ DocID (lead1 c) = p ∧
    (Forall reliable l → conj_reliable c).
Proof.
  intros HF Hlen Hp. destruct HF as [|l1 P1 l Ps D1 HF]; [cbn in Hlen; lia|].
  destruct HF as [|l2 P2 l Ps D2 HF]; [cbn in Hlen; lia|]. unfold newConjunctionDISI.
  change (aget (l1 :: l2 :: l) 0) with (@Ret goerr L l1). change (aget (l1 :: l2 :: l) 1) with (@Ret goerr L l2).
  rewrite !go_bind_ret. change (l1 :: l2 :: l) with ([l1; l2] ++ l). rewrite slice_all, go_bind_ret by (cbn; lia).
  eexists. split; [done|]. apply Forall_cons in Hp as [Hp1 Hp]. apply Forall_cons in Hp as [Hp2 Hp]. split_and!.
  - exists P1, P2, Ps. split_and!; [by split| |cbn; congruence|cbn; by rewrite Hp1].
    intros i. rewrite !in_all_cons. unfold meet. by rewrite andb_assoc.
  - done.
  - intros [? [? ?]%Forall_cons]%Forall_cons. by split_and!.
Qed.

(** The cheapest iterator is never looked up in a bit set. *)
Lemma cheapest_stays (all : list J) : all ≠ [] → Forall (fun it => Cost it < 2 ^ 62) all →
  let minCost := foldl (fun m it => if Cost it <? m then Cost it else m) (2 ^ 62 - 1) all in
  filter (fun it => promoted minCost it = None) all ≠ [].
Proof.
  intros Hne Hc minCost. destruct (foldl_min Cost all (2 ^ 62 - 1)) as (_ & Hle & Hex). fold minCost in Hle, Hex.
  assert (Hit : ∃ it, it ∈ all ∧ Cost it ≤ minCost).
  { destruct Hex as [E|(it & Hin & E)]; [|exists it; split; [done|lia]].
    destruct all as [|it all]; [done|]. exists it. split; [by left|]. apply Forall_cons in Hc as [Hc _]. lia. }
  destruct Hit as (it & Hin & Hle2). assert (Hf : it ∈ filter (fun it => promoted minCost it = None) all).
  { apply list_elem_of_filter. split; [|done]. destruct it as [b|]; [|done]. cbn in *. by rewrite (proj2 (Z.ltb_ge _ _)). }
  intros E. rewrite E in Hf. by apply not_elem_of_nil in Hf.
Qed.

Lemma same_document {A} (f : A → Z) (p : Z) l : forallb (fun x => f x =? p) l = true ↔ Forall (fun x => f x = p) l.
Proof.
  rewrite forallb_forall, Forall_forall. split; intros Hl x Hx.
  - by apply Z.eqb_eq, Hl, list_elem_of_In.
  - by apply Z.eqb_eq, Hl, list_elem_of_In.
Qed.

Lemma promoted_position minCost (l : list J) p cmp :
  Forall (fun it => DocID it = p) l → Forall (fun it => doc it = p) (SortFunc _ cmp (omap (promoted minCost) l)).
Proof using SortFunc_perm.
  intros Hp. rewrite SortFunc_perm. apply Forall_forall. intros b ([b'|it] & Hin & Hb)%list_elem_of_omap; [|done].
  cbn in Hb. destruct (minCost <? cost b'); [|done]. injection Hb as <-.
  rewrite Forall_forall in Hp. by apply (Hp (inl b')).
Qed.

Lemma join_iterators_denotes (all : list J) (Ps : list (Z → bool)) (p : Z) :
  let minCost := foldl (fun m it => if Cost it <? m then Cost it else m) (2 ^ 62 - 1) all in
  Forall2 denotes all Ps → all ≠ [] → Forall (fun it => DocID it = p) all → Forall (fun it => Cost it < 2 ^ 62) all →
  ∃ c, join_iterators SortFunc minCost all = Ret c ∧ denotes c (in_all Ps) ∧ DocID c = p ∧
    (Forall reliable all → reliable c).
Proof.
  intros minCost HF Hne Hp Hc. pose proof (cheapest_stays all Hne Hc) as Hsome. cbv zeta in Hsome.
  fold minCost in Hsome. unfold join_iterators. cbv zeta.
  destruct (partition_spec minCost all Ps HF) as (Pb & Pr & HFb & HFr & Hall).
  set (rest := filter _ all) in *. set (sorted := SortFunc _ compare_costs rest).
  assert (Hperm : sorted ≡ₚ rest) by apply SortFunc_perm. clearbody sorted.
  destruct (Forall2_perm _ _ _ _ Hperm HFr) as (Pr' & HFr' & HPr).
  assert (Hlen : length sorted = length rest) by (by apply Permutation_length).
  assert (Hpos : Forall (fun it => DocID it = p) sorted).
  { rewrite Hperm. apply Forall_forall. intros it [_ Hin]%list_elem_of_filter. rewrite Forall_forall in Hp. by apply Hp. }
  assert (Hrel : Forall reliable all → Forall reliable sorted).
  { intros Ha. rewrite Hperm. apply Forall_forall. intros it [_ Hin]%list_elem_of_filter. rewrite Forall_forall in Ha. by apply Ha. }
  (** the leading iterator *)
  assert (Hdisi : ∃ disi : J + conjunctionDISI J,
    (if Z.of_nat (length sorted) =? 1 then it ← aget sorted 0; mret (inl it)
     else c ← newConjunctionDISI sorted; mret (inr c)) = @Ret goerr _ disi ∧
    denotes disi (in_all Pr) ∧ DocID disi = p ∧ (Forall reliable all → reliable disi)).
  { destruct (Z.eqb_spec (Z.of_nat (length sorted)) 1) as [E|E].
    - destruct sorted as [|it [|]]; try (cbn in E; lia). apply Forall2_cons_inv_l in HFr' as (P & Ps' & HD & HF' & ->).
      apply Forall2_nil_inv_l in HF' as ->. exists (inl it). split; [done|]. apply Forall_cons in Hpos as [Hpos _].
      split_and!; [|done|by intros [? _]%Hrel%Forall_cons].
      apply denotes_ext with P; [|done]. intros i. rewrite <- (in_all_perm _ _ i HPr), in_all_cons. cbn. by rewrite andb_true_r.
    - destruct (newConjunctionDISI_parts sorted Pr' p HFr') as (c & -> & HD & Hpc & Hrc); [|done|].
      { rewrite Hlen in E |- *. destruct rest as [|? [|]]; [done|cbn in E; lia|cbn; lia]. }
      exists (inr c). split_and!; [done| |done|by intros ?%Hrel; apply Hrc].
      apply denotes_ext with (in_all Pr'); [|exact HD]. intros i. by apply in_all_perm. }
  destruct Hdisi as (disi & -> & HD & Hpd & Hrd). rewrite go_bind_ret.
  destruct (Z.ltb_spec 0 (Z.of_nat (length (omap (promoted minCost) all)))) as [Hb|Hb]; (eexists; split; [done|]).
  - destruct (bits_parts_new disi (omap (promoted minCost) all) (in_all Pr) Pb HD HFb) as (Pb' & Hparts & HPb').
    { intros E. rewrite E in Hb. cbn in Hb. lia. }
    split_and!; [|done|done]. exists (in_all Pr), Pb'. split_and!; [done| |].
    + intros i. rewrite Hall. unfold bits_meet. by rewrite HPb'.
    + cbn [lead newBitSetConjunctionDISI bitSetIters]. rewrite Hpd. intros Hr. split; [|by apply promoted_position].
      clear -HF Hp Hr. apply forallb_forall. intros Q HQ%list_elem_of_In. apply list_elem_of_lookup in HQ as [n HQ].
      destruct (Forall2_lookup_r _ _ _ _ _ HF HQ) as (o & Ho & HDo). rewrite Forall_forall in Hp.
      specialize (Hp o (list_elem_of_lookup_2 _ _ _ Ho)). destruct (position _ _ HDo) as [_ Hm]. rewrite Hp in Hm. by apply Hm.
  - destruct (omap (promoted minCost) all) as [|b l]; [|cbn in Hb; lia]. apply Forall2_nil_inv_l in HFb as ->.
    split_and!; [|done|done]. apply denotes_ext with (in_all Pr); [|exact HD]. intros i. rewrite Hall. by rewrite andb_true_r.
Qed.

(** The verifiers in turn decide the documents that all of them accept. *)
Lemma match_all_verifies PA fns Ms :
  Forall2 (fun fn M => verifies fn PA M) fns Ms → verifies (match_all fns) PA (in_all Ms).
Proof.
  induction 1 as [|fn M fns Ms Hfn _ IH]; intros d Hd HA; [by left|]. cbn [match_all].
  destruct (Hfn d Hd HA) as [->|[e ->]]; [|by right; exists e]. rewrite go_bind_ret, in_all_cons.
  destruct (M d); [by apply IH|by left].
Qed.

Lemma match_all_never_fails fns : Forall never_fails fns → never_fails (match_all fns).
Proof.
  induction 1 as [|fn fns Hfn _ IH]; intros d e; [done|]. cbn [match_all].
  specialize (Hfn d). destruct (fn d) as [[]|e'| |]; cbn; [apply IH|done|by destruct (Hfn e')|done|done].
Qed.

(** No iterators at all, only two-phase iterators, or iterators on different
    documents make it panic. *)
Lemma createConjunction_panics (all : list J) (tps : list (TwoPhaseIterator J)) :
  (all = [] ∨ ¬ ∃ p, Forall (fun it => DocID it = p) all ∧ Forall (fun t => DocID (approximation t) = p) tps) →
  createConjunction SortFunc all tps = Panic.
Proof using SortFunc_perm.
  intros Hbad. unfold createConjunction. destruct all as [|first all'].
  - destruct tps as [|t tps']; [done|].
    change (Z.of_nat (length (t :: tps')) =? 0) with false. rewrite andb_false_r.
    change (0 <? Z.of_nat (length [])) with false. change (aget (t :: tps') 0) with (@Ret goerr _ t). cbv iota.
    rewrite go_bind_ret.
    change (mret (DocID (approximation t))) with (@Ret goerr Z (DocID (approximation t))).
    rewrite go_bind_ret. cbn [forallb negb]. case_match; [done|]. unfold join_iterators. cbv zeta.
    change (omap (promoted _) []) with (@nil BitSetIterator). rewrite filter_nil.
    assert (E : SortFunc _ (compare_costs (It := J)) [] = []) by (apply Permutation_nil_r, SortFunc_perm).
    by rewrite E.
  - destruct Hbad as [|Hbad]; [done|]. set (all := first :: all') in *.
    change (Z.of_nat (length all) =? 0) with false. change (0 <? Z.of_nat (length all)) with true.
    change (aget all 0) with (@Ret goerr J first).
    cbn [andb]. rewrite go_bind_ret. change (mret (DocID first)) with (@Ret goerr Z (DocID first)). rewrite go_bind_ret.
    destruct (forallb _ all) eqn:E1; [|done]. cbn [negb].
    destruct (forallb _ tps) eqn:E2; [|done]. apply same_document in E1, E2. destruct Hbad. by exists (DocID first).
Qed.

(** The two-phase iterators of a conjunction: on the document [p], and with verifiers
    that decide [Ms] on the documents of all iterators. *)
Record verified (PA : Z → bool) (p : Z) (tps : list (TwoPhaseIterator J)) (Ms : list (Z → bool)) : Prop := {
  v_verifies : Forall2 (fun t M => verifies (matches (verifier t)) PA M) tps Ms;
  v_document : Forall (fun t => DocID (approximation t) = p) tps;
  v_position : 0 ≤ p < NO_MORE_DOCS → in_all Ms p = true
}.

Lemma in_all_app Ps Ms i : in_all (Ps ++ Ms) i = in_all Ps i && in_all Ms i.
Proof. apply forallb_app. Qed.

Lemma createConjunction_denotes (all : list J) (Ps : list (Z → bool)) (p : Z) tps Ms :
  Forall2 denotes all Ps → all ≠ [] → Forall (fun it => DocID it = p) all → Forall (fun it => Cost it < 2 ^ 62) all →
  verified (in_all Ps) p tps Ms →
  ∃ c, createConjunction SortFunc all tps = Ret c ∧ denotes c (in_all (Ps ++ Ms)) ∧ DocID c = p ∧
    (Forall reliable all → Forall (fun t => never_fails (matches (verifier t))) tps → reliable c).
Proof.
  intros HF Hne Hp Hc [HV Ht HM]. destruct (join_iterators_denotes all Ps p HF Hne Hp Hc) as (disi & E & HD & Hpd & Hr).
  unfold createConjunction. destruct all as [|first all']; [done|]. set (all := first :: all') in *.
  change (Z.of_nat (length all) =? 0) with false. change (0 <? Z.of_nat (length all)) with true.
  change (aget all 0) with (@Ret goerr J first).
  cbn [andb]. rewrite go_bind_ret. change (mret (DocID first)) with (@Ret goerr Z (DocID first)). rewrite go_bind_ret.
  assert (Hfirst : DocID first = p) by (by apply Forall_cons in Hp as [? _]). rewrite Hfirst.
  rewrite (proj2 (same_document _ _ _) Hp), (proj2 (same_document _ _ _) Ht). cbn [negb].
  cbv zeta. rewrite E, go_bind_ret. destruct (Z.ltb_spec 0 (Z.of_nat (length tps))) as [Hlt|Hge]; (eexists; split; [done|]).
  - set (sorted := SortFunc _ _ tps). assert (Hperm : sorted ≡ₚ tps) by apply SortFunc_perm. clearbody sorted.
    destruct (Forall2_perm _ _ _ _ Hperm HV) as (Ms' & HV' & HMs).
    split_and!; [|done|].
    + exists (in_all Ps), (in_all Ms'). split_and!; [done| | |].
      * intros i. by rewrite in_all_app, (in_all_perm _ _ i HMs).
      * apply match_all_verifies. by apply Forall2_fmap_l.
      * cbn [approximation NewTwoPhaseIteratorWithMatchCost NewTwoPhaseIterator]. rewrite Hpd, (in_all_perm _ _ p HMs). exact HM.
    + intros Hall Hnever. split; [by apply Hr|]. apply match_all_never_fails. rewrite Forall_fmap. by rewrite Hperm.
  - destruct tps; [|cbn in Hge; lia]. apply Forall2_nil_inv_l in HV as ->. rewrite app_nil_r. split_and!; [done|done|].
    intros Hall _. by apply Hr.
Qed.

(** C19. [createConjunction], of iterators and two-phase iterators on one document,
    with at least one iterator, and with costs below 2^62 (above that it can index an
    empty slice): whatever order equal costs are sorted in, which iterators over bit
    sets are looked up instead of moved, and in which order the verifiers are asked,
    the result starts on that document and is an iterator that obeys the laws of
    iterators. If no iterator and no verifier fails, it scans exactly the documents
    after that one that are in all iterators and accepted by all verifiers, in order.
    The verifiers answer for the document that the conjunction is on; if it starts
    on a document, they accept that one. *)
Theorem createConjunction_intersects (all : list J) (Ps : list (Z → bool)) (p : Z)
    (tps : list (TwoPhaseIterator J)) (Ms : list (Z → bool)) :
  Forall2 denotes all Ps → all ≠ [] → Forall (fun it => DocID it = p) all → Forall (fun it => Cost it < 2 ^ 62) all →
  verified (in_all Ps) p tps Ms →
  ∃ c, createConjunction SortFunc all tps = Ret c ∧ denotes c (in_all (Ps ++ Ms)) ∧ DocID c = p ∧
    (Forall reliable all → Forall (fun t => never_fails (matches (verifier t))) tps → p < NO_MORE_DOCS →
     ∃ l, scan c = Ret l ∧ StronglySorted Z.lt l ∧
       ∀ i, i ∈ l ↔ p < i < NO_MORE_DOCS ∧ ∀ P, P ∈ Ps ++ Ms → P i = true).
Proof using All.
  intros HF Hne Hp Hc HV. destruct (createConjunction_denotes all Ps p tps Ms HF Hne Hp Hc HV) as (c & E & HD & Hpc & Hr).
  exists c. split_and!; [done..|]. intros Hrel Hnever Hlt.
  destruct (wp_Ret _ _ _ (scan_lists c _ HD ltac:(by rewrite Hpc)) (Hr Hrel Hnever)) as (l & El & Hs & Hl).
  exists l. split_and!; [done..|]. intros i. rewrite Hl, Hpc. apply and_iff_compat_l.
  unfold in_all. rewrite forallb_forall. split; intros HP P HPin; apply HP, list_elem_of_In, HPin.
Qed.
End create_spec.

(** A sort, for the examples. *)
Fixpoint insert_by {A} (cmp : A → A → Z) (x : A) (l : list A) : list A :=
  match l with [] => [x] | y :: l => if cmp y x <=? 0 then y :: insert_by cmp x l else x :: y :: l end.

Definition insertion_sort (A : Type) (cmp : A → A → Z) (l : list A) : list A := foldr (insert_by cmp) [] l.

Lemma insertion_sort_perm A cmp (l : list A) : insertion_sort A cmp l ≡ₚ l.
Proof.
  induction l as [|x l IH]; [done|]. etransitivity; [|by apply perm_skip].
  change (insertion_sort A cmp (x :: l)) with (insert_by cmp x (insertion_sort A cmp l)).
  generalize (insertion_sort A cmp l). clear. induction l as [|y l IH]; [done|]. cbn.
  destruct (cmp y x <=? 0); [|done]. rewrite IH. apply perm_swap.
Qed.

Example createConjunction_run :
  (fs ← FixedBitSet.NewFixedBitSet 300; fs ← FixedBitSet.SetRange 100 250 fs;
   b ← NewBitSetIterator (FixedBits fs) 150;
   r ← Range 90 200;
   s ← NewIntArrayDocIdSet [1; 95; 101; 130; 131; 199; 200; 260; NO_MORE_DOCS] 8;
   let all := [inl b; inr (inl r); inr (inr (Iterator s))] in
   let odd := NewTwoPhaseIterator (inl b) {| matches := fun d => mret (Z.odd d); matchCost := S754_zero false |} in
   c ← createConjunction insertion_sort all []; '(d, c) ← Advance 110 c; docs ← scan c;
   c2 ← createConjunction insertion_sort all [odd]; docs2 ← scan c2;
   mret (d, docs, docs2)) = Ret (130, [131; 199], [101; 131; 199]).
Proof. vm_compute. reflexivity. Qed.

(** A cost that the search for the least one does not see: every iterator is looked
    up in a bit set, none leads, and the code indexes an empty slice. *)
Example createConjunction_too_dear :
  createConjunction (It := RangeDocIdSetIterator) insertion_sort
    [inl {| set := OtherBits Z.even 100; length_ := 100; doc := -1; cost := 2 ^ 62 |}] [] = Panic.
Proof. vm_compute. reflexivity. Qed.

Lemma createConjunction_intersects_witness :
  let all := [inl {| set := OtherBits Z.even 100; length_ := 100; doc := -1; cost := 50 |};
              inr (NewRangeDocIdSetIterator 10 20); inr (NewRangeDocIdSetIterator 12 60)] in
  let thirds := NewTwoPhaseIterator (inr (NewRangeDocIdSetIterator 12 60))
                  {| matches := fun d => mret (d mod 3 =? 0); matchCost := S754_zero false |} in
  ∃ c l, createConjunction insertion_sort all [thirds] = Ret c ∧ scan c = Ret l ∧ 18 ∈ l ∧ 16 ∉ l ∧ 15 ∉ l.
Proof.
  assert (Hr : ∀ a b, 0 ≤ a < b → b ≤ NO_MORE_DOCS → denotes (NewRangeDocIdSetIterator a b) (between a b)).
  { intros a b Ha Hb. split; cbn -[NO_MORE_DOCS]; [lia|done|by left]. }
  destruct (createConjunction_intersects insertion_sort insertion_sort_perm
    [inl {| set := OtherBits Z.even 100; length_ := 100; doc := -1; cost := 50 |};
     inr (NewRangeDocIdSetIterator 10 20); inr (NewRangeDocIdSetIterator 12 60)]
    [fun i => Z.even i && between 0 100 i; between 10 20; between 12 60] (-1)
    [NewTwoPhaseIterator (inr (NewRangeDocIdSetIterator 12 60))
       {| matches := fun d => mret (d mod 3 =? 0); matchCost := S754_zero false |}]
    [fun i => i mod 3 =? 0]) as (c & E & _ & _ & Hscan).
  - constructor; [|constructor; [|constructor; [|constructor]]].
    + split; cbn -[NO_MORE_DOCS]; [split; [reflexivity|unfold NO_MORE_DOCS; lia]| |by left].
      exists Z.even. split; [split; [lia|reflexivity]|reflexivity].
    + apply Hr; unfold NO_MORE_DOCS; lia.
    + apply Hr; unfold NO_MORE_DOCS; lia.
  - discriminate.
  - repeat constructor.
  - repeat constructor.
  - split; [|repeat constructor|lia]. constructor; [|constructor]. intros d _ _. by left.
  - destruct Hscan as (l & El & _ & Hl); [repeat constructor|constructor; [|constructor]; by intros ?|reflexivity|].
    exists c, l. split; [exact E|]. split; [exact El|]. split_and!.
    + apply Hl. split; [unfold NO_MORE_DOCS; lia|]. intros P HP. rewrite elem_of_app, !elem_of_cons in HP.
      destruct HP as [[->|[->|[->|HP]]]|[->|HP]]; (reflexivity || by apply not_elem_of_nil in HP).
    + intros Hin. apply Hl in Hin as [_ Hin].
      specialize (Hin (fun i => i mod 3 =? 0)). rewrite elem_of_app, list_elem_of_singleton in Hin.
      discriminate (Hin (or_intror eq_refl)).
    + intros Hin. apply Hl in Hin as [_ Hin].
      specialize (Hin (fun i => Z.even i && between 0 100 i) (list_elem_of_here _ _)). discriminate.
Defined.
