(* ===== verification/Nfa.v ===== *)
(** Languages of finite automata, apart from any program: paths, acceptance,
    simulations between automata, sets of states, and products.  States and labels
    are integers, the initial state is 0.  [Automaton] and the files after it show
    what the operations of [util/automaton/] do to the language of an automaton. *)

From stdpp Require Import base tactics numbers list.
From Stdlib Require Import ZArith Lia.

Local Open Scope Z_scope.

(** [E s c d]: the label [c] leads from [s] to [d]. *)
Abbreviation edges := (Z → Z → Z → Prop).

Fixpoint path (E : edges) (s : Z) (w : list Z) (s' : Z) : Prop :=
  match w with
  | [] => s = s'
  | c :: w => ∃ d, E s c d ∧ path E d w s'
  end.

(** A path from [s] to a final state. *)
Definition accepts_from (E : edges) (F : Z → Prop) (s : Z) (w : list Z) : Prop :=
  ∃ s', path E s w s' ∧ F s'.

Definition accepts (E : edges) (F : Z → Prop) (w : list Z) : Prop := accepts_from E F 0 w.

Lemma accepts_nil E F s : accepts_from E F s [] ↔ F s.
Proof. unfold accepts_from. cbn. split; [by intros (? & <- & ?)|eauto]. Qed.

Lemma accepts_cons E F s c w :
  accepts_from E F s (c :: w) ↔ ∃ d, E s c d ∧ accepts_from E F d w.
Proof. unfold accepts_from. cbn. naive_solver. Qed.

Lemma path_app E s u v s' : path E s (u ++ v) s' ↔ ∃ m, path E s u m ∧ path E m v s'.
Proof.
  revert s. induction u as [|c u IH]; intros s; cbn; [naive_solver|].
  setoid_rewrite IH. naive_solver.
Qed.

Lemma accepts_app E F s u v :
  accepts_from E F s (u ++ v) ↔ ∃ m, path E s u m ∧ accepts_from E F m v.
Proof. unfold accepts_from. setoid_rewrite path_app. naive_solver. Qed.

(** ** Simulations *)

Record simulation (R : Z → Z → Prop) (E E' : edges) (F F' : Z → Prop) : Prop := {
  sim_step : ∀ s t c s', R s t → E s c s' → ∃ t', E' t c t' ∧ R s' t';
  sim_final : ∀ s t, R s t → F s → F' t
}.

Lemma simulation_accepts R E E' F F' :
  simulation R E E' F F' → ∀ w s t, R s t → accepts_from E F s w → accepts_from E' F' t w.
Proof.
  intros [H1 H2] w. induction w as [|c w IH]; intros s t HR.
  - rewrite !accepts_nil. eauto.
  - rewrite !accepts_cons. intros (d & HE & Hd). destruct (H1 _ _ _ _ HR HE) as (d' & HE' & HR'). eauto.
Qed.

(** The same edges and final states on the states that matter. *)
Lemma accepts_ext (P : Z → Prop) E E' F F' s w :
  (∀ s c d, P s → E s c d ↔ E' s c d) → (∀ s c d, P s → E s c d → P d) → (∀ s, P s → F s ↔ F' s) →
  P s → accepts_from E F s w ↔ accepts_from E' F' s w.
Proof.
  intros HE HP HF. revert s. induction w as [|c w IH]; intros s Hs.
  - rewrite !accepts_nil. by apply HF.
  - rewrite !accepts_cons. split; intros (d & Hd & Hw).
    + exists d. split; [by apply HE|]. by apply IH; [apply (HP s c)|].
    + apply HE in Hd; [|done]. exists d. split; [done|]. by apply IH; [apply (HP s c)|].
Qed.

(** A renaming of the states that matter. *)
Lemma accepts_rename (P : Z → Prop) (f : Z → Z) E E' F F' s w :
  (∀ s c d', P s → E' (f s) c d' ↔ ∃ d, d' = f d ∧ E s c d) → (∀ s c d, P s → E s c d → P d) →
  (∀ s, P s → F' (f s) ↔ F s) →
  P s → accepts_from E' F' (f s) w ↔ accepts_from E F s w.
Proof.
  intros HE HP HF. revert s. induction w as [|c w IH]; intros s Hs.
  - rewrite !accepts_nil. by apply HF.
  - rewrite !accepts_cons. split.
    + intros (d' & Hd & Hw). apply HE in Hd as (d & -> & Hd); [|done]. exists d. split; [done|].
      by apply IH; [apply (HP s c)|].
    + intros (d & Hd & Hw). exists (f d). split; [apply HE; eauto|]. by apply IH; [apply (HP s c)|].
Qed.

(** ** Reachable states and states that lead to a final state *)

Definition reachable (E : edges) (s : Z) : Prop := ∃ w, path E 0 w s.
Definition productive (E : edges) (F : Z → Prop) (s : Z) : Prop := ∃ w, accepts_from E F s w.

Lemma reachable_zero E : reachable E 0.
Proof. by exists []. Qed.

Lemma reachable_step E s c d : reachable E s → E s c d → reachable E d.
Proof. intros (w & Hw) He. exists (w ++ [c]). apply path_app. exists s. split; [done|]. by exists d. Qed.

Lemma productive_final E (F : Z → Prop) s : F s → productive E F s.
Proof. intros H. exists []. by apply accepts_nil. Qed.

Lemma productive_step E F s c d : E s c d → productive E F d → productive E F s.
Proof. intros He (w & Hw). exists (c :: w). apply accepts_cons. eauto. Qed.

(** Only the productive states matter. *)
Lemma accepts_productive E F s w :
  accepts_from E F s w ↔ accepts_from (fun s c d => E s c d ∧ productive E F d) F s w.
Proof.
  revert s. induction w as [|c w IH]; intros s; [by rewrite !accepts_nil|].
  rewrite !accepts_cons. split.
  - intros (d & Hd & Hw). exists d. split; [split; [done|by exists w]|by apply IH].
  - intros (d & [Hd _] & Hw). exists d. split; [done|by apply IH].
Qed.

Lemma accepts_empty E F : (∃ w, accepts E F w) ↔ ∃ s, reachable E s ∧ F s.
Proof. unfold accepts, accepts_from, reachable. naive_solver. Qed.

(** ** Automata in which a label leads to one state at most *)

Definition functional_edges (E : edges) : Prop := ∀ s c d d', E s c d → E s c d' → d = d'.

Lemma path_functional E w : ∀ s d d', functional_edges E → path E s w d → path E s w d' → d = d'.
Proof.
  induction w as [|c w IH]; intros s d d' HF; cbn; [congruence|].
  intros (m & Hm & Hp) (m' & Hm' & Hp'). rewrite (HF _ _ _ _ Hm Hm') in Hp. by apply (IH m').
Qed.

(** ** Two automata side by side *)

(** [X p s1 s2]: the state [p] stands for the pair. *)
Lemma accepts_product (X : Z → Z → Z → Prop) E1 E2 E F1 F2 F w :
  (∀ p s1 s2 c q, X p s1 s2 → E p c q → ∃ d1 d2, X q d1 d2 ∧ E1 s1 c d1 ∧ E2 s2 c d2) →
  (∀ p s1 s2 c d1 d2, X p s1 s2 → E1 s1 c d1 → E2 s2 c d2 → ∃ q, E p c q ∧ X q d1 d2) →
  (∀ p s1 s2, X p s1 s2 → F p ↔ F1 s1 ∧ F2 s2) →
  ∀ p s1 s2, X p s1 s2 →
  accepts_from E F p w ↔ accepts_from E1 F1 s1 w ∧ accepts_from E2 F2 s2 w.
Proof.
  intros H1 H2 HF. induction w as [|c w IH]; intros p s1 s2 HX.
  - rewrite !accepts_nil. by apply HF.
  - rewrite !accepts_cons. split.
    + intros (q & Hq & Hw). destruct (H1 _ _ _ _ _ HX Hq) as (d1 & d2 & HX' & He1 & He2).
      destruct (proj1 (IH _ _ _ HX') Hw). eauto 10.
    + intros [(d1 & He1 & Hw1) (d2 & He2 & Hw2)]. destruct (H2 _ _ _ _ _ _ HX He1 He2) as (q & Hq & HX').
      exists q. split; [done|]. by apply (IH _ _ _ HX').
Qed.

(** ** Sets of states *)

(** The state [q] of the one automaton stands for the set [S] of states of the other. *)
Lemma accepts_subsets (X : Z → (Z → Prop) → Prop) E F E' F' w :
  (∀ q S c q', X q S → E' q c q' → ∃ S', X q' S' ∧ ∀ d, S' d ↔ ∃ s, S s ∧ E s c d) →
  (∀ q S c s d, X q S → S s → E s c d → ∃ q', E' q c q') →
  functional_edges E' →
  (∀ q S, X q S → F' q ↔ ∃ s, S s ∧ F s) →
  ∀ q S, X q S → accepts_from E' F' q w ↔ ∃ s, S s ∧ accepts_from E F s w.
Proof.
  intros H1 H2 HD HF. induction w as [|c w IH]; intros q S HX.
  - setoid_rewrite accepts_nil. by apply HF.
  - setoid_rewrite accepts_cons. split.
    + intros (q' & He & Hw). destruct (H1 _ _ _ _ HX He) as (S' & HX' & HS').
      destruct (proj1 (IH _ _ HX') Hw) as (d & Hd & Hw'). apply HS' in Hd as (s & Hs & Hsd). eauto.
    + intros (s & Hs & d & Hd & Hw). destruct (H2 _ _ _ _ _ HX Hs Hd) as (q' & He).
      destruct (H1 _ _ _ _ HX He) as (S' & HX' & HS'). exists q'. split; [done|].
      apply (IH _ _ HX'). exists d. split; [|done]. apply HS'. eauto.
Qed.
