(* ===== verification/Automaton.v ===== *)
(** Finite automata in packed arrays: [util/automaton/automaton.go] and the part of
    [util/array_util.go] that makes its arrays grow.

    A state is a pair of cells of [states]: where its transitions begin in
    [transitions], and how many there are.  A transition is three cells: the state
    it leads to and the first and the last label it accepts.  Transitions are added
    state by state; a state that is finished has its transitions sorted and those
    that touch joined. *)

From stdpp Require Import base tactics numbers list sets sorting.
From Stdlib Require Import ZArith Lia.
From S2P Require Import Prelude ArrayUtil WordBits Nfa.

Local Open Scope Z_scope.

(** * Exceptional results

    [ArrayTooLarge] is the panic of [util.Oversize] on more than [MaxArrayLength]
    elements; it is told apart from the other panics, which no theorem below
    allows.  The others are [error] values of [operations.go], [automata.go] and
    [regexp.go]; those of the parser of regular expressions are told apart by kind only. *)
Inductive autoerr : Type :=
  | ArrayTooLarge
  | TooComplexToDeterminize
  | HasDeadStates
  | HasCycle
  | InvalidInterval
  | CaseFoldingUnsupported
  | NamedAutomatonNotFound
  | ProviderError
  | IllegalFlag
  | SyntaxError.

Abbreviation AM := (go autoerr).

(** * Growing arrays *)

Definition Oversize (minTargetSize bytesPerElement : Z) : AM Z :=
  oversize (Err ArrayTooLarge) minTargetSize bytesPerElement.

Definition growInts (array : list Z) (minSize : Z) : AM (list Z) :=
  if Z.of_nat (length array) <? minSize then
    n ← Oversize minSize NumBytesObjectRef; GrowExact array n
  else mret array.

(** * The automaton *)

Definition MinCodePoint : Z := 0.
Definition MaxCodePoint : Z := 0x10FFFF.

Record Automaton := {
  nextState : Z;
  nextTransition : Z;
  curState : Z;
  states : list Z;
  isAccept : list Z;
  transitions : list Z;
  deterministic : bool
}.

Definition set_states (nextState : Z) (states : list Z) (a : Automaton) : Automaton :=
  {| nextState := nextState; nextTransition := nextTransition a; curState := curState a; states := states;
     isAccept := isAccept a; transitions := transitions a; deterministic := deterministic a |}.

Definition set_transitions (nextTransition : Z) (transitions : list Z) (a : Automaton) : Automaton :=
  {| nextState := nextState a; nextTransition := nextTransition; curState := curState a; states := states a;
     isAccept := isAccept a; transitions := transitions; deterministic := deterministic a |}.

Definition set_curState (curState : Z) (a : Automaton) : Automaton :=
  {| nextState := nextState a; nextTransition := nextTransition a; curState := curState; states := states a;
     isAccept := isAccept a; transitions := transitions a; deterministic := deterministic a |}.

Definition set_isAccept (isAccept : list Z) (a : Automaton) : Automaton :=
  {| nextState := nextState a; nextTransition := nextTransition a; curState := curState a; states := states a;
     isAccept := isAccept; transitions := transitions a; deterministic := deterministic a |}.

Definition set_deterministic (deterministic : bool) (a : Automaton) : Automaton :=
  {| nextState := nextState a; nextTransition := nextTransition a; curState := curState a; states := states a;
     isAccept := isAccept a; transitions := transitions a; deterministic := deterministic |}.

Definition NewAutomatonWithCapacity (numStates numTransitions : Z) : Automaton :=
  {| nextState := 0; nextTransition := 0; curState := -1;
     states := repeat 0 (Z.to_nat (numStates * 2));
     isAccept := repeat 0 (Z.to_nat (Z.shiftr (numStates + 63) 6));
     transitions := repeat 0 (Z.to_nat (numTransitions * 3));
     deterministic := true |}.

Definition NewAutomaton : Automaton := NewAutomatonWithCapacity 2 2.

Definition NumStates (a : Automaton) : Z := nextState a / 2.
Definition NumTransitions (a : Automaton) : Z := nextTransition a / 3.

Definition checkIndex (index length : Z) : AM unit := must (in_range index length).

Definition growStates (a : Automaton) : AM Automaton :=
  if Z.of_nat (length (states a)) <? nextState a + 2 then
    ss ← growInts (states a) (nextState a + 2); mret (set_states (nextState a) ss a)
  else mret a.

Definition growTransitions (a : Automaton) : AM Automaton :=
  if Z.of_nat (length (transitions a)) <? nextTransition a + 3 then
    ts ← growInts (transitions a) (nextTransition a + 3); mret (set_transitions (nextTransition a) ts a)
  else mret a.

Definition CreateState (a : Automaton) : AM (Z * Automaton) :=
  a ← growStates a;
  let state := nextState a / 2 in
  ss ← aset (states a) (nextState a) (-1);
  mret (state, set_states (nextState a + 2) ss a).

(** ** Accept states *)

Definition IsAccept (a : Automaton) (state : Z) : bool :=
  if state <? 0 then false else
  let word := Z.shiftr state 6 in
  if Z.of_nat (length (isAccept a)) <=? word then false
  else negb (Z.land (nthZ 0 (isAccept a) word) (shl64 1 (Z.land state 63)) =? 0).

Definition setAcceptBit (state : Z) (accept : bool) (a : Automaton) : AM Automaton :=
  let word := Z.shiftr state 6 in
  if negb accept then
    if word <? Z.of_nat (length (isAccept a)) then
      w ← aget (isAccept a) word;
      ws ← aset (isAccept a) word (andnot w (shl64 1 (Z.land state 63)));
      mret (set_isAccept ws a)
    else mret a
  else
    let ws := if Z.of_nat (length (isAccept a)) <=? word
              then isAccept a ++ repeat 0 (Z.to_nat (word + 1) - length (isAccept a)) else isAccept a in
    w ← aget ws word;
    ws ← aset ws word (Z.lor w (shl64 1 (Z.land state 63)));
    mret (set_isAccept ws a).

Definition SetAccept (state : Z) (accept : bool) (a : Automaton) : AM Automaton :=
  checkIndex state (NumStates a);; setAcceptBit state accept a.

Definition AcceptCardinality (a : Automaton) : Z := foldl (fun n w => n + OnesCount64 w) 0 (isAccept a).

(** ** Transitions *)

(** [dest], [min], [max] *)
Abbreviation tr := (Z * Z * Z)%type.

Definition dest_ (t : tr) : Z := t.1.1.
Definition min_ (t : tr) : Z := t.1.2.
Definition max_ (t : tr) : Z := t.2.

(** The array of transitions, three cells at a time. *)
Fixpoint triples (ws : list Z) : list tr :=
  match ws with
  | d :: lo :: hi :: ws => (d, lo, hi) :: triples ws
  | _ => []
  end.

Fixpoint flat (ts : list tr) : list Z :=
  match ts with [] => [] | (d, lo, hi) :: ts => d :: lo :: hi :: flat ts end.

Definition destMinMaxLess (t u : tr) : bool :=
  if negb (dest_ t =? dest_ u) then dest_ t <? dest_ u
  else if negb (min_ t =? min_ u) then min_ t <? min_ u
  else max_ t <? max_ u.

Definition minMaxDestLess (t u : tr) : bool :=
  if negb (min_ t =? min_ u) then min_ t <? min_ u
  else if negb (max_ t =? max_ u) then max_ t <? max_ u
  else dest_ t <? dest_ u.

Definition in_order (less : tr → tr → bool) (t u : tr) : Prop := less u t = false.

#[export] Instance in_order_dec less : RelDecision (in_order less) := fun t u => decide (less u t = false).

(** [sort.Stable] through [transitionSorter]: the transitions [start], ...,
    [start + n - 1] are put in order. *)
Definition sortTransitions (start n : Z) (less : tr → tr → bool) (a : Automaton) : AM Automaton :=
  if n <? 2 then mret a else
  let ws := transitions a in
  run ← slice ws (3 * start) (3 * (start + n));
  ws ← copy_at ws (3 * start) (flat (merge_sort (in_order less) (triples run)));
  mret (set_transitions (nextTransition a) ws a).

(** [a.transitions[offset+3*upto] = dest], and so on. *)
Definition put_triple (ws : list Z) (p dest lo hi : Z) : AM (list Z) :=
  ws ← aset ws p dest;
  ws ← aset ws (p + 1) lo;
  aset ws (p + 2) hi.

(** The variables of the loop of [finishCurrentState]. *)
Record reducing := { ws_ : list Z; upto : Z; minLabel : Z; maxLabel : Z; dest : Z }.

Definition flush (offset : Z) (r : reducing) : AM (list Z * Z) :=
  if negb (dest r =? -1) then
    ws ← put_triple (ws_ r) (offset + 3 * upto r) (dest r) (minLabel r) (maxLabel r);
    mret (ws, upto r + 1)
  else mret (ws_ r, upto r).

Definition reduce_step (offset i : Z) (r : reducing) : AM reducing :=
  tDest ← aget (ws_ r) (offset + 3 * i);
  tMin ← aget (ws_ r) (offset + 3 * i + 1);
  tMax ← aget (ws_ r) (offset + 3 * i + 2);
  if dest r =? tDest then
    if tMin <=? maxLabel r + 1 then
      mret {| ws_ := ws_ r; upto := upto r; minLabel := minLabel r;
              maxLabel := if maxLabel r <? tMax then tMax else maxLabel r; dest := dest r |}
    else
      '(ws, upto) ← flush offset r;
      mret {| ws_ := ws; upto := upto; minLabel := tMin; maxLabel := tMax; dest := dest r |}
  else
    '(ws, upto) ← flush offset r;
    mret {| ws_ := ws; upto := upto; minLabel := tMin; maxLabel := tMax; dest := tDest |}.

(** The loop that looks for two transitions with a label in common. *)
Fixpoint overlaps (fuel : nat) (ws : list Z) (offset i upto lastMax : Z) : AM bool :=
  if i <? upto then
    match fuel with
    | O => NoFuel
    | S fuel =>
        minLabel ← aget ws (offset + 3 * i + 1);
        if minLabel <=? lastMax then mret true else
        lastMax ← aget ws (offset + 3 * i + 2);
        overlaps fuel ws offset (i + 1) upto lastMax
    end
  else mret false.

Definition finishCurrentState (a : Automaton) : AM Automaton :=
  numTransitions ← aget (states a) (2 * curState a + 1);
  offset ← aget (states a) (2 * curState a);
  let start := offset / 3 in
  a ← sortTransitions start numTransitions destMinMaxLess a;
  r ← go_for (Z.to_nat numTransitions) 0 (reduce_step offset)
        {| ws_ := transitions a; upto := 0; minLabel := -1; maxLabel := -1; dest := -1 |};
  '(ws, upto) ← flush offset r;
  let a := set_transitions (nextTransition a - (numTransitions - upto) * 3) ws a in
  ss ← aset (states a) (2 * curState a + 1) upto;
  let a := set_states (nextState a) ss a in
  a ← sortTransitions start upto minMaxDestLess a;
  if deterministic a && (1 <? upto) then
    lastMax ← aget (transitions a) (offset + 2);
    b ← overlaps (Z.to_nat upto) (transitions a) offset 1 upto lastMax;
    mret (if (b : bool) then set_deterministic false a else a)
  else mret a.

Definition FinishState (a : Automaton) : AM Automaton :=
  if negb (curState a =? -1) then a ← finishCurrentState a; mret (set_curState (-1) a) else mret a.

Definition AddTransition (source dest min max : Z) (a : Automaton) : AM Automaton :=
  let bounds := nextState a / 2 in
  checkIndex source bounds;;
  checkIndex dest bounds;;
  a ← growTransitions a;
  a ← (if negb (curState a =? source) then
         a ← (if negb (curState a =? -1) then finishCurrentState a else mret a);
         let a := set_curState source a in
         p ← aget (states a) (2 * curState a);
         must (p =? -1);;
         ss ← aset (states a) (2 * curState a) (nextTransition a);
         mret (set_states (nextState a) ss a)
       else mret a);
  ws ← put_triple (transitions a) (nextTransition a) dest min max;
  let a := set_transitions (nextTransition a + 3) ws a in
  n ← aget (states a) (2 * curState a + 1);
  ss ← aset (states a) (2 * curState a + 1) (n + 1);
  mret (set_states (nextState a) ss a).

Definition AddTransitionSingle (source dest label : Z) : Automaton → AM Automaton :=
  AddTransition source dest label label.

Definition GetNumTransitions (a : Automaton) (state : Z) : AM Z :=
  count ← aget (states a) (2 * state + 1);
  mret (if count =? -1 then 0 else count).

(** ** Iterating over the transitions of a state *)

Record Transition := { Source : Z; Dest : Z; Min : Z; Max : Z; transitionUpto : Z }.

Definition NewTransition : Transition := {| Source := 0; Dest := 0; Min := 0; Max := 0; transitionUpto := -1 |}.

Definition InitTransition (a : Automaton) (state : Z) (t : Transition) : AM (Z * Transition) :=
  p ← aget (states a) (2 * state);
  n ← GetNumTransitions a state;
  mret (n, {| Source := state; Dest := Dest t; Min := Min t; Max := Max t; transitionUpto := p |}).

Definition GetNextTransition (a : Automaton) (t : Transition) : AM Transition :=
  d ← aget (transitions a) (transitionUpto t);
  lo ← aget (transitions a) (transitionUpto t + 1);
  hi ← aget (transitions a) (transitionUpto t + 2);
  mret {| Source := Source t; Dest := d; Min := lo; Max := hi; transitionUpto := transitionUpto t + 3 |}.

Definition GetTransition (a : Automaton) (state index : Z) (t : Transition) : AM Transition :=
  p ← aget (states a) (2 * state);
  let i := p + 3 * index in
  d ← aget (transitions a) i;
  lo ← aget (transitions a) (i + 1);
  hi ← aget (transitions a) (i + 2);
  mret {| Source := state; Dest := d; Min := lo; Max := hi; transitionUpto := transitionUpto t |}.

(** [count := a.InitTransition(s, t); for i := 0; i < count; i++ { a.GetNextTransition(t); body(t) }] *)
Definition each_transition {St} (a : Automaton) (s : Z) (body : Transition → St → AM St) (st : St) : AM St :=
  '(count, t) ← InitTransition a s NewTransition;
  '(_, st) ← go_for (Z.to_nat count) 0 (fun _ '(t, st) =>
    t ← GetNextTransition a t; st ← body t st; mret (t, st)) (t, st);
  mret st.

(** The loop reads the automaton that it changes. *)
Definition AddEpsilon (source dest : Z) (a : Automaton) : AM Automaton :=
  '(count, t) ← InitTransition a dest NewTransition;
  '(_, a) ← go_for (Z.to_nat count) 0 (fun _ '(t, a) =>
    t ← GetNextTransition a t; a ← AddTransition source (Dest t) (Min t) (Max t) a; mret (t, a)) (t, a);
  if IsAccept a dest then SetAccept source true a else mret a.

(** [Copy]: the bulk copies, with the pointers and the destinations moved. *)
Definition copyStates (other a : Automaton) : AM (list Z) :=
  ss ← growInts (states a) (nextState a + nextState other);
  from ← slice (states other) 0 (nextState other);
  ss ← copy_at ss (nextState a) from;
  go_for (Z.to_nat (nextState other / 2)) 0 (fun k ss =>
    let i := 2 * k in
    p ← aget ss (nextState a + i);
    if negb (p =? -1) then aset ss (nextState a + i) (p + nextTransition a) else mret ss) ss.

Definition copyTransitions (stateOffset : Z) (other a : Automaton) : AM (list Z) :=
  ws ← growInts (transitions a) (nextTransition a + nextTransition other);
  from ← slice (transitions other) 0 (nextTransition other);
  ws ← copy_at ws (nextTransition a) from;
  go_for (Z.to_nat (nextTransition other / 3)) 0 (fun k ws =>
    let i := 3 * k in
    d ← aget ws (nextTransition a + i);
    aset ws (nextTransition a + i) (d + stateOffset)) ws.

Definition Copy (other a : Automaton) : AM Automaton :=
  let stateOffset := NumStates a in
  ss ← copyStates other a;
  let a := set_states (nextState a + nextState other) ss a in
  a ← go_for (Z.to_nat (NumStates other)) 0 (fun state a =>
    if IsAccept other state then SetAccept (stateOffset + state) true a else mret a) a;
  ws ← copyTransitions stateOffset other a;
  let a := set_transitions (nextTransition a + nextTransition other) ws a in
  mret (if negb (deterministic other) then set_deterministic false a else a).

(** ** Running a deterministic automaton *)

Fixpoint next_search (fuel : nat) (a : Automaton) (first label low high : Z) : AM (option (Z * tr) * Z) :=
  if low <=? high then
    match fuel with
    | O => NoFuel
    | S fuel =>
        let mid := Z.shiftr (low + high) 1 in
        let i := first + 3 * mid in
        minLabel ← aget (transitions a) (i + 1);
        if label <? minLabel then next_search fuel a first label low (mid - 1)
        else
          maxLabel ← aget (transitions a) (i + 2);
          if maxLabel <? label then next_search fuel a first label (mid + 1) high
          else
            destState ← aget (transitions a) i;
            mret (Some (mid, (destState, minLabel, maxLabel)), low)
    end
  else mret (None, low).

(** The destination, and the transition found with its index, or the index to go on
    from. *)
Definition next_ (a : Automaton) (state fromTransitionIndex label : Z) : AM (option (Z * tr) * Z) :=
  firstTransitionIndex ← aget (states a) (2 * state);
  numTransitions ← aget (states a) (2 * state + 1);
  let low := if fromTransitionIndex <? 0 then 0 else fromTransitionIndex in
  next_search (Z.to_nat numTransitions) a firstTransitionIndex label low (numTransitions - 1).

Definition Step (a : Automaton) (state label : Z) : AM Z :=
  '(r, _) ← next_ a state 0 label;
  mret (match r with Some (_, t) => dest_ t | None => -1 end).

Definition Next (a : Automaton) (t : Transition) (label : Z) : AM (Z * Transition) :=
  '(r, low) ← next_ a (Source t) (transitionUpto t) label;
  mret (match r with
        | Some (mid, u) =>
            (dest_ u, {| Source := Source t; Dest := dest_ u; Min := min_ u; Max := max_ u; transitionUpto := mid |})
        | None => (-1, {| Source := Source t; Dest := -1; Min := Min t; Max := Max t; transitionUpto := low |})
        end).

(** [Run] of [operations.go], on the code points of the string. *)
Fixpoint run_from (a : Automaton) (state : Z) (s : list Z) : AM bool :=
  match s with
  | [] => mret (IsAccept a state)
  | r :: s =>
      next ← Step a state r;
      if next =? -1 then mret false else run_from a next s
  end.

Definition Run (a : Automaton) (s : list Z) : AM bool := run_from a 0 s.

Example automaton_run :
  ('(s0, a) ← CreateState NewAutomaton; '(s1, a) ← CreateState a; '(s2, a) ← CreateState a;
   a ← SetAccept s2 true a;
   a ← AddTransition s0 s1 98 99 a; a ← AddTransition s0 s1 97 97 a; a ← AddTransition s0 s2 120 122 a;
   a ← AddTransition s1 s1 48 57 a; a ← AddTransition s1 s2 65 90 a; a ← FinishState a;
   n ← GetNumTransitions a s0;
   x ← Run a [99; 48; 49; 65]; y ← Run a [100]; z ← Run a [121];
   mret (n, x, y, z, deterministic a)) = Ret (2, true, false, true, true).
Proof. vm_compute. reflexivity. Qed.

(** * The array of transitions *)

Lemma triples_ind (P : list Z → Prop) :
  P [] → (∀ d, P [d]) → (∀ d lo, P [d; lo]) → (∀ d lo hi ws, P ws → P (d :: lo :: hi :: ws)) → ∀ ws, P ws.
Proof. intros H0 H1 H2 H3. fix IH 1. intros [|d [|lo [|hi ws]]]; [done..|]. apply H3, IH. Qed.

Lemma length_triples ws : length (triples ws) = (length ws / 3)%nat.
Proof.
  induction ws as [| | |d lo hi ws IH] using triples_ind; [done..|].
  cbn [triples length]. rewrite IH. change (S (S (S (length ws)))) with (3 + length ws)%nat.
  replace (3 + length ws)%nat with (length ws + 1 * 3)%nat by lia. rewrite Nat.div_add by lia. lia.
Qed.

Lemma length_flat ts : length (flat ts) = (3 * length ts)%nat.
Proof. induction ts as [|[[d lo] hi] ts IH]; cbn [flat length]; lia. Qed.

Lemma triples_app ts ws : triples (flat ts ++ ws) = ts ++ triples ws.
Proof. induction ts as [|[[d lo] hi] ts IH]; [done|]. cbn. by rewrite IH. Qed.

Lemma triples_flat ts : triples (flat ts) = ts.
Proof. rewrite <- (app_nil_r (flat ts)), triples_app. apply app_nil_r. Qed.

Lemma flat_app ts us : flat (ts ++ us) = flat ts ++ flat us.
Proof. induction ts as [|[[d lo] hi] ts IH]; [done|]. cbn. by rewrite IH. Qed.

(** The first [k] transitions, and what follows them. *)
Lemma flat_take ws : ∀ k, (3 * k ≤ length ws)%nat → ws = flat (take k (triples ws)) ++ drop (3 * k) ws.
Proof.
  induction ws as [| | |d lo hi ws IH] using triples_ind; intros [|k] Hk; cbn [length] in Hk; try lia; try done.
  replace (3 * S k)%nat with (S (S (S (3 * k)))) by lia. cbn. do 3 f_equal. apply IH. lia.
Qed.

Lemma triples_drop ws k : (3 * k ≤ length ws)%nat → triples (drop (3 * k) ws) = drop k (triples ws).
Proof.
  intros Hk. pose proof (flat_take ws k Hk) as E.
  assert (Hl : length (take k (triples ws)) = k).
  { rewrite length_take, length_triples. apply Nat.min_l.
    apply Nat.div_le_lower_bound; lia. }
  rewrite E at 2. rewrite triples_app, drop_app_le by lia. by rewrite (drop_ge (take k _)) by lia.
Qed.

(** Three parts: [k] transitions, [m] more, the rest. *)
Lemma flat_split ws k m :
  (3 * (k + m) ≤ length ws)%nat →
  ws = flat (take k (triples ws)) ++ flat (take m (drop k (triples ws))) ++ drop (3 * (k + m)) ws ∧
  length (take k (triples ws)) = k ∧ length (take m (drop k (triples ws))) = m.
Proof.
  intros H. pose proof (flat_take ws k ltac:(lia)) as E1.
  pose proof (flat_take (drop (3 * k) ws) m) as E2. rewrite length_drop in E2. specialize (E2 ltac:(lia)).
  rewrite triples_drop, drop_drop in E2 by lia. replace (3 * k + 3 * m)%nat with (3 * (k + m))%nat in E2 by lia.
  rewrite E2 in E1. split; [done|].
  pose proof (length_triples ws) as Ht. pose proof (Nat.div_le_lower_bound (length ws) 3 (k + m) ltac:(lia) H).
  rewrite !length_take, length_drop. lia.
Qed.

Lemma triples_lookup ws k d lo hi :
  triples ws !! k = Some (d, lo, hi) →
  ws !! (3 * k)%nat = Some d ∧ ws !! (3 * k + 1)%nat = Some lo ∧ ws !! (3 * k + 2)%nat = Some hi.
Proof.
  revert k. induction ws as [| | |d' lo' hi' ws IH] using triples_ind; intros k; [done..|].
  destruct k as [|k]; cbn [triples lookup list_lookup].
  - intros [= -> -> ->]. done.
  - intros (H1 & H2 & H3)%IH.
    replace (3 * S k)%nat with (S (S (S (3 * k)))) by lia. done.
Qed.

Lemma aget_triple ws k t :
  triples ws !! k = Some t →
  @aget autoerr _ ws (3 * Z.of_nat k) = Ret (dest_ t) ∧
  @aget autoerr _ ws (3 * Z.of_nat k + 1) = Ret (min_ t) ∧
  @aget autoerr _ ws (3 * Z.of_nat k + 2) = Ret (max_ t).
Proof.
  destruct t as [[d lo] hi]. intros (H1 & H2 & H3)%triples_lookup.
  split_and!; apply aget_Ret; try lia; cbn [dest_ min_ max_ fst snd].
  - by replace (Z.to_nat (3 * Z.of_nat k)) with (3 * k)%nat by lia.
  - by replace (Z.to_nat (3 * Z.of_nat k + 1)) with (3 * k + 1)%nat by lia.
  - by replace (Z.to_nat (3 * Z.of_nat k + 2)) with (3 * k + 2)%nat by lia.
Qed.

Lemma put_triple_spec ws k d lo hi :
  (3 * k + 3 ≤ length ws)%nat →
  ∃ ws', put_triple ws (3 * Z.of_nat k) d lo hi = Ret ws' ∧ length ws' = length ws ∧
         triples ws' = <[k := (d, lo, hi)]> (triples ws).
Proof.
  intros Hk. destruct (flat_split ws k 1) as (E & L1 & L2); [lia|].
  revert E L1 L2. generalize (take k (triples ws)) as pre. generalize (drop (3 * (k + 1)) ws) as rest.
  intros rest pre E L1 L2.
  destruct (take 1 (drop k (triples ws))) as [|[[d0 lo0] hi0] [|]]; cbn in L2; try lia. cbn [flat app] in E.
  subst ws. pose proof (length_flat pre) as Lp. exists (flat (pre ++ [(d, lo, hi)]) ++ rest). split_and!.
  - unfold put_triple. rewrite aset_mid by lia.
    rewrite go_bind_ret, (cons_middle d), app_assoc, aset_mid by (rewrite length_app; cbn; lia).
    rewrite go_bind_ret, (cons_middle lo), app_assoc, aset_mid by (rewrite !length_app; cbn; lia).
    by rewrite flat_app, <- !app_assoc.
  - rewrite flat_app, !length_app. cbn. lia.
  - rewrite !triples_app. cbn [triples].
    rewrite insert_app_r_alt by lia. rewrite L1, Nat.sub_diag. cbn. by rewrite <- app_assoc.
Qed.

(** The part of an array below [k] determines the regions below [k]. *)
Lemma region_eq {A} (l l' : list A) (p c k : nat) :
  take k l = take k l' → (p + c ≤ k)%nat → take c (drop p l) = take c (drop p l').
Proof.
  intros E H. apply (f_equal (fun l => take c (drop p l))) in E.
  rewrite !skipn_firstn_comm, !take_take in E. by rewrite Nat.min_l in E by lia.
Qed.

(** * Runs that may need too large an array *)

Definition runs {A} (m : AM A) (Q : A → Prop) : Prop :=
  match m with Ret a => Q a | Err ArrayTooLarge => True | _ => False end.

Lemma runs_bind {A B} (m : AM A) (f : A → AM B) Q :
  runs m (fun a => runs (f a) Q) → runs (m ≫= f) Q.
Proof. by destruct m as [|[]| |]. Qed.

Lemma runs_mono {A} (m : AM A) (Q Q' : A → Prop) : runs m Q → (∀ a, Q a → Q' a) → runs m Q'.
Proof. destruct m as [|[]| |]; cbn; auto. Qed.

Lemma runs_step {A B} (m : AM A) (f : A → AM B) Q Q' :
  runs m Q → (∀ a, Q a → runs (f a) Q') → runs (m ≫= f) Q'.
Proof. intros H Hf. apply runs_bind. by eapply runs_mono. Qed.

Lemma runs_eq {A} (m : AM A) a (Q : A → Prop) : m = Ret a → Q a → runs m Q.
Proof. by intros ->. Qed.

Lemma go_bind_mret {A B} (a : A) (f : A → AM B) : (mret a ≫= f) = f a.
Proof. reflexivity. Qed.

(** A counted loop, by an invariant. *)
Lemma runs_for {St} (I : Z → St → Prop) (Q : St → Prop) (n : nat) lo (body : Z → St → AM St) st :
  I lo st →
  (∀ i s, lo ≤ i < lo + Z.of_nat n → I i s → runs (body i s) (I (i + 1))) →
  (∀ s, I (lo + Z.of_nat n) s → Q s) →
  runs (go_for n lo body st) Q.
Proof.
  revert lo st. induction n as [|n IH]; intros lo st H0 Hstep HQ; cbn [go_for].
  - apply HQ. by replace (lo + Z.of_nat 0) with lo by lia.
  - eapply runs_step; [apply Hstep; [lia|done]|]. intros s Hs. apply IH; [done| |].
    + intros i s' Hi. apply Hstep. lia.
    + intros s'. replace (lo + 1 + Z.of_nat n) with (lo + Z.of_nat (S n)) by lia. apply HQ.
Qed.

Lemma runs_for_inv {St} (I : Z → St → Prop) (n : nat) lo (body : Z → St → AM St) st :
  I lo st →
  (∀ i s, lo ≤ i < lo + Z.of_nat n → I i s → runs (body i s) (I (i + 1))) →
  runs (go_for n lo body st) (I (lo + Z.of_nat n)).
Proof. intros H0 Hstep. by apply (runs_for I). Qed.

(** ** Runs without exceptional results *)

Definition calm {A} (m : AM A) : Prop := ∀ e, m ≠ Err e.

Lemma calm_bind {A B} (m : AM A) (f : A → AM B) : calm m → (∀ a, m = Ret a → calm (f a)) → calm (m ≫= f).
Proof. intros Hm Hf. destruct m as [a|e| |]; cbn; [by apply Hf|destruct (Hm e eq_refl)|intros e; discriminate|intros e; discriminate]. Qed.

Lemma runs_calm {A} (m : AM A) Q : runs m Q → calm m → ∃ a, m = Ret a ∧ Q a.
Proof. destruct m as [a|[]| |]; cbn; try done; [eauto|]. intros _ H. by destruct (H ArrayTooLarge). Qed.

Lemma calm_eq {A} (m : AM A) a : m = Ret a → calm m.
Proof. by intros -> e. Qed.

(** * Sorting *)

Lemma destMinMax_order t u :
  in_order destMinMaxLess t u ↔
  dest_ t < dest_ u ∨ dest_ t = dest_ u ∧ (min_ t < min_ u ∨ min_ t = min_ u ∧ max_ t ≤ max_ u).
Proof.
  unfold in_order, destMinMaxLess.
  destruct (Z.eqb_spec (dest_ u) (dest_ t)); cbn [negb]; [|rewrite Z.ltb_ge; lia].
  destruct (Z.eqb_spec (min_ u) (min_ t)); cbn [negb]; rewrite Z.ltb_ge; lia.
Qed.

Lemma minMaxDest_order t u :
  in_order minMaxDestLess t u ↔
  min_ t < min_ u ∨ min_ t = min_ u ∧ (max_ t < max_ u ∨ max_ t = max_ u ∧ dest_ t ≤ dest_ u).
Proof.
  unfold in_order, minMaxDestLess.
  destruct (Z.eqb_spec (min_ u) (min_ t)); cbn [negb]; [|rewrite Z.ltb_ge; lia].
  destruct (Z.eqb_spec (max_ u) (max_ t)); cbn [negb]; rewrite Z.ltb_ge; lia.
Qed.

#[export] Instance destMinMax_total : Total (in_order destMinMaxLess).
Proof. intros t u. rewrite !destMinMax_order. lia. Qed.
#[export] Instance destMinMax_trans : Transitive (in_order destMinMaxLess).
Proof. intros t u v. rewrite !destMinMax_order. lia. Qed.
#[export] Instance minMaxDest_total : Total (in_order minMaxDestLess).
Proof. intros t u. rewrite !minMaxDest_order. lia. Qed.
#[export] Instance minMaxDest_trans : Transitive (in_order minMaxDestLess).
Proof. intros t u v. rewrite !minMaxDest_order. lia. Qed.

(** The region of [m] transitions from the [k]-th. *)
Definition region (k m : nat) (ws : list Z) : list tr := take m (drop k (triples ws)).

Lemma sortTransitions_spec k m less a `{!Total (in_order less), !Transitive (in_order less)} :
  (3 * (k + m) ≤ length (transitions a))%nat →
  ∃ ws, sortTransitions (Z.of_nat k) (Z.of_nat m) less a = Ret (set_transitions (nextTransition a) ws a) ∧
        length ws = length (transitions a) ∧ take k (triples ws) = take k (triples (transitions a)) ∧
        region k m ws ≡ₚ region k m (transitions a) ∧ StronglySorted (in_order less) (region k m ws).
Proof.
  intros H. unfold sortTransitions, region. destruct (flat_split (transitions a) k m H) as (E & L1 & L2).
  destruct (Z.ltb_spec (Z.of_nat m) 2).
  - exists (transitions a). split_and!; [by destruct a|done..|].
    destruct (take m _) as [|t [|u l]]; cbn in L2; [constructor|by repeat constructor|lia].
  - revert E L1 L2. generalize (take k (triples (transitions a))) as pre.
    generalize (take m (drop k (triples (transitions a)))) as run.
    generalize (drop (3 * (k + m)) (transitions a)) as rest. intros rest run pre E L1 L2.
    set (run' := merge_sort (in_order less) run).
    assert (HP : run' ≡ₚ run) by apply merge_sort_Permutation.
    exists (flat pre ++ flat run' ++ rest).
    rewrite E, (slice_mid (flat pre) (flat run)) by (rewrite ?length_flat; lia).
    rewrite go_bind_ret, copy_at_mid, go_bind_ret; [| |]; fold run'.
    2: { rewrite length_flat; lia. }
    2: { rewrite triples_flat. fold run'. rewrite !length_flat. by rewrite HP. }
    rewrite triples_flat. fold run'. split_and!.
    + done.
    + rewrite !length_app, !length_flat. by rewrite HP.
    + rewrite triples_app. rewrite take_app_le by lia. by rewrite take_ge by lia.
    + rewrite !triples_app. rewrite drop_app_ge, L1, Nat.sub_diag, drop_0 by lia.
      rewrite take_app_le by (rewrite HP; lia). rewrite take_ge by (rewrite HP; lia). done.
    + rewrite !triples_app. rewrite drop_app_ge, L1, Nat.sub_diag, drop_0 by lia.
      rewrite take_app_le by (rewrite HP; lia). rewrite take_ge by (rewrite HP; lia).
      by apply StronglySorted_merge_sort.
Qed.

(** * Joining transitions *)

Definition tr_ok (n : Z) (t : tr) : Prop := 0 ≤ dest_ t < n ∧ 0 ≤ min_ t ≤ max_ t.

(** One transition, joined with the one before it where they touch. *)
Definition join (st : list tr * option tr) (t : tr) : list tr * option tr :=
  match st.2 with
  | None => (st.1, Some t)
  | Some u =>
      if (dest_ u =? dest_ t) && (min_ t <=? max_ u + 1)
      then (st.1, Some (dest_ u, min_ u, if max_ u <? max_ t then max_ t else max_ u))
      else (st.1 ++ [u], Some t)
  end.

Definition joined (l : list tr) : list tr * option tr := foldl join ([], None) l.
Definition reduced (l : list tr) : list tr := (joined l).1 ++ option_list (joined l).2.

Lemma joined_snoc l t : joined (l ++ [t]) = join (joined l) t.
Proof. unfold joined. by rewrite foldl_app. Qed.

Definition covers (t : tr) (c : Z) : Prop := min_ t ≤ c ≤ max_ t.

(** The label [c] leads to [d] in the list. *)
Definition leads (l : list tr) (c d : Z) : Prop := ∃ t, t ∈ l ∧ dest_ t = d ∧ covers t c.

Lemma leads_app l k c d : leads (l ++ k) c d ↔ leads l c d ∨ leads k c d.
Proof.
  unfold leads. setoid_rewrite elem_of_app. split; [intros (t & [H|H] & ?); eauto|].
  intros [(t & ? & ?)|(t & ? & ?)]; eauto.
Qed.

Lemma leads_nil c d : leads [] c d ↔ False.
Proof. split; [|done]. by intros (t & ?%elem_of_nil & _). Qed.

Lemma leads_one t c d : leads [t] c d ↔ dest_ t = d ∧ covers t c.
Proof. unfold leads. setoid_rewrite list_elem_of_singleton. split; [by intros (u & -> & ?)|eauto]. Qed.

Lemma leads_perm l k c d : l ≡ₚ k → leads l c d → leads k c d.
Proof. intros HP (t & H & ?). exists t. by rewrite <- HP. Qed.

(** Transitions that do not touch, in the order of the first sort. *)
Definition apart (t u : tr) : Prop := dest_ t < dest_ u ∨ dest_ t = dest_ u ∧ max_ t + 1 < min_ u.

Record joins (n : Z) (l : list tr) : Prop := {
  joins_leads : ∀ c d, leads (reduced l) c d ↔ leads l c d;
  joins_ok : Forall (tr_ok n) (reduced l);
  joins_apart : StronglySorted apart (reduced l);
  joins_length : (length (reduced l) ≤ length l)%nat;
  joins_last : l = [] ∧ joined l = ([], None) ∨
    ∃ l' t u, l = l' ++ [t] ∧ (joined l).2 = Some u ∧ dest_ u = dest_ t ∧ min_ u ≤ min_ t
}.

Lemma StronglySorted_snoc {A} (R : A → A → Prop) l x :
  StronglySorted R (l ++ [x]) ↔ StronglySorted R l ∧ Forall (fun y => R y x) l.
Proof.
  rewrite StronglySorted_app, Forall_forall. split.
  - intros (H1 & H2 & _). split; [done|]. intros y Hy. apply H1; [done|set_solver].
  - intros [H1 H2]. split_and!; [|done|by repeat constructor].
    intros y z Hy ->%list_elem_of_singleton. by apply H2.
Qed.

Lemma join_joins n l t done_ u t0 l0 :
  joins n l → Forall (tr_ok n) l → tr_ok n t → l = l0 ++ [t0] → in_order destMinMaxLess t0 t →
  joined l = (done_, Some u) → dest_ u = dest_ t0 → min_ u ≤ min_ t0 →
  joins n (l ++ [t]).
Proof.
  intros [HL Hok HA Hlen _] Hl Ht El Ho%destMinMax_order EJ Ed Em.
  assert (Hred : reduced l = done_ ++ [u]) by (unfold reduced; by rewrite EJ).
  rewrite Hred in *. apply Forall_app in Hok as [Hok Hu]. rewrite Forall_singleton in Hu.
  apply StronglySorted_snoc in HA as [HA HAu]. rewrite Forall_forall in HAu. rewrite length_app in Hlen.
  assert (EJ' : joined (l ++ [t]) = join (done_, Some u) t) by (by rewrite joined_snoc, EJ).
  assert (Hc : ∀ d c, leads (l ++ [t]) c d ↔ (leads done_ c d ∨ leads [u] c d) ∨ leads [t] c d).
  { intros d c. rewrite leads_app, <- HL, leads_app. done. }
  destruct Hu as [Hu1 Hu2], Ht as [Ht1 Ht2]. unfold join in EJ'. cbn [fst snd] in EJ'.
  destruct ((dest_ u =? dest_ t) && (min_ t <=? max_ u + 1)) eqn:Hj.
  - apply andb_true_iff in Hj as [Hd%Z.eqb_eq Hm%Z.leb_le].
    set (u' := (dest_ u, min_ u, if max_ u <? max_ t then max_ t else max_ u)) in *.
    assert (Hmax : max_ u' = Z.max (max_ u) (max_ t)).
    { cbn. destruct (Z.ltb_spec (max_ u) (max_ t)); lia. }
    assert (Hred' : reduced (l ++ [t]) = done_ ++ [u']) by (unfold reduced; by rewrite EJ').
    split; rewrite ?Hred'.
    + intros c d. rewrite Hc, leads_app.
      assert (leads [u'] c d ↔ leads [u] c d ∨ leads [t] c d) as ->; [|tauto].
      rewrite !leads_one. unfold covers. rewrite Hmax, <- Hd.
      change (dest_ u') with (dest_ u). change (min_ u') with (min_ u). lia.
    + apply Forall_app_2; [done|]. apply Forall_singleton. split; [done|]. rewrite Hmax. change (min_ u') with (min_ u). lia.
    + apply StronglySorted_snoc. split; [done|]. apply Forall_forall. intros y Hy. apply (HAu y Hy).
    + rewrite !length_app. cbn in *. lia.
    + right. exists l, t, u'. rewrite EJ'. split_and!; [done|done|done|]. change (min_ u') with (min_ u). lia.
  - assert (Hred' : reduced (l ++ [t]) = (done_ ++ [u]) ++ [t]) by (unfold reduced; by rewrite EJ').
    assert (Hut : apart u t).
    { unfold apart. apply andb_false_iff in Hj as [Hj%Z.eqb_neq|Hj%Z.leb_gt]; lia. }
    split; rewrite ?Hred'.
    + intros c d. by rewrite Hc, !leads_app.
    + apply Forall_app_2; [apply Forall_app_2|]; [done|by apply Forall_singleton..].
    + apply StronglySorted_snoc. split; [by apply StronglySorted_snoc; split; [|apply Forall_forall]|].
      apply Forall_app_2; [|by apply Forall_singleton].
      apply Forall_forall. intros y Hy. specialize (HAu y Hy). unfold apart in *. lia.
    + rewrite !length_app. cbn in *. lia.
    + right. exists l, t, t. rewrite EJ'. split_and!; [done|done|done|lia].
Qed.

Lemma reduced_joins n l : Forall (tr_ok n) l → StronglySorted (in_order destMinMaxLess) l → joins n l.
Proof.
  induction l as [|t l IH] using rev_ind; intros Hok Hs.
  - split; [done|constructor|constructor|cbn; lia|by left].
  - apply Forall_app in Hok as [Hok Ht]. rewrite Forall_singleton in Ht. apply StronglySorted_snoc in Hs as [Hs HF].
    specialize (IH Hok Hs). pose proof IH as [_ _ _ _ [[-> E]|(l0 & t0 & u & El & E & Ed & Em)]].
    + cbn [app]. split; cbn; [done|by apply Forall_singleton|by repeat constructor|lia|].
      right. exists [], t, t. split_and!; [done|done|done|lia].
    + destruct (joined l) as [done_ o] eqn:EJ. cbn in E. subst o.
      eapply join_joins; try done. rewrite Forall_forall in HF. apply HF. rewrite El. set_solver.
Qed.

(** ** The loop that joins in place *)

Section ReduceLoop.
Context (ws : list Z) (k m : nat) (Hlen : (3 * (k + m) ≤ length ws)%nat).
Let run : list tr := region k m ws.

(** [done_] lies in front, the part that is still to be read is as it was. *)
Record in_place (i : nat) (done_ : list tr) (ws' : list Z) : Prop := {
  ip_length : length ws' = length ws;
  ip_before : take k (triples ws') = take k (triples ws);
  ip_done : ∀ j, (j < length done_)%nat → triples ws' !! (k + j)%nat = done_ !! j;
  ip_unread : ∀ j, (i ≤ j < m)%nat → triples ws' !! (k + j)%nat = run !! j
}.

Definition carries (r : reducing) (o : option tr) : Prop :=
  match o with
  | None => dest r = -1
  | Some u => 0 ≤ dest_ u ∧ dest r = dest_ u ∧ minLabel r = min_ u ∧ maxLabel r = max_ u
  end.

Lemma in_place_write i done_ u ws' :
  in_place i done_ ws' → (length done_ < i ≤ m)%nat →
  ∃ ws'', put_triple ws' (3 * Z.of_nat k + 3 * Z.of_nat (length done_)) (dest_ u) (min_ u) (max_ u) = Ret ws'' ∧
          in_place i (done_ ++ [u]) ws''.
Proof.
  intros [H1 H2 H3 H4] Hi. rewrite <- Z.mul_add_distr_l, <- Nat2Z.inj_add.
  destruct (put_triple_spec ws' (k + length done_) (dest_ u) (min_ u) (max_ u)) as (ws'' & E & El & Et); [lia|].
  exists ws''. split; [done|]. replace (dest_ u, min_ u, max_ u) with u in Et by (by destruct u as [[? ?] ?]).
  assert (Hin : (k + length done_ < length (triples ws'))%nat).
  { rewrite length_triples, H1. apply Nat.div_le_lower_bound; lia. }
  split; [lia| | |].
  - by rewrite Et, take_insert_ge by lia.
  - intros j Hj. rewrite length_app in Hj. cbn in Hj. rewrite Et.
    destruct (decide (j = length done_)) as [->|].
    + rewrite list_lookup_insert_eq by done. by rewrite list_lookup_middle.
    + rewrite list_lookup_insert_ne by lia. rewrite lookup_app_l by lia. apply H3. lia.
  - intros j Hj. rewrite Et, list_lookup_insert_ne by lia. by apply H4.
Qed.

Lemma flush_spec i done_ o r :
  in_place i done_ (ws_ r) → carries r o → upto r = Z.of_nat (length done_) →
  (length (done_ ++ option_list o) ≤ i ≤ m)%nat →
  ∃ ws'', flush (3 * Z.of_nat k) r = Ret (ws'', Z.of_nat (length (done_ ++ option_list o))) ∧
          in_place i (done_ ++ option_list o) ws''.
Proof.
  intros HI Hc Hu Hi. unfold flush. destruct o as [u|]; cbn [carries option_list] in *.
  - destruct Hc as (H0 & -> & -> & ->). rewrite length_app in Hi. cbn in Hi.
    rewrite (proj2 (Z.eqb_neq _ _)) by lia. cbn [negb].
    destruct (in_place_write i done_ u (ws_ r) HI) as (ws'' & E & HI'); [lia|].
    exists ws''. rewrite Hu, E, go_bind_ret, length_app. cbn [length]. split; [|done]. by rewrite Nat2Z.inj_add.
  - rewrite Hc, app_nil_r, Hu. by exists (ws_ r).
Qed.

Definition reduce_inv (i : Z) (r : reducing) : Prop :=
  let J := joined (take (Z.to_nat i) run) in
  in_place (Z.to_nat i) J.1 (ws_ r) ∧ carries r J.2 ∧ upto r = Z.of_nat (length J.1) ∧
  (length (J.1 ++ option_list J.2) ≤ Z.to_nat i)%nat.

Hypothesis Hdests : Forall (fun t => 0 ≤ dest_ t) run.

Lemma reduce_step_spec i r :
  0 ≤ i < Z.of_nat m → reduce_inv i r →
  ∃ r', reduce_step (3 * Z.of_nat k) i r = Ret r' ∧ reduce_inv (i + 1) r'.
Proof.
  intros Hi (HI & Hc & Hu & Hl). set (J := joined _) in *.
  assert (Hrun : length run = m).
  { unfold run, region. rewrite length_take, length_drop, length_triples.
    pose proof (Nat.div_le_lower_bound (length ws) 3 (k + m) ltac:(lia) Hlen). lia. }
  destruct (lookup_lt_is_Some_2 run (Z.to_nat i)) as [t Ht]; [lia|].
  assert (HJ' : joined (take (Z.to_nat (i + 1)) run) = join J t).
  { rewrite Z2Nat.inj_add by lia. rewrite Nat.add_1_r. by rewrite (take_S_r _ _ _ Ht), joined_snoc. }
  assert (Hd : 0 ≤ dest_ t) by (by eapply Forall_lookup_1 in Hdests).
  pose proof (ip_unread _ _ _ HI (Z.to_nat i) ltac:(lia)) as Hget. rewrite Ht in Hget.
  apply aget_triple in Hget as (G1 & G2 & G3).
  replace (3 * Z.of_nat (k + Z.to_nat i)) with (3 * Z.of_nat k + 3 * i) in * by lia.
  unfold reduce_step. rewrite G1, go_bind_ret, G2, go_bind_ret, G3, go_bind_ret.
  destruct (flush_spec (Z.to_nat i) J.1 J.2 r HI Hc Hu ltac:(lia)) as (ws'' & EF & HF).
  assert (Hweak : ∀ l w, in_place (Z.to_nat i) l w → in_place (Z.to_nat (i + 1)) l w).
  { intros l w [? ? ? H4]. split; [done..|]. intros j Hj. apply H4. lia. }
  unfold reduce_inv. rewrite HJ'. destruct J as [done_ [u|]]; cbn [fst snd carries option_list] in *.
  - destruct Hc as (H0 & Ed & Emin & Emax). rewrite Ed, Emax. unfold join. cbn [snd fst].
    destruct (dest_ u =? dest_ t) eqn:Hdt; cbn [andb].
    + destruct (min_ t <=? max_ u + 1); [|rewrite EF, go_bind_ret]; (eexists; split; [reflexivity|]); cbn.
      * split_and!; [by apply Hweak|done|done|done|done|done|]. rewrite length_app in *. cbn in *. lia.
      * apply Z.eqb_eq in Hdt.
        split_and!; [by apply Hweak|done|done|done|done|done|]. rewrite !length_app in *. cbn in *. lia.
    + rewrite EF, go_bind_ret. eexists; split; [reflexivity|]. cbn.
      split_and!; [by apply Hweak|done|done|done|done|done|]. rewrite !length_app in *. cbn in *. lia.
  - rewrite Hc, (proj2 (Z.eqb_neq _ _)) by lia. rewrite EF, go_bind_ret. eexists; split; [reflexivity|]. cbn.
    rewrite app_nil_r in *. split_and!; [by apply Hweak|done|done|done|done|done|]. rewrite !length_app. cbn. lia.
Qed.

(** The loop and the write after it leave the joined transitions in front. *)
Lemma reduce_loop_spec :
  ∃ r ws', go_for m 0 (reduce_step (3 * Z.of_nat k))
             {| ws_ := ws; upto := 0; minLabel := -1; maxLabel := -1; dest := -1 |} = Ret r ∧
    flush (3 * Z.of_nat k) r = Ret (ws', Z.of_nat (length (reduced run))) ∧
    length ws' = length ws ∧ take k (triples ws') = take k (triples ws) ∧
    region k (length (reduced run)) ws' = reduced run ∧ (length (reduced run) ≤ m)%nat.
Proof.
  assert (Hrun : length run = m).
  { unfold run, region. rewrite length_take, length_drop, length_triples.
    pose proof (Nat.div_le_lower_bound (length ws) 3 (k + m) ltac:(lia) Hlen). lia. }
  destruct (go_for_inv (E:=autoerr) reduce_inv m 0 (reduce_step (3 * Z.of_nat k))
    {| ws_ := ws; upto := 0; minLabel := -1; maxLabel := -1; dest := -1 |}) as (r & E & HI & Hc & Hu & Hl).
  - split_and!; cbn; [|done..]. split; [done..| |].
    + intros j Hj. change (Z.to_nat 0) with 0%nat in Hj. rewrite take_0 in Hj. unfold joined in Hj. cbn in Hj. lia.
    + intros j Hj. unfold run, region. rewrite lookup_take_lt, lookup_drop by lia. done.
  - intros i s Hi HI. apply reduce_step_spec; [lia|done].
  - rewrite Z.add_0_l, Nat2Z.id, take_ge in * by lia.
    destruct (flush_spec m _ _ r HI Hc Hu ltac:(lia)) as (ws' & EF & [H1 H2 H3 _]).
    exists r, ws'. fold (reduced run) in *. split_and!; try done.
    apply list_eq. intros j. unfold region.
    destruct (decide (j < length (reduced run))%nat).
    + rewrite lookup_take_lt, lookup_drop by lia. by apply H3.
    + rewrite lookup_take_ge by lia. symmetry. apply lookup_ge_None. lia.
Qed.
End ReduceLoop.

(** ** Looking for a label that two transitions share *)

Definition before (t u : tr) : Prop := max_ t < min_ u.

Fixpoint clash (lastMax : Z) (l : list tr) : bool :=
  match l with
  | [] => false
  | t :: l => if min_ t <=? lastMax then true else clash (max_ t) l
  end.

Lemma overlaps_clash ws k n fuel : ∀ i lastMax,
  (3 * (k + n) ≤ length ws)%nat → (n ≤ fuel + i)%nat → (i ≤ n)%nat →
  overlaps fuel ws (3 * Z.of_nat k) (Z.of_nat i) (Z.of_nat n) lastMax =
  Ret (clash lastMax (drop i (region k n ws))).
Proof.
  induction fuel as [|fuel IH]; intros i lastMax Hl Hf Hi; cbn [overlaps].
  all: assert (Hlr : length (region k n ws) = n) by (apply (flat_split ws k n Hl)).
  - rewrite (proj2 (Z.ltb_ge _ _)) by lia. by rewrite drop_ge by lia.
  - destruct (Z.ltb_spec (Z.of_nat i) (Z.of_nat n)) as [Hin|]; [|by rewrite drop_ge by lia].
    destruct (lookup_lt_is_Some_2 (region k n ws) i) as [t Ht]; [lia|].
    rewrite (drop_S _ _ _ Ht). cbn [clash]. unfold region in Ht. rewrite lookup_take_lt, lookup_drop in Ht by lia.
    destruct (aget_triple _ _ _ Ht) as (_ & G2 & G3).
    replace (3 * Z.of_nat (k + i)) with (3 * Z.of_nat k + 3 * Z.of_nat i) in * by lia.
    rewrite G2, go_bind_ret. destruct (min_ t <=? lastMax); [done|]. rewrite G3, go_bind_ret.
    replace (Z.of_nat i + 1) with (Z.of_nat (S i)) by lia. apply IH; lia.
Qed.

Lemma clash_false n t l :
  tr_ok n t → Forall (tr_ok n) l → clash (max_ t) l = false → StronglySorted before (t :: l).
Proof.
  revert t. induction l as [|u l IH]; intros t Ht Hl H; [by repeat constructor|].
  apply Forall_cons in Hl as [Hu Hl]. cbn in H. destruct (Z.leb_spec (min_ u) (max_ t)); [done|].
  specialize (IH u Hu Hl H). apply StronglySorted_cons in IH as [HF HS].
  constructor; [by constructor|]. constructor; [done|].
  eapply Forall_impl; [exact HF|]. intros v Hv. destruct Hu as [_ Hu]. unfold before in *. lia.
Qed.

(** A label leads to one state at most. *)
Definition functional (l : list tr) : Prop := ∀ c d d', leads l c d → leads l c d' → d = d'.

Lemma functional_leads l l' : (∀ c d, leads l c d ↔ leads l' c d) → functional l → functional l'.
Proof. intros H HF c d d' H1%H H2%H. by apply (HF c). Qed.

Lemma before_functional n l : Forall (tr_ok n) l → StronglySorted before l → functional l.
Proof.
  intros _ HS c d d' (t & Ht & <- & Hct) (u & Hu & <- & Hcu).
  induction HS as [|x l HS IH HF]; [by apply elem_of_nil in Ht|]. rewrite Forall_forall in HF.
  unfold covers, before in *.
  apply elem_of_cons in Ht as [->|Ht]; apply elem_of_cons in Hu as [->|Hu]; [done| | |by apply IH].
  - specialize (HF u Hu). lia.
  - specialize (HF t Ht). lia.
Qed.

Lemma apart_NoDup n l : Forall (tr_ok n) l → StronglySorted apart l → NoDup l.
Proof.
  intros Hok HA. induction HA as [|x k HA IH HF]; constructor; apply Forall_cons in Hok as [[_ Hx] Hok].
  - intros Hin. rewrite Forall_forall in HF. specialize (HF x Hin). unfold apart in HF. lia.
  - by apply IH.
Qed.

Lemma apart_cases l t u : StronglySorted apart l → t ∈ l → u ∈ l → t ≠ u → apart t u ∨ apart u t.
Proof.
  intros HA Ht Hu Hne. induction HA as [|x k HA IH HF]; [by apply elem_of_nil in Ht|].
  rewrite Forall_forall in HF.
  apply elem_of_cons in Ht as [->|Ht]; apply elem_of_cons in Hu as [->|Hu]; [done| | |by apply IH].
  - left. by apply HF.
  - right. by apply HF.
Qed.

(** Transitions that do not touch share a label only if a label leads to two states. *)
Lemma clash_apart n t l l' :
  t :: l ≡ₚ l' → StronglySorted apart l' → Forall (tr_ok n) (t :: l) → functional (t :: l) →
  StronglySorted (in_order minMaxDestLess) (t :: l) → clash (max_ t) l = false.
Proof.
  intros HP HA Hok Hd HS.
  assert (HN : NoDup (t :: l)) by (rewrite HP; apply apart_NoDup with n; [by rewrite <- HP|done]).
  assert (Hap : ∀ u v, u ∈ t :: l → v ∈ t :: l → u ≠ v → apart u v ∨ apart v u).
  { intros u v Hu Hv. rewrite HP in Hu, Hv. by apply (apart_cases l'). }
  clear HP HA l'. revert t Hok Hd HS HN Hap. induction l as [|u l IH]; intros t Hok Hd HS HN Hap; [done|].
  cbn [clash]. apply Forall_cons in Hok as [Ht Hok]. apply NoDup_cons in HN as [Hnt HN].
  apply StronglySorted_cons in HS as [HF HS]. apply Forall_cons in HF as [Htu _].
  assert (Hin : u ∈ t :: u :: l) by (right; left). assert (Hint : t ∈ t :: u :: l) by left.
  destruct (Z.leb_spec (min_ u) (max_ t)) as [Hle|].
  - exfalso. apply minMaxDest_order in Htu. pose proof (Forall_cons_1 _ _ _ Hok) as [[_ Hu] _].
    assert (Hdd : dest_ t = dest_ u).
    { apply (Hd (min_ u)); [exists t|exists u]; (split; [done|split; [done|]]); unfold covers; lia. }
    destruct (Hap t u) as [H|H]; [done|done| |unfold apart in H; lia|unfold apart in H; lia].
    intros ->. apply Hnt. left.
  - apply IH; try done.
    + intros c d d' (v & Hv & ?) (w & Hw & ?). apply (Hd c); [exists v|exists w]; (split; [by right|done]).
    + intros v w Hv Hw. apply Hap; by right.
Qed.

(** * Well-formed automata *)

Definition ptr (a : Automaton) (s : Z) : Z := nthZ 0 (states a) (2 * s).
Definition cnt (a : Automaton) (s : Z) : Z := nthZ 0 (states a) (2 * s + 1).

(** The transitions of a state. *)
Definition delta (a : Automaton) (s : Z) : list tr :=
  region (Z.to_nat (ptr a s / 3)) (Z.to_nat (cnt a s)) (transitions a).

(** The label [c] leads from [s] to [d]. *)
Definition edge (a : Automaton) (s c d : Z) : Prop := leads (delta a s) c d.

Definition started (a : Automaton) (s : Z) : Prop := ptr a s ≠ -1.

(** Where the transitions of the state under construction begin. *)
Definition base (a : Automaton) : Z :=
  if curState a =? -1 then nextTransition a else ptr a (curState a).

Definition placed (a : Automaton) (s limit : Z) : Prop :=
  ptr a s = -1 ∧ cnt a s = 0 ∨
  ∃ k m : nat, ptr a s = 3 * Z.of_nat k ∧ cnt a s = Z.of_nat m ∧ 3 * Z.of_nat (k + m) ≤ limit.

Definition finished (det : bool) (l : list tr) : Prop :=
  StronglySorted (in_order minMaxDestLess) l ∧ (det = true → StronglySorted before l).

Record wf (a : Automaton) : Prop := {
  wf_next : ∃ m : nat, nextTransition a = 3 * Z.of_nat m ∧ (3 * m ≤ length (transitions a))%nat;
  wf_states : ∃ n : nat, nextState a = 2 * Z.of_nat n ∧ (2 * n ≤ length (states a))%nat;
  wf_fresh : ∀ j, nextState a ≤ j → nthZ 0 (states a) j = 0;
  wf_placed : ∀ s, 0 ≤ s < NumStates a → s ≠ curState a → placed a s (base a);
  wf_cur : curState a = -1 ∨
    0 ≤ curState a < NumStates a ∧
    ∃ k m : nat, ptr a (curState a) = 3 * Z.of_nat k ∧ cnt a (curState a) = Z.of_nat m ∧
                 nextTransition a = 3 * Z.of_nat (k + m);
  wf_ok : ∀ s, 0 ≤ s < NumStates a → Forall (tr_ok (NumStates a)) (delta a s);
  wf_finished : ∀ s, 0 ≤ s < NumStates a → s ≠ curState a → finished (deterministic a) (delta a s);
  wf_words : Forall is_word (isAccept a);
  wf_accept : ∀ s, IsAccept a s = true → s < NumStates a;
  wf_det : (∀ s, 0 ≤ s < NumStates a → s ≠ curState a → functional (delta a s)) → deterministic a = true
}.

Lemma NumStates_eq a n : nextState a = 2 * Z.of_nat n → NumStates a = Z.of_nat n.
Proof. unfold NumStates. intros ->. rewrite Z.mul_comm, Z.div_mul; lia. Qed.

Lemma ptr_div3 k : 3 * Z.of_nat k / 3 = Z.of_nat k.
Proof. rewrite Z.mul_comm, Z.div_mul; lia. Qed.

Lemma NumStates_pos a : wf a → 0 ≤ NumStates a.
Proof. intros [_ (n & E & _) _ _ _ _ _ _ _ _]. rewrite (NumStates_eq _ _ E). lia. Qed.

Lemma delta_beyond a s : wf a → NumStates a ≤ s → delta a s = [].
Proof.
  intros W Hs. destruct (wf_states _ W) as (n & E & _). rewrite (NumStates_eq _ _ E) in Hs.
  unfold delta, cnt. rewrite (wf_fresh _ W) by lia. done.
Qed.

(** ** Accept states *)

Lemma IsAccept_bit a s : Forall is_word (isAccept a) → IsAccept a s = (0 <=? s) && bit (isAccept a) s.
Proof.
  intros HW. unfold IsAccept, bit. rewrite shiftr6, land63.
  destruct (Z.ltb_spec s 0), (Z.leb_spec 0 s); try (exfalso; lia); [done|]; cbn [andb].
  destruct (Z.leb_spec (Z.of_nat (length (isAccept a))) (s / 64)).
  - unfold nthZ. rewrite lookup_ge_None_2 by idx. cbn. by rewrite Z.testbit_0_l.
  - apply land_bit_zero; [idx|by apply word_at].
Qed.

Lemma bit_pad ws n i : 0 ≤ i → bit (ws ++ repeat 0 n) i = bit ws i.
Proof.
  intros Hi. unfold bit. f_equal. unfold nthZ. rewrite lookup_app.
  destruct (ws !! Z.to_nat (i / 64)) as [w|]; [done|].
  destruct (repeat 0 n !! _) as [w|] eqn:E; [|done]. apply list_elem_of_lookup_2, list_elem_of_In, repeat_spec in E.
  by rewrite E.
Qed.

(** Everything but the accept states. *)
Record same_but_accept (a a' : Automaton) : Prop := {
  sb_nextState : nextState a' = nextState a; sb_nextTransition : nextTransition a' = nextTransition a;
  sb_curState : curState a' = curState a; sb_states : states a' = states a;
  sb_transitions : transitions a' = transitions a; sb_deterministic : deterministic a' = deterministic a
}.

Lemma set_isAccept_same ws a : same_but_accept a (set_isAccept ws a).
Proof. by split. Qed.

Lemma update_accept_bit ws f u s i :
  Bitwise f u → Forall is_word ws → (∀ b, u b false = b) → 0 ≤ s → s / 64 < Z.of_nat (length ws) → 0 ≤ i →
  bit (<[Z.to_nat (s / 64) := f (nthZ 0 ws (s / 64)) (shl64 1 (s mod 64))]> ws) i =
  if decide (i = s) then u (bit ws s) true else bit ws i.
Proof.
  intros Hf HW Hu Hs Hw Hi. rewrite bit_insert by idx. case_decide as E.
  - rewrite bitwise_bit, testbit_bit by idx. destruct (Z.eqb_spec (i mod 64) (s mod 64)).
    + rewrite decide_True by idx. unfold bit. by do 2 f_equal.
    + rewrite decide_False by congruence. rewrite Hu. unfold bit. by rewrite E.
  - by rewrite decide_False by congruence.
Qed.

Lemma setAcceptBit_spec s accept a :
  Forall is_word (isAccept a) → 0 ≤ s →
  ∃ a', setAcceptBit s accept a = Ret a' ∧ same_but_accept a a' ∧ Forall is_word (isAccept a') ∧
        ∀ i, IsAccept a' i = if decide (i = s) then accept else IsAccept a i.
Proof.
  intros HW Hs. unfold setAcceptBit. rewrite shiftr6, land63.
  assert (Hend : ∀ ws', Forall is_word ws' →
    (∀ i, 0 ≤ i → bit ws' i = if decide (i = s) then accept else bit (isAccept a) i) →
    Forall is_word (isAccept (set_isAccept ws' a)) ∧
    ∀ i, IsAccept (set_isAccept ws' a) i = if decide (i = s) then accept else IsAccept a i).
  { intros ws' HW' Hb. split; [done|]. intros i. rewrite !IsAccept_bit by done. cbn [isAccept set_isAccept].
    destruct (Z.leb_spec 0 i); cbn [andb]; [by apply Hb|]. by rewrite decide_False by lia. }
  destruct accept; cbn [negb].
  - set (ws := if Z.of_nat (length (isAccept a)) <=? s / 64 then _ else _).
    assert (Hws : Forall is_word ws ∧ s / 64 < Z.of_nat (length ws) ∧ ∀ i, 0 ≤ i → bit ws i = bit (isAccept a) i).
    { unfold ws. destruct (Z.leb_spec (Z.of_nat (length (isAccept a))) (s / 64)); [|done]. split_and!.
      - apply Forall_app_2; [done|]. apply Forall_forall. by intros w ->%list_elem_of_In%repeat_spec.
      - rewrite length_app, repeat_length. lia.
      - intros. by apply bit_pad. }
    destruct Hws as (HW' & Hlen & Hb). clearbody ws. rewrite (nthZ_aget 0), go_bind_ret by idx.
    rewrite aset_Ret, go_bind_ret by idx. eexists. split; [reflexivity|]. split; [by apply set_isAccept_same|].
    apply Hend; [apply Forall_insert; [done|]; apply bitwise_word; [by apply word_at|auto with words]|].
    intros i Hi. rewrite (update_accept_bit ws Z.lor orb) by (done || apply _ || apply orb_false_r || idx).
    rewrite orb_true_r. by rewrite Hb.
  - destruct (Z.ltb_spec (s / 64) (Z.of_nat (length (isAccept a)))) as [Hlen|Hlen].
    + rewrite (nthZ_aget 0), go_bind_ret by idx. rewrite aset_Ret, go_bind_ret by idx.
      eexists. split; [reflexivity|]. split; [by apply set_isAccept_same|].
      apply Hend; [apply Forall_insert; [done|]; apply bitwise_word; [by apply word_at|auto with words]|].
      intros i Hi. rewrite (update_accept_bit _ andnot (fun a b => a && negb b)) by (done || apply _ || (intros; apply andb_true_r) || idx).
      by rewrite andb_false_r.
    + exists a. split; [done|]. split; [done|]. split; [done|]. intros i. case_decide as E; [|done]. subst i.
      rewrite IsAccept_bit by done. unfold bit, nthZ. rewrite lookup_ge_None_2 by idx. cbn.
      rewrite Z.testbit_0_l. apply andb_false_r.
Qed.

Lemma same_but_accept_wf a a' :
  same_but_accept a a' → wf a → Forall is_word (isAccept a') → (∀ s, IsAccept a' s = true → s < NumStates a) → wf a'.
Proof.
  intros [E1 E2 E3 E4 E5 E6] [H1 H2 H3 H4 H5 H6 H7 _ _ H10] HW HA.
  unfold NumStates, placed, base, delta, ptr, cnt in *. rewrite <- E1 in HA.
  split; unfold NumStates, placed, base, delta, ptr, cnt; rewrite ?E1, ?E2, ?E3, ?E4, ?E5, ?E6 in *; done.
Qed.

Lemma same_but_accept_view a a' :
  same_but_accept a a' → NumStates a' = NumStates a ∧ (∀ s, delta a' s = delta a s) ∧ (∀ s, ptr a' s = ptr a s).
Proof. intros [E1 _ _ E4 E5 _]. unfold NumStates, delta, ptr, cnt. by rewrite E1, E4, E5. Qed.

Lemma checkIndex_ok i n : 0 ≤ i < n → checkIndex i n = Ret tt.
Proof. intros H. unfold checkIndex, must. by rewrite (proj2 (in_range_spec i n)). Qed.

Lemma SetAccept_spec s accept a :
  wf a → 0 ≤ s < NumStates a →
  ∃ a', SetAccept s accept a = Ret a' ∧ wf a' ∧ same_but_accept a a' ∧
        ∀ i, IsAccept a' i = if decide (i = s) then accept else IsAccept a i.
Proof.
  intros W Hs. unfold SetAccept. rewrite checkIndex_ok by done. cbn [mbind go_bind].
  destruct (setAcceptBit_spec s accept a (wf_words _ W)) as (a' & E & HS & HW & HA); [lia|].
  exists a'. split_and!; try done. apply same_but_accept_wf with a; try done.
  intros i. rewrite HA. case_decide; [lia|]. apply (wf_accept _ W).
Qed.

(** ** Growing *)

Lemma growInts_spec ws n :
  0 ≤ n → runs (growInts ws n) (fun ws' => ∃ m, ws' = ws ++ repeat 0 m ∧ n ≤ Z.of_nat (length ws')).
Proof.
  intros Hn. unfold growInts. destruct (Z.ltb_spec (Z.of_nat (length ws)) n) as [Hl|Hl].
  - assert (HO : runs (Oversize n NumBytesObjectRef) (fun k => n ≤ k)).
    { unfold Oversize, oversize. rewrite (proj2 (Z.ltb_ge _ _)) by lia. rewrite (proj2 (Z.eqb_neq _ _)) by lia.
      destruct (Z.ltb_spec MaxArrayLength n); [done|].
      pose proof (proj2 (Z.shiftr_nonneg n 3) Hn) as Hsh.
      set (extra := if Z.shiftr n 3 <? 3 then 3 else Z.shiftr n 3).
      assert (0 ≤ extra) by (unfold extra; case_match; lia). clearbody extra.
      destruct (_ || _); cbn [runs mret go_ret]; [lia|].
      change (roundUpToAlignment (n + extra) NumBytesObjectRef) with (n + extra). lia. }
    eapply runs_step; [exact HO|]. cbn beta. intros k Hk. unfold GrowExact. rewrite (proj2 (Z.ltb_ge _ _)) by lia.
    cbn. eexists. split; [done|]. rewrite length_app, repeat_length. lia.
  - cbn. exists 0%nat. by rewrite app_nil_r.
Qed.

Lemma nthZ_pad ws m j : nthZ 0 (ws ++ repeat 0 m) j = nthZ 0 ws j.
Proof.
  unfold nthZ. rewrite lookup_app. destruct (ws !! Z.to_nat j); [done|].
  destruct (repeat 0 m !! _) as [w|] eqn:E; [|done]. apply list_elem_of_lookup_2, list_elem_of_In, repeat_spec in E.
  by rewrite E.
Qed.

Lemma take_triples_pad ws l k : (3 * k ≤ length ws)%nat → take k (triples (ws ++ l)) = take k (triples ws).
Proof.
  intros Hk. rewrite (flat_take ws k Hk) at 1. rewrite <- app_assoc, triples_app.
  assert (Hl : length (take k (triples ws)) = k).
  { rewrite length_take, length_triples. apply Nat.min_l. apply Nat.div_le_lower_bound; lia. }
  rewrite take_app_le by lia. by rewrite take_ge by lia.
Qed.

(** A state keeps its transitions when the array keeps what lies below a limit. *)
Lemma delta_same a a' s limit k :
  ptr a' s = ptr a s → cnt a' s = cnt a s → placed a s limit → limit ≤ 3 * Z.of_nat k →
  take k (triples (transitions a')) = take k (triples (transitions a)) → delta a' s = delta a s.
Proof.
  intros Ep Ec HP Hl E. unfold delta, region. rewrite Ep, Ec. destruct HP as [[_ ->]|(p & m & -> & -> & Hm)]; [done|].
  rewrite ptr_div3, !Nat2Z.id. apply region_eq with k; [done|]. lia.
Qed.

(** Growing the array of states changes nothing. *)
Lemma growStates_spec a :
  wf a → runs (growStates a) (fun a' => wf a' ∧ nextState a + 2 ≤ Z.of_nat (length (states a')) ∧
    ∃ ss, a' = set_states (nextState a) ss a ∧ ∀ j, nthZ 0 ss j = nthZ 0 (states a) j).
Proof.
  intros W. destruct (wf_states _ W) as (n & En & Hn). unfold growStates.
  destruct (Z.ltb_spec (Z.of_nat (length (states a))) (nextState a + 2)) as [Hl|Hl].
  - eapply runs_step; [apply growInts_spec; lia|]. intros ss (m & -> & Hm). cbn [runs mret go_ret].
    split_and!; [|done|eexists; split; [done|]; intros; apply nthZ_pad].
    destruct W. split; cbn; try done.
    + exists n. split; [done|]. rewrite length_app. lia.
    + intros j Hj. rewrite nthZ_pad. auto.
    + intros s Hs Hc. unfold placed, base, ptr, cnt in *. cbn. rewrite !nthZ_pad. apply wf_placed0; done.
    + unfold ptr, cnt. cbn. rewrite !nthZ_pad. done.
    + intros s Hs. unfold delta, ptr, cnt. cbn. rewrite !nthZ_pad. by apply wf_ok0.
    + intros s Hs Hc. unfold delta, ptr, cnt. cbn. rewrite !nthZ_pad. by apply wf_finished0.
    + unfold delta, ptr, cnt. cbn. setoid_rewrite nthZ_pad. done.
  - cbn. split_and!; [done|done|]. exists (states a). split; [by destruct a|done].
Qed.

Lemma CreateState_spec a :
  wf a → runs (CreateState a) (fun '(s, a') => wf a' ∧ s = NumStates a ∧ NumStates a' = NumStates a + 1 ∧
    (∀ s, 0 ≤ s → delta a' s = delta a s) ∧ (∀ s, IsAccept a' s = IsAccept a s) ∧
    (∀ i, 0 ≤ i → started a' i ↔ started a i ∧ i ≠ s) ∧ curState a' = curState a ∧ deterministic a' = deterministic a).
Proof.
  intros W. unfold CreateState. eapply runs_step; [by apply growStates_spec|].
  intros a1 (W1 & Hroom & ss & -> & Hss). cbn [nextState set_states states] in *.
  destruct (wf_states _ W) as (n & En & Hn). pose proof (NumStates_eq _ _ En) as EN.
  rewrite aset_Ret by (cbn in Hroom; lia). cbn [mbind go_bind mret go_ret runs].
  set (a' := set_states (nextState a + 2) _ _).
  assert (Hnth : ∀ j, 0 ≤ j → nthZ 0 (states a') j = if decide (j = nextState a) then -1 else nthZ 0 (states a) j).
  { intros j Hj. cbn. rewrite nthZ_insert by (cbn in Hroom; lia). rewrite Hss.
    repeat case_decide; congruence || lia. }
  assert (EN' : NumStates a' = NumStates a + 1).
  { rewrite EN. rewrite (NumStates_eq a' (S n)); cbn; lia. }
  assert (Hp : ∀ s, 0 ≤ s → ptr a' s = if decide (s = NumStates a) then -1 else ptr a s).
  { intros s Hs. unfold ptr. rewrite Hnth by lia. repeat case_decide; done || lia. }
  assert (Hc : ∀ s, 0 ≤ s → cnt a' s = cnt a s).
  { intros s Hs. unfold cnt. rewrite Hnth by lia. case_decide; done || lia. }
  assert (Hd : ∀ s, 0 ≤ s → delta a' s = delta a s).
  { intros s Hs. destruct (Z.lt_ge_cases s (NumStates a)).
    - unfold delta. rewrite Hp, Hc by done. by rewrite decide_False by lia.
    - rewrite (delta_beyond a) by done. unfold delta. rewrite Hc by done. unfold cnt.
      rewrite (wf_fresh _ W) by lia. done. }
  assert (Hcur : curState a' = curState a) by done.
  split_and!; try done.
  - destruct W. split; rewrite ?EN'; try done.
    + exists (S n). cbn. rewrite length_insert. cbn in Hroom. lia.
    + intros j Hj. cbn in Hj. rewrite Hnth by lia. rewrite decide_False by lia. apply wf_fresh0. lia.
    + intros s Hs Hne. unfold placed. rewrite Hp, Hc by lia. case_decide as E.
      * left. split; [done|]. subst s. unfold cnt. apply wf_fresh0. lia.
      * assert (HPl : placed a s (base a)) by (apply wf_placed0; [lia|done]).
        unfold placed, base in *. rewrite Hcur. cbn [nextTransition set_states a'].
        destruct wf_cur0 as [E'|[H1 _]]; [by rewrite E' in *|]. rewrite Hp by lia. by rewrite decide_False by lia.
    + rewrite Hcur. destruct wf_cur0 as [?|[H1 H2]]; [by left|]. right. split; [lia|].
      rewrite Hp, Hc by lia. by rewrite decide_False by lia.
    + intros s Hs. rewrite Hd by lia. destruct (Z.lt_ge_cases s (NumStates a)).
      * eapply Forall_impl; [apply wf_ok0; lia|]. intros t [? ?]. split; lia.
      * rewrite (delta_beyond a) by (by split || done). constructor.
    + intros s Hs Hne. rewrite Hd by lia. destruct (Z.lt_ge_cases s (NumStates a)).
      * apply wf_finished0; [lia|done].
      * rewrite (delta_beyond a) by (by split || done). split; constructor.
    + intros s Hs%wf_accept0. lia.
    + intros HF. apply wf_det0. intros s Hs Hne. rewrite <- Hd by lia. apply HF; [lia|done].
  - intros i Hi. unfold started. rewrite Hp by done. repeat case_decide; split; intros; try done; tauto || lia.
Qed.

(** * Finishing a state *)

Lemma region_length k m ws : (3 * (k + m) ≤ length ws)%nat → length (region k m ws) = m.
Proof. intros H. by apply flat_split in H as (_ & _ & ?). Qed.

(** What the array and the flag look like at the end. *)
Lemma finish_arrays a k m n :
  (3 * (k + m) ≤ length (transitions a))%nat → nextTransition a = 3 * Z.of_nat (k + m) →
  ptr a (curState a) = 3 * Z.of_nat k → cnt a (curState a) = Z.of_nat m →
  0 ≤ 2 * curState a < Z.of_nat (length (states a)) - 1 →
  Forall (tr_ok n) (region k m (transitions a)) →
  ∃ up ws det, (up ≤ m)%nat ∧
    finishCurrentState a = Ret {|
      nextState := nextState a; nextTransition := 3 * Z.of_nat (k + up); curState := curState a;
      states := <[Z.to_nat (2 * curState a + 1) := Z.of_nat up]> (states a); isAccept := isAccept a;
      transitions := ws; deterministic := det |} ∧
    length ws = length (transitions a) ∧ take k (triples ws) = take k (triples (transitions a)) ∧
    Forall (tr_ok n) (region k up ws) ∧
    (∀ c d, leads (region k up ws) c d ↔ leads (region k m (transitions a)) c d) ∧
    finished det (region k up ws) ∧
    (det = true ↔ deterministic a = true ∧ functional (region k m (transitions a))).
Proof.
  intros Hlen En Ep Ec Hcur Hok. unfold finishCurrentState.
  unfold ptr, cnt in Ep, Ec. rewrite !(nthZ_aget 0), go_bind_ret by lia. rewrite Ep, Ec, go_bind_ret, ptr_div3.
  destruct (sortTransitions_spec k m destMinMaxLess a Hlen) as (ws1 & -> & L1 & T1 & P1 & S1).
  rewrite go_bind_ret. cbn [transitions set_transitions nextTransition nextState states curState isAccept].
  set (run := region k m ws1) in *.
  assert (Hok1 : Forall (tr_ok n) run) by (by rewrite P1).
  destruct (reduce_loop_spec ws1 k m) as (r & ws2 & E1 & E2 & L2 & T2 & R2 & Hup); [lia| |].
  { eapply Forall_impl; [exact Hok1|]. intros t [? _]. lia. }
  fold run in E1, E2, R2, Hup. rewrite Nat2Z.id, E1, go_bind_ret, E2, go_bind_ret.
  destruct (reduced_joins n run Hok1 S1) as [HL Hokr HA _ _].
  set (up := length (reduced run)) in *.
  rewrite aset_Ret, go_bind_ret by lia.
  match goal with |- context [sortTransitions _ _ minMaxDestLess ?a2] => set (a2_ := a2) end.
  destruct (sortTransitions_spec k up minMaxDestLess a2_) as (ws3 & -> & L3 & T3 & P3 & S3); [cbn; lia|].
  rewrite go_bind_ret. cbn [transitions set_transitions set_states a2_ deterministic nextTransition] in *.
  rewrite R2 in P3. set (rt := region k up ws3) in *.
  assert (Hokt : Forall (tr_ok n) rt) by (by rewrite P3).
  assert (Hleads : ∀ c d, leads rt c d ↔ leads (region k m (transitions a)) c d).
  { intros c d. transitivity (leads run c d); [|split; apply leads_perm; by rewrite P1].
    rewrite <- HL. split; by apply leads_perm. }
  assert (Hfun : functional rt ↔ functional (region k m (transitions a))).
  { unfold functional. by setoid_rewrite Hleads. }
  assert (Hrt : length rt = up) by (apply region_length; lia).
  set (b := match rt with [] => false | t :: l => clash (max_ t) l end).
  assert (Hb : b = false ↔ functional rt).
  { unfold b. destruct rt as [|t l]; [split; [intros _ c d d' H%leads_nil; done|done]|]. split.
    - intros Hcl. apply before_functional with n; [done|]. apply Forall_cons in Hokt as [? ?].
      by apply clash_false with n.
    - intros HF. by apply (clash_apart n _ _ (reduced run)). }
  assert (Hsorted : b = false → StronglySorted before rt).
  { unfold b. destruct rt as [|t l]; [constructor|]. apply Forall_cons in Hokt as [? ?]. by apply clash_false with n. }
  exists up, ws3, (deterministic a && negb b). split; [done|]. split; [|split_and!].
  - replace (3 * Z.of_nat (k + m) - (Z.of_nat m - Z.of_nat up) * 3) with (3 * Z.of_nat (k + up)) by lia.
    rewrite En. replace (3 * Z.of_nat (k + m) - (Z.of_nat m - Z.of_nat up) * 3) with (3 * Z.of_nat (k + up)) by lia.
    destruct (deterministic a) eqn:Hdet; cbn [andb]; [|unfold set_transitions, set_states; cbn; by rewrite Hdet].
    destruct (Z.ltb_spec 1 (Z.of_nat up)) as [Hu|Hu].
    + destruct rt as [|t l] eqn:Ert; [cbn in Hrt; lia|].
      assert (Ht : triples ws3 !! k = Some t).
      { assert (H0 : rt !! 0%nat = Some t) by (unfold rt; fold rt; by rewrite Ert).
        unfold rt, region in H0. rewrite lookup_take_lt, lookup_drop, Nat.add_0_r in H0 by lia. done. }
      apply aget_triple in Ht as (_ & _ & ->). rewrite go_bind_ret.
      pose proof (overlaps_clash ws3 k up (Z.to_nat (Z.of_nat up)) 1 (max_ t) ltac:(lia) ltac:(lia) ltac:(lia)) as HO.
      change (Z.of_nat 1) with 1 in HO. rewrite HO, go_bind_ret.
      fold rt. rewrite Ert. change (drop 1 (t :: l)) with l. unfold b. destruct (clash (max_ t) l); cbn [negb];
        unfold set_deterministic, set_transitions, set_states, a2_; cbn; by rewrite ?Hdet.
    + assert (b = false) as -> by (unfold b; destruct rt as [|? [|]]; cbn in Hrt; done || lia).
      cbn [negb]. unfold set_transitions, set_states, a2_. cbn. by rewrite Hdet.
  - lia.
  - by rewrite T3, T2, T1.
  - done.
  - done.
  - split; [done|]. intros [_ Hnb%negb_true_iff]%andb_true_iff. by apply Hsorted.
  - rewrite andb_true_iff, negb_true_iff, Hb, Hfun. done.
Qed.

Record finishes (a a' : Automaton) : Prop := {
  fi_nextState : nextState a' = nextState a;
  fi_isAccept : isAccept a' = isAccept a;
  fi_ptr : ∀ s, 0 ≤ s → ptr a' s = ptr a s;
  fi_delta : ∀ s, 0 ≤ s → s ≠ curState a → delta a' s = delta a s;
  fi_edge : ∀ s c d, 0 ≤ s → edge a' s c d ↔ edge a s c d;
  fi_det : deterministic a' = true ↔ deterministic a = true ∧ functional (delta a (curState a));
  fi_room : nextTransition a' ≤ nextTransition a ∧ length (transitions a') = length (transitions a)
}.

Lemma finishes_NumStates a a' : finishes a a' → NumStates a' = NumStates a.
Proof. intros [E _ _ _ _ _ _]. unfold NumStates. by rewrite E. Qed.

Lemma finishes_IsAccept a a' s : finishes a a' → IsAccept a' s = IsAccept a s.
Proof. intros [_ E _ _ _ _ _]. unfold IsAccept. by rewrite E. Qed.

Lemma finishCurrentState_spec a :
  wf a → curState a ≠ -1 →
  ∃ a', finishCurrentState a = Ret a' ∧ curState a' = curState a ∧ finishes a a' ∧ wf (set_curState (-1) a').
Proof.
  intros W Hne. destruct (wf_cur _ W) as [?|[Hc (k & m & Ep & Ec & En)]]; [done|].
  destruct (wf_states _ W) as (n & ENS & Hn). pose proof (NumStates_eq _ _ ENS) as EN.
  destruct (wf_next _ W) as (M & EM & HM).
  assert (Hdelta : delta a (curState a) = region k m (transitions a)).
  { unfold delta. by rewrite Ep, Ec, ptr_div3, !Nat2Z.id. }
  pose proof (wf_ok _ W (curState a) Hc) as Hok. rewrite Hdelta in Hok.
  destruct (finish_arrays a k m (NumStates a)) as (up & ws & det & Hup & E & Hl & HT & Hok' & HL & Hfin & Hdet);
    [lia..|done|].
  rewrite E. eexists. split; [done|]. split; [done|]. set (a' := {| nextState := _ |}).
  assert (Hp : ∀ s, 0 ≤ s → ptr a' s = ptr a s).
  { intros s Hs. unfold ptr. cbn. rewrite nthZ_insert by lia. by rewrite decide_False by lia. }
  assert (Hcn : ∀ s, 0 ≤ s → cnt a' s = if decide (s = curState a) then Z.of_nat up else cnt a s).
  { intros s Hs. unfold cnt. cbn. rewrite nthZ_insert by lia. repeat case_decide; done || lia. }
  assert (Hplaced : ∀ s, 0 ≤ s < NumStates a → s ≠ curState a → placed a s (3 * Z.of_nat k)).
  { intros s Hs Hs'. pose proof (wf_placed _ W s Hs Hs') as HP. unfold base in HP.
    rewrite (proj2 (Z.eqb_neq _ _)), Ep in HP by done. done. }
  assert (Hd : ∀ s, 0 ≤ s → s ≠ curState a → delta a' s = delta a s).
  { intros s Hs Hs'. destruct (Z.lt_ge_cases s (NumStates a)).
    - apply delta_same with (3 * Z.of_nat k) k; [by apply Hp|by rewrite Hcn, decide_False|by apply Hplaced|lia|done].
    - rewrite (delta_beyond a) by done. unfold delta. rewrite Hcn, decide_False by done. unfold cnt.
      rewrite (wf_fresh _ W) by lia. done. }
  assert (Hdc : delta a' (curState a) = region k up ws).
  { unfold delta. rewrite Hp, Hcn, decide_True, Ep, ptr_div3, !Nat2Z.id by lia. done. }
  assert (HF : finishes a a').
  { split; try done.
    - intros s c d Hs. unfold edge. destruct (decide (s = curState a)) as [->|]; [|by rewrite Hd].
      rewrite Hdc, Hdelta. apply HL.
    - by rewrite Hdelta.
    - cbn. lia. }
  split; [done|]. change (wf (set_curState (-1) a')). destruct W.
  assert (EN' : NumStates (set_curState (-1) a') = NumStates a) by done.
  split; rewrite ?EN'.
  - exists (k + up)%nat. cbn. split; [lia|]. lia.
  - exists n. cbn. rewrite length_insert. done.
  - intros j Hj. cbn in *. rewrite nthZ_insert by lia. rewrite decide_False by lia. by apply wf_fresh0.
  - intros s Hs _. unfold placed. change (ptr (set_curState (-1) a') s) with (ptr a' s).
    change (cnt (set_curState (-1) a') s) with (cnt a' s). rewrite Hp, Hcn by lia.
    change (base (set_curState (-1) a')) with (3 * Z.of_nat (k + up)).
    case_decide as Es; [subst s; right; exists k, up; split_and!; lia|].
    destruct (Hplaced s Hs Es) as [?|(p & q & ? & ? & ?)]; [by left|]. right. exists p, q. split_and!; [done..|lia].
  - by left.
  - intros s Hs. change (delta (set_curState (-1) a') s) with (delta a' s).
    destruct (decide (s = curState a)) as [->|]; [by rewrite Hdc|]. rewrite Hd by lia. by apply wf_ok0.
  - intros s Hs _. change (delta (set_curState (-1) a') s) with (delta a' s).
    destruct (decide (s = curState a)) as [->|Hs']; [by rewrite Hdc|]. rewrite Hd by lia.
    destruct (wf_finished0 s Hs Hs') as [? HB]. split; [done|]. intros Hdt. apply HB. by apply Hdet.
  - done.
  - done.
  - intros HFun. change (deterministic (set_curState (-1) a')) with det. apply Hdet. split.
    + apply wf_det0. intros s Hs Hs'. rewrite <- Hd by lia. apply (HFun s Hs). cbn. lia.
    + rewrite <- Hdelta. apply (functional_leads (delta a' (curState a))).
      * intros c d. rewrite Hdc, Hdelta. apply HL.
      * apply (HFun (curState a) Hc). cbn. lia.
Qed.

(** ** [FinishState] *)

Lemma FinishState_spec a :
  wf a →
  ∃ a', FinishState a = Ret a' ∧ wf a' ∧ curState a' = -1 ∧ NumStates a' = NumStates a ∧
    (∀ s, IsAccept a' s = IsAccept a s) ∧ (∀ s c d, 0 ≤ s → edge a' s c d ↔ edge a s c d) ∧
    (∀ s, 0 ≤ s → started a' s ↔ started a s).
Proof.
  intros W. unfold FinishState. destruct (Z.eqb_spec (curState a) (-1)) as [E|E]; cbn [negb].
  - exists a. split_and!; done.
  - destruct (finishCurrentState_spec a W E) as (a' & -> & Ec & HF & W').
    exists (set_curState (-1) a'). split_and!; try done.
    + by apply finishes_NumStates in HF.
    + intros s. by apply (finishes_IsAccept _ _ s) in HF.
    + intros s c d Hs. by apply (fi_edge _ _ HF).
    + intros s Hs. unfold started. by rewrite <- (fi_ptr _ _ HF).
Qed.

(** The flag says whether a label leads to one state at most, from every state. *)
Lemma deterministic_iff a :
  wf a → curState a = -1 →
  deterministic a = true ↔ ∀ s, 0 ≤ s < NumStates a → functional (delta a s).
Proof.
  intros W Hc. split.
  - intros Hd s Hs. apply before_functional with (NumStates a); [by apply (wf_ok _ W)|].
    apply (wf_finished _ W); [done|lia|done].
  - intros HF. apply (wf_det _ W). intros s Hs _. by apply HF.
Qed.

(** * [AddTransition] *)

Lemma placed_next a s : wf a → 0 ≤ s < NumStates a → placed a s (nextTransition a).
Proof.
  intros W Hs. destruct (decide (s = curState a)) as [->|Hne].
  - destruct (wf_cur _ W) as [?|[_ (k & m & Ep & Ec & En)]]; [lia|]. right. exists k, m. split_and!; [done..|lia].
  - destruct (wf_placed _ W s Hs Hne) as [?|(p & q & Ep & Ec & Hb)]; [by left|].
    right. exists p, q. split_and!; [done..|]. unfold base in Hb.
    destruct (Z.eqb_spec (curState a) (-1)); [done|].
    destruct (wf_cur _ W) as [?|[_ (k & m & Ep' & Ec' & En)]]; [done|]. lia.
Qed.

(** The view of an automaton: what the rest of the program can see of it. *)
Record same_view (a a' : Automaton) : Prop := {
  sv_NumStates : NumStates a' = NumStates a;
  sv_IsAccept : ∀ s, IsAccept a' s = IsAccept a s;
  sv_edge : ∀ s c d, 0 ≤ s → edge a' s c d ↔ edge a s c d
}.

#[export] Instance same_view_preorder : PreOrder same_view.
Proof.
  split; [by split|]. intros a b c [H1 H2 H3] [K1 K2 K3]. split; [congruence|congruence|].
  intros. by rewrite K3, H3.
Qed.

(** Growing the array of transitions changes nothing. *)
Lemma pad_transitions m a :
  wf a → let a' := set_transitions (nextTransition a) (transitions a ++ repeat 0 m) a in
  wf a' ∧ ∀ s, 0 ≤ s → delta a' s = delta a s.
Proof.
  intros W a'. destruct (wf_next _ W) as (M & EM & HM).
  assert (Hd : ∀ s, 0 ≤ s → delta a' s = delta a s).
  { intros s Hs. destruct (Z.lt_ge_cases s (NumStates a)).
    - apply delta_same with (nextTransition a) M; [done|done|by apply placed_next|lia|].
      cbn. by apply take_triples_pad.
    - rewrite (delta_beyond a) by done. destruct (wf_states _ W) as (n & En & _).
      pose proof (NumStates_eq _ _ En). unfold delta, cnt. cbn. rewrite (wf_fresh _ W) by lia. done. }
  split; [|done]. destruct W. split; try done.
  - exists M. cbn. split; [done|]. rewrite length_app. lia.
  - intros s Hs. rewrite Hd by (cbn in Hs; lia). by apply wf_ok0.
  - intros s Hs Hc. rewrite Hd by (cbn in Hs; lia). by apply wf_finished0.
  - intros HF. apply wf_det0. intros s Hs Hc. rewrite <- Hd by lia. by apply HF.
Qed.

Lemma growTransitions_spec a :
  wf a → runs (growTransitions a) (fun a' => wf a' ∧ same_view a a' ∧ curState a' = curState a ∧
    (∀ s, ptr a' s = ptr a s) ∧ (∀ s, 0 ≤ s → delta a' s = delta a s) ∧ nextTransition a' = nextTransition a ∧
    (nextTransition a + 3 ≤ Z.of_nat (length (transitions a)) → length (transitions a') = length (transitions a)) ∧
    nextTransition a' + 3 ≤ Z.of_nat (length (transitions a'))).
Proof.
  intros W. destruct (wf_next _ W) as (M & EM & HM). unfold growTransitions.
  destruct (Z.ltb_spec (Z.of_nat (length (transitions a))) (nextTransition a + 3)) as [Hl|Hl].
  - eapply runs_step; [apply growInts_spec; lia|]. intros ts (m & -> & Hm). cbn [runs mret go_ret].
    destruct (pad_transitions m a W) as [W' Hd]. split_and!; try done; [|lia]. split; try done.
    intros s c d Hs. unfold edge. by rewrite Hd.
  - cbn. split_and!; done.
Qed.

(** The first transition of a state. *)
Definition begin_state (source : Z) (a : Automaton) : Automaton :=
  set_states (nextState a) (<[Z.to_nat (2 * source) := nextTransition a]> (states a)) (set_curState source a).

Lemma begin_state_spec source a :
  wf a → curState a = -1 → 0 ≤ source < NumStates a → ¬ started a source →
  wf (begin_state source a) ∧ same_view a (begin_state source a) ∧
  (∀ i, 0 ≤ i → started (begin_state source a) i ↔ started a i ∨ i = source) ∧
  (∀ s, 0 ≤ s → s ≠ source → delta (begin_state source a) s = delta a s ∧ ptr (begin_state source a) s = ptr a s).
Proof.
  intros W Hc Hs Hns. set (a' := begin_state source a).
  destruct (wf_states _ W) as (n & ENS & Hn). pose proof (NumStates_eq _ _ ENS) as EN.
  destruct (wf_next _ W) as (M & EM & HM).
  assert (Hns' : ptr a source = -1) by (unfold started in Hns; destruct (decide (ptr a source = -1)); [done|tauto]).
  assert (Hp : ∀ s, 0 ≤ s → ptr a' s = if decide (s = source) then nextTransition a else ptr a s).
  { intros s Hs'. unfold ptr. cbn. rewrite nthZ_insert by lia. repeat case_decide; done || lia. }
  assert (Hcn : ∀ s, 0 ≤ s → cnt a' s = cnt a s).
  { intros s Hs'. unfold cnt. cbn. rewrite nthZ_insert by lia. by rewrite decide_False by lia. }
  assert (Hcs : cnt a source = 0).
  { destruct (wf_placed _ W source Hs ltac:(lia)) as [[_ ?]|(k & m & Ek & _)]; [done|lia]. }
  assert (Hd : ∀ s, 0 ≤ s → delta a' s = delta a s).
  { intros s Hs'. unfold delta. rewrite Hp, Hcn by done. case_decide as E; [|done]. by rewrite E, Hcs. }
  assert (HB : base a = nextTransition a) by (unfold base; by rewrite Hc).
  split; [|split; [|split]].
  - destruct W. split; change (NumStates a') with (NumStates a); try done.
    + exists n. cbn. by rewrite length_insert.
    + intros j Hj. cbn in *. rewrite nthZ_insert by lia. rewrite decide_False by lia. auto.
    + intros s Hs' Hne. cbn in Hne. unfold placed. rewrite Hp, Hcn, decide_False by (done || lia).
      unfold base. cbn [curState a' begin_state set_states set_curState].
      rewrite (proj2 (Z.eqb_neq _ _)), Hp, decide_True by lia. rewrite <- HB. apply wf_placed0; [done|lia].
    + right. cbn [curState a' begin_state set_states set_curState]. split; [done|].
      rewrite Hp, decide_True, Hcn, Hcs by lia. exists M, 0%nat. cbn. split_and!; lia.
    + intros s Hs'. rewrite Hd by lia. by apply wf_ok0.
    + intros s Hs' _. rewrite Hd by lia. apply wf_finished0; [done|lia].
    + intros HF. apply wf_det0. intros s Hs' _. destruct (decide (s = source)) as [->|].
      * unfold delta. rewrite Hcs. intros c d d' H. by apply leads_nil in H.
      * rewrite <- Hd by lia. by apply HF.
  - split; try done. intros s c d Hs'. unfold edge. by rewrite Hd.
  - intros i Hi. unfold started. rewrite Hp by done. case_decide; [split; [by right|lia]|].
    split; [by left|]. by intros [?|?].
  - intros s Hs' Hne. split; [by apply Hd|]. by rewrite Hp, decide_False.
Qed.

(** One more transition for the current state. *)
Lemma push_transition_spec a d lo hi :
  wf a → curState a ≠ -1 → nextTransition a + 3 ≤ Z.of_nat (length (transitions a)) →
  tr_ok (NumStates a) (d, lo, hi) →
  ∃ a', (ws ← put_triple (transitions a) (nextTransition a) d lo hi;
         let a := set_transitions (nextTransition a + 3) ws a in
         n ← aget (states a) (2 * curState a + 1);
         ss ← aset (states a) (2 * curState a + 1) (n + 1);
         mret (set_states (nextState a) ss a)) = Ret a' ∧
    wf a' ∧ curState a' = curState a ∧ NumStates a' = NumStates a ∧ (∀ s, IsAccept a' s = IsAccept a s) ∧
    (∀ s, 0 ≤ s → ptr a' s = ptr a s) ∧
    (∀ s, 0 ≤ s → delta a' s = if decide (s = curState a) then delta a s ++ [(d, lo, hi)] else delta a s) ∧
    nextTransition a' = nextTransition a + 3 ∧ length (transitions a') = length (transitions a).
Proof.
  intros W Hne Hroom Hok. destruct (wf_cur _ W) as [?|[Hc (k & m & Ep & Ec & En)]]; [done|].
  destruct (wf_states _ W) as (n & ENS & Hn). pose proof (NumStates_eq _ _ ENS) as EN.
  rewrite En. destruct (put_triple_spec (transitions a) (k + m) d lo hi) as (ws & -> & Hl & Ht); [lia|].
  rewrite go_bind_ret. cbn [states set_transitions curState].
  unfold cnt in Ec. rewrite (nthZ_aget 0), go_bind_ret, Ec by lia. rewrite aset_Ret, go_bind_ret by lia.
  eexists. split; [done|]. cbn [mret go_ret]. set (a' := set_states _ _ _). fold (cnt a (curState a)) in Ec.
  assert (Hp : ∀ s, 0 ≤ s → ptr a' s = ptr a s).
  { intros s Hs'. unfold ptr. cbn. rewrite nthZ_insert by lia. by rewrite decide_False by lia. }
  assert (Hcn : ∀ s, 0 ≤ s → cnt a' s = if decide (s = curState a) then Z.of_nat (S m) else cnt a s).
  { intros s Hs'. unfold cnt. cbn. rewrite nthZ_insert by lia. repeat case_decide; done || lia. }
  assert (HT : take (k + m) (triples ws) = take (k + m) (triples (transitions a))).
  { by rewrite Ht, take_insert_ge by lia. }
  assert (Hd : ∀ s, 0 ≤ s → delta a' s = if decide (s = curState a) then delta a s ++ [(d, lo, hi)] else delta a s).
  { intros s Hs. case_decide as E.
    - subst s. unfold delta, region. rewrite Hp, Hcn, decide_True, Ep, Ec, ptr_div3, !Nat2Z.id by lia.
      cbn [transitions a' set_states set_transitions].
      rewrite (take_S_r _ _ (d, lo, hi)).
      + f_equal. apply region_eq with (k + m)%nat; [done|lia].
      + rewrite lookup_drop, Ht, list_lookup_insert_eq; [done|].
        rewrite length_triples. apply Nat.div_le_lower_bound; lia.
    - destruct (Z.lt_ge_cases s (NumStates a)).
      + apply delta_same with (nextTransition a) (k + m)%nat;
          [by apply Hp|by rewrite Hcn, decide_False|by apply placed_next|lia|done].
      + rewrite (delta_beyond a) by done. unfold delta. rewrite Hcn, decide_False by done. unfold cnt.
        rewrite (wf_fresh _ W) by lia. done. }
  split_and!; try done; [|cbn; lia..]. destruct W. split; change (NumStates a') with (NumStates a); try done.
  - exists (k + S m)%nat. cbn. lia.
  - exists n. cbn. by rewrite length_insert.
  - intros j Hj. cbn in *. rewrite nthZ_insert by lia. rewrite decide_False by lia. auto.
  - intros s Hs Hs'. cbn in Hs'. pose proof (wf_placed0 s Hs Hs') as HP. unfold placed, base in *.
    cbn [curState a' set_states set_transitions]. rewrite (proj2 (Z.eqb_neq _ _)) in * by done.
    rewrite !Hp, Hcn, decide_False by (done || lia). done.
  - right. cbn [curState a' set_states set_transitions nextTransition]. split; [done|].
    rewrite Hp, Hcn, decide_True by lia. exists k, (S m). split_and!; [done..|lia].
  - intros s Hs. rewrite Hd by lia. case_decide; [|by apply wf_ok0].
    apply Forall_app_2; [by apply wf_ok0|by apply Forall_singleton].
  - intros s Hs Hs'. cbn in Hs'. rewrite Hd by lia. rewrite decide_False by done. by apply wf_finished0.
  - intros HF. apply wf_det0. intros s Hs Hs'. specialize (HF s Hs Hs'). rewrite Hd in HF by lia.
    by rewrite decide_False in HF by done.
Qed.

Record adds (source d lo hi : Z) (a a' : Automaton) : Prop := {
  ad_wf : wf a';
  ad_NumStates : NumStates a' = NumStates a;
  ad_IsAccept : ∀ s, IsAccept a' s = IsAccept a s;
  ad_curState : curState a' = source;
  ad_started : ∀ i, 0 ≤ i → started a' i ↔ started a i ∨ i = source;
  ad_edge : ∀ s c e, 0 ≤ s → edge a' s c e ↔ edge a s c e ∨ s = source ∧ e = d ∧ lo ≤ c ≤ hi;
  ad_delta : ∀ s, 0 ≤ s → s ≠ source → s ≠ curState a → delta a' s = delta a s ∧ ptr a' s = ptr a s;
  ad_room : nextTransition a' ≤ nextTransition a + 3 ∧
    (nextTransition a + 3 ≤ Z.of_nat (length (transitions a)) → length (transitions a') = length (transitions a))
}.

Lemma AddTransition_spec source d lo hi a :
  wf a → 0 ≤ source < NumStates a → 0 ≤ d < NumStates a → 0 ≤ lo ≤ hi →
  curState a = source ∨ ¬ started a source →
  runs (AddTransition source d lo hi a) (adds source d lo hi a).
Proof.
  intros W Hs Hd Hl Hst. unfold AddTransition. fold (NumStates a). rewrite !checkIndex_ok by done. cbn [mbind go_bind].
  change (runs (growTransitions a ≫= ?f) ?Q) with (runs (growTransitions a ≫= f) Q).
  eapply runs_step; [by apply growTransitions_spec|]. intros a1 (W1 & V1 & C1 & P1 & D1 & T1 & L1 & Hroom).
  assert (HS1 : ∀ i, started a1 i ↔ started a i) by (intros i; unfold started; by rewrite P1).
  pose proof (sv_NumStates _ _ V1) as N1.
  assert (Hgo : ∀ a2, wf a2 → same_view a1 a2 → curState a2 = source →
     (∀ i, 0 ≤ i → started a2 i ↔ started a i ∨ i = source) →
     (∀ s, 0 ≤ s → s ≠ source → s ≠ curState a → delta a2 s = delta a s ∧ ptr a2 s = ptr a s) →
     nextTransition a2 + 3 ≤ Z.of_nat (length (transitions a2)) →
     nextTransition a2 ≤ nextTransition a1 ∧ length (transitions a2) = length (transitions a1) →
     runs (ws ← put_triple (transitions a2) (nextTransition a2) d lo hi;
         let a := set_transitions (nextTransition a2 + 3) ws a2 in
         n ← aget (states a) (2 * curState a + 1);
         ss ← aset (states a) (2 * curState a + 1) (n + 1);
         mret (set_states (nextState a) ss a)) (adds source d lo hi a)).
  { intros a2 W2 V2 C2 S2 D2 R2 L2. pose proof (sv_NumStates _ _ V2) as N2.
    destruct (push_transition_spec a2 d lo hi W2) as (a3 & -> & W3 & C3 & N3 & A3 & P3 & D3 & T3 & L3);
      [lia|done|split; cbn; lia|].
    cbn. split; try done; [congruence| |congruence| | | |].
    - intros s. by rewrite A3, (sv_IsAccept _ _ V2), (sv_IsAccept _ _ V1).
    - intros i Hi. unfold started. rewrite P3 by done. by apply S2.
    - intros s c e Hs'. rewrite <- (sv_edge _ _ V1) by done. rewrite <- (sv_edge _ _ V2) by done. unfold edge.
      rewrite D3 by done. rewrite C2. case_decide as E.
      + rewrite leads_app, leads_one. unfold covers. cbn. split; [intros [?|[<- ?]]; auto|intros [?|(_ & -> & ?)]; auto].
      + split; [by left|]. intros [?|[? _]]; done.
    - intros s Hs' Hne Hc. rewrite D3, P3 by done. rewrite decide_False by congruence. by apply D2.
    - rewrite T3, L3. destruct L2 as [? ->]. split; [lia|done]. }
  rewrite C1. destruct (Z.eqb_spec (curState a) source) as [E|E]; cbn [negb].
  - rewrite go_bind_mret. apply Hgo; [done|done|congruence| | |done|done].
    + intros i Hi. rewrite HS1. split; [by left|]. intros [?| ->]; [done|].
      unfold started. destruct (wf_cur _ W) as [?|[_ (k & m & Ep & _)]]; [lia|]. rewrite <- E, Ep. lia.
    + intros s Hs' _ _. by rewrite D1, P1.
  - destruct Hst as [?|Hst]; [done|].
    assert (Hfin : ∃ a2, (if negb (curState a1 =? -1) then finishCurrentState a1 else mret a1) = Ret a2 ∧
      wf (set_curState (-1) a2) ∧ same_view a1 (set_curState (-1) a2) ∧ (∀ i, 0 ≤ i → ptr a2 i = ptr a1 i) ∧
      (∀ s, 0 ≤ s → s ≠ curState a1 → delta a2 s = delta a1 s) ∧
      nextTransition a2 ≤ nextTransition a1 ∧ length (transitions a2) = length (transitions a1)).
    { destruct (Z.eqb_spec (curState a1) (-1)) as [Ec|Ec]; cbn [negb].
      - exists a1. assert (set_curState (-1) a1 = a1) as -> by (destruct a1; cbn in Ec; by subst). done.
      - destruct (finishCurrentState_spec a1 W1 Ec) as (a2 & -> & _ & HF & W2). exists a2.
        split_and!; [done|done| |apply (fi_ptr _ _ HF)|apply (fi_delta _ _ HF)|apply (fi_room _ _ HF)..].
        split; [by apply finishes_NumStates in HF|intros; by apply (finishes_IsAccept _ _ _ HF)|apply (fi_edge _ _ HF)]. }
    rewrite <- C1. destruct Hfin as (a2 & -> & W2 & V2 & P2 & D2 & R2). rewrite go_bind_ret.
    set (a2' := set_curState (-1) a2) in *. pose proof (sv_NumStates _ _ V2) as N2.
    assert (HS2 : ¬ started a2' source).
    { intros Hst2. apply Hst, HS1. unfold started in *. by rewrite <- P2 by lia. }
    destruct (begin_state_spec source a2' W2) as (W3 & V3 & S3 & D3); [done|lia|done|].
    destruct (wf_states _ W2) as (n & EN & Hn). pose proof (NumStates_eq _ _ EN) as EN'. cbn in EN, Hn.
    cbn [states set_curState curState].
    assert (Hp2 : nthZ 0 (states a2) (2 * source) = -1).
    { unfold started in HS2. destruct (decide (ptr a2' source = -1)) as [Ep|]; [exact Ep|tauto]. }
    rewrite (nthZ_aget 0), go_bind_ret, Hp2 by lia. cbn [must mbind go_bind Z.eqb Pos.eqb].
    rewrite aset_Ret by lia. apply (Hgo (begin_state source a2')); [done|by transitivity a2'|done| | |cbn; lia|done].
    + intros i Hi. rewrite S3 by done. apply or_iff_compat_r.
      unfold started. change (ptr a2' i) with (ptr a2 i). rewrite P2 by done. by rewrite P1.
    + intros s Hs' Hne Hc. destruct (D3 s Hs' Hne) as [-> ->].
      change (delta a2 s = delta a s ∧ ptr a2 s = ptr a s).
      rewrite D2, P2, D1, P1 by congruence || done. done.
Qed.

(** * Iterating *)

(** The transition a [Transition] shows. *)
Definition tr_of (t : Transition) : tr := (Dest t, Min t, Max t).

Fixpoint foldM {A St} (f : A → St → AM St) (l : list A) (st : St) : AM St :=
  match l with [] => mret st | x :: l => st ← f x st; foldM f l st end.

Lemma foldM_inv {A St} (I : list A → St → Prop) (f : A → St → AM St) l st :
  I [] st → (∀ k x st, k ++ [x] `prefix_of` l → I k st → runs (f x st) (I (k ++ [x]))) → runs (foldM f l st) (I l).
Proof.
  intros H0 Hstep. change (I l) with (I ([] ++ l)).
  enough (∀ k st, I k st → (∀ k' x st, k' ++ [x] `prefix_of` k ++ l → I k' st → runs (f x st) (I (k' ++ [x]))) →
    runs (foldM f l st) (I (k ++ l))) as H by (by apply H).
  clear st H0 Hstep. induction l as [|x l IH]; intros k st HI Hstep; cbn.
  - by rewrite app_nil_r.
  - eapply runs_step; [apply (Hstep k); [|done]|].
    + apply prefix_app, prefix_cons, prefix_nil.
    + intros st' HI'. rewrite cons_middle, app_assoc. apply IH; [done|].
      intros k' y st'' Hp. apply Hstep. rewrite <- app_assoc in Hp. done.
Qed.

Lemma delta_lookup a s i t :
  wf a → 0 ≤ s < NumStates a → delta a s !! i = Some t →
  ∃ k : nat, ptr a s = 3 * Z.of_nat k ∧ triples (transitions a) !! (k + i)%nat = Some t.
Proof.
  intros W Hs Ht. unfold delta, region in Ht. destruct (placed_next a s W Hs) as [[_ E]|(k & m & Ep & Ec & _)].
  - by rewrite E in Ht.
  - exists k. split; [done|]. rewrite Ep, Ec, ptr_div3, !Nat2Z.id in Ht.
    apply lookup_take_Some in Ht as [Ht _]. by rewrite lookup_drop in Ht.
Qed.

Lemma GetNextTransition_spec a s i t u :
  wf a → 0 ≤ s < NumStates a → delta a s !! i = Some t → transitionUpto u = ptr a s + 3 * Z.of_nat i →
  GetNextTransition a u = Ret {| Source := Source u; Dest := dest_ t; Min := min_ t; Max := max_ t;
                                 transitionUpto := ptr a s + 3 * Z.of_nat (S i) |}.
Proof.
  intros W Hs Ht Eu. destruct (delta_lookup a s i t W Hs Ht) as (k & Ep & Hk).
  apply aget_triple in Hk as (G1 & G2 & G3). unfold GetNextTransition.
  replace (transitionUpto u) with (3 * Z.of_nat (k + i)) by lia.
  rewrite G1, go_bind_ret, G2, go_bind_ret, G3, go_bind_ret. cbn [mret go_ret]. do 2 f_equal. lia.
Qed.

Lemma delta_cnt a s : wf a → 0 ≤ s < NumStates a → Z.of_nat (length (delta a s)) = cnt a s.
Proof.
  intros W Hs. destruct (wf_next _ W) as (M & EM & HM). unfold delta.
  destruct (placed_next a s W Hs) as [[_ E]|(k & m & Ep & Ec & Hm)]; [by rewrite E|].
  rewrite Ep, Ec, ptr_div3, !Nat2Z.id, region_length; lia.
Qed.

Lemma GetNumTransitions_spec a s :
  wf a → 0 ≤ s < NumStates a → GetNumTransitions a s = Ret (Z.of_nat (length (delta a s))).
Proof.
  intros W Hs. pose proof (delta_cnt a s W Hs) as EC. unfold GetNumTransitions.
  destruct (wf_states _ W) as (n & En & Hn). pose proof (NumStates_eq _ _ En) as EN.
  rewrite (nthZ_aget 0), go_bind_ret by lia. fold (cnt a s). rewrite <- EC.
  by rewrite (proj2 (Z.eqb_neq _ _)) by lia.
Qed.

Lemma InitTransition_spec a s t :
  wf a → 0 ≤ s < NumStates a →
  InitTransition a s t = Ret (Z.of_nat (length (delta a s)),
    {| Source := s; Dest := Dest t; Min := Min t; Max := Max t; transitionUpto := ptr a s |}).
Proof.
  intros W Hs. unfold InitTransition. destruct (wf_states _ W) as (n & En & Hn). pose proof (NumStates_eq _ _ En) as EN.
  rewrite (nthZ_aget 0), go_bind_ret by lia. by rewrite GetNumTransitions_spec.
Qed.

(** The loop is a fold over the transitions of the state. *)
Lemma each_transition_fold {St} a s (body : Transition → St → AM St) f st :
  wf a → 0 ≤ s < NumStates a → (∀ t st, body t st = f (tr_of t) st) →
  each_transition a s body st = foldM f (delta a s) st.
Proof.
  intros W Hs Hf. unfold each_transition. rewrite InitTransition_spec, go_bind_ret, Nat2Z.id by done.
  match goal with |- (go_for _ _ ?b _ ≫= ?g) = _ => set (bd := b); set (k := g) end.
  enough (∀ i l u st, drop i (delta a s) = l → transitionUpto u = ptr a s + 3 * Z.of_nat i →
    ∀ lo, (go_for (length l) lo bd (u, st) ≫= k) = foldM f l st) as H.
  { apply (H 0%nat); [done|cbn; lia]. }
  intros i l. revert i. induction l as [|t l IH]; intros i u st' Hl Hu lo; [done|].
  assert (Ht : delta a s !! i = Some t) by (rewrite <- (Nat.add_0_r i), <- lookup_drop, Hl; done).
  cbn [length go_for foldM]. 
  change (bd lo (u, st')) with (t0 ← GetNextTransition a u; st0 ← body t0 st'; mret (t0, st0) : AM (Transition * St)).
  rewrite (GetNextTransition_spec a s i t u) by done. rewrite go_bind_ret, Hf.
  replace (tr_of _) with t by (by destruct t as [[] ]).
  destruct (f t st') as [st2| | |]; try done. cbn [mbind go_bind mret go_ret].
  apply (IH (S i)); [|done]. rewrite <- Nat.add_1_r, <- drop_drop, Hl. done.
Qed.

(** * [AddEpsilon] *)

Record adds_epsilon (source d : Z) (a a' : Automaton) : Prop := {
  ae_wf : wf a';
  ae_NumStates : NumStates a' = NumStates a;
  ae_IsAccept : ∀ s, IsAccept a' s = IsAccept a s || bool_decide (s = source) && IsAccept a d;
  ae_curState : curState a' = curState a ∨ curState a' = source;
  ae_started : ∀ i, 0 ≤ i → started a' i → started a i ∨ i = source ∧ curState a' = source;
  ae_edge : ∀ s c e, 0 ≤ s → edge a' s c e ↔ edge a s c e ∨ s = source ∧ edge a d c e;
  ae_construction : curState a' = (match delta a d with [] => curState a | _ => source end) ∧
    ∀ i, 0 ≤ i → started a' i ↔ started a i ∨ i = source ∧ delta a d ≠ []
}.

Lemma AddEpsilon_spec source d a :
  wf a → 0 ≤ source < NumStates a → 0 ≤ d < NumStates a → d ≠ source → d ≠ curState a →
  curState a = source ∨ ¬ started a source →
  runs (AddEpsilon source d a) (adds_epsilon source d a).
Proof.
  intros W Hs Hd Hne Hdc Hst. unfold AddEpsilon. rewrite InitTransition_spec, go_bind_ret, Nat2Z.id by done.
  pose proof (wf_ok _ W d Hd) as Hok. rewrite Forall_forall in Hok.
  eapply runs_step; [apply (runs_for_inv (fun i '(u, a') =>
    transitionUpto u = ptr a d + 3 * i ∧ wf a' ∧ NumStates a' = NumStates a ∧ (∀ s, IsAccept a' s = IsAccept a s) ∧
    (curState a' = curState a ∨ curState a' = source) ∧ (curState a' = source ∨ ¬ started a' source) ∧
    (∀ j, 0 ≤ j → started a' j → started a j ∨ j = source ∧ curState a' = source) ∧
    delta a' d = delta a d ∧ ptr a' d = ptr a d ∧
    (∀ s c e, 0 ≤ s → edge a' s c e ↔ edge a s c e ∨ s = source ∧ leads (take (Z.to_nat i) (delta a d)) c e) ∧
    curState a' = (match take (Z.to_nat i) (delta a d) with [] => curState a | _ => source end) ∧
    (∀ j, 0 ≤ j → started a' j ↔ started a j ∨ j = source ∧ take (Z.to_nat i) (delta a d) ≠ [])))|].
  - split_and!; try done; [cbn; lia|by left|auto| |].
    + intros s c e _. rewrite take_0, leads_nil. tauto.
    + intros j _. split; [by left|]. intros [?|[_ []]]; done.
  - intros i [u a1] Hi (Hu & W1 & N1 & A1 & C1 & S1 & T1 & D1 & P1 & E1 & _ & X1).
    destruct (lookup_lt_is_Some_2 (delta a d) (Z.to_nat i)) as [t Ht]; [lia|].
    assert (Htok : tr_ok (NumStates a) t) by (apply Hok; by eapply list_elem_of_lookup_2).
    destruct Htok as [Hto1 Hto2].
    rewrite (GetNextTransition_spec a1 d (Z.to_nat i) t) by (rewrite ?N1, ?D1, ?P1; done || lia).
    rewrite go_bind_ret. cbn [Dest Min Max].
    eapply runs_step; [apply AddTransition_spec; rewrite ?N1; done|]. intros a2 HA. cbn [runs mret go_ret].
    pose proof (ad_delta _ _ _ _ _ _ HA d ltac:(lia) Hne) as HD.
    specialize (HD ltac:(destruct C1; congruence)) as [D2 P2].
    split_and!.
    + cbn. lia.
    + by apply HA.
    + by rewrite (ad_NumStates _ _ _ _ _ _ HA).
    + intros s. by rewrite (ad_IsAccept _ _ _ _ _ _ HA).
    + right. apply HA.
    + left. apply HA.
    + intros j Hj. rewrite (ad_started _ _ _ _ _ _ HA) by done. rewrite (ad_curState _ _ _ _ _ _ HA).
      intros [H| ->]; [|by right]. destruct (T1 j Hj H) as [?|[? _]]; auto.
    + congruence.
    + congruence.
    + intros s c e Hs'. rewrite (ad_edge _ _ _ _ _ _ HA), E1 by done.
      rewrite Z2Nat.inj_add, Nat.add_1_r, (take_S_r _ _ _ Ht), leads_app, leads_one by lia. unfold covers.
      split; [intros [[?|[? ?]]|(? & -> & ?)]; auto|intros [?|[? [?|[<- ?]]]]; auto].
    + rewrite (ad_curState _ _ _ _ _ _ HA), Z2Nat.inj_add, Nat.add_1_r, (take_S_r _ _ _ Ht) by lia. by destruct (take _ _).
    + intros j Hj. rewrite (ad_started _ _ _ _ _ _ HA), X1, Z2Nat.inj_add, Nat.add_1_r, (take_S_r _ _ _ Ht) by lia.
      split; [|tauto]. intros [[?|[-> _]]| ->]; [by left|right..]; (split; [done|]); by destruct (take _ _).
  - intros [u a1] (Hu & W1 & N1 & A1 & C1 & S1 & T1 & D1 & P1 & E1 & X0 & X1).
    rewrite Z.add_0_l, Nat2Z.id, take_ge in E1, X0, X1 by lia. rewrite A1.
    destruct (IsAccept a d) eqn:Hacc.
    + destruct (SetAccept_spec source true a1 W1) as (a2 & -> & W2 & B2 & A2); [lia|]. cbn.
      destruct (same_but_accept_view _ _ B2) as (N2 & D2 & P2). split; try done.
      * congruence.
      * intros s. rewrite A2, A1, Hacc, andb_true_r. case_decide; case_bool_decide; try done; [by rewrite orb_true_r|by rewrite orb_false_r].
      * by rewrite (sb_curState _ _ B2).
      * intros j Hj. rewrite (sb_curState _ _ B2). unfold started. rewrite P2. by apply T1.
      * intros s c e Hs'. unfold edge. rewrite D2. by apply E1.
      * rewrite (sb_curState _ _ B2). split; [exact X0|]. intros j Hj. unfold started at 1. rewrite P2. by apply X1.
    + cbn. split; try done. intros s. by rewrite A1, Hacc, andb_false_r, orb_false_r.
Qed.

(** * [Copy] *)

(** A loop that changes every [st]-th element. *)
Lemma stride_loop (body : Z → list Z → AM (list Z)) (g : Z → Z) b st n ws :
  0 ≤ b → 0 < st → b + st * Z.of_nat n ≤ Z.of_nat (length ws) →
  (∀ k ws', 0 ≤ k < Z.of_nat n → length ws' = length ws →
     body k ws' = Ret (<[Z.to_nat (b + st * k) := g (nthZ 0 ws' (b + st * k))]> ws')) →
  ∃ ws', go_for n 0 body ws = Ret ws' ∧ length ws' = length ws ∧
    (∀ k, 0 ≤ k < Z.of_nat n → nthZ 0 ws' (b + st * k) = g (nthZ 0 ws (b + st * k))) ∧
    (∀ j, 0 ≤ j → (∀ k, 0 ≤ k < Z.of_nat n → j ≠ b + st * k) → nthZ 0 ws' j = nthZ 0 ws j).
Proof.
  intros Hb Hst Hl Hbody.
  destruct (go_for_inv (E:=autoerr) (fun i ws' => length ws' = length ws ∧
    (∀ k, 0 ≤ k < i → nthZ 0 ws' (b + st * k) = g (nthZ 0 ws (b + st * k))) ∧
    (∀ j, 0 ≤ j → (∀ k, 0 ≤ k < i → j ≠ b + st * k) → nthZ 0 ws' j = nthZ 0 ws j))
    n 0 body ws) as (ws' & E & H).
  - split_and!; [done|lia|done].
  - intros i ws1 Hi (L1 & H1 & H2). rewrite Hbody by (lia || done). eexists. split; [done|].
    assert (Hin : 0 ≤ b + st * i < Z.of_nat (length ws1)) by nia.
    split_and!; [by rewrite length_insert| |].
    + intros k Hk. rewrite nthZ_insert by nia. case_decide as Ek.
      * rewrite Ek. rewrite <- Ek, H2; [done|nia|]. intros k' Hk'. nia.
      * apply H1. nia.
    + intros j Hj Hne. rewrite nthZ_insert by nia. case_decide as Ej.
      * exfalso. apply (Hne i); lia.
      * apply H2; [done|]. intros k Hk. apply Hne. lia.
  - rewrite Z.add_0_l in H. by exists ws'.
Qed.

Lemma copy_at_nth l a src :
  0 ≤ a → a + Z.of_nat (length src) ≤ Z.of_nat (length l) →
  ∃ l', @copy_at autoerr Z l a src = Ret l' ∧ length l' = length l ∧
    ∀ j, 0 ≤ j → nthZ 0 l' j = if decide (a ≤ j < a + Z.of_nat (length src)) then nthZ 0 src (j - a) else nthZ 0 l j.
Proof.
  intros Ha Hl.
  assert (E : l = take (Z.to_nat a) l ++ take (length src) (drop (Z.to_nat a) l) ++ drop (Z.to_nat a + length src) l).
  { rewrite <- drop_drop, take_drop, take_drop. done. }
  set (l1 := take (Z.to_nat a) l) in E. set (l2 := take (length src) _) in E. set (l3 := drop _ l) in E.
  assert (H1 : Z.of_nat (length l1) = a) by (unfold l1; rewrite length_take; lia).
  assert (H2 : length l2 = length src) by (unfold l2; rewrite length_take, length_drop; lia).
  clearbody l1 l2 l3. subst l. exists (l1 ++ src ++ l3). split; [by apply copy_at_mid|].
  split; [rewrite !length_app; lia|]. intros j Hj. unfold nthZ. case_decide.
  - rewrite lookup_app_r by lia. rewrite lookup_app_l by lia. do 2 f_equal. lia.
  - destruct (Z.lt_ge_cases j a).
    + by rewrite !lookup_app_l by lia.
    + rewrite !lookup_app_r by lia. do 2 f_equal. lia.
Qed.

Lemma triple_nth ws k :
  (3 * k + 3 ≤ length ws)%nat →
  triples ws !! k = Some (nthZ 0 ws (3 * Z.of_nat k), nthZ 0 ws (3 * Z.of_nat k + 1), nthZ 0 ws (3 * Z.of_nat k + 2)).
Proof.
  intros Hk. destruct (lookup_lt_is_Some_2 (triples ws) k) as [[[d lo] hi] Ht].
  { rewrite length_triples. apply Nat.div_le_lower_bound; lia. }
  rewrite Ht. apply triples_lookup in Ht as (H1 & H2 & H3). unfold nthZ.
  replace (Z.to_nat (3 * Z.of_nat k)) with (3 * k)%nat by lia.
  replace (Z.to_nat (3 * Z.of_nat k + 1)) with (3 * k + 1)%nat by lia.
  replace (Z.to_nat (3 * Z.of_nat k + 2)) with (3 * k + 2)%nat by lia.
  by rewrite H1, H2, H3.
Qed.

Definition shift (n : Z) (t : tr) : tr := (dest_ t + n, min_ t, max_ t).

Lemma leads_shift n l c d : leads (map (shift n) l) c d ↔ leads l c (d - n).
Proof.
  unfold leads, covers. split.
  - intros (t & (u & -> & Hu)%list_elem_of_fmap & <- & Hc). exists u. split; [done|]. cbn in *. split; [lia|done].
  - intros (u & Hu & Ed & Hc). exists (shift n u). split; [by apply list_elem_of_fmap_2|]. cbn. split; [lia|done].
Qed.

Lemma finished_shift n det l : finished det l → finished det (map (shift n) l).
Proof.
  intros [H1 H2]. split.
  - clear H2. induction H1 as [|t l _ IH HF]; cbn; constructor; [done|].
    apply Forall_fmap. eapply Forall_impl; [done|]. intros u Hu%minMaxDest_order. apply minMaxDest_order. cbn. lia.
  - intros Hd. specialize (H2 Hd). clear H1. induction H2 as [|t l _ IH HF]; cbn; constructor; [done|].
    by apply Forall_fmap.
Qed.

Lemma finished_weaken det det' l : (det' = true → det = true) → finished det l → finished det' l.
Proof. intros H [H1 H2]. split; auto. Qed.

(** The array of states after the first two steps of [Copy]. *)
Lemma Copy_states a other :
  wf a → wf other →
  runs (copyStates other a)
    (fun ss => nextState a + nextState other ≤ Z.of_nat (length ss) ∧
      (∀ j, 0 ≤ j < nextState a → nthZ 0 ss j = nthZ 0 (states a) j) ∧
      (∀ j, nextState a + nextState other ≤ j → nthZ 0 ss j = 0) ∧
      (∀ s, 0 ≤ s < NumStates other →
         nthZ 0 ss (nextState a + 2 * s) = (if ptr other s =? -1 then -1 else ptr other s + nextTransition a) ∧
         nthZ 0 ss (nextState a + 2 * s + 1) = cnt other s)).
Proof.
  intros W WO. destruct (wf_states _ W) as (n & En & Hn), (wf_states _ WO) as (n' & En' & Hn').
  pose proof (NumStates_eq _ _ En') as EN'. unfold copyStates.
  eapply runs_step; [apply growInts_spec; lia|]. intros ss (m & -> & Hm).
  assert (Hsl : @slice autoerr _ (states other) 0 (nextState other) = Ret (take (Z.to_nat (nextState other)) (states other))).
  { unfold slice. rewrite !(proj2 (Z.leb_le _ _)) by lia. cbn [andb]. by rewrite Z.sub_0_r, drop_0. }
  rewrite Hsl, go_bind_ret. set (from := take _ _).
  assert (Hlf : Z.of_nat (length from) = nextState other) by (unfold from; rewrite length_take; lia).
  destruct (copy_at_nth (states a ++ repeat 0 m) (nextState a) from) as (s1 & -> & L1 & N1); [lia|lia|].
  rewrite go_bind_ret.
  destruct (stride_loop (fun k ss => let i := 2 * k in
          p ← aget ss (nextState a + i);
          if negb (p =? -1) then aset ss (nextState a + i) (p + nextTransition a) else mret ss)
    (fun p => if p =? -1 then -1 else p + nextTransition a) (nextState a) 2 (Z.to_nat (nextState other / 2)) s1)
    as (s2 & E & L2 & H1 & H2); [lia|lia|idx| |].
  { intros k ws' Hk Hl. cbn zeta. rewrite (nthZ_aget 0), go_bind_ret by idx.
    destruct (Z.eqb_spec (nthZ 0 ws' (nextState a + 2 * k)) (-1)) as [Ep|Ep]; cbn [negb].
    - rewrite <- Ep. unfold mret, go_ret. f_equal. symmetry. apply list_insert_id. apply nthZ_lookup. idx.
    - apply aset_Ret. idx. }
  apply (runs_eq _ s2); [done|].
  assert (Hfrom : ∀ i, 0 ≤ i < nextState other → nthZ 0 from i = nthZ 0 (states other) i).
  { intros i Hi. unfold from, nthZ. by rewrite lookup_take_lt by lia. }
  split_and!.
  - lia.
  - intros j Hj. rewrite H2 by (lia || (intros; lia)). rewrite N1 by lia. rewrite decide_False by lia. apply nthZ_pad.
  - intros j Hj. rewrite H2 by (lia || (intros; idx)). rewrite N1 by lia. rewrite decide_False by lia.
    rewrite nthZ_pad. apply (wf_fresh _ W). lia.
  - intros s Hs. rewrite H1 by idx. rewrite H2 by (lia || (intros; lia)). rewrite !N1 by lia.
    rewrite !decide_True by lia. rewrite !Hfrom by lia. unfold ptr, cnt. split; f_equal; [|f_equal; lia].
    + by replace (nextState a + 2 * s - nextState a) with (2 * s) by lia.
Qed.

(** The array of transitions at the end of [Copy]. *)
Lemma Copy_transitions off other a M M' :
  nextTransition a = 3 * Z.of_nat M → nextTransition other = 3 * Z.of_nat M' →
  (3 * M ≤ length (transitions a))%nat → (3 * M' ≤ length (transitions other))%nat →
  runs (copyTransitions off other a)
    (fun ws' => (3 * (M + M') ≤ length ws')%nat ∧ take M (triples ws') = take M (triples (transitions a)) ∧
      ∀ k, (k < M')%nat → triples ws' !! (M + k)%nat = shift off <$> triples (transitions other) !! k).
Proof.
  intros EM EM' Hl Hl'. unfold copyTransitions. rewrite EM, EM'. revert Hl Hl'.
  generalize (transitions a) as ws, (transitions other) as wo. intros ws wo Hl Hl'. eapply runs_step; [apply growInts_spec; lia|]. intros w1 (m & -> & Hm).
  assert (Hsl : @slice autoerr _ wo 0 (3 * Z.of_nat M') = Ret (take (3 * M') wo)).
  { unfold slice. rewrite !(proj2 (Z.leb_le _ _)) by lia. cbn [andb]. rewrite Z.sub_0_r, drop_0.
    do 2 f_equal. lia. }
  rewrite Hsl, go_bind_ret. set (from := take _ wo).
  assert (Hlf : length from = (3 * M')%nat) by (unfold from; rewrite length_take; lia).
  destruct (copy_at_nth (ws ++ repeat 0 m) (3 * Z.of_nat M) from) as (w2 & -> & L2 & N2); [lia|lia|].
  rewrite go_bind_ret.
  destruct (stride_loop (fun k ws => let i := 3 * k in
          d ← aget ws (3 * Z.of_nat M + i);
          aset ws (3 * Z.of_nat M + i) (d + off)) (fun d => d + off) (3 * Z.of_nat M) 3
          (Z.to_nat (3 * Z.of_nat M' / 3)) w2) as (w3 & E & L3 & H1 & H2); [lia|lia|idx| |].
  { intros k ws' Hk Hlen. cbn zeta. rewrite (nthZ_aget 0), go_bind_ret by idx. apply aset_Ret. idx. }
  apply (runs_eq _ w3); [done|].
  assert (Hbefore : ∀ j, 0 ≤ j < 3 * Z.of_nat M → nthZ 0 w3 j = nthZ 0 ws j).
  { intros j Hj. rewrite H2 by (lia || (intros; lia)). rewrite N2, decide_False by lia. apply nthZ_pad. }
  split_and!; [lia| |].
  - apply list_eq. intros k. destruct (decide (k < M)%nat).
    + rewrite !lookup_take_lt, !triple_nth by lia. by rewrite !Hbefore by lia.
    + by rewrite !lookup_take_ge by lia.
  - intros k Hk. rewrite !triple_nth by lia. cbn. unfold shift. cbn [dest_ min_ max_ fst snd].
    assert (Hold : ∀ j, 0 ≤ j < 3 * Z.of_nat M' → nthZ 0 w2 (3 * Z.of_nat M + j) = nthZ 0 wo j).
    { intros j Hj. rewrite N2, decide_True by lia. rewrite Z.add_simpl_l.
      unfold from, nthZ. by rewrite lookup_take_lt by lia. }
    replace (3 * Z.of_nat (M + k)) with (3 * Z.of_nat M + 3 * Z.of_nat k) by lia.
    rewrite H1 by idx. rewrite <- !Z.add_assoc. rewrite !H2 by (lia || (intros; lia)).
    rewrite !Hold by lia. done.
Qed.

(** Marking the accept states of the copy. *)
Lemma Copy_accept other off n a :
  (∀ s, IsAccept other s = true → s < Z.of_nat n) →
  Forall is_word (isAccept a) → 0 ≤ off → off + Z.of_nat n ≤ NumStates a →
  (∀ s, IsAccept a s = true → s < off) →
  runs (go_for n 0 (fun state a => if IsAccept other state then SetAccept (off + state) true a else mret a) a)
    (fun a' => same_but_accept a a' ∧ Forall is_word (isAccept a') ∧
      ∀ s, IsAccept a' s = if s <? off then IsAccept a s else IsAccept other (s - off)).
Proof.
  intros HO HW Hoff Hn HA.
  eapply runs_mono; [apply (runs_for_inv (fun i a' => same_but_accept a a' ∧ Forall is_word (isAccept a') ∧
    ∀ s, IsAccept a' s = if s <? off then IsAccept a s else (s - off <? i) && IsAccept other (s - off)))|].
  - split_and!; [done|done|]. intros s. destruct (Z.ltb_spec s off) as [|Hs]; [done|].
    destruct (IsAccept a s) eqn:E; [apply HA in E; lia|]. by rewrite (proj2 (Z.ltb_ge _ _)) by lia.
  - intros i a1 Hi (SB & W1 & A1). destruct (same_but_accept_view _ _ SB) as (N1 & _ & _).
    assert (Hstep : ∀ s b, s <? off = false →
      (s - off <? i + 1) && b = if decide (s = off + i) then b else (s - off <? i) && b).
    { intros s b Hs%Z.ltb_ge. case_decide; subst.
      - by rewrite (proj2 (Z.ltb_lt _ _)) by lia.
      - destruct (Z.ltb_spec (s - off) (i + 1)), (Z.ltb_spec (s - off) i); done || lia. }
    destruct (IsAccept other i) eqn:Ei.
    + unfold SetAccept. rewrite checkIndex_ok by lia. cbn [mbind go_bind].
      destruct (setAcceptBit_spec (off + i) true a1 W1) as (a2 & -> & SB2 & W2 & A2); [lia|]. cbn.
      split_and!; [|done|].
      * destruct SB, SB2. split; congruence.
      * intros s. rewrite A2, A1. destruct (s <? off) eqn:Hs.
        { apply Z.ltb_lt in Hs. by rewrite decide_False by lia. }
        rewrite Hstep by done. case_decide as E; [|done]. subst s. rewrite Z.add_simpl_l. done.
    + cbn. split_and!; [done|done|]. intros s. rewrite A1. destruct (s <? off) eqn:Hs; [done|].
      rewrite Hstep by done. case_decide as E; [|done]. subst s. by rewrite Z.add_simpl_l, Ei, andb_false_r.
  - intros a' (SB & W' & A'). split_and!; [done|done|]. intros s. rewrite A'. destruct (s <? off) eqn:Hs; [done|].
    destruct (IsAccept other (s - off)) eqn:E; [|by rewrite andb_false_r]. apply HO in E.
    by rewrite (proj2 (Z.ltb_lt _ _)) by lia.
Qed.

Record copies (a other a' : Automaton) : Prop := {
  co_wf : wf a';
  co_curState : curState a' = -1;
  co_NumStates : NumStates a' = NumStates a + NumStates other;
  co_IsAccept : ∀ s, IsAccept a' s = if s <? NumStates a then IsAccept a s else IsAccept other (s - NumStates a);
  co_before : ∀ s, 0 ≤ s < NumStates a → delta a' s = delta a s ∧ (started a' s ↔ started a s);
  co_after : ∀ s, 0 ≤ s < NumStates other →
    delta a' (NumStates a + s) = map (shift (NumStates a)) (delta other s) ∧
    (started a' (NumStates a + s) ↔ started other s)
}.

Lemma Copy_spec a other :
  wf a → wf other → curState a = -1 → curState other = -1 → runs (Copy other a) (copies a other).
Proof.
  intros W WO Hc Hc'. destruct (wf_states _ W) as (n & En & Hn), (wf_states _ WO) as (n' & En' & Hn').
  pose proof (NumStates_eq _ _ En) as EN. pose proof (NumStates_eq _ _ En') as EN'.
  destruct (wf_next _ W) as (M & EM & HM), (wf_next _ WO) as (M' & EM' & HM').
  unfold Copy. eapply runs_step; [by apply Copy_states|]. intros ss (HSl & HS1 & HS2 & HS3).
  set (a1 := set_states _ ss a). 
  assert (N1 : NumStates a1 = NumStates a + NumStates other).
  { rewrite (NumStates_eq a1 (n + n')%nat); cbn; lia. }
  eapply runs_step; [apply (Copy_accept other (NumStates a) (Z.to_nat (NumStates other)) a1)|].
  { intros s H%(wf_accept _ WO). lia. }
  { apply (wf_words _ W). } { lia. } { lia. } { intros s H. by apply (wf_accept _ W). }
  intros a2 ([B1 B2 B3 B4 B5 B6] & W2 & A2). cbn [nextTransition transitions set_states a1] in B2, B5.
  eapply runs_step; [apply (Copy_transitions _ other a2 M M'); rewrite ?B2, ?B5; done|].
  rewrite B5. intros ws (HTl & HT1 & HT2).
  cbn [nextState set_states a1] in B1. cbn [curState set_states a1] in B3. cbn in B4, B6.
  set (a3 := if negb (deterministic other) then _ else _).
  assert (Hdet : deterministic a3 = deterministic a && deterministic other).
  { unfold a3. destruct (deterministic other); cbn; rewrite ?B6; by rewrite ?andb_true_r, ?andb_false_r. }
  assert (HF : nextState a3 = nextState a + nextState other ∧ nextTransition a3 = nextTransition a + nextTransition other ∧
    curState a3 = -1 ∧ states a3 = ss ∧ isAccept a3 = isAccept a2 ∧ transitions a3 = ws).
  { unfold a3. destruct (deterministic other); cbn; rewrite ?B1, ?B2, ?B3, ?B4, ?Hc; done. }
  clearbody a3. destruct HF as (F1 & F2 & F3 & F4 & F5 & F6). cbn [runs mret go_ret].
  assert (N3 : NumStates a3 = NumStates a + NumStates other).
  { rewrite (NumStates_eq a3 (n + n')%nat); lia. }
  assert (A3 : ∀ s, IsAccept a3 s = if s <? NumStates a then IsAccept a s else IsAccept other (s - NumStates a)).
  { intros s. unfold IsAccept at 1. rewrite F5. apply A2. }
  assert (HP1 : ∀ s, 0 ≤ s < NumStates a → ptr a3 s = ptr a s ∧ cnt a3 s = cnt a s).
  { intros s Hs. unfold ptr, cnt. rewrite F4. by rewrite !HS1 by lia. }
  assert (HP2 : ∀ s, 0 ≤ s < NumStates other →
    ptr a3 (NumStates a + s) = (if ptr other s =? -1 then -1 else ptr other s + nextTransition a) ∧
    cnt a3 (NumStates a + s) = cnt other s).
  { intros s Hs. unfold ptr at 1, cnt at 1. rewrite F4. destruct (HS3 s Hs) as [<- <-]. split; f_equal; lia. }
  assert (HD1 : ∀ s, 0 ≤ s < NumStates a → delta a3 s = delta a s).
  { intros s Hs. apply delta_same with (nextTransition a) M; [by apply HP1..|by apply placed_next|lia|by rewrite F6]. }
  assert (HD2 : ∀ s, 0 ≤ s < NumStates other → delta a3 (NumStates a + s) = map (shift (NumStates a)) (delta other s)).
  { intros s Hs. unfold delta. destruct (HP2 s Hs) as [-> ->].
    destruct (placed_next other s WO Hs) as [[_ ->]|(k & m & Ep & -> & Hm)]; [done|].
    rewrite Ep, (proj2 (Z.eqb_neq _ _)) by lia. rewrite EM, F6.
    replace (3 * Z.of_nat k + 3 * Z.of_nat M) with (3 * Z.of_nat (M + k)) by lia.
    rewrite !ptr_div3, !Nat2Z.id. unfold region. apply list_eq. intros j.
    rewrite list_lookup_fmap. destruct (decide (j < m)%nat); [|by rewrite !lookup_take_ge by lia].
    rewrite !lookup_take_lt, !lookup_drop by lia. rewrite <- HT2 by lia. f_equal. lia. }
  assert (HB : base a3 = nextTransition a + nextTransition other) by (unfold base; by rewrite F3, F2).
  assert (Hsplit : ∀ s, 0 ≤ s < NumStates a3 → 0 ≤ s < NumStates a ∨ ∃ s', s = NumStates a + s' ∧ 0 ≤ s' < NumStates other).
  { intros s Hs. destruct (Z.lt_ge_cases s (NumStates a)); [by left; lia|]. right. exists (s - NumStates a). lia. }
  split; try done.
  - split.
    + exists (M + M')%nat. rewrite F2, F6. lia.
    + exists (n + n')%nat. rewrite F1, F4. lia.
    + intros j Hj. rewrite F4. apply HS2. lia.
    + intros s Hs _. rewrite HB. destruct (Hsplit s Hs) as [Hs'|(s' & -> & Hs')]; unfold placed.
      * destruct (HP1 s Hs') as [-> ->]. destruct (placed_next a s W Hs') as [?|(p & q & ? & ? & ?)]; [by left|].
        right. exists p, q. split_and!; [done..|lia].
      * destruct (HP2 s' Hs') as [-> ->]. destruct (placed_next other s' WO Hs') as [[-> ->]|(p & q & -> & ? & ?)]; [by left|].
        right. exists (M + p)%nat, q. rewrite (proj2 (Z.eqb_neq _ _)) by lia. split_and!; [lia|done|lia].
    + by left.
    + intros s Hs. rewrite N3. destruct (Hsplit s Hs) as [Hs'|(s' & -> & Hs')].
      * rewrite HD1 by done. eapply Forall_impl; [by apply (wf_ok _ W)|]. intros t [? ?]. split; lia.
      * rewrite HD2 by done. apply Forall_fmap. eapply Forall_impl; [by apply (wf_ok _ WO)|].
        intros t [? ?]. split; cbn; [lia|done].
    + intros s Hs _. rewrite Hdet. destruct (Hsplit s Hs) as [Hs'|(s' & -> & Hs')].
      * rewrite HD1 by done. eapply finished_weaken; [|by apply (wf_finished _ W); [|lia]].
        by intros [? _]%andb_true_iff.
      * rewrite HD2 by done. apply finished_shift. eapply finished_weaken; [|by apply (wf_finished _ WO); [|lia]].
        by intros [_ ?]%andb_true_iff.
    + by rewrite F5.
    + intros s. rewrite A3, N3. destruct (Z.ltb_spec s (NumStates a)); [lia|]. intros H'%(wf_accept _ WO). lia.
    + intros HFun. rewrite Hdet. apply andb_true_iff. split.
      * apply (wf_det _ W). intros s Hs _. rewrite <- HD1 by done. apply HFun; lia.
      * apply (wf_det _ WO). intros s Hs _ c d d' H1 H2.
        specialize (HFun (NumStates a + s) ltac:(lia) ltac:(lia) c (d + NumStates a) (d' + NumStates a)).
        rewrite HD2 in HFun by done. rewrite !leads_shift, !Z.add_simpl_r in HFun. specialize (HFun H1 H2). lia.
  - intros s Hs. split; [by apply HD1|]. unfold started. by destruct (HP1 s Hs) as [-> _].
  - intros s Hs. split; [by apply HD2|]. unfold started. destruct (HP2 s Hs) as [-> _].
    destruct (Z.eqb_spec (ptr other s) (-1)) as [->|]; [done|].
    destruct (placed_next other s WO Hs) as [[? _]|(p & q & ? & _)]; [done|]. split; [done|lia].
Qed.

(** * The language of an automaton *)

Definition final (a : Automaton) (s : Z) : Prop := IsAccept a s = true.

Definition language (a : Automaton) (w : list Z) : Prop := accepts (edge a) (final a) w.

Lemma edge_dest a s c d : wf a → 0 ≤ s → edge a s c d → s < NumStates a ∧ 0 ≤ d < NumStates a ∧ 0 ≤ c.
Proof.
  intros W Hs (t & Ht & <- & Hc). destruct (Z.lt_ge_cases s (NumStates a)).
  - pose proof (wf_ok _ W s ltac:(lia)) as Hok. rewrite Forall_forall in Hok. destruct (Hok t Ht).
    unfold covers in Hc. lia.
  - rewrite delta_beyond in Ht by done. by apply elem_of_nil in Ht.
Qed.

Lemma same_view_language a a' w : wf a → same_view a a' → language a' w ↔ language a w.
Proof.
  intros W [_ H2 H3]. apply (accepts_ext (fun s => 0 ≤ s)); [intros; by apply H3| | |done].
  - intros s c d Hs He. apply H3 in He; [|done]. apply edge_dest in He as (_ & ? & _); [lia|done..].
  - intros s _. unfold final. by rewrite H2.
Qed.

(** A finished automaton. *)
Record good (a : Automaton) : Prop := { good_wf : wf a; good_cur : curState a = -1 }.

(** ** Running *)

Section Running.
Context (a : Automaton) (G : good a) (HD : deterministic a = true).

Lemma det_before s i j t u :
  0 ≤ s < NumStates a → (i < j)%nat → delta a s !! i = Some t → delta a s !! j = Some u → max_ t < min_ u.
Proof.
  intros Hs Hij Ht Hu. destruct G as [W Hc].
  assert (HS : StronglySorted before (delta a s)) by (apply (wf_finished _ W); [done|lia|done]).
  revert i j Hij Ht Hu. induction HS as [|x l _ IH HF]; intros [|i] [|j] Hij Ht Hu; try done; try lia.
  - cbn in Ht, Hu. injection Ht as ->. rewrite Forall_forall in HF. by eapply HF, list_elem_of_lookup_2.
  - apply (IH i j); [lia|done..].
Qed.

(** Below the index all labels are less than [label]. *)
Definition below (s i label : Z) : Prop :=
  ∀ (j : nat) t, Z.of_nat j < i → delta a s !! j = Some t → max_ t < label.

(** From the index on all labels are larger. *)
Definition above (s i label : Z) : Prop :=
  ∀ (j : nat) t, i ≤ Z.of_nat j → delta a s !! j = Some t → label < min_ t.

Definition next_found (s low label : Z) (r : option (Z * tr) * Z) : Prop :=
  match r.1 with
  | Some (mid, t) => low ≤ mid ∧ delta a s !! Z.to_nat mid = Some t ∧ covers t label ∧ below s mid label
  | None => low ≤ r.2 ∧ below s r.2 label ∧ above s r.2 label
  end.

Lemma next_search_spec s label fuel : ∀ low high,
  0 ≤ s < NumStates a → 0 ≤ low → high < Z.of_nat (length (delta a s)) → high - low < Z.of_nat fuel →
  low ≤ high + 1 → below s low label → above s (high + 1) label →
  ∃ r, next_search fuel a (ptr a s) label low high = Ret r ∧ next_found s low label r.
Proof.
  destruct G as [W Hc].
  induction fuel as [|fuel IH]; intros low high Hs H0 Hh Hf Hle HB HA; cbn [next_search].
  - rewrite (proj2 (Z.leb_gt _ _)) by lia. eexists. split; [done|]. cbn.
    replace low with (high + 1) in * by lia. split; [lia|done].
  - destruct (Z.leb_spec low high) as [Hlh|Hlh].
    2: { eexists. split; [done|]. cbn. replace low with (high + 1) in * by lia. split; [lia|done]. }
    rewrite Z.shiftr_div_pow2 by lia. change (2 ^ 1) with 2. set (mid := (low + high) / 2).
    assert (Hmid : low ≤ mid ≤ high) by (unfold mid; idx). clearbody mid.
    destruct (lookup_lt_is_Some_2 (delta a s) (Z.to_nat mid)) as [t Ht]; [lia|].
    destruct (delta_lookup a s _ t W Hs Ht) as (k & Ep & Hk). apply aget_triple in Hk as (G1 & G2 & G3).
    replace (3 * Z.of_nat (k + Z.to_nat mid)) with (ptr a s + 3 * mid) in * by lia.
    rewrite G2, go_bind_ret.
    assert (Hsub : ∀ l h, (∃ r, next_search fuel a (ptr a s) label l h = Ret r ∧ next_found s l label r) → low ≤ l →
      ∃ r, next_search fuel a (ptr a s) label l h = Ret r ∧ next_found s low label r).
    { intros l h ([[[m u]|] x] & E & HN) Hl; eexists; (split; [exact E|]); unfold next_found in *; cbn in *.
      - destruct HN as (? & ? & ?). split; [lia|done].
      - destruct HN as (? & ? & ?). split; [lia|done]. }
    destruct (Z.ltb_spec label (min_ t)) as [Hl|Hl].
    + apply Hsub; [|lia]. apply IH; try done; try lia. intros j u Hj Hu.
      destruct (Z.lt_trichotomy (Z.of_nat j) mid) as [?|[Ej|Hjm]]; [lia| |].
      * subst mid. rewrite Nat2Z.id in Ht. congruence.
      * pose proof (det_before s (Z.to_nat mid) j t u Hs ltac:(lia) Ht Hu).
        pose proof (wf_ok _ W s Hs) as Hok. rewrite Forall_forall in Hok.
        destruct (Hok t) as [_ ?]; [by eapply list_elem_of_lookup_2|]. lia.
    + rewrite G3, go_bind_ret. destruct (Z.ltb_spec (max_ t) label) as [Hm|Hm].
      * apply Hsub; [|lia]. apply IH; try done; try lia. intros j u Hj Hu.
        destruct (decide (Z.of_nat j = mid)) as [Ej|Ej].
        { subst mid. rewrite Nat2Z.id in Ht. congruence. }
        pose proof (det_before s j (Z.to_nat mid) u t Hs ltac:(lia) Hu Ht).
        pose proof (wf_ok _ W s Hs) as Hok. rewrite Forall_forall in Hok.
        destruct (Hok t) as [_ ?]; [by eapply list_elem_of_lookup_2|]. lia.
      * rewrite G1, go_bind_ret. eexists. split; [done|]. cbn.
        replace (dest_ t, min_ t, max_ t) with t by (by destruct t as [[] ]).
        split_and!; [lia|done|unfold covers; lia|]. intros j u Hj Hu.
        pose proof (det_before s j (Z.to_nat mid) u t Hs ltac:(lia) Hu Ht). lia.
Qed.

Lemma next_transition_spec s from label :
  0 ≤ s < NumStates a → from ≤ Z.of_nat (length (delta a s)) → below s from label →
  ∃ r, next_ a s from label = Ret r ∧ next_found s (Z.max 0 from) label r.
Proof.
  intros Hs Hf HB. destruct G as [W Hc]. unfold next_.
  destruct (wf_states _ W) as (n & En & Hn). pose proof (NumStates_eq _ _ En) as EN.
  rewrite !(nthZ_aget 0), go_bind_ret, go_bind_ret by lia. fold (ptr a s) (cnt a s).
  pose proof (delta_cnt a s W Hs) as EC.
  replace (if from <? 0 then 0 else from) with (Z.max 0 from) by (destruct (Z.ltb_spec from 0); lia).
  apply next_search_spec; try done; try lia.
  - intros j t Hj. apply HB. lia.
  - intros j t Hj Ht. apply lookup_lt_Some in Ht. lia.
Qed.

Lemma not_leads s i label : below s i label → above s i label → ∀ d, ¬ edge a s label d.
Proof.
  intros HB HA d (t & Ht & _ & Hc). apply list_elem_of_lookup_1 in Ht as (j & Hj). unfold covers in Hc.
  destruct (Z.lt_ge_cases (Z.of_nat j) i) as [Hi|Hi]; [specialize (HB j t Hi Hj)|specialize (HA j t Hi Hj)]; lia.
Qed.

Lemma Step_spec s label :
  0 ≤ s < NumStates a →
  ∃ d, Step a s label = Ret d ∧ ((0 ≤ d ∧ edge a s label d) ∨ (d = -1 ∧ ∀ d, ¬ edge a s label d)).
Proof.
  intros Hs. destruct (next_transition_spec s 0 label Hs) as (r & E & HN); [lia| |].
  { intros j t Hj. lia. }
  unfold Step. rewrite E, go_bind_ret. destruct r as [[[mid t]|] low]; eexists; (split; [done|]).
  - left. destruct HN as (_ & Ht & Hc & _). apply list_elem_of_lookup_2 in Ht.
    assert (He : edge a s label (dest_ t)) by (by exists t).
    split; [|done]. apply edge_dest in He as (_ & ? & _); [lia|apply G|lia].
  - right. destruct HN as (_ & HB & HA). split; [done|]. by apply not_leads with low.
Qed.

Lemma edge_functional s c d d' : 0 ≤ s → edge a s c d → edge a s c d' → d = d'.
Proof.
  intros Hs He He'. destruct G as [W Hc]. pose proof (edge_dest a s c d W Hs He) as (? & _).
  by apply (proj1 (deterministic_iff a W Hc) HD s ltac:(lia) c).
Qed.

Lemma run_from_spec w : ∀ s, 0 ≤ s < NumStates a →
  ∃ b, run_from a s w = Ret b ∧ (b = true ↔ accepts_from (edge a) (final a) s w).
Proof.
  induction w as [|c w IH]; intros s Hs; cbn [run_from].
  - eexists. split; [done|]. by rewrite accepts_nil.
  - destruct (Step_spec s c Hs) as (d & -> & [[Hd He]|[-> Hno]]); rewrite go_bind_ret.
    + pose proof (edge_dest a s c d (good_wf _ G) ltac:(lia) He) as (_ & Hdn & _).
      rewrite (proj2 (Z.eqb_neq _ _)) by lia. destruct (IH d Hdn) as (b & -> & Hb). exists b. split; [done|].
      rewrite Hb, accepts_cons. split; [eauto|]. intros (d' & He' & Hw).
      by rewrite (edge_functional s c d d') by (done || lia).
    + eexists. split; [done|]. rewrite accepts_cons. split; [done|]. by intros (d & He & _); apply Hno in He.
Qed.
End Running.

(** Running a deterministic automaton by binary search over the transitions of
    each state ends and says whether there is a path to an accept state. *)
Theorem Run_correct a w :
  good a → deterministic a = true → 0 < NumStates a →
  ∃ b, Run a w = Ret b ∧ (b = true ↔ language a w).
Proof. intros G HD Hn. apply run_from_spec; [done|done|lia]. Qed.

(** ** Operations on arrays with room left *)

Lemma aget_calm {A} (l : list A) i : calm (aget l i).
Proof. intros e. unfold aget. by repeat case_match. Qed.

Lemma aset_calm {A} (l : list A) i v : calm (aset l i v).
Proof. intros e. unfold aset. by repeat case_match. Qed.

Lemma put_triple_calm ws p d lo hi : calm (put_triple ws p d lo hi).
Proof. repeat (apply calm_bind; [apply aset_calm|intros ? _]). apply aset_calm. Qed.

Lemma CreateState_calm a : nextState a + 2 ≤ Z.of_nat (length (states a)) → calm (CreateState a).
Proof.
  intros H. unfold CreateState, growStates. rewrite (proj2 (Z.ltb_ge _ _)) by lia. rewrite go_bind_mret.
  apply calm_bind; [apply aset_calm|]. by intros ? _.
Qed.

Lemma AddTransition_calm source d lo hi a :
  wf a → nextTransition a + 3 ≤ Z.of_nat (length (transitions a)) → calm (AddTransition source d lo hi a).
Proof.
  intros W H. unfold AddTransition, checkIndex, must, growTransitions.
  rewrite (proj2 (Z.ltb_ge _ _)) by lia. destruct (in_range source _), (in_range d _); try done.
  cbn [mbind go_bind]. rewrite go_bind_mret. apply calm_bind.
  - destruct (negb (curState a =? source)) eqn:E1; [|done]. apply calm_bind.
    + destruct (Z.eqb_spec (curState a) (-1)) as [Ec|Ec]; cbn [negb]; [done|].
      destruct (finishCurrentState_spec a W Ec) as (a' & -> & _). done.
    + intros a2 _. apply calm_bind; [apply aget_calm|]. intros p _. unfold must. destruct (p =? -1); [|done].
      cbn [mbind go_bind]. apply calm_bind; [apply aset_calm|]. by intros ? _.
  - intros a2 _. apply calm_bind; [apply put_triple_calm|]. intros ws _. cbn zeta.
    apply calm_bind; [apply aget_calm|]. intros n _. apply calm_bind; [apply aset_calm|]. by intros ? _.
Qed.

(** * Building an automaton *)

Inductive build_op : Type :=
  | BCreateState
  | BSetAccept (state : Z) (accept : bool)
  | BAddTransition (source dest min max : Z)
  | BFinishState.

Definition run_build_op (o : build_op) (a : Automaton) : AM Automaton :=
  match o with
  | BCreateState => '(_, a) ← CreateState a; mret a
  | BSetAccept s b => SetAccept s b a
  | BAddTransition s d lo hi => AddTransition s d lo hi a
  | BFinishState => FinishState a
  end.

Fixpoint run_build (os : list build_op) (a : Automaton) : AM Automaton :=
  match os with [] => mret a | o :: os => a ← run_build_op o a; run_build os a end.

(** The graph that is meant: the number of states, the accept states, the
    transitions in the order they were added, the state that transitions are being
    added to, and those that had some before. *)
Record graph := {
  g_states : Z;
  g_accept : Z → bool;
  g_edges : list (Z * Z * Z * Z);
  g_current : Z;
  g_started : list Z
}.

Definition g_empty : graph :=
  {| g_states := 0; g_accept := fun _ => false; g_edges := []; g_current := -1; g_started := [] |}.

Definition g_edge (g : graph) (s c d : Z) : Prop := ∃ lo hi, (s, d, lo, hi) ∈ g_edges g ∧ lo ≤ c ≤ hi.

(** [None]: the code panics. *)
Definition graph_op (o : build_op) (g : graph) : option graph :=
  match o with
  | BCreateState =>
      Some {| g_states := g_states g + 1; g_accept := g_accept g; g_edges := g_edges g;
              g_current := g_current g; g_started := g_started g |}
  | BSetAccept s b =>
      if in_range s (g_states g) then
        Some {| g_states := g_states g; g_accept := fun i => if decide (i = s) then b else g_accept g i;
                g_edges := g_edges g; g_current := g_current g; g_started := g_started g |}
      else None
  | BAddTransition s d lo hi =>
      if in_range s (g_states g) && in_range d (g_states g) && ((s =? g_current g) || negb (bool_decide (s ∈ g_started g)))
      then Some {| g_states := g_states g; g_accept := g_accept g; g_edges := g_edges g ++ [(s, d, lo, hi)];
                   g_current := s; g_started := s :: g_started g |}
      else None
  | BFinishState =>
      Some {| g_states := g_states g; g_accept := g_accept g; g_edges := g_edges g;
              g_current := -1; g_started := g_started g |}
  end.

Fixpoint graph_ops (os : list build_op) (g : graph) : option graph :=
  match os with [] => Some g | o :: os => g ← graph_op o g; graph_ops os g end.

(** The ranges of labels the code is given; it does not look at them. *)
Definition op_labels (o : build_op) : Prop :=
  match o with BAddTransition _ _ lo hi => 0 ≤ lo ≤ hi | _ => True end.

Record shows (g : graph) (a : Automaton) : Prop := {
  sh_wf : wf a;
  sh_states : NumStates a = g_states g;
  sh_accept : ∀ s, IsAccept a s = g_accept g s;
  sh_edge : ∀ s c d, 0 ≤ s → edge a s c d ↔ g_edge g s c d;
  sh_current : curState a = g_current g;
  sh_started : ∀ s, 0 ≤ s < g_states g → started a s ↔ s ∈ g_started g;
  sh_bound : ∀ s, s ∈ g_started g → s < g_states g
}.

Lemma shows_empty n m : shows g_empty (NewAutomatonWithCapacity n m).
Proof.
  assert (Hz : ∀ n j, nthZ 0 (repeat 0 n) j = 0) by (intros; apply (nthZ_pad [])).
  set (a := NewAutomatonWithCapacity n m). assert (HN : NumStates a = 0) by done.
  assert (HW : Forall is_word (isAccept a)).
  { apply Forall_forall. by intros w ->%list_elem_of_In%repeat_spec. }
  assert (HA : ∀ s, IsAccept a s = false).
  { intros s. rewrite IsAccept_bit by done. unfold bit, a. cbn [isAccept NewAutomatonWithCapacity].
    rewrite Hz, Z.testbit_0_l. apply andb_false_r. }
  assert (HD : ∀ s, delta a s = []).
  { intros s. unfold delta, cnt, a. cbn [states NewAutomatonWithCapacity]. rewrite Hz. done. }
  split; try done; [| |intros s Hs; cbn in Hs; lia|by intros s ?%elem_of_nil].
  - split; try done.
    + exists 0%nat. cbn. lia.
    + exists 0%nat. cbn. lia.
    + intros j Hj. apply Hz.
    + intros s Hs. rewrite HN in Hs. lia.
    + by left.
    + intros s Hs. by rewrite HD.
    + intros s Hs. rewrite HN in Hs. lia.
    + intros s. by rewrite HA.
  - intros s c d Hs. unfold edge. rewrite HD, leads_nil. split; [done|]. by intros (? & ? & ?%elem_of_nil & _).
Qed.

Lemma New_good n m : good (NewAutomatonWithCapacity n m).
Proof. split; [apply (shows_empty n m)|done]. Qed.

Lemma FinishState_shows g a :
  shows g a → ∃ a', FinishState a = Ret a' ∧
    shows {| g_states := g_states g; g_accept := g_accept g; g_edges := g_edges g;
             g_current := -1; g_started := g_started g |} a'.
Proof.
  intros [W H1 H2 H3 H4 H5 H6]. destruct (FinishState_spec a W) as (a' & E & W' & C' & N' & A' & E' & S').
  exists a'. split; [done|]. split; cbn; try done; [congruence| | |].
  - intros s. by rewrite A'.
  - intros s c d Hs. by rewrite E', H3.
  - intros s Hs. rewrite S' by lia. by apply H5.
Qed.

Lemma AddTransition_panics s d lo hi a :
  wf a → (0 ≤ s < NumStates a → 0 ≤ d < NumStates a → started a s ∧ curState a ≠ s) →
  runs (AddTransition s d lo hi a) (fun _ => False) ∨ AddTransition s d lo hi a = Panic.
Proof.
  intros W H. unfold AddTransition. fold (NumStates a). unfold checkIndex, must.
  destruct (in_range s (NumStates a)) eqn:Es; [|by right]. destruct (in_range d (NumStates a)) eqn:Ed; [|by right].
  apply in_range_spec in Es, Ed. destruct (H Es Ed) as [Hst Hne]. cbn [mbind go_bind].
  pose proof (growTransitions_spec a W) as HG.
  destruct (growTransitions a) as [a1|[]| |]; try done; [|by left]. right. cbn [runs] in HG.
  destruct HG as (W1 & V1 & C1 & P1 & _). cbn [mbind go_bind].
  rewrite C1, (proj2 (Z.eqb_neq _ _)) by done. cbn [negb].
  assert (Hfin : ∃ a2, (if negb (curState a =? -1) then finishCurrentState a1 else mret a1) = Ret a2 ∧
    (∀ i, 0 ≤ i → ptr a2 i = ptr a i) ∧ states a2 ≠ [] ∧ 2 * s < Z.of_nat (length (states a2))).
  { destruct (wf_states _ W1) as (n & En & Hn). pose proof (NumStates_eq _ _ En) as EN.
    pose proof (sv_NumStates _ _ V1) as N1. destruct (Z.eqb_spec (curState a) (-1)) as [Ec|Ec]; cbn [negb].
    - exists a1. split_and!; [done|intros; apply P1| |lia]. intros E. rewrite E in Hn. cbn in Hn. lia.
    - destruct (finishCurrentState_spec a1 W1 ltac:(congruence)) as (a2 & -> & _ & HF & W2). exists a2.
      destruct (wf_states _ W2) as (n2 & En2 & Hn2). cbn in En2, Hn2. pose proof (fi_nextState _ _ HF).
      split_and!; [done|intros i Hi; by rewrite (fi_ptr _ _ HF), P1| |lia].
      intros E. rewrite E in Hn2. cbn in Hn2. lia. }
  destruct Hfin as (a2 & -> & P2 & _ & Hl). cbn [mbind go_bind states set_curState curState].
  rewrite (nthZ_aget 0), go_bind_ret by lia. fold (ptr a2 s). rewrite P2 by lia.
  unfold started in Hst. by rewrite (proj2 (Z.eqb_neq _ _)) by done.
Qed.

(** One operation: what is meant happens, or the code panics. *)
Lemma build_op_shows o g a :
  shows g a → op_labels o →
  match graph_op o g with
  | Some g' => runs (run_build_op o a) (shows g')
  | None => runs (run_build_op o a) (fun _ => False) ∨ run_build_op o a = Panic
  end.
Proof.
  intros HS HL. pose proof HS as [W H1 H2 H3 H4 H5 H6]. destruct o as [|s b|s d lo hi|]; cbn [graph_op run_build_op].
  - eapply runs_step; [by apply CreateState_spec|]. intros [i a'] (W' & -> & N' & D' & A' & S' & C' & _).
    cbn. split; cbn; try done; [lia| | |congruence| |].
    + intros s. by rewrite A'.
    + intros s c d Hs. unfold edge. rewrite D' by done. by apply H3.
    + intros s Hs. rewrite S' by lia. destruct (decide (s = NumStates a)) as [->|].
      * split; [tauto|]. intros Hin%H6. lia.
      * rewrite <- H5 by lia. tauto.
    + intros s Hs%H6. lia.
  - destruct (in_range s (g_states g)) eqn:Es; rewrite <- H1 in Es.
    + apply in_range_spec in Es. destruct (SetAccept_spec s b a W Es) as (a' & -> & W' & SB & A').
      destruct (same_but_accept_view _ _ SB) as (N' & D' & P'). cbn. split; cbn; try done; [congruence| | | |].
      * intros i. rewrite A'. case_decide; [done|]. apply H2.
      * intros i c d Hi. unfold edge. rewrite D'. by apply H3.
      * by rewrite (sb_curState _ _ SB).
      * intros i Hi. unfold started. rewrite P'. by apply H5.
    + right. unfold SetAccept, checkIndex, must. by rewrite Es.
  - destruct (in_range s (g_states g)) eqn:Es; cbn [andb].
    2: { apply AddTransition_panics; [done|]. intros Hs. rewrite H1 in Hs. apply in_range_spec in Hs. congruence. }
    destruct (in_range d (g_states g)) eqn:Ed; cbn [andb].
    2: { apply AddTransition_panics; [done|]. intros _ Hs. rewrite H1 in Hs. apply in_range_spec in Hs. congruence. }
    apply in_range_spec in Es, Ed.
    destruct ((s =? g_current g) || negb (bool_decide (s ∈ g_started g))) eqn:Ec.
    + assert (Hst : curState a = s ∨ ¬ started a s).
      { rewrite H4, (H5 s) by done. apply orb_true_iff in Ec as [Ec%Z.eqb_eq|Ec%negb_true_iff]; [by left|right].
        by apply bool_decide_eq_false in Ec. }
      eapply runs_mono; [apply AddTransition_spec; rewrite ?H1; done|]. intros a' HA.
      split; cbn; try apply HA.
      * by rewrite (ad_NumStates _ _ _ _ _ _ HA).
      * intros i. by rewrite (ad_IsAccept _ _ _ _ _ _ HA).
      * intros i c e Hi. rewrite (ad_edge _ _ _ _ _ _ HA), H3 by done. unfold g_edge. cbn [g_edges].
        setoid_rewrite elem_of_app. setoid_rewrite list_elem_of_singleton. split.
        { intros [(l & h & ? & ?)|(-> & -> & ?)]; [by exists l, h; auto|by exists lo, hi; auto]. }
        { intros (l & h & [?|[= -> -> -> ->]] & ?); [left; by exists l, h|by right]. }
      * intros i Hi. rewrite (ad_started _ _ _ _ _ _ HA), H5, elem_of_cons by lia. tauto.
      * intros i [->|Hi]%elem_of_cons; [lia|by apply H6].
    + apply orb_false_iff in Ec as [Ec%Z.eqb_neq Ed'%negb_false_iff]. apply bool_decide_eq_true in Ed'.
      apply AddTransition_panics; [done|]. intros _ _. split; [by apply H5|]. congruence.
  - destruct (FinishState_shows g a HS) as (a' & -> & Ha'). done.
Qed.

Lemma run_build_from os : ∀ g a, shows g a → Forall op_labels os →
  match graph_ops os g with
  | Some g' => runs (run_build os a) (shows g')
  | None => runs (run_build os a) (fun _ => False) ∨ run_build os a = Panic
  end.
Proof.
  induction os as [|o os IH]; intros g a HS HL; cbn [graph_ops run_build]; [done|].
  apply Forall_cons in HL as [Ho HL]. pose proof (build_op_shows o g a HS Ho) as H.
  destruct (graph_op o g) as [g'|]; cbn [mbind option_bind].
  - destruct (run_build_op o a) as [a'|[]| |]; try done; [by apply IH|].
    destruct (graph_ops os g'); [done|by left].
  - destruct H as [H| ->]; [|by right]. by destruct (run_build_op o a) as [a'|[]| |]; try done; left.
Qed.

Lemma run_build_good os n a :
  Forall op_labels os → run_build os NewAutomaton = Ret a →
  match graph_ops os g_empty with Some g => (g_current g =? -1) && (g_states g =? n) | None => false end = true →
  good a ∧ NumStates a = n.
Proof.
  intros HL Ea Hg. pose proof (run_build_from os g_empty NewAutomaton (shows_empty 2 2) HL) as H.
  destruct (graph_ops os g_empty) as [g|]; [|done]. rewrite Ea in H. cbn in H.
  apply andb_true_iff in Hg as [Hc%Z.eqb_eq Hn%Z.eqb_eq]. destruct H. split; [split; [done|congruence]|congruence].
Qed.

(** ** All operations

    Besides these, [AddEpsilon], and [Copy] of an automaton that shows a graph. *)

Inductive op : Type :=
  | OBuild (o : build_op)
  | OAddEpsilon (source dest : Z)
  | OCopy (other : Automaton) (h : graph).

Definition run_op (o : op) (a : Automaton) : AM Automaton :=
  match o with
  | OBuild o => run_build_op o a
  | OAddEpsilon s d => AddEpsilon s d a
  | OCopy other _ => Copy other a
  end.

Fixpoint run_ops (os : list op) (a : Automaton) : AM Automaton :=
  match os with [] => mret a | o :: os => a ← run_op o a; run_ops os a end.

(** The transitions from [d], as transitions from [s]. *)
Definition edges_from (s d : Z) (l : list (Z * Z * Z * Z)) : list (Z * Z * Z * Z) :=
  omap (fun '(s', e, lo, hi) => if s' =? d then Some (s, e, lo, hi) else None) l.

Definition shift_edge (n : Z) : Z * Z * Z * Z → Z * Z * Z * Z := fun '(s, d, lo, hi) => (s + n, d + n, lo, hi).

Definition op_graph (o : op) (g : graph) : option graph :=
  match o with
  | OBuild o => graph_op o g
  | OAddEpsilon s d =>
      let new := edges_from s d (g_edges g) in
      Some {| g_states := g_states g;
              g_accept := fun i => g_accept g i || bool_decide (i = s) && g_accept g d;
              g_edges := g_edges g ++ new;
              g_current := match new with [] => g_current g | _ => s end;
              g_started := match new with [] => g_started g | _ => s :: g_started g end |}
  | OCopy _ h =>
      Some {| g_states := g_states g + g_states h;
              g_accept := fun i => if i <? g_states g then g_accept g i else g_accept h (i - g_states g);
              g_edges := g_edges g ++ map (shift_edge (g_states g)) (g_edges h);
              g_current := -1;
              g_started := g_started g ++ map (fun i => i + g_states g) (g_started h) |}
  end.

Fixpoint ops_graph (os : list op) (g : graph) : option graph :=
  match os with [] => Some g | o :: os => g ← op_graph o g; ops_graph os g end.

(** The labels are in order, which the code does not check; what is copied shows its
    graph and is finished. *)
Definition edge_ok (n : Z) : Z * Z * Z * Z → Prop := fun '(s, d, lo, hi) => 0 ≤ s < n ∧ 0 ≤ d < n ∧ 0 ≤ lo ≤ hi.

Definition displays (g : graph) (a : Automaton) : Prop :=
  shows g a ∧ Forall (edge_ok (g_states g)) (g_edges g) ∧ Forall (Z.le 0) (g_started g).

Definition op_ok (o : op) : Prop :=
  match o with
  | OBuild o => op_labels o
  | OAddEpsilon _ _ => True
  | OCopy other h => displays h other ∧ g_current h = -1
  end.

(** [AddEpsilon] is between two states of which the second is finished and the first
    is the one under construction or has no transitions yet; [Copy] goes to an
    automaton that is finished. *)
Definition allowed (o : op) (g : graph) : bool :=
  match o with
  | OBuild _ => true
  | OAddEpsilon s d =>
      in_range s (g_states g) && in_range d (g_states g) && negb (d =? s) && negb (d =? g_current g) &&
      ((s =? g_current g) || negb (bool_decide (s ∈ g_started g)))
  | OCopy _ _ => g_current g =? -1
  end.

Fixpoint allowed_ops (os : list op) (g : graph) : bool :=
  match os with
  | [] => true
  | o :: os => allowed o g && match op_graph o g with Some g => allowed_ops os g | None => true end
  end.

Lemma edges_from_elem s d l x y lo hi : (x, y, lo, hi) ∈ edges_from s d l ↔ x = s ∧ (d, y, lo, hi) ∈ l.
Proof.
  unfold edges_from. rewrite list_elem_of_omap. split.
  - intros ([[[s' e] lo'] hi'] & Hin & E). destruct (Z.eqb_spec s' d) as [->|]; [|done]. by injection E as <- <- <- <-.
  - intros [-> Hin]. exists (d, y, lo, hi). split; [done|]. by rewrite Z.eqb_refl.
Qed.

(** The transitions of a state in the graph and in the automaton are empty together. *)
Lemma edges_from_nil g a s d : displays g a → 0 ≤ d < g_states g → edges_from s d (g_edges g) = [] ↔ delta a d = [].
Proof.
  intros (HS & HF & _) Hd. rewrite Forall_forall in HF. pose proof (sh_edge _ _ HS d) as HE. split; intros E.
  - destruct (delta a d) as [|t l] eqn:Et; [done|exfalso].
    pose proof (wf_ok _ (sh_wf _ _ HS) d) as Hok. rewrite (sh_states _ _ HS), Et in Hok.
    destruct (Forall_inv (Hok Hd)) as [_ Ht]. assert (He : edge a d (min_ t) (dest_ t)).
    { exists t. rewrite Et. split; [by left|]. split; [done|]. unfold covers. lia. }
    apply HE in He as (lo & hi & Hin & _); [|lia].
    assert (Hin' : (s, dest_ t, lo, hi) ∈ edges_from s d (g_edges g)) by (by apply edges_from_elem).
    rewrite E in Hin'. by apply elem_of_nil in Hin'.
  - destruct (edges_from s d (g_edges g)) as [|[[[s' e] lo] hi] l] eqn:Et; [done|exfalso].
    assert (Hin : (s', e, lo, hi) ∈ edges_from s d (g_edges g)) by (rewrite Et; by left).
    apply edges_from_elem in Hin as [_ Hin]. destruct (HF _ Hin) as (_ & _ & Hl).
    assert (He : edge a d lo e) by (apply HE; [lia|]; exists lo, hi; split; [done|lia]).
    destruct He as (t & Ht & _). rewrite E in Ht. by apply elem_of_nil in Ht.
Qed.

Lemma g_edge_added g l s c d n cur st acc :
  g_edge {| g_states := n; g_accept := acc; g_edges := g_edges g ++ l; g_current := cur; g_started := st |} s c d ↔
  g_edge g s c d ∨ ∃ lo hi, (s, d, lo, hi) ∈ l ∧ lo ≤ c ≤ hi.
Proof.
  unfold g_edge. cbn [g_edges]. setoid_rewrite elem_of_app. split.
  - intros (lo & hi & [?|?] & ?); [left|right]; by exists lo, hi.
  - intros [(lo & hi & ? & ?)|(lo & hi & ? & ?)]; exists lo, hi; auto.
Qed.

Lemma AddEpsilon_displays g a s d g' :
  displays g a → allowed (OAddEpsilon s d) g = true → op_graph (OAddEpsilon s d) g = Some g' →
  runs (AddEpsilon s d a) (displays g').
Proof.
  intros HD HA Hg. pose proof HD as (HS & HF & HP). pose proof HS as [W H1 H2 H3 H4 H5 H6]. cbn [allowed] in HA.
  apply andb_true_iff in HA as [[[[Hs%in_range_spec Hd%in_range_spec]%andb_true_iff Hne%negb_true_iff%Z.eqb_neq]%andb_true_iff
    Hcur%negb_true_iff%Z.eqb_neq]%andb_true_iff Hst].
  eapply runs_mono; [apply AddEpsilon_spec; rewrite ?H1, ?H4; try done|].
  { apply orb_true_iff in Hst as [Hst%Z.eqb_eq|Hst%negb_true_iff]; [by left|right].
    apply bool_decide_eq_false in Hst. by rewrite H5. }
  intros a' [W' N' A' _ _ E' [C' T']]. cbn [op_graph] in Hg. injection Hg as <-.
  assert (Hnil : (edges_from s d (g_edges g) = [] ∧ delta a d = []) ∨ (edges_from s d (g_edges g) ≠ [] ∧ delta a d ≠ [])).
  { pose proof (edges_from_nil g a s d HD Hd) as Hiff. destruct (decide (edges_from s d (g_edges g) = [])); tauto. }
  split; [split|split].
  - done.
  - cbn. congruence.
  - intros i. cbn. by rewrite A', !H2.
  - intros x c e Hx. rewrite E', g_edge_added, (H3 x c e) by done. apply or_iff_compat_l. rewrite (H3 d) by lia.
    unfold g_edge. setoid_rewrite edges_from_elem. split.
    + intros [-> (lo & hi & ? & ?)]. by exists lo, hi.
    + intros (lo & hi & [-> ?] & ?). split; [done|]. by exists lo, hi.
  - cbn. rewrite C'. destruct Hnil as [[-> ->]|[Hn1 Hn2]]; [done|]. by destruct (edges_from _ _ _), (delta a d).
  - intros i Hi. cbn in *. rewrite T', H5 by lia. destruct Hnil as [[-> ->]|[Hn1 Hn2]].
    + split; [|by left]. intros [?|[_ []]]; done.
    + destruct (edges_from _ _ _); [done|]. rewrite elem_of_cons. tauto.
  - intros i. cbn. destruct (edges_from _ _ _); [apply H6|]. rewrite elem_of_cons. intros [->|?]; [lia|by apply H6].
  - cbn. apply Forall_app. split; [done|]. apply Forall_forall. intros [[[x y] lo] hi] [-> Hin]%edges_from_elem.
    rewrite Forall_forall in HF. destruct (HF _ Hin) as (_ & ? & ?). cbn. lia.
  - cbn. destruct (edges_from _ _ _); [done|]. constructor; [lia|done].
Qed.

Lemma shift_edges_elem n l s d lo hi : (s, d, lo, hi) ∈ map (shift_edge n) l ↔ (s - n, d - n, lo, hi) ∈ l.
Proof.
  rewrite list_elem_of_fmap. split.
  - intros ([[[s' d'] lo'] hi'] & E & Hin). injection E as -> -> -> ->. by rewrite !Z.add_simpl_r.
  - intros Hin. exists (s - n, d - n, lo, hi). split; [|done]. cbn. by rewrite !Z.sub_add.
Qed.

Lemma Copy_displays g a other h g' :
  displays g a → displays h other → g_current h = -1 → g_current g = -1 → op_graph (OCopy other h) g = Some g' →
  runs (Copy other a) (displays g').
Proof.
  intros (HS & HF & HP) (HSo & HFo & HPo) Hch Hcg Hg. pose proof HS as [W H1 H2 H3 H4 H5 H6]. pose proof HSo as [Wo K1 K2 K3 K4 K5 K6].
  cbn [op_graph] in Hg. injection Hg as <-. eapply runs_mono; [apply Copy_spec; congruence|].
  intros a' [W' C' N' A' B' F']. pose proof (NumStates_pos _ W) as Hn. pose proof (NumStates_pos _ Wo) as Hno.
  rewrite H1 in *. rewrite K1 in *.
  assert (Hno_edge : ∀ x y lo hi, (x, y, lo, hi) ∈ map (shift_edge (g_states g)) (g_edges h) →
    g_states g ≤ x < g_states g + g_states h ∧ g_states g ≤ y < g_states g + g_states h ∧ 0 ≤ lo ≤ hi).
  { intros x y lo hi Hin%shift_edges_elem. rewrite Forall_forall in HFo. destruct (HFo _ Hin) as (? & ? & ?). lia. }
  assert (Hedge : ∀ x c e, 0 ≤ x → edge a' x c e ↔ if x <? g_states g then edge a x c e
    else if x <? g_states g + g_states h then edge other (x - g_states g) c (e - g_states g) else False).
  { intros x c e Hx. destruct (Z.ltb_spec x (g_states g)).
    - unfold edge. by destruct (B' x ltac:(lia)) as [-> _].
    - destruct (Z.ltb_spec x (g_states g + g_states h)).
      + unfold edge. destruct (F' (x - g_states g) ltac:(lia)) as [HD _].
        rewrite Zplus_minus in HD. rewrite HD. apply leads_shift.
      + split; [|done]. intros He%(edge_dest a' x c e W' Hx). lia. }
  split; [split|split]; cbn [g_states g_accept g_edges g_current g_started].
  - done.
  - done.
  - intros i. rewrite A'. by destruct (i <? g_states g).
  - intros x c e Hx. rewrite Hedge, g_edge_added by done. destruct (Z.ltb_spec x (g_states g)) as [Hlt|Hge].
    + rewrite H3 by done. split; [by left|]. intros [?|(lo & hi & Hin & _)]; [done|]. apply Hno_edge in Hin. lia.
    + assert (Hg : ¬ g_edge g x c e).
      { intros (lo & hi & Hin & _). rewrite Forall_forall in HF. destruct (HF _ Hin) as (? & _). lia. }
      destruct (Z.ltb_spec x (g_states g + g_states h)) as [Hlt2|Hge2].
      * rewrite K3 by lia. unfold g_edge at 1. setoid_rewrite shift_edges_elem. tauto.
      * split; [done|]. intros [?|(lo & hi & Hin & _)]; [done|]. apply Hno_edge in Hin. lia.
  - done.
  - intros i Hi. rewrite elem_of_app, list_elem_of_fmap. destruct (Z.lt_ge_cases i (g_states g)) as [Hlt|Hge].
    + destruct (B' i ltac:(lia)) as [_ ->]. rewrite H5 by lia. split; [by left|].
      intros [?|(j & -> & Hj)]; [done|]. rewrite Forall_forall in HPo. apply HPo in Hj. lia.
    + destruct (F' (i - g_states g) ltac:(lia)) as [_ HF']. rewrite Zplus_minus in HF'. rewrite HF', K5 by lia. split.
      * intros Hj. right. exists (i - g_states g). split; [lia|done].
      * intros [Hi2%H6|(j & -> & Hj)]; [lia|by rewrite Z.add_simpl_r].
  - intros i [Hi%H6|(j & -> & Hj%K6)%list_elem_of_fmap]%elem_of_app; lia.
  - apply Forall_app. split.
    + eapply Forall_impl; [exact HF|]. intros [[[x y] lo] hi] (? & ? & ?). cbn. lia.
    + apply Forall_forall. intros [[[x y] lo] hi] Hin%Hno_edge. cbn. lia.
  - apply Forall_app. split; [done|]. rewrite Forall_forall in HPo. apply Forall_forall.
    intros i (j & -> & Hj%HPo)%list_elem_of_fmap. lia.
Qed.

(** What is meant by one operation of the builder stays within the states. *)
Lemma graph_op_bounds o g g' :
  op_labels o → graph_op o g = Some g' → Forall (edge_ok (g_states g)) (g_edges g) → Forall (Z.le 0) (g_started g) →
  Forall (edge_ok (g_states g')) (g_edges g') ∧ Forall (Z.le 0) (g_started g').
Proof.
  intros HL Hg HF HP. destruct o as [|s b|s d lo hi|]; cbn [graph_op] in Hg.
  - injection Hg as <-. cbn. split; [|done]. eapply Forall_impl; [exact HF|].
    intros [[[x y] lo] hi] (? & ? & ?). cbn. lia.
  - destruct (in_range _ _); [|done]. injection Hg as <-. done.
  - destruct (in_range s _) eqn:Es; [|done]. destruct (in_range d _) eqn:Ed; [|done]. cbn [andb] in Hg.
    destruct (_ || _); [|done]. injection Hg as <-. cbn. apply in_range_spec in Es, Ed.
    split; [|by constructor; [lia|]]. apply Forall_app. split; [done|]. by repeat constructor; cbn in *; lia.
  - injection Hg as <-. done.
Qed.

Lemma op_displays o g a :
  displays g a → op_ok o → allowed o g = true →
  match op_graph o g with
  | Some g' => runs (run_op o a) (displays g')
  | None => runs (run_op o a) (fun _ => False) ∨ run_op o a = Panic
  end.
Proof.
  intros HD Ho HA. destruct o as [o|s d|other h].
  - destruct HD as (HS & HF & HP). cbn [op_graph run_op]. pose proof (build_op_shows o g a HS Ho) as H.
    destruct (graph_op o g) as [g'|] eqn:Eg; [|done]. eapply runs_mono; [exact H|]. intros a' Ha'. split; [done|].
    by apply (graph_op_bounds o g).
  - eapply (AddEpsilon_displays g a s d); done.
  - destruct Ho as [Ho Hc]. apply Z.eqb_eq in HA. by eapply (Copy_displays g a other h).
Qed.

Lemma run_ops_from os : ∀ g a, displays g a → Forall op_ok os → allowed_ops os g = true →
  match ops_graph os g with
  | Some g' => runs (run_ops os a) (displays g')
  | None => runs (run_ops os a) (fun _ => False) ∨ run_ops os a = Panic
  end.
Proof.
  induction os as [|o os IH]; intros g a HD Ho HA; cbn [ops_graph run_ops]; [done|].
  apply Forall_cons in Ho as [Ho HF]. cbn [allowed_ops] in HA. apply andb_true_iff in HA as [HA HAs].
  pose proof (op_displays o g a HD Ho HA) as H. destruct (op_graph o g) as [g'|]; cbn [mbind option_bind].
  - destruct (run_op o a) as [a'|[]| |]; try done; [by apply IH|]. destruct (ops_graph os g'); [done|by left].
  - destruct H as [H| ->]; [|by right]. by destruct (run_op o a) as [a'|[]| |]; try done; left.
Qed.

Lemma displays_empty n m : displays g_empty (NewAutomatonWithCapacity n m).
Proof. split; [apply shows_empty|]. by split. Qed.

(** The automaton a sequence makes and the graph it means, for the examples. *)
Definition built (os : list op) : Automaton :=
  match run_ops os NewAutomaton with Ret a => a | _ => NewAutomaton end.

Definition meant (os : list op) : graph := default g_empty (ops_graph os g_empty).

Definition ret_ok {A} (m : AM A) : bool := match m with Ret _ => true | _ => false end.

Lemma built_displays os :
  Forall op_ok os → allowed_ops os g_empty = true → ret_ok (run_ops os NewAutomaton) = true →
  displays (meant os) (built os).
Proof.
  intros Ho HA HR. pose proof (run_ops_from os g_empty NewAutomaton (displays_empty 2 2) Ho HA) as H.
  unfold meant, built. destruct (run_ops os NewAutomaton) as [a| | |] eqn:E; try done.
  destruct (ops_graph os g_empty) as [g|]; [done|]. by destruct H.
Qed.

(** C22. A sequence of [CreateState], [SetAccept], [AddTransition], [FinishState],
    [AddEpsilon] and [Copy] on a new automaton, whatever the capacities it was made
    with, gives the automaton that is meant: its states, its accept states and which
    label leads where are those of the graph, whatever was sorted and joined on the way;
    the transitions of finished states are in order; the flag [deterministic] says
    exactly whether a label leads to one state at most.  An index out of range that is
    given to [SetAccept] or [AddTransition], or transitions for a state that was left
    before, make the code panic.  (An array of more than [MaxArrayLength] cells is the
    third possible end.)

    This is about the calls the code is made for.  The labels have [0 <= min <= max]: the
    code does not look at them, and with other ones the flag can be wrong.  [AddEpsilon]
    copies from a finished state of the automaton to another one that is under
    construction or has no transitions; [Copy] goes to a finished automaton and is of
    one that is finished and itself shows a graph. *)
Theorem build_refines n m os :
  0 ≤ n → 0 ≤ m → Forall op_ok os → allowed_ops os g_empty = true →
  match ops_graph os g_empty with
  | Some g => runs (run_ops os (NewAutomatonWithCapacity n m)) (fun a =>
      displays g a ∧
      NumStates a = g_states g ∧ (∀ s, IsAccept a s = g_accept g s) ∧
      (∀ s c d, 0 ≤ s → edge a s c d ↔ g_edge g s c d) ∧
      (∀ s, 0 ≤ s < g_states g → s ≠ g_current g → StronglySorted (in_order minMaxDestLess) (delta a s)) ∧
      (g_current g = -1 →
         deterministic a = true ↔ ∀ s c d d', 0 ≤ s → g_edge g s c d → g_edge g s c d' → d = d'))
  | None => runs (run_ops os (NewAutomatonWithCapacity n m)) (fun _ => False) ∨
            run_ops os (NewAutomatonWithCapacity n m) = Panic
  end.
Proof.
  intros _ _ HL HA. pose proof (run_ops_from os g_empty _ (displays_empty n m) HL HA) as H.
  destruct (ops_graph os g_empty) as [g|]; [|done]. eapply runs_mono; [exact H|].
  intros a HD. split; [done|]. destruct HD as [[W H1 H2 H3 H4 _ _] _]. split_and!; try done.
  - intros s Hs Hne. apply (wf_finished _ W); [lia|congruence].
  - intros Hc. rewrite (deterministic_iff a W) by congruence. split.
    + intros HF s c d d' Hs He He'. apply H3 in He, He'; try done.
      pose proof (edge_dest a s c d W Hs He) as (? & _). by apply (HF s ltac:(lia) c).
    + intros HF s Hs c d d' He He'. apply (HF s c); [lia|by apply H3; [lia|]..].
Qed.

(** One automaton, a copy of another one after it, the two joined by an epsilon. *)
Lemma build_refines_witness :
  let sub := [OBuild BCreateState; OBuild BCreateState; OBuild (BSetAccept 0 true); OBuild (BSetAccept 1 true);
              OBuild (BAddTransition 0 1 120 122); OBuild BFinishState] in
  let os := [OBuild BCreateState; OBuild BCreateState; OBuild (BSetAccept 1 true);
             OBuild (BAddTransition 0 1 98 99); OBuild (BAddTransition 0 1 97 97); OBuild (BAddTransition 0 0 99 100);
             OBuild BFinishState; OCopy (built sub) (meant sub); OAddEpsilon 1 2; OBuild BFinishState] in
  (∃ a, run_ops os (NewAutomatonWithCapacity 1 0) = Ret a ∧ NumStates a = 4 ∧ deterministic a = false ∧
        delta a 0 = [(1, 97, 99); (0, 99, 100)] ∧ delta a 1 = [(3, 120, 122)] ∧ delta a 2 = [(3, 120, 122)] ∧
        map (IsAccept a) [0; 1; 2; 3] = [false; true; true; true]) ∧
  match ops_graph os g_empty with
  | Some g => runs (run_ops os (NewAutomatonWithCapacity 1 0)) (fun a =>
      displays g a ∧
      NumStates a = g_states g ∧ (∀ s, IsAccept a s = g_accept g s) ∧
      (∀ s c d, 0 ≤ s → edge a s c d ↔ g_edge g s c d) ∧
      (∀ s, 0 ≤ s < g_states g → s ≠ g_current g → StronglySorted (in_order minMaxDestLess) (delta a s)) ∧
      (g_current g = -1 →
         deterministic a = true ↔ ∀ s c d d', 0 ≤ s → g_edge g s c d → g_edge g s c d' → d = d'))
  | None => runs (run_ops os (NewAutomatonWithCapacity 1 0)) (fun _ => False) ∨
            run_ops os (NewAutomatonWithCapacity 1 0) = Panic
  end.
Proof.
  intros sub os. split; [eexists; vm_compute; repeat split|].
  apply (build_refines 1 0 os); [done|done| |vm_compute; reflexivity].
  assert (Hsub : displays (meant sub) (built sub)).
  { apply built_displays; [|vm_compute; reflexivity..]. unfold sub.
    repeat (apply Forall_cons; split; [cbn; (exact I || lia)|]); constructor. }
  assert (Hcur : g_current (meant sub) = -1) by (vm_compute; reflexivity).
  unfold os. clearbody sub os.
  repeat (apply Forall_cons; split; [first [exact I|exact (conj Hsub Hcur)|cbn; lia]|]). constructor.
Defined.

Lemma Run_correct_witness :
  match run_build [BCreateState; BCreateState; BSetAccept 1 true; BAddTransition 0 1 97 99;
                   BAddTransition 1 1 48 57; BFinishState] NewAutomaton with
  | Ret a => (∃ b, Run a [98; 49; 50] = Ret b ∧ (b = true ↔ language a [98; 49; 50])) ∧
             Run a [98; 49; 50] = Ret true
  | _ => False
  end.
Proof.
  pose proof (run_build_from [BCreateState; BCreateState; BSetAccept 1 true; BAddTransition 0 1 97 99;
    BAddTransition 1 1 48 57; BFinishState] g_empty NewAutomaton (shows_empty 2 2)
    ltac:(repeat (apply Forall_cons; split; [cbn; lia|]); constructor)) as H.
  destruct (run_build _ NewAutomaton) as [a| | |] eqn:E; try (vm_compute in E; discriminate).
  vm_compute in E. injection E as <-. cbn in H. split; [|vm_compute; reflexivity].
  apply Run_correct; [split; [apply H|vm_compute; reflexivity]|vm_compute; reflexivity..].
Defined.

(** ** Automata for examples *)

Definition automaton_of (os : list build_op) : Automaton :=
  match run_build os NewAutomaton with Ret a => a | _ => NewAutomaton end.

Definition op_labels_ok (o : build_op) : bool :=
  match o with BAddTransition _ _ lo hi => (0 <=? lo) && (lo <=? hi) | _ => true end.

Definition buildable (os : list build_op) : bool :=
  forallb op_labels_ok os &&
  match run_build os NewAutomaton, graph_ops os g_empty with Ret _, Some g => g_current g =? -1 | _, _ => false end.

Lemma automaton_of_good os : buildable os = true → good (automaton_of os).
Proof.
  unfold buildable, automaton_of. intros [HL HB]%andb_true_iff.
  assert (HF : Forall op_labels os).
  { apply Forall_forall. intros o Ho. rewrite forallb_forall in HL. specialize (HL o (proj1 (list_elem_of_In _ _) Ho)).
    destruct o; try done. cbn in HL. apply andb_true_iff in HL as [?%Z.leb_le ?%Z.leb_le]. done. }
  destruct (run_build os NewAutomaton) as [a| | |] eqn:E; try done. destruct (graph_ops os g_empty) as [g|] eqn:Eg; [|done].
  apply (run_build_good os (g_states g) a HF E). rewrite Eg, HB. apply Z.eqb_refl.
Qed.
