(* ===== verification/Builder.v ===== *)
(** [util/automaton/builder.go]: states and transitions in any order, put into a packed
    automaton by [Finish].  The slice of transitions, four cells each, is the list of
    the quadruples (source, destination, first and last label). *)

From stdpp Require Import base tactics numbers list sets sorting.
From Stdlib Require Import ZArith Lia.
From S2P Require Import Prelude WordBits Nfa Automaton.

Local Open Scope Z_scope.

Abbreviation quad := (Z * Z * Z * Z)%type.

Record Builder := { b_nextState : Z; b_isAccept : list Z; b_transitions : list quad }.

Definition b_set_isAccept (ws : list Z) (b : Builder) : Builder :=
  {| b_nextState := b_nextState b; b_isAccept := ws; b_transitions := b_transitions b |}.

Definition NewBuilder : Builder := {| b_nextState := 0; b_isAccept := []; b_transitions := [] |}.

Definition ensureAcceptCapacity (state : Z) (b : Builder) : Builder :=
  let required := Z.shiftr state 6 + 1 in
  if Z.of_nat (length (b_isAccept b)) <? required
  then b_set_isAccept (b_isAccept b ++ repeat 0 (Z.to_nat required - length (b_isAccept b))) b
  else b.

Definition BuilderCreateState (b : Builder) : Z * Builder :=
  let state := b_nextState b in
  let b := {| b_nextState := state + 1; b_isAccept := b_isAccept b; b_transitions := b_transitions b |} in
  (state, ensureAcceptCapacity state b).

Definition BuilderSetAccept (state : Z) (accept : bool) (b : Builder) : AM Builder :=
  if (state <? 0) || (b_nextState b <=? state) then Panic else
  let b := ensureAcceptCapacity state b in
  let word := Z.shiftr state 6 in
  let bit := Z.land state 63 in
  w ← aget (b_isAccept b) word;
  ws ← aset (b_isAccept b) word (if accept : bool then Z.lor w (shl64 1 bit) else andnot w (shl64 1 bit));
  mret (b_set_isAccept ws b).

Definition BuilderIsAccept (b : Builder) (state : Z) : AM bool :=
  let word := Z.shiftr state 6 in
  let bit := Z.land state 63 in
  if Z.of_nat (length (b_isAccept b)) <=? word then mret false else
  w ← aget (b_isAccept b) word;
  mret (negb (Z.land w (shl64 1 bit) =? 0)).

Definition GetNumStates (b : Builder) : Z := b_nextState b.

Definition BuilderAddTransition (source dest min max : Z) (b : Builder) : Builder :=
  {| b_nextState := b_nextState b; b_isAccept := b_isAccept b;
     b_transitions := b_transitions b ++ [(source, dest, min, max)] |}.

Definition BuilderAddTransitionSingle (source dest label : Z) : Builder → Builder :=
  BuilderAddTransition source dest label label.

(** The loop ends at the transitions there were when it began. *)
Definition BuilderAddEpsilon (source dest : Z) (b : Builder) : AM Builder :=
  let b := foldl (fun b '(s, d, lo, hi) => if s =? dest then BuilderAddTransition source d lo hi b else b)
             b (b_transitions b) in
  accept ← BuilderIsAccept b dest;
  if (accept : bool) then BuilderSetAccept source true b else mret b.

Definition BuilderCopyStates (other : Automaton) (b : Builder) : AM Builder :=
  go_for (Z.to_nat (NumStates other)) 0 (fun s b =>
    let '(ns, b) := BuilderCreateState b in
    if IsAccept other s then BuilderSetAccept ns true b else mret b) b.

Definition BuilderCopy (other : Automaton) (b : Builder) : AM Builder :=
  let offset := b_nextState b in
  b ← BuilderCopyStates other b;
  go_for (Z.to_nat (NumStates other)) 0 (fun s b =>
    each_transition other s (fun t b =>
      mret (BuilderAddTransition (offset + s) (offset + Dest t) (Min t) (Max t) b)) b) b.

(** The order of the [sort.Slice] of [Finish]; what it leaves undecided is equal. *)
Definition quad_less (q r : quad) : bool :=
  let '(s, d, lo, hi) := q in
  let '(s', d', lo', hi') := r in
  if negb (s =? s') then s <? s'
  else if negb (lo =? lo') then lo <? lo'
  else if negb (hi =? hi') then hi <? hi'
  else d <? d'.

Definition quad_order (q r : quad) : Prop := quad_less r q = false.

#[export] Instance quad_order_dec : RelDecision quad_order := fun q r => decide (quad_less r q = false).

Definition Finish (b : Builder) : AM Automaton :=
  let numStates := b_nextState b in
  let numTransitions := Z.of_nat (length (b_transitions b)) in
  let a := NewAutomatonWithCapacity numStates numTransitions in
  a ← go_for (Z.to_nat numStates) 0 (fun s a =>
    '(_, a) ← CreateState a;
    accept ← BuilderIsAccept b s;
    if (accept : bool) then SetAccept s true a else mret a) a;
  if numTransitions =? 0 then FinishState a else
  a ← foldM (fun '(s, d, lo, hi) a => AddTransition s d lo hi a) (merge_sort quad_order (b_transitions b)) a;
  FinishState a.

Example builder_run :
  (let '(s0, b) := BuilderCreateState NewBuilder in let '(s1, b) := BuilderCreateState b in
   let '(s2, b) := BuilderCreateState b in
   b ← BuilderSetAccept s2 true b;
   let b := BuilderAddTransition s1 s2 120 122 b in let b := BuilderAddTransition s0 s1 98 99 b in
   let b := BuilderAddTransition s1 s1 48 57 b in let b := BuilderAddTransition s0 s1 97 97 b in
   b ← BuilderAddEpsilon s0 s1 b;
   a ← Finish b;
   x ← Run a [97; 48; 120]; y ← Run a [121]; z ← Run a [48];
   mret (delta a 0, x, y, z, deterministic a))
  = Ret ([(1, 48, 57); (1, 97, 99); (2, 120, 122)], true, true, false, true).
Proof. vm_compute. reflexivity. Qed.

(** * What a builder holds *)

Definition b_accept (b : Builder) (s : Z) : bool := (0 <=? s) && bit (b_isAccept b) s.

Definition b_edge (b : Builder) (s c d : Z) : Prop :=
  ∃ lo hi, (s, d, lo, hi) ∈ b_transitions b ∧ lo ≤ c ≤ hi.

Definition quad_ok (n : Z) (q : quad) : Prop :=
  let '(s, d, lo, hi) := q in 0 ≤ s < n ∧ 0 ≤ d < n ∧ 0 ≤ lo ≤ hi.

Record bwf (b : Builder) : Prop := {
  bwf_states : 0 ≤ b_nextState b;
  bwf_words : Forall is_word (b_isAccept b);
  bwf_accept : ∀ s, b_accept b s = true → s < b_nextState b;
  bwf_quads : Forall (quad_ok (b_nextState b)) (b_transitions b)
}.

Lemma NewBuilder_bwf : bwf NewBuilder.
Proof.
  split; cbn; [done|constructor| |constructor].
  intros s. unfold b_accept, bit. cbn. rewrite Z.testbit_0_l, andb_false_r. done.
Qed.

Lemma ensureAcceptCapacity_spec s b :
  Forall is_word (b_isAccept b) → 0 ≤ s →
  let b' := ensureAcceptCapacity s b in
  b_nextState b' = b_nextState b ∧ b_transitions b' = b_transitions b ∧ Forall is_word (b_isAccept b') ∧
  s / 64 < Z.of_nat (length (b_isAccept b')) ∧ ∀ i, b_accept b' i = b_accept b i.
Proof.
  intros HW Hs. unfold ensureAcceptCapacity. rewrite shiftr6.
  destruct (Z.ltb_spec (Z.of_nat (length (b_isAccept b))) (s / 64 + 1)) as [Hl|Hl]; cbn.
  - split_and!; [done|done| | |].
    + apply Forall_app_2; [done|]. apply Forall_forall. by intros w ->%list_elem_of_In%repeat_spec.
    + rewrite length_app, repeat_length. lia.
    + intros i. unfold b_accept. cbn. destruct (Z.leb_spec 0 i); cbn [andb]; [by apply bit_pad|done].
  - split_and!; try done. lia.
Qed.

Lemma BuilderIsAccept_spec b s :
  Forall is_word (b_isAccept b) → 0 ≤ s → BuilderIsAccept b s = Ret (b_accept b s).
Proof.
  intros HW Hs. unfold BuilderIsAccept, b_accept. rewrite shiftr6, land63, (proj2 (Z.leb_le 0 s)) by done. cbn [andb].
  destruct (Z.leb_spec (Z.of_nat (length (b_isAccept b))) (s / 64)).
  - unfold bit, nthZ. rewrite lookup_ge_None_2 by idx. cbn. by rewrite Z.testbit_0_l.
  - rewrite (nthZ_aget 0), go_bind_ret by idx. unfold mret, go_ret. f_equal.
    apply land_bit_zero; [idx|by apply word_at].
Qed.

Lemma BuilderCreateState_spec b :
  bwf b → ∃ b', BuilderCreateState b = (b_nextState b, b') ∧ bwf b' ∧ b_nextState b' = b_nextState b + 1 ∧
    b_transitions b' = b_transitions b ∧ ∀ i, b_accept b' i = b_accept b i.
Proof.
  intros [H1 H2 H3 H4]. unfold BuilderCreateState.
  set (b0 := {| b_nextState := _; b_isAccept := _ |}).
  destruct (ensureAcceptCapacity_spec (b_nextState b) b0) as (E1 & E2 & E3 & _ & E5); [exact H2|done|].
  eexists. split; [reflexivity|]. cbn in E1, E2. split_and!; [|done|done|by apply E5].
  split; [lia|done| |].
  - intros s. rewrite E5. intros Hs%H3. lia.
  - rewrite E1, E2. eapply Forall_impl; [exact H4|]. intros [[[s d] lo] hi]. cbn. lia.
Qed.

Lemma BuilderSetAccept_spec s accept b :
  bwf b → 0 ≤ s < b_nextState b →
  ∃ b', BuilderSetAccept s accept b = Ret b' ∧ bwf b' ∧ b_nextState b' = b_nextState b ∧
    b_transitions b' = b_transitions b ∧ ∀ i, b_accept b' i = if decide (i = s) then accept else b_accept b i.
Proof.
  intros [H1 H2 H3 H4] Hs. unfold BuilderSetAccept.
  rewrite (proj2 (Z.ltb_ge _ _)), (proj2 (Z.leb_gt _ _)) by lia. cbn [orb].
  destruct (ensureAcceptCapacity_spec s b H2) as (E1 & E2 & E3 & E4 & E5); [lia|].
  set (b1 := ensureAcceptCapacity s b) in *. clearbody b1.
  rewrite shiftr6, land63, (nthZ_aget 0), go_bind_ret by idx. rewrite aset_Ret, go_bind_ret by idx.
  eexists. split; [done|]. set (ws := <[_ := _]> _).
  assert (HW : Forall is_word ws).
  { apply Forall_insert; [done|]. destruct accept; apply bitwise_word; auto with words; by apply word_at. }
  assert (HA : ∀ i, (0 <=? i) && bit ws i = if decide (i = s) then accept else b_accept b i).
  { intros i. rewrite <- (E5 i). unfold b_accept. destruct (Z.leb_spec 0 i); cbn [andb].
    2: { by rewrite decide_False by lia. }
    unfold ws. destruct accept.
    - rewrite (update_accept_bit _ Z.lor orb) by (done || apply _ || apply orb_false_r || idx). by rewrite orb_true_r.
    - rewrite (update_accept_bit _ andnot (fun a b => a && negb b))
        by (done || apply _ || (intros; apply andb_true_r) || idx). by rewrite andb_false_r. }
  split_and!; try done. split; cbn; [lia|done| |by rewrite E1, E2].
  intros i. unfold b_accept. cbn. rewrite HA, E1. case_decide; [lia|]. apply H3.
Qed.

Lemma BuilderAddTransition_spec s d lo hi b :
  bwf b → quad_ok (b_nextState b) (s, d, lo, hi) →
  bwf (BuilderAddTransition s d lo hi b) ∧
  ∀ i c e, b_edge (BuilderAddTransition s d lo hi b) i c e ↔ b_edge b i c e ∨ i = s ∧ e = d ∧ lo ≤ c ≤ hi.
Proof.
  intros [H1 H2 H3 H4] Hq. split.
  - split; try done. apply Forall_app_2; [done|by apply Forall_singleton].
  - intros i c e. unfold b_edge. cbn. setoid_rewrite elem_of_app. setoid_rewrite list_elem_of_singleton. split.
    + intros (l & h & [?|[= -> -> -> ->]] & ?); eauto.
    + intros [(l & h & ? & ?)|(-> & -> & ?)]; eauto 6.
Qed.

Lemma b_edge_dest b s c d : bwf b → b_edge b s c d → 0 ≤ s < b_nextState b ∧ 0 ≤ d < b_nextState b ∧ 0 ≤ c.
Proof.
  intros W (lo & hi & Hin & Hc). pose proof (bwf_quads _ W) as HQ. rewrite Forall_forall in HQ.
  specialize (HQ _ Hin). cbn in HQ. lia.
Qed.

Lemma BuilderAddEpsilon_spec source d b :
  bwf b → 0 ≤ source < b_nextState b → 0 ≤ d →
  ∃ b', BuilderAddEpsilon source d b = Ret b' ∧ bwf b' ∧ b_nextState b' = b_nextState b ∧
    (∀ s, b_accept b' s = b_accept b s || bool_decide (s = source) && b_accept b d) ∧
    (∀ s c e, b_edge b' s c e ↔ b_edge b s c e ∨ s = source ∧ b_edge b d c e).
Proof.
  intros W Hs Hd. unfold BuilderAddEpsilon.
  set (f := fun b '(s, d', lo, hi) => if s =? d then BuilderAddTransition source d' lo hi b else b).
  assert (Hfold : ∀ l b1, bwf b1 → b_nextState b1 = b_nextState b → (∀ s, b_accept b1 s = b_accept b s) →
    Forall (quad_ok (b_nextState b)) l →
    bwf (foldl f b1 l) ∧ b_nextState (foldl f b1 l) = b_nextState b ∧ (∀ s, b_accept (foldl f b1 l) s = b_accept b s) ∧
    ∀ s c e, b_edge (foldl f b1 l) s c e ↔
      b_edge b1 s c e ∨ s = source ∧ ∃ lo hi, (d, e, lo, hi) ∈ l ∧ lo ≤ c ≤ hi).
  { intros l. induction l as [|[[[s' d'] lo] hi] l IH]; intros b1 W1 N1 A1 HQ; cbn [foldl].
    - split_and!; try done. intros s c e. split; [by left|]. by intros [?|(_ & ? & ? & ?%elem_of_nil & _)].
    - apply Forall_cons in HQ as [Hq HQ]. cbn [f]. destruct (Z.eqb_spec s' d) as [->|Hne].
      + destruct (BuilderAddTransition_spec source d' lo hi b1 W1) as [W2 E2].
        { rewrite N1. cbn in Hq |- *. lia. }
        destruct (IH _ W2 N1 A1 HQ) as (W3 & N3 & A3 & E3). split_and!; try done.
        intros s c e. rewrite E3, E2. setoid_rewrite elem_of_cons. split.
        * intros [[?|(-> & -> & ?)]|(-> & l1 & h1 & ? & ?)]; [by left|right; split; [done|]; eauto 6|].
          right. split; [done|]. eauto 6.
        * intros [?|(-> & l1 & h1 & [[= -> -> ->]|?] & ?)]; [auto|auto|]. right. eauto 6.
      + destruct (IH _ W1 N1 A1 HQ) as (W3 & N3 & A3 & E3). split_and!; try done.
        intros s c e. rewrite E3. setoid_rewrite elem_of_cons. split.
        * intros [?|(-> & l1 & h1 & ? & ?)]; [by left|]. right. split; [done|]. eauto 6.
        * intros [?|(-> & l1 & h1 & [[= Heq _ _ _]|?] & ?)]; [auto|by exfalso|]. right. eauto 6. }
  destruct (Hfold (b_transitions b) b W eq_refl (fun _ => eq_refl) (bwf_quads _ W)) as (W1 & N1 & A1 & E1).
  set (b1 := foldl f b (b_transitions b)) in *. clearbody b1. cbn zeta.
  rewrite BuilderIsAccept_spec, go_bind_ret, A1 by (apply W1 || lia).
  destruct (b_accept b d) eqn:Ed.
  - destruct (BuilderSetAccept_spec source true b1 W1) as (b2 & -> & W2 & N2 & T2 & A2); [lia|].
    exists b2. split_and!; [done|done|congruence| |].
    + intros s. rewrite A2, A1, andb_true_r. case_decide; case_bool_decide; try done; [by rewrite orb_true_r|by rewrite orb_false_r].
    + intros s c e. unfold b_edge at 1. rewrite T2. apply E1.
  - exists b1. split_and!; try done. intros s. by rewrite A1, andb_false_r, orb_false_r.
Qed.

(** ** Copying an automaton *)

Record bcopies (b : Builder) (other : Automaton) (b' : Builder) : Prop := {
  bc_wf : bwf b';
  bc_states : b_nextState b' = b_nextState b + NumStates other;
  bc_accept : ∀ s, b_accept b' s = if s <? b_nextState b then b_accept b s else IsAccept other (s - b_nextState b);
  bc_edge : ∀ s c d, b_edge b' s c d ↔ b_edge b s c d ∨
    b_nextState b ≤ s ∧ edge other (s - b_nextState b) c (d - b_nextState b)
}.

Lemma BuilderCopyStates_spec other b :
  wf other → bwf b →
  runs (BuilderCopyStates other b) (fun b' => bwf b' ∧ b_nextState b' = b_nextState b + NumStates other ∧
    b_transitions b' = b_transitions b ∧
    ∀ s, b_accept b' s = if s <? b_nextState b then b_accept b s else IsAccept other (s - b_nextState b)).
Proof.
  intros WO W. pose proof (NumStates_pos _ WO) as HN.
  eapply runs_mono; [apply (runs_for_inv (fun i b' => bwf b' ∧ b_nextState b' = b_nextState b + i ∧
    b_transitions b' = b_transitions b ∧
    ∀ s, b_accept b' s = if s <? b_nextState b then b_accept b s
                         else (s - b_nextState b <? i) && IsAccept other (s - b_nextState b)))|].
  - split_and!; [done|lia|done|]. intros s. destruct (Z.ltb_spec s (b_nextState b)); [done|].
    destruct (b_accept b s) eqn:E; [apply (bwf_accept _ W) in E; lia|]. by rewrite (proj2 (Z.ltb_ge _ _)) by lia.
  - intros i b1 Hi (W1 & N1 & T1 & A1).
    destruct (BuilderCreateState_spec b1 W1) as (b2 & -> & W2 & N2 & T2 & A2).
    assert (Hstep : ∀ s v, s <? b_nextState b = false →
      (s - b_nextState b <? i + 1) && v = if decide (s = b_nextState b1) then v else (s - b_nextState b <? i) && v).
    { intros s v Hs%Z.ltb_ge. case_decide.
      - by rewrite (proj2 (Z.ltb_lt _ _)) by lia.
      - destruct (Z.ltb_spec (s - b_nextState b) (i + 1)), (Z.ltb_spec (s - b_nextState b) i); done || lia. }
    destruct (IsAccept other i) eqn:Ei.
    + destruct (BuilderSetAccept_spec (b_nextState b1) true b2 W2) as (b3 & -> & W3 & N3 & T3 & A3); [pose proof (bwf_states _ W); lia|].
      cbn. split_and!; [done|lia|congruence|]. intros s. rewrite A3, A2, A1.
      destruct (s <? b_nextState b) eqn:Hs; [rewrite decide_False; [done|apply Z.ltb_lt in Hs; lia]|].
      rewrite Hstep by done. case_decide as E; [|done]. rewrite E, N1, Z.add_simpl_l. done.
    + cbn. split_and!; [done|lia|congruence|]. intros s. rewrite A2, A1.
      destruct (s <? b_nextState b) eqn:Hs; [done|].
      rewrite Hstep by done. case_decide as E; [|done]. by rewrite E, N1, Z.add_simpl_l, Ei, andb_false_r.
  - intros b' (W' & N' & T' & A'). rewrite Z.add_0_l, Z2Nat.id in N', A' by lia. split_and!; try done.
    intros s. rewrite A'. destruct (s <? b_nextState b) eqn:Hs; [done|].
    destruct (IsAccept other (s - b_nextState b)) eqn:E; [|by rewrite andb_false_r].
    apply (wf_accept _ WO) in E. by rewrite (proj2 (Z.ltb_lt _ _)) by lia.
Qed.

Lemma BuilderCopy_spec other b :
  wf other → bwf b → runs (BuilderCopy other b) (bcopies b other).
Proof.
  intros WO W. pose proof (NumStates_pos _ WO) as HN. pose proof (bwf_states _ W) as HB. unfold BuilderCopy.
  eapply runs_step; [by apply BuilderCopyStates_spec|]. intros b1 (W1 & N1 & T1 & A1).
  set (n := b_nextState b) in *.
  assert (HE1 : ∀ s c d, b_edge b1 s c d ↔ b_edge b s c d) by (intros; unfold b_edge; by rewrite T1).
  eapply runs_mono; [apply (runs_for_inv (fun i b' => bwf b' ∧ b_nextState b' = n + NumStates other ∧
    (∀ s, b_accept b' s = b_accept b1 s) ∧
    ∀ s c d, b_edge b' s c d ↔ b_edge b s c d ∨ n ≤ s < n + i ∧ edge other (s - n) c (d - n)))|].
  - split_and!; try done. intros s c d. rewrite HE1. split; [by left|]. intros [?|[? _]]; [done|lia].
  - intros s b2 Hs (W2 & N2 & A2 & E2).
    rewrite (each_transition_fold other s _ (fun t b => mret (BuilderAddTransition (n + s) (n + dest_ t) (min_ t) (max_ t) b)))
      by (done || lia).
    eapply runs_mono; [apply (foldM_inv (fun k b' => bwf b' ∧ b_nextState b' = n + NumStates other ∧
      (∀ s, b_accept b' s = b_accept b1 s) ∧
      ∀ i c d, b_edge b' i c d ↔ b_edge b2 i c d ∨ i = n + s ∧ leads k c (d - n)))|].
    + split_and!; try done. intros i c d. rewrite leads_nil. tauto.
    + intros k t b3 Hp (W3 & N3 & A3 & E3). cbn [runs mret go_ret].
      assert (Ht : tr_ok (NumStates other) t).
      { pose proof (wf_ok _ WO s ltac:(lia)) as HF. rewrite Forall_forall in HF. apply HF.
        destruct Hp as [l ->]. set_solver. }
      destruct Ht as [Ht1 Ht2].
      destruct (BuilderAddTransition_spec (n + s) (n + dest_ t) (min_ t) (max_ t) b3 W3) as [W4 E4]; [cbn; lia|].
      split_and!; try done. intros i c d. rewrite E4, E3, leads_app, leads_one. unfold covers. split.
      * intros [[?|[? ?]]|(-> & -> & ?)]; [auto|auto|]. right. split; [done|]. right. split; [lia|done].
      * intros [?|[-> [?|[Ed ?]]]]; [auto|auto|]. right. split_and!; [done|lia|lia..].
    + intros b3 (W3 & N3 & A3 & E3). split_and!; try done. intros i c d. rewrite E3, E2. split.
      * intros [[?|[? ?]]|[-> ?]]; [auto|right; split; [lia|done]|right; split; [lia|]].
        unfold edge. by replace (n + s - n) with s by lia.
      * intros [?|[? He]]; [auto|]. destruct (decide (i = n + s)) as [->|]; [right|left; right; split; [lia|done]].
        split; [done|]. unfold edge in He. by replace (n + s - n) with s in He by lia.
  - intros b2 (W2 & N2 & A2 & E2). rewrite Z.add_0_l, Z2Nat.id in E2 by lia. split; try done.
    + intros s. by rewrite A2, A1.
    + intros s c d. rewrite E2. split; [intros [?|[? ?]]; auto; right; split; [lia|done]|].
      intros [?|[? He]]; [auto|]. right. split; [|done]. apply edge_dest in He; [lia|done|lia].
Qed.

(** ** [Finish] *)

Lemma quad_order_spec s d lo hi s' d' lo' hi' :
  quad_order (s, d, lo, hi) (s', d', lo', hi') ↔
  s < s' ∨ s = s' ∧ (lo < lo' ∨ lo = lo' ∧ (hi < hi' ∨ hi = hi' ∧ d ≤ d')).
Proof.
  unfold quad_order, quad_less.
  destruct (Z.eqb_spec s' s); cbn [negb]; [|rewrite Z.ltb_ge; lia].
  destruct (Z.eqb_spec lo' lo); cbn [negb]; [|rewrite Z.ltb_ge; lia].
  destruct (Z.eqb_spec hi' hi); cbn [negb]; rewrite Z.ltb_ge; lia.
Qed.

#[export] Instance quad_order_total : Total quad_order.
Proof. intros [[[s d] lo] hi] [[[s' d'] lo'] hi']. rewrite !quad_order_spec. lia. Qed.
#[export] Instance quad_order_trans : Transitive quad_order.
Proof. intros [[[s d] lo] hi] [[[s' d'] lo'] hi'] [[[s2 d2] lo2] hi2]. rewrite !quad_order_spec. lia. Qed.

Definition source_of (q : quad) : Z := q.1.1.1.

Lemma quad_order_source q r : quad_order q r → source_of q ≤ source_of r.
Proof. destruct q as [[[s d] lo] hi], r as [[[s' d'] lo'] hi']. rewrite quad_order_spec. cbn. lia. Qed.

(** The states of the automaton that [Finish] makes. *)
Lemma Finish_states b cap :
  bwf b → 0 ≤ cap →
  runs (go_for (Z.to_nat (b_nextState b)) 0 (fun s a =>
          '(_, a) ← CreateState a;
          accept ← BuilderIsAccept b s;
          if (accept : bool) then SetAccept s true a else mret a) (NewAutomatonWithCapacity (b_nextState b) cap))
    (fun a => good a ∧ NumStates a = b_nextState b ∧ (∀ s, IsAccept a s = b_accept b s) ∧
       (∀ s, 0 ≤ s → delta a s = []) ∧ (∀ s, 0 ≤ s < NumStates a → ¬ started a s)).
Proof.
  intros W Hcap. pose proof (bwf_states _ W) as HB. destruct (shows_empty (b_nextState b) cap) as [W0 N0 A0 E0 _ _ _].
  eapply runs_mono; [apply (runs_for_inv (fun i a => good a ∧ NumStates a = i ∧
    (∀ s, IsAccept a s = (s <? i) && b_accept b s) ∧
    (∀ s, 0 ≤ s → delta a s = []) ∧ (∀ s, 0 ≤ s < NumStates a → ¬ started a s)))|].
  - split_and!; [apply New_good|done| | |].
    + intros s. rewrite A0. cbn. destruct (Z.ltb_spec s 0); [|done]. unfold b_accept.
      by rewrite (proj2 (Z.leb_gt _ _)) by lia.
    + intros s Hs. apply delta_beyond; [done|]. by rewrite N0.
    + intros s Hs. rewrite N0 in Hs. cbn in Hs. lia.
  - intros s a Hs ([W1 C1] & N1 & A1 & D1 & S1).
    eapply runs_step; [by apply CreateState_spec|]. intros [i a2] (W2 & -> & N2 & D2 & A2 & S2 & C2 & _).
    rewrite BuilderIsAccept_spec, go_bind_ret by (apply W || lia).
    assert (Hst : ∀ i, 0 ≤ i < NumStates a2 → ¬ started a2 i).
    { intros i Hi. rewrite S2 by lia. intros [Hst Hne]. apply (S1 i); [lia|done]. }
    destruct (b_accept b s) eqn:Eb.
    + destruct (SetAccept_spec s true a2 W2) as (a3 & -> & W3 & SB & A3); [lia|]. cbn.
      destruct (same_but_accept_view _ _ SB) as (N3 & D3 & P3). split_and!.
      * split; [done|]. rewrite (sb_curState _ _ SB). congruence.
      * lia.
      * intros i. rewrite A3, A2, A1. case_decide as E; [subst i; by rewrite Eb, (proj2 (Z.ltb_lt _ _)) by lia|].
        destruct (Z.ltb_spec i s), (Z.ltb_spec i (s + 1)); done || lia.
      * intros i Hi. rewrite D3, D2 by done. by apply D1.
      * intros i Hi. unfold started. rewrite P3. apply Hst. lia.
    + cbn. split_and!; [split; [done|congruence]|lia| | |done].
      * intros i. rewrite A2, A1. destruct (decide (i = s)) as [->|]; [by rewrite Eb, !andb_false_r|].
        destruct (Z.ltb_spec i s), (Z.ltb_spec i (s + 1)); done || lia.
      * intros i Hi. rewrite D2 by done. by apply D1.
  - intros a (G & N1 & A1 & D1 & S1). rewrite Z.add_0_l, Z2Nat.id in N1, A1 by done. split_and!; try done.
    intros s. rewrite A1. destruct (b_accept b s) eqn:E; [|apply andb_false_r].
    apply (bwf_accept _ W) in E. by rewrite (proj2 (Z.ltb_lt _ _)).
Qed.

(** Adding transitions in the order of their sources. *)
Lemma add_sorted l a :
  good a → (∀ s, 0 ≤ s < NumStates a → ¬ started a s) → Forall (quad_ok (NumStates a)) l →
  StronglySorted quad_order l →
  runs (foldM (fun '(s, d, lo, hi) a => AddTransition s d lo hi a) l a) (fun a' =>
    wf a' ∧ NumStates a' = NumStates a ∧ (∀ s, IsAccept a' s = IsAccept a s) ∧
    (∀ i, 0 ≤ i < NumStates a → started a' i → ∃ q, q ∈ l ∧ source_of q = i) ∧
    ∀ s c d, 0 ≤ s → edge a' s c d ↔ edge a s c d ∨ ∃ lo hi, (s, d, lo, hi) ∈ l ∧ lo ≤ c ≤ hi).
Proof.
  intros [W Hc] HS HQ HO. rewrite Forall_forall in HQ.
  eapply runs_mono; [apply (foldM_inv (fun k a' =>
    wf a' ∧ NumStates a' = NumStates a ∧ (∀ s, IsAccept a' s = IsAccept a s) ∧
    (∀ i, 0 ≤ i < NumStates a → started a' i → ∃ q, q ∈ k ∧ source_of q = i) ∧
    (k = [] ∨ ∃ k' q, k = k' ++ [q] ∧ curState a' = source_of q) ∧
    ∀ s c d, 0 ≤ s → edge a' s c d ↔ edge a s c d ∨ ∃ lo hi, (s, d, lo, hi) ∈ k ∧ lo ≤ c ≤ hi))|].
  - split_and!; try done.
    + intros i Hi Hst. by apply HS in Hst.
    + by left.
    + intros s c d _. split; [by left|]. by intros [?|(? & ? & ?%elem_of_nil & _)].
  - intros k [[[s d] lo] hi] a1 [l' ->] (W1 & N1 & A1 & S1 & C1 & E1).
    specialize (HQ (s, d, lo, hi) ltac:(set_solver)). cbn in HQ.
    rewrite <- app_assoc in HO. cbn in HO.
    assert (Hle : ∀ q, q ∈ k → quad_order q (s, d, lo, hi)).
    { intros q Hq. apply (StronglySorted_app_1_elem_of _ k ((s, d, lo, hi) :: l')); [done|done|by left]. }
    eapply runs_mono; [apply AddTransition_spec; rewrite ?N1; try lia; [done|]|].
    + destruct (decide (curState a1 = s)) as [|Hne]; [by left|right]. intros Hst.
      destruct (S1 s ltac:(lia) Hst) as (q & Hq & Hqs).
      destruct C1 as [->|(k' & r & -> & Cr)]; [by apply elem_of_nil in Hq|].
      apply Hne. rewrite Cr. assert (Hr : source_of r ≤ s).
      { apply (quad_order_source r (s, d, lo, hi)), Hle. set_solver. }
      assert (Hqr : source_of q ≤ source_of r).
      { apply elem_of_app in Hq as [Hq| ->%list_elem_of_singleton]; [|done]. apply quad_order_source.
        apply StronglySorted_app_1_l, StronglySorted_snoc in HO as [_ HF]. rewrite Forall_forall in HF. by apply HF. }
      lia.
    + intros a2 HA. split_and!.
      * apply HA.
      * by rewrite (ad_NumStates _ _ _ _ _ _ HA).
      * intros i. by rewrite (ad_IsAccept _ _ _ _ _ _ HA).
      * intros i Hi. rewrite (ad_started _ _ _ _ _ _ HA) by lia. intros [Hst| ->].
        { destruct (S1 i Hi Hst) as (q & ? & ?). exists q. split; [set_solver|done]. }
        exists (s, d, lo, hi). split; [set_solver|done].
      * right. exists k, (s, d, lo, hi). split; [done|]. apply HA.
      * intros i c e Hi. rewrite (ad_edge _ _ _ _ _ _ HA), E1 by done.
        setoid_rewrite elem_of_app. setoid_rewrite list_elem_of_singleton. split.
        { intros [[?|(x & y & ? & ?)]|(-> & -> & ?)]; [by left|right; by exists x, y; auto|right; by exists lo, hi; auto]. }
        { intros [?|(x & y & [?|[= -> -> -> ->]] & ?)]; [auto|left; right; eauto|by right]. }
  - intros a' (W' & N' & A' & S' & _ & E'). done.
Qed.

(** Only the states with a transition have been started. *)
Lemma Finish_started b :
  bwf b →
  runs (Finish b) (fun a => (good a ∧ NumStates a = b_nextState b ∧ (∀ s, IsAccept a s = b_accept b s) ∧
    ∀ s c d, 0 ≤ s → edge a s c d ↔ b_edge b s c d) ∧
    ∀ s, 0 ≤ s < NumStates a → started a s → ∃ c d, edge a s c d).
Proof.
  intros W. unfold Finish. eapply runs_step; [apply Finish_states; [done|lia]|].
  intros a (G & N1 & A1 & D1 & S1). cbn zeta.
  assert (Hend : ∀ a', wf a' → NumStates a' = NumStates a → (∀ s, IsAccept a' s = IsAccept a s) →
    (∀ s c d, 0 ≤ s → edge a' s c d ↔ b_edge b s c d) → (∀ s, 0 ≤ s < NumStates a → started a' s → ∃ c d, b_edge b s c d) →
    runs (FinishState a') (fun a => (good a ∧ NumStates a = b_nextState b ∧ (∀ s, IsAccept a s = b_accept b s) ∧
      ∀ s c d, 0 ≤ s → edge a s c d ↔ b_edge b s c d) ∧ ∀ s, 0 ≤ s < NumStates a → started a s → ∃ c d, edge a s c d)).
  { intros a' W' N' A' E' S'. destruct (FinishState_spec a' W') as (a2 & -> & W2 & C2 & N2 & A2 & E2 & S2).
    cbn. split; [split_and!; [by split|congruence| |]|].
    - intros s. by rewrite A2, A', A1.
    - intros s c d Hs. by rewrite E2, E'.
    - intros s Hs Hst. destruct (S' s ltac:(lia) (proj1 (S2 s ltac:(lia)) Hst)) as (c & d & He).
      exists c, d. rewrite E2, E' by lia. done. }
  assert (HE0 : ∀ s c d, 0 ≤ s → ¬ edge a s c d).
  { intros s c d Hs He. unfold edge in He. rewrite D1 in He by done. by apply leads_nil in He. }
  destruct (Z.eqb_spec (Z.of_nat (length (b_transitions b))) 0) as [E0|E0].
  - apply Hend; [apply G|done|done| |intros s Hs Hst; by apply S1 in Hst]. intros s c d Hs. split; [by intros ?%HE0|].
    destruct (b_transitions b) as [|] eqn:Et; [|cbn in E0; lia].
    unfold b_edge. rewrite Et. by intros (? & ? & ?%elem_of_nil & _).
  - eapply runs_step; [apply add_sorted; [done|done| |apply StronglySorted_merge_sort; apply _]|].
    + rewrite merge_sort_Permutation, N1. apply W.
    + intros a' (W' & N' & A' & S' & E'). apply Hend; [done|done|done| |].
      * intros s c d Hs. rewrite E' by done. unfold b_edge. setoid_rewrite (merge_sort_Permutation quad_order).
        split; [intros [?%HE0|?]; done|by right].
      * intros s Hs Hst. destruct (S' s Hs Hst) as ([[[s' d] lo] hi] & Hq & Es). rewrite merge_sort_Permutation in Hq.
        pose proof (bwf_quads _ W) as HQ. rewrite Forall_forall in HQ. specialize (HQ _ Hq). cbn in Es, HQ. subst s'.
        exists lo, d, lo, hi. split; [done|lia].
Qed.

Lemma Finish_spec b :
  bwf b →
  runs (Finish b) (fun a => good a ∧ NumStates a = b_nextState b ∧ (∀ s, IsAccept a s = b_accept b s) ∧
    ∀ s c d, 0 ≤ s → edge a s c d ↔ b_edge b s c d).
Proof. intros W. eapply runs_mono; [by apply Finish_started|]. by intros a [? _]. Qed.
