(* ===== verification/PointSets.v ===== *)
(** The data of the determinization in [util/automaton/operations.go]: the transitions
    grouped by the labels where they begin and end ([pointTransitionSet]), and a set of
    states that counts its members ([refCountSet]).

    A [*pointTransitions] is an index into the list [objects]: the slice of points and
    the hash map share the objects they point to, and objects are used again after a
    [reset]. *)

From stdpp Require Import base tactics numbers list gmap sorting.
From Stdlib Require Import ZArith Lia.
From S2P Require Import Prelude WordBits Nfa Automaton.

Local Open Scope Z_scope.

(** * Transitions by points *)

Record transitionList := { data : list Z; tl_next : Z }.

Definition emptyList : transitionList := {| data := []; tl_next := 0 |}.

(** [append] sees to the room; the growth before it leaves the cells as they are. *)
Definition tl_add (t : tr) (l : transitionList) : transitionList :=
  {| data := data l ++ [dest_ t; min_ t; max_ t]; tl_next := tl_next l + 3 |}.

Definition tl_clear (l : transitionList) : transitionList := {| data := data l; tl_next := 0 |}.

Record pointTransitions := { point : Z; ends : transitionList; starts : transitionList }.

Definition newPointTransitions (p : Z) : pointTransitions := {| point := p; ends := emptyList; starts := emptyList |}.

(** [ends.data[:0]] is empty. *)
Definition pt_reset (p : Z) (pt : pointTransitions) : pointTransitions :=
  {| point := p; ends := emptyList; starts := emptyList |}.

Definition set_starts (f : transitionList → transitionList) (pt : pointTransitions) : pointTransitions :=
  {| point := point pt; ends := ends pt; starts := f (starts pt) |}.
Definition set_ends (f : transitionList → transitionList) (pt : pointTransitions) : pointTransitions :=
  {| point := point pt; ends := f (ends pt); starts := starts pt |}.

Record pointTransitionSet := {
  count : Z;
  points : list nat;
  useHash : bool;
  pointMap : gmap Z nat;
  objects : list pointTransitions
}.

Definition pointTransitionHashCutover : Z := 30.

Definition newPointTransitionSet : pointTransitionSet :=
  {| count := 0; points := []; useHash := false; pointMap := ∅; objects := [] |}.

Definition deref (s : pointTransitionSet) (o : nat) : AM pointTransitions :=
  match objects s !! o with Some pt => mret pt | None => Panic end.

(** [o.field = ...] through the pointer. *)
Definition update (o : nat) (f : pointTransitions → pointTransitions) (s : pointTransitionSet) : pointTransitionSet :=
  {| count := count s; points := points s; useHash := useHash s; pointMap := pointMap s;
     objects := alter f o (objects s) |}.

Definition set_pointMap (m : gmap Z nat) (s : pointTransitionSet) : pointTransitionSet :=
  {| count := count s; points := points s; useHash := useHash s; pointMap := m; objects := objects s |}.

Definition set_useHash (b : bool) (s : pointTransitionSet) : pointTransitionSet :=
  {| count := count s; points := points s; useHash := b; pointMap := pointMap s; objects := objects s |}.

Definition set_points (ps : list nat) (s : pointTransitionSet) : pointTransitionSet :=
  {| count := count s; points := ps; useHash := useHash s; pointMap := pointMap s; objects := objects s |}.

(** [next]: no element of the slice is nil. *)
Definition next (p : Z) (s : pointTransitionSet) : AM (nat * pointTransitionSet) :=
  if count s =? Z.of_nat (length (points s)) then
    let o := length (objects s) in
    mret (o, {| count := count s + 1; points := points s ++ [o]; useHash := useHash s; pointMap := pointMap s;
                objects := objects s ++ [newPointTransitions p] |})
  else
    o ← aget (points s) (count s);
    _ ← deref s o;
    mret (o, {| count := count s + 1; points := points s; useHash := useHash s; pointMap := pointMap s;
                objects := alter (pt_reset p) o (objects s) |}).

(** The search from index [i], among the [n] points that are left. *)
Fixpoint find_from (n : nat) (i p : Z) (s : pointTransitionSet) : AM (option nat) :=
  match n with
  | O => mret None
  | S n =>
      o ← aget (points s) i;
      pt ← deref s o;
      if point pt =? p then mret (Some o) else find_from n (i + 1) p s
  end.

Definition find (p : Z) (s : pointTransitionSet) : AM (nat * pointTransitionSet) :=
  if useHash s then
    match pointMap s !! p with
    | Some o => mret (o, s)
    | None => '(o, s) ← next p s; mret (o, set_pointMap (<[p := o]> (pointMap s)) s)
    end
  else
    r ← find_from (Z.to_nat (count s)) 0 p s;
    match r with
    | Some o => mret (o, s)
    | None =>
        '(o, s) ← next p s;
        if count s =? pointTransitionHashCutover then
          m ← go_for (Z.to_nat (count s)) 0 (fun i m =>
            o ← aget (points s) i; pt ← deref s o; mret (<[point pt := o]> m)) (pointMap s);
          mret (o, set_useHash true (set_pointMap m s))
        else mret (o, s)
    end.

Definition add (t : tr) (s : pointTransitionSet) : AM pointTransitionSet :=
  '(o, s) ← find (min_ t) s;
  let s := update o (set_starts (tl_add t)) s in
  '(o, s) ← find (max_ t + 1) s;
  mret (update o (set_ends (tl_add t)) s).

(** The label of a point. *)
Definition key (s : pointTransitionSet) (o : nat) : Z :=
  match objects s !! o with Some pt => point pt | None => 0 end.

Definition key_order (s : pointTransitionSet) (o o' : nat) : Prop := key s o ≤ key s o'.

#[export] Instance key_order_dec s : RelDecision (key_order s) := fun o o' => decide (key s o ≤ key s o').

(** [sort.Slice] on the first [count] points, which have different labels. *)
Definition sort (s : pointTransitionSet) : pointTransitionSet :=
  let n := Z.to_nat (count s) in
  set_points (merge_sort (key_order s) (take n (points s)) ++ drop n (points s)) s.

Definition reset (s : pointTransitionSet) : pointTransitionSet :=
  if useHash s then {| count := 0; points := points s; useHash := false; pointMap := ∅; objects := objects s |}
  else {| count := 0; points := points s; useHash := false; pointMap := pointMap s; objects := objects s |}.

(** * Counting states *)

Record refCountSet := { counts : gmap Z Z; cache : list Z; dirty : bool }.

Definition newRefCountSet : refCountSet := {| counts := ∅; cache := []; dirty := false |}.

Definition incr (state : Z) (r : refCountSet) : refCountSet :=
  {| counts := <[state := default 0 (counts r !! state) + 1]> (counts r); cache := cache r; dirty := true |}.

Definition decr (state : Z) (r : refCountSet) : refCountSet :=
  let n := default 0 (counts r !! state) - 1 in
  if n =? 0 then {| counts := delete state (counts r); cache := cache r; dirty := true |}
  else {| counts := <[state := n]> (counts r); cache := cache r; dirty := dirty r |}.

Definition rc_size (r : refCountSet) : Z := Z.of_nat (size (counts r)).

Definition values (r : refCountSet) : list Z * refCountSet :=
  if negb (dirty r) then (cache r, r) else
  let out := merge_sort Z.le (map_to_list (counts r)).*1 in
  (out, {| counts := counts r; cache := out; dirty := false |}).

Definition rc_reset (r : refCountSet) : refCountSet := newRefCountSet.

(** Thirty-five transitions that begin at 0, 2, 4, ...: the points are found by the
    hash map from the thirtieth on. *)
Example points_run :
  (s ← foldM (fun i s => add (i, 2 * i, 2 * i) s) (rev (seqZ 0 35)) newPointTransitionSet;
   s' ← foldM (fun i s => add (i, 2 * i, 2 * i + 1) s) [3; 1; 3] (reset (sort s));
   let s' := sort s' in
   mret (count s, useHash s, size (pointMap s), key (sort s) <$> take 5 (points (sort s)),
         useHash s', key s' <$> take (Z.to_nat (count s')) (points s')))
  = Ret (70, true, 70%nat, [0; 1; 2; 3; 4], false, [2; 4; 6; 8]).
Proof. vm_compute. reflexivity. Qed.

(** * What the points hold *)

Definition active (s : pointTransitionSet) : list nat := take (Z.to_nat (count s)) (points s).

Definition keys (s : pointTransitionSet) : list Z := key s <$> active s.

Definition cells (l : list tr) : transitionList := {| data := flat l; tl_next := 3 * Z.of_nat (length l) |}.

Lemma StronglySorted_at {A} (R : A → A → Prop) l : StronglySorted R l → ∀ (i j : nat) x y,
  (i < j)%nat → l !! i = Some x → l !! j = Some y → R x y.
Proof.
  intros HS. induction HS as [|z l _ IH HF]; intros [|i] [|j] x y Hij Hi Hj; try done; try lia.
  - cbn in Hi, Hj. injection Hi as ->. rewrite Forall_forall in HF. by eapply HF, list_elem_of_lookup_2.
  - apply (IH i j); [lia|done..].
Qed.

(** The pointers are apart and point somewhere. *)
Record pts_wf (s : pointTransitionSet) : Prop := {
  pw_count : 0 ≤ count s ≤ Z.of_nat (length (points s));
  pw_nodup : NoDup (points s);
  pw_objects : Forall (fun o => (o < length (objects s))%nat) (points s);
  pw_nohash : useHash s = false → pointMap s = ∅
}.

(** [S] are the transitions that were put where they begin, [E] those where they end. *)
Record holds (S E : list tr) (s : pointTransitionSet) : Prop := {
  ho_wf : pts_wf s;
  ho_object : ∀ o, o ∈ active s → ∃ pt, objects s !! o = Some pt ∧
    starts pt = cells (filter (fun t => min_ t = point pt) S) ∧
    ends pt = cells (filter (fun t => max_ t + 1 = point pt) E);
  ho_keys : NoDup (keys s);
  ho_labels : ∀ q, q ∈ keys s → 0 ≤ q;
  ho_starts : ∀ t, t ∈ S → min_ t ∈ keys s;
  ho_ends : ∀ t, t ∈ E → max_ t + 1 ∈ keys s;
  ho_hash : useHash s = true → ∀ p o, pointMap s !! p = Some o ↔ o ∈ active s ∧ key s o = p
}.

Lemma cells_snoc l t : tl_add t (cells l) = cells (l ++ [t]).
Proof.
  unfold tl_add, cells. rewrite flat_app. destruct t as [[d lo] hi]. cbn. f_equal. rewrite length_app. cbn. lia.
Qed.

Lemma filter_snoc {A} (P : A → Prop) `{!∀ x, Decision (P x)} (l : list A) x :
  filter P (l ++ [x]) = filter P l ++ (if decide (P x) then [x] else []).
Proof. rewrite filter_app, filter_cons, filter_nil. by case_decide. Qed.

Lemma filter_nothing {A} (P : A → Prop) `{!∀ x, Decision (P x)} (l : list A) : (∀ x, x ∈ l → ¬ P x) → filter P l = [].
Proof.
  induction l as [|x l IH]; intros HN; [done|]. rewrite filter_cons_False by (apply HN; left).
  apply IH. intros y Hy. apply HN. by right.
Qed.

Lemma active_points s o : o ∈ active s → o ∈ points s.
Proof. intros H. by apply (subseteq_take (Z.to_nat (count s)) (points s)). Qed.

Lemma active_deref s o : pts_wf s → o ∈ active s → ∃ pt, objects s !! o = Some pt ∧ deref s o = Ret pt ∧ key s o = point pt.
Proof.
  intros W Ho%active_points. pose proof (pw_objects _ W) as HF. rewrite Forall_forall in HF.
  destruct (lookup_lt_is_Some_2 (objects s) o (HF o Ho)) as [pt E]. exists pt. unfold deref, key. by rewrite E.
Qed.

Lemma active_lookup s i : pts_wf s → 0 ≤ i < count s → ∃ o, aget (E := autoerr) (points s) i = Ret o ∧ active s !! Z.to_nat i = Some o.
Proof.
  intros W Hi. pose proof (pw_count _ W). destruct (aget_ex (E := autoerr) (points s) i) as (o & Ho & Hl); [lia|].
  exists o. split; [done|]. unfold active. rewrite lookup_take_lt by lia. done.
Qed.

Lemma length_active s : pts_wf s → Z.of_nat (length (active s)) = count s.
Proof. intros W. pose proof (pw_count _ W). unfold active. rewrite length_take. lia. Qed.

Lemma NoDup_active s : pts_wf s → NoDup (active s).
Proof. intros W. eapply sublist_NoDup; [apply W|apply sublist_take]. Qed.

(** A new object, or one that is used again. *)
Lemma next_point_spec S E s p :
  holds S E s → p ∉ keys s →
  ∃ o s', next p s = Ret (o, s') ∧ pts_wf s' ∧ count s' = count s + 1 ∧ useHash s' = useHash s ∧ pointMap s' = pointMap s ∧
    active s' = active s ++ [o] ∧ (∀ o', o' ∈ active s → objects s' !! o' = objects s !! o') ∧
    objects s' !! o = Some (newPointTransitions p).
Proof.
  intros H Hp. pose proof (ho_wf _ _ _ H) as W. pose proof (pw_count _ W) as HC. pose proof (pw_objects _ W) as HO.
  rewrite Forall_forall in HO. unfold next. destruct (Z.eqb_spec (count s) (Z.of_nat (length (points s)))) as [Ec|Ec].
  - assert (EA : active s = points s) by (unfold active; apply take_ge; lia).
    do 2 eexists. split; [reflexivity|]. split_and!; try done.
    + split; cbn; [rewrite length_app; cbn; lia| | |apply W].
      * apply NoDup_app. split_and!; [apply W| |by apply NoDup_singleton].
        intros o Ho ->%list_elem_of_singleton. specialize (HO _ Ho). lia.
      * apply Forall_app_2; [|apply Forall_singleton; rewrite length_app; cbn; lia].
        apply Forall_forall. intros o Ho%HO. rewrite length_app. lia.
    + rewrite EA. unfold active. cbn. apply take_ge. rewrite length_app. cbn. lia.
    + intros o Ho%active_points%HO. cbn. by rewrite lookup_app_l.
    + cbn. rewrite lookup_app_r, Nat.sub_diag by lia. done.
  - destruct (aget_ex (E := autoerr) (points s) (count s)) as (o & -> & Ho); [lia|]. rewrite go_bind_ret.
    assert (Hin : o ∈ points s) by (by eapply list_elem_of_lookup_2).
    destruct (lookup_lt_is_Some_2 (objects s) o (HO o Hin)) as [pt Hpt].
    assert (Hna : o ∉ active s).
    { unfold active. intros (j & Hj)%list_elem_of_lookup. apply lookup_take_Some in Hj as [Hj Hlt].
      pose proof (NoDup_lookup _ _ _ _ (pw_nodup _ W) Ho Hj). lia. }
    unfold deref. rewrite Hpt, go_bind_mret. do 2 eexists. split; [reflexivity|]. split_and!; try done.
    + split; cbn; [lia|apply W| |apply W]. rewrite length_alter. apply W.
    + unfold active. cbn. rewrite Z2Nat.inj_add by lia. rewrite Nat.add_1_r. by apply take_S_r.
    + intros o' Ho'. cbn. rewrite list_lookup_alter_ne; [done|]. by intros ->.
    + cbn. by rewrite list_lookup_alter_eq, Hpt.
Qed.

Lemma key_lookup s o pt : objects s !! o = Some pt → key s o = point pt.
Proof. unfold key. by intros ->. Qed.

(** The points after [next], with what [find] does to the hash map. *)
Lemma next_holds S E s p o s' h m :
  holds S E s → p ∉ keys s → 0 ≤ p →
  pts_wf s' → active s' = active s ++ [o] → (∀ o', o' ∈ active s → objects s' !! o' = objects s !! o') →
  objects s' !! o = Some (newPointTransitions p) →
  (h = false → m = ∅) →
  (h = true → ∀ q o', m !! q = Some o' ↔ o' ∈ active s' ∧ key s' o' = q) →
  holds S E (set_useHash h (set_pointMap m s')) ∧ o ∈ active s' ∧ key s' o = p.
Proof.
  intros [W H1 H2 HL H3 H4 _] Hp Hp0 W' EA HO Ho Hh Hm.
  assert (Hk : ∀ o', o' ∈ active s → key s' o' = key s o') by (intros o' Ho'; unfold key; by rewrite HO).
  assert (EK : keys (set_useHash h (set_pointMap m s')) = keys s ++ [p]).
  { change (keys (set_useHash h (set_pointMap m s'))) with (key s' <$> active s').
    rewrite EA, fmap_app. change (key s' <$> [o]) with [key s' o]. rewrite (key_lookup _ _ _ Ho). f_equal.
    apply list_fmap_ext. intros i o' Ho'%list_elem_of_lookup_2. by apply Hk. }
  split_and!; [|rewrite EA; set_solver|by rewrite (key_lookup _ _ _ Ho)].
  split; cbn [objects set_useHash set_pointMap pointMap useHash].
  - destruct W'. by split.
  - intros o'. change (active (set_useHash h (set_pointMap m s'))) with (active s'). rewrite EA.
    intros [Ho'| ->%list_elem_of_singleton]%elem_of_app.
    + destruct (H1 o' Ho') as (pt & Hpt & ?). exists pt. by rewrite HO.
    + exists (newPointTransitions p). split; [done|]. cbn.
      rewrite !filter_nothing; [done| |].
      * intros t Ht%H4 Heq. cbn in Heq. by rewrite Heq in Ht.
      * intros t Ht%H3 Heq. cbn in Heq. by rewrite Heq in Ht.
  - rewrite EK. apply NoDup_app. split_and!; [done| |by apply NoDup_singleton]. by intros q Hq ->%list_elem_of_singleton.
  - intros q. rewrite EK, elem_of_app, list_elem_of_singleton. intros [?| ->]; [by apply HL|done].
  - intros t Ht. rewrite EK. apply elem_of_app. left. by apply H3.
  - intros t Ht. rewrite EK. apply elem_of_app. left. by apply H4.
  - done.
Qed.

Lemma find_from_spec s p n : ∀ i : nat,
  pts_wf s → (i + n = Z.to_nat (count s))%nat →
  (∃ o, find_from n (Z.of_nat i) p s = Ret (Some o) ∧ o ∈ active s ∧ key s o = p) ∨
  find_from n (Z.of_nat i) p s = Ret None ∧ ∀ o, o ∈ drop i (active s) → key s o ≠ p.
Proof.
  induction n as [|n IH]; intros i W Hi; cbn [find_from].
  - right. split; [done|]. rewrite drop_ge; [by intros ? ?%elem_of_nil|]. pose proof (length_active s W). lia.
  - destruct (active_lookup s (Z.of_nat i) W) as (o & -> & Ho); [lia|]. rewrite Nat2Z.id in Ho. rewrite go_bind_ret.
    destruct (active_deref s o W) as (pt & _ & -> & Hk); [by eapply list_elem_of_lookup_2|].
    rewrite !go_bind_ret. destruct (Z.eqb_spec (point pt) p) as [Ep|Ep].
    + left. exists o. split_and!; [done|by eapply list_elem_of_lookup_2|congruence].
    + replace (Z.of_nat i + 1) with (Z.of_nat (S i)) by lia.
      destruct (IH (S i)) as [?|[-> Hn]]; [done|lia|by left|]. right. split; [done|].
      rewrite (drop_S _ _ _ Ho). intros o' [->|Ho']%elem_of_cons; [congruence|by apply Hn].
Qed.

(** The map that is filled at the cutover. *)
Lemma fill_spec s n : ∀ (i : nat) (m : gmap Z nat),
  pts_wf s → NoDup (keys s) → (i + n = Z.to_nat (count s))%nat →
  (∀ q o, m !! q = Some o ↔ o ∈ take i (active s) ∧ key s o = q) →
  ∃ m' : gmap Z nat, go_for n (Z.of_nat i) (fun i m => o ← aget (points s) i; pt ← deref s o; mret (<[point pt := o]> m)) m = @Ret autoerr _ m' ∧
    ∀ q o, m' !! q = Some o ↔ o ∈ active s ∧ key s o = q.
Proof.
  induction n as [|n IH]; intros i m W HN Hi Hm; cbn [go_for].
  - exists m. split; [done|]. intros q o. rewrite Hm, take_ge; [done|]. pose proof (length_active s W). lia.
  - destruct (active_lookup s (Z.of_nat i) W) as (o & -> & Ho); [lia|]. rewrite Nat2Z.id in Ho. rewrite go_bind_ret.
    destruct (active_deref s o W) as (pt & _ & -> & Hk); [by eapply list_elem_of_lookup_2|].
    rewrite !go_bind_ret. cbn [mret go_ret mbind go_bind]. replace (Z.of_nat i + 1) with (Z.of_nat (S i)) by lia.
    apply IH; [done|done|lia|]. intros q o'. rewrite (take_S_r _ _ _ Ho), elem_of_app, list_elem_of_singleton.
    destruct (decide (point pt = q)) as [<-|Hne].
    + rewrite lookup_insert_eq. split; [intros [= <-]; auto|]. intros [[Hin| ->] Hk']; [|done]. f_equal.
      apply list_elem_of_lookup in Hin as (j & Hj). apply lookup_take_Some in Hj as [Hj Hlt].
      assert (E : i = j); [|subst; congruence]. apply (NoDup_lookup (keys s) i j (point pt) HN); unfold keys;
        rewrite list_lookup_fmap; [by rewrite Ho; cbn; rewrite Hk|by rewrite Hj; cbn; rewrite Hk'].
    + rewrite lookup_insert_ne by done. rewrite Hm. split; [tauto|]. intros [[?| ->] ?]; [done|congruence].
Qed.

Lemma find_spec S E s p :
  holds S E s → 0 ≤ p → ∃ o s', find p s = Ret (o, s') ∧ holds S E s' ∧ o ∈ active s' ∧ key s' o = p.
Proof.
  intros H Hp0. pose proof (ho_wf _ _ _ H) as W. unfold find. destruct (useHash s) eqn:Eh.
  - pose proof (ho_hash _ _ _ H Eh) as HM. destruct (pointMap s !! p) as [o|] eqn:Em.
    + exists o, s. split_and!; [done|done|by apply HM in Em as []..].
    + assert (Hp : p ∉ keys s).
      { intros (o & -> & Ho)%list_elem_of_fmap. by rewrite (proj2 (HM (key s o) o)) in Em by done. }
      destruct (next_point_spec S E s p H Hp) as (o & s' & -> & W' & Ec & Eu & Emap & EA & HO & Ho). rewrite go_bind_ret.
      do 2 eexists. split; [done|].
      destruct (next_holds S E s p o s' true (<[p:=o]> (pointMap s')) H Hp Hp0 W' EA HO Ho) as (HH & ? & ?); [done| |].
      * intros _ q o'. rewrite EA, elem_of_app, list_elem_of_singleton, Emap.
        destruct (decide (p = q)) as [<-|Hne].
        -- rewrite lookup_insert_eq. split; [intros [= <-]; split; [by right|by apply key_lookup in Ho]|].
           intros [[Hin| ->] Hk]; [|done]. exfalso. apply Hp. rewrite <- Hk. unfold key. rewrite HO by done.
           by apply list_elem_of_fmap_2 with (f := key s).
        -- rewrite lookup_insert_ne, HM by done. split.
           ++ intros [Hin Hk]. split; [by left|]. rewrite <- Hk. unfold key. by rewrite HO.
           ++ intros [[Hin| ->] Hk]; [|by apply key_lookup in Ho; cbn in Ho; congruence].
              split; [done|]. rewrite <- Hk. unfold key. by rewrite HO.
      * split_and!; [|done|done]. replace (set_pointMap _ s') with (set_useHash true (set_pointMap (<[p:=o]> (pointMap s')) s')); [done|].
        unfold set_useHash, set_pointMap. cbn. congruence.
  - pose proof (pw_count _ W) as HC. destruct (find_from_spec s p (Z.to_nat (count s)) 0 W) as [(o & E1 & Ho & Hk)|[E1 Hn]]; [lia| |].
    + change (Z.of_nat 0) with 0 in E1. rewrite E1, go_bind_ret. by exists o, s.
    + change (Z.of_nat 0) with 0 in E1. rewrite E1, go_bind_ret. rewrite drop_0 in Hn.
      assert (Hp : p ∉ keys s) by (intros (o & -> & Ho)%list_elem_of_fmap; by apply (Hn o)).
      destruct (next_point_spec S E s p H Hp) as (o & s' & -> & W' & Ec & Eu & Emap & EA & HO & Ho). rewrite go_bind_ret.
      rewrite (pw_nohash _ W Eh) in Emap.
      destruct (next_holds S E s p o s' false ∅ H Hp Hp0 W' EA HO Ho) as (HH & Ho1 & Hk1); [done..|].
      destruct (count s' =? pointTransitionHashCutover).
      * destruct (fill_spec s' (Z.to_nat (count s')) 0 (pointMap s') W') as (m & E2 & Hm); [apply HH|done| |].
        { intros q o'. rewrite Emap, lookup_empty, take_0. split; [done|]. by intros [?%elem_of_nil _]. }
        change (Z.of_nat 0) with 0 in E2. rewrite E2, go_bind_ret. do 2 eexists. split; [done|].
        destruct (next_holds S E s p o s' true m H Hp Hp0 W' EA HO Ho) as (HH2 & ? & ?); done.
      * do 2 eexists. split; [done|]. split_and!; [|done|done].
        replace s' with (set_useHash false (set_pointMap ∅ s')); [done|].
        destruct s'. unfold set_useHash, set_pointMap. cbn in Emap, Eu |- *. by rewrite Emap, Eu, Eh.
Qed.

(** Writing to the object of a point. *)
Lemma update_holds S E S' E' s o f p :
  holds S E s → o ∈ active s → key s o = p →
  (∀ pt, point (f pt) = point pt) →
  (∀ pt, point pt = p → starts pt = cells (filter (fun t => min_ t = p) S) → ends pt = cells (filter (fun t => max_ t + 1 = p) E) →
     starts (f pt) = cells (filter (fun t => min_ t = p) S') ∧ ends (f pt) = cells (filter (fun t => max_ t + 1 = p) E')) →
  (∀ q, q ≠ p → filter (fun t => min_ t = q) S' = filter (fun t => min_ t = q) S ∧
                filter (fun t => max_ t + 1 = q) E' = filter (fun t => max_ t + 1 = q) E) →
  (∀ t, t ∈ S' → t ∈ S ∨ min_ t = p) → (∀ t, t ∈ E' → t ∈ E ∨ max_ t + 1 = p) →
  holds S' E' (update o f s).
Proof.
  intros [W H1 H2 HL H3 H4 H5] Ho Hk Hf Hupd Hne HS HE.
  assert (Hkey : ∀ o', key (update o f s) o' = key s o').
  { intros o'. unfold key. cbn. rewrite list_lookup_alter. case_decide as E0; [subst|done].
    destruct (objects s !! o'); [by cbn; rewrite Hf|done]. }
  assert (EK : keys (update o f s) = keys s) by (apply list_fmap_ext; intros; apply Hkey).
  assert (Hp : p ∈ keys s) by (rewrite <- Hk; by apply list_elem_of_fmap_2).
  split.
  - destruct W as [W1 W2 W3 W4]. split; try done. cbn. by rewrite length_alter.
  - intros o' Ho'. change (active (update o f s)) with (active s) in Ho'. cbn [objects update]. rewrite list_lookup_alter. destruct (H1 o' Ho') as (pt & Hpt & Es & Ee).
    rewrite Hpt. case_decide as E0.
    + subst o'. exists (f pt). rewrite Hpt, Hf. split; [done|].
      assert (Epp : point pt = p) by (rewrite <- Hk; symmetry; by apply key_lookup).
      rewrite Epp in *. by apply Hupd.
    + exists pt. split; [done|]. assert (Epp : point pt ≠ p).
      { intros Epp. apply E0. apply list_elem_of_lookup in Ho as (i & Hi), Ho' as (j & Hj).
        assert (i = j); [|subst; congruence]. apply (NoDup_lookup (keys s) i j p H2); unfold keys; rewrite list_lookup_fmap.
        - rewrite Hi. cbn. by rewrite Hk.
        - rewrite Hj. cbn. by rewrite (key_lookup _ _ _ Hpt), Epp. }
      destruct (Hne _ Epp) as [-> ->]. done.
  - by rewrite EK.
  - by rewrite EK.
  - rewrite EK. intros t [Ht| ->]%HS; [by apply H3|done].
  - rewrite EK. intros t [Ht| ->]%HE; [by apply H4|done].
  - intros Eh q o'. cbn [pointMap update]. change (active (update o f s)) with (active s). rewrite Hkey. by apply H5.
Qed.

Lemma add_spec ts s t : holds ts ts s → 0 ≤ min_ t ≤ max_ t → ∃ s', add t s = Ret s' ∧ holds (ts ++ [t]) (ts ++ [t]) s'.
Proof.
  intros H Ht. unfold add. destruct (find_spec ts ts s (min_ t) H) as (o & s1 & -> & H1 & Ho & Hk); [lia|]. rewrite go_bind_ret.
  assert (H2 : holds (ts ++ [t]) ts (update o (set_starts (tl_add t)) s1)).
  { apply (update_holds ts ts _ _ s1 o _ (min_ t)); try done.
    - intros pt Ep Es Ee. cbn. rewrite Es, Ee, cells_snoc. split; [|done]. by rewrite filter_snoc, decide_True.
    - intros q Hq. split; [|done]. by rewrite filter_snoc, decide_False, app_nil_r.
    - intros u [?| ->%list_elem_of_singleton]%elem_of_app; auto.
    - auto. }
  destruct (find_spec _ _ _ (max_ t + 1) H2) as (o' & s2 & -> & H3 & Ho' & Hk'); [lia|]. rewrite go_bind_ret.
  eexists. split; [done|]. apply (update_holds (ts ++ [t]) ts _ _ s2 o' _ (max_ t + 1)); try done.
  - intros pt Ep Es Ee. cbn. rewrite Es, Ee, cells_snoc. split; [done|]. by rewrite filter_snoc, decide_True.
  - intros q Hq. split; [done|]. by rewrite filter_snoc, decide_False, app_nil_r.
  - auto.
  - intros u [?| ->%list_elem_of_singleton]%elem_of_app; auto.
Qed.

Lemma new_holds : holds [] [] newPointTransitionSet.
Proof. split; try done; cbn; [split; cbn; done || constructor|by intros o ?%elem_of_nil|constructor|by intros ? ?%elem_of_nil..]. Qed.

Lemma reset_holds s : pts_wf s → holds [] [] (reset s).
Proof.
  intros [H1 H2 H3 H4]. assert (E : active (reset s) = []) by (unfold reset; by destruct (useHash s)).
  split; try (by intros ? ?%elem_of_nil); try (unfold keys; rewrite E).
  - unfold reset. destruct (useHash s) eqn:Eh; split; cbn; try done; try lia; auto.
  - by intros o ?%elem_of_nil.
  - constructor.
  - by intros ? ?%elem_of_nil.
  - unfold reset. by destruct (useHash s).
Qed.

#[export] Instance key_order_total s : Total (key_order s).
Proof. intros o o'. unfold key_order. lia. Qed.
#[export] Instance key_order_trans s : Transitive (key_order s).
Proof. intros o o' o2. unfold key_order. lia. Qed.

Lemma keys_sorted s l : NoDup (key s <$> l) → StronglySorted (key_order s) l → StronglySorted Z.lt (key s <$> l).
Proof.
  intros HN HS. induction HS as [|o l HS IH HF]; [constructor|]. rewrite fmap_cons in HN. apply NoDup_cons in HN as [Ho HN].
  rewrite fmap_cons. constructor; [by apply IH|]. apply Forall_forall. intros q (o' & -> & Ho')%list_elem_of_fmap.
  rewrite Forall_forall in HF. specialize (HF o' Ho'). unfold key_order in HF.
  assert (key s o ≠ key s o'); [|lia]. intros Eq. apply Ho. rewrite Eq. by apply list_elem_of_fmap_2.
Qed.

Lemma sort_holds S E s :
  holds S E s → holds S E (sort s) ∧ StronglySorted Z.lt (keys (sort s)) ∧ count (sort s) = count s.
Proof.
  intros [W H1 H2 H0 H3 H4 H5]. pose proof (length_active s W) as HL. unfold sort. fold (active s).
  set (l := merge_sort (key_order s) (active s)). set (s' := set_points _ s).
  assert (HP : l ≡ₚ active s) by apply merge_sort_Permutation.
  assert (EA : active s' = l).
  { unfold active. cbn. rewrite take_app_le by (rewrite HP; lia). apply take_ge. rewrite HP. lia. }
  assert (EK : keys s' ≡ₚ keys s) by (unfold keys; rewrite EA, HP; done).
  split_and!; [|rewrite <- EA || idtac|done].
  - split.
    + assert (HPP : points s' ≡ₚ points s).
      { cbn. rewrite HP. unfold active. by rewrite take_drop. }
      destruct W as [W1 W2 W3 W4]. split; [|by rewrite HPP| |done].
      * change (count s') with (count s). by rewrite HPP.
      * change (objects s') with (objects s). by rewrite HPP.
    + intros o. rewrite EA, HP. apply H1.
    + by rewrite EK.
    + intros q. rewrite EK. apply H0.
    + intros t Ht. rewrite EK. by apply H3.
    + intros t Ht. rewrite EK. by apply H4.
    + intros Eh p o. rewrite EA, HP. by apply H5.
  - unfold keys. change (key s') with (key s). rewrite EA. apply keys_sorted; [by rewrite HP|]. apply StronglySorted_merge_sort; apply _.
Qed.

(** * What a counting set holds *)

Definition occ (d : Z) (l : list Z) : Z := Z.of_nat (length (filter (fun e => e = d) l)).

(** The members of a list, in order and once each. *)
Definition members (l : list Z) : list Z := merge_sort Z.le (remove_dups l).

Record counted (l : list Z) (r : refCountSet) : Prop := {
  ct_counts : ∀ d, counts r !! d = if occ d l =? 0 then None else Some (occ d l);
  ct_cache : dirty r = false → cache r = members l
}.

Lemma occ_cons e d l : occ e (d :: l) = occ e l + if decide (d = e) then 1 else 0.
Proof. unfold occ. rewrite filter_cons. case_decide; cbn; lia. Qed.

Lemma occ_members e l : 0 ≤ occ e l ∧ (occ e l = 0 ↔ e ∉ l).
Proof.
  induction l as [|d l IH]; [split; [done|]; split; [by intros _ ?%elem_of_nil|done]|].
  destruct IH as [IH1 IH2]. rewrite occ_cons, not_elem_of_cons. case_decide; subst; split; try lia.
  rewrite Z.add_0_r, IH2. split; [|tauto]. intros ?. split; [congruence|done].
Qed.

Lemma occ_perm e l l' : l ≡ₚ l' → occ e l = occ e l'.
Proof. intros HP. unfold occ. by rewrite HP. Qed.

Lemma elem_of_members d l : d ∈ members l ↔ d ∈ l.
Proof. unfold members. rewrite merge_sort_Permutation. apply elem_of_remove_dups. Qed.

Lemma members_sorted l : StronglySorted Z.lt (members l).
Proof.
  assert (HN : NoDup (members l)) by (unfold members; rewrite merge_sort_Permutation; apply NoDup_remove_dups).
  assert (HS : StronglySorted Z.le (members l)) by (apply StronglySorted_merge_sort; apply _).
  induction HS as [|x k HS IH HF]; constructor; apply NoDup_cons in HN as [Hx HN]; [by apply IH|].
  rewrite Forall_forall in *. intros y Hy. specialize (HF y Hy). assert (x ≠ y) by congruence. lia.
Qed.

Lemma sorted_lt_unique l k : StronglySorted Z.lt l → StronglySorted Z.lt k → (∀ d, d ∈ l ↔ d ∈ k) → l = k.
Proof.
  intros Hl. revert k. induction Hl as [|x l Hl IH HF]; intros k Hk Hlk.
  - destruct k as [|y k]; [done|]. exfalso; apply (not_elem_of_nil y), Hlk; left.
  - destruct Hk as [|y k Hk HG]; [exfalso; apply (not_elem_of_nil x), Hlk; left|]. rewrite Forall_forall in HF, HG.
    assert (x = y) as ->.
    { assert (Hx : x ∈ y :: k) by (apply Hlk; left). assert (Hy : y ∈ x :: l) by (apply Hlk; left).
      apply elem_of_cons in Hx as [?|Hx%HG]; [done|]. apply elem_of_cons in Hy as [?|Hy%HF]; [done|lia]. }
    f_equal. apply IH; [done|]. intros d. specialize (Hlk d). rewrite !elem_of_cons in Hlk.
    split; intros Hd.
    + destruct (proj1 Hlk (or_intror Hd)) as [->|?]; [|done]. apply HF in Hd. lia.
    + destruct (proj2 Hlk (or_intror Hd)) as [->|?]; [|done]. apply HG in Hd. lia.
Qed.

Lemma members_eq l l' : (∀ d, d ∈ l ↔ d ∈ l') → members l = members l'.
Proof.
  intros H. apply sorted_lt_unique; [apply members_sorted..|]. intros d. rewrite !elem_of_members. apply H.
Qed.

Lemma members_id l : StronglySorted Z.lt l → members l = l.
Proof. intros H. apply sorted_lt_unique; [apply members_sorted|done|]. intros d. apply elem_of_members. Qed.

Lemma counted_perm l l' r : l ≡ₚ l' → counted l r → counted l' r.
Proof.
  intros HP [H1 H2]. split.
  - intros d. by rewrite H1, (occ_perm d l l').
  - intros E. rewrite H2 by done. apply members_eq. intros d. by rewrite HP.
Qed.

Lemma new_counted : counted [] newRefCountSet.
Proof. by split. Qed.

Lemma incr_counted d l r : counted l r → counted (d :: l) (incr d r).
Proof.
  intros [H1 H2]. split; [|done]. intros e. cbn [incr counts]. rewrite occ_cons, H1.
  pose proof (occ_members e l) as [? _]. pose proof (occ_members d l) as [? _].
  case_decide as E; [subst e; rewrite lookup_insert_eq|rewrite lookup_insert_ne, H1, Z.add_0_r by done; done].
  rewrite (proj2 (Z.eqb_neq (occ d l + 1) 0)) by lia. destruct (Z.eqb_spec (occ d l) 0) as [->|]; done.
Qed.

Lemma decr_counted d l r : counted (d :: l) r → counted l (decr d r).
Proof.
  intros [H1 H2]. unfold decr. rewrite H1, occ_cons, decide_True by done.
  pose proof (occ_members d l) as [? Hd]. rewrite (proj2 (Z.eqb_neq (occ d l + 1) 0)) by lia. cbn [default from_option].
  change (id (occ d l + 1)) with (occ d l + 1). replace (occ d l + 1 - 1) with (occ d l) by lia.
  assert (He : ∀ e, d ≠ e → counts r !! e = if occ e l =? 0 then None else Some (occ e l)).
  { intros e Hne. by rewrite H1, occ_cons, decide_False, Z.add_0_r. }
  destruct (Z.eqb_spec (occ d l) 0) as [E|E]; split; cbn [counts dirty cache]; try done.
  - intros e. destruct (decide (d = e)) as [<-|Hne]; [by rewrite lookup_delete_eq, E|].
    rewrite lookup_delete_ne by done. by apply He.
  - intros e. destruct (decide (d = e)) as [<-|Hne].
    + by rewrite lookup_insert_eq, (proj2 (Z.eqb_neq _ _)).
    + rewrite lookup_insert_ne by done. by apply He.
  - intros Hdirty. rewrite H2 by done. apply members_eq. intros e. rewrite elem_of_cons. split; [|auto].
    intros [->|?]; [|done]. destruct (decide (d ∈ l)) as [|Hn]; [done|]. by apply Hd in Hn.
Qed.

Lemma size_counted l r : counted l r → rc_size r = 0 ↔ l = [].
Proof.
  intros [H1 _]. unfold rc_size. split.
  - intros E. assert (Hs : size (counts r) = 0%nat) by lia. apply map_size_empty_inv in Hs.
    destruct l as [|d l]; [done|]. specialize (H1 d). rewrite Hs, lookup_empty in H1.
    destruct (Z.eqb_spec (occ d (d :: l)) 0) as [E0|]; [|done]. apply occ_members in E0. exfalso. apply E0. left.
  - intros ->. assert (counts r = ∅) as ->; [|done]. apply map_empty. intros d. by rewrite H1.
Qed.

Lemma values_counted l r : counted l r → ∃ r', values r = (members l, r') ∧ counted l r'.
Proof.
  intros [H1 H2]. unfold values. destruct (dirty r) eqn:Ed; cbn [negb].
  2: { exists r. rewrite H2 by done. split; [done|]. split; [done|]. intros _. by apply H2. }
  set (ks := (map_to_list (counts r)).*1). assert (HK : ∀ d, d ∈ ks ↔ d ∈ l).
  { intros d. unfold ks. rewrite list_elem_of_fmap. split.
    - intros ([e n] & -> & Hin%elem_of_map_to_list). rewrite H1 in Hin. cbn.
      destruct (decide (e ∈ l)) as [|Hn]; [done|]. apply occ_members in Hn. by rewrite Hn in Hin.
    - intros Hd. exists (d, occ d l). split; [done|]. apply elem_of_map_to_list. rewrite H1.
      destruct (Z.eqb_spec (occ d l) 0) as [E|]; [|done]. by apply occ_members in E. }
  assert (HN : NoDup ks) by apply NoDup_fst_map_to_list.
  assert (merge_sort Z.le ks = members l) as ->.
  2: { eexists. split; [reflexivity|]. by split. }
  rewrite <- (members_eq ks l) by done. unfold members.
  apply (StronglySorted_unique Z.le); [apply StronglySorted_merge_sort; apply _..|].
  rewrite !merge_sort_Permutation. apply NoDup_Permutation; [done|apply NoDup_remove_dups|]. intros d. by rewrite elem_of_remove_dups.
Qed.
