(* ===== verification/Determinize.v ===== *)
(** [Determinize] of [util/automaton/operations.go]: the subset construction.

    The transitions of the states of a set are grouped by the labels where they begin
    and end; a sweep over these points keeps the multiset of the states that the current
    label leads to. A set of states has a number once a map from its decimal
    rendering to numbers holds it, and waits in a work list. *)

From stdpp Require Import base tactics numbers list gmap sorting.
From stdpp Require Import strings.
From Stdlib Require Import ZArith Lia Ascii.
From S2P Require Import Prelude WordBits FileNames Nfa Automaton Builder PointSets.

Local Open Scope Z_scope.

(** * The construction *)

Definition DefaultDeterminizeWorkLimit : Z := 10000.

(** The field [hash] of the code is never set. *)
Record frozenSet := { fs_values : list Z; newState : Z }.

Definition comma : ascii := ","%char.

Definition keyFor (values : list Z) : name :=
  match values with
  | [] => []
  | v :: vs => FormatInt v 10 ++ concat (map (fun v => comma :: FormatInt v 10) vs)
  end.

(** The variables of the function that the loops change, [effortSpent] apart. *)
Record building := {
  bld : Builder;
  newstate : gmap name Z;
  worklist : list frozenSet;
  points_ : pointTransitionSet;
  statesSet : refCountSet
}.

Definition set_points_ (ps : pointTransitionSet) (st : building) : building :=
  {| bld := bld st; newstate := newstate st; worklist := worklist st; points_ := ps; statesSet := statesSet st |}.

Definition set_statesSet (r : refCountSet) (st : building) : building :=
  {| bld := bld st; newstate := newstate st; worklist := worklist st; points_ := points_ st; statesSet := r |}.

(** The number of the set of states that [statesSet] holds. *)
Definition number_of (accCount : Z) (st : building) : AM (Z * building) :=
  let '(vals, set) := values (statesSet st) in
  let key := keyFor vals in
  match newstate st !! key with
  | Some q => mret (q, set_statesSet set st)
  | None =>
      let '(q, b) := BuilderCreateState (bld st) in
      let wl := worklist st ++ [{| fs_values := vals; newState := q |}] in
      b ← BuilderSetAccept q (0 <? accCount) b;
      mret (q, {| bld := b; newstate := <[key := q]> (newstate st); worklist := wl;
                  points_ := points_ st; statesSet := set |})
  end.

(** [for j := 0; j < l.next; j += 3 { dest := l.data[j]; ... }] *)
Definition each_dest {St} (l : transitionList) (body : Z → St → AM St) (st : St) : AM St :=
  go_for (Z.to_nat ((tl_next l + 2) / 3)) 0 (fun j st => dest ← aget (data l) (3 * j); body dest st) st.

Definition acceptOne (a : Automaton) (dest : Z) : Z := if IsAccept a dest then 1 else 0.

(** One point of the sweep for the state [r]; the state of the loop holds [lastPoint]
    and [accCount] besides. *)
Definition sweep_point (a : Automaton) (r i : Z) (st : building * Z * Z) : AM (building * Z * Z) :=
  let '(st, lastPoint, accCount) := st in
  o ← aget (points (points_ st)) i;
  pt ← deref (points_ st) o;
  st ← (if 0 <? rc_size (statesSet st) then
          if lastPoint =? -1 then Panic else
          '(q, st) ← number_of accCount st;
          mret {| bld := BuilderAddTransition r q lastPoint (point pt - 1) (bld st); newstate := newstate st;
                  worklist := worklist st; points_ := points_ st; statesSet := statesSet st |}
        else mret st);
  '(set, accCount) ← each_dest (ends pt)
    (fun dest '(set, accCount) => mret (decr dest set, accCount - acceptOne a dest)) (statesSet st, accCount);
  let ps := update o (set_ends tl_clear) (points_ st) in
  '(set, accCount) ← each_dest (starts pt)
    (fun dest '(set, accCount) => mret (incr dest set, accCount + acceptOne a dest)) (set, accCount);
  let ps := update o (set_starts tl_clear) ps in
  mret (set_statesSet set (set_points_ ps st), point pt, accCount).

Definition gather (a : Automaton) (vals : list Z) (ps : pointTransitionSet) : AM pointTransitionSet :=
  foldM (fun s0 ps => each_transition a s0 (fun t ps => add (tr_of t) ps) ps) vals ps.

(** One set of the work list. *)
Definition process (a : Automaton) (s : frozenSet) (st : building) : AM building :=
  ps ← gather a (fs_values s) (points_ st);
  if count ps =? 0 then mret (set_points_ ps st) else
  let ps := sort ps in
  '(st, _, _) ← go_for (Z.to_nat (count ps)) 0 (sweep_point a (newState s)) (set_points_ ps st, -1, 0);
  let st := set_points_ (reset (points_ st)) st in
  if negb (rc_size (statesSet st) =? 0) then Panic else mret st.

(** [effortSpent] stays below [effortLimit] plus the number of states. *)
Definition determinize_step (a : Automaton) (effortLimit : Z) (st : building * Z) : AM ((building * Z) + building) :=
  let '(st, effortSpent) := st in
  match worklist st with
  | [] => mret (inr st)
  | s :: rest =>
      let st := {| bld := bld st; newstate := newstate st; worklist := rest; points_ := points_ st; statesSet := statesSet st |} in
      let effortSpent := effortSpent + Z.of_nat (length (fs_values s)) in
      if effortLimit <=? effortSpent then Err TooComplexToDeterminize else
      st ← process a s st;
      mret (inl (st, effortSpent))
  end.

(** Every round but the last spends one unit at least, so the bound on the number of
    rounds is not met. *)
Definition Determinize (a : Automaton) (workLimit : Z) : AM Automaton :=
  if deterministic a then mret a else
  if NumStates a <=? 1 then mret a else
  let '(_, b) := BuilderCreateState NewBuilder in
  b ← BuilderSetAccept 0 (IsAccept a 0) b;
  let initial := [0] in
  let effortLimit := to_int64 (workLimit * 10) in
  st ← go_loop (Z.to_pos (effortLimit + 1)) (determinize_step a effortLimit)
    ({| bld := b; newstate := {[ keyFor initial := 0 ]}; worklist := [{| fs_values := initial; newState := 0 |}];
        points_ := newPointTransitionSet; statesSet := newRefCountSet |}, 0);
  Finish (bld st).

(** Words over [a], [b] and [c] that end in [ac] or [bb]. *)
Example determinize_run :
  (a ← run_build [BCreateState; BCreateState; BCreateState; BCreateState; BSetAccept 3 true;
       BAddTransition 0 0 97 99; BAddTransition 0 1 97 97; BAddTransition 0 2 98 98;
       BAddTransition 1 3 99 99; BAddTransition 2 3 98 98; BFinishState] NewAutomaton;
   d ← Determinize a DefaultDeterminizeWorkLimit;
   mret (delta d 0, delta d 1, NumStates d, deterministic d, AcceptCardinality d))
  = Ret ([(1, 97, 97); (2, 98, 98); (0, 99, 99)] : list tr, [(1, 97, 97); (2, 98, 98); (3, 99, 99)] : list tr, 5, true, 2).
Proof. vm_compute. reflexivity. Qed.

(** * Keys *)

Lemma FormatInt_no_comma v : 0 ≤ v < 2 ^ 63 → Forall (.≠ comma) (FormatInt v 10).
Proof.
  intros Hv. eapply Forall_impl; [apply (FormatInt_range v 10); lia|]. intros c Hc ->. by vm_compute in Hc.
Qed.

Lemma Split_keyFor v vs :
  Forall (fun v => 0 ≤ v < 2 ^ 63) (v :: vs) → Split (keyFor (v :: vs)) comma = map (fun v => FormatInt v 10) (v :: vs).
Proof.
  cbn [keyFor]. revert v. induction vs as [|u vs IH]; intros v [Hv HF]%Forall_cons; cbn [map concat].
  - rewrite app_nil_r. by apply Split_none, FormatInt_no_comma.
  - change ((comma :: FormatInt u 10) ++ ?r) with (comma :: (FormatInt u 10 ++ r)).
    rewrite Split_app by (by apply FormatInt_no_comma). f_equal. by apply IH.
Qed.

Lemma FormatInt_inj u v : 0 ≤ u < 2 ^ 63 → 0 ≤ v < 2 ^ 63 → FormatInt u 10 = FormatInt v 10 → u = v.
Proof.
  intros Hu Hv E. pose proof (ParseInt_FormatInt u 10 ltac:(lia) Hu) as H1.
  rewrite E, ParseInt_FormatInt in H1 by (done || lia). congruence.
Qed.

Lemma keyFor_inj vs us :
  vs ≠ [] → us ≠ [] → Forall (fun v => 0 ≤ v < 2 ^ 63) vs → Forall (fun v => 0 ≤ v < 2 ^ 63) us →
  keyFor vs = keyFor us → vs = us.
Proof.
  destruct vs as [|v vs]; [done|]. destruct us as [|u us]; [done|]. intros _ _ Hv Hu E.
  apply (f_equal (fun k => Split k comma)) in E. rewrite !Split_keyFor in E by done.
  revert u us Hu E. generalize (v :: vs) Hv. clear v vs Hv. intros l Hl u us. generalize (u :: us). clear u us.
  induction Hl as [|v l Hv Hl IH]; intros [|u k] Hk E; try done. apply Forall_cons in Hk as [Hu Hk].
  cbn [map] in E. injection E as E1 E2. f_equal; [by apply FormatInt_inj|by apply IH].
Qed.

(** * The sweep *)

Lemma filter_split {A} (P Q R : A → Prop) `{!∀ x, Decision (P x), !∀ x, Decision (Q x), !∀ x, Decision (R x)} (l : list A) :
  (∀ x, x ∈ l → P x ↔ Q x ∨ R x) → (∀ x, x ∈ l → Q x → ¬ R x) → filter P l ≡ₚ filter Q l ++ filter R l.
Proof.
  induction l as [|x l IH]; intros HU HD; [done|]. rewrite !filter_cons.
  assert (HP : filter P l ≡ₚ filter Q l ++ filter R l) by (apply IH; intros y Hy; [apply HU|apply HD]; by right).
  specialize (HU x ltac:(left)). specialize (HD x ltac:(left)). destruct (decide (Q x)).
  - rewrite decide_True by tauto. rewrite (decide_False (P := R x)) by tauto. cbn. by rewrite HP.
  - destruct (decide (R x)).
    + rewrite decide_True by tauto. rewrite HP. apply Permutation_middle.
    + rewrite decide_False by tauto. done.
Qed.

Lemma filter_same {A} (P Q : A → Prop) `{!∀ x, Decision (P x), !∀ x, Decision (Q x)} (l : list A) :
  (∀ x, x ∈ l → P x ↔ Q x) → filter P l = filter Q l.
Proof.
  induction l as [|x l IH]; intros HU; [done|]. rewrite !filter_cons, IH by (intros y Hy; apply HU; by right).
  specialize (HU x ltac:(left)). repeat case_decide; tauto.
Qed.

Lemma each_dest_cells {St} (l : list tr) (body : Z → St → AM St) st :
  each_dest (cells l) body st = foldM (fun t => body (dest_ t)) l st.
Proof.
  unfold each_dest, cells. cbn [data tl_next].
  replace (Z.to_nat ((3 * Z.of_nat (length l) + 2) / 3)) with (length l)
    by (rewrite Z.mul_comm, Z.div_add_l by lia; change (2 / 3) with 0; lia).
  enough (∀ pre k st, l = pre ++ k → go_for (length k) (Z.of_nat (length pre))
      (fun j st => dest ← aget (flat l) (3 * j); body dest st) st = foldM (fun t => body (dest_ t)) k st) as H
    by (by apply (H [] l)).
  intros pre k. revert pre. induction k as [|t k IH]; intros pre st' E; cbn [length go_for foldM]; [done|].
  assert (Hg : aget (E := autoerr) (flat l) (3 * Z.of_nat (length pre)) = Ret (dest_ t)).
  { apply (aget_triple (flat l) (length pre) t). rewrite triples_flat, E. by apply list_lookup_middle. }
  rewrite Hg, go_bind_ret. destruct (body (dest_ t) st') as [st2| | |]; try done. cbn [mbind go_bind].
  replace (Z.of_nat (length pre) + 1) with (Z.of_nat (length (pre ++ [t]))) by (rewrite length_app; cbn; lia).
  apply IH. by rewrite <- app_assoc.
Qed.

Section Sweeping.
Context (a : Automaton).

(** How many of the transitions lead to an accept state. *)
Definition accs (l : list tr) : Z := Z.of_nat (length (filter (fun t => IsAccept a (dest_ t) = true) l)).

Lemma accs_perm l k : l ≡ₚ k → accs l = accs k.
Proof. intros H. unfold accs. by rewrite H. Qed.

Lemma accs_cons t l : accs (t :: l) = acceptOne a (dest_ t) + accs l.
Proof. unfold accs, acceptOne. rewrite filter_cons. destruct (IsAccept a (dest_ t)); case_decide; try done; cbn; lia. Qed.

Lemma accs_pos l : 0 <? accs l = existsb (IsAccept a) (members (dest_ <$> l)).
Proof.
  apply eq_true_iff_eq. rewrite Z.ltb_lt, existsb_exists. unfold accs. split.
  - intros H. destruct (filter _ l) as [|t k] eqn:E; [cbn in H; lia|].
    assert (Ht : t ∈ t :: k) by left. rewrite <- E in Ht. apply list_elem_of_filter in Ht as [Hacc Ht].
    exists (dest_ t). split; [|done]. by apply list_elem_of_In, elem_of_members, list_elem_of_fmap_2.
  - intros (d & (t & -> & Ht)%list_elem_of_In%elem_of_members%list_elem_of_fmap & Hd).
    assert (Hf : t ∈ filter (fun t => IsAccept a (dest_ t) = true) l) by (by apply list_elem_of_filter).
    destruct (filter _ l) as [|u k]; [by apply elem_of_nil in Hf|]. cbn. lia.
Qed.

Lemma decr_all l K set acc :
  counted (dest_ <$> (l ++ K)) set → acc = accs (l ++ K) →
  ∃ set', foldM (fun t '(set, acc) => mret (decr (dest_ t) set, acc - acceptOne a (dest_ t))) l (set, acc) = Ret (set', accs K) ∧
    counted (dest_ <$> K) set'.
Proof.
  revert set acc. induction l as [|t l IH]; intros set acc HC HA; cbn [foldM].
  - exists set. by rewrite HA.
  - rewrite go_bind_mret. apply IH; [by apply decr_counted|]. rewrite HA. cbn [app]. rewrite accs_cons. lia.
Qed.

Lemma incr_all l : ∀ K set acc,
  counted (dest_ <$> K) set → acc = accs K →
  ∃ set', foldM (fun t '(set, acc) => mret (incr (dest_ t) set, acc + acceptOne a (dest_ t))) l (set, acc)
      = Ret (set', accs (K ++ l)) ∧
    counted (dest_ <$> (K ++ l)) set'.
Proof.
  induction l as [|t l IH]; intros K set acc HC HA; cbn [foldM].
  - exists set. by rewrite HA, app_nil_r.
  - rewrite go_bind_mret. destruct (IH (t :: K) (incr (dest_ t) set) (acc + acceptOne a (dest_ t))) as (set' & -> & HC').
    + rewrite fmap_cons. by apply incr_counted.
    + rewrite accs_cons. lia.
    + exists set'. assert (HP : (t :: K) ++ l ≡ₚ K ++ t :: l) by (by rewrite <- Permutation_middle).
      split; [by rewrite (accs_perm _ _ HP)|]. eapply counted_perm; [|exact HC']. by rewrite HP.
Qed.
End Sweeping.

(** * The sets of states that have numbers *)

Definition valid_set (n : Z) (vals : list Z) : Prop :=
  vals ≠ [] ∧ StronglySorted Z.lt vals ∧ Forall (fun v => 0 ≤ v < n) vals.

Definition number_list (reg : list (list Z)) : list frozenSet :=
  imap (fun i v => {| fs_values := v; newState := Z.of_nat i |}) reg.

Record registry (n : Z) (reg : list (list Z)) (m : gmap name Z) : Prop := {
  rg_valid : Forall (valid_set n) reg;
  rg_nodup : NoDup reg;
  rg_map : ∀ key q, m !! key = Some q ↔ ∃ i vals, reg !! i = Some vals ∧ q = Z.of_nat i ∧ key = keyFor vals
}.

Lemma valid_keyFor n vs us : n ≤ 2 ^ 63 → valid_set n vs → valid_set n us → keyFor vs = keyFor us → vs = us.
Proof.
  intros Hn (H1 & _ & H2) (H3 & _ & H4). apply keyFor_inj; [done..| |];
    (eapply Forall_impl; [eassumption|]; cbn; lia).
Qed.

Lemma registry_lookup n reg m vals q :
  n ≤ 2 ^ 63 → registry n reg m → valid_set n vals →
  m !! keyFor vals = Some q ↔ ∃ i, reg !! i = Some vals ∧ q = Z.of_nat i.
Proof.
  intros Hn [H1 H2 H3] Hv. rewrite H3. split.
  - intros (i & us & Hi & -> & E). exists i. split; [|done]. rewrite Forall_forall in H1.
    rewrite (valid_keyFor n vals us); [done..| |done]. apply H1. by eapply list_elem_of_lookup_2.
  - intros (i & Hi & ->). by exists i, vals.
Qed.

Lemma registry_snoc n reg m vals :
  n ≤ 2 ^ 63 → registry n reg m → valid_set n vals → m !! keyFor vals = None →
  registry n (reg ++ [vals]) (<[keyFor vals := Z.of_nat (length reg)]> m).
Proof.
  intros Hn HR Hv Em. pose proof (registry_lookup n reg m vals) as HL. destruct HR as [H1 H2 H3] eqn:ER. clear ER.
  assert (Hni : vals ∉ reg).
  { intros (i & Hi)%list_elem_of_lookup. assert (m !! keyFor vals = Some (Z.of_nat i)) by (apply HL; eauto). congruence. }
  split.
  - apply Forall_app_2; [done|by apply Forall_singleton].
  - apply NoDup_app. split_and!; [done| |by apply NoDup_singleton]. by intros v Hv' ->%list_elem_of_singleton.
  - intros key q. destruct (decide (keyFor vals = key)) as [<-|Hne].
    + rewrite lookup_insert_eq. split.
      * intros [= <-]. exists (length reg), vals. rewrite lookup_app_r, Nat.sub_diag by lia. done.
      * intros (i & us & Hi & -> & E). apply lookup_app_Some in Hi as [Hi|[Hlen Hi]].
        -- exfalso. apply Hni. rewrite Forall_forall in H1. assert (Hu : us ∈ reg) by (by eapply list_elem_of_lookup_2).
           by rewrite (valid_keyFor n vals us) by (done || by apply H1).
        -- apply list_lookup_singleton_Some in Hi as [Hi _]. do 2 f_equal. lia.
    + rewrite lookup_insert_ne, H3 by done. split; intros (i & us & Hi & -> & ->).
      * exists i, us. by rewrite lookup_app_l by (by eapply lookup_lt_Some).
      * apply lookup_app_Some in Hi as [Hi|[Hlen Hi]]; [by exists i, us|].
        by apply list_lookup_singleton_Some in Hi as [_ ->].
Qed.

(** ** How many there can be *)

Fixpoint subsets (n : nat) : list (list Z) :=
  match n with O => [[]] | S n => subsets n ++ map (fun l => l ++ [Z.of_nat n]) (subsets n) end.

Lemma length_subsets n : length (subsets n) = (2 ^ n)%nat.
Proof. induction n as [|n IH]; [done|]. cbn [subsets]. rewrite length_app, length_map, IH. cbn. lia. Qed.

Lemma sorted_in_subsets n : ∀ l, StronglySorted Z.lt l → Forall (fun v => 0 ≤ v < Z.of_nat n) l → l ∈ subsets n.
Proof.
  induction n as [|n IH]; intros l HS HF; cbn [subsets].
  - destruct l as [|v l]; [left|]. apply Forall_cons in HF as [? _]. lia.
  - apply elem_of_app. destruct (decide (Forall (fun v => v < Z.of_nat n) l)) as [HF'|HF'].
    + left. apply IH; [done|]. rewrite Forall_forall in *. intros v Hv. specialize (HF v Hv). specialize (HF' v Hv). lia.
    + right. destruct l as [|x l _] using rev_ind; [by destruct HF'|].
      apply StronglySorted_snoc in HS as [HS HX]. apply Forall_app in HF as [HF Hx]. rewrite Forall_singleton in Hx.
      rewrite Forall_forall in HX. assert (x = Z.of_nat n) as ->.
      { destruct (decide (x = Z.of_nat n)) as [|Hne]; [done|]. destruct HF'. apply Forall_app. rewrite Forall_singleton.
        split; [|lia]. apply Forall_forall. intros v Hv%HX. lia. }
      apply list_elem_of_In, in_map_iff. exists l. split; [done|]. apply list_elem_of_In, IH; [done|].
      rewrite Forall_forall in *. intros v Hv. specialize (HF v Hv). specialize (HX v Hv). lia.
Qed.

Lemma sorted_length n l : StronglySorted Z.lt l → Forall (fun v => 0 ≤ v < n) l → Z.of_nat (length l) ≤ Z.max 0 n.
Proof.
  intros HS HF. assert (HN : NoDup l).
  { clear HF. induction HS as [|x l HS IH HF]; constructor; [|done]. intros Hx. rewrite Forall_forall in HF.
    specialize (HF x Hx). lia. }
  assert (H : (length l ≤ length (seqZ 0 n))%nat).
  { apply submseteq_length, NoDup_submseteq; [done|]. intros v Hv. rewrite Forall_forall in HF.
    apply elem_of_seqZ. specialize (HF v Hv). lia. }
  rewrite length_seqZ in H. lia.
Qed.

Lemma registry_bound n reg : 0 ≤ n → NoDup reg → Forall (valid_set n) reg → Z.of_nat (length reg) ≤ 2 ^ n.
Proof.
  intros Hn HN HF. assert (H : (length reg ≤ length (subsets (Z.to_nat n)))%nat).
  { apply submseteq_length, NoDup_submseteq; [done|]. intros v Hv. rewrite Forall_forall in HF.
    destruct (HF v Hv) as (_ & HS & HB). apply sorted_in_subsets; [done|]. by rewrite Z2Nat.id. }
  rewrite length_subsets in H. replace (2 ^ n) with (Z.of_nat (2 ^ Z.to_nat n)); [lia|].
  rewrite Nat2Z.inj_pow, Z2Nat.id by done. done.
Qed.

(** * One set of the work list *)

Section Construction.
Context (a : Automaton) (G : good a) (HN : NumStates a < 2 ^ 63).

(** The transitions of a set of states, those on a label, and where they lead. *)
Definition out (vals : list Z) : list tr := concat (map (delta a) vals).
Definition on (c : Z) (ts : list tr) : list tr := filter (fun t => min_ t ≤ c ≤ max_ t) ts.
Definition succ (ts : list tr) (c : Z) : list Z := members (dest_ <$> on c ts).

Record rep (k : nat) (reg : list (list Z)) (st : building) : Prop := {
  rp_reg : registry (NumStates a) reg (newstate st);
  rp_worklist : worklist st = drop k (number_list reg);
  rp_bound : (k ≤ length reg)%nat;
  rp_bwf : bwf (bld st);
  rp_states : b_nextState (bld st) = Z.of_nat (length reg);
  rp_accept : ∀ i vals, reg !! i = Some vals → b_accept (bld st) (Z.of_nat i) = existsb (IsAccept a) vals
}.

Lemma rep_same k reg st st' :
  rep k reg st → newstate st' = newstate st → worklist st' = worklist st → bwf (bld st') →
  b_nextState (bld st') = b_nextState (bld st) → (∀ s, b_accept (bld st') s = b_accept (bld st) s) → rep k reg st'.
Proof. intros [] E1 E2 W E3 E4. split; rewrite ?E1, ?E2, ?E3; try done. intros i vals Hi. rewrite E4. auto. Qed.

Lemma valid_members l :
  l ≠ [] → Forall (fun v => 0 ≤ v < NumStates a) l → valid_set (NumStates a) (members l).
Proof.
  intros Hl HF. split_and!; [|apply members_sorted|].
  - destruct l as [|v l]; [done|]. intros E. apply (not_elem_of_nil v). rewrite <- E. apply elem_of_members. left.
  - rewrite Forall_forall in *. intros v. rewrite elem_of_members. apply HF.
Qed.

Lemma number_of_spec k reg st l :
  rep k reg st → counted (dest_ <$> l) (statesSet st) → l ≠ [] → Forall (tr_ok (NumStates a)) l →
  ∃ q reg' st', number_of (accs a l) st = Ret (Z.of_nat q, st') ∧ reg `prefix_of` reg' ∧ rep k reg' st' ∧
    reg' !! q = Some (members (dest_ <$> l)) ∧ counted (dest_ <$> l) (statesSet st') ∧ points_ st' = points_ st ∧
    b_transitions (bld st') = b_transitions (bld st).
Proof.
  intros [R1 R2 R3 R4 R5 R6] HC Hl HF. unfold number_of.
  destruct (values_counted _ _ HC) as (set' & -> & HC').
  set (vals := members (dest_ <$> l)) in *.
  assert (HV : valid_set (NumStates a) vals).
  { apply valid_members; [intros E; apply Hl; by apply fmap_nil_inv in E|]. apply Forall_fmap. eapply Forall_impl; [exact HF|]. by intros t [? _]. }
  destruct (newstate st !! keyFor vals) as [q|] eqn:Em.
  - pose proof Em as (i & Hi & ->)%(registry_lookup (NumStates a) reg); [|lia|done|done].
    exists i, reg, (set_statesSet set' st). split_and!; [done|done| |done|done|done|done].
    by apply (rep_same k reg st).
  - destruct (BuilderCreateState_spec _ R4) as (b1 & -> & W1 & N1 & T1 & A1).
    destruct (BuilderSetAccept_spec (b_nextState (bld st)) (0 <? accs a l) b1 W1) as (b2 & -> & W2 & N2 & T2 & A2); [lia|].
    rewrite go_bind_ret, R5. exists (length reg), (reg ++ [vals]). eexists. split_and!; [done|by apply prefix_app_r| | |done|done|cbn; congruence].
    2: { by rewrite lookup_app_r, Nat.sub_diag by lia. }
    split; cbn [newstate worklist bld].
    + apply registry_snoc; [lia|done..].
    + unfold number_list. rewrite R2, imap_app, drop_app_le by (rewrite length_imap; lia). cbn. by rewrite Nat.add_0_r.
    + rewrite length_app. lia.
    + done.
    + rewrite N2, N1, R5, length_app. cbn. lia.
    + intros i us Hi. rewrite A2, A1, R5. case_decide as E.
      * apply Nat2Z.inj in E as ->. rewrite lookup_app_r, Nat.sub_diag in Hi by lia. injection Hi as <-. apply accs_pos.
      * apply lookup_app_Some in Hi as [Hi|[? [? _]%list_lookup_singleton_Some]]; [by apply R6|lia].
Qed.

(** What the sweep over the points of the transitions [ts] has done for the state [r], up
    to the [i]-th point: [last] is the point before. *)
Record swept (k : nat) (r : Z) (ts : list tr) (ps : pointTransitionSet) (E0 : Z → Z → Z → Prop) (i : nat) (reg : list (list Z))
    (st : building) (last acc : Z) : Prop := {
  sw_rep : rep k reg st;
  sw_last : -1 ≤ last;
  sw_before : ∀ q, q ∈ keys ps → q ≤ last ∨ ∃ j : nat, (i ≤ j)%nat ∧ keys ps !! j = Some q;
  sw_after : ∀ (j : nat) q, (i ≤ j)%nat → keys ps !! j = Some q → last < q;
  sw_counted : counted (dest_ <$> on last ts) (statesSet st);
  sw_acc : acc = accs a (on last ts);
  sw_wf : pts_wf (points_ st);
  sw_points : points (points_ st) = points ps;
  sw_objects : ∀ (j : nat) o, (i ≤ j)%nat → active ps !! j = Some o → objects (points_ st) !! o = objects ps !! o;
  sw_known : ∀ c, c < last → on c ts ≠ [] → succ ts c ∈ reg;
  sw_edge : ∀ s c d, b_edge (bld st) s c d ↔
    E0 s c d ∨ s = r ∧ c < last ∧ on c ts ≠ [] ∧ 0 ≤ d ∧ reg !! Z.to_nat d = Some (succ ts c)
}.

(** Between two points the label makes no difference. *)
Lemma on_between ts ps last p c :
  holds ts ts ps → (∀ q, q ∈ keys ps → q ≤ last ∨ p ≤ q) → last ≤ c < p → on c ts = on last ts.
Proof.
  intros H HK Hc. unfold on. apply filter_same. intros t Ht.
  pose proof (HK _ (ho_starts _ _ _ H t Ht)). pose proof (HK _ (ho_ends _ _ _ H t Ht)). lia.
Qed.

(** The transition for the labels from the last point to this one. *)
Lemma emit_spec k r reg st l last p :
  rep k reg st → counted (dest_ <$> l) (statesSet st) → Forall (tr_ok (NumStates a)) l →
  0 ≤ r < Z.of_nat (length reg) → (l ≠ [] → 0 ≤ last) → last < p →
  ∃ reg' st', (if 0 <? rc_size (statesSet st) then
      if last =? -1 then Panic else
      '(q, st) ← number_of (accs a l) st;
      mret {| bld := BuilderAddTransition r q last (p - 1) (bld st); newstate := newstate st;
              worklist := worklist st; points_ := points_ st; statesSet := statesSet st |}
    else mret st) = Ret st' ∧
    reg `prefix_of` reg' ∧ rep k reg' st' ∧ counted (dest_ <$> l) (statesSet st') ∧ points_ st' = points_ st ∧
    (l ≠ [] → members (dest_ <$> l) ∈ reg') ∧
    ∀ s c d, b_edge (bld st') s c d ↔ b_edge (bld st) s c d ∨
      s = r ∧ last ≤ c < p ∧ l ≠ [] ∧ 0 ≤ d ∧ reg' !! Z.to_nat d = Some (members (dest_ <$> l)).
Proof.
  intros R HC HF Hr Hlast Hp. pose proof (size_counted _ _ HC) as HS.
  destruct (decide (l = [])) as [->|Hl].
  - rewrite (proj2 HS) by done. exists reg, st. split_and!; try done. intros s c d. split; [by left|]. by intros [?|(_ & _ & ? & _)].
  - rewrite (proj2 (Z.ltb_lt _ _)).
    2: { assert (rc_size (statesSet st) ≠ 0); [|unfold rc_size in *; lia]. intros E. apply Hl, fmap_nil_inv with dest_. by apply HS. }
    specialize (Hlast Hl). rewrite (proj2 (Z.eqb_neq last (-1))) by lia.
    destruct (number_of_spec k reg st l R HC Hl HF) as (q & reg' & st' & -> & HPre & R' & Hq & HC' & Hps & Htr).
    rewrite go_bind_ret. exists reg'. eexists. split; [reflexivity|].
    pose proof (prefix_length _ _ HPre). pose proof (lookup_lt_Some _ _ _ Hq) as Hql.
    destruct (BuilderAddTransition_spec r (Z.of_nat q) last (p - 1) (bld st')) as [W' E'];
      [apply R'|cbn; rewrite (rp_states _ _ _ R'); lia|].
    split_and!; [done| |done|done| |].
    + by apply (rep_same k reg' st').
    + intros _. by eapply list_elem_of_lookup_2.
    + intros s c d. cbn [bld]. rewrite E'. unfold b_edge at 1. rewrite Htr. fold (b_edge (bld st) s c d). split.
      * intros [?|(-> & -> & Hc)]; [by left|right]. rewrite Nat2Z.id. split_and!; try done; lia.
      * intros [?|(-> & Hc & _ & Hd & Hreg)]; [by left|right]. split_and!; [done| |lia..].
        pose proof (NoDup_lookup _ _ _ _ (rg_nodup _ _ _ (rp_reg _ _ _ R')) Hq Hreg). lia.
Qed.

Lemma on_ok c ts : Forall (tr_ok (NumStates a)) ts → Forall (tr_ok (NumStates a)) (on c ts).
Proof. intros H. apply Forall_forall. intros t [_ Ht]%list_elem_of_filter. rewrite Forall_forall in H. by apply H. Qed.

Lemma sweep_point_spec k r ts ps E0 i reg st last acc o :
  holds ts ts ps → Forall (tr_ok (NumStates a)) ts → StronglySorted Z.lt (keys ps) → 0 ≤ r < Z.of_nat (length reg) →
  swept k r ts ps E0 i reg st last acc → active ps !! i = Some o →
  ∃ reg' st' last' acc', sweep_point a r (Z.of_nat i) (st, last, acc) = Ret (st', last', acc') ∧ reg `prefix_of` reg' ∧
    swept k r ts ps E0 (S i) reg' st' last' acc' ∧ last' = key ps o.
Proof.
  intros H HF HS Hr [R HL HB HA HC Hacc HW HP HO HK HE] Hi.
  assert (Hin : o ∈ active ps) by (by eapply list_elem_of_lookup_2).
  destruct (ho_object _ _ _ H o Hin) as (pt & Hpt & Es & Ee). pose proof (key_lookup _ _ _ Hpt) as Hkey.
  assert (Hki : keys ps !! i = Some (point pt)) by (unfold keys; by rewrite list_lookup_fmap, Hi; cbn; rewrite Hkey).
  set (p := point pt) in *. assert (Hp : last < p) by (apply (HA i); [lia|done]).
  assert (HKs : ∀ q, q ∈ keys ps → q ≤ last ∨ p ≤ q).
  { intros q [?|(j & Hj & Hq)]%HB; [by left|right]. destruct (decide (i = j)) as [->|Hne]; [assert (q = p) by congruence; lia|].
    assert (p < q); [|lia]. apply (StronglySorted_at _ _ HS i j); [lia|done..]. }
  assert (Hget : aget (E := autoerr) (points (points_ st)) (Z.of_nat i) = Ret o).
  { rewrite HP. apply aget_Ret; [lia|]. rewrite Nat2Z.id. by apply lookup_take_Some in Hi as []. }
  assert (Hder : deref (points_ st) o = Ret pt) by (unfold deref; by rewrite (HO i o), Hpt by (done || lia)).
  unfold sweep_point. rewrite Hget, go_bind_ret, Hder, go_bind_ret.
  change (points_ (?st, _, _).1.1) with (points_ st). subst acc. fold p.
  destruct (emit_spec k r reg st (on last ts) last p R HC) as (reg1 & st1 & -> & HPre & R1 & HC1 & Hps1 & HK1 & HE1);
    [by apply on_ok|done| |done|].
  { intros Hne. destruct (on last ts) as [|t l] eqn:E; [done|]. assert (Ht : t ∈ on last ts) by (rewrite E; left).
    apply list_elem_of_filter in Ht as [? Ht]. rewrite Forall_forall in HF. destruct (HF t Ht). lia. }
  rewrite go_bind_ret, Es, Ee, each_dest_cells.
  set (En := filter (fun t => max_ t + 1 = p) ts). set (St := filter (fun t => min_ t = p) ts).
  set (K := filter (fun t => min_ t ≤ last ∧ p ≤ max_ t) ts).
  assert (Hok : ∀ t, t ∈ ts → min_ t ≤ max_ t ∧ (min_ t ≤ last ∨ p ≤ min_ t) ∧ (max_ t + 1 ≤ last ∨ p ≤ max_ t + 1)).
  { intros t Ht. rewrite Forall_forall in HF. destruct (HF t Ht) as [_ ?]. split; [lia|].
    split; apply HKs; [by apply (ho_starts _ _ _ H)|by apply (ho_ends _ _ _ H)]. }
  assert (HP1 : on last ts ≡ₚ En ++ K).
  { apply filter_split; intros t Ht%Hok; lia. }
  assert (HP2 : on p ts ≡ₚ K ++ St).
  { apply filter_split; intros t Ht%Hok; lia. }
  destruct (decr_all a En K (statesSet st1) (accs a (on last ts))) as (set2 & -> & HC2).
  { eapply counted_perm; [|exact HC1]. by rewrite HP1. }
  { by apply accs_perm. }
  rewrite go_bind_ret, each_dest_cells.
  destruct (incr_all a St K set2 (accs a K) HC2 eq_refl) as (set3 & -> & HC3). rewrite go_bind_ret.
  exists reg1. do 3 eexists. split; [reflexivity|]. split; [done|]. split; [|done].
  split; cbn [set_statesSet set_points_ points_ statesSet bld newstate worklist].
  - apply (rep_same k reg1 st1); try done; apply R1.
  - lia.
  - intros q Hq. destruct (HKs q Hq) as [?|?]; [left; lia|]. destruct (HB q Hq) as [?|(j & Hj & Hjq)]; [lia|].
    destruct (decide (i = j)) as [->|]; [left; assert (q = p) by congruence; lia|right; exists j; split; [lia|done]].
  - intros j q Hj Hq. apply (StronglySorted_at _ _ HS i j); [lia|done..].
  - eapply counted_perm; [|exact HC3]. by rewrite HP2.
  - symmetry. by apply accs_perm.
  - rewrite Hps1. destruct HW as [W1 W2 W3 W4]. split; try done. cbn. by rewrite !length_alter.
  - by rewrite Hps1.
  - intros j o' Hj Hjo. rewrite Hps1. cbn. assert (o ≠ o').
    { intros ->. pose proof (NoDup_lookup _ _ _ _ (NoDup_active _ (ho_wf _ _ _ H)) Hi Hjo). lia. }
    rewrite !list_lookup_alter_ne by done. apply (HO j); [lia|done].
  - intros c Hc Hne. destruct (Z.lt_ge_cases c last) as [Hlt|Hge].
    + eapply elem_of_prefix; [|exact HPre]. by apply HK.
    + unfold succ. rewrite (on_between ts ps last p c) in * by (done || lia). by apply HK1.
  - intros s c d. rewrite HE1, HE. split.
    + intros [[?|(-> & Hc & Hne & Hd & Hreg)]|(-> & Hc & Hne & Hd & Hreg)]; [by left|right|right].
      * split_and!; try done; [lia|]. by eapply prefix_lookup_Some.
      * unfold succ. rewrite (on_between ts ps last p c) by (done || lia). split_and!; done || lia.
    + intros [?|(-> & Hc & Hne & Hd & Hreg)]; [auto|]. destruct (Z.lt_ge_cases c last) as [Hlt|Hge].
      * left. right. split_and!; try done. pose proof (HK c Hlt Hne) as (j & Hj)%list_elem_of_lookup.
        pose proof (prefix_lookup_Some _ _ _ _ Hj HPre) as Hj'.
        by rewrite (NoDup_lookup _ _ _ _ (rg_nodup _ _ _ (rp_reg _ _ _ R1)) Hreg Hj').
      * right. unfold succ in Hreg. rewrite (on_between ts ps last p c) in * by (done || lia). split_and!; done || lia.
Qed.

Lemma foldM_add l : ∀ ts ps, holds ts ts ps → Forall (tr_ok (NumStates a)) l → ∃ ps', foldM add l ps = Ret ps' ∧ holds (ts ++ l) (ts ++ l) ps'.
Proof.
  induction l as [|t l IH]; intros ts ps H HF; cbn [foldM]; [exists ps; by rewrite app_nil_r|].
  apply Forall_cons in HF as [[_ Ht] HF]. destruct (add_spec ts ps t H Ht) as (ps1 & -> & H1). rewrite go_bind_ret.
  destruct (IH _ _ H1 HF) as (ps2 & -> & H2). exists ps2. by rewrite <- app_assoc in H2.
Qed.

Lemma gather_spec vals : ∀ ts ps, holds ts ts ps → Forall (fun v => 0 ≤ v < NumStates a) vals →
  ∃ ps', gather a vals ps = Ret ps' ∧ holds (ts ++ out vals) (ts ++ out vals) ps'.
Proof.
  unfold gather. induction vals as [|v vals IH]; intros ts ps H HF; cbn [foldM]; [exists ps; by rewrite app_nil_r|].
  apply Forall_cons in HF as [Hv HF]. rewrite (each_transition_fold a v _ add) by (done || apply G).
  destruct (foldM_add (delta a v) ts ps H) as (ps1 & -> & H1); [by apply (wf_ok _ (good_wf _ G))|]. rewrite go_bind_ret.
  destruct (IH _ _ H1 HF) as (ps2 & -> & H2). exists ps2. unfold out. cbn [map concat]. by rewrite <- app_assoc in H2.
Qed.

Lemma elem_of_out t vals : t ∈ out vals ↔ ∃ v, v ∈ vals ∧ t ∈ delta a v.
Proof.
  unfold out. rewrite list_elem_of_In, in_concat. setoid_rewrite in_map_iff. split.
  - intros (l & (v & <- & Hv) & Ht). exists v. by rewrite !list_elem_of_In.
  - intros (v & Hv%list_elem_of_In & Ht%list_elem_of_In). eauto.
Qed.

Lemma out_ok vals : Forall (fun v => 0 ≤ v < NumStates a) vals → Forall (tr_ok (NumStates a)) (out vals).
Proof.
  intros HF. apply Forall_forall. intros t (v & Hv & Ht)%elem_of_out. rewrite Forall_forall in HF.
  pose proof (wf_ok _ (good_wf _ G) v (HF v Hv)) as HO. rewrite Forall_forall in HO. by apply HO.
Qed.

(** A set leads on a label to the states that its members lead to. *)
Lemma elem_of_succ vals c d : d ∈ succ (out vals) c ↔ ∃ s, s ∈ vals ∧ edge a s c d.
Proof.
  unfold succ, on, edge, leads, covers. rewrite elem_of_members, list_elem_of_fmap. setoid_rewrite list_elem_of_filter.
  setoid_rewrite elem_of_out. split.
  - intros (t & -> & Hc & v & Hv & Ht). exists v. split; [done|]. by exists t.
  - intros (v & Hv & t & Ht & <- & Hc). exists t. split_and!; [done|lia..|]. by exists v.
Qed.

Lemma on_succ vals c : on c (out vals) ≠ [] ↔ ∃ s d, s ∈ vals ∧ edge a s c d.
Proof.
  split.
  - intros Hne. destruct (on c (out vals)) as [|t l] eqn:E; [done|]. assert (Hd : dest_ t ∈ succ (out vals) c).
    { unfold succ. rewrite elem_of_members, E. left. }
    apply elem_of_succ in Hd as (s & Hs & He). eauto.
  - intros (s & d & Hs & He) E. assert (Hd : d ∈ succ (out vals) c) by (apply elem_of_succ; eauto).
    unfold succ in Hd. rewrite E in Hd. apply elem_of_members in Hd. by apply elem_of_nil in Hd.
Qed.

Definition goes_to (reg : list (list Z)) (vals : list Z) (c d : Z) : Prop :=
  on c (out vals) ≠ [] ∧ 0 ≤ d ∧ reg !! Z.to_nat d = Some (succ (out vals) c).

Lemma process_spec k (r : nat) vals reg st :
  rep k reg st → reg !! r = Some vals → holds [] [] (points_ st) → counted [] (statesSet st) →
  ∃ reg' st', process a {| fs_values := vals; newState := Z.of_nat r |} st = Ret st' ∧ reg `prefix_of` reg' ∧ rep k reg' st' ∧
    holds [] [] (points_ st') ∧ counted [] (statesSet st') ∧
    (∀ c, on c (out vals) ≠ [] → succ (out vals) c ∈ reg') ∧
    ∀ s c d, b_edge (bld st') s c d ↔ b_edge (bld st) s c d ∨ s = Z.of_nat r ∧ goes_to reg' vals c d.
Proof.
  intros R Hr HP HC. pose proof (rg_valid _ _ _ (rp_reg _ _ _ R)) as HV. rewrite Forall_forall in HV.
  destruct (HV vals) as (_ & _ & HB); [by eapply list_elem_of_lookup_2|].
  unfold process. cbn [fs_values newState]. destruct (gather_spec vals [] _ HP HB) as (ps & -> & H). cbn [app] in H.
  rewrite go_bind_ret. set (ts := out vals) in *. pose proof (out_ok vals HB) as HF. fold ts in HF.
  destruct (Z.eqb_spec (count ps) 0) as [E0|E0].
  - assert (Hts : ts = []).
    { destruct ts as [|t l] eqn:E; [done|]. pose proof (ho_starts _ _ _ H t ltac:(left)) as Hk.
      unfold keys, active in Hk. rewrite E0 in Hk. by apply elem_of_nil in Hk. }
    rewrite Hts in *. exists reg, (set_points_ ps st). split_and!; try done.
    + by apply (rep_same k reg st); try done; apply R.
    + intros s c d. split; [by left|]. unfold goes_to. fold ts. rewrite Hts. by intros [?|(_ & ? & _)].
  - destruct (sort_holds _ _ _ H) as (HS & Hsorted & _). clear H E0. set (ps0 := sort ps) in *. clearbody ps0. clear ps.
    pose proof (ho_wf _ _ _ HS) as W0. pose proof (pw_count _ W0) as Hcnt.
    pose proof (lookup_lt_Some _ _ _ Hr) as Hrl. cbn zeta.
    destruct (go_for_inv (E := autoerr) (fun i '(st', last, acc) => ∃ reg', reg `prefix_of` reg' ∧
        swept k (Z.of_nat r) ts ps0 (b_edge (bld st)) (Z.to_nat i) reg' st' last acc)
      (Z.to_nat (count ps0)) 0 (sweep_point a (Z.of_nat r)) (set_points_ ps0 st, -1, 0)) as ([[st' last] acc] & -> & reg' & HPre & SW).
    + exists reg. split; [done|]. assert (E : on (-1) ts = []).
      { apply filter_nothing. intros t Ht. rewrite Forall_forall in HF. destruct (HF t Ht). lia. }
      split; try done; rewrite ?E.
      * apply (rep_same k reg st); try done; apply R.
      * intros q (j & Hj)%list_elem_of_lookup. right. exists j. split; [lia|done].
      * intros j q _ Hj. assert (0 ≤ q); [|lia]. apply (ho_labels _ _ _ HS). by eapply list_elem_of_lookup_2.
      * exact HC.
      * reflexivity.
      * intros c Hc Hne. destruct Hne. apply filter_nothing. intros t Ht. rewrite Forall_forall in HF. destruct (HF t Ht). lia.
      * intros s c d. split; [by left|]. intros [?|(_ & Hc & Hne & _)]; [done|].
        destruct Hne. apply filter_nothing. intros t Ht. rewrite Forall_forall in HF. destruct (HF t Ht). lia.
    + intros i [[st1 last] acc] Hi (reg1 & HPre & SW). destruct (active_lookup ps0 i W0) as (o & _ & Ho); [lia|].
      pose proof (prefix_length _ _ HPre).
      destruct (sweep_point_spec k (Z.of_nat r) ts ps0 _ _ reg1 st1 last acc o HS HF Hsorted ltac:(lia) SW Ho)
        as (reg2 & st2 & last2 & acc2 & E & HPre2 & SW2 & _). rewrite Z2Nat.id in E by lia.
      exists (st2, last2, acc2). split; [done|]. exists reg2. split; [by transitivity reg1|].
      by replace (Z.to_nat (i + 1)) with (S (Z.to_nat i)) by lia.
    + rewrite go_bind_ret. rewrite Z.add_0_l, Z2Nat.id in SW by lia. destruct SW as [R1 HL HBf HA HC1 Hacc HW HP1 HO HK HE].
      assert (Hend : ∀ c, last ≤ c → on c ts = []).
      { intros c Hc. apply filter_nothing. intros t Ht. pose proof (ho_ends _ _ _ HS t Ht) as Hk.
        destruct (HBf _ Hk) as [?|(j & Hj & Hjq)]; [lia|]. apply lookup_lt_Some in Hjq.
        unfold keys in Hjq. rewrite length_fmap in Hjq. pose proof (length_active ps0 W0). lia. }
      rewrite Hend in HC1 by lia. cbn [set_points_ statesSet]. rewrite (proj2 (size_counted _ _ HC1)) by done. cbn [negb Z.eqb].
      exists reg', (set_points_ (reset (points_ st')) st'). split_and!; try done.
      * by apply (rep_same k reg' st'); try done; apply R1.
      * by apply reset_holds.
      * intros c Hne. apply HK; [|done]. destruct (Z.lt_ge_cases c last); [done|]. by rewrite Hend in Hne.
      * intros s c d. cbn [set_points_ bld]. rewrite HE. unfold goes_to. fold ts. split; [tauto|].
        intros [?|(-> & Hne & Hd)]; [auto|]. right. split_and!; try tauto.
        destruct (Z.lt_ge_cases c last); [done|]. by rewrite Hend in Hne.
Qed.

(** * The work list *)

(** The first [k] of the sets that have numbers are done, the others wait. *)
Record built (limit : Z) (k : nat) (reg : list (list Z)) (st : building) (effort : Z) : Prop := {
  bt_rep : rep k reg st;
  bt_initial : reg !! 0%nat = Some [0];
  bt_points : holds [] [] (points_ st);
  bt_set : counted [] (statesSet st);
  bt_known : ∀ i vals c, (i < k)%nat → reg !! i = Some vals → on c (out vals) ≠ [] → succ (out vals) c ∈ reg;
  bt_edge : ∀ s c d, b_edge (bld st) s c d ↔
    ∃ i vals, s = Z.of_nat i ∧ (i < k)%nat ∧ reg !! i = Some vals ∧ goes_to reg vals c d;
  bt_effort : 0 ≤ effort ≤ Z.of_nat k * NumStates a;
  bt_limit : effort ≤ Z.max limit 0
}.

Lemma goes_to_prefix reg reg' vals c d :
  reg `prefix_of` reg' → NoDup reg' → (on c (out vals) ≠ [] → succ (out vals) c ∈ reg) →
  goes_to reg' vals c d ↔ goes_to reg vals c d.
Proof.
  intros HP HD HK. unfold goes_to. split; intros (Hne & Hd & Hreg); split_and!; try done.
  - pose proof (HK Hne) as (j & Hj)%list_elem_of_lookup. pose proof (prefix_lookup_Some _ _ _ _ Hj HP) as Hj'.
    by rewrite (NoDup_lookup _ _ _ _ HD Hreg Hj').
  - by eapply prefix_lookup_Some.
Qed.

Lemma number_list_drop reg (k : nat) vals :
  reg !! k = Some vals → drop k (number_list reg) = {| fs_values := vals; newState := Z.of_nat k |} :: drop (S k) (number_list reg).
Proof. intros Hk. apply drop_S. unfold number_list. by rewrite list_lookup_imap, Hk. Qed.

(** Too much effort: more than all sets of states could take. *)
Definition too_complex (limit : Z) (e : autoerr) : Prop :=
  e = ArrayTooLarge ∨ e = TooComplexToDeterminize ∧ limit ≤ NumStates a * 2 ^ NumStates a.

Lemma determinize_step_spec limit st effort :
  (∃ k reg, built limit k reg st effort) →
  wpx (too_complex limit) (determinize_step a limit (st, effort)) (fun r => match r with
    | inl (st', effort') => (∃ k reg, built limit k reg st' effort') ∧ effort < effort'
    | inr st' => ∃ reg, built limit (length reg) reg st' effort
    end).
Proof.
  intros (k & reg & [R HI HP HC HK HE HB HL]). unfold determinize_step. rewrite (rp_worklist _ _ _ R).
  pose proof (rp_bound _ _ _ R) as Hk. pose proof (rp_reg _ _ _ R) as [HV HD _].
  pose proof (NumStates_pos _ (good_wf _ G)) as HN0.
  destruct (decide (k = length reg)) as [->|Hne].
  - rewrite drop_ge by (unfold number_list; by rewrite length_imap). cbn. by exists reg.
  - destruct (lookup_lt_is_Some_2 reg k) as [vals Hvals]; [lia|]. rewrite (number_list_drop reg k vals Hvals). cbn [fs_values].
    assert (Hv : valid_set (NumStates a) vals) by (rewrite Forall_forall in HV; apply HV; by eapply list_elem_of_lookup_2).
    destruct Hv as (Hv1 & Hv2 & Hv3). pose proof (sorted_length _ _ Hv2 Hv3) as Hlen.
    assert (Hlen0 : 0 < Z.of_nat (length vals)) by (destruct vals; [done|cbn; lia]).
    pose proof (registry_bound _ _ HN0 HD HV) as Hreg.
    destruct (Z.leb_spec limit (effort + Z.of_nat (length vals))) as [Hover|Hless].
    { cbn. right. split; [done|]. nia. }
    set (st1 := {| bld := bld st; worklist := _ |}).
    assert (R1 : rep (S k) reg st1) by (destruct R; split; try done; lia).
    destruct (process_spec (S k) k vals reg st1 R1 Hvals HP HC) as (reg' & st' & -> & HPre & R' & HP' & HC' & HK' & HE').
    cbn. split; [|lia]. exists (S k), reg'. pose proof (rg_nodup _ _ _ (rp_reg _ _ _ R')) as HD'.
    assert (Hsame : ∀ i us, (i < k)%nat → reg' !! i = Some us → reg !! i = Some us).
    { intros i us Hi Hus. destruct (lookup_lt_is_Some_2 reg i) as [ws Hws]; [lia|].
      rewrite (prefix_lookup_Some _ _ _ _ Hws HPre) in Hus. congruence. }
    pose proof (prefix_lookup_Some _ _ _ _ Hvals HPre) as Hvals'.
    split; try done; [by eapply prefix_lookup_Some| | |nia|lia].
    + intros i us c Hi Hus Hon. destruct (decide (i = k)) as [->|].
      * assert (us = vals) as -> by congruence. by apply HK'.
      * eapply elem_of_prefix; [|exact HPre]. apply (HK i us); [lia| |done]. apply Hsame; [lia|done].
    + intros s c d. rewrite HE'. cbn [bld st1]. rewrite HE. split.
      * intros [(i & us & -> & Hi & Hus & Hgo)|[-> Hgo]]; [|exists k, vals; split_and!; done || lia].
        exists i, us. split_and!; [done|lia|by eapply prefix_lookup_Some|].
        apply (goes_to_prefix reg reg'); [done|done|by apply (HK i us)|done].
      * intros (i & us & -> & Hi & Hus & Hgo). destruct (decide (i = k)) as [->|].
        { right. split; [done|]. assert (us = vals) as -> by congruence. done. }
        left. assert (Hus' : reg !! i = Some us) by (apply Hsame; [lia|done]).
        exists i, us. split_and!; [done|lia|done|]. apply (goes_to_prefix reg reg'); [done|done|apply (HK i us); [lia|done]|done].
Qed.

(** The automaton of the sets. *)
Lemma sets_language limit reg st effort a' :
  built limit (length reg) reg st effort → good a' → NumStates a' = b_nextState (bld st) →
  (∀ s, IsAccept a' s = b_accept (bld st) s) → (∀ s c d, 0 ≤ s → edge a' s c d ↔ b_edge (bld st) s c d) →
  deterministic a' = true ∧ ∀ w, language a' w ↔ language a w.
Proof.
  intros [R HI _ _ HK HE _ _] G' HN' HA' HE'. destruct (rp_reg _ _ _ R) as [HV HD _].
  assert (HF : functional_edges (b_edge (bld st))).
  { intros s c d d' (i & us & -> & Hi & Hus & Hgo)%HE (i' & us' & Ei & _ & Hus' & Hgo')%HE. apply Nat2Z.inj in Ei as <-.
    assert (us' = us) as -> by congruence. destruct Hgo as (_ & ? & H1), Hgo' as (_ & ? & H2).
    pose proof (NoDup_lookup _ _ _ _ HD H1 H2). lia. }
  split.
  - apply deterministic_iff; [apply G'..|]. intros s Hs c d d' He He'.
    apply (HF s c); apply HE'; (lia || done).
  - intros w. transitivity (accepts (b_edge (bld st)) (fun s => b_accept (bld st) s = true) w).
    { apply (accepts_ext (fun s => 0 ≤ s)); [intros s c d Hs; by apply HE'| | |done].
      - intros s c d Hs He%HE'; [|done]. apply b_edge_dest in He as (_ & ? & _); [lia|apply R].
      - intros s Hs. unfold final. by rewrite HA'. }
    unfold accepts. rewrite (accepts_subsets (fun q S => ∃ (i : nat) vals, q = Z.of_nat i ∧ reg !! i = Some vals ∧ ∀ d, S d ↔ d ∈ vals)
      (edge a) (final a) _ _ w) with (S := fun d => d = 0).
    + unfold language, accepts. split; [by intros (s & -> & ?)|]. intros ?. by exists 0.
    + intros q S c q' (i & vals & -> & Hi & HS) (i' & us & Ei & Hlt & Hus & Hne & Hd & Hq')%HE. apply Nat2Z.inj in Ei as <-.
      assert (us = vals) as -> by congruence. exists (.∈ succ (out vals) c). split.
      * exists (Z.to_nat q'), (succ (out vals) c). split_and!; [lia|done|done].
      * intros d. rewrite elem_of_succ. by setoid_rewrite HS.
    + intros q S c s d (i & vals & -> & Hi & HS) Hs He. apply HS in Hs.
      assert (Hon : on c (out vals) ≠ []) by (apply on_succ; eauto).
      pose proof (HK i vals c (lookup_lt_Some _ _ _ Hi) Hi Hon) as (j & Hj)%list_elem_of_lookup.
      exists (Z.of_nat j). apply HE. exists i, vals. split_and!; [done|by eapply lookup_lt_Some|done|].
      split_and!; [done|lia|by rewrite Nat2Z.id].
    + exact HF.
    + intros q S (i & vals & -> & Hi & HS). rewrite (rp_accept _ _ _ R i vals Hi), existsb_exists. unfold final.
      setoid_rewrite HS. by setoid_rewrite list_elem_of_In.
    + exists 0%nat, [0]. split_and!; [done|done|]. intros d. by rewrite list_elem_of_singleton.
Qed.

Lemma Determinize_spec workLimit :
  match Determinize a workLimit with
  | Ret a' => good a' ∧ (1 < NumStates a → deterministic a' = true) ∧ ∀ w, language a' w ↔ language a w
  | Err e => deterministic a = false ∧ too_complex (to_int64 (workLimit * 10)) e
  | _ => False
  end.
Proof.
  unfold Determinize. destruct (deterministic a) eqn:ED; [done|].
  destruct (Z.leb_spec (NumStates a) 1) as [H1|H1]; [split_and!; [done|lia|done]|].
  destruct (BuilderCreateState_spec _ NewBuilder_bwf) as (b0 & -> & W0 & N0 & T0 & A0). cbn in N0, T0.
  destruct (BuilderSetAccept_spec 0 (IsAccept a 0) b0 W0) as (b1 & -> & W1 & N1 & T1 & A1); [lia|].
  rewrite go_bind_ret. cbn zeta. set (limit := to_int64 (workLimit * 10)).
  set (st0 := {| bld := b1; points_ := _ |}).
  assert (HB : built limit 0 [[0]] st0 0).
  { assert (Hv : valid_set (NumStates a) [0]) by (split_and!; [done|repeat constructor|apply Forall_singleton; lia]).
    split; try done; [|apply new_holds|lia| |lia].
    - split; cbn [newstate worklist bld st0]; [|done|cbn; lia|done|cbn; lia|].
      + split; [by apply Forall_singleton|apply NoDup_singleton|]. intros key q. rewrite lookup_singleton_Some. split.
        * intros [<- <-]. by exists 0%nat, [0].
        * intros (i & us & Hi%list_lookup_singleton_Some & -> & ->). destruct Hi as [-> <-]. done.
      + intros i us [-> <-]%list_lookup_singleton_Some. rewrite A1. cbn. by rewrite orb_false_r.
    - intros s c d. unfold b_edge. cbn [bld st0]. rewrite T1, T0. split; [by intros (? & ? & ?%elem_of_nil & _)|].
      intros (i & us & _ & Hi & _). lia. }
  assert (HW : wpx (too_complex limit) (go_loop (Z.to_pos (limit + 1)) (determinize_step a limit) (st0, 0))
    (fun st => ∃ reg effort, built limit (length reg) reg st effort)).
  { apply (go_loop_wpx _ (fun '(st, effort) => ∃ k reg, built limit k reg st effort) (fun '(st, effort) => Z.max limit 0 - effort)).
    - eauto.
    - lia.
    - intros [st effort] (k & reg & HB'). pose proof (bt_limit _ _ _ _ _ HB'). lia.
    - intros [st effort] HI. eapply wpx_post; [by apply determinize_step_spec|].
      intros [[st' effort']|st']; [intros [? ?]; split; [done|lia]|]. intros (reg & ?). eauto. }
  destruct (go_loop _ _ _) as [st|e| |]; cbn in HW; try done. cbn [mbind go_bind].
  destruct HW as (reg & effort & HB'). pose proof (Finish_spec (bld st) (rp_bwf _ _ _ (bt_rep _ _ _ _ _ HB'))) as HFin.
  destruct (Finish (bld st)) as [a'|[]| |]; cbn in HFin; try done; [|split; [done|by left]].
  destruct HFin as (G' & N' & A' & E').
  destruct (sets_language limit reg st effort a' HB' G' N' A' E') as [? ?]. done.
Qed.

End Construction.

(** An automaton with one state is deterministic. *)
Lemma one_state_deterministic a : good a → NumStates a ≤ 1 → deterministic a = true.
Proof.
  intros [W Hc] H1. apply deterministic_iff; [done|done|]. intros s Hs c d d' H H'.
  apply (edge_dest a s c d W) in H as (_ & ? & _); [|lia]. apply (edge_dest a s c d' W) in H' as (_ & ? & _); [|lia]. lia.
Qed.

(** C2. [Determinize] ends without a panic, and its result is deterministic and accepts
    the words that the automaton accepts.  It gives up with
    [ErrTooComplexToDeterminize] only if ten times the limit on the work (an [int64]) is
    at most [n * 2^n] for [n] states: with more work allowed, no automaton is too
    complex. *)
Theorem Determinize_correct a workLimit :
  good a → NumStates a < 2 ^ 63 →
  match Determinize a workLimit with
  | Ret a' => good a' ∧ deterministic a' = true ∧ ∀ w, language a' w ↔ language a w
  | Err TooComplexToDeterminize => to_int64 (workLimit * 10) ≤ NumStates a * 2 ^ NumStates a
  | Err ArrayTooLarge => True
  | _ => False
  end.
Proof.
  intros G HN. pose proof (Determinize_spec a G HN workLimit) as H.
  destruct (Determinize a workLimit) as [a'|e| |] eqn:E; try done.
  - destruct H as (G' & HD & HL). split_and!; [done| |done]. destruct (Z.lt_ge_cases 1 (NumStates a)); [by apply HD|].
    unfold Determinize in E. rewrite one_state_deterministic in E by done. injection E as <-. by apply one_state_deterministic.
  - destruct H as [_ [->|[-> ?]]]; done.
Qed.

Lemma Determinize_correct_witness :
  match run_build [BCreateState; BCreateState; BCreateState; BCreateState; BSetAccept 3 true;
       BAddTransition 0 0 97 99; BAddTransition 0 1 97 97; BAddTransition 0 2 98 98;
       BAddTransition 1 3 99 99; BAddTransition 2 3 98 98; BFinishState] NewAutomaton with
  | Ret a =>
      deterministic a = false ∧ Determinize a 1 = Err TooComplexToDeterminize ∧
      match Determinize a 2 with
      | Ret a' => good a' ∧ deterministic a' = true ∧ ∀ w, language a' w ↔ language a w
      | _ => False
      end
  | _ => False
  end.
Proof.
  set (os := [_; _; _; _; _; _; _; _; _; _; _]).
  destruct (run_build os NewAutomaton) as [a| | |] eqn:E; try (vm_compute in E; discriminate).
  destruct (run_build_good os 4 a) as [G HN];
    [repeat (apply Forall_cons; split; [cbn; lia|]); constructor|exact E|vm_compute; reflexivity|].
  vm_compute in E. injection E as <-. split; [|split]; [vm_compute; reflexivity..|].
  pose proof (Determinize_correct _ 2 G ltac:(rewrite HN; vm_compute; reflexivity)) as H.
  destruct (Determinize _ 2) as [a'|e| |] eqn:Ed; [exact H|vm_compute in Ed; discriminate..].
Defined.
