(* ===== verification/Rows.v ===== *)
(** Adding rows of transitions to an automaton: what the operations on automata have in
    common.  A row is a state with the transitions that leave it. *)

From stdpp Require Import base tactics numbers list sets.
From Stdlib Require Import ZArith Lia.
From S2P Require Import Prelude WordBits Nfa Automaton Builder.

Local Open Scope Z_scope.

(** * Loops as folds *)

Lemma foldM_ext {A St} (f g : A → St → AM St) l st :
  (∀ x st, x ∈ l → f x st = g x st) → foldM f l st = foldM g l st.
Proof.
  revert st. induction l as [|x l IH]; intros st H; cbn; [done|]. rewrite H by left.
  destruct (g x st); cbn; try done. apply IH. intros y st' Hy. apply H. by right.
Qed.

Lemma foldM_map {A B St} (f : B → St → AM St) (g : A → B) l st :
  foldM f (map g l) st = foldM (fun x => f (g x)) l st.
Proof. revert st. induction l as [|x l IH]; intros st; cbn; [done|]. destruct (f (g x) st); cbn; try apply IH; done. Qed.

Lemma foldM_omap {A B St} (f : B → St → AM St) (g : A → option B) l st :
  foldM f (omap g l) st = foldM (fun x st => match g x with Some y => f y st | None => mret st end) l st.
Proof.
  revert st. induction l as [|x l IH]; intros st; [done|]. cbn [foldM]. change (omap g (x :: l)) with
    (match g x with Some y => y :: omap g l | None => omap g l end). destruct (g x) as [y|]; [|apply IH].
  cbn [foldM]. destruct (f y st); cbn [mbind go_bind]; try apply IH; done.
Qed.

Lemma foldM_app {A St} (f : A → St → AM St) l k st : foldM f (l ++ k) st = (st' ← foldM f l st; foldM f k st').
Proof. revert st. induction l as [|x l IH]; intros st; cbn; [done|]. destruct (f x st); cbn; try apply IH; done. Qed.

Lemma foldM_mret {A St} (f : A → St → St) l st : foldM (fun x st => mret (f x st)) l st = Ret (fold_left (fun st x => f x st) l st).
Proof. revert st. induction l as [|x l IH]; intros st; cbn; [done|]. apply IH. Qed.

Lemma go_for_fold {St} n lo (body : Z → St → AM St) st : go_for n lo body st = foldM body (seqZ lo (Z.of_nat n)) st.
Proof.
  revert lo st. induction n as [|n IH]; intros lo st; [done|]. rewrite seqZ_cons by lia. cbn [go_for foldM].
  destruct (body lo st); cbn [mbind go_bind]; try done. rewrite IH. by replace (Z.pred (Z.of_nat (S n))) with (Z.of_nat n) by lia.
Qed.

Lemma go_for_ext_range {St} n (f g : Z → St → AM St) st :
  (∀ i st, 0 ≤ i < Z.of_nat n → f i st = g i st) → go_for n 0 f st = go_for n 0 g st.
Proof. intros H. apply go_for_ext. intros i s Hi. apply H. lia. Qed.

(** * Rows *)

Abbreviation row := (Z * list tr)%type.

Definition row_quads (r : row) : list quad := map (fun t => (r.1, dest_ t, min_ t, max_ t)) r.2.
Definition quads (rows : list row) : list quad := concat (map row_quads rows).

Definition quads_edge (l : list quad) (s c d : Z) : Prop := ∃ lo hi, (s, d, lo, hi) ∈ l ∧ lo ≤ c ≤ hi.

Definition add_row (r : row) (a : Automaton) : AM Automaton :=
  foldM (fun t a => AddTransition r.1 (dest_ t) (min_ t) (max_ t) a) r.2 a.

(** The automaton [a'] is [a] with the transitions of [l]. *)
Record added (l : list quad) (a a' : Automaton) : Prop := {
  dd_wf : wf a';
  dd_NumStates : NumStates a' = NumStates a;
  dd_IsAccept : ∀ s, IsAccept a' s = IsAccept a s;
  dd_started : ∀ i, 0 ≤ i → started a' i ↔ started a i ∨ i ∈ (source_of <$> l);
  dd_edge : ∀ s c d, 0 ≤ s → edge a' s c d ↔ edge a s c d ∨ quads_edge l s c d
}.

Lemma quads_edge_nil s c d : ¬ quads_edge [] s c d.
Proof. by intros (? & ? & ?%elem_of_nil & _). Qed.

Lemma quads_edge_app l k s c d : quads_edge (l ++ k) s c d ↔ quads_edge l s c d ∨ quads_edge k s c d.
Proof. unfold quads_edge. setoid_rewrite elem_of_app. naive_solver. Qed.

Lemma quads_edge_one s d lo hi i c e : quads_edge [(s, d, lo, hi)] i c e ↔ i = s ∧ e = d ∧ lo ≤ c ≤ hi.
Proof.
  unfold quads_edge. setoid_rewrite list_elem_of_singleton. split.
  - by intros (? & ? & [= -> -> -> ->] & ?).
  - intros (-> & -> & ?). eauto.
Qed.

Lemma quads_edge_row r i c e : quads_edge (row_quads r) i c e ↔ i = r.1 ∧ leads r.2 c e.
Proof.
  unfold quads_edge, row_quads, leads, covers. setoid_rewrite list_elem_of_fmap. split.
  - intros (lo & hi & (t & [= -> -> -> ->] & Ht) & Hc). split; [done|]. by exists t.
  - intros (-> & t & Ht & <- & Hc). exists (min_ t), (max_ t). split; [by exists t|done].
Qed.

Lemma quads_edge_rows rows i c e : quads_edge (quads rows) i c e ↔ ∃ ts, (i, ts) ∈ rows ∧ leads ts c e.
Proof.
  unfold quads. induction rows as [|r rows IH]; cbn [map concat].
  - split; [by intros ?%quads_edge_nil|]. by intros (? & ?%elem_of_nil & _).
  - rewrite quads_edge_app, quads_edge_row, IH. setoid_rewrite elem_of_cons. destruct r as [s ts]. cbn. split.
    + intros [[-> ?]|(us & ? & ?)]; eauto.
    + intros (us & [[= -> ->]|?] & ?); eauto.
Qed.

Lemma sources_rows rows i : i ∈ (source_of <$> quads rows) → i ∈ rows.*1.
Proof.
  intros (q & -> & Hq)%list_elem_of_fmap. unfold quads in Hq. apply list_elem_of_In, in_concat in Hq as (l & Hl & Hq).
  apply in_map_iff in Hl as (r & <- & Hr). apply list_elem_of_In in Hq. apply list_elem_of_fmap in Hq as (t & -> & _).
  cbn. apply list_elem_of_fmap_2. by apply list_elem_of_In.
Qed.

Lemma added_refl a : wf a → added [] a a.
Proof.
  intros W. split; try done.
  - intros i _. split; [by left|]. by intros [?|?%elem_of_nil].
  - intros s c d _. split; [by left|]. by intros [?|?%quads_edge_nil].
Qed.

Lemma added_trans l k a a1 a2 : added l a a1 → added k a1 a2 → added (l ++ k) a a2.
Proof.
  intros [W1 N1 A1 S1 E1] [W2 N2 A2 S2 E2]. split; try done; [congruence| | |].
  - intros s. by rewrite A2.
  - intros i Hi. rewrite S2, S1, fmap_app, elem_of_app by done. tauto.
  - intros s c d Hs. rewrite E2, E1, quads_edge_app by done. tauto.
Qed.

Lemma added_one s d lo hi a a' : adds s d lo hi a a' → added [(s, d, lo, hi)] a a'.
Proof.
  intros H. split; try apply H.
  - intros i Hi. rewrite (ad_started _ _ _ _ _ _ H) by done.
    change (source_of <$> [(s, d, lo, hi)]) with [s]. by rewrite list_elem_of_singleton.
  - intros i c e Hi. by rewrite (ad_edge _ _ _ _ _ _ H), quads_edge_one.
Qed.

Lemma add_row_spec r a :
  wf a → 0 ≤ r.1 < NumStates a → Forall (tr_ok (NumStates a)) r.2 → curState a = r.1 ∨ ¬ started a r.1 →
  runs (add_row r a) (fun a' => added (row_quads r) a a' ∧ (curState a' = curState a ∨ curState a' = r.1)).
Proof.
  destruct r as [s ts]. cbn [fst snd]. intros W Hs HF Hst. unfold add_row. cbn [fst snd].
  eapply runs_mono; [apply (foldM_inv (fun k a' => added (row_quads (s, k)) a a' ∧ (curState a' = curState a ∨ curState a' = s) ∧
    (curState a' = s ∨ ¬ started a' s)))|].
  - split_and!; [by apply added_refl|by left|done].
  - intros k t a1 [l' ->] (HA & Hc & Hst1). pose proof (dd_NumStates _ _ _ HA) as N1. pose proof (dd_wf _ _ _ HA) as W1.
    rewrite Forall_forall in HF. destruct (HF t ltac:(set_solver)) as [? ?].
    eapply runs_mono; [apply AddTransition_spec; rewrite ?N1; done|]. intros a2 H2. split_and!.
    + unfold row_quads. cbn [fst snd]. rewrite map_app. by apply added_trans with a1; [|apply added_one].
    + right. apply H2.
    + left. apply H2.
  - intros a' (HA & Hc & _). done.
Qed.

Lemma add_rows_spec rows a :
  wf a → NoDup rows.*1 → (∀ s ts, (s, ts) ∈ rows → 0 ≤ s < NumStates a ∧ Forall (tr_ok (NumStates a)) ts ∧ ¬ started a s) →
  runs (foldM add_row rows a) (added (quads rows) a).
Proof.
  intros W HN HR. apply (foldM_inv (fun k a' => added (quads k) a a')); [by apply added_refl|].
  intros k [s ts] a1 [l' ->] HA. destruct (HR s ts) as (Hs & HF & Hst); [set_solver|].
  pose proof (dd_NumStates _ _ _ HA) as N1.
  eapply runs_mono; [apply add_row_spec; cbn [fst snd]; rewrite ?N1; [apply HA|done|done|right]|].
  - rewrite (dd_started _ _ _ HA) by lia. intros [?|Hin%sources_rows]; [done|].
    rewrite <- app_assoc, fmap_app in HN. apply NoDup_app in HN as (_ & HN & _). apply (HN s Hin). cbn. left.
  - intros a2 [H2 _]. unfold quads. rewrite map_app, concat_app. cbn. rewrite app_nil_r. by apply added_trans with a1.
Qed.

(** The loop [for s := 0; s < n; s++] that adds the row of each state. *)
Lemma add_rows_for n (body : Z → Automaton → AM Automaton) (src : Z → Z) (ts : Z → list tr) a :
  wf a → (∀ i a', 0 ≤ i < Z.of_nat n → NumStates a' = NumStates a → body i a' = add_row (src i, ts i) a') →
  (∀ i, 0 ≤ i < Z.of_nat n → ts i ≠ [] → 0 ≤ src i < NumStates a ∧ Forall (tr_ok (NumStates a)) (ts i) ∧ ¬ started a (src i)) →
  (∀ i j, 0 ≤ i < Z.of_nat n → 0 ≤ j < Z.of_nat n → ts i ≠ [] → ts j ≠ [] → src i = src j → i = j) →
  runs (go_for n 0 body a) (fun a' => added (quads (map (fun i => (src i, ts i)) (seqZ 0 (Z.of_nat n)))) a a').
Proof.
  intros W Hb Hok Hinj.
  eapply runs_mono; [apply (runs_for_inv (fun i a' => 0 ≤ i ∧
    added (quads (map (fun i => (src i, ts i)) (seqZ 0 i))) a a'))|].
  - split; [lia|]. by apply added_refl.
  - intros i a1 Hi [Hi0 HA]. pose proof (dd_NumStates _ _ _ HA) as N1.
    rewrite Hb by (lia || done).
    assert (Hq : quads (map (fun i => (src i, ts i)) (seqZ 0 (i + 1))) =
                 quads (map (fun i => (src i, ts i)) (seqZ 0 i)) ++ row_quads (src i, ts i)).
    { rewrite seqZ_app by lia. unfold quads. rewrite !map_app, concat_app. f_equal. rewrite Z.add_0_l.
      replace (seqZ i 1) with [i] by (by rewrite seqZ_cons by lia). cbn [map concat]. apply app_nil_r. }
    rewrite Hq. destruct (decide (ts i = [])) as [E|E].
    + unfold add_row, row_quads. cbn [fst snd]. rewrite E. cbn. rewrite app_nil_r. split; [lia|done].
    + destruct (Hok i ltac:(lia) E) as (Hs & HF & Hst).
      eapply runs_mono; [apply add_row_spec; cbn [fst snd]; rewrite ?N1; [apply HA|done|done|right]|].
      * rewrite (dd_started _ _ _ HA) by lia. intros [?|Hin]; [done|].
        apply list_elem_of_fmap in Hin as (q & Eq & Hq'). unfold quads in Hq'.
        apply list_elem_of_In, in_concat in Hq' as (l & Hl & Hq'%list_elem_of_In).
        apply in_map_iff in Hl as (r & <- & Hr). apply in_map_iff in Hr as (j & <- & Hj%list_elem_of_In%elem_of_seqZ).
        apply list_elem_of_fmap in Hq' as (t & -> & Ht). cbn in Eq, Ht.
        assert (i = j); [|lia]. apply Hinj; [lia|lia|done| |done]. intros E0. rewrite E0 in Ht. by apply elem_of_nil in Ht.
      * intros a2 [H2 _]. split; [lia|]. by apply added_trans with a1.
  - intros a' [_ HA]. by rewrite Z.add_0_l in HA.
Qed.

(** [n] new states. *)
Lemma create_states n a :
  wf a → runs (go_for n 0 (fun _ a => '(_, a) ← CreateState a; mret a) a) (fun a' =>
    wf a' ∧ NumStates a' = NumStates a + Z.of_nat n ∧ (∀ s, 0 ≤ s → delta a' s = delta a s) ∧
    (∀ s, IsAccept a' s = IsAccept a s) ∧
    (∀ s, 0 ≤ s → started a' s ↔ started a s ∧ ¬ NumStates a ≤ s < NumStates a') ∧
    curState a' = curState a).
Proof.
  intros W. eapply runs_mono; [apply (runs_for_inv (fun i a' =>
    wf a' ∧ NumStates a' = NumStates a + i ∧ (∀ s, 0 ≤ s → delta a' s = delta a s) ∧
    (∀ s, IsAccept a' s = IsAccept a s) ∧ (∀ s, 0 ≤ s → started a' s ↔ started a s ∧ ¬ NumStates a ≤ s < NumStates a') ∧
    curState a' = curState a))|].
  - split_and!; try done; [lia|]. intros s _. split; [split; [done|lia]|by intros [? _]].
  - intros i a1 Hi (W1 & N1 & D1 & A1 & S1 & C1). eapply runs_step; [by apply CreateState_spec|].
    intros [s a2] (W2 & -> & N2 & D2 & A2 & S2 & C2 & _). cbn. split_and!; [done|lia| | | |congruence].
    + intros s Hs. by rewrite D2, D1.
    + intros s. by rewrite A2.
    + intros s Hs. rewrite S2, S1 by done. split; [intros [[? ?] ?]; split; [done|lia]|intros [? ?]; split_and!; [done|lia|lia]].
  - intros a' H. by rewrite Z.add_0_l in H.
Qed.
