(* ===== verification/Liveness.v ===== *)
(** States that matter: [IsEmpty], the live states, [RemoveDeadStates] and [IsTotal] of
    [util/automaton/operations.go].  The searches are breadth first, with a work list and
    a slice of flags. *)

From stdpp Require Import base tactics numbers list relations.
From Stdlib Require Import ZArith Lia.
From S2P Require Import Prelude WordBits Nfa Automaton Builder Rows.

Local Open Scope Z_scope.

(** * The code *)

(** [if !live[d] { live[d] = true; worklist = append(worklist, d) }] *)
Definition visit (d : Z) (st : list bool * list Z) : AM (list bool * list Z) :=
  let '(live, worklist) := st in
  b ← aget live d;
  if negb b then live ← aset live d true; mret (live, worklist ++ [d]) else mret (live, worklist).

Definition search_step (next : Z → list bool * list Z → AM (list bool * list Z)) (st : list bool * list Z)
  : AM ((list bool * list Z) + list bool) :=
  let '(live, worklist) := st in
  match worklist with
  | [] => mret (inr live)
  | s :: worklist => st ← next s (live, worklist); mret (inl st)
  end.

(** The bounds on the number of rounds: no state is put into a work list twice. *)
Definition liveStatesFromInitial (a : Automaton) : AM (list bool) :=
  let live := repeat false (Z.to_nat (NumStates a)) in
  if NumStates a =? 0 then mret live else
  live ← aset live 0 true;
  go_loop (Z.to_pos (NumStates a + 1))
    (search_step (fun s st => each_transition a s (fun t st => visit (Dest t) st) st)) (live, [0]).

Definition reversed (a : Automaton) : AM (list (list Z)) :=
  go_for (Z.to_nat (NumStates a)) 0 (fun s rev =>
    each_transition a s (fun t rev => l ← aget rev (Dest t); aset rev (Dest t) (l ++ [s])) rev)
    (repeat [] (Z.to_nat (NumStates a))).

Definition liveStatesToAccept (a : Automaton) : AM (list bool) :=
  rev ← reversed a;
  '(live, worklist) ← go_for (Z.to_nat (NumStates a)) 0 (fun s '(live, worklist) =>
    if IsAccept a s then live ← aset live s true; mret (live, worklist ++ [s]) else mret (live, worklist))
    (repeat false (Z.to_nat (NumStates a)), []);
  go_loop (Z.to_pos (NumStates a + 1))
    (search_step (fun s st => l ← aget rev s; foldM visit l st)) (live, worklist).

Definition getLiveStates (a : Automaton) : AM (list bool) :=
  from ← liveStatesFromInitial a;
  to ← liveStatesToAccept a;
  go_for (length from) 0 (fun i from => x ← aget from i; y ← aget to i; aset from i (x && y)) from.

Definition empty_step (a : Automaton) (st : list bool * list Z) : AM ((list bool * list Z) + bool) :=
  let '(seen, worklist) := st in
  match worklist with
  | [] => mret (inr true)
  | s :: worklist =>
      if IsAccept a s then mret (inr false) else
      st ← each_transition a s (fun t st => visit (Dest t) st) (seen, worklist); mret (inl st)
  end.

Definition IsEmpty (a : Automaton) : AM bool :=
  if NumStates a =? 0 then mret true else
  n ← GetNumTransitions a 0;
  if negb (IsAccept a 0) && (n =? 0) then mret true else
  if IsAccept a 0 then mret false else
  seen ← aset (repeat false (Z.to_nat (NumStates a))) 0 true;
  go_loop (Z.to_pos (NumStates a + 1)) (empty_step a) (seen, [0]).

Definition count_true (l : list bool) : Z := fold_left (fun n (v : bool) => if v then n + 1 else n) l 0.

Definition RemoveDeadStates (a : Automaton) : AM Automaton :=
  let numStates := NumStates a in
  live ← getLiveStates a;
  if count_true live =? numStates then mret a else
  '(result, stateMap) ← go_for (Z.to_nat numStates) 0 (fun i '(result, stateMap) =>
    b ← aget live i;
    if (b : bool) then
      '(n, result) ← CreateState result;
      stateMap ← aset stateMap i n;
      result ← SetAccept n (IsAccept a i) result;
      mret (result, stateMap)
    else mret (result, stateMap)) (NewAutomaton, repeat (-1) (Z.to_nat numStates));
  result ← go_for (Z.to_nat numStates) 0 (fun i result =>
    b ← aget live i;
    if negb b then mret result else
    each_transition a i (fun t result =>
      b ← aget live (Dest t);
      if (b : bool) then
        s ← aget stateMap i; d ← aget stateMap (Dest t);
        AddTransition s d (Min t) (Max t) result
      else mret result) result) result;
  FinishState result.

Definition HasDeadStates (a : Automaton) : AM bool :=
  live ← getLiveStates a;
  mret (count_true live <? NumStates a).

Definition HasDeadStatesFromInitial (a : Automaton) : AM bool :=
  fromInitial ← liveStatesFromInitial a;
  toAccept ← liveStatesToAccept a;
  mret (existsb (fun '(x, y) => x && negb y) (zip fromInitial toAccept)).

(** The labels of one state; [None] is the early return. *)
Definition covered (a : Automaton) (state minAlphabet : Z) : AM (option Z) :=
  count ← GetNumTransitions a state;
  go_for (Z.to_nat count) 0 (fun i st =>
    match st with
    | None => mret None
    | Some previousLabel =>
        t ← GetTransition a state i NewTransition;
        mret (if previousLabel + 1 <? Min t then None else Some (Max t))
    end) (Some (minAlphabet - 1)).

(** [seenStates], or [None] after a [return false]. *)
Definition IsTotalRange (a : Automaton) (minAlphabet maxAlphabet : Z) : AM bool :=
  live ← getLiveStates a;
  r ← go_for (length live) 0 (fun state st =>
    match st with
    | None => mret None
    | Some seenStates =>
        b ← aget live state;
        if negb b then mret st else
        if negb (IsAccept a state) then mret None else
        p ← covered a state minAlphabet;
        mret (match p with
              | Some previousLabel => if previousLabel <? maxAlphabet then None else Some (seenStates + 1)
              | None => None
              end)
    end) (Some 0);
  mret (match r with Some seenStates => 0 <? seenStates | None => false end).

Definition IsTotal (a : Automaton) : AM bool := IsTotalRange a MinCodePoint MaxCodePoint.

(** State 2 is a dead end, state 3 is not reached. *)
Example liveness_run :
  (a ← run_build [BCreateState; BCreateState; BCreateState; BCreateState; BSetAccept 1 true;
       BAddTransition 0 1 97 99; BAddTransition 0 2 100 100; BAddTransition 1 0 97 97; BAddTransition 3 1 48 57; BFinishState] NewAutomaton;
   f ← liveStatesFromInitial a; t ← liveStatesToAccept a; e ← IsEmpty a;
   r ← RemoveDeadStates a; n ← HasDeadStates a; n' ← HasDeadStates r; x ← HasDeadStatesFromInitial a;
   mret (f, t, e, NumStates r, delta r 0, (n, n', x)))
  = Ret ([true; true; true; false], [true; true; false; true], false, 2, [(1, 97, 99)] : list tr, (true, false, true)).
Proof. vm_compute. reflexivity. Qed.

(** * The search *)

Section Search.
Context (n : Z) (adj : Z → list Z) (Hadj : ∀ s d, 0 ≤ s < n → d ∈ adj s → 0 ≤ d < n).

(** The flags tell the states that are done or wait. *)
Record flags (P : list Z) (live : list bool) (wl : list Z) : Prop := {
  fl_length : Z.of_nat (length live) = n;
  fl_range : ∀ d, d ∈ P ++ wl → 0 ≤ d < n;
  fl_nodup : NoDup (P ++ wl);
  fl_live : ∀ d, 0 ≤ d < n → nthZ false live d = true ↔ d ∈ P ++ wl
}.

Lemma visit_spec P live wl d :
  flags P live wl → 0 ≤ d < n →
  ∃ live' new, visit d (live, wl) = Ret (live', wl ++ new) ∧ flags P live' (wl ++ new) ∧
    (∀ e, e ∈ new → e = d) ∧ d ∈ P ++ wl ++ new.
Proof.
  intros [H1 H2 H3 H4] Hd. unfold visit. rewrite (nthZ_aget false), go_bind_ret by lia. pose proof (H4 d Hd) as HL.
  destruct (nthZ false live d); cbn [negb].
  - exists live, []. rewrite app_nil_r. split_and!; [done|done|by intros e ?%elem_of_nil|by apply HL].
  - rewrite aset_Ret, go_bind_ret by lia. exists (<[Z.to_nat d:=true]> live), [d].
    assert (Hnd : d ∉ P ++ wl) by (intros Hin; by apply HL in Hin).
    split_and!; [done| |by intros e ->%list_elem_of_singleton|rewrite !elem_of_app; right; right; left].
    split; rewrite ?app_assoc; try rewrite app_assoc in *.
    + by rewrite length_insert.
    + intros e [?| ->%list_elem_of_singleton]%elem_of_app; [by apply H2|done].
    + apply NoDup_app. split_and!; [done| |apply NoDup_singleton]. by intros e He ->%list_elem_of_singleton.
    + intros e He. rewrite nthZ_insert, elem_of_app, list_elem_of_singleton by lia. case_decide as E; [subst; tauto|].
      rewrite (H4 e He). split; [by left|]. by intros [?| ->].
Qed.

Lemma visit_all l : ∀ P live wl, (∀ d, d ∈ l → 0 ≤ d < n) → flags P live wl →
  ∃ live' new, foldM visit l (live, wl) = Ret (live', wl ++ new) ∧ flags P live' (wl ++ new) ∧
    (∀ d, d ∈ new → d ∈ l) ∧ (∀ d, d ∈ l → d ∈ P ++ wl ++ new).
Proof.
  induction l as [|d l IH]; intros P live wl Hl HF; cbn [foldM].
  - exists live, []. rewrite app_nil_r. split_and!; try done; by intros ? ?%elem_of_nil.
  - destruct (visit_spec P live wl d HF) as (live1 & new1 & -> & HF1 & Hn1 & Hd); [apply Hl; left|]. rewrite go_bind_ret.
    destruct (IH P live1 (wl ++ new1)) as (live2 & new2 & -> & HF2 & Hn2 & Hd2); [intros e He; apply Hl; by right|done|].
    exists live2, (new1 ++ new2). rewrite <- app_assoc in *. split_and!; [done|done| |].
    + intros e [->%Hn1|?%Hn2]%elem_of_app; [left|by right].
    + intros e [->|He]%elem_of_cons; [|by apply Hd2]. rewrite !elem_of_app in *. tauto.
Qed.

Context (roots : list Z).

Definition reached (d : Z) : Prop := ∃ s, s ∈ roots ∧ rtc (fun x y => y ∈ adj x) s d.

Record searching (P : list Z) (live : list bool) (wl : list Z) : Prop := {
  se_flags : flags P live wl;
  se_closed : ∀ s d, s ∈ P → d ∈ adj s → d ∈ P ++ wl;
  se_roots : ∀ s, s ∈ roots → s ∈ P ++ wl;
  se_reached : ∀ d, d ∈ P ++ wl → reached d
}.

(** One round of the search. *)
Lemma searching_step P live s wl :
  searching P live (s :: wl) →
  ∃ live' wl', foldM visit (adj s) (live, wl) = Ret (live', wl') ∧ searching (P ++ [s]) live' wl'.
Proof.
  intros [HF HC HR HRe]. assert (E : P ++ s :: wl = (P ++ [s]) ++ wl) by (by rewrite <- app_assoc).
  assert (Hs : 0 ≤ s < n) by (apply (fl_range _ _ _ HF); set_solver).
  assert (HF' : flags (P ++ [s]) live wl) by (destruct HF as [H1 H2 H3 H4]; rewrite E in *; by split).
  destruct (visit_all (adj s) (P ++ [s]) live wl) as (live' & new & -> & HF2 & Hn & Hd); [by intros d; apply Hadj|done|].
  exists live', (wl ++ new). split; [done|]. rewrite E in *. split.
  - done.
  - intros x d [Hx| ->%list_elem_of_singleton]%elem_of_app Hxd; [|by apply Hd].
    specialize (HC x d Hx Hxd). rewrite app_assoc. apply elem_of_app. by left.
  - intros x Hx%HR. rewrite app_assoc. apply elem_of_app. by left.
  - intros d. rewrite app_assoc. intros [?|Hin%Hn]%elem_of_app; [by apply HRe|].
    destruct (HRe s) as (r & Hr & Hrs); [set_solver|]. exists r. split; [done|]. by eapply rtc_r.
Qed.

Lemma searching_size P live wl : searching P live wl → Z.of_nat (length P) ≤ n.
Proof.
  intros [[H1 H2 H3 _] _ _ _]. assert (H : (length P ≤ length (seqZ 0 n))%nat).
  { apply submseteq_length, NoDup_submseteq; [by apply NoDup_app in H3 as []|]. intros d Hd. apply elem_of_seqZ.
    assert (0 ≤ d < n) by (apply H2; set_solver). lia. }
  rewrite length_seqZ in H. destruct (Z.lt_ge_cases n 0); lia.
Qed.

(** The search is over: the flags tell the states that are reached. *)
Lemma searching_end P live : searching P live [] → ∀ d, 0 ≤ d < n → nthZ false live d = true ↔ reached d.
Proof.
  intros [HF HC HR HRe] d Hd. rewrite (fl_live _ _ _ HF) by done. split; [apply HRe|].
  intros (s & Hs & Hsd). apply HR in Hs. rewrite app_nil_r in *. revert Hs.
  induction Hsd as [x|x y z Hxy _ IH]; intros Hx; [done|]. apply IH; [done|]. by apply (HC x).
Qed.

Lemma search_spec (next : Z → list bool * list Z → AM (list bool * list Z)) live wl :
  (∀ s st, 0 ≤ s < n → next s st = foldM visit (adj s) st) → searching [] live wl →
  ∃ live', go_loop (Z.to_pos (n + 1)) (search_step next) (live, wl) = Ret live' ∧ Z.of_nat (length live') = n ∧
    ∀ d, 0 ≤ d < n → nthZ false live' d = true ↔ reached d.
Proof.
  intros Hnext HS. pose proof (searching_size _ _ _ HS) as Hn. cbn in Hn.
  destruct (wp_Ret True (go_loop (Z.to_pos (n + 1)) (search_step next) (live, wl))
    (fun live' => Z.of_nat (length live') = n ∧ ∀ d, 0 ≤ d < n → nthZ false live' d = true ↔ reached d)) as (live' & ? & ?); [|done|eauto].
  rewrite wp_wpx.
  apply (go_loop_ghost _ (fun m '(live, wl) => ∃ P, searching P live wl ∧ m = n - Z.of_nat (length P)) _ _ _ n).
  - exists []. split; [done|]. cbn. lia.
  - lia.
  - intros m [live1 wl1] (P & HP & ->). apply searching_size in HP. lia.
  - intros m [live1 wl1] (P & HP & ->). unfold search_step. destruct wl1 as [|s wl1].
    + cbn. split; [apply (fl_length _ _ _ (se_flags _ _ _ HP))|by apply searching_end with P].
    + assert (Hs : 0 ≤ s < n) by (apply (fl_range _ _ _ (se_flags _ _ _ HP)); set_solver).
      rewrite Hnext by done. destruct (searching_step P live1 s wl1 HP) as (live2 & wl2 & -> & HP2). cbn.
      exists (n - Z.of_nat (length (P ++ [s]))). rewrite length_app. cbn. split; [lia|]. exists (P ++ [s]).
      rewrite length_app. by split.
Qed.
End Search.

(** * Live states *)

Section Live.
Context (a : Automaton) (W : wf a).

Lemma edge_target s d : 0 ≤ s < NumStates a → d ∈ map dest_ (delta a s) ↔ ∃ c, edge a s c d.
Proof.
  intros Hs. pose proof (wf_ok _ W s Hs) as HO. rewrite Forall_forall in HO. unfold edge, leads, covers. split.
  - intros (t & -> & Ht)%list_elem_of_fmap. destruct (HO t Ht). exists (min_ t), t. split_and!; [done|done|lia..].
  - intros (c & t & Ht & <- & _). by apply list_elem_of_fmap_2.
Qed.

Lemma target_range s d : 0 ≤ s < NumStates a → d ∈ map dest_ (delta a s) → 0 ≤ d < NumStates a.
Proof. intros Hs (c & Hc)%edge_target; [|done]. by apply edge_dest in Hc as (_ & ? & _); [|done|lia]. Qed.

Lemma visit_targets s st : 0 ≤ s < NumStates a →
  each_transition a s (fun t st => visit (Dest t) st) st = foldM visit (map dest_ (delta a s)) st.
Proof. intros Hs. rewrite (each_transition_fold a s _ (fun t st => visit (dest_ t) st)) by done. by rewrite foldM_map. Qed.

Lemma path_range w : ∀ s d, 0 ≤ s < NumStates a → path (edge a) s w d → 0 ≤ d < NumStates a.
Proof.
  induction w as [|c w IH]; intros s d Hs; cbn; [by intros <-|]. intros (m & Hm & Hp).
  apply (IH m d); [|done]. by apply edge_dest in Hm as (_ & ? & _); [|done|lia].
Qed.

Lemma reached_initial d : 0 < NumStates a →
  reached (fun s => map dest_ (delta a s)) [0] d ↔ reachable (edge a) d.
Proof.
  intros HN. unfold reached, reachable. setoid_rewrite list_elem_of_singleton. split.
  - intros (s & -> & Hsd). revert d Hsd. apply rtc_ind_r; [by exists []|]. intros y z _ Hyz (w & Hw). assert (Hy : 0 ≤ y < NumStates a) by (by apply (path_range w 0); [lia|]).
    apply edge_target in Hyz as (c & Hc); [|done]. exists (w ++ [c]). apply path_app. exists y. split; [done|]. by exists z.
  - intros (w & Hw). exists 0. split; [done|]. assert (H0 : 0 ≤ 0 < NumStates a) by lia.
    enough (∀ s, 0 ≤ s < NumStates a → path (edge a) s w d → rtc (fun x y => y ∈ map dest_ (delta a x)) s d) as H by (by apply H).
    clear Hw H0. induction w as [|c w IH]; intros s Hs; cbn; [by intros ->|]. intros (m & Hm & Hp).
    apply rtc_l with m; [apply edge_target; eauto|]. apply IH; [|done]. by apply edge_dest in Hm as (_ & ? & _); [|done|lia].
Qed.

Lemma flags_one (n : Z) live : Z.of_nat (length live) = n → 0 < n → (∀ i, nthZ false live i = false) →
  flags n [] (<[0%nat := true]> live) [0].
Proof.
  intros Hl Hn Hf. split; cbn [app].
  - by rewrite length_insert.
  - intros d ->%list_elem_of_singleton. lia.
  - apply NoDup_singleton.
  - intros d Hd. rewrite list_elem_of_singleton. change 0%nat with (Z.to_nat 0). rewrite nthZ_insert, Hf by lia. by case_decide.
Qed.

Lemma nthZ_repeat_false m i : nthZ false (repeat false m) i = false.
Proof.
  unfold nthZ. destruct (repeat false m !! _) as [b|] eqn:E; [|done].
  apply list_elem_of_lookup_2, list_elem_of_In, repeat_spec in E. by subst.
Qed.

Lemma searching_initial : 0 < NumStates a →
  searching (NumStates a) (fun s => map dest_ (delta a s)) [0] [] (<[0%nat:=true]> (repeat false (Z.to_nat (NumStates a)))) [0].
Proof.
  intros HN. split.
  - apply flags_one; [rewrite repeat_length; lia|done|apply nthZ_repeat_false].
  - by intros s d ?%elem_of_nil.
  - done.
  - intros d Hd. exists d. split; [done|apply rtc_refl].
Qed.

Lemma liveStatesFromInitial_spec :
  ∃ live, liveStatesFromInitial a = Ret live ∧ Z.of_nat (length live) = NumStates a ∧
    ∀ s, 0 ≤ s < NumStates a → nthZ false live s = true ↔ reachable (edge a) s.
Proof.
  pose proof (NumStates_pos _ W) as HN. unfold liveStatesFromInitial.
  destruct (Z.eqb_spec (NumStates a) 0) as [E|E].
  - eexists. split; [reflexivity|]. rewrite repeat_length. split; [lia|]. intros s Hs. lia.
  - rewrite aset_Ret, go_bind_ret by (rewrite repeat_length; lia).
    destruct (search_spec (NumStates a) (fun s => map dest_ (delta a s)) target_range [0]
      (fun s st => each_transition a s (fun t st => visit (Dest t) st) st) _ [0] visit_targets (searching_initial ltac:(lia)))
      as (live & E1 & Hl & HL). exists live. split_and!; [exact E1|done|]. intros s Hs. rewrite HL by done. apply reached_initial. lia.
Qed.

Lemma reversed_spec :
  ∃ rev, reversed a = Ret rev ∧ Z.of_nat (length rev) = NumStates a ∧
    ∀ d s, 0 ≤ d < NumStates a → s ∈ nthZ [] rev d ↔ 0 ≤ s < NumStates a ∧ ∃ c, edge a s c d.
Proof.
  pose proof (NumStates_pos _ W) as HN. unfold reversed.
  destruct (go_for_inv (E := autoerr) (fun i rev => Z.of_nat (length rev) = NumStates a ∧
      ∀ d s, 0 ≤ d < NumStates a → s ∈ nthZ [] rev d ↔ 0 ≤ s < i ∧ ∃ c, edge a s c d)
    (Z.to_nat (NumStates a)) 0 (fun s rev =>
      each_transition a s (fun t rev => l ← aget rev (Dest t); aset rev (Dest t) (l ++ [s])) rev)
    (repeat [] (Z.to_nat (NumStates a)))) as (rev & -> & Hl & HR).
  - rewrite repeat_length. split; [lia|]. intros d s Hd. split; [|lia]. unfold nthZ.
    destruct (repeat [] _ !! _) as [l|] eqn:E; [|by intros ?%elem_of_nil].
    apply list_elem_of_lookup_2, list_elem_of_In, repeat_spec in E as ->. by intros ?%elem_of_nil.
  - intros i rev Hi (Hl & HR).
    rewrite (each_transition_fold a i _ (fun t rev => l ← aget rev (dest_ t); aset rev (dest_ t) (l ++ [i]))) by (done || lia).
    assert (Hgen : ∀ ts rev, (∀ t, t ∈ ts → 0 ≤ dest_ t < NumStates a) → Z.of_nat (length rev) = NumStates a →
      ∃ rev', foldM (fun t rev => l ← aget rev (dest_ t); aset rev (dest_ t) (l ++ [i])) ts rev = @Ret autoerr _ rev' ∧
        Z.of_nat (length rev') = NumStates a ∧
        ∀ d s, 0 ≤ d < NumStates a → s ∈ nthZ [] rev' d ↔ s ∈ nthZ [] rev d ∨ s = i ∧ d ∈ map dest_ ts).
    { clear rev Hl HR. intros ts. induction ts as [|t ts IH]; intros rev Ht Hl; cbn [foldM].
      - exists rev. split_and!; try done. intros d s Hd. split; [by left|]. by intros [?|[_ ?%elem_of_nil]].
      - pose proof (Ht t ltac:(left)) as Hd0. rewrite (nthZ_aget []), go_bind_ret, aset_Ret, go_bind_ret by lia.
        destruct (IH (<[Z.to_nat (dest_ t):=nthZ [] rev (dest_ t) ++ [i]]> rev)) as (rev' & -> & Hl' & HR');
          [intros u Hu; apply Ht; by right|by rewrite length_insert|].
        exists rev'. split_and!; [done|done|]. intros d s Hd. rewrite HR', nthZ_insert by (done || lia).
        cbn [map]. rewrite elem_of_cons. case_decide as E; [subst d|].
        + rewrite elem_of_app, list_elem_of_singleton. tauto.
        + split; [tauto|]. intros [?|[-> [->|?]]]; [tauto|done|tauto]. }
    destruct (Hgen (delta a i) rev) as (rev' & -> & Hl' & HR'); [|done|].
    { intros t Ht. pose proof (wf_ok _ W i ltac:(lia)) as HO. rewrite Forall_forall in HO. by apply HO. }
    exists rev'. split_and!; [done|done|]. intros d s Hd. rewrite HR', HR, edge_target by (done || lia). split.
    + intros [[? ?]|[-> ?]]; (split; [lia|done]).
    + intros [? ?]. destruct (decide (s = i)) as [->|]; [by right|left; split; [lia|done]].
  - exists rev. split_and!; try done. intros d s Hd. rewrite HR by done. by rewrite Z.add_0_l, Z2Nat.id.
Qed.

Lemma reached_final (back : Z → list Z) roots s :
  (∀ d s, 0 ≤ d < NumStates a → s ∈ back d ↔ 0 ≤ s < NumStates a ∧ ∃ c, edge a s c d) →
  (∀ s, s ∈ roots ↔ final a s) → 0 ≤ s < NumStates a →
  reached back roots s ↔ productive (edge a) (final a) s.
Proof.
  intros Hb Hr Hs. assert (Hf : ∀ r, final a r → 0 ≤ r < NumStates a).
  { intros r HF. pose proof (wf_accept _ W r HF). unfold final in HF. rewrite IsAccept_bit in HF by apply W.
    apply andb_true_iff in HF as [?%Z.leb_le _]. lia. }
  unfold reached, productive. split.
  - intros (r & Hrr & Hrs). assert (HR : 0 ≤ r < NumStates a) by (by apply Hf, Hr).
    enough (0 ≤ s < NumStates a ∧ ∃ w, accepts_from (edge a) (final a) s w) as [_ ?] by done. clear Hs.
    revert s Hrs. apply rtc_ind_r.
    + split; [done|]. exists []. by apply accepts_nil, Hr.
    + intros y z _ Hyz [Hy (w & Hw)]. apply Hb in Hyz as [Hz (c & Hc)]; [|done]. split; [done|].
      exists (c :: w). apply accepts_cons. eauto.
  - intros (w & Hw). revert s Hs Hw. induction w as [|c w IH]; intros s Hs.
    + rewrite accepts_nil. intros HF%Hr. exists s. split; [done|apply rtc_refl].
    + rewrite accepts_cons. intros (d & He & Hd). pose proof He as (_ & Hdr & _)%edge_dest; [|done|lia].
      destruct (IH d Hdr Hd) as (r & Hrr & Hrd). exists r. split; [done|]. apply rtc_r with d; [done|].
      apply Hb; [done|]. eauto.
Qed.

Lemma liveStatesToAccept_spec :
  ∃ live, liveStatesToAccept a = Ret live ∧ Z.of_nat (length live) = NumStates a ∧
    ∀ s, 0 ≤ s < NumStates a → nthZ false live s = true ↔ productive (edge a) (final a) s.
Proof.
  pose proof (NumStates_pos _ W) as HN. unfold liveStatesToAccept.
  destruct reversed_spec as (rev & -> & Hl & HR). rewrite go_bind_ret.
  destruct (go_for_inv (E := autoerr) (fun i '(live, wl) => flags (NumStates a) [] live wl ∧
      ∀ s, s ∈ wl ↔ 0 ≤ s < i ∧ final a s) (Z.to_nat (NumStates a)) 0
    (fun s '(live, worklist) => if IsAccept a s then live ← aset live s true; mret (live, worklist ++ [s]) else mret (live, worklist))
    (repeat false (Z.to_nat (NumStates a)), [])) as ([live wl] & -> & HF & HW).
  - split; [split; cbn|].
    + rewrite repeat_length. lia.
    + by intros d ?%elem_of_nil.
    + constructor.
    + intros d Hd. rewrite nthZ_repeat_false. split; [done|by intros ?%elem_of_nil].
    + intros s. split; [by intros ?%elem_of_nil|lia].
  - intros i [live wl] Hi (HF & HW). destruct (IsAccept a i) eqn:Ea.
    + destruct HF as [F1 F2 F3 F4]. cbn [app] in *. rewrite aset_Ret, go_bind_ret by lia. eexists. split; [reflexivity|].
      assert (Hni : i ∉ wl) by (intros Hin%HW; lia). split; [split; cbn [app]|].
      * by rewrite length_insert.
      * intros d [?| ->%list_elem_of_singleton]%elem_of_app; [by apply F2|lia].
      * apply NoDup_app. split_and!; [done| |apply NoDup_singleton]. by intros e He ->%list_elem_of_singleton.
      * intros d Hd. rewrite nthZ_insert, elem_of_app, list_elem_of_singleton by lia. case_decide as E; [subst; tauto|].
        rewrite (F4 d Hd). split; [by left|]. by intros [?| ->].
      * intros s. rewrite elem_of_app, list_elem_of_singleton, HW. split.
        { intros [[? ?]| ->]; split; done || lia. }
        { intros [? ?]. destruct (decide (s = i)); [by right|left; split; [lia|done]]. }
    + eexists. split; [reflexivity|]. split; [done|]. intros s. rewrite HW. split; [intros [? ?]; split; [lia|done]|].
      intros [? Hf]. split; [|done]. destruct (decide (s = i)) as [->|]; [|lia]. unfold final in Hf. congruence.
  - rewrite go_bind_ret. rewrite Z.add_0_l, Z2Nat.id in HW by lia.
    assert (HW' : ∀ s, s ∈ wl ↔ final a s).
    { intros s. rewrite HW. split; [tauto|]. intros Hf. split; [|done]. pose proof (wf_accept _ W s Hf).
      unfold final in Hf. rewrite IsAccept_bit in Hf by apply W. apply andb_true_iff in Hf as [?%Z.leb_le _]. lia. }
    destruct (search_spec (NumStates a) (fun s => nthZ [] rev s)) with (roots := wl)
      (next := fun s st => l ← aget (E := autoerr) rev s; foldM visit l st) (live := live) (wl := wl) as (live' & E & Hl' & HL).
    + intros s d Hs Hd. by apply HR in Hd as [? _].
    + intros s st Hs. rewrite (nthZ_aget []) by lia. done.
    + split; [done|by intros s d ?%elem_of_nil|done|]. intros d Hd. exists d. split; [done|apply rtc_refl].
    + exists live'. split_and!; [exact E|done|]. intros s Hs. rewrite HL by done. by apply reached_final.
Qed.
End Live.

(** A state is live if a word leads to it and on to an accept state. *)
Definition live_state (a : Automaton) (s : Z) : Prop := reachable (edge a) s ∧ productive (edge a) (final a) s.

Definition all_live (a : Automaton) : Prop := ∀ s, 0 ≤ s < NumStates a → live_state a s.

Lemma getLiveStates_spec a :
  wf a → ∃ live, getLiveStates a = Ret live ∧ Z.of_nat (length live) = NumStates a ∧
    ∀ s, 0 ≤ s < NumStates a → nthZ false live s = true ↔ live_state a s.
Proof.
  intros W. unfold getLiveStates.
  destruct (liveStatesFromInitial_spec a W) as (from & -> & Hlf & Hf). rewrite go_bind_ret.
  destruct (liveStatesToAccept_spec a W) as (to & -> & Hlt & Ht). rewrite go_bind_ret.
  destruct (go_for_inv (E := autoerr) (fun i l => Z.of_nat (length l) = NumStates a ∧
      ∀ s, 0 ≤ s < NumStates a → nthZ false l s = if s <? i then nthZ false from s && nthZ false to s else nthZ false from s)
    (length from) 0 (fun i from => x ← aget from i; y ← aget to i; aset from i (x && y)) from) as (live & -> & Hl & HL).
  - split; [done|]. intros s Hs. by rewrite (proj2 (Z.ltb_ge _ _)) by lia.
  - intros i l Hi [Hl HL]. rewrite !(nthZ_aget false), go_bind_ret, go_bind_ret, aset_Ret by lia. eexists. split; [done|].
    rewrite length_insert. split; [done|]. intros s Hs. rewrite nthZ_insert, (HL s), (HL i) by lia.
    rewrite (proj2 (Z.ltb_ge i i)) by lia.
    case_decide as E; [subst; by rewrite (proj2 (Z.ltb_lt s (s + 1))) by lia|].
    destruct (Z.ltb_spec s i), (Z.ltb_spec s (i + 1)); done || lia.
  - exists live. split_and!; [done|done|]. intros s Hs. rewrite HL, (proj2 (Z.ltb_lt _ _)) by lia.
    unfold live_state. rewrite <- Hf, <- Ht by done. apply andb_true_iff.
Qed.

Lemma final_range a s : wf a → final a s → 0 ≤ s < NumStates a.
Proof.
  intros W HF. pose proof (wf_accept _ W s HF). unfold final in HF. rewrite IsAccept_bit in HF by apply W.
  apply andb_true_iff in HF as [?%Z.leb_le _]. lia.
Qed.

Lemma language_no_states a w : wf a → NumStates a = 0 → ¬ language a w.
Proof.
  intros W HN (s & Hp & Hs). destruct w as [|c w]; cbn in Hp.
  - subst s. apply final_range in Hs; [lia|done].
  - destruct Hp as (d & Hd & _). apply edge_dest in Hd as (? & _); [lia|done|lia].
Qed.

(** [IsEmpty] ends and says whether no word is accepted. *)
Lemma IsEmpty_spec a : wf a → ∃ b, IsEmpty a = Ret b ∧ (b = true ↔ ∀ w, ¬ language a w).
Proof.
  intros W. pose proof (NumStates_pos _ W) as HN. unfold IsEmpty. destruct (Z.eqb_spec (NumStates a) 0) as [E|E].
  { exists true. split; [done|]. split; [|done]. intros _ w. by apply language_no_states. }
  rewrite GetNumTransitions_spec, go_bind_ret by (done || lia).
  destruct (IsAccept a 0) eqn:Ea; cbn [negb andb].
  { exists false. split; [done|]. split; [done|]. intros H. exfalso. apply (H []). by apply accepts_nil. }
  destruct (Z.eqb_spec (Z.of_nat (length (delta a 0))) 0) as [Ed|_].
  { exists true. split; [done|]. split; [|done]. intros _ [|c w].
    - intros H%accepts_nil. unfold final in H. congruence.
    - intros (d & (t & Ht & _) & _)%accepts_cons. destruct (delta a 0); [by apply elem_of_nil in Ht|done]. }
  rewrite aset_Ret, go_bind_ret by (rewrite repeat_length; lia). change (Z.to_nat 0) with 0%nat.
  set (adj := fun s => map dest_ (delta a s)).
  destruct (wp_Ret True (go_loop (Z.to_pos (NumStates a + 1)) (empty_step a)
      (<[0%nat:=true]> (repeat false (Z.to_nat (NumStates a))), [0])) (fun b => b = true ↔ ∀ w, ¬ language a w)) as (b & ? & ?);
    [|done|by exists b].
  rewrite wp_wpx. apply (go_loop_ghost _ (fun m '(live, wl) => ∃ P, searching (NumStates a) adj [0] P live wl ∧
    m = NumStates a - Z.of_nat (length P) ∧ ∀ s, s ∈ P → ¬ final a s) _ _ _ (NumStates a)).
  - exists []. split; [apply searching_initial; lia|]. split; [cbn; lia|]. by intros s ?%elem_of_nil.
  - lia.
  - intros m [live wl] (P & HP & -> & _). apply (searching_size _ adj (target_range a W)) in HP. lia.
  - intros m [live wl] (P & HP & -> & HNF). unfold empty_step. destruct wl as [|s wl].
    + cbn. split; [|done]. intros _ w Hw.
      assert (He : ∃ w, accepts (edge a) (final a) w) by eauto. apply accepts_empty in He as (s & Hs & HF).
      pose proof (final_range _ _ W HF) as Hr. apply reached_initial in Hs; [|done|lia].
      apply (HNF s); [|done]. apply (searching_end _ _ _ _ _ HP s Hr) in Hs.
      apply (fl_live _ _ _ _ (se_flags _ _ _ _ _ _ HP)) in Hs; [|done]. by rewrite app_nil_r in Hs.
    + assert (Hs : 0 ≤ s < NumStates a) by (apply (fl_range _ _ _ _ (se_flags _ _ _ _ _ _ HP)); set_solver).
      destruct (IsAccept a s) eqn:Es.
      * cbn. split; [done|]. intros H. exfalso. destruct (proj2 (accepts_empty (edge a) (final a))) as (w & Hw).
        { exists s. split; [|done]. apply reached_initial; [done|lia|]. apply (se_reached _ _ _ _ _ _ HP). set_solver. }
        by apply (H w).
      * rewrite visit_targets by done. change (map dest_ (delta a s)) with (adj s).
        destruct (searching_step (NumStates a) adj (target_range a W) [0] P live s wl HP) as (live2 & wl2 & -> & HP2). cbn.
        exists (NumStates a - Z.of_nat (length (P ++ [s]))). rewrite length_app. cbn. split; [lia|]. exists (P ++ [s]).
        rewrite length_app. split_and!; [done|done|]. intros x [?| ->%list_elem_of_singleton]%elem_of_app; [by apply HNF|].
        unfold final. congruence.
Qed.

Lemma count_true_spec l : count_true l = Z.of_nat (length (filter (fun b => b = true) l)).
Proof.
  unfold count_true. enough (∀ n, fold_left (fun n (v : bool) => if v then n + 1 else n) l n =
    n + Z.of_nat (length (filter (fun b => b = true) l))) as H by (by rewrite H).
  induction l as [|b l IH]; intros n; cbn [fold_left]; [cbn; lia|]. rewrite IH, filter_cons. destruct b; case_decide; try done; cbn; lia.
Qed.

Lemma count_true_all l : count_true l = Z.of_nat (length l) ↔ ∀ i, 0 ≤ i < Z.of_nat (length l) → nthZ false l i = true.
Proof.
  rewrite count_true_spec. split.
  - intros E i Hi. destruct (nthZ false l i) eqn:Ei; [done|]. exfalso.
    assert (Hin : false ∈ l) by (rewrite <- Ei; eapply list_elem_of_lookup_2, nthZ_lookup; lia).
    pose proof (length_filter_lt (fun b => b = true) l false Hin ltac:(done)). lia.
  - intros H. assert (filter (fun b => b = true) l = l) as ->; [|done].
    induction l as [|b l IH]; [done|]. rewrite filter_cons. pose proof (H 0 ltac:(cbn; lia)) as H0. change (b = true) in H0. subst b.
    rewrite decide_True by done. f_equal. apply IH. intros i Hi. specialize (H (i + 1)). cbn [length] in H.
    unfold nthZ in *. replace (Z.to_nat (i + 1)) with (S (Z.to_nat i)) in H by lia. apply H. lia.
Qed.

(** * Removing the states that are not live *)

(** What an operation promises of its result. *)
Record trimmed (a a' : Automaton) : Prop := {
  tm_good : good a';
  tm_language : ∀ w, language a' w ↔ language a w;
  tm_live : all_live a';
  tm_deterministic : deterministic a = true → deterministic a' = true;
  tm_NumStates : NumStates a' ≤ NumStates a
}.

Section Remove.
Context (a : Automaton) (G : good a) (live : list bool) (Hlen : Z.of_nat (length live) = NumStates a)
  (Hlive : ∀ s, 0 ≤ s < NumStates a → nthZ false live s = true ↔ live_state a s).

Let W : wf a := good_wf a G.

(** The live states below [i], in order: their places are the new states. *)
Definition order (i : Z) : list Z := filter (fun s => nthZ false live s = true) (seqZ 0 i).

Lemma order_snoc i : 0 ≤ i → order (i + 1) = order i ++ if nthZ false live i then [i] else [].
Proof.
  intros Hi. unfold order. rewrite seqZ_app, filter_app by lia. f_equal. rewrite Z.add_0_l.
  replace (seqZ i 1) with [i] by (by rewrite seqZ_cons by lia). rewrite filter_cons, filter_nil.
  destruct (nthZ false live i); by case_decide.
Qed.

Lemma elem_of_order s i : s ∈ order i ↔ 0 ≤ s < i ∧ nthZ false live s = true.
Proof. unfold order. rewrite list_elem_of_filter, elem_of_seqZ. split; intros [? ?]; (split; [lia || done|lia || done]). Qed.

Lemma NoDup_order i : NoDup (order i).
Proof. apply NoDup_filter, NoDup_seqZ. Qed.

Lemma remove_states :
  runs (go_for (Z.to_nat (NumStates a)) 0 (fun i '(result, stateMap) =>
      b ← aget live i;
      if (b : bool) then
        '(n, result) ← CreateState result;
        stateMap ← aset stateMap i n;
        result ← SetAccept n (IsAccept a i) result;
        mret (result, stateMap)
      else mret (result, stateMap)) (NewAutomaton, repeat (-1) (Z.to_nat (NumStates a))))
    (fun '(r, stateMap) => good r ∧ NumStates r = Z.of_nat (length (order (NumStates a))) ∧
      Z.of_nat (length stateMap) = NumStates a ∧
      (∀ (k : nat) s, order (NumStates a) !! k = Some s → nthZ (-1) stateMap s = Z.of_nat k ∧ IsAccept r (Z.of_nat k) = IsAccept a s) ∧
      (∀ s, 0 ≤ s → delta r s = []) ∧ (∀ s, 0 ≤ s < NumStates r → ¬ started r s)).
Proof.
  pose proof (NumStates_pos _ W) as HN. destruct (shows_empty 2 2) as [W0 N0 A0 E0 C0 S0 _]. cbn in N0, C0.
  eapply runs_mono; [apply (runs_for_inv (fun i '(r, stateMap) => good r ∧ NumStates r = Z.of_nat (length (order i)) ∧
      Z.of_nat (length stateMap) = NumStates a ∧
      (∀ (k : nat) s, order i !! k = Some s → nthZ (-1) stateMap s = Z.of_nat k ∧ IsAccept r (Z.of_nat k) = IsAccept a s) ∧
      (∀ s, 0 ≤ s → delta r s = []) ∧ (∀ s, 0 ≤ s < NumStates r → ¬ started r s)))|].
  - split_and!; [apply New_good|done|rewrite repeat_length; lia|done| |].
    + intros s Hs. apply delta_beyond; [done|]. change (NumStates NewAutomaton) with 0. done.
    + intros s Hs. change (NumStates NewAutomaton) with 0 in Hs. lia.
  - intros i [r sm] Hi ([Wr Cr] & Nr & Hl & Hk & Hd & Hst). rewrite order_snoc by lia.
    rewrite (nthZ_aget false), go_bind_ret by lia. destruct (nthZ false live i) eqn:El.
    2: { rewrite app_nil_r. cbn. split_and!; done. }
    eapply runs_step; [by apply CreateState_spec|]. intros [n r1] (W1 & -> & N1 & D1 & A1 & S1 & C1 & _).
    rewrite aset_Ret, go_bind_ret by lia.
    destruct (SetAccept_spec (NumStates r) (IsAccept a i) r1 W1) as (r2 & -> & W2 & SB & A2); [pose proof (NumStates_pos _ Wr); lia|].
    destruct (same_but_accept_view _ _ SB) as (N2 & D2 & P2). cbn.
    rewrite length_app, length_insert. cbn. split_and!; [split; [done|]|lia|done| | |].
    + rewrite (sb_curState _ _ SB). congruence.
    + intros k s Hks. assert (Hs0 : 0 ≤ s).
      { apply lookup_app_Some in Hks as [Hks|[_ [_ <-]%list_lookup_singleton_Some]]; [|lia].
        apply list_elem_of_lookup_2, elem_of_order in Hks. lia. }
      rewrite nthZ_insert by lia.
      rewrite A2, A1. apply lookup_app_Some in Hks as [Hks|[Hge [Hk0 <-]%list_lookup_singleton_Some]].
      * pose proof (lookup_lt_Some _ _ _ Hks). pose proof (list_elem_of_lookup_2 _ _ _ Hks) as [? _]%elem_of_order.
        rewrite !decide_False by lia. by apply Hk.
      * rewrite !decide_True by lia. split; [lia|done].
    + intros s Hs. rewrite D2, D1 by done. by apply Hd.
    + intros s Hs. unfold started. rewrite P2. change (¬ started r1 s). rewrite S1 by lia. intros [Hs1 Hne]. apply (Hst s); [lia|done].
  - intros [r sm] H. by rewrite Z.add_0_l, Z2Nat.id in H by lia.
Qed.

Context (f : Z → Z).

Definition live_row (i : Z) : list tr :=
  if nthZ false live i then
    omap (fun t => if nthZ false live (dest_ t) then Some (f (dest_ t), min_ t, max_ t) else None) (delta a i)
  else [].

Lemma leads_live_row i c d :
  0 ≤ i < NumStates a → leads (live_row i) c d ↔ live_state a i ∧ ∃ e, live_state a e ∧ d = f e ∧ edge a i c e.
Proof.
  intros Hi. pose proof (wf_ok _ W i Hi) as HO. rewrite Forall_forall in HO. unfold live_row. rewrite <- Hlive by done.
  destruct (nthZ false live i) eqn:Ei.
  2: { rewrite leads_nil. split; [done|]. by intros [? _]. }
  unfold edge, leads, covers. split.
  - intros (t & Ht & <- & Hc). apply list_elem_of_omap in Ht as (u & Hu & Et). split; [done|].
    destruct (nthZ false live (dest_ u)) eqn:Eu; [|done]. injection Et as <-. exists (dest_ u).
    split; [by apply Hlive; [apply HO|]|]. split; [done|]. by exists u.
  - intros (_ & e & He & -> & u & Hu & <- & Hc). apply Hlive in He; [|by apply HO].
    exists (f (dest_ u), min_ u, max_ u). split; [|done]. apply list_elem_of_omap. exists u. by rewrite He.
Qed.

Lemma live_row_body stateMap i r' :
  0 ≤ i < NumStates a → Z.of_nat (length stateMap) = NumStates a → (∀ s, f s = nthZ (-1) stateMap s) →
  (b ← aget live i;
   if negb b then mret r' else
   each_transition a i (fun t result =>
     b ← aget live (Dest t);
     if (b : bool) then
       s ← aget stateMap i; d ← aget stateMap (Dest t);
       AddTransition s d (Min t) (Max t) result
     else mret result) r') = add_row (f i, live_row i) r'.
Proof.
  intros Hi Hl Hf. pose proof (wf_ok _ W i Hi) as HO. rewrite Forall_forall in HO.
  rewrite (nthZ_aget false), go_bind_ret by lia. unfold add_row, live_row. cbn [fst snd].
  destruct (nthZ false live i); cbn [negb]; [|done].
  rewrite (each_transition_fold a i _ (fun t result => b ← aget live (dest_ t);
     if (b : bool) then s ← aget stateMap i; d ← aget stateMap (dest_ t); AddTransition s d (min_ t) (max_ t) result
     else mret result)) by (done || lia).
  rewrite foldM_omap. apply foldM_ext. intros t st Ht. destruct (HO t Ht) as [Hd _].
  rewrite (nthZ_aget false), go_bind_ret by lia. destruct (nthZ false live (dest_ t)); [|done].
  rewrite !(nthZ_aget (-1)), go_bind_ret, go_bind_ret by lia. by rewrite <- !Hf.
Qed.
(** The automaton of the live states, renamed by [f]. *)
Lemma renamed_trimmed r r' :
  good r → NumStates r ≤ NumStates a →
  (∀ s, 0 ≤ s < NumStates a → live_state a s → 0 ≤ f s < NumStates r ∧ IsAccept r (f s) = IsAccept a s) →
  (∀ q, 0 ≤ q < NumStates r → ∃ s, 0 ≤ s < NumStates a ∧ live_state a s ∧ q = f s) →
  (∀ s t, live_state a s → live_state a t → 0 ≤ s < NumStates a → 0 ≤ t < NumStates a → f s = f t → s = t) →
  (live_state a 0 → f 0 = 0) →
  good r' → NumStates r' = NumStates r → (∀ s, IsAccept r' s = IsAccept r s) →
  (∀ s c d, 0 ≤ s → edge r' s c d ↔ ∃ i, 0 ≤ i < NumStates a ∧ s = f i ∧ leads (live_row i) c d) →
  trimmed a r'.
Proof.
  intros Gr HNr Hf Hsur Hinj Hf0 G' N' A' E'.
  set (P := fun s => 0 ≤ s < NumStates a ∧ live_state a s).
  set (E := fun s c d => edge a s c d ∧ productive (edge a) (final a) d).
  assert (HE : ∀ s c d', P s → edge r' (f s) c d' ↔ ∃ d, d' = f d ∧ E s c d).
  { intros s c d' [Hs Hl]. rewrite E' by (apply Hf; done). split.
    - intros (i & Hi & Efi & Hlead). apply leads_live_row in Hlead as (Hli & e & He & -> & Hedge); [|done].
      apply Hinj in Efi as ->; [|done..]. exists e. split; [done|]. split; [done|apply He].
    - intros (d & -> & Hedge & Hp). exists s. split; [done|]. split; [done|].
      apply leads_live_row; [done|]. split; [done|].
      exists d. split; [|done]. split; [|done]. destruct Hl. by apply (reachable_step _ s c). }
  assert (HP : ∀ s c d, P s → E s c d → P d).
  { intros s c d [Hs [Hr Hp]] [He Hd]. split; [by apply edge_dest in He as (_ & ? & _); [|done|lia]|].
    split; [by apply (reachable_step _ s c)|done]. }
  assert (HF : ∀ s, P s → final r' (f s) ↔ final a s).
  { intros s [Hs Hl]. unfold final. rewrite A'. by destruct (Hf s Hs Hl) as [_ ->]. }
  assert (HL : ∀ s w, P s → accepts_from (edge r') (final r') (f s) w ↔ accepts_from (edge a) (final a) s w).
  { intros s w Hs. rewrite (accepts_rename P f E (edge r') (final a) (final r') s w HE HP HF Hs). symmetry. apply accepts_productive. }
  split; [done| | | |lia].
  - intros w. destruct (decide (0 < NumStates r)) as [Hpos|Hz].
    + assert (H0 : P 0).
      { destruct (Hsur 0 ltac:(lia)) as (s & Hs & [(u & Hu) (v & Hv)] & _). split; [lia|]. split; [apply reachable_zero|].
        exists (u ++ v). apply accepts_app. eauto. }
      unfold language, accepts. rewrite <- (HL 0 w H0). rewrite Hf0 by apply H0. done.
    + split; [intros Hw; exfalso; apply (language_no_states r' w); [apply G'|pose proof (NumStates_pos _ (good_wf _ G')); lia|done]|].
      intros Hw. exfalso. assert (H0 : P 0).
      { split; [|split; [apply reachable_zero|by exists w]]. pose proof (NumStates_pos _ W).
        destruct (decide (NumStates a = 0)); [by apply language_no_states in Hw|lia]. }
      destruct H0 as [H0 Hl]. destruct (Hf 0 H0 Hl) as [? _]. lia.
  - intros q Hq. rewrite N' in Hq. destruct (Hsur q Hq) as (s & Hs & Hl & ->). split.
    + assert (Hpre : ∀ w s, P s → ∀ d, path (edge a) s w d → live_state a d → path (edge r') (f s) w (f d)).
      { intros w. induction w as [|c w IH]; intros x Hx d; cbn; [by intros ->|]. intros (m & Hm & Hp) Hd.
        assert (Hpm : productive (edge a) (final a) m).
        { destruct Hd as [_ (v & Hv)]. exists (w ++ v). apply accepts_app. eauto. }
        exists (f m). split; [apply HE; [done|]; by exists m|]. apply IH; [|done|done]. by apply (HP x c). }
      destruct Hl as [(w & Hw) Hp]. exists w.
      assert (H0 : P 0).
      { destruct Hp as (v & Hv). split; [lia|]. split; [apply reachable_zero|]. exists (w ++ v). apply accepts_app. eauto. }
      rewrite <- Hf0 by apply H0. apply Hpre; [done|done|]. split; [by exists w|done].
    + destruct Hl as [Hr (w & Hw)]. exists w. apply HL; [|done]. split; [done|]. split; [done|by exists w].
  - intros HD. apply deterministic_iff; [apply G'..|]. intros q Hq. rewrite N' in Hq.
    destruct (Hsur q Hq) as (s & Hs & Hl & ->). intros c d d' Hd Hd'.
    apply HE in Hd as (e & -> & He & _); [|done]. apply HE in Hd' as (e' & -> & He' & _); [|done]. f_equal.
    exact (proj1 (deterministic_iff a W (good_cur a G)) HD s Hs c e e' He He').
Qed.
End Remove.

Lemma RemoveDeadStates_spec a : good a → runs (RemoveDeadStates a) (trimmed a).
Proof.
  intros G. pose proof (good_wf _ G) as W. pose proof (NumStates_pos _ W) as HN. unfold RemoveDeadStates.
  destruct (getLiveStates_spec a W) as (live & -> & Hl & HL). rewrite go_bind_ret.
  destruct (Z.eqb_spec (count_true live) (NumStates a)) as [E|E].
  - cbn. rewrite <- Hl in E. apply count_true_all in E || idtac. split; try done. intros s Hs. apply HL; [done|].
    rewrite count_true_all in E || idtac. apply E. lia.
  - clear E. eapply runs_step; [by apply (remove_states a G live)|]. intros [r sm] ([Wr Cr] & Nr & Hlm & Hk & Hd & Hst).
    set (f := fun s => nthZ (-1) sm s).
    assert (Hf : ∀ s, 0 ≤ s < NumStates a → live_state a s → ∃ k : nat, f s = Z.of_nat k ∧ order live (NumStates a) !! k = Some s).
    { intros s Hs Hls. apply HL in Hls; [|done]. assert (Hin : s ∈ order live (NumStates a)) by (by apply elem_of_order).
      apply list_elem_of_lookup in Hin as (k & Hks). exists k. split; [apply Hk|]; done. }
    assert (Hfr : ∀ s, 0 ≤ s < NumStates a → live_state a s → 0 ≤ f s < NumStates r ∧ IsAccept r (f s) = IsAccept a s).
    { intros s Hs Hls. destruct (Hf s Hs Hls) as (k & -> & Hks). pose proof (lookup_lt_Some _ _ _ Hks). split; [lia|]. by apply Hk. }
    assert (Hinj : ∀ s t, live_state a s → live_state a t → 0 ≤ s < NumStates a → 0 ≤ t < NumStates a → f s = f t → s = t).
    { intros s t Hs Ht Hsr Htr E. destruct (Hf s Hsr Hs) as (k & Ek & Hks), (Hf t Htr Ht) as (k' & Ek' & Hkt).
      assert (k = k') by lia. congruence. }
    assert (Hrow : ∀ i, 0 ≤ i < NumStates a → live_row a live f i ≠ [] → live_state a i).
    { intros i Hi Hne. apply HL; [done|]. unfold live_row in Hne. by destruct (nthZ false live i). }
    eapply runs_step.
    + apply (add_rows_for (Z.to_nat (NumStates a)) _ f (live_row a live f) r Wr); rewrite Z2Nat.id by lia.
      * intros i r' Hi _. by apply live_row_body.
      * intros i Hi Hne. destruct (Hfr i Hi (Hrow i Hi Hne)) as [Hfi _]. split; [done|]. split; [|by apply Hst].
        apply Forall_forall. intros t Ht. unfold live_row in Ht. destruct (nthZ false live i); [|by apply elem_of_nil in Ht].
        apply list_elem_of_omap in Ht as (u & Hu & Et). pose proof (wf_ok _ W i Hi) as HO. rewrite Forall_forall in HO.
        destruct (HO u Hu) as [Hu1 Hu2]. destruct (nthZ false live (dest_ u)) eqn:Eu; [|done]. injection Et as <-.
        apply HL in Eu; [|done]. destruct (Hfr _ Hu1 Eu) as [? _]. by split.
      * intros i j Hi Hj Hni Hnj. apply Hinj; auto.
    + rewrite Z2Nat.id by lia. intros r1 [W1 N1 A1 S1 E1].
      destruct (FinishState_spec r1 W1) as (r2 & -> & W2 & C2 & N2 & A2 & E2 & _). cbn.
      apply (renamed_trimmed a G live HL f r); try done.
      * pose proof (NoDup_order live (NumStates a)) as HND. rewrite Nr.
        assert (Hle : (length (order live (NumStates a)) ≤ length (seqZ 0 (NumStates a)))%nat).
        { apply submseteq_length, NoDup_submseteq; [done|]. intros s [? _]%elem_of_order. apply elem_of_seqZ. lia. }
        rewrite length_seqZ in Hle. lia.
      * intros q Hq. destruct (lookup_lt_is_Some_2 (order live (NumStates a)) (Z.to_nat q)) as [s Hs]; [lia|].
        pose proof (list_elem_of_lookup_2 _ _ _ Hs) as [Hsr Hsl]%elem_of_order. exists s. split; [done|]. split; [by apply HL|].
        unfold f. destruct (Hk _ _ Hs) as [-> _]. lia.
      * intros H0. destruct (decide (0 < NumStates a)) as [Hpos|].
        -- apply HL in H0; [|lia]. assert (E0 : order live (NumStates a) !! 0%nat = Some 0).
           { unfold order. rewrite seqZ_cons by lia. by rewrite filter_cons_True. }
           unfold f. by destruct (Hk _ _ E0) as [-> _].
        -- exfalso. destruct H0 as [_ (w & Hw)]. apply (language_no_states a w W); [lia|done].
      * congruence.
      * intros s. by rewrite A2, A1.
      * intros s c d Hs. rewrite E2, E1, quads_edge_rows by done. split.
        -- intros [(t & Ht & _)|(ts & Hts & Hlead)]; [rewrite Hd in Ht by done; by apply elem_of_nil in Ht|].
           apply list_elem_of_fmap in Hts as (i & [= -> ->] & Hi%elem_of_seqZ). exists i. split_and!; [lia|lia|done|done].
        -- intros (i & Hi & -> & Hlead). right. exists (live_row a live f i). split; [|done].
           apply list_elem_of_fmap. exists i. split; [done|]. apply elem_of_seqZ. lia.
Qed.

(** A good automaton, trimmed to nothing or not. *)
Lemma trimmed_trans a b c : trimmed a b → trimmed b c → trimmed a c.
Proof.
  intros [H1 H2 H3 H4 H5] [K1 K2 K3 K4 K5]. split; [done| |done|auto|lia]. intros w. by rewrite K2.
Qed.

(** C23. [RemoveDeadStates] ends; its result accepts the same words, all its states are
    reached and lead to an accept state, it has no more states, and it is deterministic if
    the automaton was. *)
Theorem RemoveDeadStates_correct a :
  good a →
  runs (RemoveDeadStates a) (fun a' => good a' ∧ (∀ w, language a' w ↔ language a w) ∧
    (∀ s, 0 ≤ s < NumStates a' → reachable (edge a') s ∧ productive (edge a') (final a') s) ∧
    NumStates a' ≤ NumStates a ∧ (deterministic a = true → deterministic a' = true)).
Proof.
  intros G. eapply runs_mono; [by apply RemoveDeadStates_spec|]. intros a' [H1 H2 H3 H4 H5]. done.
Qed.

Lemma RemoveDeadStates_correct_witness :
  let a := automaton_of [BCreateState; BCreateState; BCreateState; BSetAccept 1 true; BAddTransition 0 1 97 99;
    BAddTransition 0 2 100 100; BFinishState] in
  runs (RemoveDeadStates a) (fun a' => good a' ∧ (∀ w, language a' w ↔ language a w) ∧
    (∀ s, 0 ≤ s < NumStates a' → reachable (edge a') s ∧ productive (edge a') (final a') s) ∧
    NumStates a' ≤ NumStates a ∧ (deterministic a = true → deterministic a' = true)) ∧
  (∃ a', RemoveDeadStates a = Ret a' ∧ NumStates a' = 2).
Proof.
  cbn zeta. split; [apply RemoveDeadStates_correct, automaton_of_good; vm_compute; reflexivity|].
  eexists. split; vm_compute; reflexivity.
Defined.
