(* ===== verification/Totality.v ===== *)
(** [IsTotal] and [IsTotalRange] of [util/automaton/operations.go]: when they decide that an
    automaton accepts every word. *)

From stdpp Require Import base tactics numbers list sorting.
From Stdlib Require Import ZArith Lia.
From S2P Require Import Prelude WordBits Nfa Automaton Liveness.

Local Open Scope Z_scope.

Lemma GetTransition_spec a s (i : nat) t u :
  wf a → 0 ≤ s < NumStates a → delta a s !! i = Some u →
  GetTransition a s (Z.of_nat i) t =
    Ret {| Source := s; Dest := dest_ u; Min := min_ u; Max := max_ u; transitionUpto := transitionUpto t |}.
Proof.
  intros W Hs Hu. destruct (delta_lookup a s i u W Hs Hu) as (k & Ep & Hk).
  apply aget_triple in Hk as (G1 & G2 & G3). unfold GetTransition. destruct (wf_states _ W) as (n & En & Hn).
  pose proof (NumStates_eq _ _ En) as EN. rewrite (nthZ_aget 0), go_bind_ret by lia. fold (ptr a s). cbn zeta.
  replace (ptr a s + 3 * Z.of_nat i) with (3 * Z.of_nat (k + i)) by lia.
  by rewrite G1, go_bind_ret, G2, go_bind_ret, G3, go_bind_ret.
Qed.

Section Totality.
Context (a : Automaton) (lo hi : Z) (G : good a) (HD : deterministic a = true).
Context (Hlabels : ∀ s t, 0 ≤ s < NumStates a → t ∈ delta a s → lo ≤ min_ t ∧ max_ t ≤ hi).

Let W : wf a := good_wf a G.

(** All labels of the range lead somewhere. *)
Definition full (s : Z) : Prop := ∀ c, lo ≤ c ≤ hi → ∃ d, edge a s c d.

Lemma covered_spec s : 0 ≤ s < NumStates a →
  ∃ r, covered a s lo = Ret r ∧ match r with Some p => (hi ≤ p ↔ full s) | None => ¬ full s end.
Proof using G HD Hlabels.
  intros Hs. unfold covered. rewrite GetNumTransitions_spec, go_bind_ret, Nat2Z.id by done. set (ts := delta a s).
  assert (Hok : ∀ t, t ∈ ts → min_ t ≤ max_ t).
  { intros t Ht. pose proof (wf_ok _ W s Hs) as HO. rewrite Forall_forall in HO. destruct (HO t Ht). lia. }
  match goal with |- context [go_for ?n ?l0 ?b ?s0] =>
    destruct (go_for_inv (E := autoerr) (fun i st => match st with
      | None => ¬ full s
      | Some p => lo - 1 ≤ p ∧ (∀ c, lo ≤ c ≤ p → ∃ d, leads (take (Z.to_nat i) ts) c d) ∧
                  ∀ (j : nat) t, Z.of_nat j < i → ts !! j = Some t → max_ t ≤ p
      end) n l0 b s0) as (r & -> & Hr) end.
  - split_and!; [lia|intros; lia|intros; lia].
  - intros i [p|] Hi Hp; [|by exists None]. destruct Hp as (Hp0 & Hp1 & Hp2).
    destruct (lookup_lt_is_Some_2 ts (Z.to_nat i)) as [t Ht]; [lia|].
    pose proof (GetTransition_spec a s _ NewTransition t W Hs Ht) as HG. rewrite Z2Nat.id in HG by lia.
    rewrite HG, go_bind_ret.
    eexists. split; [done|]. cbn [Min Max]. pose proof (list_elem_of_lookup_2 _ _ _ Ht) as Hin.
    pose proof (Hlabels s t Hs Hin) as Hl. pose proof (Hok t Hin).
    destruct (Z.ltb_spec (p + 1) (min_ t)) as [Hgap|Hgap].
    + intros Hf. destruct (Hf (p + 1) ltac:(lia)) as (d & u & Hu & _ & Hc). unfold covers in Hc.
      apply list_elem_of_lookup in Hu as (j & Hj). destruct (decide (Z.of_nat j < i)) as [Hji|Hji].
      * specialize (Hp2 j u Hji Hj). lia.
      * destruct (decide (j = Z.to_nat i)) as [->|Hne]; [assert (u = t) by (unfold ts in *; congruence); subst; lia|].
        pose proof (det_before a G HD s (Z.to_nat i) j t u Hs ltac:(lia) Ht Hj). lia.
    + replace (Z.to_nat (i + 1)) with (S (Z.to_nat i)) by lia. rewrite (take_S_r _ _ t) by done. split_and!.
      * lia.
      * intros c Hc. setoid_rewrite leads_app. destruct (decide (c ≤ p)) as [Hcp|Hcp].
        -- destruct (Hp1 c ltac:(lia)) as (d & Hd). exists d. by left.
        -- exists (dest_ t). right. apply leads_one. split; [done|]. unfold covers. lia.
      * intros j u Hj Hu. destruct (decide (j = Z.to_nat i)) as [->|]; [by assert (u = t) as -> by (unfold ts in *; congruence)|].
        pose proof (Hp2 j u ltac:(lia) Hu).
        pose proof (det_before a G HD s j (Z.to_nat i) u t Hs ltac:(lia) Hu Ht). lia.
  - exists r. split; [done|]. destruct r as [p|]; [|done]. destruct Hr as (Hp0 & Hp1 & Hp2).
    rewrite Z.add_0_l, Nat2Z.id, firstn_all in Hp1. split.
    + intros Hle c Hc. apply Hp1. lia.
    + intros Hf. apply Z.nlt_ge. intros Hlt. destruct (Hf (p + 1) ltac:(lia)) as (d & u & Hu & _ & Hc). unfold covers in Hc.
      apply list_elem_of_lookup in Hu as (j & Hj). fold ts in Hj. pose proof (lookup_lt_Some _ _ _ Hj). specialize (Hp2 j u ltac:(lia) Hj). lia.
Qed.

Lemma IsTotalRange_states :
  ∃ b, IsTotalRange a lo hi = Ret b ∧
    (b = true ↔ (∃ s, 0 ≤ s < NumStates a ∧ live_state a s) ∧
      ∀ s, 0 ≤ s < NumStates a → live_state a s → IsAccept a s = true ∧ full s).
Proof using G HD Hlabels.
  unfold IsTotalRange. destruct (getLiveStates_spec a W) as (live & -> & Hl & HL). rewrite go_bind_ret.
  match goal with |- context [go_for ?n ?l0 ?b ?s0] =>
    destruct (go_for_inv (E := autoerr) (fun i st => match st with
      | None => ∃ s, 0 ≤ s < NumStates a ∧ live_state a s ∧ ¬ (IsAccept a s = true ∧ full s)
      | Some k => 0 ≤ k ∧ (0 < k ↔ ∃ s, 0 ≤ s < i ∧ live_state a s) ∧
          ∀ s, 0 ≤ s < i → live_state a s → IsAccept a s = true ∧ full s
      end) n l0 b s0) as (r & -> & Hr) end.
  - split_and!; [lia| |intros; lia]. split; [lia|]. intros (s & ? & _). lia.
  - intros i [k|] Hi Hk; [|by exists None]. destruct Hk as (Hk0 & Hk1 & Hk2).
    rewrite (nthZ_aget false), go_bind_ret by lia. specialize (HL i ltac:(lia)).
    assert (Hext : ∀ (P : Z → Prop), (∃ s, 0 ≤ s < i + 1 ∧ P s) ↔ (∃ s, 0 ≤ s < i ∧ P s) ∨ P i).
    { intros P. split; [|intros [(s & ? & ?)|?]; [exists s|exists i]; (split; [lia|done])].
      intros (s & ? & ?). destruct (decide (s = i)) as [->|]; [by right|left]. exists s. split; [lia|done]. }
    destruct (nthZ false live i) eqn:El; cbn [negb].
    + assert (Hli : live_state a i) by (by apply HL). destruct (IsAccept a i) eqn:Ea; cbn [negb].
      * destruct (covered_spec i ltac:(lia)) as (p & -> & Hp). rewrite go_bind_ret. eexists. split; [done|].
        destruct p as [p|]; [|exists i; split; [lia|]; split; [done|]; intros [_ ?]; done].
        destruct (Z.ltb_spec p hi) as [Hlt|Hge].
        -- exists i. split; [lia|]. split; [done|]. intros [_ Hf%Hp]. lia.
        -- split_and!; [lia|rewrite Hext; split; [intros _; by right|intros _; lia]|]. intros s Hs Hls. destruct (decide (s = i)) as [->|].
           ++ split; [done|by apply Hp].
           ++ apply Hk2; [lia|done].
      * exists None. split; [done|]. exists i. split; [lia|]. split; [done|]. intros [Ha _]. congruence.
    + exists (Some k). split; [done|]. assert (Hli : ¬ live_state a i) by (intros H; apply HL in H; done).
      split_and!; [lia|rewrite Hext; tauto|]. intros s Hs Hls. apply Hk2; [|done].
      destruct (decide (s = i)) as [->|]; [done|lia].
  - rewrite Z.add_0_l, Hl in Hr. eexists. split; [done|]. destruct r as [k|].
    + destruct Hr as (Hk0 & Hk1 & Hk2). rewrite Z.ltb_lt, Hk1. tauto.
    + split; [done|]. intros [_ H]. destruct Hr as (s & Hs & Hls & Hn). by destruct Hn; apply H.
Qed.

Lemma path_labels w : ∀ s d, 0 ≤ s < NumStates a → path (edge a) s w d → Forall (fun c => lo ≤ c ≤ hi) w.
Proof using G Hlabels.
  induction w as [|c w IH]; intros s d Hs Hp; [constructor|]. destruct Hp as (m & He & Hp).
  pose proof (edge_dest a s c m W ltac:(lia) He) as (_ & Hm & _). constructor; [|by apply (IH m d)].
  destruct He as (t & Ht & _ & Hc). pose proof (Hlabels s t Hs Ht). unfold covers in Hc. lia.
Qed.

Lemma full_accepts w :
  (∀ s, 0 ≤ s < NumStates a → IsAccept a s = true ∧ full s) →
  Forall (fun c => lo ≤ c ≤ hi) w → ∀ s, 0 ≤ s < NumStates a → accepts_from (edge a) (final a) s w.
Proof using G.
  intros HF Hw. induction Hw as [|c w Hc _ IH]; intros s Hs; destruct (HF s Hs) as [Ha Hf].
  - by apply accepts_nil.
  - destruct (Hf c Hc) as (d & Hd). apply accepts_cons. exists d. split; [done|]. apply IH.
    by apply edge_dest in Hd as (_ & ? & _); [|done|lia].
Qed.
End Totality.

(** From a state of a deterministic automaton a word leads to one state at most. *)
Lemma path_deterministic a w : good a → deterministic a = true → ∀ s d d',
  0 ≤ s → path (edge a) s w d → path (edge a) s w d' → d = d'.
Proof.
  intros G HD. induction w as [|c w IH]; intros s d d' Hs; cbn; [congruence|].
  intros (m & Hm & Hp) (m' & Hm' & Hp'). rewrite (edge_functional a G HD s c m' m) in Hp' by done.
  apply edge_dest in Hm as (_ & ? & _); [|apply G|done]. by apply (IH m); [lia|..].
Qed.

(** On a deterministic automaton without dead states, [IsTotalRange] decides whether it
    accepts every word over the range (its labels lying there). *)
Theorem IsTotalRange_decides a lo hi :
  good a → deterministic a = true → all_live a →
  (∀ s t, 0 ≤ s < NumStates a → t ∈ delta a s → lo ≤ min_ t ∧ max_ t ≤ hi) →
  ∃ b, IsTotalRange a lo hi = Ret b ∧ (b = true ↔ ∀ w, Forall (fun c => lo ≤ c ≤ hi) w → language a w).
Proof.
  intros G HD HL Hlab. pose proof (good_wf _ G) as W. pose proof (NumStates_pos _ W) as HN.
  destruct (IsTotalRange_states a lo hi G HD Hlab) as (b & -> & Hb). exists b. split; [done|]. rewrite Hb. split.
  - intros [(s0 & Hs0 & _) HF] w Hw. apply (full_accepts a lo hi G); [|done|lia]. intros s Hs. apply HF; [done|by apply HL].
  - intros HT. assert (H0 : 0 < NumStates a).
    { assert (NumStates a ≠ 0); [|lia]. intros E. apply (language_no_states a [] W E), HT. constructor. }
    split; [exists 0; split; [lia|apply HL; lia]|]. intros s Hs [(u & Hu) _].
    assert (Hfun : ∀ w, Forall (fun c => lo ≤ c ≤ hi) w → accepts_from (edge a) (final a) s w).
    { intros w Hw. pose proof (path_labels a lo hi G Hlab u 0 s ltac:(lia) Hu) as Hul.
      destruct (proj1 (accepts_app _ _ _ _ _) (HT (u ++ w) ltac:(by apply Forall_app))) as (m & Hm & Hacc).
      by rewrite (path_deterministic a u G HD 0 s m) by done. }
    split; [apply (accepts_nil (edge a) (final a) s), Hfun; constructor|]. intros c Hc.
    destruct (proj1 (accepts_cons _ _ _ _ _) (Hfun [c] ltac:(by apply Forall_cons_2; [|constructor]))) as (d & Hd & _). by exists d.
Qed.

(** Every word over [a] and [b]. *)
Definition all_ab : Automaton := automaton_of [BCreateState; BSetAccept 0 true; BAddTransition 0 0 97 98; BFinishState].

Lemma all_ab_good : good all_ab.
Proof. apply automaton_of_good. vm_compute. reflexivity. Qed.

Lemma IsTotalRange_decides_witness :
  IsTotalRange all_ab 97 98 = Ret true ∧ ∀ w, Forall (fun c => 97 ≤ c ≤ 98) w → language all_ab w.
Proof.
  assert (E : IsTotalRange all_ab 97 98 = Ret true) by (vm_compute; reflexivity). split; [exact E|].
  assert (EN : NumStates all_ab = 1) by (vm_compute; reflexivity).
  destruct (IsTotalRange_decides all_ab 97 98) as (b & Eb & Hb).
  - apply all_ab_good.
  - vm_compute. reflexivity.
  - intros s Hs. assert (s = 0) as -> by lia. split; [exists []; reflexivity|]. exists []. apply accepts_nil. vm_compute. reflexivity.
  - intros s t Hs Ht. assert (s = 0) as -> by lia.
    assert (Ed : delta all_ab 0 = [(0, 97, 98)]) by (vm_compute; reflexivity).
    rewrite Ed in Ht. apply list_elem_of_singleton in Ht as ->. cbn. lia.
  - rewrite E in Eb. injection Eb as <-. apply Hb. reflexivity.
Defined.

(** With a dead state the answer can be wrong: the transition into it counts. *)
Definition only_a : Automaton := automaton_of
  [BCreateState; BCreateState; BSetAccept 0 true; BAddTransition 0 0 97 97; BAddTransition 0 1 98 98; BFinishState].

Lemma IsTotalRange_dead_state :
  good only_a ∧ deterministic only_a = true ∧ IsTotalRange only_a 97 98 = Ret true ∧ ¬ language only_a [98].
Proof.
  assert (G : good only_a) by (apply automaton_of_good; vm_compute; reflexivity).
  split; [exact G|]. split; [vm_compute; reflexivity|]. split; [vm_compute; reflexivity|].
  assert (E : Run only_a [98] = Ret false) by (vm_compute; reflexivity).
  destruct (run_from_spec only_a G ltac:(vm_compute; reflexivity) [98] 0 ltac:(vm_compute; split; [discriminate|reflexivity])) as (b & Eb & Hb).
  unfold Run in E. rewrite E in Eb. injection Eb as <-. intros Hl. apply Hb in Hl. discriminate.
Qed.
