(* ===== verification/BooleanOps.v ===== *)
(** Boolean operations of [util/automaton/operations.go] on the languages of automata:
    complement, intersection, difference, and the decision procedures built on them.

    [a1 == a2] compares pointers; the boolean [same] stands for it. *)

From stdpp Require Import base tactics numbers list gmap sorting.
From Stdlib Require Import ZArith Lia.
From S2P Require Import Prelude WordBits Nfa Automaton Builder Rows Determinize Liveness.

Local Open Scope Z_scope.

Definition MakeEmpty : AM Automaton := FinishState NewAutomaton.

(** * Complement *)

Definition Totalize (a : Automaton) : AM Automaton :=
  let numStates := NumStates a in
  result ← go_for (Z.to_nat numStates) 0 (fun s result =>
    '(_, result) ← CreateState result;
    SetAccept s (IsAccept a s) result) NewAutomaton;
  '(dead, result) ← CreateState result;
  result ← AddTransition dead dead MinCodePoint MaxCodePoint result;
  result ← go_for (Z.to_nat numStates) 0 (fun s result =>
    '(maxi, result) ← each_transition a s (fun t '(maxi, result) =>
      result ← AddTransition s (Dest t) (Min t) (Max t) result;
      result ← (if maxi <? Min t then AddTransition s dead maxi (Min t - 1) result else mret result);
      mret (if maxi <? Max t + 1 then Max t + 1 else maxi, result)) (MinCodePoint, result);
    if maxi <=? MaxCodePoint then AddTransition s dead maxi MaxCodePoint result else mret result) result;
  FinishState result.

Definition Complement (a : Automaton) (workLimit : Z) : AM Automaton :=
  det ← Determinize a workLimit;
  tot ← Totalize det;
  tot ← go_for (Z.to_nat (NumStates tot)) 0 (fun s tot => SetAccept s (negb (IsAccept tot s)) tot) tot;
  RemoveDeadStates tot.

(** * Intersection *)

(** The transitions of every state, read at once. *)
Definition snap (a : Automaton) : AM (list (list tr)) :=
  go_for (Z.to_nat (NumStates a)) 0 (fun s out =>
    row ← each_transition a s (fun t row => mret (row ++ [tr_of t])) [];
    aset out s row) (repeat [] (Z.to_nat (NumStates a))).

Record pairing := { product : Automaton; stateMap : gmap (Z * Z) Z; pairs : list (Z * Z) }.

(** The inner loop, for the transition [r1] of the one automaton and those of the other:
    [continue] below, [break] above. *)
Fixpoint meet_row (me : Z) (r1 : tr) (row2 : list tr) (st : pairing) : AM pairing :=
  match row2 with
  | [] => mret st
  | r2 :: row2 =>
      if max_ r2 <? min_ r1 then meet_row me r1 row2 st else
      if max_ r1 <? min_ r2 then mret st else
      let lo := if min_ r1 <? min_ r2 then min_ r2 else min_ r1 in
      let hi := if max_ r2 <? max_ r1 then max_ r2 else max_ r1 in
      let newPair := (dest_ r1, dest_ r2) in
      '(np, st) ← (match stateMap st !! newPair with
                   | Some np => mret (np, st)
                   | None =>
                       '(np, c) ← CreateState (product st);
                       mret (np, {| product := c; stateMap := <[newPair := np]> (stateMap st);
                                    pairs := pairs st ++ [newPair] |})
                   end);
      c ← AddTransition me np lo hi (product st);
      meet_row me r1 row2 {| product := c; stateMap := stateMap st; pairs := pairs st |}
  end.

Definition meet_step (a1 a2 : Automaton) (t1 t2 : list (list tr)) (st : pairing) : AM (pairing + Automaton) :=
  match pairs st with
  | [] => mret (inr (product st))
  | p :: worklist =>
      let st := {| product := product st; stateMap := stateMap st; pairs := worklist |} in
      let me := default 0 (stateMap st !! p) in
      c ← SetAccept me (IsAccept a1 p.1 && IsAccept a2 p.2) (product st);
      let st := {| product := c; stateMap := stateMap st; pairs := pairs st |} in
      row1 ← aget t1 p.1;
      row2 ← aget t2 p.2;
      st ← foldM (fun r1 st => meet_row me r1 row2 st) row1 st;
      mret (inl st)
  end.

(** No pair of states is put into the work list twice. *)
Definition Intersection (same : bool) (a1 a2 : Automaton) : AM Automaton :=
  if same then mret a1 else
  if NumStates a1 =? 0 then mret a1 else
  if NumStates a2 =? 0 then mret a2 else
  t1 ← snap a1;
  t2 ← snap a2;
  '(_, c) ← CreateState NewAutomaton;
  c ← go_loop (Z.to_pos (NumStates a1 * NumStates a2 + 1)) (meet_step a1 a2 t1 t2)
        {| product := c; stateMap := {[ (0, 0) := 0 ]}; pairs := [(0, 0)] |};
  c ← FinishState c;
  RemoveDeadStates c.

(** * Difference, and what it decides *)

(** The complement is a new automaton. *)
Definition Minus (same : bool) (a1 a2 : Automaton) (workLimit : Z) : AM Automaton :=
  empty1 ← IsEmpty a1;
  if empty1 || same then MakeEmpty else
  empty2 ← IsEmpty a2;
  if (empty2 : bool) then mret a1 else
  comp ← Complement a2 workLimit;
  Intersection false a1 comp.

Definition SameLanguage (same : bool) (a1 a2 : Automaton) (workLimit : Z) : AM bool :=
  d1 ← Minus same a1 a2 workLimit;
  empty1 ← IsEmpty d1;
  if negb empty1 then mret false else
  d2 ← Minus same a2 a1 workLimit;
  IsEmpty d2.

Definition SubsetOf (same : bool) (a1 a2 : Automaton) (workLimit : Z) : AM bool :=
  m ← Minus same a1 a2 workLimit;
  IsEmpty m.

(** Words that end in [b], and words with two [b]s in a row somewhere. *)
Example boolean_run :
  (e ← run_build [BCreateState; BCreateState; BSetAccept 1 true; BAddTransition 0 0 97 98; BAddTransition 0 1 98 98;
       BFinishState] NewAutomaton;
   f ← run_build [BCreateState; BCreateState; BCreateState; BSetAccept 2 true; BAddTransition 0 0 97 98; BAddTransition 0 1 98 98;
       BAddTransition 1 2 98 98; BAddTransition 2 2 97 98; BFinishState] NewAutomaton;
   c ← Complement f 1000; x ← Determinize c 1000; i ← Intersection false e f; y ← Determinize i 1000; m ← Minus false e f 1000; z ← Determinize m 1000;
   r1 ← Run x [97; 98; 97; 98]; r2 ← Run x [97; 98; 98; 97]; r3 ← Run y [98; 98; 97; 98]; r4 ← Run y [98; 97; 98];
   r5 ← Run z [97; 98]; r6 ← Run z [98; 98];
   s1 ← SubsetOf false i e 1000; s2 ← SubsetOf false e i 1000; s3 ← SameLanguage false e e 1000;
   mret ([r1; r2; r3; r4; r5; r6], [s1; s2; s3]))
  = Ret ([true; false; true; false; true; false], [true; false; true]).
Proof. vm_compute. reflexivity. Qed.

(** * Totalizing *)

(** The transitions of a state with the gaps between them. *)
Fixpoint fill (dead maxi : Z) (l : list tr) : list tr :=
  match l with
  | [] => if maxi <=? MaxCodePoint then [(dead, maxi, MaxCodePoint)] else []
  | t :: l => t :: (if maxi <? min_ t then [(dead, maxi, min_ t - 1)] else []) ++
                   fill dead (if maxi <? max_ t + 1 then max_ t + 1 else maxi) l
  end.

Definition gap (l : list tr) (maxi c : Z) : Prop :=
  maxi ≤ c ∧ (∀ t, t ∈ l → ¬ covers t c) ∧ (c ≤ MaxCodePoint ∨ ∃ t, t ∈ l ∧ c < min_ t).

Lemma leads_cons t l c d : leads (t :: l) c d ↔ (dest_ t = d ∧ covers t c) ∨ leads l c d.
Proof. rewrite (leads_app [t] l). by rewrite leads_one. Qed.

Lemma gap_cons n t l maxi c :
  Forall (tr_ok n) (t :: l) → StronglySorted before (t :: l) → maxi ≤ min_ t →
  gap (t :: l) maxi c ↔ maxi ≤ c < min_ t ∨ gap l (max_ t + 1) c.
Proof.
  intros HF HS Hm. apply Forall_cons in HF as [[_ Ht] HF]. apply StronglySorted_cons in HS as [HB HS].
  rewrite Forall_forall in HB, HF. unfold gap, covers, before in *. split.
  - intros (H1 & H2 & H3). destruct (Z.lt_ge_cases c (min_ t)) as [|Hge]; [left; lia|right].
    assert (Hc : max_ t < c) by (specialize (H2 t ltac:(left)); lia). split_and!; [lia|intros u Hu; apply H2; by right|].
    destruct H3 as [?|(u & [->|Hu]%elem_of_cons & Hcu)]; [by left|lia|right; eauto].
  - intros [H|(H1 & H2 & H3)].
    + split_and!; [lia| |right; exists t; split; [left|lia]]. intros u [->|Hu]%elem_of_cons; [lia|]. specialize (HB u Hu). lia.
    + split_and!; [lia| |].
      * intros u [->|Hu]%elem_of_cons; [lia|by apply H2].
      * destruct H3 as [?|(u & Hu & ?)]; [by left|]. right. exists u. split; [by right|done].
Qed.

Lemma leads_fill n dead l : ∀ maxi c d,
  Forall (tr_ok n) l → StronglySorted before l → (∀ t, t ∈ l → maxi ≤ min_ t) →
  leads (fill dead maxi l) c d ↔ leads l c d ∨ d = dead ∧ gap l maxi c.
Proof.
  induction l as [|t l IH]; intros maxi c d HF HS Hm; cbn [fill].
  - unfold gap. destruct (Z.leb_spec maxi MaxCodePoint).
    + rewrite leads_one, leads_nil. unfold covers. cbn. split.
      * intros [<- ?]. right. split_and!; [done|lia|by intros t ?%elem_of_nil|left; lia].
      * intros [?|(-> & ? & _ & [?|(? & ?%elem_of_nil & _)])]; [done|split; [done|lia]|done].
    + rewrite leads_nil. split; [done|]. intros [?|(_ & ? & _ & [?|(? & ?%elem_of_nil & _)])]; [done|lia|done].
  - assert (Hmt : maxi ≤ min_ t) by (apply Hm; left). rewrite (gap_cons n) by done.
    pose proof HF as [[_ Ht] HF']%Forall_cons. pose proof HS as [HB HS']%StronglySorted_cons. rewrite Forall_forall in HB.
    rewrite (proj2 (Z.ltb_lt maxi (max_ t + 1))) by lia. rewrite !leads_cons, leads_app, IH.
    2: done. 2: done. 2: { intros u Hu. specialize (HB u Hu). unfold before in HB. lia. }
    assert (Hgap : leads (if maxi <? min_ t then [(dead, maxi, min_ t - 1)] else []) c d ↔ d = dead ∧ maxi ≤ c < min_ t).
    { destruct (Z.ltb_spec maxi (min_ t)); [rewrite leads_one; unfold covers; cbn; split; intros [? ?]; split; congruence || lia|].
      rewrite leads_nil. split; [done|lia]. }
    rewrite Hgap. tauto.
Qed.

Record totalized (a T : Automaton) : Prop := {
  tz_good : good T;
  tz_NumStates : NumStates T = NumStates a + 1;
  tz_accept : ∀ s, IsAccept T s = IsAccept a s;
  tz_edge : ∀ s c d, 0 ≤ s → edge T s c d ↔
    s < NumStates a ∧ (edge a s c d ∨ d = NumStates a ∧ gap (delta a s) 0 c) ∨
    s = NumStates a ∧ d = NumStates a ∧ 0 ≤ c ≤ MaxCodePoint
}.

Lemma fill_body a s dead result :
  wf a → 0 ≤ s < NumStates a →
  ('(maxi, result) ← each_transition a s (fun t '(maxi, result) =>
      result ← AddTransition s (Dest t) (Min t) (Max t) result;
      result ← (if maxi <? Min t then AddTransition s dead maxi (Min t - 1) result else mret result);
      mret (if maxi <? Max t + 1 then Max t + 1 else maxi, result)) (MinCodePoint, result);
   if maxi <=? MaxCodePoint then AddTransition s dead maxi MaxCodePoint result else mret result)
  = add_row (s, fill dead MinCodePoint (delta a s)) result.
Proof.
  intros W Hs.
  rewrite (each_transition_fold a s _ (fun t '(maxi, result) =>
      result ← AddTransition s (dest_ t) (min_ t) (max_ t) result;
      result ← (if maxi <? min_ t then AddTransition s dead maxi (min_ t - 1) result else mret result);
      mret (if maxi <? max_ t + 1 then max_ t + 1 else maxi, result))) by (done || by intros ? []).
  unfold add_row. cbn [fst snd]. generalize MinCodePoint as maxi. revert result.
  induction (delta a s) as [|t l IH]; intros result maxi.
  - cbn. destruct (maxi <=? MaxCodePoint); cbn; [|done]. by destruct (AddTransition _ _ _ _ _).
  - cbn [foldM fill]. destruct (AddTransition s (dest_ t) (min_ t) (max_ t) result) as [r1| | |]; try done. cbn [mbind go_bind].
    destruct (maxi <? min_ t); cbn [app foldM]; [|apply IH].
    change (dest_ (dead, maxi, min_ t - 1)) with dead. change (min_ (dead, maxi, min_ t - 1)) with maxi.
    change (max_ (dead, maxi, min_ t - 1)) with (min_ t - 1).
    destruct (AddTransition s dead maxi (min_ t - 1) r1); try done. apply IH.
Qed.

Lemma Totalize_states a :
  good a → runs (go_for (Z.to_nat (NumStates a)) 0 (fun s result =>
      '(_, result) ← CreateState result; SetAccept s (IsAccept a s) result) NewAutomaton)
    (fun r => good r ∧ NumStates r = NumStates a ∧ (∀ s, IsAccept r s = IsAccept a s) ∧
      (∀ s, 0 ≤ s → delta r s = []) ∧ (∀ s, 0 ≤ s < NumStates r → ¬ started r s)).
Proof.
  intros G. pose proof (NumStates_pos _ (good_wf _ G)) as HN. destruct (shows_empty 2 2) as [W0 N0 A0 E0 C0 S0 _]. cbn in N0, C0, A0.
  eapply runs_mono; [apply (runs_for_inv (fun i r => good r ∧ NumStates r = i ∧ (∀ s, IsAccept r s = (s <? i) && IsAccept a s) ∧
      (∀ s, 0 ≤ s → delta r s = []) ∧ (∀ s, 0 ≤ s < NumStates r → ¬ started r s)))|].
  - split_and!; [apply New_good|done| | |].
    + intros s. rewrite A0. destruct (Z.ltb_spec s 0); [|done]. symmetry. cbn. destruct (IsAccept a s) eqn:E; [|done].
      apply final_range in E; [lia|apply G].
    + intros s Hs. apply delta_beyond; [done|]. change (NumStates NewAutomaton) with 0. done.
    + intros s Hs. change (NumStates NewAutomaton) with 0 in Hs. lia.
  - intros i r Hi ([Wr Cr] & Nr & Ar & Dr & Sr). eapply runs_step; [by apply CreateState_spec|].
    intros [x r1] (W1 & -> & N1 & D1 & A1 & S1 & C1 & _).
    destruct (SetAccept_spec i (IsAccept a i) r1 W1) as (r2 & -> & W2 & SB & A2); [lia|].
    destruct (same_but_accept_view _ _ SB) as (N2 & D2 & P2). cbn. split_and!; [split; [done|]|lia| | |].
    + rewrite (sb_curState _ _ SB). congruence.
    + intros s. rewrite A2, A1, Ar. case_decide as E; [subst; by rewrite (proj2 (Z.ltb_lt _ _)) by lia|].
      destruct (Z.ltb_spec s i), (Z.ltb_spec s (i + 1)); done || lia.
    + intros s Hs. rewrite D2, D1 by done. by apply Dr.
    + intros s Hs. unfold started. rewrite P2. change (¬ started r1 s). rewrite S1 by lia. intros [Hst Hne]. apply (Sr s); [lia|done].
  - intros r (Gr & Nr & Ar & Dr & Sr). rewrite Z.add_0_l, Z2Nat.id in * by lia. split_and!; try done.
    intros s. rewrite Ar. destruct (IsAccept a s) eqn:E; [|apply andb_false_r]. apply (wf_accept _ (good_wf _ G)) in E.
    by rewrite (proj2 (Z.ltb_lt _ _)).
Qed.

Lemma Totalize_spec a : good a → deterministic a = true → runs (Totalize a) (totalized a).
Proof.
  intros G HD. pose proof (good_wf _ G) as W. pose proof (NumStates_pos _ W) as HN. unfold Totalize.
  eapply runs_step; [by apply Totalize_states|]. intros r ([Wr Cr] & Nr & Ar & Dr & Sr).
  eapply runs_step; [by apply CreateState_spec|]. intros [dead r1] (W1 & -> & N1 & D1 & A1 & S1 & C1 & _). rewrite Nr in *.
  assert (Hst1 : ∀ s, 0 ≤ s < NumStates r1 → ¬ started r1 s).
  { intros s Hs. rewrite S1 by lia. intros [Hst Hne]. apply (Sr s); [lia|done]. }
  eapply runs_step; [apply AddTransition_spec; [done|lia|lia|unfold MinCodePoint, MaxCodePoint; lia|right; apply Hst1; lia]|].
  intros r2 H2%added_one. pose proof (dd_NumStates _ _ _ H2) as N2.
  assert (Hsorted : ∀ s, 0 ≤ s < NumStates a → StronglySorted before (delta a s)).
  { intros s Hs. apply (wf_finished _ W s Hs); [rewrite (good_cur _ G); lia|done]. }
  eapply runs_step.
  { apply (add_rows_for (Z.to_nat (NumStates a)) _ (fun s => s) (fun s => fill (NumStates a) MinCodePoint (delta a s)) r2 (dd_wf _ _ _ H2));
      rewrite Z2Nat.id by lia.
    - intros i r' Hi _. by apply fill_body.
    - intros i Hi _. rewrite N2, N1. split_and!; [lia|lia| |].
      + apply Forall_forall. intros t Ht. pose proof (wf_ok _ W i Hi) as HO.
        enough (∀ l maxi, 0 ≤ maxi → Forall (tr_ok (NumStates a)) l → t ∈ fill (NumStates a) maxi l → tr_ok (NumStates a + 1) t) as H
          by (by apply (H (delta a i) MinCodePoint)).
        clear Ht HO. intros l. induction l as [|u l IH]; intros maxi Hm HF; cbn [fill].
        * destruct (Z.leb_spec maxi MaxCodePoint); [|by intros ?%elem_of_nil]. intros ->%list_elem_of_singleton. split; cbn; lia.
        * apply Forall_cons in HF as [[Hu1 Hu2] HF]. intros [->|[Hg|Ht]%elem_of_app]%elem_of_cons; [split; lia| |].
          -- destruct (Z.ltb_spec maxi (min_ u)); [|by apply elem_of_nil in Hg]. apply list_elem_of_singleton in Hg as ->. split; cbn; lia.
          -- eapply IH; [|done|exact Ht]. destruct (Z.ltb_spec maxi (max_ u + 1)); lia.
      + rewrite (dd_started _ _ _ H2) by lia. intros [Hst|Hin]; [apply (Hst1 i); [lia|done]|].
        change (source_of <$> [(NumStates a, NumStates a, MinCodePoint, MaxCodePoint)]) with [NumStates a] in Hin.
        apply list_elem_of_singleton in Hin. lia.
    - intros i j _ _ _ _ E. exact E. }
  rewrite Z2Nat.id by lia. intros r3 H3. pose proof (added_trans _ _ _ _ _ H2 H3) as [W3 N3 A3 _ E3]. clear H2 H3.
  destruct (FinishState_spec r3 W3) as (T & -> & WT & CT & NT & AT & ET & _). cbn. split; [by split|lia| |].
  - intros s. by rewrite AT, A3, A1, Ar.
  - intros s c d Hs. rewrite ET, E3, quads_edge_app, quads_edge_one, quads_edge_rows by done.
    assert (He1 : ¬ edge r1 s c d) by (unfold edge; rewrite D1, Dr by done; by intros (? & ?%elem_of_nil & _)).
    assert (Hfill : ∀ i, 0 ≤ i < NumStates a → leads (fill (NumStates a) MinCodePoint (delta a i)) c d ↔
      edge a i c d ∨ d = NumStates a ∧ gap (delta a i) 0 c).
    { intros i Hi. apply (leads_fill (NumStates a)); [by apply (wf_ok _ W)|by apply Hsorted|].
      intros t Ht. pose proof (wf_ok _ W i Hi) as HO. rewrite Forall_forall in HO. destruct (HO t Ht). unfold MinCodePoint. lia. }
    split.
    + intros [?|[(-> & -> & Hc)|(ts & Hts & Hl)]]; [done|right; unfold MinCodePoint in Hc; split_and!; done || lia|].
      apply list_elem_of_fmap in Hts as (i & [= -> ->] & Hi%elem_of_seqZ). left. split; [lia|]. apply Hfill; [lia|done].
    + intros [[Hlt He]|(-> & -> & Hc)]; [|right; left; split_and!; done || (unfold MinCodePoint; lia)].
      right. right. exists (fill (NumStates a) MinCodePoint (delta a s)). split; [|by apply Hfill; [lia|]].
      apply list_elem_of_fmap. exists s. split; [done|]. apply elem_of_seqZ. lia.
Qed.

(** ** Languages *)

Definition code_point (c : Z) : Prop := MinCodePoint ≤ c ≤ MaxCodePoint.

Section Total.
Context (a T : Automaton) (G : good a) (HD : deterministic a = true) (HT : totalized a T).

Lemma total_functional s c d d' : 0 ≤ s → edge T s c d → edge T s c d' → d = d'.
Proof.
  intros Hs He He'. apply (tz_edge _ _ HT) in He, He'; [|done..].
  assert (Hgap : ∀ e, edge a s c e → ¬ gap (delta a s) 0 c).
  { intros e (t & Ht & _ & Hc) (_ & Hg & _). by apply (Hg t). }
  destruct He as [[Hlt [He|[-> Hg]]]|(-> & -> & _)], He' as [[_ [He'|[-> Hg']]]|(? & -> & _)]; try done; try lia.
  - apply (proj1 (deterministic_iff a (good_wf _ G) (good_cur _ G)) HD s ltac:(lia) c d d' He He').
  - by apply Hgap in He.
  - by apply Hgap in He'.
  - apply edge_dest in He' as (? & _); [lia|apply G|done].
Qed.

Lemma total_step s c : 0 ≤ s < NumStates T → code_point c → ∃ d, edge T s c d ∧ 0 ≤ d < NumStates T.
Proof.
  unfold code_point, MinCodePoint. intros Hs Hc. pose proof (tz_NumStates _ _ HT) as HN. pose proof (NumStates_pos _ (good_wf _ G)).
  destruct (decide (s = NumStates a)) as [->|Hne].
  - exists (NumStates a). split; [|lia]. apply (tz_edge _ _ HT); [lia|]. right. split_and!; done || lia.
  - destruct (decide (Exists (fun t => covers t c) (delta a s))) as [HE|HE].
    + apply Exists_exists in HE as (t & Ht & Hct). assert (He : edge a s c (dest_ t)) by (by exists t).
      exists (dest_ t). apply edge_dest in He as (? & ? & _); [|apply G|lia]. split; [|lia].
      apply (tz_edge _ _ HT); [lia|]. left. split; [lia|]. left. by exists t.
    + exists (NumStates a). split; [|lia]. apply (tz_edge _ _ HT); [lia|]. left. split; [lia|]. right. split; [done|].
      split_and!; [lia| |left; lia]. intros t Ht Hct. apply HE, Exists_exists. eauto.
Qed.

Lemma total_path w : ∀ s, 0 ≤ s < NumStates T → Forall code_point w →
  ∃ d, path (edge T) s w d ∧ ∀ d', path (edge T) s w d' → d' = d.
Proof.
  induction w as [|c w IH]; intros s Hs HF; cbn [path]; [by exists s|].
  apply Forall_cons in HF as [Hc HF]. destruct (total_step s c Hs Hc) as (m & Hm & Hmr).
  destruct (IH m Hmr HF) as (d & Hd & Hu). exists d. split; [by exists m|].
  intros d' (m' & Hm' & Hd'). rewrite (total_functional s c m' m) in Hd' by (done || lia). by apply Hu.
Qed.

(** The dead state is no way to an accept state. *)
Lemma total_language w : language T w ↔ language a w.
Proof.
  assert (HdF : ∀ w, ¬ accepts_from (edge T) (final T) (NumStates a) w).
  { pose proof (NumStates_pos _ (good_wf _ G)). intros v. induction v as [|c v IH].
    - rewrite accepts_nil. unfold final. rewrite (tz_accept _ _ HT). intros HF%(wf_accept _ (good_wf _ G)). lia.
    - intros (d & Hd & Hv)%accepts_cons. apply (tz_edge _ _ HT) in Hd; [|done].
      destruct Hd as [[? _]|(_ & -> & _)]; [lia|done]. }
  assert (HL : ∀ w s, 0 ≤ s < NumStates a → accepts_from (edge T) (final T) s w ↔ accepts_from (edge a) (final a) s w).
  { intros v. induction v as [|c v IH]; intros s Hs.
    - rewrite !accepts_nil. unfold final. by rewrite (tz_accept _ _ HT).
    - rewrite !accepts_cons. split.
      + intros (d & Hd & Hv). apply (tz_edge _ _ HT) in Hd; [|lia].
        destruct Hd as [[_ [Hd|[-> _]]]|[? _]]; [|by apply HdF in Hv|lia]. exists d. split; [done|].
        apply IH; [|done]. apply edge_dest in Hd as (_ & ? & _); [lia|apply G|lia].
      + intros (d & Hd & Hv). exists d. split; [apply (tz_edge _ _ HT); [lia|left; split; [lia|by left]]|].
        apply IH; [|done]. apply edge_dest in Hd as (_ & ? & _); [lia|apply G|lia]. }
  destruct (decide (0 < NumStates a)); [by apply HL|].
  assert (HN : NumStates a = 0) by (pose proof (NumStates_pos _ (good_wf _ G)); lia). unfold language, accepts. split.
  - intros Hw. exfalso. apply (HdF w). by rewrite HN.
  - intros Hw. exfalso. apply (language_no_states a w); [apply G|done|done].
Qed.

(** With the accept states turned around. *)
Lemma flipped_language C w :
  (∀ s, 0 ≤ s < NumStates T → IsAccept C s = negb (IsAccept T s)) → (∀ s c d, 0 ≤ s → edge C s c d ↔ edge T s c d) →
  Forall code_point w → language C w ↔ ¬ language a w.
Proof.
  intros HA HE Hw. rewrite <- total_language. pose proof (tz_NumStates _ _ HT) as HNT. pose proof (NumStates_pos _ (good_wf _ G)) as HN0.
  assert (H0 : 0 ≤ 0 < NumStates T) by lia. destruct (total_path w 0 H0 Hw) as (d & Hd & Hu).
  assert (Hdr : 0 ≤ d < NumStates T) by (eapply path_range; [apply (tz_good _ _ HT)|exact H0|exact Hd]).
  assert (HC : language C w ↔ accepts (edge T) (final C) w).
  { apply (accepts_ext (fun s => 0 ≤ s)); [intros; by apply HE| |done|done].
    intros s c e Hs He%HE; [|done]. apply edge_dest in He as (_ & ? & _); [lia|apply (tz_good _ _ HT)|done]. }
  rewrite HC. unfold language, accepts, accepts_from, final. split.
  - intros (x & Hx & Hf) (y & Hy & Hf'). apply Hu in Hx as ->. apply Hu in Hy as ->. rewrite HA in Hf by done.
    by rewrite Hf' in Hf.
  - intros Hn. exists d. split; [done|]. rewrite HA by done. destruct (IsAccept T d) eqn:E; [|done]. exfalso. apply Hn. eauto.
Qed.
End Total.

(** What [Complement] gives up with, if it does. *)
Definition complements (a : Automaton) (workLimit : Z) (m : AM Automaton) : Prop :=
  wpx (too_complex a (to_int64 (workLimit * 10))) m (fun c =>
    good c ∧ all_live c ∧ ∀ w, Forall code_point w → language c w ↔ ¬ language a w).

Lemma runs_wpx {A} (X : autoerr → Prop) (m : AM A) Q : X ArrayTooLarge → runs m Q → wpx X m Q.
Proof. intros HX. by destruct m as [|[]| |]. Qed.

Lemma Complement_spec a workLimit :
  good a → NumStates a < 2 ^ 63 → complements a workLimit (Complement a workLimit).
Proof.
  intros G HN. unfold complements, Complement. pose proof (Determinize_spec a G HN workLimit) as HD. apply wpx_bind.
  destruct (Determinize a workLimit) as [det|e| |] eqn:E; try done; [|apply HD]. cbn.
  destruct HD as (Gd & Hdet & HL).
  assert (Hd : deterministic det = true).
  { destruct (Z.lt_ge_cases 1 (NumStates a)); [by apply Hdet|].
    unfold Determinize in E. rewrite one_state_deterministic in E by done. injection E as <-. by apply one_state_deterministic. }
  apply runs_wpx; [by left|]. eapply runs_step; [by apply Totalize_spec|]. intros T HT.
  pose proof (tz_good _ _ HT) as GT. pose proof (NumStates_pos _ (good_wf _ GT)) as HNT.
  eapply runs_step.
  { apply (runs_for_inv (fun i C => good C ∧ NumStates C = NumStates T ∧ (∀ s c d, 0 ≤ s → edge C s c d ↔ edge T s c d) ∧
      ∀ s, 0 ≤ s < NumStates T → IsAccept C s = if s <? i then negb (IsAccept T s) else IsAccept T s)).
    - split_and!; try done. intros s Hs. by rewrite (proj2 (Z.ltb_ge _ _)) by lia.
    - intros i C Hi ([WC CC] & NC & EC & AC). destruct (SetAccept_spec i (negb (IsAccept C i)) C WC) as (C2 & -> & W2 & SB & A2); [lia|].
      destruct (same_but_accept_view _ _ SB) as (N2 & D2 & P2). cbn. split_and!; [split; [done|]|congruence| |].
      + rewrite (sb_curState _ _ SB). done.
      + intros s c d Hs. unfold edge. rewrite D2. by apply EC.
      + intros s Hs. rewrite A2, !AC by lia. rewrite (proj2 (Z.ltb_ge i i)) by lia.
        case_decide as Es; [rewrite Es, (proj2 (Z.ltb_lt i (i + 1))) by lia; done|].
        destruct (Z.ltb_spec s i), (Z.ltb_spec s (i + 1)); done || lia. }
  cbn beta. intros C (GC & NC & EC & AC). rewrite Z.add_0_l, Z2Nat.id in AC by done.
  eapply runs_mono; [by apply RemoveDeadStates_spec|]. intros c Hc. split_and!; [apply Hc|apply Hc|].
  intros w Hw. rewrite (tm_language _ _ Hc), <- HL. apply (flipped_language det T Gd Hd HT C w); [|done|done].
  intros s Hs. rewrite AC by done. by rewrite (proj2 (Z.ltb_lt _ _)) by lia.
Qed.

(** * Intersecting *)

Lemma snap_spec a : wf a →
  ∃ rows, snap a = Ret rows ∧ Z.of_nat (length rows) = NumStates a ∧ ∀ s, 0 ≤ s < NumStates a → nthZ [] rows s = delta a s.
Proof.
  intros W. pose proof (NumStates_pos _ W) as HN. unfold snap.
  destruct (go_for_inv (E := autoerr) (fun i rows => Z.of_nat (length rows) = NumStates a ∧
      ∀ s, 0 ≤ s < i → nthZ [] rows s = delta a s) (Z.to_nat (NumStates a)) 0 (fun s out =>
    row ← each_transition a s (fun t row => mret (row ++ [tr_of t])) []; aset out s row)
    (repeat [] (Z.to_nat (NumStates a)))) as (rows & -> & Hl & HR).
  - rewrite repeat_length. split; [lia|]. intros s Hs. lia.
  - intros i rows Hi (Hl & HR). rewrite (each_transition_fold a i _ (fun t row => mret (row ++ [t]))) by (done || lia).
    rewrite foldM_mret, go_bind_ret. rewrite aset_Ret by lia. eexists. split; [done|]. rewrite length_insert. split; [done|].
    intros s Hs. rewrite nthZ_insert by lia. case_decide as E; [subst s|apply HR; lia].
    enough (∀ l acc, fold_left (fun st x => st ++ [x]) l acc = acc ++ l) as H by (by rewrite H).
    clear. intros l. induction l as [|t l IH]; intros acc; cbn; [by rewrite app_nil_r|]. by rewrite IH, <- app_assoc.
  - exists rows. split_and!; [done|done|]. intros s Hs. apply HR. lia.
Qed.

Section Product.
Context (a1 a2 : Automaton) (G1 : good a1) (G2 : good a2).

Let W1 : wf a1 := good_wf a1 G1.
Let W2 : wf a2 := good_wf a2 G2.

(** The pairs that have numbers are [reg]; those from the [k]-th on wait. *)
Record crossed (k : nat) (reg : list (Z * Z)) (st : pairing) : Prop := {
  cr_map : ∀ p q, stateMap st !! p = Some q ↔ ∃ i : nat, reg !! i = Some p ∧ q = Z.of_nat i;
  cr_nodup : NoDup reg;
  cr_pairs : pairs st = drop k reg;
  cr_bound : (k ≤ length reg)%nat;
  cr_range : Forall (fun p => 0 ≤ p.1 < NumStates a1 ∧ 0 ≤ p.2 < NumStates a2) reg;
  cr_wf : wf (product st);
  cr_NumStates : NumStates (product st) = Z.of_nat (length reg);
  cr_fresh : ∀ i, Z.of_nat k ≤ i < Z.of_nat (length reg) → ¬ started (product st) i;
  cr_accept : ∀ i p, (i < k)%nat → reg !! i = Some p → IsAccept (product st) (Z.of_nat i) = IsAccept a1 p.1 && IsAccept a2 p.2
}.

(** Pairs of transitions that were met, from the state [me]. *)
Definition met (L : list (tr * tr)) (reg : list (Z * Z)) (l d : Z) : Prop :=
  ∃ t1 t2, (t1, t2) ∈ L ∧ covers t1 l ∧ covers t2 l ∧ 0 ≤ d ∧ reg !! Z.to_nat d = Some (dest_ t1, dest_ t2).

Record meeting (me : nat) (E0 : Z → Z → Z → Prop) (L : list (tr * tr)) (reg : list (Z * Z)) (st : pairing) : Prop := {
  me_crossed : crossed (S me) reg st;
  me_current : curState (product st) = Z.of_nat me ∨ ¬ started (product st) (Z.of_nat me);
  me_edge : ∀ s l d, 0 ≤ s → edge (product st) s l d ↔ E0 s l d ∨ s = Z.of_nat me ∧ met L reg l d;
  me_known : ∀ t1 t2 l, (t1, t2) ∈ L → covers t1 l → covers t2 l → (dest_ t1, dest_ t2) ∈ reg
}.

Lemma met_app L L' reg l d : met (L ++ L') reg l d ↔ met L reg l d ∨ met L' reg l d.
Proof. unfold met. setoid_rewrite elem_of_app. naive_solver. Qed.

Lemma met_one t1 t2 reg l d :
  met [(t1, t2)] reg l d ↔ covers t1 l ∧ covers t2 l ∧ 0 ≤ d ∧ reg !! Z.to_nat d = Some (dest_ t1, dest_ t2).
Proof.
  unfold met. setoid_rewrite list_elem_of_singleton. split; [by intros (? & ? & [= -> ->] & ?)|]. intros ?. by exists t1, t2.
Qed.

Lemma met_prefix L reg reg' l d :
  reg `prefix_of` reg' → NoDup reg' → (∀ t1 t2 l, (t1, t2) ∈ L → covers t1 l → covers t2 l → (dest_ t1, dest_ t2) ∈ reg) →
  met L reg' l d ↔ met L reg l d.
Proof.
  intros HP HD HK. split; intros (t1 & t2 & HL & H1 & H2 & Hd & Hreg); exists t1, t2; split_and!; try done.
  - pose proof (HK t1 t2 l HL H1 H2) as (j & Hj)%list_elem_of_lookup. pose proof (prefix_lookup_Some _ _ _ _ Hj HP) as Hj'.
    by rewrite (NoDup_lookup _ _ _ _ HD Hreg Hj').
  - by eapply prefix_lookup_Some.
Qed.

(** Pairs without a common label change nothing. *)
Lemma meeting_skip me E0 L L' reg st :
  meeting me E0 L reg st → (∀ t1 t2 l, (t1, t2) ∈ L' → covers t1 l → covers t2 l → False) → meeting me E0 (L ++ L') reg st.
Proof.
  intros [H1 H2 H3 H4] HL'. split; try done.
  - intros s l d Hs. rewrite H3, met_app by done. split; [tauto|]. intros [?|[-> [?|(t1 & t2 & Hin & Hc1 & Hc2 & _)]]]; [auto..|].
    exfalso. by apply (HL' t1 t2 l).
  - intros t1 t2 l [?|Hin]%elem_of_app Hc1 Hc2; [by apply (H4 _ _ l)|]. exfalso. by apply (HL' t1 t2 l).
Qed.

(** The number of a pair, a new one if need be. *)
Lemma number_pair me E0 L reg st p :
  meeting me E0 L reg st → 0 ≤ p.1 < NumStates a1 → 0 ≤ p.2 < NumStates a2 →
  runs (match stateMap st !! p with
        | Some np => mret (np, st)
        | None =>
            '(np, c) ← CreateState (product st);
            mret (np, {| product := c; stateMap := <[p := np]> (stateMap st); pairs := pairs st ++ [p] |})
        end) (fun '(np, st') => ∃ reg' (q : nat), reg `prefix_of` reg' ∧ meeting me E0 L reg' st' ∧ np = Z.of_nat q ∧ reg' !! q = Some p).
Proof.
  intros HM Hp1 Hp2. pose proof HM as [[C1 C2 C3 C4 C5 C6 C7 C8 C9] M2 M3 M4].
  destruct (stateMap st !! p) as [np|] eqn:Em.
  - pose proof Em as (i & Hi & ->)%C1. cbn. exists reg, i. done.
  - assert (Hnp : p ∉ reg).
    { intros (i & Hi)%list_elem_of_lookup. assert (stateMap st !! p = Some (Z.of_nat i)) by (apply C1; eauto). congruence. }
    eapply runs_step; [by apply CreateState_spec|]. intros [np c] (Wc & -> & Nc & Dc & Ac & Sc & Cc & _). cbn.
    assert (HP : reg `prefix_of` reg ++ [p]) by apply prefix_app_r, reflexivity.
    assert (HD : NoDup (reg ++ [p])).
    { apply NoDup_app. split_and!; [done| |apply NoDup_singleton]. by intros x Hx ->%list_elem_of_singleton. }
    rewrite C7. exists (reg ++ [p]), (length reg). split; [done|]. split; [|by rewrite lookup_app_r, Nat.sub_diag by lia].
    split; [split; cbn [product stateMap pairs]|..]; cbn [product].
    + intros x q. destruct (decide (p = x)) as [<-|Hne].
      * rewrite lookup_insert_eq. split.
        { intros [= <-]. exists (length reg). by rewrite lookup_app_r, Nat.sub_diag by lia. }
        intros (i & Hi & ->). f_equal. apply lookup_app_Some in Hi as [Hi|[? [? _]%list_lookup_singleton_Some]]; [|lia].
        exfalso. apply Hnp. by eapply list_elem_of_lookup_2.
      * rewrite lookup_insert_ne, C1 by done. split; intros (i & Hi & ->).
        { exists i. by rewrite lookup_app_l by (by eapply lookup_lt_Some). }
        apply lookup_app_Some in Hi as [Hi|[? [? ?]%list_lookup_singleton_Some]]; [by exists i|done].
    + done.
    + by rewrite C3, drop_app_le by done.
    + rewrite length_app. lia.
    + apply Forall_app_2; [done|by apply Forall_singleton].
    + done.
    + rewrite Nc, C7, length_app. cbn. lia.
    + rewrite length_app. cbn. intros i Hi. rewrite Sc by lia. intros [Hs Hne]. apply (C8 i); [lia|done].
    + intros i x Hi Hx. apply lookup_app_Some in Hx as [Hx|[? _]]; [|lia]. rewrite Ac. by apply C9.
    + rewrite Cc. destruct M2 as [?|M2]; [by left|right]. rewrite Sc by lia. tauto.
    + intros s l d Hs. unfold edge at 1. rewrite Dc by done. fold (edge (product st) s l d). rewrite M3 by done.
      by rewrite (met_prefix L reg (reg ++ [p]) l d HP HD M4).
    + intros t1 t2 l HL Hc1 Hc2. apply elem_of_app. left. by apply (M4 t1 t2 l).
Qed.

Definition starts_sorted (row : list tr) : Prop := StronglySorted (fun t u => min_ t ≤ min_ u) row.

Lemma meet_row_spec me E0 r1 row2 : ∀ L reg st,
  meeting me E0 L reg st → tr_ok (NumStates a1) r1 → Forall (tr_ok (NumStates a2)) row2 → starts_sorted row2 →
  runs (meet_row (Z.of_nat me) r1 row2 st) (fun st' => ∃ reg', reg `prefix_of` reg' ∧ meeting me E0 (L ++ map (pair r1) row2) reg' st').
Proof.
  induction row2 as [|r2 row2 IH]; intros L reg st HM Hr1 HF HS; cbn [meet_row map].
  - cbn. exists reg. by rewrite app_nil_r.
  - pose proof HF as [Hr2 HF']%Forall_cons. pose proof HS as [HB HS']%StronglySorted_cons. rewrite Forall_forall in HB.
    rewrite (cons_middle (r1, r2)), app_assoc.
    destruct (Z.ltb_spec (max_ r2) (min_ r1)) as [H1|H1].
    { apply IH; [|done..]. apply meeting_skip; [done|]. intros t1 t2 l [= -> ->]%list_elem_of_singleton. unfold covers. lia. }
    destruct (Z.ltb_spec (max_ r1) (min_ r2)) as [H2|H2].
    { cbn. exists reg. split; [done|]. rewrite <- app_assoc. apply meeting_skip; [done|]. unfold covers.
      intros t1 t2 l [[= -> ->]|Hin]%elem_of_cons; [lia|]. apply list_elem_of_fmap in Hin as (u & [= -> ->] & Hu).
      specialize (HB u Hu). lia. }
    set (lo := if min_ r1 <? min_ r2 then min_ r2 else min_ r1). set (hi := if max_ r2 <? max_ r1 then max_ r2 else max_ r1).
    assert (Hlohi : ∀ l, lo ≤ l ≤ hi ↔ covers r1 l ∧ covers r2 l).
    { intros l. unfold covers, lo, hi. destruct (Z.ltb_spec (min_ r1) (min_ r2)), (Z.ltb_spec (max_ r2) (max_ r1)); lia. }
    assert (Hle : 0 ≤ lo ≤ hi).
    { unfold lo, hi. destruct Hr1 as [_ ?], Hr2 as [_ ?].
      destruct (Z.ltb_spec (min_ r1) (min_ r2)), (Z.ltb_spec (max_ r2) (max_ r1)); lia. }
    clearbody lo hi. cbn zeta.
    eapply runs_step; [by apply (number_pair me E0 L reg st (dest_ r1, dest_ r2)); [|apply Hr1|apply Hr2]|].
    intros [np st1] (reg1 & q & HP & HM1 & -> & Hq). pose proof HM1 as [[C1 C2 C3 C4 C5 C6 C7 C8 C9] M2 M3 M4].
    pose proof (lookup_lt_Some _ _ _ Hq) as Hql.
    eapply runs_step; [apply AddTransition_spec; [done|lia|lia|done|done]|]. intros c HA.
    eapply runs_mono; [apply (IH (L ++ [(r1, r2)]) reg1); [|done..]|].
    + split; [split; cbn [product stateMap pairs]|..]; cbn [product]; try done; try apply HA.
      * by rewrite (ad_NumStates _ _ _ _ _ _ HA).
      * intros i Hi. rewrite (ad_started _ _ _ _ _ _ HA) by lia. intros [Hst|Hi']; [by apply (C8 i)|lia].
      * intros i p Hi Hp. rewrite (ad_IsAccept _ _ _ _ _ _ HA). by apply C9.
      * left. apply HA.
      * intros s l d Hs. rewrite (ad_edge _ _ _ _ _ _ HA), M3, met_app, met_one, Hlohi by done. split.
        { intros [[?|[-> ?]]|(-> & -> & Hc1 & Hc2)]; [auto..|]. right. split; [done|]. right. rewrite Nat2Z.id. split_and!; done || lia. }
        intros [?|[-> [?|(Hc1 & Hc2 & Hd & Hreg)]]]; [auto..|]. right. split_and!; try done.
        pose proof (NoDup_lookup _ _ _ _ C2 Hq Hreg). lia.
      * intros t1 t2 l [?|[= -> ->]%list_elem_of_singleton]%elem_of_app Hc1 Hc2; [by apply (M4 _ _ l)|].
        by eapply list_elem_of_lookup_2.
    + intros st' (reg' & HP' & HM'). exists reg'. split; [by transitivity reg1|done].
Qed.

Lemma meet_rows_spec me E0 row1 row2 : ∀ L reg st,
  meeting me E0 L reg st → Forall (tr_ok (NumStates a1)) row1 → Forall (tr_ok (NumStates a2)) row2 → starts_sorted row2 →
  runs (foldM (fun r1 st => meet_row (Z.of_nat me) r1 row2 st) row1 st)
    (fun st' => ∃ reg', reg `prefix_of` reg' ∧ meeting me E0 (L ++ list_prod row1 row2) reg' st').
Proof.
  induction row1 as [|r1 row1 IH]; intros L reg st HM HF1 HF2 HS; cbn [foldM list_prod].
  - cbn. exists reg. by rewrite app_nil_r.
  - apply Forall_cons in HF1 as [Hr1 HF1]. eapply runs_step; [by apply meet_row_spec|].
    intros st1 (reg1 & HP & HM1). eapply runs_mono; [by apply (IH (L ++ map (pair r1) row2) reg1)|].
    intros st' (reg' & HP' & HM'). exists reg'. rewrite app_assoc. split; [by transitivity reg1|done].
Qed.
(** The pairs that a pair leads to. *)
Definition meets (reg : list (Z * Z)) (p : Z * Z) (l d : Z) : Prop :=
  ∃ d1 d2, edge a1 p.1 l d1 ∧ edge a2 p.2 l d2 ∧ 0 ≤ d ∧ reg !! Z.to_nat d = Some (d1, d2).

Lemma met_meets reg p l d : met (list_prod (delta a1 p.1) (delta a2 p.2)) reg l d ↔ meets reg p l d.
Proof.
  unfold met, meets, edge, leads. split.
  - intros (t1 & t2 & Hin%list_elem_of_In & Hc1 & Hc2 & Hd & Hreg). apply in_prod_iff in Hin as [Ht1 Ht2].
    apply list_elem_of_In in Ht1, Ht2. exists (dest_ t1), (dest_ t2). eauto 10.
  - intros (d1 & d2 & (t1 & Ht1 & <- & Hc1) & (t2 & Ht2 & <- & Hc2) & Hd & Hreg). exists t1, t2. split_and!; try done.
    apply list_elem_of_In, in_prod_iff. by rewrite <- !list_elem_of_In.
Qed.

Record crossing (k : nat) (reg : list (Z * Z)) (st : pairing) : Prop := {
  cx_crossed : crossed k reg st;
  cx_initial : reg !! 0%nat = Some (0, 0);
  cx_current : curState (product st) < Z.of_nat k;
  cx_edge : ∀ s l d, 0 ≤ s → edge (product st) s l d ↔ ∃ (i : nat) p, s = Z.of_nat i ∧ (i < k)%nat ∧ reg !! i = Some p ∧ meets reg p l d;
  cx_known : ∀ (i : nat) p l d1 d2, (i < k)%nat → reg !! i = Some p → edge a1 p.1 l d1 → edge a2 p.2 l d2 → (d1, d2) ∈ reg
}.

Lemma meets_prefix reg reg' p l d :
  reg `prefix_of` reg' → NoDup reg' → (∀ d1 d2, edge a1 p.1 l d1 → edge a2 p.2 l d2 → (d1, d2) ∈ reg) →
  meets reg' p l d ↔ meets reg p l d.
Proof.
  intros HP HD HK. split; intros (d1 & d2 & H1 & H2 & Hd & Hreg); exists d1, d2; split_and!; try done.
  - pose proof (HK d1 d2 H1 H2) as (j & Hj)%list_elem_of_lookup. pose proof (prefix_lookup_Some _ _ _ _ Hj HP) as Hj'.
    by rewrite (NoDup_lookup _ _ _ _ HD Hreg Hj').
  - by eapply prefix_lookup_Some.
Qed.

Lemma delta_sorted a s : good a → 0 ≤ s < NumStates a → starts_sorted (delta a s).
Proof.
  intros [W Hc] Hs. destruct (wf_finished _ W s Hs ltac:(lia)) as [HS _]. unfold starts_sorted.
  induction HS as [|t l HS IH HF]; constructor; [done|]. eapply Forall_impl; [exact HF|]. intros u Hu%minMaxDest_order. lia.
Qed.

Lemma meet_step_spec t1 t2 k reg st :
  (∀ s, 0 ≤ s < NumStates a1 → aget (E := autoerr) t1 s = Ret (delta a1 s)) →
  (∀ s, 0 ≤ s < NumStates a2 → aget (E := autoerr) t2 s = Ret (delta a2 s)) →
  crossing k reg st →
  runs (meet_step a1 a2 t1 t2 st) (fun r => match r with
    | inl st' => ∃ reg', crossing (S k) reg' st'
    | inr c => k = length reg ∧ c = product st
    end).
Proof.
  intros Ht1 Ht2 [HC HI Hcur HE HK]. pose proof HC as [C1 C2 C3 C4 C5 C6 C7 C8 C9]. unfold meet_step. rewrite C3.
  destruct (decide (k = length reg)) as [->|Hne]; [by rewrite drop_ge by lia|].
  destruct (lookup_lt_is_Some_2 reg k) as [p Hp]; [lia|]. rewrite (drop_S _ _ _ Hp). cbn [stateMap product pairs].
  assert (Em : stateMap st !! p = Some (Z.of_nat k)) by (apply C1; eauto). rewrite Em. cbn [default from_option].
  change (id (Z.of_nat k)) with (Z.of_nat k). rewrite Forall_forall in C5.
  destruct (C5 p) as [Hp1 Hp2]; [by eapply list_elem_of_lookup_2|].
  destruct (SetAccept_spec (Z.of_nat k) (IsAccept a1 p.1 && IsAccept a2 p.2) (product st) C6) as (c & -> & Wc & SB & Ac); [lia|].
  rewrite go_bind_ret, Ht1, go_bind_ret, Ht2, go_bind_ret by done. cbn [product stateMap pairs].
  destruct (same_but_accept_view _ _ SB) as (Nc & Dc & Pc).
  assert (HM : meeting k (edge (product st)) [] reg {| product := c; stateMap := stateMap st; pairs := drop (S k) reg |}).
  { split; [split; cbn [product stateMap pairs]|..]; cbn [product]; try done.
    - lia.
    - by apply Forall_forall.
    - congruence.
    - intros i Hi. unfold started. rewrite Pc. apply C8. lia.
    - intros i x Hi Hx. rewrite Ac. case_decide as Eik.
      + apply Nat2Z.inj in Eik as ->. congruence.
      + apply C9; [lia|done].
    - right. unfold started. rewrite Pc. apply C8. lia.
    - intros s l d Hs. unfold edge. rewrite Dc. split; [by left|]. intros [?|[_ (? & ? & ?%elem_of_nil & _)]]; done.
    - by intros ? ? ? ?%elem_of_nil. }
  eapply runs_step; [apply (meet_rows_spec k _ (delta a1 p.1) (delta a2 p.2) _ _ _ HM); [by apply (wf_ok _ W1)|by apply (wf_ok _ W2)|by apply delta_sorted]|].
  intros st' (reg' & HP & [HC' M2 M3 M4]). cbn. exists reg'. cbn [app] in M3, M4. pose proof (cr_nodup _ _ _ HC') as HD'.
  pose proof (prefix_lookup_Some _ _ _ _ Hp HP) as Hp'.
  assert (Hsame : ∀ i x, (i < k)%nat → reg' !! i = Some x → reg !! i = Some x).
  { intros i x Hi Hx. destruct (lookup_lt_is_Some_2 reg i) as [y Hy]; [lia|].
    rewrite (prefix_lookup_Some _ _ _ _ Hy HP) in Hx. congruence. }
  assert (Hkp : ∀ l d1 d2, edge a1 p.1 l d1 → edge a2 p.2 l d2 → (d1, d2) ∈ reg').
  { intros l d1 d2 (u1 & Hu1 & <- & Hc1) (u2 & Hu2 & <- & Hc2). apply (M4 u1 u2 l); [|done..].
    apply list_elem_of_In, in_prod_iff. by rewrite <- !list_elem_of_In. }
  split; try done.
  - by eapply prefix_lookup_Some.
  - destruct (wf_cur _ (cr_wf _ _ _ HC')) as [->|[Hr (x & y & Ep & _)]]; [lia|].
    destruct (Z.lt_ge_cases (curState (product st')) (Z.of_nat (S k))) as [|Hge]; [done|]. exfalso.
    rewrite (cr_NumStates _ _ _ HC') in Hr. apply (cr_fresh _ _ _ HC' (curState (product st'))); [lia|]. unfold started. lia.
  - intros s l d Hs. rewrite M3, HE by done. rewrite met_meets. split.
    + intros [(i & x & -> & Hi & Hx & Hm)|[-> Hm]]; [|exists k, p; split_and!; done || lia].
      exists i, x. split_and!; [done|lia|by eapply prefix_lookup_Some|].
      apply (meets_prefix reg reg'); [done|done| |done]. intros d1 d2. by apply (HK i).
    + intros (i & x & -> & Hi & Hx & Hm). destruct (decide (i = k)) as [->|]; [right; split; [done|]; congruence|].
      left. assert (Hx' : reg !! i = Some x) by (apply Hsame; [lia|done]). exists i, x. split_and!; [done|lia|done|].
      apply (meets_prefix reg reg'); [done|done| |done]. intros d1 d2. apply (HK i); [lia|done].
  - intros i x l d1 d2 Hi Hx. destruct (decide (i = k)) as [->|].
    + assert (x = p) as -> by congruence. apply Hkp.
    + intros He1 He2. eapply elem_of_prefix; [|exact HP]. apply (HK i x l); [lia|apply Hsame; [lia|done]|done..].
Qed.

Lemma product_language reg c c' w :
  crossing (length reg) reg c → wf (product c) → (∀ s, IsAccept c' s = IsAccept (product c) s) →
  (∀ s l d, 0 ≤ s → edge c' s l d ↔ edge (product c) s l d) →
  language c' w ↔ language a1 w ∧ language a2 w.
Proof.
  intros [HC HI _ HE HK] W HA HE'. unfold language, accepts.
  apply (accepts_product (fun q s1 s2 => ∃ i : nat, q = Z.of_nat i ∧ reg !! i = Some (s1, s2))).
  - intros q s1 s2 l q' (i & -> & Hi) He. apply HE' in He; [|lia].
    apply HE in He as (j & p & Ej & _ & Hj & d1 & d2 & H1 & H2 & Hd & Hreg); [|lia].
    apply Nat2Z.inj in Ej as <-. assert (p = (s1, s2)) as -> by congruence. exists d1, d2. split; [|done].
    exists (Z.to_nat q'). split; [lia|done].
  - intros q s1 s2 l d1 d2 (i & -> & Hi) H1 H2. pose proof (lookup_lt_Some _ _ _ Hi) as Hil.
    pose proof (HK i (s1, s2) l d1 d2 Hil Hi H1 H2) as (j & Hj)%list_elem_of_lookup.
    exists (Z.of_nat j). split; [|by exists j]. apply HE'; [lia|]. apply HE; [lia|]. exists i, (s1, s2). split_and!; [done..|].
    exists d1, d2. rewrite Nat2Z.id. split_and!; done || lia.
  - intros q s1 s2 (i & -> & Hi). unfold final. rewrite HA. rewrite (cr_accept _ _ _ HC i (s1, s2)) by (done || by eapply lookup_lt_Some).
    cbn. apply andb_true_iff.
  - by exists 0%nat.
Qed.

Lemma pairs_bound reg : NoDup reg → Forall (fun p => 0 ≤ p.1 < NumStates a1 ∧ 0 ≤ p.2 < NumStates a2) reg →
  Z.of_nat (length reg) ≤ NumStates a1 * NumStates a2.
Proof.
  intros HD HF. rewrite Forall_forall in HF.
  assert (H : (length reg ≤ length (list_prod (seqZ 0 (NumStates a1)) (seqZ 0 (NumStates a2))))%nat).
  { apply submseteq_length, NoDup_submseteq; [done|]. intros [s1 s2] [Hs1 Hs2]%HF. cbn in Hs1, Hs2.
    apply list_elem_of_In, in_prod_iff. rewrite <- !list_elem_of_In, !elem_of_seqZ. lia. }
  rewrite length_prod, !length_seqZ in H. pose proof (NumStates_pos _ W1). pose proof (NumStates_pos _ W2). nia.
Qed.

Lemma Intersection_spec same :
  (same = true → a1 = a2) →
  runs (Intersection same a1 a2) (fun a' => good a' ∧ ∀ w, language a' w ↔ language a1 w ∧ language a2 w).
Proof.
  intros Hsame. unfold Intersection. destruct same; [rewrite <- Hsame by done; cbn; split; [done|]; intros w; tauto|].
  pose proof (NumStates_pos _ W1) as HN1. pose proof (NumStates_pos _ W2) as HN2.
  destruct (Z.eqb_spec (NumStates a1) 0) as [E1|E1].
  { cbn. split; [done|]. intros w. split; [intros H; by apply language_no_states in H|tauto]. }
  destruct (Z.eqb_spec (NumStates a2) 0) as [E2|E2].
  { cbn. split; [done|]. intros w. split; [intros H; by apply language_no_states in H|tauto]. }
  destruct (snap_spec a1 W1) as (t1 & -> & Hl1 & Ht1). destruct (snap_spec a2 W2) as (t2 & -> & Hl2 & Ht2). rewrite !go_bind_ret.
  destruct (shows_empty 2 2) as [W0 N0 A0 E0 C0 S0 _]. cbn in N0, C0.
  eapply runs_step; [by apply CreateState_spec|]. intros [n c0] (Wc & -> & Nc & Dc & Ac & Sc & Cc & _).
  change (NumStates NewAutomaton) with 0 in *.
  assert (HX : crossing 0 [(0, 0)] {| product := c0; stateMap := {[ (0, 0) := 0 ]}; pairs := [(0, 0)] |}).
  { split; [split; cbn [product stateMap pairs]|..]; cbn [product]; try done; try lia.
    - intros p q. rewrite lookup_singleton_Some. split; [intros [<- <-]; by exists 0%nat|].
      by intros (i & [-> <-]%list_lookup_singleton_Some & ->).
    - apply NoDup_singleton.
    - apply Forall_singleton. cbn. lia.
    - intros i Hi. cbn in Hi. rewrite Sc by lia. lia.
    - rewrite Cc. change (curState NewAutomaton) with (-1). lia.
    - intros s l d Hs. split; [|intros (? & ? & _ & ? & _); lia]. intros (t & Ht & _). rewrite Dc in Ht by done.
      change (NewAutomatonWithCapacity 2 2) with NewAutomaton in *. rewrite delta_beyond in Ht; [by apply elem_of_nil in Ht|done|].
      change (NumStates NewAutomaton) with 0. done. }
  assert (HL : runs (go_loop (Z.to_pos (NumStates a1 * NumStates a2 + 1)) (meet_step a1 a2 t1 t2)
      {| product := c0; stateMap := {[ (0, 0) := 0 ]}; pairs := [(0, 0)] |})
    (fun c => ∃ reg st, crossing (length reg) reg st ∧ c = product st)).
  { assert (HW : wpx (eq ArrayTooLarge) (go_loop (Z.to_pos (NumStates a1 * NumStates a2 + 1)) (meet_step a1 a2 t1 t2)
        {| product := c0; stateMap := {[ (0, 0) := 0 ]}; pairs := [(0, 0)] |})
      (fun c => ∃ reg st, crossing (length reg) reg st ∧ c = product st)).
    2: { revert HW. destruct (go_loop _ _ _) as [c|e| |]; cbn; [done|by intros <-|done|done]. }
    apply (go_loop_ghost _ (fun m st => ∃ k reg, crossing k reg st ∧ m = NumStates a1 * NumStates a2 - Z.of_nat k) _ _ _
      (NumStates a1 * NumStates a2)).
    - exists 0%nat, [(0, 0)]. split; [done|lia].
    - nia.
    - intros m st (k & reg & HC & ->). pose proof (cr_bound _ _ _ (cx_crossed _ _ _ HC)).
      pose proof (pairs_bound reg (cr_nodup _ _ _ (cx_crossed _ _ _ HC)) (cr_range _ _ _ (cx_crossed _ _ _ HC))). lia.
    - intros m st (k & reg & HC & ->). apply runs_wpx; [done|].
      eapply runs_mono; [apply (meet_step_spec t1 t2 k reg st)|].
      + intros s Hs. rewrite (nthZ_aget []), Ht1 by lia. done.
      + intros s Hs. rewrite (nthZ_aget []), Ht2 by lia. done.
      + done.
      + intros [st'|c]; [intros (reg' & HC')|intros [-> ->]; eauto].
        exists (NumStates a1 * NumStates a2 - Z.of_nat (S k)). split; [lia|]. eauto. }
  eapply runs_step; [exact HL|]. cbn beta. intros c (reg & st & HC & ->).
  pose proof (cr_wf _ _ _ (cx_crossed _ _ _ HC)) as Wp.
  destruct (FinishState_spec (product st) Wp) as (c' & -> & W' & C' & N' & A' & E' & _). rewrite go_bind_ret.
  eapply runs_mono; [by apply RemoveDeadStates_spec|]. intros a' Ha'. split; [apply Ha'|]. intros w.
  rewrite (tm_language _ _ Ha'). by apply (product_language reg st).
Qed.
End Product.

(** * Difference and decisions *)

Lemma accepts_decidable a w : ∀ s, 0 ≤ s → wf a →
  accepts_from (edge a) (final a) s w ∨ ¬ accepts_from (edge a) (final a) s w.
Proof.
  induction w as [|c w IH]; intros s Hs W.
  - rewrite !accepts_nil. unfold final. destruct (IsAccept a s); [by left|by right].
  - destruct (decide (s < NumStates a)) as [Hlt|Hge].
    + pose proof (wf_ok _ W s ltac:(lia)) as HO. rewrite !accepts_cons. unfold edge at 1 3, leads.
      revert HO. induction (delta a s) as [|t l IHl]; intros HO.
      * right. by intros (d & (t & ?%elem_of_nil & _) & _).
      * apply Forall_cons in HO as [[Ht _] HO]. destruct (IHl HO) as [(d & (u & Hu & Hd) & Hw)|Hn].
        { left. exists d. split; [|done]. exists u. split; [by right|done]. }
        destruct (decide (covers t c)) as [Hc|Hc].
        -- destruct (IH (dest_ t) ltac:(lia) W) as [Hw|Hw].
           { left. exists (dest_ t). split; [|done]. exists t. split; [left|done]. }
           right. intros (d & (u & [->|Hu]%elem_of_cons & <- & Hcu) & Hd); [done|]. apply Hn. exists (dest_ u). split; [|done]. by exists u.
        -- right. intros (d & (u & [->|Hu]%elem_of_cons & <- & Hcu) & Hd); [done|]. apply Hn. exists (dest_ u). split; [|done]. by exists u.
    + right. intros (d & (t & Ht & _) & _)%accepts_cons. rewrite delta_beyond in Ht by (done || lia). by apply elem_of_nil in Ht.
Qed.

Lemma language_decidable a w : wf a → language a w ∨ ¬ language a w.
Proof. by apply accepts_decidable. Qed.

Lemma MakeEmpty_spec : ∃ a, MakeEmpty = Ret a ∧ good a ∧ ∀ w, ¬ language a w.
Proof.
  exists NewAutomaton. split; [done|]. split; [apply New_good|]. intros w. apply language_no_states; [apply (New_good 2 2)|done].
Qed.

Lemma Minus_spec same a1 a2 workLimit :
  good a1 → good a2 → NumStates a2 < 2 ^ 63 → (same = true → a1 = a2) →
  wpx (too_complex a2 (to_int64 (workLimit * 10))) (Minus same a1 a2 workLimit) (fun m =>
    good m ∧ (∀ w, language m w → language a1 w) ∧
    ∀ w, Forall code_point w → language m w ↔ language a1 w ∧ ¬ language a2 w).
Proof.
  intros G1 G2 HN Hsame. unfold Minus. destruct (IsEmpty_spec a1 (good_wf _ G1)) as (e1 & -> & He1). rewrite go_bind_ret.
  destruct MakeEmpty_spec as (e & Ee & Ge & He).
  destruct e1; cbn [orb].
  { rewrite Ee. cbn. split; [done|]. pose proof (proj1 He1 eq_refl) as Hn. split; [intros w Hw; by apply He in Hw|].
    intros w _. split; [intros Hw; by apply He in Hw|]. intros [Hw _]. by apply Hn in Hw. }
  destruct same.
  { rewrite Hsame, Ee by done. cbn. split; [done|]. split; [intros w Hw; by apply He in Hw|].
    intros w _. split; [intros Hw; by apply He in Hw|tauto]. }
  destruct (IsEmpty_spec a2 (good_wf _ G2)) as (e2 & -> & He2). rewrite go_bind_ret. destruct e2.
  { cbn. split; [done|]. split; [done|]. intros w _. pose proof (proj1 He2 eq_refl w). tauto. }
  apply wpx_bind. eapply wpx_post; [by apply Complement_spec|]. cbn beta. intros c (Gc & _ & HC).
  apply runs_wpx; [by left|]. eapply runs_mono; [by apply Intersection_spec|]. intros m (Gm & HM).
  split; [done|]. split; [intros w Hw; by apply HM in Hw as [? _]|]. intros w Hw. by rewrite HM, HC.
Qed.

(** An empty difference. *)
Lemma Minus_empty same a1 a2 workLimit :
  good a1 → good a2 → NumStates a2 < 2 ^ 63 → (same = true → a1 = a2) → (∀ w, language a1 w → Forall code_point w) →
  wpx (too_complex a2 (to_int64 (workLimit * 10))) (m ← Minus same a1 a2 workLimit; IsEmpty m)
    (fun b => b = true ↔ ∀ w, language a1 w → language a2 w).
Proof.
  intros G1 G2 HN Hsame Hcp. apply wpx_bind. eapply wpx_post; [by apply Minus_spec|]. cbn beta. intros m (Gm & Hsub & HM).
  destruct (IsEmpty_spec m (good_wf _ Gm)) as (b & -> & Hb). cbn. rewrite Hb. split.
  - intros He w Hw. destruct (language_decidable a2 w (good_wf _ G2)) as [|Hn]; [done|]. exfalso.
    apply (He w), HM; [by apply Hcp|done].
  - intros Hi w Hw. pose proof (Hsub w Hw) as H1. apply HM in Hw as [_ Hn]; [|by apply Hcp]. by apply Hn, Hi.
Qed.

(** C21. [Intersection] ends, and its result accepts the words that both automata accept:
    the early exit from the rows of transitions, which relies on their order, loses
    nothing. *)
Theorem Intersection_correct same a1 a2 :
  good a1 → good a2 → (same = true → a1 = a2) →
  runs (Intersection same a1 a2) (fun a' => good a' ∧ ∀ w, language a' w ↔ language a1 w ∧ language a2 w).
Proof. intros. by apply Intersection_spec. Qed.

(** C20. [Complement] ends; it gives up like [Determinize], and otherwise its result accepts
    exactly the words of code points that the automaton does not accept, and all its
    states are live. *)
Theorem Complement_correct a workLimit :
  good a → NumStates a < 2 ^ 63 →
  match Complement a workLimit with
  | Ret c => good c ∧ all_live c ∧ ∀ w, Forall code_point w → language c w ↔ ¬ language a w
  | Err TooComplexToDeterminize => to_int64 (workLimit * 10) ≤ NumStates a * 2 ^ NumStates a
  | Err ArrayTooLarge => True
  | _ => False
  end.
Proof.
  intros G HN. pose proof (Complement_spec a workLimit G HN) as H. unfold complements in H.
  destruct (Complement a workLimit) as [c|e| |]; try done. by destruct H as [->|[-> ?]].
Qed.

(** C30. [SubsetOf] decides whether all words of the one automaton are accepted by the
    other, if the labels of the first are code points; it gives up like [Determinize]
    on the second. *)
Theorem SubsetOf_decides same a1 a2 workLimit :
  good a1 → good a2 → NumStates a2 < 2 ^ 63 → (same = true → a1 = a2) → (∀ w, language a1 w → Forall code_point w) →
  match SubsetOf same a1 a2 workLimit with
  | Ret b => b = true ↔ ∀ w, language a1 w → language a2 w
  | Err TooComplexToDeterminize => to_int64 (workLimit * 10) ≤ NumStates a2 * 2 ^ NumStates a2
  | Err ArrayTooLarge => True
  | _ => False
  end.
Proof.
  intros G1 G2 HN Hs Hcp. pose proof (Minus_empty same a1 a2 workLimit G1 G2 HN Hs Hcp) as H. unfold SubsetOf.
  destruct (m ← Minus same a1 a2 workLimit; IsEmpty m) as [b|e| |]; try done. by destruct H as [->|[-> ?]].
Qed.

(** [SameLanguage] decides whether two automata over code points accept the same
    words. *)
Theorem SameLanguage_decides same a1 a2 workLimit :
  good a1 → good a2 → NumStates a1 < 2 ^ 63 → NumStates a2 < 2 ^ 63 → (same = true → a1 = a2) →
  (∀ w, language a1 w → Forall code_point w) → (∀ w, language a2 w → Forall code_point w) →
  match SameLanguage same a1 a2 workLimit with
  | Ret b => b = true ↔ ∀ w, language a1 w ↔ language a2 w
  | Err TooComplexToDeterminize =>
      to_int64 (workLimit * 10) ≤ NumStates a1 * 2 ^ NumStates a1 ∨ to_int64 (workLimit * 10) ≤ NumStates a2 * 2 ^ NumStates a2
  | Err ArrayTooLarge => True
  | _ => False
  end.
Proof.
  intros G1 G2 HN1 HN2 Hs H1 H2. pose proof (Minus_empty same a1 a2 workLimit G1 G2 HN2 Hs H1) as HA.
  pose proof (Minus_empty same a2 a1 workLimit G2 G1 HN1 (fun E => eq_sym (Hs E)) H2) as HB.
  unfold SameLanguage. destruct (Minus same a1 a2 workLimit) as [d1|e| |]; try done; cbn [mbind go_bind] in *.
  2: { destruct HA as [->|[-> ?]]; [done|by right]. }
  destruct (IsEmpty d1) as [b1|e| |]; try done; cbn [mbind go_bind] in *; cbn in HA.
  2: { destruct HA as [->|[-> ?]]; [done|by right]. }
  destruct b1; cbn [negb].
  - destruct (Minus same a2 a1 workLimit ≫= IsEmpty) as [b2|e| |]; try done; cbn in HB.
    + rewrite HB. pose proof (proj1 HA eq_refl). split; [intros Hb w; split; auto|]. intros Hiff w. apply Hiff.
    + destruct HB as [->|[-> ?]]; [done|by left].
  - cbn. split; [done|]. intros Hiff. apply HA. intros w. apply Hiff.
Qed.

(** ** Examples *)

Definition labels_within (a : Automaton) : bool :=
  forallb (fun s => forallb (fun t => max_ t <=? MaxCodePoint) (delta a s)) (seqZ 0 (NumStates a)).

Lemma labels_within_words a : wf a → labels_within a = true → ∀ w, language a w → Forall code_point w.
Proof.
  intros W HL w. unfold labels_within in HL. rewrite forallb_forall in HL.
  enough (∀ s, 0 ≤ s → accepts_from (edge a) (final a) s w → Forall code_point w) as H by (by apply H).
  induction w as [|c w IH]; intros s Hs; [constructor|]. intros (d & He & Hw)%accepts_cons.
  pose proof (edge_dest _ _ _ _ W Hs He) as (Hlt & Hd & Hc). constructor; [|apply (IH d); [lia|done]].
  destruct He as (t & Ht & _ & Hct). specialize (HL s). rewrite forallb_forall in HL.
  assert (Hm : (max_ t <=? MaxCodePoint) = true).
  { apply HL; [apply list_elem_of_In, elem_of_seqZ; lia|by apply list_elem_of_In]. }
  apply Z.leb_le in Hm. unfold code_point, covers, MinCodePoint in *. lia.
Qed.

(** Words over [a] and [b] that end in [b], and those with two [b]s in a row. *)
Definition ends_b : Automaton := automaton_of
  [BCreateState; BCreateState; BSetAccept 1 true; BAddTransition 0 0 97 98; BAddTransition 0 1 98 98; BFinishState].
Definition has_bb : Automaton := automaton_of
  [BCreateState; BCreateState; BCreateState; BSetAccept 2 true; BAddTransition 0 0 97 98; BAddTransition 0 1 98 98;
   BAddTransition 1 2 98 98; BAddTransition 2 2 97 98; BFinishState].

Lemma ends_b_good : good ends_b.
Proof. apply automaton_of_good. vm_compute. reflexivity. Qed.
Lemma has_bb_good : good has_bb.
Proof. apply automaton_of_good. vm_compute. reflexivity. Qed.

Lemma Intersection_correct_witness :
  runs (Intersection false ends_b has_bb) (fun a' => good a' ∧ ∀ w, language a' w ↔ language ends_b w ∧ language has_bb w) ∧
  (∃ a', Intersection false ends_b has_bb = Ret a' ∧ NumStates a' = 4).
Proof.
  split; [apply Intersection_correct; [apply ends_b_good|apply has_bb_good|discriminate]|].
  eexists. split; vm_compute; reflexivity.
Defined.

Lemma Complement_correct_witness :
  Complement has_bb 0 = Err TooComplexToDeterminize ∧
  match Complement has_bb 100 with
  | Ret c => good c ∧ all_live c ∧ ∀ w, Forall code_point w → language c w ↔ ¬ language has_bb w
  | _ => False
  end.
Proof.
  split; [vm_compute; reflexivity|].
  pose proof (Complement_correct has_bb 100 has_bb_good ltac:(vm_compute; reflexivity)) as H.
  destruct (Complement has_bb 100) as [c|e| |] eqn:E; [exact H|vm_compute in E; discriminate..].
Defined.

Lemma SubsetOf_decides_witness :
  SubsetOf false has_bb ends_b 100 = Ret false ∧ ¬ (∀ w, language has_bb w → language ends_b w).
Proof.
  assert (E : SubsetOf false has_bb ends_b 100 = Ret false) by (vm_compute; reflexivity). split; [exact E|].
  pose proof (SubsetOf_decides false has_bb ends_b 100 has_bb_good ends_b_good ltac:(vm_compute; reflexivity) ltac:(discriminate)
    (labels_within_words has_bb (good_wf _ has_bb_good) ltac:(vm_compute; reflexivity))) as H.
  rewrite E in H. intros Hs. apply H in Hs. discriminate.
Defined.

Lemma SameLanguage_decides_witness :
  SameLanguage false ends_b ends_b 100 = Ret true ∧ SameLanguage false has_bb ends_b 100 = Ret false ∧
  ¬ (∀ w, language has_bb w ↔ language ends_b w).
Proof.
  assert (E : SameLanguage false has_bb ends_b 100 = Ret false) by (vm_compute; reflexivity).
  split; [vm_compute; reflexivity|]. split; [exact E|].
  pose proof (SameLanguage_decides false has_bb ends_b 100 has_bb_good ends_b_good ltac:(vm_compute; reflexivity)
    ltac:(vm_compute; reflexivity) ltac:(discriminate)
    (labels_within_words has_bb (good_wf _ has_bb_good) ltac:(vm_compute; reflexivity))
    (labels_within_words ends_b (good_wf _ ends_b_good) ltac:(vm_compute; reflexivity))) as H.
  rewrite E in H. intros Hs. apply H in Hs. discriminate.
Defined.
