(* ===== verification/RegularOps.v ===== *)
(** Regular operations of [util/automaton/operations.go] on the languages of automata:
    union, option, concatenation, and repetition. *)

From stdpp Require Import base tactics numbers list sorting.
From Stdlib Require Import ZArith Lia.
From S2P Require Import Prelude WordBits Nfa Automaton Builder Rows Liveness.

Local Open Scope Z_scope.

(** * Languages *)

Abbreviation words := (list Z → Prop).

Definition cat (L K : words) : words := fun w => ∃ u v, w = u ++ v ∧ L u ∧ K v.

Fixpoint cats (Ls : list words) : words :=
  match Ls with [] => fun w => w = [] | L :: Ls => cat L (cats Ls) end.

Inductive star (L : words) : words :=
  | star_nil : star L []
  | star_app u v : L u → star L v → star L (u ++ v).

(** [n] words of [L] in a row. *)
Fixpoint power (n : nat) (L : words) : words :=
  match n with O => fun w => w = [] | S n => cat L (power n L) end.

(** * Union *)

Definition SearchInts (l : list Z) (x : Z) : Z := Z.of_nat (length (filter (fun y => y < x) l)).

Definition remap (mergeable : list Z) (s : Z) : Z :=
  let idx := SearchInts mergeable s in
  if (idx <? Z.of_nat (length mergeable)) && (nthZ (-1) mergeable idx =? s) then nthZ (-1) mergeable 0 else
  if idx <=? 1 then s else s - (idx - 1).

Definition MergeAcceptStatesWithNoTransition (a : Automaton) : AM Automaton :=
  let numStates := NumStates a in
  mergeable ← go_for (Z.to_nat numStates) 0 (fun i mergeable =>
    if IsAccept a i then
      n ← GetNumTransitions a i;
      mret (if n =? 0 then mergeable ++ [i] else mergeable)
    else mret mergeable) [];
  if Z.of_nat (length mergeable) <=? 1 then mret a else
  result ← go_for (Z.to_nat numStates) 0 (fun s result =>
    let newS := remap mergeable s in
    result ← go_while (Z.to_nat (newS + 1)) (fun r => NumStates r <=? newS) (fun r => '(_, r) ← CreateState r; mret r) result;
    if IsAccept a s then SetAccept newS true result else mret result) NewAutomaton;
  result ← go_for (Z.to_nat numStates) 0 (fun s result =>
    let rs := remap mergeable s in
    each_transition a s (fun t result => AddTransition rs (remap mergeable (Dest t)) (Min t) (Max t) result) result) result;
  FinishState result.

Definition Union (l : list Automaton) : AM Automaton :=
  '(_, result) ← CreateState NewAutomaton;
  result ← foldM (fun a result => Copy a result) l result;
  '(result, _) ← foldM (fun a '(result, stateOffset) =>
    if NumStates a =? 0 then mret (result, stateOffset) else
    result ← AddEpsilon 0 stateOffset result;
    mret (result, stateOffset + NumStates a)) l (result, 1);
  result ← FinishState result;
  result ← RemoveDeadStates result;
  MergeAcceptStatesWithNoTransition result.

(** * Option *)

(** The loops end at the first transition into state 0; the rest of them does nothing. *)
Definition hasIncomingToInitial (a : Automaton) : AM bool :=
  go_for (Z.to_nat (NumStates a)) 0 (fun state found =>
    if (found : bool) then mret found else
    each_transition a state (fun t found => if (found : bool) then mret found else mret (Dest t =? 0)) found) false.

Definition Optional (a : Automaton) : AM Automaton :=
  if IsAccept a 0 then mret a else
  incoming ← hasIncomingToInitial a;
  if negb incoming then
    result ← Copy a NewAutomaton;
    result ← (if NumStates result =? 0 then '(_, result) ← CreateState result; mret result else mret result);
    SetAccept 0 true result
  else
    '(_, result) ← CreateState NewAutomaton;
    result ← SetAccept 0 true result;
    result ← (if 0 <? NumStates a then result ← Copy a result; AddEpsilon 0 1 result else mret result);
    FinishState result.

(** * Concatenation *)

(** The transitions out of the accept state [from] of the automaton before [rest]: those
    of the initial states of the automata that follow, as far as they accept the empty
    word.  [offset] is where the first of [rest] begins. *)
Fixpoint follow (from offset : Z) (rest : list Automaton) (result : Automaton) : AM Automaton :=
  match rest with
  | [] => SetAccept from true result
  | a :: rest =>
      result ← each_transition a 0 (fun t result => AddTransition from (offset + Dest t) (Min t) (Max t) result) result;
      if IsAccept a 0 then follow from (offset + NumStates a) rest result else mret result
  end.

Fixpoint concat_from (stateOffset : Z) (l : list Automaton) (result : Automaton) : AM Automaton :=
  match l with
  | [] => mret result
  | a :: rest =>
      result ← go_for (Z.to_nat (NumStates a)) 0 (fun s result =>
        result ← each_transition a s (fun t result =>
          AddTransition (stateOffset + s) (stateOffset + Dest t) (Min t) (Max t) result) result;
        if IsAccept a s then follow (stateOffset + s) (stateOffset + NumStates a) rest result else mret result) result;
      concat_from (stateOffset + NumStates a) rest result
  end.

(** The states of all the automata; [None] is the early return on one without states. *)
Fixpoint create_all (l : list Automaton) (result : Automaton) : AM (option Automaton) :=
  match l with
  | [] => mret (Some result)
  | a :: l =>
      if NumStates a =? 0 then mret None else
      result ← go_for (Z.to_nat (NumStates a)) 0 (fun _ result => '(_, result) ← CreateState result; mret result) result;
      create_all l result
  end.

Definition Concatenate (l : list Automaton) : AM Automaton :=
  r ← create_all l NewAutomaton;
  match r with
  | None => FinishState NewAutomaton
  | Some result =>
      result ← concat_from 0 l result;
      result ← (if NumStates result =? 0 then '(_, result) ← CreateState result; mret result else mret result);
      result ← FinishState result;
      RemoveDeadStates result
  end.

(** * Repetition *)

Definition Repeat (a : Automaton) : AM Automaton :=
  if NumStates a =? 0 then mret a else
  if IsAccept a 0 && (AcceptCardinality a =? 1) then mret a else
  let '(_, b) := BuilderCreateState NewBuilder in
  b ← BuilderSetAccept 0 true b;
  '(b, stateMap) ← go_for (Z.to_nat (NumStates a)) 0 (fun s '(b, stateMap) =>
    if negb (IsAccept a s) then
      let '(ns, b) := BuilderCreateState b in
      stateMap ← aset stateMap s ns; mret (b, stateMap)
    else
      n ← GetNumTransitions a s;
      if n =? 0 then stateMap ← aset stateMap s 0; mret (b, stateMap)
      else
        let '(ns, b) := BuilderCreateState b in
        stateMap ← aset stateMap s ns;
        b ← BuilderSetAccept ns true b;
        mret (b, stateMap)) (b, repeat 0 (Z.to_nat (NumStates a)));
  b ← go_for (Z.to_nat (NumStates a)) 0 (fun s b =>
    src ← aget stateMap s;
    each_transition a s (fun t b => d ← aget stateMap (Dest t); mret (BuilderAddTransition src d (Min t) (Max t) b)) b) b;
  b ← each_transition a 0 (fun t b => d ← aget stateMap (Dest t); mret (BuilderAddTransition 0 d (Min t) (Max t) b)) b;
  b ← go_for (Z.to_nat (NumStates a)) 0 (fun s b =>
    x ← aget stateMap s;
    if IsAccept a s && negb (x =? 0) then
      each_transition a 0 (fun t b => d ← aget stateMap (Dest t); mret (BuilderAddTransition x d (Min t) (Max t) b)) b
    else mret b) b;
  r ← Finish b;
  RemoveDeadStates r.

(** [make] panics on a negative capacity. *)
Definition RepeatN (a : Automaton) (n : Z) : AM Automaton :=
  if n =? 0 then Repeat a else
  if n + 1 <? 0 then Panic else
  r ← Repeat a;
  Concatenate (repeat a (Z.to_nat n) ++ [r]).

Definition acceptSet (a : Automaton) (offset : Z) : list Z :=
  fold_left (fun out s => if IsAccept a s then out ++ [offset + s] else out) (seqZ 0 (NumStates a)) [].

Definition MakeEmptyString : AM Automaton :=
  '(_, a) ← CreateState NewAutomaton;
  SetAccept 0 true a.

Definition RepeatRange (a : Automaton) (min max : Z) : AM Automaton :=
  if max <? min then FinishState NewAutomaton else
  head ← (if min =? 0 then MakeEmptyString
          else if min =? 1 then Copy a NewAutomaton
          else if min <? 0 then Panic
          else Concatenate (repeat a (Z.to_nat min)));
  b ← BuilderCopy head NewBuilder;
  '(b, _) ← go_for (Z.to_nat (max - min)) min (fun _ '(b, prevAccept) =>
    let numStates := GetNumStates b in
    b ← BuilderCopy a b;
    b ← foldM (fun s b => BuilderAddEpsilon s numStates b) prevAccept b;
    mret (b, acceptSet a numStates)) (b, acceptSet head 0);
  r ← Finish b;
  RemoveDeadStates r.

(** * Reversal *)

Definition Reverse (a : Automaton) : AM Automaton :=
  empty ← IsEmpty a;
  if (empty : bool) then mret NewAutomaton else
  let '(_, b) := BuilderCreateState NewBuilder in
  b ← go_for (Z.to_nat (NumStates a)) 0 (fun _ b => let '(_, b) := BuilderCreateState b in mret b) b;
  b ← BuilderSetAccept 1 true b;
  b ← go_for (Z.to_nat (NumStates a)) 0 (fun s b =>
    each_transition a s (fun t b => mret (BuilderAddTransition (Dest t + 1) (s + 1) (Min t) (Max t) b)) b) b;
  result ← Finish b;
  result ← go_for (Z.to_nat (NumStates a)) 0 (fun s result =>
    if IsAccept a s then AddEpsilon 0 (s + 1) result else mret result) result;
  result ← FinishState result;
  RemoveDeadStates result.

Example regular_run :
  (x ← run_build [BCreateState; BCreateState; BSetAccept 1 true; BAddTransition 0 1 97 97; BFinishState] NewAutomaton;
   y ← run_build [BCreateState; BCreateState; BSetAccept 1 true; BAddTransition 0 1 98 98; BAddTransition 1 0 99 99; BFinishState] NewAutomaton;
   u ← Union [x; y]; o ← Optional y; xy ← Concatenate [x; o; y]; s ← Repeat y; r ← RepeatRange x 2 4; n ← RepeatN x 3; v ← Reverse xy;
   mret ([NumStates u; NumStates o; NumStates xy; NumStates s; NumStates r; NumStates n; NumStates v],
         (delta u 0, delta xy 0, delta s 0, AcceptCardinality r)))
  = Ret ([4; 3; 6; 3; 5; 5; 7],
         ([(1, 97, 97); (3, 98, 98)] : list tr, [(1, 97, 97)] : list tr, [(2, 98, 98)] : list tr, 3)).
Proof. vm_compute. reflexivity. Qed.

(** * Copies inside an automaton *)

(** The states of [a] are those of [R] from [off] on, with the same transitions and the
    same accept states. *)
Record embeds (R : Automaton) (off : Z) (a : Automaton) : Prop := {
  em_edge : ∀ s c d', 0 ≤ s < NumStates a → edge R (off + s) c d' ↔ ∃ d, d' = off + d ∧ edge a s c d;
  em_accept : ∀ s, 0 ≤ s < NumStates a → IsAccept R (off + s) = IsAccept a s
}.

Lemma embeds_language R off a w s :
  wf a → embeds R off a → 0 ≤ s < NumStates a →
  accepts_from (edge R) (final R) (off + s) w ↔ accepts_from (edge a) (final a) s w.
Proof.
  intros W [HE HA] Hs. apply (accepts_rename (fun s => 0 ≤ s < NumStates a) (fun s => off + s)); [done| | |done].
  - intros x c d Hx Hd. by apply edge_dest in Hd as (_ & ? & _); [|done|lia].
  - intros x Hx. unfold final. by rewrite HA.
Qed.

Lemma copies_edge a other a' : copies a other a' → wf a → wf other → ∀ s c d, 0 ≤ s →
  edge a' s c d ↔ s < NumStates a ∧ edge a s c d ∨ NumStates a ≤ s ∧ edge other (s - NumStates a) c (d - NumStates a).
Proof.
  intros H W WO s c d Hs. pose proof (co_NumStates _ _ _ H) as HN. destruct (Z.lt_ge_cases s (NumStates a)) as [Hlt|Hge].
  - unfold edge. destruct (co_before _ _ _ H s ltac:(lia)) as [-> _]. split; [auto|]. by intros [[_ ?]|[? _]]; [|lia].
  - destruct (Z.lt_ge_cases s (NumStates a')) as [Hlt'|Hge'].
    + unfold edge. destruct (co_after _ _ _ H (s - NumStates a) ltac:(lia)) as [HD _].
      replace (NumStates a + (s - NumStates a)) with s in HD by lia. rewrite HD, leads_shift. split; [auto|].
      by intros [[? _]|[_ ?]]; [lia|].
    + split; [intros He; apply edge_dest in He as (? & _); [lia|apply H|lia]|].
      intros [[? _]|[_ He]]; [lia|]. apply edge_dest in He as (? & _); [lia|done|lia].
Qed.

Lemma copies_embeds a other a' : copies a other a' → wf a → wf other → embeds a' (NumStates a) other.
Proof.
  intros H W WO. pose proof (NumStates_pos _ W). split.
  - intros s c d' Hs. rewrite (copies_edge a other) by (done || lia). split.
    + intros [[? _]|[_ He]]; [lia|]. replace (NumStates a + s - NumStates a) with s in He by lia.
      exists (d' - NumStates a). split; [lia|done].
    + intros (d & -> & He). right. split; [lia|]. by replace (NumStates a + s - NumStates a) with s by lia;
        replace (NumStates a + d - NumStates a) with d by lia.
  - intros s Hs. rewrite (co_IsAccept _ _ _ H), (proj2 (Z.ltb_ge _ _)) by lia. f_equal. lia.
Qed.

Lemma copies_keeps R off b other a' :
  copies R other a' → wf R → wf other → 0 ≤ off → embeds R off b → off + NumStates b ≤ NumStates R → embeds a' off b.
Proof.
  intros H W WO Hoff [HE HA] Hle. split.
  - intros s c d' Hs. rewrite (copies_edge R other) by (done || lia). rewrite <- HE by done. split; [|intros ?; left; split; [lia|done]].
    by intros [[_ ?]|[? _]]; [|lia].
  - intros s Hs. rewrite (co_IsAccept _ _ _ H), (proj2 (Z.ltb_lt _ _)) by lia. by apply HA.
Qed.

Lemma wf_current_below a : wf a → curState a < NumStates a ∨ NumStates a = 0.
Proof. intros W. pose proof (NumStates_pos _ W). destruct (wf_cur _ W) as [?|[? _]]; lia. Qed.

(** ** Several copies in a row *)

Fixpoint total (l : list Automaton) : Z := match l with [] => 0 | a :: l => NumStates a + total l end.

Fixpoint blocks (R : Automaton) (off : Z) (l : list Automaton) : Prop :=
  match l with [] => True | a :: l => embeds R off a ∧ blocks R (off + NumStates a) l end.

(** Where the initial states are. *)
Fixpoint inits (off : Z) (l : list Automaton) : list Z :=
  match l with
  | [] => []
  | a :: l => (if NumStates a =? 0 then [] else [off]) ++ inits (off + NumStates a) l
  end.

Lemma total_pos l : Forall good l → 0 ≤ total l.
Proof. induction 1 as [|a l G _ IH]; cbn; [done|]. pose proof (NumStates_pos _ (good_wf _ G)). lia. Qed.

Lemma embeds_same R R' off a :
  embeds R off a → (∀ s, off ≤ s < off + NumStates a → IsAccept R' s = IsAccept R s ∧ ∀ c d, edge R' s c d ↔ edge R s c d) →
  embeds R' off a.
Proof.
  intros [HE HA] H. split.
  - intros s c d' Hs. destruct (H (off + s) ltac:(lia)) as [_ He]. rewrite He. by apply HE.
  - intros s Hs. destruct (H (off + s) ltac:(lia)) as [-> _]. by apply HA.
Qed.

Lemma blocks_same R R' l : ∀ off,
  Forall good l → blocks R off l →
  (∀ s, off ≤ s < off + total l → IsAccept R' s = IsAccept R s ∧ ∀ c d, edge R' s c d ↔ edge R s c d) → blocks R' off l.
Proof.
  induction l as [|a l IH]; intros off HG HB H; cbn [blocks total] in *; [done|]. apply Forall_cons in HG as [G HG].
  pose proof (NumStates_pos _ (good_wf _ G)). pose proof (total_pos l HG). destruct HB as [HB1 HB2]. split.
  - apply (embeds_same R); [done|]. intros s Hs. apply H. lia.
  - apply IH; [done|done|]. intros s Hs. apply H. lia.
Qed.

Lemma elem_of_inits l : ∀ off o, Forall good l → o ∈ inits off l → off ≤ o < off + total l.
Proof.
  induction l as [|a l IH]; intros off o HG; cbn [inits total]; [by intros ?%elem_of_nil|]. apply Forall_cons in HG as [G HG].
  pose proof (NumStates_pos _ (good_wf _ G)). pose proof (total_pos l HG). intros [Ho|Ho]%elem_of_app; [|specialize (IH _ _ HG Ho); lia].
  destruct (Z.eqb_spec (NumStates a) 0); [by apply elem_of_nil in Ho|]. apply list_elem_of_singleton in Ho. lia.
Qed.

(** The words from the initial states of the copies. *)
Lemma inits_language R l w : ∀ off,
  Forall good l → blocks R off l →
  (∃ o, o ∈ inits off l ∧ accepts_from (edge R) (final R) o w) ↔ ∃ a, a ∈ l ∧ language a w.
Proof.
  induction l as [|a l IH]; intros off HG HB; cbn [inits blocks] in *.
  - split; [by intros (? & ?%elem_of_nil & _)|by intros (? & ?%elem_of_nil & _)].
  - apply Forall_cons in HG as [G HG]. destruct HB as [HB1 HB2]. specialize (IH _ HG HB2). setoid_rewrite elem_of_app.
    setoid_rewrite elem_of_cons. pose proof (NumStates_pos _ (good_wf _ G)).
    assert (H0 : (∃ o, o ∈ (if NumStates a =? 0 then [] else [off]) ∧ accepts_from (edge R) (final R) o w) ↔ language a w).
    { destruct (Z.eqb_spec (NumStates a) 0) as [E|E].
      - split; [by intros (? & ?%elem_of_nil & _)|]. intros Hw. by apply language_no_states in Hw; [|apply G|].
      - setoid_rewrite list_elem_of_singleton. unfold language, accepts.
        rewrite <- (embeds_language R off a w 0) by (apply G || done || lia). rewrite Z.add_0_r.
        split; [by intros (? & -> & ?)|]. intros Hw. by exists off. }
    split.
    + intros (o & [Ho|Ho] & Hw); [exists a; split; [by left|]; apply H0; eauto|].
      destruct (proj1 IH) as (a' & ? & ?); [eauto|]. exists a'. auto.
    + intros (a' & [->|Ha'] & Hw); [apply H0 in Hw as (o & ? & ?); eauto|].
      destruct (proj2 IH) as (o & ? & ?); [eauto|]. eauto.
Qed.

(** All the copies. *)
Lemma copy_all l : ∀ R,
  good R → Forall good l →
  runs (foldM (fun a result => Copy a result) l R) (fun R' =>
    good R' ∧ NumStates R' = NumStates R + total l ∧ blocks R' (NumStates R) l ∧
    (∀ s, 0 ≤ s < NumStates R → delta R' s = delta R s ∧ (started R' s ↔ started R s) ∧ IsAccept R' s = IsAccept R s)).
Proof.
  induction l as [|a l IH]; intros R GR HG; cbn [foldM total blocks].
  - cbn. split_and!; [done|lia|done|done].
  - apply Forall_cons in HG as [G HG]. pose proof (NumStates_pos _ (good_wf _ GR)) as HN0.
    pose proof (NumStates_pos _ (good_wf _ G)) as HN1. pose proof (total_pos l HG).
    eapply runs_step; [apply Copy_spec; [apply GR|apply G|apply GR|apply G]|]. intros R1 HC.
    assert (G1 : good R1) by (split; apply HC). pose proof (co_NumStates _ _ _ HC) as HN.
    eapply runs_mono; [by apply IH|]. intros R' (G' & N' & B' & S'). split_and!; [done|lia| |by rewrite <- HN|].
    + apply (embeds_same R1); [apply (copies_embeds R a R1 HC); [apply GR|apply G]|].
      intros s Hs. destruct (S' s ltac:(lia)) as (HD & _ & HA). split; [done|]. intros c d. unfold edge. by rewrite HD.
    + intros s Hs. destruct (S' s ltac:(lia)) as (HD & HSt & HA). destruct (co_before _ _ _ HC s Hs) as [HD1 HS1].
      rewrite HD, HD1, HSt, HS1, HA, (co_IsAccept _ _ _ HC), (proj2 (Z.ltb_lt _ _)) by lia. done.
Qed.

(** ** [Union] *)

Lemma epsilon_all l : ∀ R off,
  wf R → Forall good l → 1 ≤ off → off + total l ≤ NumStates R →
  (curState R = -1 ∨ curState R = 0) → (curState R = 0 ∨ ¬ started R 0) →
  runs (foldM (fun a '(result, stateOffset) =>
      if NumStates a =? 0 then mret (result, stateOffset) else
      result ← AddEpsilon 0 stateOffset result;
      mret (result, stateOffset + NumStates a)) l (R, off)) (fun '(R', _) =>
    wf R' ∧ NumStates R' = NumStates R ∧
    (∀ s, 1 ≤ s → IsAccept R' s = IsAccept R s ∧ ∀ c d, edge R' s c d ↔ edge R s c d) ∧
    (∀ c d, edge R' 0 c d ↔ edge R 0 c d ∨ ∃ o, o ∈ inits off l ∧ edge R o c d) ∧
    (IsAccept R' 0 = IsAccept R 0 || existsb (IsAccept R) (inits off l))).
Proof.
  induction l as [|a l IH]; intros R off W HG Hoff Hle Hc Hst; cbn [foldM total inits] in *.
  - cbn. split_and!; try done; [|by rewrite orb_false_r]. intros c d. split; [by left|]. by intros [?|(? & ?%elem_of_nil & _)].
  - apply Forall_cons in HG as [G HG]. pose proof (NumStates_pos _ (good_wf _ G)) as HN1. pose proof (total_pos l HG).
    destruct (Z.eqb_spec (NumStates a) 0) as [E|E].
    + rewrite go_bind_mret, E, Z.add_0_r. cbn [app]. apply IH; try done. lia.
    + rewrite go_bind_assoc. eapply runs_step; [apply AddEpsilon_spec; (done || lia)|]. intros R1 H1. rewrite go_bind_mret.
      pose proof (ae_NumStates _ _ _ _ H1) as N1.
      eapply runs_mono; [apply IH; [apply H1|done|lia|lia| |]|].
      -- destruct (ae_curState _ _ _ _ H1) as [->| ->]; auto.
      -- destruct (decide (curState R1 = 0)) as [|Hne]; [by left|right]. intros [HS|[_ ?]]%(ae_started _ _ _ _ H1); [|done|done].
           destruct Hst as [Hst|Hst]; [|done]. destruct (ae_curState _ _ _ _ H1) as [E1|E1]; congruence.
      -- intros [R' x] (W' & N' & HS' & HE' & HA'). split_and!; [done|lia| | |].
           ++ intros s Hs. destruct (HS' s Hs) as [-> He]. rewrite (ae_IsAccept _ _ _ _ H1), bool_decide_eq_false_2 by lia. cbn [andb].
              rewrite orb_false_r. split; [done|]. intros c d. rewrite He, (ae_edge _ _ _ _ H1) by lia. split; [|by left].
              intros [?|[? _]]; [done|lia].
           ++ intros c d. rewrite HE', (ae_edge _ _ _ _ H1) by done. setoid_rewrite elem_of_app. setoid_rewrite list_elem_of_singleton. split.
              ** intros [[?|[_ ?]]|(o & Ho & He)]; [by left|right; exists off; auto|right]. exists o. split; [by right|].
                 apply (ae_edge _ _ _ _ H1) in He as [?|[-> _]]; [done|apply elem_of_inits in Ho; [lia|done]|apply elem_of_inits in Ho; [lia|done]].
              ** intros [?|(o & [->|Ho] & He)]; [auto|auto|]. right. exists o. split; [done|]. apply (ae_edge _ _ _ _ H1); [|by left].
                 apply elem_of_inits in Ho; [lia|done].
           ++ rewrite HA', (ae_IsAccept _ _ _ _ H1). rewrite bool_decide_eq_true_2 by done. cbn [andb app existsb].
              rewrite <- orb_assoc. do 2 f_equal.
              enough (∀ k, (∀ o, o ∈ k → 1 ≤ o) → existsb (IsAccept R1) k = existsb (IsAccept R) k) as Hk.
              { apply Hk. intros o Ho. apply elem_of_inits in Ho; [lia|done]. }
              intros k. induction k as [|o k IHk]; intros Hk; cbn [existsb]; [done|]. rewrite IHk by (intros; apply Hk; by right).
              rewrite (ae_IsAccept _ _ _ _ H1), bool_decide_eq_false_2 by (specialize (Hk o ltac:(left)); lia). cbn [andb]. by rewrite orb_false_r.
Qed.

(** Before the states are merged. *)
Lemma Union_before l :
  Forall good l →
  runs ('(_, result) ← CreateState NewAutomaton;
        result ← foldM (fun a result => Copy a result) l result;
        '(result, _) ← foldM (fun a '(result, stateOffset) =>
          if NumStates a =? 0 then mret (result, stateOffset) else
          result ← AddEpsilon 0 stateOffset result;
          mret (result, stateOffset + NumStates a)) l (result, 1);
        FinishState result) (fun R => good R ∧ ∀ w, language R w ↔ ∃ a, a ∈ l ∧ language a w).
Proof.
  intros HG. pose proof (total_pos l HG) as HT. eapply runs_step; [apply CreateState_spec, (shows_empty 2 2)|].
  intros [n R0] (W0 & -> & N0 & D0 & A0 & S0 & C0 & _). change (NumStates NewAutomaton) with 0 in *.
  assert (Hd0 : delta NewAutomaton 0 = []) by (apply delta_beyond; [apply (shows_empty 2 2)|done]).
  assert (Ha0 : IsAccept NewAutomaton 0 = false) by reflexivity.
  eapply runs_step; [apply copy_all; [split; [done|by rewrite C0]|done]|]. intros R1 ([W1 C1] & N1 & B1 & S1).
  rewrite N0 in *. destruct (S1 0 ltac:(lia)) as (D10 & St10 & A10).
  eapply runs_step; [apply epsilon_all; [done|done|lia|lia|by left|right; rewrite St10, S0 by done; tauto]|].
  intros [R2 x] (W2 & N2 & S2 & E2 & A2).
  destruct (FinishState_spec R2 W2) as (R3 & -> & W3 & C3 & N3 & A3 & E3 & _). cbn. split; [by split|]. intros w.
  assert (B3 : blocks R3 1 l).
  { apply (blocks_same R1); [done|done|]. intros s Hs. destruct (S2 s ltac:(lia)) as [HA HE]. rewrite A3, HA. split; [done|].
    intros c d. rewrite E3 by lia. apply HE. }
  rewrite <- (inits_language R3 l w 1 HG B3). unfold language, accepts.
  assert (Hsame : ∀ o, o ∈ inits 1 l → IsAccept R1 o = IsAccept R3 o ∧ ∀ c d, edge R1 o c d ↔ edge R3 o c d).
  { intros o Ho%elem_of_inits; [|done]. destruct (S2 o ltac:(lia)) as [HA HE]. split; [by rewrite A3, HA|].
    intros c d. rewrite E3 by lia. symmetry. apply HE. }
  destruct w as [|c w].
  - rewrite accepts_nil. unfold final at 1. rewrite A3, A2, A10, A0, Ha0. cbn [orb]. rewrite existsb_exists.
    setoid_rewrite accepts_nil. unfold final. split.
    + intros (o & Ho%list_elem_of_In & Hacc). exists o. split; [done|]. destruct (Hsame o Ho) as [<- _]. done.
    + intros (o & Ho & Hacc). exists o. destruct (Hsame o Ho) as [-> _]. by rewrite <- list_elem_of_In.
  - setoid_rewrite accepts_cons. split.
    + intros (d & He & Hw). apply E3 in He; [|done]. apply E2 in He as [He|(o & Ho & He)].
      * unfold edge in He. rewrite D10, D0, Hd0 in He by done. by destruct He as (t & ?%elem_of_nil & _).
      * exists o. split; [done|]. exists d. split; [|done]. by apply Hsame.
    + intros (o & Ho & d & He & Hw). exists d. split; [|done]. apply E3; [done|]. apply E2. right. exists o. split; [done|].
      by apply Hsame.
Qed.

(** ** Merging accept states *)

Section Merge.
Context (a : Automaton) (G : good a).

Let W : wf a := good_wf a G.
Let n := NumStates a.

Definition dead_end (s : Z) : Prop := IsAccept a s = true ∧ delta a s = [].

#[local] Instance dead_end_dec s : Decision (dead_end s).
Proof. unfold dead_end. apply _. Qed.

(** The dead ends below [x]. *)
Definition ends_below (x : Z) : list Z := filter dead_end (seqZ 0 x).

Lemma seqZ_1 x : seqZ x 1 = [x].
Proof. rewrite seqZ_cons by lia. done. Qed.

Lemma ends_below_snoc x : 0 ≤ x → ends_below (x + 1) = ends_below x ++ if decide (dead_end x) then [x] else [].
Proof.
  intros Hx. unfold ends_below. rewrite seqZ_app, filter_app by lia. done.
Qed.

Lemma mergeable_spec :
  go_for (Z.to_nat n) 0 (fun i mergeable =>
    if IsAccept a i then
      k ← GetNumTransitions a i; mret (if k =? 0 then mergeable ++ [i] else mergeable)
    else mret mergeable) [] = @Ret autoerr _ (ends_below n).
Proof.
  pose proof (NumStates_pos _ W) as HN.
  destruct (go_for_inv (E := autoerr) (fun i l => l = ends_below i) (Z.to_nat n) 0 (fun i mergeable =>
    if IsAccept a i then
      k ← GetNumTransitions a i; mret (if k =? 0 then mergeable ++ [i] else mergeable)
    else mret mergeable) []) as (l & -> & ->).
  - done.
  - intros i l Hi ->. rewrite ends_below_snoc by lia. destruct (IsAccept a i) eqn:Ea.
    + rewrite GetNumTransitions_spec, go_bind_ret by (done || lia). eexists. split; [done|].
      destruct (delta a i) as [|t k] eqn:Ed; cbn [length].
      * by rewrite decide_True by done.
      * rewrite decide_False, app_nil_r by (intros [_ E]; congruence). done.
    + eexists. split; [done|]. rewrite decide_False, app_nil_r by (intros [E _]; congruence). done.
  - rewrite Z.add_0_l, Z2Nat.id; done.
Qed.

Definition below_count (x : Z) : Z := Z.of_nat (length (ends_below x)).

(** The new number of the state [x], if it is kept. *)
Definition rank (x : Z) : Z := x - below_count x + (if 1 <=? below_count x then 1 else 0).

Lemma below_count_step x : 0 ≤ x → below_count (x + 1) = below_count x + if decide (dead_end x) then 1 else 0.
Proof. intros Hx. unfold below_count. rewrite ends_below_snoc, length_app by done. case_decide; cbn; lia. Qed.

Lemma below_count_pos x : 0 ≤ below_count x.
Proof. unfold below_count. lia. Qed.

Lemma rank_step x : 0 ≤ x → rank (x + 1) = rank x + if decide (dead_end x) then (if below_count x =? 0 then 1 else 0) else 1.
Proof.
  intros Hx. unfold rank. rewrite below_count_step by done. pose proof (below_count_pos x).
  case_decide; destruct (Z.eqb_spec (below_count x) 0), (Z.leb_spec 1 (below_count x)), (Z.leb_spec 1 (below_count x + 1)) as [|];
    try lia; rewrite ?Z.add_0_r; try (rewrite (proj2 (Z.leb_le _ _)) by lia); try (rewrite (proj2 (Z.leb_gt _ _)) by lia); lia.
Qed.

Lemma rank_mono x y : 0 ≤ x ≤ y → rank x ≤ rank y.
Proof.
  intros Hxy. replace y with (x + Z.of_nat (Z.to_nat (y - x))) by lia. induction (Z.to_nat (y - x)) as [|m IH]; [rewrite Z.add_0_r; lia|].
  replace (x + Z.of_nat (S m)) with (x + Z.of_nat m + 1) by lia. rewrite rank_step by lia. case_decide; [case_match|]; lia.
Qed.

Lemma ends_split s : 0 ≤ s < n →
  ends_below n = ends_below s ++ (if decide (dead_end s) then [s] else []) ++ filter dead_end (seqZ (s + 1) (n - s - 1)).
Proof.
  intros Hs. unfold ends_below. replace n with (s + (1 + (n - s - 1))) at 1 by lia.
  rewrite !seqZ_app by lia. rewrite !filter_app. replace (0 + s) with s by lia.
  by rewrite seqZ_1, filter_cons, filter_nil.
Qed.

Lemma SearchInts_ends s : 0 ≤ s < n → SearchInts (ends_below n) s = below_count s.
Proof.
  intros Hs. unfold SearchInts, below_count. rewrite (ends_split s Hs), !filter_app, !length_app.
  assert (H1 : filter (fun y => y < s) (ends_below s) = ends_below s).
  { unfold ends_below. generalize (seqZ 0 s) (fun x => proj1 (elem_of_seqZ 0 s x)). intros l Hl.
    induction l as [|x l IH]; [done|]. specialize (Hl x ltac:(left)) as Hx.
    rewrite filter_cons. case_decide; [|apply IH; intros y Hy; apply Hl; by right].
    rewrite filter_cons_True by lia. f_equal. apply IH. intros y Hy. apply Hl. by right. }
  assert (H2 : filter (fun y => y < s) (if decide (dead_end s) then [s] else []) = []).
  { case_decide; [|done]. by rewrite filter_cons_False by lia. }
  assert (H3 : filter (fun y => y < s) (filter dead_end (seqZ (s + 1) (n - s - 1))) = []).
  { assert (Hall : ∀ y, y ∈ filter dead_end (seqZ (s + 1) (n - s - 1)) → ¬ y < s).
    { intros y [_ Hy%elem_of_seqZ]%list_elem_of_filter. lia. }
    revert Hall. generalize (filter dead_end (seqZ (s + 1) (n - s - 1))). intros l Hall.
    induction l as [|x l IH]; [done|]. rewrite filter_cons_False by (apply Hall; left). apply IH. intros y Hy. apply Hall. by right. }
  rewrite H1, H2, H3. cbn. lia.
Qed.

Lemma remap_dead_end s : 0 ≤ s < n → dead_end s → remap (ends_below n) s = nthZ (-1) (ends_below n) 0.
Proof.
  intros Hs Hd. unfold remap. rewrite SearchInts_ends by done.
  assert (E : nthZ (-1) (ends_below n) (below_count s) = s).
  { rewrite (ends_split s Hs), decide_True by done. unfold nthZ, below_count. cbn [app]. by rewrite Nat2Z.id, list_lookup_middle. }
  rewrite E, Z.eqb_refl, andb_true_r, (proj2 (Z.ltb_lt _ _)); [done|].
  unfold below_count. rewrite (ends_split s Hs), decide_True, length_app by done. cbn. lia.
Qed.

Lemma remap_other s : 0 ≤ s < n → ¬ dead_end s → remap (ends_below n) s = rank s.
Proof.
  intros Hs Hd. unfold remap. rewrite SearchInts_ends by done. pose proof (below_count_pos s) as Hp.
  assert (E : (below_count s <? Z.of_nat (length (ends_below n))) && (nthZ (-1) (ends_below n) (below_count s) =? s) = false).
  { apply andb_false_iff. destruct (Z.ltb_spec (below_count s) (Z.of_nat (length (ends_below n)))) as [Hlt|]; [right|by left].
    apply Z.eqb_neq. intros E. apply Hd. pose proof (nthZ_lookup (-1) (ends_below n) (below_count s) ltac:(lia)) as Hl.
    rewrite E in Hl. by apply list_elem_of_lookup_2, list_elem_of_filter in Hl as [? _]. }
  rewrite E. unfold rank. destruct (Z.leb_spec (below_count s) 1), (Z.leb_spec 1 (below_count s)); lia.
Qed.

Context (Hmany : 1 < Z.of_nat (length (ends_below n))).

Let f := remap (ends_below n).
Let first := nthZ (-1) (ends_below n) 0.

Lemma first_spec : 0 ≤ first < n ∧ dead_end first ∧ below_count first = 0 ∧ (∀ s, 0 ≤ s < n → dead_end s → first ≤ s).
Proof.
  pose proof (nthZ_lookup (-1) (ends_below n) 0 ltac:(lia)) as Hl. fold first in Hl.
  pose proof (list_elem_of_lookup_2 _ _ _ Hl) as [Hd Hr%elem_of_seqZ]%list_elem_of_filter.
  assert (Hr' : 0 ≤ first < n) by lia.
  assert (Hmin : ends_below first = []).
  { rewrite (ends_split first Hr') in Hl. destruct (ends_below first) as [|x l] eqn:E; [done|]. cbn in Hl. injection Hl as <-.
    assert (Hx : x ∈ ends_below x) by (rewrite E; left). apply list_elem_of_filter in Hx as [_ Hx%elem_of_seqZ]. lia. }
  split_and!; try lia; [done|unfold below_count; by rewrite Hmin|].
  intros s Hs Hds. destruct (Z.lt_ge_cases s first) as [Hlt|]; [|lia]. exfalso.
  assert (Hin : s ∈ ends_below first) by (apply list_elem_of_filter; split; [done|apply elem_of_seqZ; lia]).
  rewrite Hmin in Hin. by apply elem_of_nil in Hin.
Qed.

Lemma rank_first : rank first = first.
Proof. destruct first_spec as (_ & _ & E & _). unfold rank. rewrite E. cbn. lia. Qed.

Lemma f_dead_end s : 0 ≤ s < n → dead_end s → f s = rank first.
Proof. intros Hs Hd. rewrite rank_first. by apply remap_dead_end. Qed.

(** A state that is kept. *)
Definition kept (s : Z) : Prop := dead_end s → s = first.

Lemma f_kept s : 0 ≤ s < n → kept s → f s = rank s.
Proof.
  intros Hs Hk. destruct (decide (dead_end s)) as [Hd|Hd]; [|by apply remap_other]. rewrite (Hk Hd) at 2. by apply f_dead_end.
Qed.

Lemma rank_kept_lt s t : 0 ≤ s < n → kept s → s < t → rank s < rank t.
Proof.
  intros Hs Hk Hlt. enough (rank s < rank (s + 1)) by (pose proof (rank_mono (s + 1) t ltac:(lia)); lia).
  rewrite rank_step by lia. case_decide as Hd; [|lia]. rewrite (Hk Hd). destruct first_spec as (_ & _ & -> & _). cbn. lia.
Qed.

Lemma f_eq s t : 0 ≤ s < n → 0 ≤ t < n → f s = f t → s = t ∨ dead_end s ∧ dead_end t.
Proof.
  intros Hs Ht E.
  assert (Hrep : ∀ x, 0 ≤ x < n → ∃ y, 0 ≤ y < n ∧ kept y ∧ f x = rank y ∧ (y = x ∨ dead_end x ∧ y = first)).
  { intros x Hx. destruct (decide (dead_end x)) as [Hd|Hd].
    - exists first. split; [apply first_spec|]. split; [by intros _|]. split; [by apply f_dead_end|by right].
    - exists x. split_and!; try lia; [by intros ?%Hd|by apply remap_other]. }
  destruct (Hrep s Hs) as (y & Hy & Hky & Ey & Hys), (Hrep t Ht) as (z & Hz & Hkz & Ez & Hzt).
  assert (y = z) as ->.
  { destruct (Z.lt_trichotomy y z) as [Hlt|[?|Hlt]]; [|done|].
    - pose proof (rank_kept_lt y z Hy Hky Hlt). lia.
    - pose proof (rank_kept_lt z y Hz Hkz Hlt). lia. }
  destruct first_spec as (_ & Hdf & _).
  destruct Hys as [->|[Hds ->]], Hzt as [<-|[Hdt Hf]]; [by left|right|right|by right]; [by rewrite Hf in *|done].
Qed.

Lemma f_range s : 0 ≤ s < n → 0 ≤ f s < rank n.
Proof.
  intros Hs. destruct (decide (dead_end s)) as [Hd|Hd].
  - rewrite f_dead_end by done. destruct first_spec as (Hr & _). split; [rewrite rank_first; lia|].
    apply rank_kept_lt; [done|by intros _|lia].
  - assert (Hk : kept s) by (by intros ?%Hd). rewrite f_kept by done. split; [|apply rank_kept_lt; [done|done|lia]].
    pose proof (rank_mono 0 s ltac:(lia)) as H0. assert (rank 0 = 0) by done. lia.
Qed.

Lemma f_zero : 0 < n → f 0 = 0.
Proof.
  intros Hn. destruct (decide (dead_end 0)) as [Hd|Hd].
  - rewrite f_dead_end, rank_first by (done || lia). destruct first_spec as (? & _ & _ & H). specialize (H 0 ltac:(lia) Hd). lia.
  - rewrite f_kept by (lia || by intros ?%Hd). done.
Qed.

Lemma merge_states :
  runs (go_for (Z.to_nat n) 0 (fun s result =>
      let newS := remap (ends_below n) s in
      result ← go_while (Z.to_nat (newS + 1)) (fun r => NumStates r <=? newS) (fun r => '(_, r) ← CreateState r; mret r) result;
      if IsAccept a s then SetAccept newS true result else mret result) NewAutomaton)
    (fun r => good r ∧ NumStates r = rank n ∧ (∀ s, 0 ≤ s < n → IsAccept r (f s) = IsAccept a s) ∧
      (∀ s, 0 ≤ s → delta r s = []) ∧ (∀ s, 0 ≤ s < NumStates r → ¬ started r s)).
Proof.
  pose proof (NumStates_pos _ W) as HN. destruct (shows_empty 2 2) as [W0 N0 A0 E0 C0 S0 _]. cbn in N0, C0.
  eapply runs_mono; [apply (runs_for_inv (fun i r => good r ∧ NumStates r = rank i ∧ (∀ s, 0 ≤ s < i → IsAccept r (f s) = IsAccept a s) ∧
      (∀ s, 0 ≤ s → delta r s = []) ∧ (∀ s, 0 ≤ s < NumStates r → ¬ started r s)))|].
  - split_and!; [apply New_good|done|intros s Hs; lia| |].
    + intros s Hs. apply delta_beyond; [done|]. change (NumStates NewAutomaton) with 0. done.
    + intros s Hs. change (NumStates NewAutomaton) with 0 in Hs. lia.
  - intros i r Hi ([Wr Cr] & Nr & Ar & Dr & Sr). fold f. cbn zeta. pose proof (f_range i ltac:(lia)) as Hfi.
    assert (Hcreate : runs (go_while (Z.to_nat (f i + 1)) (fun r => NumStates r <=? f i) (fun r => '(_, r) ← CreateState r; mret r) r)
      (fun r' => good r' ∧ NumStates r' = rank (i + 1) ∧ f i < NumStates r' ∧ (∀ s, IsAccept r' s = IsAccept r s) ∧
        (∀ s, 0 ≤ s → delta r' s = []) ∧ (∀ s, 0 ≤ s < NumStates r' → ¬ started r' s))).
    { replace (Z.to_nat (f i + 1)) with (S (Z.to_nat (f i))) by lia. cbn [go_while]. pose proof (rank_step i ltac:(lia)) as Hstep.
      destruct (decide (kept i)) as [Hk|Hk].
      - pose proof (f_kept i ltac:(lia) Hk) as Ef. rewrite (proj2 (Z.leb_le _ _)) by lia.
        assert (rank (i + 1) = rank i + 1) as Hr1.
        { rewrite Hstep. case_decide as Hd; [|done]. rewrite (Hk Hd). destruct first_spec as (_ & _ & -> & _). done. }
        rewrite go_bind_assoc. eapply runs_step; [by apply CreateState_spec|].
        intros [x r1] (W1 & -> & N1 & D1 & A1 & S1 & C1 & _). rewrite go_bind_mret.
        assert (Hdone : go_while (Z.to_nat (f i)) (fun r => NumStates r <=? f i) (fun r => '(_, r) ← CreateState r; mret r) r1 = mret r1).
        { destruct (Z.to_nat (f i)); cbn [go_while]; by rewrite (proj2 (Z.leb_gt _ _)) by lia. }
        rewrite Hdone. cbn. split_and!; [split; congruence || done|lia|lia|done| |].
        + intros s Hs. rewrite D1 by done. by apply Dr.
        + intros s Hs. rewrite S1 by lia. intros [Hst Hne]. apply (Sr s); [lia|done].
      - assert (Hd : dead_end i) by (destruct (decide (dead_end i)) as [|Hn]; [done|]; destruct Hk; by intros ?%Hn).
        assert (Hlt : first < i).
        { destruct first_spec as (_ & _ & _ & Hmin). specialize (Hmin i ltac:(lia) Hd). assert (i ≠ first); [|lia].
          intros E. apply Hk. by intros _. }
        rewrite f_dead_end by (done || lia). pose proof (rank_kept_lt first i ltac:(apply first_spec) ltac:(by intros _) Hlt).
        rewrite (proj2 (Z.leb_gt _ _)) by lia. cbn. split_and!; [by split| |lia|done|done|done].
        rewrite Hstep, decide_True by done. assert (below_count i ≠ 0) as Hb.
        { unfold below_count. intros Eb. assert (Hin : first ∈ ends_below i).
          { apply list_elem_of_filter. split; [apply first_spec|]. apply elem_of_seqZ. destruct first_spec. lia. }
          destruct (ends_below i); [by apply elem_of_nil in Hin|done]. }
        rewrite (proj2 (Z.eqb_neq _ _)) by done. lia. }
    eapply runs_step; [exact Hcreate|]. intros r1 ([W1 C1] & N1 & Hlt & A1 & D1 & S1).
    assert (Hold : ∀ s, 0 ≤ s < i → f s = f i → IsAccept a s = true ∧ IsAccept a i = true).
    { intros s Hs E. apply f_eq in E as [?|[[? _] [? _]]]; [lia|done|lia|lia]. }
    destruct (IsAccept a i) eqn:Ea.
    + destruct (SetAccept_spec (f i) true r1 W1) as (r2 & -> & W2 & SB & A2); [lia|].
      destruct (same_but_accept_view _ _ SB) as (N2 & D2 & P2). cbn. split_and!; [split; [done|]|lia| | |].
      * rewrite (sb_curState _ _ SB). done.
      * intros s Hs. rewrite A2, A1. case_decide as E.
        -- destruct (decide (s = i)) as [->|]; [done|]. by destruct (Hold s ltac:(lia) E) as [-> _].
        -- apply Ar. assert (s ≠ i) by (intros ->; done). lia.
      * intros s Hs. rewrite D2. by apply D1.
      * intros s Hs. unfold started. rewrite P2. apply S1. lia.
    + cbn. split_and!; [by split|done| |done|done]. intros s Hs. rewrite A1. destruct (decide (s = i)) as [->|]; [|apply Ar; lia].
      destruct (IsAccept r (f i)) eqn:Eacc; [|done]. exfalso.
      assert (Hk : kept i) by (intros [? _]; congruence). rewrite f_kept in Eacc by (done || lia).
      apply (wf_accept _ Wr) in Eacc. lia.
  - intros r H. rewrite Z.add_0_l, Z2Nat.id in H by lia. done.
Qed.
End Merge.

Lemma Merge_spec a : good a →
  runs (MergeAcceptStatesWithNoTransition a) (fun a' => good a' ∧ ∀ w, language a' w ↔ language a w).
Proof.
  intros G. pose proof (good_wf _ G) as W. pose proof (NumStates_pos _ W) as HN. unfold MergeAcceptStatesWithNoTransition.
  rewrite (mergeable_spec a G), go_bind_ret. set (n := NumStates a).
  destruct (Z.leb_spec (Z.of_nat (length (ends_below a n))) 1) as [H1|H1]; [by cbn|].
  assert (Hn : 0 < n).
  { destruct (decide (n = 0)) as [E|]; [|lia]. rewrite E in H1. by vm_compute in H1. }
  eapply runs_step; [by apply merge_states|]. intros r ([Wr Cr] & Nr & Ar & Dr & Sr).
  fold n in Nr, Ar. set (f := remap (ends_below a n)) in *. set (ts := fun s => map (fun t => (f (dest_ t), min_ t, max_ t)) (delta a s)).
  assert (Hts : ∀ i c d', leads (ts i) c d' ↔ ∃ d, d' = f d ∧ edge a i c d).
  { intros i c d'. unfold ts, leads, edge, covers. split.
    - intros (t & (u & -> & Hu)%list_elem_of_fmap & <- & Hc). exists (dest_ u). split; [done|]. by exists u.
    - intros (d & -> & u & Hu & <- & Hc). exists (f (dest_ u), min_ u, max_ u). split; [|done].
      by apply list_elem_of_fmap_2 with (f := fun t => (f (dest_ t), min_ t, max_ t)). }
  assert (Hdead : ∀ i, dead_end a i → ts i = []) by (intros i [_ E]; unfold ts; by rewrite E).
  eapply runs_step.
  { apply (add_rows_for (Z.to_nat n) _ f ts r Wr); rewrite Z2Nat.id by lia.
    - intros i r' Hi _. unfold add_row, ts. cbn [fst snd]. rewrite foldM_map. by apply each_transition_fold.
    - intros i Hi _. pose proof (f_range a H1 i Hi) as Hfi. fold n in Hfi; fold f in Hfi. rewrite Nr. split; [done|]. split; [|apply Sr; lia].
      apply Forall_forall. intros t (u & -> & Hu)%list_elem_of_fmap. pose proof (wf_ok _ W i Hi) as HO. rewrite Forall_forall in HO.
      destruct (HO u Hu) as [Hu1 Hu2]. split; [|done]. cbn. apply (f_range a H1 _ Hu1).
    - intros i j Hi Hj Hni _ E. apply (f_eq a H1) in E as [?|[Hd _]]; [done| |done|done]. by apply Hdead in Hd. }
  rewrite Z2Nat.id by lia. intros r1 [W1 N1 A1 _ E1]. destruct (FinishState_spec r1 W1) as (r2 & -> & W2 & C2 & N2 & A2 & E2 & _).
  cbn. split; [by split|]. intros w. unfold language, accepts. rewrite <- (f_zero a H1) at 1 by lia. fold f n.
  apply (accepts_rename (fun s => 0 ≤ s < n) f); [| | |lia].
  - intros s c d' Hs. pose proof (f_range a H1 s Hs) as Hfs. fold n in Hfs; fold f in Hfs. rewrite E2, E1, quads_edge_rows by lia. split.
    + intros [(t & Ht & _)|(us & Hus & Hl)]; [rewrite Dr in Ht by lia; by apply elem_of_nil in Ht|].
      apply list_elem_of_fmap in Hus as (i & [= Ef ->] & Hi%elem_of_seqZ).
      apply (f_eq a H1) in Ef as [->|[_ Hd]]; [by apply Hts| |done|lia]. apply Hdead in Hd. rewrite Hd in Hl. by apply leads_nil in Hl.
    + intros Hd. right. exists (ts s). split; [|by apply Hts]. apply list_elem_of_fmap. exists s. split; [done|]. apply elem_of_seqZ. lia.
  - intros s c d Hs He. apply edge_dest in He as (_ & ? & _); [done|done|lia].
  - intros s Hs. unfold final. rewrite A2, A1, Ar; done.
Qed.

Lemma Union_spec l :
  Forall good l → runs (Union l) (fun a' => good a' ∧ ∀ w, language a' w ↔ ∃ a, a ∈ l ∧ language a w).
Proof.
  intros HG. pose proof (Union_before l HG) as H. unfold Union.
  assert (E : ∀ (k : Automaton → AM Automaton) Q,
    runs (R ← ('(_, result) ← CreateState NewAutomaton;
        result ← foldM (fun a result => Copy a result) l result;
        '(result, _) ← foldM (fun a '(result, stateOffset) =>
          if NumStates a =? 0 then mret (result, stateOffset) else
          result ← AddEpsilon 0 stateOffset result;
          mret (result, stateOffset + NumStates a)) l (result, 1);
        FinishState result); k R) Q →
    runs ('(_, result) ← CreateState NewAutomaton;
        result ← foldM (fun a result => Copy a result) l result;
        '(result, _) ← foldM (fun a '(result, stateOffset) =>
          if NumStates a =? 0 then mret (result, stateOffset) else
          result ← AddEpsilon 0 stateOffset result;
          mret (result, stateOffset + NumStates a)) l (result, 1);
        R ← FinishState result; k R) Q).
  { intros k Q. destruct (CreateState NewAutomaton) as [[x r0]| | |]; try done. cbn [mbind go_bind].
    destruct (foldM _ l r0) as [r1| | |]; try done. cbn [mbind go_bind]. by destruct (foldM _ l (r1, 1)) as [[r2 y]| | |]. }
  apply E. eapply runs_step; [exact H|]. intros R [GR HR]. eapply runs_step; [by apply RemoveDeadStates_spec|]. intros R' HR'.
  eapply runs_mono; [apply Merge_spec, HR'|]. intros a' [G' Ha']. split; [done|]. intros w. by rewrite Ha', (tm_language _ _ HR'), HR.
Qed.

(** C28. [Union] ends, and its result accepts the words that one of the automata accepts at
    least. *)
Theorem Union_correct l :
  Forall good l → runs (Union l) (fun a' => good a' ∧ ∀ w, language a' w ↔ ∃ a, a ∈ l ∧ language a w).
Proof. exact (Union_spec l). Qed.

(** ** Automata for examples *)

(** The word [a], and the words [b c b c ... b]. *)
Definition just_a : Automaton :=
  automaton_of [BCreateState; BCreateState; BSetAccept 1 true; BAddTransition 0 1 97 97; BFinishState].
Definition b_cb : Automaton :=
  automaton_of [BCreateState; BCreateState; BSetAccept 1 true; BAddTransition 0 1 98 98; BAddTransition 1 0 99 99; BFinishState].

Lemma just_a_good : good just_a.
Proof. apply automaton_of_good. vm_compute. reflexivity. Qed.
Lemma b_cb_good : good b_cb.
Proof. apply automaton_of_good. vm_compute. reflexivity. Qed.

Lemma Union_correct_witness :
  runs (Union [just_a; b_cb; NewAutomaton]) (fun a' => good a' ∧ ∀ w, language a' w ↔ ∃ a, a ∈ [just_a; b_cb; NewAutomaton] ∧ language a w) ∧
  (∃ a', Union [just_a; b_cb; NewAutomaton] = Ret a' ∧ NumStates a' = 4).
Proof.
  split.
  - apply Union_correct. repeat apply Forall_cons_2; [apply just_a_good|apply b_cb_good|apply New_good|constructor].
  - eexists. split; vm_compute; reflexivity.
Defined.
