(* ===== verification/Sequence.v ===== *)
(** [Optional] and [Concatenate] of [util/automaton/operations.go]: their effect on
    languages. *)

From stdpp Require Import base tactics numbers list sorting.
From Stdlib Require Import ZArith Lia.
From S2P Require Import Prelude WordBits Nfa Automaton Builder Rows Liveness RegularOps.

Local Open Scope Z_scope.

(** * Option *)

Lemma foldM_found (p : tr → bool) l : ∀ found,
  foldM (fun t (found : bool) => if found then mret found else mret (p t)) l found = @Ret autoerr _ (found || existsb p l).
Proof.
  induction l as [|t l IH]; intros found; cbn [foldM existsb]; [by rewrite orb_false_r|].
  destruct found; cbn [mbind go_bind mret go_ret orb]; by rewrite IH.
Qed.

Lemma hasIncomingToInitial_spec a :
  wf a → ∃ b, hasIncomingToInitial a = Ret b ∧ (b = false → ∀ s c, 0 ≤ s → ¬ edge a s c 0).
Proof.
  intros W. pose proof (NumStates_pos _ W) as HN.
  destruct (go_for_inv (E := autoerr) (fun i b => b = false → ∀ s c, 0 ≤ s < i → ¬ edge a s c 0) (Z.to_nat (NumStates a)) 0
    (fun state found => if (found : bool) then mret found else
       each_transition a state (fun t found => if (found : bool) then mret found else mret (Dest t =? 0)) found) false)
    as (b & Eb & Hb).
  - intros _ s c Hs. lia.
  - intros i found Hi Hf. destruct found; [by exists true|].
    rewrite (each_transition_fold a i _ (fun t (found : bool) => if found then mret found else mret (dest_ t =? 0))) by (done || lia).
    rewrite foldM_found. eexists. split; [done|]. cbn [orb]. intros Hx s c Hs (t & Ht & Hd & Hc).
    destruct (decide (s = i)) as [->|]; [|apply (Hf eq_refl s c ltac:(lia)); by exists t].
    rewrite <- not_true_iff_false, existsb_exists in Hx. apply Hx. exists t. rewrite <- list_elem_of_In. split; [done|].
    by apply Z.eqb_eq.
  - exists b. split; [exact Eb|]. rewrite Z.add_0_l, Z2Nat.id in Hb by done. intros E s c Hs He.
    apply (Hb E s c); [|done]. apply edge_dest in He as (? & _); [lia|done|done].
Qed.

(** A state that is entered once only may accept the empty word. *)
Lemma accept_initial a a' w :
  wf a → (∀ s c, 0 ≤ s → ¬ edge a s c 0) → (∀ s c d, 0 ≤ s → edge a' s c d ↔ edge a s c d) →
  (∀ s, IsAccept a' s = if decide (s = 0) then true else IsAccept a s) →
  language a' w ↔ w = [] ∨ language a w.
Proof.
  intros W Hin HE HA. unfold language, accepts. destruct w as [|c w].
  - rewrite accepts_nil. unfold final. rewrite HA, decide_True by done. naive_solver.
  - rewrite !accepts_cons.
    assert (H : ∀ d, edge a 0 c d → accepts_from (edge a') (final a') d w ↔ accepts_from (edge a) (final a) d w).
    { intros d Hd. apply (accepts_ext (fun s => 0 < s)); [intros; apply HE; lia| | |].
      - intros x e y Hx He. apply HE in He; [|lia]. pose proof (Hin x e ltac:(lia)).
        assert (y ≠ 0) by congruence. apply edge_dest in He as (_ & ? & _); [lia|done|lia].
      - intros x Hx. unfold final. by rewrite HA, decide_False by lia.
      - pose proof (Hin 0 c ltac:(lia)). assert (d ≠ 0) by congruence. apply edge_dest in Hd as (_ & ? & _); [lia|done|lia]. }
    split.
    + intros (d & Hd & Hw). right. apply HE in Hd; [|done]. exists d. split; [done|]. by apply H.
    + intros [?|(d & Hd & Hw)]; [done|]. exists d. split; [by apply HE|]. by apply H.
Qed.

(** A new initial state, when the old one can be entered again. *)
Lemma optional_new_initial a :
  good a → IsAccept a 0 = false →
  runs ('(_, result) ← CreateState NewAutomaton;
        result ← SetAccept 0 true result;
        result ← (if 0 <? NumStates a then result ← Copy a result; AddEpsilon 0 1 result else mret result);
        FinishState result) (fun a' => good a' ∧ ∀ w, language a' w ↔ w = [] ∨ language a w).
Proof.
  intros G Ea. pose proof (good_wf _ G) as W. pose proof (NumStates_pos _ W) as HN.
  eapply runs_step; [apply CreateState_spec, (shows_empty 2 2)|]. intros [n R0] (W0 & -> & N0 & D0 & A0 & S0 & C0 & _).
  change (NumStates NewAutomaton) with 0 in *. change (curState NewAutomaton) with (-1) in C0.
  destruct (SetAccept_spec 0 true R0 W0 ltac:(lia)) as (R1 & -> & W1 & SB & A1). rewrite go_bind_ret.
  destruct (same_but_accept_view _ _ SB) as (N1 & D1 & P1).
  assert (Hd0 : delta R1 0 = []).
  { rewrite D1, D0 by done. apply delta_beyond; [apply (shows_empty 2 2)|done]. }
  assert (Hs0 : ¬ started R1 0) by (unfold started; rewrite P1; intros Hs; apply S0 in Hs as [_ ?]; done).
  destruct (Z.ltb_spec 0 (NumStates a)) as [Hlt|Hge].
  + rewrite go_bind_assoc. assert (C1 : curState R1 = -1) by (rewrite (sb_curState _ _ SB); congruence).
    eapply runs_step; [apply Copy_spec; [done|done|done|apply G]|]. intros R2 HC.
    pose proof (co_NumStates _ _ _ HC) as N2. pose proof (copies_embeds _ _ _ HC W1 W) as HM.
    assert (EN1 : NumStates R1 = 1) by lia. rewrite EN1 in N2, HM.
    eapply runs_step; [apply AddEpsilon_spec; [apply HC|lia|lia|done|rewrite (co_curState _ _ _ HC); done|right]|].
    { destruct (co_before _ _ _ HC 0 ltac:(lia)) as [_ ->]. done. }
    intros R3 H3. destruct (FinishState_spec R3 (ae_wf _ _ _ _ H3)) as (R4 & -> & W4 & C4 & N4 & A4 & E4 & _).
    cbn. split; [by split|]. intros w.
    assert (HM' : embeds R4 1 a).
    { apply (embeds_same R2); [done|]. intros s Hs. rewrite A4, (ae_IsAccept _ _ _ _ H3), bool_decide_eq_false_2 by lia.
      cbn [andb]. rewrite orb_false_r. split; [done|]. intros c d. rewrite E4, (ae_edge _ _ _ _ H3) by lia.
      split; [intros [?|[? _]]; [done|lia]|by left]. }
    unfold language, accepts. destruct w as [|c w].
    * rewrite accepts_nil. unfold final. rewrite A4, (ae_IsAccept _ _ _ _ H3), (co_IsAccept _ _ _ HC).
      rewrite EN1. cbn [Z.ltb Z.compare]. rewrite A1, decide_True by done. cbn. naive_solver.
    * rewrite !accepts_cons.
      assert (HE : ∀ d', edge R4 0 c d' ↔ ∃ d, d' = 1 + d ∧ edge a 0 c d).
      { intros d'. rewrite E4, (ae_edge _ _ _ _ H3) by done. rewrite <- (em_edge _ _ _ HM 0 c d') by lia. cbn [Z.add].
        unfold edge at 1. destruct (co_before _ _ _ HC 0 ltac:(lia)) as [-> _]. rewrite Hd0.
        split; [intros [?%leads_nil|[_ ?]]; done|by right]. }
      split.
      -- intros (d' & Hd & Hw). apply HE in Hd as (d & -> & Hd). right. exists d. split; [done|].
         apply (embeds_language R4 1 a w d); [done|done|by apply edge_dest in Hd as (_ & ? & _)|done].
      -- intros [?|(d & Hd & Hw)]; [done|]. exists (1 + d). split; [apply HE; eauto|].
         apply (embeds_language R4 1 a w d); [done|done|by apply edge_dest in Hd as (_ & ? & _)|done].
  + rewrite go_bind_mret. destruct (FinishState_spec R1 W1) as (R4 & -> & W4 & C4 & N4 & A4 & E4 & _).
    cbn. split; [by split|]. intros w. split.
    * destruct w as [|c w]; [by left|]. unfold language, accepts. rewrite accepts_cons. intros (d & Hd & _).
      apply E4 in Hd; [|done]. unfold edge in Hd. rewrite Hd0 in Hd. by apply leads_nil in Hd.
    * intros [->|Hw]; [|apply language_no_states in Hw; [done|done|lia]]. apply accepts_nil. unfold final.
      by rewrite A4, A1, decide_True.
Qed.

(** The initial state accepts, when it is not entered again. *)
Lemma optional_same_initial a :
  good a → (∀ s c, 0 ≤ s → ¬ edge a s c 0) →
  runs (result ← Copy a NewAutomaton;
        result ← (if NumStates result =? 0 then '(_, result) ← CreateState result; mret result else mret result);
        SetAccept 0 true result) (fun a' => good a' ∧ ∀ w, language a' w ↔ w = [] ∨ language a w).
Proof.
  intros G Hinc. pose proof (good_wf _ G) as W. pose proof (NumStates_pos _ W) as HN.
  eapply runs_step; [apply Copy_spec; [apply (New_good 2 2)|done|done|apply G]|]. intros R1 HC.
  pose proof (co_NumStates _ _ _ HC) as N1. change (NumStates NewAutomaton) with 0 in N1.
  assert (E1 : ∀ s c d, 0 ≤ s → edge R1 s c d ↔ edge a s c d).
  { intros s c d Hs. rewrite (copies_edge _ _ _ HC) by (done || apply (New_good 2 2)). change (NumStates NewAutomaton) with 0.
    rewrite !Z.sub_0_r. split; [intros [[? _]|[_ ?]]; [lia|done]|by right]. }
  assert (A1 : ∀ s, IsAccept R1 s = IsAccept a s).
  { intros s. rewrite (co_IsAccept _ _ _ HC). change (NumStates NewAutomaton) with 0. rewrite Z.sub_0_r.
    destruct (Z.ltb_spec s 0) as [Hs|]; [|done]. unfold IsAccept. by rewrite (proj2 (Z.ltb_lt s 0)) by lia. }
  assert (Hroom : runs (if NumStates R1 =? 0 then '(_, result) ← CreateState R1; mret result else mret R1) (fun R2 =>
    good R2 ∧ 0 < NumStates R2 ∧ (∀ s c d, 0 ≤ s → edge R2 s c d ↔ edge a s c d) ∧ (∀ s, IsAccept R2 s = IsAccept a s))).
  { pose proof (NumStates_pos _ (co_wf _ _ _ HC)). destruct (Z.eqb_spec (NumStates R1) 0) as [E|E].
    - eapply runs_step; [apply CreateState_spec, HC|]. intros [x R2] (W2 & _ & N2 & D2 & A2 & _ & C2 & _). cbn.
      split_and!; [split; [done|by rewrite C2, (co_curState _ _ _ HC)]|lia| |intros s; by rewrite A2].
      intros s c d Hs. rewrite <- E1 by done. unfold edge. by rewrite D2.
    - cbn. split_and!; [split; apply HC|lia|done|done]. }
  eapply runs_step; [exact Hroom|]. intros R2 ([W2 C2] & N2 & E2 & A2).
  destruct (SetAccept_spec 0 true R2 W2 ltac:(lia)) as (R3 & -> & W3 & SB & A3).
  destruct (same_but_accept_view _ _ SB) as (_ & D3 & _). cbn. split; [split; [done|by rewrite (sb_curState _ _ SB)]|].
  intros w. apply accept_initial; [done|done| |].
  + intros s c d Hs. rewrite <- E2 by done. unfold edge. by rewrite D3.
  + intros s. by rewrite A3, A2.
Qed.

Lemma Optional_spec a :
  good a → runs (Optional a) (fun a' => good a' ∧ ∀ w, language a' w ↔ w = [] ∨ language a w).
Proof.
  intros G. pose proof (good_wf _ G) as W. unfold Optional.
  destruct (IsAccept a 0) eqn:Ea.
  { cbn. split; [done|]. intros w. split; [by right|]. intros [->|?]; [|done]. by apply accepts_nil. }
  destruct (hasIncomingToInitial_spec a W) as (inc & -> & Hinc). rewrite go_bind_ret. destruct inc; cbn [negb].
  - by apply optional_new_initial.
  - apply optional_same_initial; [done|by apply Hinc].
Qed.

(** [Optional] ends, and its result accepts the empty word and the words of the
    automaton. *)
Theorem Optional_correct a :
  good a → runs (Optional a) (fun a' => good a' ∧ ∀ w, language a' w ↔ w = [] ∨ language a w).
Proof. exact (Optional_spec a). Qed.

Lemma Optional_correct_witness :
  runs (Optional b_cb) (fun a' => good a' ∧ ∀ w, language a' w ↔ w = [] ∨ language b_cb w) ∧
  (∃ a', Optional b_cb = Ret a' ∧ NumStates a' = 3).
Proof. split; [apply Optional_correct, b_cb_good|eexists; split; vm_compute; reflexivity]. Defined.
