(* ===== verification/Concat.v ===== *)
(** [Concatenate] of [util/automaton/operations.go] and the concatenation of languages. *)

From stdpp Require Import base tactics numbers list sorting.
From Stdlib Require Import ZArith Lia.
From S2P Require Import Prelude WordBits Nfa Automaton Builder Rows Liveness RegularOps.

Local Open Scope Z_scope.

(** * Words in a row *)

(** The first letter of a concatenation. *)
Lemma cat_cons (L K : words) c w :
  cat L K (c :: w) ↔ (∃ u v, w = u ++ v ∧ L (c :: u) ∧ K v) ∨ L [] ∧ K (c :: w).
Proof.
  split.
  - intros ([|x u] & v & E & HL & HK); cbn in E; [subst v; by right|]. injection E as <- ->. left. eauto.
  - intros [(u & v & -> & HL & HK)|[HL HK]]; [by exists (c :: u), v|by exists [], (c :: w)].
Qed.

Lemma cat_nil (L K : words) : cat L K [] ↔ L [] ∧ K [].
Proof.
  split.
  - by intros ([|] & [|] & E & ? & ?).
  - intros [? ?]. by exists [], [].
Qed.

Lemma cat_ext (L L' K K' : words) : (∀ w, L w ↔ L' w) → (∀ w, K w ↔ K' w) → ∀ w, cat L K w ↔ cat L' K' w.
Proof. intros HL HK w. unfold cat. by setoid_rewrite HL; setoid_rewrite HK. Qed.

(** A word without words in the middle has no concatenation. *)
Lemma cats_none Ls L w : L ∈ Ls → (∀ w, ¬ L w) → ¬ cats Ls w.
Proof.
  revert w. induction Ls as [|K Ls IH]; intros w HL HN; [by apply elem_of_nil in HL|]. cbn.
  intros (u & v & _ & Hu & Hv). apply elem_of_cons in HL as [->|HL]; [by apply (HN u)|by apply (IH v)].
Qed.

(** * The chain of automata *)

(** The labels out of the accept states before [rest]: those of its initial states, as
    far as they accept the empty word. *)
Fixpoint follow_edge (offset : Z) (rest : list Automaton) (c d' : Z) : Prop :=
  match rest with
  | [] => False
  | a :: rest => (∃ d, d' = offset + d ∧ edge a 0 c d) ∨ IsAccept a 0 = true ∧ follow_edge (offset + NumStates a) rest c d'
  end.

Fixpoint follow_final (rest : list Automaton) : bool :=
  match rest with [] => true | a :: rest => IsAccept a 0 && follow_final rest end.

Fixpoint chain (R : Automaton) (off : Z) (l : list Automaton) : Prop :=
  match l with
  | [] => True
  | a :: rest =>
      (∀ s c d', 0 ≤ s < NumStates a → edge R (off + s) c d' ↔
        (∃ d, d' = off + d ∧ edge a s c d) ∨ IsAccept a s = true ∧ follow_edge (off + NumStates a) rest c d') ∧
      (∀ s, 0 ≤ s < NumStates a → IsAccept R (off + s) = IsAccept a s && follow_final rest) ∧
      chain R (off + NumStates a) rest
  end.

Definition nonempty (a : Automaton) : Prop := good a ∧ 0 < NumStates a.

Lemma cats_nil rest : cats (map language rest) [] ↔ follow_final rest = true.
Proof.
  induction rest as [|a rest IH]; cbn; [done|]. rewrite cat_nil, IH, andb_true_iff. unfold language, accepts.
  by rewrite accepts_nil.
Qed.

Lemma follow_cats R w rest c : ∀ off,
  Forall nonempty rest → chain R off rest →
  (∀ off a rest s, nonempty a → Forall nonempty rest → chain R off (a :: rest) → 0 ≤ s < NumStates a →
     accepts_from (edge R) (final R) (off + s) w ↔ cat (accepts_from (edge a) (final a) s) (cats (map language rest)) w) →
  (∃ d', follow_edge off rest c d' ∧ accepts_from (edge R) (final R) d' w) ↔ cats (map language rest) (c :: w).
Proof.
  induction rest as [|a rest IH]; intros off HG HC Hw.
  - cbn. split; [by intros (? & ? & _)|done].
  - pose proof HG as [Ga HG']%Forall_cons. pose proof HC as (_ & _ & HC'). specialize (IH _ HG' HC' Hw).
    cbn [map cats follow_edge]. rewrite cat_cons, <- IH. unfold language, accepts. rewrite accepts_nil.
    assert (Hd : ∀ d, edge a 0 c d → 0 ≤ d < NumStates a).
    { intros d He. by apply edge_dest in He as (_ & ? & _); [|apply Ga|]. }
    split.
    + intros (d' & [(d & -> & He)|[HA Hf]] & Hacc).
      * left. apply (Hw off a rest d Ga HG' HC (Hd d He)) in Hacc as (u & v & -> & Hu & Hv).
        exists u, v. split; [done|]. split; [|done]. apply accepts_cons. eauto.
      * right. split; [done|]. eauto.
    + intros [(u & v & -> & (d & He & Hu)%accepts_cons & Hv)|[HA (d' & Hf & Hacc)]].
      * exists (off + d). split; [left; eauto|]. apply (Hw off a rest d Ga HG' HC (Hd d He)). exists u, v. done.
      * exists d'. split; [by right|done].
Qed.

(** From a state of one of the automata on. *)
Lemma chain_accepts R w : ∀ off a rest s,
  nonempty a → Forall nonempty rest → chain R off (a :: rest) → 0 ≤ s < NumStates a →
  accepts_from (edge R) (final R) (off + s) w ↔ cat (accepts_from (edge a) (final a) s) (cats (map language rest)) w.
Proof.
  induction w as [|c w IH]; intros off a rest s Ga HG HC Hs; pose proof HC as (HE & HA & HC').
  - rewrite cat_nil, !accepts_nil, cats_nil. unfold final. by rewrite HA, andb_true_iff.
  - rewrite cat_cons, accepts_cons, accepts_nil. setoid_rewrite accepts_cons. setoid_rewrite (HE s c _ Hs).
    rewrite <- (follow_cats R w rest c _ HG HC' IH). unfold final.
    assert (Hd : ∀ d, edge a s c d → 0 ≤ d < NumStates a).
    { intros d He. apply edge_dest in He as (_ & ? & _); [done|apply Ga|lia]. }
    split.
    + intros (d' & [(d & -> & He)|[Ha Hf]] & Hacc); [left|right; eauto].
      apply (IH off a rest d Ga HG HC (Hd d He)) in Hacc as (u & v & -> & Hu & Hv). exists u, v. eauto.
    + intros [(u & v & -> & (d & He & Hu) & Hv)|[Ha (d' & Hf & Hacc)]]; [|eauto].
      exists (off + d). split; [left; eauto|]. apply (IH off a rest d Ga HG HC (Hd d He)). exists u, v. done.
Qed.

(** * Adding transitions to one state *)

Definition ready (R : Automaton) (from : Z) : Prop := curState R = from ∨ ¬ started R from.

(** Edges and acceptance added to the state [from]. *)
Record extends (from : Z) (P : Z → Z → Prop) (acc : bool) (R R' : Automaton) : Prop := {
  ex_wf : wf R';
  ex_NumStates : NumStates R' = NumStates R;
  ex_IsAccept : ∀ s, IsAccept R' s = IsAccept R s || bool_decide (s = from) && acc;
  ex_edge : ∀ s c d, 0 ≤ s → edge R' s c d ↔ edge R s c d ∨ s = from ∧ P c d;
  ex_started : ∀ i, 0 ≤ i → started R' i → started R i ∨ i = from;
  ex_ready : ready R' from
}.

Lemma extends_refl from R : wf R → ready R from → extends from (fun _ _ => False) false R R.
Proof.
  intros W Hr. split; try done; [|naive_solver|by left]. intros s. by rewrite andb_false_r, orb_false_r.
Qed.

Lemma extends_trans from P Q x y R R1 R2 :
  extends from P x R R1 → extends from Q y R1 R2 → extends from (fun c d => P c d ∨ Q c d) (x || y) R R2.
Proof.
  intros [W1 N1 A1 E1 S1 H1] [W2 N2 A2 E2 S2 H2]. split; try done; [congruence| | |].
  - intros s. rewrite A2, A1. by destruct (bool_decide _), x, y, (IsAccept R s).
  - intros s c d Hs. rewrite E2, E1 by done. tauto.
  - intros i Hi [?|?]%S2; [by apply S1|by right|done].
Qed.

Lemma extends_iff from P Q x R R' : (∀ c d, P c d ↔ Q c d) → extends from P x R R' → extends from Q x R R'.
Proof. intros HPQ [W N A E S H]. split; try done. intros s c d Hs. rewrite E by done. by rewrite HPQ. Qed.

Lemma extends_accept from R :
  wf R → 0 ≤ from < NumStates R → ready R from → runs (SetAccept from true R) (extends from (fun _ _ => False) true R).
Proof.
  intros W Hf Hr. destruct (SetAccept_spec from true R W Hf) as (R1 & -> & W1 & SB & A1).
  destruct (same_but_accept_view _ _ SB) as (N1 & D1 & P1). cbn. split; try done.
  - intros s. rewrite A1, andb_true_r. case_decide; case_bool_decide; try done; [by rewrite orb_true_r|by rewrite orb_false_r].
  - intros s c d _. unfold edge. rewrite D1. tauto.
  - intros i _. unfold started. rewrite P1. by left.
  - unfold ready, started. by rewrite (sb_curState _ _ SB), P1.
Qed.

(** The transitions of a state of [a], moved by [off]. *)
Lemma copy_edges_spec a s from off R :
  wf a → 0 ≤ s < NumStates a → wf R → 0 ≤ from < NumStates R → 0 ≤ off → off + NumStates a ≤ NumStates R → ready R from →
  runs (each_transition a s (fun t R => AddTransition from (off + Dest t) (Min t) (Max t) R) R)
    (extends from (fun c d' => ∃ d, d' = off + d ∧ edge a s c d) false R).
Proof.
  intros W Hs WR Hf Ho Hle Hr.
  rewrite (each_transition_fold a s _ (fun t R => AddTransition from (off + dest_ t) (min_ t) (max_ t) R)) by done.
  apply (foldM_inv (fun k R' => extends from (fun c d' => ∃ d, d' = off + d ∧ leads k c d) false R R')).
  - eapply extends_iff; [|by apply extends_refl]. intros c d. split; [done|]. by intros (? & _ & ?%leads_nil).
  - intros k t R1 [l' El] H1. pose proof (wf_ok _ W s Hs) as HO. rewrite El, Forall_forall in HO.
    destruct (HO t ltac:(apply elem_of_app; left; apply elem_of_app; right; left)) as [Hd Hm]. pose proof (ex_NumStates _ _ _ _ _ H1) as N1.
    eapply runs_mono; [apply AddTransition_spec; [apply H1|lia|lia|done|apply H1]|]. intros R2 H2.
    assert (H12 : extends from (fun c d' => d' = off + dest_ t ∧ covers t c) false R1 R2).
    { split; [apply H2|apply H2| | | |left; apply H2].
      - intros i. by rewrite (ad_IsAccept _ _ _ _ _ _ H2), andb_false_r, orb_false_r.
      - intros i c d Hi. rewrite (ad_edge _ _ _ _ _ _ H2) by done. unfold covers. tauto.
      - intros i Hi Hst. by apply (ad_started _ _ _ _ _ _ H2). }
    eapply extends_iff; [|exact (extends_trans _ _ _ _ _ _ _ _ H1 H12)].
    intros c d'. setoid_rewrite leads_app. setoid_rewrite leads_one. split; [naive_solver|].
    intros (d & -> & [?|[<- ?]]); [left; eauto|by right].
Qed.

(** * The states of the chain *)

Lemma total_nonempty l : Forall nonempty l → 0 ≤ total l.
Proof. intros H. apply total_pos. eapply Forall_impl; [exact H|]. by intros a [? _]. Qed.

Lemma follow_spec rest from : ∀ offset R,
  Forall nonempty rest → wf R → 0 ≤ from < NumStates R → 0 ≤ offset → offset + total rest ≤ NumStates R → ready R from →
  runs (follow from offset rest R) (extends from (follow_edge offset rest) (follow_final rest) R).
Proof.
  induction rest as [|a rest IH]; intros offset R HG W Hf Ho Hle Hr; cbn [follow follow_edge follow_final total] in *.
  { by apply extends_accept. }
  apply Forall_cons in HG as [[Ga Hpos] HG]. pose proof (total_nonempty rest HG).
  eapply runs_step; [apply copy_edges_spec; (apply Ga || done || lia)|]. intros R1 H1.
  pose proof (ex_NumStates _ _ _ _ _ H1) as N1. destruct (IsAccept a 0) eqn:Ea.
  - eapply runs_mono; [apply IH; [done|apply H1|lia|lia|lia|apply H1]|]. intros R2 H2.
    eapply extends_iff; [|exact (extends_trans _ _ _ _ _ _ _ _ H1 H2)]. intros c d. cbn. naive_solver.
  - cbn. eapply extends_iff; [|exact H1]. intros c d. cbn. naive_solver.
Qed.

(** The states from [off] on have no transitions yet. *)
Definition fresh (R : Automaton) (off : Z) : Prop :=
  ∀ s, off ≤ s < NumStates R → ¬ started R s ∧ IsAccept R s = false ∧ ∀ c d, ¬ edge R s c d.

Definition same_below (off : Z) (R R' : Automaton) : Prop :=
  ∀ s, 0 ≤ s < off → IsAccept R' s = IsAccept R s ∧ ∀ c d, edge R' s c d ↔ edge R s c d.

Lemma extends_other from P x R R' s :
  extends from P x R R' → 0 ≤ s → s ≠ from → IsAccept R' s = IsAccept R s ∧ ∀ c d, edge R' s c d ↔ edge R s c d.
Proof.
  intros H Hs Hne. rewrite (ex_IsAccept _ _ _ _ _ H), bool_decide_eq_false_2, orb_false_r by done. split; [done|].
  intros c d. rewrite (ex_edge _ _ _ _ _ H) by done. naive_solver.
Qed.

(** One state of an automaton of the chain. *)
Lemma chain_state a rest off s R :
  nonempty a → Forall nonempty rest → 0 ≤ s < NumStates a → wf R → 0 ≤ off → off + total (a :: rest) ≤ NumStates R →
  ready R (off + s) →
  runs (result ← each_transition a s (fun t result => AddTransition (off + s) (off + Dest t) (Min t) (Max t) result) R;
        if IsAccept a s then follow (off + s) (off + NumStates a) rest result else mret result)
    (extends (off + s) (fun c d' => (∃ d, d' = off + d ∧ edge a s c d) ∨
        IsAccept a s = true ∧ follow_edge (off + NumStates a) rest c d') (IsAccept a s && follow_final rest) R).
Proof.
  intros [Ga Hpos] HG Hs W Ho Hle Hr. cbn [total] in Hle. pose proof (total_nonempty rest HG).
  eapply runs_step; [apply copy_edges_spec; (apply Ga || done || lia)|]. intros R1 H1.
  pose proof (ex_NumStates _ _ _ _ _ H1) as N1. destruct (IsAccept a s) eqn:Ea.
  - eapply runs_mono; [apply follow_spec; [done|apply H1|lia|lia|lia|apply H1]|]. intros R2 H2.
    eapply extends_iff; [|exact (extends_trans _ _ _ _ _ _ _ _ H1 H2)]. intros c d. naive_solver.
  - cbn. eapply extends_iff; [|exact H1]. intros c d. naive_solver.
Qed.

(** One automaton of the chain. *)
Lemma chain_block a rest off R :
  nonempty a → Forall nonempty rest → wf R → 0 ≤ off → off + total (a :: rest) ≤ NumStates R → fresh R off →
  runs (go_for (Z.to_nat (NumStates a)) 0 (fun s result =>
      result ← each_transition a s (fun t result => AddTransition (off + s) (off + Dest t) (Min t) (Max t) result) result;
      if IsAccept a s then follow (off + s) (off + NumStates a) rest result else mret result) R)
    (fun R' => wf R' ∧ NumStates R' = NumStates R ∧ same_below off R R' ∧ fresh R' (off + NumStates a) ∧
      ∀ s, 0 ≤ s < NumStates a →
        IsAccept R' (off + s) = IsAccept a s && follow_final rest ∧
        ∀ c d', edge R' (off + s) c d' ↔
          (∃ d, d' = off + d ∧ edge a s c d) ∨ IsAccept a s = true ∧ follow_edge (off + NumStates a) rest c d').
Proof.
  intros Ga HG W Ho Hle HF. pose proof (total_nonempty rest HG).
  eapply runs_mono; [apply (runs_for_inv (fun i R' => wf R' ∧ NumStates R' = NumStates R ∧ same_below off R R' ∧ fresh R' (off + i) ∧
      ∀ s, 0 ≤ s < i →
        IsAccept R' (off + s) = IsAccept a s && follow_final rest ∧
        ∀ c d', edge R' (off + s) c d' ↔
          (∃ d, d' = off + d ∧ edge a s c d) ∨ IsAccept a s = true ∧ follow_edge (off + NumStates a) rest c d'))|].
  - rewrite Z.add_0_r. split_and!; try done. intros s Hs. lia.
  - intros i R1 Hi (W1 & N1 & B1 & F1 & C1). pose proof Ga as [_ Hpos]. cbn [total] in Hle.
    destruct (F1 (off + i) ltac:(lia)) as (Hst & Hacc & Hed).
    eapply runs_mono; [apply chain_state; [done|done|lia|done|done|cbn [total]; lia|by right]|]. intros R2 H2.
    pose proof (ex_NumStates _ _ _ _ _ H2) as N2. split_and!; [apply H2|congruence| | |].
    + intros s Hs. destruct (extends_other _ _ _ _ _ s H2) as [-> HE]; [lia|lia|]. destruct (B1 s Hs) as [-> HE1]. split; [done|].
      intros c d. by rewrite HE.
    + intros s Hs. destruct (F1 s ltac:(lia)) as (Hst' & Ha' & He').
      destruct (extends_other _ _ _ _ _ s H2) as [-> HE]; [lia|lia|]. split_and!; [|done|intros c d; by rewrite HE].
      intros [?|?]%(ex_started _ _ _ _ _ H2); [done|lia|lia].
    + intros s Hs. destruct (decide (s = i)) as [->|Hne].
      * rewrite (ex_IsAccept _ _ _ _ _ H2), Hacc, bool_decide_eq_true_2 by done. split; [done|]. intros c d'.
        rewrite (ex_edge _ _ _ _ _ H2) by lia. pose proof (Hed c d'). tauto.
      * destruct (extends_other _ _ _ _ _ (off + s) H2) as [-> HE]; [lia|lia|]. destruct (C1 s ltac:(lia)) as [-> HE1]. split; [done|].
        intros c d'. by rewrite HE.
  - intros R' H'. by rewrite Z.add_0_l, Z2Nat.id in H' by (pose proof Ga as [_ ?]; lia).
Qed.

Lemma concat_from_spec l : ∀ off R,
  Forall nonempty l → wf R → 0 ≤ off → off + total l ≤ NumStates R → fresh R off →
  runs (concat_from off l R) (fun R' => wf R' ∧ NumStates R' = NumStates R ∧ same_below off R R' ∧ chain R' off l).
Proof.
  induction l as [|a rest IH]; intros off R HG W Ho Hle HF; cbn [concat_from chain].
  { cbn. split_and!; try done. }
  apply Forall_cons in HG as [Ga HG]. pose proof Ga as [_ Hpos].
  eapply runs_step; [by apply chain_block|]. intros R1 (W1 & N1 & B1 & F1 & C1). cbn [total] in Hle.
  eapply runs_mono; [apply IH; (done || lia)|]. intros R2 (W2 & N2 & B2 & C2). split_and!; [done|congruence| | | |done].
  - intros s Hs. destruct (B2 s ltac:(lia)) as [-> HE]. destruct (B1 s Hs) as [-> HE1]. split; [done|]. intros c d. by rewrite HE.
  - intros s c d' Hs. destruct (B2 (off + s) ltac:(lia)) as [_ ->]. by apply C1.
  - intros s Hs. destruct (B2 (off + s) ltac:(lia)) as [-> _]. by apply C1.
Qed.

Lemma create_all_spec l : ∀ R,
  Forall good l → wf R → fresh R 0 →
  runs (create_all l R) (fun r =>
    match r with
    | None => ∃ a, a ∈ l ∧ NumStates a = 0
    | Some R' => Forall nonempty l ∧ wf R' ∧ fresh R' 0 ∧ NumStates R' = NumStates R + total l
    end).
Proof.
  induction l as [|a l IH]; intros R HG W HF; cbn [create_all total].
  { cbn. split_and!; try done. lia. }
  apply Forall_cons in HG as [Ga HG]. pose proof (NumStates_pos _ (good_wf _ Ga)) as HN.
  destruct (Z.eqb_spec (NumStates a) 0) as [E|E]; [exists a; split; [left|done]|].
  eapply runs_step; [by apply create_states|]. intros R1 (W1 & N1 & D1 & A1 & S1 & _).
  rewrite Z2Nat.id in N1 by done. eapply runs_mono; [apply IH; [done|done|]|].
  - intros s Hs. rewrite A1. unfold edge. rewrite D1, S1 by lia.
    destruct (Z.lt_ge_cases s (NumStates R)) as [Hlt|Hge].
    + destruct (HF s ltac:(lia)) as (Hst & Ha & He). split_and!; [by intros [? _]|done|done].
    + split_and!; [intros [_ Hn]; apply Hn; lia| |].
      * destruct (IsAccept R s) eqn:Ea; [|done]. apply (wf_accept _ W) in Ea. lia.
      * intros c d. rewrite delta_beyond by done. by intros ?%leads_nil.
  - intros [R2|]; [|intros (b & ? & ?); exists b; split; [by right|done]].
    intros (HG2 & W2 & F2 & N2). split_and!; [|done|done|lia]. constructor; [split; [done|lia]|done].
Qed.

Lemma Concatenate_full l :
  Forall good l →
  runs (Concatenate l) (fun a' => (good a' ∧ ∀ w, language a' w ↔ l ≠ [] ∧ cats (map language l) w) ∧
                                  NumStates a' ≤ Z.max 1 (total l)).
Proof.
  intros HG. unfold Concatenate. pose proof (New_good 2 2) as [W0 C0].
  eapply runs_step; [apply create_all_spec; [done|done|intros s Hs; change (NumStates NewAutomaton) with 0 in Hs; lia]|].
  intros [R|].
  - intros (HN & W & F & EN). change (NumStates NewAutomaton) with 0 in EN.
    eapply runs_step; [apply concat_from_spec; (done || lia)|]. intros R1 (W1 & N1 & _ & C1).
    assert (Hroom : runs (if NumStates R1 =? 0 then '(_, result) ← CreateState R1; mret result else mret R1) (fun R2 =>
      wf R2 ∧ (∀ w, language R2 w ↔ l ≠ [] ∧ cats (map language l) w) ∧ NumStates R2 ≤ Z.max 1 (total l))).
    { destruct l as [|a l]; cbn [total] in EN.
      - rewrite (proj2 (Z.eqb_eq (NumStates R1) 0)) by lia. eapply runs_step; [by apply CreateState_spec|].
        intros [x R2] (W2 & _ & N2 & D2 & A2 & _). cbn. split; [done|]. split; [|lia]. intros w. split; [|by intros [? _]]. intros Hw. exfalso.
        apply (language_no_states R1 w W1); [lia|]. revert Hw. apply (accepts_ext (fun s => 0 ≤ s)); [| | |done].
        + intros s c d Hs. unfold edge. by rewrite D2.
        + intros s c d Hs He. by apply edge_dest in He as (_ & ? & _); [lia|..].
        + intros s Hs. unfold final. by rewrite A2.
      - pose proof HN as [[Ga Hpos] HN']%Forall_cons. pose proof (total_nonempty l HN').
        rewrite (proj2 (Z.eqb_neq (NumStates R1) 0)) by lia. cbn. split; [done|]. split; [|lia]. intros w. unfold language at 1, accepts.
        change (accepts_from (edge R1) (final R1) 0 w) with (accepts_from (edge R1) (final R1) (0 + 0) w).
        rewrite (chain_accepts R1 w 0 a l 0) by (done || lia). cbn. naive_solver. }
    eapply runs_step; [exact Hroom|]. intros R2 (W2 & L2 & NR2).
    destruct (FinishState_spec R2 W2) as (R3 & -> & W3 & C3 & N3 & A3 & E3 & _). rewrite go_bind_ret.
    eapply runs_mono; [by apply RemoveDeadStates_spec|]. intros R4 H4. split; [split; [apply H4|]|pose proof (tm_NumStates _ _ H4); lia]. intros w.
    rewrite (tm_language _ _ H4), <- L2. apply (same_view_language R2 R3 w W2). by split.
  - intros (a & Ha & En). rewrite Forall_forall in HG.
    destruct (FinishState_spec NewAutomaton W0) as (R3 & -> & W3 & C3 & N3 & _). cbn. change (NumStates NewAutomaton) with 0 in N3.
    split; [split; [by split|]|lia]. intros w. split.
    + intros Hw. apply language_no_states in Hw; done.
    + intros [_ Hw]. exfalso. revert Hw. apply (cats_none _ (language a)); [by apply list_elem_of_fmap_2|].
      intros v. apply language_no_states; [apply HG, Ha|done].
Qed.

Lemma Concatenate_spec l :
  Forall good l →
  runs (Concatenate l) (fun a' => good a' ∧ ∀ w, language a' w ↔ l ≠ [] ∧ cats (map language l) w).
Proof. intros HG. eapply runs_mono; [by apply Concatenate_full|]. by intros a' [H _]. Qed.

(** C27. [Concatenate] ends, and its result accepts the words of the automata, one after the
    other; of no automata at all, it accepts no word. *)
Theorem Concatenate_correct l :
  Forall good l →
  runs (Concatenate l) (fun a' => good a' ∧ ∀ w, language a' w ↔ l ≠ [] ∧ cats (map language l) w).
Proof. exact (Concatenate_spec l). Qed.

Lemma Concatenate_correct_witness :
  runs (Concatenate [just_a; b_cb]) (fun a' => good a' ∧ ∀ w, language a' w ↔ [just_a; b_cb] ≠ [] ∧ cats (map language [just_a; b_cb]) w) ∧
  match Concatenate [just_a; b_cb] with Ret c => Run c [97; 98; 99; 98] = Ret true ∧ Run c [97] = Ret false | _ => False end.
Proof.
  split; [|vm_compute; by split].
  apply Concatenate_correct. repeat apply Forall_cons_2; [apply just_a_good|apply b_cb_good|constructor].
Defined.
