(* ===== verification/Repetition.v ===== *)
(** [Repeat], [RepeatN] and [RepeatRange] of [util/automaton/operations.go]: their effect
    on languages. *)

From stdpp Require Import base tactics numbers list sorting.
From Stdlib Require Import ZArith Lia.
From S2P Require Import Prelude WordBits FixedBitSet Nfa Automaton Builder Rows Liveness RegularOps Concat.

Local Open Scope Z_scope.

(** * Repeated words *)

Lemma star_cons L c w : star L (c :: w) ↔ ∃ u v, w = u ++ v ∧ L (c :: u) ∧ star L v.
Proof.
  split.
  - intros H. remember (c :: w) as cw eqn:E. induction H as [|u v Hu Hv IH]; [done|]. destruct u as [|x u]; [by apply IH|].
    cbn in E. injection E as -> <-. eauto.
  - intros (u & v & -> & Hu & Hv). change (c :: u ++ v) with ((c :: u) ++ v). by constructor.
Qed.

Lemma power_star L n w : power n L w → star L w.
Proof.
  revert w. induction n as [|n IH]; intros w; cbn; [intros ->; constructor|].
  intros (u & v & -> & Hu & Hv). constructor; auto.
Qed.

Lemma star_power L w : star L w ↔ ∃ n, power n L w.
Proof.
  split; [|by intros (n & ?%power_star)]. induction 1 as [|u v Hu _ (n & Hn)]; [by exists 0%nat|].
  exists (S n), u, v. done.
Qed.

Lemma power_add n m L w : power (n + m) L w ↔ cat (power n L) (power m L) w.
Proof.
  revert w. induction n as [|n IH]; intros w; cbn.
  - split; [intros H; by exists [], w|]. by intros (u & v & -> & -> & ?).
  - split.
    + intros (u & v & -> & Hu & (v1 & v2 & -> & Hv1 & Hv2)%IH). exists (u ++ v1), v2. split; [by rewrite app_assoc|].
      split; [by exists u, v1|done].
    + intros (u & v & -> & (u1 & u2 & -> & Hu1 & Hu2) & Hv). exists u1, (u2 ++ v). split; [by rewrite app_assoc|].
      split; [done|]. apply IH. by exists u2, v.
Qed.

Lemma cats_repeat L n w : cats (repeat L n) w ↔ power n L w.
Proof. revert w. induction n as [|n IH]; intros w; cbn; [done|]. by apply cat_ext. Qed.

Lemma cats_app Ls Ks w : cats (Ls ++ Ks) w ↔ cat (cats Ls) (cats Ks) w.
Proof.
  revert w. induction Ls as [|L Ls IH]; intros w; cbn.
  - split; [intros H; by exists [], w|]. by intros (u & v & -> & -> & ?).
  - split.
    + intros (u & v & -> & Hu & (v1 & v2 & -> & Hv1 & Hv2)%IH). exists (u ++ v1), v2. split; [by rewrite app_assoc|].
      split; [by exists u, v1|done].
    + intros (u & v & -> & (u1 & u2 & -> & Hu1 & Hu2) & Hv). exists u1, (u2 ++ v). split; [by rewrite app_assoc|].
      split; [done|]. apply IH. by exists u2, v.
Qed.

(** At most [n] words. *)
Definition at_most (n : nat) (L : words) : words := fun w => ∃ m, (m ≤ n)%nat ∧ power m L w.

Lemma at_most_nil n L : at_most n L [].
Proof. exists 0%nat. split; [lia|done]. Qed.

Lemma at_most_cons n L c w : at_most (S n) L (c :: w) ↔ ∃ u v, w = u ++ v ∧ L (c :: u) ∧ at_most n L v.
Proof.
  split.
  - intros (m & Hm & Hp). revert n Hm. induction m as [|m IH]; intros n Hm; [done|].
    destruct Hp as ([|x u] & v & E & Hu & Hv); cbn in E.
    + subst v. destruct n as [|n]; [assert (m = 0%nat) as -> by lia; done|].
      destruct (IH Hv n ltac:(lia)) as (u & v & -> & ? & k & ? & ?). exists u, v. split_and!; try done. exists k. split; [lia|done].
    + injection E as <- ->. exists u, v. split_and!; try done. exists m. split; [lia|done].
  - intros (u & v & -> & Hu & m & Hm & Hp). exists (S m). split; [lia|]. by exists (c :: u), v.
Qed.

Lemma at_most_zero L w : at_most 0 L w ↔ w = [].
Proof. split; [by intros ([|] & ? & ?); [|lia]|intros ->; apply at_most_nil]. Qed.

(** * Adding transitions to a builder *)

Record b_adds (P : edges) (b b' : Builder) : Prop := {
  ba_wf : bwf b';
  ba_states : b_nextState b' = b_nextState b;
  ba_accept : ∀ s, b_accept b' s = b_accept b s;
  ba_edge : ∀ s c d, b_edge b' s c d ↔ b_edge b s c d ∨ P s c d
}.

Lemma b_adds_refl b : bwf b → b_adds (fun _ _ _ => False) b b.
Proof. intros W. split; try done. tauto. Qed.

Lemma b_adds_trans P Q b b1 b2 : b_adds P b b1 → b_adds Q b1 b2 → b_adds (fun s c d => P s c d ∨ Q s c d) b b2.
Proof.
  intros [W1 N1 A1 E1] [W2 N2 A2 E2]. split; [done|congruence|intros; by rewrite A2|]. intros s c d. rewrite E2, E1. tauto.
Qed.

Lemma b_adds_iff P Q b b' : (∀ s c d, P s c d ↔ Q s c d) → b_adds P b b' → b_adds Q b b'.
Proof. intros HPQ [W N A E]. split; try done. intros s c d. by rewrite E, HPQ. Qed.

(** The transitions of the state [s] of [a], from the state [x] on, renamed by the array [m]. *)
Lemma add_renamed a s x m b :
  wf a → 0 ≤ s < NumStates a → bwf b → 0 ≤ x < b_nextState b → Z.of_nat (length m) = NumStates a →
  (∀ d, 0 ≤ d < NumStates a → 0 ≤ nthZ 0 m d < b_nextState b) →
  runs (each_transition a s (fun t b => d ← aget m (Dest t); mret (BuilderAddTransition x d (Min t) (Max t) b)) b)
    (b_adds (fun y c e => y = x ∧ ∃ d, e = nthZ 0 m d ∧ edge a s c d) b).
Proof.
  intros W Hs Wb Hx Hm Hr.
  rewrite (each_transition_fold a s _ (fun t b => d ← aget m (dest_ t); mret (BuilderAddTransition x d (min_ t) (max_ t) b))) by done.
  apply (foldM_inv (fun k b' => b_adds (fun y c e => y = x ∧ ∃ d, e = nthZ 0 m d ∧ leads k c d) b b')).
  - eapply b_adds_iff; [|by apply b_adds_refl]. intros y c e. split; [done|]. by intros (_ & ? & _ & ?%leads_nil).
  - intros k t b1 [l' El] H1. pose proof (wf_ok _ W s Hs) as HO. rewrite El, Forall_forall in HO.
    destruct (HO t ltac:(apply elem_of_app; left; apply elem_of_app; right; left)) as [Hd Hmm].
    rewrite (nthZ_aget 0), go_bind_ret by lia. pose proof (ba_states _ _ _ H1) as N1. specialize (Hr _ Hd) as Hrd.
    destruct (BuilderAddTransition_spec x (nthZ 0 m (dest_ t)) (min_ t) (max_ t) b1 (ba_wf _ _ _ H1)) as [W2 E2]; [cbn; lia|].
    cbn. assert (H12 : b_adds (fun y c e => y = x ∧ e = nthZ 0 m (dest_ t) ∧ covers t c) b1
                         (BuilderAddTransition x (nthZ 0 m (dest_ t)) (min_ t) (max_ t) b1)) by (by split).
    eapply b_adds_iff; [|exact (b_adds_trans _ _ _ _ _ H1 H12)].
    intros y c e. setoid_rewrite leads_app. setoid_rewrite leads_one. naive_solver.
Qed.

(** A loop over the states. *)
Lemma b_adds_for n (P : Z → edges) (body : Z → Builder → AM Builder) b :
  bwf b →
  (∀ i b', 0 ≤ i < Z.of_nat n → bwf b' → b_nextState b' = b_nextState b → runs (body i b') (b_adds (P i) b')) →
  runs (go_for n 0 body b) (b_adds (fun s c d => ∃ i, 0 ≤ i < Z.of_nat n ∧ P i s c d) b).
Proof.
  intros W Hb. eapply runs_mono; [apply (runs_for_inv (fun i b' => b_adds (fun s c d => ∃ j, 0 ≤ j < i ∧ P j s c d) b b'))|].
  - eapply b_adds_iff; [|by apply b_adds_refl]. intros s c d. split; [done|]. intros (j & ? & _). lia.
  - intros i b1 Hi H1. eapply runs_mono; [apply Hb; [lia|apply H1|apply H1]|]. intros b2 H2.
    eapply b_adds_iff; [|exact (b_adds_trans _ _ _ _ _ H1 H2)]. intros s c d. split.
    + intros [(j & ? & ?)|?]; [exists j; split; [lia|done]|exists i; split; [lia|done]].
    + intros (j & ? & ?). destruct (decide (j = i)) as [->|]; [by right|left]. exists j. split; [lia|done].
  - intros b' H'. eapply b_adds_iff; [|exact H']. intros s c d. by rewrite Z.add_0_l.
Qed.

(** * [Repeat] *)

Section Repeat.
Context (a : Automaton) (G : good a).

Let W : wf a := good_wf a G.
Let n := NumStates a.

(** The state [s] has the number [f s] in the result; the accept states without
    transitions become the new initial state. *)
Record numbering (i nb : Z) (f : Z → Z) : Prop := {
  nu_dead : ∀ s, 0 ≤ s < i → dead_end a s → f s = 0;
  nu_range : ∀ s, 0 ≤ s < i → ¬ dead_end a s → 1 ≤ f s < nb;
  nu_inj : ∀ s t, 0 ≤ s < i → 0 ≤ t < i → ¬ dead_end a s → ¬ dead_end a t → f s = f t → s = t
}.

Lemma nu_bound i nb f s : numbering i nb f → 1 ≤ nb → 0 ≤ s < i → 0 ≤ f s < nb.
Proof.
  intros H Hn Hs. destruct (decide (dead_end a s)) as [Hd|Hd]; [rewrite (nu_dead _ _ _ H) by done; lia|].
  pose proof (nu_range _ _ _ H s Hs Hd). lia.
Qed.

Definition counted_in (i : Z) (b : Builder) (m : list Z) : Prop :=
  bwf b ∧ b_transitions b = [] ∧ Z.of_nat (length m) = n ∧ 1 ≤ b_nextState b ∧ numbering i (b_nextState b) (nthZ 0 m) ∧
  ∀ x, b_accept b x = true ↔ x = 0 ∨ ∃ s, 0 ≤ s < i ∧ IsAccept a s = true ∧ x = nthZ 0 m s.

Lemma counted_dead i b m :
  0 ≤ i < n → dead_end a i → counted_in i b m → counted_in (i + 1) b (<[Z.to_nat i := 0]> m).
Proof.
  intros Hi Hd (Wb & T & L & Hn & H & HA).
  assert (Hnth : ∀ s, 0 ≤ s → nthZ 0 (<[Z.to_nat i := 0]> m) s = if decide (s = i) then 0 else nthZ 0 m s).
  { intros s Hs. rewrite nthZ_insert by lia. repeat case_decide; (done || lia). }
  split_and!; [done|done|by rewrite length_insert|done| |].
  - split.
    + intros s Hs Hds. rewrite Hnth by lia. case_decide; [done|]. apply (nu_dead _ _ _ H); [lia|done].
    + intros s Hs Hds. rewrite Hnth by lia. case_decide as E; [by subst|]. apply (nu_range _ _ _ H); [lia|done].
    + intros s t Hs Ht Hds Hdt. rewrite !Hnth by lia. do 2 (case_decide; [by subst|]). apply (nu_inj _ _ _ H); (lia || done).
  - intros x. rewrite HA. split.
    + intros [?|(s & ? & ? & ?)]; [by left|right]. exists s. split_and!; try lia; [done|]. by rewrite Hnth, decide_False by lia.
    + intros [?|(s & Hs & Ha & Hx)]; [by left|]. rewrite Hnth in Hx by lia. case_decide; [by left|]. right.
      exists s. split_and!; try lia; done.
Qed.

Lemma counted_new i b m b' :
  0 ≤ i < n → ¬ dead_end a i → counted_in i b m → bwf b' → b_nextState b' = b_nextState b + 1 → b_transitions b' = [] →
  (∀ x, b_accept b' x = if decide (x = b_nextState b) then IsAccept a i else b_accept b x) →
  counted_in (i + 1) b' (<[Z.to_nat i := b_nextState b]> m).
Proof.
  intros Hi Hd (Wb & T & L & Hn & H & HA) Wb' Nb' Tb' Ab'. set (nb := b_nextState b) in *.
  assert (Hnth : ∀ s, 0 ≤ s → nthZ 0 (<[Z.to_nat i := nb]> m) s = if decide (s = i) then nb else nthZ 0 m s).
  { intros s Hs. rewrite nthZ_insert by lia. repeat case_decide; (done || lia). }
  assert (Hb : ∀ s, 0 ≤ s < i → 0 ≤ nthZ 0 m s < nb) by (intros s Hs; by apply (nu_bound i)).
  split_and!; [done|done|by rewrite length_insert|lia| |].
  - rewrite Nb'. split.
    + intros s Hs Hds. rewrite Hnth by lia. case_decide as E; [by subst|]. apply (nu_dead _ _ _ H); [lia|done].
    + intros s Hs Hds. rewrite Hnth by lia. case_decide as E; [lia|]. pose proof (nu_range _ _ _ H s ltac:(lia) Hds). lia.
    + intros s t Hs Ht Hds Hdt. rewrite !Hnth by lia. pose proof (Hb s). pose proof (Hb t).
      repeat case_decide; [congruence|lia|lia|]. apply (nu_inj _ _ _ H); (lia || done).
  - intros x. rewrite Ab'. case_decide as E.
    + split; [intros Ha; right; exists i; rewrite Hnth, decide_True by lia; split_and!; try lia; done|].
      intros [?|(s & Hs & Ha & Hx)]; [lia|]. rewrite Hnth in Hx by lia. case_decide; [by subst|]. specialize (Hb s ltac:(lia)). lia.
    + rewrite HA. split.
      * intros [?|(s & ? & ? & ?)]; [by left|right]. exists s. split_and!; try lia; [done|]. by rewrite Hnth, decide_False by lia.
      * intros [?|(s & Hs & Ha & Hx)]; [by left|right]. rewrite Hnth in Hx by lia. case_decide; [done|].
        exists s. split_and!; try lia; done.
Qed.

Lemma number_states b :
  bwf b → b_nextState b = 1 → b_transitions b = [] → (∀ x, b_accept b x = true ↔ x = 0) →
  runs (go_for (Z.to_nat n) 0 (fun s '(b, stateMap) =>
    if negb (IsAccept a s) then
      let '(ns, b) := BuilderCreateState b in
      stateMap ← aset stateMap s ns; mret (b, stateMap)
    else
      k ← GetNumTransitions a s;
      if k =? 0 then stateMap ← aset stateMap s 0; mret (b, stateMap)
      else
        let '(ns, b) := BuilderCreateState b in
        stateMap ← aset stateMap s ns;
        b ← BuilderSetAccept ns true b;
        mret (b, stateMap)) (b, repeat 0 (Z.to_nat n))) (fun '(b', m) => counted_in n b' m).
Proof.
  intros Wb N0 T0 A0. pose proof (NumStates_pos _ W) as HN. fold n in HN.
  eapply runs_mono; [apply (runs_for_inv (fun i '(b', m) => counted_in i b' m))|].
  - split_and!; [done|done|by rewrite repeat_length, Z2Nat.id|lia| |].
    + split; intros s; lia.
    + intros x. rewrite A0. split; [by left|]. intros [?|(s & ? & _)]; [done|lia].
  - intros i [b1 m] Hi HC. pose proof HC as (W1 & T1 & L1 & Hn & _ & A1). destruct (IsAccept a i) eqn:Ea; cbn [negb].
    + rewrite GetNumTransitions_spec, go_bind_ret by (done || lia).
      destruct (Z.eqb_spec (Z.of_nat (length (delta a i))) 0) as [E|E].
      * rewrite aset_Ret, go_bind_ret by lia. cbn. apply counted_dead; [lia| |done]. split; [done|]. by destruct (delta a i).
      * destruct (BuilderCreateState_spec b1 W1) as (b2 & -> & W2 & N2 & T2 & A2). rewrite aset_Ret, go_bind_ret by lia.
        destruct (BuilderSetAccept_spec (b_nextState b1) true b2 W2) as (b3 & -> & W3 & N3 & T3 & A3); [lia|]. cbn.
        apply (counted_new i b1); [lia| |done|done|lia|congruence|].
        -- intros [_ Hd]. by rewrite Hd in E.
        -- intros x. rewrite A3. case_decide; [done|]. by rewrite A2.
    + destruct (BuilderCreateState_spec b1 W1) as (b2 & -> & W2 & N2 & T2 & A2). rewrite aset_Ret, go_bind_ret by lia. cbn.
      apply (counted_new i b1); [lia| |done|done|done|congruence|].
      * intros [Hd _]. congruence.
      * intros x. rewrite A2. case_decide as E; [|done]. destruct (b_accept b1 x) eqn:Ex; [|done].
        apply (bwf_accept _ W1) in Ex. lia.
  - intros [b' m] HC. by rewrite Z.add_0_l, Z2Nat.id in HC.
Qed.

(** ** The language of the result *)

Section Language.
Context (r : Automaton) (nb : Z) (f : Z → Z).
Context (HF : numbering n nb f) (Hn1 : 1 ≤ nb) (Hn : 0 < n).
Context (HA : ∀ x, IsAccept r x = true ↔ x = 0 ∨ ∃ s, 0 ≤ s < n ∧ IsAccept a s = true ∧ x = f s).
Context (HE : ∀ x c y, 0 ≤ x → edge r x c y ↔
  (∃ s d, 0 ≤ s < n ∧ x = f s ∧ y = f d ∧ edge a s c d) ∨
  (x = 0 ∨ ∃ s, 0 ≤ s < n ∧ IsAccept a s = true ∧ f s ≠ 0 ∧ x = f s) ∧ ∃ d, y = f d ∧ edge a 0 c d).

Let from (s : Z) : words := accepts_from (edge a) (final a) s.
Let acc (x : Z) : words := accepts_from (edge r) (final r) x.

Lemma alive s c d : edge a s c d → ¬ dead_end a s.
Proof using. intros He [_ Hd]. unfold edge in He. rewrite Hd in He. by apply leads_nil in He. Qed.

Lemma not_zero s : 0 ≤ s < n → ¬ dead_end a s → f s ≠ 0.
Proof using HF. intros Hs Hd. pose proof (nu_range _ _ _ HF s Hs Hd). lia. Qed.

Lemma edge_initial c y : edge r 0 c y ↔ ∃ d, y = f d ∧ edge a 0 c d.
Proof using HF HE.
  rewrite HE by done. split; [|by right; split; [left|]]. intros [(s & d & Hs & E & -> & He)|[_ ?]]; [|done].
  by apply not_zero in Hs; [|by eapply alive].
Qed.

Lemma edge_other s c y : 0 ≤ s < n → ¬ dead_end a s →
  edge r (f s) c y ↔ ∃ d, y = f d ∧ (edge a s c d ∨ IsAccept a s = true ∧ edge a 0 c d).
Proof using HF HE Hn1.
  intros Hs Hd. pose proof (nu_range _ _ _ HF s Hs Hd) as Hr. rewrite HE by lia. split.
  - intros [(s' & d & Hs' & E & -> & He)|[[?|(s' & Hs' & Ha & Hz & E)] (d & -> & He)]]; [|lia|].
    + exists d. split; [done|]. left. by rewrite (nu_inj _ _ _ HF s s' Hs Hs' Hd (alive _ _ _ He) E).
    + exists d. split; [done|]. right. split; [|done].
      rewrite (nu_inj _ _ _ HF s s' Hs Hs' Hd); [done| |done]. intros Hd'. by apply Hz, (nu_dead _ _ _ HF).
  - intros (d & -> & [He|[Ha He]]); [left; eauto 6|right]. split; [right|eauto]. exists s. split_and!; try done; lia.
Qed.

Lemma accept_other s : 0 ≤ s < n → ¬ dead_end a s → IsAccept r (f s) = true ↔ IsAccept a s = true.
Proof using HF HA.
  intros Hs Hd. rewrite HA. split; [|by right; exists s].
  intros [E|(s' & Hs' & Ha & E)]; [by apply not_zero in E|]. destruct (decide (dead_end a s')) as [Hd'|Hd'].
  - rewrite (nu_dead _ _ _ HF s' Hs' Hd') in E. by apply not_zero in E.
  - by rewrite (nu_inj _ _ _ HF s s' Hs Hs' Hd Hd' E).
Qed.

(** The words from the new initial state, and those from the numbers of the states. *)
Lemma repeat_accepts w :
  (acc 0 w ↔ star (language a) w) ∧ ∀ s, 0 ≤ s < n → acc (f s) w ↔ cat (from s) (star (language a)) w.
Proof using All.
  induction w as [|c w IH].
  - assert (Hstar : star (language a) [] ↔ True) by (split; [done|constructor]). unfold acc, from. split.
    + rewrite accepts_nil, Hstar. split; [done|]. intros _. apply HA. by left.
    + intros s Hs. rewrite cat_nil, Hstar, !accepts_nil. unfold final. destruct (decide (dead_end a s)) as [Hd|Hd].
      * rewrite (nu_dead _ _ _ HF s Hs Hd), HA. destruct Hd as [-> _]. tauto.
      * rewrite accept_other by done. tauto.
  - destruct IH as [_ IH].
    assert (Hdest : ∀ s d, 0 ≤ s → edge a s c d → 0 ≤ d < n) by (intros s d Hs He; by apply edge_dest in He as (_ & ? & _)).
    assert (H0 : (∃ d, edge a 0 c d ∧ acc (f d) w) ↔ star (language a) (c :: w)).
    { rewrite star_cons. unfold language, accepts. setoid_rewrite accepts_cons. split.
      - intros (d & He & Hw). apply (IH d (Hdest 0 d ltac:(lia) He)) in Hw as (u & v & -> & Hu & Hv). exists u, v. eauto.
      - intros (u & v & -> & (d & He & Hu) & Hv). exists d. split; [done|]. apply (IH d (Hdest 0 d ltac:(lia) He)). by exists u, v. }
    split.
    + rewrite <- H0. unfold acc at 1. rewrite accepts_cons. setoid_rewrite edge_initial. naive_solver.
    + intros s Hs. unfold from. rewrite cat_cons, accepts_nil, <- H0. setoid_rewrite accepts_cons. unfold acc at 1, final.
      rewrite accepts_cons. destruct (decide (dead_end a s)) as [Hd|Hd].
      * rewrite (nu_dead _ _ _ HF s Hs Hd). setoid_rewrite edge_initial. pose proof Hd as [-> _]. split.
        -- intros (y & (d & -> & He) & Hw). right. eauto.
        -- intros [(u & v & -> & (d & He & _) & _)|[_ (d & He & Hw)]]; [by apply alive in He|eauto].
      * setoid_rewrite edge_other; [|done|done]. split.
        -- intros (y & (d & -> & [He|[Ha He]]) & Hw); [left|right; eauto].
           apply (IH d (Hdest s d ltac:(lia) He)) in Hw as (u & v & -> & Hu & Hv). exists u, v. eauto.
        -- intros [(u & v & -> & (d & He & Hu) & Hv)|[Ha (d & He & Hw)]]; [|exists (f d); eauto 6].
           exists (f d). split; [eauto|]. apply (IH d (Hdest s d ltac:(lia) He)). by exists u, v.
Qed.
End Language.
End Repeat.

(** ** When only the initial state accepts *)

Lemma AcceptCardinality_count a :
  wf a → AcceptCardinality a = count (bit (isAccept a)) 0 (64 * Z.of_nat (length (isAccept a))).
Proof.
  intros W. rewrite <- sum_popcounts_spec by apply W. unfold AcceptCardinality, sum_popcounts. pose proof (wf_words _ W) as HW.
  generalize 0. induction HW as [|w ws Hw _ IH]; intros x; cbn [foldl]; [done|]. rewrite IH, popcount_spec by done. done.
Qed.

Lemma count_nonneg P x y : 0 ≤ count P x y.
Proof. unfold count. lia. Qed.

Lemma only_initial a s :
  wf a → IsAccept a 0 = true → AcceptCardinality a = 1 → IsAccept a s = true → s = 0.
Proof.
  intros W H0 HC Hs. rewrite AcceptCardinality_count in HC by done. rewrite IsAccept_bit in H0, Hs by apply W.
  apply andb_true_iff in H0 as [_ H0], Hs as [Hs0%Z.leb_le Hs].
  assert (Hlt : ∀ i, 0 ≤ i → bit (isAccept a) i = true → i < 64 * Z.of_nat (length (isAccept a))).
  { intros i Hi Hb. apply Z.nle_gt. intros Hle. unfold bit, nthZ in Hb. rewrite lookup_ge_None_2 in Hb by idx.
    by rewrite Z.testbit_0_l in Hb. }
  specialize (Hlt s Hs0 Hs) as Hsl. destruct (Z.eq_dec s 0) as [|Hne]; [done|].
  rewrite count_cons, (count_split _ (0 + 1) s), (count_cons _ s), H0, Hs in HC by lia. change (0 + 1) with 1 in HC. cbn [Z.b2z] in HC.
  pose proof (count_nonneg (bit (isAccept a)) 1 s).
  pose proof (count_nonneg (bit (isAccept a)) (s + 1) (64 * Z.of_nat (length (isAccept a)))). lia.
Qed.

Lemma star_initial a w :
  wf a → IsAccept a 0 = true → AcceptCardinality a = 1 → star (language a) w ↔ language a w.
Proof.
  intros W H0 HC. split; [|intros H; rewrite <- (app_nil_r w); constructor; [done|constructor]].
  induction 1 as [|u v (m & Hu & Hm) _ (m' & Hv & Hm')]; [by apply accepts_nil|].
  apply (only_initial a m W H0 HC) in Hm as ->. exists m'. split; [|done]. apply path_app. by exists 0.
Qed.

(** The transitions of the result. *)
Lemma repeat_edges a b m (k : Builder → AM Automaton) Q :
  good a → 0 < NumStates a → counted_in a (NumStates a) b m →
  (∀ b', b_adds (fun x c y =>
      (∃ s d, 0 ≤ s < NumStates a ∧ x = nthZ 0 m s ∧ y = nthZ 0 m d ∧ edge a s c d) ∨
      (x = 0 ∨ ∃ s, 0 ≤ s < NumStates a ∧ IsAccept a s = true ∧ nthZ 0 m s ≠ 0 ∧ x = nthZ 0 m s) ∧
        ∃ d, y = nthZ 0 m d ∧ edge a 0 c d) b b' → runs (k b') Q) →
  runs (b ← go_for (Z.to_nat (NumStates a)) 0 (fun s b =>
          src ← aget m s;
          each_transition a s (fun t b => d ← aget m (Dest t); mret (BuilderAddTransition src d (Min t) (Max t) b)) b) b;
        b ← each_transition a 0 (fun t b => d ← aget m (Dest t); mret (BuilderAddTransition 0 d (Min t) (Max t) b)) b;
        b ← go_for (Z.to_nat (NumStates a)) 0 (fun s b =>
          x ← aget m s;
          if IsAccept a s && negb (x =? 0) then
            each_transition a 0 (fun t b => d ← aget m (Dest t); mret (BuilderAddTransition x d (Min t) (Max t) b)) b
          else mret b) b;
        k b) Q.
Proof.
  intros G Hn (Wb & _ & L & H1 & HF & _) Hk. pose proof (good_wf _ G) as W.
  assert (Hm : ∀ s, 0 ≤ s < NumStates a → 0 ≤ nthZ 0 m s < b_nextState b) by (intros s Hs; by apply (nu_bound a (NumStates a))).
  eapply runs_step.
  { apply (b_adds_for _ (fun s x c y => x = nthZ 0 m s ∧ ∃ d, y = nthZ 0 m d ∧ edge a s c d)); [done|]. intros s b1 Hs W1 N1.
    rewrite (nthZ_aget 0), go_bind_ret by lia.
    apply add_renamed; rewrite ?N1; [done|lia|done|apply Hm; lia|done|done]. }
  intros b1 B1. pose proof (ba_states _ _ _ B1) as N1.
  eapply runs_step; [apply add_renamed; rewrite ?N1; [done|lia|apply B1|lia|done|done]|]. intros b2 B2.
  pose proof (ba_states _ _ _ B2) as N2.
  eapply runs_step.
  { apply (b_adds_for _ (fun s x c y => IsAccept a s = true ∧ nthZ 0 m s ≠ 0 ∧ x = nthZ 0 m s ∧ ∃ d, y = nthZ 0 m d ∧ edge a 0 c d));
      [apply B2|]. intros s b3 Hs W3 N3. rewrite (nthZ_aget 0), go_bind_ret by lia.
    destruct (IsAccept a s) eqn:Ea; cbn [andb].
    - destruct (Z.eqb_spec (nthZ 0 m s) 0) as [E|E]; cbn [negb].
      + eapply b_adds_iff; [|by apply b_adds_refl]. naive_solver.
      + eapply runs_mono; [apply add_renamed; rewrite ?N3, ?N2, ?N1; [done|lia|done|apply Hm; lia|done|done]|]. intros b4 B4.
        eapply b_adds_iff; [|exact B4]. naive_solver.
    - eapply b_adds_iff; [|by apply b_adds_refl]. naive_solver. }
  intros b3 B3. apply Hk. eapply b_adds_iff; [|exact (b_adds_trans _ _ _ _ _ (b_adds_trans _ _ _ _ _ B1 B2) B3)].
  rewrite Z2Nat.id by lia. naive_solver.
Qed.

Definition repeats (a a' : Automaton) : Prop :=
  good a' ∧ (0 < NumStates a → ∀ w, language a' w ↔ star (language a) w) ∧ (NumStates a = 0 → NumStates a' = 0).

Lemma Repeat_spec a : good a → runs (Repeat a) (repeats a).
Proof.
  intros G. pose proof (good_wf _ G) as W. pose proof (NumStates_pos _ W) as HN. unfold Repeat.
  destruct (Z.eqb_spec (NumStates a) 0) as [E|E]; [split_and!; [done|lia|done]|].
  destruct (IsAccept a 0 && (AcceptCardinality a =? 1)) eqn:Ei.
  { apply andb_true_iff in Ei as [Ea Ec%Z.eqb_eq]. split_and!; [done| |done]. intros _ w. symmetry. by apply star_initial. }
  destruct (BuilderCreateState_spec NewBuilder NewBuilder_bwf) as (b0 & -> & W0 & N0 & T0 & A0).
  cbn in N0. destruct (BuilderSetAccept_spec 0 true b0 W0 ltac:(lia)) as (b1 & -> & W1 & N1 & T1 & A1).
  rewrite go_bind_ret. eapply runs_step; [apply number_states; [done|done|lia|by rewrite T1, T0|]|].
  { intros x. rewrite A1. case_decide; [done|]. rewrite A0. unfold b_accept, bit, nthZ. cbn.
    split; [|done]. rewrite Z.testbit_0_l, andb_false_r. done. }
  intros [b2 m] HC. apply (repeat_edges a b2 m); [done|lia|done|]. destruct HC as (W2 & T2 & L2 & H2 & HF & HA).
  intros b3 B3. eapply runs_step; [apply Finish_spec, B3|]. intros r (Gr & Nr & Ar & Er).
  eapply runs_mono; [by apply RemoveDeadStates_spec|]. intros r' Hr'. split_and!; [apply Hr'| |lia]. intros _ w.
  rewrite (tm_language _ _ Hr').
  apply (repeat_accepts a G r (b_nextState b2) (nthZ 0 m) HF ltac:(lia) ltac:(lia)).
  - intros x. rewrite Ar, (ba_accept _ _ _ B3). apply HA.
  - intros x c y Hx. rewrite Er, (ba_edge _ _ _ B3) by done. unfold b_edge at 1. rewrite T2.
    split; [|by right]. by intros [(? & ? & ?%elem_of_nil & _)|?].
Qed.

(** C29. [Repeat] ends; its result accepts the words of the automaton, any number of times.
    An automaton without states is returned as it is, and accepts nothing, not even the
    empty word. *)
Theorem Repeat_correct a :
  good a →
  runs (Repeat a) (fun a' => good a' ∧ ∀ w,
    language a' w ↔ if decide (NumStates a = 0) then False else star (language a) w).
Proof.
  intros G. eapply runs_mono; [by apply Repeat_spec|]. intros a' (G' & H1 & H2). split; [done|]. intros w.
  pose proof (NumStates_pos _ (good_wf _ G)). case_decide as E; [|apply H1; lia].
  split; [|done]. apply language_no_states; [apply G'|auto].
Qed.

Lemma RepeatN_spec a n :
  good a → 0 < NumStates a ∨ 0 < n →
  (n < -1 → RepeatN a n = Panic) ∧
  (-1 ≤ n → runs (RepeatN a n) (fun a' => good a' ∧ ∀ w, language a' w ↔ ∃ m, n ≤ Z.of_nat m ∧ power m (language a) w)).
Proof.
  intros G Hpos. pose proof (good_wf _ G) as W. pose proof (NumStates_pos _ W) as HN. unfold RepeatN.
  destruct (Z.eqb_spec n 0) as [->|Hne].
  - split; [done|]. intros _. eapply runs_mono; [by apply Repeat_spec|]. intros a' (G' & H1 & _). split; [done|]. intros w.
    rewrite H1, star_power by lia. split; [intros (m & ?); exists m; split; [lia|done]|intros (m & _ & ?); by exists m].
  - destruct (Z.ltb_spec (n + 1) 0); (split; [intros Hn; (done || lia)|intros Hn; try lia]).
    eapply runs_step; [by apply Repeat_spec|]. intros r (Gr & H1 & H2).
    eapply runs_mono; [apply Concatenate_spec|].
    { apply Forall_app_2; [|by apply Forall_cons_2; [|constructor]]. apply Forall_forall. by intros x ->%list_elem_of_In%repeat_spec. }
    intros a' [G' HL]. split; [done|]. intros w.
    assert (Hnn : repeat a (Z.to_nat n) ++ [r] ≠ []) by (by destruct (repeat a (Z.to_nat n))).
    assert (Hmap : map language (repeat a (Z.to_nat n) ++ [r]) = repeat (language a) (Z.to_nat n) ++ [language r]).
    { rewrite map_app, map_repeat. done. }
    rewrite HL, Hmap, cats_app.
    assert (Hr : ∀ v, cats [language r] v ↔ language r v).
    { intros v. cbn. split; [intros (u1 & u2 & -> & Hu & ->); by rewrite app_nil_r|]. intros Hv. exists v, []. by rewrite app_nil_r. }
    rewrite (cat_ext _ (power (Z.to_nat n) (language a)) _ (language r)) by (done || intros; apply cats_repeat).
    split.
    + intros [_ (u & v & -> & Hu & Hv)]. destruct (decide (NumStates a = 0)) as [E|E].
      { apply language_no_states in Hv; [done|apply Gr|auto]. }
      apply H1 in Hv; [|lia]. apply star_power in Hv as (m & Hm). exists (Z.to_nat n + m)%nat. split; [lia|].
      apply power_add. by exists u, v.
    + intros (m & Hm & Hp). split; [done|].
      replace m with (Z.to_nat n + (m - Z.to_nat n))%nat in Hp by lia. apply power_add in Hp as (u & v & -> & Hu & Hv).
      exists u, v. split_and!; try done. destruct (decide (NumStates a = 0)) as [E|E].
      * destruct (Z.to_nat n) as [|k] eqn:Ek; [lia|]. destruct Hu as (x & y & _ & Hx & _).
        by apply language_no_states in Hx.
      * apply H1; [lia|]. apply star_power. eauto.
Qed.

(** [RepeatN a n] ends, and its result accepts [n] words of the automaton or more; for
    [n] below [-1] it panics, and for [-1] it is [Repeat]. *)
Theorem RepeatN_correct a n :
  good a → 0 < NumStates a ∨ 0 < n →
  (n < -1 → RepeatN a n = Panic) ∧
  (-1 ≤ n → runs (RepeatN a n) (fun a' => good a' ∧ ∀ w, language a' w ↔ ∃ m, n ≤ Z.of_nat m ∧ power m (language a) w)).
Proof. exact (RepeatN_spec a n). Qed.

Lemma Repeat_correct_witness :
  runs (Repeat b_cb) (fun a' => good a' ∧ ∀ w,
    language a' w ↔ if decide (NumStates b_cb = 0) then False else star (language b_cb) w) ∧
  Repeat NewAutomaton = Ret NewAutomaton.
Proof. split; [apply Repeat_correct, b_cb_good|vm_compute; reflexivity]. Defined.

Lemma RepeatN_correct_witness :
  RepeatN b_cb (-2) = Panic ∧
  runs (RepeatN b_cb 3) (fun a' => good a' ∧ ∀ w, language a' w ↔ ∃ m, 3 ≤ Z.of_nat m ∧ power m (language b_cb) w).
Proof.
  pose proof (RepeatN_correct b_cb) as H. split.
  - apply (H (-2)); [apply b_cb_good|left; vm_compute; reflexivity|lia].
  - apply (H 3); [apply b_cb_good|right; lia|lia].
Defined.
