(* ===== verification/Bounded.v ===== *)
(** [RepeatRange] of [util/automaton/operations.go]: bounded repetition. *)

From stdpp Require Import base tactics numbers list sorting.
From Stdlib Require Import ZArith Lia.
From S2P Require Import Prelude WordBits Nfa Automaton Builder Rows Liveness RegularOps Concat Repetition.

Local Open Scope Z_scope.

Lemma elem_of_acceptSet a off x :
  x ∈ acceptSet a off ↔ ∃ s, 0 ≤ s < NumStates a ∧ IsAccept a s = true ∧ x = off + s.
Proof.
  unfold acceptSet.
  assert (H : ∀ l out, x ∈ fold_left (fun out s => if IsAccept a s then out ++ [off + s] else out) l out ↔
    x ∈ out ∨ ∃ s, s ∈ l ∧ IsAccept a s = true ∧ x = off + s).
  { intros l. induction l as [|s l IH]; intros out; cbn [fold_left].
    - split; [by left|]. by intros [?|(? & ?%elem_of_nil & _)].
    - rewrite IH. setoid_rewrite elem_of_cons. destruct (IsAccept a s) eqn:Es.
      + rewrite elem_of_app, list_elem_of_singleton. split.
        * intros [[?| ->]|(s' & ? & ? & ?)]; eauto 6.
        * intros [?|(s' & [->|?] & ? & ?)]; eauto 6.
      + split; [intros [?|(s' & ? & ? & ?)]; eauto 6|]. intros [?|(s' & [->|?] & ? & ?)]; [eauto|congruence|eauto 6]. }
  rewrite H, elem_of_nil. setoid_rewrite elem_of_seqZ. split.
  - intros [?|(s & ? & ? & ?)]; [done|]. exists s. split; [lia|done].
  - intros (s & ? & ? & ?). right. exists s. split; [lia|done].
Qed.

(** The accept states [l] get the transitions of [target], which comes after them. *)
Lemma link_states l target b :
  bwf b → (∀ s, s ∈ l → 0 ≤ s < target ∧ s < b_nextState b ∧ b_accept b s = true) → 0 ≤ target →
  runs (foldM (fun s b => BuilderAddEpsilon s target b) l b)
    (b_adds (fun s c e => s ∈ l ∧ b_edge b target c e) b).
Proof.
  intros W Hl Ht. apply (foldM_inv (fun k b' => b_adds (fun s c e => s ∈ k ∧ b_edge b target c e) b b')).
  - eapply b_adds_iff; [|by apply b_adds_refl]. intros s c e. split; [done|]. by intros [?%elem_of_nil _].
  - intros k s b1 [l' ->] B1. destruct (Hl s) as (Hs & Hn & Ha); [apply elem_of_app; left; apply elem_of_app; right; left|].
    pose proof (ba_states _ _ _ B1) as N1.
    destruct (BuilderAddEpsilon_spec s target b1 (ba_wf _ _ _ B1) ltac:(lia) Ht) as (b2 & -> & W2 & N2 & A2 & E2).
    assert (Hk : ¬ target ∈ k).
    { intros Hin. destruct (Hl target) as (? & _); [apply elem_of_app; left; apply elem_of_app; by left|lia]. }
    cbn. assert (B2 : b_adds (fun y c e => y = s ∧ b_edge b target c e) b1 b2).
    { split; [done|done| |].
      - intros y. rewrite A2. case_bool_decide as E; [|by rewrite orb_false_r]. subst y.
        by rewrite (ba_accept _ _ _ B1 s), Ha.
      - intros y c e. rewrite E2, (ba_edge _ _ _ B1 target). tauto. }
    eapply b_adds_iff; [|exact (b_adds_trans _ _ _ _ _ B1 B2)]. intros y c e.
    rewrite elem_of_app, list_elem_of_singleton. tauto.
Qed.

Section Range.
Context (a head : Automaton) (G : good a) (GH : good head).

Let n := NumStates a.
Let H := NumStates head.
Let L := language a.

(** The [i]-th automaton in the row, and where it begins. *)
Definition blk (i : Z) : Automaton := if i =? 0 then head else a.
Definition off (i : Z) : Z := if i =? 0 then 0 else H + (i - 1) * n.

Lemma blk_good i : good (blk i).
Proof using G GH. unfold blk. by destruct (_ =? _). Qed.

Lemma off_step i : 0 ≤ i → off (i + 1) = off i + NumStates (blk i).
Proof.
  intros Hi. unfold off, blk. rewrite (proj2 (Z.eqb_neq (i + 1) 0)) by lia.
  destruct (Z.eqb_spec i 0) as [->|]; fold H n; lia.
Qed.

Lemma sizes_pos : 0 ≤ n ∧ 0 ≤ H.
Proof using G GH. split; apply NumStates_pos, good_wf; done. Qed.

Lemma off_pos i : 0 ≤ i → 0 ≤ off i.
Proof using G GH. intros Hi. unfold off. destruct sizes_pos. destruct (Z.eqb_spec i 0); [lia|nia]. Qed.

Lemma off_mono i j : 0 ≤ i < j → off i + NumStates (blk i) ≤ off j.
Proof using G GH.
  intros Hij. rewrite <- off_step by lia. unfold off. destruct sizes_pos.
  rewrite (proj2 (Z.eqb_neq (i + 1) 0)), (proj2 (Z.eqb_neq j 0)) by lia. nia.
Qed.

(** The row of automata [0] to [j]. *)
Record in_row (j : Z) (b : Builder) : Prop := {
  ir_wf : bwf b;
  ir_states : b_nextState b = off (j + 1);
  ir_accept : ∀ i s, 0 ≤ i ≤ j → 0 ≤ s < NumStates (blk i) → b_accept b (off i + s) = IsAccept (blk i) s;
  ir_edge : ∀ i s c y, 0 ≤ i ≤ j → 0 ≤ s < NumStates (blk i) → b_edge b (off i + s) c y ↔
    (∃ d, y = off i + d ∧ edge (blk i) s c d) ∨
    IsAccept (blk i) s = true ∧ i < j ∧ ∃ d, y = off (i + 1) + d ∧ edge a 0 c d
}.

Lemma row_start b : bcopies NewBuilder head b → in_row 0 b.
Proof using GH.
  intros [W N A E]. cbn in N, A. split; [done|by rewrite off_step by done| |].
  - intros i s Hi Hs. assert (i = 0) as -> by lia. unfold off, blk in *. cbn in *. rewrite A, (proj2 (Z.ltb_ge _ _)) by lia. f_equal. lia.
  - intros i s c y Hi Hs. assert (i = 0) as -> by lia. unfold off, blk in *. cbn in Hs |- *. rewrite E. cbn.
    rewrite !Z.sub_0_r. split.
    + intros [(? & ? & ?%elem_of_nil & _)|[_ ?]]; [done|]. left. by exists y.
    + intros [(d & -> & ?)|(_ & ? & _)]; [|lia]. right. split; [lia|done].
Qed.

Lemma row_step j b b1 b2 :
  0 ≤ j → in_row j b → bcopies b a b1 →
  b_adds (fun s c e => s ∈ acceptSet (blk j) (off j) ∧ b_edge b1 (off (j + 1)) c e) b1 b2 → in_row (j + 1) b2.
Proof using G GH.
  intros Hj [W N A E] [W1 N1 A1 E1] [W2 N2 A2 E2]. rewrite N in *. pose proof (off_pos (j + 1) ltac:(lia)) as Hp.
  assert (Hb : blk (j + 1) = a) by (unfold blk; by rewrite (proj2 (Z.eqb_neq (j + 1) 0)) by lia).
  assert (Hnew : ∀ c e, b_edge b1 (off (j + 1)) c e ↔ ∃ d, e = off (j + 1) + d ∧ edge a 0 c d).
  { intros c e. rewrite E1, Z.sub_diag. split.
    - intros [He|[_ He]]; [apply b_edge_dest in He; [lia|done]|]. exists (e - off (j + 1)). split; [lia|done].
    - intros (d & -> & He). right. split; [lia|]. by replace (off (j + 1) + d - off (j + 1)) with d by lia. }
  assert (Hold : ∀ i s, 0 ≤ i ≤ j → 0 ≤ s < NumStates (blk i) → 0 ≤ off i + s < off (j + 1)).
  { intros i s Hi Hs. pose proof (off_pos i ltac:(lia)). pose proof (off_mono i (j + 1) ltac:(lia)). lia. }
  split; [done|by rewrite N2, N1, (off_step (j + 1)), Hb by lia| |].
  - intros i s Hi Hs. rewrite A2, A1. destruct (decide (i = j + 1)) as [->|].
    + rewrite (proj2 (Z.ltb_ge _ _)), Hb by lia. f_equal. lia.
    + pose proof (Hold i s ltac:(lia) Hs). rewrite (proj2 (Z.ltb_lt _ _)) by lia. apply A; [lia|done].
  - intros i s c y Hi Hs. rewrite E2, E1, elem_of_acceptSet. destruct (decide (i = j + 1)) as [->|].
    + rewrite Hb in *. replace (off (j + 1) + s - off (j + 1)) with s by lia. split.
      * intros [[He|[_ He]]|[(s' & Hs' & _ & Es) _]].
        -- apply b_edge_dest in He; [lia|done].
        -- left. exists (y - off (j + 1)). split; [lia|done].
        -- pose proof (Hold j s' ltac:(lia) Hs'). lia.
      * intros [(d & -> & He)|(_ & ? & _)]; [|lia]. left. right. split; [lia|].
        by replace (off (j + 1) + d - off (j + 1)) with d by lia.
    + pose proof (Hold i s ltac:(lia) Hs) as Hlt. rewrite E by (done || lia). rewrite Hnew. split.
      * intros [[[?|(? & ? & ?)]|[? _]]|[(s' & Hs' & Ha & Es) He]]; [by left|right; split_and!; [done|lia|done]|lia|].
        destruct (decide (i = j)) as [->|Hne].
        -- right. replace s with s' by lia. split_and!; [done|lia|done].
        -- pose proof (off_mono i j ltac:(lia)). lia.
      * intros [?|(Ha & Hij & He)]; [by left; left; left|]. destruct (decide (i = j)) as [->|Hne].
        -- right. split; [by exists s|done].
        -- left. left. right. split_and!; [done|lia|done].
Qed.

Lemma row_loop k b :
  0 ≤ k → ∀ lo, bcopies NewBuilder head b →
  runs (go_for (Z.to_nat k) lo (fun _ '(b, prevAccept) =>
    let numStates := GetNumStates b in
    b ← BuilderCopy a b;
    b ← foldM (fun s b => BuilderAddEpsilon s numStates b) prevAccept b;
    mret (b, acceptSet a numStates)) (b, acceptSet head 0)) (fun '(b', _) => in_row k b').
Proof using G GH.
  intros Hk lo HB.
  eapply runs_mono; [apply (runs_for_inv (fun i '(b', prev) => in_row (i - lo) b' ∧ prev = acceptSet (blk (i - lo)) (off (i - lo))))|].
  - rewrite Z.sub_diag. split; [by apply row_start|done].
  - intros i [b1 prev] Hi [H1 ->]. set (j := i - lo) in *. pose proof H1 as [W1 N1 A1 E1]. unfold GetNumStates. rewrite N1.
    eapply runs_step; [apply BuilderCopy_spec; [apply G|done]|]. intros b2 B2. pose proof B2 as [W2 N2 A2 E2]. rewrite N1 in *.
    eapply runs_step; [apply link_states; [done| |apply off_pos; lia]|].
    { intros x (s & Hs & Ha & ->)%elem_of_acceptSet. pose proof (off_mono j (j + 1) ltac:(lia)). pose proof (off_pos j ltac:(lia)).
      destruct sizes_pos. split_and!; [lia|lia| |].
      - fold n in N2. lia.
      - rewrite A2, (proj2 (Z.ltb_lt _ _)) by lia. rewrite A1 by (done || lia). done. }
    intros b3 B3. cbn. replace (i + 1 - lo) with (j + 1) by lia. split; [by apply (row_step j b1 b2); [lia|..]|].
    unfold blk. by rewrite (proj2 (Z.eqb_neq (j + 1) 0)) by lia.
  - intros [b' prev] [H' _]. by replace (lo + Z.of_nat (Z.to_nat k) - lo) with k in H' by lia.
Qed.

(** ** The language *)

Lemma row_accepts k r w :
  (∀ i s, 0 ≤ i ≤ k → 0 ≤ s < NumStates (blk i) → IsAccept r (off i + s) = IsAccept (blk i) s) →
  (∀ i s c y, 0 ≤ i ≤ k → 0 ≤ s < NumStates (blk i) → edge r (off i + s) c y ↔
    (∃ d, y = off i + d ∧ edge (blk i) s c d) ∨
    IsAccept (blk i) s = true ∧ i < k ∧ ∃ d, y = off (i + 1) + d ∧ edge a 0 c d) →
  ∀ i s, 0 ≤ i ≤ k → 0 ≤ s < NumStates (blk i) →
  accepts_from (edge r) (final r) (off i + s) w ↔
  cat (accepts_from (edge (blk i)) (final (blk i)) s) (at_most (Z.to_nat (k - i)) L) w.
Proof using G GH.
  intros HA HE. induction w as [|c w IH]; intros i s Hi Hs.
  - rewrite cat_nil, !accepts_nil. unfold final. rewrite HA by done. pose proof (at_most_nil (Z.to_nat (k - i)) L). tauto.
  - rewrite cat_cons, accepts_nil, accepts_cons. setoid_rewrite accepts_cons. setoid_rewrite HE; [|done|done].
    assert (Hdest : ∀ d, edge (blk i) s c d → 0 ≤ d < NumStates (blk i)).
    { intros d He. apply edge_dest in He as (_ & ? & _); [done|apply blk_good|lia]. }
    assert (H2 : i < k ∧ (∃ d, edge a 0 c d ∧ accepts_from (edge r) (final r) (off (i + 1) + d) w) ↔ at_most (Z.to_nat (k - i)) L (c :: w)).
    { destruct (decide (i < k)) as [Hik|Hik].
      - replace (Z.to_nat (k - i)) with (S (Z.to_nat (k - (i + 1)))) by lia. rewrite at_most_cons.
        assert (Hb : blk (i + 1) = a) by (unfold blk; by rewrite (proj2 (Z.eqb_neq (i + 1) 0)) by lia).
        pose proof (IH (i + 1)) as IH1. rewrite Hb in IH1. unfold L, language, accepts. setoid_rewrite accepts_cons.
        assert (Hda : ∀ d, edge a 0 c d → 0 ≤ d < NumStates a) by (intros d He; by apply edge_dest in He as (_ & ? & _); [|apply G|]).
        split.
        + intros (_ & d & He & Hw). apply (IH1 d) in Hw as (u & v & -> & Hu & Hv); [|lia|by apply Hda]. exists u, v. eauto.
        + intros (u & v & -> & (d & He & Hu) & Hv). split; [done|]. exists d. split; [done|].
          apply (IH1 d); [lia|by apply Hda|]. by exists u, v.
      - replace (Z.to_nat (k - i)) with 0%nat by lia. rewrite at_most_zero. split; [by intros [? _]|done]. }
    rewrite <- H2. unfold final. split.
    + intros (y & [(d & -> & He)|(Ha & Hik & d & -> & He)] & Hw); [left|right; eauto 6].
      apply (IH i d Hi (Hdest d He)) in Hw as (u & v & -> & Hu & Hv). exists u, v. eauto.
    + intros [(u & v & -> & (d & He & Hu) & Hv)|(Ha & Hik & d & He & Hw)].
      * exists (off i + d). split; [left; eauto|]. apply (IH i d Hi (Hdest d He)). by exists u, v.
      * exists (off (i + 1) + d). split; [right; eauto|done].
Qed.
End Range.

(** * [RepeatRange] *)

Lemma power_inhabited L u m : L u → ∃ w, power m L w.
Proof. intros Hu. induction m as [|m (w & IH)]; [by exists []|]. exists (u ++ w), u, w. done. Qed.

Lemma power_range (L : words) min k w :
  cat (power min L) (at_most k L) w ↔ ∃ m, (min ≤ m ≤ min + k)%nat ∧ power m L w.
Proof.
  split.
  - intros (u & v & -> & Hu & m & Hm & Hv). exists (min + m)%nat. split; [lia|]. apply power_add. by exists u, v.
  - intros (m & Hm & Hp). replace m with (min + (m - min))%nat in Hp by lia. apply power_add in Hp as (u & v & -> & Hu & Hv).
    exists u, v. split_and!; try done. exists (m - min)%nat. split; [lia|done].
Qed.

(** The automaton for exactly [min] words. *)
Lemma range_head a min :
  good a → 0 ≤ min →
  runs (if min =? 0 then MakeEmptyString else if min =? 1 then Copy a NewAutomaton else if min <? 0 then Panic
        else Concatenate (repeat a (Z.to_nat min)))
    (fun head => good head ∧ (min = 0 → 0 < NumStates head) ∧ ∀ w, language head w ↔ power (Z.to_nat min) (language a) w).
Proof.
  intros G Hmin. pose proof (New_good 2 2) as [W0 C0].
  destruct (Z.eqb_spec min 0) as [->|H0]; [|destruct (Z.eqb_spec min 1) as [->|H1]].
  - unfold MakeEmptyString. eapply runs_step; [by apply CreateState_spec|]. intros [x R] (W & _ & N & D & A & _ & C & _).
    change (NumStates NewAutomaton) with 0 in N.
    destruct (SetAccept_spec 0 true R W ltac:(lia)) as (R1 & -> & W1 & SB & A1).
    destruct (same_but_accept_view _ _ SB) as (N1 & D1 & _). cbn. split_and!; [split; [done|by rewrite (sb_curState _ _ SB), C]|lia|].
    intros w. unfold language, accepts. destruct w as [|c w].
    + rewrite accepts_nil. unfold final. rewrite A1, decide_True by done. done.
    + rewrite accepts_cons. split; [|done]. intros (d & Hd & _). unfold edge in Hd.
      rewrite D1, D, delta_beyond in Hd by done. by apply leads_nil in Hd.
  - eapply runs_mono; [apply Copy_spec; [done|apply G|done|apply G]|]. intros R HC. split_and!; [split; apply HC|lia|].
    intros w. rewrite (power_add 1 0 (language a) w : power 1 _ w ↔ _). pose proof (copies_embeds _ _ _ HC W0 (good_wf _ G)) as HM.
    pose proof (NumStates_pos _ (good_wf _ G)). pose proof (co_NumStates _ _ _ HC) as N. change (NumStates NewAutomaton) with 0 in *.
    trans (language a w).
    + destruct (decide (NumStates a = 0)) as [E|E].
      * split; intros Hw; exfalso; revert Hw; [apply language_no_states; [apply HC|lia]|apply language_no_states; [apply G|done]].
      * apply (embeds_language R 0 a w 0); [apply G|done|lia].
    + split.
      * intros Hw. exists w, []. split; [by rewrite app_nil_r|]. split; [exists w, []; by rewrite app_nil_r|done].
      * intros (u & v & -> & (u1 & u2 & -> & Hu & ->) & ->). by rewrite !app_nil_r.
  - rewrite (proj2 (Z.ltb_ge min 0)) by lia. eapply runs_mono; [apply Concatenate_spec|].
    { apply Forall_forall. by intros x ->%list_elem_of_In%repeat_spec. }
    intros R [GR HL]. split_and!; [done|lia|]. intros w. rewrite HL, map_repeat, cats_repeat.
    split; [by intros [_ ?]|]. intros Hp. split; [|done]. destruct (Z.to_nat min) eqn:E; [lia|done].
Qed.

Lemma RepeatRange_spec a min max :
  good a → 0 ≤ min →
  runs (RepeatRange a min max) (fun a' => good a' ∧ ∀ w,
    language a' w ↔ ∃ m, min ≤ Z.of_nat m ≤ max ∧ power m (language a) w).
Proof.
  intros G Hmin. unfold RepeatRange. pose proof (New_good 2 2) as [W0 C0]. destruct (Z.ltb_spec max min) as [Hlt|Hge].
  { destruct (FinishState_spec NewAutomaton W0) as (R & -> & W & C & N & _). cbn. split; [by split|]. intros w.
    split; [intros Hw; by apply language_no_states in Hw|intros (m & ? & _); lia]. }
  eapply runs_step; [by apply range_head|]. intros head (GH & Hh0 & HL).
  eapply runs_step; [apply BuilderCopy_spec; [apply GH|apply NewBuilder_bwf]|]. intros b0 B0.
  eapply runs_step; [apply (row_loop a head G GH (max - min) b0); [lia|done]|]. intros [b prev] HR.
  eapply runs_step; [apply Finish_spec, HR|]. intros r (Gr & Nr & Ar & Er).
  eapply runs_mono; [by apply RemoveDeadStates_spec|]. intros r' Hr'. split; [apply Hr'|]. intros w.
  rewrite (tm_language _ _ Hr'). set (L := language a) in *.
  assert (HA : ∀ i s, 0 ≤ i ≤ max - min → 0 ≤ s < NumStates (blk a head i) →
    accepts_from (edge r) (final r) (off a head i + s) w ↔
    cat (accepts_from (edge (blk a head i)) (final (blk a head i)) s) (at_most (Z.to_nat (max - min - i)) L) w).
  { apply (row_accepts a head G GH); [intros; rewrite Ar; by apply HR|]. intros i s c y Hi Hs.
    pose proof (off_pos a head G GH i ltac:(lia)). rewrite Er by lia. by apply HR. }
  trans (cat (language head) (at_most (Z.to_nat (max - min)) L) w).
  - pose proof (NumStates_pos _ (good_wf _ GH)) as HNH. destruct (decide (NumStates head = 0)) as [E|E].
    + assert (Hnone : ∀ w, ¬ language head w) by (intros v; apply language_no_states; [apply GH|done]).
      assert (HLn : ∀ u, ¬ L u) by (intros u Hu; destruct (power_inhabited L u (Z.to_nat min) Hu) as (v & Hv); by apply (Hnone v), HL).
      split; [|intros (u & v & _ & Hu & _); by apply Hnone in Hu]. intros Hw. exfalso.
      destruct (decide (min = max)) as [Em|Em].
      * revert Hw. apply language_no_states; [apply Gr|]. rewrite Nr, (ir_states _ _ _ _ HR). replace (max - min + 1) with 1 by lia.
        unfold off. cbn. lia.
      * destruct (decide (NumStates a = 0)) as [En|En].
        { revert Hw. apply language_no_states; [apply Gr|]. rewrite Nr, (ir_states _ _ _ _ HR). unfold off. rewrite En, E. case_match; lia. }
        pose proof (NumStates_pos _ (good_wf _ G)). specialize (HA 1 0 ltac:(lia)). unfold off, blk in HA. cbn in HA.
        rewrite E in HA. apply HA in Hw as (u & v & _ & Hu & _); [|lia]. by apply (HLn u).
    + specialize (HA 0 0 ltac:(lia)). unfold off, blk in HA. cbn in HA. rewrite Z.sub_0_r in HA. apply HA. lia.
  - rewrite (cat_ext _ (power (Z.to_nat min) L) _ (at_most (Z.to_nat (max - min)) L)) by done. rewrite power_range.
    split; intros (m & ? & ?); exists m; (split; [lia|done]).
Qed.

(** C26. [RepeatRange a min max] ends, and its result accepts from [min] to [max] words of
    the automaton in a row. *)
Theorem RepeatRange_correct a min max :
  good a → 0 ≤ min →
  runs (RepeatRange a min max) (fun a' => good a' ∧ ∀ w,
    language a' w ↔ ∃ m, min ≤ Z.of_nat m ≤ max ∧ power m (language a) w).
Proof. exact (RepeatRange_spec a min max). Qed.

Lemma RepeatRange_correct_witness :
  runs (RepeatRange b_cb 2 4) (fun a' => good a' ∧ ∀ w,
    language a' w ↔ ∃ m, 2 ≤ Z.of_nat m ≤ 4 ∧ power m (language b_cb) w) ∧
  (∃ a', RepeatRange b_cb 2 4 = Ret a' ∧ NumStates a' = 8).
Proof.
  split; [apply RepeatRange_correct; [apply b_cb_good|lia]|].
  eexists. split; vm_compute; reflexivity.
Defined.
