(* ===== verification/Reversal.v ===== *)
(** [Reverse] of [util/automaton/operations.go]. *)

From stdpp Require Import base tactics numbers list sorting.
From Stdlib Require Import ZArith Lia.
From S2P Require Import Prelude WordBits Nfa Automaton Builder Rows Liveness RegularOps Repetition.

Local Open Scope Z_scope.

(** A path read backwards. *)
Lemma path_reverse (E E' : edges) w : ∀ s d,
  (∀ s c d, E' d c s ↔ E s c d) → path E' d (reverse w) s ↔ path E s w d.
Proof.
  induction w as [|c w IH]; intros s d HE; cbn [path].
  - cbn. split; congruence.
  - rewrite reverse_cons, path_app. cbn [path]. split.
    + intros (m & Hp & x & He & <-). apply HE in He. exists m. split; [done|]. by apply IH.
    + intros (m & He & Hp). exists m. split; [by apply IH|]. exists s. split; [by apply HE|done].
Qed.

Lemma create_all_states n b :
  bwf b → runs (go_for n 0 (fun _ b => let '(_, b) := BuilderCreateState b in mret b) b) (fun b' =>
    bwf b' ∧ b_nextState b' = b_nextState b + Z.of_nat n ∧ b_transitions b' = b_transitions b ∧
    ∀ s, b_accept b' s = b_accept b s).
Proof.
  intros W. eapply runs_mono; [apply (runs_for_inv (fun i b' => bwf b' ∧ b_nextState b' = b_nextState b + i ∧
    b_transitions b' = b_transitions b ∧ ∀ s, b_accept b' s = b_accept b s))|].
  - split_and!; try done. lia.
  - intros i b1 _ (W1 & N1 & T1 & A1). destruct (BuilderCreateState_spec b1 W1) as (b2 & -> & W2 & N2 & T2 & A2).
    cbn. split_and!; [done|lia|congruence|]. intros s. by rewrite A2, A1.
  - intros b' H. by rewrite Z.add_0_l in H.
Qed.

(** The transitions of the state [s], turned round. *)
Lemma turn_state a s b :
  wf a → 0 ≤ s < NumStates a → bwf b → b_nextState b = NumStates a + 1 →
  runs (each_transition a s (fun t b => mret (BuilderAddTransition (Dest t + 1) (s + 1) (Min t) (Max t) b)) b)
    (b_adds (fun x c y => y = s + 1 ∧ ∃ d, x = d + 1 ∧ edge a s c d) b).
Proof.
  intros W Hs Wb Nb.
  rewrite (each_transition_fold a s _ (fun t b => mret (BuilderAddTransition (dest_ t + 1) (s + 1) (min_ t) (max_ t) b))) by done.
  apply (foldM_inv (fun k b' => b_adds (fun x c y => y = s + 1 ∧ ∃ d, x = d + 1 ∧ leads k c d) b b')).
  - eapply b_adds_iff; [|by apply b_adds_refl]. intros x c y. split; [done|]. by intros (_ & ? & _ & ?%leads_nil).
  - intros k t b1 [l' El] H1. pose proof (wf_ok _ W s Hs) as HO. rewrite El, Forall_forall in HO.
    destruct (HO t ltac:(apply elem_of_app; left; apply elem_of_app; right; left)) as [Hd Hmm].
    pose proof (ba_states _ _ _ H1) as N1.
    destruct (BuilderAddTransition_spec (dest_ t + 1) (s + 1) (min_ t) (max_ t) b1 (ba_wf _ _ _ H1)) as [W2 E2]; [cbn; lia|].
    cbn. assert (H12 : b_adds (fun x c y => x = dest_ t + 1 ∧ y = s + 1 ∧ covers t c) b1
                         (BuilderAddTransition (dest_ t + 1) (s + 1) (min_ t) (max_ t) b1)) by (by split).
    eapply b_adds_iff; [|exact (b_adds_trans _ _ _ _ _ H1 H12)].
    intros x c y. setoid_rewrite leads_app. setoid_rewrite leads_one. naive_solver.
Qed.

(** The accept states become initial. *)
Lemma join_accepts a R :
  good a → good R → NumStates R = NumStates a + 1 → (∀ c d, ¬ edge R 0 c d) → ¬ started R 0 → IsAccept R 0 = false →
  runs (go_for (Z.to_nat (NumStates a)) 0 (fun s result =>
      if IsAccept a s then AddEpsilon 0 (s + 1) result else mret result) R)
    (fun R' => wf R' ∧ NumStates R' = NumStates R ∧
      (∀ s, 0 < s → IsAccept R' s = IsAccept R s ∧ ∀ c d, edge R' s c d ↔ edge R s c d) ∧
      (∀ c d, edge R' 0 c d ↔ ∃ s, 0 ≤ s < NumStates a ∧ IsAccept a s = true ∧ edge R (s + 1) c d) ∧
      (IsAccept R' 0 = true ↔ ∃ s, 0 ≤ s < NumStates a ∧ IsAccept a s = true ∧ IsAccept R (s + 1) = true)).
Proof.
  intros G GR N H0 Hst Ha0. pose proof (NumStates_pos _ (good_wf _ G)) as HN.
  eapply runs_mono; [apply (runs_for_inv (fun i R' => wf R' ∧ NumStates R' = NumStates R ∧ (curState R' = -1 ∨ curState R' = 0) ∧
      (curState R' = 0 ∨ ¬ started R' 0) ∧
      (∀ s, 0 < s → IsAccept R' s = IsAccept R s ∧ ∀ c d, edge R' s c d ↔ edge R s c d) ∧
      (∀ c d, edge R' 0 c d ↔ ∃ s, 0 ≤ s < i ∧ IsAccept a s = true ∧ edge R (s + 1) c d) ∧
      (IsAccept R' 0 = true ↔ ∃ s, 0 ≤ s < i ∧ IsAccept a s = true ∧ IsAccept R (s + 1) = true)))|].
  - split_and!; [apply GR|done|left; apply GR|by right|done| |].
    + intros c d. split; [by intros ?%H0|]. intros (s & ? & _). lia.
    + rewrite Ha0. split; [done|]. intros (s & ? & _). lia.
  - intros i R1 Hi (W1 & N1 & C1 & S1 & K1 & E1 & A1).
    assert (Hext : ∀ (P : Z → Prop), (∃ s, 0 ≤ s < i + 1 ∧ P s) ↔ (∃ s, 0 ≤ s < i ∧ P s) ∨ P i).
    { intros P. split; [|intros [(s & ? & ?)|?]; [exists s|exists i]; (split; [lia|done])].
      intros (s & ? & ?). destruct (decide (s = i)) as [->|]; [by right|left]. exists s. split; [lia|done]. }
    destruct (IsAccept a i) eqn:Ea.
    + eapply runs_mono; [apply AddEpsilon_spec; (done || lia)|]. intros R2 H2. split_and!.
      * apply H2.
      * rewrite <- N1. apply H2.
      * destruct (ae_curState _ _ _ _ H2) as [->| ->]; auto.
      * destruct (decide (curState R2 = 0)) as [|Hne]; [by left|right]. intros [HS|[_ ?]]%(ae_started _ _ _ _ H2); [|done|done].
        destruct S1 as [S1|S1]; [|done]. destruct (ae_curState _ _ _ _ H2) as [E|E]; congruence.
      * intros s Hs. rewrite (ae_IsAccept _ _ _ _ H2), bool_decide_eq_false_2 by lia. cbn [andb]. rewrite orb_false_r.
        split; [by apply K1|]. intros c d. rewrite (ae_edge _ _ _ _ H2) by lia. destruct (K1 s Hs) as [_ ->].
        split; [intros [?|[? _]]; [done|lia]|by left].
      * intros c d. rewrite (ae_edge _ _ _ _ H2), E1 by done. rewrite Hext.
        destruct (K1 (i + 1) ltac:(lia)) as [_ ->]. tauto.
      * rewrite (ae_IsAccept _ _ _ _ H2), bool_decide_eq_true_2, orb_true_iff, A1 by done. cbn [andb]. rewrite Hext.
        destruct (K1 (i + 1) ltac:(lia)) as [-> _]. tauto.
    + cbn. split_and!; try done.
      * intros c d. rewrite E1, Hext, Ea. naive_solver.
      * rewrite A1, Hext, Ea. naive_solver.
  - intros R' H. rewrite Z.add_0_l, Z2Nat.id in H by done. tauto.
Qed.

(** The language of the automaton with the transitions turned round. *)
Lemma turned a R w :
  wf a → 0 < NumStates a →
  (∀ s, 0 ≤ s < NumStates a → ∀ c y, edge R (s + 1) c y ↔ ∃ d, 0 ≤ d < NumStates a ∧ y = d + 1 ∧ edge a d c s) →
  (∀ s, 0 ≤ s < NumStates a → IsAccept R (s + 1) = bool_decide (s = 0)) →
  (∀ c y, edge R 0 c y ↔ ∃ s, 0 ≤ s < NumStates a ∧ IsAccept a s = true ∧ edge R (s + 1) c y) →
  (IsAccept R 0 = true ↔ ∃ s, 0 ≤ s < NumStates a ∧ IsAccept a s = true ∧ IsAccept R (s + 1) = true) →
  language R w ↔ language a (reverse w).
Proof.
  intros W HN HE HA HE0 HA0.
  assert (Hfrom : ∀ w s, 0 ≤ s < NumStates a → accepts_from (edge R) (final R) (s + 1) w ↔ path (edge a) 0 (reverse w) s).
  { clear w. induction w as [|c w IH]; intros s Hs.
    - rewrite accepts_nil. cbn. unfold final. rewrite HA by done. case_bool_decide; (split; [done || congruence|congruence || done]).
    - rewrite accepts_cons, reverse_cons, path_app. cbn [path]. setoid_rewrite HE; [|done]. split.
      + intros (y & (d & Hd & -> & He) & Hw). exists d. split; [by apply IH|]. by exists s.
      + intros (m & Hp & x & He & ->). assert (Hm : 0 ≤ m < NumStates a).
        { destruct (decide (0 ≤ m)) as [Hm|Hm]; [split; [done|by apply edge_dest in He as (? & _)]|].
          exfalso. assert (∀ u s', 0 ≤ s' → path (edge a) s' u m → 0 ≤ m) as Hpos; [|by apply Hpos in Hp].
          intros u. induction u as [|e u IHu]; intros s' Hs' Hu; [by cbn in Hu; subst|]. destruct Hu as (y & Hy & Hu).
          apply edge_dest in Hy as (_ & ? & _); [|done|done]. apply (IHu y); [lia|done]. }
        exists (m + 1). split; [by exists m|]. by apply IH. }
  assert (Hacc : ∀ w, language R w ↔ ∃ s, 0 ≤ s < NumStates a ∧ IsAccept a s = true ∧ accepts_from (edge R) (final R) (s + 1) w).
  { intros [|c v]; unfold language, accepts.
    - setoid_rewrite accepts_nil. apply HA0.
    - setoid_rewrite accepts_cons. setoid_rewrite HE0. naive_solver. }
  rewrite Hacc. unfold language, accepts, accepts_from at 2. split.
  - intros (s & Hs & Ha & Hw). exists s. split; [by apply Hfrom|done].
  - intros (s & Hp & Ha). assert (Hs : 0 ≤ s < NumStates a).
    { unfold final in Ha. split; [|by apply (wf_accept _ W)]. unfold IsAccept in Ha. destruct (Z.ltb_spec s 0); done. }
    exists s. split_and!; try lia; [done|]. by apply Hfrom.
Qed.

Lemma Reverse_spec a :
  good a → runs (Reverse a) (fun a' => good a' ∧ ∀ w, language a' w ↔ language a (reverse w)).
Proof.
  intros G. pose proof (good_wf _ G) as W. unfold Reverse. destruct (IsEmpty_spec a W) as (e & -> & He). rewrite go_bind_ret.
  destruct e.
  { cbn. split; [apply (New_good 2 2)|]. intros w. pose proof (proj1 He eq_refl (reverse w)).
    split; [intros Hw; by apply language_no_states in Hw; [|apply (New_good 2 2)|]|done]. }
  assert (HN : 0 < NumStates a).
  { pose proof (NumStates_pos _ W). assert (NumStates a ≠ 0); [|lia]. intros E.
    discriminate (proj2 He (fun w => language_no_states a w W E)). }
  destruct (BuilderCreateState_spec NewBuilder NewBuilder_bwf) as (b0 & -> & W0 & N0 & T0 & A0).
  eapply runs_step; [by apply create_all_states|]. intros b1 (W1 & N1 & T1 & A1). cbn in N0.
  destruct (BuilderSetAccept_spec 1 true b1 W1 ltac:(lia)) as (b2 & -> & W2 & N2 & T2 & A2). rewrite go_bind_ret.
  eapply runs_step.
  { apply (b_adds_for _ (fun s x c y => y = s + 1 ∧ ∃ d, x = d + 1 ∧ edge a s c d)); [done|]. intros s b Hs Wb Nb.
    apply turn_state; [done|lia|done|lia]. }
  rewrite Z2Nat.id by lia. intros b3 B3. eapply runs_step; [apply Finish_started, B3|]. intros R ((GR & NR & AR & ER) & SR).
  assert (HE : ∀ x c y, 0 ≤ x → edge R x c y ↔ ∃ s, 0 ≤ s < NumStates a ∧ y = s + 1 ∧ ∃ d, x = d + 1 ∧ edge a s c d).
  { intros x c y Hx. rewrite ER, (ba_edge _ _ _ B3) by done. unfold b_edge. rewrite T2, T1, T0.
    split; [|by right]. by intros [(? & ? & ?%elem_of_nil & _)|?]. }
  assert (HA : ∀ s, IsAccept R s = bool_decide (s = 1)).
  { intros s. rewrite AR, (ba_accept _ _ _ B3), A2. case_decide; case_bool_decide; try done. rewrite A1, A0.
    unfold b_accept, bit, nthZ. cbn. by rewrite Z.testbit_0_l, andb_false_r. }
  assert (H0 : ∀ c d, ¬ edge R 0 c d).
  { intros c y (s & Hs & -> & d & E & Hd)%HE; [|done]. apply edge_dest in Hd as (_ & ? & _); [lia|done|lia]. }
  assert (NR' : NumStates R = NumStates a + 1) by (rewrite NR, (ba_states _ _ _ B3); lia).
  assert (HS0 : ¬ started R 0).
  { intros Hst. destruct (SR 0 ltac:(lia) Hst) as (c & d & Hd). by apply H0 in Hd. }
  eapply runs_step; [apply (join_accepts a R G GR NR' H0 HS0); by rewrite HA|].
  intros R1 (W4 & N4 & K4 & E4 & A4). destruct (FinishState_spec R1 W4) as (R2 & -> & W5 & C5 & N5 & A5 & E5 & _). rewrite go_bind_ret.
  eapply runs_mono; [apply RemoveDeadStates_spec; by split|]. intros a' Ha'. split; [apply Ha'|]. intros w.
  assert (HE2 : ∀ s c d, 0 < s → edge R2 s c d ↔ edge R s c d) by (intros s c d Hs; rewrite E5 by lia; by apply K4).
  assert (HA2 : ∀ s, 0 < s → IsAccept R2 s = IsAccept R s) by (intros s Hs; rewrite A5; by apply K4).
  rewrite (tm_language _ _ Ha'). apply (turned a R2); [done|done|..].
  - intros s Hs c y. rewrite HE2, HE by lia. split.
    + intros (x & Hx & -> & d & E & Hd). exists x. split_and!; try lia. by replace s with d by lia.
    + intros (d & Hd & -> & He'). exists d. split_and!; try lia. by exists s.
  - intros s Hs. rewrite HA2, HA by lia. repeat case_bool_decide; (done || lia).
  - intros c y. rewrite E5, E4 by done. split; intros (s & Hs & Ha & Hy); exists s; (split_and!; [lia|lia|done|]); by apply HE2; [lia|].
  - rewrite A5, A4. split; intros (s & Hs & Ha & Hy); exists s; (split_and!; [lia|lia|done|]); rewrite <- Hy; [|symmetry]; apply HA2; lia.
Qed.

(** [Reverse] ends, and its result accepts the words of the automaton read
    backwards. *)
Theorem Reverse_correct a :
  good a → runs (Reverse a) (fun a' => good a' ∧ ∀ w, language a' w ↔ language a (reverse w)).
Proof. exact (Reverse_spec a). Qed.

Lemma Reverse_correct_witness :
  runs (Reverse b_cb) (fun a' => good a' ∧ ∀ w, language a' w ↔ language b_cb (reverse w)) ∧
  match (x ← Concatenate [just_a; b_cb]; Reverse x) with
  | Ret c => NumStates c = 5 ∧ delta c 0 = [(2, 98, 98); (3, 98, 98)]
  | _ => False
  end.
Proof. split; [apply Reverse_correct, b_cb_good|vm_compute; by split]. Defined.
