(* ===== verification/Makers.v ===== *)
(** The automata for single words, ranges of characters and all words of
    [util/automaton/automata.go], and their languages. *)

From stdpp Require Import base tactics numbers list sorting.
From Stdlib Require Import ZArith Lia.
From S2P Require Import Prelude WordBits Nfa Automaton Rows Liveness BooleanOps RegularOps.

Local Open Scope Z_scope.

(** * Operations *)

Definition MakeAnyString : AM Automaton :=
  '(s, a) ← CreateState NewAutomaton;
  a ← SetAccept s true a;
  a ← AddTransition s s MinCodePoint MaxCodePoint a;
  FinishState a.

Definition MakeAnyBinary : AM Automaton :=
  '(s, a) ← CreateState NewAutomaton;
  a ← SetAccept s true a;
  a ← AddTransition s s 0 255 a;
  FinishState a.

Definition MakeNonEmptyBinary : AM Automaton :=
  '(s1, a) ← CreateState NewAutomaton;
  '(s2, a) ← CreateState a;
  a ← SetAccept s2 true a;
  a ← AddTransition s1 s2 0 255 a;
  a ← AddTransition s2 s2 0 255 a;
  FinishState a.

Definition MakeCharRange (min max : Z) : AM Automaton :=
  if max <? min then MakeEmpty else
  '(s1, a) ← CreateState NewAutomaton;
  '(s2, a) ← CreateState a;
  a ← SetAccept s2 true a;
  a ← AddTransition s1 s2 min max a;
  FinishState a.

Definition MakeAnyChar : AM Automaton := MakeCharRange MinCodePoint MaxCodePoint.

Definition MakeChar (c : Z) : AM Automaton := MakeCharRange c c.

Definition AppendAnyChar (a : Automaton) (state : Z) : AM (Z * Automaton) :=
  '(newState, a) ← CreateState a;
  a ← AddTransition state newState MinCodePoint MaxCodePoint a;
  mret (newState, a).

Definition AppendChar (a : Automaton) (state c : Z) : AM (Z * Automaton) :=
  '(newState, a) ← CreateState a;
  a ← AddTransition state newState c c a;
  mret (newState, a).

Definition MakeCharClass (starts ends : list Z) : AM Automaton :=
  if negb (Z.of_nat (length starts) =? Z.of_nat (length ends)) then Panic else
  if Z.of_nat (length starts) =? 0 then MakeEmpty else
  '(s1, a) ← CreateState NewAutomaton;
  '(s2, a) ← CreateState a;
  a ← SetAccept s2 true a;
  a ← go_for (length starts) 0 (fun i a =>
    lo ← aget starts i; hi ← aget ends i; AddTransition s1 s2 lo hi a) a;
  FinishState a.

Definition MakeCharSet (codepoints : list Z) : AM Automaton := MakeCharClass codepoints codepoints.

(** The loop of [MakeString], [MakeBinary] and [MakeStringFromCodePoints]. *)
Definition append_all (labels : list Z) (last : Z) (a : Automaton) : AM (Z * Automaton) :=
  foldM (fun r '(last, a) =>
    '(state, a) ← CreateState a;
    a ← AddTransition last state r r a;
    mret (state, a)) labels (last, a).

(** [runes] is what [range] yields of the string. *)
Definition MakeString (runes : list Z) : AM Automaton :=
  '(last, a) ← CreateState NewAutomaton;
  '(last, a) ← append_all runes last a;
  a ← SetAccept last true a;
  FinishState a.

(** [None] is the nil pointer. *)
Definition MakeBinary (term : option (list Z)) : AM Automaton :=
  '(last, a) ← CreateState NewAutomaton;
  '(last, a) ← (match term with Some bytes => append_all bytes last a | None => mret (last, a) end);
  a ← SetAccept last true a;
  FinishState a.

Definition MakeStringFromCodePoints (word : list Z) (offset length : Z) : AM Automaton :=
  '(_, a) ← CreateState NewAutomaton;
  '(s, a) ← go_for (Z.to_nat length) offset (fun i '(s, a) =>
    '(s2, a) ← CreateState a;
    c ← aget word i;
    a ← AddTransition s s2 c c a;
    mret (s2, a)) (0, a);
  a ← SetAccept s true a;
  FinishState a.

Example makers_run :
  (x ← MakeString [98; 97; 97]; y ← MakeCharClass [97; 48] [122; 57]; z ← MakeAnyString;
   mret (delta x 0, delta x 2, NumStates x, delta y 0, deterministic y, delta z 0))
  = Ret ([(1, 98, 98)] : list tr, [(3, 97, 97)] : list tr, 4, [(1, 48, 57); (1, 97, 122)] : list tr, true, [(0, 0, 1114111)] : list tr).
Proof. vm_compute. reflexivity. Qed.

(** * Steps of a construction *)

Definition g_create (g : graph) : graph :=
  {| g_states := g_states g + 1; g_accept := g_accept g; g_edges := g_edges g; g_current := g_current g; g_started := g_started g |}.
Definition g_set (s : Z) (g : graph) : graph :=
  {| g_states := g_states g; g_accept := fun i => if decide (i = s) then true else g_accept g i; g_edges := g_edges g;
     g_current := g_current g; g_started := g_started g |}.
Definition g_add (q : Z * Z * Z * Z) (g : graph) : graph :=
  {| g_states := g_states g; g_accept := g_accept g; g_edges := g_edges g ++ [q]; g_current := q.1.1.1;
     g_started := q.1.1.1 :: g_started g |}.

Lemma shows_create g a : shows g a → runs (CreateState a) (fun '(s, a') => s = g_states g ∧ shows (g_create g) a').
Proof.
  intros HS. pose proof (build_op_shows BCreateState g a HS I) as H. cbn in H. unfold runs in *.
  pose proof (CreateState_spec a (sh_wf _ _ HS)) as HC.
  destruct (CreateState a) as [[s a']|[]| |]; cbn in H, HC; try done.
  split; [|exact H]. destruct HC as (_ & -> & _). apply HS.
Qed.

Lemma shows_set s g a : shows g a → 0 ≤ s < g_states g → runs (SetAccept s true a) (shows (g_set s g)).
Proof.
  intros HS Hs. pose proof (build_op_shows (BSetAccept s true) g a HS I) as H. cbn in H.
  by rewrite (proj2 (in_range_spec s (g_states g))) in H.
Qed.

Lemma shows_add s d lo hi g a :
  shows g a → 0 ≤ s < g_states g → 0 ≤ d < g_states g → 0 ≤ lo ≤ hi → s = g_current g ∨ s ∉ g_started g →
  runs (AddTransition s d lo hi a) (shows (g_add (s, d, lo, hi) g)).
Proof.
  intros HS Hs Hd Hl Hst. pose proof (build_op_shows (BAddTransition s d lo hi) g a HS Hl) as H. cbn in H.
  rewrite !(proj2 (in_range_spec _ _)) in H by done. cbn [andb] in H.
  assert (E : (s =? g_current g) || negb (bool_decide (s ∈ g_started g)) = true); [|by rewrite E in H].
  apply orb_true_iff. destruct Hst as [->|Hn]; [left; apply Z.eqb_refl|right]. by rewrite bool_decide_eq_false_2.
Qed.

(** The graph, seen as an automaton. *)
Definition g_language (g : graph) : words := accepts (g_edge g) (fun s => g_accept g s = true).

Definition shown (g : graph) (a : Automaton) : Prop :=
  good a ∧ NumStates a = g_states g ∧ (∀ w, language a w ↔ g_language g w) ∧
  (deterministic a = true ↔ ∀ s c d d', 0 ≤ s < g_states g → g_edge g s c d → g_edge g s c d' → d = d').

Lemma shows_finish g a : shows g a → runs (FinishState a) (shown g).
Proof.
  intros HS. destruct (FinishState_shows g a HS) as (a' & -> & [W H1 H2 H3 H4 _ _]). cbn in *.
  split_and!; [by split|done| |].
  - intros w. apply (accepts_ext (fun s => 0 ≤ s)); [intros; by apply H3| | |done].
    + intros s c d Hs He. by apply edge_dest in He as (_ & ? & _); [lia|..].
    + intros s _. unfold final. by rewrite H2.
  - rewrite (deterministic_iff a' W H4), H1. split.
    + intros HF s c d d' Hs He He'. apply (HF s Hs c); by apply H3; [lia|].
    + intros HF s Hs c d d' He He'. apply (HF s c); [done|by apply H3; [lia|]..].
Qed.

Lemma g_edge_app g q s c d :
  g_edge (g_add q g) s c d ↔ g_edge g s c d ∨ ∃ lo hi, q = (s, d, lo, hi) ∧ lo ≤ c ≤ hi.
Proof.
  unfold g_edge. cbn. setoid_rewrite elem_of_app. setoid_rewrite list_elem_of_singleton. split.
  - intros (lo & hi & [?|E] & ?); [left; eauto|right; exists lo, hi; by split].
  - intros [(lo & hi & ? & ?)|(lo & hi & -> & ?)]; [exists lo, hi; auto|exists lo, hi; auto].
Qed.

Lemma g_edge_nil g s c d : g_edges g = [] → ¬ g_edge g s c d.
Proof. intros E (lo & hi & Hin & _). rewrite E in Hin. by apply elem_of_nil in Hin. Qed.

(** * One character *)

(** Two states, with all transitions from the first to the second, which accepts. *)
Lemma two_states_language g w :
  (∀ s c d, g_edge g s c d → s = 0 ∧ d = 1) → (∀ s, g_accept g s = bool_decide (s = 1)) →
  g_language g w ↔ ∃ c, w = [c] ∧ g_edge g 0 c 1.
Proof.
  intros HE HA. unfold g_language, accepts. destruct w as [|c [|c' w]].
  - rewrite accepts_nil, HA. split; [done|]. by intros (? & ? & _).
  - rewrite accepts_cons. setoid_rewrite accepts_nil. setoid_rewrite HA. split.
    + intros (d & He & Hd%bool_decide_eq_true_1). subst d. by exists c.
    + intros (c' & [= <-] & He). exists 1. split; [done|]. by rewrite bool_decide_eq_true_2.
  - rewrite accepts_cons. setoid_rewrite accepts_cons. split; [|by intros (? & ? & _)].
    intros (d & He & d' & He' & _). destruct (HE _ _ _ He) as [_ ->]. by destruct (HE _ _ _ He') as [? _].
Qed.

(** The loop of [MakeCharClass]. *)
Fixpoint add_ranges (rs : list (Z * Z)) (g : graph) : graph :=
  match rs with [] => g | (lo, hi) :: rs => add_ranges rs (g_add (0, 1, lo, hi) g) end.

Lemma add_ranges_edge rs : ∀ g s c d,
  g_edge (add_ranges rs g) s c d ↔ g_edge g s c d ∨ s = 0 ∧ d = 1 ∧ ∃ lo hi, (lo, hi) ∈ rs ∧ lo ≤ c ≤ hi.
Proof.
  induction rs as [|[lo hi] rs IH]; intros g s c d; cbn [add_ranges].
  - split; [by left|]. by intros [?|(_ & _ & ? & ? & ?%elem_of_nil & _)].
  - rewrite IH, g_edge_app. setoid_rewrite elem_of_cons. split.
    + intros [[?|(l & h & [= -> -> -> ->] & ?)]|(-> & -> & l & h & ? & ?)]; [by left|right; eauto 7|right; eauto 7].
    + intros [?|(-> & -> & l & h & [[= -> ->]|?] & ?)]; [by left; left|left; right; eauto|right; eauto 6].
Qed.

Lemma add_ranges_rest rs : ∀ g, g_states (add_ranges rs g) = g_states g ∧ g_accept (add_ranges rs g) = g_accept g.
Proof. induction rs as [|[lo hi] rs IH]; intros g; cbn [add_ranges]; [done|]. apply (IH (g_add (0, 1, lo, hi) g)). Qed.

Definition ranges_ok (rs : list (Z * Z)) : Prop := Forall (fun '(lo, hi) => 0 ≤ lo ≤ hi) rs.

Lemma shows_ranges rs : ∀ g a,
  shows g a → g_states g = 2 → ranges_ok rs → (g_current g = 0 ∨ 0 ∉ g_started g) →
  runs (foldM (fun '(lo, hi) a => AddTransition 0 1 lo hi a) rs a) (shows (add_ranges rs g)).
Proof.
  induction rs as [|[lo hi] rs IH]; intros g a HS HN HR Hc; cbn [foldM add_ranges]; [done|].
  apply Forall_cons in HR as [Hr HR].
  eapply runs_step; [apply (shows_add 0 1 lo hi g); [done|lia|lia|done|destruct Hc; [by left|by right]]|].
  intros a1 H1. apply IH; [done|done|done|by left].
Qed.

Lemma class_loop starts ends a :
  length starts = length ends →
  go_for (length starts) 0 (fun i a => lo ← aget starts i; hi ← aget ends i; AddTransition 0 1 lo hi a) a =
  foldM (fun '(lo, hi) a => AddTransition 0 1 lo hi a) (zip starts ends) a.
Proof.
  intros E.
  enough (∀ pre pre' ss es a, length pre = length pre' → length ss = length es →
    go_for (length ss) (Z.of_nat (length pre)) (fun i a => lo ← aget (pre ++ ss) i; hi ← aget (pre' ++ es) i; AddTransition 0 1 lo hi a) a =
    foldM (fun '(lo, hi) a => AddTransition 0 1 lo hi a) (zip ss es) a) as H by (by apply (H [] [])).
  clear. intros pre pre' ss. revert pre pre'. induction ss as [|lo ss IH]; intros pre pre' [|hi es] a Hp Hl; try done.
  cbn [length go_for zip zip_with foldM].
  assert (G : ∀ (p q : list Z) x n, n = length p → @aget autoerr _ (p ++ x :: q) (Z.of_nat n) = Ret x).
  { intros p q x n ->. unfold aget. rewrite (proj2 (Z.ltb_ge _ _)), Nat2Z.id, list_lookup_middle by (done || lia). done. }
  rewrite (G pre ss lo) by done. rewrite go_bind_ret. rewrite (G pre' es hi), go_bind_ret by done.
  destruct (AddTransition 0 1 lo hi a) as [a1| | |]; try done. cbn [mbind go_bind].
  replace (Z.of_nat (length pre) + 1) with (Z.of_nat (length (pre ++ [lo]))) by (rewrite length_app; cbn; lia).
  replace (pre ++ lo :: ss) with ((pre ++ [lo]) ++ ss) by (by rewrite <- app_assoc).
  replace (pre' ++ hi :: es) with ((pre' ++ [hi]) ++ es) by (by rewrite <- app_assoc). apply IH; [rewrite !length_app; cbn; lia|by injection Hl].
Qed.

(** What the makers of one character promise. *)
Record one_char (P : Z → Prop) (a : Automaton) : Prop := {
  oc_good : good a;
  oc_deterministic : deterministic a = true;
  oc_small : NumStates a ≤ 2;
  oc_language : ∀ w, language a w ↔ ∃ c, w = [c] ∧ P c
}.

Lemma one_char_empty (P : Z → Prop) : (∀ c, ¬ P c) → runs MakeEmpty (one_char P).
Proof.
  intros HP. unfold MakeEmpty. destruct (FinishState_spec NewAutomaton (good_wf _ (New_good 2 2))) as (a & E & W & C & N & _).
  assert (a = NewAutomaton) as -> by (vm_compute in E; by injection E).
  cbn. split; [apply (New_good 2 2)|done|by vm_compute|]. intros w.
  split; [intros Hw; by apply language_no_states in Hw; [|apply (New_good 2 2)|]|]. intros (c & _ & Hc). by apply HP in Hc.
Qed.

Lemma one_char_ranges rs (loop : Z → Z → Automaton → AM Automaton) :
  ranges_ok rs → (∀ a, loop 0 1 a = foldM (fun '(lo, hi) a => AddTransition 0 1 lo hi a) rs a) →
  runs ('(s1, a) ← CreateState NewAutomaton;
        '(s2, a) ← CreateState a;
        a ← SetAccept s2 true a;
        a ← loop s1 s2 a;
        FinishState a) (one_char (fun c => ∃ lo hi, (lo, hi) ∈ rs ∧ lo ≤ c ≤ hi)).
Proof.
  intros HR Hloop. eapply runs_step; [apply shows_create, (shows_empty 2 2)|]. intros [s1 a1] [-> H1].
  eapply runs_step; [by apply shows_create|]. intros [s2 a2] [-> H2]. cbn in H1, H2 |- *.
  eapply runs_step; [apply shows_set; [done|cbn; lia]|]. intros a3 H3.
  rewrite Hloop. eapply runs_step; [apply (shows_ranges rs _ _ H3); [done|done|right; by intros ?%elem_of_nil]|]. intros a4 H4.
  eapply runs_mono; [by apply shows_finish|]. intros a (G & N & HL & HD).
  match type of HL with context [g_language ?g] => set (gr := g) in * end.
  assert (EN : g_states gr = 2) by (unfold gr; by rewrite (proj1 (add_ranges_rest _ _))).
  assert (EA : g_accept gr = fun s => bool_decide (s = 1)).
  { unfold gr. rewrite (proj2 (add_ranges_rest _ _)). reflexivity. }
  assert (HE : ∀ s c d, g_edge gr s c d ↔ s = 0 ∧ d = 1 ∧ ∃ lo hi, (lo, hi) ∈ rs ∧ lo ≤ c ≤ hi).
  { intros s c d. unfold gr. rewrite add_ranges_edge. split; [|by right]. intros [He|?]; [by apply g_edge_nil in He|done]. }
  split; [done| |by rewrite N, EN|].
  - apply HD. intros s c d d' _ Hd Hd'. apply HE in Hd as (_ & -> & _), Hd' as (_ & -> & _). done.
  - intros w. rewrite HL, two_states_language.
    + setoid_rewrite HE. naive_solver.
    + intros s c d (-> & -> & _)%HE. done.
    + intros s. by rewrite EA.
Qed.

Lemma one_char_iff P Q a : (∀ c, P c ↔ Q c) → one_char P a → one_char Q a.
Proof. intros H [H1 H2 H3 H4]. split; try done. intros w. rewrite H4. by setoid_rewrite H. Qed.

Lemma MakeCharRange_spec min max : 0 ≤ min → runs (MakeCharRange min max) (one_char (fun c => min ≤ c ≤ max)).
Proof.
  intros Hm. unfold MakeCharRange. destruct (Z.ltb_spec max min) as [Hlt|Hge]; [apply one_char_empty; lia|].
  eapply runs_mono; [apply (one_char_ranges [(min, max)] (fun s1 s2 a => AddTransition s1 s2 min max a))|].
  - by repeat constructor.
  - intros a. cbn [foldM]. by destruct (AddTransition 0 1 min max a).
  - intros a. apply one_char_iff. intros c. setoid_rewrite list_elem_of_singleton. naive_solver.
Qed.

Lemma MakeCharClass_spec starts ends :
  length starts = length ends → ranges_ok (zip starts ends) →
  runs (MakeCharClass starts ends) (one_char (fun c => ∃ lo hi, (lo, hi) ∈ zip starts ends ∧ lo ≤ c ≤ hi)).
Proof.
  intros HL HR. unfold MakeCharClass. rewrite (proj2 (Z.eqb_eq _ _)) by lia. cbn [negb].
  destruct (Z.eqb_spec (Z.of_nat (length starts)) 0) as [E|E].
  - destruct starts; [|done]. apply one_char_empty. by intros c (? & ? & ?%elem_of_nil & _).
  - apply (one_char_ranges (zip starts ends) (fun s1 s2 a => go_for (length starts) 0 (fun i a =>
      lo ← aget starts i; hi ← aget ends i; AddTransition s1 s2 lo hi a) a)); [done|]. intros a. by apply class_loop.
Qed.

(** * All words *)

Lemma loop_language g w :
  (∀ s c d, g_edge g s c d → d = s) → g_accept g 0 = true → g_language g w ↔ Forall (fun c => g_edge g 0 c 0) w.
Proof.
  intros HE HA. unfold g_language, accepts. induction w as [|c w IH].
  - rewrite accepts_nil. split; [constructor|done].
  - rewrite accepts_cons, Forall_cons, <- IH. split.
    + intros (d & He & Hw). pose proof (HE _ _ _ He) as ->. done.
    + intros [He Hw]. by exists 0.
Qed.

Definition byte (c : Z) : Prop := 0 ≤ c ≤ 255.

Lemma MakeAnyString_spec : runs MakeAnyString (fun a => good a ∧ ∀ w, language a w ↔ Forall code_point w).
Proof.
  unfold MakeAnyString. eapply runs_step; [apply shows_create, (shows_empty 2 2)|]. intros [s1 a1] [-> H1].
  eapply runs_step; [apply shows_set; [done|cbn; lia]|]. intros a2 H2.
  eapply runs_step; [apply (shows_add _ _ _ _ _ _ H2); [cbn; lia|cbn; lia|done|right; by intros ?%elem_of_nil]|]. intros a3 H3.
  eapply runs_mono; [by apply shows_finish|]. intros a (G & _ & HL & _). split; [done|]. intros w.
  assert (HE : ∀ s c d, g_edge (g_add (0, 0, MinCodePoint, MaxCodePoint) (g_set 0 (g_create g_empty))) s c d ↔ s = 0 ∧ d = 0 ∧ code_point c).
  { intros s c d. rewrite g_edge_app. split; [|intros (-> & -> & Hc); right; by eexists _, _].
    intros [He|(lo & hi & [= <- <- <- <-] & Hc)]; [by apply g_edge_nil in He|done]. }
  rewrite HL. cbn. rewrite loop_language; [|by intros s c d (-> & -> & _)%HE|done]. setoid_rewrite HE.
  split; intros H; (eapply Forall_impl; [exact H|]); naive_solver.
Qed.

Lemma MakeAnyBinary_spec : runs MakeAnyBinary (fun a => good a ∧ ∀ w, language a w ↔ Forall byte w).
Proof.
  unfold MakeAnyBinary. eapply runs_step; [apply shows_create, (shows_empty 2 2)|]. intros [s1 a1] [-> H1].
  eapply runs_step; [apply shows_set; [done|cbn; lia]|]. intros a2 H2.
  eapply runs_step; [apply (shows_add _ _ _ _ _ _ H2); [cbn; lia|cbn; lia|lia|right; by intros ?%elem_of_nil]|]. intros a3 H3.
  eapply runs_mono; [by apply shows_finish|]. intros a (G & _ & HL & _). split; [done|]. intros w.
  assert (HE : ∀ s c d, g_edge (g_add (0, 0, 0, 255) (g_set 0 (g_create g_empty))) s c d ↔ s = 0 ∧ d = 0 ∧ byte c).
  { intros s c d. rewrite g_edge_app. split; [|intros (-> & -> & Hc); right; by eexists _, _].
    intros [He|(lo & hi & [= <- <- <- <-] & Hc)]; [by apply g_edge_nil in He|done]. }
  rewrite HL. cbn. rewrite loop_language; [|by intros s c d (-> & -> & _)%HE|done]. setoid_rewrite HE.
  split; intros H; (eapply Forall_impl; [exact H|]); naive_solver.
Qed.

Lemma MakeNonEmptyBinary_spec :
  runs MakeNonEmptyBinary (fun a => good a ∧ deterministic a = true ∧ ∀ w, language a w ↔ w ≠ [] ∧ Forall byte w).
Proof.
  unfold MakeNonEmptyBinary. eapply runs_step; [apply shows_create, (shows_empty 2 2)|]. intros [s1 a1] [-> H1].
  eapply runs_step; [by apply shows_create|]. intros [s2 a2] [-> H2]. cbn in H1, H2 |- *.
  eapply runs_step; [apply shows_set; [done|cbn; lia]|]. intros a3 H3.
  eapply runs_step; [apply (shows_add 0 1 0 255 _ _ H3); [cbn; lia|cbn; lia|lia|right; by intros ?%elem_of_nil]|]. intros a4 H4.
  eapply runs_step; [apply (shows_add 1 1 0 255 _ _ H4); [cbn; lia|cbn; lia|lia|]|].
  { right. cbn. rewrite list_elem_of_singleton. done. }
  intros a5 H5. eapply runs_mono; [by apply shows_finish|]. intros a (G & _ & HL & HD).
  match type of HL with context [g_language ?g] => set (gr := g) in * end.
  assert (HE : ∀ s c d, g_edge gr s c d ↔ (s = 0 ∨ s = 1) ∧ d = 1 ∧ byte c).
  { intros s c d. unfold gr. rewrite !g_edge_app. split.
    - intros [[He|(lo & hi & [= <- <- <- <-] & Hc)]|(lo & hi & [= <- <- <- <-] & Hc)]; [by apply g_edge_nil in He|auto..].
    - intros ([-> | ->] & -> & Hc); [left; right; by eexists _, _|right; by eexists _, _]. }
  assert (Hone : ∀ w, accepts_from (g_edge gr) (fun s => g_accept gr s = true) 1 w ↔ Forall byte w).
  { induction w as [|c w IH]; [rewrite accepts_nil; split; [constructor|done]|].
    rewrite accepts_cons, Forall_cons, <- IH. setoid_rewrite HE. naive_solver. }
  split; [done|]. split.
  - apply HD. intros s c d d' _ Hd Hd'. apply HE in Hd as (_ & -> & _), Hd' as (_ & -> & _). done.
  - intros w. rewrite HL. unfold g_language, accepts. destruct w as [|c w].
    + rewrite accepts_nil. cbn. split; [done|]. by intros [? _].
    + rewrite accepts_cons, Forall_cons. setoid_rewrite HE. setoid_rewrite <- Hone. naive_solver.
Qed.

(** * One word *)

(** The states [0 … length w] in a line, labelled with the word. *)
Record line (w : list Z) (g : graph) : Prop := {
  ln_states : g_states g = Z.of_nat (length w) + 1;
  ln_accept : ∀ s, g_accept g s = false;
  ln_edge : ∀ s c d, g_edge g s c d ↔ 0 ≤ s ∧ d = s + 1 ∧ w !! Z.to_nat s = Some c;
  ln_started : ∀ s, s ∈ g_started g → s < Z.of_nat (length w)
}.

Lemma line_snoc w c g :
  line w g → line (w ++ [c]) (g_add (Z.of_nat (length w), g_states (g_create g) - 1, c, c) (g_create g)).
Proof.
  intros [HN HA HE HS]. split; cbn.
  - rewrite length_app. cbn. lia.
  - done.
  - intros s x d. rewrite g_edge_app. change (g_edge (g_create g) s x d) with (g_edge g s x d). rewrite HE. split.
    + intros [(Hs & -> & Hx)|(lo & hi & [= <- <- <- <-] & Hx)]; [split_and!; [done|done|by apply lookup_app_l_Some]|].
      split_and!; [lia|lia|]. rewrite Nat2Z.id, list_lookup_middle by done. f_equal. lia.
    + intros (Hs & -> & [Hx|[Hl Hx]]%lookup_app_Some); [by left|right].
      apply list_lookup_singleton_Some in Hx as [Hx ->]. exists x, x. split; [repeat f_equal; lia|lia].
  - intros s. rewrite elem_of_cons, length_app. cbn. intros [->|Hs%HS]; lia.
Qed.

Definition lettered : list Z → Prop := Forall (fun c => 0 ≤ c).

Lemma append_step w c g a :
  line w g → 0 ≤ c → shows g a →
  runs ('(state, a) ← CreateState a; a ← AddTransition (Z.of_nat (length w)) state c c a; mret (state, a))
    (fun '(last, a') => last = Z.of_nat (length (w ++ [c])) ∧ ∃ g', line (w ++ [c]) g' ∧ shows g' a').
Proof.
  intros HL Hc HS. pose proof (ln_states _ _ HL) as HN.
  eapply runs_step; [by apply shows_create|]. intros [s a1] [-> H1].
  eapply runs_step; [apply (shows_add _ _ _ _ _ _ H1); cbn; [lia|lia|lia|right; intros ?%(ln_started _ _ HL); lia]|].
  intros a2 H2. cbn. split; [rewrite HN, length_app; cbn; lia|]. eexists. split; [by apply line_snoc|].
  cbn. by replace (g_states g + 1 - 1) with (g_states g) by lia.
Qed.

Lemma append_all_line labels : ∀ w g a,
  line w g → lettered labels → shows g a →
  runs (append_all labels (Z.of_nat (length w)) a)
    (fun '(last, a') => last = Z.of_nat (length (w ++ labels)) ∧ ∃ g', line (w ++ labels) g' ∧ shows g' a').
Proof.
  induction labels as [|c labels IH]; intros w g a HL HC HS.
  - unfold append_all. cbn. rewrite app_nil_r. eauto.
  - apply Forall_cons in HC as [Hc HC]. unfold append_all. cbn [foldM].
    eapply runs_step; [by apply (append_step w c g a)|]. intros [last a1] (-> & g1 & HL1 & HS1).
    replace (w ++ c :: labels) with ((w ++ [c]) ++ labels) by (by rewrite <- app_assoc). by apply (IH _ g1).
Qed.

(** What the makers of one word promise. *)
Definition one_word (w : list Z) (a : Automaton) : Prop :=
  good a ∧ deterministic a = true ∧ NumStates a = Z.of_nat (length w) + 1 ∧ ∀ v, language a v ↔ v = w.

Lemma line_from w g s v :
  line w g → 0 ≤ s ≤ Z.of_nat (length w) →
  accepts_from (g_edge g) (fun q => g_accept (g_set (Z.of_nat (length w)) g) q = true) s v ↔ v = drop (Z.to_nat s) w.
Proof.
  intros [HN HA HE _]. revert s. induction v as [|c v IH]; intros s Hs.
  - rewrite accepts_nil. cbn. rewrite HA. split.
    + case_decide; [|done]. intros _. by rewrite drop_ge by lia.
    + intros E%(f_equal length). rewrite length_drop in E. cbn in E. by rewrite decide_True by lia.
  - rewrite accepts_cons. setoid_rewrite HE. split.
    + intros (d & (_ & -> & Hc) & Hv). apply lookup_lt_Some in Hc as Hl. apply IH in Hv; [|lia].
      rewrite (drop_S _ _ _ Hc), Hv. do 2 f_equal. lia.
    + intros E. destruct (w !! Z.to_nat s) as [x|] eqn:Hx.
      * rewrite (drop_S _ _ _ Hx) in E. injection E as <- ->. apply lookup_lt_Some in Hx as Hl.
        exists (s + 1). split; [split_and!; [lia|done..]|]. apply IH; [lia|]. f_equal. lia.
      * apply lookup_ge_None in Hx. by rewrite drop_ge in E.
Qed.

Lemma finish_line w g a :
  line w g → shows g a → runs (a ← SetAccept (Z.of_nat (length w)) true a; FinishState a) (one_word w).
Proof.
  intros HL HS. pose proof (ln_states _ _ HL) as HN.
  eapply runs_step; [apply (shows_set _ _ _ HS); lia|]. intros a1 H1.
  eapply runs_mono; [by apply shows_finish|]. intros a' (G & N & HLa & HD). split_and!; [done| |by rewrite N|].
  - apply HD. intros s c d d' _ Hd Hd'. apply (ln_edge _ _ HL) in Hd as (_ & -> & _), Hd' as (_ & -> & _). done.
  - intros v. rewrite HLa. unfold g_language, accepts.
    etransitivity; [apply (line_from w g 0 v HL); lia|]. by rewrite drop_0.
Qed.

Lemma line_create : ∃ a, CreateState NewAutomaton = Ret (0, a) ∧ shows (g_create g_empty) a ∧ line [] (g_create g_empty).
Proof.
  pose proof (shows_create g_empty NewAutomaton (shows_empty 2 2)) as H. unfold runs in H.
  destruct (CreateState NewAutomaton) as [[s a]|[]| |] eqn:E; [|vm_compute in E; discriminate..].
  destruct H as [-> HS]. exists a. split_and!; [done|done|]. split; [done|done| |by intros s ?%elem_of_nil].
  intros s c d. split; [by intros ?%g_edge_nil|]. intros (_ & _ & ?). by rewrite lookup_nil in *.
Qed.

Lemma MakeString_spec w : lettered w → runs (MakeString w) (one_word w).
Proof.
  intros HC. unfold MakeString. destruct line_create as (a & -> & HS & HL). rewrite go_bind_ret.
  eapply runs_step; [by apply (append_all_line w [] _ a HL)|]. intros [last a1] (-> & g1 & HL1 & HS1).
  by apply (finish_line w g1).
Qed.

Lemma MakeBinary_spec term : (∀ w, term = Some w → lettered w) → runs (MakeBinary term) (one_word (default [] term)).
Proof.
  intros HC. destruct term as [w|]; [by apply MakeString_spec, HC|].
  change (MakeBinary None) with (MakeString []). apply MakeString_spec. constructor.
Qed.

Lemma from_code_points_loop word n : ∀ i w g a,
  0 ≤ i → (Z.to_nat i + n ≤ length word)%nat → lettered word → line w g → shows g a →
  runs (go_for n i (fun i '(s, a) =>
      '(s2, a) ← CreateState a; c ← aget word i; a ← AddTransition s s2 c c a; mret (s2, a)) (Z.of_nat (length w), a))
    (fun '(last, a') => last = Z.of_nat (length (w ++ take n (drop (Z.to_nat i) word))) ∧
       ∃ g', line (w ++ take n (drop (Z.to_nat i) word)) g' ∧ shows g' a').
Proof.
  induction n as [|n IH]; intros i w g a Hi Hn HW HL HS.
  - cbn. rewrite app_nil_r. eauto.
  - destruct (word !! Z.to_nat i) as [c|] eqn:Hc; [|apply lookup_ge_None in Hc; lia].
    assert (Hc0 : 0 ≤ c) by (eapply Forall_lookup_1 in HW; [exact HW|exact Hc]).
    rewrite (drop_S _ _ _ Hc). cbn [go_for take].
    assert (Hg : @aget autoerr _ word i = Ret c) by (unfold aget; by rewrite (proj2 (Z.ltb_ge _ _)), Hc by lia).
    pose proof (append_step w c g a HL Hc0 HS) as Hstep. rewrite <- (go_bind_ret c (fun c => _)) in Hstep.
    eapply runs_step.
    { revert Hstep. destruct (CreateState a) as [[s a1]|[]| |]; cbn [mbind go_bind]; [|done..].
      rewrite Hg. intros H. exact H. }
    intros [last a1] (-> & g1 & HL1 & HS1).
    replace (w ++ c :: take n (drop (S (Z.to_nat i)) word)) with ((w ++ [c]) ++ take n (drop (Z.to_nat (i + 1)) word)).
    + by apply (IH (i + 1) (w ++ [c]) g1); [lia|lia|..].
    + rewrite <- app_assoc. cbn. do 4 f_equal. lia.
Qed.

Lemma MakeStringFromCodePoints_spec word offset len :
  0 ≤ offset → 0 ≤ len → offset + len ≤ Z.of_nat (length word) → lettered word →
  runs (MakeStringFromCodePoints word offset len) (one_word (take (Z.to_nat len) (drop (Z.to_nat offset) word))).
Proof.
  intros Ho Hl Hs HW. unfold MakeStringFromCodePoints. destruct line_create as (a & -> & HS & HL). rewrite go_bind_ret.
  eapply runs_step; [apply (from_code_points_loop word (Z.to_nat len) offset [] (g_create g_empty) a); [lia|lia|done..]|].
  intros [last a1] (-> & g1 & HL1 & HS1). by apply (finish_line _ g1).
Qed.

(** The makers of one word: the automaton made of a string, of a byte slice or of a piece of
    a slice of code points is deterministic, has one state more than the word has letters, and
    accepts that word and nothing else; none of the three reports an error or panics. *)
Theorem word_makers_correct (word : list Z) (offset len : Z)
    (HW : lettered word) (HO : 0 ≤ offset) (HL : 0 ≤ len) (HS : offset + len ≤ Z.of_nat (length word)) :
  runs (MakeString word) (one_word word) ∧
  runs (MakeBinary (Some word)) (one_word word) ∧
  runs (MakeStringFromCodePoints word offset len) (one_word (take (Z.to_nat len) (drop (Z.to_nat offset) word))).
Proof.
  split_and!; [by apply MakeString_spec|by apply MakeString_spec|by apply MakeStringFromCodePoints_spec].
Qed.

Lemma word_makers_correct_witness :
  runs (MakeString [98; 97; 8364]) (one_word [98; 97; 8364]) ∧
  runs (MakeBinary (Some [98; 97; 8364])) (one_word [98; 97; 8364]) ∧
  runs (MakeStringFromCodePoints [98; 97; 8364] 1 2) (one_word [97; 8364]).
Proof. apply (word_makers_correct [98; 97; 8364] 1 2); [repeat constructor; lia|lia|lia|cbn; lia]. Defined.
