(* ===== verification/RunAutomaton.v ===== *)
(** [util/automaton/run_automaton.go], the loops of [byte_run_automaton.go] and
    [character_run_automaton.go], and [GetStartPoints] of [util/automaton/automaton.go]:
    deterministic automata compiled to a table with a column per interval of labels. *)

From stdpp Require Import base tactics numbers list gmap sorting.
From Stdlib Require Import ZArith Lia.
From S2P Require Import Prelude WordBits Nfa Automaton BooleanOps.

Local Open Scope Z_scope.

(** * Start points *)

(** The body of the inner loop: the points of one transition. *)
Definition add_points (minLabel maxLabel : Z) (pointset : gset Z) : gset Z :=
  let pointset := {[minLabel]} ∪ pointset in
  if maxLabel <? MaxCodePoint then {[maxLabel + 1]} ∪ pointset else pointset.

(** The keys of the map, in whatever order the map gives them, sorted. *)
Definition GetStartPoints (a : Automaton) : AM (list Z) :=
  pointset ← go_for (Z.to_nat (NumStates a)) 0 (fun s pointset =>
    trans ← aget (states a) (2 * s);
    n ← aget (states a) (2 * s + 1);
    go_for (Z.to_nat n) 0 (fun i pointset =>
      minLabel ← aget (transitions a) (trans + 3 * i + 1);
      maxLabel ← aget (transitions a) (trans + 3 * i + 2);
      mret (add_points minLabel maxLabel pointset)) pointset) ({[MinCodePoint]} : gset Z);
  mret (merge_sort Z.le (elements pointset)).

(** * The compiled automaton *)

(** The pointer to the automaton it is made of is kept, but only given back. *)
Record RunAutomaton := {
  automaton : Automaton;
  alphabetSize : Z;
  ra_size : Z;
  ra_accept : list Z;
  ra_transitions : list Z;
  ra_points : list Z;
  classmap : list Z
}.

(** A row of the table; [t] is the cursor shared by all rows. *)
Definition fill_row (a : Automaton) (points : list Z) (n : Z) (st : list Z * Transition) : AM (list Z * Transition) :=
  go_for (length points) 0 (fun c '(ts, t) =>
    p ← aget points c;
    '(dest, t) ← Next a t p;
    ts ← aset ts (n * Z.of_nat (length points) + c) dest;
    mret (ts, t)) st.

Definition mark_accept (a : Automaton) (n : Z) (accept : list Z) : AM (list Z) :=
  if IsAccept a n then
    w ← aget accept (Z.shiftr n 6);
    aset accept (Z.shiftr n 6) (Z.lor w (shl64 1 (Z.land n 63)))
  else mret accept.

Definition make_classmap (points : list Z) (limit : Z) : AM (list Z) :=
  must (0 <=? limit);;
  '(cm, _) ← go_for (Z.to_nat limit) 0 (fun j '(cm, i) =>
    up ← (if i + 1 <? Z.of_nat (length points) then p ← aget points (i + 1); mret (j =? p) else mret false);
    let i := if up : bool then i + 1 else i in
    cm ← aset cm j i;
    mret (cm, i)) (repeat 0 (Z.to_nat limit), 0);
  mret cm.

Definition NewRunAutomaton (a : Automaton) (alphabetSize : Z) : AM RunAutomaton :=
  if negb (deterministic a) then Panic else
  points ← GetStartPoints a;
  let size := if NumStates a <? 1 then 1 else NumStates a in
  let accept := repeat 0 (Z.to_nat (Z.shiftr (size + 63) 6)) in
  let ts := repeat (-1) (Z.to_nat (size * Z.of_nat (length points))) in
  '(accept, ts, _) ← go_for (Z.to_nat size) 0 (fun n '(accept, ts, t) =>
    accept ← mark_accept a n accept;
    let t := {| Source := n; Dest := Dest t; Min := Min t; Max := Max t; transitionUpto := -1 |} in
    '(ts, t) ← fill_row a points n (ts, t);
    mret (accept, ts, t)) (accept, ts, NewTransition);
  let limit := if alphabetSize <? 256 then alphabetSize else 256 in
  cm ← make_classmap points limit;
  mret {| automaton := a; alphabetSize := alphabetSize; ra_size := size; ra_accept := accept;
          ra_transitions := ts; ra_points := points; classmap := cm |}.

Definition GetSize (r : RunAutomaton) : Z := ra_size r.

Definition ra_IsAccept (r : RunAutomaton) (state : Z) : AM bool :=
  if (state <? 0) || (ra_size r <=? state) then mret false else
  w ← aget (ra_accept r) (Z.shiftr state 6);
  mret (negb (Z.land w (shl64 1 (Z.land state 63)) =? 0)).

Definition GetCharIntervals (r : RunAutomaton) : list Z := ra_points r.

Fixpoint class_search (fuel : nat) (points : list Z) (c lo hi : Z) : AM Z :=
  if 1 <? hi - lo then
    match fuel with
    | O => NoFuel
    | S fuel =>
        let mid := Z.shiftr (lo + hi) 1 in
        p ← aget points mid;
        if c <? p then class_search fuel points c lo mid
        else if p <? c then class_search fuel points c mid hi
        else mret mid
    end
  else mret lo.

Definition getCharClass (r : RunAutomaton) (c : Z) : AM Z :=
  class_search (length (ra_points r)) (ra_points r) c 0 (Z.of_nat (length (ra_points r))).

Definition ra_Step (r : RunAutomaton) (state c : Z) : AM Z :=
  cls ← (if c <? Z.of_nat (length (classmap r)) then aget (classmap r) c else getCharClass r c);
  aget (ra_transitions r) (state * Z.of_nat (length (ra_points r)) + cls).

(** * Running *)

Fixpoint run_labels (r : RunAutomaton) (p : Z) (labels : list Z) : AM bool :=
  match labels with
  | [] => ra_IsAccept r p
  | c :: labels => p ← ra_Step r p c; if p =? -1 then mret false else run_labels r p labels
  end.

Definition RunBytes (r : RunAutomaton) (input : list Z) : AM bool :=
  run_labels r 0 (map (fun b => Z.land b 0xFF) input).

(** On what [range] yields of the string; also [RunString] of [CharacterRunAutomaton]. *)
Definition RunString (r : RunAutomaton) (input : list Z) : AM bool := run_labels r 0 input.

Fixpoint run_slice (label : Z → Z) (r : RunAutomaton) (p : Z) (s : list Z) (i : Z) (n : nat) : AM bool :=
  match n with
  | O => ra_IsAccept r p
  | S n =>
      c ← aget s i;
      p ← ra_Step r p (label c);
      if p =? -1 then mret false else run_slice label r p s (i + 1) n
  end.

(** [Run] of [ByteRunAutomaton]. *)
Definition ByteRun (r : RunAutomaton) (s : list Z) (offset length : Z) : AM bool :=
  run_slice (fun b => Z.land b 0xFF) r 0 s offset (Z.to_nat length).

Definition NewCharacterRunAutomaton (a : Automaton) : AM RunAutomaton := NewRunAutomaton a (MaxCodePoint + 1).

Definition RunRunes (r : RunAutomaton) (s : list Z) (offset length : Z) : AM bool :=
  run_slice (fun c => c) r 0 s offset (Z.to_nat length).

(** [NewByteRunAutomatonBinary] with [isBinary]. *)
Definition NewByteRunAutomatonOfBytes (a : Automaton) : AM RunAutomaton := NewRunAutomaton a 256.

(** * Equality *)

Definition HashCode (r : RunAutomaton) : Z :=
  swrap 64 (31 * swrap 64 (31 * swrap 64 (31 + alphabetSize r) + Z.of_nat (length (ra_points r))) + ra_size r).

(** [same]: the two pointers are equal. *)
Definition Equals (same : bool) (r other : option RunAutomaton) : bool :=
  if same then true else
  match r, other with
  | Some r, Some other =>
      (alphabetSize r =? alphabetSize other) && (ra_size r =? ra_size other) &&
      bool_decide (ra_points r = ra_points other) && bool_decide (ra_accept r = ra_accept other) &&
      bool_decide (ra_transitions r = ra_transitions other)
  | _, _ => false
  end.

Example run_automaton_run :
  ('(s0, a) ← CreateState NewAutomaton; '(s1, a) ← CreateState a; '(s2, a) ← CreateState a;
   a ← SetAccept s2 true a;
   a ← AddTransition s0 s1 98 99 a; a ← AddTransition s0 s1 97 97 a; a ← AddTransition s0 s2 8364 8364 a;
   a ← AddTransition s1 s1 48 57 a; a ← AddTransition s1 s2 65 90 a; a ← FinishState a;
   r ← NewCharacterRunAutomaton a;
   x ← RunString r [99; 48; 49; 65]; y ← RunString r [100]; z ← RunString r [8364]; e ← NewRunAutomaton NewAutomaton 256;
   v ← RunString e [];
   mret (ra_points r, x, y, z, v))
  = Ret ([0; 48; 58; 65; 91; 97; 100; 8364; 8365], true, false, true, false).
Proof. vm_compute. reflexivity. Qed.

(** * The start points *)

Definition is_point (t : tr) (p : Z) : Prop := p = min_ t ∨ max_ t < MaxCodePoint ∧ p = max_ t + 1.

Lemma elem_of_add_points t ps p : p ∈ add_points (min_ t) (max_ t) ps ↔ p ∈ ps ∨ is_point t p.
Proof.
  unfold add_points, is_point. destruct (Z.ltb_spec (max_ t) MaxCodePoint); set_solver by lia.
Qed.

(** The points of the transitions of the states below [n]. *)
Definition point_below (a : Automaton) (n p : Z) : Prop :=
  p = MinCodePoint ∨ ∃ s t, 0 ≤ s < n ∧ t ∈ delta a s ∧ is_point t p.

Definition start_point (a : Automaton) : Z → Prop := point_below a (NumStates a).

Lemma points_of_state a s ps :
  wf a → 0 ≤ s < NumStates a →
  ∃ ps', (trans ← aget (states a) (2 * s);
          n ← aget (states a) (2 * s + 1);
          go_for (Z.to_nat n) 0 (fun i pointset =>
            minLabel ← aget (transitions a) (trans + 3 * i + 1);
            maxLabel ← aget (transitions a) (trans + 3 * i + 2);
            mret (add_points minLabel maxLabel pointset)) ps : AM (gset Z)) = Ret ps' ∧
    ∀ p, p ∈ ps' ↔ p ∈ ps ∨ ∃ t, t ∈ delta a s ∧ is_point t p.
Proof.
  intros W Hs. destruct (wf_states _ W) as (n & En & Hn). pose proof (NumStates_eq _ _ En) as EN.
  rewrite !(nthZ_aget 0), !go_bind_ret by lia. fold (ptr a s) (cnt a s).
  rewrite <- (delta_cnt a s W Hs), Nat2Z.id.
  match goal with |- context [go_for _ _ ?b _] => set (body := b) end.
  destruct (go_for_inv (fun i ps' => ∀ p, p ∈ ps' ↔ p ∈ ps ∨ ∃ j t, (Z.of_nat j < i) ∧ delta a s !! j = Some t ∧ is_point t p)
    (length (delta a s)) 0 body ps) as (ps' & E & H).
  - intros p. split; [by left|]. intros [?|(j & t & ? & _)]; [done|lia].
  - intros i ps1 Hi H1. destruct (lookup_lt_is_Some_2 (delta a s) (Z.to_nat i)) as [t Ht]; [lia|].
    destruct (delta_lookup a s _ t W Hs Ht) as (k & Ep & Hk). apply aget_triple in Hk as (_ & G2 & G3).
    unfold body. replace (ptr a s + 3 * i) with (3 * Z.of_nat (k + Z.to_nat i)) by lia.
    rewrite G2, go_bind_ret, G3, go_bind_ret. eexists. split; [done|]. intros p.
    rewrite elem_of_add_points, H1. split.
    + intros [[?|(j & u & ? & ?)]|?]; [by left|right; exists j, u; split; [lia|done]|].
      right. exists (Z.to_nat i), t. split_and!; [lia|done..].
    + intros [?|(j & u & ? & Hu & ?)]; [tauto|]. destruct (decide (j = Z.to_nat i)) as [->|]; [right; congruence|].
      left. right. exists j, u. split; [lia|done].
  - exists ps'. split; [done|]. intros p. rewrite H. setoid_rewrite list_elem_of_lookup. split.
    + intros [?|(j & t & ? & ? & ?)]; [by left|right; eauto].
    + intros [?|(t & [j Hj] & ?)]; [by left|right]. exists j, t. split_and!; [apply lookup_lt_Some in Hj; lia|done..].
Qed.

(** What the table needs of its columns. *)
Record columns (a : Automaton) (ps : list Z) : Prop := {
  cl_sorted : StronglySorted Z.lt ps;
  cl_point : ∀ p, p ∈ ps ↔ start_point a p
}.

Lemma sorted_strictly (l : list Z) : StronglySorted Z.le l → NoDup l → StronglySorted Z.lt l.
Proof.
  induction 1 as [|x l HS IH HF]; [constructor|]. intros [Hx Hl]%NoDup_cons. constructor; [by apply IH|].
  rewrite Forall_forall in *. intros y Hy. specialize (HF y Hy). assert (x ≠ y) by (by intros ->). lia.
Qed.

Lemma GetStartPoints_spec a : wf a → ∃ ps, GetStartPoints a = Ret ps ∧ columns a ps.
Proof.
  intros W. unfold GetStartPoints. pose proof (NumStates_pos _ W) as HN.
  match goal with |- context [go_for _ _ ?b _] => set (body := b) end.
  destruct (go_for_inv (fun n (ps : gset Z) => ∀ p, p ∈ ps ↔ point_below a n p) (Z.to_nat (NumStates a)) 0 body {[MinCodePoint]})
    as (ps & -> & H).
  - intros p. rewrite elem_of_singleton. split; [by left|]. intros [?|(s & ? & ? & _)]; [done|lia].
  - intros s ps Hs H. destruct (points_of_state a s ps W) as (ps' & E & H'); [lia|]. exists ps'. split; [exact E|].
    intros p. rewrite H', H. unfold point_below. split.
    + intros [[?|(q & t & ? & ?)]|(t & ?)]; [by left|right; exists q, t; split; [lia|done]|right; exists s, t; split; [lia|done]].
    + intros [?|(q & t & ? & Ht & ?)]; [by left; left|]. destruct (decide (q = s)) as [->|]; [right; eauto|].
      left. right. exists q, t. split; [lia|done].
  - rewrite go_bind_ret. eexists. split; [done|]. replace (0 + Z.of_nat (Z.to_nat (NumStates a))) with (NumStates a) in H by lia.
    split.
    + apply sorted_strictly; [apply (StronglySorted_merge_sort Z.le)|].
      eapply NoDup_Permutation_proper; [apply (merge_sort_Permutation Z.le)|apply NoDup_elements].
    + intros p. rewrite (merge_sort_Permutation Z.le), elem_of_elements. apply H.
Qed.

(** * Classes of characters *)

Section Classes.
Context (ps : list Z) (HS : StronglySorted Z.lt ps).

Lemma points_lt i j p q : (i < j)%nat → ps !! i = Some p → ps !! j = Some q → p < q.
Proof.
  revert i j. induction HS as [|x l _ IH HF]; intros [|i] [|j] Hij Hp Hq; try done; try lia.
  - cbn in Hp, Hq. injection Hp as ->. rewrite Forall_forall in HF. by eapply HF, list_elem_of_lookup_2.
  - cbn in Hp, Hq. apply (IH ltac:(by inversion HS) i j); [lia|done..].
Qed.

(** The interval of the point [i] holds [c]. *)
Definition class_of (c i : Z) : Prop :=
  0 ≤ i < Z.of_nat (length ps) ∧ nthZ 0 ps i ≤ c ∧ (i + 1 < Z.of_nat (length ps) → c < nthZ 0 ps (i + 1)).

Lemma nth_lt i j : 0 ≤ i < j → j < Z.of_nat (length ps) → nthZ 0 ps i < nthZ 0 ps j.
Proof. intros Hi Hj. eapply (points_lt (Z.to_nat i) (Z.to_nat j)); [lia|apply nthZ_lookup; lia..]. Qed.

Lemma nth_le i j : 0 ≤ i ≤ j → j < Z.of_nat (length ps) → nthZ 0 ps i ≤ nthZ 0 ps j.
Proof. intros Hi Hj. destruct (decide (i = j)) as [->|]; [lia|]. apply Z.lt_le_incl, nth_lt; lia. Qed.

(** A point up to [c] is at most the point of the class of [c]. *)
Lemma class_last c i p : class_of c i → p ∈ ps → p ≤ c → p ≤ nthZ 0 ps i.
Proof.
  intros (Hi & Hc & Hn) (j & Hj)%list_elem_of_lookup Hp. pose proof (lookup_lt_Some _ _ _ Hj) as Hl.
  assert (E : nthZ 0 ps (Z.of_nat j) = p) by (unfold nthZ; by rewrite Nat2Z.id, Hj).
  destruct (Z.le_gt_cases (Z.of_nat j) i); [rewrite <- E; apply nth_le; lia|].
  pose proof (nth_le (i + 1) (Z.of_nat j)). lia.
Qed.

Lemma class_search_spec c fuel : ∀ lo hi,
  0 ≤ lo < hi → hi ≤ Z.of_nat (length ps) → hi - lo ≤ Z.of_nat fuel + 1 →
  nthZ 0 ps lo ≤ c → (hi < Z.of_nat (length ps) → c < nthZ 0 ps hi) →
  ∃ i, class_search fuel ps c lo hi = Ret i ∧ class_of c i.
Proof.
  induction fuel as [|fuel IH]; intros lo hi Hlo Hhi Hf Hl Hh; cbn [class_search].
  - rewrite (proj2 (Z.ltb_ge _ _)) by lia. exists lo. split; [done|]. replace hi with (lo + 1) in * by lia. split; [lia|done].
  - destruct (Z.ltb_spec 1 (hi - lo)) as [H1|H1].
    2: { exists lo. split; [done|]. replace hi with (lo + 1) in * by lia. split; [lia|done]. }
    rewrite Z.shiftr_div_pow2 by lia. change (2 ^ 1) with 2. set (mid := (lo + hi) / 2).
    assert (Hmid : lo < mid < hi) by (unfold mid; idx). clearbody mid. cbn zeta.
    rewrite (nthZ_aget 0), go_bind_ret by lia. destruct (Z.ltb_spec c (nthZ 0 ps mid)); [apply IH; lia|].
    destruct (Z.ltb_spec (nthZ 0 ps mid) c); [apply IH; lia|]. exists mid. split; [done|]. split; [lia|split; [lia|]].
    intros Hm. pose proof (nth_lt mid (mid + 1)). lia.
Qed.

Lemma make_classmap_spec limit :
  0 ≤ limit → nthZ 0 ps 0 = 0 → (0 < length ps)%nat →
  ∃ cm, make_classmap ps limit = Ret cm ∧ Z.of_nat (length cm) = limit ∧ ∀ c, 0 ≤ c < limit → class_of c (nthZ 0 cm c).
Proof.
  intros Hl H0 Hlen. unfold make_classmap, must. rewrite (proj2 (Z.leb_le _ _) Hl), go_bind_ret.
  match goal with |- context [go_for _ _ ?b _] => set (body := b) end.
  destruct (go_for_inv (fun j '(cm, i) => Z.of_nat (length cm) = limit ∧ (∀ c, 0 ≤ c < j → class_of c (nthZ 0 cm c)) ∧
      0 ≤ i < Z.of_nat (length ps) ∧ nthZ 0 ps i ≤ j ∧ (j = 0 → i = 0) ∧ (i + 1 < Z.of_nat (length ps) → j ≤ nthZ 0 ps (i + 1)))
    (Z.to_nat limit) 0 body (repeat 0 (Z.to_nat limit), 0)) as ([cm i] & -> & H).
  - split_and!; [rewrite repeat_length; lia|intros; lia|lia|lia|lia|done|]. intros Hn. change (0 + 1) with 1 in *. pose proof (nth_lt 0 1). lia.
  - intros j [cm i] Hj (HL & HC & Hi & Hle & Hz & Hn). unfold body.
    set (i' := if (i + 1 <? Z.of_nat (length ps)) && (j =? nthZ 0 ps (i + 1)) then i + 1 else i).
    assert (Hcls : class_of j i').
    { unfold i'. destruct (Z.ltb_spec (i + 1) (Z.of_nat (length ps))) as [Hlt|Hge]; cbn [andb]; [|split; [lia|split; lia]].
      destruct (Z.eqb_spec j (nthZ 0 ps (i + 1))) as [Ej|Ej]; [|split; [lia|split; lia]].
      split; [lia|]. split; [lia|]. intros Hlt'. rewrite Ej. apply nth_lt; lia. }
    exists (<[Z.to_nat j := i']> cm, i'). split.
    + unfold i'. destruct (Z.ltb_spec (i + 1) (Z.of_nat (length ps))) as [Hlt|Hge]; cbn [andb].
      * rewrite (nthZ_aget 0), go_bind_ret, go_bind_mret by lia. by rewrite aset_Ret by lia.
      * rewrite go_bind_mret. by rewrite aset_Ret by lia.
    + destruct Hcls as (Hi' & Hle' & Hn'). split_and!; [by rewrite length_insert|..|lia|lia|lia|].
      * intros c Hc. rewrite nthZ_insert by lia. case_decide as Ec; [subst c; done|apply HC; lia].
      * lia.
      * intros Hx. specialize (Hn' Hx). lia.
  - rewrite go_bind_ret. exists cm. replace (0 + Z.of_nat (Z.to_nat limit)) with limit in H by lia. naive_solver.
Qed.
End Classes.

(** * The table *)

(** What the table and [Next] give for a label: the destination, or -1. *)
Definition entry (a : Automaton) (s p d : Z) : Prop := (0 ≤ d ∧ edge a s p d) ∨ (d = -1 ∧ ∀ d', ¬ edge a s p d').

(** The array of states has room for one state, as all arrays of [CreateState] and
    [NewAutomaton] have. *)
Definition roomy (a : Automaton) : Prop := (2 ≤ length (states a))%nat.

Lemma below_mono a s i p q : p ≤ q → below a s i p → below a s i q.
Proof. intros Hpq HB j t Hj Ht. specialize (HB j t Hj Ht). lia. Qed.

(** The cursor is behind all transitions below the label [p]. *)
Definition cursor (a : Automaton) (s p : Z) (t : Transition) : Prop := Source t = s ∧ below a s (transitionUpto t) p.

Lemma Next_spec a s p t :
  good a → deterministic a = true → 0 ≤ s < NumStates a → cursor a s p t →
  ∃ d t', Next a t p = Ret (d, t') ∧ entry a s p d ∧ cursor a s p t'.
Proof.
  intros G HD Hs [ES HB]. unfold Next. rewrite ES.
  assert (∃ r, next_ a s (transitionUpto t) p = Ret r ∧ next_found a s (Z.max 0 (transitionUpto t)) p r) as ([o low] & -> & HF).
  { destruct (Z.le_gt_cases (transitionUpto t) (Z.of_nat (length (delta a s)))) as [Hle|Hgt].
    - by apply next_transition_spec.
    - exists (None, transitionUpto t). pose proof (good_wf _ G) as W. unfold next_.
      destruct (wf_states _ W) as (n & En & Hn). pose proof (NumStates_eq _ _ En) as EN.
      rewrite !(nthZ_aget 0), !go_bind_ret by lia. fold (ptr a s) (cnt a s). pose proof (delta_cnt a s W Hs) as EC.
      rewrite (proj2 (Z.ltb_ge _ _)) by lia. split.
      + destruct (Z.to_nat (cnt a s)); cbn [next_search]; by rewrite (proj2 (Z.leb_gt _ _)) by lia.
      + cbn. split_and!; [lia|done|]. intros j u Hj Hu. apply lookup_lt_Some in Hu. lia. }
  rewrite go_bind_ret. destruct o as [[mid u]|]; eexists _, _; (split; [done|]); unfold next_found in HF; cbn in HF.
  - destruct HF as (_ & Hu & Hc & HB'). split; [|done]. left. apply list_elem_of_lookup_2 in Hu.
    assert (He : edge a s p (dest_ u)) by (by exists u). split; [|done].
    apply edge_dest in He as (_ & ? & _); [lia|apply G|lia].
  - destruct HF as (_ & HB' & HA). split; [|done]. right. split; [done|]. by apply (not_leads a s low).
Qed.

Lemma Next_no_states a p t :
  good a → NumStates a = 0 → roomy a → Source t = 0 →
  ∃ t', Next a t p = Ret (-1, t') ∧ Source t' = 0.
Proof.
  intros [W _] HN HR ES. unfold roomy in HR. unfold Next, next_. rewrite ES. destruct (wf_states _ W) as (n & En & _).
  rewrite (NumStates_eq _ _ En) in HN.
  rewrite !(nthZ_aget 0), !go_bind_ret by lia. rewrite !(wf_fresh _ W) by lia.
  assert (E : ∀ low, 0 ≤ low → next_search (Z.to_nat 0) a 0 p low (0 - 1) = Ret (None, low)).
  { intros low Hl. change (Z.to_nat 0) with O. cbn [next_search]. destruct (Z.leb_spec low (0 - 1)); [lia|done]. }
  rewrite E, go_bind_ret by (destruct (Z.ltb_spec (transitionUpto t) 0); lia). eauto.
Qed.

Lemma no_states_entry a s p : good a → NumStates a ≤ s → entry a s p (-1).
Proof.
  intros [W _] Hs. right. split; [done|]. intros d (t & Ht & _). rewrite delta_beyond in Ht by done. by apply elem_of_nil in Ht.
Qed.

Definition size_of (a : Automaton) : Z := if NumStates a <? 1 then 1 else NumStates a.

Lemma fill_row_spec a ps n ts t :
  good a → deterministic a = true → roomy a → StronglySorted Z.lt ps → 0 ≤ n < size_of a →
  Source t = n → transitionUpto t = -1 →
  Z.of_nat (length ts) = size_of a * Z.of_nat (length ps) →
  ∃ ts' t', fill_row a ps n (ts, t) = Ret (ts', t') ∧ length ts' = length ts ∧
    (∀ c, 0 ≤ c < Z.of_nat (length ps) → entry a n (nthZ 0 ps c) (nthZ 0 ts' (n * Z.of_nat (length ps) + c))) ∧
    (∀ i, 0 ≤ i < n * Z.of_nat (length ps) → nthZ 0 ts' i = nthZ 0 ts i).
Proof.
  intros G HD HR HS Hn ES EU HL. unfold fill_row. pose proof (NumStates_pos _ (good_wf _ G)) as HP.
  match goal with |- context [go_for _ _ ?b _] => set (body := b) end. set (L := Z.of_nat (length ps)) in *.
  destruct (go_for_inv (fun c '(ts', t') => length ts' = length ts ∧ Source t' = n ∧
      (0 < NumStates a → 0 ≤ c < L → below a n (transitionUpto t') (nthZ 0 ps c)) ∧
      (∀ k, 0 ≤ k < c → entry a n (nthZ 0 ps k) (nthZ 0 ts' (n * L + k))) ∧
      (∀ i, 0 ≤ i < n * L → nthZ 0 ts' i = nthZ 0 ts i))
    (length ps) 0 body (ts, t)) as ([ts' t'] & E & H).
  - split_and!; try done; [|lia]. intros _ _ j u Hj. lia.
  - intros c [ts1 t1] Hc (HL1 & ES1 & HB & HE & HK). unfold body. rewrite (nthZ_aget 0), go_bind_ret by lia.
    assert (∃ d t2, Next a t1 (nthZ 0 ps c) = Ret (d, t2) ∧ entry a n (nthZ 0 ps c) d ∧ Source t2 = n ∧
      (0 < NumStates a → below a n (transitionUpto t2) (nthZ 0 ps c))) as (d & t2 & EN & Hd & ES2 & HB2).
    { unfold size_of in Hn. destruct (Z.ltb_spec (NumStates a) 1) as [H0|H0].
      - destruct (Next_no_states a (nthZ 0 ps c) t1 G) as (t2 & EN & ES2); [lia|done|lia|].
        exists (-1), t2. split_and!; [done|apply no_states_entry; [done|lia]|lia|lia].
      - destruct (Next_spec a n (nthZ 0 ps c) t1 G HD Hn) as (d & t2 & EN & Hd & ES2 & HB2).
        { split; [done|]. apply HB; lia. }
        exists d, t2. by split_and!. }
    rewrite EN, go_bind_ret. fold L.
    assert (Hix : 0 ≤ n * L + c < Z.of_nat (length ts1)) by (rewrite HL1, HL; nia).
    rewrite aset_Ret, go_bind_ret by done. eexists. split; [done|]. split_and!.
    + by rewrite length_insert.
    + done.
    + intros HN Hc'. eapply below_mono; [|by apply HB2]. pose proof (nth_lt ps HS c (c + 1)). lia.
    + intros k Hk. rewrite nthZ_insert by lia. case_decide as Ek.
      * replace k with c by lia. done.
      * apply HE. lia.
    + intros i Hi. rewrite nthZ_insert by lia. case_decide; [lia|]. by apply HK.
  - exists ts', t'. split; [done|]. replace (0 + Z.of_nat (length ps)) with L in H by lia. naive_solver.
Qed.

Lemma mark_accept_spec a n accept :
  Forall is_word accept → 0 ≤ n < 64 * Z.of_nat (length accept) →
  ∃ accept', mark_accept a n accept = Ret accept' ∧ length accept' = length accept ∧ Forall is_word accept' ∧
    ∀ i, 0 ≤ i → bit accept' i = bit accept i || ((i =? n) && IsAccept a n).
Proof.
  intros HW Hn. unfold mark_accept. destruct (IsAccept a n).
  - rewrite shiftr6, land63. assert (Hd : 0 ≤ n / 64 < Z.of_nat (length accept)) by idx.
    rewrite (nthZ_aget 0), go_bind_ret, aset_Ret by done. eexists. split; [done|].
    pose proof (word_at accept (n / 64) HW) as Hw.
    split_and!; [by rewrite length_insert| |].
    + apply Forall_insert; [done|]. apply lor_uint; [lia|done|apply shl64_word].
    + intros i Hi. rewrite bit_insert by done. rewrite andb_true_r. case_decide as E.
      * rewrite Z.lor_spec, testbit_bit by idx. unfold bit. rewrite E. f_equal.
        destruct (Z.eqb_spec (i mod 64) (n mod 64)), (Z.eqb_spec i n); try done; exfalso; [|subst; done].
        pose proof (Z.div_mod i 64). pose proof (Z.div_mod n 64). lia.
      * destruct (Z.eqb_spec i n) as [->|]; [done|]. by rewrite orb_false_r.
  - exists accept. split_and!; [done..|]. intros i _. by rewrite andb_false_r, orb_false_r.
Qed.

(** What the compiled automaton holds. *)
Record compiled (a : Automaton) (n : Z) (r : RunAutomaton) : Prop := {
  cp_alphabet : alphabetSize r = n;
  cp_size : ra_size r = size_of a;
  cp_columns : columns a (ra_points r);
  cp_length : Z.of_nat (length (ra_transitions r)) = size_of a * Z.of_nat (length (ra_points r));
  cp_table : ∀ s c, 0 ≤ s < size_of a → 0 ≤ c < Z.of_nat (length (ra_points r)) →
    entry a s (nthZ 0 (ra_points r) c) (nthZ 0 (ra_transitions r) (s * Z.of_nat (length (ra_points r)) + c));
  cp_words : Forall is_word (ra_accept r);
  cp_room : size_of a ≤ 64 * Z.of_nat (length (ra_accept r));
  cp_accept : ∀ s, 0 ≤ s < size_of a → bit (ra_accept r) s = IsAccept a s;
  cp_classes : make_classmap (ra_points r) (if n <? 256 then n else 256) = Ret (classmap r);
  cp_class : ∀ c, 0 ≤ c < Z.of_nat (length (classmap r)) → class_of (ra_points r) c (nthZ 0 (classmap r) c)
}.

Lemma columns_zero a ps : good a → columns a ps → (0 < length ps)%nat ∧ nthZ 0 ps 0 = 0.
Proof.
  intros [W _] [HS HP]. assert (H0 : MinCodePoint ∈ ps) by (apply HP; by left).
  destruct ps as [|p ps]; [by apply elem_of_nil in H0|]. split; [cbn; lia|]. unfold nthZ. cbn.
  assert (0 ≤ p).
  { destruct (proj1 (HP p)) as [->|(s & t & Hs & Ht & Hp)]; [by left|done|].
    pose proof (wf_ok _ W s Hs) as Hok. rewrite Forall_forall in Hok. destruct (Hok t Ht) as [_ ?]. unfold is_point in Hp. lia. }
  inversion HS as [|? ? _ HF]; subst. rewrite Forall_forall in HF.
  apply elem_of_cons in H0 as [<-|H0]; [done|]. specialize (HF _ H0). unfold MinCodePoint in *. lia.
Qed.

Lemma size_of_pos a : wf a → 0 < size_of a ∧ NumStates a ≤ size_of a.
Proof. intros W. pose proof (NumStates_pos _ W). unfold size_of. destruct (Z.ltb_spec (NumStates a) 1); lia. Qed.

Lemma NewRunAutomaton_spec a n :
  good a → deterministic a = true → roomy a → 0 ≤ n →
  ∃ r, NewRunAutomaton a n = Ret r ∧ compiled a n r.
Proof.
  intros G HD HR Hn. unfold NewRunAutomaton. rewrite HD. cbn [negb]. pose proof (good_wf _ G) as W.
  destruct (GetStartPoints_spec a W) as (ps & -> & HC). rewrite go_bind_ret. fold (size_of a).
  destruct (columns_zero a ps G HC) as [Hps H0]. destruct (size_of_pos a W) as [Hsz _].
  set (L := Z.of_nat (length ps)) in *. cbn zeta.
  match goal with |- context [go_for _ _ ?b _] => set (body := b) end.
  match goal with |- context [go_for _ _ body ?st] => set (st0 := st) end.
  destruct (go_for_inv (fun m '(accept, ts, t) =>
      Z.of_nat (length ts) = size_of a * L ∧
      (∀ s c, 0 ≤ s < m → 0 ≤ c < L → entry a s (nthZ 0 ps c) (nthZ 0 ts (s * L + c))) ∧
      Forall is_word accept ∧ size_of a ≤ 64 * Z.of_nat (length accept) ∧
      (∀ s, 0 ≤ s → bit accept s = (s <? m) && IsAccept a s)) (Z.to_nat (size_of a)) 0 body st0) as ([[accept ts] t] & -> & HI).
  - unfold st0. rewrite !repeat_length, shiftr6. split_and!; [nia|lia| |idx|].
    + apply Forall_forall. intros x Hx%list_elem_of_In%repeat_spec. subst x. unfold is_word, in_uint. lia.
    + intros s Hs. rewrite (proj2 (Z.ltb_ge _ _)) by lia. cbn [andb]. change (bit ([] ++ repeat 0 (Z.to_nat ((size_of a + 63) / 64))) s = false).
      rewrite bit_pad by lia. apply Z.testbit_0_l.
  - intros m [[accept ts] t] Hm (HL & HE & HW & Hroom & HB). unfold body.
    destruct (mark_accept_spec a m accept HW) as (accept' & -> & HL' & HW' & HB'); [lia|]. rewrite go_bind_ret.
    match goal with |- context [fill_row _ _ _ (_, ?u)] => set (t1 := u) end.
    destruct (fill_row_spec a ps m ts t1 G HD HR (cl_sorted _ _ HC)) as (ts' & t' & -> & HLt & HEt & HKt); [lia|done..|].
    rewrite go_bind_ret. eexists. split; [done|]. fold L in HEt, HKt. split_and!; [lia| |done|lia|].
    + intros s c Hs Hc. destruct (decide (s = m)) as [->|]; [by apply HEt|]. rewrite HKt by nia. apply HE; lia.
    + intros s Hs. rewrite HB', HB by lia. destruct (Z.eqb_spec s m) as [->|].
      * rewrite Z.ltb_irrefl, (proj2 (Z.ltb_lt _ _)) by lia. done.
      * rewrite orb_false_r. f_equal. apply eq_bool_prop_intro. rewrite !Is_true_true, !Z.ltb_lt. lia.
  - rewrite go_bind_ret. destruct HI as (HL & HE & HW & Hroom & HB). cbn [mbind go_bind].
    replace (0 + Z.of_nat (Z.to_nat (size_of a))) with (size_of a) in * by lia.
    destruct (make_classmap_spec ps (cl_sorted _ _ HC) (if n <? 256 then n else 256)) as (cm & EC & HLc & HCc);
      [by destruct (n <? 256)|done..|].
    rewrite EC. cbn [mbind go_bind mret go_ret]. eexists. split; [done|]. split; cbn; try done.
    + intros s Hs. rewrite HB by lia. by rewrite (proj2 (Z.ltb_lt _ _)) by lia.
    + intros c Hc. apply HCc. lia.
Qed.

(** * Running *)

Section Running.
Context (a : Automaton) (n : Z) (r : RunAutomaton) (G : good a) (HD : deterministic a = true) (HC : compiled a n r).

Lemma class_edges c i s d :
  code_point c → class_of (ra_points r) c i → 0 ≤ s < NumStates a → edge a s c d ↔ edge a s (nthZ 0 (ra_points r) i) d.
Proof.
  intros Hc Hi Hs. destruct (cp_columns _ _ _ HC) as [HS HP]. destruct Hc as [_ Hmax].
  set (p := nthZ 0 (ra_points r) i) in *.
  assert (Hp : p ≤ c) by apply Hi.
  split; intros (t & Ht & Ed & Hcov); exists t; (split_and!; [done..|]); unfold covers in *.
  - assert (min_ t ≤ p); [|lia]. apply (class_last _ HS c); [done| |lia]. apply HP. right. exists s, t. split; [done|]. split; [done|by left].
  - split; [lia|]. destruct (Z.le_gt_cases c (max_ t)); [done|].
    assert (max_ t + 1 ≤ p); [|lia]. apply (class_last _ HS c); [done| |lia].
    apply HP. right. exists s, t. split; [done|]. split; [done|]. right. split; [lia|done].
Qed.

Lemma class_entry c i s d :
  code_point c → class_of (ra_points r) c i → 0 ≤ s < size_of a → entry a s (nthZ 0 (ra_points r) i) d → entry a s c d.
Proof.
  intros Hc Hi Hs HE. destruct (Z.lt_ge_cases s (NumStates a)) as [Hlt|Hge].
  - assert (Hs' : 0 ≤ s < NumStates a) by lia. pose proof (fun x => class_edges c i s x Hc Hi Hs') as Hce.
    destruct HE as [[Hd He]|[-> Hno]]; [left|right]; (split; [done|]); [by apply Hce|].
    intros d' He. by apply (Hno d'), Hce.
  - destruct HE as [[_ (t & Ht & _)]|[-> _]]; [|by apply no_states_entry].
    rewrite delta_beyond in Ht by (done || apply G). by apply elem_of_nil in Ht.
Qed.

Lemma ra_Step_spec s c :
  code_point c → 0 ≤ s < size_of a → ∃ d, ra_Step r s c = Ret d ∧ entry a s c d.
Proof.
  intros Hc Hs. unfold ra_Step. destruct (columns_zero a _ G (cp_columns _ _ _ HC)) as [Hps H0].
  assert (∃ i, (if c <? Z.of_nat (length (classmap r)) then aget (classmap r) c else getCharClass r c) = Ret i ∧
               class_of (ra_points r) c i) as (i & -> & Hi).
  { destruct Hc as [Hc0 _]. unfold MinCodePoint in Hc0. destruct (Z.ltb_spec c (Z.of_nat (length (classmap r)))).
    - rewrite (nthZ_aget 0) by lia. eexists. split; [done|]. apply (cp_class _ _ _ HC). lia.
    - unfold getCharClass. apply class_search_spec; [apply (cp_columns _ _ _ HC)|lia..]. }
  rewrite go_bind_ret. pose proof (cp_length _ _ _ HC) as HL. pose proof (proj1 Hi) as Hir.
  rewrite (nthZ_aget 0) by (rewrite HL; nia). eexists. split; [done|].
  apply (class_entry c i); [done..|]. by apply (cp_table _ _ _ HC).
Qed.

Lemma ra_IsAccept_spec s : 0 ≤ s < size_of a → ra_IsAccept r s = Ret (IsAccept a s).
Proof.
  intros Hs. unfold ra_IsAccept. rewrite (cp_size _ _ _ HC), (proj2 (Z.ltb_ge s 0)), (proj2 (Z.leb_gt _ _)) by lia. cbn [orb].
  pose proof (cp_room _ _ _ HC). rewrite shiftr6, land63, (nthZ_aget 0), go_bind_ret by idx.
  rewrite land_bit_zero by (idx || apply word_at, (cp_words _ _ _ HC)).
  cbn [mret go_ret]. f_equal. apply (cp_accept _ _ _ HC s Hs).
Qed.

Lemma entry_next s c d : entry a s c d → 0 ≤ s → d ≠ -1 → edge a s c d ∧ 0 ≤ d < size_of a.
Proof.
  intros [[Hd He]|[-> _]] Hs Hne; [|done]. split; [done|].
  pose proof (edge_dest a s c d (good_wf _ G) Hs He) as (_ & ? & _). pose proof (size_of_pos a (good_wf _ G)). lia.
Qed.

(** The answer is whether there is a path to an accept state. *)
Definition answers (s : Z) (w : list Z) (m : AM bool) : Prop :=
  ∃ b, m = Ret b ∧ (b = true ↔ accepts_from (edge a) (final a) s w).

Lemma run_labels_spec w : ∀ s, Forall code_point w → 0 ≤ s < size_of a → answers s w (run_labels r s w).
Proof.
  induction w as [|c w IH]; intros s HW Hs; cbn [run_labels].
  - rewrite ra_IsAccept_spec by done. eexists. split; [done|]. by rewrite accepts_nil.
  - apply Forall_cons in HW as [Hc HW]. destruct (ra_Step_spec s c Hc Hs) as (d & -> & He). rewrite go_bind_ret.
    destruct (Z.eqb_spec d (-1)) as [->|Hd].
    + eexists. split; [done|]. rewrite accepts_cons. split; [done|]. intros (d & Hd & _).
      destruct He as [[? _]|[_ Hno]]; [lia|]. by apply Hno in Hd.
    + apply entry_next in He as [He Hdr]; [|lia|done]. destruct (IH d HW Hdr) as (b & -> & Hb). exists b. split; [done|].
      rewrite Hb, accepts_cons. split; [eauto|]. intros (d' & He' & Hw).
      by rewrite (edge_functional a G HD s c d d') by (done || lia).
Qed.

(** The loop over a piece of a slice is the loop over its labels. *)
Lemma run_slice_labels label s m : ∀ i p,
  0 ≤ i → (Z.to_nat i + m ≤ length s)%nat →
  run_slice label r p s i m = run_labels r p (map label (take m (drop (Z.to_nat i) s))).
Proof.
  induction m as [|m IH]; intros i p Hi Hm; [done|].
  destruct (lookup_lt_is_Some_2 s (Z.to_nat i)) as [c Hc]; [lia|]. rewrite (drop_S _ _ _ Hc).
  cbn [run_slice take map run_labels]. rewrite (aget_Ret _ _ c), go_bind_ret by (done || lia).
  destruct (ra_Step r p (label c)) as [q| | |]; try done. cbn [mbind go_bind]. destruct (q =? -1); [done|].
  rewrite IH by lia. do 3 f_equal. f_equal. lia.
Qed.
End Running.

(** [m] says whether the automaton accepts the word. *)
Definition decides (a : Automaton) (w : list Z) (m : AM bool) : Prop := ∃ b, m = Ret b ∧ (b = true ↔ language a w).

Definition is_byte_label (b : Z) : Prop := 0 ≤ b < 256.

Lemma bytes_code_points w : Forall is_byte_label w → Forall code_point w ∧ map (fun b => Z.land b 0xFF) w = w.
Proof.
  induction 1 as [|b w [Hb Hb'] _ [IH1 IH2]]; [done|]. cbn [map]. rewrite IH2. change 0xFF with (Z.ones 8).
  rewrite Z.land_ones, Z.mod_small by (change (2 ^ 8) with 256; lia). split; [constructor; [|done]|done].
  unfold code_point, MinCodePoint, MaxCodePoint. lia.
Qed.

Lemma run_decides a n r w :
  good a → deterministic a = true → compiled a n r → Forall code_point w → decides a w (run_labels r 0 w).
Proof. intros G HD HC HW. apply (run_labels_spec a n r G HD HC w 0 HW). pose proof (size_of_pos a (good_wf _ G)). lia. Qed.

Lemma slice_decides a n r label s offset len :
  good a → deterministic a = true → compiled a n r → 0 ≤ offset → 0 ≤ len → offset + len ≤ Z.of_nat (length s) →
  Forall code_point s → map label s = s →
  decides a (take (Z.to_nat len) (drop (Z.to_nat offset) s)) (run_slice label r 0 s offset (Z.to_nat len)).
Proof.
  intros G HD HC Ho Hl Hs HW HM. rewrite run_slice_labels by lia.
  assert (E : map label (take (Z.to_nat len) (drop (Z.to_nat offset) s)) = take (Z.to_nat len) (drop (Z.to_nat offset) s)).
  { by rewrite <- firstn_map, <- skipn_map, HM. }
  rewrite E. apply (run_decides a n r _ G HD HC). by apply Forall_take, Forall_drop.
Qed.

(** C6. Compiling a deterministic automaton, for any size of the alphabet, never fails, and the
    table, with its columns found by the map of the first 256 labels or by binary search over
    the start points, decides the language: for words of code points, given as a string or as a
    piece of a slice, and for words of bytes, the run ends and says whether the word is accepted. *)
Theorem RunAutomaton_correct (a : Automaton) (n : Z)
    (G : good a) (HD : deterministic a = true) (HR : roomy a) (Hn : 0 ≤ n) :
  ∃ r, NewRunAutomaton a n = Ret r ∧
    (∀ w, Forall code_point w → decides a w (RunString r w)) ∧
    (∀ w, Forall is_byte_label w → decides a w (RunBytes r w)) ∧
    (∀ s offset len, Forall code_point s → 0 ≤ offset → 0 ≤ len → offset + len ≤ Z.of_nat (length s) →
       decides a (take (Z.to_nat len) (drop (Z.to_nat offset) s)) (RunRunes r s offset len)) ∧
    (∀ s offset len, Forall is_byte_label s → 0 ≤ offset → 0 ≤ len → offset + len ≤ Z.of_nat (length s) →
       decides a (take (Z.to_nat len) (drop (Z.to_nat offset) s)) (ByteRun r s offset len)).
Proof.
  destruct (NewRunAutomaton_spec a n G HD HR Hn) as (r & E & HC). exists r. split; [done|]. split_and!.
  - intros w HW. by apply (run_decides a n).
  - intros w HW. apply bytes_code_points in HW as [HW E']. unfold RunBytes. rewrite E'. by apply (run_decides a n).
  - intros s offset len HW Ho Hl Hs. apply (slice_decides a n); try done. apply map_id.
  - intros s offset len HW Ho Hl Hs. apply bytes_code_points in HW as [HW E']. by apply (slice_decides a n).
Qed.

Lemma RunAutomaton_correct_witness :
  ∃ r, NewRunAutomaton (automaton_of [BCreateState; BCreateState; BSetAccept 1 true; BAddTransition 0 1 97 99;
                                      BAddTransition 0 1 8364 8364; BAddTransition 1 1 48 57; BFinishState]) 0x110000 = Ret r ∧
    RunString r [8364; 48] = Ret true ∧
    language (automaton_of [BCreateState; BCreateState; BSetAccept 1 true; BAddTransition 0 1 97 99;
                            BAddTransition 0 1 8364 8364; BAddTransition 1 1 48 57; BFinishState]) [8364; 48].
Proof.
  set (a := automaton_of _).
  destruct (RunAutomaton_correct a 0x110000) as (r & E & HS & _);
    [apply automaton_of_good; vm_compute; reflexivity|vm_compute; reflexivity|unfold roomy, a; vm_compute; lia|lia|].
  destruct (HS [8364; 48]) as (b & Eb & Hb); [repeat constructor; vm_compute; discriminate|].
  exists r. split; [exact E|]. assert (Hr : RunString r [8364; 48] = Ret true).
  { vm_compute in E. injection E as <-. vm_compute. reflexivity. }
  split; [exact Hr|]. rewrite Hr in Eb. injection Eb as <-. by apply Hb.
Defined.

(** ** Equality *)

(** The fields [Equals] compares determine the map of the first labels, so they
    determine every run. *)
Lemma Equals_run same a n r a' n' r' w :
  compiled a n r → compiled a' n' r' → (same = true → r = r') → Equals same (Some r) (Some r') = true →
  RunString r w = RunString r' w ∧ HashCode r = HashCode r'.
Proof.
  intros HC HC' Hsame HE. unfold Equals in HE. destruct same; [by rewrite Hsame|].
  rewrite !andb_true_iff, !bool_decide_eq_true, !Z.eqb_eq in HE. destruct HE as ((((E1 & E2) & E3) & E4) & E5).
  assert (E6 : classmap r = classmap r').
  { pose proof (cp_classes _ _ _ HC) as H. pose proof (cp_classes _ _ _ HC') as H'.
    rewrite <- (cp_alphabet _ _ _ HC), E1, E3, (cp_alphabet _ _ _ HC'), H' in H. by injection H. }
  split; [|unfold HashCode; by rewrite E1, E2, E3]. unfold RunString. generalize 0. induction w as [|c w IH]; intros p; cbn [run_labels].
  - unfold ra_IsAccept. by rewrite E2, E4.
  - replace (ra_Step r p c) with (ra_Step r' p c) by (unfold ra_Step, getCharClass; by rewrite E3, E5, E6).
    destruct (ra_Step r' p c) as [q| | |]; try done. cbn [mbind go_bind]. by destruct (q =? -1).
Qed.

(** Run automata that [Equals] calls equal, made of whatever automata, accept the same
    words and have the same hash code, although [Equals] does not compare the map of the first
    labels, nor the automata. *)
Theorem Equals_sound (same : bool) (a a' : Automaton) (n n' : Z) (r r' : RunAutomaton)
    (G : good a) (HD : deterministic a = true) (HR : roomy a) (Hn : 0 ≤ n)
    (G' : good a') (HD' : deterministic a' = true) (HR' : roomy a') (Hn' : 0 ≤ n')
    (E : NewRunAutomaton a n = Ret r) (E' : NewRunAutomaton a' n' = Ret r')
    (HS : same = true → r = r') (HE : Equals same (Some r) (Some r') = true) :
  HashCode r = HashCode r' ∧ ∀ w, Forall code_point w → language a w ↔ language a' w.
Proof.
  destruct (NewRunAutomaton_spec a n G HD HR Hn) as (r1 & E1 & HC). rewrite E1 in E. injection E as ->.
  destruct (NewRunAutomaton_spec a' n' G' HD' HR' Hn') as (r2 & E2 & HC'). rewrite E2 in E'. injection E' as ->.
  split; [by apply (Equals_run same a n r a' n' r' [])|]. intros w HW.
  destruct (run_decides a n r w G HD HC HW) as (b & Eb & <-). destruct (run_decides a' n' r' w G' HD' HC' HW) as (b' & Eb' & <-).
  destruct (Equals_run same a n r a' n' r' w HC HC' HS HE) as [ER _]. unfold RunString in ER. rewrite ER, Eb' in Eb. by injection Eb as ->.
Qed.

Lemma Equals_sound_witness :
  let a := automaton_of [BCreateState; BCreateState; BSetAccept 1 true; BAddTransition 0 1 97 98; BAddTransition 0 1 99 99; BFinishState] in
  let a' := automaton_of [BCreateState; BCreateState; BSetAccept 1 true; BAddTransition 0 1 97 99; BFinishState] in
  ∃ r r', NewRunAutomaton a 256 = Ret r ∧ NewRunAutomaton a' 256 = Ret r' ∧ Equals false (Some r) (Some r') = true ∧
    ∀ w, Forall code_point w → language a w ↔ language a' w.
Proof.
  intros a a'.
  assert (exists r, NewRunAutomaton a 256 = Ret r) as [r E] by (eexists; vm_compute; reflexivity).
  assert (exists r, NewRunAutomaton a' 256 = Ret r) as [r' E'] by (eexists; vm_compute; reflexivity).
  assert (HE : Equals false (Some r) (Some r') = true).
  { vm_compute in E. vm_compute in E'. injection E as <-. injection E' as <-. vm_compute. reflexivity. }
  exists r, r'. split; [exact E|]. split; [exact E'|]. split; [exact HE|].
  assert (G : good a) by (apply automaton_of_good; vm_compute; reflexivity).
  assert (G' : good a') by (apply automaton_of_good; vm_compute; reflexivity).
  assert (D : deterministic a = true) by (vm_compute; reflexivity).
  assert (D' : deterministic a' = true) by (vm_compute; reflexivity).
  assert (R : roomy a) by (vm_compute; repeat constructor). assert (R' : roomy a') by (vm_compute; repeat constructor).
  apply (Equals_sound false a a' 256 256 r r' G D R ltac:(discriminate) G' D' R' ltac:(discriminate) E E' ltac:(discriminate) HE).
Defined.
