(* ===== verification/DecimalInterval.v ===== *)
(** [MakeDecimalInterval] of [util/automaton/automata.go]: the automata for the decimal
    numbers of an interval, with a fixed number of digits or any number of leading zeros. *)

From stdpp Require Import base tactics numbers list.
From Stdlib Require Import ZArith Lia.
From S2P Require Import Prelude WordBits Nfa Automaton Builder Liveness.

Local Open Scope Z_scope.

(** * Operations

    A call of the code with a string and a position is a call with the rest of the string
    from that position. *)

(** [strconv.Itoa]; an [int] has at most 19 digits. *)
Fixpoint decimals (fuel : nat) (v : Z) (acc : list Z) : list Z :=
  match fuel with
  | O => acc
  | S fuel => if v =? 0 then acc else decimals fuel (v / 10) (48 + v mod 10 :: acc)
  end.

Definition Itoa (n : Z) : list Z :=
  if n =? 0 then [48] else if n <? 0 then 45 :: decimals 19 (- n) [] else decimals 19 n [].

Fixpoint anyOfRightLength (x : list Z) (b : Builder) : AM (Z * Builder) :=
  let '(s, b) := BuilderCreateState b in
  match x with
  | [] => b ← BuilderSetAccept s true b; mret (s, b)
  | _ :: x => '(t, b) ← anyOfRightLength x b; mret (s, BuilderAddTransition s t 48 57 b)
  end.

Fixpoint atLeast (x : list Z) (zeros : bool) (initials : list Z) (b : Builder) : AM (Z * list Z * Builder) :=
  let '(s, b) := BuilderCreateState b in
  match x with
  | [] => b ← BuilderSetAccept s true b; mret (s, initials, b)
  | c :: x =>
      let initials := if zeros then initials ++ [s] else initials in
      '(t, initials, b) ← atLeast x (zeros && (c =? 48)) initials b;
      let b := BuilderAddTransition s t c c b in
      if c <? 57 then
        '(t, b) ← anyOfRightLength x b;
        mret (s, initials, BuilderAddTransition s t (to_byte (c + 1)) 57 b)
      else mret (s, initials, b)
  end.

Fixpoint atMost (x : list Z) (b : Builder) : AM (Z * Builder) :=
  let '(s, b) := BuilderCreateState b in
  match x with
  | [] => b ← BuilderSetAccept s true b; mret (s, b)
  | c :: x =>
      '(t, b) ← atMost x b;
      let b := BuilderAddTransition s t c c b in
      if 48 <? c then
        '(t, b) ← anyOfRightLength x b;
        mret (s, BuilderAddTransition s t 48 (to_byte (c - 1)) b)
      else mret (s, b)
  end.

Fixpoint between (x y : list Z) (zeros : bool) (initials : list Z) (b : Builder) : AM (Z * list Z * Builder) :=
  let '(s, b) := BuilderCreateState b in
  match x, y with
  | [], _ => b ← BuilderSetAccept s true b; mret (s, initials, b)
  | cx :: x, [] => Panic
  | cx :: x, cy :: y =>
      let initials := if zeros then initials ++ [s] else initials in
      if cx =? cy then
        '(t, initials, b) ← between x y (zeros && (cx =? 48)) initials b;
        mret (s, initials, BuilderAddTransition s t cx cx b)
      else
        '(t, initials, b) ← atLeast x (zeros && (cx =? 48)) initials b;
        let b := BuilderAddTransition s t cx cx b in
        '(t, b) ← atMost y b;
        let b := BuilderAddTransition s t cy cy b in
        if to_byte (cx + 1) <? cy then
          '(t, b) ← anyOfRightLength x b;
          mret (s, initials, BuilderAddTransition s t (to_byte (cx + 1)) (to_byte (cy - 1)) b)
        else mret (s, initials, b)
  end.

Definition pad (d : Z) (x : list Z) : list Z := repeat 48 (Z.to_nat (d - Z.of_nat (length x))) ++ x.

Definition MakeDecimalInterval (min max digits : Z) : AM Automaton :=
  let x := Itoa min in
  let y := Itoa max in
  if (max <? min) || (0 <? digits) && (digits <? Z.of_nat (length y)) then Err InvalidInterval else
  let d := if 0 <? digits then digits else Z.of_nat (length y) in
  let xs := pad d x in
  let ys := pad d y in
  let b := NewBuilder in
  let b := if digits <=? 0 then (BuilderCreateState b).2 else b in
  '(_, initials, b) ← between xs ys (digits <=? 0) [] b;
  a1 ← Finish b;
  a1 ← (if digits <=? 0 then
          a1 ← AddTransition 0 0 48 48 a1;
          a1 ← foldM (fun p a1 => AddEpsilon 0 p a1) initials a1;
          FinishState a1
        else mret a1);
  RemoveDeadStates a1.

Example decimal_interval_run :
  (a ← MakeDecimalInterval 7 123 0; f ← MakeDecimalInterval 7 123 3;
   mret (NumStates a, NumStates f, deterministic a, deterministic f, Itoa 123))
  = Ret (13, 13, false, true, [49; 50; 51]).
Proof. vm_compute. reflexivity. Qed.

(** * Decimal numbers *)

Definition decimal (c : Z) : Prop := 48 ≤ c ≤ 57.

(** The number a word of digits denotes. *)
Definition value (w : list Z) : Z := foldl (fun v c => 10 * v + (c - 48)) 0 w.

Notation ten n := (10 ^ Z.of_nat n).

Lemma value_from w : ∀ v, foldl (fun v c => 10 * v + (c - 48)) v w = v * ten (length w) + value w.
Proof.
  unfold value. induction w as [|c w IH]; intros v; cbn [foldl length]; [lia|].
  rewrite IH, (IH (10 * 0 + (c - 48))). rewrite Nat2Z.inj_succ, Z.pow_succ_r by lia. lia.
Qed.

Lemma value_cons c w : value (c :: w) = (c - 48) * ten (length w) + value w.
Proof. unfold value at 1. cbn [foldl]. rewrite value_from. lia. Qed.

Lemma value_app u v : value (u ++ v) = value u * ten (length v) + value v.
Proof. unfold value at 1. by rewrite foldl_app, value_from. Qed.

Lemma ten_pos n : 0 < ten n.
Proof. apply Z.pow_pos_nonneg; lia. Qed.

Lemma ten_le n m : (n ≤ m)%nat → ten n ≤ ten m.
Proof. intros H. apply Z.pow_le_mono_r; lia. Qed.

Lemma value_bounds w : Forall decimal w → 0 ≤ value w < ten (length w).
Proof.
  induction 1 as [|c w Hc _ IH]; [cbn; lia|]. rewrite value_cons. cbn [length].
  rewrite Nat2Z.inj_succ, Z.pow_succ_r by lia. unfold decimal in Hc. pose proof (ten_pos (length w)). nia.
Qed.

Lemma value_zeros n w : value (repeat 48 n ++ w) = value w.
Proof. induction n as [|n IH]; [done|]. cbn [repeat app]. rewrite value_cons, IH. lia. Qed.

Lemma zeros_decimal n : Forall decimal (repeat 48 n).
Proof. apply Forall_forall. intros c Hc%list_elem_of_In%repeat_spec. subst. unfold decimal. lia. Qed.

(** Words of the same length are ordered by their first digit, then by the rest. *)
Lemma value_compare c x d w :
  Forall decimal x → Forall decimal w → length x = length w →
  value (c :: x) ≤ value (d :: w) ↔ c < d ∨ c = d ∧ value x ≤ value w.
Proof.
  intros Hx Hw HL. rewrite !value_cons, HL. apply value_bounds in Hx, Hw. rewrite HL in Hx.
  set (t := ten (length w)) in *. split; [|nia]. intros H. destruct (Z.lt_trichotomy c d) as [?|[->|?]]; [by left|right; lia|nia].
Qed.

(** A word with a number less than a power of ten begins with zeros. *)
Lemma value_small n w :
  Forall decimal w → (n ≤ length w)%nat → value w < ten n → w = repeat 48 (length w - n) ++ drop (length w - n) w.
Proof.
  intros Hw Hn Hv. revert n Hn Hv. induction Hw as [|c w Hc Hw IH]; intros n Hn Hv; cbn [length] in *.
  - by replace n with 0%nat by lia.
  - destruct (decide (n = S (length w))) as [->|]; [by rewrite Nat.sub_diag|].
    rewrite value_cons in Hv. pose proof (value_bounds w Hw). pose proof (ten_pos (length w)).
    pose proof (ten_le n (length w) ltac:(lia)). unfold decimal in Hc.
    assert (c = 48) as -> by nia. replace (S (length w) - n)%nat with (S (length w - n)) by lia.
    cbn [repeat drop app]. f_equal. apply IH; lia.
Qed.

Lemma decimals_spec fuel : ∀ v acc, 0 ≤ v < ten fuel →
  ∃ ds, decimals fuel v acc = ds ++ acc ∧ Forall decimal ds ∧ value ds = v ∧ (v = 0 → ds = []) ∧
        (0 < v → ds ≠ [] ∧ ten (length ds - 1) ≤ v).
Proof.
  induction fuel as [|fuel IH]; intros v acc Hv; cbn [decimals].
  - exists []. cbn in *. split_and!; [done|constructor|lia|done|lia].
  - destruct (Z.eqb_spec v 0) as [->|Hne]; [exists []; by split_and!; [|constructor|..]|].
    rewrite Nat2Z.inj_succ, Z.pow_succ_r in Hv by lia.
    pose proof (Z.div_mod v 10). pose proof (Z.mod_pos_bound v 10).
    destruct (IH (v / 10) (48 + v mod 10 :: acc)) as (ds & -> & HF & HV & Hnil & HM);
      [split; [apply Z.div_pos|apply Z.div_lt_upper_bound]; lia|].
    exists (ds ++ [48 + v mod 10]). rewrite <- app_assoc. split_and!; [done| | |done|].
    + apply Forall_app_2; [done|]. apply Forall_singleton. unfold decimal. lia.
    + rewrite value_app, HV. unfold value. cbn. lia.
    + intros _. split; [by destruct ds|]. rewrite length_app. cbn [length].
      destruct (Z.eq_dec (v / 10) 0) as [E|E]; [rewrite (Hnil E); cbn; lia|].
      destruct HM as [Hne' HM]; [pose proof (Z.div_pos v 10); lia|]. destruct ds as [|d ds]; [done|]. cbn [length] in *.
      replace (S (length ds) + 1 - 1)%nat with (S (S (length ds) - 1)) by lia.
      rewrite Nat2Z.inj_succ, Z.pow_succ_r by lia. lia.
Qed.

(** What [strconv.Itoa] gives for a natural number. *)
Record numeral (n : Z) (x : list Z) : Prop := {
  nl_decimal : Forall decimal x;
  nl_value : value x = n;
  nl_nonempty : x ≠ [];
  nl_short : (1 < length x)%nat → ten (length x - 1) ≤ n
}.

Lemma Itoa_spec n : 0 ≤ n < 2 ^ 63 → numeral n (Itoa n).
Proof.
  intros Hn. unfold Itoa. destruct (Z.eqb_spec n 0) as [->|Hne].
  - split; [repeat constructor; unfold decimal; lia|done|done|cbn; lia].
  - rewrite (proj2 (Z.ltb_ge _ _)) by lia. destruct (decimals_spec 19 n []) as (ds & -> & HF & HV & _ & HM); [cbn; lia|].
    rewrite app_nil_r. destruct HM as [? ?]; [lia|]. by split.
Qed.

Lemma numeral_length n m x y : numeral n x → numeral m y → n ≤ m → (length x ≤ length y)%nat.
Proof.
  intros [_ _ Hx HM] [HF HV Hy _] Hnm. destruct x as [|c x]; [done|]. destruct y as [|d y]; [done|].
  destruct (decide (length (c :: x) ≤ length (d :: y))%nat) as [|Hlt]; [done|].
  assert (ten (length (c :: x) - 1) ≤ n) by (apply HM; cbn in *; lia).
  pose proof (value_bounds _ HF). pose proof (ten_le (length (d :: y)) (length (c :: x) - 1)). lia.
Qed.

Lemma pad_spec d n x : numeral n x → Z.of_nat (length x) ≤ d →
  Forall decimal (pad d x) ∧ value (pad d x) = n ∧ Z.of_nat (length (pad d x)) = d.
Proof.
  intros [HF HV _ _] Hd. unfold pad. split_and!.
  - apply Forall_app_2; [apply zeros_decimal|done].
  - by rewrite value_zeros.
  - rewrite length_app, repeat_length. lia.
Qed.

(** * Growing trees in a builder *)

(** States are added, with transitions among themselves only. *)
Record grown (b b' : Builder) : Prop := {
  gw_wf : bwf b';
  gw_next : b_nextState b ≤ b_nextState b';
  gw_edge : ∀ s c d, s < b_nextState b → b_edge b' s c d ↔ b_edge b s c d;
  gw_accept : ∀ s, s < b_nextState b → b_accept b' s = b_accept b s;
  gw_new : ∀ s c d, b_nextState b ≤ s → b_edge b' s c d → b_nextState b ≤ d
}.

(** The words accepted from a state of a builder. *)
Definition from (b : Builder) (s : Z) (w : list Z) : Prop := accepts_from (b_edge b) (fun q => b_accept b q = true) s w.

Lemma grown_from b b' s w : bwf b → grown b b' → s < b_nextState b → from b' s w ↔ from b s w.
Proof.
  intros W [_ _ HE HA _] Hs. apply (accepts_ext (fun q => q < b_nextState b)); [done| | |done].
  - intros q c d Hq He. apply HE in He; [|done]. apply b_edge_dest in He as (_ & ? & _); [lia|done].
  - intros q Hq. by rewrite HA.
Qed.

Lemma grown_trans b1 b2 b3 : grown b1 b2 → grown b2 b3 → grown b1 b3.
Proof.
  intros [W1 N1 E1 A1 F1] [W2 N2 E2 A2 F2]. split; [done|lia| | |].
  - intros s c d Hs. by rewrite E2, E1 by lia.
  - intros s Hs. by rewrite A2, A1 by lia.
  - intros s c d Hs He. destruct (Z.lt_ge_cases s (b_nextState b2)) as [Hl|Hg].
    + apply E2 in He; [|done]. by apply F1 in He.
    + apply F2 in He; [lia|done].
Qed.

(** A state has been created with everything below it; [Q] is what it accepts. *)
Record node (b b' : Builder) (Q : list Z → Prop) : Prop := {
  nd_grown : grown b b';
  nd_next : b_nextState b < b_nextState b';
  nd_below : ∀ s c d, b_nextState b ≤ s → b_edge b' s c d → b_nextState b < d;
  nd_from : ∀ w, from b' (b_nextState b) w ↔ Q w
}.

Lemma node_iff b b' Q R : (∀ w, Q w ↔ R w) → node b b' Q → node b b' R.
Proof. intros H [H1 H2 H3 H4]. split; [done..|]. intros w. by rewrite H4. Qed.

Lemma no_edges b s c d : bwf b → b_nextState b ≤ s → ¬ b_edge b s c d.
Proof. intros W Hs He. apply b_edge_dest in He; [lia|done]. Qed.

Lemma not_accept b s : bwf b → b_nextState b ≤ s → b_accept b s = false.
Proof. intros W Hs. destruct (b_accept b s) eqn:E; [|done]. apply (bwf_accept _ W) in E. lia. Qed.

Lemma node_create b : bwf b → ∃ b', BuilderCreateState b = (b_nextState b, b') ∧ node b b' (fun _ => False) ∧
  ∀ s c d, b_nextState b ≤ s → ¬ b_edge b' s c d.
Proof.
  intros W. destruct (BuilderCreateState_spec b W) as (b' & E & W' & N & T & A). exists b'. split; [done|].
  assert (HE : ∀ s c d, b_edge b' s c d ↔ b_edge b s c d) by (intros; unfold b_edge; by rewrite T).
  assert (HN : ∀ s c d, b_nextState b ≤ s → ¬ b_edge b' s c d) by (intros s c d Hs He; apply HE in He; by apply no_edges in He).
  split; [|done]. split; [split; [done|lia|done|done|]|lia| |].
  - intros s c d Hs He. by apply HN in He.
  - intros s c d Hs He. by apply HN in He.
  - intros w. split; [|done]. unfold from. destruct w as [|c w]; [rewrite accepts_nil|rewrite accepts_cons].
    + by rewrite A, not_accept by (done || lia).
    + intros (d & He & _). by apply HN in He.
Qed.

Lemma node_leaf b : bwf b → ∃ b1 b', BuilderCreateState b = (b_nextState b, b1) ∧
  BuilderSetAccept (b_nextState b) true b1 = Ret b' ∧ node b b' (fun w => w = []).
Proof.
  intros W. destruct (node_create b W) as (b1 & E & [[W1 N1 E1 A1 F1] Hn B1 L1] & HN). exists b1.
  destruct (BuilderSetAccept_spec (b_nextState b) true b1 W1) as (b' & EA & W' & N' & T' & A'); [pose proof (bwf_states _ W); lia|].
  exists b'. split_and!; [done..|]. assert (HE : ∀ s c d, b_edge b' s c d ↔ b_edge b1 s c d) by (intros; unfold b_edge; by rewrite T').
  split; [split|..]; rewrite ?N'; try done.
  - intros s c d Hs. by rewrite HE, E1.
  - intros s Hs. rewrite A'. case_decide; [lia|]. by apply A1.
  - intros s c d Hs He. apply HE in He. by apply HN in He.
  - intros s c d Hs He. apply HE in He. by apply HN in He.
  - intros w. unfold from. destruct w as [|c w]; [rewrite accepts_nil, A'|rewrite accepts_cons].
    + by rewrite decide_True.
    + split; [|done]. intros (d & He & _). apply HE in He. by apply HN in He.
Qed.

(** A transition from the root of a node to a node made after it. *)
Lemma node_add b b1 b2 Q R lo hi :
  bwf b → node b b1 Q → node b1 b2 R → 0 ≤ lo ≤ hi →
  let b3 := BuilderAddTransition (b_nextState b) (b_nextState b1) lo hi b2 in
  node b b3 (fun w => Q w ∨ ∃ c v, w = c :: v ∧ lo ≤ c ≤ hi ∧ R v) ∧
  b_nextState b3 = b_nextState b2 ∧
  ∀ p w, b_nextState b < p → from b3 p w ↔ from b2 p w.
Proof.
  intros W [G1 N1 B1 L1] [G2 N2 B2 L2] Hl b3. pose proof (bwf_states _ W) as HP.
  destruct (BuilderAddTransition_spec (b_nextState b) (b_nextState b1) lo hi b2 (gw_wf _ _ G2)) as [W3 E3]; [cbn; lia|].
  fold b3 in W3, E3. pose proof (grown_trans _ _ _ G1 G2) as G12.
  assert (N3 : b_nextState b3 = b_nextState b2) by done. assert (A3 : ∀ s, b_accept b3 s = b_accept b2 s) by done.
  assert (B12 : ∀ s c d, b_nextState b ≤ s → b_edge b2 s c d → b_nextState b < d).
  { intros s c d Hs He. destruct (Z.lt_ge_cases s (b_nextState b1)) as [Hlt|Hge].
    - apply (gw_edge _ _ G2) in He; [|done]. by apply (B1 s c).
    - apply (gw_new _ _ G2) in He; [lia|done]. }
  assert (B3 : ∀ s c d, b_nextState b ≤ s → b_edge b3 s c d → b_nextState b < d).
  { intros s c d Hs He. apply E3 in He as [He|(-> & -> & _)]; [by apply (B12 s c)|lia]. }
  assert (HF : ∀ p w, b_nextState b < p → from b3 p w ↔ from b2 p w).
  { intros p w Hp. apply (accepts_ext (fun q => b_nextState b < q)); [| |by intros q _; rewrite A3|done].
    - intros q c d Hq. rewrite E3. split; [|by left]. intros [?|(-> & _)]; [done|lia].
    - intros q c d Hq. apply B3. lia. }
  split; [|by split]. split; [split; [done|rewrite N3; pose proof (gw_next _ _ G12); lia|..]|lia|done|].
  - intros s c d Hs. rewrite E3, (gw_edge _ _ G12) by done. split; [|by left]. intros [?|(-> & _)]; [done|lia].
  - intros s Hs. rewrite A3. by apply (gw_accept _ _ G12).
  - intros s c d Hs He. apply E3 in He as [He|(-> & -> & _)]; [by apply (gw_new _ _ G12 s c)|lia].
  - intros w. rewrite <- L1, <- (grown_from b1 b2 (b_nextState b) w (gw_wf _ _ G1) G2 N1). destruct w as [|c w].
    + unfold from. rewrite !accepts_nil, A3. split; [by left|]. intros [?|(? & ? & ? & _)]; done.
    + unfold from at 1 2. rewrite !accepts_cons. split.
      * intros (d & He & Hw). pose proof (B3 _ _ _ (Z.le_refl _) He) as Hd. apply HF in Hw; [|done].
        apply E3 in He as [He|(_ & -> & Hc)]; [left; by exists d|].
        right. exists c, w. split_and!; [done|lia|lia|]. by apply L2.
      * intros [(d & He & Hw)|(c' & v & [= <- <-] & Hc & Hv)].
        { exists d. split; [apply E3; by left|]. apply HF; [by apply (B12 _ _ _ (Z.le_refl _) He)|done]. }
        { exists (b_nextState b1). split; [apply E3; by right|]. apply HF; [lia|]. by apply L2. }
Qed.

(** The states in [news], all below the root, together accept [R]. *)
Definition starts (b b' : Builder) (news : list Z) (R : list Z → Prop) : Prop :=
  Forall (fun p => b_nextState b ≤ p < b_nextState b') news ∧ ∀ w, (∃ p, p ∈ news ∧ from b' p w) ↔ R w.

(** They are untouched by a transition from a root above them. *)
Lemma starts_above b b1 b2 b3 news S :
  b_nextState b < b_nextState b1 → b_nextState b3 = b_nextState b2 →
  (∀ p w, b_nextState b < p → from b3 p w ↔ from b2 p w) → starts b1 b2 news S → starts b1 b3 news S.
Proof.
  intros Hlt HN HP [HF HS]. split; [by rewrite HN|]. intros w. rewrite <- HS. rewrite Forall_forall in HF.
  split; intros (p & Hp & Hw); exists p; (split; [done|]); apply (HP p w); try done; specialize (HF p Hp); lia.
Qed.

Lemma starts_base b b1 b2 news S : b_nextState b ≤ b_nextState b1 → starts b1 b2 news S → starts b b2 news S.
Proof. intros Hle [HF HS]. split; [|done]. eapply Forall_impl; [exact HF|]. cbn. lia. Qed.

Lemma starts_grown b b1 b2 news S : bwf b1 → grown b1 b2 → starts b b1 news S → starts b b2 news S.
Proof.
  intros W G [HF HS]. pose proof (gw_next _ _ G). split; [eapply Forall_impl; [exact HF|]; cbn; lia|].
  intros w. rewrite <- HS. rewrite Forall_forall in HF.
  split; intros (p & Hp & Hw); exists p; (split; [done|]); apply (grown_from b1 b2 p w W G); try done; specialize (HF p Hp); lia.
Qed.

(** * Numbers of the right length *)

Definition of_length (x w : list Z) : Prop := Forall decimal w ∧ length w = length x.

Lemma to_byte_decimal c : 47 ≤ c ≤ 58 → to_byte c = c.
Proof. intros Hc. apply uwrap_id. unfold in_uint. lia. Qed.

Lemma of_length_nil x : x = [] → ∀ w, w = [] ↔ of_length x w.
Proof. intros -> w. unfold of_length. split; [intros ->; by split; [constructor|]|]. by intros [_ ?%nil_length_inv]. Qed.

Lemma of_length_cons d x w : of_length (d :: x) w ↔ ∃ c v, w = c :: v ∧ decimal c ∧ of_length x v.
Proof.
  unfold of_length. split.
  - intros [HF HL]. destruct w as [|c v]; [done|]. apply Forall_cons in HF as [? ?]. exists c, v. split_and!; try done. by injection HL.
  - intros (c & v & -> & Hc & HF & HL). split; [by constructor|cbn; lia].
Qed.

Lemma anyOfRightLength_spec x : ∀ b, bwf b →
  ∃ b', anyOfRightLength x b = Ret (b_nextState b, b') ∧ node b b' (of_length x).
Proof.
  induction x as [|d x IH]; intros b W; cbn [anyOfRightLength].
  - destruct (node_leaf b W) as (b1 & b' & -> & -> & HN). exists b'. split; [done|].
    by eapply node_iff; [apply of_length_nil|].
  - destruct (node_create b W) as (b1 & -> & HN & _). destruct (IH b1) as (b2 & -> & HN2); [apply HN|].
    rewrite go_bind_ret. eexists. split; [done|].
    destruct (node_add b b1 b2 _ _ 48 57 W HN HN2) as [HA _]; [lia|].
    eapply node_iff; [|exact HA]. intros w. rewrite of_length_cons. unfold decimal. naive_solver.
Qed.

(** One digit [c] with the words [P], digits from [lo] to [hi] with any rest. *)
Definition branch (c lo hi : Z) (P R : list Z → Prop) (w : list Z) : Prop :=
  ∃ d v, w = d :: v ∧ (d = c ∧ P v ∨ lo ≤ d ≤ hi ∧ R v).

Lemma branch_add b b1 b2 b4 c P R lo hi :
  bwf b → node b b1 (fun _ => False) → node b1 b2 P → 0 ≤ c →
  let b3 := BuilderAddTransition (b_nextState b) (b_nextState b1) c c b2 in
  node b3 b4 R → 0 ≤ lo ≤ hi →
  let b5 := BuilderAddTransition (b_nextState b) (b_nextState b3) lo hi b4 in
  node b b5 (branch c lo hi P R) ∧ (∀ news S, starts b1 b2 news S → starts b b5 news S).
Proof.
  intros W H1 H2 Hc b3 H4 Hl b5.
  destruct (node_add b b1 b2 _ _ c c W H1 H2) as [H3 _]; [lia|].
  destruct (node_add b b3 b4 _ _ lo hi W H3 H4 Hl) as [H5 _]. split.
  - eapply node_iff; [|exact H5]. unfold branch. intros w. split.
    + intros [[[]|(d & v & -> & Hd & HP)]|(d & v & -> & Hd & HR)]; exists d, v; (split; [done|]); [left; split; [lia|done]|by right].
    + intros (d & v & -> & [[-> HP]|[Hd HR]]); [left; right|right]; eexists _, v; (split_and!; [done|lia|lia|done]).
  - intros news S HS. pose proof (nd_next _ _ _ H1). destruct (node_add b b1 b2 _ _ c c W H1 H2) as (_ & HN3 & HP3); [lia|].
    destruct (node_add b b3 b4 _ _ lo hi W H3 H4 Hl) as (_ & HN5 & HP5).
    apply (starts_base b b1); [lia|]. eapply (starts_above b b1 b4); [done..|].
    eapply starts_grown; [apply H3|apply H4|]. by eapply (starts_above b b1 b2).
Qed.

(** The single digit [c]. *)
Lemma single_add b b1 b2 c P :
  bwf b → node b b1 (fun _ => False) → node b1 b2 P → 0 ≤ c →
  let b3 := BuilderAddTransition (b_nextState b) (b_nextState b1) c c b2 in
  node b b3 (branch c 1 0 P P) ∧ (∀ news S, starts b1 b2 news S → starts b b3 news S).
Proof.
  intros W H1 H2 Hc b3. destruct (node_add b b1 b2 _ _ c c W H1 H2) as (H3 & HN3 & HP3); [lia|]. split.
  - eapply node_iff; [|exact H3]. unfold branch. intros w. split.
    + intros [[]|(d & v & -> & Hd & HP)]. exists d, v. split; [done|]. left. split; [lia|done].
    + intros (d & v & -> & [[-> HP]|[Hd _]]); [right|lia]. exists c, v. split_and!; [done|lia|lia|done].
  - intros news S HS. pose proof (nd_next _ _ _ H1). apply (starts_base b b1); [lia|]. by eapply (starts_above b b1 b2).
Qed.

Definition at_most (x w : list Z) : Prop := of_length x w ∧ value w ≤ value x.
Definition at_least (x w : list Z) : Prop := of_length x w ∧ value x ≤ value w.

Lemma number_at_most_cons c x w :
  Forall decimal (c :: x) →
  at_most (c :: x) w ↔ branch c 48 (c - 1) (at_most x) (of_length x) w.
Proof.
  intros [Hc Hx]%Forall_cons. unfold at_most, branch. rewrite of_length_cons. unfold decimal in Hc. split.
  - intros [(d & v & -> & Hd & HF & HL) Hle]. exists d, v. split; [done|]. apply value_compare in Hle; [|done..].
    unfold decimal in Hd. destruct Hle as [?|[-> ?]]; [right; split; [lia|done]|by left].
  - intros (d & v & -> & [[-> [[HF HL] Hle]]|[Hd [HF HL]]]).
    + split; [by exists c, v|]. apply value_compare; auto.
    + split; [exists d, v; split; [done|]; split; [unfold decimal; lia|by split]|]. apply value_compare; auto. left. lia.
Qed.

Lemma at_least_cons c x w :
  Forall decimal (c :: x) →
  at_least (c :: x) w ↔ branch c (c + 1) 57 (at_least x) (of_length x) w.
Proof.
  intros [Hc Hx]%Forall_cons. unfold at_least, branch. rewrite of_length_cons. unfold decimal in Hc. split.
  - intros [(d & v & -> & Hd & HF & HL) Hle]. exists d, v. split; [done|]. apply value_compare in Hle; [|done..].
    unfold decimal in Hd. destruct Hle as [?|[-> ?]]; [right; split; [lia|done]|by left].
  - intros (d & v & -> & [[-> [[HF HL] Hle]]|[Hd [HF HL]]]).
    + split; [by exists c, v|]. apply value_compare; auto.
    + split; [exists d, v; split; [done|]; split; [unfold decimal; lia|by split]|]. apply value_compare; auto. left. lia.
Qed.

Lemma number_at_most_nil w : w = [] ↔ at_most [] w.
Proof. unfold at_most. rewrite <- of_length_nil by done. split; [by intros ->|by intros [? _]]. Qed.

Lemma at_least_nil w : w = [] ↔ at_least [] w.
Proof. unfold at_least. rewrite <- of_length_nil by done. split; [by intros ->|by intros [? _]]. Qed.

(** An empty range adds nothing. *)
Lemma branch_empty c lo hi P R w : hi < lo → branch c lo hi P R w ↔ branch c 1 0 P P w.
Proof. intros H. unfold branch. split; intros (d & v & -> & [?|[? _]]); try lia; exists d, v; auto. Qed.

Lemma atMost_spec x : ∀ b, Forall decimal x → bwf b →
  ∃ b', atMost x b = Ret (b_nextState b, b') ∧ node b b' (at_most x).
Proof.
  induction x as [|c x IH]; intros b HF W; cbn [atMost].
  - destruct (node_leaf b W) as (b1 & b' & -> & -> & HN). exists b'. split; [done|].
    eapply node_iff; [apply number_at_most_nil|done].
  - destruct (node_create b W) as (b1 & -> & HN & _). pose proof HF as [Hc Hx]%Forall_cons. unfold decimal in Hc.
    destruct (IH b1 Hx) as (b2 & -> & HN2); [apply HN|]. rewrite go_bind_ret.
    destruct (single_add b b1 b2 c _ W HN HN2) as [H3 _]; [lia|]. cbn zeta.
    destruct (Z.ltb_spec 48 c) as [Hlt|Hge].
    + destruct (anyOfRightLength_spec x _ (gw_wf _ _ (nd_grown _ _ _ H3))) as (b4 & -> & H4). rewrite go_bind_ret.
      eexists. split; [done|]. rewrite to_byte_decimal by lia.
      destruct (branch_add b b1 b2 b4 c _ (of_length x) 48 (c - 1) W HN HN2) as [H5 _]; [lia|done|lia|].
      eapply node_iff; [intros w; symmetry; by apply number_at_most_cons|done].
    + eexists. split; [done|]. eapply node_iff; [|exact H3]. intros w. rewrite number_at_most_cons by done.
      symmetry. apply branch_empty. lia.
Qed.

(** ** The states to start from, when leading zeros may be left out *)

(** Shorter words, with a number in the interval. *)
Definition short_at_least (x w : list Z) : Prop :=
  Forall decimal w ∧ w ≠ [] ∧ (length w ≤ length x)%nat ∧ value x ≤ value w.

Definition when (zeros : bool) (R : list Z → Prop) (w : list Z) : Prop := zeros = true ∧ R w.

Lemma starts_nil b b' zeros (R : list Z → Prop) : (∀ w, ¬ when zeros R w) → starts b b' [] (when zeros R).
Proof. intros H. split; [constructor|]. intros w. split; [by intros (? & ?%elem_of_nil & _)|by intros ?%H]. Qed.

Lemma starts_iff b b' news R S : (∀ w, R w ↔ S w) → starts b b' news R → starts b b' news S.
Proof. intros H [HF HS]. split; [done|]. intros w. by rewrite HS. Qed.

(** The root joins the states below it. *)
Lemma starts_cons b b' Q zeros R news :
  node b b' Q → starts b b' news (when zeros R) →
  starts b b' ((if zeros then [b_nextState b] else []) ++ (if zeros then news else [])) (when zeros (fun w => Q w ∨ R w)).
Proof.
  intros [_ Hn _ HQ] [HF HS]. destruct zeros; [|apply starts_nil; by intros w [? _]]. split.
  - constructor; [lia|done].
  - intros w. unfold when in *. setoid_rewrite elem_of_cons. split.
    + intros (p & [->|Hp] & Hw); (split; [done|]); [left; by apply HQ|right]. apply (proj1 (HS w)). eauto.
    + intros (_ & [Hw|Hw]); [exists (b_nextState b); split; [by left|by apply HQ]|].
      destruct (proj2 (HS w)) as (p & ? & ?); [done|]. exists p. split; [by right|done].
Qed.

Lemma starts_root b b' Q R T zeros c initials news :
  node b b' Q → starts b b' news (when (zeros && (c =? 48)) R) → (∀ w, T w ↔ Q w ∨ c = 48 ∧ R w) →
  ∃ news', (if zeros then initials ++ [b_nextState b] else initials) ++ news = initials ++ news' ∧
    starts b b' news' (when zeros T).
Proof.
  intros HN HS HT. destruct zeros.
  - exists (b_nextState b :: news). split; [by rewrite <- app_assoc|].
    eapply starts_iff; [|apply (starts_cons b b' Q true (fun w => c = 48 ∧ R w) news HN)].
    + intros w. unfold when. by rewrite HT.
    + eapply starts_iff; [|exact HS]. intros w. unfold when. cbn [andb]. rewrite Z.eqb_eq. tauto.
  - exists news. split; [done|]. eapply starts_iff; [|exact HS]. intros w. unfold when. cbn [andb]. naive_solver.
Qed.

Lemma short_at_least_cons c x w :
  Forall decimal (c :: x) →
  short_at_least (c :: x) w ↔ at_least (c :: x) w ∨ c = 48 ∧ short_at_least x w.
Proof.
  intros [Hc Hx]%Forall_cons. unfold short_at_least, at_least, of_length. rewrite value_cons. cbn [length].
  unfold decimal in Hc. split.
  - intros (HF & Hne & HL & Hle). destruct (decide (length w = S (length x))); [by left|right].
    pose proof (value_bounds w HF). pose proof (value_bounds x Hx). pose proof (ten_le (length w) (length x) ltac:(lia)).
    assert (c = 48) as -> by nia. split_and!; [done..|lia|lia].
  - intros [[[HF HL] Hle]|(-> & HF & Hne & HL & Hle)]; split_and!; try done; try lia. by intros ->.
Qed.

Lemma atLeast_spec x : ∀ zeros initials b, Forall decimal x → bwf b →
  ∃ news b', atLeast x zeros initials b = Ret (b_nextState b, initials ++ news, b') ∧ node b b' (at_least x) ∧
    starts b b' news (when zeros (short_at_least x)).
Proof.
  induction x as [|c x IH]; intros zeros initials b HF W; cbn [atLeast].
  - destruct (node_leaf b W) as (b1 & b' & -> & -> & HN). exists [], b'. rewrite app_nil_r. split_and!; [done| |].
    + eapply node_iff; [apply at_least_nil|done].
    + apply starts_nil. intros w (_ & _ & Hne & HL & _). destruct w; [done|cbn in HL; lia].
  - destruct (node_create b W) as (b1 & -> & HN & _). pose proof HF as [Hc Hx]%Forall_cons. unfold decimal in Hc. cbn zeta.
    destruct (IH (zeros && (c =? 48)) (if zeros then initials ++ [b_nextState b] else initials) b1 Hx)
      as (news & b2 & -> & HN2 & HS2); [apply HN|]. rewrite go_bind_ret.
    destruct (single_add b b1 b2 c _ W HN HN2) as [H3 HS3]; [lia|].
    assert (Hend : ∀ b5, node b b5 (at_least (c :: x)) → starts b b5 news (when (zeros && (c =? 48)) (short_at_least x)) →
      ∃ news' b', (mret (b_nextState b, (if zeros then initials ++ [b_nextState b] else initials) ++ news, b5) : AM (Z * list Z * Builder)) =
                  Ret (b_nextState b, initials ++ news', b') ∧
        node b b' (at_least (c :: x)) ∧ starts b b' news' (when zeros (short_at_least (c :: x)))).
    { intros b5 H5 HS5. destruct (starts_root b b5 _ _ (short_at_least (c :: x)) zeros c initials news H5 HS5) as (news' & -> & HS').
      - intros w. by apply short_at_least_cons.
      - exists news', b5. by split_and!. }
    destruct (Z.ltb_spec c 57) as [Hlt|Hge].
    + destruct (anyOfRightLength_spec x _ (gw_wf _ _ (nd_grown _ _ _ H3))) as (b4 & -> & H4). rewrite go_bind_ret.
      rewrite to_byte_decimal by lia.
      destruct (branch_add b b1 b2 b4 c _ (of_length x) (c + 1) 57 W HN HN2) as [H5 HS5]; [lia|done|lia|].
      apply Hend; [|by apply HS5]. eapply node_iff; [intros w; symmetry; by apply at_least_cons|done].
    + apply Hend; [|by apply HS3]. eapply node_iff; [|exact H3]. intros w. rewrite at_least_cons by done.
      symmetry. apply branch_empty. lia.
Qed.

Definition within (x y w : list Z) : Prop := of_length x w ∧ value x ≤ value w ≤ value y.
Definition short_within (x y w : list Z) : Prop :=
  Forall decimal w ∧ w ≠ [] ∧ (length w ≤ length x)%nat ∧ value x ≤ value w ≤ value y.

Lemma within_same c x y w :
  Forall decimal (c :: x) → Forall decimal y → length x = length y →
  within (c :: x) (c :: y) w ↔ branch c 1 0 (within x y) (within x y) w.
Proof.
  intros [Hc Hx]%Forall_cons Hy HL. unfold within, branch. rewrite of_length_cons. unfold decimal in Hc. split.
  - intros [(d & v & -> & Hd & HF & Hv) [H1 H2]]. exists d, v. split; [done|]. apply value_compare in H1, H2; try done; [|congruence].
    left. split; [lia|]. split; [by split|lia].
  - intros (d & v & -> & [[-> [[HF Hv] [H1 H2]]]|[Hd _]]); [|lia].
    split; [by exists c, v|]. rewrite !value_compare by (done || congruence). auto.
Qed.

Lemma within_split cx cy x y w :
  Forall decimal (cx :: x) → Forall decimal (cy :: y) → length x = length y → cx < cy →
  within (cx :: x) (cy :: y) w ↔
  ∃ d v, w = d :: v ∧ (d = cx ∧ at_least x v ∨ d = cy ∧ at_most y v ∨ cx + 1 ≤ d ≤ cy - 1 ∧ of_length x v).
Proof.
  intros [Hcx Hx]%Forall_cons [Hcy Hy]%Forall_cons HL Hlt. unfold within, at_least, at_most. rewrite of_length_cons.
  unfold decimal in Hcx, Hcy. assert (HLy : ∀ v, of_length y v ↔ of_length x v) by (intros v; unfold of_length; by rewrite HL).
  split.
  - intros [(d & v & -> & Hd & HF & Hv) [H1 H2]]. exists d, v. split; [done|]. rewrite HLy.
    apply value_compare in H1, H2; try done; [|congruence]. assert (of_length x v) by by split.
    destruct H1 as [?|[-> ?]], H2 as [?|[-> ?]]; [right; right|right; left|left|left]; try lia; auto. split; [lia|done].
  - intros (d & v & -> & Hd). rewrite HLy in Hd. assert (Hv : of_length x v) by naive_solver. pose proof Hv as [HF Hl].
    split; [exists d, v; split; [done|]; split; [unfold decimal; lia|done]|].
    rewrite !value_compare by (done || congruence). lia.
Qed.

Lemma short_within_same c x y w :
  Forall decimal (c :: x) → Forall decimal y → length x = length y →
  short_within (c :: x) (c :: y) w ↔ within (c :: x) (c :: y) w ∨ c = 48 ∧ short_within x y w.
Proof.
  intros [Hc Hx]%Forall_cons Hy HL. unfold short_within, within, of_length. rewrite !value_cons, <- HL. cbn [length].
  unfold decimal in Hc. split.
  - intros (HF & Hne & Hl & H1 & H2). destruct (decide (length w = S (length x))); [by left|right].
    pose proof (value_bounds w HF). pose proof (value_bounds x Hx). pose proof (ten_le (length w) (length x) ltac:(lia)).
    assert (c = 48) as -> by nia. split_and!; [done..|lia|lia|lia].
  - intros [[[HF Hl] [H1 H2]]|(-> & HF & Hne & Hl & H1 & H2)]; split_and!; try done; try lia. by intros ->.
Qed.

Lemma short_within_split cx cy x y w :
  Forall decimal (cx :: x) → Forall decimal (cy :: y) → length x = length y → cx < cy →
  short_within (cx :: x) (cy :: y) w ↔ within (cx :: x) (cy :: y) w ∨ cx = 48 ∧ short_at_least x w.
Proof.
  intros [Hc Hx]%Forall_cons [Hc' Hy]%Forall_cons HL Hlt. unfold short_within, short_at_least, within, of_length.
  rewrite !value_cons, <- HL. cbn [length]. unfold decimal in Hc, Hc'.
  pose proof (value_bounds x Hx). pose proof (value_bounds y Hy) as Hby. rewrite <- HL in Hby. split.
  - intros (HF & Hne & Hl & H1 & H2). destruct (decide (length w = S (length x))); [by left|right].
    pose proof (value_bounds w HF). pose proof (ten_le (length w) (length x) ltac:(lia)).
    assert (cx = 48) as -> by nia. split_and!; [done..|lia|lia].
  - intros [[[HF Hl] [H1 H2]]|(-> & HF & Hne & Hl & H1)]; [split_and!; try done; try lia; by intros ->|].
    pose proof (value_bounds w HF). pose proof (ten_le (length w) (length x) Hl). split_and!; [done..|lia|lia|nia].
Qed.

Lemma starts_node_add b b1 b3 b4 Q R lo hi news S :
  bwf b → node b b3 Q → node b3 b4 R → 0 ≤ lo ≤ hi → b_nextState b < b_nextState b1 → starts b1 b3 news S →
  starts b1 (BuilderAddTransition (b_nextState b) (b_nextState b3) lo hi b4) news S.
Proof.
  intros W H3 H4 Hl Hlt HS. destruct (node_add b b3 b4 _ _ lo hi W H3 H4 Hl) as (_ & HN & HP).
  eapply (starts_above b b1 b4); [done..|]. eapply starts_grown; [apply H3|apply H4|done].
Qed.

(** The three branches at the first digit where the bounds differ. *)
Lemma between_split b b1 b2 cx cy x y news S :
  bwf b → node b b1 (fun _ => False) → node b1 b2 (at_least x) → starts b1 b2 news S →
  Forall decimal (cx :: x) → Forall decimal (cy :: y) → length x = length y → cx < cy →
  ∃ b', (let s := b_nextState b in
         let b3 := BuilderAddTransition s (b_nextState b1) cx cx b2 in
         '(t, b4) ← atMost y b3;
         let b5 := BuilderAddTransition s t cy cy b4 in
         if to_byte (cx + 1) <? cy then
           '(t, b6) ← anyOfRightLength x b5;
           mret (BuilderAddTransition s t (to_byte (cx + 1)) (to_byte (cy - 1)) b6)
         else mret b5 : AM Builder) = Ret b' ∧
    node b b' (within (cx :: x) (cy :: y)) ∧ starts b b' news S.
Proof.
  intros W HN HN2 HS HFx HFy HL Hlt. pose proof HFx as [Hcx Hx]%Forall_cons. pose proof HFy as [Hcy Hy]%Forall_cons.
  unfold decimal in Hcx, Hcy. pose proof (nd_next _ _ _ HN) as Hnext. cbn zeta.
  destruct (node_add b b1 b2 _ _ cx cx W HN HN2) as (H3 & HN3 & HP3); [lia|].
  pose proof (starts_above b b1 b2 _ news S Hnext HN3 HP3 HS) as HS3.
  set (b3 := BuilderAddTransition (b_nextState b) (b_nextState b1) cx cx b2) in *.
  destruct (atMost_spec y b3 Hy (gw_wf _ _ (nd_grown _ _ _ H3))) as (b4 & -> & H4). rewrite go_bind_ret.
  destruct (node_add b b3 b4 _ _ cy cy W H3 H4) as (H5 & _); [lia|].
  pose proof (starts_node_add b b1 b3 b4 _ _ cy cy news S W H3 H4 ltac:(lia) Hnext HS3) as HS5.
  set (b5 := BuilderAddTransition (b_nextState b) (b_nextState b3) cy cy b4) in *.
  rewrite to_byte_decimal by lia. destruct (Z.ltb_spec (cx + 1) cy) as [Hm|Hm].
  - destruct (anyOfRightLength_spec x b5 (gw_wf _ _ (nd_grown _ _ _ H5))) as (b6 & -> & H6). rewrite go_bind_ret.
    rewrite to_byte_decimal by lia. eexists. split; [done|].
    destruct (node_add b b5 b6 _ _ (cx + 1) (cy - 1) W H5 H6) as (H7 & _); [lia|].
    split; [|apply (starts_base b b1); [lia|]; apply (starts_node_add b b1 b5 b6 _ _ _ _ _ _ W H5 H6); try done; lia].
    eapply node_iff; [|exact H7]. intros w. rewrite within_split by done. split.
    + intros [[[[]|(d & v & -> & Hd & Hv)]|(d & v & -> & Hd & Hv)]|(d & v & -> & Hd & Hv)]; exists d, v; (split; [done|]).
      * left. split; [lia|done].
      * right; left. split; [lia|done].
      * right; right. split; [lia|done].
    + intros (d & v & -> & [[-> Hv]|[[-> Hv]|[Hd Hv]]]); [left; left; right|left; right|right]; eexists _, v; split_and!; try done; lia.
  - eexists. split; [done|]. split; [|apply (starts_base b b1); [lia|done]].
    eapply node_iff; [|exact H5]. intros w. rewrite within_split by done. split.
    + intros [[[]|(d & v & -> & Hd & Hv)]|(d & v & -> & Hd & Hv)]; exists d, v; (split; [done|]).
      * left. split; [lia|done].
      * right; left. split; [lia|done].
    + intros (d & v & -> & [[-> Hv]|[[-> Hv]|[Hd _]]]); [left; right|right|lia]; eexists _, v; split_and!; try done; lia.
Qed.

Lemma between_spec x : ∀ y zeros initials b,
  Forall decimal x → Forall decimal y → length x = length y → value x ≤ value y → bwf b →
  ∃ news b', between x y zeros initials b = Ret (b_nextState b, initials ++ news, b') ∧ node b b' (within x y) ∧
    starts b b' news (when zeros (short_within x y)).
Proof.
  induction x as [|cx x IH]; intros y zeros initials b HFx HFy HL Hle W; cbn [between].
  - destruct y; [|done]. destruct (node_leaf b W) as (b1 & b' & -> & -> & HN). exists [], b'. rewrite app_nil_r. split_and!; [done| |].
    + eapply node_iff; [|exact HN]. intros w. unfold within. rewrite <- of_length_nil by done.
      split; [intros ->; cbn; split_and!; [done|lia..]|by intros [? _]].
    + apply starts_nil. intros w (_ & _ & Hne & Hl & _). destruct w; [done|cbn in Hl; lia].
  - destruct y as [|cy y]; [done|]. cbn [length] in HL. injection HL as HL.
    destruct (node_create b W) as (b1 & -> & HN & _). pose proof HFx as [Hcx Hx]%Forall_cons. pose proof HFy as [Hcy Hy]%Forall_cons.
    unfold decimal in Hcx, Hcy. apply value_compare in Hle; [|done..]. cbn zeta.
    destruct (Z.eqb_spec cx cy) as [<-|Hne].
    + destruct Hle as [?|[_ Hle]]; [lia|].
      destruct (IH y (zeros && (cx =? 48)) (if zeros then initials ++ [b_nextState b] else initials) b1 Hx Hy HL Hle)
        as (news & b2 & -> & HN2 & HS2); [apply HN|]. rewrite go_bind_ret.
      destruct (single_add b b1 b2 cx _ W HN HN2) as [H3 HS3]; [lia|]. apply HS3 in HS2.
      assert (H3' : node b (BuilderAddTransition (b_nextState b) (b_nextState b1) cx cx b2) (within (cx :: x) (cx :: y))).
      { eapply node_iff; [intros w; symmetry; by apply within_same|done]. }
      destruct (starts_root _ _ _ _ (short_within (cx :: x) (cx :: y)) zeros cx initials news H3' HS2) as (news' & -> & HS').
      { intros w. by apply short_within_same. }
      eexists news', _. by split_and!.
    + assert (Hlt : cx < cy) by lia.
      destruct (atLeast_spec x (zeros && (cx =? 48)) (if zeros then initials ++ [b_nextState b] else initials) b1 Hx)
        as (news & b2 & -> & HN2 & HS2); [apply HN|]. rewrite go_bind_ret.
      destruct (between_split b b1 b2 cx cy x y news _ W HN HN2 HS2 HFx HFy HL Hlt) as (b' & E & HN' & HS').
      destruct (starts_root _ _ _ _ (short_within (cx :: x) (cy :: y)) zeros cx initials news HN' HS') as (news' & Enews & HS'').
      { intros w. by apply short_within_split. }
      exists news', b'. split; [|by split]. rewrite <- Enews. cbn zeta in E. revert E.
      destruct (atMost y _) as [[t b4]| | |]; try done. cbn [mbind go_bind].
      destruct (to_byte (cx + 1) <? cy); [|by intros [= ->]].
      destruct (anyOfRightLength x _) as [[t' b6]| | |]; try done. cbn [mbind go_bind]. by intros [= ->].
Qed.

(** * The loop for the leading zeros *)

(** The first state, whose only transitions are the loop and those of the states to start from. *)
Record zero_loop (a1 : Automaton) (ps : list Z) (a : Automaton) : Prop := {
  zl_wf : wf a;
  zl_states : NumStates a = NumStates a1;
  zl_cur : curState a = 0;
  zl_accept : ∀ s, IsAccept a s = IsAccept a1 s;
  zl_zero : ∀ c e, edge a 0 c e ↔ e = 0 ∧ c = 48 ∨ ∃ p, p ∈ ps ∧ edge a1 p c e;
  zl_rest : ∀ s c e, 0 < s → edge a s c e ↔ edge a1 s c e
}.

Lemma add_initials a1 initials :
  good a1 → 0 < NumStates a1 → (∀ c e, ¬ edge a1 0 c e) → ¬ started a1 0 →
  Forall (fun p => 0 < p < NumStates a1 ∧ IsAccept a1 p = false) initials →
  runs (a ← AddTransition 0 0 48 48 a1; foldM (fun p a => AddEpsilon 0 p a) initials a) (zero_loop a1 initials).
Proof.
  intros [W1 C1] HN H0 HS HF. eapply runs_step; [apply AddTransition_spec; [done|lia|lia|lia|by right]|].
  intros a2 HA. apply (foldM_inv (zero_loop a1)).
  - destruct HA as [AW AN AA AC _ AE _ _]. split; [done..| |].
    + intros c e. rewrite AE by lia. split.
      * intros [He|(_ & -> & Hc)]; [by apply H0 in He|left; split; [done|lia]].
      * intros [[-> ->]|(p & ?%elem_of_nil & _)]; [right; split_and!; [done..|lia|lia]|done].
    + intros s c e Hs. rewrite AE by lia. split; [|by left]. intros [?|(-> & _)]; [done|lia].
  - intros k p a Hpre [ZW ZN ZC ZA Z0 ZR]. destruct (decide (p ∈ initials)) as [Hp|Hp].
    2: { exfalso. apply Hp. destruct Hpre as [l ->]. rewrite !elem_of_app, list_elem_of_singleton. auto. }
    rewrite Forall_forall in HF. destruct (HF p Hp) as [Hpr Hpa].
    eapply runs_mono; [apply AddEpsilon_spec; [done|lia|lia|lia|lia|by left]|].
    intros a' [EW EN EA EC _ EE]. split; [done|congruence|lia| | |].
    + intros s. rewrite EA, !ZA, Hpa, andb_false_r. apply orb_false_r.
    + intros c e. rewrite EE, Z0 by lia. rewrite ZR by lia. setoid_rewrite elem_of_app. setoid_rewrite list_elem_of_singleton. naive_solver.
    + intros s c e Hs. rewrite EE, ZR by lia. split; [|by left]. intros [?|[-> _]]; [done|lia].
Qed.

(** The words of the loop: zeros, then a word of one of the states. *)
Lemma zero_loop_language a1 initials a (R : list Z → Prop) :
  wf a1 → zero_loop a1 initials a → IsAccept a1 0 = false → Forall (fun p => 0 < p) initials →
  (∀ s c e, 0 < s → edge a1 s c e → 0 < e) → ¬ R [] →
  (∀ w, (∃ p, p ∈ initials ∧ accepts_from (edge a1) (final a1) p w) ↔ R w) →
  ∀ w, language a w ↔ ∃ n v, w = repeat 48 n ++ v ∧ R v.
Proof.
  intros W1 [ZW ZN ZC ZA Z0 ZR] HA HF Hup Hnil HR w. rewrite Forall_forall in HF.
  assert (Hfrom : ∀ s w, 0 < s → accepts_from (edge a) (final a) s w ↔ accepts_from (edge a1) (final a1) s w).
  { intros s v Hs. apply (accepts_ext (fun s => 0 < s)); [done| |by intros q _; unfold final; rewrite ZA|done].
    intros q c d Hq He. apply ZR in He; [|done]. by apply Hup in He. }
  unfold language, accepts. induction w as [|c w IH].
  - rewrite accepts_nil. unfold final. rewrite ZA, HA. split; [done|]. intros (n & v & E & Hv).
    symmetry in E. apply app_nil in E as [_ ->]. by apply Hnil in Hv.
  - rewrite accepts_cons. split.
    + intros (d & He & Hw). apply Z0 in He as [[-> ->]|(p & Hp & He)].
      * apply IH in Hw as (n & v & -> & Hv). by exists (S n), v.
      * exists 0%nat, (c :: w). split; [done|]. apply HR. exists p. split; [done|]. rewrite accepts_cons. exists d. split; [done|].
        apply Hfrom; [|done]. by apply (Hup p c d (HF p Hp)).
    + intros (n & v & E & Hv). destruct n as [|n]; cbn in E.
      * subst v. apply HR in Hv as (p & Hp & Hw). rewrite accepts_cons in Hw. destruct Hw as (d & He & Hw).
        exists d. split; [apply Z0; right; eauto|]. apply Hfrom; [|done]. by apply (Hup p c d (HF p Hp)).
      * injection E as -> E. exists 0. split; [apply Z0; by left|]. apply IH. by exists n, v.
Qed.

Definition in_interval (min max digits : Z) (w : list Z) : Prop :=
  Forall decimal w ∧ w ≠ [] ∧ min ≤ value w ≤ max ∧ (0 < digits → Z.of_nat (length w) = digits).

(** With leading zeros, a number of the interval is zeros before a short one. *)
Lemma zeros_short_within x y w :
  Forall decimal y → length x = length y → x ≠ [] →
  (∃ n v, w = repeat 48 n ++ v ∧ short_within x y v) ↔ Forall decimal w ∧ w ≠ [] ∧ value x ≤ value w ≤ value y.
Proof.
  intros Hy HL Hx. unfold short_within. split.
  - intros (n & v & -> & HF & Hne & _ & Hv). rewrite value_zeros. split_and!; [apply Forall_app_2; [apply zeros_decimal|done]| |lia|lia].
    intros [_ ?]%app_nil. done.
  - intros (HF & Hne & Hv). destruct (decide (length w ≤ length x)%nat) as [Hle|Hgt]; [by exists 0%nat, w|].
    pose proof (value_bounds y Hy). pose proof (value_small (length x) w HF ltac:(lia)) as E. rewrite HL in E.
    specialize (E ltac:(lia)). rewrite <- HL in E. exists (length w - length x)%nat, (drop (length w - length x) w).
    split; [done|]. rewrite E, value_zeros in Hv. split_and!; [by apply Forall_drop| |rewrite length_drop; lia|lia|lia].
    intros E0%(f_equal length). rewrite length_drop in E0. cbn in E0. destruct x; [done|cbn in *; lia].
Qed.

(** * [MakeDecimalInterval] *)

Lemma InvalidInterval_spec (min max digits : Z) :
  0 ≤ max < 2 ^ 63 →
  ((max <? min) || (0 <? digits) && (digits <? Z.of_nat (length (Itoa max)))) = bool_decide (max < min ∨ 0 < digits ∧ 10 ^ digits ≤ max).
Proof.
  intros Hm. pose proof (Itoa_spec max Hm) as [HF HV Hne HS]. apply eq_bool_prop_intro.
  rewrite Is_true_true, bool_decide_spec, orb_true_iff, andb_true_iff, !Z.ltb_lt.
  enough (0 < digits → digits < Z.of_nat (length (Itoa max)) ↔ 10 ^ digits ≤ max) by tauto.
  intros Hd. pose proof (value_bounds _ HF) as Hb. rewrite HV in Hb. split.
  - intros Hlt. etransitivity; [|apply HS; lia]. apply Z.pow_le_mono_r; lia.
  - intros Hle. destruct (Z.lt_ge_cases digits (Z.of_nat (length (Itoa max)))) as [|Hge]; [done|].
    pose proof (Z.pow_le_mono_r 10 (Z.of_nat (length (Itoa max))) digits). lia.
Qed.

(** The bounds, padded to the same length. *)
Lemma padded_bounds (min max d : Z) :
  0 ≤ min ≤ max → max < 2 ^ 63 → Z.of_nat (length (Itoa max)) ≤ d →
  Forall decimal (pad d (Itoa min)) ∧ Forall decimal (pad d (Itoa max)) ∧
  value (pad d (Itoa min)) = min ∧ value (pad d (Itoa max)) = max ∧
  length (pad d (Itoa min)) = Z.to_nat d ∧ length (pad d (Itoa max)) = Z.to_nat d.
Proof.
  intros H1 H2 Hd. pose proof (Itoa_spec min ltac:(lia)) as Hx. pose proof (Itoa_spec max ltac:(lia)) as Hy.
  pose proof (numeral_length _ _ _ _ Hx Hy ltac:(lia)).
  destruct (pad_spec d _ _ Hx) as (? & ? & ?); [lia|]. destruct (pad_spec d _ _ Hy) as (? & ? & ?); [lia|]. split_and!; try done; lia.
Qed.

Section Cases.
Context (xs ys : list Z) (HFx : Forall decimal xs) (HFy : Forall decimal ys) (HL : length xs = length ys)
  (Hne : xs ≠ []) (Hle : value xs ≤ value ys) (k : Automaton → AM Automaton) (Q : Automaton → Prop).

(** The states below the first one, and what they accept together. *)
Lemma below_first b0 b' a1 news :
  node NewBuilder b0 (fun _ => False) → (∀ s c d, 0 ≤ s → ¬ b_edge b0 s c d) → node b0 b' (within xs ys) →
  starts b0 b' news (when true (short_within xs ys)) →
  (∀ s, IsAccept a1 s = b_accept b' s) → (∀ s c d, 0 ≤ s → edge a1 s c d ↔ b_edge b' s c d) →
  (∀ c e, ¬ edge a1 0 c e) ∧ IsAccept a1 0 = false ∧ (∀ s c e, 0 < s → edge a1 s c e → 0 < e) ∧
  ∀ w, (∃ p, p ∈ news ∧ accepts_from (edge a1) (final a1) p w) ↔ short_within xs ys w.
Proof.
  intros HN0 HE0 [HG HNn HNb HNf] [HF HS] A1 E1. pose proof (nd_next _ _ _ HN0) as Hnx. change (b_nextState NewBuilder) with 0 in *.
  assert (Hup : ∀ s c e, 0 < s → edge a1 s c e → 0 < e).
  { intros s c e Hs He. apply E1 in He; [|lia]. destruct (Z.lt_ge_cases s (b_nextState b0)) as [Hlt|Hge].
    - apply (gw_edge _ _ HG) in He; [|done]. apply HE0 in He; [done|lia].
    - apply (gw_new _ _ HG) in He; [lia|done]. }
  split_and!; [| |exact Hup|].
  - intros c e He. apply E1 in He; [|done]. apply (gw_edge _ _ HG) in He; [|done]. by apply HE0 in He.
  - rewrite A1, (gw_accept _ _ HG) by done. destruct (b_accept b0 0) eqn:Ea; [|done]. exfalso.
    apply (nd_from _ _ _ HN0 []). unfold from. by rewrite accepts_nil.
  - assert (Hfrom : ∀ p w, 0 < p → accepts_from (edge a1) (final a1) p w ↔ from b' p w).
    { intros p w Hp. apply (accepts_ext (fun q => 0 < q)); [|exact Hup| |done].
      - intros s c e Hs. apply E1. lia.
      - intros s _. unfold final. by rewrite A1. }
    rewrite Forall_forall in HF. intros w. transitivity (when true (short_within xs ys) w); [|unfold when; tauto]. rewrite <- HS.
    split; intros (p & Hp & Hw); exists p; (split; [done|]); apply Hfrom; try done; specialize (HF p Hp); lia.
Qed.

Lemma zeros_case :
  (∀ a, good a → (∀ w, language a w ↔ Forall decimal w ∧ w ≠ [] ∧ value xs ≤ value w ≤ value ys) → runs (k a) Q) →
  runs ('(_, initials, b) ← between xs ys true [] (BuilderCreateState NewBuilder).2;
        a1 ← Finish b;
        a1 ← (a1 ← AddTransition 0 0 48 48 a1; a1 ← foldM (fun p a1 => AddEpsilon 0 p a1) initials a1; FinishState a1);
        k a1) Q.
Proof.
  intros Hk. destruct (node_create NewBuilder NewBuilder_bwf) as (b0 & E0 & HN0 & HE0). rewrite E0. cbn [snd].
  pose proof (nd_next _ _ _ HN0) as Hnx. change (b_nextState NewBuilder) with 0 in *.
  destruct (between_spec xs ys true [] b0) as (news & b' & -> & HN & HS); [done..|apply HN0|]. rewrite go_bind_ret. cbn [app].
  pose proof (nd_next _ _ _ HN). eapply runs_step; [apply Finish_started, HN|]. intros a1 ((G1 & N1 & A1 & E1) & S1).
  destruct (below_first b0 b' a1 news HN0 HE0 HN HS A1 E1) as (HB0 & HA0 & Hup & HSa). destruct HS as [HF _]. rewrite Forall_forall in HF.
  rewrite <- (go_bind_assoc (AddTransition 0 0 48 48 a1)), go_bind_assoc. eapply runs_step.
  { apply (add_initials a1 news); [done|rewrite N1; lia|done| |].
    - intros Hst. destruct (S1 0) as (c & e & He); [rewrite N1; lia|done|by apply HB0 in He].
    - apply Forall_forall. intros p Hp. specialize (HF p Hp). split; [rewrite N1; lia|].
      destruct (IsAccept a1 p) eqn:Ea; [|done]. exfalso. destruct (proj1 (HSa [])) as (_ & ? & _); [|done].
      exists p. split; [done|]. by rewrite accepts_nil. }
  intros a2 HZ. eapply runs_step; [destruct (FinishState_spec a2 (zl_wf _ _ _ HZ)) as (a3 & -> & HP); exact HP|].
  intros a3 (W3 & C3 & N3 & A3 & E3 & _). apply Hk; [by split|]. intros w.
  transitivity (language a2 w).
  { apply (accepts_ext (fun s => 0 ≤ s)); [intros; by apply E3| |intros s _; unfold final; by rewrite A3|done].
    intros s c e Hs He. apply E3 in He; [|done]. apply edge_dest in He as (_ & ? & _); [lia|apply HZ|done]. }
  rewrite (zero_loop_language a1 news a2 (short_within xs ys)); [| apply G1|done|done| |done|by intros (_ & ? & _)|done].
  - by apply zeros_short_within.
  - apply Forall_forall. intros p Hp. specialize (HF p Hp). lia.
Qed.

Lemma fixed_case :
  (∀ a, good a → (∀ w, language a w ↔ within xs ys w) → runs (k a) Q) →
  runs ('(_, initials, b) ← between xs ys false [] NewBuilder; a1 ← Finish b; a1 ← mret a1; k a1) Q.
Proof.
  intros Hk. destruct (between_spec xs ys false [] NewBuilder) as (news & b' & -> & HN & _ & _); [done..|apply NewBuilder_bwf|].
  rewrite go_bind_ret. eapply runs_step; [apply Finish_spec, HN|]. intros a1 (G1 & N1 & A1 & E1). rewrite go_bind_mret.
  apply Hk; [done|]. intros w. transitivity (from b' 0 w); [|apply (nd_from _ _ _ HN)].
  apply (accepts_ext (fun s => 0 ≤ s)); [intros; by apply E1| |intros s _; unfold final; by rewrite A1|done].
  intros s c e Hs He. apply edge_dest in He as (_ & ? & _); [lia|apply G1|done].
Qed.
End Cases.

Lemma MakeDecimalInterval_spec (min max digits : Z) :
  0 ≤ min ≤ max → max < 2 ^ 63 → ¬ (0 < digits ∧ 10 ^ digits ≤ max) →
  runs (MakeDecimalInterval min max digits) (fun a => good a ∧ all_live a ∧ ∀ w, language a w ↔ in_interval min max digits w).
Proof.
  intros H1 H2 Hd. unfold MakeDecimalInterval. rewrite InvalidInterval_spec, bool_decide_eq_false_2 by lia.
  set (d := if 0 <? digits then digits else Z.of_nat (length (Itoa max))). cbn zeta.
  assert (Hy : Z.of_nat (length (Itoa max)) ≤ d).
  { unfold d. destruct (Z.ltb_spec 0 digits); [|lia]. pose proof (InvalidInterval_spec min max digits ltac:(lia)) as E.
    rewrite bool_decide_eq_false_2, orb_false_iff, andb_false_iff, !Z.ltb_ge in E by lia. lia. }
  destruct (padded_bounds min max d H1 H2 Hy) as (HFx & HFy & HVx & HVy & HLx & HLy).
  set (xs := pad d (Itoa min)) in *. set (ys := pad d (Itoa max)) in *.
  assert (Hne : Itoa max ≠ []) by apply (Itoa_spec max ltac:(lia)).
  assert (Hdpos : 0 < d) by (destruct (Itoa max); [done|cbn [length] in Hy; lia]).
  assert (Hxs : xs ≠ []) by (intros Ex; rewrite Ex in HLx; cbn in HLx; lia).
  assert (Hend : ∀ a1, good a1 → (∀ w, language a1 w ↔ in_interval min max digits w) →
    runs (RemoveDeadStates a1) (fun a => good a ∧ all_live a ∧ ∀ w, language a w ↔ in_interval min max digits w)).
  { intros a1 G HL. eapply runs_mono; [by apply RemoveDeadStates_spec|]. intros a [T1 T2 T3 _ _].
    split_and!; [done..|]. intros w. by rewrite T2. }
  destruct (Z.leb_spec digits 0) as [Hz|Hz].
  - apply zeros_case; [done|done|lia|done|lia|]. intros a G HL. apply Hend; [done|]. intros w. rewrite HL.
    unfold in_interval. rewrite HVx, HVy. split; [intros (? & ? & ?); split_and!; try done; lia|tauto].
  - apply fixed_case; [done|done|lia|lia|]. intros a G HL. apply Hend; [done|]. intros w. rewrite HL.
    unfold within, of_length, in_interval. rewrite HVx, HVy, HLx.
    assert (Ed : d = digits) by (unfold d; by rewrite (proj2 (Z.ltb_lt _ _)) by lia). split.
    + intros [[HF HLw] Hv]. split_and!; [done| |lia|lia|lia]. intros ->. cbn in HLw. lia.
    + intros (HF & _ & Hv & HLw). split; [split; [done|lia]|lia].
Qed.

Lemma MakeDecimalInterval_error (min max digits : Z) :
  0 ≤ max < 2 ^ 63 → max < min ∨ 0 < digits ∧ 10 ^ digits ≤ max → MakeDecimalInterval min max digits = Err InvalidInterval.
Proof. intros Hm H. unfold MakeDecimalInterval. by rewrite InvalidInterval_spec, bool_decide_eq_true_2. Qed.

(** C24. The automaton of a decimal interval accepts exactly the nonempty words of digits whose
    number is in the interval, of the given number of digits if there is one and with any number
    of leading zeros otherwise; all its states are live.  The error is returned exactly when
    the interval is empty or its upper bound has more than the given number of digits. *)
Theorem MakeDecimalInterval_correct (min max digits : Z) (Hmin : 0 ≤ min) (Hmax : 0 ≤ max < 2 ^ 63) :
  if decide (max < min ∨ 0 < digits ∧ 10 ^ digits ≤ max)
  then MakeDecimalInterval min max digits = Err InvalidInterval
  else runs (MakeDecimalInterval min max digits)
         (fun a => good a ∧ all_live a ∧ ∀ w, language a w ↔ in_interval min max digits w).
Proof.
  case_decide as H; [by apply MakeDecimalInterval_error|]. apply MakeDecimalInterval_spec; [lia|lia|tauto].
Qed.

Lemma MakeDecimalInterval_correct_witness :
  runs (MakeDecimalInterval 7 123 0) (fun a => good a ∧ all_live a ∧ ∀ w, language a w ↔ in_interval 7 123 0 w) ∧
  in_interval 7 123 0 [48; 48; 48; 50; 51] ∧ MakeDecimalInterval 7 123 2 = Err InvalidInterval.
Proof.
  pose proof (MakeDecimalInterval_correct 7 123 0 ltac:(lia) ltac:(lia)) as H. rewrite decide_False in H by lia.
  pose proof (MakeDecimalInterval_correct 7 123 2 ltac:(lia) ltac:(lia)) as H'. rewrite decide_True in H' by lia.
  split; [exact H|]. split; [|exact H'].
  unfold in_interval. split; [repeat constructor; unfold decimal; lia|]. split; [discriminate|]. split; [split; vm_compute; discriminate|lia].
Defined.
