(* ===== verification/Utf8.v ===== *)
(** Go's [unicode/utf8] and [range] over a string, as far as [util/automaton/regexp.go]
    and [util/automaton/automata.go] use them.  A string is the list of its bytes. *)

From stdpp Require Import base tactics numbers list.
From Stdlib Require Import ZArith Lia.
From S2P Require Import Prelude WordBits.

Local Open Scope Z_scope.

(** * Decoding and encoding *)

Definition RuneError : Z := 0xFFFD.
Definition MaxRune : Z := 0x10FFFF.

(** What the table of first bytes says: the length of the sequence and the range of its
    second byte; [None] for bytes that begin no sequence. *)
Definition lead (s0 : Z) : option (nat * Z * Z) :=
  if s0 <? 0xC2 then None
  else if s0 <? 0xE0 then Some (2%nat, 0x80, 0xBF)
  else if s0 =? 0xE0 then Some (3%nat, 0xA0, 0xBF)
  else if s0 =? 0xED then Some (3%nat, 0x80, 0x9F)
  else if s0 <? 0xF0 then Some (3%nat, 0x80, 0xBF)
  else if s0 =? 0xF0 then Some (4%nat, 0x90, 0xBF)
  else if s0 <? 0xF4 then Some (4%nat, 0x80, 0xBF)
  else if s0 =? 0xF4 then Some (4%nat, 0x80, 0x8F)
  else None.

Definition continues (s : Z) : bool := (0x80 <=? s) && (s <=? 0xBF).

(** The rune and the number of its bytes; 0 bytes for the empty string. *)
Definition DecodeRune (p : list Z) : Z * nat :=
  match p with
  | [] => (RuneError, 0%nat)
  | s0 :: p =>
      if s0 <? 0x80 then (s0, 1%nat) else
      match lead s0 with
      | None => (RuneError, 1%nat)
      | Some (sz, lo, hi) =>
          match p with
          | [] => (RuneError, 1%nat)
          | s1 :: p =>
              if (s1 <? lo) || (hi <? s1) then (RuneError, 1%nat) else
              match sz, p with
              | 2%nat, _ => (Z.lor (Z.shiftl (Z.land s0 0x1F) 6) (Z.land s1 0x3F), 2%nat)
              | 3%nat, s2 :: _ =>
                  if continues s2 then
                    (Z.lor (Z.lor (Z.shiftl (Z.land s0 0x0F) 12) (Z.shiftl (Z.land s1 0x3F) 6)) (Z.land s2 0x3F), 3%nat)
                  else (RuneError, 1%nat)
              | 4%nat, s2 :: s3 :: _ =>
                  if continues s2 && continues s3 then
                    (Z.lor (Z.lor (Z.lor (Z.shiftl (Z.land s0 0x07) 18) (Z.shiftl (Z.land s1 0x3F) 12))
                       (Z.shiftl (Z.land s2 0x3F) 6)) (Z.land s3 0x3F), 4%nat)
                  else (RuneError, 1%nat)
              | _, _ => (RuneError, 1%nat)
              end
          end
      end
  end.

(** A Unicode scalar value. *)
Definition scalar (c : Z) : bool := (0 <=? c) && (c <=? MaxRune) && negb ((0xD800 <=? c) && (c <=? 0xDFFF)).

Definition EncodeRune (r : Z) : list Z :=
  if (0 <=? r) && (r <=? 0x7F) then [r]
  else if (0 <=? r) && (r <=? 0x7FF) then [Z.lor 0xC0 (Z.shiftr r 6); Z.lor 0x80 (Z.land r 0x3F)]
  else
    let r := if scalar r then r else RuneError in
    if r <=? 0xFFFF then [Z.lor 0xE0 (Z.shiftr r 12); Z.lor 0x80 (Z.land (Z.shiftr r 6) 0x3F); Z.lor 0x80 (Z.land r 0x3F)]
    else [Z.lor 0xF0 (Z.shiftr r 18); Z.lor 0x80 (Z.land (Z.shiftr r 12) 0x3F); Z.lor 0x80 (Z.land (Z.shiftr r 6) 0x3F);
          Z.lor 0x80 (Z.land r 0x3F)].

(** [for _, r := range s]; a sequence has at least one byte. *)
Fixpoint runes_fuel (fuel : nat) (s : list Z) : list Z :=
  match fuel, s with
  | S fuel, _ :: _ => let '(r, size) := DecodeRune s in r :: runes_fuel fuel (drop size s)
  | _, _ => []
  end.

Definition runes (s : list Z) : list Z := runes_fuel (length s) s.

(** The string of some runes. *)
Definition encode (cs : list Z) : list Z := concat (map EncodeRune cs).

Example runes_run :
  runes [97; 0xC3; 0xA9; 0xE2; 0x82; 0xAC; 0xF0; 0x9F; 0x98; 0x80; 0xC3; 0xED; 0xA0; 98]
    = [97; 233; 8364; 0x1F600; RuneError; RuneError; RuneError; 98] ∧
  encode [97; 233; 8364; 0x1F600; 0xD800] = [97; 0xC3; 0xA9; 0xE2; 0x82; 0xAC; 0xF0; 0x9F; 0x98; 0x80; 0xEF; 0xBF; 0xBD].
Proof. vm_compute. done. Qed.

(** * Arithmetic *)

(** The bits of a rune in groups of six. *)
Lemma land_63 c : Z.land c 0x3F = c mod 64.
Proof. change 0x3F with (Z.ones 6). by rewrite Z.land_ones by lia. Qed.

Lemma shiftr_div c n : 0 ≤ n → Z.shiftr c n = c / 2 ^ n.
Proof. intros. by rewrite Z.shiftr_div_pow2. Qed.

(** Disjoint bits add up. *)
Lemma lor_add a b n : 0 ≤ n → 0 ≤ b < 2 ^ n → Z.lor (Z.shiftl a n) b = a * 2 ^ n + b.
Proof.
  intros Hn Hb. rewrite Z.shiftl_mul_pow2 by done.
  assert (E : Z.land (a * 2 ^ n) b = 0).
  { rewrite <- Z.shiftl_mul_pow2 by done. apply Z.bits_inj'. intros k Hk. rewrite Z.land_spec, Z.bits_0.
    destruct (Z.lt_ge_cases k n); [by rewrite Z.shiftl_spec_low|].
    rewrite (in_uint_testbit_high n b k) by (done || split; lia). apply andb_false_r. }
  rewrite <- Z.lxor_lor by done. symmetry. apply Z.add_nocarry_lxor. done.
Qed.

Lemma lor_c0 x : 0 ≤ x < 64 → Z.lor 0xC0 x = 192 + x.
Proof. intros. apply (lor_add 3 x 6); lia. Qed.
Lemma lor_80 x : 0 ≤ x < 64 → Z.lor 0x80 x = 128 + x.
Proof. intros. apply (lor_add 2 x 6); lia. Qed.
Lemma lor_e0 x : 0 ≤ x < 16 → Z.lor 0xE0 x = 224 + x.
Proof. intros. apply (lor_add 14 x 4); lia. Qed.
Lemma lor_f0 x : 0 ≤ x < 8 → Z.lor 0xF0 x = 240 + x.
Proof. intros. apply (lor_add 30 x 3); lia. Qed.

Lemma land_low x n k : 0 ≤ n → 0 ≤ x < 2 ^ n → Z.land (k * 2 ^ n + x) (Z.ones n) = x.
Proof. intros Hn Hx. rewrite Z.land_ones by done. rewrite Z.add_comm, Z.mod_add by lia. by apply Z.mod_small. Qed.

Lemma low_80 x : 0 ≤ x < 64 → Z.land (128 + x) 0x3F = x.
Proof. intros. apply (land_low x 6 2); lia. Qed.
Lemma low_c0 x : 0 ≤ x < 32 → Z.land (192 + x) 0x1F = x.
Proof. intros. apply (land_low x 5 6); lia. Qed.
Lemma low_e0 x : 0 ≤ x < 16 → Z.land (224 + x) 0x0F = x.
Proof. intros. apply (land_low x 4 14); lia. Qed.
Lemma low_f0 x : 0 ≤ x < 8 → Z.land (240 + x) 0x07 = x.
Proof. intros. apply (land_low x 3 30); lia. Qed.

(** * Decoding what was encoded *)

Ltac bool_lia :=
  repeat match goal with
  | |- context [?x <? ?y] => destruct (Z.ltb_spec x y); try lia
  | |- context [?x <=? ?y] => destruct (Z.leb_spec x y); try lia
  | |- context [?x =? ?y] => destruct (Z.eqb_spec x y); try lia
  end.

Lemma continues_80 x : 0 ≤ x < 64 → continues (128 + x) = true.
Proof. intros Hx. unfold continues. bool_lia; done. Qed.

Lemma decode_two q x rest : 2 ≤ q < 32 → 0 ≤ x < 64 → DecodeRune (192 + q :: 128 + x :: rest) = (q * 64 + x, 2%nat).
Proof.
  intros Hq Hx. unfold DecodeRune, lead. rewrite low_c0, low_80, lor_add by lia. bool_lia; done.
Qed.

Lemma decode_three q x y rest :
  0 ≤ q < 16 → 0 ≤ x < 64 → 0 ≤ y < 64 → (q = 0 → 32 ≤ x) → (q = 13 → x < 32) →
  DecodeRune (224 + q :: 128 + x :: 128 + y :: rest) = (q * 4096 + x * 64 + y, 3%nat).
Proof.
  intros Hq Hx Hy H0 H13. unfold DecodeRune, lead. rewrite low_e0, !low_80, continues_80 by lia.
  replace (Z.lor (Z.lor (Z.shiftl q 12) (Z.shiftl x 6)) y) with (q * 4096 + x * 64 + y).
  - bool_lia; done.
  - rewrite (Z.shiftl_mul_pow2 x 6), (lor_add q (x * 2 ^ 6) 12) by lia.
    replace (q * 2 ^ 12 + x * 2 ^ 6) with (Z.shiftl (q * 64 + x) 6) by (rewrite Z.shiftl_mul_pow2; lia).
    rewrite lor_add by lia. lia.
Qed.

Lemma decode_four q x y z rest :
  0 ≤ q ≤ 4 → 0 ≤ x < 64 → 0 ≤ y < 64 → 0 ≤ z < 64 → (q = 0 → 16 ≤ x) → (q = 4 → x < 16) →
  DecodeRune (240 + q :: 128 + x :: 128 + y :: 128 + z :: rest) = (q * 262144 + x * 4096 + y * 64 + z, 4%nat).
Proof.
  intros Hq Hx Hy Hz H0 H4. unfold DecodeRune, lead. rewrite low_f0, !low_80, !continues_80 by lia.
  replace (Z.lor (Z.lor (Z.lor (Z.shiftl q 18) (Z.shiftl x 12)) (Z.shiftl y 6)) z) with (q * 262144 + x * 4096 + y * 64 + z).
  - bool_lia; done.
  - rewrite (Z.shiftl_mul_pow2 x 12), (lor_add q (x * 2 ^ 12) 18) by lia.
    replace (q * 2 ^ 18 + x * 2 ^ 12) with (Z.shiftl (q * 64 + x) 12) by (rewrite Z.shiftl_mul_pow2; lia).
    rewrite (Z.shiftl_mul_pow2 y 6), (lor_add _ (y * 2 ^ 6) 12) by lia.
    replace ((q * 64 + x) * 2 ^ 12 + y * 2 ^ 6) with (Z.shiftl (q * 4096 + x * 64 + y) 6) by (rewrite Z.shiftl_mul_pow2; lia).
    rewrite lor_add by lia. lia.
Qed.

Lemma decode_encode c rest : scalar c = true → DecodeRune (EncodeRune c ++ rest) = (c, length (EncodeRune c)).
Proof.
  intros Hs. pose proof Hs as [[H0%Z.leb_le HM%Z.leb_le]%andb_true_iff Hsur]%andb_true_iff.
  apply negb_true_iff, andb_false_iff in Hsur. rewrite !Z.leb_gt in Hsur. unfold MaxRune in HM.
  unfold EncodeRune. rewrite Hs, !land_63, !shiftr_div by lia.
  assert (Hm : ∀ x, 0 ≤ x mod 64 < 64) by (intros; apply Z.mod_pos_bound; lia).
  destruct (Z.leb_spec c 0x7F); [|destruct (Z.leb_spec c 0x7FF); [|destruct (Z.leb_spec c 0xFFFF)]];
    rewrite ?(proj2 (Z.leb_le 0 c) H0); cbn [andb app length].
  - unfold DecodeRune. bool_lia; done.
  - change (2 ^ 6) with 64. pose proof (Z.div_mod c 64). pose proof (Hm c).
    rewrite lor_c0, lor_80, decode_two by lia. f_equal. lia.
  - change (2 ^ 12) with (64 * 64). change (2 ^ 6) with 64. rewrite <- Z.div_div by lia.
    pose proof (Z.div_mod c 64). pose proof (Z.div_mod (c / 64) 64). pose proof (Hm c). pose proof (Hm (c / 64)).
    rewrite lor_e0, !lor_80, decode_three by lia. f_equal. lia.
  - change (2 ^ 18) with (64 * 64 * 64). change (2 ^ 12) with (64 * 64). change (2 ^ 6) with 64. rewrite <- !Z.div_div by lia.
    pose proof (Z.div_mod c 64). pose proof (Z.div_mod (c / 64) 64). pose proof (Z.div_mod (c / 64 / 64) 64).
    pose proof (Hm c). pose proof (Hm (c / 64)). pose proof (Hm (c / 64 / 64)).
    rewrite lor_f0, !lor_80, decode_four by lia. f_equal. lia.
Qed.

Lemma EncodeRune_nonempty c : EncodeRune c ≠ [].
Proof. unfold EncodeRune. by repeat case_match. Qed.

Lemma DecodeRune_size s : s ≠ [] → (1 ≤ (DecodeRune s).2 ≤ length s)%nat.
Proof. destruct s as [|s0 s]; [done|]. intros _. unfold DecodeRune. repeat case_match; cbn; lia. Qed.

Lemma runes_fuel_enough fuel : ∀ s, (length s ≤ fuel)%nat → runes_fuel fuel s = runes s.
Proof.
  enough (∀ n m s, (length s ≤ n)%nat → (length s ≤ m)%nat → runes_fuel n s = runes_fuel m s) as H by (intros s ?; by apply H).
  induction n as [|n IH]; intros m s Hn Hm; [destruct s; [by destruct m|cbn in Hn; lia]|].
  destruct s as [|b s]; [by destruct m|]. destruct m as [|m]; [cbn in Hm; lia|]. cbn [runes_fuel].
  pose proof (DecodeRune_size (b :: s) ltac:(done)) as Hd. destruct (DecodeRune (b :: s)) as [r size]. cbn [snd] in Hd. f_equal.
  apply IH; rewrite length_drop; cbn [length] in *; lia.
Qed.

Lemma runes_step s : s ≠ [] → runes s = (DecodeRune s).1 :: runes (drop (DecodeRune s).2 s).
Proof.
  intros Hs. destruct s as [|b s]; [done|]. unfold runes at 1. cbn [length runes_fuel].
  pose proof (DecodeRune_size (b :: s) ltac:(done)) as Hd. destruct (DecodeRune (b :: s)) as [r size]. cbn [fst snd] in *. f_equal.
  apply runes_fuel_enough. rewrite length_drop. cbn [length]. lia.
Qed.

Lemma runes_encode_rune c rest : scalar c = true → runes (EncodeRune c ++ rest) = c :: runes rest.
Proof.
  intros Hc. rewrite runes_step by (intros [E _]%app_nil; by apply EncodeRune_nonempty in E).
  rewrite decode_encode by done. cbn [fst snd]. by rewrite drop_app_length.
Qed.

Lemma runes_encode_app cs rest : Forall (fun c => scalar c = true) cs → runes (encode cs ++ rest) = cs ++ runes rest.
Proof.
  induction 1 as [|c cs Hc _ IH]; [done|]. unfold encode. cbn [map concat app]. rewrite <- app_assoc, runes_encode_rune by done.
  f_equal. exact IH.
Qed.

Lemma runes_encode cs : Forall (fun c => scalar c = true) cs → runes (encode cs) = cs.
Proof. intros H. rewrite <- (app_nil_r (encode cs)), runes_encode_app by done. apply app_nil_r. Qed.

Lemma encode_app cs ds : encode (cs ++ ds) = encode cs ++ encode ds.
Proof. unfold encode. by rewrite map_app, concat_app. Qed.

(** Whatever the bytes are, a rune is a scalar value. *)
Lemma lead_spec s0 sz lo hi :
  lead s0 = Some (sz, lo, hi) →
  sz = 2%nat ∧ 192 + 2 ≤ s0 < 192 + 32 ∧ lo = 128 ∧ hi = 191 ∨
  sz = 3%nat ∧ 224 ≤ s0 < 240 ∧ 128 ≤ lo ∧ hi ≤ 191 ∧ (s0 = 224 → lo = 128 + 32) ∧ (s0 = 224 + 13 → hi < 128 + 32) ∨
  sz = 4%nat ∧ 240 ≤ s0 ≤ 244 ∧ 128 ≤ lo ∧ hi ≤ 191 ∧ (s0 = 240 → lo = 128 + 16) ∧ (s0 = 244 → hi < 128 + 16).
Proof. unfold lead. bool_lia; intros H'; simplify_eq; lia. Qed.

Lemma scalar_spec c : scalar c = true ↔ 0 ≤ c ≤ MaxRune ∧ ¬ 0xD800 ≤ c ≤ 0xDFFF.
Proof. unfold scalar. rewrite !andb_true_iff, negb_true_iff, andb_false_iff, !Z.leb_le, !Z.leb_gt. lia. Qed.

Lemma continues_spec s : continues s = true ↔ 128 ≤ s ≤ 191.
Proof. unfold continues. by rewrite andb_true_iff, !Z.leb_le. Qed.

(** An ASCII character is its only byte; all other runes are larger. *)
Lemma DecodeRune_cases s :
  Forall is_byte s →
  (∃ c r, s = c :: r ∧ 0 ≤ c < 128 ∧ DecodeRune s = (c, 1%nat)) ∨
  128 ≤ (DecodeRune s).1 ∧ scalar (DecodeRune s).1 = true.
Proof.
  intros HF. destruct s as [|s0 s]; [by right|]. apply Forall_cons in HF as [[H0 _] _].
  destruct (Z.lt_ge_cases s0 0x80) as [Hlt|Hge].
  { left. exists s0, s. split_and!; [done|lia|lia|]. unfold DecodeRune. by rewrite (proj2 (Z.ltb_lt _ _)) by lia. }
  right. assert (Hbad : 128 ≤ RuneError ∧ scalar RuneError = true) by done.
  destruct (lead s0) as [[[sz lo] hi]|] eqn:El.
  2: { unfold DecodeRune. by rewrite (proj2 (Z.ltb_ge _ _)), El by lia. }
  destruct s as [|s1 s]; [unfold DecodeRune; by rewrite (proj2 (Z.ltb_ge _ _)), El by lia|].
  destruct ((s1 <? lo) || (hi <? s1)) eqn:E1; [unfold DecodeRune; by rewrite (proj2 (Z.ltb_ge _ _)), El, E1 by lia|].
  pose proof E1 as [Hlo%Z.ltb_ge Hhi%Z.ltb_ge]%orb_false_iff. rewrite scalar_spec. unfold MaxRune.
  apply lead_spec in El as HL. destruct HL as [(-> & HL)|[(-> & HL)|(-> & HL)]].
  - replace s0 with (192 + (s0 - 192)) by lia. replace s1 with (128 + (s1 - 128)) by lia.
    rewrite decode_two by lia. cbn [fst]. lia.
  - destruct s as [|s2 s]; [unfold DecodeRune; rewrite (proj2 (Z.ltb_ge _ _)), El, E1 by lia; cbn; unfold RuneError; lia|].
    destruct (continues s2) eqn:E2;
      [|unfold DecodeRune; rewrite (proj2 (Z.ltb_ge _ _)), El, E1, E2 by lia; cbn; unfold RuneError; lia].
    apply continues_spec in E2. replace s0 with (224 + (s0 - 224)) by lia. replace s1 with (128 + (s1 - 128)) by lia.
    replace s2 with (128 + (s2 - 128)) by lia. rewrite decode_three by lia. cbn [fst]. lia.
  - destruct s as [|s2 s]; [unfold DecodeRune; rewrite (proj2 (Z.ltb_ge _ _)), El, E1 by lia; cbn; unfold RuneError; lia|].
    destruct s as [|s3 s]; [unfold DecodeRune; rewrite (proj2 (Z.ltb_ge _ _)), El, E1 by lia; cbn; unfold RuneError; lia|].
    destruct (continues s2 && continues s3) eqn:E2;
      [|unfold DecodeRune; rewrite (proj2 (Z.ltb_ge _ _)), El, E1, E2 by lia; cbn; unfold RuneError; lia].
    apply andb_true_iff in E2 as [E2%continues_spec E3%continues_spec].
    replace s0 with (240 + (s0 - 240)) by lia. replace s1 with (128 + (s1 - 128)) by lia.
    replace s2 with (128 + (s2 - 128)) by lia. replace s3 with (128 + (s3 - 128)) by lia.
    rewrite decode_four by lia. cbn [fst]. lia.
Qed.

Lemma DecodeRune_scalar s : Forall is_byte s → scalar (DecodeRune s).1 = true.
Proof.
  intros HF. destruct (DecodeRune_cases s HF) as [(c & r & -> & Hc & ->)|[_ ?]]; [|done].
  apply scalar_spec. unfold MaxRune. cbn [fst]. lia.
Qed.

Lemma runes_scalar s : Forall is_byte s → Forall (fun c => scalar c = true) (runes s).
Proof.
  remember (length s) as n eqn:En. assert (Hn : (length s ≤ n)%nat) by lia. clear En. revert s Hn.
  induction n as [|n IH]; intros s Hn HF; destruct s as [|b s]; cbn [length] in Hn; try (constructor || lia).
  rewrite runes_step by done. pose proof (DecodeRune_size (b :: s) ltac:(done)) as Hd.
  constructor; [by apply DecodeRune_scalar|]. apply IH; [|by apply Forall_drop].
  rewrite length_drop. cbn [length]. lia.
Qed.

Lemma EncodeRune_bytes c : Forall is_byte (EncodeRune c).
Proof.
  assert (Hm : ∀ x, 0 ≤ x mod 64 < 64) by (intros; apply Z.mod_pos_bound; lia).
  assert (H80 : ∀ x, is_byte (Z.lor 0x80 (Z.land x 0x3F))).
  { intros x. rewrite land_63, lor_80 by auto. pose proof (Hm x). unfold in_uint. change (2 ^ 8) with 256. lia. }
  assert (Hr : 0 ≤ (if scalar c then c else RuneError) ≤ MaxRune).
  { destruct (scalar c) eqn:E; [by apply scalar_spec in E as [? _]|done]. }
  unfold EncodeRune. destruct ((0 <=? c) && (c <=? 0x7F)) eqn:E1.
  { apply andb_true_iff in E1 as [?%Z.leb_le ?%Z.leb_le]. apply Forall_singleton. unfold in_uint. change (2 ^ 8) with 256. lia. }
  destruct ((0 <=? c) && (c <=? 0x7FF)) eqn:E2.
  { apply andb_true_iff in E2 as [?%Z.leb_le ?%Z.leb_le]. constructor; [|by apply Forall_singleton].
    rewrite shiftr_div by lia. change (2 ^ 6) with 64. assert (0 ≤ c / 64 < 32) by (split; [apply Z.div_pos|apply Z.div_lt_upper_bound]; lia).
    rewrite lor_c0 by lia. unfold in_uint. change (2 ^ 8) with 256. lia. }
  set (r := if scalar c then c else RuneError) in *. clearbody r. unfold MaxRune in Hr. cbn zeta.
  destruct (Z.leb_spec r 0xFFFF); (constructor; [|by repeat (apply Forall_cons; split)]); rewrite shiftr_div by lia.
  - change (2 ^ 12) with 4096. assert (0 ≤ r / 4096 < 16) by (split; [apply Z.div_pos|apply Z.div_lt_upper_bound]; lia).
    rewrite lor_e0 by lia. unfold in_uint. change (2 ^ 8) with 256. lia.
  - change (2 ^ 18) with 262144. assert (0 ≤ r / 262144 < 8) by (split; [apply Z.div_pos|apply Z.div_lt_upper_bound]; lia).
    rewrite lor_f0 by lia. unfold in_uint. change (2 ^ 8) with 256. lia.
Qed.

Lemma runes_length s : (length (runes s) ≤ length s)%nat.
Proof.
  remember (length s) as n eqn:En. assert (Hn : (length s ≤ n)%nat) by lia. rewrite En. clear En. revert s Hn.
  induction n as [|n IH]; intros s Hn; destruct s as [|b s]; cbn [length] in Hn; try (cbn; lia).
  rewrite runes_step by done. pose proof (DecodeRune_size (b :: s) ltac:(done)) as Hd. cbn [length] in *.
  specialize (IH (drop (DecodeRune (b :: s)).2 (b :: s))). rewrite length_drop in IH. cbn [length] in IH. lia.
Qed.
