(* ===== verification/Regexp.v ===== *)
(** The expressions of [util/automaton/regexp.go] and the automata made of them.  The parser
    is in [RegexpParser]. *)

From stdpp Require Import base tactics numbers list gmap.
From Stdlib Require Import ZArith Lia.
From S2P Require Import Prelude WordBits Utf8 Nfa Automaton Builder Liveness Determinize BooleanOps RegularOps Sequence Concat Repetition Bounded Makers DecimalInterval.

Local Open Scope Z_scope.

(** * Flags *)

Definition RegExpIntersection : Z := 0x0001.
Definition RegExpEmpty : Z := 0x0004.
Definition RegExpAnyString : Z := 0x0008.
Definition RegExpAutomaton : Z := 0x0010.
Definition RegExpInterval : Z := 0x0020.
Definition RegExpAll : Z := 0xff.
Definition RegExpASCIICaseInsensitive : Z := 0x0100.
Definition RegExpCaseInsensitive : Z := 0x0200.
Definition RegExpCaseInsensitiveRange : Z := 0x0400.
Definition RegExpDeprecatedComplement : Z := 0x10000.

(** [check] and [checkAny]. *)
Definition checkAny (flags mask : Z) : bool := negb (Z.land flags mask =? 0).

Definition folding (flags : Z) : bool := checkAny flags (Z.lor RegExpASCIICaseInsensitive RegExpCaseInsensitive).

(** * Expressions

    One constructor per [RegExpKind], with the fields the kind uses; the flags of a node are
    only read in characters and strings.  A string is the list of its bytes. *)

Inductive RegExp : Type :=
  | RUnion (exp1 exp2 : RegExp)
  | RConcatenation (exp1 exp2 : RegExp)
  | RIntersection (exp1 exp2 : RegExp)
  | ROptional (exp1 : RegExp)
  | RRepeat (exp1 : RegExp)
  | RRepeatMin (exp1 : RegExp) (min : Z)
  | RRepeatMinMax (exp1 : RegExp) (min max : Z)
  | RComplement (exp1 : RegExp)
  | RChar (flags c : Z)
  | RCharRange (from to : Z)
  | RCharClass (from to : list Z)
  | RAnyChar
  | REmpty
  | RString (flags : Z) (s : list Z)
  | RAnyString
  | RAutomaton (s : list Z)
  | RInterval (min max digits : Z)
  | RDeprecatedComplement (exp1 : RegExp).

Definition isUnion (e : RegExp) : bool := match e with RUnion _ _ => true | _ => false end.
Definition isConcatenation (e : RegExp) : bool := match e with RConcatenation _ _ => true | _ => false end.

(** * Automata

    [automata] gives what the map of named automata holds, [None] for nil; [provider] is
    [None] if it is nil, and otherwise gives an error, as [None], or a pointer.  [same e1 e2]
    says whether the automata made of the two operands of an intersection are one object. *)

Section ToAutomaton.
Context (automata : list Z → option Automaton) (provider : option (list Z → option (option Automaton)))
  (same : RegExp → RegExp → bool).

Definition named (s : list Z) : AM Automaton :=
  aa ← (match automata s, provider with
        | None, Some p => match p s with Some got => mret got | None => Err ProviderError end
        | aa, _ => mret aa
        end);
  match aa with Some a => mret a | None => Err NamedAutomatonNotFound end.

Section Leaves.
Context (toAutomaton : RegExp → AM Automaton).

(** The closure [walk] of [gatherLeaves], for the two kinds it is called with. *)
Fixpoint walk_union (node : RegExp) (list_ : list Automaton) : AM (list Automaton) :=
  match node with
  | RUnion e1 e2 => list_ ← walk_union e1 list_; walk_union e2 list_
  | _ => a ← toAutomaton node; mret (list_ ++ [a])
  end.

Fixpoint walk_concatenation (node : RegExp) (list_ : list Automaton) : AM (list Automaton) :=
  match node with
  | RConcatenation e1 e2 => list_ ← walk_concatenation e1 list_; walk_concatenation e2 list_
  | _ => a ← toAutomaton node; mret (list_ ++ [a])
  end.
End Leaves.

Definition MaxInt : Z := 2 ^ 63 - 1.

Fixpoint toAutomatonInternal (r : RegExp) : AM Automaton :=
  match r with
  | RUnion e1 e2 =>
      list_ ← walk_union toAutomatonInternal e1 [];
      list_ ← walk_union toAutomatonInternal e2 list_;
      Union list_
  | RConcatenation e1 e2 =>
      list_ ← walk_concatenation toAutomatonInternal e1 [];
      list_ ← walk_concatenation toAutomatonInternal e2 list_;
      Concatenate list_
  | RIntersection e1 e2 =>
      a1 ← toAutomatonInternal e1;
      a2 ← toAutomatonInternal e2;
      Intersection (same e1 e2) a1 a2
  | ROptional e => a ← toAutomatonInternal e; Optional a
  | RRepeat e => a ← toAutomatonInternal e; Repeat a
  | RRepeatMin e min => a ← toAutomatonInternal e; RepeatN a min
  | RRepeatMinMax e min max => a ← toAutomatonInternal e; RepeatRange a min max
  | RComplement e => a ← toAutomatonInternal e; Complement a MaxInt
  | RDeprecatedComplement e => a ← toAutomatonInternal e; Complement a DefaultDeterminizeWorkLimit
  | RChar flags c => if folding flags then Err CaseFoldingUnsupported else MakeChar c
  | RCharRange from to => MakeCharRange from to
  | RCharClass from to => MakeCharClass from to
  | RAnyChar => MakeAnyChar
  | REmpty => MakeEmpty
  | RString flags s => if folding flags then Err CaseFoldingUnsupported else MakeString (runes s)
  | RAnyString => MakeAnyString
  | RAutomaton s => named s
  | RInterval min max digits => MakeDecimalInterval min max digits
  end.

(** * What an expression denotes

    [stateless] says of an expression that its automaton has no states.  [Repeat] gives such an
    automaton back, so that the starred expression accepts no word, not even the empty one;
    with no expression stateless, this is the usual denotation. *)

Section Den.
Context (stateless : RegExp → bool).

Fixpoint den (r : RegExp) : words :=
  match r with
  | RUnion e1 e2 => fun w => den e1 w ∨ den e2 w
  | RConcatenation e1 e2 => cat (den e1) (den e2)
  | RIntersection e1 e2 => fun w => den e1 w ∧ den e2 w
  | ROptional e => fun w => w = [] ∨ den e w
  | RRepeat e => fun w => stateless e = false ∧ star (den e) w
  | RRepeatMin e min => fun w => (min = 0 → stateless e = false) ∧ ∃ n, min ≤ Z.of_nat n ∧ power n (den e) w
  | RRepeatMinMax e min max => fun w => ∃ n, min ≤ Z.of_nat n ≤ max ∧ power n (den e) w
  | RComplement e | RDeprecatedComplement e => fun w => ¬ den e w
  | RChar _ c => fun w => w = [c]
  | RCharRange from to => fun w => ∃ c, w = [c] ∧ from ≤ c ≤ to
  | RCharClass from to => fun w => ∃ c, w = [c] ∧ ∃ lo hi, (lo, hi) ∈ zip from to ∧ lo ≤ c ≤ hi
  | RAnyChar => fun w => ∃ c, w = [c] ∧ code_point c
  | REmpty => fun _ => False
  | RString _ s => fun w => w = runes s
  | RAnyString => Forall code_point
  | RAutomaton s => fun w => ∃ a, named s = Ret a ∧ language a w
  | RInterval min max digits => in_interval min max digits
  end.
End Den.

Definition usual : RegExp → words := den (fun _ => false).

Definition no_states (e : RegExp) : bool :=
  match toAutomatonInternal e with Ret a => NumStates a =? 0 | _ => false end.

(** Expressions for one character, the only operands of [RComplement] in parsed expressions. *)
Definition one_letter (r : RegExp) : bool :=
  match r with RChar _ _ | RCharRange _ _ | RCharClass _ _ => true | _ => false end.

(** What the parser promises of the fields. *)
Fixpoint well_formed (r : RegExp) : Prop :=
  match r with
  | RUnion e1 e2 | RConcatenation e1 e2 | RIntersection e1 e2 => well_formed e1 ∧ well_formed e2
  | ROptional e | RRepeat e | RDeprecatedComplement e => well_formed e
  | RRepeatMin e min => well_formed e ∧ 0 ≤ min
  | RRepeatMinMax e min max => well_formed e ∧ 0 ≤ min ≤ max
  | RComplement e => well_formed e ∧ one_letter e = true
  | RChar _ c => code_point c
  | RCharRange from to => 0 ≤ from ≤ to ∧ to ≤ MaxCodePoint
  | RCharClass from to => length from = length to ∧ ranges_ok (zip from to)
  | RString _ s => Forall is_byte s
  | RInterval min max digits => 0 ≤ min ≤ max ∧ max < 2 ^ 63 ∧ ¬ (0 < digits ∧ 10 ^ digits ≤ max)
  | RAnyChar | REmpty | RAnyString | RAutomaton _ => True
  end.

(** No operand of a star denotes nothing: then no automaton of one is without states. *)
Definition inhabited (L : words) : Prop := ∃ w, Forall code_point w ∧ L w.

Fixpoint repeatable (r : RegExp) : Prop :=
  match r with
  | RUnion e1 e2 | RConcatenation e1 e2 | RIntersection e1 e2 => repeatable e1 ∧ repeatable e2
  | ROptional e | RRepeatMinMax e _ _ | RComplement e | RDeprecatedComplement e => repeatable e
  | RRepeat e => repeatable e ∧ inhabited (usual e)
  | RRepeatMin e min => repeatable e ∧ (min = 0 → inhabited (usual e))
  | _ => True
  end.

(** The operands of general complements. *)
Fixpoint complemented (r : RegExp) : list RegExp :=
  match r with
  | RUnion e1 e2 | RConcatenation e1 e2 | RIntersection e1 e2 => complemented e1 ++ complemented e2
  | ROptional e | RRepeat e | RRepeatMin e _ | RRepeatMinMax e _ _ | RComplement e => complemented e
  | RDeprecatedComplement e => e :: complemented e
  | _ => []
  end.

(** Some character or string asks for case folding. *)
Fixpoint folds (r : RegExp) : bool :=
  match r with
  | RUnion e1 e2 | RConcatenation e1 e2 | RIntersection e1 e2 => folds e1 || folds e2
  | ROptional e | RRepeat e | RRepeatMin e _ | RRepeatMinMax e _ _ | RComplement e | RDeprecatedComplement e => folds e
  | RChar flags _ | RString flags _ => folding flags
  | _ => false
  end.

Fixpoint GetIdentifiers (r : RegExp) : gset (list Z) :=
  match r with
  | RUnion e1 e2 | RConcatenation e1 e2 | RIntersection e1 e2 => GetIdentifiers e1 ∪ GetIdentifiers e2
  | ROptional e | RRepeat e | RRepeatMin e _ | RRepeatMinMax e _ _ | RComplement e | RDeprecatedComplement e => GetIdentifiers e
  | RAutomaton s => {[s]}
  | _ => ∅
  end.

(** The automaton of an operand of a complement has so many states that its determinization
    can go beyond the limit. *)
Definition too_many_states (e : RegExp) : Prop :=
  ∃ a, toAutomatonInternal e = Ret a ∧ DefaultDeterminizeWorkLimit * 10 ≤ NumStates a * 2 ^ NumStates a.

(** Numbers of states are below [2^63], as the code takes for granted. *)
Definition countable_states (e : RegExp) : Prop := ∀ a, toAutomatonInternal e = Ret a → NumStates a < 2 ^ 63.

(** Why the conversion of an expression can fail. *)
Definition excused (r : RegExp) (err : autoerr) : Prop :=
  err = CaseFoldingUnsupported ∧ folds r = true ∨
  (∃ s, s ∈ GetIdentifiers r ∧ named s = Err err) ∨
  err = TooComplexToDeterminize ∧ ∃ e, e ∈ complemented r ∧ too_many_states e.

Definition allowed (r : RegExp) (err : autoerr) : Prop := err = ArrayTooLarge ∨ excused r err.
End ToAutomaton.

(** * Languages on words of code points *)

Definition agree (L K : words) : Prop := ∀ w, Forall code_point w → L w ↔ K w.

#[export] Instance agree_equivalence : Equivalence agree.
Proof.
  split; [by intros L w _|intros L K H w Hw; symmetry; by apply H|].
  intros L K J H1 H2 w Hw. by rewrite (H1 w Hw), (H2 w Hw).
Qed.

Lemma code_points_app u v : Forall code_point (u ++ v) ↔ Forall code_point u ∧ Forall code_point v.
Proof. apply Forall_app. Qed.

#[export] Instance cat_proper : Proper (agree ==> agree ==> agree) cat.
Proof.
  intros L L' HL K K' HK w Hw. split; intros (u & v & -> & Hu & Hv); apply code_points_app in Hw as [Hwu Hwv];
    exists u, v; (split_and!; [done|by apply HL|by apply HK]).
Qed.

#[export] Instance power_proper n : Proper (agree ==> agree) (power n).
Proof. intros L K H. induction n as [|n IH]; cbn [power]; [reflexivity|by apply cat_proper]. Qed.

#[export] Instance star_proper : Proper (agree ==> agree) star.
Proof.
  intros L K H w Hw. rewrite !star_power. split; intros (n & Hn); exists n; by apply (power_proper n L K H w Hw).
Qed.

#[export] Instance inhabited_proper : Proper (agree ==> iff) inhabited.
Proof. intros L K H. split; intros (w & Hw & HL); exists w; (split; [done|]); by apply (H w Hw). Qed.

(** * The automaton of an expression *)

(** Made of a deterministic automaton, the complement cannot be too complex. *)
Lemma Complement_deterministic a workLimit :
  good a → deterministic a = true → NumStates a ≤ 2 →
  runs (Complement a workLimit) (fun c => good c ∧ agree (language c) (fun w => ¬ language a w)).
Proof.
  intros G HD HN. pose proof (NumStates_pos _ (good_wf _ G)) as H0.
  assert (E : Complement a workLimit = Complement a 1) by (unfold Complement, Determinize; by rewrite HD).
  rewrite E. pose proof (Complement_spec a 1 G ltac:(lia)) as H. unfold complements in H.
  destruct (Complement a 1) as [c|e| |]; try done; cbn in *.
  - destruct H as (Gc & _ & Hc). by split.
  - destruct H as [->|[-> Hl]]; [done|]. exfalso. change (to_int64 (1 * 10)) with 10 in Hl.
    assert (NumStates a = 0 ∨ NumStates a = 1 ∨ NumStates a = 2) as [Ea|[Ea|Ea]] by lia; rewrite Ea in Hl; cbn in Hl; lia.
Qed.

Section Automata.
Context (automata : list Z → option Automaton) (provider : option (list Z → option (option Automaton)))
  (same : RegExp → RegExp → bool).

Let to_automaton := toAutomatonInternal automata provider same.
Let stateless := no_states automata provider same.
Let denotes := den automata provider stateless.
Let may_fail := allowed automata provider same.

Context (Hnamed : ∀ s a, named automata provider s = Ret a → good a).
Context (Hsame : ∀ e1 e2, same e1 e2 = true → to_automaton e1 = to_automaton e2).

Definition realizes (L : words) (a : Automaton) : Prop := good a ∧ agree (language a) L.

Lemma realizes_agree L K a : agree L K → realizes L a → realizes K a.
Proof. intros H [G HL]. split; [done|]. by rewrite HL. Qed.

Lemma runs_allowed {A} r (m : AM A) Q : runs m Q → wpx (may_fail r) m Q.
Proof. apply runs_wpx. by left. Qed.

Lemma one_char_realizes P a : one_char P a → realizes (fun w => ∃ c, w = [c] ∧ P c) a.
Proof. intros [H1 _ _ H4]. split; [done|]. intros w _. apply H4. Qed.

(** Expressions for one letter have small deterministic automata. *)
Lemma one_letter_spec r :
  well_formed r → one_letter r = true →
  wpx (may_fail r) (to_automaton r) (fun a => realizes (denotes r) a ∧ deterministic a = true ∧ NumStates a ≤ 2).
Proof.
  intros HW HO. assert (Hmk : ∀ P m, runs m (one_char P) → agree (fun w => ∃ c, w = [c] ∧ P c) (denotes r) →
    wpx (may_fail r) m (fun a => realizes (denotes r) a ∧ deterministic a = true ∧ NumStates a ≤ 2)).
  { intros P m Hm HA. apply runs_allowed. eapply runs_mono; [exact Hm|]. intros a Ha.
    split; [eapply realizes_agree; [exact HA|by apply one_char_realizes]|].
    split; [apply (oc_deterministic _ _ Ha)|apply (oc_small _ _ Ha)]. }
  destruct r as [| | | | | | | |flags c|from to|from to| | | | | | |]; try discriminate; unfold to_automaton; cbn [toAutomatonInternal].
  - destruct (folding flags) eqn:Ef; [by right; left|].
    eapply Hmk; [apply MakeCharRange_spec, HW|]. intros w _. cbn. split; [intros (x & -> & ?); f_equal; lia|].
    intros ->. exists c. split; [done|lia].
  - eapply Hmk; [apply MakeCharRange_spec, HW|done].
  - eapply Hmk; [apply MakeCharClass_spec; apply HW|done].
Qed.

(** ** The leaves of unions and concatenations *)

Definition joined_union (l : list Automaton) (L : words) (l' : list Automaton) : Prop :=
  ∃ k, l' = l ++ k ∧ Forall good k ∧ agree (fun w => ∃ a, a ∈ k ∧ language a w) L.

Definition joined_concatenation (l : list Automaton) (L : words) (l' : list Automaton) : Prop :=
  ∃ k, l' = l ++ k ∧ k ≠ [] ∧ Forall good k ∧ agree (cats (map language k)) L.

Lemma single_union l L a : realizes L a → joined_union l L (l ++ [a]).
Proof.
  intros [G HL]. exists [a]. split_and!; [done|by constructor|]. intros w Hw. rewrite <- (HL w Hw).
  setoid_rewrite list_elem_of_singleton. naive_solver.
Qed.

Lemma single_concatenation l L a : realizes L a → joined_concatenation l L (l ++ [a]).
Proof.
  intros [G HL]. exists [a]. split_and!; [done|done|by constructor|]. intros w Hw. rewrite <- (HL w Hw). cbn. unfold cat. split.
  - intros (u & v & -> & Hu & ->). by rewrite app_nil_r.
  - intros Hl. exists w, []. by rewrite app_nil_r.
Qed.

Lemma union_app l1 l2 l3 L K : joined_union l1 L l2 → joined_union l2 K l3 → joined_union l1 (fun w => L w ∨ K w) l3.
Proof.
  intros (k1 & -> & G1 & H1) (k2 & -> & G2 & H2). exists (k1 ++ k2). split_and!; [by rewrite app_assoc|by apply Forall_app_2|].
  intros w Hw. rewrite <- (H1 w Hw), <- (H2 w Hw). setoid_rewrite elem_of_app. naive_solver.
Qed.

Lemma concatenation_app l1 l2 l3 L K :
  joined_concatenation l1 L l2 → joined_concatenation l2 K l3 → joined_concatenation l1 (cat L K) l3.
Proof.
  intros (k1 & -> & N1 & G1 & H1) (k2 & -> & N2 & G2 & H2). exists (k1 ++ k2).
  split_and!; [by rewrite app_assoc|by intros [? ?]%app_nil|by apply Forall_app_2|].
  rewrite map_app. transitivity (cat (cats (map language k1)) (cats (map language k2))); [intros w _; apply cats_app|].
  by rewrite H1, H2.
Qed.

(** ** All expressions *)

Definition makes (r : RegExp) (m : AM Automaton) : Prop := wpx (may_fail r) m (realizes (denotes r)).

Lemma allowed_mono r r' err :
  (folds r = true → folds r' = true) → GetIdentifiers r ⊆ GetIdentifiers r' → complemented r ⊆ complemented r' →
  may_fail r err → may_fail r' err.
Proof.
  intros H1 H2 H3 [?|[[? ?]|[(s & Hs & ?)|(? & e & He & ?)]]]; [by left|right..].
  - left. auto.
  - right; left. exists s. set_solver.
  - right; right. split; [done|]. exists e. auto.
Qed.

(** A unary operation on the automaton of an operand. *)
Lemma makes_unary r e (op : Automaton → AM Automaton) :
  folds e = folds r → GetIdentifiers e = GetIdentifiers r → complemented e = complemented r →
  makes e (to_automaton e) →
  (∀ a, to_automaton e = Ret a → realizes (denotes e) a → runs (op a) (realizes (denotes r))) →
  makes r (a ← to_automaton e; op a).
Proof.
  intros HF HI HC He Hop. unfold makes in *. destruct (to_automaton e) as [a|err| |]; [|cbn in *|done..].
  - apply runs_allowed. by apply Hop.
  - revert He. apply allowed_mono; [by rewrite HF|by rewrite HI|by rewrite HC].
Qed.

Lemma walk_leaf (J : list Automaton → words → list Automaton → Prop) r l :
  (∀ a, realizes (denotes r) a → J l (denotes r) (l ++ [a])) → makes r (to_automaton r) →
  wpx (may_fail r) (a ← to_automaton r; mret (l ++ [a])) (J l (denotes r)).
Proof. intros HJ Hm. apply wpx_bind. eapply wpx_post; [exact Hm|]. intros a Ha. by apply HJ. Qed.

Definition walks_union (r : RegExp) : Prop :=
  ∀ l, wpx (may_fail r) (walk_union to_automaton r l) (joined_union l (denotes r)).
Definition walks_concatenation (r : RegExp) : Prop :=
  ∀ l, wpx (may_fail r) (walk_concatenation to_automaton r l) (joined_concatenation l (denotes r)).

Definition translated (r : RegExp) : Prop := makes r (to_automaton r) ∧ walks_union r ∧ walks_concatenation r.

Lemma translated_leaf r :
  isUnion r = false → isConcatenation r = false → makes r (to_automaton r) → translated r.
Proof.
  intros HU HC Hm. split_and!; [done| |]; intros l.
  - replace (walk_union to_automaton r l) with (a ← to_automaton r; mret (l ++ [a])) by (by destruct r).
    apply (walk_leaf joined_union r l); [intros; by apply single_union|done].
  - replace (walk_concatenation to_automaton r l) with (a ← to_automaton r; mret (l ++ [a])) by (by destruct r).
    apply (walk_leaf joined_concatenation r l); [intros; by apply single_concatenation|done].
Qed.

(** The errors of the operands of a binary operation. *)
Lemma allowed_binary r e1 e2 :
  folds r = folds e1 || folds e2 → GetIdentifiers r = GetIdentifiers e1 ∪ GetIdentifiers e2 →
  complemented r = complemented e1 ++ complemented e2 →
  (∀ err, may_fail e1 err → may_fail r err) ∧ (∀ err, may_fail e2 err → may_fail r err).
Proof.
  intros HF HI HC. split; intros err; (apply allowed_mono; [rewrite HF, orb_true_iff; auto|rewrite HI; set_solver|rewrite HC; set_solver]).
Qed.

Lemma walk_two r e1 e2 (J : list Automaton → words → list Automaton → Prop) (walk : RegExp → list Automaton → AM (list Automaton)) l :
  folds r = folds e1 || folds e2 → GetIdentifiers r = GetIdentifiers e1 ∪ GetIdentifiers e2 →
  complemented r = complemented e1 ++ complemented e2 →
  (∀ l, wpx (may_fail e1) (walk e1 l) (J l (denotes e1))) → (∀ l, wpx (may_fail e2) (walk e2 l) (J l (denotes e2))) →
  (∀ l2 l3, J l (denotes e1) l2 → J l2 (denotes e2) l3 → J l (denotes r) l3) →
  wpx (may_fail r) (l2 ← walk e1 l; walk e2 l2) (J l (denotes r)).
Proof.
  intros HF HI HC H1 H2 HJ. destruct (allowed_binary r e1 e2 HF HI HC) as [A1 A2]. apply wpx_bind.
  eapply wpx_mono; [apply H1|exact A1|]. intros l2 Hl2.
  eapply wpx_mono; [apply H2|exact A2|]. intros l3 Hl3. by apply (HJ l2).
Qed.

Lemma translated_union e1 e2 : translated e1 → translated e2 → translated (RUnion e1 e2).
Proof.
  intros (M1 & U1 & C1) (M2 & U2 & C2).
  assert (HU : walks_union (RUnion e1 e2)).
  { intros l. cbn [walk_union]. apply (walk_two _ e1 e2 joined_union (walk_union to_automaton)); try done.
    intros l2 l3. apply union_app. }
  assert (HM : makes (RUnion e1 e2) (to_automaton (RUnion e1 e2))).
  { specialize (HU []). cbn [walk_union] in HU. unfold makes, to_automaton. cbn [toAutomatonInternal]. fold to_automaton.
    change (wpx (may_fail (RUnion e1 e2)) (list_ ← walk_union to_automaton e1 []; list_ ← walk_union to_automaton e2 list_; Union list_)
      (realizes (denotes (RUnion e1 e2)))). rewrite <- go_bind_assoc.
    apply wpx_bind. eapply wpx_post; [exact HU|]. cbn beta. intros l' (k & -> & HG & HA). apply runs_allowed. cbn [app].
    eapply runs_mono; [by apply Union_spec|]. intros a [G HL]. split; [done|]. intros w Hw. by rewrite HL, <- (HA w Hw). }
  split_and!; [done|done|]. intros l. cbn [walk_concatenation].
  apply (walk_leaf joined_concatenation _ l); [intros; by apply single_concatenation|done].
Qed.

Lemma translated_concatenation e1 e2 : translated e1 → translated e2 → translated (RConcatenation e1 e2).
Proof.
  intros (M1 & U1 & C1) (M2 & U2 & C2).
  assert (HC : walks_concatenation (RConcatenation e1 e2)).
  { intros l. cbn [walk_concatenation]. apply (walk_two _ e1 e2 joined_concatenation (walk_concatenation to_automaton)); try done.
    intros l2 l3. apply concatenation_app. }
  assert (HM : makes (RConcatenation e1 e2) (to_automaton (RConcatenation e1 e2))).
  { specialize (HC []). cbn [walk_concatenation] in HC.
    change (wpx (may_fail (RConcatenation e1 e2)) (list_ ← walk_concatenation to_automaton e1 [];
      list_ ← walk_concatenation to_automaton e2 list_; Concatenate list_) (realizes (denotes (RConcatenation e1 e2)))).
    rewrite <- go_bind_assoc.
    apply wpx_bind. eapply wpx_post; [exact HC|]. cbn beta. intros l' (k & -> & Hk & HG & HA). apply runs_allowed. cbn [app].
    eapply runs_mono; [by apply Concatenate_spec|]. intros a [G HL]. split; [done|]. intros w Hw. rewrite HL, <- (HA w Hw). tauto. }
  split_and!; [done| |done]. intros l. cbn [walk_union].
  apply (walk_leaf joined_union _ l); [intros; by apply single_union|done].
Qed.

Lemma translated_intersection e1 e2 : translated e1 → translated e2 → translated (RIntersection e1 e2).
Proof.
  intros (M1 & _) (M2 & _). apply translated_leaf; [done..|].
  destruct (allowed_binary (RIntersection e1 e2) e1 e2 eq_refl eq_refl eq_refl) as [A1 A2].
  unfold makes. change (to_automaton (RIntersection e1 e2)) with
    (a1 ← to_automaton e1; a2 ← to_automaton e2; Intersection (same e1 e2) a1 a2).
  destruct (to_automaton e1) as [a1|err| |] eqn:E1; [|by apply A1|done..]. destruct (to_automaton e2) as [a2|err| |] eqn:E2;
    [|by apply A2|done..]. cbn [mbind go_bind]. destruct M1 as [G1 H1], M2 as [G2 H2]. apply runs_allowed.
  eapply runs_mono; [apply Intersection_spec; [done|done|]|].
  - intros Hs%Hsame. congruence.
  - intros a [G HL]. split; [done|]. intros w Hw. by rewrite HL, (H1 w Hw), (H2 w Hw).
Qed.

Lemma stateless_states e a : to_automaton e = Ret a → stateless e = (NumStates a =? 0).
Proof. unfold stateless, no_states. fold to_automaton. by intros ->. Qed.

Lemma realizes_nothing L a : good a → NumStates a = 0 → (∀ w, ¬ L w) → realizes L a.
Proof.
  intros G HN HL. split; [done|]. intros w _. split; [|by intros ?%HL]. intros Hw. by apply language_no_states in Hw; [|apply G|].
Qed.

Lemma translated_repeat e : translated e → translated (RRepeat e).
Proof.
  intros (M & _). apply translated_leaf; [done..|]. apply (makes_unary (RRepeat e) e Repeat); [done..|].
  intros a Ea [G HL]. pose proof (stateless_states e a Ea) as HS. pose proof (NumStates_pos _ (good_wf _ G)).
  eapply runs_mono; [by apply Repeat_spec|]. intros a' (G' & Hs & H0). unfold denotes. cbn [den]. fold denotes. rewrite HS.
  destruct (Z.eqb_spec (NumStates a) 0); [by apply realizes_nothing; [|apply H0|by intros w [? _]]|].
  split; [done|]. transitivity (star (language a)); [intros w _; apply Hs; lia|]. rewrite HL. intros w _. tauto.
Qed.

Lemma translated_repeat_min e min : translated e → 0 ≤ min → translated (RRepeatMin e min).
Proof.
  intros (M & _) Hm. apply translated_leaf; [done..|]. apply (makes_unary (RRepeatMin e min) e (fun a => RepeatN a min)); [done..|].
  intros a Ea [G HL]. pose proof (stateless_states e a Ea) as HS. pose proof (NumStates_pos _ (good_wf _ G)).
  unfold denotes. cbn [den]. fold denotes. rewrite HS.
  destruct (decide (NumStates a = 0 ∧ min = 0)) as [[E ->]|Hne].
  - unfold RepeatN. cbn [Z.eqb]. eapply runs_mono; [by apply Repeat_spec|]. intros a' (G' & _ & H0).
    apply realizes_nothing; [done|by apply H0|]. intros w [H1 _]. rewrite E in H1. by specialize (H1 eq_refl).
  - destruct (RepeatN_spec a min G) as [_ Hr]; [lia|]. eapply runs_mono; [apply Hr; lia|].
    intros a' [G' Hp]. split; [done|]. intros w Hw. rewrite Hp. split.
    + intros (n & ? & Hn). split; [intros; apply Z.eqb_neq; lia|]. exists n. split; [done|]. by apply (power_proper n _ _ HL w Hw).
    + intros [_ (n & ? & Hn)]. exists n. split; [done|]. by apply (power_proper n _ _ HL w Hw).
Qed.

Lemma translated_repeat_range e min max : translated e → 0 ≤ min → translated (RRepeatMinMax e min max).
Proof.
  intros (M & _) Hm. apply translated_leaf; [done..|].
  apply (makes_unary (RRepeatMinMax e min max) e (fun a => RepeatRange a min max)); [done..|].
  intros a _ [G HL]. eapply runs_mono; [by apply RepeatRange_spec|].
  intros a' [G' Hp]. split; [done|]. intros w Hw. rewrite Hp. cbn.
  split; intros (n & ? & Hn); exists n; (split; [done|]); by apply (power_proper n _ _ HL w Hw).
Qed.

Lemma translated_optional e : translated e → translated (ROptional e).
Proof.
  intros (M & _). apply translated_leaf; [done..|]. apply (makes_unary (ROptional e) e Optional); [done..|].
  intros a _ [G HL]. eapply runs_mono; [by apply Optional_spec|]. intros a' [G' Ho]. split; [done|]. intros w Hw.
  by rewrite Ho, (HL w Hw).
Qed.

Lemma translated_complement e : well_formed e → one_letter e = true → translated (RComplement e).
Proof.
  intros HW HO. apply translated_leaf; [done..|]. unfold makes.
  change (to_automaton (RComplement e)) with (a ← to_automaton e; Complement a MaxInt). apply wpx_bind.
  eapply wpx_mono; [by apply one_letter_spec| |].
  - intros err. by apply allowed_mono.
  - intros a ([G HL] & HD & HN). apply runs_allowed. eapply runs_mono; [by apply Complement_deterministic|].
    intros c [Gc Hc]. split; [done|]. intros w Hw. by rewrite (Hc w Hw), (HL w Hw).
Qed.

(** A general complement, by way of a determinization that can be too complex. *)
Lemma translated_deprecated_complement e :
  translated e → countable_states automata provider same e → translated (RDeprecatedComplement e).
Proof.
  intros (M & _) HN. apply translated_leaf; [done..|]. unfold makes in *.
  change (to_automaton (RDeprecatedComplement e)) with (a ← to_automaton e; Complement a DefaultDeterminizeWorkLimit).
  destruct (to_automaton e) as [a|err| |] eqn:E; [|cbn in *; revert M; apply allowed_mono; set_solver|done..]. cbn [mbind go_bind].
  destruct M as [G HL]. eapply wpx_mono; [apply Complement_spec; [done|by apply HN]| |].
  - intros err [->|[-> Hl]]; [by left|]. right; right; right. split; [done|]. exists e. split; [by left|]. by exists a.
  - intros c (Gc & _ & Hc). split; [done|]. intros w Hw. rewrite (Hc w Hw), (HL w Hw). done.
Qed.

Lemma makes_word flags r w (m : AM Automaton) :
  folds r = folding flags → denotes r = (fun v => v = w) → lettered w → m = MakeString w →
  makes r (if folding flags then Err CaseFoldingUnsupported else m).
Proof.
  intros HF HD Hw ->. destruct (folding flags) eqn:Ef; [right; left; split; [done|congruence]|]. apply runs_allowed.
  eapply runs_mono; [by apply MakeString_spec|]. intros a (G & _ & _ & HL). split; [done|]. rewrite HD. intros v _. apply HL.
Qed.

Lemma translated_string flags s : Forall is_byte s → translated (RString flags s).
Proof.
  intros Hs. apply translated_leaf; [done..|]. apply (makes_word flags _ (runes s)); [done..| |done].
  eapply Forall_impl; [by apply runes_scalar|]. intros c [Hc _]%scalar_spec. lia.
Qed.

Lemma translated_named s : translated (RAutomaton s).
Proof.
  apply translated_leaf; [done..|]. unfold makes. change (to_automaton (RAutomaton s)) with (named automata provider s).
  assert (Hp : named automata provider s ≠ Panic ∧ named automata provider s ≠ NoFuel).
  { unfold named. destruct (automata s); cbn; [done|]. destruct provider as [p|]; [|done]. by destruct (p s) as [[|]|]. }
  destruct (named automata provider s) as [a|err| |] eqn:E; cbn; [| |by destruct Hp..].
  - split; [by apply (Hnamed s)|]. intros w _. unfold denotes. cbn. split; [eauto|]. intros (a' & E' & ?).
    rewrite E in E'. by injection E' as ->.
  - right; right; left. exists s. split; [set_solver|done].
Qed.

Lemma translated_one_letter r : well_formed r → one_letter r = true → translated r.
Proof.
  intros HW HO. apply translated_leaf; [by destruct r..|]. eapply wpx_post; [by apply one_letter_spec|]. by intros a [? _].
Qed.

Lemma toAutomaton_spec r :
  well_formed r → (∀ e, e ∈ complemented r → countable_states automata provider same e) → makes r (to_automaton r).
Proof.
  enough (well_formed r → (∀ e, e ∈ complemented r → countable_states automata provider same e) → translated r) as H
    by (intros ? ?; by apply H).
  induction r; cbn [well_formed complemented]; intros HW HR; try setoid_rewrite elem_of_app in HR.
  - destruct HW. apply translated_union; auto.
  - destruct HW. apply translated_concatenation; auto.
  - destruct HW. apply translated_intersection; auto.
  - apply translated_optional; auto.
  - apply translated_repeat; auto.
  - destruct HW. apply translated_repeat_min; auto.
  - destruct HW as [? [? _]]. apply translated_repeat_range; auto.
  - destruct HW. by apply translated_complement.
  - by apply translated_one_letter.
  - by apply translated_one_letter.
  - by apply translated_one_letter.
  - apply translated_leaf; [done..|]. apply runs_allowed. eapply runs_mono; [apply MakeCharRange_spec; done|].
    apply one_char_realizes.
  - apply translated_leaf; [done..|]. apply runs_allowed. destruct MakeEmpty_spec as (a & E & G & Hn).
    unfold to_automaton. cbn [toAutomatonInternal]. rewrite E. cbn. split; [done|]. intros w _. split; [apply Hn|done].
  - by apply translated_string.
  - apply translated_leaf; [done..|]. apply runs_allowed. eapply runs_mono; [apply MakeAnyString_spec|].
    intros a [G HL]. split; [done|]. intros w _. apply HL.
  - apply translated_named.
  - destruct HW as (? & ? & ?). apply translated_leaf; [done..|]. apply runs_allowed.
    eapply runs_mono; [by apply MakeDecimalInterval_spec|]. intros a (G & _ & HL). split; [done|]. intros w _. apply HL.
  - setoid_rewrite elem_of_cons in HR. apply translated_deprecated_complement; auto.
Qed.

(** Where no star has an operand that denotes nothing, that is the usual denotation. *)
Lemma denotes_usual r :
  well_formed r → (∀ e, e ∈ complemented r → countable_states automata provider same e) → repeatable automata provider r →
  agree (denotes r) (usual automata provider r).
Proof.
  assert (Hst : ∀ e, well_formed e → (∀ e', e' ∈ complemented e → countable_states automata provider same e') →
    inhabited (denotes e) → stateless e = false).
  { intros e HW HC (w & Hw & Hd). pose proof (toAutomaton_spec e HW HC) as M. unfold makes in M.
    unfold stateless, no_states. fold to_automaton. destruct (to_automaton e) as [a| | |]; try done. destruct M as [G HL].
    apply Z.eqb_neq. intros E. apply (language_no_states a w (good_wf _ G) E). by apply HL. }
  induction r; cbn [well_formed complemented repeatable]; intros HW HC HR w Hw; try setoid_rewrite elem_of_app in HC;
    unfold usual, denotes in *; cbn [den]; try done.
  - destruct HW, HR. rewrite (IHr1 ltac:(done) ltac:(auto) ltac:(done) w Hw), (IHr2 ltac:(done) ltac:(auto) ltac:(done) w Hw). done.
  - destruct HW, HR. by apply cat_proper; [apply IHr1; auto|apply IHr2; auto|].
  - destruct HW, HR. rewrite (IHr1 ltac:(done) ltac:(auto) ltac:(done) w Hw), (IHr2 ltac:(done) ltac:(auto) ltac:(done) w Hw). done.
  - by rewrite (IHr HW HC HR w Hw).
  - destruct HR as [HR Hi]. specialize (IHr HW HC HR). rewrite (Hst r HW HC) by (by rewrite IHr).
    apply and_iff_compat_l. by apply star_proper.
  - destruct HR as [HR Hi], HW as [HW Hm]. specialize (IHr HW HC HR).
    assert (HE : (min = 0 → stateless r = false) ↔ (min = 0 → false = false)).
    { split; [done|]. intros _ H0. apply Hst; [done..|]. rewrite IHr. by apply Hi. }
    rewrite HE. apply and_iff_compat_l. split; intros (n & ? & Hn); exists n; (split; [done|]); by apply (power_proper n _ _ IHr w Hw).
  - destruct HW as [HW Hm]. specialize (IHr HW HC HR).
    split; intros (n & ? & Hn); exists n; (split; [done|]); by apply (power_proper n _ _ IHr w Hw).
  - destruct HW as [HW _]. by rewrite (IHr HW HC HR w Hw).
  - setoid_rewrite elem_of_cons in HC. by rewrite (IHr HW ltac:(auto) HR w Hw).
Qed.
End Automata.

(** C4. The automaton of a well-formed expression accepts exactly the words of code points that
    the expression denotes, complements included.  Of a star of an operand whose automaton has no
    states, this is no word at all (not even the empty one); where no star has an operand
    that denotes nothing, [repeatable], it is the usual denotation.

    The conversion ends without a panic.  The errors it can end in are the case folding that a character
    or string of the expression asks for, those of the named automata the expression mentions,
    and that the determinization of an operand of a complement goes beyond its limit, which
    takes [n] states with [100000 <= n 2^n].  The named automata are assumed to be in order,
    operands of complements to have fewer than [2^63] states, and two operands of an
    intersection that are one object to have the same automaton. *)
Theorem ToAutomaton_correct (automata : list Z → option Automaton) (provider : option (list Z → option (option Automaton)))
    (same : RegExp → RegExp → bool) (r : RegExp)
    (Hnamed : ∀ s a, named automata provider s = Ret a → good a)
    (Hsame : ∀ e1 e2, same e1 e2 = true →
       toAutomatonInternal automata provider same e1 = toAutomatonInternal automata provider same e2)
    (HW : well_formed r) (HC : ∀ e, e ∈ complemented r → countable_states automata provider same e) :
  match toAutomatonInternal automata provider same r with
  | Ret a =>
      good a ∧
      (∀ w, Forall code_point w → language a w ↔ den automata provider (no_states automata provider same) r w) ∧
      (repeatable automata provider r → ∀ w, Forall code_point w → language a w ↔ usual automata provider r w)
  | Err ArrayTooLarge => True
  | Err err => excused automata provider same r err
  | _ => False
  end.
Proof.
  pose proof (toAutomaton_spec automata provider same Hnamed Hsame r HW HC) as H. unfold makes in H.
  destruct (toAutomatonInternal automata provider same r) as [a|err| |]; [| |done..].
  - destruct H as [G HL]. split_and!; [done|exact HL|]. intros HR w Hw. rewrite (HL w Hw).
    by apply denotes_usual.
  - destruct H as [->|H]; [done|]. by destruct err.
Qed.

(** [[^a](<12-90>)*b{2}&~(ab)] without named automata. *)
Definition not_a_numbers : RegExp :=
  RIntersection
    (RConcatenation (RConcatenation (RIntersection RAnyChar (RComplement (RChar 0 97))) (RRepeat (RInterval 12 90 2)))
      (RRepeatMinMax (RChar 0 98) 2 2))
    (RDeprecatedComplement (RString 0 [97; 98])).

(** The second part: the star of the empty language has no states, and is so denoted. *)
Lemma ToAutomaton_correct_witness :
  match toAutomatonInternal (fun _ => None) None (fun _ _ => false) not_a_numbers with
  | Ret a =>
      good a ∧ NumStates a = 8 ∧
      ∀ w, Forall code_point w → language a w ↔ usual (fun _ => None) None not_a_numbers w
  | _ => False
  end ∧
  match toAutomatonInternal (fun _ => None) None (fun _ _ => false) (RRepeat REmpty) with
  | Ret a => good a ∧ ∀ w, Forall code_point w → ¬ language a w
  | _ => False
  end.
Proof.
  set (none := fun _ : list Z => @None Automaton). set (other := fun _ _ : RegExp => false). split.
  - pose proof (ToAutomaton_correct none None other not_a_numbers ltac:(done) ltac:(done)) as H.
    destruct (toAutomatonInternal none None other not_a_numbers) as [a| | |] eqn:E; try (vm_compute in E; discriminate).
    destruct H as (G & _ & HL).
    + cbn. unfold code_point, MinCodePoint, MaxCodePoint. split; [lia|]. repeat (apply Forall_cons; split; [vm_compute; split; [discriminate|reflexivity]|]). constructor.
    + intros e He%list_elem_of_singleton a' Ea. rewrite He in Ea. vm_compute in Ea. injection Ea as <-. vm_compute. reflexivity.
    + split; [exact G|]. split; [vm_compute in E; injection E as <-; vm_compute; reflexivity|]. apply HL. cbn.
      split; [|exact I]. split; [|exact I]. split; [exact (conj I I)|]. split; [exact I|]. exists [49; 50]. unfold usual, in_interval. cbn [den].
      split; [repeat constructor; unfold MinCodePoint, MaxCodePoint; lia|].
      split; [repeat constructor; unfold decimal; lia|]. split; [discriminate|]. split; [split; vm_compute; discriminate|done].
  - pose proof (ToAutomaton_correct none None other (RRepeat REmpty) ltac:(done) ltac:(done) I) as H.
    destruct (toAutomatonInternal none None other (RRepeat REmpty)) as [a| | |] eqn:E; try (vm_compute in E; discriminate).
    destruct H as (G & HL & _); [intros e He; by apply elem_of_nil in He|]. split; [exact G|]. intros w Hw Hl.
    apply HL in Hl as [Hl _]; [|exact Hw]. vm_compute in Hl. discriminate.
Defined.
