(* ===== verification/RegexpParser.v ===== *)
(** The parser of [util/automaton/regexp.go]: positions in the bytes of the expression,
    recursive descent with the loops of [iterativeParse]. *)

From stdpp Require Import base tactics numbers list gmap strings.
From Stdlib Require Import ZArith Lia Ascii.
From S2P Require Import Prelude WordBits Utf8 Nfa Automaton BooleanOps RegularOps Makers DecimalInterval Regexp.

Local Open Scope Z_scope.

(** * Characters *)

Definition ch (a : ascii) : Z := Z.of_N (N_of_ascii a).
Definition codes (s : string) : list Z := map ch (String.list_ascii_of_string s).

#[global] Arguments codes _%_string.

Definition quote : Z := 34.
Definition backslash : Z := 92.

Definition escapable : list Z := backslash :: codes "ABCDEFGHIJKLMNOPQRSTUVWXYZabcdefghijklmnopqrstuvwxyz".
Definition numerals : list Z := codes "0123456789".

(** * Nodes *)

Definition isText (e : RegExp) : bool := match e with RChar _ _ | RString _ _ => true | _ => false end.

(** The bytes a character or string contributes in [makeStringPair]. *)
Definition text (e : RegExp) : list Z :=
  match e with RString _ s => s | RChar _ c => EncodeRune c | _ => EncodeRune 0 end.

Definition makeStringPair (flags : Z) (e1 e2 : RegExp) : RegExp := RString flags (text e1 ++ text e2).

Definition makeConcatenation (flags : Z) (e1 e2 : RegExp) : RegExp :=
  if isText e1 && isText e2 then makeStringPair flags e1 e2 else
  match e1, e2 with
  | RConcatenation a b, _ =>
      if isText b && isText e2 then RConcatenation a (makeStringPair flags b e2)
      else match e2 with
           | RConcatenation c d => if isText e1 && isText c then RConcatenation (makeStringPair flags e1 c) d else RConcatenation e1 e2
           | _ => RConcatenation e1 e2
           end
  | _, RConcatenation c d => if isText e1 && isText c then RConcatenation (makeStringPair flags e1 c) d else RConcatenation e1 e2
  | _, _ => RConcatenation e1 e2
  end.

Definition makeCharRangeRegexp (from to : Z) : AM RegExp :=
  if to <? from then Err SyntaxError else mret (RCharRange from to).

Definition makeCharClassRegexp (from to : list Z) : AM RegExp :=
  if negb (Z.of_nat (length from) =? Z.of_nat (length to)) then Err SyntaxError else
  go_for (length from) 0 (fun i _ =>
    lo ← aget from i; hi ← aget to i;
    if hi <? lo then Err SyntaxError else mret tt) tt;;
  mret (RCharClass from to).

(** [strconv.Atoi]: an optional sign and digits, in the range of [int]. *)
Definition Atoi (s : list Z) : option Z :=
  let '(sign, ds) := match s with
                     | c :: r => if c =? ch "+" then (1, r) else if c =? ch "-" then (-1, r) else (1, s)
                     | [] => (1, s)
                     end in
  if bool_decide (ds = []) || negb (forallb (fun c => (48 <=? c) && (c <=? 57)) ds) then None else
  let v := sign * value ds in
  if (- 2 ^ 63 <=? v) && (v <? 2 ^ 63) then Some v else None.

Definition atoi (s : list Z) : AM Z := match Atoi s with Some v => mret v | None => Err SyntaxError end.

(** * The parser *)

Section Parser.
Context (s : list Z) (flags : Z).

Definition len : Z := Z.of_nat (length s).
Definition rest (pos : Z) : list Z := drop (Z.to_nat pos) s.

Definition check (flag : Z) : bool := checkAny flags flag.
Definition more (pos : Z) : bool := pos <? len.

Definition peek (chars : list Z) (pos : Z) : bool :=
  more pos && bool_decide ((DecodeRune (rest pos)).1 ∈ chars).

(** Whether the character is next, and the position behind it. *)
Definition match_ (c pos : Z) : bool * Z :=
  if len <=? pos then (false, pos) else
  let '(cp, size) := DecodeRune (rest pos) in
  if cp =? c then (true, pos + Z.of_nat size) else (false, pos).

(** A condition before the character. *)
Definition match_if (b : bool) (c pos : Z) : bool * Z := if b then match_ c pos else (false, pos).

Definition next (pos : Z) : AM (Z * Z) :=
  if negb (more pos) then Err SyntaxError else
  let '(cp, size) := DecodeRune (rest pos) in mret (cp, pos + Z.of_nat size).

(** [if !r.match(c) { return nil, error }] *)
Definition expect (c pos : Z) : AM Z := let '(b, pos) := match_ c pos in if b : bool then mret pos else Err SyntaxError.

(** [for cond(pos) { r.next() }] *)
Fixpoint skip (fuel : nat) (cond : Z → bool) (pos : Z) : AM Z :=
  if cond pos then
    match fuel with O => NoFuel | S fuel => '(_, pos) ← next pos; skip fuel cond pos end
  else mret pos.

(** ** [iterativeParse] *)

Fixpoint iterate (fuel : nat) (gather : Z → AM (RegExp * Z)) (stop : Z → bool * Z) (reduce : RegExp → RegExp → RegExp)
    (result : RegExp) (pos : Z) : AM (RegExp * Z) :=
  let '(go, pos) := stop pos in
  if go : bool then
    match fuel with
    | O => NoFuel
    | S fuel => '(e, pos) ← gather pos; iterate fuel gather stop reduce (reduce result e) pos
    end
  else mret (result, pos).

Definition iterativeParse (gather : Z → AM (RegExp * Z)) (stop : Z → bool * Z) (reduce : RegExp → RegExp → RegExp)
    (pos : Z) : AM (RegExp * Z) :=
  '(result, pos) ← gather pos; iterate (length s) gather stop reduce result pos.

(** ** Characters and classes *)

Definition parseCharExp (pos : Z) : AM (Z * Z) := let '(_, pos) := match_ backslash pos in next pos.

(** The classes behind a backslash, added to the ranges; the position behind the class. *)
Definition expandPreDefined (starts ends : list Z) (pos : Z) : AM (list Z * list Z * Z) :=
  if peek [backslash] pos then
    '(_, pos) ← next pos; mret (starts ++ [backslash], ends ++ [backslash], pos)
  else if peek [ch "d"] pos then
    '(_, pos) ← next pos; mret (starts ++ [48], ends ++ [57], pos)
  else if peek [ch "D"] pos then
    '(_, pos) ← next pos; mret (starts ++ [MinCodePoint; 57 + 1], ends ++ [48 - 1; MaxCodePoint], pos)
  else if peek [ch "s"] pos then
    '(_, pos) ← next pos; mret (starts ++ [9; 13; 32], ends ++ [10; 13; 32], pos)
  else if peek [ch "S"] pos then
    '(_, pos) ← next pos;
    mret (starts ++ [MinCodePoint; 10 + 1; 13 + 1; 32 + 1], ends ++ [9 - 1; 13 - 1; 32 - 1; MaxCodePoint], pos)
  else if peek [ch "w"] pos then
    '(_, pos) ← next pos; mret (starts ++ [48; 65; 95; 97], ends ++ [57; 90; 95; 122], pos)
  else if peek [ch "W"] pos then
    '(_, pos) ← next pos;
    mret (starts ++ [MinCodePoint; 57 + 1; 90 + 1; 95 + 1; 122 + 1], ends ++ [48 - 1; 65 - 1; 95 - 1; 97 - 1; MaxCodePoint], pos)
  else if peek (codes "abcefghijklmnopqrtuvxyz") pos || peek (codes "ABCEFGHIJKLMNOPQRTUVXYZ") pos then
    '(_, _) ← next pos; Err SyntaxError
  else mret (starts, ends, pos).

(** One item of a bracket expression. *)
Definition class_item (starts ends : list Z) (pos : Z) : AM (list Z * list Z * Z) :=
  let '(b, pos) := match_ backslash pos in
  if b : bool then
    if peek escapable pos then expandPreDefined starts ends pos
    else '(c, pos) ← next pos; mret (starts ++ [c], ends ++ [c], pos)
  else
    '(c, pos) ← parseCharExp pos;
    let '(b, pos) := match_ (ch "-") pos in
    if b : bool then
      if check RegExpCaseInsensitiveRange then Err CaseFoldingUnsupported else
      '(to, pos) ← parseCharExp pos; mret (starts ++ [c], ends ++ [to], pos)
    else if folding flags then Err CaseFoldingUnsupported
    else mret (starts ++ [c], ends ++ [c], pos).

Fixpoint class_items (fuel : nat) (starts ends : list Z) (pos : Z) : AM (list Z * list Z * Z) :=
  match fuel with
  | O => NoFuel
  | S fuel =>
      '(starts, ends, pos) ← class_item starts ends pos;
      if negb (more pos && negb (peek [ch "]"] pos)) then mret (starts, ends, pos)
      else class_items fuel starts ends pos
  end.

Definition parseCharClasses (pos : Z) : AM (RegExp * Z) :=
  '(starts, ends, pos) ← class_items (S (length s)) [] [] pos;
  e ← (match starts, ends with
       | [lo], hi :: _ => if lo =? hi then mret (RChar flags lo) else makeCharRangeRegexp lo hi
       | [_], [] => Panic
       | _, _ => makeCharClassRegexp starts ends
       end);
  mret (e, pos).

(** ** Simple expressions; [parseUnionExp] is the parser for what is in parentheses *)

Section Simple.
Context (parseUnionExp : Z → AM (RegExp * Z)).

Definition sub (a b : Z) : AM (list Z) := slice s a b.

(** [strings.Index] and [strings.LastIndex] of ["-"]. *)
Fixpoint index_of (c : Z) (l : list Z) : option Z :=
  match l with
  | [] => None
  | x :: l => if x =? c then Some 0 else match index_of c l with Some i => Some (i + 1) | None => None end
  end.

Definition last_index_of (c : Z) (l : list Z) : option Z :=
  match index_of c (reverse l) with Some i => Some (Z.of_nat (length l) - 1 - i) | None => None end.

(** What is between the angle brackets. *)
Definition bracketed (str : list Z) : AM RegExp :=
  match index_of (ch "-") str with
  | None => if negb (check RegExpAutomaton) then Err SyntaxError else mret (RAutomaton str)
  | Some i =>
      if negb (check RegExpInterval) then Err SyntaxError else
      if (i =? 0) || (i =? Z.of_nat (length str) - 1) || negb (bool_decide (last_index_of (ch "-") str = Some i))
      then Err SyntaxError else
      minStr ← slice str 0 i;
      maxStr ← slice str (i + 1) (Z.of_nat (length str));
      minVal ← atoi minStr;
      maxVal ← atoi maxStr;
      let digits := if Z.of_nat (length minStr) =? Z.of_nat (length maxStr) then Z.of_nat (length minStr) else 0 in
      let '(minVal, maxVal) := if maxVal <? minVal then (maxVal, minVal) else (minVal, maxVal) in
      mret (RInterval minVal maxVal digits)
  end.

(** [None] is the nil result. *)
Definition matchPredefinedCharacterClass (pos : Z) : AM (option RegExp * Z) :=
  let '(b, pos) := match_ backslash pos in
  if b && peek escapable pos then
    '(starts, ends, pos) ← expandPreDefined [] [] pos;
    e ← makeCharClassRegexp starts ends;
    mret (Some e, pos)
  else mret (None, pos).

Definition parseSimpleExp (pos : Z) : AM (RegExp * Z) :=
  let '(b, pos) := match_ (ch ".") pos in if b : bool then mret (RAnyChar, pos) else
  let '(b, pos) := match_if (check RegExpEmpty) (ch "#") pos in if b : bool then mret (REmpty, pos) else
  let '(b, pos) := match_if (check RegExpAnyString) (ch "@") pos in if b : bool then mret (RAnyString, pos) else
  let '(b, pos) := match_ quote pos in
  if b : bool then
    let start := pos in
    pos ← skip (length s) (fun pos => more pos && negb (peek [quote] pos)) pos;
    pos ← expect quote pos;
    str ← sub start (pos - 1);
    mret (RString flags str, pos)
  else
  let '(b, pos) := match_ (ch "(") pos in
  if b : bool then
    let '(b, pos) := match_ (ch ")") pos in
    if b : bool then mret (RString flags [], pos) else
    '(e, pos) ← parseUnionExp pos;
    pos ← expect (ch ")") pos;
    mret (e, pos)
  else
  let '(b, pos) := match_if (check RegExpAutomaton || check RegExpInterval) (ch "<") pos in
  if b : bool then
    let start := pos in
    pos ← skip (length s) (fun pos => more pos && negb (peek [ch ">"] pos)) pos;
    pos ← expect (ch ">") pos;
    str ← sub start (pos - 1);
    e ← bracketed str;
    mret (e, pos)
  else
  '(pre, pos) ← matchPredefinedCharacterClass pos;
  match pre with
  | Some e => mret (e, pos)
  | None => '(c, pos) ← parseCharExp pos; mret (RChar flags c, pos)
  end.

Definition parseCharClassExp (pos : Z) : AM (RegExp * Z) :=
  let '(b, pos) := match_ (ch "[") pos in
  if b : bool then
    let '(negate, pos) := match_ (ch "^") pos in
    '(e, pos) ← parseCharClasses pos;
    let e := if negate : bool then RIntersection RAnyChar (RComplement e) else e in
    pos ← expect (ch "]") pos;
    mret (e, pos)
  else parseSimpleExp pos.

Fixpoint parseComplExp (fuel : nat) (pos : Z) : AM (RegExp * Z) :=
  let '(b, pos) := match_if (check RegExpDeprecatedComplement) (ch "~") pos in
  if b : bool then
    match fuel with
    | O => NoFuel
    | S fuel => '(inner, pos) ← parseComplExp fuel pos; mret (RDeprecatedComplement inner, pos)
    end
  else parseCharClassExp pos.

(** ** Repetitions *)

Definition digits_from (pos : Z) : AM Z := skip (length s) (peek numerals) pos.

(** Behind the opening brace. *)
Definition parseBraces (e : RegExp) (pos : Z) : AM (RegExp * Z) :=
  let start := pos in
  pos ← digits_from pos;
  if start =? pos then Err SyntaxError else
  str ← sub start pos;
  n ← atoi str;
  let '(b, pos) := match_ (ch ",") pos in
  '(m, pos) ← (if b : bool then
                 let start := pos in
                 pos ← digits_from pos;
                 if negb (start =? pos) then str ← sub start pos; m ← atoi str; mret (m, pos) else mret (-1, pos)
               else mret (n, pos));
  pos ← expect (ch "}") pos;
  if negb (m =? -1) && (m <? n) then Err SyntaxError else
  mret (if m =? -1 then RRepeatMin e n else RRepeatMinMax e n m, pos).

(** The body of the loop; without a match it goes round with nothing changed. *)
Definition repeat_once (e : RegExp) (pos : Z) : AM (RegExp * Z) :=
  let '(b, pos) := match_ (ch "?") pos in if b : bool then mret (ROptional e, pos) else
  let '(b, pos) := match_ (ch "*") pos in if b : bool then mret (RRepeat e, pos) else
  let '(b, pos) := match_ (ch "+") pos in if b : bool then mret (RRepeatMin e 1, pos) else
  let '(b, pos) := match_ (ch "{") pos in if b : bool then parseBraces e pos else mret (e, pos).

Fixpoint repeat_loop (fuel : nat) (e : RegExp) (pos : Z) : AM (RegExp * Z) :=
  if peek (codes "?*+{") pos then
    match fuel with O => NoFuel | S fuel => '(e, pos) ← repeat_once e pos; repeat_loop fuel e pos end
  else mret (e, pos).

Definition parseRepeatExp (pos : Z) : AM (RegExp * Z) :=
  '(e, pos) ← parseComplExp (length s) pos; repeat_loop (length s) e pos.

Definition parseConcatExp : Z → AM (RegExp * Z) :=
  iterativeParse parseRepeatExp
    (fun pos => (more pos && negb (peek (codes ")|") pos) && (negb (check RegExpIntersection) || negb (peek (codes "&") pos)), pos))
    (makeConcatenation flags).

Definition parseInterExp : Z → AM (RegExp * Z) :=
  iterativeParse parseConcatExp (match_if (check RegExpIntersection) (ch "&")) RIntersection.

Definition union_body : Z → AM (RegExp * Z) := iterativeParse parseInterExp (match_ (ch "|")) RUnion.
End Simple.

(** The depth of the parentheses bounds the recursion. *)
Fixpoint parseUnionExp (fuel : nat) (pos : Z) : AM (RegExp * Z) :=
  match fuel with O => NoFuel | S fuel => union_body (parseUnionExp fuel) pos end.
End Parser.

Definition NewRegExpFlags (s : list Z) (syntaxFlags matchFlags : Z) : AM RegExp :=
  if RegExpAll <? Z.land syntaxFlags (Z.lnot RegExpDeprecatedComplement) then Err IllegalFlag else
  if (0 <? matchFlags) && (matchFlags <=? RegExpAll) then Err IllegalFlag else
  let flags := Z.lor syntaxFlags matchFlags in
  if Z.of_nat (length s) =? 0 then mret (RString flags []) else
  '(parsed, pos) ← parseUnionExp s flags (S (length s)) 0;
  if pos <? len s then Err SyntaxError else mret parsed.

Definition NewRegExp (s : list Z) : AM RegExp := NewRegExpFlags s RegExpAll 0.

Definition NewRegExpSyntax (s : list Z) (syntaxFlags : Z) : AM RegExp := NewRegExpFlags s syntaxFlags 0.

Example parser_run :
  NewRegExp (codes "ab|[^c-e](<01-12>x{2,})*&\d@") =
    Ret (RUnion (RString 255 (codes "ab"))
      (RIntersection
        (RConcatenation (RIntersection RAnyChar (RComplement (RCharRange 99 101)))
          (RRepeat (RConcatenation (RInterval 1 12 2) (RRepeatMin (RChar 255 120) 2))))
        (RConcatenation (RCharClass [48] [57]) RAnyString))) ∧
  NewRegExp (codes "a(b") = Err SyntaxError ∧ NewRegExp (codes "\a") = Err SyntaxError ∧
  NewRegExpFlags (codes "[a]") RegExpAll RegExpCaseInsensitive = Err CaseFoldingUnsupported ∧
  NewRegExpSyntax (codes "~a") 0x100ff = Ret (RDeprecatedComplement (RChar 0x100ff 97)).
Proof. vm_compute. done. Qed.

(** * What the parser gives *)

Lemma ch_range a : 0 ≤ ch a < 256.
Proof. unfold ch. pose proof (N_ascii_bounded a). lia. Qed.

(** The constructs of an expression are those its flags enable. *)
Fixpoint permitted (flags : Z) (r : RegExp) : Prop :=
  match r with
  | RUnion e1 e2 | RConcatenation e1 e2 => permitted flags e1 ∧ permitted flags e2
  | RIntersection e1 e2 => permitted flags e1 ∧ permitted flags e2 ∧
      (checkAny flags RegExpIntersection = true ∨ e1 = RAnyChar ∧ ∃ e, e2 = RComplement e)
  | ROptional e | RRepeat e | RRepeatMin e _ | RRepeatMinMax e _ _ | RComplement e => permitted flags e
  | RDeprecatedComplement e => permitted flags e ∧ checkAny flags RegExpDeprecatedComplement = true
  | RChar f _ | RString f _ => f = flags
  | REmpty => checkAny flags RegExpEmpty = true
  | RAnyString => checkAny flags RegExpAnyString = true
  | RAutomaton _ => checkAny flags RegExpAutomaton = true
  | RInterval _ _ _ => checkAny flags RegExpInterval = true
  | RCharClass from _ => from ≠ []
  | RCharRange _ _ | RAnyChar => True
  end.

Definition parse_error (e : autoerr) : Prop := e = SyntaxError ∨ e = CaseFoldingUnsupported.

Abbreviation parses := (wpx parse_error).

Lemma syntax_error {A} (Q : A → Prop) : parses (Err SyntaxError) Q.
Proof. by left. Qed.
Lemma folding_error {A} (Q : A → Prop) : parses (Err CaseFoldingUnsupported) Q.
Proof. by right. Qed.

#[local] Hint Resolve syntax_error folding_error : core.

Lemma parses_step {A B} (m : AM A) (f : A → AM B) P Q : parses m P → (∀ a, P a → parses (f a) Q) → parses (m ≫= f) Q.
Proof. intros Hm Hf. apply wpx_bind. by eapply wpx_post. Qed.

Section Positions.
Context (s : list Z) (flags : Z) (Hs : Forall is_byte s).

Definition good_expr (e : RegExp) : Prop := well_formed e ∧ permitted flags e.

(** Behind [pos], in the string. *)
Definition onward (pos pos' : Z) : Prop := pos ≤ pos' ≤ len s.
Definition forward (pos pos' : Z) : Prop := pos < pos' ≤ len s.

Lemma rest_bytes pos : Forall is_byte (rest s pos).
Proof. by apply Forall_drop. Qed.

Lemma rest_length pos : 0 ≤ pos ≤ len s → Z.of_nat (length (rest s pos)) = len s - pos.
Proof. unfold rest, len. rewrite length_drop. lia. Qed.

Lemma decode_size pos : 0 ≤ pos < len s → forward pos (pos + Z.of_nat (DecodeRune (rest s pos)).2).
Proof.
  intros Hp. pose proof (rest_length pos ltac:(lia)) as HL. destruct (DecodeRune_size (rest s pos)) as [H1 H2].
  - intros E. rewrite E in HL. cbn in HL. lia.
  - unfold forward. lia.
Qed.

Lemma decode_code_point pos : code_point (DecodeRune (rest s pos)).1.
Proof.
  pose proof (DecodeRune_scalar _ (rest_bytes pos)) as [H _]%scalar_spec. unfold code_point, MinCodePoint, MaxCodePoint, MaxRune in *. lia.
Qed.

(** The outcomes of [match]. *)
Lemma match_cases c pos :
  0 ≤ pos ≤ len s →
  match_ s c pos = (false, pos) ∨
  ∃ pos', match_ s c pos = (true, pos') ∧ forward pos pos' ∧ (DecodeRune (rest s pos)).1 = c.
Proof.
  intros Hp. unfold match_. destruct (Z.leb_spec (len s) pos) as [|Hlt]; [by left|].
  pose proof (decode_size pos ltac:(lia)) as Hd. destruct (DecodeRune (rest s pos)) as [cp size]. cbn [fst snd] in *.
  destruct (Z.eqb_spec cp c) as [->|]; [right|by left]. by eexists.
Qed.

Lemma match_if_cases b c pos :
  0 ≤ pos ≤ len s →
  match_if s b c pos = (false, pos) ∨
  ∃ pos', match_if s b c pos = (true, pos') ∧ forward pos pos' ∧ (DecodeRune (rest s pos)).1 = c ∧ b = true.
Proof.
  intros Hp. unfold match_if. destruct b; [|by left]. destruct (match_cases c pos Hp) as [?|(pos' & ? & ? & ?)]; [by left|right; eauto].
Qed.

Lemma peek_spec chars pos : peek s chars pos = true ↔ pos < len s ∧ (DecodeRune (rest s pos)).1 ∈ chars.
Proof. unfold peek, more. by rewrite andb_true_iff, Z.ltb_lt, bool_decide_eq_true. Qed.

Lemma next_rune_spec pos :
  0 ≤ pos ≤ len s → parses (next s pos) (fun '(c, pos') => c = (DecodeRune (rest s pos)).1 ∧ code_point c ∧ forward pos pos').
Proof.
  intros Hp. unfold next, more. destruct (Z.ltb_spec pos (len s)); cbn [negb]; [|auto].
  pose proof (decode_size pos ltac:(lia)) as Hd. pose proof (decode_code_point pos) as Hc.
  destruct (DecodeRune (rest s pos)) as [cp size]. cbn [fst snd] in *. by split_and!.
Qed.

(** Where there is a character, [next] succeeds. *)
Lemma next_Ret pos : 0 ≤ pos < len s → ∃ pos', next s pos = Ret ((DecodeRune (rest s pos)).1, pos') ∧ forward pos pos'.
Proof.
  intros Hp. unfold next, more. rewrite (proj2 (Z.ltb_lt _ _)) by lia. cbn [negb].
  pose proof (decode_size pos Hp) as Hd. destruct (DecodeRune (rest s pos)) as [cp size]. by eexists.
Qed.

Lemma expect_spec c pos : 0 ≤ pos ≤ len s → parses (expect s c pos) (forward pos).
Proof. intros Hp. unfold expect. destruct (match_cases c pos Hp) as [->|(pos' & -> & ? & _)]; [auto|done]. Qed.

Lemma skip_spec fuel cond : ∀ pos,
  (∀ p, cond p = true → p < len s) → 0 ≤ pos ≤ len s → len s - pos ≤ Z.of_nat fuel →
  ∃ pos', skip s fuel cond pos = Ret pos' ∧ onward pos pos' ∧ cond pos' = false.
Proof.
  induction fuel as [|fuel IH]; intros pos Hc Hp Hf; cbn [skip]; destruct (cond pos) eqn:E.
  - apply Hc in E. lia.
  - exists pos. split; [done|]. unfold onward. split; [lia|done].
  - pose proof (Hc _ E). destruct (next_Ret pos) as (p1 & -> & [H1 H2]); [lia|]. rewrite go_bind_ret.
    destruct (IH p1 Hc) as (pos' & -> & [? ?] & ?); [lia|lia|]. exists pos'. split; [done|]. unfold onward. split; [lia|done].
  - exists pos. split; [done|]. unfold onward. split; [lia|done].
Qed.

Lemma sub_spec a b : 0 ≤ a ≤ b → b ≤ len s → sub s a b = Ret (take (Z.to_nat (b - a)) (rest s a)).
Proof.
  intros Hab Hb. unfold sub, rest, slice. unfold len in Hb.
  rewrite (proj2 (Z.leb_le _ _)), (proj2 (Z.leb_le a b)), (proj2 (Z.leb_le b _)) by lia. done.
Qed.

(** ** Characters and classes *)

Lemma match_pos c pos : 0 ≤ pos ≤ len s → onward pos (match_ s c pos).2.
Proof. intros Hp. destruct (match_cases c pos Hp) as [->|(p & -> & ? & _)]; cbn; unfold onward, forward in *; lia. Qed.

Lemma parseCharExp_spec pos :
  0 ≤ pos ≤ len s → parses (parseCharExp s pos) (fun '(c, pos') => code_point c ∧ forward pos pos').
Proof.
  intros Hp. unfold parseCharExp. pose proof (match_pos backslash pos Hp) as Hm. destruct (match_ s backslash pos) as [b p]. cbn in Hm.
  unfold onward in Hm. eapply wpx_post; [apply next_rune_spec; lia|]. intros [c p'] (_ & ? & ?). unfold forward in *. split; [done|lia].
Qed.

Record ranges (starts ends : list Z) : Prop := {
  rg_length : length starts = length ends;
  rg_starts : Forall code_point starts;
  rg_ends : Forall code_point ends
}.

Lemma ranges_app starts ends starts' ends' : ranges starts ends → ranges starts' ends' → ranges (starts ++ starts') (ends ++ ends').
Proof. intros [? ? ?] [? ? ?]. split; [rewrite !length_app; lia|by apply Forall_app_2..]. Qed.

Lemma ranges_single lo hi : code_point lo → code_point hi → ranges [lo] [hi].
Proof. intros. split; [done|by apply Forall_singleton..]. Qed.

(** The characters of the classes, and those that are an error. *)
Lemma escapable_cases c :
  c ∈ escapable → c ∈ [backslash] ∨ c ∈ [ch "d"] ∨ c ∈ [ch "D"] ∨ c ∈ [ch "s"] ∨ c ∈ [ch "S"] ∨ c ∈ [ch "w"] ∨ c ∈ [ch "W"] ∨
    c ∈ codes "abcefghijklmnopqrtuvxyz" ∨ c ∈ codes "ABCEFGHIJKLMNOPQRTUVXYZ".
Proof.
  intros Hc. assert (H : forallb (fun c => bool_decide (c ∈ [backslash] ∨ c ∈ [ch "d"] ∨ c ∈ [ch "D"] ∨ c ∈ [ch "s"] ∨ c ∈ [ch "S"] ∨
    c ∈ [ch "w"] ∨ c ∈ [ch "W"] ∨ c ∈ codes "abcefghijklmnopqrtuvxyz" ∨ c ∈ codes "ABCEFGHIJKLMNOPQRTUVXYZ")) escapable = true) by (by vm_compute).
  rewrite forallb_forall in H. apply list_elem_of_In in Hc. by apply H, bool_decide_eq_true in Hc.
Qed.

Lemma step_next {A} (f : Z * Z → AM A) pos Q :
  0 ≤ pos < len s → (∀ c p, forward pos p → parses (f (c, p)) Q) → parses (next s pos ≫= f) Q.
Proof. intros Hp Hf. destruct (next_Ret pos Hp) as (p & -> & Hm). rewrite go_bind_ret. by apply Hf. Qed.

(** The ranges so far and the position behind the last item. *)
Definition listed (pos : Z) (r : list Z * list Z * Z) : Prop :=
  let '(starts, ends, pos') := r in ranges starts ends ∧ starts ≠ [] ∧ forward pos pos'.

Lemma expandPreDefined_spec starts ends pos :
  0 ≤ pos ≤ len s → peek s escapable pos = true → ranges starts ends → parses (expandPreDefined s starts ends pos) (listed pos).
Proof.
  intros Hp0 Hpk HR. pose proof Hpk as [Hlt Hin]%peek_spec. assert (Hp : 0 ≤ pos < len s) by lia.
  assert (Hcls : ∀ st en, ranges st en → st ≠ [] → ∀ c p, forward pos p →
    parses (let '(_, p) := (c : Z, p) in mret (starts ++ st, ends ++ en, p) : AM (list Z * list Z * Z)) (listed pos)).
  { intros st en H Hne c p Hf. cbn. split_and!; [by apply ranges_app|by intros [_ ?]%app_nil|apply Hf..]. }
  assert (Hcp : ∀ l, forallb (fun c => (MinCodePoint <=? c) && (c <=? MaxCodePoint)) l = true → Forall code_point l).
  { intros l H. apply Forall_forall. intros c Hc%list_elem_of_In. rewrite forallb_forall in H. apply H in Hc.
    apply andb_true_iff in Hc as [?%Z.leb_le ?%Z.leb_le]. done. }
  unfold expandPreDefined.
  repeat match goal with
  | |- parses (if peek s ?l pos then _ else _) _ => let E := fresh "E" in destruct (peek s l pos) eqn:E
  end; [(apply step_next; [done|apply Hcls; [split; [done|by apply Hcp..]|done]])..|].
  destruct (peek s (codes "abcefghijklmnopqrtuvxyz") pos || peek s (codes "ABCEFGHIJKLMNOPQRTUVXYZ") pos) eqn:Ebad.
  - apply step_next; [done|]. auto.
  - exfalso. apply orb_false_iff in Ebad as [Eb1 Eb2]. apply escapable_cases in Hin.
    assert (Hno : ∀ l, peek s l pos = false → (DecodeRune (rest s pos)).1 ∈ l → False).
    { intros l Hf Hl. apply not_true_iff_false in Hf. apply Hf, peek_spec. done. }
    repeat match type of Hin with _ ∨ _ => destruct Hin as [Hin|Hin] end; by eapply Hno in Hin.
Qed.

Lemma single_listed pos starts ends lo hi p :
  ranges starts ends → code_point lo → code_point hi → forward pos p → listed pos (starts ++ [lo], ends ++ [hi], p).
Proof. intros HR Hlo Hhi Hf. cbn. split; [by apply ranges_app, ranges_single|]. split; [by intros [_ ?]%app_nil|done]. Qed.

Lemma class_item_spec starts ends pos :
  0 ≤ pos ≤ len s → ranges starts ends → parses (class_item s flags starts ends pos) (listed pos).
Proof.
  intros Hp HR. unfold class_item. destruct (match_cases backslash pos Hp) as [->|(p & -> & Hf & _)].
  - eapply parses_step; [by apply parseCharExp_spec|]. intros [c p1] [Hc Hf]. unfold forward in Hf.
    destruct (match_cases (ch "-") p1) as [->|(p2 & -> & Hf2 & _)]; [lia| |].
    + destruct (folding flags); [auto|]. by apply single_listed.
    + destruct (check flags RegExpCaseInsensitiveRange); [auto|]. unfold forward in Hf2.
      eapply parses_step; [apply parseCharExp_spec; lia|]. intros [to p3] [Hto Hf3]. unfold forward in Hf3.
      apply single_listed; [done..|unfold forward; lia].
  - unfold forward in Hf. destruct (peek s escapable p) eqn:Epk.
    + eapply wpx_post; [apply expandPreDefined_spec; [lia|done..]|]. intros [[st en] p'] (? & ? & Hf'). unfold forward in Hf'.
      split; [done|]. split; [done|unfold forward; lia].
    + eapply parses_step; [apply next_rune_spec; lia|]. intros [c p'] (_ & Hc & Hf'). unfold forward in Hf'.
      apply single_listed; [done..|unfold forward; lia].
Qed.

Lemma class_items_spec fuel : ∀ starts ends pos,
  0 ≤ pos ≤ len s → len s - pos < Z.of_nat fuel → ranges starts ends → parses (class_items s flags fuel starts ends pos) (listed pos).
Proof.
  induction fuel as [|fuel IH]; intros starts ends pos Hp Hf HR; [lia|]. cbn [class_items].
  eapply parses_step; [by apply class_item_spec|]. intros [[st en] p1] (HR1 & Hne & Hf1). unfold forward in Hf1.
  destruct (negb _); [done|]. eapply wpx_post; [apply IH; [lia|lia|done]|].
  intros [[st2 en2] p2] (? & ? & Hf2). unfold forward in Hf2. split; [done|]. split; [done|unfold forward; lia].
Qed.

(** An expression and the position behind it. *)
Definition parsed (pos : Z) (r : RegExp * Z) : Prop := good_expr r.1 ∧ forward pos r.2.

Lemma parses_weaken pos pos' m : pos ≤ pos' → parses m (parsed pos') → parses m (parsed pos).
Proof. intros Hle H. eapply wpx_post; [exact H|]. intros [e p] [? Hf]. split; [done|]. unfold forward in *. cbn in *. lia. Qed.

Lemma makeCharClassRegexp_spec starts ends :
  ranges starts ends → starts ≠ [] →
  parses (makeCharClassRegexp starts ends) (fun e => good_expr e ∧ one_letter e = true).
Proof.
  intros [HL HS HE] Hne. unfold makeCharClassRegexp. rewrite (proj2 (Z.eqb_eq _ _)) by lia. cbn [negb].
  match goal with |- context [go_for _ _ ?b _] => set (body := b) end.
  enough (∀ n i, (Z.to_nat i + n = length starts)%nat → 0 ≤ i →
    parses (go_for n i body tt) (fun _ => ∀ j, i ≤ j < Z.of_nat (length starts) → nthZ 0 starts j ≤ nthZ 0 ends j)) as H.
  { eapply parses_step; [apply (H (length starts) 0); lia|]. cbn beta. intros _ Hle. cbn. split; [|done]. split; [|done]. cbn. split; [done|].
    apply Forall_forall. intros [lo hi] Hin. apply list_elem_of_lookup in Hin as (j & Hj).
    apply lookup_zip_with_Some in Hj as (lo' & hi' & [= -> ->] & Hlo & Hhi).
    specialize (Hle (Z.of_nat j)). unfold nthZ in Hle. rewrite Nat2Z.id, Hlo, Hhi in Hle. cbn in Hle.
    rewrite Forall_lookup in HS. specialize (HS j lo' Hlo). unfold code_point, MinCodePoint in HS.
    apply lookup_lt_Some in Hlo. lia. }
  induction n as [|n IH]; intros i Hi H0; cbn [go_for]; [cbn; intros j Hj; lia|].
  assert (Hbody : body i tt = if nthZ 0 ends i <? nthZ 0 starts i then Err SyntaxError else Ret tt).
  { unfold body. rewrite !(nthZ_aget 0), !go_bind_ret by lia. done. }
  rewrite Hbody.
  destruct (Z.ltb_spec (nthZ 0 ends i) (nthZ 0 starts i)); [by left|]. rewrite go_bind_ret.
  eapply wpx_post; [apply (IH (i + 1)); lia|]. cbn. intros _ Hle j Hj. destruct (decide (j = i)) as [E|]; [by rewrite E|]. apply Hle. lia.
Qed.

Lemma parseCharClasses_spec pos :
  0 ≤ pos ≤ len s →
  parses (parseCharClasses s flags pos) (fun '(e, pos') => good_expr e ∧ one_letter e = true ∧ forward pos pos').
Proof.
  intros Hp. unfold parseCharClasses. eapply parses_step.
  { apply (class_items_spec (S (length s)) [] [] pos Hp); [unfold len in *; lia|]. split; [done|constructor..]. }
  intros [[starts ends] p] (HR & Hne & Hf). pose proof HR as [HL HS HE].
  assert (Hcls : parses (makeCharClassRegexp starts ends ≫= fun e => mret (e, p))
    (fun '(e, pos') => good_expr e ∧ one_letter e = true ∧ forward pos pos')).
  { eapply parses_step; [by apply makeCharClassRegexp_spec|]. intros e [? ?]. by split_and!. }
  destruct starts as [|lo [|lo2 starts]]; [done| |exact Hcls]. destruct ends as [|hi [|]]; [done| |done].
  apply Forall_cons in HS as [HS _]. apply Forall_cons in HE as [HE _]. unfold code_point, MinCodePoint in HS, HE. destruct (Z.eqb_spec lo hi) as [->|Hneq].
  - split; [split; [exact HE|done]|by split].
  - unfold makeCharRangeRegexp. destruct (Z.ltb_spec hi lo); [by left|]. cbn. split; [|done]. split; [cbn; lia|done].
Qed.

(** ** Numbers *)

Definition is_digit (c : Z) : bool := (48 <=? c) && (c <=? 57).

Lemma digits_decimal ds : forallb is_digit ds = true → Forall decimal ds.
Proof.
  intros H. apply Forall_forall. intros c Hc%list_elem_of_In. rewrite forallb_forall in H. apply H in Hc.
  apply andb_true_iff in Hc as [?%Z.leb_le ?%Z.leb_le]. done.
Qed.

(** A number without a minus sign is a natural number, with at most as many digits as characters. *)
Lemma Atoi_spec str v : Atoi str = Some v → ch "-" ∉ str → 0 ≤ v < 2 ^ 63 ∧ str ≠ [] ∧ v < 10 ^ Z.of_nat (length str).
Proof.
  intros HA Hm. unfold Atoi in HA.
  assert (∃ ds, (ds = str ∨ ∃ c, str = c :: ds) ∧ ds ≠ [] ∧ Forall decimal ds ∧ v = 1 * value ds ∧ v < 2 ^ 63) as (ds & Hds & Hne & HF & -> & Hv).
  { assert (Hend : ∀ ds, (ds = str ∨ ∃ c, str = c :: ds) →
      (if bool_decide (ds = []) || negb (forallb is_digit ds) then None
       else let v := 1 * value ds in if (- 2 ^ 63 <=? v) && (v <? 2 ^ 63) then Some v else None) = Some v →
      ∃ ds, (ds = str ∨ ∃ c, str = c :: ds) ∧ ds ≠ [] ∧ Forall decimal ds ∧ v = 1 * value ds ∧ v < 2 ^ 63).
    { intros ds Hds. case_bool_decide as Hne; [done|]. cbn [orb]. destruct (forallb is_digit ds) eqn:Hd; [|done]. cbn [negb].
      destruct (Z.leb_spec (- 2 ^ 63) (1 * value ds)); [|done]. destruct (Z.ltb_spec (1 * value ds) (2 ^ 63)); [|done].
      cbn [andb]. intros [= <-]. exists ds. split_and!; [done..|by apply digits_decimal|done|lia]. }
    destruct str as [|c r]; [by apply (Hend []); [left|]|]. destruct (c =? ch "+"); [by apply (Hend r); [right; exists c|]|].
    destruct (Z.eqb_spec c (ch "-")) as [->|]; [exfalso; apply Hm; by left|]. by apply (Hend (c :: r)); [left|]. }
  pose proof (value_bounds ds HF) as Hb. split; [lia|]. destruct Hds as [->|[c ->]]; [split; [done|lia]|].
  split; [done|]. cbn [length]. pose proof (ten_le (length ds) (S (length ds))). lia.
Qed.

Lemma atoi_spec str : ch "-" ∉ str → parses (atoi str) (fun v => 0 ≤ v < 2 ^ 63 ∧ str ≠ [] ∧ v < 10 ^ Z.of_nat (length str)).
Proof. intros Hm. unfold atoi. destruct (Atoi str) as [v|] eqn:E; [|auto]. by apply Atoi_spec. Qed.

(** ** Angle brackets *)

Lemma index_of_spec c l i :
  index_of c l = Some i → ∃ l1 l2, l = l1 ++ c :: l2 ∧ Z.of_nat (length l1) = i ∧ c ∉ l1.
Proof.
  revert i. induction l as [|x l IH]; intros i; cbn [index_of]; [done|]. destruct (Z.eqb_spec x c) as [->|Hne].
  - intros [= <-]. exists [], l. split_and!; [done|done|apply not_elem_of_nil].
  - destruct (index_of c l) as [j|] eqn:E; [|done]. intros [= <-]. destruct (IH j eq_refl) as (l1 & l2 & -> & <- & Hn).
    exists (x :: l1), l2. split_and!; [done|cbn; lia|]. rewrite elem_of_cons. by intros [?|?].
Qed.

Lemma last_index_of_spec c l i :
  last_index_of c l = Some i → ∃ l1 l2, l = l1 ++ c :: l2 ∧ Z.of_nat (length l1) = i ∧ c ∉ l2.
Proof.
  unfold last_index_of. destruct (index_of c (reverse l)) as [j|] eqn:E; [|done]. intros [= <-].
  apply index_of_spec in E as (l1 & l2 & HE & <- & Hn). apply (f_equal reverse) in HE. rewrite reverse_involutive in HE.
  exists (reverse l2), (reverse l1). subst l. rewrite reverse_app, reverse_cons, <- app_assoc. split_and!; [done| |].
  - rewrite !length_app, !length_reverse. cbn [length]. lia.
  - by rewrite elem_of_reverse.
Qed.

Lemma bracketed_spec str : parses (bracketed flags str) good_expr.
Proof.
  unfold bracketed. destruct (index_of (ch "-") str) as [i|] eqn:Ei.
  2: { destruct (check flags RegExpAutomaton) eqn:Ec; [by split|auto]. }
  destruct (check flags RegExpInterval) eqn:Ec; cbn [negb]; [|auto].
  destruct (_ || _ || negb _) eqn:Eb; [auto|]. rewrite !orb_false_iff, negb_false_iff, bool_decide_eq_true in Eb. destruct Eb as [_ El].
  apply index_of_spec in Ei as (l1 & l2 & -> & <- & Hn1). apply last_index_of_spec in El as (l1' & l2' & E & HL & Hn2).
  apply app_inj_1 in E as [-> [= <-]]; [|lia].
  replace (slice (l1' ++ ch "-" :: l2) 0 (Z.of_nat (length l1'))) with (Ret l1' : AM (list Z))
    by (symmetry; apply (slice_mid [] l1' (ch "-" :: l2)); cbn; lia). rewrite go_bind_ret.
  replace (slice (l1' ++ ch "-" :: l2) (Z.of_nat (length l1') + 1) (Z.of_nat (length (l1' ++ ch "-" :: l2)))) with (Ret l2 : AM (list Z)).
  2: { symmetry. rewrite cons_middle, app_assoc, <- (app_nil_r ((l1' ++ [ch "-"]) ++ l2)), <- app_assoc.
       apply slice_mid; rewrite ?length_app; cbn [length]; rewrite ?length_app; cbn [length]; lia. }
  rewrite go_bind_ret. eapply parses_step; [by apply atoi_spec|]. intros lo (Hlo & Hne1 & Hlo').
  eapply parses_step; [by apply atoi_spec|]. intros hi (Hhi & Hne2 & Hhi'). cbn zeta.
  destruct (Z.ltb_spec hi lo); (split; [|done]); cbn;
    destruct (Z.eqb_spec (Z.of_nat (length l1')) (Z.of_nat (length l2))) as [El|]; (split_and!; [lia..|]); try lia; rewrite ?El in *; lia.
Qed.

(** ** Simple expressions *)

Lemma matchPredefined_spec pos :
  0 ≤ pos ≤ len s →
  parses (matchPredefinedCharacterClass s pos) (fun '(o, pos') =>
    match o with Some e => good_expr e ∧ forward pos pos' | None => onward pos pos' end).
Proof.
  intros Hp. unfold matchPredefinedCharacterClass.
  destruct (match_cases backslash pos Hp) as [->|(p & -> & Hf & _)]; cbn [andb]; [cbn; unfold onward; lia|].
  unfold forward in Hf. destruct (peek s escapable p) eqn:Epk; [|cbn; unfold onward; lia].
  eapply parses_step; [apply (expandPreDefined_spec [] [] p); [lia|done|split; [done|constructor..]]|].
  intros [[st en] p'] (HR & Hne & Hf'). eapply parses_step; [by apply makeCharClassRegexp_spec|]. intros e [He _].
  unfold forward in *. cbn. split; [done|lia].
Qed.

Lemma sub_bytes a b str : sub s a b = Ret str → Forall is_byte str.
Proof.
  unfold sub, slice. destruct (_ && _); [|done]. intros [= <-]. by apply Forall_take, Forall_drop.
Qed.

(** The text up to a closing character. *)
Lemma delimited_spec {A} c start (k : list Z → Z → AM A) Q :
  0 ≤ start ≤ len s → (∀ str pos, Forall is_byte str → forward start pos → parses (k str pos) Q) →
  parses (pos ← skip s (length s) (fun pos => more s pos && negb (peek s [c] pos)) start;
          pos ← expect s c pos; str ← sub s start (pos - 1); k str pos) Q.
Proof.
  intros Hp Hk. destruct (skip_spec (length s) (fun pos => more s pos && negb (peek s [c] pos)) start) as (p & -> & Ho & _).
  { intros q [Hq _]%andb_true_iff. by apply Z.ltb_lt. }
  { done. }
  { unfold len in *. lia. }
  rewrite go_bind_ret. unfold onward in Ho. eapply parses_step; [apply expect_spec; lia|]. intros p' Hf. unfold forward in Hf.
  assert (E : ∃ str, sub s start (p' - 1) = Ret str) by (eexists; apply sub_spec; lia). destruct E as [str E]. rewrite E, go_bind_ret.
  apply Hk; [by eapply sub_bytes|unfold forward; lia].
Qed.

Section Recursive.
Context (union_exp : Z → AM (RegExp * Z)).

(** The parser for what is in parentheses, on the positions the fuel is enough for. *)
Definition serves (depth : Z) : Prop := ∀ pos, depth ≤ pos ≤ len s → parses (union_exp pos) (parsed pos).

Lemma parseSimpleExp_spec pos : 0 ≤ pos ≤ len s → serves (pos + 1) → parses (parseSimpleExp s flags union_exp pos) (parsed pos).
Proof.
  intros Hp Hser. unfold parseSimpleExp.
  destruct (match_cases (ch ".") pos Hp) as [->|(p & -> & Hf & _)]; [|by split].
  destruct (match_if_cases (check flags RegExpEmpty) (ch "#") pos Hp) as [->|(p & -> & Hf & _ & Hc)]; [|by split].
  destruct (match_if_cases (check flags RegExpAnyString) (ch "@") pos Hp) as [->|(p & -> & Hf & _ & Hc)]; [|by split].
  destruct (match_cases quote pos Hp) as [->|(p & -> & Hf & _)].
  2: { unfold forward in Hf. apply (delimited_spec quote p (fun str pos => mret (RString flags str, pos))); [lia|].
       intros str p' Hb Hf'. unfold forward in Hf'. split; [by split|unfold forward; cbn; lia]. }
  destruct (match_cases (ch "(") pos Hp) as [->|(p & -> & Hf & _)].
  2: { unfold forward in Hf. destruct (match_cases (ch ")") p) as [->|(p' & -> & Hf' & _)]; [lia| |].
       - eapply parses_step; [apply Hser; lia|]. intros [e p1] [He Hf1]. unfold forward in Hf1. cbn in He, Hf1.
         eapply parses_step; [apply expect_spec; lia|]. intros p2 Hf2. unfold forward in Hf2. split; [done|unfold forward; cbn; lia].
       - unfold forward in Hf'. split; [split; [constructor|done]|unfold forward; cbn; lia]. }
  destruct (match_if_cases (check flags RegExpAutomaton || check flags RegExpInterval) (ch "<") pos Hp) as [->|(p & -> & Hf & _)].
  2: { unfold forward in Hf. apply (delimited_spec (ch ">") p (fun str pos => e ← bracketed flags str; mret (e, pos))); [lia|].
       intros str p' Hb Hf'. eapply parses_step; [apply bracketed_spec|]. intros e He. unfold forward in *. split; [done|unfold forward; cbn; lia]. }
  eapply parses_step; [by apply matchPredefined_spec|]. intros [[e|] p].
  - intros [He Hf]. by split.
  - intros Ho. unfold onward in Ho. eapply parses_step; [apply parseCharExp_spec; lia|]. intros [c p'] [Hc Hf]. unfold forward in *.
    split; [by split|unfold forward; cbn; lia].
Qed.

Lemma parseCharClassExp_spec pos :
  0 ≤ pos ≤ len s → serves (pos + 1) → parses (parseCharClassExp s flags union_exp pos) (parsed pos).
Proof.
  intros Hp Hser. unfold parseCharClassExp.
  destruct (match_cases (ch "[") pos Hp) as [->|(p & -> & Hf & _)]; [by apply parseSimpleExp_spec|]. unfold forward in Hf.
  pose proof (match_pos (ch "^") p ltac:(lia)) as Ho. destruct (match_ s (ch "^") p) as [negate p1]. cbn in Ho. unfold onward in Ho.
  eapply parses_step; [apply parseCharClasses_spec; lia|]. intros [e p2] ((HW & HP) & HO & Hf2). unfold forward in Hf2.
  eapply parses_step; [apply expect_spec; lia|]. intros p3 Hf3. unfold forward in Hf3. cbn zeta.
  split; [|unfold forward; cbn; lia]. destruct negate; cbn; [|by split]. split; [done|]. cbn. split_and!; [done|done|]. right. eauto.
Qed.

Lemma parseComplExp_spec fuel : ∀ pos,
  0 ≤ pos ≤ len s → len s - pos ≤ Z.of_nat fuel → serves (pos + 1) → parses (parseComplExp s flags union_exp fuel pos) (parsed pos).
Proof.
  induction fuel as [|fuel IH]; intros pos Hp Hf Hser; cbn [parseComplExp];
    destruct (match_if_cases (check flags RegExpDeprecatedComplement) (ch "~") pos Hp) as [->|(p & -> & Hm & _ & Hc)];
    try by apply parseCharClassExp_spec.
  - unfold forward in Hm. lia.
  - unfold forward in Hm. eapply parses_step; [apply (IH p); [lia|lia|]|].
    + intros q Hq. apply Hser. lia.
    + intros [e p'] [[HW HP] Hf']. unfold forward in *. cbn in *. split; [by split|unfold forward; cbn; lia].
Qed.

(** ** Repetitions *)

Lemma numeral_ascii c : c ∈ numerals → 48 ≤ c ≤ 57.
Proof.
  intros Hc%list_elem_of_In. assert (H : forallb is_digit numerals = true) by done. rewrite forallb_forall in H. apply H in Hc.
  apply andb_true_iff in Hc as [?%Z.leb_le ?%Z.leb_le]. done.
Qed.

Lemma rest_cons pos c r : 0 ≤ pos → rest s pos = c :: r → rest s (pos + 1) = r.
Proof. intros Hp E. unfold rest in *. rewrite Z2Nat.inj_add, <- drop_drop, E by lia. done. Qed.

(** What is skipped as digits is digits. *)
Lemma skip_digits fuel : ∀ pos pos',
  0 ≤ pos ≤ len s → skip s fuel (peek s numerals) pos = Ret pos' →
  pos ≤ pos' ∧ Forall (fun c => 48 ≤ c ≤ 57) (take (Z.to_nat (pos' - pos)) (rest s pos)).
Proof.
  induction fuel as [|fuel IH]; intros pos pos' Hp; cbn [skip]; destruct (peek s numerals pos) eqn:E; try done.
  - intros [= <-]. split; [lia|]. rewrite Z.sub_diag. constructor.
  - apply peek_spec in E as [Hlt Hin]. apply numeral_ascii in Hin.
    destruct (DecodeRune_cases _ (rest_bytes pos)) as [(c & r & Er & _ & Ed)|[? _]]; [|lia]. rewrite Ed in Hin. cbn in Hin.
    unfold next, more. rewrite (proj2 (Z.ltb_lt _ _)), Ed by lia. cbn [negb mbind go_bind mret go_ret]. intros H.
    apply IH in H as [H1 H2]; [|lia]. change (Z.of_nat 1) with 1 in *. rewrite (rest_cons pos c r) in H2 by (done || lia).
    split; [lia|]. rewrite Er. replace (Z.to_nat (pos' - pos)) with (S (Z.to_nat (pos' - (pos + 1)))) by lia. by constructor.
  - intros [= <-]. split; [lia|]. rewrite Z.sub_diag. constructor.
Qed.

(** A number of digits. *)
Lemma number_spec {A} start (k : Z → Z → AM A) Q :
  0 ≤ start ≤ len s → (∀ v pos, 0 ≤ v → onward start pos → parses (k v pos) Q) →
  ∃ pos, digits_from s start = Ret pos ∧ onward start pos ∧ parses (str ← sub s start pos; n ← atoi str; k n pos) Q.
Proof.
  intros Hp Hk. destruct (skip_spec (length s) (peek s numerals) start) as (p & E & Ho & _).
  { intros q [Hq _]%peek_spec. done. }
  { done. }
  { unfold len in *. lia. }
  exists p. split; [done|]. split; [done|]. destruct (skip_digits _ _ _ Hp E) as [_ HF]. unfold onward in Ho.
  rewrite sub_spec, go_bind_ret by lia. eapply parses_step; [apply atoi_spec|].
  - intros Hin. rewrite Forall_forall in HF. apply HF in Hin. assert (ch "-" = 45) by done. lia.
  - intros v (Hv & _). apply Hk; [lia|done].
Qed.

Lemma parseBraces_spec e pos :
  0 ≤ pos ≤ len s → good_expr e → parses (parseBraces s e pos) (parsed pos).
Proof.
  intros Hp [HW HP]. unfold parseBraces. cbn zeta.
  match goal with |- parses (_ ≫= ?f) _ => set (after := f) end.
  assert (Hend : ∀ n m p, 0 ≤ n → m = -1 ∨ 0 ≤ m → onward pos p →
    parses (p' ← expect s (ch "}") p; if negb (m =? -1) && (m <? n) then Err SyntaxError else
            mret (if m =? -1 then RRepeatMin e n else RRepeatMinMax e n m, p')) (parsed pos)).
  { intros n m p Hn Hm Ho. unfold onward in Ho. eapply parses_step; [apply expect_spec; lia|]. intros p' Hf. unfold forward in Hf.
    destruct (Z.eqb_spec m (-1)) as [->|Hne]; cbn [negb andb].
    - split; [|unfold forward; cbn; lia]. split; cbn; [split; [done|lia]|done].
    - destruct (Z.ltb_spec m n); [auto|]. split; [|unfold forward; cbn; lia]. split; cbn; [split; [done|lia]|done]. }
  destruct (number_spec pos (fun n pos1 =>
    let '(b, pos2) := match_ s (ch ",") pos1 in
    '(m, pos3) ← (if b : bool then
                   let start := pos2 in
                   pos3 ← digits_from s start;
                   if negb (start =? pos3) then str ← sub s start pos3; m ← atoi str; mret (m, pos3) else mret (-1, pos3)
                 else mret (n, pos2));
    p' ← expect s (ch "}") pos3;
    if negb (m =? -1) && (m <? n) then Err SyntaxError else
    mret (if m =? -1 then RRepeatMin e n else RRepeatMinMax e n m, p')) (parsed pos) Hp) as (p & -> & Ho & HQ).
  - intros n p1 Hn Ho1. unfold onward in Ho1. destruct (match_cases (ch ",") p1) as [->|(p2 & -> & Hf & _)]; [lia| |].
    + rewrite go_bind_mret. apply Hend; [done|by right|done].
    + unfold forward in Hf. cbn zeta.
      destruct (number_spec p2 (fun m pos3 => mret (m, pos3)) (fun '(m, p) => (m = -1 ∨ 0 ≤ m) ∧ onward pos p)) as (p3 & -> & Ho3 & HQ3); [lia| |].
      { intros m p3 Hm Ho3. unfold onward in *. cbn. split; [by right|lia]. }
      rewrite go_bind_ret. eapply parses_step with (P := fun '(m, p) => (m = -1 ∨ 0 ≤ m) ∧ onward pos p).
      { destruct (negb (p2 =? p3)); [exact HQ3|]. unfold onward in *. cbn. split; [by left|lia]. }
      intros [m p4] [Hm Ho4]. by apply Hend.
  - rewrite go_bind_ret. unfold after. destruct (pos =? p); [auto|exact HQ].
Qed.

Lemma repeat_once_spec e pos :
  0 ≤ pos ≤ len s → peek s (codes "?*+{") pos = true → good_expr e → parses (repeat_once s e pos) (parsed pos).
Proof.
  intros Hp Hpk [HW HP]. unfold repeat_once.
  destruct (match_cases (ch "?") pos Hp) as [E1|(p & -> & Hf & _)]; [rewrite E1|by split].
  destruct (match_cases (ch "*") pos Hp) as [E2|(p & -> & Hf & _)]; [rewrite E2|by split].
  destruct (match_cases (ch "+") pos Hp) as [E3|(p & -> & Hf & _)]; [rewrite E3|split; [|done]; split; cbn; [split; [done|lia]|done]].
  destruct (match_cases (ch "{") pos Hp) as [E4|(p & -> & Hf & _)].
  - exfalso. apply peek_spec in Hpk as [Hlt Hin]. unfold match_ in *. rewrite (proj2 (Z.leb_gt _ _)) in E1, E2, E3, E4 by lia.
    destruct (DecodeRune (rest s pos)) as [cp size]. cbn in Hin. rewrite !elem_of_cons in Hin.
    destruct Hin as [->|[->|[->|[->|?%elem_of_nil]]]]; done.
  - unfold forward in Hf. eapply parses_weaken; [|apply parseBraces_spec; [lia|by split]]. lia.
Qed.

Lemma repeat_loop_spec fuel : ∀ e pos base,
  0 ≤ base < pos → pos ≤ len s → len s - pos ≤ Z.of_nat fuel → good_expr e → parses (repeat_loop s fuel e pos) (parsed base).
Proof.
  induction fuel as [|fuel IH]; intros e pos base Hb Hp Hf He; cbn [repeat_loop]; destruct (peek s (codes "?*+{") pos) eqn:E.
  - apply peek_spec in E as [? _]. lia.
  - split; [done|unfold forward; cbn; lia].
  - eapply parses_step; [by apply repeat_once_spec; [lia|..]|]. intros [e' p] [He' Hf']. unfold forward in Hf'. cbn in He', Hf'.
    apply IH; [lia|lia|lia|done].
  - split; [done|unfold forward; cbn; lia].
Qed.

Lemma parseRepeatExp_spec pos : 0 ≤ pos ≤ len s → serves (pos + 1) → parses (parseRepeatExp s flags union_exp pos) (parsed pos).
Proof.
  intros Hp Hser. unfold parseRepeatExp. eapply parses_step; [apply parseComplExp_spec; [done|unfold len in *; lia|done]|].
  intros [e p] [He Hf]. unfold forward in Hf. cbn in He, Hf. apply repeat_loop_spec; [lia|lia|unfold len in *; lia|done].
Qed.

(** ** Sequences *)

Lemma text_bytes e : good_expr e → Forall is_byte (text e).
Proof. intros [HW _]. destruct e; cbn [text well_formed] in *; try apply EncodeRune_bytes. done. Qed.

Lemma makeStringPair_good e1 e2 : good_expr e1 → good_expr e2 → good_expr (makeStringPair flags e1 e2).
Proof. intros H1 H2. split; [|done]. cbn. apply Forall_app_2; by apply text_bytes. Qed.

Lemma concatenation_good e1 e2 : good_expr (RConcatenation e1 e2) ↔ good_expr e1 ∧ good_expr e2.
Proof. unfold good_expr. cbn. tauto. Qed.

Lemma makeConcatenation_good e1 e2 : good_expr e1 → good_expr e2 → good_expr (makeConcatenation flags e1 e2).
Proof.
  intros H1 H2. unfold makeConcatenation. destruct (isText e1 && isText e2); [by apply makeStringPair_good|].
  assert (Hd : good_expr (RConcatenation e1 e2)) by by apply concatenation_good.
  assert (Hr : good_expr (match e2 with
    | RConcatenation c d => if isText e1 && isText c then RConcatenation (makeStringPair flags e1 c) d else RConcatenation e1 e2
    | _ => RConcatenation e1 e2 end)).
  { destruct e2; try done. apply concatenation_good in H2 as [? ?]. destruct (isText e1 && isText e2_1); [|done].
    apply concatenation_good. split; [by apply makeStringPair_good|done]. }
  destruct e1; try exact Hr. apply concatenation_good in H1 as [? ?]. destruct (isText e1_2 && isText e2); [|exact Hr].
  apply concatenation_good. split; [done|by apply makeStringPair_good].
Qed.

Section Iterate.
Context (gather : Z → AM (RegExp * Z)) (stop : Z → bool * Z) (reduce : RegExp → RegExp → RegExp) (start : Z).
Context (Hgather : ∀ pos, start ≤ pos ≤ len s → parses (gather pos) (parsed pos)).
Context (Hstop : ∀ pos, 0 ≤ pos ≤ len s → onward pos (stop pos).2 ∧ ((stop pos).1 = true → pos < len s)).
Context (Hreduce : ∀ pos e1 e2, (stop pos).1 = true → good_expr e1 → good_expr e2 → good_expr (reduce e1 e2)).

Lemma iterate_spec fuel : ∀ result pos,
  0 ≤ start < pos → pos ≤ len s → len s - pos ≤ Z.of_nat fuel → good_expr result →
  parses (iterate fuel gather stop reduce result pos) (parsed start).
Proof.
  induction fuel as [|fuel IH]; intros result pos H0 Hp Hf HR; cbn [iterate];
    destruct (Hstop pos ltac:(lia)) as [Ho Hlt]; pose proof (Hreduce pos) as Hr; destruct (stop pos) as [go p]; cbn [fst snd] in *;
    unfold onward in Ho; (destruct go; [specialize (Hlt eq_refl)|split; [done|unfold forward; cbn; lia]]).
  - lia.
  - eapply parses_step; [apply Hgather; lia|]. intros [e p'] [He Hf']. unfold forward in Hf'. cbn in He, Hf'.
    apply IH; [lia|lia|lia|]. by apply Hr.
Qed.

Lemma iterativeParse_spec : 0 ≤ start ≤ len s → parses (iterativeParse s gather stop reduce start) (parsed start).
Proof.
  intros Hp. unfold iterativeParse. eapply parses_step; [apply Hgather; lia|]. intros [e p] [He Hf]. unfold forward in Hf. cbn in He, Hf.
  apply iterate_spec; [lia|lia|unfold len in *; lia|done].
Qed.
End Iterate.

Lemma match_if_stop b c pos :
  0 ≤ pos ≤ len s → onward pos (match_if s b c pos).2 ∧ ((match_if s b c pos).1 = true → pos < len s ∧ b = true).
Proof.
  intros Hp. destruct (match_if_cases b c pos Hp) as [->|(p & -> & Hf & _ & ->)]; unfold onward, forward in *; cbn; (split; [lia|]); [done|].
  intros _. split; [lia|done].
Qed.

Lemma parseConcatExp_spec pos : 0 ≤ pos ≤ len s → serves (pos + 1) → parses (parseConcatExp s flags union_exp pos) (parsed pos).
Proof.
  intros Hp Hser. apply iterativeParse_spec; [| | |done].
  - intros p Hpr. apply parseRepeatExp_spec; [lia|]. intros q Hq. apply Hser. lia.
  - intros p Hpr. cbn. split; [unfold onward; lia|]. intros [[Hm%Z.ltb_lt _]%andb_true_iff _]%andb_true_iff. done.
  - intros p e1 e2 _. apply makeConcatenation_good.
Qed.

Lemma parseInterExp_spec pos : 0 ≤ pos ≤ len s → serves (pos + 1) → parses (parseInterExp s flags union_exp pos) (parsed pos).
Proof.
  intros Hp Hser. apply iterativeParse_spec; [| | |done].
  - intros p Hpr. apply parseConcatExp_spec; [lia|]. intros q Hq. apply Hser. lia.
  - intros p Hpr. destruct (match_if_stop (check flags RegExpIntersection) (ch "&") p Hpr) as [? H]. split; [done|]. intros Hm. by apply H.
  - intros p e1 e2 Hm [? ?] [? ?]. assert (Hc : check flags RegExpIntersection = true).
    { unfold match_if in Hm. by destruct (check flags RegExpIntersection). }
    split; [by split|]. cbn. split_and!; [done..|by left].
Qed.

Lemma union_body_spec pos : 0 ≤ pos ≤ len s → serves (pos + 1) → parses (union_body s flags union_exp pos) (parsed pos).
Proof.
  intros Hp Hser. apply iterativeParse_spec; [| | |done].
  - intros p Hpr. apply parseInterExp_spec; [lia|]. intros q Hq. apply Hser. lia.
  - intros p Hpr. destruct (match_if_stop true (ch "|") p Hpr) as [? H]. split; [done|]. intros Hm. by apply H.
  - intros p e1 e2 _ [? ?] [? ?]. by split.
Qed.
End Recursive.

Lemma parseUnionExp_spec fuel : ∀ pos, 0 ≤ pos ≤ len s → len s - pos < Z.of_nat fuel → parses (parseUnionExp s flags fuel pos) (parsed pos).
Proof.
  induction fuel as [|fuel IH]; intros pos Hp Hf; [lia|]. cbn [parseUnionExp]. apply union_body_spec; [done|].
  intros p Hpr. apply IH; lia.
Qed.
End Positions.

Definition flag_error (e : autoerr) : Prop := e = IllegalFlag ∨ parse_error e.

Lemma NewRegExpFlags_spec s syntaxFlags matchFlags :
  Forall is_byte s →
  wpx flag_error (NewRegExpFlags s syntaxFlags matchFlags) (good_expr (Z.lor syntaxFlags matchFlags)).
Proof.
  intros Hs. unfold NewRegExpFlags. destruct (RegExpAll <? _); [by left|]. destruct ((0 <? matchFlags) && _); [by left|].
  destruct (Z.of_nat (length s) =? 0); [split; [constructor|done]|]. cbn zeta.
  apply (wpx_mono parse_error _ _ (good_expr (Z.lor syntaxFlags matchFlags)) _); [|by right|done].
  eapply parses_step; [apply (parseUnionExp_spec s (Z.lor syntaxFlags matchFlags) Hs (S (length s)) 0); unfold len; lia|].
  intros [e p] [He _]. destruct (p <? len s); [by left|exact He].
Qed.

(** C5. Parsing terminates and never panics, whatever the bytes of the expression and the flags
    are; an expression it returns is well formed, so that its fields are fit for the conversion
    to an automaton, and uses only the constructs that the flags enable.  The errors are those
    of illegal flags, exactly when there are any, of the syntax, and of case folding. *)
Theorem NewRegExpFlags_correct (s : list Z) (syntaxFlags matchFlags : Z) (Hs : Forall is_byte s) :
  match NewRegExpFlags s syntaxFlags matchFlags with
  | Ret e => well_formed e ∧ permitted (Z.lor syntaxFlags matchFlags) e
  | Err IllegalFlag =>
      RegExpAll < Z.land syntaxFlags (Z.lnot RegExpDeprecatedComplement) ∨ 0 < matchFlags ≤ RegExpAll
  | Err SyntaxError | Err CaseFoldingUnsupported => True
  | _ => False
  end.
Proof.
  pose proof (NewRegExpFlags_spec s syntaxFlags matchFlags Hs) as H.
  assert (Hill : NewRegExpFlags s syntaxFlags matchFlags = Err IllegalFlag →
    RegExpAll < Z.land syntaxFlags (Z.lnot RegExpDeprecatedComplement) ∨ 0 < matchFlags ≤ RegExpAll).
  { unfold NewRegExpFlags. destruct (Z.ltb_spec RegExpAll (Z.land syntaxFlags (Z.lnot RegExpDeprecatedComplement))); [by left|].
    destruct ((0 <? matchFlags) && _) eqn:E; [apply andb_true_iff in E as [?%Z.ltb_lt ?%Z.leb_le]; by right|].
    destruct (Z.of_nat (length s) =? 0); [done|]. cbn zeta.
    assert (Hp : parses (parseUnionExp s (Z.lor syntaxFlags matchFlags) (S (length s)) 0) (parsed s (Z.lor syntaxFlags matchFlags) 0)).
    { apply parseUnionExp_spec; unfold len; [done|lia|lia]. }
    destruct (parseUnionExp _ _ _ _) as [[e p]|err| |]; cbn; [by destruct (p <? len s)| |done..].
    intros [= ->]. by destruct Hp. }
  destruct (NewRegExpFlags s syntaxFlags matchFlags) as [e|err| |]; [exact H| |done..].
  destruct H as [->|[->| ->]]; auto.
Qed.

Lemma NewRegExpFlags_correct_witness :
  match NewRegExpFlags (codes "a|[^b]{2,3}") RegExpAll 0 with
  | Ret e => well_formed e ∧ permitted (Z.lor RegExpAll 0) e
  | Err IllegalFlag => RegExpAll < Z.land RegExpAll (Z.lnot RegExpDeprecatedComplement) ∨ 0 < 0 ≤ RegExpAll
  | Err SyntaxError | Err CaseFoldingUnsupported => True
  | _ => False
  end ∧
  NewRegExpFlags (codes "a|[^b]{2,3}") RegExpAll 0 =
    Ret (RUnion (RChar 255 97) (RRepeatMinMax (RIntersection RAnyChar (RComplement (RChar 255 98))) 2 3)).
Proof.
  split; [|vm_compute; reflexivity]. apply NewRegExpFlags_correct. apply Forall_forall. intros c Hc%list_elem_of_In.
  assert (H : forallb (fun c => (0 <=? c) && (c <? 256)) (codes "a|[^b]{2,3}") = true) by (vm_compute; reflexivity).
  rewrite forallb_forall in H. apply H in Hc. apply andb_true_iff in Hc as [?%Z.leb_le ?%Z.ltb_lt]. split; assumption.
Defined.

(** * Literal words *)

(** Characters with no meaning in expressions, whatever the flags. *)
Definition special : list Z := quote :: backslash :: codes ".#@(<[?*+{)|&~".
Definition plain (c : Z) : Prop := scalar c = true ∧ c ∉ special.

Ltac is_special := apply (bool_decide_eq_true_1 _); vm_compute; reflexivity.

Lemma nonempty_cons {A} (l : list A) : l ≠ [] → ∃ x k, l = x :: k.
Proof. destruct l; [done|eauto]. Qed.

Section Literal.
Context (flags : Z) (cs : list Z) (Hcs : Forall plain cs).

Let s := encode cs.

(** The position behind a prefix of the word. *)
Definition at_ (pre : list Z) : Z := Z.of_nat (length (encode pre)).

Lemma plain_scalar l : Forall plain l → Forall (fun c => scalar c = true) l.
Proof. intros H. eapply Forall_impl; [exact H|]. by intros c [? _]. Qed.

Lemma rest_at pre post : cs = pre ++ post → rest s (at_ pre) = encode post.
Proof. intros E. unfold rest, at_, s. rewrite E, encode_app, Nat2Z.id. apply drop_app_length. Qed.

Lemma at_snoc pre c : at_ (pre ++ [c]) = at_ pre + Z.of_nat (length (EncodeRune c)).
Proof. unfold at_. rewrite encode_app, length_app. unfold encode at 2. cbn. rewrite app_nil_r. lia. Qed.

Lemma at_end : at_ cs = len s.
Proof. done. Qed.

Lemma at_before pre c post : cs = pre ++ c :: post → at_ pre < len s.
Proof.
  intros E. unfold at_, len, s. rewrite E, encode_app, length_app. unfold encode at 3. cbn [map concat].
  rewrite length_app. pose proof (EncodeRune_nonempty c). destruct (EncodeRune c); [done|]. cbn [length]. lia.
Qed.

Lemma decode_at pre c post : cs = pre ++ c :: post → DecodeRune (rest s (at_ pre)) = (c, length (EncodeRune c)).
Proof.
  intros E. rewrite (rest_at _ _ E). unfold encode. cbn [map concat]. apply decode_encode.
  rewrite E in Hcs. apply Forall_app in Hcs as [_ [[? _] _]%Forall_cons]. done.
Qed.

(** Nothing special is next. *)
Lemma match_miss x pre post : cs = pre ++ post → x ∈ special → match_ s x (at_ pre) = (false, at_ pre).
Proof.
  intros E Hx. unfold match_. destruct post as [|c post].
  - rewrite app_nil_r in E. rewrite <- E, at_end. by rewrite (proj2 (Z.leb_le _ _)).
  - pose proof (at_before _ _ _ E). rewrite (proj2 (Z.leb_gt _ _)), (decode_at _ _ _ E) by done.
    rewrite E in Hcs. apply Forall_app in Hcs as [_ [[_ Hn] _]%Forall_cons]. rewrite (proj2 (Z.eqb_neq _ _)); [done|]. by intros ->.
Qed.

Lemma match_if_miss b x pre post : cs = pre ++ post → x ∈ special → match_if s b x (at_ pre) = (false, at_ pre).
Proof. intros E Hx. unfold match_if. destruct b; [by apply (match_miss x pre post)|done]. Qed.

Lemma peek_miss chars pre post : cs = pre ++ post → (∀ x, x ∈ chars → x ∈ special) → peek s chars (at_ pre) = false.
Proof.
  intros E Hx. apply not_true_iff_false. rewrite peek_spec. intros [Hl Hin]. destruct post as [|c post].
  - rewrite app_nil_r in E. rewrite <- E, at_end in Hl. lia.
  - rewrite (decode_at _ _ _ E) in Hin. cbn in Hin. rewrite E in Hcs. apply Forall_app in Hcs as [_ [[_ Hn] _]%Forall_cons].
    by apply Hn, Hx.
Qed.

Lemma special_check l : forallb (fun x => bool_decide (x ∈ special)) l = true → ∀ x, x ∈ l → x ∈ special.
Proof. intros H x Hx%list_elem_of_In. rewrite forallb_forall in H. by apply H, bool_decide_eq_true in Hx. Qed.

Lemma next_at pre c post : cs = pre ++ c :: post → next s (at_ pre) = Ret (c, at_ (pre ++ [c])).
Proof.
  intros E. unfold next, more. rewrite (proj2 (Z.ltb_lt _ _)) by (by eapply at_before). cbn [negb].
  by rewrite (decode_at _ _ _ E), at_snoc.
Qed.

Lemma parse_letter union_exp pre c post :
  cs = pre ++ c :: post → parseRepeatExp s flags union_exp (at_ pre) = Ret (RChar flags c, at_ (pre ++ [c])).
Proof.
  intros E. unfold parseRepeatExp.
  assert (Hm : ∀ x, x ∈ special → match_ s x (at_ pre) = (false, at_ pre)) by (intros; by eapply match_miss).
  assert (Hi : ∀ b x, x ∈ special → match_if s b x (at_ pre) = (false, at_ pre)) by (intros; by eapply match_if_miss).
  assert (Hsimple : parseSimpleExp s flags union_exp (at_ pre) = Ret (RChar flags c, at_ (pre ++ [c]))).
  { unfold parseSimpleExp, matchPredefinedCharacterClass.
    repeat (first [rewrite Hm by is_special|rewrite Hi by is_special]; cbn match beta zeta).
    cbn [andb]. rewrite go_bind_mret. unfold parseCharExp. rewrite Hm by is_special. by rewrite (next_at _ _ _ E). }
  assert (Hcompl : parseComplExp s flags union_exp (length s) (at_ pre) = Ret (RChar flags c, at_ (pre ++ [c]))).
  { destruct (length s); cbn [parseComplExp]; rewrite Hi by is_special;
      unfold parseCharClassExp; by rewrite Hm by is_special. }
  rewrite Hcompl, go_bind_ret. assert (E' : cs = (pre ++ [c]) ++ post) by (by rewrite <- app_assoc).
  destruct (length s); cbn [repeat_loop]; by rewrite (peek_miss _ _ _ E') by (apply special_check; by vm_compute).
Qed.

(** The expression for the letters so far. *)
Definition letters (w : list Z) : RegExp := match w with [c] => RChar flags c | _ => RString flags (encode w) end.

Lemma letters_text w : w ≠ [] → isText (letters w) = true ∧ text (letters w) = encode w.
Proof. destruct w as [|c [|d w]]; [done| |done]. intros _. split; [done|]. unfold encode. cbn. by rewrite app_nil_r. Qed.

Lemma letters_snoc w c : w ≠ [] → makeConcatenation flags (letters w) (RChar flags c) = letters (w ++ [c]).
Proof.
  intros Hw. destruct (letters_text w Hw) as [HT HE]. unfold makeConcatenation. rewrite HT. cbn [isText andb].
  unfold makeStringPair. rewrite HE. cbn [text]. unfold letters.
  assert (encode (w ++ [c]) = encode w ++ EncodeRune c) as -> by (rewrite encode_app; unfold encode at 2; cbn; by rewrite app_nil_r).
  destruct w as [|d [|e w]]; done.
Qed.

(** The loop over the letters goes on to the end. *)
Lemma concat_goes_on pre post :
  cs = pre ++ post →
  more s (at_ pre) && negb (peek s (codes ")|") (at_ pre)) && (negb (check flags RegExpIntersection) || negb (peek s (codes "&") (at_ pre)))
  = bool_decide (post ≠ []).
Proof.
  intros E. rewrite !(peek_miss _ _ _ E) by (apply special_check; by vm_compute). cbn [negb]. rewrite orb_true_r, !andb_true_r.
  unfold more. destruct post as [|c post].
  - rewrite app_nil_r in E. rewrite <- E, at_end. apply Z.ltb_irrefl.
  - apply Z.ltb_lt. by eapply at_before.
Qed.

Lemma concat_letters union_exp fuel : ∀ pre post,
  cs = pre ++ post → pre ≠ [] → (length post ≤ fuel)%nat →
  iterate fuel (parseRepeatExp s flags union_exp)
    (fun pos => (more s pos && negb (peek s (codes ")|") pos) && (negb (check flags RegExpIntersection) || negb (peek s (codes "&") pos)), pos))
    (makeConcatenation flags) (letters pre) (at_ pre) = Ret (letters cs, at_ cs).
Proof.
  induction fuel as [|fuel IH]; intros pre post E Hne Hf; cbn [iterate]; rewrite (concat_goes_on _ _ E);
    (destruct post as [|c post]; [rewrite app_nil_r in E; by rewrite E|]); cbn [length] in Hf; [lia|].
  rewrite bool_decide_eq_true_2 by done. rewrite (parse_letter _ _ _ _ E), go_bind_ret, letters_snoc by done.
  apply IH with post; [by rewrite <- app_assoc|by destruct pre|lia].
Qed.

Lemma length_encode l : (length l ≤ length (encode l))%nat.
Proof.
  unfold encode. induction l as [|c l IH]; [done|]. cbn [map concat length]. rewrite length_app.
  pose proof (EncodeRune_nonempty c). destruct (EncodeRune c); [done|]. cbn [length]. lia.
Qed.

Lemma iterate_miss fuel gather stop reduce result pos :
  stop pos = (false, pos) → iterate fuel gather stop reduce result pos = Ret (result, pos).
Proof. intros E. by destruct fuel; cbn [iterate]; rewrite E. Qed.

Lemma parse_word union_exp : cs ≠ [] → union_body s flags union_exp 0 = Ret (letters cs, at_ cs).
Proof.
  intros Hne. assert (Eend : cs = cs ++ []) by (by rewrite app_nil_r).
  assert (HC : parseConcatExp s flags union_exp 0 = Ret (letters cs, at_ cs)).
  { destruct (nonempty_cons cs Hne) as (c & l & E0). unfold parseConcatExp, iterativeParse. change 0 with (at_ []) at 1. rewrite (parse_letter union_exp [] c l E0), go_bind_ret.
    apply (concat_letters union_exp (length s) [c] l); [done|done|]. pose proof (length_encode cs) as HL.
    assert (length cs = S (length l)) by (by rewrite E0). unfold s. lia. }
  unfold union_body, iterativeParse at 1, parseInterExp, iterativeParse. rewrite HC, !go_bind_ret.
  rewrite iterate_miss, go_bind_ret by (apply (match_if_miss _ _ _ _ Eend); is_special).
  rewrite iterate_miss by (apply (match_miss _ _ _ Eend); is_special). done.
Qed.
End Literal.

Lemma NewRegExpFlags_word cs syntaxFlags matchFlags :
  Forall plain cs → Z.land syntaxFlags (Z.lnot RegExpDeprecatedComplement) ≤ RegExpAll → ¬ 0 < matchFlags ≤ RegExpAll →
  NewRegExpFlags (encode cs) syntaxFlags matchFlags = Ret (letters (Z.lor syntaxFlags matchFlags) cs).
Proof.
  intros Hcs Hsf Hmf. unfold NewRegExpFlags. rewrite (proj2 (Z.ltb_ge _ _)) by done.
  replace ((0 <? matchFlags) && (matchFlags <=? RegExpAll)) with false.
  2: { symmetry. apply andb_false_iff. rewrite Z.ltb_ge, Z.leb_gt. lia. }
  destruct (decide (cs = [])) as [->|Hne]; [done|]. pose proof (length_encode cs) as HL.
  rewrite (proj2 (Z.eqb_neq _ _)) by (destruct cs; [done|cbn [length] in HL; lia]). cbn zeta. cbn [parseUnionExp].
  rewrite parse_word, go_bind_ret by done. by rewrite (at_end cs), Z.ltb_irrefl.
Qed.

(** Parsing a word of characters that have no meaning in expressions and converting the
    result, whatever syntax the flags enable, gives an automaton that accepts this word and
    nothing else; neither step reports an error or panics. *)
Theorem literal_expression_correct (cs : list Z) (syntaxFlags matchFlags : Z)
    (automata : list Z → option Automaton) (provider : option (list Z → option (option Automaton))) (same : RegExp → RegExp → bool)
    (Hcs : Forall plain cs) (Hsf : Z.land syntaxFlags (Z.lnot RegExpDeprecatedComplement) ≤ RegExpAll)
    (Hmf : ¬ 0 < matchFlags ≤ RegExpAll) (Hfold : folding (Z.lor syntaxFlags matchFlags) = false) :
  runs (r ← NewRegExpFlags (encode cs) syntaxFlags matchFlags; toAutomatonInternal automata provider same r)
    (fun a => good a ∧ deterministic a = true ∧ ∀ w, language a w ↔ w = cs).
Proof.
  rewrite NewRegExpFlags_word, go_bind_ret by done. pose proof (plain_scalar cs Hcs) as Hsc.
  assert (Hl : lettered cs) by (eapply Forall_impl; [exact Hsc|]; intros c [Hc _]%scalar_spec; lia).
  assert (HS : runs (MakeString (runes (encode cs))) (fun a => good a ∧ deterministic a = true ∧ ∀ w, language a w ↔ w = cs)).
  { rewrite runes_encode by done. eapply runs_mono; [by apply MakeString_spec|]. intros a (G & HD & _ & HL). done. }
  destruct cs as [|c [|d cs]]; cbn [letters toAutomatonInternal]; rewrite Hfold; [exact HS| |exact HS].
  apply Forall_cons in Hl as [Hc _]. eapply runs_mono; [by apply MakeCharRange_spec|]. intros a [G HD _ HL].
  split_and!; [done|done|]. intros w. rewrite HL. split; [intros (x & -> & ?); f_equal; lia|]. intros ->. exists c. split; [done|lia].
Qed.

Lemma literal_expression_correct_witness :
  runs (r ← NewRegExpFlags (encode [98; 8364; 45]) RegExpAll 0; toAutomatonInternal (fun _ => None) None (fun _ _ => false) r)
    (fun a => good a ∧ deterministic a = true ∧ ∀ w, language a w ↔ w = [98; 8364; 45]) ∧
  NewRegExpFlags (encode [98; 8364; 45]) RegExpAll 0 = Ret (RString 255 (encode [98; 8364; 45])).
Proof.
  split; [|vm_compute; reflexivity].
  apply literal_expression_correct; [|vm_compute; discriminate|lia|vm_compute; reflexivity].
  repeat (apply Forall_cons; split; [split; [vm_compute; reflexivity|apply (bool_decide_eq_false_1 _); vm_compute; reflexivity]|]).
  apply Forall_nil. exact I.
Defined.

(** ** Parsing and converting *)

Lemma permitted_folds flags r : permitted flags r → folds r = true → folding flags = true.
Proof.
  induction r; cbn [permitted folds]; try done; intros HP HF; rewrite ?orb_true_iff in HF; try (destruct HF, HP as (? & ? & ?)); try (destruct HF, HP);
    naive_solver.
Qed.

Lemma permitted_names flags r : permitted flags r → checkAny flags RegExpAutomaton = false → GetIdentifiers r = ∅.
Proof.
  induction r; cbn [permitted GetIdentifiers]; try done; intros HP HF.
  all: try (destruct HP as (HP1 & HP2 & _)); try (destruct HP as (HP1 & HP2)); rewrite ?IHr1, ?IHr2, ?IHr by done; try set_solver.
  congruence.
Qed.

Lemma permitted_complements flags r :
  permitted flags r → checkAny flags RegExpDeprecatedComplement = false → complemented r = [].
Proof.
  induction r; cbn [permitted complemented]; try done; intros HP HF; try by apply IHr.
  all: try (destruct HP as (HP1 & HP2 & _)); try (destruct HP as (HP1 & HP2)); rewrite ?IHr1, ?IHr2 by done; try done.
  congruence.
Qed.

(** Only flags for case folding, named automata or complements lead to errors. *)
Definition risky (flags : Z) : bool :=
  folding flags || checkAny flags RegExpAutomaton || checkAny flags RegExpDeprecatedComplement.

Lemma permitted_excused automata provider same flags r err :
  permitted flags r → excused automata provider same r err → risky flags = true.
Proof.
  intros HP. unfold risky. rewrite !orb_true_iff. intros [[_ HF]|[(x & Hx & _)|(_ & e & He & _)]].
  - left; left. by apply (permitted_folds _ _ HP).
  - left; right. destruct (checkAny flags RegExpAutomaton) eqn:E; [done|]. rewrite (permitted_names _ _ HP E) in Hx. set_solver.
  - right. destruct (checkAny flags RegExpDeprecatedComplement) eqn:E; [done|]. rewrite (permitted_complements _ _ HP E) in He. set_solver.
Qed.
