(* ===== verification/QueryAutomata.v ===== *)
(** The automata of the queries over terms: [search/wildcard_query.go],
    [search/prefix_query.go], [search/regexp_query.go], and the matchers of terms of
    [search/uhighlight/token_stream_offset_strategy.go]. *)

From stdpp Require Import base tactics numbers list gmap strings.
From Stdlib Require Import ZArith Lia.
From S2P Require Import Prelude WordBits Utf8 Nfa Automaton Builder Liveness Determinize BooleanOps RegularOps Concat Makers RunAutomaton DecimalInterval Regexp RegexpParser.

Local Open Scope Z_scope.

(** [if err != nil { panic(err) }]; [ArrayTooLarge] is a panic already. *)
Definition or_panic {A} (m : AM A) : AM A :=
  match m with Err ArrayTooLarge => Err ArrayTooLarge | Err _ => Panic | m => m end.

(** * Wildcards *)

Definition WILDCARD_STRING : Z := 42.
Definition WILDCARD_CHAR : Z := 63.
Definition WILDCARD_ESCAPE : Z := 92.

(** The loop, from the runes it has not seen. *)
Fixpoint wildcard_automata (rs : list Z) : AM (list Automaton) :=
  match rs with
  | [] => mret []
  | r :: rs =>
      if r =? WILDCARD_STRING then a ← MakeAnyString; l ← wildcard_automata rs; mret (a :: l)
      else if r =? WILDCARD_CHAR then a ← MakeAnyChar; l ← wildcard_automata rs; mret (a :: l)
      else if r =? WILDCARD_ESCAPE then
        match rs with
        | next :: rs => a ← MakeChar next; l ← wildcard_automata rs; mret (a :: l)
        | [] => a ← MakeChar r; mret [a]
        end
      else a ← MakeChar r; l ← wildcard_automata rs; mret (a :: l)
  end.

Definition WildcardQueryToAutomaton (text : list Z) (limit : Z) : AM Automaton :=
  automata ← wildcard_automata (runes text);
  concatenated ← Concatenate automata;
  or_panic (Determinize concatenated limit).

(** * Prefixes *)

Definition PrefixQueryToAutomaton (prefix : list Z) : AM Automaton :=
  let n := Z.of_nat (length prefix) + 1 in
  let auto := NewAutomatonWithCapacity n n in
  '(lastState, auto) ← CreateState auto;
  '(lastState, auto) ← foldM (fun b '(lastState, auto) =>
    '(state, auto) ← CreateState auto;
    auto ← AddTransition lastState state (Z.land b 0xff) (Z.land b 0xff) auto;
    mret (state, auto)) prefix (lastState, auto);
  auto ← SetAccept lastState true auto;
  auto ← AddTransition lastState lastState 0 255 auto;
  FinishState auto.

(** * Regular expressions *)

(** [toAutomaton] of [regexp_query.go]. *)
Definition regexp_toAutomaton (provider : option (list Z → option (option Automaton))) (same : RegExp → RegExp → bool)
    (regexp : RegExp) (limit : Z) (doDeterminization : bool) : AM Automaton :=
  if doDeterminization then
    nfa ← or_panic (toAutomatonInternal (fun _ => None) provider same regexp);
    or_panic (Determinize nfa limit)
  else or_panic (toAutomatonInternal (fun _ => None) provider same regexp).

(** The automaton [NewRegexpQueryFull] puts into the query. *)
Definition NewRegexpQueryFull (provider : option (list Z → option (option Automaton))) (same : RegExp → RegExp → bool)
    (term : list Z) (syntaxFlags matchFlags limit : Z) (doDeterminization : bool) : AM Automaton :=
  regexp ← or_panic (NewRegExpFlags term syntaxFlags matchFlags);
  regexp_toAutomaton provider same regexp limit doDeterminization.

(** * Matchers of terms *)

(** The body of the loop of [convertTermsToMatchers]; the matcher is [RunRunes] of the result. *)
Definition termMatcher (term : list Z) : AM RunAutomaton :=
  a ← MakeString (runes term); NewCharacterRunAutomaton a.

Example query_automata_run :
  (w ← WildcardQueryToAutomaton (codes "a*b?\*"%string) 10000;
   r ← NewCharacterRunAutomaton w;
   x ← RunString r (codes "axxbb*"%string); y ← RunString r (codes "axxbb"%string);
   p ← PrefixQueryToAutomaton (codes "ab"%string); pr ← NewByteRunAutomatonOfBytes p;
   u ← RunBytes pr (codes "abc"%string); v ← RunBytes pr (codes "ac"%string);
   q ← NewRegexpQueryFull None (fun _ _ => false) (codes "(a|b)+c"%string) 0xff 0 10000 true;
   qr ← NewCharacterRunAutomaton q; z ← RunString qr (codes "abac"%string);
   mret (x, y, u, v, z, deterministic q)) = Ret (true, false, true, false, true, true).
Proof. vm_compute. reflexivity. Qed.

(** * What they accept *)

(** The words a wildcard pattern matches. *)
Fixpoint wildcard (rs : list Z) : words :=
  match rs with
  | [] => fun w => w = []
  | r :: rs =>
      if r =? WILDCARD_STRING then cat (Forall code_point) (wildcard rs)
      else if r =? WILDCARD_CHAR then cat (fun w => ∃ c, w = [c] ∧ code_point c) (wildcard rs)
      else if r =? WILDCARD_ESCAPE then
        match rs with next :: rs => cat (fun w => w = [next]) (wildcard rs) | [] => fun w => w = [r] end
      else cat (fun w => w = [r]) (wildcard rs)
  end.

Lemma MakeChar_spec c : 0 ≤ c → runs (MakeChar c) (fun a => good a ∧ NumStates a ≤ 2 ∧ agree (language a) (fun w => w = [c])).
Proof.
  intros Hc. eapply runs_mono; [by apply MakeCharRange_spec|]. intros a [G _ HN HL]. split_and!; [done|done|].
  intros w _. rewrite HL. split; [intros (x & -> & ?); f_equal; lia|]. intros ->. exists c. split; [done|lia].
Qed.

Lemma MakeAnyChar_spec : runs MakeAnyChar (fun a => good a ∧ NumStates a ≤ 2 ∧ agree (language a) (fun w => ∃ c, w = [c] ∧ code_point c)).
Proof. eapply runs_mono; [by apply MakeCharRange_spec|]. intros a [G _ HN HL]. split_and!; [done|done|]. intros w _. apply HL. Qed.

(** The automata of a pattern: as many as fit, each of at most two states. *)
Definition pieces (n : nat) (L : words) (l : list Automaton) : Prop :=
  Forall good l ∧ total l ≤ 2 * Z.of_nat n ∧ agree (cats (map language l)) L.

Lemma pieces_cons n m K L (mk : AM Automaton) (rest : AM (list Automaton)) :
  runs mk (fun a => good a ∧ NumStates a ≤ 2 ∧ agree (language a) K) → runs rest (pieces n L) → (n < m)%nat →
  runs (a ← mk; l ← rest; mret (a :: l)) (pieces m (cat K L)).
Proof.
  intros Hmk Hr Hm. eapply runs_step; [exact Hmk|]. intros a (G & HN & HK). eapply runs_step; [exact Hr|]. intros l (HG & HT & HL).
  split; [by constructor|]. split; [cbn [total]; lia|]. cbn [map cats]. by rewrite HK, HL.
Qed.

Lemma runs_strengthen {A} (m : AM A) (Q R : A → Prop) : runs m Q → (∀ a, m = Ret a → Q a → R a) → runs m R.
Proof. destruct m as [|[]| |]; cbn; auto. Qed.

Lemma MakeAnyString_states : runs MakeAnyString (fun a => good a ∧ NumStates a ≤ 2 ∧ agree (language a) (Forall code_point)).
Proof.
  eapply runs_strengthen; [apply MakeAnyString_spec|]. intros a E [G HL]. split_and!; [done| |intros w _; apply HL].
  vm_compute in E. injection E as <-. by vm_compute.
Qed.

Lemma wildcard_automata_spec n : ∀ rs, (length rs ≤ n)%nat → lettered rs → runs (wildcard_automata rs) (pieces (length rs) (wildcard rs)).
Proof.
  induction n as [|n IH]; intros rs Hn HL; destruct rs as [|r rs]; cbn [length] in Hn; try lia.
  1, 2: cbn; split; [constructor|]; split; [cbn; lia|]; intros w _; done.
  pose proof HL as [Hr HL']%Forall_cons. cbn [wildcard_automata wildcard length].
  destruct (r =? WILDCARD_STRING); [by eapply pieces_cons; [apply MakeAnyString_states|apply IH; [lia|done]|lia]|].
  destruct (r =? WILDCARD_CHAR); [by eapply pieces_cons; [apply MakeAnyChar_spec|apply IH; [lia|done]|lia]|].
  destruct (r =? WILDCARD_ESCAPE); [|by eapply pieces_cons; [by apply MakeChar_spec|apply IH; [lia|done]|lia]].
  destruct rs as [|next rs].
  - eapply runs_step; [by apply (MakeChar_spec r)|]. intros a (G & HN & HA). split; [by constructor|]. split; [cbn; lia|].
    cbn [map cats]. intros w Hw. unfold cat. split.
    + intros (u & v & -> & Hu & ->). rewrite app_nil_r in *. by apply HA.
    + intros Hw'. exists w, []. rewrite app_nil_r. split_and!; [done|by apply HA|done].
  - apply Forall_cons in HL' as [Hnext HL']. cbn [length] in Hn.
    eapply pieces_cons; [by apply MakeChar_spec|apply IH; [lia|done]|cbn; lia].
Qed.

Lemma scalars_lettered rs : Forall (fun c => scalar c = true) rs → lettered rs.
Proof. intros H. eapply Forall_impl; [exact H|]. intros c [Hc _]%scalar_spec. lia. Qed.

Lemma effort_mono (x n m : Z) : x ≤ n * 2 ^ n → 0 ≤ n ≤ m → x ≤ m * 2 ^ m.
Proof. intros Hx Hn. pose proof (Z.pow_le_mono_r 2 n m ltac:(lia) ltac:(lia)). pose proof (Z.pow_nonneg 2 n ltac:(lia)). nia. Qed.

(** What [Determinize] under [or_panic] gives. *)
Lemma Determinize_or_panic a limit :
  good a → NumStates a < 2 ^ 63 →
  match or_panic (Determinize a limit) with
  | Ret d => good d ∧ deterministic d = true ∧ ∀ w, language d w ↔ language a w
  | Err ArrayTooLarge => True
  | Panic => to_int64 (limit * 10) ≤ NumStates a * 2 ^ NumStates a
  | _ => False
  end.
Proof.
  intros G HN. pose proof (Determinize_spec a G HN limit) as H.
  destruct (Determinize a limit) as [d|e| |] eqn:E; cbn [or_panic]; try done.
  - destruct H as (G' & HD & HL). split_and!; [done| |done]. destruct (Z.lt_ge_cases 1 (NumStates a)); [by apply HD|].
    unfold Determinize in E. rewrite one_state_deterministic in E by done. injection E as <-. by apply one_state_deterministic.
  - by destruct H as [_ [->|[-> ?]]].
Qed.

(** C25. The automaton of a wildcard query is deterministic and accepts the words of code points
    that the pattern matches, [*] for any word, [?] for any code point and [\] to take
    the next rune as it is, where the pattern may be any byte string, valid UTF-8 or not.  Of the
    empty pattern it accepts no word, not even the empty one.  The construction panics only if ten times the limit on the work is at most [2n * 2^2n] for [n] bytes. *)
Theorem WildcardQueryToAutomaton_correct (text : list Z) (limit : Z)
    (HB : Forall is_byte text) (HL : Z.of_nat (length text) < 2 ^ 61) :
  match WildcardQueryToAutomaton text limit with
  | Ret d => good d ∧ deterministic d = true ∧
      ∀ w, Forall code_point w → language d w ↔ text ≠ [] ∧ wildcard (runes text) w
  | Err ArrayTooLarge => True
  | Panic => to_int64 (limit * 10) ≤ 2 * Z.of_nat (length text) * 2 ^ (2 * Z.of_nat (length text))
  | _ => False
  end.
Proof.
  unfold WildcardQueryToAutomaton. pose proof (runes_length text) as Hlen.
  pose proof (wildcard_automata_spec (length (runes text)) (runes text) (le_n _) (scalars_lettered _ (runes_scalar _ HB))) as H.
  destruct (wildcard_automata (runes text)) as [l|[]| |] eqn:El; try done. destruct H as (HG & HT & HA). rewrite go_bind_ret.
  assert (Hl : l ≠ [] ↔ text ≠ []).
  { destruct (decide (text = [])) as [->|HE]; [by injection El as <-|]. split; [done|]. intros _.
    rewrite (runes_step text HE) in El. intros ->. cbn [wildcard_automata] in El.
    repeat case_match; repeat match type of El with context [mbind _ ?m] => destruct m; cbn [mbind go_bind] in El; try discriminate end. }
  pose proof (Concatenate_full l HG) as H. destruct (Concatenate l) as [a|[]| |]; try done. destruct H as [[G HLa] HN].
  rewrite go_bind_ret. pose proof (Determinize_or_panic a limit G ltac:(lia)) as H.
  destruct (or_panic (Determinize a limit)) as [d|[]| |] eqn:Ed; try done.
  - destruct H as (Gd & HD & HLd). split_and!; [done|done|]. intros w Hw. rewrite HLd, HLa. specialize (HA w Hw). naive_solver.
  - destruct text as [|c text].
    { injection El as <-. unfold Determinize in Ed. rewrite one_state_deterministic in Ed; [done|done|cbn in HN; lia]. }
    cbn [length] in *. eapply effort_mono; [exact H|]. pose proof (NumStates_pos a (good_wf _ G)). lia.
Qed.

Lemma bytes_checked s : forallb (fun c => (0 <=? c) && (c <? 256)) s = true → Forall is_byte s.
Proof.
  rewrite forallb_forall. intros H. apply Forall_forall. intros c Hc%list_elem_of_In.
  apply H, andb_true_iff in Hc as [?%Z.leb_le ?%Z.ltb_lt]. split; assumption.
Qed.

Lemma WildcardQueryToAutomaton_correct_witness :
  match WildcardQueryToAutomaton (codes "a*b?") 100 with
  | Ret d => good d ∧ deterministic d = true ∧ (∀ w, Forall code_point w → language d w ↔ codes "a*b?" ≠ [] ∧ wildcard (runes (codes "a*b?")) w) ∧
             wildcard (runes (codes "a*b?")) [97; 120; 121; 98; 8364]
  | _ => False
  end.
Proof.
  pose proof (WildcardQueryToAutomaton_correct (codes "a*b?") 100
    ltac:(apply bytes_checked; vm_compute; reflexivity) ltac:(vm_compute; reflexivity)) as H.
  destruct (WildcardQueryToAutomaton (codes "a*b?") 100) as [d|[]| |] eqn:E; try (vm_compute in E; discriminate).
  destruct H as (G & HD & HL). split; [exact G|]. split; [exact HD|]. split; [exact HL|].
  change (runes (codes "a*b?")) with [97; 42; 98; 63]. cbn.
  exists [97], [120; 121; 98; 8364]. split; [done|]. split; [done|].
  exists [120; 121], [98; 8364]. split; [done|]. split; [repeat constructor; unfold MinCodePoint, MaxCodePoint; lia|].
  exists [98], [8364]. split; [done|]. split; [done|]. exists [8364], [].
  split; [done|]. split; [|done]. exists 8364. split; [done|]. unfold code_point, MinCodePoint, MaxCodePoint. lia.
Defined.

(** ** Prefixes *)

(** A line with a loop over the bytes at its end. *)
Record tailed (w : list Z) (g : graph) : Prop := {
  td_edge : ∀ s c d, g_edge g s c d ↔
    (0 ≤ s ∧ d = s + 1 ∧ w !! Z.to_nat s = Some c) ∨ s = Z.of_nat (length w) ∧ d = s ∧ byte c;
  td_accept : ∀ s, g_accept g s = true ↔ s = Z.of_nat (length w)
}.

Lemma line_tailed w g (n := Z.of_nat (length w)) : line w g → tailed w (g_add (n, n, 0, 255) (g_set n g)).
Proof.
  intros HL. split; intros s.
  - intros c d. rewrite g_edge_app. change (g_edge (g_set n g) s c d) with (g_edge g s c d).
    rewrite (ln_edge _ _ HL). apply or_iff_compat_l. split; [intros (lo & hi & [= <- <- <- <-] & Hc); done|].
    intros (-> & -> & Hc). by exists 0, 255.
  - cbn. rewrite (ln_accept _ _ HL). fold n. case_decide; naive_solver.
Qed.

Section Tailed.
Context (w : list Z) (g : graph) (HT : tailed w g).
Let n := Z.of_nat (length w).

Lemma tailed_end v : accepts_from (g_edge g) (fun q => g_accept g q = true) n v ↔ Forall byte v.
Proof using HT.
  induction v as [|c v IH]; [rewrite accepts_nil, (td_accept _ _ HT); split; [constructor|done]|].
  rewrite accepts_cons, Forall_cons, <- IH. setoid_rewrite (td_edge _ _ HT). split.
  - intros (d & [(_ & -> & Hx%lookup_lt_Some)|(_ & -> & Hb)] & Hv); [unfold n in Hx; lia|done].
  - intros [Hb Hv]. exists n. split; [by right|done].
Qed.

Lemma tailed_from v : ∀ s, 0 ≤ s ≤ n →
  accepts_from (g_edge g) (fun q => g_accept g q = true) s v ↔ ∃ u, v = drop (Z.to_nat s) w ++ u ∧ Forall byte u.
Proof using HT.
  induction v as [|c v IH]; intros s Hs; (destruct (decide (s = n)) as [->|Hsn];
    [rewrite tailed_end, drop_ge by (unfold n; lia); cbn; naive_solver|]);
    (destruct (w !! Z.to_nat s) as [x|] eqn:Hx; [rewrite (drop_S _ _ _ Hx)|apply lookup_ge_None in Hx; unfold n in *; lia]).
  - rewrite accepts_nil, (td_accept _ _ HT). split; [done|]. by intros (u & [=] & _).
  - rewrite accepts_cons. setoid_rewrite (td_edge _ _ HT).
    replace (S (Z.to_nat s)) with (Z.to_nat (s + 1)) by lia. specialize (IH (s + 1) ltac:(lia)). split.
    + intros (d & [(_ & -> & E)|(-> & _)] & Hv); [|done]. rewrite Hx in E. injection E as <-. apply IH in Hv as (u & -> & Hu). by exists u.
    + intros (u & E & Hu). injection E as <- ->. exists (s + 1). split; [left; split_and!; (lia || done)|]. apply IH. by exists u.
Qed.

Lemma tailed_deterministic s c d d' : g_edge g s c d → g_edge g s c d' → d = d'.
Proof using HT.
  intros Hd Hd'. apply (td_edge _ _ HT) in Hd as [(? & -> & Hx)|(-> & -> & _)], Hd' as [(? & -> & Hx')|(? & -> & _)]; try done.
  - apply lookup_lt_Some in Hx. lia.
  - apply lookup_lt_Some in Hx'. lia.
Qed.
End Tailed.

(** What the automaton of a prefix promises. *)
Definition prefixed (w : list Z) (a : Automaton) : Prop :=
  good a ∧ deterministic a = true ∧ ∀ v, language a v ↔ ∃ u, v = w ++ u ∧ Forall byte u.

Lemma finish_prefix w g a :
  line w g → shows g a →
  runs (a ← SetAccept (Z.of_nat (length w)) true a;
        a ← AddTransition (Z.of_nat (length w)) (Z.of_nat (length w)) 0 255 a; FinishState a) (prefixed w).
Proof.
  intros HL HS. pose proof (ln_states _ _ HL) as HN. pose proof (line_tailed w g HL) as HT. set (n := Z.of_nat (length w)) in *.
  eapply runs_step; [apply (shows_set n _ _ HS); lia|]. intros a1 H1.
  eapply runs_step; [apply (shows_add n n 0 255 _ _ H1); cbn; [lia|lia|lia|right; intros Hin; apply (ln_started _ _ HL) in Hin; lia]|].
  intros a2 H2. eapply runs_mono; [by apply shows_finish|]. intros a' (G & N & HLa & HD). split_and!; [done| |].
  - apply HD. intros s c d d' _. by apply (tailed_deterministic w).
  - intros v. rewrite HLa. unfold g_language, accepts. rewrite (tailed_from w _ HT v 0) by lia. by rewrite drop_0.
Qed.

(** The automaton of a prefix query, over the bytes of the terms, is deterministic and accepts
    the byte strings that start with the prefix. *)
Lemma PrefixQueryToAutomaton_spec prefix : Forall is_byte prefix → runs (PrefixQueryToAutomaton prefix) (prefixed prefix).
Proof.
  intros HB. unfold PrefixQueryToAutomaton. set (n := Z.of_nat (length prefix) + 1).
  pose proof (shows_create g_empty _ (shows_empty n n)) as H.
  eapply runs_step; [exact H|]. clear H. intros [s a] [-> HS]. cbn beta iota.
  assert (HL : line [] (g_create g_empty)).
  { split; [done|done| |by intros s ?%elem_of_nil]. intros s c d. split; [by intros ?%g_edge_nil|].
    intros (_ & _ & E). by rewrite lookup_nil in E. }
  assert (E : ∀ bs last a, Forall is_byte bs → foldM (fun b '(lastState, auto) =>
      '(state, auto) ← CreateState auto; auto ← AddTransition lastState state (Z.land b 0xff) (Z.land b 0xff) auto;
      mret (state, auto)) bs (last, a) = append_all bs last a).
  { clear. intros bs last a HB. unfold append_all. revert last a. induction HB as [|b bs Hb _ IH]; intros last a; [done|].
    cbn [foldM]. rewrite !go_bind_assoc. destruct (CreateState a) as [[state a1]| | |]; try done. cbn [mbind go_bind].
    destruct (bytes_code_points [b] (proj2 (Forall_singleton _ _) Hb)) as [_ [= ->]].
    destruct (AddTransition last state b b a1); try done. cbn [mbind go_bind]. apply IH. }
  rewrite E by done. eapply runs_step; [apply (append_all_line prefix [] _ a HL)|]; [|done|].
  - eapply Forall_impl; [exact HB|]. unfold in_uint. cbn beta. lia.
  - intros [last a1] (-> & g1 & HL1 & HS1). by apply (finish_prefix _ g1).
Qed.

Lemma language_roomy a w : good a → language a w → roomy a.
Proof.
  intros [W _] Hw. unfold roomy. destruct (wf_states _ W) as (n & Hn & Hl). apply NumStates_eq in Hn.
  destruct n; [|lia]. by apply language_no_states in Hw.
Qed.

(** A prefix query matches the terms that start with its prefix: the automaton of the prefix,
    compiled for bytes, says of every byte string whether the prefix is a prefix of it, without
    an error or a panic. *)
Theorem PrefixQuery_matches (prefix term : list Z) (HP : Forall is_byte prefix) (HT : Forall is_byte term) :
  runs (a ← PrefixQueryToAutomaton prefix; r ← NewByteRunAutomatonOfBytes a; RunBytes r term)
    (fun b => b = bool_decide (prefix `prefix_of` term)).
Proof.
  eapply runs_step; [by apply PrefixQueryToAutomaton_spec|]. intros a (G & HD & HL).
  assert (HR : roomy a).
  { apply (language_roomy a prefix G), HL. exists []. by rewrite app_nil_r. }
  destruct (NewRunAutomaton_spec a 256 G HD HR) as (r & E & HC); [lia|].
  unfold NewByteRunAutomatonOfBytes. rewrite E, go_bind_ret.
  assert (HW : Forall is_byte_label term) by (eapply Forall_impl; [exact HT|]; by unfold in_uint).
  destruct (bytes_code_points term HW) as [HW' E']. unfold RunBytes. rewrite E'.
  destruct (run_decides a 256 r term G HD HC HW') as (b & -> & Hb). cbn.
  apply eq_true_iff_eq. rewrite Hb, HL, bool_decide_eq_true. split; [by intros (u & -> & _); exists u|].
  intros [u ->]. exists u. split; [done|]. apply Forall_app in HT as [_ HT]. eapply Forall_impl; [exact HT|].
  unfold in_uint, byte. cbn beta. lia.
Qed.

Lemma PrefixQuery_matches_witness :
  runs (a ← PrefixQueryToAutomaton [108; 117]; r ← NewByteRunAutomatonOfBytes a; RunBytes r [108; 117; 255])
    (fun b => b = bool_decide ([108; 117] `prefix_of` [108; 117; 255])).
Proof. apply PrefixQuery_matches; apply bytes_checked; vm_compute; reflexivity. Defined.

(** ** Terms *)

(** The matcher of a term that highlighting makes says of every byte string whether it has
    the runes of the term, without an error or a panic. *)
Theorem termMatcher_matches (term text : list Z) (HT : Forall is_byte term) (HS : Forall is_byte text) :
  runs (r ← termMatcher term; RunRunes r (runes text) 0 (Z.of_nat (length (runes text))))
    (fun b => b = bool_decide (runes text = runes term)).
Proof.
  pose proof (scalars_lettered _ (runes_scalar _ HT)) as HL. unfold termMatcher. rewrite go_bind_assoc.
  eapply runs_step; [by apply MakeString_spec|]. intros a (G & HD & _ & HA).
  assert (HR : roomy a) by (by apply (language_roomy a (runes term) G), HA).
  destruct (NewRunAutomaton_spec a (MaxCodePoint + 1) G HD HR) as (r & E & HC); [unfold MaxCodePoint; lia|].
  unfold NewCharacterRunAutomaton. rewrite E, go_bind_ret.
  assert (HW : Forall code_point (runes text)).
  { eapply Forall_impl; [exact (runes_scalar _ HS)|]. intros c [Hc _]%scalar_spec. exact Hc. }
  destruct (slice_decides a _ r (fun c => c) (runes text) 0 (Z.of_nat (length (runes text))) G HD HC) as (b & Eb & Hb);
    [lia|lia|lia|done|apply map_id|].
  unfold RunRunes. rewrite Eb. cbn. apply eq_true_iff_eq. rewrite Hb, HA, bool_decide_eq_true.
  by rewrite drop_0, Nat2Z.id, take_ge.
Qed.

Lemma termMatcher_matches_witness :
  runs (r ← termMatcher [226; 130; 172]; RunRunes r (runes [226; 130; 172]) 0 (Z.of_nat (length (runes [226; 130; 172]))))
    (fun b => b = bool_decide (runes [226; 130; 172] = runes [226; 130; 172])).
Proof. apply termMatcher_matches; apply bytes_checked; vm_compute; reflexivity. Defined.

(** ** Regular expressions *)

(** C3. The automaton of a regular-expression query, whatever the flags and the provider of named
    automata: if the expression parses, it accepts exactly the words of code points
    the expression denotes, and it is deterministic where the query asks for that.  A star of an
    operand whose automaton has no states denotes no word here, not even the empty one;
    where no star has an operand that denotes nothing, [repeatable], it is the usual denotation.

    The panics are those of a syntax the parser refuses, of a determinization beyond the limit on the
    work, and, only with a flag for case folding, named automata or complements, those of a character
    to be folded, of the provider, and of a complement that is too complex.  The provider's automata
    are assumed to be in order, the numbers of states of the expression and of operands of
    complements to be below [2^63]. *)
Theorem NewRegexpQueryFull_correct (provider : option (list Z → option (option Automaton))) (same : RegExp → RegExp → bool)
    (term : list Z) (syntaxFlags matchFlags limit : Z) (det : bool)
    (Hs : Forall is_byte term)
    (Hnamed : ∀ s a, named (fun _ => None) provider s = Ret a → good a)
    (Hsame : ∀ e1 e2, same e1 e2 = true →
       toAutomatonInternal (fun _ => None) provider same e1 = toAutomatonInternal (fun _ => None) provider same e2)
    (HN : ∀ r e, NewRegExpFlags term syntaxFlags matchFlags = Ret r → e ∈ r :: complemented r →
       countable_states (fun _ => None) provider same e) :
  match NewRegexpQueryFull provider same term syntaxFlags matchFlags limit det with
  | Ret d => good d ∧ (det = true → deterministic d = true) ∧
      ∃ r, NewRegExpFlags term syntaxFlags matchFlags = Ret r ∧
        (∀ w, Forall code_point w →
           language d w ↔ den (fun _ => None) provider (no_states (fun _ => None) provider same) r w) ∧
        (repeatable (fun _ => None) provider r →
           ∀ w, Forall code_point w → language d w ↔ usual (fun _ => None) provider r w)
  | Err ArrayTooLarge => True
  | Panic =>
      (∃ err, NewRegExpFlags term syntaxFlags matchFlags = Err err) ∨
      ∃ r, NewRegExpFlags term syntaxFlags matchFlags = Ret r ∧
        ((∃ err, toAutomatonInternal (fun _ => None) provider same r = Err err ∧
            excused (fun _ => None) provider same r err ∧ risky (Z.lor syntaxFlags matchFlags) = true) ∨
         det = true ∧ ∃ nfa, toAutomatonInternal (fun _ => None) provider same r = Ret nfa ∧
            to_int64 (limit * 10) ≤ NumStates nfa * 2 ^ NumStates nfa)
  | _ => False
  end.
Proof.
  unfold NewRegexpQueryFull, regexp_toAutomaton. pose proof (NewRegExpFlags_spec term syntaxFlags matchFlags Hs) as HP.
  destruct (NewRegExpFlags term syntaxFlags matchFlags) as [r|err| |] eqn:EP; cbn [or_panic]; [|destruct err; try done; left; by eexists|done..].
  rewrite go_bind_ret. pose proof HP as [HW HP'].
  assert (HC : ∀ e, e ∈ complemented r → countable_states (fun _ => None) provider same e) by (intros e He; apply (HN r e eq_refl); by right).
  pose proof (toAutomaton_spec (fun _ => None) provider same Hnamed Hsame r HW HC) as HA. unfold makes in HA.
  pose proof (denotes_usual (fun _ => None) provider same Hnamed Hsame r HW HC) as HU.
  destruct (toAutomatonInternal (fun _ => None) provider same r) as [a|err| |] eqn:EA; [| |done..].
  - cbn [or_panic]. destruct HA as [G HL].
    assert (HU' : repeatable (fun _ => None) provider r → ∀ w, Forall code_point w → language a w ↔ usual (fun _ => None) provider r w)
      by (intros HR w Hw; by rewrite (HL w Hw), <- (HU HR w Hw)).
    destruct det; [|by split_and!; [done|done|exists r]]. rewrite go_bind_ret.
    pose proof (Determinize_or_panic a limit G (HN r r eq_refl ltac:(by left) a EA)) as H.
    destruct (or_panic (Determinize a limit)) as [d|[]| |]; try done; [|right; exists r; split; [done|]; right; split; [done|]; by exists a].
    destruct H as (Gd & HD & HLd). split_and!; [done|done|]. exists r. setoid_rewrite HLd. split_and!; done.
  - destruct HA as [->|HX]; [by destruct det|].
    pose proof (permitted_excused _ _ _ _ _ _ HP' HX) as HR.
    destruct err, det; cbn [or_panic mbind go_bind]; try exact I;
      (right; exists r; split; [done|]; left; eexists; split_and!; [done|exact HX|exact HR]).
Qed.

(** With a named automaton, a complement, and the star of the empty language. *)
Definition last_letters : Automaton :=
  automaton_of [BCreateState; BCreateState; BSetAccept 1 true; BAddTransition 0 1 120 122; BFinishState].

Definition one_name (s : list Z) : option (option Automaton) :=
  if bool_decide (s = [110]) then Some (Some last_letters) else Some None.

Lemma NewRegexpQueryFull_correct_witness :
  let term := codes "a|[b-c]*&~(bb)|<n>|(#)*" in
  let flags := Z.lor RegExpAll RegExpDeprecatedComplement in
  match NewRegexpQueryFull (Some one_name) (fun _ _ => false) term flags 0 100 true with
  | Ret d => good d ∧ deterministic d = true ∧
      map (Run d) [[97]; [98; 99]; [98; 98]; [121]; [100]] = map Ret [true; true; false; true; false] ∧
      ∃ r, NewRegExpFlags term flags 0 = Ret r ∧
        ∀ w, Forall code_point w →
          language d w ↔ den (fun _ => None) (Some one_name) (no_states (fun _ => None) (Some one_name) (fun _ _ => false)) r w
  | _ => False
  end.
Proof.
  intros term flags. set (other := fun _ _ : RegExp => false).
  assert (E : NewRegExpFlags term flags 0 = Ret (RUnion (RUnion (RUnion (RChar flags 97)
    (RIntersection (RRepeat (RCharRange 98 99)) (RDeprecatedComplement (RString flags [98; 98])))) (RAutomaton [110])) (RRepeat REmpty)))
    by (vm_compute; reflexivity).
  pose proof (NewRegexpQueryFull_correct (Some one_name) other term flags 0 100 true
    ltac:(apply bytes_checked; vm_compute; reflexivity)) as H.
  destruct (NewRegexpQueryFull (Some one_name) other term flags 0 100 true) as [d| | |] eqn:ED; try (vm_compute in ED; discriminate).
  destruct H as (G & HD & r & Er & HL & _).
  - unfold named, one_name. assert (Gn : good last_letters) by (apply automaton_of_good; vm_compute; reflexivity).
    revert Gn. generalize last_letters. intros n Gn s a. case_bool_decide; cbn; [|discriminate]. by intros [= <-].
  - discriminate.
  - rewrite E. intros r e [= <-] He. cbn [complemented app] in He.
    apply list_elem_of_In in He. destruct He as [<-|[<-|[]]];
      intros a Ea; vm_compute in Ea; injection Ea as <-; vm_compute; reflexivity.
  - split; [exact G|]. split; [apply HD; reflexivity|]. split; [vm_compute in ED; injection ED as <-; vm_compute; reflexivity|].
    exists r. split; [exact Er|exact HL].
Defined.
