(* ===== verification/Digits.v ===== *)
(** Positional notation: what packed integers are, apart from any program.  A list of
    [w]-bit words, the most significant first, is a number ([join]); its digits of another
    width ([digits]) are what the packing code of [util/packed/] moves the bits to. *)

From stdpp Require Import base tactics numbers list.
From Stdlib Require Import ZArith Lia.
From S2P Require Import Prelude.

Local Open Scope Z_scope.

(** * Fields of bits *)

(** The [n] bits of [B] from bit [lo] on. *)
Definition field (B lo n : Z) : Z := uwrap n (Z.shiftr B lo).

Lemma field_testbit B lo n j : 0 ≤ lo → 0 ≤ n → 0 ≤ j → Z.testbit (field B lo n) j = (j <? n) && Z.testbit B (lo + j).
Proof. intros. unfold field. rewrite uwrap_testbit, Z.shiftr_spec by lia. by rewrite (Z.add_comm j). Qed.

Lemma field_range B lo n : 0 ≤ n → in_uint n (field B lo n).
Proof. intros. by apply uwrap_range. Qed.

Lemma concat_testbit a b k p :
  0 ≤ k → in_uint k b → 0 ≤ p → Z.testbit (a * 2 ^ k + b) p = if p <? k then Z.testbit b p else Z.testbit a (p - k).
Proof.
  intros Hk Hb Hp. pose proof (pow2_pos k Hk). destruct (Z.ltb_spec p k).
  - rewrite <- (Z.mod_pow2_bits_low _ k) by lia. rewrite Z.add_comm, Z.mod_add by lia. by rewrite Z.mod_small.
  - replace p with (p - k + k) at 1 by lia. rewrite <- Z.div_pow2_bits by lia.
    rewrite Z.add_comm, Z.div_add by lia. by rewrite Z.div_small, Z.add_0_l.
Qed.

(** [bitwise] proves an equation of numbers bit by bit: it leaves the bits of a position. *)
Lemma bits_ext a b : (∀ j, 0 ≤ j → Z.testbit a j = Z.testbit b j) → a = b.
Proof. intros H. apply Z.bits_inj'. exact H. Qed.

Lemma mask_testbit n j : 0 ≤ n → 0 ≤ j → Z.testbit (2 ^ n - 1) j = (j <? n).
Proof. intros. replace (2 ^ n - 1) with (Z.ones n) by (rewrite Z.ones_equiv; lia). by rewrite Z.testbit_ones_nonneg. Qed.

(** * Numbers of a list of words *)

Section Digits.
Context (w : Z) (Hw : 0 < w).

Fixpoint join (l : list Z) : Z :=
  match l with [] => 0 | x :: l => x * 2 ^ (w * Z.of_nat (length l)) + join l end.

Fixpoint digits (n : nat) (B : Z) : list Z :=
  match n with O => [] | S n => field B (w * Z.of_nat n) w :: digits n B end.

Lemma join_range l : Forall (in_uint w) l → in_uint (w * Z.of_nat (length l)) (join l).
Proof using Hw.
  induction 1 as [|x l Hx _ IH]; [unfold in_uint; cbn; rewrite Z.mul_0_r; lia|].
  unfold in_uint in *. cbn [join length]. rewrite Nat2Z.inj_succ.
  replace (w * Z.succ (Z.of_nat (length l))) with (w + w * Z.of_nat (length l)) by lia.
  rewrite Z.pow_add_r by lia. pose proof (pow2_pos (w * Z.of_nat (length l)) ltac:(lia)). nia.
Qed.

Lemma join_app l k : join (l ++ k) = join l * 2 ^ (w * Z.of_nat (length k)) + join k.
Proof using Hw.
  induction l as [|x l IH]; [cbn; lia|]. cbn [app join]. rewrite IH, length_app, Nat2Z.inj_add, Z.mul_add_distr_l, Z.pow_add_r by lia. lia.
Qed.

Lemma join_testbit l q u r :
  Forall (in_uint w) l → l !! q = Some u → 0 ≤ r < w →
  Z.testbit (join l) (w * (Z.of_nat (length l) - 1 - Z.of_nat q) + r) = Z.testbit u r.
Proof using Hw.
  intros HF. revert q. induction HF as [|x l Hx HF IH]; intros q Hq Hr; [done|].
  pose proof (join_range l HF) as HB. apply lookup_lt_Some in Hq as Hlt. cbn [length] in Hlt. cbn [join length].
  destruct q as [|q]; cbn in Hq; (rewrite concat_testbit; [|nia|done|nia]).
  - injection Hq as ->. rewrite (proj2 (Z.ltb_ge _ _)) by nia. f_equal. lia.
  - rewrite (proj2 (Z.ltb_lt _ _)) by nia. rewrite <- (IH q Hq Hr). f_equal. lia.
Qed.

Lemma digits_length n B : length (digits n B) = n.
Proof. induction n; cbn; congruence. Qed.

Lemma digits_lookup n B i : (i < n)%nat → digits n B !! i = Some (field B (w * (Z.of_nat n - 1 - Z.of_nat i)) w).
Proof.
  revert i. induction n as [|n IH]; intros i Hi; [lia|]. cbn [digits]. destruct i as [|i]; cbn [lookup list_lookup].
  - do 2 f_equal. lia.
  - rewrite IH by lia. do 2 f_equal. lia.
Qed.

Lemma digits_in_range n B : Forall (in_uint w) (digits n B).
Proof using Hw. induction n; cbn; constructor; [apply field_range; lia|done]. Qed.

(** Two numbers have the same digits when they have the same bits. *)
Lemma digits_ext n B C : (∀ p, 0 ≤ p < w * Z.of_nat n → Z.testbit B p = Z.testbit C p) → digits n B = digits n C.
Proof using Hw.
  induction n as [|n IH]; intros HB; [done|]. cbn [digits]. f_equal; [|apply IH; intros; apply HB; nia].
  apply bits_ext. intros j Hj. rewrite !field_testbit by lia. destruct (Z.ltb_spec j w); [|done]. rewrite HB by nia. done.
Qed.

Lemma digits_mod n m B : w * Z.of_nat n ≤ m → digits n (B mod 2 ^ m) = digits n B.
Proof using Hw. intros Hm. apply digits_ext. intros p Hp. by rewrite Z.mod_pow2_bits_low by lia. Qed.

Lemma digits_split n m B : digits (n + m) B = digits n (Z.shiftr B (w * Z.of_nat m)) ++ digits m B.
Proof using Hw.
  induction n as [|n IH]; [done|]. cbn [digits plus app]. rewrite IH. f_equal.
  apply bits_ext. intros j Hj. rewrite !field_testbit, Z.shiftr_spec by lia. do 2 f_equal. lia.
Qed.

Lemma join_digits n B : join (digits n B) = B mod 2 ^ (w * Z.of_nat n).
Proof using Hw.
  induction n as [|n IH]; [cbn; by rewrite Z.mul_0_r, Z.mod_1_r|]. cbn [digits join]. rewrite digits_length, IH.
  apply bits_ext. intros p Hp. pose proof (uwrap_range (w * Z.of_nat n) B ltac:(lia)) as HR.
  change (B mod 2 ^ (w * Z.of_nat n)) with (uwrap (w * Z.of_nat n) B). rewrite concat_testbit by (done || lia).
  change (B mod 2 ^ (w * Z.of_nat (S n))) with (uwrap (w * Z.of_nat (S n)) B). rewrite !uwrap_testbit by lia.
  destruct (Z.ltb_spec p (w * Z.of_nat n)).
  - rewrite (proj2 (Z.ltb_lt p (w * Z.of_nat (S n)))) by lia. done.
  - rewrite field_testbit by lia. replace (w * Z.of_nat n + (p - w * Z.of_nat n)) with p by lia. f_equal.
    destruct (Z.ltb_spec (p - w * Z.of_nat n) w), (Z.ltb_spec p (w * Z.of_nat (S n))); done || lia.
Qed.

Lemma digits_join l : Forall (in_uint w) l → digits (length l) (join l) = l.
Proof using Hw.
  intros HF. apply list_eq. intros i. destruct (l !! i) as [u|] eqn:Hu.
  - apply lookup_lt_Some in Hu as Hlt. rewrite digits_lookup by done. f_equal. apply bits_ext. intros j Hj.
    pose proof HF as HF'. rewrite Forall_lookup in HF'. apply HF' in Hu as Hr.
    rewrite field_testbit by nia. destruct (Z.ltb_spec j w); cbn [andb].
    + by apply join_testbit.
    + symmetry. by apply (in_uint_testbit_high w); [lia|..].
  - apply lookup_ge_None in Hu. apply lookup_ge_None. by rewrite digits_length.
Qed.
End Digits.
