(* ===== verification/BulkOperation.v ===== *)
(** Bulk operations on packed integers: [util/packed/bulk_operation.go].

    The values of a block of [longBlockCount] words (or [byteBlockCount] bytes) lie bit by
    bit after each other, the most significant bit first.  A decoder or encoder goes over a
    number of blocks; both slices have an offset.  A [uint64] is an integer from 0 on. *)

From stdpp Require Import base tactics numbers list.
From Stdlib Require Import ZArith Lia.
From S2P Require Import Prelude Digits.

Local Open Scope Z_scope.

(** [v << n] of an unsigned integer of width [w]; [n] is never negative. *)
Definition shl (w v n : Z) : Z := uwrap w (Z.shiftl v n).
Abbreviation shl64 := (shl 64).
Abbreviation shl32 := (shl 32).

(** * The operations *)

Record bulkOperationPacked := {
  bitsPerValue : Z;
  longBlockCount : Z;
  longValueCount : Z;
  byteBlockCount : Z;
  byteValueCount : Z;
  mask : Z;
  intMask : Z
}.

Section Bulk.
Context {E : Type}.
Local Abbreviation G := (go E).

(** The powers of two in a width of at most 64 bits, and in its counts, are at most [2^9]. *)
Definition newBulkOperationPacked (bpv : Z) : G bulkOperationPacked :=
  if (bpv <? 1) || (64 <? bpv) then Panic else
  blocks ← go_while 64 (fun blocks => Z.land blocks 1 =? 0) (fun blocks => Ret (Z.shiftr blocks 1)) bpv;
  let longBlockCount := blocks in
  let longValueCount := Z.quot (64 * longBlockCount) bpv in
  '(byteBlockCount, byteValueCount) ←
    go_while 64 (fun '(b, v) => (Z.land b 1 =? 0) && (Z.land v 1 =? 0))
      (fun '(b, v) => Ret (Z.shiftr b 1, Z.shiftr v 1)) (8 * longBlockCount, longValueCount);
  let mask := if bpv =? 64 then uwrap 64 (Z.lnot 0) else shl64 1 bpv - 1 in
  Ret {| bitsPerValue := bpv; longBlockCount := longBlockCount; longValueCount := longValueCount;
         byteBlockCount := byteBlockCount; byteValueCount := byteValueCount;
         mask := mask; intMask := to_uint32 mask |}.

Definition computeIterations (byteBlockCount byteValueCount valueCount ramBudget : Z) : Z :=
  let iterations := Z.quot ramBudget (byteBlockCount + 8 * byteValueCount) in
  if iterations =? 0 then 1 else
  if valueCount <=? (iterations - 1) * byteValueCount then Z.quot (valueCount + byteValueCount - 1) byteValueCount
  else iterations.

Definition ComputeIterations (b : bulkOperationPacked) (valueCount ramBudget : Z) : Z :=
  computeIterations (byteBlockCount b) (byteValueCount b) valueCount ramBudget.

(** ** Decoding

    [DecodeLongs] and [DecodeLongsToInts] differ in the conversion [cv] of a value. *)

Definition decode_longs (cv : Z → Z) (b : bulkOperationPacked) (blocks : list Z) (blocksOffset : Z)
    (values : list Z) (valuesOffset iterations : Z) : G (list Z) :=
  let bpv := bitsPerValue b in
  '(_, _, values, _) ← go_for (Z.to_nat (longValueCount b * iterations)) 0
    (fun _ '(bitsLeft, blocksOffset, values, valuesOffset) =>
      let bitsLeft := bitsLeft - bpv in
      if bitsLeft <? 0 then
        high ← aget blocks blocksOffset;
        let high := Z.land (to_uint64 high) (shl64 1 (bpv + bitsLeft) - 1) in
        let blocksOffset := blocksOffset + 1 in
        low ← aget blocks blocksOffset;
        let low := Z.shiftr (to_uint64 low) (64 + bitsLeft) in
        values ← aset values valuesOffset (cv (Z.lor (shl64 high (- bitsLeft)) low));
        mret (bitsLeft + 64, blocksOffset, values, valuesOffset + 1)
      else
        block ← aget blocks blocksOffset;
        values ← aset values valuesOffset (cv (Z.land (Z.shiftr (to_uint64 block) bitsLeft) (mask b)));
        mret (bitsLeft, blocksOffset, values, valuesOffset + 1))
    (64, blocksOffset, values, valuesOffset);
  mret values.

Definition DecodeLongs := decode_longs to_int64.

Definition DecodeLongsToInts (b : bulkOperationPacked) (blocks : list Z) (blocksOffset : Z)
    (values : list Z) (valuesOffset iterations : Z) : G (list Z) :=
  if 32 <? bitsPerValue b then Panic else
  decode_longs to_int32 b blocks blocksOffset values valuesOffset iterations.

(** [DecodeBytes] works on [uint64] and [DecodeBytesToInts] on [uint32]; [m] is the mask.  A byte
    holds at most eight values. *)
Definition decode_bytes (w m : Z) (cv : Z → Z) (b : bulkOperationPacked) (blocks : list Z) (blocksOffset : Z)
    (values : list Z) (valuesOffset iterations : Z) : G (list Z) :=
  let bpv := bitsPerValue b in
  '(_, _, _, values, _) ← go_for (Z.to_nat (iterations * byteBlockCount b)) 0
    (fun _ '(nextValue, bitsLeft, blocksOffset, values, valuesOffset) =>
      bb ← aget blocks blocksOffset;
      let bb := Z.land bb 0xFF in
      let blocksOffset := blocksOffset + 1 in
      if 8 <? bitsLeft then
        let bitsLeft := bitsLeft - 8 in
        mret (Z.lor nextValue (shl w bb bitsLeft), bitsLeft, blocksOffset, values, valuesOffset)
      else
        let bitsRem := 8 - bitsLeft in
        values ← aset values valuesOffset (cv (Z.lor nextValue (Z.shiftr bb bitsRem)));
        let valuesOffset := valuesOffset + 1 in
        '(bitsRem, values, valuesOffset) ←
          go_while 8 (fun '(bitsRem, _, _) => bpv <=? bitsRem)
            (fun '(bitsRem, values, valuesOffset) =>
              let bitsRem := bitsRem - bpv in
              values ← aset values valuesOffset (cv (Z.land (Z.shiftr bb bitsRem) m));
              mret (bitsRem, values, valuesOffset + 1))
            (bitsRem, values, valuesOffset);
        let bitsLeft := bpv - bitsRem in
        let nextValue := shl w (Z.land bb (shl w 1 bitsRem - 1)) bitsLeft in
        mret (nextValue, bitsLeft, blocksOffset, values, valuesOffset))
    (0, bpv, blocksOffset, values, valuesOffset);
  mret values.

Definition DecodeBytes (b : bulkOperationPacked) := decode_bytes 64 (mask b) to_int64 b.

Definition DecodeBytesToInts (b : bulkOperationPacked) (blocks : list Z) (blocksOffset : Z)
    (values : list Z) (valuesOffset iterations : Z) : G (list Z) :=
  if 32 <? bitsPerValue b then Panic else
  decode_bytes 32 (intMask b) to_int32 b blocks blocksOffset values valuesOffset iterations.

(** ** Encoding

    [cv] makes a [uint64] of a value: [uint64(v)] or [uint64(uint32(v))]. *)

Definition encode_longs (cv : Z → Z) (b : bulkOperationPacked) (values : list Z) (valuesOffset : Z)
    (blocks : list Z) (blocksOffset iterations : Z) : G (list Z) :=
  let bpv := bitsPerValue b in
  '(_, _, blocks, _, _) ← go_for (Z.to_nat (longValueCount b * iterations)) 0
    (fun _ '(nextBlock, bitsLeft, blocks, blocksOffset, valuesOffset) =>
      let bitsLeft := bitsLeft - bpv in
      v ← aget values valuesOffset;
      let v := cv v in
      if 0 <? bitsLeft then
        mret (Z.lor nextBlock (shl64 v bitsLeft), bitsLeft, blocks, blocksOffset, valuesOffset + 1)
      else if bitsLeft =? 0 then
        let nextBlock := Z.lor nextBlock v in
        blocks ← aset blocks blocksOffset (to_int64 nextBlock);
        mret (0, 64, blocks, blocksOffset + 1, valuesOffset + 1)
      else
        let nextBlock := Z.lor nextBlock (Z.shiftr v (- bitsLeft)) in
        blocks ← aset blocks blocksOffset (to_int64 nextBlock);
        let nextBlock := shl64 (Z.land v (shl64 1 (- bitsLeft) - 1)) (64 + bitsLeft) in
        mret (nextBlock, bitsLeft + 64, blocks, blocksOffset + 1, valuesOffset + 1))
    (0, 64, blocks, blocksOffset, valuesOffset);
  mret blocks.

Definition EncodeLongsToLongs := encode_longs to_uint64.
Definition EncodeIntsToLongs := encode_longs (fun v => to_uint64 (to_uint32 v)).

(** Here [cv] is [uint64(v)] or [uint32(v)], of width [w]; the block being filled is a [uint32]. A
    value fills at most eight bytes. *)
Definition encode_bytes (w : Z) (cv : Z → Z) (b : bulkOperationPacked) (values : list Z) (valuesOffset : Z)
    (blocks : list Z) (blocksOffset iterations : Z) : G (list Z) :=
  let bpv := bitsPerValue b in
  '(_, _, blocks, _, _) ← go_for (Z.to_nat (byteValueCount b * iterations)) 0
    (fun _ '(nextBlock, bitsLeft, blocks, blocksOffset, valuesOffset) =>
      v ← aget values valuesOffset;
      let v := cv v in
      let valuesOffset := valuesOffset + 1 in
      if bpv <? bitsLeft then
        mret (Z.lor nextBlock (to_uint32 (shl w v (bitsLeft - bpv))), bitsLeft - bpv, blocks, blocksOffset, valuesOffset)
      else
        let bitsRem := bpv - bitsLeft in
        blocks ← aset blocks blocksOffset (to_byte (Z.lor nextBlock (to_uint32 (Z.shiftr v bitsRem))));
        let blocksOffset := blocksOffset + 1 in
        '(bitsRem, blocks, blocksOffset) ←
          go_while 8 (fun '(bitsRem, _, _) => 8 <=? bitsRem)
            (fun '(bitsRem, blocks, blocksOffset) =>
              let bitsRem := bitsRem - 8 in
              blocks ← aset blocks blocksOffset (to_byte (Z.shiftr v bitsRem));
              mret (bitsRem, blocks, blocksOffset + 1))
            (bitsRem, blocks, blocksOffset);
        let bitsLeft := 8 - bitsRem in
        let nextBlock := to_uint32 (shl w (Z.land v (shl w 1 bitsRem - 1)) bitsLeft) in
        mret (nextBlock, bitsLeft, blocks, blocksOffset, valuesOffset))
    (0, 8, blocks, blocksOffset, valuesOffset);
  mret blocks.

Definition EncodeLongsToBytes := encode_bytes 64 to_uint64.
Definition EncodeIntsToBytes := encode_bytes 32 to_uint32.
End Bulk.

Example bulk_run :
  (b ← newBulkOperationPacked (E := unit) 12;
   bs ← EncodeLongsToBytes b [291; 1110; 1929; 4095] 0 (repeat 0 6) 0 2;
   ws ← EncodeLongsToLongs b (seqZ 0 16) 0 (repeat 0 3) 0 1;
   vs ← DecodeLongs b ws 0 (repeat 0 16) 0 1;
   us ← DecodeBytesToInts b bs 0 (repeat 0 4) 0 2;
   mret (bs, us, vs, longBlockCount b, byteBlockCount b, byteValueCount b))
  = Ret ([18; 52; 86; 120; 159; 255], [291; 1110; 1929; 4095], seqZ 0 16, 3, 3, 2).
Proof. vm_compute. reflexivity. Qed.

(** * Words and bits *)

Lemma shl_testbit w v n j : 0 ≤ w → 0 ≤ j → Z.testbit (shl w v n) j = (j <? w) && Z.testbit v (j - n).
Proof. intros. unfold shl. by rewrite uwrap_testbit, Z.shiftl_spec by lia. Qed.

Lemma low_ones w n : 0 ≤ n < w → shl w 1 n - 1 = 2 ^ n - 1.
Proof.
  intros Hn. unfold shl. rewrite Z.shiftl_1_l, uwrap_id; [done|]. split; [by apply Z.pow_nonneg|]. apply Z.pow_lt_mono_r; lia.
Qed.

Lemma low_testbit w n j : 0 ≤ n < w → 0 ≤ j → Z.testbit (shl w 1 n - 1) j = (j <? n).
Proof. intros. rewrite low_ones by done. apply mask_testbit; lia. Qed.

(** [bits] brings the bits of word expressions to the bits of their variables. *)
#[export] Hint Rewrite Z.land_spec Z.lor_spec : bits.
Ltac bits := repeat first
  [ progress autorewrite with bits | rewrite field_testbit by lia | rewrite Z.shiftr_spec by lia | rewrite shl_testbit by lia
  | rewrite low_testbit by lia | rewrite mask_testbit by lia | rewrite uwrap_testbit by lia ].
(** [bools] decides the comparisons of positions. *)
Ltac bools := repeat (match goal with
  | |- context [?a <? ?b] => destruct (Z.ltb_spec a b); try lia
  end; cbn [andb orb]; rewrite ?andb_true_r, ?andb_false_r, ?orb_false_r).

Lemma testbit_neg z j : j < 0 → Z.testbit z j = false.
Proof. apply Z.testbit_neg_r. Qed.

(** A slice whose first [i] elements have been overwritten. *)
Definition written {A} (pre xs old post : list A) (i : nat) : list A := pre ++ take i xs ++ drop i old ++ post.

Lemma written_start {A} (pre xs old post : list A) : written pre xs old post 0 = pre ++ old ++ post.
Proof. done. Qed.

Lemma written_end {A} (pre xs old post : list A) n : length xs = n → length old = n → written pre xs old post n = pre ++ xs ++ post.
Proof. intros Hx Ho. unfold written. by rewrite take_ge, drop_ge by lia. Qed.

Lemma write_next {E A} (pre xs old post : list A) x i k :
  length old = length xs → xs !! i = Some x → k = Z.of_nat (length pre) + Z.of_nat i →
  aset (E := E) (written pre xs old post i) k x = Ret (written pre xs old post (S i)).
Proof.
  intros Hl Hx ->. apply lookup_lt_Some in Hx as Hi. destruct (lookup_lt_is_Some_2 old i) as [y Hy]; [lia|]. unfold written.
  rewrite (drop_S _ _ _ Hy), (take_S_r _ _ _ Hx), !app_assoc. cbn [app]. rewrite <- app_assoc. cbn [app].
  rewrite aset_mid by (rewrite length_app, length_take; lia). by rewrite <- !app_assoc.
Qed.

Lemma aget_part {E A} (pre l post : list A) x i k :
  l !! i = Some x → k = Z.of_nat (length pre) + Z.of_nat i → aget (E := E) (pre ++ l ++ post) k = Ret x.
Proof.
  intros Hx ->. apply aget_Ret; [lia|]. replace (Z.to_nat _) with (length pre + i)%nat by lia.
  rewrite lookup_app_r by lia. replace (length pre + i - length pre)%nat with i by lia. by apply lookup_app_l_Some.
Qed.

(** * What a bulk operation for [bpv] bits is *)

Record bulk_for (bpv : Z) (b : bulkOperationPacked) : Prop := {
  bf_bits : bitsPerValue b = bpv;
  bf_width : 1 ≤ bpv ≤ 64;
  bf_mask : mask b = 2 ^ bpv - 1;
  bf_intMask : bpv ≤ 32 → intMask b = 2 ^ bpv - 1;
  bf_longs : 0 < longValueCount b ∧ 0 < longBlockCount b ∧ bpv * longValueCount b = 64 * longBlockCount b;
  bf_bytes : 0 < byteValueCount b ∧ 0 < byteBlockCount b ∧ bpv * byteValueCount b = 8 * byteBlockCount b
}.

Definition bulk_check {E} (bpv : Z) : bool :=
  match newBulkOperationPacked (E := E) bpv with
  | Ret b =>
      (bitsPerValue b =? bpv) && (mask b =? 2 ^ bpv - 1) && ((32 <? bpv) || (intMask b =? 2 ^ bpv - 1)) &&
      (0 <? longValueCount b) && (0 <? longBlockCount b) && (bpv * longValueCount b =? 64 * longBlockCount b) &&
      (0 <? byteValueCount b) && (0 <? byteBlockCount b) && (bpv * byteValueCount b =? 8 * byteBlockCount b)
  | _ => false
  end.

Lemma bulk_check_all {E} : forallb (bulk_check (E := E)) (seqZ 1 64) = true.
Proof. vm_compute. reflexivity. Qed.

Lemma newBulkOperationPacked_spec {E} bpv :
  1 ≤ bpv ≤ 64 → ∃ b, newBulkOperationPacked (E := E) bpv = Ret b ∧ bulk_for bpv b.
Proof.
  intros Hb. pose proof (bulk_check_all (E := E)) as H. rewrite forallb_forall in H.
  specialize (H bpv). unfold bulk_check in H. destruct (newBulkOperationPacked (E := E) bpv) as [b| | |]; try (discriminate H;
    apply list_elem_of_In, elem_of_seqZ; lia).
  exists b. split; [done|]. assert (Hin : In bpv (seqZ 1 64)) by (apply list_elem_of_In, elem_of_seqZ; lia).
  apply H in Hin. rewrite !andb_true_iff, orb_true_iff, !Z.eqb_eq, !Z.ltb_lt in Hin.
  destruct Hin as ((((((((? & ?) & ?) & ?) & ?) & ?) & ?) & ?) & ?). split; try done. intros. lia.
Qed.

(** * Changing the width

    Blocks of [k] bits that hold as many bits as [n] values of [d] bits. *)
Section Values.
Context (d k : Z) (us : list Z) (n : nat).
Context (Hd : 0 < d) (Hk : 0 < k) (HU : Forall (in_uint k) us) (Hn : d * Z.of_nat n = k * Z.of_nat (length us)).

Definition value_of (i : nat) : Z := field (join k us) (d * (Z.of_nat n - 1 - Z.of_nat i)) d.

Lemma value_lookup i : (i < n)%nat → digits d n (join k us) !! i = Some (value_of i).
Proof using. apply digits_lookup. Qed.

(** Bit [j] of value [i] is in block [q], at [r], if as many bits are to its right. *)
Lemma value_bit i q u r j :
  us !! q = Some u → 0 ≤ r < k → 0 ≤ j < d → (i < n)%nat → k * (Z.of_nat q + 1) - r = d * (Z.of_nat i + 1) - j →
  Z.testbit (value_of i) j = Z.testbit u r.
Proof using Hd Hk HU Hn.
  intros Hu Hr Hj Hi Hq. unfold value_of. rewrite field_testbit by nia. rewrite (proj2 (Z.ltb_lt _ _)) by lia. cbn [andb].
  rewrite <- (join_testbit k Hk us q u r HU Hu Hr). f_equal. nia.
Qed.

Lemma value_high i j : d ≤ j → Z.testbit (value_of i) j = false.
Proof using Hd. intros Hj. apply (in_uint_testbit_high d); [lia| |lia]. apply field_range. lia. Qed.

(** A value within one block. *)
Lemma value_within i q u left_ :
  us !! q = Some u → 0 ≤ left_ → left_ + d ≤ k → (i < n)%nat → k * (Z.of_nat q + 1) - left_ = d * (Z.of_nat i + 1) →
  Z.land (Z.shiftr u left_) (2 ^ d - 1) = value_of i.
Proof using Hd Hk HU Hn.
  intros Hu Hl Hle Hi Hq. apply bits_ext. intros j Hj. bits.
  destruct (Z.ltb_spec j d); [|by rewrite andb_false_r, value_high].
  rewrite andb_true_r. symmetry. apply (value_bit i q); [done|lia|lia|done|lia].
Qed.

(** What has been gathered of value [t]: all but its last [left_] bits. *)
Definition begun (next_ left_ : Z) (t : nat) : Prop :=
  ∀ j, 0 ≤ j → Z.testbit next_ j = (left_ <=? j) && (j <? d) && Z.testbit (value_of t) j.

Lemma begun_nothing t : begun 0 d t.
Proof using. intros j Hj. rewrite Z.bits_0. destruct (Z.leb_spec d j), (Z.ltb_spec j d); done || lia. Qed.

Lemma unit_high c u j : us !! c = Some u → k ≤ j → Z.testbit u j = false.
Proof using n Hk HU. intros Hu Hj. apply (in_uint_testbit_high k); [lia| |lia]. by eapply Forall_lookup_1 in HU. Qed.

(** The next block goes into the value entirely, *)
Lemma step_more w c u next_ left_ t :
  d ≤ w → us !! c = Some u → k ≤ left_ ≤ d → (t < n)%nat → k * Z.of_nat c = d * (Z.of_nat t + 1) - left_ →
  begun next_ left_ t → begun (Z.lor next_ (shl w u (left_ - k))) (left_ - k) t.
Proof using Hd Hk HU Hn.
  intros Hw Hu Hl Ht He Hb j Hj. rewrite Z.lor_spec, shl_testbit, Hb by lia. destruct (Z.leb_spec (left_ - k) j); cbn [andb].
  - destruct (Z.ltb_spec j d); cbn [andb].
    + rewrite (proj2 (Z.ltb_lt j w)), andb_true_r by lia. cbn [andb]. destruct (Z.leb_spec left_ j); cbn [andb orb].
      * rewrite (unit_high c u) by (done || lia). apply orb_false_r.
      * symmetry. apply (value_bit t c u); [done|lia|lia|done|lia].
    + rewrite andb_false_r. cbn [andb orb]. rewrite (unit_high c u) by (done || lia). apply andb_false_r.
  - rewrite (proj2 (Z.leb_gt left_ j)) by lia. cbn [andb orb]. rewrite (testbit_neg u) by lia. apply andb_false_r.
Qed.

(** or completes it, *)
Lemma step_last c u next_ left_ t :
  us !! c = Some u → 1 ≤ left_ ≤ k → left_ ≤ d → (t < n)%nat → k * Z.of_nat c = d * (Z.of_nat t + 1) - left_ →
  begun next_ left_ t → Z.lor next_ (Z.shiftr u (k - left_)) = value_of t.
Proof using Hd Hk HU Hn.
  intros Hu Hl Hlb Ht He Hb. apply bits_ext. intros j Hj. rewrite Z.lor_spec, Z.shiftr_spec, Hb by lia.
  destruct (Z.leb_spec left_ j); cbn [andb orb].
  - rewrite (unit_high c u), orb_false_r by (done || lia). destruct (Z.ltb_spec j d); [done|]. by rewrite value_high.
  - symmetry. apply (value_bit t c u); [done|lia|lia|done|lia].
Qed.

(** and what is left of it begins another. *)
Lemma step_rest w c u rem_ t :
  d ≤ w → us !! c = Some u → 0 ≤ rem_ < d → rem_ < k → k * (Z.of_nat c + 1) = d * Z.of_nat t + rem_ → (t < n)%nat ∨ rem_ = 0 →
  begun (shl w (Z.land u (shl w 1 rem_ - 1)) (d - rem_)) (d - rem_) t.
Proof using Hd Hk HU Hn.
  intros Hw Hu Hr Hr8 He Ht j Hj. rewrite shl_testbit by lia. destruct (Z.leb_spec (d - rem_) j); cbn [andb].
  - rewrite Z.land_spec, low_testbit by lia. destruct (Z.ltb_spec j d); cbn [andb].
    + rewrite (proj2 (Z.ltb_lt j w)), (proj2 (Z.ltb_lt (j - (d - rem_)) rem_)), andb_true_r by lia. cbn [andb]. symmetry.
      destruct Ht as [Ht|]; [|lia]. apply (value_bit t c u); [done|lia|lia|done|lia].
    + rewrite (proj2 (Z.ltb_ge (j - (d - rem_)) rem_)) by lia. by rewrite !andb_false_r.
  - rewrite Z.land_spec, (testbit_neg u) by lia. cbn [andb]. apply andb_false_r.
Qed.
End Values.

(** * Decoding *)

Section Decode.
Context {E : Type} (bpv : Z) (b : bulkOperationPacked) (HB : bulk_for bpv b).

Lemma bpv_pos : 0 < bpv.
Proof using HB. destruct (bf_width _ _ HB). lia. Qed.

Lemma map_uwrap_range w l : 0 ≤ w → Forall (in_uint w) (map (uwrap w) l).
Proof. intros Hw. apply Forall_fmap, Forall_true. intros x. by apply uwrap_range. Qed.

Section Longs.
Context (cv : Z → Z) (pre bs post vpre old vpost : list Z).
Context (Hn : bpv * Z.of_nat (length old) = 64 * Z.of_nat (length bs)).

Let us := map to_uint64 bs.
Let n := length old.
Let ds := digits bpv n (join 64 us).

Lemma longs_count : bpv * Z.of_nat n = 64 * Z.of_nat (length us).
Proof using Hn. unfold us. by rewrite length_map. Qed.

(** A value that begins in one block and ends in the next. *)
Lemma value_across i q u u' left_ :
  us !! q = Some u → us !! S q = Some u' → - bpv ≤ left_ < 0 → (i < n)%nat →
  64 * (Z.of_nat q + 1) - left_ = bpv * (Z.of_nat i + 1) →
  Z.lor (shl64 (Z.land u (shl64 1 (bpv + left_) - 1)) (- left_)) (Z.shiftr u' (64 + left_)) =
  value_of bpv 64 us n i.
Proof using HB Hn.
  intros Hu Hu' Hl Hi Hq. destruct (bf_width _ _ HB) as [Hb1 Hb64].
  assert (HU : Forall (in_uint 64) us) by (apply map_uwrap_range; lia).
  assert (Hr' : in_uint 64 u') by (by eapply Forall_lookup_1 in HU; [exact HU|exact Hu']).
  pose proof longs_count as HN. apply bits_ext. intros j Hj.
  rewrite Z.lor_spec, shl_testbit, Z.land_spec, Z.shiftr_spec by lia.
  destruct (Z.ltb_spec j bpv) as [Hlt|]; [|rewrite (value_high bpv 64 us n bpv_pos i j) by done].
  - rewrite (proj2 (Z.ltb_lt j 64)) by lia. cbn [andb]. destruct (Z.ltb_spec j (- left_)).
    + rewrite (testbit_neg _ (j - - left_)) by lia. cbn [andb orb]. symmetry.
      apply (value_bit bpv 64 us n bpv_pos ltac:(lia) HU HN i (S q)); [done|lia|lia|done|lia].
    + rewrite low_testbit by lia. rewrite (proj2 (Z.ltb_lt _ _)), andb_true_r by lia.
      rewrite (in_uint_testbit_high 64 u') by (done || lia). rewrite orb_false_r. symmetry.
      apply (value_bit bpv 64 us n bpv_pos ltac:(lia) HU HN i q); [done|lia|lia|done|lia].
  - rewrite (in_uint_testbit_high 64 u') by (done || lia). rewrite orb_false_r.
    destruct (Z.ltb_spec j 64); [|done]. cbn [andb]. rewrite low_testbit by lia. by rewrite (proj2 (Z.ltb_ge _ _)), andb_false_r by lia.
Qed.

Definition longs_inv (i : Z) (st : Z * Z * list Z * Z) : Prop :=
  let '(bitsLeft, blocksOffset, values, valuesOffset) := st in
  values = written vpre (map cv ds) old vpost (Z.to_nat i) ∧ valuesOffset = Z.of_nat (length vpre) + i ∧
  ∃ q : nat, blocksOffset = Z.of_nat (length pre) + Z.of_nat q ∧ (q < length bs)%nat ∧
    0 ≤ bitsLeft ≤ 64 ∧ 64 * (Z.of_nat q + 1) - bitsLeft = bpv * i.

Lemma decode_longs_spec iterations :
  0 ≤ iterations → Z.of_nat (length bs) = longBlockCount b * iterations →
  decode_longs (E := E) cv b (pre ++ bs ++ post) (Z.of_nat (length pre)) (vpre ++ old ++ vpost) (Z.of_nat (length vpre)) iterations
  = Ret (vpre ++ map cv ds ++ vpost).
Proof using HB Hn.
  intros Hit Hbs. destruct HB as [Hbits [Hb1 Hb64] Hmask _ (Hv & Hc & Hvc) _]. unfold decode_longs. rewrite Hbits, Hmask.
  assert (Hcount : longValueCount b * iterations = Z.of_nat n) by (unfold n; nia). rewrite Hcount, Nat2Z.id.
  assert (Hds : length (map cv ds) = n) by (unfold ds; by rewrite length_map, digits_length).
  assert (HU : Forall (in_uint 64) us) by (apply map_uwrap_range; lia). pose proof longs_count as HN.
  destruct (decide (n = 0%nat)) as [E0|Hn0].
  { rewrite E0. cbn. rewrite E0 in Hds. apply nil_length_inv in Hds. rewrite Hds. unfold n in E0. by apply nil_length_inv in E0 as ->. }
  match goal with |- context [go_for n 0 ?f ?st] => destruct (go_for_inv (E := E) longs_inv n 0 f st) as (s' & -> & HI) end.
  - split; [done|]. split; [lia|]. exists 0%nat. split_and!; [lia| |lia|lia|lia]. unfold n in *. nia.
  - intros i [[[bitsLeft blocksOffset] values] valuesOffset] Hi (-> & -> & q & -> & Hq & Hl & He).
    assert (Hdi : map cv ds !! Z.to_nat i = Some (cv (value_of bpv 64 us n (Z.to_nat i)))).
    { apply list_lookup_fmap_Some. eexists. split; [done|]. apply value_lookup. lia. }
    destruct (lookup_lt_is_Some_2 bs q Hq) as [x Hx].
    assert (Hu : us !! q = Some (to_uint64 x)) by (unfold us; apply list_lookup_fmap_Some; eauto).
    cbn zeta. rewrite (aget_part _ _ _ _ _ _ Hx eq_refl), !go_bind_ret. destruct (Z.ltb_spec (bitsLeft - bpv) 0) as [Hlt|Hge].
    + assert (Hq' : (S q < length bs)%nat) by (unfold n in *; nia). destruct (lookup_lt_is_Some_2 bs (S q) Hq') as [y Hy].
      assert (Hu' : us !! S q = Some (to_uint64 y)) by (unfold us; apply list_lookup_fmap_Some; eauto).
      rewrite (aget_part _ _ _ _ _ _ Hy), go_bind_ret by lia.
      rewrite (value_across (Z.to_nat i) q _ _ (bitsLeft - bpv) Hu Hu') by lia.
      rewrite (write_next _ _ _ _ _ (Z.to_nat i) _ (eq_sym Hds) Hdi) by lia. eexists. split; [done|].
      split; [f_equal; lia|]. split; [lia|]. exists (S q). split_and!; [lia|done|lia|lia|lia].
    + rewrite (value_within bpv 64 us n bpv_pos ltac:(lia) HU HN (Z.to_nat i) q _ (bitsLeft - bpv) Hu) by lia.
      rewrite (write_next _ _ _ _ _ (Z.to_nat i) _ (eq_sym Hds) Hdi) by lia. eexists. split; [done|].
      split; [f_equal; lia|]. split; [lia|]. exists q. split_and!; [lia|done|lia|lia|lia].
  - destruct s' as [[[? ?] values] ?]. destruct HI as (-> & _). rewrite go_bind_ret, Z.add_0_l, Nat2Z.id. f_equal. by apply written_end.
Qed.
End Longs.

Section Bytes.
Context (w : Z) (Hw : bpv ≤ w) (Hw32 : 32 ≤ w).
Context (cv : Z → Z) (pre bs post vpre old vpost : list Z).
Context (Hn : bpv * Z.of_nat (length old) = 8 * Z.of_nat (length bs)).

Let us := map to_byte bs.
Let n := length old.
Let ds := digits bpv n (join 8 us).

Lemma bytes_count : bpv * Z.of_nat n = 8 * Z.of_nat (length us).
Proof using Hn. unfold us. by rewrite length_map. Qed.

Lemma bytes_range : Forall (in_uint 8) us.
Proof using. by apply map_uwrap_range, Z.leb_le. Qed.

Definition bytes_inv (c : Z) (st : Z * Z * Z * list Z * Z) : Prop :=
  let '(nextValue, bitsLeft, blocksOffset, values, valuesOffset) := st in
  ∃ t : nat, values = written vpre (map cv ds) old vpost t ∧ valuesOffset = Z.of_nat (length vpre) + Z.of_nat t ∧
    blocksOffset = Z.of_nat (length pre) + c ∧ 1 ≤ bitsLeft ≤ bpv ∧ 8 * c = bpv * (Z.of_nat t + 1) - bitsLeft ∧
    begun bpv 8 us n nextValue bitsLeft t.

(** The values that end in the byte [c]. *)
Lemma inner_spec m c u bitsRem t :
  m = 2 ^ bpv - 1 → us !! c = Some u → (c < length bs)%nat → 0 ≤ bitsRem < 8 → 8 * (Z.of_nat c + 1) = bpv * Z.of_nat t + bitsRem →
  ∃ t' bitsRem', go_while (E := E) 8 (fun '(bitsRem, _, _) => bpv <=? bitsRem)
      (fun '(bitsRem, values, valuesOffset) =>
        values ← aset values valuesOffset (cv (Z.land (Z.shiftr u (bitsRem - bpv)) m));
        mret (bitsRem - bpv, values, valuesOffset + 1))
      (bitsRem, written vpre (map cv ds) old vpost t, Z.of_nat (length vpre) + Z.of_nat t) =
    Ret (bitsRem', written vpre (map cv ds) old vpost t', Z.of_nat (length vpre) + Z.of_nat t') ∧
    0 ≤ bitsRem' < bpv ∧ bitsRem' < 8 ∧ 8 * (Z.of_nat c + 1) = bpv * Z.of_nat t' + bitsRem'.
Proof using HB Hn Hw Hw32.
  intros -> Hu Hc Hr He. destruct HB as [_ [Hb1 Hb64] _ _ _ _]. assert (Hds : length (map cv ds) = n) by (unfold ds; by rewrite length_map, digits_length).
  edestruct (go_while_inv (E := E) (fun '(bitsRem, values, valuesOffset) => ∃ t : nat, values = written vpre (map cv ds) old vpost t ∧
      valuesOffset = Z.of_nat (length vpre) + Z.of_nat t ∧ 0 ≤ bitsRem < 8 ∧ 8 * (Z.of_nat c + 1) = bpv * Z.of_nat t + bitsRem)
      (fun '(bitsRem, _, _) => bitsRem)) as ([[r values] vo] & EW & (t' & -> & -> & Hr' & He') & Hend); [| |
    |rewrite EW; apply Z.leb_gt in Hend; exists t', r; split; [done|]; lia].
  - exists t. split_and!; [done|done|lia|lia|done].
  - cbn. lia.
  - intros [[r values] vo] (t1 & -> & -> & Hr1 & He1) Hle%Z.leb_le. split; [lia|].
    assert (Ht1 : (t1 < n)%nat) by (unfold n in *; nia).
    rewrite (value_within bpv 8 us n bpv_pos ltac:(lia) bytes_range bytes_count t1 c u (r - bpv) Hu) by lia.
    rewrite (write_next _ _ _ _ (cv (value_of bpv 8 us n t1)) t1 _ (eq_sym Hds)); [|apply list_lookup_fmap_Some; eexists; split; [done|by apply value_lookup]|done].
    eexists. split; [done|]. split; [|lia]. exists (S t1). split_and!; [done|lia|lia|lia|lia].
Qed.

Lemma decode_bytes_spec m iterations :
  m = 2 ^ bpv - 1 → 0 ≤ iterations → Z.of_nat (length bs) = byteBlockCount b * iterations →
  decode_bytes (E := E) w m cv b (pre ++ bs ++ post) (Z.of_nat (length pre)) (vpre ++ old ++ vpost) (Z.of_nat (length vpre)) iterations
  = Ret (vpre ++ map cv ds ++ vpost).
Proof using HB Hn Hw Hw32.
  intros Hm Hit Hbs. pose proof HB as [Hbits [Hb1 Hb64] _ _ _ _]. unfold decode_bytes. rewrite Hbits.
  assert (Hds : length (map cv ds) = n) by (unfold ds; by rewrite length_map, digits_length).
  rewrite (Z.mul_comm iterations), <- Hbs, Nat2Z.id.
  match goal with |- context [go_for (length bs) 0 ?f ?st] => destruct (go_for_inv (E := E) bytes_inv (length bs) 0 f st) as (s' & -> & HI) end.
  - exists 0%nat. split_and!; [done|lia|lia|lia|lia|lia|apply begun_nothing].
  - intros i [[[[nextValue bitsLeft] blocksOffset] values] valuesOffset] Hi (t & -> & -> & -> & Hl & He & Hb).
    destruct (lookup_lt_is_Some_2 bs (Z.to_nat i)) as [x Hx]; [lia|].
    assert (Hu : us !! Z.to_nat i = Some (to_byte x)) by (unfold us; apply list_lookup_fmap_Some; eauto).
    rewrite (aget_part _ _ _ _ _ _ Hx), go_bind_ret by lia. change (Z.land x 255) with (Z.land x (Z.ones 8)). rewrite Z.land_ones by lia.
    change (x mod 2 ^ 8) with (to_byte x). cbn zeta. assert (Ht : (t < n)%nat) by (unfold n in *; nia).
    destruct (Z.ltb_spec 8 bitsLeft) as [Hlt|Hge].
    + eexists. split; [done|]. exists t. split_and!; [done|done|lia|lia|lia|lia|]. apply (step_more bpv 8 us n bpv_pos ltac:(lia) bytes_range bytes_count w (Z.to_nat i)); [done|done|lia|done|lia|done].
    + rewrite (step_last bpv 8 us n bpv_pos ltac:(lia) bytes_range bytes_count (Z.to_nat i) _ _ _ t Hu) by (done || lia).
      rewrite (write_next _ _ _ _ (cv (value_of bpv 8 us n t)) t _ (eq_sym Hds)); [|apply list_lookup_fmap_Some; eexists; split; [done|by apply value_lookup]|done].
      rewrite go_bind_ret. replace (Z.of_nat (length vpre) + Z.of_nat t + 1) with (Z.of_nat (length vpre) + Z.of_nat (S t)) by lia.
      destruct (inner_spec m (Z.to_nat i) (to_byte x) (8 - bitsLeft) (S t) Hm Hu ltac:(lia) ltac:(lia) ltac:(lia)) as (t' & r & -> & Hr & Hr8 & He').
      rewrite go_bind_ret. eexists. split; [done|]. exists t'. split_and!; [done|done|lia|lia|lia|lia|].
      apply (step_rest bpv 8 us n bpv_pos ltac:(lia) bytes_range bytes_count w (Z.to_nat i)); [done|done|lia|done|done|]. destruct (decide (r = 0)) as [|]; [by right|left; unfold n in *; nia].
  - destruct s' as [[[[? ?] ?] values] ?]. destruct HI as (t & -> & _ & _ & Hl & He & _). rewrite go_bind_ret. f_equal.
    assert (t = n) as -> by (unfold n in *; nia). by apply written_end.
Qed.
End Bytes.
End Decode.

(** * Encoding *)

(** The conversions to [uint32] change nothing: what is left of a value fits into a byte. *)
Lemma narrow_shr k u s : 0 ≤ k → in_uint k u → 0 ≤ s → k - s ≤ 8 → to_uint32 (Z.shiftr u s) = Z.shiftr u s.
Proof.
  intros Hk Hu Hs Hle. apply bits_ext. intros j Hj. bits. destruct (Z.ltb_spec j 32); [done|].
  cbn [andb]. symmetry. apply (in_uint_testbit_high k); [lia|done|lia].
Qed.

Lemma narrow_shl w u s k : 32 ≤ w → in_uint k u → 0 ≤ k → 0 ≤ s → k + s ≤ 32 → to_uint32 (shl w u s) = shl w u s.
Proof.
  intros Hw Hu Hk Hs Hle. apply bits_ext. intros j Hj. bits. destruct (Z.ltb_spec j 32); [done|].
  cbn [andb]. rewrite (in_uint_testbit_high k u) by (done || lia). by rewrite andb_false_r.
Qed.

Section Encode.
Context {E : Type} (bpv : Z) (b : bulkOperationPacked) (HB : bulk_for bpv b).
Context (cv : Z → Z) (pre vs post bpre old bpost : list Z).

Let us := map cv vs.
Context (HU : Forall (in_uint bpv) us).

Section Longs.
Context (Hn : 64 * Z.of_nat (length old) = bpv * Z.of_nat (length vs)).

Let n := length old.
Let ds := digits 64 n (join bpv us).

Lemma words_count : 64 * Z.of_nat n = bpv * Z.of_nat (length us).
Proof using Hn. unfold us. by rewrite length_map. Qed.

Definition words_inv (i : Z) (st : Z * Z * list Z * Z * Z) : Prop :=
  let '(nextBlock, bitsLeft, blocks, blocksOffset, valuesOffset) := st in
  ∃ t : nat, blocks = written bpre (map to_int64 ds) old bpost t ∧ blocksOffset = Z.of_nat (length bpre) + Z.of_nat t ∧
    valuesOffset = Z.of_nat (length pre) + i ∧ 1 ≤ bitsLeft ≤ 64 ∧ bpv * i = 64 * (Z.of_nat t + 1) - bitsLeft ∧
    begun 64 bpv us n nextBlock bitsLeft t.

Lemma write_word t k : (t < n)%nat → k = Z.of_nat (length bpre) + Z.of_nat t →
  aset (E := E) (written bpre (map to_int64 ds) old bpost t) k (to_int64 (value_of 64 bpv us n t)) =
  Ret (written bpre (map to_int64 ds) old bpost (S t)).
Proof using.
  intros Ht ->. apply write_next; [unfold ds; by rewrite length_map, digits_length| |done].
  apply list_lookup_fmap_Some. eexists. split; [done|by apply value_lookup].
Qed.

Lemma encode_longs_spec iterations :
  Z.of_nat (length vs) = longValueCount b * iterations →
  encode_longs (E := E) cv b (pre ++ vs ++ post) (Z.of_nat (length pre)) (bpre ++ old ++ bpost) (Z.of_nat (length bpre)) iterations
  = Ret (bpre ++ map to_int64 ds ++ bpost).
Proof using HB HU Hn.
  intros Hvs. destruct HB as [Hbits [Hb1 Hb64] _ _ _ _]. unfold encode_longs. rewrite Hbits, <- Hvs, Nat2Z.id. pose proof words_count as HN.
  assert (Hds : length (map to_int64 ds) = n) by (unfold ds; by rewrite length_map, digits_length).
  match goal with |- context [go_for (length vs) 0 ?f ?st] => destruct (go_for_inv (E := E) words_inv (length vs) 0 f st) as (s' & -> & HI) end.
  - exists 0%nat. split_and!; [done|lia|lia|lia|lia|lia|apply begun_nothing].
  - intros i [[[[nextBlock bitsLeft] blocks] blocksOffset] valuesOffset] Hi (t & -> & -> & -> & Hl & He & Hb).
    destruct (lookup_lt_is_Some_2 vs (Z.to_nat i)) as [x Hx]; [lia|].
    assert (Hu : us !! Z.to_nat i = Some (cv x)) by (unfold us; apply list_lookup_fmap_Some; eauto).
    rewrite (aget_part _ _ _ _ _ _ Hx), go_bind_ret by lia. cbn zeta. assert (Ht : (t < n)%nat) by (unfold n in *; nia).
    destruct (Z.ltb_spec 0 (bitsLeft - bpv)) as [Hlt|Hge]; [|destruct (Z.eqb_spec (bitsLeft - bpv) 0) as [E0|E0]].
    + eexists. split; [done|]. exists t. split_and!; [done|done|lia|lia|lia|lia|].
      apply (step_more 64 bpv us n ltac:(lia) ltac:(lia) HU HN 64 (Z.to_nat i)); [done|done|lia|done|lia|done].
    + assert (Hv : Z.lor nextBlock (cv x) = value_of 64 bpv us n t).
      { rewrite <- (step_last 64 bpv us n ltac:(lia) ltac:(lia) HU HN (Z.to_nat i) (cv x) nextBlock bitsLeft t Hu ltac:(lia) ltac:(lia) Ht ltac:(lia) Hb).
        replace (bpv - bitsLeft) with 0 by lia. by rewrite Z.shiftr_0_r. }
      rewrite Hv, write_word, go_bind_ret by done. eexists. split; [done|]. exists (S t). split_and!; [done|lia|lia|lia|lia|lia|apply begun_nothing].
    + replace (- (bitsLeft - bpv)) with (bpv - bitsLeft) by lia.
      rewrite (step_last 64 bpv us n ltac:(lia) ltac:(lia) HU HN (Z.to_nat i) _ _ _ t Hu) by (done || lia).
      rewrite write_word, go_bind_ret by done. eexists. split; [done|]. exists (S t). split_and!; [done|lia|lia|lia|lia|lia|].
      replace (bitsLeft - bpv + 64) with (64 - (bpv - bitsLeft)) by lia. replace (64 + (bitsLeft - bpv)) with (64 - (bpv - bitsLeft)) by lia.
      apply (step_rest 64 bpv us n ltac:(lia) ltac:(lia) HU HN 64 (Z.to_nat i)); [done|done|lia|lia|lia|]. left. unfold n in *. nia.
  - destruct s' as [[[[? ?] blocks] ?] ?]. destruct HI as (t & -> & _ & _ & Hl & He & _). rewrite go_bind_ret. f_equal.
    assert (t = n) as -> by (unfold n in *; nia). by apply written_end.
Qed.
End Longs.

Section Bytes.
Context (w : Z) (Hw : bpv ≤ w) (Hw32 : 32 ≤ w).
Context (Hn : 8 * Z.of_nat (length old) = bpv * Z.of_nat (length vs)).

Let n := length old.
Let ds := digits 8 n (join bpv us).

Lemma octets_count : 8 * Z.of_nat n = bpv * Z.of_nat (length us).
Proof using Hn. unfold us. by rewrite length_map. Qed.

Definition octets_inv (i : Z) (st : Z * Z * list Z * Z * Z) : Prop :=
  let '(nextBlock, bitsLeft, blocks, blocksOffset, valuesOffset) := st in
  ∃ t : nat, blocks = written bpre ds old bpost t ∧ blocksOffset = Z.of_nat (length bpre) + Z.of_nat t ∧
    valuesOffset = Z.of_nat (length pre) + i ∧ 1 ≤ bitsLeft ≤ 8 ∧ bpv * i = 8 * (Z.of_nat t + 1) - bitsLeft ∧
    begun 8 bpv us n nextBlock bitsLeft t.

Lemma octet_range t : in_uint 8 (value_of 8 bpv us n t).
Proof using. apply field_range. lia. Qed.

Lemma write_octet t k : (t < n)%nat → k = Z.of_nat (length bpre) + Z.of_nat t →
  aset (E := E) (written bpre ds old bpost t) k (value_of 8 bpv us n t) = Ret (written bpre ds old bpost (S t)).
Proof using.
  intros Ht ->. apply write_next; [unfold ds; by rewrite digits_length| |done]. by apply value_lookup.
Qed.

Lemma inner_octets c u bitsRem t :
  us !! c = Some u → (c < length vs)%nat → 0 ≤ bitsRem < 64 → bitsRem < bpv → bpv * (Z.of_nat c + 1) = 8 * Z.of_nat t + bitsRem →
  ∃ t' bitsRem', go_while (E := E) 8 (fun '(bitsRem, _, _) => 8 <=? bitsRem)
      (fun '(bitsRem, blocks, blocksOffset) =>
        blocks ← aset blocks blocksOffset (to_byte (Z.shiftr u (bitsRem - 8)));
        mret (bitsRem - 8, blocks, blocksOffset + 1))
      (bitsRem, written bpre ds old bpost t, Z.of_nat (length bpre) + Z.of_nat t) =
    Ret (bitsRem', written bpre ds old bpost t', Z.of_nat (length bpre) + Z.of_nat t') ∧
    0 ≤ bitsRem' < 8 ∧ bitsRem' < bpv ∧ bpv * (Z.of_nat c + 1) = 8 * Z.of_nat t' + bitsRem'.
Proof using HB HU Hn Hw Hw32.
  intros Hu Hc Hr Hr' He. destruct HB as [_ [Hb1 Hb64] _ _ _ _].
  edestruct (go_while_inv (E := E) (fun '(bitsRem, blocks, blocksOffset) => ∃ t : nat, blocks = written bpre ds old bpost t ∧
      blocksOffset = Z.of_nat (length bpre) + Z.of_nat t ∧ 0 ≤ bitsRem < 64 ∧ bitsRem < bpv ∧ bpv * (Z.of_nat c + 1) = 8 * Z.of_nat t + bitsRem)
      (fun '(bitsRem, _, _) => Z.shiftr bitsRem 3)) as ([[r blocks] bo] & EW & (t' & -> & -> & Hr1 & Hr2 & He') & Hend); [| |
    |rewrite EW; apply Z.leb_gt in Hend; exists t', r; split; [done|]; lia].
  - exists t. split_and!; [done|done|lia|lia|done|done].
  - cbn beta iota. rewrite (Z.shiftr_div_pow2 _ 3) by lia. change (2 ^ 3) with 8. Z.to_euclidean_division_equations. lia.
  - intros [[r blocks] bo] (t1 & -> & -> & Hr1 & Hr2 & He1) Hle%Z.leb_le. rewrite !(Z.shiftr_div_pow2 _ 3) by lia. change (2 ^ 3) with 8.
    split; [Z.to_euclidean_division_equations; lia|]. assert (Ht1 : (t1 < n)%nat) by (unfold n in *; nia).
    assert (Hv : to_byte (Z.shiftr u (r - 8)) = value_of 8 bpv us n t1).
    { rewrite <- (value_within 8 bpv us n ltac:(lia) ltac:(lia) HU octets_count t1 c u (r - 8) Hu) by lia.
      change (2 ^ 8 - 1) with (Z.ones 8). by rewrite Z.land_ones by lia. }
    rewrite Hv, write_octet by done. eexists. split; [done|].
    cbn beta iota. rewrite !(Z.shiftr_div_pow2 _ 3) by lia. change (2 ^ 3) with 8. split; [|Z.to_euclidean_division_equations; lia]. exists (S t1). split_and!; [done|lia|lia|lia|lia|lia].
Qed.

Lemma encode_bytes_spec iterations :
  Z.of_nat (length vs) = byteValueCount b * iterations →
  encode_bytes (E := E) w cv b (pre ++ vs ++ post) (Z.of_nat (length pre)) (bpre ++ old ++ bpost) (Z.of_nat (length bpre)) iterations
  = Ret (bpre ++ ds ++ bpost).
Proof using HB HU Hn Hw Hw32.
  intros Hvs. pose proof HB as [Hbits [Hb1 Hb64] _ _ _ _]. unfold encode_bytes. rewrite Hbits, <- Hvs, Nat2Z.id. pose proof octets_count as HN.
  assert (Hds : length ds = n) by (unfold ds; by rewrite digits_length).
  match goal with |- context [go_for (length vs) 0 ?f ?st] => destruct (go_for_inv (E := E) octets_inv (length vs) 0 f st) as (s' & -> & HI) end.
  - exists 0%nat. split_and!; [done|lia|lia|lia|lia|lia|apply begun_nothing].
  - intros i [[[[nextBlock bitsLeft] blocks] blocksOffset] valuesOffset] Hi (t & -> & -> & -> & Hl & He & Hb).
    destruct (lookup_lt_is_Some_2 vs (Z.to_nat i)) as [x Hx]; [lia|].
    assert (Hu : us !! Z.to_nat i = Some (cv x)) by (unfold us; apply list_lookup_fmap_Some; eauto).
    assert (Hr : in_uint bpv (cv x)) by (by eapply Forall_lookup_1 in HU; [exact HU|exact Hu]).
    rewrite (aget_part _ _ _ _ _ _ Hx), go_bind_ret by lia. cbn zeta. assert (Ht : (t < n)%nat) by (unfold n in *; nia).
    destruct (Z.ltb_spec bpv bitsLeft) as [Hlt|Hge].
    + eexists. split; [done|]. exists t. split_and!; [done|done|lia|lia|lia|lia|].
      rewrite (narrow_shl w _ _ bpv) by (done || lia).
      apply (step_more 8 bpv us n ltac:(lia) ltac:(lia) HU HN w (Z.to_nat i)); [lia|done|lia|done|lia|done].
    + rewrite (narrow_shr bpv) by (done || lia).
      rewrite (step_last 8 bpv us n ltac:(lia) ltac:(lia) HU HN (Z.to_nat i) _ _ _ t Hu) by (done || lia).
      rewrite (uwrap_id 8 (value_of _ _ _ _ _)) by apply octet_range. rewrite write_octet, go_bind_ret by done.
      replace (Z.of_nat (length bpre) + Z.of_nat t + 1) with (Z.of_nat (length bpre) + Z.of_nat (S t)) by lia.
      destruct (inner_octets (Z.to_nat i) (cv x) (bpv - bitsLeft) (S t) Hu ltac:(lia) ltac:(lia) ltac:(lia) ltac:(lia)) as (t' & r & -> & Hr8 & Hrb & He').
      rewrite go_bind_ret. eexists. split; [done|]. exists t'. split_and!; [done|done|lia|lia|lia|lia|].
      rewrite (narrow_shl w _ _ r); [|done|rewrite low_ones by lia|lia|lia|lia].
      * apply (step_rest 8 bpv us n ltac:(lia) ltac:(lia) HU HN w (Z.to_nat i)); [lia|done|lia|done|lia|].
        destruct (decide (r = 0)) as [|]; [by right|left; unfold n in *; nia].
      * replace (2 ^ r - 1) with (Z.ones r) by (rewrite Z.ones_equiv; lia). rewrite Z.land_ones by lia. apply uwrap_range. lia.
  - destruct s' as [[[[? ?] blocks] ?] ?]. destruct HI as (t & -> & _ & _ & Hl & He & _). rewrite go_bind_ret. f_equal.
    assert (t = n) as -> by (unfold n in *; nia). by apply written_end.
Qed.
End Bytes.
End Encode.

(** * Operations as maps from blocks to blocks

    [moves op xs ys n]: wherever [xs] lies in the first slice, [n] iterations of [op] put [ys] in
    the place of as many elements of the second one, and touch nothing else. *)
Definition moves {E} (op : list Z → Z → list Z → Z → Z → go E (list Z)) (xs ys : list Z) (iterations : Z) : Prop :=
  ∀ pre post ypre old ypost, length old = length ys →
    op (pre ++ xs ++ post) (Z.of_nat (length pre)) (ypre ++ old ++ ypost) (Z.of_nat (length ypre)) iterations =
    Ret (ypre ++ ys ++ ypost).

(** The values in a row of [k]-bit blocks. *)
Definition unpacked (cv : Z → Z) (bpv k : Z) (n : nat) (xs : list Z) : list Z :=
  map cv (digits bpv n (join k (map (uwrap k) xs))).

Section Moves.
Context {E : Type} (bpv : Z) (b : bulkOperationPacked) (HB : bulk_for bpv b).

Lemma unpacked_length cv k n xs : length (unpacked cv bpv k n xs) = n.
Proof using. unfold unpacked. by rewrite length_map, digits_length. Qed.

Lemma longs_fit (xs : list Z) it n : 0 ≤ it → Z.of_nat (length xs) = longBlockCount b * it → n = Z.to_nat (longValueCount b * it) →
  bpv * Z.of_nat n = 64 * Z.of_nat (length xs).
Proof using HB. intros Hit Hl ->. destruct HB as [_ _ _ _ (? & ? & ?) _]. nia. Qed.

Lemma bytes_fit (xs : list Z) it n : 0 ≤ it → Z.of_nat (length xs) = byteBlockCount b * it → n = Z.to_nat (byteValueCount b * it) →
  bpv * Z.of_nat n = 8 * Z.of_nat (length xs).
Proof using HB. intros Hit Hl ->. destruct HB as [_ _ _ _ _ (? & ? & ?)]. nia. Qed.

Lemma decode_longs_moves cv xs it :
  0 ≤ it → Z.of_nat (length xs) = longBlockCount b * it →
  moves (decode_longs (E := E) cv b) xs (unpacked cv bpv 64 (Z.to_nat (longValueCount b * it)) xs) it.
Proof using HB.
  intros Hit Hl pre post ypre old ypost Ho. rewrite unpacked_length in Ho.
  rewrite (decode_longs_spec bpv b HB cv pre xs post ypre old ypost) by (done || by eapply longs_fit). by rewrite Ho.
Qed.

Lemma decode_bytes_moves w m cv xs it :
  bpv ≤ w → 32 ≤ w → m = 2 ^ bpv - 1 → 0 ≤ it → Z.of_nat (length xs) = byteBlockCount b * it →
  moves (decode_bytes (E := E) w m cv b) xs (unpacked cv bpv 8 (Z.to_nat (byteValueCount b * it)) xs) it.
Proof using HB.
  intros Hw Hw32 Hm Hit Hl pre post ypre old ypost Ho. rewrite unpacked_length in Ho.
  rewrite (decode_bytes_spec bpv b HB w Hw Hw32 cv pre xs post ypre old ypost) by (done || by eapply bytes_fit). by rewrite Ho.
Qed.

Lemma DecodeLongs_moves xs it :
  0 ≤ it → Z.of_nat (length xs) = longBlockCount b * it →
  moves (DecodeLongs (E := E) b) xs (unpacked to_int64 bpv 64 (Z.to_nat (longValueCount b * it)) xs) it.
Proof using HB. apply decode_longs_moves. Qed.

Lemma DecodeLongsToInts_moves xs it :
  bpv ≤ 32 → 0 ≤ it → Z.of_nat (length xs) = longBlockCount b * it →
  moves (DecodeLongsToInts (E := E) b) xs (unpacked to_int32 bpv 64 (Z.to_nat (longValueCount b * it)) xs) it.
Proof using HB.
  intros H32 Hit Hl pre post ypre old ypost Ho. unfold DecodeLongsToInts. rewrite (bf_bits _ _ HB), (proj2 (Z.ltb_ge _ _)) by done.
  by apply decode_longs_moves.
Qed.

Lemma DecodeBytes_moves xs it :
  0 ≤ it → Z.of_nat (length xs) = byteBlockCount b * it →
  moves (DecodeBytes (E := E) b) xs (unpacked to_int64 bpv 8 (Z.to_nat (byteValueCount b * it)) xs) it.
Proof using HB. intros. destruct (bf_width _ _ HB). apply decode_bytes_moves; [lia|lia|apply (bf_mask _ _ HB)|done|done]. Qed.

Lemma DecodeBytesToInts_moves xs it :
  bpv ≤ 32 → 0 ≤ it → Z.of_nat (length xs) = byteBlockCount b * it →
  moves (DecodeBytesToInts (E := E) b) xs (unpacked to_int32 bpv 8 (Z.to_nat (byteValueCount b * it)) xs) it.
Proof using HB.
  intros H32 Hit Hl pre post ypre old ypost Ho. unfold DecodeBytesToInts. rewrite (bf_bits _ _ HB), (proj2 (Z.ltb_ge _ _)) by done.
  apply decode_bytes_moves; [lia|lia|by apply (bf_intMask _ _ HB)|done..].
Qed.

Lemma encode_longs_moves cv vs it :
  0 ≤ it → Forall (in_uint bpv) (map cv vs) → Z.of_nat (length vs) = longValueCount b * it →
  moves (encode_longs (E := E) cv b) vs (map to_int64 (digits 64 (Z.to_nat (longBlockCount b * it)) (join bpv (map cv vs)))) it.
Proof using HB.
  intros Hit HU Hl pre post ypre old ypost Ho. rewrite length_map, digits_length in Ho. destruct (bf_longs _ _ HB) as (? & ? & ?).
  rewrite (encode_longs_spec bpv b HB cv pre vs post ypre old ypost HU) by (done || nia). by rewrite Ho.
Qed.

Lemma encode_bytes_moves w cv vs it :
  bpv ≤ w → 32 ≤ w → 0 ≤ it → Forall (in_uint bpv) (map cv vs) → Z.of_nat (length vs) = byteValueCount b * it →
  moves (encode_bytes (E := E) w cv b) vs (digits 8 (Z.to_nat (byteBlockCount b * it)) (join bpv (map cv vs))) it.
Proof using HB.
  intros Hw Hw32 Hit HU Hl pre post ypre old ypost Ho. rewrite digits_length in Ho. destruct (bf_bytes _ _ HB) as (? & ? & ?).
  rewrite (encode_bytes_spec bpv b HB cv pre vs post ypre old ypost HU w Hw Hw32) by (done || nia). by rewrite Ho.
Qed.
End Moves.

(** ** Round trips *)

(** Digits of another width and back. *)
Lemma rebase d k n m l : 0 < d → 0 < k → Forall (in_uint d) l → length l = n → d * Z.of_nat n = k * Z.of_nat m →
  digits d n (join k (digits k m (join d l))) = l.
Proof.
  intros Hd Hk HF Hl Hn. rewrite (join_digits k Hk), <- Hn, digits_mod by lia. rewrite <- Hl. by apply digits_join.
Qed.

(** A value of [bpv] bits, as an [int64] or an [int32]. *)
Definition fits (w bpv v : Z) : Prop := in_sint w v ∧ in_uint bpv (uwrap w v).

Lemma map_back w bpv vs : 0 < w → Forall (fits w bpv) vs → map (swrap w) (map (uwrap w) vs) = vs.
Proof.
  intros Hw. induction 1 as [|v vs [Hv _] _ IH]; [done|]. cbn [map]. rewrite IH. f_equal. by rewrite swrap_uwrap, swrap_id.
Qed.

Lemma fits_range w bpv vs : Forall (fits w bpv) vs → Forall (in_uint bpv) (map (uwrap w) vs).
Proof. intros H. apply Forall_fmap. eapply Forall_impl; [exact H|]. by intros v [_ ?]. Qed.

Lemma map_uwrap_swrap w l : 0 < w → Forall (in_uint w) l → map (uwrap w) (map (swrap w) l) = l.
Proof. intros Hw. induction 1 as [|x l Hx _ IH]; [done|]. cbn [map]. rewrite IH. f_equal. by rewrite uwrap_swrap, uwrap_id. Qed.

Lemma map_uwrap_id w l : Forall (in_uint w) l → map (uwrap w) l = l.
Proof. induction 1 as [|x l Hx _ IH]; [done|]. cbn [map]. rewrite IH. f_equal. by apply uwrap_id. Qed.

Lemma new_bulk_for {E} bpv b : newBulkOperationPacked (E := E) bpv = Ret b → bulk_for bpv b.
Proof.
  intros Hb. assert (Hr : 1 ≤ bpv ≤ 64).
  { unfold newBulkOperationPacked in Hb. destruct (Z.ltb_spec bpv 1), (Z.ltb_spec 64 bpv); try discriminate; lia. }
  destruct (newBulkOperationPacked_spec (E := E) bpv Hr) as (b' & Hb' & HB). rewrite Hb in Hb'. by injection Hb' as ->.
Qed.

Section RoundTrip.
Context {E : Type} (bpv : Z) (b : bulkOperationPacked) (HB : bulk_for bpv b).

(** Both ways through words, and both ways through bytes; [w] is the width of a value. *)
Lemma longs_roundtrip w (Hw : 0 < w) (cv : Z → Z) vs it :
  map cv vs = map (uwrap w) vs → Forall (fits w bpv) vs → 0 ≤ it → Z.of_nat (length vs) = longValueCount b * it →
  ∃ ws, Z.of_nat (length ws) = longBlockCount b * it ∧
    map to_uint64 ws = digits 64 (Z.to_nat (longBlockCount b * it)) (join bpv (map (uwrap w) vs)) ∧
    moves (encode_longs (E := E) cv b) vs ws it ∧ moves (decode_longs (E := E) (swrap w) b) ws vs it.
Proof using HB.
  intros Hcv HF Hit Hl. destruct (bf_width _ _ HB), (bf_longs _ _ HB) as (? & ? & ?). pose proof (fits_range w bpv vs HF) as HU.
  set (m := Z.to_nat (longBlockCount b * it)). set (B := join bpv (map (uwrap w) vs)).
  assert (Hws : map to_uint64 (map to_int64 (digits 64 m B)) = digits 64 m B) by (apply map_uwrap_swrap; [lia|apply digits_in_range; lia]).
  exists (map to_int64 (digits 64 m B)). split_and!; [rewrite length_map, digits_length; lia|done| |].
  - pose proof (encode_longs_moves (E := E) bpv b HB cv vs it Hit) as H'. rewrite Hcv in H'. by apply H'.
  - assert (Hlen : Z.of_nat (length (map to_int64 (digits 64 m B))) = longBlockCount b * it) by (rewrite length_map, digits_length; lia).
    pose proof (decode_longs_moves (E := E) bpv b HB (swrap w) _ it Hit Hlen) as H'. unfold unpacked in H'. rewrite Hws in H'.
    unfold B in H'. rewrite (rebase bpv 64) in H'; [by rewrite (map_back _ bpv) in H'|lia|lia|done|rewrite length_map; lia|nia].
Qed.

Lemma bytes_roundtrip w w' (Hw : bpv ≤ w) (Hw32 : 32 ≤ w) (cv : Z → Z) m vs it :
  0 < w' → map cv vs = map (uwrap w') vs → m = 2 ^ bpv - 1 → Forall (fits w' bpv) vs → 0 ≤ it → Z.of_nat (length vs) = byteValueCount b * it →
  let bs := digits 8 (Z.to_nat (byteBlockCount b * it)) (join bpv (map (uwrap w') vs)) in
  moves (encode_bytes (E := E) w cv b) vs bs it ∧ moves (decode_bytes (E := E) w m (swrap w') b) bs vs it.
Proof using HB.
  intros Hw' Hcv Hm HF Hit Hl bs. destruct (bf_width _ _ HB), (bf_bytes _ _ HB) as (? & ? & ?). pose proof (fits_range w' bpv vs HF) as HU. split.
  - pose proof (encode_bytes_moves (E := E) bpv b HB w cv vs it Hw Hw32 Hit) as H'. rewrite Hcv in H'. by apply H'.
  - assert (Hlen : Z.of_nat (length bs) = byteBlockCount b * it) by (unfold bs; rewrite digits_length; lia).
    pose proof (decode_bytes_moves (E := E) bpv b HB w m (swrap w') _ it Hw Hw32 Hm Hit Hlen) as H'. unfold unpacked in H'.
    rewrite map_uwrap_id in H' by (apply digits_in_range; lia). unfold bs in *.
    rewrite (rebase bpv 8) in H'; [by rewrite (map_back _ bpv) in H'|lia|lia|done|rewrite length_map; lia|nia].
Qed.
(** The bytes are the words in big-endian order. *)
Lemma bytes_of_words us ws it itb :
  Z.of_nat (length us) = longValueCount b * it → Z.of_nat (length us) = byteValueCount b * itb →
  Z.of_nat (length ws) = longBlockCount b * it →
  map to_uint64 ws = digits 64 (Z.to_nat (longBlockCount b * it)) (join bpv us) →
  digits 8 (Z.to_nat (byteBlockCount b * itb)) (join bpv us) = digits 8 (8 * length ws) (join 64 (map to_uint64 ws)).
Proof using HB.
  intros Hl Hlb Hws Ew. destruct (bf_width _ _ HB), (bf_longs _ _ HB) as (? & ? & ?), (bf_bytes _ _ HB) as (? & ? & ?).
  assert (HM : (8 * length ws)%nat = Z.to_nat (byteBlockCount b * itb)) by nia. rewrite Ew, HM.
  rewrite (join_digits 64) by lia. by rewrite digits_mod by (lia || nia).
Qed.

(** What [vs] are packed into and unpacked from: [it] blocks of words, [itb] blocks of bytes. *)
Definition packed_as (EncodeToLongs DecodeFromLongs EncodeToBytes DecodeFromBytes :
    list Z → Z → list Z → Z → Z → go E (list Z)) (vs : list Z) (it itb : Z) : Prop :=
  ∃ ws bs : list Z,
    Z.of_nat (length ws) = longBlockCount b * it ∧ Z.of_nat (length bs) = byteBlockCount b * itb ∧
    bs = digits 8 (8 * length ws) (join 64 (map to_uint64 ws)) ∧
    moves EncodeToLongs vs ws it ∧ moves DecodeFromLongs ws vs it ∧
    moves EncodeToBytes vs bs itb ∧ moves DecodeFromBytes bs vs itb.

Lemma pack_longs vs it itb :
  Forall (fits 64 bpv) vs → 0 ≤ it → 0 ≤ itb →
  Z.of_nat (length vs) = longValueCount b * it → Z.of_nat (length vs) = byteValueCount b * itb →
  packed_as (EncodeLongsToLongs b) (DecodeLongs b) (EncodeLongsToBytes b) (DecodeBytes b) vs it itb.
Proof using HB.
  intros HF Hit Hitb Hl Hlb. destruct (bf_width _ _ HB), (bf_bytes _ _ HB) as (? & ? & ?).
  destruct (longs_roundtrip 64 ltac:(lia) to_uint64 vs it eq_refl HF Hit Hl) as (ws & Hws & Ew & HE & HD).
  destruct (bytes_roundtrip 64 64 ltac:(lia) ltac:(lia) to_uint64 (mask b) vs itb ltac:(lia) eq_refl (bf_mask _ _ HB) HF Hitb Hlb)
    as [HEb HDb].
  exists ws, (digits 8 (Z.to_nat (byteBlockCount b * itb)) (join bpv (map to_uint64 vs))).
  split_and!; [done|rewrite digits_length; lia| |done..]. by apply bytes_of_words with it; rewrite ?length_map.
Qed.

Lemma pack_ints vs it itb :
  bpv ≤ 32 → Forall (fits 32 bpv) vs → 0 ≤ it → 0 ≤ itb →
  Z.of_nat (length vs) = longValueCount b * it → Z.of_nat (length vs) = byteValueCount b * itb →
  packed_as (EncodeIntsToLongs b) (DecodeLongsToInts b) (EncodeIntsToBytes b) (DecodeBytesToInts b) vs it itb.
Proof using HB.
  intros H32 HF Hit Hitb Hl Hlb. destruct (bf_width _ _ HB), (bf_bytes _ _ HB) as (? & ? & ?).
  assert (Hcv : map (fun v => to_uint64 (to_uint32 v)) vs = map to_uint32 vs).
  { apply map_ext. intros v. apply uwrap_id. pose proof (uwrap_range 32 v ltac:(lia)) as [? ?]. split; [done|].
    apply Z.lt_trans with (2 ^ 32); [done|]. by apply Z.ltb_lt. }
  destruct (longs_roundtrip 32 ltac:(lia) _ vs it Hcv HF Hit Hl) as (ws & Hws & Ew & HE & HD).
  destruct (bytes_roundtrip 32 32 H32 ltac:(lia) to_uint32 (intMask b) vs itb ltac:(lia) eq_refl (bf_intMask _ _ HB H32) HF Hitb Hlb)
    as [HEb HDb].
  exists ws, (digits 8 (Z.to_nat (byteBlockCount b * itb)) (join bpv (map to_uint32 vs))).
  unfold DecodeLongsToInts, DecodeBytesToInts. split_and!; [done|rewrite digits_length; lia| |exact HE| |exact HEb|].
  - by apply bytes_of_words with it; rewrite ?length_map.
  - intros pre post ypre old ypost Ho. rewrite (bf_bits _ _ HB), (proj2 (Z.ltb_ge _ _)) by done. by apply HD.
  - intros pre post ypre old ypost Ho. rewrite (bf_bits _ _ HB), (proj2 (Z.ltb_ge _ _)) by done. by apply HDb.
Qed.
End RoundTrip.

(** C11. Packing loses nothing, at every width from 1 to 64 bits and for any number of blocks: what
    [EncodeLongsToLongs] and [EncodeLongsToBytes] write of values of at most that many bits, at any
    place of a slice, [DecodeLongs] and [DecodeBytes] read back, and up to 32 bits the operations on
    [int32] values ([EncodeIntsToLongs], [EncodeIntsToBytes], [DecodeLongsToInts],
    [DecodeBytesToInts]) do the same; the bytes are the words in big-endian order.  Above 32 bits the
    decoders to [int32] panic. *)
Theorem bulk_roundtrip {E} (bpv : Z) (b : bulkOperationPacked) (vs : list Z) (it itb : Z)
    (Hb : newBulkOperationPacked (E := E) bpv = Ret b) (Hit : 0 ≤ it) (Hitb : 0 ≤ itb)
    (Hl : Z.of_nat (length vs) = longValueCount b * it) (Hlb : Z.of_nat (length vs) = byteValueCount b * itb) :
  (Forall (fits 64 bpv) vs → packed_as (E := E) b
    (EncodeLongsToLongs b) (DecodeLongs b) (EncodeLongsToBytes b) (DecodeBytes b) vs it itb) ∧
  (bpv ≤ 32 → Forall (fits 32 bpv) vs → packed_as (E := E) b
    (EncodeIntsToLongs b) (DecodeLongsToInts b) (EncodeIntsToBytes b) (DecodeBytesToInts b) vs it itb) ∧
  (32 < bpv → ∀ blocks i values j n,
    DecodeLongsToInts (E := E) b blocks i values j n = Panic ∧ DecodeBytesToInts (E := E) b blocks i values j n = Panic).
Proof.
  apply new_bulk_for in Hb as HB. split_and!.
  - intros HF. by apply (pack_longs bpv b HB).
  - intros H32 HF. by apply (pack_ints bpv b HB).
  - intros H32 *. unfold DecodeLongsToInts, DecodeBytesToInts. by rewrite (bf_bits _ _ HB), (proj2 (Z.ltb_lt _ _)).
Qed.

Lemma bulk_roundtrip_witness :
  ∃ b, newBulkOperationPacked (E := unit) 12 = Ret b ∧
    packed_as (E := unit) b (EncodeLongsToLongs b) (DecodeLongs b) (EncodeLongsToBytes b) (DecodeBytes b) (seqZ 4080 16) 1 8 ∧
    packed_as (E := unit) b (EncodeIntsToLongs b) (DecodeLongsToInts b) (EncodeIntsToBytes b) (DecodeBytesToInts b) (seqZ 4080 16) 1 8.
Proof.
  destruct (newBulkOperationPacked (E := unit) 12) as [b| | |] eqn:Eb; try (vm_compute in Eb; discriminate).
  pose proof Eb as Eb'. vm_compute in Eb'. injection Eb' as Eb'.
  assert (HF : ∀ w, 16 ≤ w → Forall (fits w 12) (seqZ 4080 16)).
  { intros w Hw. apply Forall_forall. intros v Hv%elem_of_seqZ.
    assert (2 ^ 15 ≤ 2 ^ (w - 1)) by (apply Z.pow_le_mono_r; lia).
    assert (2 ^ 16 ≤ 2 ^ w) by (apply Z.pow_le_mono_r; lia).
    unfold fits, in_sint, in_uint, uwrap. rewrite Z.mod_small by lia. lia. }
  destruct (bulk_roundtrip 12 b (seqZ 4080 16) 1 8 Eb ltac:(lia) ltac:(lia) ltac:(rewrite <- Eb'; reflexivity) ltac:(rewrite <- Eb'; reflexivity))
    as (H1 & H2 & _).
  exists b. split; [reflexivity|]. split; [apply H1, HF; lia|apply H2; [lia|apply HF; lia]].
Defined.
