(* ===== verification/UnrolledCode.v ===== *)
(** Straight-line decoders, and how their code is checked.

    The unrolled decoders of [util/packed/bulk_operation_packed1.go] to
    [bulk_operation_packed24.go] read blocks one after the other, and write values that
    are made of the blocks by shifts, masks and [|].  Such code is a value of the monad
    [code]; it is written once for any type of words, and then run on integers of some
    width, or on expressions.  The latter makes it data, and [check] decides that every
    bit of every value comes from where it lies in the blocks ([decode_moves]). *)

From stdpp Require Import base tactics numbers list.
From Stdlib Require Import ZArith Lia.
From S2P Require Import Prelude Digits BulkOperation.

Local Open Scope Z_scope.

(** * Code *)

(** The operations of [uint64] and [uint32] that the decoders use; a mask is a literal. *)
Class Word (W : Type) := {
  wshr : W → Z → W;
  wshl : W → Z → W;
  wmask : W → Z → W;
  wor : W → W → W
}.

Declare Scope unrolled_scope.
Delimit Scope unrolled_scope with unrolled.
Notation "x '.>>' n" := (wshr x n%Z) (at level 30, no associativity) : unrolled_scope.
Notation "x '.<<' n" := (wshl x n%Z) (at level 30, no associativity) : unrolled_scope.
Notation "x '.&' m" := (wmask x m%Z) (at level 35, no associativity) : unrolled_scope.
Notation "x '.|' y" := (wor x y) (at level 40, left associativity) : unrolled_scope.

Inductive code (W A : Type) : Type :=
  | Done (a : A)
  | Load (k : W → code W A)
  | Put (v : W) (c : code W A).
Arguments Done {W A} a.
Arguments Load {W A} k.
Arguments Put {W A} v c.

#[export] Instance code_ret W : MRet (code W) := @Done W.
#[export] Instance code_bind W : MBind (code W) := λ A B f,
  fix bind c := match c with
    | Done a => f a
    | Load k => Load (λ x, bind (k x))
    | Put v c => Put v (bind c)
    end.

(** [x := uint(blocks[blocksOffset]); blocksOffset++] *)
Definition next {W} : code W W := Load Done.
(** [x := uint(blocks[blocksOffset]) & 0xFF; blocksOffset++] *)
Definition next_byte `{Word W} : code W W := x ← next; mret (wmask x 0xFF).
(** [values[valuesOffset] = int(v); valuesOffset++] *)
Definition put {W} (v : W) : code W unit := Put v (Done tt).

(** [for shift := shift; shift >= 0; shift -= d { body }]; a word has at most 64 shifts. *)
Fixpoint for_down {W} (n : nat) (shift d : Z) (body : Z → code W unit) : code W unit :=
  match n with
  | O => mret tt
  | S n => if 0 <=? shift then body shift ;; for_down n (shift - d) d body else mret tt
  end.

(** ** Running it *)

(** Unsigned integers of width [w]. *)
Definition width (w : Z) : Word Z :=
  {| wshr := Z.shiftr; wshl := shl w; wmask := Z.land; wor := Z.lor |}.

Fixpoint run {E A} (load cv : Z → Z) (c : code Z A) (blocks : list Z) (blocksOffset : Z) (values : list Z) (valuesOffset : Z)
    : go E (A * Z * list Z * Z) :=
  match c with
  | Done a => Ret (a, blocksOffset, values, valuesOffset)
  | Load k => x ← aget blocks blocksOffset; run load cv (k (load x)) blocks (blocksOffset + 1) values valuesOffset
  | Put v c => values ← aset values valuesOffset (cv v); run load cv c blocks blocksOffset values (valuesOffset + 1)
  end.

(** The code of one iteration, for any type of words. *)
Definition body : Type := ∀ W, Word W → code W unit.

(** [for i := 0; i < iterations; i++ { body }], with words of width [w] and values converted by [cv]. *)
Definition unrolled {E} (w : Z) (cv : Z → Z) (p : body) (blocks : list Z) (blocksOffset : Z)
    (values : list Z) (valuesOffset iterations : Z) : go E (list Z) :=
  '(_, values, _) ← go_for (Z.to_nat iterations) 0
    (fun _ '(blocksOffset, values, valuesOffset) =>
      '(_, blocksOffset, values, valuesOffset) ← run (uwrap w) cv (p Z (width w)) blocks blocksOffset values valuesOffset;
      mret (blocksOffset, values, valuesOffset))
    (blocksOffset, values, valuesOffset);
  mret values.

(** * Code as data *)

(** [Var q] is the block that was loaded after [q] others. *)
Inductive expr :=
  | Var (q : nat)
  | Shr (e : expr) (n : Z)
  | Shl (e : expr) (n : Z)
  | Mask (e : expr) (m : Z)
  | Or (e1 e2 : expr).

Definition expressions : Word expr := {| wshr := Shr; wshl := Shl; wmask := Mask; wor := Or |}.

Inductive rcode :=
  | RDone
  | RLoad (c : rcode)
  | RPut (e : expr) (c : rcode).

Fixpoint reify {A} (c : code expr A) (loads : nat) : rcode :=
  match c with
  | Done _ => RDone
  | Load k => RLoad (reify (k (Var loads)) (S loads))
  | Put e c => RPut e (reify c loads)
  end.

Definition reified (p : body) : rcode := reify (p expr expressions) 0.

Section Denote.
Context {W : Type} {HW : Word W} (dflt : W).

Fixpoint eval (env : list W) (e : expr) : W :=
  match e with
  | Var q => nth q env dflt
  | Shr e n => wshr (eval env e) n
  | Shl e n => wshl (eval env e) n
  | Mask e m => wmask (eval env e) m
  | Or e1 e2 => wor (eval env e1) (eval env e2)
  end.

Fixpoint denote (c : rcode) (env : list W) : code W unit :=
  match c with
  | RDone => Done tt
  | RLoad c => Load (λ x, denote c (env ++ [x]))
  | RPut e c => Put (eval env e) (denote c env)
  end.
End Denote.

(** The data stands for the code. *)
Definition uniform (p : body) : Prop := ∀ W (HW : Word W) (dflt : W), denote dflt (reified p) [] = p W HW.

(** ** Bits *)

Inductive sbit := Zero | Src (q : nat) (r : Z) | Bad.
#[export] Instance sbit_eq_dec : EqDecision sbit.
Proof. solve_decision. Defined.

Definition sbit_or (a b : sbit) : sbit :=
  match a, b with Zero, b => b | a, Zero => a | _, _ => Bad end.

Fixpoint sym (w : Z) (e : expr) (j : Z) : sbit :=
  if j <? 0 then Zero else
  match e with
  | Var q => if j <? w then Src q j else Zero
  | Shr e n => sym w e (j + n)
  | Shl e n => if j <? w then sym w e (j - n) else Zero
  | Mask e m => if Z.testbit m j then sym w e j else Zero
  | Or e1 e2 => sbit_or (sym w e1 j) (sym w e2 j)
  end.

Definition sbit_val (env : list Z) (s : sbit) : bool :=
  match s with Src q r => Z.testbit (nth q env 0) r | _ => false end.

Lemma var_high w env q j : 0 ≤ w ≤ j → Forall (in_uint w) env → Z.testbit (nth q env 0) j = false.
Proof.
  intros Hw HE. apply (in_uint_testbit_high w); [lia| |lia].
  destruct (nth_in_or_default q env 0) as [Hin| ->]; [|unfold in_uint; pose proof (pow2_pos w ltac:(lia)); lia].
  rewrite Forall_forall in HE. apply HE. by apply list_elem_of_In.
Qed.

(** Words do not outgrow their width, as no shift to the right is negative. *)
Fixpoint well_shifted (e : expr) : bool :=
  match e with
  | Var _ => true
  | Shr e n => (0 <=? n) && well_shifted e
  | Shl e _ | Mask e _ => well_shifted e
  | Or e1 e2 => well_shifted e1 && well_shifted e2
  end.

Lemma eval_high w env e j :
  0 ≤ w ≤ j → Forall (in_uint w) env → well_shifted e = true → Z.testbit (eval (HW := width w) 0 env e) j = false.
Proof.
  intros Hw HE. revert j Hw. induction e as [q|e IH n|e IH n|e IH m|e1 IH1 e2 IH2]; intros j Hw; cbn [well_shifted eval wshr wshl wmask wor width];
    rewrite ?andb_true_iff, ?Z.leb_le; intros He.
  - by apply (var_high w).
  - rewrite Z.shiftr_spec by lia. apply IH; [lia|by destruct He].
  - rewrite shl_testbit by lia. by rewrite (proj2 (Z.ltb_ge _ _)) by lia.
  - rewrite Z.land_spec. by rewrite IH.
  - destruct He. rewrite Z.lor_spec. by rewrite IH1, IH2.
Qed.

Lemma sym_sound w env e j :
  0 ≤ w → Forall (in_uint w) env → sym w e j ≠ Bad → Z.testbit (eval (HW := width w) 0 env e) j = sbit_val env (sym w e j).
Proof.
  intros Hw HE. revert j. induction e as [q|e IH n|e IH n|e IH m|e1 IH1 e2 IH2]; intros j; cbn [sym eval wshr wshl wmask wor width];
    (destruct (Z.ltb_spec j 0); [intros _; by apply Z.testbit_neg_r|]).
  - intros _. destruct (Z.ltb_spec j w); [done|]. by apply (var_high w).
  - intros Hb. rewrite Z.shiftr_spec by done. by apply IH.
  - rewrite shl_testbit by done. destruct (Z.ltb_spec j w); [|done]. by apply IH.
  - rewrite Z.land_spec. destruct (Z.testbit m j); [|intros _; by rewrite andb_false_r]. rewrite andb_true_r. apply IH.
  - rewrite Z.lor_spec. intros Hb. assert (H1 : sym w e1 j ≠ Bad) by (intros E; rewrite E in Hb; by destruct (sym w e2 j)).
    assert (H2 : sym w e2 j ≠ Bad) by (intros E; rewrite E in Hb; by destruct (sym w e1 j)). rewrite IH1, IH2 by done.
    destruct (sym w e1 j), (sym w e2 j); cbn in *; try done; by rewrite orb_false_r.
Qed.

(** ** The check

    The values of [bpv] bits lie after each other in blocks of [k] bits. *)

Definition expected (k bpv : Z) (loads puts : nat) (j : Z) : sbit :=
  if bpv <=? j then Zero else
  let p := bpv * (Z.of_nat puts + 1) - j - 1 in
  if p / k <? Z.of_nat loads then Src (Z.to_nat (p / k)) (k - 1 - p mod k) else Bad.

Definition put_ok (w k bpv : Z) (e : expr) (loads puts : nat) : bool :=
  well_shifted e && forallb (fun j => bool_decide (sym w e j = expected k bpv loads puts j) && negb (bool_decide (sym w e j = Bad))) (seqZ 0 w).

Fixpoint check (w k bpv : Z) (c : rcode) (loads puts : nat) : option (nat * nat) :=
  match c with
  | RDone => Some (loads, puts)
  | RLoad c => check w k bpv c (S loads) puts
  | RPut e c => if put_ok w k bpv e loads puts then check w k bpv c loads (S puts) else None
  end.

Lemma check_counts w k bpv c l i L P : check w k bpv c l i = Some (L, P) → (l ≤ L)%nat ∧ (i ≤ P)%nat.
Proof.
  revert l i. induction c as [|c IH|e c IH]; intros l i; cbn [check].
  - intros [= -> ->]. lia.
  - intros H%IH. lia.
  - destruct (put_ok w k bpv e l i); [|done]. intros H%IH. lia.
Qed.

Section Sound.
Context {E : Type} (w k bpv : Z) (cv : Z → Z) (L P : nat).
Context (Hk : 0 < k ≤ w) (Hb : 0 < bpv ≤ w) (HLP : k * Z.of_nat L = bpv * Z.of_nat P).
Context (xs : list Z) (n : nat) (Hn : bpv * Z.of_nat n = k * Z.of_nat (length xs)).

Let us := map (uwrap k) xs.

Lemma us_range : Forall (in_uint k) us.
Proof using Hk. apply map_uwrap_range. clear -Hk. lia. Qed.

Lemma us_count : bpv * Z.of_nat n = k * Z.of_nat (length us).
Proof using Hn. unfold us. by rewrite length_map. Qed.

(** The blocks that iteration [t] has loaded. *)
Definition loaded (t l : nat) : list Z := map (uwrap w) (take l (drop (t * L) xs)).

Lemma loaded_range t l : Forall (in_uint w) (loaded t l).
Proof using Hk. apply map_uwrap_range. clear -Hk. lia. Qed.

Lemma loaded_nth t l q : (q < l)%nat → (t * L + q < length xs)%nat → ∃ x, xs !! (t * L + q)%nat = Some x ∧ nth q (loaded t l) 0 = uwrap w x.
Proof using.
  intros Hq Hl. destruct (lookup_lt_is_Some_2 xs _ Hl) as [x Hx]. exists x. split; [done|].
  apply nth_lookup_Some. unfold loaded. apply list_lookup_fmap_Some. exists x. split; [done|].
  rewrite lookup_take_lt by done. by rewrite lookup_drop.
Qed.

Lemma loaded_next t l x : xs !! (t * L + l)%nat = Some x → loaded t l ++ [uwrap w x] = loaded t (S l).
Proof using.
  intros Hx. unfold loaded. rewrite (take_S_r _ _ x) by (by rewrite lookup_drop). by rewrite map_app.
Qed.

Lemma put_value e t l i :
  put_ok w k bpv e l i = true → (t * L + l ≤ length xs)%nat → (t * P + i < n)%nat →
  eval (HW := width w) 0 (loaded t l) e = value_of bpv k us n (t * P + i).
Proof using Hk Hb HLP Hn.
  intros [Hs Hok]%andb_true_iff Hl Hi. apply bits_ext. intros j Hj. destruct (Z.le_gt_cases w j).
  { rewrite eval_high by (done || lia || apply loaded_range). rewrite value_high; [done|lia|lia]. }
  rewrite forallb_forall in Hok. specialize (Hok j ltac:(apply list_elem_of_In, elem_of_seqZ; lia)).
  apply andb_true_iff in Hok as [He%bool_decide_eq_true Hbad%negb_true_iff%bool_decide_eq_false].
  rewrite sym_sound by (done || lia || apply loaded_range). rewrite He in *. unfold expected in *.
  destruct (Z.leb_spec bpv j); [by rewrite value_high by lia|].
  set (p := bpv * (Z.of_nat i + 1) - j - 1) in *. assert (Hp : 0 ≤ p) by nia.
  destruct (Z.ltb_spec (p / k) (Z.of_nat l)) as [Hq|]; [|done]. cbn [sbit_val].
  pose proof (Z.div_mod p k ltac:(lia)) as Hdm. pose proof (Z.mod_pos_bound p k ltac:(lia)) as Hm. pose proof (Z.div_pos p k Hp ltac:(lia)).
  destruct (loaded_nth t l (Z.to_nat (p / k))) as (x & Hx & ->); [lia|lia|].
  rewrite uwrap_testbit by lia. rewrite (proj2 (Z.ltb_lt _ w)) by lia. cbn [andb]. symmetry.
  rewrite (value_bit bpv k us n (proj1 Hb) ltac:(lia) us_range us_count _ (t * L + Z.to_nat (p / k)) (uwrap k x) (k - 1 - p mod k));
    [|unfold us; apply list_lookup_fmap_Some; eauto|lia|lia|done|].
  - rewrite uwrap_testbit by lia. by rewrite (proj2 (Z.ltb_lt _ k)) by lia.
  - rewrite !Nat2Z.inj_add, !Nat2Z.inj_mul, Z2Nat.id by lia. unfold p in *. nia.
Qed.

Context (pre post vpre old vpost : list Z) (Ho : length old = n).
Let vs := unpacked cv bpv k n xs.

(** Where the code is after [l] loads and [i] values of iteration [t]. *)
Lemma run_reified c t l i :
  check w k bpv c l i = Some (L, P) → (t * L + L ≤ length xs)%nat → (l ≤ L)%nat → (i ≤ P)%nat →
  run (E := E) (uwrap w) cv (denote (HW := width w) 0 c (loaded t l)) (pre ++ xs ++ post) (Z.of_nat (length pre) + Z.of_nat (t * L + l))
    (written vpre vs old vpost (t * P + i)) (Z.of_nat (length vpre) + Z.of_nat (t * P + i)) =
  Ret (tt, Z.of_nat (length pre) + Z.of_nat (t * L + L), written vpre vs old vpost (t * P + P), Z.of_nat (length vpre) + Z.of_nat (t * P + P)).
Proof using Hk Hb HLP Hn Ho.
  revert l i. induction c as [|c IH|e c IH]; intros l i Hc Ht Hl Hi; cbn [check denote run] in *.
  - by injection Hc as -> ->.
  - assert (Hlt : (l < L)%nat) by (apply check_counts in Hc; lia).
    destruct (lookup_lt_is_Some_2 xs (t * L + l)) as [x Hx]; [lia|].
    rewrite (aget_part _ _ _ _ _ _ Hx eq_refl), go_bind_ret, (loaded_next t l x Hx).
    replace (_ + Z.of_nat (t * L + l) + 1) with (Z.of_nat (length pre) + Z.of_nat (t * L + S l)) by lia.
    apply IH; [done|done|lia|done].
  - destruct (put_ok w k bpv e l i) eqn:Hok; [|done]. assert (Hlt : (i < P)%nat) by (apply check_counts in Hc; lia).
    assert (Hin : (t * P + i < n)%nat) by nia.
    rewrite (put_value e t l i Hok) by (done || lia).
    rewrite (write_next _ _ _ _ _ (t * P + i)), go_bind_ret; [|unfold vs; rewrite unpacked_length; lia| |done].
    + replace (_ + Z.of_nat (t * P + i) + 1) with (Z.of_nat (length vpre) + Z.of_nat (t * P + S i)) by lia.
      replace (S (t * P + i)) with (t * P + S i)%nat by lia. apply IH; [done|done|done|lia].
    + unfold vs, unpacked. apply list_lookup_fmap_Some. eexists. split; [done|]. by apply value_lookup.
Qed.
End Sound.

(** [L] blocks of [k] bits become [P] values of [bpv] bits. *)
Definition unrolled_ok (w k bpv L P : Z) (p : body) : bool :=
  match check w k bpv (reified p) 0 0 with
  | Some (l, i) => (Z.of_nat l =? L) && (Z.of_nat i =? P) && (k * L =? bpv * P)
  | None => false
  end.

Section Iterations.
Context {E : Type} (w k bpv L P : Z) (cv : Z → Z) (p : body).
Context (Hk : 0 < k ≤ w) (Hb : 0 < bpv ≤ w).
Context (Hp : uniform p) (Hok : unrolled_ok w k bpv L P p = true).

Lemma ok_counts : ∃ l i : nat, L = Z.of_nat l ∧ P = Z.of_nat i ∧ k * L = bpv * P ∧ check w k bpv (reified p) 0 0 = Some (l, i).
Proof using Hok.
  unfold unrolled_ok in Hok. destruct (check w k bpv (reified p) 0 0) as [[l i]|]; [|done]. exists l, i.
  rewrite !andb_true_iff, !Z.eqb_eq in Hok. destruct Hok as [[<- <-] ?]. done.
Qed.

(** Unrolled code unpacks the values of its blocks. *)
Lemma unrolled_moves xs it :
  0 ≤ it → Z.of_nat (length xs) = L * it →
  moves (unrolled (E := E) w cv p) xs (unpacked cv bpv k (Z.to_nat (P * it)) xs) it.
Proof using Hk Hb Hp Hok.
  destruct ok_counts as (l & i & -> & -> & HLP & Hc). intros Hit Hl pre post vpre old vpost Ho. rewrite unpacked_length in Ho.
  set (n := Z.to_nat (Z.of_nat i * it)) in *. set (vs := unpacked cv bpv k n xs).
  assert (Hvs : length vs = n) by apply unpacked_length. assert (Hn : bpv * Z.of_nat n = k * Z.of_nat (length xs)) by (unfold n; nia).
  unfold unrolled. match goal with |- context [go_for _ 0 ?f ?st] => destruct (go_for_inv (E := E)
    (fun t '(bo, values, vo) => bo = Z.of_nat (length pre) + Z.of_nat l * t ∧ vo = Z.of_nat (length vpre) + Z.of_nat i * t ∧
      values = written vpre vs old vpost (Z.to_nat t * i)) (Z.to_nat it) 0 f st) as ([[bo values] vo] & -> & HI) end.
  - split_and!; [lia|lia|done].
  - intros t [[bo values] vo] Ht (-> & -> & ->). rewrite <- (Hp Z (width w) 0).
    pose proof (run_reified (E := E) w k bpv cv l i Hk Hb HLP xs n Hn pre post vpre old vpost Ho (reified p) (Z.to_nat t) 0 0 Hc
      ltac:(nia) ltac:(lia) ltac:(lia)) as Hrun.
    rewrite !Nat.add_0_r in Hrun. replace (Z.of_nat l * t) with (Z.of_nat (Z.to_nat t * l)) by lia.
    replace (Z.of_nat i * t) with (Z.of_nat (Z.to_nat t * i)) by lia. change (loaded w l xs (Z.to_nat t) 0) with (@nil Z) in Hrun.
    fold vs in Hrun. rewrite Hrun, go_bind_ret. eexists. split; [done|]. split_and!; [lia|lia|]. f_equal. lia.
  - destruct HI as (-> & -> & ->). rewrite go_bind_ret. f_equal.
    replace (Z.to_nat (0 + Z.of_nat (Z.to_nat it)) * i)%nat with n by (unfold n; nia). by apply written_end.
Qed.
End Iterations.
