(* ===== verification/BulkPacked.v ===== *)
(** The unrolled decoders: [util/packed/bulk_operation_packed1.go] to [bulk_operation_packed24.go].

    [longsN] is what the loops of [DecodeLongs] and [DecodeLongsToInts] of file [N] do in an
    iteration, and [bytesN] those of [DecodeBytes] and [DecodeBytesToInts]: the two differ only in
    the types of words and values.  The theorem compares all of them with the decoders of
    [bulkOperationPacked], from which these operations inherit the rest. *)

From stdpp Require Import base tactics numbers list.
From Stdlib Require Import ZArith Lia.
From S2P Require Import Prelude Digits BulkOperation UnrolledCode.

Local Open Scope Z_scope.

(** * The code of an iteration *)

Definition longs1 : body := λ W _, (
  block ← next; for_down 64 63 1 (λ shift, put ((block .>> shift) .& 1)))%unrolled.

Definition bytes1 : body := λ W _, (
  block ← next_byte; put ((block .>> 7) .& 1);; put ((block .>> 6) .& 1);; put ((block .>> 5) .& 1);;
  put ((block .>> 4) .& 1);; put ((block .>> 3) .& 1);; put ((block .>> 2) .& 1);; put ((block .>> 1) .& 1);;
  put (block .& 1))%unrolled.

Definition longs2 : body := λ W _, (
  block ← next; for_down 64 62 2 (λ shift, put ((block .>> shift) .& 3)))%unrolled.

Definition bytes2 : body := λ W _, (
  block ← next_byte; put ((block .>> 6) .& 3);; put ((block .>> 4) .& 3);; put ((block .>> 2) .& 3);;
  put (block .& 3))%unrolled.

Definition longs3 : body := λ W _, (
  block0 ← next; put (block0 .>> 61);; put ((block0 .>> 58) .& 7);; put ((block0 .>> 55) .& 7);;
  put ((block0 .>> 52) .& 7);; put ((block0 .>> 49) .& 7);; put ((block0 .>> 46) .& 7);;
  put ((block0 .>> 43) .& 7);; put ((block0 .>> 40) .& 7);; put ((block0 .>> 37) .& 7);;
  put ((block0 .>> 34) .& 7);; put ((block0 .>> 31) .& 7);; put ((block0 .>> 28) .& 7);;
  put ((block0 .>> 25) .& 7);; put ((block0 .>> 22) .& 7);; put ((block0 .>> 19) .& 7);;
  put ((block0 .>> 16) .& 7);; put ((block0 .>> 13) .& 7);; put ((block0 .>> 10) .& 7);;
  put ((block0 .>> 7) .& 7);; put ((block0 .>> 4) .& 7);; put ((block0 .>> 1) .& 7);;
  block1 ← next; put (((block0 .& 1) .<< 2) .| (block1 .>> 62));; put ((block1 .>> 59) .& 7);;
  put ((block1 .>> 56) .& 7);; put ((block1 .>> 53) .& 7);; put ((block1 .>> 50) .& 7);;
  put ((block1 .>> 47) .& 7);; put ((block1 .>> 44) .& 7);; put ((block1 .>> 41) .& 7);;
  put ((block1 .>> 38) .& 7);; put ((block1 .>> 35) .& 7);; put ((block1 .>> 32) .& 7);;
  put ((block1 .>> 29) .& 7);; put ((block1 .>> 26) .& 7);; put ((block1 .>> 23) .& 7);;
  put ((block1 .>> 20) .& 7);; put ((block1 .>> 17) .& 7);; put ((block1 .>> 14) .& 7);;
  put ((block1 .>> 11) .& 7);; put ((block1 .>> 8) .& 7);; put ((block1 .>> 5) .& 7);; put ((block1 .>> 2) .& 7);;
  block2 ← next; put (((block1 .& 3) .<< 1) .| (block2 .>> 63));; put ((block2 .>> 60) .& 7);;
  put ((block2 .>> 57) .& 7);; put ((block2 .>> 54) .& 7);; put ((block2 .>> 51) .& 7);;
  put ((block2 .>> 48) .& 7);; put ((block2 .>> 45) .& 7);; put ((block2 .>> 42) .& 7);;
  put ((block2 .>> 39) .& 7);; put ((block2 .>> 36) .& 7);; put ((block2 .>> 33) .& 7);;
  put ((block2 .>> 30) .& 7);; put ((block2 .>> 27) .& 7);; put ((block2 .>> 24) .& 7);;
  put ((block2 .>> 21) .& 7);; put ((block2 .>> 18) .& 7);; put ((block2 .>> 15) .& 7);;
  put ((block2 .>> 12) .& 7);; put ((block2 .>> 9) .& 7);; put ((block2 .>> 6) .& 7);; put ((block2 .>> 3) .& 7);;
  put (block2 .& 7))%unrolled.

Definition bytes3 : body := λ W _, (
  byte0 ← next_byte; put (byte0 .>> 5);; put ((byte0 .>> 2) .& 7);;
  byte1 ← next_byte; put (((byte0 .& 3) .<< 1) .| (byte1 .>> 7));; put ((byte1 .>> 4) .& 7);;
  put ((byte1 .>> 1) .& 7);;
  byte2 ← next_byte; put (((byte1 .& 1) .<< 2) .| (byte2 .>> 6));; put ((byte2 .>> 3) .& 7);; put (byte2 .& 7))%unrolled.

Definition longs4 : body := λ W _, (
  block ← next; for_down 64 60 4 (λ shift, put ((block .>> shift) .& 15)))%unrolled.

Definition bytes4 : body := λ W _, (
  block ← next_byte; put ((block .>> 4) .& 15);; put (block .& 15))%unrolled.

Definition longs5 : body := λ W _, (
  block0 ← next; put (block0 .>> 59);; put ((block0 .>> 54) .& 31);; put ((block0 .>> 49) .& 31);;
  put ((block0 .>> 44) .& 31);; put ((block0 .>> 39) .& 31);; put ((block0 .>> 34) .& 31);;
  put ((block0 .>> 29) .& 31);; put ((block0 .>> 24) .& 31);; put ((block0 .>> 19) .& 31);;
  put ((block0 .>> 14) .& 31);; put ((block0 .>> 9) .& 31);; put ((block0 .>> 4) .& 31);;
  block1 ← next; put (((block0 .& 15) .<< 1) .| (block1 .>> 63));; put ((block1 .>> 58) .& 31);;
  put ((block1 .>> 53) .& 31);; put ((block1 .>> 48) .& 31);; put ((block1 .>> 43) .& 31);;
  put ((block1 .>> 38) .& 31);; put ((block1 .>> 33) .& 31);; put ((block1 .>> 28) .& 31);;
  put ((block1 .>> 23) .& 31);; put ((block1 .>> 18) .& 31);; put ((block1 .>> 13) .& 31);;
  put ((block1 .>> 8) .& 31);; put ((block1 .>> 3) .& 31);;
  block2 ← next; put (((block1 .& 7) .<< 2) .| (block2 .>> 62));; put ((block2 .>> 57) .& 31);;
  put ((block2 .>> 52) .& 31);; put ((block2 .>> 47) .& 31);; put ((block2 .>> 42) .& 31);;
  put ((block2 .>> 37) .& 31);; put ((block2 .>> 32) .& 31);; put ((block2 .>> 27) .& 31);;
  put ((block2 .>> 22) .& 31);; put ((block2 .>> 17) .& 31);; put ((block2 .>> 12) .& 31);;
  put ((block2 .>> 7) .& 31);; put ((block2 .>> 2) .& 31);;
  block3 ← next; put (((block2 .& 3) .<< 3) .| (block3 .>> 61));; put ((block3 .>> 56) .& 31);;
  put ((block3 .>> 51) .& 31);; put ((block3 .>> 46) .& 31);; put ((block3 .>> 41) .& 31);;
  put ((block3 .>> 36) .& 31);; put ((block3 .>> 31) .& 31);; put ((block3 .>> 26) .& 31);;
  put ((block3 .>> 21) .& 31);; put ((block3 .>> 16) .& 31);; put ((block3 .>> 11) .& 31);;
  put ((block3 .>> 6) .& 31);; put ((block3 .>> 1) .& 31);;
  block4 ← next; put (((block3 .& 1) .<< 4) .| (block4 .>> 60));; put ((block4 .>> 55) .& 31);;
  put ((block4 .>> 50) .& 31);; put ((block4 .>> 45) .& 31);; put ((block4 .>> 40) .& 31);;
  put ((block4 .>> 35) .& 31);; put ((block4 .>> 30) .& 31);; put ((block4 .>> 25) .& 31);;
  put ((block4 .>> 20) .& 31);; put ((block4 .>> 15) .& 31);; put ((block4 .>> 10) .& 31);;
  put ((block4 .>> 5) .& 31);; put (block4 .& 31))%unrolled.

Definition bytes5 : body := λ W _, (
  byte0 ← next_byte; put (byte0 .>> 3);;
  byte1 ← next_byte; put (((byte0 .& 7) .<< 2) .| (byte1 .>> 6));; put ((byte1 .>> 1) .& 31);;
  byte2 ← next_byte; put (((byte1 .& 1) .<< 4) .| (byte2 .>> 4));;
  byte3 ← next_byte; put (((byte2 .& 15) .<< 1) .| (byte3 .>> 7));; put ((byte3 .>> 2) .& 31);;
  byte4 ← next_byte; put (((byte3 .& 3) .<< 3) .| (byte4 .>> 5));; put (byte4 .& 31))%unrolled.

Definition longs6 : body := λ W _, (
  block0 ← next; put (block0 .>> 58);; put ((block0 .>> 52) .& 63);; put ((block0 .>> 46) .& 63);;
  put ((block0 .>> 40) .& 63);; put ((block0 .>> 34) .& 63);; put ((block0 .>> 28) .& 63);;
  put ((block0 .>> 22) .& 63);; put ((block0 .>> 16) .& 63);; put ((block0 .>> 10) .& 63);;
  put ((block0 .>> 4) .& 63);;
  block1 ← next; put (((block0 .& 15) .<< 2) .| (block1 .>> 62));; put ((block1 .>> 56) .& 63);;
  put ((block1 .>> 50) .& 63);; put ((block1 .>> 44) .& 63);; put ((block1 .>> 38) .& 63);;
  put ((block1 .>> 32) .& 63);; put ((block1 .>> 26) .& 63);; put ((block1 .>> 20) .& 63);;
  put ((block1 .>> 14) .& 63);; put ((block1 .>> 8) .& 63);; put ((block1 .>> 2) .& 63);;
  block2 ← next; put (((block1 .& 3) .<< 4) .| (block2 .>> 60));; put ((block2 .>> 54) .& 63);;
  put ((block2 .>> 48) .& 63);; put ((block2 .>> 42) .& 63);; put ((block2 .>> 36) .& 63);;
  put ((block2 .>> 30) .& 63);; put ((block2 .>> 24) .& 63);; put ((block2 .>> 18) .& 63);;
  put ((block2 .>> 12) .& 63);; put ((block2 .>> 6) .& 63);; put (block2 .& 63))%unrolled.

Definition bytes6 : body := λ W _, (
  byte0 ← next_byte; put (byte0 .>> 2);;
  byte1 ← next_byte; put (((byte0 .& 3) .<< 4) .| (byte1 .>> 4));;
  byte2 ← next_byte; put (((byte1 .& 15) .<< 2) .| (byte2 .>> 6));; put (byte2 .& 63))%unrolled.

Definition longs7 : body := λ W _, (
  block0 ← next; put (block0 .>> 57);; put ((block0 .>> 50) .& 127);; put ((block0 .>> 43) .& 127);;
  put ((block0 .>> 36) .& 127);; put ((block0 .>> 29) .& 127);; put ((block0 .>> 22) .& 127);;
  put ((block0 .>> 15) .& 127);; put ((block0 .>> 8) .& 127);; put ((block0 .>> 1) .& 127);;
  block1 ← next; put (((block0 .& 1) .<< 6) .| (block1 .>> 58));; put ((block1 .>> 51) .& 127);;
  put ((block1 .>> 44) .& 127);; put ((block1 .>> 37) .& 127);; put ((block1 .>> 30) .& 127);;
  put ((block1 .>> 23) .& 127);; put ((block1 .>> 16) .& 127);; put ((block1 .>> 9) .& 127);;
  put ((block1 .>> 2) .& 127);;
  block2 ← next; put (((block1 .& 3) .<< 5) .| (block2 .>> 59));; put ((block2 .>> 52) .& 127);;
  put ((block2 .>> 45) .& 127);; put ((block2 .>> 38) .& 127);; put ((block2 .>> 31) .& 127);;
  put ((block2 .>> 24) .& 127);; put ((block2 .>> 17) .& 127);; put ((block2 .>> 10) .& 127);;
  put ((block2 .>> 3) .& 127);;
  block3 ← next; put (((block2 .& 7) .<< 4) .| (block3 .>> 60));; put ((block3 .>> 53) .& 127);;
  put ((block3 .>> 46) .& 127);; put ((block3 .>> 39) .& 127);; put ((block3 .>> 32) .& 127);;
  put ((block3 .>> 25) .& 127);; put ((block3 .>> 18) .& 127);; put ((block3 .>> 11) .& 127);;
  put ((block3 .>> 4) .& 127);;
  block4 ← next; put (((block3 .& 15) .<< 3) .| (block4 .>> 61));; put ((block4 .>> 54) .& 127);;
  put ((block4 .>> 47) .& 127);; put ((block4 .>> 40) .& 127);; put ((block4 .>> 33) .& 127);;
  put ((block4 .>> 26) .& 127);; put ((block4 .>> 19) .& 127);; put ((block4 .>> 12) .& 127);;
  put ((block4 .>> 5) .& 127);;
  block5 ← next; put (((block4 .& 31) .<< 2) .| (block5 .>> 62));; put ((block5 .>> 55) .& 127);;
  put ((block5 .>> 48) .& 127);; put ((block5 .>> 41) .& 127);; put ((block5 .>> 34) .& 127);;
  put ((block5 .>> 27) .& 127);; put ((block5 .>> 20) .& 127);; put ((block5 .>> 13) .& 127);;
  put ((block5 .>> 6) .& 127);;
  block6 ← next; put (((block5 .& 63) .<< 1) .| (block6 .>> 63));; put ((block6 .>> 56) .& 127);;
  put ((block6 .>> 49) .& 127);; put ((block6 .>> 42) .& 127);; put ((block6 .>> 35) .& 127);;
  put ((block6 .>> 28) .& 127);; put ((block6 .>> 21) .& 127);; put ((block6 .>> 14) .& 127);;
  put ((block6 .>> 7) .& 127);; put (block6 .& 127))%unrolled.

Definition bytes7 : body := λ W _, (
  byte0 ← next_byte; put (byte0 .>> 1);;
  byte1 ← next_byte; put (((byte0 .& 1) .<< 6) .| (byte1 .>> 2));;
  byte2 ← next_byte; put (((byte1 .& 3) .<< 5) .| (byte2 .>> 3));;
  byte3 ← next_byte; put (((byte2 .& 7) .<< 4) .| (byte3 .>> 4));;
  byte4 ← next_byte; put (((byte3 .& 15) .<< 3) .| (byte4 .>> 5));;
  byte5 ← next_byte; put (((byte4 .& 31) .<< 2) .| (byte5 .>> 6));;
  byte6 ← next_byte; put (((byte5 .& 63) .<< 1) .| (byte6 .>> 7));; put (byte6 .& 127))%unrolled.

Definition longs8 : body := λ W _, (
  block ← next; for_down 64 56 8 (λ shift, put ((block .>> shift) .& 255)))%unrolled.

Definition bytes8 : body := λ W _, (
  b ← next_byte; put b)%unrolled.

Definition longs9 : body := λ W _, (
  block0 ← next; put (block0 .>> 55);; put ((block0 .>> 46) .& 511);; put ((block0 .>> 37) .& 511);;
  put ((block0 .>> 28) .& 511);; put ((block0 .>> 19) .& 511);; put ((block0 .>> 10) .& 511);;
  put ((block0 .>> 1) .& 511);;
  block1 ← next; put (((block0 .& 1) .<< 8) .| (block1 .>> 56));; put ((block1 .>> 47) .& 511);;
  put ((block1 .>> 38) .& 511);; put ((block1 .>> 29) .& 511);; put ((block1 .>> 20) .& 511);;
  put ((block1 .>> 11) .& 511);; put ((block1 .>> 2) .& 511);;
  block2 ← next; put (((block1 .& 3) .<< 7) .| (block2 .>> 57));; put ((block2 .>> 48) .& 511);;
  put ((block2 .>> 39) .& 511);; put ((block2 .>> 30) .& 511);; put ((block2 .>> 21) .& 511);;
  put ((block2 .>> 12) .& 511);; put ((block2 .>> 3) .& 511);;
  block3 ← next; put (((block2 .& 7) .<< 6) .| (block3 .>> 58));; put ((block3 .>> 49) .& 511);;
  put ((block3 .>> 40) .& 511);; put ((block3 .>> 31) .& 511);; put ((block3 .>> 22) .& 511);;
  put ((block3 .>> 13) .& 511);; put ((block3 .>> 4) .& 511);;
  block4 ← next; put (((block3 .& 15) .<< 5) .| (block4 .>> 59));; put ((block4 .>> 50) .& 511);;
  put ((block4 .>> 41) .& 511);; put ((block4 .>> 32) .& 511);; put ((block4 .>> 23) .& 511);;
  put ((block4 .>> 14) .& 511);; put ((block4 .>> 5) .& 511);;
  block5 ← next; put (((block4 .& 31) .<< 4) .| (block5 .>> 60));; put ((block5 .>> 51) .& 511);;
  put ((block5 .>> 42) .& 511);; put ((block5 .>> 33) .& 511);; put ((block5 .>> 24) .& 511);;
  put ((block5 .>> 15) .& 511);; put ((block5 .>> 6) .& 511);;
  block6 ← next; put (((block5 .& 63) .<< 3) .| (block6 .>> 61));; put ((block6 .>> 52) .& 511);;
  put ((block6 .>> 43) .& 511);; put ((block6 .>> 34) .& 511);; put ((block6 .>> 25) .& 511);;
  put ((block6 .>> 16) .& 511);; put ((block6 .>> 7) .& 511);;
  block7 ← next; put (((block6 .& 127) .<< 2) .| (block7 .>> 62));; put ((block7 .>> 53) .& 511);;
  put ((block7 .>> 44) .& 511);; put ((block7 .>> 35) .& 511);; put ((block7 .>> 26) .& 511);;
  put ((block7 .>> 17) .& 511);; put ((block7 .>> 8) .& 511);;
  block8 ← next; put (((block7 .& 255) .<< 1) .| (block8 .>> 63));; put ((block8 .>> 54) .& 511);;
  put ((block8 .>> 45) .& 511);; put ((block8 .>> 36) .& 511);; put ((block8 .>> 27) .& 511);;
  put ((block8 .>> 18) .& 511);; put ((block8 .>> 9) .& 511);; put (block8 .& 511))%unrolled.

Definition bytes9 : body := λ W _, (
  byte0 ← next_byte;
  byte1 ← next_byte; put ((byte0 .<< 1) .| (byte1 .>> 7));;
  byte2 ← next_byte; put (((byte1 .& 127) .<< 2) .| (byte2 .>> 6));;
  byte3 ← next_byte; put (((byte2 .& 63) .<< 3) .| (byte3 .>> 5));;
  byte4 ← next_byte; put (((byte3 .& 31) .<< 4) .| (byte4 .>> 4));;
  byte5 ← next_byte; put (((byte4 .& 15) .<< 5) .| (byte5 .>> 3));;
  byte6 ← next_byte; put (((byte5 .& 7) .<< 6) .| (byte6 .>> 2));;
  byte7 ← next_byte; put (((byte6 .& 3) .<< 7) .| (byte7 .>> 1));;
  byte8 ← next_byte; put (((byte7 .& 1) .<< 8) .| byte8))%unrolled.

Definition longs10 : body := λ W _, (
  block0 ← next; put (block0 .>> 54);; put ((block0 .>> 44) .& 1023);; put ((block0 .>> 34) .& 1023);;
  put ((block0 .>> 24) .& 1023);; put ((block0 .>> 14) .& 1023);; put ((block0 .>> 4) .& 1023);;
  block1 ← next; put (((block0 .& 15) .<< 6) .| (block1 .>> 58));; put ((block1 .>> 48) .& 1023);;
  put ((block1 .>> 38) .& 1023);; put ((block1 .>> 28) .& 1023);; put ((block1 .>> 18) .& 1023);;
  put ((block1 .>> 8) .& 1023);;
  block2 ← next; put (((block1 .& 255) .<< 2) .| (block2 .>> 62));; put ((block2 .>> 52) .& 1023);;
  put ((block2 .>> 42) .& 1023);; put ((block2 .>> 32) .& 1023);; put ((block2 .>> 22) .& 1023);;
  put ((block2 .>> 12) .& 1023);; put ((block2 .>> 2) .& 1023);;
  block3 ← next; put (((block2 .& 3) .<< 8) .| (block3 .>> 56));; put ((block3 .>> 46) .& 1023);;
  put ((block3 .>> 36) .& 1023);; put ((block3 .>> 26) .& 1023);; put ((block3 .>> 16) .& 1023);;
  put ((block3 .>> 6) .& 1023);;
  block4 ← next; put (((block3 .& 63) .<< 4) .| (block4 .>> 60));; put ((block4 .>> 50) .& 1023);;
  put ((block4 .>> 40) .& 1023);; put ((block4 .>> 30) .& 1023);; put ((block4 .>> 20) .& 1023);;
  put ((block4 .>> 10) .& 1023);; put (block4 .& 1023))%unrolled.

Definition bytes10 : body := λ W _, (
  byte0 ← next_byte;
  byte1 ← next_byte; put ((byte0 .<< 2) .| (byte1 .>> 6));;
  byte2 ← next_byte; put (((byte1 .& 63) .<< 4) .| (byte2 .>> 4));;
  byte3 ← next_byte; put (((byte2 .& 15) .<< 6) .| (byte3 .>> 2));;
  byte4 ← next_byte; put (((byte3 .& 3) .<< 8) .| byte4))%unrolled.

Definition longs11 : body := λ W _, (
  block0 ← next; put (block0 .>> 53);; put ((block0 .>> 42) .& 2047);; put ((block0 .>> 31) .& 2047);;
  put ((block0 .>> 20) .& 2047);; put ((block0 .>> 9) .& 2047);;
  block1 ← next; put (((block0 .& 511) .<< 2) .| (block1 .>> 62));; put ((block1 .>> 51) .& 2047);;
  put ((block1 .>> 40) .& 2047);; put ((block1 .>> 29) .& 2047);; put ((block1 .>> 18) .& 2047);;
  put ((block1 .>> 7) .& 2047);;
  block2 ← next; put (((block1 .& 127) .<< 4) .| (block2 .>> 60));; put ((block2 .>> 49) .& 2047);;
  put ((block2 .>> 38) .& 2047);; put ((block2 .>> 27) .& 2047);; put ((block2 .>> 16) .& 2047);;
  put ((block2 .>> 5) .& 2047);;
  block3 ← next; put (((block2 .& 31) .<< 6) .| (block3 .>> 58));; put ((block3 .>> 47) .& 2047);;
  put ((block3 .>> 36) .& 2047);; put ((block3 .>> 25) .& 2047);; put ((block3 .>> 14) .& 2047);;
  put ((block3 .>> 3) .& 2047);;
  block4 ← next; put (((block3 .& 7) .<< 8) .| (block4 .>> 56));; put ((block4 .>> 45) .& 2047);;
  put ((block4 .>> 34) .& 2047);; put ((block4 .>> 23) .& 2047);; put ((block4 .>> 12) .& 2047);;
  put ((block4 .>> 1) .& 2047);;
  block5 ← next; put (((block4 .& 1) .<< 10) .| (block5 .>> 54));; put ((block5 .>> 43) .& 2047);;
  put ((block5 .>> 32) .& 2047);; put ((block5 .>> 21) .& 2047);; put ((block5 .>> 10) .& 2047);;
  block6 ← next; put (((block5 .& 1023) .<< 1) .| (block6 .>> 63));; put ((block6 .>> 52) .& 2047);;
  put ((block6 .>> 41) .& 2047);; put ((block6 .>> 30) .& 2047);; put ((block6 .>> 19) .& 2047);;
  put ((block6 .>> 8) .& 2047);;
  block7 ← next; put (((block6 .& 255) .<< 3) .| (block7 .>> 61));; put ((block7 .>> 50) .& 2047);;
  put ((block7 .>> 39) .& 2047);; put ((block7 .>> 28) .& 2047);; put ((block7 .>> 17) .& 2047);;
  put ((block7 .>> 6) .& 2047);;
  block8 ← next; put (((block7 .& 63) .<< 5) .| (block8 .>> 59));; put ((block8 .>> 48) .& 2047);;
  put ((block8 .>> 37) .& 2047);; put ((block8 .>> 26) .& 2047);; put ((block8 .>> 15) .& 2047);;
  put ((block8 .>> 4) .& 2047);;
  block9 ← next; put (((block8 .& 15) .<< 7) .| (block9 .>> 57));; put ((block9 .>> 46) .& 2047);;
  put ((block9 .>> 35) .& 2047);; put ((block9 .>> 24) .& 2047);; put ((block9 .>> 13) .& 2047);;
  put ((block9 .>> 2) .& 2047);;
  block10 ← next; put (((block9 .& 3) .<< 9) .| (block10 .>> 55));; put ((block10 .>> 44) .& 2047);;
  put ((block10 .>> 33) .& 2047);; put ((block10 .>> 22) .& 2047);; put ((block10 .>> 11) .& 2047);;
  put (block10 .& 2047))%unrolled.

Definition bytes11 : body := λ W _, (
  byte0 ← next_byte;
  byte1 ← next_byte; put ((byte0 .<< 3) .| (byte1 .>> 5));;
  byte2 ← next_byte; put (((byte1 .& 31) .<< 6) .| (byte2 .>> 2));;
  byte3 ← next_byte;
  byte4 ← next_byte; put (((byte2 .& 3) .<< 9) .| (byte3 .<< 1) .| (byte4 .>> 7));;
  byte5 ← next_byte; put (((byte4 .& 127) .<< 4) .| (byte5 .>> 4));;
  byte6 ← next_byte; put (((byte5 .& 15) .<< 7) .| (byte6 .>> 1));;
  byte7 ← next_byte;
  byte8 ← next_byte; put (((byte6 .& 1) .<< 10) .| (byte7 .<< 2) .| (byte8 .>> 6));;
  byte9 ← next_byte; put (((byte8 .& 63) .<< 5) .| (byte9 .>> 3));;
  byte10 ← next_byte; put (((byte9 .& 7) .<< 8) .| byte10))%unrolled.

Definition longs12 : body := λ W _, (
  block0 ← next; put (block0 .>> 52);; put ((block0 .>> 40) .& 4095);; put ((block0 .>> 28) .& 4095);;
  put ((block0 .>> 16) .& 4095);; put ((block0 .>> 4) .& 4095);;
  block1 ← next; put (((block0 .& 15) .<< 8) .| (block1 .>> 56));; put ((block1 .>> 44) .& 4095);;
  put ((block1 .>> 32) .& 4095);; put ((block1 .>> 20) .& 4095);; put ((block1 .>> 8) .& 4095);;
  block2 ← next; put (((block1 .& 255) .<< 4) .| (block2 .>> 60));; put ((block2 .>> 48) .& 4095);;
  put ((block2 .>> 36) .& 4095);; put ((block2 .>> 24) .& 4095);; put ((block2 .>> 12) .& 4095);;
  put (block2 .& 4095))%unrolled.

Definition bytes12 : body := λ W _, (
  byte0 ← next_byte;
  byte1 ← next_byte; put ((byte0 .<< 4) .| (byte1 .>> 4));;
  byte2 ← next_byte; put (((byte1 .& 15) .<< 8) .| byte2))%unrolled.

Definition longs13 : body := λ W _, (
  block0 ← next; put (block0 .>> 51);; put ((block0 .>> 38) .& 8191);; put ((block0 .>> 25) .& 8191);;
  put ((block0 .>> 12) .& 8191);;
  block1 ← next; put (((block0 .& 4095) .<< 1) .| (block1 .>> 63));; put ((block1 .>> 50) .& 8191);;
  put ((block1 .>> 37) .& 8191);; put ((block1 .>> 24) .& 8191);; put ((block1 .>> 11) .& 8191);;
  block2 ← next; put (((block1 .& 2047) .<< 2) .| (block2 .>> 62));; put ((block2 .>> 49) .& 8191);;
  put ((block2 .>> 36) .& 8191);; put ((block2 .>> 23) .& 8191);; put ((block2 .>> 10) .& 8191);;
  block3 ← next; put (((block2 .& 1023) .<< 3) .| (block3 .>> 61));; put ((block3 .>> 48) .& 8191);;
  put ((block3 .>> 35) .& 8191);; put ((block3 .>> 22) .& 8191);; put ((block3 .>> 9) .& 8191);;
  block4 ← next; put (((block3 .& 511) .<< 4) .| (block4 .>> 60));; put ((block4 .>> 47) .& 8191);;
  put ((block4 .>> 34) .& 8191);; put ((block4 .>> 21) .& 8191);; put ((block4 .>> 8) .& 8191);;
  block5 ← next; put (((block4 .& 255) .<< 5) .| (block5 .>> 59));; put ((block5 .>> 46) .& 8191);;
  put ((block5 .>> 33) .& 8191);; put ((block5 .>> 20) .& 8191);; put ((block5 .>> 7) .& 8191);;
  block6 ← next; put (((block5 .& 127) .<< 6) .| (block6 .>> 58));; put ((block6 .>> 45) .& 8191);;
  put ((block6 .>> 32) .& 8191);; put ((block6 .>> 19) .& 8191);; put ((block6 .>> 6) .& 8191);;
  block7 ← next; put (((block6 .& 63) .<< 7) .| (block7 .>> 57));; put ((block7 .>> 44) .& 8191);;
  put ((block7 .>> 31) .& 8191);; put ((block7 .>> 18) .& 8191);; put ((block7 .>> 5) .& 8191);;
  block8 ← next; put (((block7 .& 31) .<< 8) .| (block8 .>> 56));; put ((block8 .>> 43) .& 8191);;
  put ((block8 .>> 30) .& 8191);; put ((block8 .>> 17) .& 8191);; put ((block8 .>> 4) .& 8191);;
  block9 ← next; put (((block8 .& 15) .<< 9) .| (block9 .>> 55));; put ((block9 .>> 42) .& 8191);;
  put ((block9 .>> 29) .& 8191);; put ((block9 .>> 16) .& 8191);; put ((block9 .>> 3) .& 8191);;
  block10 ← next; put (((block9 .& 7) .<< 10) .| (block10 .>> 54));; put ((block10 .>> 41) .& 8191);;
  put ((block10 .>> 28) .& 8191);; put ((block10 .>> 15) .& 8191);; put ((block10 .>> 2) .& 8191);;
  block11 ← next; put (((block10 .& 3) .<< 11) .| (block11 .>> 53));; put ((block11 .>> 40) .& 8191);;
  put ((block11 .>> 27) .& 8191);; put ((block11 .>> 14) .& 8191);; put ((block11 .>> 1) .& 8191);;
  block12 ← next; put (((block11 .& 1) .<< 12) .| (block12 .>> 52));; put ((block12 .>> 39) .& 8191);;
  put ((block12 .>> 26) .& 8191);; put ((block12 .>> 13) .& 8191);; put (block12 .& 8191))%unrolled.

Definition bytes13 : body := λ W _, (
  byte0 ← next_byte;
  byte1 ← next_byte; put ((byte0 .<< 5) .| (byte1 .>> 3));;
  byte2 ← next_byte;
  byte3 ← next_byte; put (((byte1 .& 7) .<< 10) .| (byte2 .<< 2) .| (byte3 .>> 6));;
  byte4 ← next_byte; put (((byte3 .& 63) .<< 7) .| (byte4 .>> 1));;
  byte5 ← next_byte;
  byte6 ← next_byte; put (((byte4 .& 1) .<< 12) .| (byte5 .<< 4) .| (byte6 .>> 4));;
  byte7 ← next_byte;
  byte8 ← next_byte; put (((byte6 .& 15) .<< 9) .| (byte7 .<< 1) .| (byte8 .>> 7));;
  byte9 ← next_byte; put (((byte8 .& 127) .<< 6) .| (byte9 .>> 2));;
  byte10 ← next_byte;
  byte11 ← next_byte; put (((byte9 .& 3) .<< 11) .| (byte10 .<< 3) .| (byte11 .>> 5));;
  byte12 ← next_byte; put (((byte11 .& 31) .<< 8) .| byte12))%unrolled.

Definition longs14 : body := λ W _, (
  block0 ← next; put (block0 .>> 50);; put ((block0 .>> 36) .& 16383);; put ((block0 .>> 22) .& 16383);;
  put ((block0 .>> 8) .& 16383);;
  block1 ← next; put (((block0 .& 255) .<< 6) .| (block1 .>> 58));; put ((block1 .>> 44) .& 16383);;
  put ((block1 .>> 30) .& 16383);; put ((block1 .>> 16) .& 16383);; put ((block1 .>> 2) .& 16383);;
  block2 ← next; put (((block1 .& 3) .<< 12) .| (block2 .>> 52));; put ((block2 .>> 38) .& 16383);;
  put ((block2 .>> 24) .& 16383);; put ((block2 .>> 10) .& 16383);;
  block3 ← next; put (((block2 .& 1023) .<< 4) .| (block3 .>> 60));; put ((block3 .>> 46) .& 16383);;
  put ((block3 .>> 32) .& 16383);; put ((block3 .>> 18) .& 16383);; put ((block3 .>> 4) .& 16383);;
  block4 ← next; put (((block3 .& 15) .<< 10) .| (block4 .>> 54));; put ((block4 .>> 40) .& 16383);;
  put ((block4 .>> 26) .& 16383);; put ((block4 .>> 12) .& 16383);;
  block5 ← next; put (((block4 .& 4095) .<< 2) .| (block5 .>> 62));; put ((block5 .>> 48) .& 16383);;
  put ((block5 .>> 34) .& 16383);; put ((block5 .>> 20) .& 16383);; put ((block5 .>> 6) .& 16383);;
  block6 ← next; put (((block5 .& 63) .<< 8) .| (block6 .>> 56));; put ((block6 .>> 42) .& 16383);;
  put ((block6 .>> 28) .& 16383);; put ((block6 .>> 14) .& 16383);; put (block6 .& 16383))%unrolled.

Definition bytes14 : body := λ W _, (
  byte0 ← next_byte;
  byte1 ← next_byte; put ((byte0 .<< 6) .| (byte1 .>> 2));;
  byte2 ← next_byte;
  byte3 ← next_byte; put (((byte1 .& 3) .<< 12) .| (byte2 .<< 4) .| (byte3 .>> 4));;
  byte4 ← next_byte;
  byte5 ← next_byte; put (((byte3 .& 15) .<< 10) .| (byte4 .<< 2) .| (byte5 .>> 6));;
  byte6 ← next_byte; put (((byte5 .& 63) .<< 8) .| byte6))%unrolled.

Definition longs15 : body := λ W _, (
  block0 ← next; put (block0 .>> 49);; put ((block0 .>> 34) .& 32767);; put ((block0 .>> 19) .& 32767);;
  put ((block0 .>> 4) .& 32767);;
  block1 ← next; put (((block0 .& 15) .<< 11) .| (block1 .>> 53));; put ((block1 .>> 38) .& 32767);;
  put ((block1 .>> 23) .& 32767);; put ((block1 .>> 8) .& 32767);;
  block2 ← next; put (((block1 .& 255) .<< 7) .| (block2 .>> 57));; put ((block2 .>> 42) .& 32767);;
  put ((block2 .>> 27) .& 32767);; put ((block2 .>> 12) .& 32767);;
  block3 ← next; put (((block2 .& 4095) .<< 3) .| (block3 .>> 61));; put ((block3 .>> 46) .& 32767);;
  put ((block3 .>> 31) .& 32767);; put ((block3 .>> 16) .& 32767);; put ((block3 .>> 1) .& 32767);;
  block4 ← next; put (((block3 .& 1) .<< 14) .| (block4 .>> 50));; put ((block4 .>> 35) .& 32767);;
  put ((block4 .>> 20) .& 32767);; put ((block4 .>> 5) .& 32767);;
  block5 ← next; put (((block4 .& 31) .<< 10) .| (block5 .>> 54));; put ((block5 .>> 39) .& 32767);;
  put ((block5 .>> 24) .& 32767);; put ((block5 .>> 9) .& 32767);;
  block6 ← next; put (((block5 .& 511) .<< 6) .| (block6 .>> 58));; put ((block6 .>> 43) .& 32767);;
  put ((block6 .>> 28) .& 32767);; put ((block6 .>> 13) .& 32767);;
  block7 ← next; put (((block6 .& 8191) .<< 2) .| (block7 .>> 62));; put ((block7 .>> 47) .& 32767);;
  put ((block7 .>> 32) .& 32767);; put ((block7 .>> 17) .& 32767);; put ((block7 .>> 2) .& 32767);;
  block8 ← next; put (((block7 .& 3) .<< 13) .| (block8 .>> 51));; put ((block8 .>> 36) .& 32767);;
  put ((block8 .>> 21) .& 32767);; put ((block8 .>> 6) .& 32767);;
  block9 ← next; put (((block8 .& 63) .<< 9) .| (block9 .>> 55));; put ((block9 .>> 40) .& 32767);;
  put ((block9 .>> 25) .& 32767);; put ((block9 .>> 10) .& 32767);;
  block10 ← next; put (((block9 .& 1023) .<< 5) .| (block10 .>> 59));; put ((block10 .>> 44) .& 32767);;
  put ((block10 .>> 29) .& 32767);; put ((block10 .>> 14) .& 32767);;
  block11 ← next; put (((block10 .& 16383) .<< 1) .| (block11 .>> 63));; put ((block11 .>> 48) .& 32767);;
  put ((block11 .>> 33) .& 32767);; put ((block11 .>> 18) .& 32767);; put ((block11 .>> 3) .& 32767);;
  block12 ← next; put (((block11 .& 7) .<< 12) .| (block12 .>> 52));; put ((block12 .>> 37) .& 32767);;
  put ((block12 .>> 22) .& 32767);; put ((block12 .>> 7) .& 32767);;
  block13 ← next; put (((block12 .& 127) .<< 8) .| (block13 .>> 56));; put ((block13 .>> 41) .& 32767);;
  put ((block13 .>> 26) .& 32767);; put ((block13 .>> 11) .& 32767);;
  block14 ← next; put (((block13 .& 2047) .<< 4) .| (block14 .>> 60));; put ((block14 .>> 45) .& 32767);;
  put ((block14 .>> 30) .& 32767);; put ((block14 .>> 15) .& 32767);; put (block14 .& 32767))%unrolled.

Definition bytes15 : body := λ W _, (
  byte0 ← next_byte;
  byte1 ← next_byte; put ((byte0 .<< 7) .| (byte1 .>> 1));;
  byte2 ← next_byte;
  byte3 ← next_byte; put (((byte1 .& 1) .<< 14) .| (byte2 .<< 6) .| (byte3 .>> 2));;
  byte4 ← next_byte;
  byte5 ← next_byte; put (((byte3 .& 3) .<< 13) .| (byte4 .<< 5) .| (byte5 .>> 3));;
  byte6 ← next_byte;
  byte7 ← next_byte; put (((byte5 .& 7) .<< 12) .| (byte6 .<< 4) .| (byte7 .>> 4));;
  byte8 ← next_byte;
  byte9 ← next_byte; put (((byte7 .& 15) .<< 11) .| (byte8 .<< 3) .| (byte9 .>> 5));;
  byte10 ← next_byte;
  byte11 ← next_byte; put (((byte9 .& 31) .<< 10) .| (byte10 .<< 2) .| (byte11 .>> 6));;
  byte12 ← next_byte;
  byte13 ← next_byte; put (((byte11 .& 63) .<< 9) .| (byte12 .<< 1) .| (byte13 .>> 7));;
  byte14 ← next_byte; put (((byte13 .& 127) .<< 8) .| byte14))%unrolled.

Definition longs16 : body := λ W _, (
  block ← next; for_down 64 48 16 (λ shift, put ((block .>> shift) .& 65535)))%unrolled.

Definition bytes16 : body := λ W _, (
  hi ← next_byte;
  lo ← next_byte; put ((hi .<< 8) .| lo))%unrolled.

Definition longs17 : body := λ W _, (
  block0 ← next; put (block0 .>> 47);; put ((block0 .>> 30) .& 131071);; put ((block0 .>> 13) .& 131071);;
  block1 ← next; put (((block0 .& 8191) .<< 4) .| (block1 .>> 60));; put ((block1 .>> 43) .& 131071);;
  put ((block1 .>> 26) .& 131071);; put ((block1 .>> 9) .& 131071);;
  block2 ← next; put (((block1 .& 511) .<< 8) .| (block2 .>> 56));; put ((block2 .>> 39) .& 131071);;
  put ((block2 .>> 22) .& 131071);; put ((block2 .>> 5) .& 131071);;
  block3 ← next; put (((block2 .& 31) .<< 12) .| (block3 .>> 52));; put ((block3 .>> 35) .& 131071);;
  put ((block3 .>> 18) .& 131071);; put ((block3 .>> 1) .& 131071);;
  block4 ← next; put (((block3 .& 1) .<< 16) .| (block4 .>> 48));; put ((block4 .>> 31) .& 131071);;
  put ((block4 .>> 14) .& 131071);;
  block5 ← next; put (((block4 .& 16383) .<< 3) .| (block5 .>> 61));; put ((block5 .>> 44) .& 131071);;
  put ((block5 .>> 27) .& 131071);; put ((block5 .>> 10) .& 131071);;
  block6 ← next; put (((block5 .& 1023) .<< 7) .| (block6 .>> 57));; put ((block6 .>> 40) .& 131071);;
  put ((block6 .>> 23) .& 131071);; put ((block6 .>> 6) .& 131071);;
  block7 ← next; put (((block6 .& 63) .<< 11) .| (block7 .>> 53));; put ((block7 .>> 36) .& 131071);;
  put ((block7 .>> 19) .& 131071);; put ((block7 .>> 2) .& 131071);;
  block8 ← next; put (((block7 .& 3) .<< 15) .| (block8 .>> 49));; put ((block8 .>> 32) .& 131071);;
  put ((block8 .>> 15) .& 131071);;
  block9 ← next; put (((block8 .& 32767) .<< 2) .| (block9 .>> 62));; put ((block9 .>> 45) .& 131071);;
  put ((block9 .>> 28) .& 131071);; put ((block9 .>> 11) .& 131071);;
  block10 ← next; put (((block9 .& 2047) .<< 6) .| (block10 .>> 58));; put ((block10 .>> 41) .& 131071);;
  put ((block10 .>> 24) .& 131071);; put ((block10 .>> 7) .& 131071);;
  block11 ← next; put (((block10 .& 127) .<< 10) .| (block11 .>> 54));; put ((block11 .>> 37) .& 131071);;
  put ((block11 .>> 20) .& 131071);; put ((block11 .>> 3) .& 131071);;
  block12 ← next; put (((block11 .& 7) .<< 14) .| (block12 .>> 50));; put ((block12 .>> 33) .& 131071);;
  put ((block12 .>> 16) .& 131071);;
  block13 ← next; put (((block12 .& 65535) .<< 1) .| (block13 .>> 63));; put ((block13 .>> 46) .& 131071);;
  put ((block13 .>> 29) .& 131071);; put ((block13 .>> 12) .& 131071);;
  block14 ← next; put (((block13 .& 4095) .<< 5) .| (block14 .>> 59));; put ((block14 .>> 42) .& 131071);;
  put ((block14 .>> 25) .& 131071);; put ((block14 .>> 8) .& 131071);;
  block15 ← next; put (((block14 .& 255) .<< 9) .| (block15 .>> 55));; put ((block15 .>> 38) .& 131071);;
  put ((block15 .>> 21) .& 131071);; put ((block15 .>> 4) .& 131071);;
  block16 ← next; put (((block15 .& 15) .<< 13) .| (block16 .>> 51));; put ((block16 .>> 34) .& 131071);;
  put ((block16 .>> 17) .& 131071);; put (block16 .& 131071))%unrolled.

Definition bytes17 : body := λ W _, (
  byte0 ← next_byte;
  byte1 ← next_byte;
  byte2 ← next_byte; put ((byte0 .<< 9) .| (byte1 .<< 1) .| (byte2 .>> 7));;
  byte3 ← next_byte;
  byte4 ← next_byte; put (((byte2 .& 127) .<< 10) .| (byte3 .<< 2) .| (byte4 .>> 6));;
  byte5 ← next_byte;
  byte6 ← next_byte; put (((byte4 .& 63) .<< 11) .| (byte5 .<< 3) .| (byte6 .>> 5));;
  byte7 ← next_byte;
  byte8 ← next_byte; put (((byte6 .& 31) .<< 12) .| (byte7 .<< 4) .| (byte8 .>> 4));;
  byte9 ← next_byte;
  byte10 ← next_byte; put (((byte8 .& 15) .<< 13) .| (byte9 .<< 5) .| (byte10 .>> 3));;
  byte11 ← next_byte;
  byte12 ← next_byte; put (((byte10 .& 7) .<< 14) .| (byte11 .<< 6) .| (byte12 .>> 2));;
  byte13 ← next_byte;
  byte14 ← next_byte; put (((byte12 .& 3) .<< 15) .| (byte13 .<< 7) .| (byte14 .>> 1));;
  byte15 ← next_byte;
  byte16 ← next_byte; put (((byte14 .& 1) .<< 16) .| (byte15 .<< 8) .| byte16))%unrolled.

Definition longs18 : body := λ W _, (
  block0 ← next; put (block0 .>> 46);; put ((block0 .>> 28) .& 262143);; put ((block0 .>> 10) .& 262143);;
  block1 ← next; put (((block0 .& 1023) .<< 8) .| (block1 .>> 56));; put ((block1 .>> 38) .& 262143);;
  put ((block1 .>> 20) .& 262143);; put ((block1 .>> 2) .& 262143);;
  block2 ← next; put (((block1 .& 3) .<< 16) .| (block2 .>> 48));; put ((block2 .>> 30) .& 262143);;
  put ((block2 .>> 12) .& 262143);;
  block3 ← next; put (((block2 .& 4095) .<< 6) .| (block3 .>> 58));; put ((block3 .>> 40) .& 262143);;
  put ((block3 .>> 22) .& 262143);; put ((block3 .>> 4) .& 262143);;
  block4 ← next; put (((block3 .& 15) .<< 14) .| (block4 .>> 50));; put ((block4 .>> 32) .& 262143);;
  put ((block4 .>> 14) .& 262143);;
  block5 ← next; put (((block4 .& 16383) .<< 4) .| (block5 .>> 60));; put ((block5 .>> 42) .& 262143);;
  put ((block5 .>> 24) .& 262143);; put ((block5 .>> 6) .& 262143);;
  block6 ← next; put (((block5 .& 63) .<< 12) .| (block6 .>> 52));; put ((block6 .>> 34) .& 262143);;
  put ((block6 .>> 16) .& 262143);;
  block7 ← next; put (((block6 .& 65535) .<< 2) .| (block7 .>> 62));; put ((block7 .>> 44) .& 262143);;
  put ((block7 .>> 26) .& 262143);; put ((block7 .>> 8) .& 262143);;
  block8 ← next; put (((block7 .& 255) .<< 10) .| (block8 .>> 54));; put ((block8 .>> 36) .& 262143);;
  put ((block8 .>> 18) .& 262143);; put (block8 .& 262143))%unrolled.

Definition bytes18 : body := λ W _, (
  byte0 ← next_byte;
  byte1 ← next_byte;
  byte2 ← next_byte; put ((byte0 .<< 10) .| (byte1 .<< 2) .| (byte2 .>> 6));;
  byte3 ← next_byte;
  byte4 ← next_byte; put (((byte2 .& 63) .<< 12) .| (byte3 .<< 4) .| (byte4 .>> 4));;
  byte5 ← next_byte;
  byte6 ← next_byte; put (((byte4 .& 15) .<< 14) .| (byte5 .<< 6) .| (byte6 .>> 2));;
  byte7 ← next_byte;
  byte8 ← next_byte; put (((byte6 .& 3) .<< 16) .| (byte7 .<< 8) .| byte8))%unrolled.

Definition longs19 : body := λ W _, (
  block0 ← next; put (block0 .>> 45);; put ((block0 .>> 26) .& 524287);; put ((block0 .>> 7) .& 524287);;
  block1 ← next; put (((block0 .& 127) .<< 12) .| (block1 .>> 52));; put ((block1 .>> 33) .& 524287);;
  put ((block1 .>> 14) .& 524287);;
  block2 ← next; put (((block1 .& 16383) .<< 5) .| (block2 .>> 59));; put ((block2 .>> 40) .& 524287);;
  put ((block2 .>> 21) .& 524287);; put ((block2 .>> 2) .& 524287);;
  block3 ← next; put (((block2 .& 3) .<< 17) .| (block3 .>> 47));; put ((block3 .>> 28) .& 524287);;
  put ((block3 .>> 9) .& 524287);;
  block4 ← next; put (((block3 .& 511) .<< 10) .| (block4 .>> 54));; put ((block4 .>> 35) .& 524287);;
  put ((block4 .>> 16) .& 524287);;
  block5 ← next; put (((block4 .& 65535) .<< 3) .| (block5 .>> 61));; put ((block5 .>> 42) .& 524287);;
  put ((block5 .>> 23) .& 524287);; put ((block5 .>> 4) .& 524287);;
  block6 ← next; put (((block5 .& 15) .<< 15) .| (block6 .>> 49));; put ((block6 .>> 30) .& 524287);;
  put ((block6 .>> 11) .& 524287);;
  block7 ← next; put (((block6 .& 2047) .<< 8) .| (block7 .>> 56));; put ((block7 .>> 37) .& 524287);;
  put ((block7 .>> 18) .& 524287);;
  block8 ← next; put (((block7 .& 262143) .<< 1) .| (block8 .>> 63));; put ((block8 .>> 44) .& 524287);;
  put ((block8 .>> 25) .& 524287);; put ((block8 .>> 6) .& 524287);;
  block9 ← next; put (((block8 .& 63) .<< 13) .| (block9 .>> 51));; put ((block9 .>> 32) .& 524287);;
  put ((block9 .>> 13) .& 524287);;
  block10 ← next; put (((block9 .& 8191) .<< 6) .| (block10 .>> 58));; put ((block10 .>> 39) .& 524287);;
  put ((block10 .>> 20) .& 524287);; put ((block10 .>> 1) .& 524287);;
  block11 ← next; put (((block10 .& 1) .<< 18) .| (block11 .>> 46));; put ((block11 .>> 27) .& 524287);;
  put ((block11 .>> 8) .& 524287);;
  block12 ← next; put (((block11 .& 255) .<< 11) .| (block12 .>> 53));; put ((block12 .>> 34) .& 524287);;
  put ((block12 .>> 15) .& 524287);;
  block13 ← next; put (((block12 .& 32767) .<< 4) .| (block13 .>> 60));; put ((block13 .>> 41) .& 524287);;
  put ((block13 .>> 22) .& 524287);; put ((block13 .>> 3) .& 524287);;
  block14 ← next; put (((block13 .& 7) .<< 16) .| (block14 .>> 48));; put ((block14 .>> 29) .& 524287);;
  put ((block14 .>> 10) .& 524287);;
  block15 ← next; put (((block14 .& 1023) .<< 9) .| (block15 .>> 55));; put ((block15 .>> 36) .& 524287);;
  put ((block15 .>> 17) .& 524287);;
  block16 ← next; put (((block15 .& 131071) .<< 2) .| (block16 .>> 62));; put ((block16 .>> 43) .& 524287);;
  put ((block16 .>> 24) .& 524287);; put ((block16 .>> 5) .& 524287);;
  block17 ← next; put (((block16 .& 31) .<< 14) .| (block17 .>> 50));; put ((block17 .>> 31) .& 524287);;
  put ((block17 .>> 12) .& 524287);;
  block18 ← next; put (((block17 .& 4095) .<< 7) .| (block18 .>> 57));; put ((block18 .>> 38) .& 524287);;
  put ((block18 .>> 19) .& 524287);; put (block18 .& 524287))%unrolled.

Definition bytes19 : body := λ W _, (
  byte0 ← next_byte;
  byte1 ← next_byte;
  byte2 ← next_byte; put ((byte0 .<< 11) .| (byte1 .<< 3) .| (byte2 .>> 5));;
  byte3 ← next_byte;
  byte4 ← next_byte; put (((byte2 .& 31) .<< 14) .| (byte3 .<< 6) .| (byte4 .>> 2));;
  byte5 ← next_byte;
  byte6 ← next_byte;
  byte7 ← next_byte; put (((byte4 .& 3) .<< 17) .| (byte5 .<< 9) .| (byte6 .<< 1) .| (byte7 .>> 7));;
  byte8 ← next_byte;
  byte9 ← next_byte; put (((byte7 .& 127) .<< 12) .| (byte8 .<< 4) .| (byte9 .>> 4));;
  byte10 ← next_byte;
  byte11 ← next_byte; put (((byte9 .& 15) .<< 15) .| (byte10 .<< 7) .| (byte11 .>> 1));;
  byte12 ← next_byte;
  byte13 ← next_byte;
  byte14 ← next_byte; put (((byte11 .& 1) .<< 18) .| (byte12 .<< 10) .| (byte13 .<< 2) .| (byte14 .>> 6));;
  byte15 ← next_byte;
  byte16 ← next_byte; put (((byte14 .& 63) .<< 13) .| (byte15 .<< 5) .| (byte16 .>> 3));;
  byte17 ← next_byte;
  byte18 ← next_byte; put (((byte16 .& 7) .<< 16) .| (byte17 .<< 8) .| byte18))%unrolled.

Definition longs20 : body := λ W _, (
  block0 ← next; put (block0 .>> 44);; put ((block0 .>> 24) .& 1048575);; put ((block0 .>> 4) .& 1048575);;
  block1 ← next; put (((block0 .& 15) .<< 16) .| (block1 .>> 48));; put ((block1 .>> 28) .& 1048575);;
  put ((block1 .>> 8) .& 1048575);;
  block2 ← next; put (((block1 .& 255) .<< 12) .| (block2 .>> 52));; put ((block2 .>> 32) .& 1048575);;
  put ((block2 .>> 12) .& 1048575);;
  block3 ← next; put (((block2 .& 4095) .<< 8) .| (block3 .>> 56));; put ((block3 .>> 36) .& 1048575);;
  put ((block3 .>> 16) .& 1048575);;
  block4 ← next; put (((block3 .& 65535) .<< 4) .| (block4 .>> 60));; put ((block4 .>> 40) .& 1048575);;
  put ((block4 .>> 20) .& 1048575);; put (block4 .& 1048575))%unrolled.

Definition bytes20 : body := λ W _, (
  byte0 ← next_byte;
  byte1 ← next_byte;
  byte2 ← next_byte; put ((byte0 .<< 12) .| (byte1 .<< 4) .| (byte2 .>> 4));;
  byte3 ← next_byte;
  byte4 ← next_byte; put (((byte2 .& 15) .<< 16) .| (byte3 .<< 8) .| byte4))%unrolled.

Definition longs21 : body := λ W _, (
  block0 ← next; put (block0 .>> 43);; put ((block0 .>> 22) .& 2097151);; put ((block0 .>> 1) .& 2097151);;
  block1 ← next; put (((block0 .& 1) .<< 20) .| (block1 .>> 44));; put ((block1 .>> 23) .& 2097151);;
  put ((block1 .>> 2) .& 2097151);;
  block2 ← next; put (((block1 .& 3) .<< 19) .| (block2 .>> 45));; put ((block2 .>> 24) .& 2097151);;
  put ((block2 .>> 3) .& 2097151);;
  block3 ← next; put (((block2 .& 7) .<< 18) .| (block3 .>> 46));; put ((block3 .>> 25) .& 2097151);;
  put ((block3 .>> 4) .& 2097151);;
  block4 ← next; put (((block3 .& 15) .<< 17) .| (block4 .>> 47));; put ((block4 .>> 26) .& 2097151);;
  put ((block4 .>> 5) .& 2097151);;
  block5 ← next; put (((block4 .& 31) .<< 16) .| (block5 .>> 48));; put ((block5 .>> 27) .& 2097151);;
  put ((block5 .>> 6) .& 2097151);;
  block6 ← next; put (((block5 .& 63) .<< 15) .| (block6 .>> 49));; put ((block6 .>> 28) .& 2097151);;
  put ((block6 .>> 7) .& 2097151);;
  block7 ← next; put (((block6 .& 127) .<< 14) .| (block7 .>> 50));; put ((block7 .>> 29) .& 2097151);;
  put ((block7 .>> 8) .& 2097151);;
  block8 ← next; put (((block7 .& 255) .<< 13) .| (block8 .>> 51));; put ((block8 .>> 30) .& 2097151);;
  put ((block8 .>> 9) .& 2097151);;
  block9 ← next; put (((block8 .& 511) .<< 12) .| (block9 .>> 52));; put ((block9 .>> 31) .& 2097151);;
  put ((block9 .>> 10) .& 2097151);;
  block10 ← next; put (((block9 .& 1023) .<< 11) .| (block10 .>> 53));; put ((block10 .>> 32) .& 2097151);;
  put ((block10 .>> 11) .& 2097151);;
  block11 ← next; put (((block10 .& 2047) .<< 10) .| (block11 .>> 54));; put ((block11 .>> 33) .& 2097151);;
  put ((block11 .>> 12) .& 2097151);;
  block12 ← next; put (((block11 .& 4095) .<< 9) .| (block12 .>> 55));; put ((block12 .>> 34) .& 2097151);;
  put ((block12 .>> 13) .& 2097151);;
  block13 ← next; put (((block12 .& 8191) .<< 8) .| (block13 .>> 56));; put ((block13 .>> 35) .& 2097151);;
  put ((block13 .>> 14) .& 2097151);;
  block14 ← next; put (((block13 .& 16383) .<< 7) .| (block14 .>> 57));; put ((block14 .>> 36) .& 2097151);;
  put ((block14 .>> 15) .& 2097151);;
  block15 ← next; put (((block14 .& 32767) .<< 6) .| (block15 .>> 58));; put ((block15 .>> 37) .& 2097151);;
  put ((block15 .>> 16) .& 2097151);;
  block16 ← next; put (((block15 .& 65535) .<< 5) .| (block16 .>> 59));; put ((block16 .>> 38) .& 2097151);;
  put ((block16 .>> 17) .& 2097151);;
  block17 ← next; put (((block16 .& 131071) .<< 4) .| (block17 .>> 60));; put ((block17 .>> 39) .& 2097151);;
  put ((block17 .>> 18) .& 2097151);;
  block18 ← next; put (((block17 .& 262143) .<< 3) .| (block18 .>> 61));; put ((block18 .>> 40) .& 2097151);;
  put ((block18 .>> 19) .& 2097151);;
  block19 ← next; put (((block18 .& 524287) .<< 2) .| (block19 .>> 62));; put ((block19 .>> 41) .& 2097151);;
  put ((block19 .>> 20) .& 2097151);;
  block20 ← next; put (((block19 .& 1048575) .<< 1) .| (block20 .>> 63));; put ((block20 .>> 42) .& 2097151);;
  put ((block20 .>> 21) .& 2097151);; put (block20 .& 2097151))%unrolled.

Definition bytes21 : body := λ W _, (
  byte0 ← next_byte;
  byte1 ← next_byte;
  byte2 ← next_byte; put ((byte0 .<< 13) .| (byte1 .<< 5) .| (byte2 .>> 3));;
  byte3 ← next_byte;
  byte4 ← next_byte;
  byte5 ← next_byte; put (((byte2 .& 7) .<< 18) .| (byte3 .<< 10) .| (byte4 .<< 2) .| (byte5 .>> 6));;
  byte6 ← next_byte;
  byte7 ← next_byte; put (((byte5 .& 63) .<< 15) .| (byte6 .<< 7) .| (byte7 .>> 1));;
  byte8 ← next_byte;
  byte9 ← next_byte;
  byte10 ← next_byte; put (((byte7 .& 1) .<< 20) .| (byte8 .<< 12) .| (byte9 .<< 4) .| (byte10 .>> 4));;
  byte11 ← next_byte;
  byte12 ← next_byte;
  byte13 ← next_byte; put (((byte10 .& 15) .<< 17) .| (byte11 .<< 9) .| (byte12 .<< 1) .| (byte13 .>> 7));;
  byte14 ← next_byte;
  byte15 ← next_byte; put (((byte13 .& 127) .<< 14) .| (byte14 .<< 6) .| (byte15 .>> 2));;
  byte16 ← next_byte;
  byte17 ← next_byte;
  byte18 ← next_byte; put (((byte15 .& 3) .<< 19) .| (byte16 .<< 11) .| (byte17 .<< 3) .| (byte18 .>> 5));;
  byte19 ← next_byte;
  byte20 ← next_byte; put (((byte18 .& 31) .<< 16) .| (byte19 .<< 8) .| byte20))%unrolled.

Definition longs22 : body := λ W _, (
  block0 ← next; put (block0 .>> 42);; put ((block0 .>> 20) .& 4194303);;
  block1 ← next; put (((block0 .& 1048575) .<< 2) .| (block1 .>> 62));; put ((block1 .>> 40) .& 4194303);;
  put ((block1 .>> 18) .& 4194303);;
  block2 ← next; put (((block1 .& 262143) .<< 4) .| (block2 .>> 60));; put ((block2 .>> 38) .& 4194303);;
  put ((block2 .>> 16) .& 4194303);;
  block3 ← next; put (((block2 .& 65535) .<< 6) .| (block3 .>> 58));; put ((block3 .>> 36) .& 4194303);;
  put ((block3 .>> 14) .& 4194303);;
  block4 ← next; put (((block3 .& 16383) .<< 8) .| (block4 .>> 56));; put ((block4 .>> 34) .& 4194303);;
  put ((block4 .>> 12) .& 4194303);;
  block5 ← next; put (((block4 .& 4095) .<< 10) .| (block5 .>> 54));; put ((block5 .>> 32) .& 4194303);;
  put ((block5 .>> 10) .& 4194303);;
  block6 ← next; put (((block5 .& 1023) .<< 12) .| (block6 .>> 52));; put ((block6 .>> 30) .& 4194303);;
  put ((block6 .>> 8) .& 4194303);;
  block7 ← next; put (((block6 .& 255) .<< 14) .| (block7 .>> 50));; put ((block7 .>> 28) .& 4194303);;
  put ((block7 .>> 6) .& 4194303);;
  block8 ← next; put (((block7 .& 63) .<< 16) .| (block8 .>> 48));; put ((block8 .>> 26) .& 4194303);;
  put ((block8 .>> 4) .& 4194303);;
  block9 ← next; put (((block8 .& 15) .<< 18) .| (block9 .>> 46));; put ((block9 .>> 24) .& 4194303);;
  put ((block9 .>> 2) .& 4194303);;
  block10 ← next; put (((block9 .& 3) .<< 20) .| (block10 .>> 44));; put ((block10 .>> 22) .& 4194303);;
  put (block10 .& 4194303))%unrolled.

Definition bytes22 : body := λ W _, (
  byte0 ← next_byte;
  byte1 ← next_byte;
  byte2 ← next_byte; put ((byte0 .<< 14) .| (byte1 .<< 6) .| (byte2 .>> 2));;
  byte3 ← next_byte;
  byte4 ← next_byte;
  byte5 ← next_byte; put (((byte2 .& 3) .<< 20) .| (byte3 .<< 12) .| (byte4 .<< 4) .| (byte5 .>> 4));;
  byte6 ← next_byte;
  byte7 ← next_byte;
  byte8 ← next_byte; put (((byte5 .& 15) .<< 18) .| (byte6 .<< 10) .| (byte7 .<< 2) .| (byte8 .>> 6));;
  byte9 ← next_byte;
  byte10 ← next_byte; put (((byte8 .& 63) .<< 16) .| (byte9 .<< 8) .| byte10))%unrolled.

Definition longs23 : body := λ W _, (
  block0 ← next; put (block0 .>> 41);; put ((block0 .>> 18) .& 8388607);;
  block1 ← next; put (((block0 .& 262143) .<< 5) .| (block1 .>> 59));; put ((block1 .>> 36) .& 8388607);;
  put ((block1 .>> 13) .& 8388607);;
  block2 ← next; put (((block1 .& 8191) .<< 10) .| (block2 .>> 54));; put ((block2 .>> 31) .& 8388607);;
  put ((block2 .>> 8) .& 8388607);;
  block3 ← next; put (((block2 .& 255) .<< 15) .| (block3 .>> 49));; put ((block3 .>> 26) .& 8388607);;
  put ((block3 .>> 3) .& 8388607);;
  block4 ← next; put (((block3 .& 7) .<< 20) .| (block4 .>> 44));; put ((block4 .>> 21) .& 8388607);;
  block5 ← next; put (((block4 .& 2097151) .<< 2) .| (block5 .>> 62));; put ((block5 .>> 39) .& 8388607);;
  put ((block5 .>> 16) .& 8388607);;
  block6 ← next; put (((block5 .& 65535) .<< 7) .| (block6 .>> 57));; put ((block6 .>> 34) .& 8388607);;
  put ((block6 .>> 11) .& 8388607);;
  block7 ← next; put (((block6 .& 2047) .<< 12) .| (block7 .>> 52));; put ((block7 .>> 29) .& 8388607);;
  put ((block7 .>> 6) .& 8388607);;
  block8 ← next; put (((block7 .& 63) .<< 17) .| (block8 .>> 47));; put ((block8 .>> 24) .& 8388607);;
  put ((block8 .>> 1) .& 8388607);;
  block9 ← next; put (((block8 .& 1) .<< 22) .| (block9 .>> 42));; put ((block9 .>> 19) .& 8388607);;
  block10 ← next; put (((block9 .& 524287) .<< 4) .| (block10 .>> 60));; put ((block10 .>> 37) .& 8388607);;
  put ((block10 .>> 14) .& 8388607);;
  block11 ← next; put (((block10 .& 16383) .<< 9) .| (block11 .>> 55));; put ((block11 .>> 32) .& 8388607);;
  put ((block11 .>> 9) .& 8388607);;
  block12 ← next; put (((block11 .& 511) .<< 14) .| (block12 .>> 50));; put ((block12 .>> 27) .& 8388607);;
  put ((block12 .>> 4) .& 8388607);;
  block13 ← next; put (((block12 .& 15) .<< 19) .| (block13 .>> 45));; put ((block13 .>> 22) .& 8388607);;
  block14 ← next; put (((block13 .& 4194303) .<< 1) .| (block14 .>> 63));; put ((block14 .>> 40) .& 8388607);;
  put ((block14 .>> 17) .& 8388607);;
  block15 ← next; put (((block14 .& 131071) .<< 6) .| (block15 .>> 58));; put ((block15 .>> 35) .& 8388607);;
  put ((block15 .>> 12) .& 8388607);;
  block16 ← next; put (((block15 .& 4095) .<< 11) .| (block16 .>> 53));; put ((block16 .>> 30) .& 8388607);;
  put ((block16 .>> 7) .& 8388607);;
  block17 ← next; put (((block16 .& 127) .<< 16) .| (block17 .>> 48));; put ((block17 .>> 25) .& 8388607);;
  put ((block17 .>> 2) .& 8388607);;
  block18 ← next; put (((block17 .& 3) .<< 21) .| (block18 .>> 43));; put ((block18 .>> 20) .& 8388607);;
  block19 ← next; put (((block18 .& 1048575) .<< 3) .| (block19 .>> 61));; put ((block19 .>> 38) .& 8388607);;
  put ((block19 .>> 15) .& 8388607);;
  block20 ← next; put (((block19 .& 32767) .<< 8) .| (block20 .>> 56));; put ((block20 .>> 33) .& 8388607);;
  put ((block20 .>> 10) .& 8388607);;
  block21 ← next; put (((block20 .& 1023) .<< 13) .| (block21 .>> 51));; put ((block21 .>> 28) .& 8388607);;
  put ((block21 .>> 5) .& 8388607);;
  block22 ← next; put (((block21 .& 31) .<< 18) .| (block22 .>> 46));; put ((block22 .>> 23) .& 8388607);;
  put (block22 .& 8388607))%unrolled.

Definition bytes23 : body := λ W _, (
  byte0 ← next_byte;
  byte1 ← next_byte;
  byte2 ← next_byte; put ((byte0 .<< 15) .| (byte1 .<< 7) .| (byte2 .>> 1));;
  byte3 ← next_byte;
  byte4 ← next_byte;
  byte5 ← next_byte; put (((byte2 .& 1) .<< 22) .| (byte3 .<< 14) .| (byte4 .<< 6) .| (byte5 .>> 2));;
  byte6 ← next_byte;
  byte7 ← next_byte;
  byte8 ← next_byte; put (((byte5 .& 3) .<< 21) .| (byte6 .<< 13) .| (byte7 .<< 5) .| (byte8 .>> 3));;
  byte9 ← next_byte;
  byte10 ← next_byte;
  byte11 ← next_byte; put (((byte8 .& 7) .<< 20) .| (byte9 .<< 12) .| (byte10 .<< 4) .| (byte11 .>> 4));;
  byte12 ← next_byte;
  byte13 ← next_byte;
  byte14 ← next_byte; put (((byte11 .& 15) .<< 19) .| (byte12 .<< 11) .| (byte13 .<< 3) .| (byte14 .>> 5));;
  byte15 ← next_byte;
  byte16 ← next_byte;
  byte17 ← next_byte; put (((byte14 .& 31) .<< 18) .| (byte15 .<< 10) .| (byte16 .<< 2) .| (byte17 .>> 6));;
  byte18 ← next_byte;
  byte19 ← next_byte;
  byte20 ← next_byte; put (((byte17 .& 63) .<< 17) .| (byte18 .<< 9) .| (byte19 .<< 1) .| (byte20 .>> 7));;
  byte21 ← next_byte;
  byte22 ← next_byte; put (((byte20 .& 127) .<< 16) .| (byte21 .<< 8) .| byte22))%unrolled.

Definition longs24 : body := λ W _, (
  block0 ← next; put (block0 .>> 40);; put ((block0 .>> 16) .& 16777215);;
  block1 ← next; put (((block0 .& 65535) .<< 8) .| (block1 .>> 56));; put ((block1 .>> 32) .& 16777215);;
  put ((block1 .>> 8) .& 16777215);;
  block2 ← next; put (((block1 .& 255) .<< 16) .| (block2 .>> 48));; put ((block2 .>> 24) .& 16777215);;
  put (block2 .& 16777215))%unrolled.

Definition bytes24 : body := λ W _, (
  byte0 ← next_byte;
  byte1 ← next_byte;
  byte2 ← next_byte; put ((byte0 .<< 16) .| (byte1 .<< 8) .| byte2))%unrolled.

(** * The operations *)

(** [op blocks blocksOffset values valuesOffset iterations] *)
Definition operation (E : Type) : Type := list Z → Z → list Z → Z → Z → go E (list Z).

(** A [struct] that embeds a [*bulkOperationPacked] and has its own decoders. *)
Record specialised (E : Type) := {
  embedded : bulkOperationPacked;
  ownDecodeLongs : operation E;
  ownDecodeBytes : operation E;
  ownDecodeLongsToInts : operation E;
  ownDecodeBytesToInts : operation E
}.
Arguments embedded {E} s.
Arguments ownDecodeLongs {E} s.
Arguments ownDecodeBytes {E} s.
Arguments ownDecodeLongsToInts {E} s.
Arguments ownDecodeBytesToInts {E} s.

Section Operations.
Context {E : Type}.
Local Abbreviation G := (go E).

Definition DecodeLongs1 : operation E := unrolled 64 to_int64 longs1.
Definition DecodeBytes1 : operation E := unrolled 32 to_int64 bytes1.
Definition DecodeLongsToInts1 : operation E := unrolled 64 to_int32 longs1.
Definition DecodeBytesToInts1 : operation E := unrolled 32 to_int32 bytes1.
Definition newBulkOperationPacked1 : G (specialised E) :=
  b ← newBulkOperationPacked 1;
  Ret {| embedded := b; ownDecodeLongs := DecodeLongs1; ownDecodeBytes := DecodeBytes1;
         ownDecodeLongsToInts := DecodeLongsToInts1; ownDecodeBytesToInts := DecodeBytesToInts1 |}.

Definition DecodeLongs2 : operation E := unrolled 64 to_int64 longs2.
Definition DecodeBytes2 : operation E := unrolled 32 to_int64 bytes2.
Definition DecodeLongsToInts2 : operation E := unrolled 64 to_int32 longs2.
Definition DecodeBytesToInts2 : operation E := unrolled 32 to_int32 bytes2.
Definition newBulkOperationPacked2 : G (specialised E) :=
  b ← newBulkOperationPacked 2;
  Ret {| embedded := b; ownDecodeLongs := DecodeLongs2; ownDecodeBytes := DecodeBytes2;
         ownDecodeLongsToInts := DecodeLongsToInts2; ownDecodeBytesToInts := DecodeBytesToInts2 |}.

Definition DecodeLongs3 : operation E := unrolled 64 to_int64 longs3.
Definition DecodeBytes3 : operation E := unrolled 64 to_int64 bytes3.
Definition DecodeLongsToInts3 : operation E := unrolled 64 to_int32 longs3.
Definition DecodeBytesToInts3 : operation E := unrolled 32 to_int32 bytes3.
Definition newBulkOperationPacked3 : G (specialised E) :=
  b ← newBulkOperationPacked 3;
  Ret {| embedded := b; ownDecodeLongs := DecodeLongs3; ownDecodeBytes := DecodeBytes3;
         ownDecodeLongsToInts := DecodeLongsToInts3; ownDecodeBytesToInts := DecodeBytesToInts3 |}.

Definition DecodeLongs4 : operation E := unrolled 64 to_int64 longs4.
Definition DecodeBytes4 : operation E := unrolled 32 to_int64 bytes4.
Definition DecodeLongsToInts4 : operation E := unrolled 64 to_int32 longs4.
Definition DecodeBytesToInts4 : operation E := unrolled 32 to_int32 bytes4.
Definition newBulkOperationPacked4 : G (specialised E) :=
  b ← newBulkOperationPacked 4;
  Ret {| embedded := b; ownDecodeLongs := DecodeLongs4; ownDecodeBytes := DecodeBytes4;
         ownDecodeLongsToInts := DecodeLongsToInts4; ownDecodeBytesToInts := DecodeBytesToInts4 |}.

Definition DecodeLongs5 : operation E := unrolled 64 to_int64 longs5.
Definition DecodeBytes5 : operation E := unrolled 64 to_int64 bytes5.
Definition DecodeLongsToInts5 : operation E := unrolled 64 to_int32 longs5.
Definition DecodeBytesToInts5 : operation E := unrolled 32 to_int32 bytes5.
Definition newBulkOperationPacked5 : G (specialised E) :=
  b ← newBulkOperationPacked 5;
  Ret {| embedded := b; ownDecodeLongs := DecodeLongs5; ownDecodeBytes := DecodeBytes5;
         ownDecodeLongsToInts := DecodeLongsToInts5; ownDecodeBytesToInts := DecodeBytesToInts5 |}.

Definition DecodeLongs6 : operation E := unrolled 64 to_int64 longs6.
Definition DecodeBytes6 : operation E := unrolled 64 to_int64 bytes6.
Definition DecodeLongsToInts6 : operation E := unrolled 64 to_int32 longs6.
Definition DecodeBytesToInts6 : operation E := unrolled 32 to_int32 bytes6.
Definition newBulkOperationPacked6 : G (specialised E) :=
  b ← newBulkOperationPacked 6;
  Ret {| embedded := b; ownDecodeLongs := DecodeLongs6; ownDecodeBytes := DecodeBytes6;
         ownDecodeLongsToInts := DecodeLongsToInts6; ownDecodeBytesToInts := DecodeBytesToInts6 |}.

Definition DecodeLongs7 : operation E := unrolled 64 to_int64 longs7.
Definition DecodeBytes7 : operation E := unrolled 64 to_int64 bytes7.
Definition DecodeLongsToInts7 : operation E := unrolled 64 to_int32 longs7.
Definition DecodeBytesToInts7 : operation E := unrolled 32 to_int32 bytes7.
Definition newBulkOperationPacked7 : G (specialised E) :=
  b ← newBulkOperationPacked 7;
  Ret {| embedded := b; ownDecodeLongs := DecodeLongs7; ownDecodeBytes := DecodeBytes7;
         ownDecodeLongsToInts := DecodeLongsToInts7; ownDecodeBytesToInts := DecodeBytesToInts7 |}.

Definition DecodeLongs8 : operation E := unrolled 64 to_int64 longs8.
Definition DecodeBytes8 : operation E := unrolled 64 to_int64 bytes8.
Definition DecodeLongsToInts8 : operation E := unrolled 64 to_int32 longs8.
Definition DecodeBytesToInts8 : operation E := unrolled 32 to_int32 bytes8.
Definition newBulkOperationPacked8 : G (specialised E) :=
  b ← newBulkOperationPacked 8;
  Ret {| embedded := b; ownDecodeLongs := DecodeLongs8; ownDecodeBytes := DecodeBytes8;
         ownDecodeLongsToInts := DecodeLongsToInts8; ownDecodeBytesToInts := DecodeBytesToInts8 |}.

Definition DecodeLongs9 : operation E := unrolled 64 to_int64 longs9.
Definition DecodeBytes9 : operation E := unrolled 64 to_int64 bytes9.
Definition DecodeLongsToInts9 : operation E := unrolled 64 to_int32 longs9.
Definition DecodeBytesToInts9 : operation E := unrolled 32 to_int32 bytes9.
Definition newBulkOperationPacked9 : G (specialised E) :=
  b ← newBulkOperationPacked 9;
  Ret {| embedded := b; ownDecodeLongs := DecodeLongs9; ownDecodeBytes := DecodeBytes9;
         ownDecodeLongsToInts := DecodeLongsToInts9; ownDecodeBytesToInts := DecodeBytesToInts9 |}.

Definition DecodeLongs10 : operation E := unrolled 64 to_int64 longs10.
Definition DecodeBytes10 : operation E := unrolled 64 to_int64 bytes10.
Definition DecodeLongsToInts10 : operation E := unrolled 64 to_int32 longs10.
Definition DecodeBytesToInts10 : operation E := unrolled 32 to_int32 bytes10.
Definition newBulkOperationPacked10 : G (specialised E) :=
  b ← newBulkOperationPacked 10;
  Ret {| embedded := b; ownDecodeLongs := DecodeLongs10; ownDecodeBytes := DecodeBytes10;
         ownDecodeLongsToInts := DecodeLongsToInts10; ownDecodeBytesToInts := DecodeBytesToInts10 |}.

Definition DecodeLongs11 : operation E := unrolled 64 to_int64 longs11.
Definition DecodeBytes11 : operation E := unrolled 64 to_int64 bytes11.
Definition DecodeLongsToInts11 : operation E := unrolled 64 to_int32 longs11.
Definition DecodeBytesToInts11 : operation E := unrolled 32 to_int32 bytes11.
Definition newBulkOperationPacked11 : G (specialised E) :=
  b ← newBulkOperationPacked 11;
  Ret {| embedded := b; ownDecodeLongs := DecodeLongs11; ownDecodeBytes := DecodeBytes11;
         ownDecodeLongsToInts := DecodeLongsToInts11; ownDecodeBytesToInts := DecodeBytesToInts11 |}.

Definition DecodeLongs12 : operation E := unrolled 64 to_int64 longs12.
Definition DecodeBytes12 : operation E := unrolled 64 to_int64 bytes12.
Definition DecodeLongsToInts12 : operation E := unrolled 64 to_int32 longs12.
Definition DecodeBytesToInts12 : operation E := unrolled 32 to_int32 bytes12.
Definition newBulkOperationPacked12 : G (specialised E) :=
  b ← newBulkOperationPacked 12;
  Ret {| embedded := b; ownDecodeLongs := DecodeLongs12; ownDecodeBytes := DecodeBytes12;
         ownDecodeLongsToInts := DecodeLongsToInts12; ownDecodeBytesToInts := DecodeBytesToInts12 |}.

Definition DecodeLongs13 : operation E := unrolled 64 to_int64 longs13.
Definition DecodeBytes13 : operation E := unrolled 64 to_int64 bytes13.
Definition DecodeLongsToInts13 : operation E := unrolled 64 to_int32 longs13.
Definition DecodeBytesToInts13 : operation E := unrolled 32 to_int32 bytes13.
Definition newBulkOperationPacked13 : G (specialised E) :=
  b ← newBulkOperationPacked 13;
  Ret {| embedded := b; ownDecodeLongs := DecodeLongs13; ownDecodeBytes := DecodeBytes13;
         ownDecodeLongsToInts := DecodeLongsToInts13; ownDecodeBytesToInts := DecodeBytesToInts13 |}.

Definition DecodeLongs14 : operation E := unrolled 64 to_int64 longs14.
Definition DecodeBytes14 : operation E := unrolled 64 to_int64 bytes14.
Definition DecodeLongsToInts14 : operation E := unrolled 64 to_int32 longs14.
Definition DecodeBytesToInts14 : operation E := unrolled 32 to_int32 bytes14.
Definition newBulkOperationPacked14 : G (specialised E) :=
  b ← newBulkOperationPacked 14;
  Ret {| embedded := b; ownDecodeLongs := DecodeLongs14; ownDecodeBytes := DecodeBytes14;
         ownDecodeLongsToInts := DecodeLongsToInts14; ownDecodeBytesToInts := DecodeBytesToInts14 |}.

Definition DecodeLongs15 : operation E := unrolled 64 to_int64 longs15.
Definition DecodeBytes15 : operation E := unrolled 64 to_int64 bytes15.
Definition DecodeLongsToInts15 : operation E := unrolled 64 to_int32 longs15.
Definition DecodeBytesToInts15 : operation E := unrolled 32 to_int32 bytes15.
Definition newBulkOperationPacked15 : G (specialised E) :=
  b ← newBulkOperationPacked 15;
  Ret {| embedded := b; ownDecodeLongs := DecodeLongs15; ownDecodeBytes := DecodeBytes15;
         ownDecodeLongsToInts := DecodeLongsToInts15; ownDecodeBytesToInts := DecodeBytesToInts15 |}.

Definition DecodeLongs16 : operation E := unrolled 64 to_int64 longs16.
Definition DecodeBytes16 : operation E := unrolled 64 to_int64 bytes16.
Definition DecodeLongsToInts16 : operation E := unrolled 64 to_int32 longs16.
Definition DecodeBytesToInts16 : operation E := unrolled 32 to_int32 bytes16.
Definition newBulkOperationPacked16 : G (specialised E) :=
  b ← newBulkOperationPacked 16;
  Ret {| embedded := b; ownDecodeLongs := DecodeLongs16; ownDecodeBytes := DecodeBytes16;
         ownDecodeLongsToInts := DecodeLongsToInts16; ownDecodeBytesToInts := DecodeBytesToInts16 |}.

Definition DecodeLongs17 : operation E := unrolled 64 to_int64 longs17.
Definition DecodeBytes17 : operation E := unrolled 64 to_int64 bytes17.
Definition DecodeLongsToInts17 : operation E := unrolled 64 to_int32 longs17.
Definition DecodeBytesToInts17 : operation E := unrolled 32 to_int32 bytes17.
Definition newBulkOperationPacked17 : G (specialised E) :=
  b ← newBulkOperationPacked 17;
  Ret {| embedded := b; ownDecodeLongs := DecodeLongs17; ownDecodeBytes := DecodeBytes17;
         ownDecodeLongsToInts := DecodeLongsToInts17; ownDecodeBytesToInts := DecodeBytesToInts17 |}.

Definition DecodeLongs18 : operation E := unrolled 64 to_int64 longs18.
Definition DecodeBytes18 : operation E := unrolled 64 to_int64 bytes18.
Definition DecodeLongsToInts18 : operation E := unrolled 64 to_int32 longs18.
Definition DecodeBytesToInts18 : operation E := unrolled 32 to_int32 bytes18.
Definition newBulkOperationPacked18 : G (specialised E) :=
  b ← newBulkOperationPacked 18;
  Ret {| embedded := b; ownDecodeLongs := DecodeLongs18; ownDecodeBytes := DecodeBytes18;
         ownDecodeLongsToInts := DecodeLongsToInts18; ownDecodeBytesToInts := DecodeBytesToInts18 |}.

Definition DecodeLongs19 : operation E := unrolled 64 to_int64 longs19.
Definition DecodeBytes19 : operation E := unrolled 64 to_int64 bytes19.
Definition DecodeLongsToInts19 : operation E := unrolled 64 to_int32 longs19.
Definition DecodeBytesToInts19 : operation E := unrolled 32 to_int32 bytes19.
Definition newBulkOperationPacked19 : G (specialised E) :=
  b ← newBulkOperationPacked 19;
  Ret {| embedded := b; ownDecodeLongs := DecodeLongs19; ownDecodeBytes := DecodeBytes19;
         ownDecodeLongsToInts := DecodeLongsToInts19; ownDecodeBytesToInts := DecodeBytesToInts19 |}.

Definition DecodeLongs20 : operation E := unrolled 64 to_int64 longs20.
Definition DecodeBytes20 : operation E := unrolled 64 to_int64 bytes20.
Definition DecodeLongsToInts20 : operation E := unrolled 64 to_int32 longs20.
Definition DecodeBytesToInts20 : operation E := unrolled 32 to_int32 bytes20.
Definition newBulkOperationPacked20 : G (specialised E) :=
  b ← newBulkOperationPacked 20;
  Ret {| embedded := b; ownDecodeLongs := DecodeLongs20; ownDecodeBytes := DecodeBytes20;
         ownDecodeLongsToInts := DecodeLongsToInts20; ownDecodeBytesToInts := DecodeBytesToInts20 |}.

Definition DecodeLongs21 : operation E := unrolled 64 to_int64 longs21.
Definition DecodeBytes21 : operation E := unrolled 64 to_int64 bytes21.
Definition DecodeLongsToInts21 : operation E := unrolled 64 to_int32 longs21.
Definition DecodeBytesToInts21 : operation E := unrolled 32 to_int32 bytes21.
Definition newBulkOperationPacked21 : G (specialised E) :=
  b ← newBulkOperationPacked 21;
  Ret {| embedded := b; ownDecodeLongs := DecodeLongs21; ownDecodeBytes := DecodeBytes21;
         ownDecodeLongsToInts := DecodeLongsToInts21; ownDecodeBytesToInts := DecodeBytesToInts21 |}.

Definition DecodeLongs22 : operation E := unrolled 64 to_int64 longs22.
Definition DecodeBytes22 : operation E := unrolled 64 to_int64 bytes22.
Definition DecodeLongsToInts22 : operation E := unrolled 64 to_int32 longs22.
Definition DecodeBytesToInts22 : operation E := unrolled 32 to_int32 bytes22.
Definition newBulkOperationPacked22 : G (specialised E) :=
  b ← newBulkOperationPacked 22;
  Ret {| embedded := b; ownDecodeLongs := DecodeLongs22; ownDecodeBytes := DecodeBytes22;
         ownDecodeLongsToInts := DecodeLongsToInts22; ownDecodeBytesToInts := DecodeBytesToInts22 |}.

Definition DecodeLongs23 : operation E := unrolled 64 to_int64 longs23.
Definition DecodeBytes23 : operation E := unrolled 64 to_int64 bytes23.
Definition DecodeLongsToInts23 : operation E := unrolled 64 to_int32 longs23.
Definition DecodeBytesToInts23 : operation E := unrolled 32 to_int32 bytes23.
Definition newBulkOperationPacked23 : G (specialised E) :=
  b ← newBulkOperationPacked 23;
  Ret {| embedded := b; ownDecodeLongs := DecodeLongs23; ownDecodeBytes := DecodeBytes23;
         ownDecodeLongsToInts := DecodeLongsToInts23; ownDecodeBytesToInts := DecodeBytesToInts23 |}.

Definition DecodeLongs24 : operation E := unrolled 64 to_int64 longs24.
Definition DecodeBytes24 : operation E := unrolled 64 to_int64 bytes24.
Definition DecodeLongsToInts24 : operation E := unrolled 64 to_int32 longs24.
Definition DecodeBytesToInts24 : operation E := unrolled 32 to_int32 bytes24.
Definition newBulkOperationPacked24 : G (specialised E) :=
  b ← newBulkOperationPacked 24;
  Ret {| embedded := b; ownDecodeLongs := DecodeLongs24; ownDecodeBytes := DecodeBytes24;
         ownDecodeLongsToInts := DecodeLongsToInts24; ownDecodeBytesToInts := DecodeBytesToInts24 |}.

(** The constructors, from one bit on. *)
Definition constructors : list (G (specialised E)) :=
  [newBulkOperationPacked1; newBulkOperationPacked2; newBulkOperationPacked3; newBulkOperationPacked4;
   newBulkOperationPacked5; newBulkOperationPacked6; newBulkOperationPacked7; newBulkOperationPacked8;
   newBulkOperationPacked9; newBulkOperationPacked10; newBulkOperationPacked11; newBulkOperationPacked12;
   newBulkOperationPacked13; newBulkOperationPacked14; newBulkOperationPacked15; newBulkOperationPacked16;
   newBulkOperationPacked17; newBulkOperationPacked18; newBulkOperationPacked19; newBulkOperationPacked20;
   newBulkOperationPacked21; newBulkOperationPacked22; newBulkOperationPacked23; newBulkOperationPacked24].
End Operations.

Example unrolled_run :
  (o ← newBulkOperationPacked12 (E := unit);
   vs ← ownDecodeBytes o [18; 52; 86; 120; 159; 255] 0 (repeat 0 4) 0 2;
   ws ← ownDecodeLongsToInts o [-1; 0; 1] 0 (repeat 0 16) 0 1;
   mret (vs, ws))
  = Ret ([291; 1110; 1929; 4095], repeat 4095 5 ++ [3840] ++ repeat 0 9 ++ [1]).
Proof. vm_compute. reflexivity. Qed.

(** * They decode as the generic decoders do *)

(** On any number of iterations, wherever the blocks and the values lie in their slices. *)
Definition agree {E} (op op' : operation E) (blockCount valueCount : Z) : Prop :=
  ∀ xs iterations, 0 ≤ iterations → Z.of_nat (length xs) = blockCount * iterations →
    ∃ ys, Z.of_nat (length ys) = valueCount * iterations ∧ moves op xs ys iterations ∧ moves op' xs ys iterations.

Definition agrees {E} (o : specialised E) : Prop :=
  let b := embedded o in
  agree (ownDecodeLongs o) (DecodeLongs b) (longBlockCount b) (longValueCount b) ∧
  agree (ownDecodeBytes o) (DecodeBytes b) (byteBlockCount b) (byteValueCount b) ∧
  agree (ownDecodeLongsToInts o) (DecodeLongsToInts b) (longBlockCount b) (longValueCount b) ∧
  agree (ownDecodeBytesToInts o) (DecodeBytesToInts b) (byteBlockCount b) (byteValueCount b).

(** [wb] is the width of the words of [DecodeBytes]. *)
Definition bodies_ok {E} (bpv wb : Z) (longs bytes : body) : bool :=
  match newBulkOperationPacked (E := E) bpv with
  | Ret b =>
      unrolled_ok 64 64 bpv (longBlockCount b) (longValueCount b) longs &&
      unrolled_ok wb 8 bpv (byteBlockCount b) (byteValueCount b) bytes &&
      unrolled_ok 32 8 bpv (byteBlockCount b) (byteValueCount b) bytes
  | _ => false
  end.

Section Agree.
Context {E : Type} (bpv wb : Z) (longs bytes : body) (b : bulkOperationPacked).
Context (Hn : bpv ≤ 24) (Hw : 32 ≤ wb) (HB : bulk_for bpv b) (Hu : uniform longs ∧ uniform bytes).
Context (Hl : unrolled_ok 64 64 bpv (longBlockCount b) (longValueCount b) longs = true).
Context (Hb : unrolled_ok wb 8 bpv (byteBlockCount b) (byteValueCount b) bytes = true).
Context (Hi : unrolled_ok 32 8 bpv (byteBlockCount b) (byteValueCount b) bytes = true).

(** Both unpack the values of the blocks. *)
Lemma agree_unpacked (op op' : operation E) cv k blockCount valueCount :
  (∀ xs it, 0 ≤ it → Z.of_nat (length xs) = blockCount * it → moves op xs (unpacked cv bpv k (Z.to_nat (valueCount * it)) xs) it) →
  (∀ xs it, 0 ≤ it → Z.of_nat (length xs) = blockCount * it → moves op' xs (unpacked cv bpv k (Z.to_nat (valueCount * it)) xs) it) →
  0 ≤ valueCount → agree op op' blockCount valueCount.
Proof using.
  intros H1 H2 Hv xs it Hit Hx. eexists. split; [|split; [by apply H1|by apply H2]]. rewrite unpacked_length. lia.
Qed.

Lemma bodies_agree : agrees {| embedded := b; ownDecodeLongs := unrolled (E := E) 64 to_int64 longs;
  ownDecodeBytes := unrolled wb to_int64 bytes; ownDecodeLongsToInts := unrolled 64 to_int32 longs;
  ownDecodeBytesToInts := unrolled 32 to_int32 bytes |}.
Proof using Hn Hw HB Hu Hl Hb Hi.
  destruct Hu as [Hul Hub]. destruct (bf_width _ _ HB). destruct (bf_longs _ _ HB) as (? & _ & _), (bf_bytes _ _ HB) as (? & _ & _).
  split_and!; cbn [embedded ownDecodeLongs ownDecodeBytes ownDecodeLongsToInts ownDecodeBytesToInts].
  - apply (agree_unpacked _ _ to_int64 64); [|by apply DecodeLongs_moves|lia]. by apply unrolled_moves; try lia.
  - apply (agree_unpacked _ _ to_int64 8); [|by apply DecodeBytes_moves|lia]. by apply unrolled_moves; try lia.
  - apply (agree_unpacked _ _ to_int32 64); [|intros; apply (DecodeLongsToInts_moves bpv); done || lia|lia]. by apply unrolled_moves; try lia.
  - apply (agree_unpacked _ _ to_int32 8); [|intros; apply (DecodeBytesToInts_moves bpv); done || lia|lia]. by apply unrolled_moves; try lia.
Qed.
End Agree.

Lemma bodies_ok_agree {E} bpv wb longs bytes o :
  bpv ≤ 24 → 32 ≤ wb → uniform longs → uniform bytes → bodies_ok (E := E) bpv wb longs bytes = true →
  (b ← newBulkOperationPacked (E := E) bpv;
   Ret {| embedded := b; ownDecodeLongs := unrolled (E := E) 64 to_int64 longs;
          ownDecodeBytes := unrolled wb to_int64 bytes; ownDecodeLongsToInts := unrolled 64 to_int32 longs;
          ownDecodeBytesToInts := unrolled 32 to_int32 bytes |}) = Ret o →
  newBulkOperationPacked (E := E) bpv = Ret (embedded o) ∧ agrees o.
Proof.
  intros Hn Hw Hul Hub Hok Ho. unfold bodies_ok in Hok.
  destruct (newBulkOperationPacked (E := E) bpv) as [b| | |] eqn:Eb; try done. rewrite go_bind_ret in Ho. injection Ho as <-.
  split; [done|]. apply new_bulk_for in Eb. rewrite !andb_true_iff in Hok. destruct Hok as [[? ?] ?]. by apply bodies_agree with (bpv := bpv).
Qed.

(** One of the constructors: its code is checked by computation. *)
Ltac unrolled_case bpv wb :=
  intros mk [= <-]; apply (bodies_ok_agree bpv wb); [done|done|intros ???; reflexivity|intros ???; reflexivity|vm_compute; reflexivity].

(** C10. Each of the 24 unrolled operations is the generic one for its number of bits: it embeds it, and its
    four decoders put the same values in the same places as the generic decoders, for any number of iterations
    and any offsets. *)
Theorem unrolled_correct {E} (i : nat) (mk : go E (specialised E)) (o : specialised E)
    (Hi : constructors !! i = Some mk) (Ho : mk = Ret o) :
  newBulkOperationPacked (E := E) (Z.of_nat i + 1) = Ret (embedded o) ∧ agrees o.
Proof.
  revert Ho. revert mk Hi.
  destruct i as [|i]; [unrolled_case 1 32|].
  destruct i as [|i]; [unrolled_case 2 32|].
  destruct i as [|i]; [unrolled_case 3 64|].
  destruct i as [|i]; [unrolled_case 4 32|].
  destruct i as [|i]; [unrolled_case 5 64|].
  destruct i as [|i]; [unrolled_case 6 64|].
  destruct i as [|i]; [unrolled_case 7 64|].
  destruct i as [|i]; [unrolled_case 8 64|].
  destruct i as [|i]; [unrolled_case 9 64|].
  destruct i as [|i]; [unrolled_case 10 64|].
  destruct i as [|i]; [unrolled_case 11 64|].
  destruct i as [|i]; [unrolled_case 12 64|].
  destruct i as [|i]; [unrolled_case 13 64|].
  destruct i as [|i]; [unrolled_case 14 64|].
  destruct i as [|i]; [unrolled_case 15 64|].
  destruct i as [|i]; [unrolled_case 16 64|].
  destruct i as [|i]; [unrolled_case 17 64|].
  destruct i as [|i]; [unrolled_case 18 64|].
  destruct i as [|i]; [unrolled_case 19 64|].
  destruct i as [|i]; [unrolled_case 20 64|].
  destruct i as [|i]; [unrolled_case 21 64|].
  destruct i as [|i]; [unrolled_case 22 64|].
  destruct i as [|i]; [unrolled_case 23 64|].
  destruct i as [|i]; [unrolled_case 24 64|].
  done.
Qed.

Lemma unrolled_correct_witness :
  ∃ o, newBulkOperationPacked12 (E := unit) = Ret o ∧
    newBulkOperationPacked (E := unit) 12 = Ret (embedded o) ∧ agrees o.
Proof.
  assert (∃ o, newBulkOperationPacked12 (E := unit) = Ret o) as [o Eo].
  { unfold newBulkOperationPacked12. destruct (newBulkOperationPacked_spec (E := unit) 12) as (b & -> & _); [lia|].
    eexists. reflexivity. }
  exists o. split; [exact Eo|]. exact (unrolled_correct 11 newBulkOperationPacked12 o eq_refl Eo).
Defined.
