(* ===== verification/PackedMutable.v ===== *)
(** Mutable arrays of packed integers, as their clients see them: [util/packed/packed_ints.go].

    [MutableOps] are the operations of the interface [Mutable] and [MutableLaws] what it
    promises: it stands for a list of values of some number of bits, a bulk operation moves at
    least one value, and at most as many as it was asked for.  Against these laws the sequential
    default operations, which implementations fall back to, and [Copy] are proved. *)

From stdpp Require Import base tactics numbers list.
From Stdlib Require Import ZArith Lia.
From S2P Require Import Prelude Digits BulkOperation.

Local Open Scope Z_scope.

(** * Parts of lists *)

(** [l[pos : pos+n]] *)
Definition slice {A} (pos n : nat) (l : list A) : list A := take n (drop pos l).

(** [copy(l[pos:], xs)] *)
Definition splice {A} (pos : nat) (xs l : list A) : list A := take pos l ++ xs ++ drop (pos + length xs) l.

Section Lists.
Context {A : Type}.
Implicit Types l xs ys : list A.

Lemma slice_length pos n l : (pos + n ≤ length l)%nat → length (slice pos n l) = n.
Proof. intros H. unfold slice. rewrite length_take, length_drop. lia. Qed.

Lemma slice_lookup pos n l i : (i < n)%nat → slice pos n l !! i = l !! (pos + i)%nat.
Proof. intros H. unfold slice. by rewrite lookup_take_lt, lookup_drop. Qed.

Lemma splice_len pos xs l : (pos + length xs ≤ length l)%nat → length (splice pos xs l) = length l.
Proof. intros H. unfold splice. rewrite !length_app, length_take, length_drop. lia. Qed.

Lemma splice_lookup pos xs l i :
  (pos + length xs ≤ length l)%nat →
  splice pos xs l !! i = if bool_decide (pos ≤ i < pos + length xs)%nat then xs !! (i - pos)%nat else l !! i.
Proof.
  intros H. unfold splice. destruct (decide (i < pos)%nat).
  - rewrite lookup_app_l by (rewrite length_take; lia). rewrite bool_decide_eq_false_2 by lia. by rewrite lookup_take_lt.
  - rewrite lookup_app_r, length_take, Nat.min_l by (rewrite ?length_take; lia). case_bool_decide.
    + by rewrite lookup_app_l by lia.
    + rewrite lookup_app_r, lookup_drop by lia. f_equal. lia.
Qed.

Lemma splice_nil pos l : (pos ≤ length l)%nat → splice pos [] l = l.
Proof. intros. unfold splice. cbn. by rewrite Nat.add_0_r, take_drop. Qed.

Lemma splice_one pos x l : (pos < length l)%nat → splice pos [x] l = <[pos := x]> l.
Proof.
  intros H. apply list_eq. intros i. rewrite splice_lookup by (cbn; lia). case_bool_decide as Hi; cbn in Hi.
  - replace i with pos by lia. rewrite Nat.sub_diag, list_lookup_insert_eq by done. done.
  - by rewrite list_lookup_insert_ne by lia.
Qed.

(** What is spliced in two pieces. *)
Lemma splice_app pos xs ys l :
  (pos + length xs + length ys ≤ length l)%nat → splice (pos + length xs) ys (splice pos xs l) = splice pos (xs ++ ys) l.
Proof.
  intros H. apply list_eq. intros i. rewrite !splice_lookup, ?length_app by (rewrite ?splice_len, ?length_app; lia).
  repeat case_bool_decide; try lia.
  - rewrite lookup_app_r by lia. f_equal. lia.
  - by rewrite lookup_app_l by lia.
  - done.
Qed.

Lemma slice_next pos n l x : l !! (pos + n)%nat = Some x → slice pos (S n) l = slice pos n l ++ [x].
Proof. intros Hx. unfold slice. by rewrite (take_S_r _ _ x) by (by rewrite lookup_drop). Qed.

Lemma slice_first pos n l x : l !! pos = Some x → slice pos (S n) l = x :: slice (S pos) n l.
Proof. intros Hx. unfold slice. by rewrite (drop_S _ _ _ Hx). Qed.

Lemma slice_app pos n m l : slice pos (n + m) l = slice pos n l ++ slice (pos + n) m l.
Proof. unfold slice. by rewrite <- drop_drop, take_take_drop. Qed.

Lemma slice_of_slice p n q m l : (q + m ≤ n)%nat → slice q m (slice p n l) = slice (p + q) m l.
Proof. intros H. unfold slice. rewrite skipn_firstn_comm, take_take, drop_drop. f_equal. lia. Qed.

Lemma slice_Forall P pos n l : Forall P l → Forall P (slice pos n l).
Proof. intros H. by apply Forall_take, Forall_drop. Qed.

Lemma aset_splice {E} l pos x : (pos < length l)%nat → aset (E := E) l (Z.of_nat pos) x = Ret (splice pos [x] l).
Proof.
  intros H. unfold aset. rewrite (proj2 (Z.ltb_ge _ _)), (proj2 (Z.leb_gt _ _)), Nat2Z.id by lia. by rewrite splice_one.
Qed.

Lemma splice_first pos x xs l : (pos + S (length xs) ≤ length l)%nat → splice (S pos) xs (splice pos [x] l) = splice pos (x :: xs) l.
Proof. intros H. rewrite <- (splice_app pos [x] xs) by (cbn; lia). cbn [length]. by rewrite Nat.add_1_r. Qed.
End Lists.

(** A splice of a list between two others. *)
Lemma splice_mid {A} (pre xs old post : list A) : length old = length xs → splice (length pre) xs (pre ++ old ++ post) = pre ++ xs ++ post.
Proof. intros H. unfold splice. by rewrite take_app_length, <- H, <- drop_drop, !drop_app_length. Qed.

Lemma around {A} pos n (l : list A) : (pos + n ≤ length l)%nat → take pos l ++ slice pos n l ++ drop (pos + n) l = l.
Proof. intros H. unfold slice. by rewrite <- (drop_drop l n pos), take_drop, take_drop. Qed.

Lemma bind_mret {E A B} (a : A) (f : A → go E B) : (mret a ≫= f) = f a.
Proof. done. Qed.

(** Results are compared component by component. *)
Ltac pairs := match goal with
  | |- Ret _ = Ret _ => f_equal; pairs
  | |- (_, _) = (_, _) => f_equal; pairs
  | |- _ => try lia
  end.

(** ** Positions in blocks *)

(** Where a bulk operation goes over to whole blocks. *)
Lemma alignment lvc index n0 : (0 < lvc)%nat → (index mod lvc ≠ 0)%nat →
  let h := Nat.min (lvc - index mod lvc) n0 in
  Z.of_nat h = Z.min (Z.of_nat lvc - Z.of_nat (index mod lvc)) (Z.of_nat n0) ∧ (h ≤ n0)%nat ∧
  (n0 - h ≠ 0 → index + h = (index / lvc + 1) * lvc)%nat.
Proof.
  intros Hl Ho h. pose proof (Nat.mod_upper_bound index lvc ltac:(lia)). pose proof (Nat.div_mod_eq index lvc) as Hd. unfold h.
  split_and!; [lia|lia|]. intros. rewrite Nat.mul_add_distr_r, (Nat.mul_comm (index / lvc)). lia.
Qed.

Lemma rem_nat (index lvc : nat) : (0 < lvc)%nat → Z.rem (Z.of_nat index) (Z.of_nat lvc) = Z.of_nat (index mod lvc).
Proof. intros. rewrite Z.rem_mod_nonneg, Nat2Z.inj_mod by lia. done. Qed.

Lemma aligned_index (index lvc : nat) : (index mod lvc = 0)%nat → index = (index / lvc * lvc)%nat.
Proof. intros H. pose proof (Nat.div_mod_eq index lvc). lia. Qed.

(** * Operations one value at a time *)

Section Sequential.
Context {E S : Type} (get : S → Z → go E Z) (set : S → Z → Z → go E S) (size : S → Z).

Definition readerBulkGet (r : S) (index : Z) (arr : list Z) (off length : Z) : go E (Z * list Z) :=
  if length <=? 0 then Panic else
  let remaining := size r - index in
  let gets := if remaining <? length then remaining else length in
  '(arr, _) ← go_for (Z.to_nat gets) index
    (fun i '(arr, o) => v ← get r i; arr ← aset arr o v; mret (arr, o + 1)) (arr, off);
  mret (gets, arr).

Definition mutableBulkSet (m : S) (index : Z) (arr : list Z) (off length : Z) : go E (Z * S) :=
  if length <=? 0 then Panic else
  let remaining := size m - index in
  let length := if remaining <? length then remaining else length in
  '(m, _) ← go_for (Z.to_nat length) index
    (fun i '(m, o) => v ← aget arr o; m ← set m i v; mret (m, o + 1)) (m, off);
  mret (length, m).

Definition mutableFill (m : S) (fromIndex toIndex val : Z) : go E S :=
  go_for (Z.to_nat (toIndex - fromIndex)) fromIndex (fun i m => set m i val) m.

(** How both implementations go to the end of a block first; a block has at most 64 values. *)
Definition get_head (r : S) (limit i : Z) (arr : list Z) (off index length : Z) : go E (list Z * Z * Z * Z) :=
  '(_, arr, off, index, length) ←
    go_while 64 (fun '(i, _, _, _, length) => (i <? limit) && (0 <? length))
      (fun '(i, arr, off, index, length) =>
        v ← get r index; arr ← aset arr off v;
        mret (i + 1, arr, off + 1, index + 1, length - 1))
      (i, arr, off, index, length);
  mret (arr, off, index, length).

Definition set_head (m : S) (limit i : Z) (arr : list Z) (off index length : Z) : go E (S * Z * Z * Z) :=
  '(_, m, off, index, length) ←
    go_while 64 (fun '(i, _, _, _, length) => (i <? limit) && (0 <? length))
      (fun '(i, m, off, index, length) =>
        v ← aget arr off; m ← set m index v;
        mret (i + 1, m, off + 1, index + 1, length - 1))
      (i, m, off, index, length);
  mret (m, off, index, length).

(** [for i := fromMod; i < limit; i++ { m.Set(fromIndex, val); fromIndex++ }] *)
Definition fill_head (m : S) (limit i fromIndex val : Z) : go E (S * Z) :=
  go_for (Z.to_nat (limit - i)) i (fun _ '(m, fromIndex) => m ← set m fromIndex val; mret (m, fromIndex + 1)) (m, fromIndex).

(** The bulk operations of both implementations: up to the end of a block one value at a time, then
    [blocks originalIndex arr off index length]. *)
Definition get_aligned (r : S) (perBlock : Z) (blocks : Z → list Z → Z → Z → Z → go E (Z * list Z))
    (index : Z) (arr : list Z) (off length : Z) : go E (Z * list Z) :=
  let remaining := size r - index in
  let length := if remaining <? length then remaining else length in
  let originalIndex := index in
  let offsetInBlocks := Z.rem index perBlock in
  '(arr, off, index, length) ←
    (if offsetInBlocks =? 0 then mret (arr, off, index, length)
     else get_head r perBlock offsetInBlocks arr off index length);
  if negb (offsetInBlocks =? 0) && (length =? 0) then mret (index - originalIndex, arr) else
  blocks originalIndex arr off index length.

Definition set_aligned (m : S) (perBlock : Z) (blocks : S → Z → Z → Z → Z → go E (Z * S))
    (index : Z) (arr : list Z) (off length : Z) : go E (Z * S) :=
  let remaining := size m - index in
  let length := if remaining <? length then remaining else length in
  let originalIndex := index in
  let offsetInBlocks := Z.rem index perBlock in
  '(m, off, index, length) ←
    (if offsetInBlocks =? 0 then mret (m, off, index, length)
     else set_head m perBlock offsetInBlocks arr off index length);
  if negb (offsetInBlocks =? 0) && (length =? 0) then mret (index - originalIndex, m) else
  blocks m originalIndex off index length.

(** ** What they do, if [get] and [set] read and write a list *)

Context (holds : S → list Z → Prop) (ok : Z → Prop).
Context (get_law : ∀ s vs i v, holds s vs → vs !! i = Some v → get s (Z.of_nat i) = Ret v).
Context (set_law : ∀ s vs i v, holds s vs → (i < length vs)%nat → ok v →
  ∃ s', set s (Z.of_nat i) v = Ret s' ∧ holds s' (<[i := v]> vs)).
Context (size_law : ∀ s vs, holds s vs → size s = Z.of_nat (length vs)).

Lemma set_one s vs i v :
  holds s vs → (i < length vs)%nat → ok v → ∃ s', set s (Z.of_nat i) v = Ret s' ∧ holds s' (splice i [v] vs).
Proof using set_law. intros Hs Hi Hv. rewrite splice_one by done. by apply set_law. Qed.

Lemma get_loop s vs n index arr off :
  holds s vs → (index + n ≤ length vs)%nat → (off + n ≤ length arr)%nat →
  go_for n (Z.of_nat index) (fun i '(arr, o) => v ← get s i; arr ← aset arr o v; mret (arr, o + 1)) (arr, Z.of_nat off)
  = Ret (splice off (slice index n vs) arr, Z.of_nat (off + n)).
Proof using get_law.
  intros Hs. revert index arr off. induction n as [|n IH]; intros index arr off Hi Ho; cbn [go_for].
  { change (slice index 0 vs) with (@nil Z). by rewrite splice_nil, Nat.add_0_r by lia. }
  destruct (lookup_lt_is_Some_2 vs index) as [v Hv]; [lia|].
  rewrite (get_law _ _ _ _ Hs Hv), go_bind_ret, aset_splice, !go_bind_ret by lia.
  replace (Z.of_nat index + 1) with (Z.of_nat (1 + index)) by lia. replace (Z.of_nat off + 1) with (Z.of_nat (1 + off)) by lia.
  rewrite bind_mret, IH; [|lia|rewrite splice_len by (cbn; lia); lia]. pairs.
  rewrite (slice_first index n vs v Hv). apply splice_first. rewrite slice_length by lia. lia.
Qed.

Lemma set_loop n index arr off s vs :
  holds s vs → (index + n ≤ length vs)%nat → (off + n ≤ length arr)%nat → Forall ok (slice off n arr) →
  ∃ s', go_for n (Z.of_nat index) (fun i '(m, o) => v ← aget arr o; m ← set m i v; mret (m, o + 1)) (s, Z.of_nat off)
    = Ret (s', Z.of_nat (off + n)) ∧ holds s' (splice index (slice off n arr) vs).
Proof using set_law.
  revert index off s vs. induction n as [|n IH]; intros index off s vs Hs Hi Ho Hok; cbn [go_for].
  { exists s. change (slice off 0 arr) with (@nil Z). by rewrite splice_nil, Nat.add_0_r by lia. }
  destruct (lookup_lt_is_Some_2 arr off) as [v Hv]; [lia|].
  rewrite (slice_first off n arr v Hv) in *. apply Forall_cons in Hok as [Hokv Hok].
  rewrite (aget_Ret _ _ v) by (rewrite ?Nat2Z.id; done || lia). rewrite !go_bind_ret.
  destruct (set_one s vs index v Hs ltac:(lia) Hokv) as (s' & -> & Hs'). rewrite go_bind_ret.
  replace (Z.of_nat index + 1) with (Z.of_nat (1 + index)) by lia. replace (Z.of_nat off + 1) with (Z.of_nat (1 + off)) by lia.
  rewrite bind_mret. destruct (IH (1 + index)%nat (1 + off)%nat s' _ Hs') as (s'' & -> & Hs''); [rewrite splice_len by (cbn; lia); lia|lia|done|].
  exists s''. split; [pairs|]. rewrite splice_first in Hs''; [done|]. rewrite slice_length by lia. lia.
Qed.

Lemma fill_loop n index val s vs :
  holds s vs → (index + n ≤ length vs)%nat → ok val →
  ∃ s', go_for n (Z.of_nat index) (fun i m => set m i val) s = Ret s' ∧ holds s' (splice index (replicate n val) vs).
Proof using set_law.
  revert index s vs. induction n as [|n IH]; intros index s vs Hs Hi Hok; cbn [go_for].
  { exists s. change (replicate 0 val) with (@nil Z). by rewrite splice_nil by lia. }
  destruct (set_one s vs index val Hs ltac:(lia) Hok) as (s' & -> & Hs'). rewrite go_bind_ret.
  replace (Z.of_nat index + 1) with (Z.of_nat (1 + index)) by lia.
  destruct (IH (1 + index)%nat s' _ Hs') as (s'' & -> & Hs''); [rewrite splice_len by (cbn; lia); lia|done|].
  exists s''. split; [done|]. rewrite splice_first in Hs''; [done|]. rewrite length_replicate. lia.
Qed.

(** The head goes on for as many values as there are to the limit and to read. *)
Lemma head_more i limit length n :
  Z.of_nat (Datatypes.S n) = Z.min (limit - i) length → (i <? limit) && (0 <? length) = true.
Proof using. intros H. by rewrite !(proj2 (Z.ltb_lt _ _)) by lia. Qed.

Lemma head_end i limit length : 0 = Z.min (limit - i) length → (i <? limit) && (0 <? length) = false.
Proof using. intros H. destruct (Z.ltb_spec i limit); [|done]. by rewrite (proj2 (Z.ltb_ge 0 length)) by lia. Qed.

Lemma get_head_loop fuel n s vs limit i arr off index len :
  holds s vs → (n ≤ fuel)%nat → Z.of_nat n = Z.min (limit - i) len → (index + n ≤ length vs)%nat → (off + n ≤ length arr)%nat →
  go_while fuel (fun '(i, _, _, _, length) => (i <? limit) && (0 <? length))
    (fun '(i, arr, off, index, length) =>
      v ← get s index; arr ← aset arr off v; mret (i + 1, arr, off + 1, index + 1, length - 1))
    (i, arr, Z.of_nat off, Z.of_nat index, len)
  = Ret (i + Z.of_nat n, splice off (slice index n vs) arr, Z.of_nat (off + n), Z.of_nat (index + n), len - Z.of_nat n).
Proof using get_law.
  intros Hs. revert n i arr off index len. induction fuel as [|fuel IH]; intros n i arr off index len Hn Hm Hi Ho; destruct n as [|n]; try lia.
  1,2: cbn [go_while]; rewrite head_end by lia; change (slice index 0 vs) with (@nil Z);
    rewrite splice_nil, !Nat.add_0_r, Z.add_0_r, Z.sub_0_r by lia; done.
  cbn [go_while]. rewrite (head_more _ _ _ n) by done.
  destruct (lookup_lt_is_Some_2 vs index) as [v Hv]; [lia|].
  rewrite (get_law _ _ _ _ Hs Hv), go_bind_ret, aset_splice, !go_bind_ret, bind_mret by lia.
  replace (Z.of_nat index + 1) with (Z.of_nat (1 + index)) by lia. replace (Z.of_nat off + 1) with (Z.of_nat (1 + off)) by lia.
  rewrite (IH n) by (rewrite ?splice_len by (cbn; lia); lia). pairs.
  rewrite (slice_first index n vs v Hv). apply splice_first. rewrite slice_length by lia. lia.
Qed.

Lemma get_head_spec s vs limit i arr off index len (n : nat) :
  holds s vs → limit - i ≤ 64 → Z.of_nat n = Z.min (limit - i) len → (index + n ≤ length vs)%nat → (off + n ≤ length arr)%nat →
  get_head s limit i arr (Z.of_nat off) (Z.of_nat index) len =
  Ret (splice off (slice index n vs) arr, Z.of_nat (off + n), Z.of_nat (index + n), len - Z.of_nat n).
Proof using get_law. intros Hs Hl Hn Hi Ho. unfold get_head. by rewrite (get_head_loop 64 n s vs) by (done || lia). Qed.

Lemma set_head_loop fuel n s vs limit i arr off index len :
  holds s vs → (n ≤ fuel)%nat → Z.of_nat n = Z.min (limit - i) len → (index + n ≤ length vs)%nat → (off + n ≤ length arr)%nat →
  Forall ok (slice off n arr) →
  ∃ s', go_while fuel (fun '(i, _, _, _, length) => (i <? limit) && (0 <? length))
    (fun '(i, m, off, index, length) =>
      v ← aget arr off; m ← set m index v; mret (i + 1, m, off + 1, index + 1, length - 1))
    (i, s, Z.of_nat off, Z.of_nat index, len)
  = Ret (i + Z.of_nat n, s', Z.of_nat (off + n), Z.of_nat (index + n), len - Z.of_nat n) ∧ holds s' (splice index (slice off n arr) vs).
Proof using set_law.
  revert n i s vs off index len. induction fuel as [|fuel IH]; intros n i s vs off index len Hs Hn Hm Hi Ho Hok; destruct n as [|n]; try lia.
  1,2: exists s; cbn [go_while]; rewrite head_end by lia; change (slice off 0 arr) with (@nil Z);
    rewrite splice_nil, !Nat.add_0_r, Z.add_0_r, Z.sub_0_r by lia; done.
  cbn [go_while]. rewrite (head_more _ _ _ n) by done.
  destruct (lookup_lt_is_Some_2 arr off) as [v Hv]; [lia|].
  rewrite (slice_first off n arr v Hv) in *. apply Forall_cons in Hok as [Hokv Hok].
  rewrite (aget_Ret _ _ v) by (rewrite ?Nat2Z.id; done || lia). rewrite !go_bind_ret.
  destruct (set_one s vs index v Hs ltac:(lia) Hokv) as (s' & -> & Hs'). rewrite go_bind_ret, bind_mret.
  replace (Z.of_nat index + 1) with (Z.of_nat (1 + index)) by lia. replace (Z.of_nat off + 1) with (Z.of_nat (1 + off)) by lia.
  destruct (IH n (i + 1) s' _ (1 + off)%nat (1 + index)%nat (len - 1) Hs') as (s'' & -> & Hs'');
    [lia|lia|rewrite splice_len by (cbn; lia); lia|lia|done|].
  exists s''. split; [pairs|].
  rewrite splice_first in Hs''; [done|]. rewrite slice_length by lia. lia.
Qed.

Lemma set_head_spec s vs limit i arr off index len (n : nat) :
  holds s vs → limit - i ≤ 64 → Z.of_nat n = Z.min (limit - i) len → (index + n ≤ length vs)%nat → (off + n ≤ length arr)%nat →
  Forall ok (slice off n arr) →
  ∃ s', set_head s limit i arr (Z.of_nat off) (Z.of_nat index) len = Ret (s', Z.of_nat (off + n), Z.of_nat (index + n), len - Z.of_nat n) ∧
    holds s' (splice index (slice off n arr) vs).
Proof using set_law.
  intros Hs Hl Hn Hi Ho Hok. unfold set_head.
  destruct (set_head_loop 64 n s vs limit i arr off index len) as (s' & -> & Hs'); try done; [lia|]. by exists s'.
Qed.

Lemma fill_head_spec n limit i index val s vs :
  holds s vs → n = Z.to_nat (limit - i) → (index + n ≤ length vs)%nat → ok val →
  ∃ s', fill_head s limit i (Z.of_nat index) val = Ret (s', Z.of_nat (index + n)) ∧ holds s' (splice index (replicate n val) vs).
Proof using set_law.
  unfold fill_head. intros Hs <-. revert i index s vs Hs. induction n as [|n IH]; intros i index s vs Hs Hi Hok; cbn [go_for].
  { exists s. change (replicate 0 val) with (@nil Z). by rewrite splice_nil, Nat.add_0_r by lia. }
  destruct (set_one s vs index val Hs ltac:(lia) Hok) as (s' & -> & Hs'). rewrite go_bind_ret, bind_mret.
  replace (Z.of_nat index + 1) with (Z.of_nat (1 + index)) by lia.
  destruct (IH (i + 1) (1 + index)%nat s' _ Hs') as (s'' & -> & Hs''); [rewrite splice_len by (cbn; lia); lia|done|].
  exists s''. split; [pairs|]. rewrite splice_first in Hs''; [done|]. rewrite length_replicate. lia.
Qed.

(** ** The default operations *)

Lemma readerBulkGet_spec s vs index arr off len (n : nat) :
  holds s vs → 0 < len → Z.of_nat n = Z.min (Z.of_nat (length vs - index)) len → (index < length vs)%nat → (off + n ≤ length arr)%nat →
  readerBulkGet s (Z.of_nat index) arr (Z.of_nat off) len = Ret (Z.of_nat n, splice off (slice index n vs) arr).
Proof using get_law size_law.
  intros Hs Hl Hn Hi Ho. unfold readerBulkGet. rewrite (proj2 (Z.leb_gt _ _)), (size_law s vs Hs) by done. cbn zeta.
  replace (if _ <? _ then _ else _) with (Z.of_nat n) by (destruct (Z.ltb_spec (Z.of_nat (length vs) - Z.of_nat index) len); lia).
  rewrite Nat2Z.id, (get_loop s vs) by (done || lia). done.
Qed.

Lemma mutableBulkSet_spec s vs index arr off len (n : nat) :
  holds s vs → 0 < len → Z.of_nat n = Z.min (Z.of_nat (length vs - index)) len → (index < length vs)%nat → (off + n ≤ length arr)%nat →
  Forall ok (slice off n arr) →
  ∃ s', mutableBulkSet s (Z.of_nat index) arr (Z.of_nat off) len = Ret (Z.of_nat n, s') ∧ holds s' (splice index (slice off n arr) vs).
Proof using set_law size_law.
  intros Hs Hl Hn Hi Ho Hok. unfold mutableBulkSet. rewrite (proj2 (Z.leb_gt _ _)), (size_law s vs Hs) by done. cbn zeta.
  replace (if _ <? _ then _ else _) with (Z.of_nat n) by (destruct (Z.ltb_spec (Z.of_nat (length vs) - Z.of_nat index) len); lia).
  rewrite Nat2Z.id. destruct (set_loop n index arr off s vs) as (s' & -> & Hs'); try done; [lia|]. by exists s'.
Qed.

Lemma mutableFill_spec s vs (from_ to_ : nat) val :
  holds s vs → (from_ ≤ to_ ≤ length vs)%nat → ok val →
  ∃ s', mutableFill s (Z.of_nat from_) (Z.of_nat to_) val = Ret s' ∧ holds s' (splice from_ (replicate (to_ - from_) val) vs).
Proof using set_law.
  intros Hs Ht Hok. unfold mutableFill. replace (Z.to_nat (Z.of_nat to_ - Z.of_nat from_)) with (to_ - from_)%nat by lia.
  apply fill_loop; [done|lia|done].
Qed.

(** [Fill] goes to the first value of a block. *)
Lemma fill_start s vs val (from_ nav : nat) :
  holds s vs → (0 < nav)%nat → (from_ + nav ≤ length vs)%nat → ok val →
  ∃ s1 (k h : nat), (if Z.of_nat (from_ mod nav) =? 0 then mret (s, Z.of_nat from_)
      else fill_head s (Z.of_nat nav) (Z.of_nat (from_ mod nav)) (Z.of_nat from_) val) = Ret (s1, Z.of_nat (k * nav)) ∧
    (k * nav = from_ + h ∧ h ≤ nav)%nat ∧ holds s1 (splice from_ (replicate h val) vs).
Proof using set_law.
  intros Hp Hn Hl Hval. pose proof (Nat.mod_upper_bound from_ nav ltac:(lia)). pose proof (Nat.div_mod_eq from_ nav) as Hd.
  destruct (Z.eqb_spec (Z.of_nat (from_ mod nav)) 0).
  - exists s, (from_ / nav)%nat, 0%nat. split_and!; [unfold mret, go_ret; pairs|lia|lia|]. change (replicate 0 val) with (@nil Z). by rewrite splice_nil by lia.
  - destruct (fill_head_spec (nav - from_ mod nav) (Z.of_nat nav) (Z.of_nat (from_ mod nav)) from_ val s vs Hp) as (s1 & -> & Hp1); [lia|lia|done|].
    exists s1, (from_ / nav + 1)%nat, (nav - from_ mod nav)%nat. split_and!; [pairs|lia|lia|done].
Qed.

(** [blocks] gets or sets at least one value, of [len] at most, [h] having been moved before; it begins with a block. *)
Lemma get_aligned_spec s vs (lvc : nat) blocks index arr off len :
  holds s vs → (0 < lvc)%nat → (lvc ≤ 64)%nat → (index < length vs)%nat → (0 < len)%nat → (off + len ≤ length arr)%nat →
  (∀ arr k h off len, (h ≤ k * lvc)%nat → (k * lvc + len ≤ length vs)%nat → (off + len ≤ length arr)%nat → (0 < h + len)%nat →
    ∃ n, (0 < h + n)%nat ∧ (n ≤ len)%nat ∧
      blocks (Z.of_nat (k * lvc - h)) arr (Z.of_nat off) (Z.of_nat (k * lvc)) (Z.of_nat len) =
      Ret (Z.of_nat (h + n), splice off (slice (k * lvc) n vs) arr)) →
  ∃ n, (0 < n ≤ len ∧ index + n ≤ length vs)%nat ∧
    get_aligned s (Z.of_nat lvc) blocks (Z.of_nat index) arr (Z.of_nat off) (Z.of_nat len) = Ret (Z.of_nat n, splice off (slice index n vs) arr).
Proof using get_law size_law.
  intros Hp Hl H64 Hi Hlen Ho Hb. unfold get_aligned. rewrite (size_law s vs Hp). cbn zeta.
  set (n0 := Nat.min len (length vs - index)).
  replace (if _ <? _ then _ else _) with (Z.of_nat n0)
    by (unfold n0; destruct (Z.ltb_spec (Z.of_nat (length vs) - Z.of_nat index) (Z.of_nat len)); lia).
  rewrite (rem_nat index lvc Hl). destruct (decide (index mod lvc = 0)%nat) as [E0|E0].
  - rewrite E0. change (Z.of_nat 0 =? 0) with true. cbn [negb andb]. rewrite bind_mret. pose proof (aligned_index index lvc E0) as Hk.
    destruct (Hb arr (index / lvc)%nat 0%nat off n0) as (n & Hn & Hle & Hr); try lia.
    rewrite Nat.sub_0_r, <- Hk in Hr. exists n. split; [lia|]. by rewrite Hr.
  - rewrite (proj2 (Z.eqb_neq (Z.of_nat _) 0)) by lia. cbn [negb andb].
    destruct (alignment lvc index n0 Hl E0) as (Hh & Hle & Hal). set (h := Nat.min _ n0) in *.
    rewrite (get_head_spec s vs _ _ _ _ _ _ h) by (done || lia). rewrite go_bind_ret.
    destruct (Z.eqb_spec (Z.of_nat n0 - Z.of_nat h) 0) as [|Hne].
    + exists h. split; [lia|]. unfold mret, go_ret. pairs.
    + specialize (Hal ltac:(lia)). rewrite Hal. set (k := (index / lvc + 1)%nat) in *.
      assert (Hs : length (slice index h vs) = h) by (apply slice_length; lia).
      destruct (Hb (splice off (slice index h vs) arr) k h (off + h)%nat (n0 - h)%nat) as (n & Hn & Hle' & Hr); try lia; [rewrite splice_len by lia; lia|].
      replace (k * lvc - h)%nat with index in Hr by lia. replace (Z.of_nat n0 - Z.of_nat h) with (Z.of_nat (n0 - h)) by lia.
      exists (h + n)%nat. split; [lia|]. rewrite Hr, <- Hal. do 2 f_equal. rewrite slice_app, <- splice_app; [by rewrite Hs|].
      rewrite Hs, slice_length by lia. lia.
Qed.

Lemma set_aligned_spec s vs (lvc : nat) blocks index arr off len :
  holds s vs → (0 < lvc)%nat → (lvc ≤ 64)%nat → (index < length vs)%nat → (0 < len)%nat → (off + len ≤ length arr)%nat → Forall ok (slice off len arr) →
  (∀ s vs' k h off len, holds s vs' → (h ≤ k * lvc)%nat → (k * lvc + len ≤ length vs')%nat → (off + len ≤ length arr)%nat → (0 < h + len)%nat →
    Forall ok (slice off len arr) →
    ∃ n s', (0 < h + n)%nat ∧ (n ≤ len)%nat ∧
      blocks s (Z.of_nat (k * lvc - h)) (Z.of_nat off) (Z.of_nat (k * lvc)) (Z.of_nat len) = Ret (Z.of_nat (h + n), s') ∧
      holds s' (splice (k * lvc) (slice off n arr) vs')) →
  ∃ n s', (0 < n ≤ len ∧ index + n ≤ length vs)%nat ∧
    set_aligned s (Z.of_nat lvc) blocks (Z.of_nat index) arr (Z.of_nat off) (Z.of_nat len) = Ret (Z.of_nat n, s') ∧
    holds s' (splice index (slice off n arr) vs).
Proof using set_law size_law.
  intros Hp Hl H64 Hi Hlen Ho Hok Hb. unfold set_aligned. rewrite (size_law s vs Hp). cbn zeta.
  set (n0 := Nat.min len (length vs - index)).
  replace (if _ <? _ then _ else _) with (Z.of_nat n0)
    by (unfold n0; destruct (Z.ltb_spec (Z.of_nat (length vs) - Z.of_nat index) (Z.of_nat len)); lia).
  assert (Hpart : ∀ a m, (a + m ≤ len)%nat → Forall ok (slice (off + a) m arr)).
  { intros a m Ham. rewrite <- (slice_of_slice off len a m arr) by done. by apply slice_Forall. }
  assert (Hpart0 : ∀ m, (m ≤ len)%nat → Forall ok (slice off m arr)) by (intros m Hm; rewrite <- (Nat.add_0_r off); apply Hpart; lia).
  rewrite (rem_nat index lvc Hl). destruct (decide (index mod lvc = 0)%nat) as [E0|E0].
  - rewrite E0. change (Z.of_nat 0 =? 0) with true. cbn [negb andb]. rewrite bind_mret. pose proof (aligned_index index lvc E0) as Hk.
    destruct (Hb s vs (index / lvc)%nat 0%nat off n0 Hp) as (n & s' & Hn & Hle & Hr & Hp'); try lia; [apply Hpart0; lia|].
    rewrite Nat.sub_0_r, <- Hk in Hr. rewrite <- Hk in Hp'. exists n, s'. split; [lia|]. by rewrite Hr.
  - rewrite (proj2 (Z.eqb_neq (Z.of_nat _) 0)) by lia. cbn [negb andb].
    destruct (alignment lvc index n0 Hl E0) as (Hh & Hle & Hal). set (h := Nat.min _ n0) in *.
    destruct (set_head_spec s vs (Z.of_nat lvc) (Z.of_nat (index mod lvc)) arr off index (Z.of_nat n0) h) as (s1 & -> & Hp1); try done; try lia;
      [apply Hpart0; lia|].
    rewrite go_bind_ret. assert (Hs : length (slice off h arr) = h) by (apply slice_length; lia).
    destruct (Z.eqb_spec (Z.of_nat n0 - Z.of_nat h) 0) as [|Hne].
    + exists h, s1. split; [lia|]. split; [|done]. unfold mret, go_ret. pairs.
    + specialize (Hal ltac:(lia)). rewrite Hal. set (k := (index / lvc + 1)%nat) in *.
      destruct (Hb s1 _ k h (off + h)%nat (n0 - h)%nat Hp1) as (n & s' & Hn & Hle' & Hr & Hp'); try lia;
        [rewrite splice_len by lia; lia|apply Hpart; lia|].
      replace (k * lvc - h)%nat with index in Hr by lia. replace (Z.of_nat n0 - Z.of_nat h) with (Z.of_nat (n0 - h)) by lia.
      exists (h + n)%nat, s'. split; [lia|]. split; [exact Hr|]. rewrite slice_app, <- splice_app, Hs, Hal; [done|].
      rewrite Hs, slice_length by lia. lia.
Qed.
End Sequential.

(** * The interface *)

Class MutableOps (E S : Type) := {
  Size : S → Z;
  Get : S → Z → go E Z;
  SetAt : S → Z → Z → go E S;
  GetBulk : S → Z → list Z → Z → Z → go E (Z * list Z);
  SetBulk : S → Z → list Z → Z → Z → go E (Z * S);
  Fill : S → Z → Z → Z → go E S;
  Clear : S → go E S
}.

(** [represents bpv s vs]: [s] holds the values [vs], of [bpv] bits. *)
Class MutableLaws {E S} (O : MutableOps E S) := {
  represents : Z → S → list Z → Prop;
  Size_law bpv s vs : represents bpv s vs → Size s = Z.of_nat (length vs);
  Get_law bpv s vs i v : represents bpv s vs → vs !! i = Some v → Get s (Z.of_nat i) = Ret v;
  SetAt_law bpv s vs i v : represents bpv s vs → (i < length vs)%nat → fits 64 bpv v →
    ∃ s', SetAt s (Z.of_nat i) v = Ret s' ∧ represents bpv s' (<[i := v]> vs);
  GetBulk_law bpv s vs index arr off len : represents bpv s vs → (index < length vs)%nat → (0 < len)%nat → (off + len ≤ length arr)%nat →
    ∃ n, (0 < n ≤ len ∧ index + n ≤ length vs)%nat ∧
      GetBulk s (Z.of_nat index) arr (Z.of_nat off) (Z.of_nat len) = Ret (Z.of_nat n, splice off (slice index n vs) arr);
  SetBulk_law bpv s vs index arr off len : represents bpv s vs → (index < length vs)%nat → (0 < len)%nat → (off + len ≤ length arr)%nat →
    Forall (fits 64 bpv) (slice off len arr) →
    ∃ n s', (0 < n ≤ len ∧ index + n ≤ length vs)%nat ∧
      SetBulk s (Z.of_nat index) arr (Z.of_nat off) (Z.of_nat len) = Ret (Z.of_nat n, s') ∧
      represents bpv s' (splice index (slice off n arr) vs);
  Fill_law bpv s vs from_ to_ v : represents bpv s vs → (from_ ≤ to_ ≤ length vs)%nat → fits 64 bpv v →
    ∃ s', Fill s (Z.of_nat from_) (Z.of_nat to_) v = Ret s' ∧ represents bpv s' (splice from_ (replicate (to_ - from_) v) vs);
  Clear_law bpv s vs : represents bpv s vs → ∃ s', Clear s = Ret s' ∧ represents bpv s' (replicate (length vs) 0)
}.

(** * Copying from one array to another

    [src] and [dest] are different objects. *)

Section Copy.
Context {E S D : Type} {OS : MutableOps E S} {OD : MutableOps E D}.

(** [copy(buf, buf[from:to])] *)
Definition copy_down (buf : list Z) (from_ to_ : Z) : go E (list Z) :=
  if (from_ <? 0) || (to_ <? from_) || (Z.of_nat (length buf) <? to_) then Panic else
  Ret (splice 0 (slice (Z.to_nat from_) (Z.to_nat (to_ - from_)) buf) buf).

(** One turn of the first loop of [copyWithBuf], which reads and writes, *)
Definition transfer (src : S) (st : Z * D * Z * Z * Z * list Z) : go E (Z * D * Z * Z * Z * list Z) :=
  let '(srcPos, dest, destPos, length, remaining, buf) := st in
  let toRead := length in
  let free := Z.of_nat (List.length buf) - remaining in
  let toRead := if free <? toRead then free else toRead in
  '(read, buf) ← GetBulk src srcPos buf remaining toRead;
  let srcPos := srcPos + read in
  let length := length - read in
  let remaining := remaining + read in
  '(written, dest) ← SetBulk dest destPos buf 0 remaining;
  let destPos := destPos + written in
  buf ← (if written <? remaining then copy_down buf written remaining else mret buf);
  let remaining := remaining - written in
  mret (srcPos, dest, destPos, length, remaining, buf).

(** and of the second one, which writes what is left. *)
Definition drain (st : D * Z * Z * list Z) : go E (D * Z * Z * list Z) :=
  let '(dest, destPos, remaining, buf) := st in
  '(written, dest) ← SetBulk dest destPos buf 0 remaining;
  let destPos := destPos + written in
  let remaining := remaining - written in
  buf ← copy_down buf written (written + remaining);
  mret (dest, destPos, remaining, buf).

(** Each turn moves a value at least; the caller sees what is left in the buffer. *)
Definition copyWithBuf (src : S) (srcPos : Z) (dest : D) (destPos length : Z) (buf : list Z) : go E (D * list Z) :=
  '(_, dest, destPos, _, remaining, buf) ←
    go_while (Z.to_nat length) (fun '(_, _, _, length, _, _) => 0 <? length) (transfer src) (srcPos, dest, destPos, length, 0, buf);
  '(dest, _, _, buf) ← go_while (Z.to_nat remaining) (fun '(_, _, remaining, _) => 0 <? remaining) drain (dest, destPos, remaining, buf);
  mret (dest, buf).

Definition Copy (src : S) (srcPos : Z) (dest : D) (destPos length mem : Z) : go E D :=
  if Size src <? srcPos + length then Panic else
  if Size dest <? destPos + length then Panic else
  let capacity := Z.shiftr mem 3 in
  if capacity =? 0 then
    '(_, dest, _) ← go_for (Z.to_nat length) 0
      (fun _ '(srcPos, dest, destPos) =>
        v ← Get src srcPos; dest ← SetAt dest destPos v; mret (srcPos + 1, dest, destPos + 1))
      (srcPos, dest, destPos);
    mret dest
  else if 0 <? length then
    let bufLen := if length <? capacity then length else capacity in
    if bufLen <? 0 then Panic else
    '(dest, _) ← copyWithBuf src srcPos dest destPos length (replicate (Z.to_nat bufLen) 0);
    mret dest
  else mret dest.

Context {LS : MutableLaws OS} {LD : MutableLaws OD}.
Context (bpv bpv' : Z) (src : S) (vs ws : list Z) (sp dp L : nat).
Context (Hsrc : represents bpv src vs) (Hfit : Forall (fits 64 bpv') (slice sp L vs)).
Context (Hsl : (sp + L ≤ length vs)%nat) (Hdl : (dp + L ≤ length ws)%nat).

(** [c] values have been written of [a] that have been read. *)
Definition copied (c : nat) (dest : D) : Prop := represents bpv' dest (splice dp (slice sp c vs) ws).
Definition buffered (a c : nat) (buf : list Z) : Prop := (a - c ≤ length buf)%nat ∧ take (a - c) buf = slice (sp + c) (a - c) vs.

Lemma fits_part q m : (q + m ≤ L)%nat → Forall (fits 64 bpv') (slice (sp + q) m vs).
Proof using Hfit. intros H. rewrite <- (slice_of_slice sp L q m vs) by done. by apply slice_Forall. Qed.

Lemma buffered_slice a c buf n : buffered a c buf → (n ≤ a - c)%nat → slice 0 n buf = slice (sp + c) n vs.
Proof using Hsl Hdl.
  intros [_ Hb] Hn. unfold slice at 1. rewrite drop_0. replace (take n buf) with (take n (take (a - c) buf)).
  - rewrite Hb. unfold slice. rewrite take_take. f_equal. lia.
  - rewrite take_take. f_equal. lia.
Qed.

(** Writing a part of the buffer. *)
Lemma copied_more a c n buf dest :
  buffered a c buf → (n ≤ a - c)%nat → (c ≤ a ≤ L)%nat →
  represents bpv' dest (splice (dp + c) (slice 0 n buf) (splice dp (slice sp c vs) ws)) → copied (c + n) dest.
Proof using Hsl Hdl.
  intros Hb Hn Ha. rewrite (buffered_slice a c buf n Hb Hn). unfold copied.
  assert (Hc : length (slice sp c vs) = c) by (apply slice_length; lia).
  pose proof (splice_app dp (slice sp c vs) (slice (sp + c) n vs) ws) as Hs. rewrite Hc, !slice_length in Hs by lia.
  rewrite Hs by lia. by rewrite slice_app.
Qed.

Lemma copied_length c : (c ≤ L)%nat → length (splice dp (slice sp c vs) ws) = length ws.
Proof using Hsl Hdl. intros H. apply splice_len. rewrite slice_length by lia. lia. Qed.

Lemma write_buffer a c buf dest :
  copied c dest → buffered a c buf → (c < a ≤ L)%nat →
  ∃ n dest', (0 < n ≤ a - c)%nat ∧ SetBulk dest (Z.of_nat (dp + c)) buf 0 (Z.of_nat (a - c)) = Ret (Z.of_nat n, dest') ∧ copied (c + n) dest'.
Proof using Hsl Hdl Hfit LD.
  intros Hc Hb Ha. pose proof Hb as [Hb1 _].
  destruct (SetBulk_law bpv' dest _ (dp + c)%nat buf 0%nat (a - c)%nat Hc) as (n & dest' & [Hn _] & HS & HR).
  - rewrite copied_length by lia. lia.
  - lia.
  - lia.
  - rewrite (buffered_slice a c buf (a - c) Hb) by lia. apply fits_part. lia.
  - exists n, dest'. split; [done|]. split; [exact HS|]. apply (copied_more a c n buf); [done|lia|lia|exact HR].
Qed.

Lemma copy_down_spec a c n buf :
  buffered a c buf → (0 < n ≤ a - c)%nat →
  ∃ buf', copy_down buf (Z.of_nat n) (Z.of_nat (a - c)) = Ret buf' ∧ buffered a (c + n) buf' ∧ length buf' = length buf.
Proof using Hsl Hdl.
  intros [Hb1 Hb2] Hn. unfold copy_down.
  rewrite (proj2 (Z.ltb_ge _ _)), (proj2 (Z.ltb_ge _ (Z.of_nat n))), (proj2 (Z.ltb_ge _ (Z.of_nat (a - c)))) by lia. cbn [orb].
  rewrite Nat2Z.id. replace (Z.to_nat (Z.of_nat (a - c) - Z.of_nat n)) with (a - (c + n))%nat by lia.
  assert (Hl : length (slice n (a - (c + n)) buf) = (a - (c + n))%nat) by (apply slice_length; lia).
  eexists. split; [done|]. unfold buffered. rewrite splice_len by lia. split; [|done]. split; [lia|].
  unfold splice. rewrite take_0. cbn [app]. rewrite take_app_le, take_ge by lia.
  replace (slice n (a - (c + n)) buf) with (slice n (a - (c + n)) (take (a - c) buf)).
  - rewrite Hb2, slice_of_slice by lia. f_equal. lia.
  - unfold slice. rewrite skipn_firstn_comm, take_take. f_equal. lia.
Qed.

(** Reading into the rest of the buffer. *)
Lemma read_buffer a c buf :
  buffered a c buf → (c ≤ a < L)%nat → (a - c < length buf)%nat →
  let toRead := if Z.of_nat (length buf) - Z.of_nat (a - c) <? Z.of_nat (L - a) then Z.of_nat (length buf) - Z.of_nat (a - c) else Z.of_nat (L - a) in
  ∃ n buf', (0 < n ≤ L - a)%nat ∧ GetBulk src (Z.of_nat (sp + a)) buf (Z.of_nat (a - c)) toRead = Ret (Z.of_nat n, buf') ∧
    buffered (a + n) c buf' ∧ length buf' = length buf.
Proof using Hsrc Hsl Hdl.
  intros [Hb1 Hb2] Ha Hfree toRead. set (m := Nat.min (length buf - (a - c)) (L - a)).
  assert (toRead = Z.of_nat m) as -> by (unfold toRead, m; destruct (Z.ltb_spec (Z.of_nat (length buf) - Z.of_nat (a - c)) (Z.of_nat (L - a))); lia).
  destruct (GetBulk_law bpv src vs (sp + a) buf (a - c) m Hsrc) as (n & [Hn Hin] & HG); [lia|lia|lia|].
  assert (Hl : length (slice (sp + a) n vs) = n) by (apply slice_length; lia).
  eexists n, _. split; [lia|]. split; [exact HG|]. rewrite splice_len by lia. split; [|done]. split; [rewrite splice_len; lia|].
  unfold splice. rewrite app_assoc, take_app_le by (rewrite length_app, length_take; lia).
  rewrite take_ge by (rewrite length_app, length_take; lia). rewrite Hb2.
  replace (a + n - c)%nat with ((a - c) + n)%nat by lia. rewrite slice_app. do 2 f_equal. lia.
Qed.

(** The rest of the buffer is written. *)
Lemma drain_spec fuel c buf dest :
  copied c dest → buffered L c buf → (c ≤ L)%nat → (L - c ≤ fuel)%nat →
  ∃ dest' p r buf', go_while fuel (fun '(_, _, remaining, _) => 0 <? remaining) drain (dest, Z.of_nat (dp + c), Z.of_nat (L - c), buf) = Ret (dest', p, r, buf') ∧ copied L dest' ∧
    length buf' = length buf.
Proof using Hsl Hdl Hfit.
  revert c buf dest. induction fuel as [|fuel IH]; intros c buf dest Hc Hb Hle Hf; cbn [go_while];
    (destruct (decide (c = L)) as [->|Hne]; [rewrite Nat.sub_diag; do 4 eexists; split_and!; done|]); [lia|].
  rewrite (proj2 (Z.ltb_lt _ _)) by lia. unfold drain at 2.
  destruct (write_buffer L c buf dest Hc Hb) as (n & dest' & Hn & -> & Hc'); [lia|]. rewrite go_bind_ret. cbn zeta.
  replace (Z.of_nat n + (Z.of_nat (L - c) - Z.of_nat n)) with (Z.of_nat (L - c)) by lia.
  destruct (copy_down_spec L c n buf Hb Hn) as (buf' & -> & Hb' & Hl'). rewrite go_bind_ret, bind_mret, <- Hl'.
  replace (Z.of_nat (dp + c) + Z.of_nat n) with (Z.of_nat (dp + (c + n))) by lia.
  replace (Z.of_nat (L - c) - Z.of_nat n) with (Z.of_nat (L - (c + n))) by lia. apply IH; [done|done|lia|lia].
Qed.

(** One turn of the first loop, and all of them. *)
Lemma transfer_spec fuel a c buf dest :
  copied c dest → buffered a c buf → (c ≤ a ≤ L)%nat → (a - c < length buf)%nat → (L - a ≤ fuel)%nat →
  ∃ c' dest' p buf', go_while fuel (fun '(_, _, _, length, _, _) => 0 <? length) (transfer src)
      (Z.of_nat (sp + a), dest, Z.of_nat (dp + c), Z.of_nat (L - a), Z.of_nat (a - c), buf) =
    Ret (p, dest', Z.of_nat (dp + c'), 0, Z.of_nat (L - c'), buf') ∧ copied c' dest' ∧ buffered L c' buf' ∧ (c' ≤ L)%nat ∧
    length buf' = length buf.
Proof using Hsrc Hsl Hdl Hfit.
  revert a c buf dest. induction fuel as [|fuel IH]; intros a c buf dest Hc Hb Hle Hfree Hf; cbn [go_while];
    (destruct (decide (a = L)) as [->|Hne]; [rewrite Nat.sub_diag; exists c; do 3 eexists; split_and!; [done|done|done|lia|done]|]); [lia|].
  rewrite (proj2 (Z.ltb_lt _ _)) by lia. unfold transfer at 2. cbn zeta.
  destruct (read_buffer a c buf Hb) as (n & buf' & Hn & -> & Hb' & Hl'); [lia|done|]. rewrite go_bind_ret. cbn beta iota.
  replace (Z.of_nat (a - c) + Z.of_nat n) with (Z.of_nat (a + n - c)) by lia.
  destruct (write_buffer (a + n) c buf' dest Hc Hb') as (m & dest' & Hm & -> & Hc'); [lia|]. rewrite go_bind_ret. cbn beta iota.
  assert (∃ buf'', (if Z.of_nat m <? Z.of_nat (a + n - c) then copy_down buf' (Z.of_nat m) (Z.of_nat (a + n - c)) else mret buf') = Ret buf''
    ∧ buffered (a + n) (c + m) buf'' ∧ length buf'' = length buf') as (buf'' & -> & Hb'' & Hl'').
  { destruct (Z.ltb_spec (Z.of_nat m) (Z.of_nat (a + n - c))); [by apply copy_down_spec|]. exists buf'. split; [done|]. split; [|done].
    replace (c + m)%nat with (a + n)%nat by lia. unfold buffered. rewrite Nat.sub_diag. split; [lia|done]. }
  rewrite go_bind_ret, bind_mret.
  replace (Z.of_nat (sp + a) + Z.of_nat n) with (Z.of_nat (sp + (a + n))) by lia.
  replace (Z.of_nat (dp + c) + Z.of_nat m) with (Z.of_nat (dp + (c + m))) by lia.
  replace (Z.of_nat (L - a) - Z.of_nat n) with (Z.of_nat (L - (a + n))) by lia.
  replace (Z.of_nat (a + n - c) - Z.of_nat m) with (Z.of_nat (a + n - (c + m))) by lia.
  destruct Hb' as [Hb'1 _]. rewrite <- Hl', <- Hl''. apply IH; [done|done|lia|lia|lia].
Qed.

Lemma copied_start dest : represents bpv' dest ws → copied 0 dest.
Proof using Hsl Hdl. intros H. unfold copied. change (slice sp 0 vs) with (@nil Z). by rewrite splice_nil by lia. Qed.

Lemma copyWithBuf_spec dest buf :
  represents bpv' dest ws → (0 < length buf)%nat →
  ∃ dest' buf', copyWithBuf src (Z.of_nat sp) dest (Z.of_nat dp) (Z.of_nat L) buf = Ret (dest', buf') ∧ copied L dest' ∧
    length buf' = length buf.
Proof using Hsrc Hsl Hdl Hfit.
  intros Hd%copied_start Hb. unfold copyWithBuf.
  destruct (transfer_spec (Z.to_nat (Z.of_nat L)) 0 0 buf dest Hd) as (c & dest' & p & buf' & Hw & Hc & Hb' & Hle & Hl'); [split; [lia|done]|lia|lia|lia|].
  rewrite !Nat.add_0_r, !Nat.sub_0_r in Hw. change (Z.of_nat 0) with 0 in Hw. rewrite Hw, go_bind_ret.
  destruct (drain_spec (Z.to_nat (Z.of_nat (L - c))) c buf' dest' Hc Hb' Hle) as (dest'' & p' & r & buf'' & -> & Hc' & Hl''); [lia|].
  rewrite go_bind_ret. exists dest'', buf''. split_and!; [done|done|congruence].
Qed.

(** One value at a time, from the [c]-th on. *)
Lemma copy_singly n c dest :
  copied c dest → (c + n = L)%nat →
  ∃ p q dest', go_for n (Z.of_nat c) (fun _ '(srcPos, dest, destPos) =>
        v ← Get src srcPos; dest ← SetAt dest destPos v; mret (srcPos + 1, dest, destPos + 1))
      (Z.of_nat (sp + c), dest, Z.of_nat (dp + c)) = Ret (p, dest', q) ∧ copied L dest'.
Proof using Hsrc Hsl Hdl Hfit.
  revert c dest. induction n as [|n IH]; intros c dest Hc Hn; cbn [go_for].
  { replace L with c by lia. do 3 eexists. split; [done|done]. }
  destruct (lookup_lt_is_Some_2 vs (sp + c)) as [v Hv]; [lia|].
  assert (Hp : slice (sp + c) 1 vs = [v]) by (by rewrite (slice_first _ 0 vs v)).
  pose proof (fits_part c 1 ltac:(lia)) as Hf. rewrite Hp in Hf. apply Forall_cons in Hf as [Hf _].
  rewrite (Get_law _ _ _ _ _ Hsrc Hv), go_bind_ret.
  destruct (SetAt_law bpv' dest _ (dp + c) v Hc) as (dest' & -> & Hd'); [rewrite copied_length by lia; lia|done|]. rewrite go_bind_ret, bind_mret.
  replace (Z.of_nat (sp + c) + 1) with (Z.of_nat (sp + (c + 1))) by lia. replace (Z.of_nat (dp + c) + 1) with (Z.of_nat (dp + (c + 1))) by lia.
  replace (Z.of_nat c + 1) with (Z.of_nat (c + 1)) by lia. apply IH; [|lia]. unfold copied in *.
  rewrite slice_app, Hp, <- splice_app by (rewrite slice_length by lia; cbn; lia). rewrite slice_length by lia.
  by rewrite splice_one by (rewrite copied_length by lia; lia).
Qed.

Lemma Copy_copies dest mem :
  represents bpv' dest ws → 0 ≤ mem →
  ∃ dest', Copy src (Z.of_nat sp) dest (Z.of_nat dp) (Z.of_nat L) mem = Ret dest' ∧
    represents bpv' dest' (splice dp (slice sp L vs) ws).
Proof using Hsrc Hsl Hdl Hfit.
  intros Hd Hm. unfold Copy. rewrite (Size_law _ _ _ Hsrc), (Size_law _ _ _ Hd), !(proj2 (Z.ltb_ge _ _)) by lia. cbn zeta.
  assert (Hcap : 0 ≤ Z.shiftr mem 3) by (by apply Z.shiftr_nonneg). pose proof (copied_start dest Hd) as Hc.
  destruct (Z.eqb_spec (Z.shiftr mem 3) 0).
  - destruct (copy_singly L 0 dest Hc) as (p & q & dest' & Hl & Hd'); [lia|]. rewrite !Nat.add_0_r in Hl. rewrite Nat2Z.id.
    change (Z.of_nat 0) with 0 in Hl. rewrite Hl, go_bind_ret. by exists dest'.
  - destruct (Z.ltb_spec 0 (Z.of_nat L)).
    + rewrite (proj2 (Z.ltb_ge _ 0)) by (destruct (Z.ltb_spec (Z.of_nat L) (Z.shiftr mem 3)); lia).
      set (size := if _ <? Z.shiftr mem 3 then _ else _). assert (Hsize : 0 < size) by (unfold size; destruct (Z.ltb_spec (Z.of_nat L) (Z.shiftr mem 3)); lia).
      destruct (copyWithBuf_spec dest (replicate (Z.to_nat size) 0) Hd) as (dest' & buf' & -> & Hc' & _); [rewrite length_replicate; lia|].
      rewrite go_bind_ret. by exists dest'.
    + exists dest. split; [done|]. assert (L = 0%nat) as -> by lia. exact Hc.
Qed.
End Copy.

(** A range that is not there makes [Copy] panic. *)
Lemma Copy_panics {E S D} {OS : MutableOps E S} {OD : MutableOps E D} {LS : MutableLaws OS} {LD : MutableLaws OD}
    (bpv bpv' : Z) (src : S) (dest : D) (vs ws : list Z) srcPos destPos len mem :
  represents bpv src vs → represents bpv' dest ws →
  Z.of_nat (length vs) < srcPos + len ∨ Z.of_nat (length ws) < destPos + len → Copy src srcPos dest destPos len mem = Panic.
Proof.
  intros Hs Hd H. unfold Copy. rewrite (Size_law _ _ _ Hs), (Size_law _ _ _ Hd).
  destruct (Z.ltb_spec (Z.of_nat (length vs)) (srcPos + len)); [done|]. by rewrite (proj2 (Z.ltb_lt _ _)) by lia.
Qed.

(** * Sequences of operations *)

Inductive mutable_op :=
  | OpSet (index : nat) (value : Z)
  | OpSetBulk (index : nat) (arr : list Z) (off len : nat)
  | OpFill (fromIndex toIndex : nat) (value : Z)
  | OpClear.

Section Ops.
Context {E S : Type} {O : MutableOps E S}.

Definition run_op (s : S) (op : mutable_op) : go E S :=
  match op with
  | OpSet i v => SetAt s (Z.of_nat i) v
  | OpSetBulk i arr off len => '(_, s) ← SetBulk s (Z.of_nat i) arr (Z.of_nat off) (Z.of_nat len); mret s
  | OpFill a b v => Fill s (Z.of_nat a) (Z.of_nat b) v
  | OpClear => Clear s
  end.

Fixpoint run_mutable (s : S) (ops : list mutable_op) : go E S :=
  match ops with [] => mret s | op :: ops => s ← run_op s op; run_mutable s ops end.

(** What may be asked of an array of [n] values of [bpv] bits. *)
Definition op_valid (bpv : Z) (n : nat) (op : mutable_op) : Prop :=
  match op with
  | OpSet i v => (i < n)%nat ∧ fits 64 bpv v
  | OpSetBulk i arr off len => (i < n ∧ 0 < len ∧ off + len ≤ length arr)%nat ∧ Forall (fits 64 bpv) (slice off len arr)
  | OpFill a b v => (a ≤ b ≤ n)%nat ∧ fits 64 bpv v
  | OpClear => True
  end.

(** The operations on lists; a bulk operation may stop early. *)
Inductive list_step : mutable_op → list Z → list Z → Prop :=
  | step_set i v vs : list_step (OpSet i v) vs (<[i := v]> vs)
  | step_set_bulk i arr off len n vs : (0 < n ≤ len)%nat → (i + n ≤ length vs)%nat →
      list_step (OpSetBulk i arr off len) vs (splice i (slice off n arr) vs)
  | step_fill a b v vs : list_step (OpFill a b v) vs (splice a (replicate (b - a) v) vs)
  | step_clear vs : list_step OpClear vs (replicate (length vs) 0).

Inductive list_steps : list mutable_op → list Z → list Z → Prop :=
  | steps_nil vs : list_steps [] vs vs
  | steps_cons op ops vs vs' vs'' : list_step op vs vs' → list_steps ops vs' vs'' → list_steps (op :: ops) vs vs''.

Context {L : MutableLaws O}.

Lemma run_op_refines bpv s vs op :
  represents bpv s vs → op_valid bpv (length vs) op →
  ∃ s' vs', run_op s op = Ret s' ∧ represents bpv s' vs' ∧ list_step op vs vs' ∧ length vs' = length vs.
Proof using.
  intros Hs. destruct op as [i v|i arr off len|a b v|]; cbn [run_op op_valid].
  - intros [Hi Hv]. destruct (SetAt_law bpv s vs i v Hs Hi Hv) as (s' & -> & Hs'). exists s', (<[i := v]> vs).
    split_and!; [done|done|constructor|apply length_insert].
  - intros [(Hi & Hlen & Ho) HF]. destruct (SetBulk_law bpv s vs i arr off len Hs Hi Hlen Ho HF) as (n & s' & [Hn Hin] & -> & Hs').
    eexists s', _. split; [done|]. split; [exact Hs'|]. split; [by constructor|]. apply splice_len. rewrite slice_length by lia. lia.
  - intros [Ht Hv]. destruct (Fill_law bpv s vs a b v Hs Ht Hv) as (s' & -> & Hs'). eexists s', _. split; [done|]. split; [exact Hs'|].
    split; [constructor|]. apply splice_len. rewrite length_replicate. lia.
  - intros _. destruct (Clear_law bpv s vs Hs) as (s' & -> & Hs'). eexists s', _. split; [done|]. split; [exact Hs'|].
    split; [constructor|apply length_replicate].
Qed.

Lemma run_mutable_refines bpv ops : ∀ s vs,
  represents bpv s vs → Forall (op_valid bpv (length vs)) ops →
  ∃ s' vs', run_mutable s ops = Ret s' ∧ represents bpv s' vs' ∧ list_steps ops vs vs' ∧ length vs' = length vs.
Proof using.
  induction ops as [|op ops IH]; intros s vs Hs HV; cbn [run_mutable].
  { exists s, vs. split_and!; [done|done|constructor|done]. }
  apply Forall_cons in HV as [Hop HV]. destruct (run_op_refines bpv s vs op Hs Hop) as (s' & vs' & -> & Hs' & Hst & Hl). rewrite go_bind_ret.
  rewrite <- Hl in HV. destruct (IH s' vs' Hs' HV) as (s'' & vs'' & Hr & Hs'' & Hsts & Hl'). exists s'', vs''.
  split_and!; [done|done|by econstructor|congruence].
Qed.

(** What a list can be read back from. *)
Definition reads (s : S) (vs : list Z) : Prop :=
  Size s = Z.of_nat (length vs) ∧ (∀ i v, vs !! i = Some v → Get s (Z.of_nat i) = Ret v) ∧
  ∀ index arr off len, (index < length vs)%nat → (0 < len)%nat → (off + len ≤ length arr)%nat →
    ∃ n, (0 < n ≤ len ∧ index + n ≤ length vs)%nat ∧
      GetBulk s (Z.of_nat index) arr (Z.of_nat off) (Z.of_nat len) = Ret (Z.of_nat n, splice off (slice index n vs) arr).

Lemma represents_reads bpv s vs : represents bpv s vs → reads s vs.
Proof using.
  intros Hs. split; [by apply (Size_law bpv)|]. split; [intros; by apply (Get_law bpv s vs)|]. intros. by apply (GetBulk_law bpv).
Qed.
End Ops.
