(* ===== verification/Packed64.v ===== *)
(** Packed arrays without gaps: [util/packed/packed64.go].

    The values lie bit by bit after each other in 64-bit blocks, the most significant bit
    first, so a value may begin in one block and end in the next.  The file ends with the
    instance of [MutableLaws]. *)

From stdpp Require Import base tactics numbers list.
From Stdlib Require Import ZArith Lia.
From S2P Require Import Prelude Digits BulkOperation PackedMutable.

Local Open Scope Z_scope.

(** * Formats: [util/packed/packed_ints.go] *)

Inductive Format := FormatPacked | FormatPackedSingleBlock.

Section Packed.
Context {E : Type}.
Local Abbreviation G := (go E).

Definition VersionCurrent : Z := 2.

(** [LongCount] of the single-block format, and [ByteCount] of the other; the version is not looked at. *)
Definition single_long_count (valueCount bitsPerValue : Z) : G Z :=
  if bitsPerValue =? 0 then Panic else
  let valuesPerBlock := Z.quot 64 bitsPerValue in
  Ret (Z.quot (valueCount + valuesPerBlock - 1) valuesPerBlock).

Definition packed_byte_count (valueCount bitsPerValue : Z) : Z :=
  let bits := to_int64 (valueCount * bitsPerValue) in
  Z.quot (to_int64 (bits + 7)) 8.

Definition ByteCount (f : Format) (packedIntsVersion valueCount bitsPerValue : Z) : G Z :=
  if (bitsPerValue <? 0) || (64 <? bitsPerValue) then Panic else
  match f with
  | FormatPacked => Ret (packed_byte_count valueCount bitsPerValue)
  | FormatPackedSingleBlock => n ← single_long_count valueCount bitsPerValue; Ret (8 * n)
  end.

Definition LongCount (f : Format) (packedIntsVersion valueCount bitsPerValue : Z) : G Z :=
  if (bitsPerValue <? 0) || (64 <? bitsPerValue) then Panic else
  match f with
  | FormatPackedSingleBlock => single_long_count valueCount bitsPerValue
  | FormatPacked => byteCount ← ByteCount f packedIntsVersion valueCount bitsPerValue; Ret (Z.shiftr (byteCount + 7) 3)
  end.

(** * The array *)

Record Packed64 := {
  p_valueCount : Z;
  p_bitsPerValue : Z;
  p_blocks : list Z;
  p_maskRight : Z;
  p_bpvMinusBlockSize : Z
}.

Definition with_blocks (p : Packed64) (blocks : list Z) : Packed64 :=
  {| p_valueCount := p_valueCount p; p_bitsPerValue := p_bitsPerValue p; p_blocks := blocks;
     p_maskRight := p_maskRight p; p_bpvMinusBlockSize := p_bpvMinusBlockSize p |}.

Definition packed64BlockSize : Z := 64.
Definition packed64BlockBits : Z := 6.
Definition packed64ModMask : Z := packed64BlockSize - 1.

(** [^x] *)
Definition not64 (x : Z) : Z := uwrap 64 (Z.lnot x).

Definition newPacked64 (valueCount bitsPerValue : Z) : G Packed64 :=
  if (bitsPerValue <? 1) || (64 <? bitsPerValue) then Panic else
  longCount ← LongCount FormatPacked VersionCurrent valueCount bitsPerValue;
  let mask := Z.shiftr (shl64 (not64 0) (packed64BlockSize - bitsPerValue)) (packed64BlockSize - bitsPerValue) in
  if longCount <? 0 then Panic else
  Ret {| p_valueCount := valueCount; p_bitsPerValue := bitsPerValue; p_blocks := replicate (Z.to_nat longCount) 0;
         p_maskRight := mask; p_bpvMinusBlockSize := bitsPerValue - packed64BlockSize |}.

Definition p_Get (p : Packed64) (index : Z) : G Z :=
  let majorBitPos := to_int64 (index * p_bitsPerValue p) in
  let elementPos := Z.shiftr (to_uint64 majorBitPos) packed64BlockBits in
  let endBits := Z.land majorBitPos packed64ModMask + p_bpvMinusBlockSize p in
  block ← aget (p_blocks p) elementPos;
  if endBits <=? 0 then
    Ret (to_int64 (Z.land (Z.shiftr (to_uint64 block) (- endBits)) (p_maskRight p)))
  else
    let high := shl64 (to_uint64 block) endBits in
    block' ← aget (p_blocks p) (elementPos + 1);
    let low := Z.shiftr (to_uint64 block') (packed64BlockSize - endBits) in
    Ret (to_int64 (Z.land (Z.lor high low) (p_maskRight p))).

Definition p_Set (p : Packed64) (index value : Z) : G Packed64 :=
  let majorBitPos := to_int64 (index * p_bitsPerValue p) in
  let elementPos := Z.shiftr (to_uint64 majorBitPos) packed64BlockBits in
  let endBits := Z.land majorBitPos packed64ModMask + p_bpvMinusBlockSize p in
  let v := to_uint64 value in
  block ← aget (p_blocks p) elementPos;
  if endBits <=? 0 then
    let shift := - endBits in
    blocks ← aset (p_blocks p) elementPos
      (to_int64 (Z.lor (Z.land (to_uint64 block) (not64 (shl64 (p_maskRight p) shift))) (shl64 v shift)));
    mret (with_blocks p blocks)
  else
    let shiftA := endBits in
    let shiftB := packed64BlockSize - endBits in
    blocks ← aset (p_blocks p) elementPos
      (to_int64 (Z.lor (Z.land (to_uint64 block) (not64 (Z.shiftr (p_maskRight p) shiftA))) (Z.shiftr v shiftA)));
    block' ← aget blocks (elementPos + 1);
    blocks ← aset blocks (elementPos + 1)
      (to_int64 (Z.lor (Z.land (to_uint64 block') (Z.shiftr (not64 0) shiftA)) (shl64 v shiftB)));
    mret (with_blocks p blocks).

(** The part of [GetBulk] that begins with a block. *)
Definition p_get_blocks (p : Packed64) (decoder : bulkOperationPacked) (originalIndex : Z) (arr : list Z) (off index length : Z) : G (Z * list Z) :=
  let blockIndex := Z.shiftr (to_int64 (index * p_bitsPerValue p)) packed64BlockBits in
  let iterations := Z.quot length (longValueCount decoder) in
  arr ← DecodeLongs decoder (p_blocks p) blockIndex arr off iterations;
  let gotValues := iterations * longValueCount decoder in
  let index := index + gotValues in
  let length := length - gotValues in
  if originalIndex <? index then mret (index - originalIndex, arr) else
  readerBulkGet p_Get p_valueCount p index arr off length.

Definition p_GetBulk (p : Packed64) (index : Z) (arr : list Z) (off length : Z) : G (Z * list Z) :=
  if length <=? 0 then Panic else
  decoder ← newBulkOperationPacked (p_bitsPerValue p);
  get_aligned p_Get p_valueCount p (longValueCount decoder) (p_get_blocks p decoder) index arr off length.

(** The part of [SetBulk] that begins with a block. *)
Definition p_set_blocks (p : Packed64) (encoder : bulkOperationPacked) (originalIndex : Z) (arr : list Z) (off index length : Z) : G (Z * Packed64) :=
  let blockIndex := Z.shiftr (to_int64 (index * p_bitsPerValue p)) packed64BlockBits in
  let iterations := Z.quot length (longValueCount encoder) in
  blocks ← EncodeLongsToLongs encoder arr off (p_blocks p) blockIndex iterations;
  let p := with_blocks p blocks in
  let setValues := iterations * longValueCount encoder in
  let index := index + setValues in
  let length := length - setValues in
  if originalIndex <? index then mret (index - originalIndex, p) else
  mutableBulkSet p_Set p_valueCount p index arr off length.

Definition p_SetBulk (p : Packed64) (index : Z) (arr : list Z) (off length : Z) : G (Z * Packed64) :=
  if length <=? 0 then Panic else
  encoder ← newBulkOperationPacked (p_bitsPerValue p);
  set_aligned p_Set p_valueCount p (longValueCount encoder) (fun p originalIndex => p_set_blocks p encoder originalIndex arr) index arr off length.

(** [64 - bits.LeadingZeros64(v)], at least 1. *)
Definition UnsignedBitsRequired (v : Z) : Z :=
  let b := if v =? 0 then 0 else Z.log2 v + 1 in
  if b <? 1 then 1 else b.

(** Both arguments are at most 64, which bounds the calls. *)
Fixpoint gcd_go (n : nat) (a b : Z) : G Z :=
  match n with
  | O => NoFuel
  | S n => if a <? b then gcd_go n b a else if b =? 0 then Ret a else gcd_go n b (Z.rem a b)
  end.
Definition gcd : Z → Z → G Z := gcd_go 66.

Definition p_Fill (p : Packed64) (fromIndex toIndex val : Z) : G Packed64 :=
  if p_bitsPerValue p <? UnsignedBitsRequired (to_uint64 val) then Panic else
  g ← gcd 64 (p_bitsPerValue p);
  let nAlignedValues := Z.quot 64 g in
  let span := toIndex - fromIndex in
  if span <=? 3 * nAlignedValues then mutableFill p_Set p fromIndex toIndex val else
  let fromMod := Z.rem fromIndex nAlignedValues in
  '(p, fromIndex) ←
    (if fromMod =? 0 then mret (p, fromIndex) else fill_head p_Set p nAlignedValues fromMod fromIndex val);
  let nAlignedBlocks := Z.shiftr (nAlignedValues * p_bitsPerValue p) 6 in
  tmp ← newPacked64 nAlignedValues (p_bitsPerValue p);
  tmp ← go_for (Z.to_nat nAlignedValues) 0 (fun i tmp => p_Set tmp i val) tmp;
  let startBlock := Z.shiftr (to_int64 (fromIndex * p_bitsPerValue p)) 6 in
  let endBlock := Z.shiftr (to_int64 (toIndex * p_bitsPerValue p)) 6 in
  blocks ← go_for (Z.to_nat (endBlock - startBlock)) startBlock
    (fun block blocks => b ← aget (p_blocks tmp) (Z.rem block nAlignedBlocks); aset blocks block b) (p_blocks p);
  let p := with_blocks p blocks in
  let i := Z.quot (to_int64 (Z.shiftl endBlock 6)) (p_bitsPerValue p) in
  go_for (Z.to_nat (toIndex - i)) i (fun i p => p_Set p i val) p.

Definition p_Clear (p : Packed64) : G Packed64 :=
  Ret (with_blocks p (map (λ _, 0) (p_blocks p))).

#[export] Instance Packed64_ops : MutableOps E Packed64 :=
  {| Size := p_valueCount; Get := p_Get; SetAt := p_Set; GetBulk := p_GetBulk; SetBulk := p_SetBulk; Fill := p_Fill; Clear := p_Clear |}.
End Packed.

Example packed64_run :
  (p ← newPacked64 (E := unit) 100 12;
   p ← p_Set p 5 4095; p ← p_Set p 6 291; '(n, p) ← p_SetBulk p 7 (seqZ 1 30) 0 30; p ← p_Fill p 50 99 7;
   a ← p_Get p 5; b ← p_Get p 6; c ← p_Get p 98; '(m, arr) ← p_GetBulk p 5 (replicate 16 0) 1 15;
   mret (n, (a, b, c), m, arr, length (p_blocks p)))
  = Ret (25, (4095, 291, 7), 11, [0; 4095; 291] ++ seqZ 1 9 ++ replicate 4 0, 19%nat).
Proof. vm_compute. reflexivity. Qed.

(** * Bits of blocks *)

(** Bit [P] of a row of words, from the left. *)
Definition packed_bit (us : list Z) (P : Z) : bool := Z.testbit (nth (Z.to_nat (P / 64)) us 0) (63 - P mod 64).

Lemma packed_bit_at us (e : nat) u r : us !! e = Some u → 0 ≤ r < 64 → packed_bit us (64 * Z.of_nat e + 63 - r) = Z.testbit u r.
Proof.
  intros Hu Hr. unfold packed_bit.
  replace (64 * Z.of_nat e + 63 - r) with (63 - r + Z.of_nat e * 64) by lia.
  rewrite Z.div_add, Z.mod_add, Z.div_small, Z.mod_small, Z.add_0_l, Nat2Z.id by lia. rewrite (nth_lookup_Some _ _ _ _ Hu). f_equal. lia.
Qed.

(** A position is in a word. *)
Lemma position P : 0 ≤ P → ∃ (e : nat) r, P = 64 * Z.of_nat e + 63 - r ∧ 0 ≤ r < 64.
Proof.
  intros HP. exists (Z.to_nat (P / 64)), (63 - P mod 64). pose proof (Z.div_mod P 64 ltac:(lia)).
  pose proof (Z.mod_pos_bound P 64 ltac:(lia)). pose proof (Z.div_pos P 64 HP ltac:(lia)). lia.
Qed.

(** Changing a word changes its bits only. *)
Lemma packed_bit_insert us (e : nat) u (e' : nat) r :
  (e < length us)%nat → (e' < length us)%nat → 0 ≤ r < 64 →
  packed_bit (<[e := u]> us) (64 * Z.of_nat e' + 63 - r) =
  if bool_decide (e' = e) then Z.testbit u r else packed_bit us (64 * Z.of_nat e' + 63 - r).
Proof.
  intros He He' Hr. case_bool_decide as Hd.
  - subst e'. apply packed_bit_at; [|done]. by apply list_lookup_insert_eq.
  - destruct (lookup_lt_is_Some_2 us e' He') as [x Hx].
    assert (Hx' : <[e := u]> us !! e' = Some x) by (by rewrite list_lookup_insert_ne by congruence).
    by rewrite (packed_bit_at _ e' x r Hx' Hr), (packed_bit_at us e' x r Hx Hr).
Qed.

Lemma not64_testbit x j : 0 ≤ j < 64 → Z.testbit (not64 x) j = negb (Z.testbit x j).
Proof. intros Hj. unfold not64. rewrite uwrap_testbit, Z.lnot_spec by lia. by rewrite (proj2 (Z.ltb_lt _ _)) by lia. Qed.

Lemma ones_testbit bpv j : 0 ≤ bpv → Z.testbit (2 ^ bpv - 1) j = (0 <=? j) && (j <? bpv).
Proof.
  intros Hb. destruct (Z.leb_spec 0 j); cbn [andb]; [by apply mask_testbit|by apply Z.testbit_neg_r].
Qed.

Lemma mask_right bpv : 1 ≤ bpv ≤ 64 → Z.shiftr (shl64 (not64 0) (64 - bpv)) (64 - bpv) = 2 ^ bpv - 1.
Proof.
  intros Hb. apply bits_ext. intros j Hj. rewrite Z.shiftr_spec, shl_testbit, ones_testbit by lia.
  rewrite (proj2 (Z.leb_le 0 j)) by done. cbn [andb]. destruct (Z.ltb_spec (j + (64 - bpv)) 64), (Z.ltb_spec j bpv); try lia.
  cbn [andb]. rewrite not64_testbit by lia. by rewrite Z.bits_0.
Qed.

(** * Arrays stand for lists *)

(** The bits of [v] are those of value [i]. *)
Definition stored (bpv : Z) (us : list Z) (i : nat) (v : Z) : Prop :=
  ∀ j, 0 ≤ j < bpv → packed_bit us (bpv * (Z.of_nat i + 1) - 1 - j) = Z.testbit v j.

Definition words (p : Packed64) : list Z := map to_uint64 (p_blocks p).

(** The array has room for the values, and its bits have positions in an [int64]. *)
Record shaped (bpv : Z) (p : Packed64) (n : nat) : Prop := {
  sh_count : p_valueCount p = Z.of_nat n;
  sh_bits : p_bitsPerValue p = bpv;
  sh_width : 1 ≤ bpv ≤ 64;
  sh_mask : p_maskRight p = 2 ^ bpv - 1;
  sh_minus : p_bpvMinusBlockSize p = bpv - 64;
  sh_room : bpv * Z.of_nat n ≤ 64 * Z.of_nat (length (p_blocks p));
  sh_small : bpv * Z.of_nat n < 2 ^ 63
}.

Definition p_represents (bpv : Z) (p : Packed64) (vs : list Z) : Prop :=
  shaped bpv p (length vs) ∧ Forall (fits 64 bpv) vs ∧ ∀ i v, vs !! i = Some v → stored bpv (words p) i v.

Lemma fits_testbit bpv v j : 1 ≤ bpv ≤ 64 → fits 64 bpv v → bpv ≤ j < 64 → Z.testbit v j = false.
Proof.
  intros Hb [_ Hf] Hj. assert (He : Z.testbit (uwrap 64 v) j = Z.testbit v j).
  { rewrite uwrap_testbit by lia. by rewrite (proj2 (Z.ltb_lt _ _)) by lia. }
  rewrite <- He. apply (in_uint_testbit_high bpv); [lia|done|lia].
Qed.

Lemma fits_eq bpv v x :
  1 ≤ bpv ≤ 64 → fits 64 bpv v → in_uint bpv x → (∀ j, 0 ≤ j < bpv → Z.testbit x j = Z.testbit v j) → to_int64 x = v.
Proof.
  intros Hb Hf Hx Hj. pose proof Hf as [Hs _]. rewrite <- (swrap_id 64 v) by (done || lia).
  rewrite <- (swrap_uwrap 64 v) by lia. f_equal. apply bits_ext. intros j Hj0. rewrite uwrap_testbit by lia.
  destruct (Z.ltb_spec j bpv); [rewrite Hj, (proj2 (Z.ltb_lt _ _)) by lia; done|].
  rewrite (in_uint_testbit_high bpv) by (done || lia). destruct (Z.ltb_spec j 64); [|done]. by rewrite (fits_testbit bpv) by (done || lia).
Qed.

Section Array.
Context {E : Type} (bpv : Z).

Lemma packed_word_at p (e : nat) x : p_blocks p !! e = Some x → words p !! e = Some (to_uint64 x).
Proof using. intros Hx. unfold words. apply list_lookup_fmap_Some. eauto. Qed.

(** Where value [i] begins: word and offset. *)
Lemma value_location p n (i : nat) :
  shaped bpv p n → (i < n)%nat →
  ∃ (e : nat) m, bpv * Z.of_nat i = 64 * Z.of_nat e + m ∧ 0 ≤ m < 64 ∧
    Z.shiftr (to_uint64 (to_int64 (Z.of_nat i * p_bitsPerValue p))) packed64BlockBits = Z.of_nat e ∧
    Z.land (to_int64 (Z.of_nat i * p_bitsPerValue p)) packed64ModMask = m ∧
    (e < length (p_blocks p))%nat ∧ (64 < m + bpv → (S e < length (p_blocks p))%nat).
Proof using.
  intros [_ -> Hw _ _ Hroom Hsmall] Hi. exists (Z.to_nat (bpv * Z.of_nat i / 64)), (bpv * Z.of_nat i mod 64).
  assert (Hpos : 0 ≤ bpv * Z.of_nat i < 2 ^ 63) by nia. pose proof (Z.div_mod (bpv * Z.of_nat i) 64 ltac:(lia)) as Hdm.
  pose proof (Z.mod_pos_bound (bpv * Z.of_nat i) 64 ltac:(lia)) as Hm. pose proof (Z.div_pos (bpv * Z.of_nat i) 64 ltac:(lia) ltac:(lia)) as Hq.
  assert (Hend : bpv * Z.of_nat i + bpv ≤ 64 * Z.of_nat (length (p_blocks p))) by nia.
  rewrite (Z.mul_comm (Z.of_nat i)), (swrap_id 64), (uwrap_id 64) by (unfold in_uint, in_sint; lia).
  rewrite Z2Nat.id by done. split_and!; try lia.
  - by rewrite Z.shiftr_div_pow2.
  - unfold packed64ModMask, packed64BlockSize. change (64 - 1) with (Z.ones 6). by rewrite Z.land_ones.
Qed.

Lemma packed_block_get p (e : nat) x k : p_blocks p !! e = Some x → k = Z.of_nat e → aget (E := E) (p_blocks p) k = Ret x.
Proof using. intros Hx ->. apply aget_Ret; [lia|]. by rewrite Nat2Z.id. Qed.

Lemma p_Get_spec p vs i v : p_represents bpv p vs → vs !! i = Some v → p_Get (E := E) p (Z.of_nat i) = Ret v.
Proof using.
  intros (Hsh & HF & Hst) Hv. pose proof (Hst i v Hv) as Hb. apply lookup_lt_Some in Hv as Hi.
  assert (Hfit : fits 64 bpv v) by (by eapply Forall_lookup_1 in HF).
  destruct (value_location p _ i Hsh Hi) as (e & m & Hpos & Hm & He & Hl & Hlt & Hlt'). pose proof (sh_width _ _ _ Hsh) as Hw.
  unfold p_Get. rewrite He, Hl, (sh_minus _ _ _ Hsh), (sh_mask _ _ _ Hsh).
  destruct (lookup_lt_is_Some_2 _ _ Hlt) as [x Hx]. rewrite (packed_block_get _ _ _ _ Hx eq_refl), go_bind_ret. cbn zeta.
  assert (Hrange : ∀ y, in_uint bpv (Z.land y (2 ^ bpv - 1))).
  { intros y. replace (2 ^ bpv - 1) with (Z.ones bpv) by (rewrite Z.ones_equiv; lia). rewrite Z.land_ones by lia. apply uwrap_range. lia. }
  destruct (Z.leb_spec (m + (bpv - 64)) 0) as [Hin|Hout].
  - f_equal. apply (fits_eq bpv); [done|done|apply Hrange|]. intros j Hj.
    rewrite Z.land_spec, Z.shiftr_spec, ones_testbit by lia. rewrite (proj2 (Z.leb_le 0 j)), (proj2 (Z.ltb_lt _ _)), andb_true_r by lia.
    rewrite <- Hb by done. rewrite <- (packed_bit_at (words p) e _ _ (packed_word_at _ _ _ Hx)) by lia. f_equal. lia.
  - destruct (lookup_lt_is_Some_2 _ _ (Hlt' ltac:(lia))) as [y Hy]. rewrite (packed_block_get _ _ _ _ Hy), go_bind_ret by lia. cbn zeta.
    f_equal. apply (fits_eq bpv); [done|done|apply Hrange|]. intros j Hj. unfold packed64BlockSize.
    rewrite Z.land_spec, Z.lor_spec, shl_testbit, Z.shiftr_spec, ones_testbit by lia.
    rewrite (proj2 (Z.leb_le 0 j)), (proj2 (Z.ltb_lt j bpv)), (proj2 (Z.ltb_lt j 64)), andb_true_r by lia. cbn [andb].
    rewrite <- Hb by done. destruct (Z.ltb_spec j (m + (bpv - 64))).
    + rewrite (testbit_neg (to_uint64 x)) by lia. cbn [orb].
      rewrite <- (packed_bit_at (words p) (S e) _ _ (packed_word_at _ _ _ Hy)) by lia. f_equal. lia.
    + rewrite (in_uint_testbit_high 64 (to_uint64 y)), orb_false_r by (lia || apply uwrap_range; lia).
      rewrite <- (packed_bit_at (words p) e _ _ (packed_word_at _ _ _ Hx)) by lia. f_equal. lia.
Qed.

(** ** Writing *)

(** [xs] takes the place of the values from [i] on when its bits are there and the others are as before. *)
Lemma splice_represents p vs blocks' i xs :
  p_represents bpv p vs → (i + length xs ≤ length vs)%nat → Forall (fits 64 bpv) xs → length blocks' = length (p_blocks p) →
  (∀ P, 0 ≤ P < bpv * Z.of_nat (length vs) → P < bpv * Z.of_nat i ∨ bpv * Z.of_nat (i + length xs) ≤ P →
    packed_bit (map to_uint64 blocks') P = packed_bit (words p) P) →
  (∀ k x, xs !! k = Some x → stored bpv (map to_uint64 blocks') (i + k) x) →
  p_represents bpv (with_blocks p blocks') (splice i xs vs).
Proof using.
  intros ([Hc Hbits Hw Hmask Hminus Hroom Hsmall] & HF & Hst) Hi Hxs Hlen Hout Hin. unfold p_represents.
  rewrite splice_len by done. split; [by split; cbn; rewrite ?Hlen|]. split.
  - apply Forall_app. split; [by apply Forall_take|]. apply Forall_app. split; [done|by apply Forall_drop].
  - intros k v. rewrite splice_lookup by done. case_bool_decide as Hk.
    + intros Hv%Hin. by replace (i + (k - i))%nat with k in Hv by lia.
    + intros Hv j Hj. pose proof (lookup_lt_Some _ _ _ Hv). rewrite <- (Hst k v Hv j Hj). apply Hout; [nia|].
      destruct (decide (k < i)%nat); [left; nia|right; nia].
Qed.

Lemma written_bit blocks (e : nat) u (e' : nat) r :
  (e < length blocks)%nat → (e' < length blocks)%nat → 0 ≤ r < 64 →
  packed_bit (map to_uint64 (<[e := to_int64 u]> blocks)) (64 * Z.of_nat e' + 63 - r) =
  if bool_decide (e' = e) then Z.testbit u r else packed_bit (map to_uint64 blocks) (64 * Z.of_nat e' + 63 - r).
Proof using.
  intros He He' Hr. change (map to_uint64) with (fmap (M := list) to_uint64). rewrite list_fmap_insert.
  rewrite packed_bit_insert by (rewrite ?length_fmap; done). case_bool_decide; [|done].
  rewrite uwrap_swrap, uwrap_testbit by lia. by rewrite (proj2 (Z.ltb_lt _ _)) by lia.
Qed.

Lemma block_set p (e : nat) x k : (e < length (p_blocks p))%nat → k = Z.of_nat e → aset (E := E) (p_blocks p) k x = Ret (<[e := x]> (p_blocks p)).
Proof using. intros He ->. rewrite aset_splice, splice_one by done. done. Qed.

(** The bits of the array with [v] at [i]. *)
Definition bit_with (us : list Z) (i : nat) (v P : Z) : bool :=
  if (bpv * Z.of_nat i <=? P) && (P <? bpv * (Z.of_nat i + 1)) then Z.testbit (to_uint64 v) (bpv * (Z.of_nat i + 1) - 1 - P)
  else packed_bit us P.

(** A value within a word, *)
Lemma set_within x v (i e : nat) m r :
  1 ≤ bpv ≤ 64 → in_uint bpv (to_uint64 v) → bpv * Z.of_nat i = 64 * Z.of_nat e + m → 0 ≤ m → m + bpv ≤ 64 → 0 ≤ r < 64 →
  let shift := - (m + (bpv - 64)) in
  Z.testbit (Z.lor (Z.land x (not64 (shl64 (2 ^ bpv - 1) shift))) (shl64 (to_uint64 v) shift)) r =
  if (m <=? 63 - r) && (63 - r <? m + bpv) then Z.testbit (to_uint64 v) (m + bpv - 1 - (63 - r)) else Z.testbit x r.
Proof using.
  intros Hw Hv Hpos Hm Hin Hr shift. rewrite Z.lor_spec, Z.land_spec, not64_testbit, !shl_testbit, ones_testbit by lia. unfold shift.
  rewrite (proj2 (Z.ltb_lt r 64)) by lia. cbn [andb]. replace (m + bpv - 1 - (63 - r)) with (r - - (m + (bpv - 64))) by lia.
  destruct (Z.leb_spec m (63 - r)), (Z.ltb_spec (63 - r) (m + bpv)); cbn [andb]; try lia.
  - rewrite (proj2 (Z.leb_le _ _)), (proj2 (Z.ltb_lt _ bpv)) by lia. cbn. by rewrite andb_false_r.
  - rewrite (proj2 (Z.leb_gt _ _)) by lia. cbn [andb negb]. rewrite andb_true_r, (testbit_neg (to_uint64 v)), orb_false_r by lia. done.
  - rewrite (proj2 (Z.ltb_ge _ bpv)), andb_false_r by lia. cbn [negb]. rewrite andb_true_r.
    rewrite (in_uint_testbit_high bpv (to_uint64 v)), orb_false_r by (done || lia). done.
Qed.

(** and its parts in two words. *)
Lemma set_first x v m r :
  1 ≤ bpv ≤ 64 → in_uint bpv (to_uint64 v) → 0 ≤ m < 64 → 64 < m + bpv → 0 ≤ r < 64 →
  let shiftA := m + (bpv - 64) in
  Z.testbit (Z.lor (Z.land x (not64 (Z.shiftr (2 ^ bpv - 1) shiftA))) (Z.shiftr (to_uint64 v) shiftA)) r =
  if m <=? 63 - r then Z.testbit (to_uint64 v) (m + bpv - 1 - (63 - r)) else Z.testbit x r.
Proof using.
  intros Hw Hv Hm Hout Hr shiftA. rewrite Z.lor_spec, Z.land_spec, not64_testbit, !Z.shiftr_spec, ones_testbit by lia. unfold shiftA.
  replace (m + bpv - 1 - (63 - r)) with (r + (m + (bpv - 64))) by lia. rewrite (proj2 (Z.leb_le 0 _)) by lia. cbn [andb].
  destruct (Z.leb_spec m (63 - r)).
  - rewrite (proj2 (Z.ltb_lt _ bpv)) by lia. cbn. by rewrite andb_false_r.
  - rewrite (proj2 (Z.ltb_ge _ bpv)) by lia. cbn [negb]. rewrite andb_true_r.
    rewrite (in_uint_testbit_high bpv (to_uint64 v)), orb_false_r by (done || lia). done.
Qed.

Lemma set_second y v m r :
  1 ≤ bpv ≤ 64 → 0 ≤ m < 64 → 64 < m + bpv → 0 ≤ r < 64 →
  let shiftA := m + (bpv - 64) in
  Z.testbit (Z.lor (Z.land y (Z.shiftr (not64 0) shiftA)) (shl64 (to_uint64 v) (64 - shiftA))) r =
  if 127 - r <? m + bpv then Z.testbit (to_uint64 v) (m + bpv - 1 - (127 - r)) else Z.testbit y r.
Proof using.
  intros Hw Hm Hout Hr shiftA. rewrite Z.lor_spec, Z.land_spec, shl_testbit, Z.shiftr_spec by lia. unfold shiftA.
  replace (m + bpv - 1 - (127 - r)) with (r - (64 - (m + (bpv - 64)))) by lia. rewrite (proj2 (Z.ltb_lt r 64)) by lia. cbn [andb].
  destruct (Z.ltb_spec (127 - r) (m + bpv)).
  - rewrite (in_uint_testbit_high 64 (not64 0)) by (lia || apply uwrap_range; lia). by rewrite andb_false_r.
  - rewrite not64_testbit, Z.bits_0 by lia. cbn [negb]. by rewrite andb_true_r, (testbit_neg (to_uint64 v)), orb_false_r by lia.
Qed.

Lemma p_Set_bits p n i v :
  shaped bpv p n → (i < n)%nat → in_uint bpv (to_uint64 v) →
  ∃ blocks', p_Set (E := E) p (Z.of_nat i) v = Ret (with_blocks p blocks') ∧ length blocks' = length (p_blocks p) ∧
    ∀ P, 0 ≤ P < 64 * Z.of_nat (length (p_blocks p)) → packed_bit (map to_uint64 blocks') P = bit_with (words p) i v P.
Proof using.
  intros Hsh Hi Hv. destruct (value_location p _ i Hsh Hi) as (e & m & Hpos & Hm & He & Hl & Hlt & Hlt'). pose proof (sh_width _ _ _ Hsh) as Hw.
  unfold p_Set. rewrite He, Hl, (sh_minus _ _ _ Hsh), (sh_mask _ _ _ Hsh).
  destruct (lookup_lt_is_Some_2 _ _ Hlt) as [x Hx]. rewrite (packed_block_get _ _ _ _ Hx eq_refl), go_bind_ret. cbn zeta.
  destruct (Z.leb_spec (m + (bpv - 64)) 0) as [Hin|Hout].
  - rewrite (block_set p e) by done. rewrite go_bind_ret. eexists. split; [done|]. rewrite length_insert. split; [done|].
    intros P HP. destruct (position P) as (e' & r & -> & Hr); [lia|]. rewrite written_bit by lia.
    rewrite (set_within _ v i e m r) by (done || lia). unfold bit_with. case_bool_decide as Hd.
    + subst e'. rewrite (packed_bit_at (words p) e _ _ (packed_word_at _ _ _ Hx)) by lia.
      replace (m <=? 63 - r) with (bpv * Z.of_nat i <=? 64 * Z.of_nat e + 63 - r) by lia.
      replace (63 - r <? m + bpv) with (64 * Z.of_nat e + 63 - r <? bpv * (Z.of_nat i + 1)) by lia.
      destruct (_ && _); [f_equal; lia|done].
    + replace ((bpv * Z.of_nat i <=? _) && _) with false; [done|]. symmetry. apply andb_false_iff.
      destruct (Z.leb_spec (bpv * Z.of_nat i) (64 * Z.of_nat e' + 63 - r)); [right; apply Z.ltb_ge; lia|by left].
  - rewrite (block_set p e), go_bind_ret by done. unfold packed64BlockSize.
    destruct (lookup_lt_is_Some_2 _ _ (Hlt' ltac:(lia))) as [y Hy].
    remember (<[e := _]> (p_blocks p)) as b1 eqn:Eb1. assert (Hy1 : b1 !! S e = Some y) by (rewrite Eb1; by rewrite list_lookup_insert_ne by lia).
    assert (Hl1 : length b1 = length (p_blocks p)) by (rewrite Eb1; by rewrite length_insert).
    assert (Hb1 : words (with_blocks p b1) !! S e = Some (to_uint64 y)) by (by apply packed_word_at).
    rewrite (packed_block_get (with_blocks p b1) (S e) _ _ Hy1), go_bind_ret by lia.
    rewrite (block_set (with_blocks p b1) (S e)), go_bind_ret by (cbn; lia). eexists. split; [done|]. cbn [p_blocks with_blocks].
    rewrite length_insert. split; [done|].
    intros P HP. destruct (position P) as (e' & r & -> & Hr); [lia|]. rewrite written_bit by lia.
    rewrite set_second by (done || lia). unfold bit_with. case_bool_decide as Hd.
    + subst e'. rewrite (packed_bit_at (words p) (S e) _ _ (packed_word_at _ _ _ Hy)) by lia.
      rewrite (proj2 (Z.leb_le _ _)) by lia. cbn [andb].
      destruct (Z.ltb_spec (127 - r) (m + bpv)), (Z.ltb_spec (64 * Z.of_nat (S e) + 63 - r) (bpv * (Z.of_nat i + 1))); try lia; [f_equal; lia|done].
    + rewrite Eb1. rewrite written_bit by lia. rewrite set_first by (done || lia). case_bool_decide as Hd'.
      * subst e'. rewrite (packed_bit_at (words p) e _ _ (packed_word_at _ _ _ Hx)) by lia.
        replace (m <=? 63 - r) with (bpv * Z.of_nat i <=? 64 * Z.of_nat e + 63 - r) by lia.
        rewrite (proj2 (Z.ltb_lt _ (bpv * (Z.of_nat i + 1)))), andb_true_r by lia. destruct (_ <=? _); [f_equal; lia|done].
      * replace ((bpv * Z.of_nat i <=? _) && _) with false; [done|]. symmetry. apply andb_false_iff.
        destruct (Z.leb_spec (bpv * Z.of_nat i) (64 * Z.of_nat e' + 63 - r)); [right; apply Z.ltb_ge; lia|by left].
Qed.

Lemma p_Set_spec p vs i v :
  p_represents bpv p vs → (i < length vs)%nat → fits 64 bpv v →
  ∃ p', p_Set (E := E) p (Z.of_nat i) v = Ret p' ∧ p_represents bpv p' (<[i := v]> vs).
Proof using.
  intros Hp Hi Hv. pose proof Hp as (Hsh & _ & _). pose proof (sh_width _ _ _ Hsh). pose proof (sh_room _ _ _ Hsh).
  destruct (p_Set_bits p _ i v Hsh Hi (proj2 Hv)) as (blocks' & -> & Hl & Hb). eexists. split; [done|].
  rewrite <- splice_one by done. apply splice_represents; [done|cbn; lia|by constructor|done| |].
  - intros P HP Ho. cbn [length] in Ho. rewrite Hb by lia. unfold bit_with.
    destruct (Z.leb_spec (bpv * Z.of_nat i) P), (Z.ltb_spec P (bpv * (Z.of_nat i + 1))); cbn [andb]; try done. lia.
  - intros k x Hk j Hj. destruct k as [|k]; [|done]. injection Hk as ->. rewrite Nat.add_0_r, Hb by nia. unfold bit_with.
    rewrite (proj2 (Z.leb_le _ _)), (proj2 (Z.ltb_lt _ _)) by nia. cbn [andb].
    replace (bpv * (Z.of_nat i + 1) - 1 - (bpv * (Z.of_nat i + 1) - 1 - j)) with j by lia. rewrite uwrap_testbit by lia.
    by rewrite (proj2 (Z.ltb_lt _ _)) by lia.
Qed.

(** ** Whole blocks *)

(** What [moves] says of parts of two slices. *)
Lemma moves_splice (op : list Z → Z → list Z → Z → Z → go E (list Z)) e n o xs ys src dst iterations :
  moves op xs ys iterations → slice e n src = xs → (e + n ≤ length src)%nat → (o + length ys ≤ length dst)%nat →
  op src (Z.of_nat e) dst (Z.of_nat o) iterations = Ret (splice o ys dst).
Proof using.
  intros Hop <- He Hd. specialize (Hop (take e src) (drop (e + n) src) (take o dst) (slice o (length ys) dst) (drop (o + length ys) dst)).
  rewrite !around, !length_take, !Nat.min_l in Hop by lia. apply Hop. by apply slice_length.
Qed.

Section Blocks.
Context (b : bulkOperationPacked) (HB : bulk_for bpv b) (p : Packed64) (vs arr : list Z) (k it off : nat).
Context (Hp : p_represents bpv p vs).

Let lvc := Z.to_nat (longValueCount b).
Let lbc := Z.to_nat (longBlockCount b).

(** The values from [k * lvc] on are in the blocks from [k * lbc] on. *)
Lemma aligned : bpv * Z.of_nat lvc = 64 * Z.of_nat lbc ∧ (0 < lvc)%nat.
Proof using HB. destruct (bf_longs _ _ HB) as (? & ? & ?). unfold lvc, lbc. nia. Qed.

Context (Hi : (k * lvc + it * lvc ≤ length vs)%nat).

Lemma block_index :
  Z.shiftr (to_int64 (Z.of_nat (k * lvc) * p_bitsPerValue p)) packed64BlockBits = Z.of_nat (k * lbc).
Proof using HB Hp Hi.
  destruct Hp as ([_ -> Hw _ _ Hroom Hsmall] & _ & _). destruct aligned as [Ha _].
  assert (He : Z.of_nat (k * lvc) * bpv = 64 * Z.of_nat (k * lbc)) by nia. rewrite He.
  assert (64 * Z.of_nat (k * lbc) < 2 ^ 63) by nia.
  rewrite (swrap_id 64) by (unfold in_sint; lia). unfold packed64BlockBits. rewrite Z.shiftr_div_pow2 by lia.
  change (2 ^ 6) with 64. by rewrite Z.mul_comm, Z.div_mul.
Qed.

Lemma blocks_room : (k * lbc + it * lbc ≤ length (p_blocks p))%nat.
Proof using HB Hp Hi. destruct Hp as (Hsh & _ & _). pose proof (sh_room _ _ _ Hsh). destruct aligned as [Ha _]. destruct (bf_width _ _ HB). nia. Qed.

Context (Ho : (off + it * lvc ≤ length arr)%nat).

Lemma decode_mid :
  DecodeLongs (E := E) b (p_blocks p) (Z.of_nat (k * lbc)) arr (Z.of_nat off) (Z.of_nat it) =
  Ret (splice off (slice (k * lvc) (it * lvc) vs) arr).
Proof using HB Hp Hi Ho.
  pose proof Hp as (Hsh & HF & Hst). pose proof (sh_width _ _ _ Hsh) as Hw. destruct aligned as [Ha _]. pose proof blocks_room as Hr.
  set (xs := slice (k * lbc) (it * lbc) (p_blocks p)). assert (Hxs : length xs = (it * lbc)%nat) by (by apply slice_length).
  assert (Hn : Z.to_nat (longValueCount b * Z.of_nat it) = (it * lvc)%nat) by (unfold lvc; lia).
  assert (Hu : unpacked to_int64 bpv 64 (it * lvc) xs = slice (k * lvc) (it * lvc) vs).
  { apply list_eq. intros i. destruct (decide (i < it * lvc)%nat) as [Hlt|].
    2: { rewrite !lookup_ge_None_2; [done|rewrite slice_length by lia; lia|rewrite unpacked_length; lia]. }
    rewrite slice_lookup by done. destruct (lookup_lt_is_Some_2 vs (k * lvc + i)) as [v Hv]; [lia|]. rewrite Hv.
    apply list_lookup_fmap_Some. eexists. split; [symmetry|by apply value_lookup].
    assert (HU : Forall (in_uint 64) (map to_uint64 xs)) by (apply map_uwrap_range; lia).
    assert (HN : bpv * Z.of_nat (it * lvc) = 64 * Z.of_nat (length (map to_uint64 xs))) by (rewrite length_map, Hxs; nia).
    apply (fits_eq bpv); [done|by eapply Forall_lookup_1 in HF|apply uwrap_range; lia|]. intros j Hj.
    destruct (position (bpv * (Z.of_nat i + 1) - 1 - j)) as (q & r & Hq & Hr64); [nia|].
    assert (Hqlt : (q < it * lbc)%nat) by nia. destruct (lookup_lt_is_Some_2 (p_blocks p) (k * lbc + q)) as [u Hu]; [lia|].
    rewrite (value_bit bpv 64 (map to_uint64 xs) (it * lvc) ltac:(lia) ltac:(lia) HU HN i q (to_uint64 u) r j); [|..|lia].
    - rewrite <- (Hst _ _ Hv j Hj), <- (packed_bit_at (words p) _ _ _ (packed_word_at _ _ _ Hu) Hr64). f_equal. nia.
    - apply list_lookup_fmap_Some. exists u. split; [done|]. unfold xs. by rewrite slice_lookup by done.
    - done.
    - done.
    - done. }
  rewrite <- Hu. apply (moves_splice _ (k * lbc) (it * lbc) off xs); [|done|done|rewrite unpacked_length; lia].
  rewrite <- Hn. apply (DecodeLongs_moves bpv b HB); [lia|]. rewrite Hxs. unfold lbc. destruct (bf_longs _ _ HB). nia.
Qed.

Lemma encode_mid :
  Forall (fits 64 bpv) (slice off (it * lvc) arr) →
  ∃ blocks', EncodeLongsToLongs (E := E) b arr (Z.of_nat off) (p_blocks p) (Z.of_nat (k * lbc)) (Z.of_nat it) = Ret blocks' ∧
    p_represents bpv (with_blocks p blocks') (splice (k * lvc) (slice off (it * lvc) arr) vs).
Proof using HB Hp Hi Ho.
  intros Hfit. pose proof Hp as (Hsh & HF & Hst). pose proof (sh_width _ _ _ Hsh) as Hw. destruct aligned as [Ha _]. pose proof blocks_room as Hr.
  set (xs := slice off (it * lvc) arr) in *. assert (Hxs : length xs = (it * lvc)%nat) by (by apply slice_length).
  pose proof (fits_range 64 bpv xs Hfit) as HU. set (m := (it * lbc)%nat).
  set (ds := digits 64 m (join bpv (map to_uint64 xs))). assert (Hds : length (map to_int64 ds) = m) by (unfold ds; by rewrite length_map, digits_length).
  exists (splice (k * lbc) (map to_int64 ds) (p_blocks p)). split.
  { apply (moves_splice _ off (it * lvc) (k * lbc) xs); [|done|done|lia]. unfold ds, m.
    replace (it * lbc)%nat with (Z.to_nat (longBlockCount b * Z.of_nat it)) by (unfold lbc; lia).
    apply (encode_longs_moves bpv b HB); [lia|done|]. rewrite Hxs. unfold lvc. destruct (bf_longs _ _ HB). nia. }
  assert (Hbit : ∀ (e' : nat) r, 0 ≤ r < 64 → (e' < length (p_blocks p))%nat →
    packed_bit (map to_uint64 (splice (k * lbc) (map to_int64 ds) (p_blocks p))) (64 * Z.of_nat e' + 63 - r) =
    if bool_decide (k * lbc ≤ e' < k * lbc + m)%nat then Z.testbit (value_of 64 bpv (map to_uint64 xs) m (e' - k * lbc)) r
    else packed_bit (words p) (64 * Z.of_nat e' + 63 - r)).
  { intros e' r Hr64 He'. destruct (lookup_lt_is_Some_2 (p_blocks p) e' He') as [y Hy]. case_bool_decide as Hd.
    - apply (packed_bit_at _ e'); [|done]. apply list_lookup_fmap_Some. exists (to_int64 (value_of 64 bpv (map to_uint64 xs) m (e' - k * lbc))).
      split; [rewrite uwrap_swrap by lia; symmetry; apply uwrap_id, uwrap_range; lia|].
      rewrite splice_lookup by lia. rewrite bool_decide_eq_true_2 by lia. apply list_lookup_fmap_Some. eexists. split; [done|].
      apply value_lookup. lia.
    - rewrite (packed_bit_at (words p) e' _ _ (packed_word_at _ _ _ Hy) Hr64). apply (packed_bit_at _ e'); [|done].
      apply list_lookup_fmap_Some. exists y. split; [done|]. rewrite splice_lookup by lia. by rewrite bool_decide_eq_false_2 by lia. }
  apply splice_represents; [done|lia|done|apply splice_len; lia| |].
  - intros P HP Hout. pose proof (sh_room _ _ _ Hsh). destruct (position P) as (e' & r & -> & Hr64); [lia|]. rewrite Hbit by lia.
    rewrite bool_decide_eq_false_2; [done|]. unfold m. rewrite Hxs in Hout. intros [H1 H2]. destruct Hout as [Hout|Hout]; nia.
  - intros i x Hx j Hj. apply lookup_lt_Some in Hx as Hlt. rewrite Hxs in Hlt.
    destruct (position (bpv * (Z.of_nat i + 1) - 1 - j)) as (q & r & Hq & Hr64); [nia|].
    assert (Hqlt : (q < m)%nat) by (unfold m; nia).
    replace (bpv * (Z.of_nat (k * lvc + i) + 1) - 1 - j) with (64 * Z.of_nat (k * lbc + q) + 63 - r) by nia.
    rewrite Hbit by lia. rewrite bool_decide_eq_true_2 by lia. replace (k * lbc + q - k * lbc)%nat with q by lia.
    rewrite (value_bit 64 bpv (map to_uint64 xs) m ltac:(lia) ltac:(lia) HU ltac:(rewrite length_map, Hxs; unfold m; nia) q i (to_uint64 x) j r);
      [|apply list_lookup_fmap_Some; eauto|done|done|done|nia].
    rewrite uwrap_testbit by lia. by rewrite (proj2 (Z.ltb_lt _ _)) by lia.
Qed.
End Blocks.

(** ** Bulk operations *)

Lemma size_spec p vs : p_represents bpv p vs → p_valueCount p = Z.of_nat (length vs).
Proof using. intros (Hsh & _). apply (sh_count _ _ _ Hsh). Qed.

Definition long_values_check : bool :=
  forallb (fun bpv => match newBulkOperationPacked (E := E) bpv with Ret b => longValueCount b <=? 64 | _ => true end) (seqZ 1 64).

Lemma new_bulk p vs : p_represents bpv p vs →
  ∃ b, newBulkOperationPacked (E := E) (p_bitsPerValue p) = Ret b ∧ bulk_for bpv b ∧ longValueCount b ≤ 64.
Proof using.
  intros (Hsh & _). rewrite (sh_bits _ _ _ Hsh). pose proof (sh_width _ _ _ Hsh) as Hw.
  destruct (newBulkOperationPacked_spec (E := E) bpv Hw) as (b & Hb & HB). exists b. split; [done|]. split; [done|].
  assert (Hc : long_values_check = true) by (vm_compute; reflexivity). unfold long_values_check in Hc. rewrite forallb_forall in Hc.
  specialize (Hc bpv ltac:(apply list_elem_of_In, elem_of_seqZ; lia)). rewrite Hb in Hc. by apply Z.leb_le.
Qed.

Section Bulk.
Context (b : bulkOperationPacked) (HB : bulk_for bpv b) (Hb64 : longValueCount b ≤ 64).
Let lvc := Z.to_nat (longValueCount b).

Lemma lvc_Z : longValueCount b = Z.of_nat lvc ∧ (0 < lvc)%nat.
Proof using HB. destruct (bf_longs _ _ HB) as (? & ? & ?). unfold lvc. lia. Qed.

(** How many values there are in whole blocks. *)
Lemma iterations_eq len : Z.quot (Z.of_nat len) (longValueCount b) = Z.of_nat (len / lvc) ∧ (len / lvc * lvc ≤ len)%nat.
Proof using HB.
  destruct lvc_Z as [-> ?]. rewrite Z.quot_div_nonneg, <- Nat2Z.inj_div by lia. split; [done|].
  rewrite Nat.mul_comm. by apply Nat.Div0.mul_div_le.
Qed.

(** After [h] values have been read one by one, up to the beginning of block [k]. *)
Lemma p_get_blocks_spec p vs arr k h off len :
  p_represents bpv p vs → (h ≤ k * lvc)%nat → (k * lvc + len ≤ length vs)%nat → (off + len ≤ length arr)%nat → (0 < h + len)%nat →
  ∃ n, (0 < h + n)%nat ∧ (n ≤ len)%nat ∧
    p_get_blocks (E := E) p b (Z.of_nat (k * lvc - h)) arr (Z.of_nat off) (Z.of_nat (k * lvc)) (Z.of_nat len) =
    Ret (Z.of_nat (h + n), splice off (slice (k * lvc) n vs) arr).
Proof using HB.
  intros Hp Hh Hi Ho Hpos. unfold p_get_blocks. destruct (iterations_eq len) as [-> Hle]. destruct lvc_Z as [El Hl]. set (it := (len / lvc)%nat) in *.
  pose proof (block_index b HB p vs k it Hp) as Hix. fold lvc in Hix. rewrite Hix by lia.
  rewrite (decode_mid b HB p vs arr k it off Hp) by (fold lvc; lia). fold lvc. rewrite go_bind_ret, El. cbn zeta.
  destruct (Z.ltb_spec (Z.of_nat (k * lvc - h)) (Z.of_nat (k * lvc) + Z.of_nat it * Z.of_nat lvc)).
  - exists (it * lvc)%nat. split_and!; [lia|done|]. unfold mret, go_ret. pairs.
  - assert (it * lvc = 0 ∧ h = 0)%nat as [E0 ->] by lia. exists len. split_and!; [lia|done|]. rewrite E0.
    change (slice (k * lvc) 0 vs) with (@nil Z). rewrite splice_nil by lia.
    replace (Z.of_nat (k * lvc) + Z.of_nat it * Z.of_nat lvc) with (Z.of_nat (k * lvc)) by lia.
    replace (Z.of_nat len - Z.of_nat it * Z.of_nat lvc) with (Z.of_nat len) by lia.
    rewrite (readerBulkGet_spec p_Get p_valueCount (p_represents bpv) p_Get_spec size_spec p vs _ _ _ _ len) by (done || lia). done.
Qed.

Lemma p_set_blocks_spec p vs arr k h off len :
  p_represents bpv p vs → (h ≤ k * lvc)%nat → (k * lvc + len ≤ length vs)%nat → (off + len ≤ length arr)%nat → (0 < h + len)%nat →
  Forall (fits 64 bpv) (slice off len arr) →
  ∃ n p', (0 < h + n)%nat ∧ (n ≤ len)%nat ∧
    p_set_blocks (E := E) p b (Z.of_nat (k * lvc - h)) arr (Z.of_nat off) (Z.of_nat (k * lvc)) (Z.of_nat len) = Ret (Z.of_nat (h + n), p') ∧
    p_represents bpv p' (splice (k * lvc) (slice off n arr) vs).
Proof using HB.
  intros Hp Hh Hi Ho Hpos Hfit. unfold p_set_blocks. destruct (iterations_eq len) as [-> Hle]. destruct lvc_Z as [El Hl]. set (it := (len / lvc)%nat) in *.
  pose proof (block_index b HB p vs k it Hp) as Hix. fold lvc in Hix. rewrite Hix by lia.
  assert (Hfit' : Forall (fits 64 bpv) (slice off (it * lvc) arr)).
  { rewrite <- (Nat.add_0_r off). rewrite <- (slice_of_slice off len 0) by lia. by apply slice_Forall. }
  destruct (encode_mid b HB p vs arr k it off Hp) as (blocks' & -> & Hp'); [fold lvc; lia|fold lvc; lia|done|]. fold lvc in Hp'.
  rewrite go_bind_ret, El. cbn zeta. destruct (Z.ltb_spec (Z.of_nat (k * lvc - h)) (Z.of_nat (k * lvc) + Z.of_nat it * Z.of_nat lvc)).
  - exists (it * lvc)%nat. eexists. split_and!; [lia|done| |exact Hp']. unfold mret, go_ret. pairs.
  - assert (it * lvc = 0 ∧ h = 0)%nat as [E0 ->] by lia. rewrite E0 in Hp'. change (slice off 0 arr) with (@nil Z) in Hp'.
    rewrite splice_nil in Hp' by lia.
    replace (Z.of_nat (k * lvc) + Z.of_nat it * Z.of_nat lvc) with (Z.of_nat (k * lvc)) by lia.
    replace (Z.of_nat len - Z.of_nat it * Z.of_nat lvc) with (Z.of_nat len) by lia.
    destruct (mutableBulkSet_spec p_Set p_valueCount (p_represents bpv) (fits 64 bpv) p_Set_spec size_spec _ vs (k * lvc) arr off (Z.of_nat len) len Hp')
      as (p' & HS & Hr); try done; try lia. exists len, p'. split_and!; [lia|done|exact HS|exact Hr].
Qed.
End Bulk.

Lemma p_GetBulk_spec p vs index arr off len :
  p_represents bpv p vs → (index < length vs)%nat → (0 < len)%nat → (off + len ≤ length arr)%nat →
  ∃ n, (0 < n ≤ len ∧ index + n ≤ length vs)%nat ∧
    p_GetBulk (E := E) p (Z.of_nat index) arr (Z.of_nat off) (Z.of_nat len) = Ret (Z.of_nat n, splice off (slice index n vs) arr).
Proof using.
  intros Hp Hi Hlen Ho. unfold p_GetBulk. rewrite (proj2 (Z.leb_gt _ _)) by lia.
  destruct (new_bulk p vs Hp) as (b & -> & HB & H64). rewrite go_bind_ret. destruct (lvc_Z b HB) as [El Hl]. rewrite El.
  apply (get_aligned_spec p_Get p_valueCount (p_represents bpv) p_Get_spec size_spec p vs (Z.to_nat (longValueCount b))); try done; [lia|].
  intros. by apply p_get_blocks_spec.
Qed.

Lemma p_SetBulk_spec p vs index arr off len :
  p_represents bpv p vs → (index < length vs)%nat → (0 < len)%nat → (off + len ≤ length arr)%nat → Forall (fits 64 bpv) (slice off len arr) →
  ∃ n p', (0 < n ≤ len ∧ index + n ≤ length vs)%nat ∧
    p_SetBulk (E := E) p (Z.of_nat index) arr (Z.of_nat off) (Z.of_nat len) = Ret (Z.of_nat n, p') ∧
    p_represents bpv p' (splice index (slice off n arr) vs).
Proof using.
  intros Hp Hi Hlen Ho Hfit. unfold p_SetBulk. rewrite (proj2 (Z.leb_gt _ _)) by lia.
  destruct (new_bulk p vs Hp) as (b & -> & HB & H64). rewrite go_bind_ret. destruct (lvc_Z b HB) as [El Hl]. rewrite El.
  apply (set_aligned_spec p_Set p_valueCount (p_represents bpv) (fits 64 bpv) p_Set_spec size_spec p vs (Z.to_nat (longValueCount b))); try done; [lia|].
  intros. by apply p_set_blocks_spec.
Qed.

(** ** Zeros *)

Lemma fits_zero : 1 ≤ bpv ≤ 64 → fits 64 bpv 0.
Proof using. intros Hw. unfold fits, in_sint, in_uint, uwrap. rewrite Z.mod_0_l by lia. pose proof (pow2_pos bpv ltac:(lia)). lia. Qed.

Lemma zeros_represent p n blocks :
  shaped bpv p n → length blocks = length (p_blocks p) → Forall (eq 0) blocks → p_represents bpv (with_blocks p blocks) (replicate n 0).
Proof using.
  intros [Hc Hbits Hw Hmask Hminus Hroom Hsmall] Hl HZ. unfold p_represents. rewrite length_replicate.
  split; [by split; cbn; rewrite ?Hl|]. split; [by apply Forall_replicate, fits_zero|].
  intros i v [-> _]%lookup_replicate_1 j Hj. unfold packed_bit, words. cbn [p_blocks with_blocks].
  destruct (nth_in_or_default (Z.to_nat ((bpv * (Z.of_nat i + 1) - 1 - j) / 64)) (map to_uint64 blocks) 0) as [Hin| ->]; [|by rewrite !Z.bits_0].
  apply in_map_iff in Hin as (x & <- & Hx). rewrite Forall_forall in HZ. rewrite <- (HZ x) by (by apply list_elem_of_In).
  change (to_uint64 0) with 0. by rewrite !Z.bits_0.
Qed.

Lemma newPacked64_spec (n : nat) :
  1 ≤ bpv ≤ 64 → bpv * Z.of_nat n + 7 < 2 ^ 63 →
  ∃ p, newPacked64 (E := E) (Z.of_nat n) bpv = Ret p ∧ p_represents bpv p (replicate n 0).
Proof using.
  intros Hw Hs. unfold newPacked64, LongCount, ByteCount, packed_byte_count.
  replace ((bpv <? 1) || (64 <? bpv)) with false by lia. replace ((bpv <? 0) || (64 <? bpv)) with false by lia.
  rewrite !go_bind_ret. unfold packed64BlockSize. rewrite mask_right by done. cbn zeta.
  rewrite (swrap_id 64 (Z.of_nat n * bpv)), (swrap_id 64 (Z.of_nat n * bpv + 7)) by (unfold in_sint; lia).
  set (longs := Z.shiftr _ 3). assert (Hlongs : 0 ≤ longs ∧ bpv * Z.of_nat n ≤ 64 * longs).
  { unfold longs. rewrite Z.shiftr_div_pow2, Z.quot_div_nonneg by lia. change (2 ^ 3) with 8.
    pose proof (Z.div_mod (Z.of_nat n * bpv + 7) 8 ltac:(lia)). pose proof (Z.mod_pos_bound (Z.of_nat n * bpv + 7) 8 ltac:(lia)).
    set (q := (Z.of_nat n * bpv + 7) / 8) in *.
    pose proof (Z.div_mod (q + 7) 8 ltac:(lia)). pose proof (Z.mod_pos_bound (q + 7) 8 ltac:(lia)). lia. }
  rewrite (proj2 (Z.ltb_ge longs 0)) by lia. eexists. split; [done|].
  match goal with |- p_represents _ ?p _ => change p with (with_blocks p (p_blocks p)) end. apply zeros_represent; [|done|by apply Forall_replicate].
  split; cbn; try done; [rewrite length_replicate; lia|lia].
Qed.

Lemma p_Clear_spec p vs : p_represents bpv p vs → ∃ p', p_Clear (E := E) p = Ret p' ∧ p_represents bpv p' (replicate (length vs) 0).
Proof using.
  intros (Hsh & _). eexists. split; [done|]. apply zeros_represent; [done|by rewrite length_map|]. apply Forall_fmap, Forall_true. done.
Qed.

(** ** Filling *)

(** Every array stands for some list. *)
Lemma contents p n : shaped bpv p n → ∃ vs, length vs = n ∧ p_represents bpv p vs.
Proof using.
  intros Hsh. pose proof Hsh as [_ _ Hw _ _ Hroom _]. set (N := 64 * Z.of_nat (length (p_blocks p))).
  exists (map (λ i, to_int64 (field (join 64 (words p)) (N - bpv * (Z.of_nat i + 1)) bpv)) (seq 0 n)).
  assert (Hl : length (map (λ i, to_int64 (field (join 64 (words p)) (N - bpv * (Z.of_nat i + 1)) bpv)) (seq 0 n)) = n)
    by (by rewrite length_map, length_seq).
  split; [done|]. unfold p_represents. rewrite Hl. split; [done|]. split.
  - apply Forall_fmap, Forall_true. intros i. split; [apply swrap_range; lia|]. rewrite uwrap_swrap by lia.
    pose proof (field_range (join 64 (words p)) (N - bpv * (Z.of_nat i + 1)) bpv ltac:(lia)) as Hf. rewrite uwrap_id; [done|].
    unfold in_uint in *. pose proof (Z.pow_le_mono_r 2 bpv 64 ltac:(lia) ltac:(lia)). lia.
  - intros i v Hv j Hj. apply list_lookup_fmap_Some in Hv as (i' & -> & Hi'). apply lookup_seq in Hi' as [-> Hi]. cbn [plus].
    rewrite swrap_testbit, Z.min_l, field_testbit by nia. rewrite (proj2 (Z.ltb_lt _ _)) by lia. cbn [andb].
    destruct (position (bpv * (Z.of_nat i + 1) - 1 - j)) as (e & r & He & Hr); [nia|]. rewrite He.
    destruct (lookup_lt_is_Some_2 (p_blocks p) e) as [x Hx]; [nia|].
    rewrite (packed_bit_at (words p) e _ _ (packed_word_at _ _ _ Hx) Hr).
    rewrite <- (join_testbit 64 ltac:(lia) (words p) e (to_uint64 x) r); [|apply map_uwrap_range; lia|by apply packed_word_at|done].
    f_equal. unfold words. rewrite length_map. unfold N. lia.
Qed.

(** Values with the same bits are equal. *)
Lemma stored_unique v v' us i us' i' :
  1 ≤ bpv ≤ 64 → fits 64 bpv v → fits 64 bpv v' → stored bpv us i v → stored bpv us' i' v' →
  (∀ j, 0 ≤ j < bpv → packed_bit us (bpv * (Z.of_nat i + 1) - 1 - j) = packed_bit us' (bpv * (Z.of_nat i' + 1) - 1 - j)) → v = v'.
Proof using.
  intros Hw Hv Hv' Hs Hs' Hb. pose proof Hv as [Hr Hu]. rewrite <- (swrap_id 64 v), <- swrap_uwrap by (done || lia).
  apply (fits_eq bpv); [done|done|done|]. intros j Hj. rewrite uwrap_testbit by lia. rewrite (proj2 (Z.ltb_lt _ _)) by lia. cbn [andb].
  by rewrite <- Hs, <- Hs', Hb by done.
Qed.

Lemma fits_required v : 1 ≤ bpv ≤ 64 → fits 64 bpv v → UnsignedBitsRequired (to_uint64 v) ≤ bpv.
Proof using.
  intros Hw [_ Hf]. unfold UnsignedBitsRequired. destruct (Z.eqb_spec (to_uint64 v) 0) as [|Hne]; [destruct (Z.ltb_spec 0 1); lia|].
  unfold in_uint in Hf. assert (Hl : Z.log2 (to_uint64 v) < bpv) by (apply Z.log2_lt_pow2; lia).
  destruct (Z.ltb_spec (Z.log2 (to_uint64 v) + 1) 1); lia.
Qed.

Definition gcd_check : bool :=
  forallb (fun bpv => match gcd (E := E) 64 bpv with
    | Ret g => (0 <? Z.quot 64 g) && (0 <? Z.shiftr (Z.quot 64 g * bpv) 6) && (Z.quot 64 g * bpv =? 64 * Z.shiftr (Z.quot 64 g * bpv) 6)
    | _ => false end) (seqZ 1 64).

(** So many values fill a number of blocks. *)
Lemma gcd_spec : 1 ≤ bpv ≤ 64 →
  ∃ g (nav nab : nat), gcd (E := E) 64 bpv = Ret g ∧ Z.quot 64 g = Z.of_nat nav ∧ Z.shiftr (Z.of_nat nav * bpv) 6 = Z.of_nat nab ∧
    (0 < nav ∧ 0 < nab)%nat ∧ bpv * Z.of_nat nav = 64 * Z.of_nat nab.
Proof using.
  intros Hw. assert (Hc : gcd_check = true) by (vm_compute; reflexivity). unfold gcd_check in Hc. rewrite forallb_forall in Hc.
  specialize (Hc bpv ltac:(apply list_elem_of_In, elem_of_seqZ; lia)). destruct (gcd (E := E) 64 bpv) as [g| | |]; try done.
  rewrite !andb_true_iff, !Z.ltb_lt, Z.eqb_eq in Hc. destruct Hc as [[H1 H2] H3].
  exists g, (Z.to_nat (Z.quot 64 g)), (Z.to_nat (Z.shiftr (Z.quot 64 g * bpv) 6)). split; [done|]. rewrite !Z2Nat.id by lia.
  split; [done|]. split; [done|]. split; lia.
Qed.

(** The loop over whole blocks. *)
Lemma fill_blocks_spec (src dst : list Z) (nab start n : nat) :
  (0 < nab ≤ length src)%nat → (start + n ≤ length dst)%nat →
  ∃ dst', go_for (E := E) n (Z.of_nat start) (fun block blocks => b ← aget src (Z.rem block (Z.of_nat nab)); aset blocks block b) dst = Ret dst' ∧
    length dst' = length dst ∧
    ∀ e, (e < length dst)%nat → dst' !! e = if bool_decide (start ≤ e < start + n)%nat then src !! (e mod nab)%nat else dst !! e.
Proof using.
  intros Hab. revert start dst. induction n as [|n IH]; intros start dst Hn; cbn [go_for].
  { exists dst. split_and!; [done|done|]. intros e He. by rewrite bool_decide_eq_false_2 by lia. }
  rewrite rem_nat by lia. pose proof (Nat.mod_upper_bound start nab ltac:(lia)) as Hm.
  destruct (lookup_lt_is_Some_2 src (start mod nab)) as [x Hx]; [lia|].
  rewrite (aget_Ret _ _ x) by (rewrite ?Nat2Z.id; done || lia). rewrite go_bind_ret, aset_splice, go_bind_ret by lia.
  replace (Z.of_nat start + 1) with (Z.of_nat (1 + start)) by lia.
  destruct (IH (1 + start)%nat (splice start [x] dst)) as (dst' & -> & Hl & Hd); [rewrite splice_len by (cbn; lia); lia|].
  rewrite splice_len in Hl, Hd by (cbn; lia). exists dst'. split_and!; [done|done|]. intros e He. rewrite Hd by done.
  rewrite splice_one by lia. destruct (decide (e = start)) as [->|].
  - rewrite list_lookup_insert_eq by lia. rewrite bool_decide_eq_false_2, bool_decide_eq_true_2 by lia. by rewrite Hx.
  - rewrite list_lookup_insert_ne by done. repeat case_bool_decide; lia || done.
Qed.

(** What the array stands for after the loop: [val] in the values that are all in the blocks. *)
Lemma fill_middle p tmp vs val (nav nab k to_ e1 : nat) blocks' :
  p_represents bpv p vs → p_represents bpv tmp (replicate nav val) → (0 < nav ∧ 0 < nab)%nat → bpv * Z.of_nat nav = 64 * Z.of_nat nab →
  (k * nav ≤ to_ ≤ length vs)%nat → 64 * Z.of_nat e1 ≤ bpv * Z.of_nat to_ → (k * nab ≤ e1)%nat → fits 64 bpv val →
  length blocks' = length (p_blocks p) →
  (∀ e, (e < length (p_blocks p))%nat →
    blocks' !! e = if bool_decide (k * nab ≤ e < k * nab + (e1 - k * nab))%nat then p_blocks tmp !! (e mod nab)%nat else p_blocks p !! e) →
  ∃ vs2, p_represents bpv (with_blocks p blocks') vs2 ∧ length vs2 = length vs ∧
    (∀ i, (k * nav ≤ i)%nat → bpv * (Z.of_nat i + 1) ≤ 64 * Z.of_nat e1 → vs2 !! i = Some val) ∧
    (∀ i, (i < k * nav ∨ to_ ≤ i)%nat → vs2 !! i = vs !! i).
Proof using.
  intros (Hsh & HF & Hst) (Hsht & HFt & Hstt) Hpos Hab Hto He1 Hke Hval Hl Hb.
  pose proof (sh_width _ _ _ Hsh) as Hw. pose proof (sh_room _ _ _ Hsh) as Hroom. pose proof (sh_room _ _ _ Hsht) as Hroomt.
  rewrite length_replicate in Hroomt.
  assert (Hsh2 : shaped bpv (with_blocks p blocks') (length vs)) by (destruct Hsh; split; cbn; rewrite ?Hl; done).
  destruct (contents _ _ Hsh2) as (vs2 & Hl2 & Hp2). exists vs2. split; [done|]. split; [done|]. destruct Hp2 as (_ & HF2 & Hst2). split.
  - intros i Hi Hin. destruct (lookup_lt_is_Some_2 vs2 i) as [v Hv]; [rewrite Hl2; nia|]. rewrite Hv. f_equal.
    pose proof (Nat.mod_upper_bound i nav ltac:(lia)) as Hmod. pose proof (Nat.div_mod_eq i nav) as Hdiv.
    assert (Hvt : replicate nav val !! (i mod nav)%nat = Some val) by (by apply lookup_replicate_2).
    apply (stored_unique v val (words (with_blocks p blocks')) i (words tmp) (i mod nav)); [done|by eapply Forall_lookup_1 in HF2|done|by apply Hst2|by apply Hstt|].
    intros j Hj. destruct (position (bpv * (Z.of_nat (i mod nav) + 1) - 1 - j)) as (q & r & Hq & Hr); [nia|]. rewrite Hq.
    assert (Hqn : (q < nab)%nat) by nia.
    assert (HP : bpv * (Z.of_nat i + 1) - 1 - j = 64 * Z.of_nat (nab * (i / nav) + q) + 63 - r) by nia. rewrite HP.
    assert (Hc : (k ≤ i / nav)%nat) by (apply Nat.div_le_lower_bound; lia).
    destruct (lookup_lt_is_Some_2 (p_blocks tmp) q) as [x Hx]; [nia|]. rewrite (packed_bit_at (words tmp) q _ _ (packed_word_at _ _ _ Hx) Hr).
    apply packed_bit_at; [|done]. apply packed_word_at. cbn [p_blocks with_blocks]. rewrite Hb by nia.
    rewrite bool_decide_eq_true_2 by nia. rewrite (Nat.mul_comm nab), Nat.add_comm, Nat.Div0.mod_add, Nat.mod_small by lia. done.
  - intros i Hi. destruct (decide (i < length vs)%nat) as [Hlt|]; [|by rewrite !lookup_ge_None_2 by lia].
    destruct (lookup_lt_is_Some_2 vs2 i) as [v Hv]; [lia|]. destruct (lookup_lt_is_Some_2 vs i Hlt) as [u Hu]. rewrite Hv, Hu. f_equal.
    apply (stored_unique v u (words (with_blocks p blocks')) i (words p) i);
      [done|by eapply Forall_lookup_1 in HF2|by eapply Forall_lookup_1 in HF|by apply Hst2|by apply Hst|].
    intros j Hj. destruct (position (bpv * (Z.of_nat i + 1) - 1 - j)) as (e & r & He & Hr); [nia|]. rewrite He.
    destruct (lookup_lt_is_Some_2 (p_blocks p) e) as [x Hx]; [nia|]. rewrite (packed_bit_at (words p) e _ _ (packed_word_at _ _ _ Hx) Hr).
    apply packed_bit_at; [|done]. apply packed_word_at. cbn [p_blocks with_blocks]. rewrite Hb by nia.
    rewrite bool_decide_eq_false_2; [done|]. intros [H1 H2]. destruct Hi; nia.
Qed.

(** [Fill] makes blocks full of the value. *)
Lemma fill_pattern val (nav : nat) :
  1 ≤ bpv ≤ 64 → bpv * Z.of_nat nav + 7 < 2 ^ 63 → fits 64 bpv val →
  ∃ tmp0 tmp, newPacked64 (E := E) (Z.of_nat nav) bpv = Ret tmp0 ∧
    go_for nav 0 (fun i tmp => p_Set (E := E) tmp i val) tmp0 = Ret tmp ∧ p_represents bpv tmp (replicate nav val).
Proof using.
  intros Hw Hs Hval. destruct (newPacked64_spec nav Hw Hs) as (tmp0 & H0 & Htmp0).
  destruct (fill_loop p_Set (p_represents bpv) (fits 64 bpv) p_Set_spec nav 0 val tmp0 _ Htmp0) as (tmp & Ht & Htmp); [by rewrite length_replicate|done|].
  exists tmp0, tmp. split; [done|]. split; [exact Ht|]. replace (replicate nav val) with (splice 0 (replicate nav val) (replicate nav 0)); [done|].
  unfold splice. rewrite take_0, drop_ge by (rewrite !length_replicate; lia). by rewrite app_nil_r.
Qed.

(** The block in which value [n] begins, and the value to which block [e] belongs. *)
Lemma block_of (n : nat) : 1 ≤ bpv → bpv * Z.of_nat n < 2 ^ 63 →
  ∃ e : nat, Z.shiftr (to_int64 (Z.of_nat n * bpv)) 6 = Z.of_nat e ∧ 64 * Z.of_nat e ≤ bpv * Z.of_nat n < 64 * (Z.of_nat e + 1).
Proof using.
  intros Hw Hn. exists (Z.to_nat (bpv * Z.of_nat n / 64)).
  pose proof (Z.div_mod (bpv * Z.of_nat n) 64 ltac:(lia)). pose proof (Z.mod_pos_bound (bpv * Z.of_nat n) 64 ltac:(lia)).
  pose proof (Z.div_pos (bpv * Z.of_nat n) 64 ltac:(nia) ltac:(lia)). rewrite Z2Nat.id by done. split; [|lia].
  rewrite Z.mul_comm, (swrap_id 64) by (unfold in_sint; nia). by rewrite Z.shiftr_div_pow2 by lia.
Qed.

Lemma value_in (e : nat) : 1 ≤ bpv → 64 * Z.of_nat e < 2 ^ 63 →
  ∃ i : nat, Z.quot (to_int64 (Z.shiftl (Z.of_nat e) 6)) bpv = Z.of_nat i ∧ bpv * Z.of_nat i ≤ 64 * Z.of_nat e < bpv * (Z.of_nat i + 1).
Proof using.
  intros Hw He. exists (Z.to_nat (64 * Z.of_nat e / bpv)).
  pose proof (Z.div_mod (64 * Z.of_nat e) bpv ltac:(lia)). pose proof (Z.mod_pos_bound (64 * Z.of_nat e) bpv ltac:(lia)).
  pose proof (Z.div_pos (64 * Z.of_nat e) bpv ltac:(lia) ltac:(lia)). rewrite Z2Nat.id by done. split; [|lia].
  rewrite Z.shiftl_mul_pow2, Z.mul_comm by lia. change (2 ^ 6) with 64. rewrite (swrap_id 64) by (unfold in_sint; lia).
  by rewrite Z.quot_div_nonneg by lia.
Qed.

(** The three parts make the whole. *)
Lemma fill_parts (vs vs2 : list Z) val (from_ h k i0 to_ : nat) :
  (k = from_ + h)%nat → (k ≤ i0 ≤ to_)%nat → (to_ ≤ length vs)%nat → length vs2 = length vs →
  (∀ i, (k ≤ i < i0)%nat → vs2 !! i = Some val) →
  (∀ i, (i < k ∨ to_ ≤ i)%nat → vs2 !! i = splice from_ (replicate h val) vs !! i) →
  splice i0 (replicate (to_ - i0) val) vs2 = splice from_ (replicate (to_ - from_) val) vs.
Proof using.
  intros Hk Hi0 Hto Hl Hin Hout. apply list_eq. intros i. rewrite !splice_lookup, !length_replicate by (rewrite length_replicate; lia).
  destruct (decide (i0 ≤ i < to_)%nat).
  - rewrite !bool_decide_eq_true_2 by lia. by rewrite !lookup_replicate_2 by lia.
  - rewrite bool_decide_eq_false_2 by lia. destruct (decide (i < k ∨ to_ ≤ i)%nat) as [Ho|].
    + rewrite (Hout i Ho), splice_lookup, length_replicate by (rewrite length_replicate; lia).
      repeat case_bool_decide; try lia; [by rewrite !lookup_replicate_2 by lia|done].
    + rewrite bool_decide_eq_true_2 by lia. rewrite Hin by lia. by rewrite lookup_replicate_2 by lia.
Qed.

Lemma p_Fill_spec p vs (from_ to_ : nat) val :
  p_represents bpv p vs → (from_ ≤ to_ ≤ length vs)%nat → fits 64 bpv val →
  ∃ p', p_Fill (E := E) p (Z.of_nat from_) (Z.of_nat to_) val = Ret p' ∧ p_represents bpv p' (splice from_ (replicate (to_ - from_) val) vs).
Proof using.
  intros Hp Ht Hval. pose proof Hp as (Hsh & _ & _). pose proof (sh_width _ _ _ Hsh) as Hw. pose proof (sh_small _ _ _ Hsh) as Hsmall.
  unfold p_Fill. rewrite (sh_bits _ _ _ Hsh), (proj2 (Z.ltb_ge _ _)) by (by apply fits_required).
  destruct (gcd_spec Hw) as (g & nav & nab & -> & Enav & Enab & Hpos & Hab). rewrite go_bind_ret, Enav. cbn zeta.
  destruct (Z.leb_spec (Z.of_nat to_ - Z.of_nat from_) (3 * Z.of_nat nav)) as [|Hspan].
  { apply (mutableFill_spec p_Set (p_represents bpv) (fits 64 bpv) p_Set_spec); done. }
  rewrite (rem_nat from_ nav) by lia.
  destruct (fill_start p_Set (p_represents bpv) (fits 64 bpv) p_Set_spec p vs val from_ nav Hp) as (p1 & k & h & -> & [Hk Hh] & Hp1); [lia|lia|done|]. rewrite go_bind_ret.
  assert (Hl1 : length (splice from_ (replicate h val) vs) = length vs) by (apply splice_len; rewrite length_replicate; lia).
  pose proof Hp1 as (Hsh1 & _ & _). rewrite Hl1 in Hsh1. rewrite (sh_bits _ _ _ Hsh1), Enab.
  destruct (fill_pattern val nav Hw) as (tmp0 & tmp & -> & Htmp & Hpt); [nia|done|]. rewrite go_bind_ret, Nat2Z.id, Htmp, go_bind_ret.
  pose proof Hpt as (Hsht & _). pose proof (sh_room _ _ _ Hsht) as Hroomt. rewrite length_replicate in Hroomt.
  destruct (block_of to_) as (e1 & -> & He1); [lia|nia|]. destruct (block_of (k * nav)) as (e0 & -> & He0); [lia|nia|].
  assert (e0 = (k * nab)%nat) as -> by nia. assert (Hke : (k * nab ≤ e1)%nat) by nia. pose proof (sh_room _ _ _ Hsh1) as Hroom1.
  replace (Z.to_nat (Z.of_nat e1 - Z.of_nat (k * nab))) with (e1 - k * nab)%nat by lia.
  destruct (fill_blocks_spec (p_blocks tmp) (p_blocks p1) nab (k * nab) (e1 - k * nab)) as (blocks' & -> & Hl' & Hb'); [lia|nia|]. rewrite go_bind_ret.
  destruct (fill_middle p1 tmp _ val nav nab k to_ e1 blocks' Hp1 Hpt Hpos Hab) as (vs2 & Hp2 & Hl2 & Hin & Hout); [lia|lia|done|done|done|done|].
  cbn [p_bitsPerValue with_blocks]. rewrite (sh_bits _ _ _ Hsh1).
  destruct (value_in e1) as (i0 & -> & Hi0); [lia|nia|]. assert (Hi0to : (k * nav ≤ i0 ≤ to_)%nat) by nia.
  replace (Z.to_nat (Z.of_nat to_ - Z.of_nat i0)) with (to_ - i0)%nat by lia.
  destruct (fill_loop p_Set (p_represents bpv) (fits 64 bpv) p_Set_spec (to_ - i0) i0 val _ vs2 Hp2) as (p' & -> & Hp'); [lia|done|].
  exists p'. split; [done|]. rewrite <- (fill_parts vs vs2 val from_ h (k * nav) i0 to_); [done|lia|done|lia|lia| |exact Hout].
  intros i Hi. apply Hin; [lia|nia].
Qed.
End Array.

(** * The array keeps what the interface promises *)

#[export] Instance Packed64_laws {E} : MutableLaws (Packed64_ops (E := E)) := {
  represents := p_represents;
  Size_law := size_spec;
  Get_law := p_Get_spec;
  SetAt_law := p_Set_spec;
  GetBulk_law := p_GetBulk_spec;
  SetBulk_law := p_SetBulk_spec;
  Fill_law := p_Fill_spec;
  Clear_law := p_Clear_spec
}.
