(* ===== verification/PackedSingle.v ===== *)
(** Packed integers that stay within a block: [util/packed/bulk_operation_packed_single_block.go] and
    [util/packed/packed64_single_block.go].

    A block of 64 bits holds [64 / bitsPerValue] values, the first one in the lowest bits; what
    is left over is not used.  The bulk operation comes first, then the array, which ends with its
    instance of [MutableLaws]. *)

From stdpp Require Import base tactics numbers list.
From Stdlib Require Import ZArith Lia.
From S2P Require Import Prelude Digits BulkOperation PackedMutable Packed64.

Local Open Scope Z_scope.

(** * The bulk operation *)

Record bulkOperationPackedSingleBlock := {
  s_bitsPerValue : Z;
  s_valueCount : Z;
  s_mask : Z
}.

Section Bulk.
Context {E : Type}.
Local Abbreviation G := (go E).

Definition newBulkOperationPackedSingleBlock (bitsPerValue : Z) : G bulkOperationPackedSingleBlock :=
  if bitsPerValue =? 0 then Panic else
  Ret {| s_bitsPerValue := bitsPerValue; s_valueCount := Z.quot 64 bitsPerValue; s_mask := uwrap 64 (shl64 1 bitsPerValue - 1) |}.

Definition s_LongBlockCount : Z := 1.
Definition s_ByteBlockCount : Z := 8.
Definition s_ComputeIterations (b : bulkOperationPackedSingleBlock) (valueCount ramBudget : Z) : Z :=
  computeIterations s_ByteBlockCount (s_valueCount b) valueCount ramBudget.

(** [readSingleBlockLong] and [writeSingleBlockLong]: big-endian. *)
Definition readSingleBlockLong (blocks : list Z) (blocksOffset : Z) : G Z :=
  b0 ← aget blocks blocksOffset; b1 ← aget blocks (blocksOffset + 1);
  b2 ← aget blocks (blocksOffset + 2); b3 ← aget blocks (blocksOffset + 3);
  b4 ← aget blocks (blocksOffset + 4); b5 ← aget blocks (blocksOffset + 5);
  b6 ← aget blocks (blocksOffset + 6); b7 ← aget blocks (blocksOffset + 7);
  mret (Z.lor (Z.lor (Z.lor (Z.lor (Z.lor (Z.lor (Z.lor (shl64 b0 56) (shl64 b1 48)) (shl64 b2 40)) (shl64 b3 32))
    (shl64 b4 24)) (shl64 b5 16)) (shl64 b6 8)) b7).

Definition writeSingleBlockLong (block : Z) (blocks : list Z) (blocksOffset : Z) : G (list Z) :=
  blocks ← aset blocks blocksOffset (to_byte (Z.shiftr block 56));
  blocks ← aset blocks (blocksOffset + 1) (to_byte (Z.shiftr block 48));
  blocks ← aset blocks (blocksOffset + 2) (to_byte (Z.shiftr block 40));
  blocks ← aset blocks (blocksOffset + 3) (to_byte (Z.shiftr block 32));
  blocks ← aset blocks (blocksOffset + 4) (to_byte (Z.shiftr block 24));
  blocks ← aset blocks (blocksOffset + 5) (to_byte (Z.shiftr block 16));
  blocks ← aset blocks (blocksOffset + 6) (to_byte (Z.shiftr block 8));
  aset blocks (blocksOffset + 7) (to_byte block).

(** [decodeBlockLong] and [decodeBlockInt] differ in the conversion of a value, as do the encoders. *)
Definition decodeBlock (cv : Z → Z) (b : bulkOperationPackedSingleBlock) (block : Z) (values : list Z) (valuesOffset : Z)
    : G (list Z * Z) :=
  values ← aset values valuesOffset (cv (Z.land block (s_mask b)));
  '(_, values, valuesOffset) ← go_for (Z.to_nat (s_valueCount b - 1)) 1
    (fun _ '(block, values, valuesOffset) =>
      let block := Z.shiftr block (s_bitsPerValue b) in
      values ← aset values valuesOffset (cv (Z.land block (s_mask b)));
      mret (block, values, valuesOffset + 1))
    (block, values, valuesOffset + 1);
  mret (values, valuesOffset).

Definition encodeBlock (cv : Z → Z) (b : bulkOperationPackedSingleBlock) (values : list Z) (valuesOffset : Z) : G Z :=
  v ← aget values valuesOffset;
  go_for (Z.to_nat (s_valueCount b - 1)) 1
    (fun j block => v ← aget values (valuesOffset + j); mret (Z.lor block (shl64 (cv v) (j * s_bitsPerValue b)))) (cv v).

(** Blocks are words or eight bytes. *)
Definition read_word (blocks : list Z) (blocksOffset : Z) : G Z := x ← aget blocks blocksOffset; mret (to_uint64 x).
Definition write_word (block : Z) (blocks : list Z) (blocksOffset : Z) : G (list Z) := aset blocks blocksOffset (to_int64 block).

Definition decode_blocks (read : list Z → Z → G Z) (size : Z) (cv : Z → Z) (b : bulkOperationPackedSingleBlock)
    (blocks : list Z) (blocksOffset : Z) (values : list Z) (valuesOffset iterations : Z) : G (list Z) :=
  '(_, values, _) ← go_for (Z.to_nat iterations) 0
    (fun _ '(blocksOffset, values, valuesOffset) =>
      block ← read blocks blocksOffset;
      '(values, valuesOffset) ← decodeBlock cv b block values valuesOffset;
      mret (blocksOffset + size, values, valuesOffset))
    (blocksOffset, values, valuesOffset);
  mret values.

Definition encode_blocks (write : Z → list Z → Z → G (list Z)) (size : Z) (cv : Z → Z) (b : bulkOperationPackedSingleBlock)
    (values : list Z) (valuesOffset : Z) (blocks : list Z) (blocksOffset iterations : Z) : G (list Z) :=
  '(_, blocks, _) ← go_for (Z.to_nat iterations) 0
    (fun _ '(valuesOffset, blocks, blocksOffset) =>
      block ← encodeBlock cv b values valuesOffset;
      blocks ← write block blocks blocksOffset;
      mret (valuesOffset + s_valueCount b, blocks, blocksOffset + size))
    (valuesOffset, blocks, blocksOffset);
  mret blocks.

Definition s_DecodeLongs := decode_blocks read_word 1 to_int64.
Definition s_DecodeBytes := decode_blocks readSingleBlockLong 8 to_int64.
Definition s_DecodeLongsToInts (b : bulkOperationPackedSingleBlock) (blocks : list Z) (blocksOffset : Z)
    (values : list Z) (valuesOffset iterations : Z) : G (list Z) :=
  if 32 <? s_bitsPerValue b then Panic else decode_blocks read_word 1 to_int32 b blocks blocksOffset values valuesOffset iterations.
Definition s_DecodeBytesToInts (b : bulkOperationPackedSingleBlock) (blocks : list Z) (blocksOffset : Z)
    (values : list Z) (valuesOffset iterations : Z) : G (list Z) :=
  if 32 <? s_bitsPerValue b then Panic else
  decode_blocks readSingleBlockLong 8 to_int32 b blocks blocksOffset values valuesOffset iterations.
Definition s_EncodeLongsToLongs := encode_blocks write_word 1 to_uint64.
Definition s_EncodeIntsToLongs := encode_blocks write_word 1 (fun v => to_uint64 (to_uint32 v)).
Definition s_EncodeLongsToBytes := encode_blocks writeSingleBlockLong 8 to_uint64.
Definition s_EncodeIntsToBytes := encode_blocks writeSingleBlockLong 8 (fun v => to_uint64 (to_uint32 v)).
End Bulk.

Example single_block_run :
  (b ← newBulkOperationPackedSingleBlock (E := unit) 21;
   ws ← s_EncodeLongsToLongs b [1; 2; 3; 4; 5; 6] 0 [0; 0] 0 2; vs ← s_DecodeLongs b ws 0 (repeat 0 6) 0 2;
   bs ← s_EncodeIntsToBytes b [1; 2; 3] 0 (repeat 0 8) 0 1; us ← s_DecodeBytesToInts b bs 0 (repeat 0 3) 0 1;
   mret (ws, vs, bs, us))
  = Ret ([13194143727617; 26388289552388], [1; 2; 3; 4; 5; 6], [0; 0; 12; 0; 0; 64; 0; 1], [1; 2; 3]).
Proof. vm_compute. reflexivity. Qed.

(** ** One block *)

Record single_for (bpv : Z) (b : bulkOperationPackedSingleBlock) : Prop := {
  sf_bits : s_bitsPerValue b = bpv;
  sf_width : 1 ≤ bpv ≤ 63;
  sf_count : 0 < s_valueCount b ∧ s_valueCount b * bpv ≤ 64;
  sf_mask : s_mask b = 2 ^ bpv - 1
}.

Lemma new_single_for {E} bpv : 1 ≤ bpv ≤ 63 → ∃ b, newBulkOperationPackedSingleBlock (E := E) bpv = Ret b ∧ single_for bpv b.
Proof.
  intros Hb. unfold newBulkOperationPackedSingleBlock. rewrite (proj2 (Z.eqb_neq _ _)) by lia. eexists. split; [done|].
  split; cbn [s_bitsPerValue s_valueCount s_mask]; [done|done| |].
  - rewrite Z.quot_div_nonneg by lia. pose proof (Z.mul_div_le 64 bpv ltac:(lia)). assert (0 < 64 / bpv) by (apply Z.div_str_pos; lia). lia.
  - rewrite low_ones by lia. apply uwrap_id. pose proof (pow2_pos bpv ltac:(lia)). pose proof (Z.pow_lt_mono_r 2 bpv 64 ltac:(lia) ltac:(lia) ltac:(lia)).
    unfold in_uint. lia.
Qed.

Section Block.
Context {E : Type} (bpv : Z) (b : bulkOperationPackedSingleBlock) (HB : single_for bpv b).

Definition vpb : nat := Z.to_nat (s_valueCount b).

(** The values of a block, and the block of some values. *)
Definition unpack_block (u : Z) : list Z := reverse (digits bpv vpb u).
Definition pack_block (us : list Z) : Z := join bpv (reverse us).

Lemma unpack_length u : length (unpack_block u) = vpb.
Proof using. unfold unpack_block. by rewrite length_reverse, digits_length. Qed.

Lemma unpack_lookup u j : (j < vpb)%nat → unpack_block u !! j = Some (field u (bpv * Z.of_nat j) bpv).
Proof using.
  intros Hj. unfold unpack_block. rewrite reverse_lookup by (rewrite digits_length; lia).
  rewrite digits_length, digits_lookup by lia. do 3 f_equal. lia.
Qed.

Lemma unpack_pack us : length us = vpb → Forall (in_uint bpv) us → unpack_block (pack_block us) = us.
Proof using HB.
  intros Hl HF. unfold unpack_block, pack_block. rewrite <- Hl, <- (length_reverse us), digits_join, reverse_involutive; [done|destruct (sf_width _ _ HB); lia|].
  by apply Forall_reverse.
Qed.

Lemma pack_range us : length us = vpb → Forall (in_uint bpv) us → in_uint 64 (pack_block us).
Proof using HB.
  intros Hl HF. destruct (sf_width _ _ HB), (sf_count _ _ HB). unfold pack_block.
  assert (Hr : in_uint (bpv * Z.of_nat (length (reverse us))) (join bpv (reverse us))) by (apply join_range; [lia|]; by apply Forall_reverse).
  rewrite length_reverse, Hl in Hr. unfold in_uint in *. unfold vpb in Hr.
  pose proof (Z.pow_le_mono_r 2 (bpv * Z.of_nat (Z.to_nat (s_valueCount b))) 64 ltac:(lia) ltac:(lia)). lia.
Qed.

Lemma value_masked u n : 0 ≤ n → Z.land (Z.shiftr u n) (s_mask b) = field u n bpv.
Proof using HB.
  intros Hn. destruct (sf_width _ _ HB). rewrite (sf_mask _ _ HB). apply bits_ext. intros j Hj. rewrite field_testbit by lia. bits.
  rewrite andb_comm. by rewrite (Z.add_comm n).
Qed.

Lemma splice_aset (xs l : list Z) o i x :
  (o + length xs ≤ length l)%nat → xs !! i = Some x →
  aset (E := E) (splice o (take i xs) l) (Z.of_nat o + Z.of_nat i) x = Ret (splice o (take (S i) xs) l).
Proof using.
  intros Hl Hx. apply lookup_lt_Some in Hx as Hi. replace (Z.of_nat o + Z.of_nat i) with (Z.of_nat (o + i)) by lia.
  rewrite aset_splice by (rewrite splice_len by (rewrite length_take; lia); lia). f_equal.
  rewrite (take_S_r _ _ _ Hx). pose proof (splice_app o (take i xs) [x] l) as Hs. rewrite length_take, Nat.min_l in Hs by lia.
  apply Hs. cbn. lia.
Qed.

Lemma decodeBlock_spec cv u values o :
  (o + vpb ≤ length values)%nat →
  decodeBlock (E := E) cv b u values (Z.of_nat o) = Ret (splice o (map cv (unpack_block u)) values, Z.of_nat (o + vpb)).
Proof using HB.
  intros Ho. destruct (sf_width _ _ HB), (sf_count _ _ HB) as [Hc0 Hc]. set (xs := map cv (unpack_block u)).
  assert (Hxs : length xs = vpb) by (unfold xs; by rewrite length_map, unpack_length).
  assert (Hv : ∀ j, (j < vpb)%nat → xs !! j = Some (cv (Z.land (Z.shiftr u (bpv * Z.of_nat j)) (s_mask b)))).
  { intros j Hj. unfold xs. apply list_lookup_fmap_Some. eexists. split; [done|]. rewrite unpack_lookup by done. by rewrite value_masked by lia. }
  assert (Hn : (0 < vpb)%nat) by (unfold vpb; lia). unfold decodeBlock.
  pose proof (splice_aset xs values o 0 _ ltac:(lia) (Hv 0%nat Hn)) as Hz. rewrite take_0, splice_nil, Z.add_0_r, Z.mul_0_r, Z.shiftr_0_r in Hz by lia.
  rewrite Hz, go_bind_ret.
  match goal with |- context [go_for ?n 1 ?f ?st] => destruct (go_for_inv (E := E)
    (fun i '(block, values', vo) => block = Z.shiftr u (bpv * (i - 1)) ∧ values' = splice o (take (Z.to_nat i) xs) values ∧ vo = Z.of_nat o + i) n 1 f st)
    as ([[block values'] vo] & -> & HI) end.
  - split_and!; [by rewrite Z.sub_diag, Z.mul_0_r, Z.shiftr_0_r|done|done].
  - intros i [[block values'] vo] Hi (-> & -> & ->). cbn zeta. rewrite (sf_bits _ _ HB), Z.shiftr_shiftr by lia.
    assert (Hi' : (Z.to_nat i < vpb)%nat) by (unfold vpb; lia).
    replace (bpv * (i - 1) + bpv) with (bpv * Z.of_nat (Z.to_nat i)) by lia. replace (Z.of_nat o + i) with (Z.of_nat o + Z.of_nat (Z.to_nat i)) by lia.
    rewrite (splice_aset xs values o (Z.to_nat i) _ ltac:(lia) (Hv _ Hi')), go_bind_ret. eexists. split; [done|].
    split_and!; [f_equal; lia|do 2 f_equal; lia|lia].
  - destruct HI as (_ & -> & ->). rewrite go_bind_ret. unfold mret, go_ret. pairs; [|unfold vpb; lia]. f_equal. apply take_ge. unfold vpb in *. lia.
Qed.

Lemma lor_above a c k : 0 ≤ k → in_uint k c → Z.lor c (Z.shiftl a k) = a * 2 ^ k + c.
Proof using.
  intros Hk Hc. apply bits_ext. intros j Hj. rewrite concat_testbit, Z.lor_spec, Z.shiftl_spec by done.
  destruct (Z.ltb_spec j k); [by rewrite (testbit_neg a), orb_false_r by lia|]. by rewrite (in_uint_testbit_high k c) by (done || lia).
Qed.

Lemma encodeBlock_spec (cv : Z → Z) values o us :
  map cv (slice o vpb values) = us → (o + vpb ≤ length values)%nat → Forall (in_uint bpv) us →
  encodeBlock (E := E) cv b values (Z.of_nat o) = Ret (pack_block us).
Proof using HB.
  intros Hus Ho HF. destruct (sf_width _ _ HB), (sf_count _ _ HB) as [Hc0 Hc].
  assert (Hl : length us = vpb) by (rewrite <- Hus, length_map; by apply slice_length).
  assert (Hv : ∀ j : nat, (j < vpb)%nat → ∃ v, values !! (o + j)%nat = Some v ∧ us !! j = Some (cv v)).
  { intros j Hj. destruct (lookup_lt_is_Some_2 values (o + j)) as [v Hv]; [lia|]. exists v. split; [done|]. rewrite <- Hus.
    apply list_lookup_fmap_Some. exists v. split; [done|]. by rewrite slice_lookup. }
  assert (Hn : (0 < vpb)%nat) by (unfold vpb; lia). destruct (Hv 0%nat Hn) as (v0 & Hv0 & Hu0). rewrite Nat.add_0_r in Hv0.
  unfold encodeBlock. rewrite (aget_Ret _ _ v0) by (rewrite ?Nat2Z.id; done || lia). rewrite go_bind_ret.
  match goal with |- go_for ?n 1 ?f ?st = _ => destruct (go_for_inv (E := E) (fun i block => block = join bpv (reverse (take (Z.to_nat i) us))) n 1 f st)
    as (block & -> & ->) end.
  - destruct us as [|u us']; [done|]. injection Hu0 as ->. change (cv v0 = cv v0 * 2 ^ (bpv * 0) + 0). rewrite Z.mul_0_r. lia.
  - intros i block Hi ->. destruct (Hv (Z.to_nat i)) as (v & Hvi & Hui); [unfold vpb; lia|].
    rewrite (aget_Ret _ _ v) by (try replace (Z.to_nat (Z.of_nat o + i)) with (o + Z.to_nat i)%nat by lia; done || lia). rewrite go_bind_ret.
    eexists. split; [done|]. replace (Z.to_nat (i + 1)) with (S (Z.to_nat i)) by lia. rewrite (take_S_r _ _ _ Hui), reverse_snoc. cbn [join].
    assert (Hlen : Z.of_nat (length (reverse (take (Z.to_nat i) us))) = i) by (rewrite length_reverse, length_take; unfold vpb in *; lia). rewrite Hlen.
    assert (Hui' : in_uint bpv (cv v)) by (by eapply Forall_lookup_1 in HF).
    assert (Hjr : in_uint (bpv * i) (join bpv (reverse (take (Z.to_nat i) us)))).
    { rewrite <- Hlen at 1. apply join_range; [lia|]. by apply Forall_reverse, Forall_take. }
    rewrite (sf_bits _ _ HB), (Z.mul_comm i bpv). unfold shl. rewrite uwrap_id; [apply lor_above; [lia|done]|].
    unfold in_uint in *. rewrite Z.shiftl_mul_pow2 by lia. pose proof (pow2_pos (bpv * i) ltac:(lia)).
    pose proof (Z.pow_le_mono_r 2 (bpv + bpv * i) 64 ltac:(lia) ltac:(nia)) as Hle. rewrite Z.pow_add_r in Hle by lia. nia.
  - unfold pack_block. rewrite take_ge; [done|]. unfold vpb in *. lia.
Qed.
End Block.

(** ** Blocks as words and as bytes *)

Lemma shl64_octet c k : in_uint 8 c → 0 ≤ k ≤ 56 → shl64 c k = Z.shiftl c k.
Proof.
  intros Hc Hk. unfold shl. apply uwrap_id. unfold in_uint in *. rewrite Z.shiftl_mul_pow2 by lia.
  pose proof (Z.pow_le_mono_r 2 (8 + k) 64 ltac:(lia) ltac:(lia)) as Hle. rewrite Z.pow_add_r in Hle by lia. pose proof (pow2_pos k ltac:(lia)). nia.
Qed.

(** One more byte. *)
Lemma or_octet a c k k' : k' = k + 8 → 0 ≤ k ≤ 56 → in_uint 8 c → Z.lor (Z.shiftl a k') (shl64 c k) = Z.shiftl (a * 2 ^ 8 + c) k.
Proof.
  intros -> Hk Hc. rewrite shl64_octet by done. rewrite <- (lor_above a c 8) by (done || lia).
  rewrite Z.shiftl_lor, Z.shiftl_shiftl, Z.lor_comm by lia. by rewrite (Z.add_comm 8).
Qed.

Definition octets (c : list Z) : Prop := length c = 8%nat ∧ Forall (in_uint 8) c.

Lemma readSingleBlockLong_spec {E} c blocks e :
  octets c → slice e 8 blocks = c → readSingleBlockLong (E := E) blocks (Z.of_nat e) = Ret (join 8 c).
Proof.
  intros [Hl HF] Hc. assert (Hget : ∀ (i : nat) k, k = Z.of_nat i → (i < 8)%nat → aget (E := E) blocks (Z.of_nat e + k) = Ret (nth i c 0)).
  { intros i k -> Hi. apply aget_Ret; [lia|]. replace (Z.to_nat _) with (e + i)%nat by lia. rewrite <- (slice_lookup e 8) by done.
    rewrite Hc. destruct (lookup_lt_is_Some_2 c i) as [x Hx]; [lia|]. by rewrite Hx, (nth_lookup_Some _ _ _ _ Hx). }
  destruct c as [|c0 [|c1 [|c2 [|c3 [|c4 [|c5 [|c6 [|c7 [|]]]]]]]]]; try discriminate Hl.
  rewrite !Forall_cons in HF. destruct HF as (? & ? & ? & ? & ? & ? & ? & ? & _). unfold readSingleBlockLong.
  pose proof (Hget 0%nat 0 eq_refl ltac:(lia)) as H0'. rewrite Z.add_0_r in H0'. rewrite H0', go_bind_ret. clear H0'.
  rewrite (Hget 1%nat 1 eq_refl ltac:(lia)), go_bind_ret, (Hget 2%nat 2 eq_refl ltac:(lia)), go_bind_ret, (Hget 3%nat 3 eq_refl ltac:(lia)), go_bind_ret,
    (Hget 4%nat 4 eq_refl ltac:(lia)), go_bind_ret, (Hget 5%nat 5 eq_refl ltac:(lia)), go_bind_ret, (Hget 6%nat 6 eq_refl ltac:(lia)), go_bind_ret, (Hget 7%nat 7 eq_refl ltac:(lia)), go_bind_ret.
  cbn [nth]. unfold mret, go_ret. f_equal. rewrite (shl64_octet c0) by (done || lia).
  rewrite (or_octet c0 c1 48 56), (or_octet _ c2 40 48), (or_octet _ c3 32 40), (or_octet _ c4 24 32), (or_octet _ c5 16 24), (or_octet _ c6 8 16)
    by (done || lia).
  rewrite Z.lor_comm, lor_above by (done || lia). cbn [join length]. lia.
Qed.

Lemma writeSingleBlockLong_spec {E} u blocks e :
  (e + 8 ≤ length blocks)%nat → writeSingleBlockLong (E := E) u blocks (Z.of_nat e) = Ret (splice e (digits 8 8 u) blocks).
Proof.
  intros He. set (xs := digits 8 8 u). assert (Hl : (e + length xs ≤ length blocks)%nat) by (unfold xs; by rewrite digits_length).
  unfold writeSingleBlockLong.
  assert (Hset : ∀ (i : nat) k x, k = Z.of_nat i → xs !! i = Some x →
    aset (E := E) (splice e (take i xs) blocks) (Z.of_nat e + k) x = Ret (splice e (take (S i) xs) blocks)).
  { intros i k x -> Hx. by apply splice_aset. }
  pose proof (Hset 0%nat 0 (to_byte (Z.shiftr u 56)) eq_refl eq_refl) as H0. rewrite take_0, splice_nil, Z.add_0_r in H0 by lia.
  rewrite H0, go_bind_ret, (Hset 1%nat 1 _ eq_refl), go_bind_ret, (Hset 2%nat 2 _ eq_refl), go_bind_ret, (Hset 3%nat 3 _ eq_refl), go_bind_ret,
    (Hset 4%nat 4 _ eq_refl), go_bind_ret, (Hset 5%nat 5 _ eq_refl), go_bind_ret, (Hset 6%nat 6 _ eq_refl), go_bind_ret, (Hset 7%nat 7 _ eq_refl)
    by reflexivity.
  done.
Qed.

(** ** All blocks *)

Lemma moves_intro {E} (op : list Z → Z → list Z → Z → Z → go E (list Z)) xs ys iterations :
  (∀ src dst e o, slice e (length xs) src = xs → (e + length xs ≤ length src)%nat → (o + length ys ≤ length dst)%nat →
    op src (Z.of_nat e) dst (Z.of_nat o) iterations = Ret (splice o ys dst)) → moves op xs ys iterations.
Proof.
  intros H pre post ypre old ypost Ho. rewrite (H (pre ++ xs ++ post) (ypre ++ old ++ ypost) (length pre) (length ypre)).
  - by rewrite splice_mid.
  - unfold slice. by rewrite drop_app_length, take_app_length.
  - rewrite !length_app. lia.
  - rewrite !length_app. lia.
Qed.

Lemma concat_length {A} (ls : list (list A)) n : Forall (λ l, length l = n) ls → length (concat ls) = (n * length ls)%nat.
Proof. induction 1 as [|l ls Hl _ IH]; [cbn; lia|]. cbn [concat]. rewrite length_app, IH, Hl. cbn [length]. lia. Qed.

Lemma length_flat_map_eq {A B} (f : A → list B) ls n : (∀ x, length (f x) = n) → length (flat_map f ls) = (n * length ls)%nat.
Proof. intros Hf. induction ls as [|x ls IH]; [cbn; lia|]. cbn [flat_map length]. rewrite length_app, IH, Hf. lia. Qed.

(** The first of some chunks, and the others. *)
Lemma slice_chunk {A} (l rest : list A) e src : slice e (length l + length rest) src = l ++ rest → (e + (length l + length rest) ≤ length src)%nat →
  slice e (length l) src = l ∧ slice (e + length l) (length rest) src = rest.
Proof.
  intros Hs Hle. rewrite slice_app in Hs. assert (Hl : length (slice e (length l) src) = length l) by (apply slice_length; lia).
  by apply app_inj_1 in Hs.
Qed.

Section Blocks.
Context {E : Type} (bpv : Z) (b : bulkOperationPackedSingleBlock) (HB : single_for bpv b).
Local Abbreviation vpb := (vpb b).
Context (size : Z) (k : nat) (Hk : size = Z.of_nat k) (good : list Z → Prop) (Hgood : ∀ c, good c → length c = k).
Context (read : list Z → Z → go E Z) (rd : list Z → Z).
Context (write : Z → list Z → Z → go E (list Z)) (wr : Z → list Z).
Context (Hread : ∀ c blocks e, good c → slice e k blocks = c → read blocks (Z.of_nat e) = Ret (rd c)).
Context (Hwr : ∀ u, length (wr u) = k).
Context (Hwrite : ∀ u blocks e, (e + k ≤ length blocks)%nat → write u blocks (Z.of_nat e) = Ret (splice e (wr u) blocks)).

Lemma decode_loop cv cs : ∀ i e o values src,
  Forall good cs → slice e (length (concat cs)) src = concat cs → (e + length (concat cs) ≤ length src)%nat → (o + vpb * length cs ≤ length values)%nat →
  go_for (length cs) i (fun _ '(blocksOffset, values, valuesOffset) =>
      block ← read src blocksOffset;
      '(values, valuesOffset) ← decodeBlock cv b block values valuesOffset;
      mret (blocksOffset + size, values, valuesOffset)) (Z.of_nat e, values, Z.of_nat o)
  = Ret (Z.of_nat (e + length (concat cs)), splice o (flat_map (λ c, map cv (unpack_block bpv b (rd c))) cs) values, Z.of_nat (o + vpb * length cs)).
Proof using HB Hk Hgood Hread.
  induction cs as [|c cs IH]; intros i e o values src HF Hs Hle Ho; cbn [go_for length concat flat_map].
  { rewrite splice_nil by lia. pairs. }
  apply Forall_cons in HF as [Hc HF]. cbn [concat length] in *. rewrite length_app in *.
  destruct (slice_chunk c (concat cs) e src Hs Hle) as [H1 H2]. rewrite (Hgood c Hc) in *.
  rewrite (Hread c src e Hc H1), !go_bind_ret, (decodeBlock_spec bpv b HB) by lia. rewrite go_bind_ret, bind_mret.
  assert (Hul : length (map cv (unpack_block bpv b (rd c))) = vpb) by (by rewrite length_map, unpack_length).
  replace (Z.of_nat e + size) with (Z.of_nat (e + k)) by lia.
  rewrite (IH (i + 1) (e + k)%nat (o + vpb)%nat) by (done || lia || rewrite splice_len by lia; lia).
  pairs. rewrite <- Hul at 1. apply splice_app. rewrite Hul. rewrite (length_flat_map_eq _ cs vpb); [lia|].
  intros c'. by rewrite length_map, unpack_length.
Qed.

Lemma encode_loop (cv : Z → Z) vss : ∀ i o e blocks src,
  Forall (λ vs, length vs = vpb ∧ Forall (in_uint bpv) (map cv vs)) vss → slice o (length (concat vss)) src = concat vss →
  (o + length (concat vss) ≤ length src)%nat → (e + k * length vss ≤ length blocks)%nat →
  go_for (length vss) i (fun _ '(valuesOffset, blocks, blocksOffset) =>
      block ← encodeBlock cv b src valuesOffset;
      blocks ← write block blocks blocksOffset;
      mret (valuesOffset + s_valueCount b, blocks, blocksOffset + size)) (Z.of_nat o, blocks, Z.of_nat e)
  = Ret (Z.of_nat (o + length (concat vss)), splice e (flat_map (λ vs, wr (pack_block bpv (map cv vs))) vss) blocks, Z.of_nat (e + k * length vss)).
Proof using HB Hk Hwr Hwrite.
  induction vss as [|vs vss IH]; intros i o e blocks src HF Hs Hle He; cbn [go_for length concat flat_map].
  { rewrite splice_nil by lia. pairs. }
  apply Forall_cons in HF as [[Hl Hv] HF]. cbn [concat length] in *. rewrite length_app in *.
  destruct (slice_chunk vs (concat vss) o src Hs Hle) as [H1 H2]. rewrite Hl in *.
  rewrite (encodeBlock_spec bpv b HB cv src o (map cv vs)) by (rewrite ?H1; done || lia). rewrite !go_bind_ret, Hwrite, go_bind_ret, bind_mret by lia.
  set (w := wr (pack_block bpv (map cv vs))). assert (Hw : length w = k) by apply Hwr.
  replace (Z.of_nat o + s_valueCount b) with (Z.of_nat (o + vpb)) by (destruct (sf_count _ _ HB); unfold PackedSingle.vpb; lia).
  replace (Z.of_nat e + size) with (Z.of_nat (e + k)) by lia.
  rewrite (IH (i + 1) (o + vpb)%nat (e + k)%nat) by (done || lia || rewrite splice_len by lia; lia).
  pairs. rewrite <- Hw at 1. apply splice_app. rewrite Hw. rewrite (length_flat_map_eq _ vss k); [lia|]. intros vs'. apply Hwr.
Qed.

Lemma decode_blocks_moves cv cs :
  Forall good cs → moves (decode_blocks read size cv b) (concat cs) (flat_map (λ c, map cv (unpack_block bpv b (rd c))) cs) (Z.of_nat (length cs)).
Proof using HB Hk Hgood Hread.
  intros HF. apply moves_intro. intros src dst e o Hs He Ho. rewrite (length_flat_map_eq _ cs vpb) in Ho by (intros c; by rewrite length_map, unpack_length).
  unfold decode_blocks. rewrite Nat2Z.id, (decode_loop cv cs) by done. done.
Qed.

Lemma encode_blocks_moves (cv : Z → Z) vss :
  Forall (λ vs, length vs = vpb ∧ Forall (in_uint bpv) (map cv vs)) vss →
  moves (encode_blocks write size cv b) (concat vss) (flat_map (λ vs, wr (pack_block bpv (map cv vs))) vss) (Z.of_nat (length vss)).
Proof using HB Hk Hwr Hwrite.
  intros HF. apply moves_intro. intros src dst o e Hs Ho He. rewrite (length_flat_map_eq _ vss k) in He by (intros vs; apply Hwr).
  unfold encode_blocks. rewrite Nat2Z.id, (encode_loop cv vss) by done. done.
Qed.

(** What is packed is unpacked. *)
Context (Hrw : ∀ u, in_uint 64 u → good (wr u) ∧ rd (wr u) = u).

Lemma blocks_roundtrip w (cv : Z → Z) vss :
  0 < w → (∀ v, fits w bpv v → cv v = uwrap w v) → Forall (λ vs, length vs = vpb ∧ Forall (fits w bpv) vs) vss →
  moves (encode_blocks write size cv b) (concat vss) (flat_map (λ vs, wr (pack_block bpv (map cv vs))) vss) (Z.of_nat (length vss)) ∧
  moves (decode_blocks read size (swrap w) b) (flat_map (λ vs, wr (pack_block bpv (map cv vs))) vss) (concat vss) (Z.of_nat (length vss)).
Proof using HB Hk Hgood Hread Hwr Hwrite Hrw.
  intros Hw Hcv HF.
  assert (HM : ∀ vs, Forall (fits w bpv) vs → map cv vs = map (uwrap w) vs).
  { intros vs Hvs. induction Hvs as [|v vs Hv _ IH]; [done|]. cbn [map]. by rewrite IH, Hcv. }
  assert (HF' : Forall (λ vs, length vs = vpb ∧ Forall (in_uint bpv) (map cv vs)) vss).
  { eapply Forall_impl; [exact HF|]. intros vs [Hl Hv]. split; [done|]. rewrite HM by done. by apply fits_range. }
  split; [by apply encode_blocks_moves|]. set (cs := map (λ vs, wr (pack_block bpv (map cv vs))) vss).
  assert (Hcs : Forall (λ vs, good (wr (pack_block bpv (map cv vs))) ∧ map (swrap w) (unpack_block bpv b (rd (wr (pack_block bpv (map cv vs))))) = vs) vss).
  { rewrite Forall_forall in HF, HF' |- *. intros vs Hin. destruct (HF vs Hin) as [Hl Hv], (HF' vs Hin) as [_ Hu].
    assert (Hr : in_uint 64 (pack_block bpv (map cv vs))) by (apply (pack_range bpv b HB); [by rewrite length_map|done]).
    destruct (Hrw _ Hr) as [Hg ->]. split; [done|]. rewrite unpack_pack by (done || by rewrite length_map). rewrite HM by done. by apply (map_back w bpv). }
  pose proof (decode_blocks_moves (swrap w) cs) as Hd. unfold cs in Hd. rewrite length_map in Hd.
  rewrite (flat_map_concat_map (λ vs, wr (pack_block bpv (map cv vs)))).
  assert (Hout : flat_map (λ c, map (swrap w) (unpack_block bpv b (rd c))) (map (λ vs, wr (pack_block bpv (map cv vs))) vss) = concat vss).
  { clear -Hcs. induction Hcs as [|vs vss [_ He] _ IH]; [done|]. cbn [map flat_map concat]. by rewrite IH, He. }
  rewrite Hout in Hd. apply Hd. apply Forall_fmap. eapply Forall_impl; [exact Hcs|]. by intros vs [? _].
Qed.
End Blocks.

(** ** Round trips *)

Lemma read_word_spec {E} c blocks e : length c = 1%nat → slice e 1 blocks = c → read_word (E := E) blocks (Z.of_nat e) = Ret (to_uint64 (nth 0 c 0)).
Proof.
  intros Hl Hc. destruct c as [|x [|]]; try discriminate. unfold read_word. rewrite (aget_Ret _ _ x); [done|lia|].
  rewrite Nat2Z.id, <- (Nat.add_0_r e), <- (slice_lookup e 1) by lia. by rewrite Hc.
Qed.

Lemma write_word_spec {E} u blocks e : (e + 1 ≤ length blocks)%nat → write_word (E := E) u blocks (Z.of_nat e) = Ret (splice e [to_int64 u] blocks).
Proof. intros He. unfold write_word. apply aset_splice. lia. Qed.

Lemma words_back u : in_uint 64 u → length [to_int64 u] = 1%nat ∧ to_uint64 (nth 0 [to_int64 u] 0) = u.
Proof. intros Hu. split; [done|]. cbn [nth]. rewrite uwrap_swrap by lia. by apply uwrap_id. Qed.

Lemma octets_back u : in_uint 64 u → octets (digits 8 8 u) ∧ join 8 (digits 8 8 u) = u.
Proof.
  intros Hu. split; [split; [apply digits_length|apply digits_in_range; lia]|]. rewrite join_digits by lia. apply Z.mod_small. exact Hu.
Qed.

Section RoundTrip.
Context {E : Type} (bpv : Z) (b : bulkOperationPackedSingleBlock) (HB : single_for bpv b).

(** The words of some values. *)
Definition packed_words (vss : list (list Z)) : list Z := map (λ vs, to_int64 (pack_block bpv (map to_uint64 vs))) vss.

Lemma single_words_roundtrip vss :
  Forall (λ vs, length vs = vpb b ∧ Forall (fits 64 bpv) vs) vss →
  moves (s_EncodeLongsToLongs (E := E) b) (concat vss) (packed_words vss) (Z.of_nat (length vss)) ∧
  moves (s_DecodeLongs (E := E) b) (packed_words vss) (concat vss) (Z.of_nat (length vss)).
Proof using HB.
  intros HF. pose proof (blocks_roundtrip (E := E) bpv b HB 1 1 eq_refl (λ c, length c = 1%nat) (λ c H, H) read_word (λ c, to_uint64 (nth 0 c 0)) write_word
    (λ u, [to_int64 u]) read_word_spec (λ _, eq_refl) write_word_spec words_back 64 to_uint64 vss ltac:(lia) (λ _ _, eq_refl) HF) as H.
  assert (Hw : flat_map (λ vs, [to_int64 (pack_block bpv (map to_uint64 vs))]) vss = packed_words vss).
  { unfold packed_words. clear. induction vss as [|vs vss IH]; [done|]. cbn [flat_map map app]. by rewrite IH. }
  cbv beta in H. by rewrite Hw in H.
Qed.

(** The bytes are the words in big-endian order. *)
Lemma single_bytes_roundtrip vss :
  Forall (λ vs, length vs = vpb b ∧ Forall (fits 64 bpv) vs) vss →
  let bs := flat_map (λ x, digits 8 8 (to_uint64 x)) (packed_words vss) in
  moves (s_EncodeLongsToBytes (E := E) b) (concat vss) bs (Z.of_nat (length vss)) ∧
  moves (s_DecodeBytes (E := E) b) bs (concat vss) (Z.of_nat (length vss)).
Proof using HB.
  intros HF bs. pose proof (blocks_roundtrip (E := E) bpv b HB 8 8 eq_refl octets (λ c H, proj1 H) readSingleBlockLong (join 8) writeSingleBlockLong
    (digits 8 8) readSingleBlockLong_spec (λ _, digits_length _ _ _) writeSingleBlockLong_spec octets_back 64 to_uint64 vss ltac:(lia) (λ _ _, eq_refl) HF) as H.
  assert (Hw : flat_map (λ vs, digits 8 8 (pack_block bpv (map to_uint64 vs))) vss = bs).
  { unfold bs, packed_words. clear -HF HB. induction HF as [|vs vss [Hl Hv] _ IH]; [done|]. cbn [flat_map map]. rewrite IH. f_equal.
    rewrite uwrap_swrap, uwrap_id by (lia || (apply (pack_range bpv b HB); [by rewrite length_map|by apply fits_range])). done. }
  cbv beta in H. by rewrite Hw in H.
Qed.

(** What any words decode to. *)
Lemma single_decode_words xs :
  moves (s_DecodeLongs (E := E) b) xs (concat (map (λ x, map to_int64 (unpack_block bpv b (to_uint64 x))) xs)) (Z.of_nat (length xs)).
Proof using HB.
  pose proof (decode_blocks_moves (E := E) bpv b HB 1 1 eq_refl (λ c, length c = 1%nat) (λ c H, H) read_word (λ c, to_uint64 (nth 0 c 0)) read_word_spec
    to_int64 (map (λ x, [x]) xs)) as H. cbv beta in H. rewrite flat_map_concat_map, map_map, length_map in H.
  assert (Hc : concat (map (λ x, [x]) xs) = xs) by (clear; induction xs as [|x xs IH]; [done|]; cbn [map concat app]; by rewrite IH).
  rewrite Hc in H. apply H. apply Forall_fmap, Forall_true. done.
Qed.
End RoundTrip.
