(* ===== verification/PackedSingleArray.v ===== *)
(** The array of packed integers that stay within a block: [util/packed/packed64_single_block.go].

    It has the same interface as [Packed64] and the same promises, so it can be copied from and to
    arrays of the other kind. *)

From stdpp Require Import base tactics numbers list.
From Stdlib Require Import ZArith Lia.
From S2P Require Import Prelude Digits BulkOperation PackedMutable Packed64 PackedSingle.

Local Open Scope Z_scope.

Record Packed64SingleBlock := {
  q_valueCount : Z;
  q_bitsPerValue : Z;
  q_blocks : list Z;
  q_valuesPerBlock : Z;
  q_mask : Z
}.

Definition q_with_blocks (q : Packed64SingleBlock) (blocks : list Z) : Packed64SingleBlock :=
  {| q_valueCount := q_valueCount q; q_bitsPerValue := q_bitsPerValue q; q_blocks := blocks;
     q_valuesPerBlock := q_valuesPerBlock q; q_mask := q_mask q |}.

Definition packed64SingleBlockSupported : list Z := [1; 2; 3; 4; 5; 6; 7; 8; 9; 10; 12; 16; 21; 32].
Definition packed64SingleBlockIsSupported (bitsPerValue : Z) : bool := existsb (fun b => b =? bitsPerValue) packed64SingleBlockSupported.

Definition IsSupported (f : Format) (bitsPerValue : Z) : bool :=
  match f with
  | FormatPackedSingleBlock => packed64SingleBlockIsSupported bitsPerValue
  | FormatPacked => (1 <=? bitsPerValue) && (bitsPerValue <=? 64)
  end.

Section Single.
Context {E : Type}.
Local Abbreviation G := (go E).

Definition newPacked64SingleBlock (valueCount bitsPerValue : Z) : G Packed64SingleBlock :=
  if negb (packed64SingleBlockIsSupported bitsPerValue) then Panic else
  let vpb := Z.quot 64 bitsPerValue in
  let required := Z.quot valueCount vpb + (if Z.rem valueCount vpb =? 0 then 0 else 1) in
  if required <? 0 then Panic else
  Ret {| q_valueCount := valueCount; q_bitsPerValue := bitsPerValue; q_blocks := replicate (Z.to_nat required) 0;
         q_valuesPerBlock := vpb; q_mask := uwrap 64 (shl64 1 bitsPerValue - 1) |}.

Definition q_Get (q : Packed64SingleBlock) (index : Z) : G Z :=
  let o := Z.quot index (q_valuesPerBlock q) in
  let b := Z.rem index (q_valuesPerBlock q) in
  let shift := to_uint64 (b * q_bitsPerValue q) in
  block ← aget (q_blocks q) o;
  Ret (to_int64 (Z.land (Z.shiftr (to_uint64 block) shift) (q_mask q))).

Definition q_Set (q : Packed64SingleBlock) (index value : Z) : G Packed64SingleBlock :=
  let o := Z.quot index (q_valuesPerBlock q) in
  let b := Z.rem index (q_valuesPerBlock q) in
  let shift := to_uint64 (b * q_bitsPerValue q) in
  let v := to_uint64 value in
  block ← aget (q_blocks q) o;
  blocks ← aset (q_blocks q) o (to_int64 (Z.lor (Z.land (to_uint64 block) (not64 (shl64 (q_mask q) shift))) (shl64 v shift)));
  mret (q_with_blocks q blocks).

(** The parts of [GetBulk] and [SetBulk] that begin with a block. *)
Definition q_get_blocks (q : Packed64SingleBlock) (originalIndex : Z) (arr : list Z) (off index length : Z) : G (Z * list Z) :=
  decoder ← newBulkOperationPackedSingleBlock (q_bitsPerValue q);
  let blockIndex := Z.quot index (q_valuesPerBlock q) in
  let nblocks := Z.quot (index + length) (q_valuesPerBlock q) - blockIndex in
  arr ← s_DecodeLongs decoder (q_blocks q) blockIndex arr off nblocks;
  let diff := nblocks * q_valuesPerBlock q in
  let index := index + diff in
  let length := length - diff in
  if originalIndex <? index then mret (index - originalIndex, arr) else
  readerBulkGet q_Get q_valueCount q index arr off length.

Definition q_set_blocks (q : Packed64SingleBlock) (originalIndex : Z) (arr : list Z) (off index length : Z) : G (Z * Packed64SingleBlock) :=
  encoder ← newBulkOperationPackedSingleBlock (q_bitsPerValue q);
  let blockIndex := Z.quot index (q_valuesPerBlock q) in
  let nblocks := Z.quot (index + length) (q_valuesPerBlock q) - blockIndex in
  blocks ← s_EncodeLongsToLongs encoder arr off (q_blocks q) blockIndex nblocks;
  let q := q_with_blocks q blocks in
  let diff := nblocks * q_valuesPerBlock q in
  let index := index + diff in
  let length := length - diff in
  if originalIndex <? index then mret (index - originalIndex, q) else
  mutableBulkSet q_Set q_valueCount q index arr off length.

Definition q_GetBulk (q : Packed64SingleBlock) (index : Z) (arr : list Z) (off length : Z) : G (Z * list Z) :=
  if length <=? 0 then Panic else
  get_aligned q_Get q_valueCount q (q_valuesPerBlock q) (q_get_blocks q) index arr off length.

Definition q_SetBulk (q : Packed64SingleBlock) (index : Z) (arr : list Z) (off length : Z) : G (Z * Packed64SingleBlock) :=
  if length <=? 0 then Panic else
  set_aligned q_Set q_valueCount q (q_valuesPerBlock q) (fun q originalIndex => q_set_blocks q originalIndex arr) index arr off length.

Definition q_Fill (q : Packed64SingleBlock) (fromIndex toIndex val : Z) : G Packed64SingleBlock :=
  if toIndex - fromIndex <=? Z.shiftl (q_valuesPerBlock q) 1 then mutableFill q_Set q fromIndex toIndex val else
  let fromOffsetInBlock := Z.rem fromIndex (q_valuesPerBlock q) in
  '(q, fromIndex) ←
    (if fromOffsetInBlock =? 0 then mret (q, fromIndex)
     else fill_head q_Set q (q_valuesPerBlock q) fromOffsetInBlock fromIndex val);
  let fromBlock := Z.quot fromIndex (q_valuesPerBlock q) in
  let toBlock := Z.quot toIndex (q_valuesPerBlock q) in
  blockValue ← go_for (Z.to_nat (q_valuesPerBlock q)) 0
    (fun i blockValue => mret (Z.lor blockValue (shl64 (to_uint64 val) (to_uint64 (i * q_bitsPerValue q))))) 0;
  blocks ← go_for (Z.to_nat (toBlock - fromBlock)) fromBlock (fun i blocks => aset blocks i (to_int64 blockValue)) (q_blocks q);
  let q := q_with_blocks q blocks in
  let i := q_valuesPerBlock q * toBlock in
  go_for (Z.to_nat (toIndex - i)) i (fun i q => q_Set q i val) q.

Definition q_Clear (q : Packed64SingleBlock) : G Packed64SingleBlock :=
  Ret (q_with_blocks q (map (λ _, 0) (q_blocks q))).

#[export] Instance Packed64SingleBlock_ops : MutableOps E Packed64SingleBlock :=
  {| Size := q_valueCount; Get := q_Get; SetAt := q_Set; GetBulk := q_GetBulk; SetBulk := q_SetBulk; Fill := q_Fill; Clear := q_Clear |}.
End Single.

Example single_array_run :
  (q ← newPacked64SingleBlock (E := unit) 100 21;
   q ← q_Set q 5 2097151; q ← q_Set q 6 291; '(n, q) ← q_SetBulk q 7 (seqZ 1 30) 0 30; q ← q_Fill q 50 99 7;
   a ← q_Get q 5; b ← q_Get q 6; c ← q_Get q 98; '(m, arr) ← q_GetBulk q 5 (replicate 16 0) 1 15;
   mret (n, (a, b, c), m, arr, length (q_blocks q)))
  = Ret (29, (2097151, 291, 7), 13, [0; 2097151; 291] ++ seqZ 1 11 ++ [0; 0], 34%nat).
Proof. vm_compute. reflexivity. Qed.

(** * The array stands for a list *)

(** How many values there are in a block. *)
Definition per_block (bpv : Z) : nat := Z.to_nat (Z.quot 64 bpv).

Definition bulk_of (bpv : Z) : bulkOperationPackedSingleBlock :=
  {| s_bitsPerValue := bpv; s_valueCount := Z.quot 64 bpv; s_mask := uwrap 64 (shl64 1 bpv - 1) |}.

(** Value [i] lies in block [i / per_block], and the lower it is in there the smaller the rest. *)
Definition q_stored (bpv : Z) (us : list Z) (i : nat) (v : Z) : Prop :=
  ∃ u, us !! (i / per_block bpv)%nat = Some u ∧ field u (bpv * Z.of_nat (i mod per_block bpv)) bpv = to_uint64 v.

Definition q_words (q : Packed64SingleBlock) : list Z := map to_uint64 (q_blocks q).

Record q_shaped (bpv : Z) (q : Packed64SingleBlock) (n : nat) : Prop := {
  qs_count : q_valueCount q = Z.of_nat n;
  qs_bits : q_bitsPerValue q = bpv;
  qs_width : 1 ≤ bpv ≤ 32;
  qs_per : q_valuesPerBlock q = Z.quot 64 bpv;
  qs_mask : q_mask q = 2 ^ bpv - 1;
  qs_room : (n ≤ per_block bpv * length (q_blocks q))%nat
}.

Definition q_represents (bpv : Z) (q : Packed64SingleBlock) (vs : list Z) : Prop :=
  q_shaped bpv q (length vs) ∧ Forall (fits 64 bpv) vs ∧ ∀ i v, vs !! i = Some v → q_stored bpv (q_words q) i v.

Section Array.
Context {E : Type} (bpv : Z) (Hw : 1 ≤ bpv ≤ 32).
Local Abbreviation vpb := (per_block bpv).

Lemma per_block_facts : Z.quot 64 bpv = Z.of_nat vpb ∧ (0 < vpb ≤ 64)%nat ∧ bpv * Z.of_nat vpb ≤ 64.
Proof using Hw.
  unfold per_block. rewrite Z.quot_div_nonneg by lia. pose proof (Z.mul_div_le 64 bpv ltac:(lia)).
  assert (0 < 64 / bpv) by (apply Z.div_str_pos; lia). assert (64 / bpv ≤ 64) by (apply Z.div_le_upper_bound; nia). lia.
Qed.

Lemma bulk_of_single : newBulkOperationPackedSingleBlock (E := E) bpv = Ret (bulk_of bpv).
Proof using Hw. unfold newBulkOperationPackedSingleBlock. by rewrite (proj2 (Z.eqb_neq bpv 0)) by lia. Qed.

Lemma bulk_of_for : single_for bpv (bulk_of bpv).
Proof using Hw.
  destruct (new_single_for (E := unit) bpv ltac:(lia)) as (b & Hb & HB). unfold newBulkOperationPackedSingleBlock in Hb.
  rewrite (proj2 (Z.eqb_neq bpv 0)) in Hb by lia. by injection Hb as <-.
Qed.

Lemma quot_nat (a n : nat) : (0 < n)%nat → Z.quot (Z.of_nat a) (Z.of_nat n) = Z.of_nat (a / n).
Proof using. intros. rewrite Z.quot_div_nonneg, Nat2Z.inj_div by lia. done. Qed.

Lemma block_pos k m : (m < vpb)%nat → ((k * vpb + m) / vpb = k ∧ (k * vpb + m) mod vpb = m)%nat.
Proof using.
  intros Hm. rewrite Nat.add_comm, Nat.Div0.mod_add, Nat.div_add, Nat.div_small, Nat.mod_small by lia. done.
Qed.

(** A position in a block is below 64. *)
Lemma shift_small m : (m < vpb)%nat → to_uint64 (Z.of_nat m * bpv) = bpv * Z.of_nat m ∧ bpv * Z.of_nat m + bpv ≤ 64.
Proof using Hw.
  intros Hm. destruct per_block_facts as (_ & _ & H). assert (bpv * Z.of_nat m + bpv ≤ 64) by nia. split; [|done].
  rewrite Z.mul_comm. apply uwrap_id. unfold in_uint. lia.
Qed.

Lemma fits_back v : fits 64 bpv v → to_int64 (to_uint64 v) = v.
Proof using. intros [Hv _]. rewrite swrap_uwrap by lia. by apply swrap_id. Qed.

Lemma q_size_spec q vs : q_represents bpv q vs → q_valueCount q = Z.of_nat (length vs).
Proof using. intros (Hsh & _). apply (qs_count _ _ _ Hsh). Qed.

Lemma masked_field u n : 0 ≤ n → Z.land (Z.shiftr u n) (2 ^ bpv - 1) = field u n bpv.
Proof using Hw.
  intros Hn. pose proof (value_masked bpv (bulk_of bpv) bulk_of_for u n Hn) as H. by rewrite (sf_mask _ _ bulk_of_for) in H.
Qed.

Lemma q_Get_spec q vs i v : q_represents bpv q vs → vs !! i = Some v → q_Get (E := E) q (Z.of_nat i) = Ret v.
Proof using Hw.
  intros (Hsh & HF & Hst) Hv. destruct (Hst i v Hv) as (u & Hu & Hf). destruct per_block_facts as (Hq & Hn & Hle).
  unfold q_Get. rewrite (qs_per _ _ _ Hsh), (qs_bits _ _ _ Hsh), (qs_mask _ _ _ Hsh), Hq, quot_nat, rem_nat by lia. cbn zeta.
  destruct (shift_small (i mod vpb)) as [-> _]; [apply Nat.mod_upper_bound; lia|].
  apply list_lookup_fmap_Some in Hu as (x & -> & Hx). rewrite (aget_Ret _ _ x) by (rewrite ?Nat2Z.id; done || lia). rewrite go_bind_ret.
  rewrite masked_field, Hf by lia. f_equal. apply fits_back. by eapply Forall_lookup_1 in HF.
Qed.

(** Writing value [m] of a block leaves the others. *)
Lemma set_field x v m m' :
  (m < vpb)%nat → (m' < vpb)%nat → in_uint bpv (to_uint64 v) →
  let shift := bpv * Z.of_nat m in
  field (Z.lor (Z.land x (not64 (shl64 (2 ^ bpv - 1) shift))) (shl64 (to_uint64 v) shift)) (bpv * Z.of_nat m') bpv =
  if bool_decide (m' = m) then to_uint64 v else field x (bpv * Z.of_nat m') bpv.
Proof using Hw.
  intros Hm Hm' Hv shift. destruct (shift_small m Hm) as [_ H1], (shift_small m' Hm') as [_ H2]. apply bits_ext. intros j Hj.
  rewrite field_testbit by nia. destruct (Z.ltb_spec j bpv) as [Hlt|Hge]; cbn [andb].
  - rewrite Z.lor_spec, Z.land_spec, not64_testbit, !shl_testbit, ones_testbit by nia. rewrite (proj2 (Z.ltb_lt _ 64)) by lia. cbn [andb]. unfold shift.
    case_bool_decide as Hd.
    + subst m'. replace (bpv * Z.of_nat m + j - bpv * Z.of_nat m) with j by lia.
      rewrite (proj2 (Z.leb_le 0 j)), (proj2 (Z.ltb_lt j bpv)) by lia. cbn. by rewrite andb_false_r.
    + rewrite field_testbit by nia. rewrite (proj2 (Z.ltb_lt j bpv)) by lia. cbn [andb].
      destruct (Z.leb_spec 0 (bpv * Z.of_nat m' + j - bpv * Z.of_nat m)).
      * rewrite (proj2 (Z.ltb_ge _ bpv)) by nia. cbn [andb negb]. rewrite andb_true_r.
        rewrite (in_uint_testbit_high bpv (to_uint64 v)), orb_false_r by (done || nia). done.
      * cbn [andb negb]. rewrite andb_true_r, (testbit_neg (to_uint64 v)), orb_false_r by lia. done.
  - symmetry. case_bool_decide.
    + apply (in_uint_testbit_high bpv); [lia|done|lia].
    + rewrite field_testbit by nia. by rewrite (proj2 (Z.ltb_ge _ _)) by lia.
Qed.

Lemma q_Set_spec q vs i v :
  q_represents bpv q vs → (i < length vs)%nat → fits 64 bpv v →
  ∃ q', q_Set (E := E) q (Z.of_nat i) v = Ret q' ∧ q_represents bpv q' (<[i := v]> vs).
Proof using Hw.
  intros (Hsh & HF & Hst) Hi Hv. destruct per_block_facts as (Hq & Hn & Hle). destruct (lookup_lt_is_Some_2 vs i Hi) as [v0 Hv0].
  destruct (Hst i v0 Hv0) as (u & Hu & _). apply list_lookup_fmap_Some in Hu as (x & -> & Hx). apply lookup_lt_Some in Hx as Hlt.
  unfold q_Set. rewrite (qs_per _ _ _ Hsh), (qs_bits _ _ _ Hsh), (qs_mask _ _ _ Hsh), Hq, quot_nat, rem_nat by lia. cbn zeta.
  pose proof (Nat.mod_upper_bound i vpb ltac:(lia)) as Hm. destruct (shift_small _ Hm) as [-> _].
  rewrite (aget_Ret _ _ x) by (rewrite ?Nat2Z.id; done || lia). rewrite go_bind_ret, aset_splice, go_bind_ret, splice_one by done.
  eexists. split; [done|]. unfold q_represents. rewrite length_insert. split.
  { destruct Hsh. split; cbn; rewrite ?length_insert; done. }
  split; [by apply Forall_insert|]. intros i' v' Hv'. unfold q_stored, q_words. cbn [q_blocks q_with_blocks].
  change (map to_uint64) with (fmap (M := list) to_uint64). rewrite list_fmap_insert, uwrap_swrap by lia.
  pose proof (Nat.mod_upper_bound i' vpb ltac:(lia)) as Hm'.
  assert (Hu64 : ∀ y, field (uwrap 64 y) (bpv * Z.of_nat (i' mod vpb)) bpv = field y (bpv * Z.of_nat (i' mod vpb)) bpv).
  { intros y. destruct (shift_small _ Hm') as [_ H64]. apply bits_ext. intros j Hj. rewrite !field_testbit by nia.
    destruct (Z.ltb_spec j bpv); [|done]. rewrite uwrap_testbit by nia. by rewrite (proj2 (Z.ltb_lt _ 64)) by lia. }
  destruct (decide (i' / vpb = i / vpb)%nat) as [He|He].
  - rewrite He, list_lookup_insert_eq by (by rewrite length_fmap). eexists. split; [done|]. rewrite Hu64, set_field by (done || apply Hv).
    destruct (decide (i' = i)) as [->|Hne].
    + rewrite bool_decide_eq_true_2 by done. rewrite list_lookup_insert_eq in Hv' by done. by injection Hv' as ->.
    + rewrite bool_decide_eq_false_2.
      * rewrite list_lookup_insert_ne in Hv' by done. destruct (Hst i' v' Hv') as (y & Hy & Hf). rewrite He in Hy.
        apply list_lookup_fmap_Some in Hy as (x' & -> & Hx'). rewrite Hx in Hx'. by injection Hx' as <-.
      * intros Hmm. apply Hne. rewrite (Nat.div_mod_eq i' vpb), (Nat.div_mod_eq i vpb). by rewrite He, Hmm.
  - rewrite list_lookup_insert_ne by done. apply (Hst i' v'). rewrite list_lookup_insert_ne in Hv' by congruence. done.
Qed.

(** ** Whole blocks *)

Lemma concat_lookup {A} (ls : list (list A)) n t m :
  Forall (λ l, length l = n) ls → (m < n)%nat → concat ls !! (t * n + m)%nat = ls !! t ≫= (λ l, l !! m).
Proof using.
  intros HF Hm. revert t. induction HF as [|l ls Hl HF IH]; intros t; [done|]. cbn [concat]. destruct t as [|t].
  - cbn [Nat.mul Nat.add]. rewrite lookup_app_l by lia. done.
  - rewrite lookup_app_r by lia. replace (S t * n + m - length l)%nat with (t * n + m)%nat by lia. apply IH.
Qed.

Lemma packed_value us m :
  length us = vpb → Forall (in_uint bpv) us → (m < vpb)%nat → us !! m = Some (field (pack_block bpv us) (bpv * Z.of_nat m) bpv).
Proof using Hw.
  intros Hl HF Hm. rewrite <- (unpack_pack bpv (bulk_of bpv) bulk_of_for us Hl HF) at 1. by apply unpack_lookup.
Qed.

(** Chunks that take the place of blocks. *)
Lemma blocks_represent q vs vss k :
  q_represents bpv q vs → Forall (λ c, length c = vpb ∧ Forall (fits 64 bpv) c) vss → (k * vpb + vpb * length vss ≤ length vs)%nat →
  (k + length vss ≤ length (q_blocks q))%nat →
  q_represents bpv (q_with_blocks q (splice k (packed_words bpv vss) (q_blocks q))) (splice (k * vpb) (concat vss) vs).
Proof using Hw.
  intros (Hsh & HF & Hst) Hvss Hk Hb. destruct per_block_facts as (Hq & Hn & Hle).
  assert (Hlen : Forall (λ c, length c = vpb) vss) by (eapply Forall_impl; [exact Hvss|]; by intros c [? _]).
  assert (Hpl : length (packed_words bpv vss) = length vss) by (unfold packed_words; by rewrite length_map).
  pose proof (concat_length vss vpb Hlen) as Hcl. unfold q_represents. rewrite splice_len by lia. split.
  { destruct Hsh. split; cbn; rewrite ?splice_len by lia; done. }
  split.
  { apply Forall_app. split; [by apply Forall_take|]. apply Forall_app. split; [|by apply Forall_drop].
    apply Forall_concat. eapply Forall_impl; [exact Hvss|]. by intros c [_ ?]. }
  intros i v. rewrite splice_lookup by lia. pose proof (Nat.mod_upper_bound i vpb ltac:(lia)) as Hm. pose proof (Nat.div_mod_eq i vpb) as Hd.
  unfold q_stored, q_words. cbn [q_blocks q_with_blocks]. case_bool_decide as Hi.
  - assert (Hkt : (k ≤ i / vpb)%nat) by (apply Nat.div_le_lower_bound; lia).
    replace (i - k * vpb)%nat with ((i / vpb - k) * vpb + i mod vpb)%nat by nia. rewrite (concat_lookup vss vpb) by done.
    intros (c & Hc & Hv)%bind_Some. apply lookup_lt_Some in Hc as Hlt. rewrite Forall_lookup in Hvss. destruct (Hvss _ _ Hc) as [Hcl' Hcf].
    assert (Hu : Forall (in_uint bpv) (map to_uint64 c)) by (by apply fits_range). assert (Hul : length (map to_uint64 c) = vpb) by (by rewrite length_map).
    exists (pack_block bpv (map to_uint64 c)). split.
    + apply list_lookup_fmap_Some. exists (to_int64 (pack_block bpv (map to_uint64 c))). split.
      { rewrite uwrap_swrap, uwrap_id; [done|apply (pack_range bpv (bulk_of bpv) bulk_of_for); done|lia]. }
      rewrite splice_lookup by lia. rewrite bool_decide_eq_true_2 by lia. apply list_lookup_fmap_Some. by exists c.
    + pose proof (packed_value _ (i mod vpb) Hul Hu Hm) as Hp. assert (Hp' : map to_uint64 c !! (i mod vpb)%nat = Some (to_uint64 v))
        by (apply list_lookup_fmap_Some; by exists v). rewrite Hp' in Hp. by injection Hp.
  - intros Hv. destruct (Hst i v Hv) as (u & Hu & Hf). exists u. split; [|done]. apply list_lookup_fmap_Some in Hu as (x & -> & Hx).
    apply list_lookup_fmap_Some. exists x. split; [done|]. apply lookup_lt_Some in Hx as Hlt. rewrite splice_lookup by lia.
    rewrite bool_decide_eq_false_2; [done|]. rewrite Hpl. intros [H1 H2]. apply Hi. split; nia.
Qed.

(** [it] chunks of a list. *)
Definition chunks (n it : nat) (l : list Z) : list (list Z) := map (λ t, slice (t * n) n l) (seq 0 it).

Lemma chunks_concat n it l : (it * n ≤ length l)%nat → concat (chunks n it l) = take (it * n) l.
Proof using.
  clear Hw. unfold chunks. induction it as [|it IH]; intros Hl; [done|]. rewrite seq_S, map_app, concat_app, IH by lia. cbn [map concat plus].
  rewrite app_nil_r. unfold slice. rewrite take_take_drop. f_equal. lia.
Qed.

Lemma chunks_fit n it l : Forall (fits 64 bpv) l → (it * n ≤ length l)%nat → Forall (λ c, length c = n ∧ Forall (fits 64 bpv) c) (chunks n it l).
Proof using.
  clear Hw. intros HF Hl. apply Forall_fmap, Forall_forall. intros t [_ Ht]%elem_of_seq. split; [apply slice_length; nia|by apply slice_Forall].
Qed.

Section Blocks.
Context (q : Packed64SingleBlock) (vs arr : list Z) (k it off : nat) (Hp : q_represents bpv q vs).
Context (Hi : (k * vpb + it * vpb ≤ length vs)%nat) (Ho : (off + it * vpb ≤ length arr)%nat).

Lemma q_blocks_room : (k + it ≤ length (q_blocks q))%nat.
Proof using Hw Hp Hi. destruct Hp as (Hsh & _). pose proof (qs_room _ _ _ Hsh). destruct per_block_facts as (_ & ? & _). clear Ho. nia. Qed.

Lemma q_decode_mid :
  s_DecodeLongs (E := E) (bulk_of bpv) (q_blocks q) (Z.of_nat k) arr (Z.of_nat off) (Z.of_nat it) =
  Ret (splice off (slice (k * vpb) (it * vpb) vs) arr).
Proof using Hw Hp Hi Ho.
  pose proof Hp as (Hsh & HF & Hst). pose proof q_blocks_room as Hr. destruct per_block_facts as (_ & Hn & _).
  set (xs := slice k it (q_blocks q)). assert (Hxs : length xs = it) by (by apply slice_length).
  pose proof (single_decode_words (E := E) bpv (bulk_of bpv) bulk_of_for xs) as Hmv. rewrite Hxs in Hmv.
  assert (Hlen : Forall (λ c, length c = vpb) (map (λ x, map to_int64 (unpack_block bpv (bulk_of bpv) (to_uint64 x))) xs)).
  { apply Forall_fmap, Forall_true. intros x. cbn. rewrite length_map, unpack_length. done. }
  assert (He : concat (map (λ x, map to_int64 (unpack_block bpv (bulk_of bpv) (to_uint64 x))) xs) = slice (k * vpb) (it * vpb) vs).
  { apply list_eq. intros i. destruct (decide (i < it * vpb)%nat) as [Hlt|].
    2: { rewrite !lookup_ge_None_2; [done|rewrite slice_length by lia; lia|rewrite (concat_length _ vpb Hlen), length_map, Hxs; lia]. }
    pose proof (Nat.mod_upper_bound i vpb ltac:(lia)) as Hm. pose proof (Nat.div_mod_eq i vpb) as Hd.
    rewrite slice_lookup by done. destruct (lookup_lt_is_Some_2 vs (k * vpb + i)) as [v Hv]; [lia|]. rewrite Hv.
    destruct (Hst _ _ Hv) as (u & Hu & Hf). replace (k * vpb + i)%nat with ((k + i / vpb) * vpb + i mod vpb)%nat in Hu, Hf by nia.
    destruct (block_pos (k + i / vpb) (i mod vpb) Hm) as [E1 E2]. rewrite E1 in Hu. rewrite E2 in Hf.
    apply list_lookup_fmap_Some in Hu as (x & -> & Hx).
    replace i with (i / vpb * vpb + i mod vpb)%nat at 1 by nia. rewrite (concat_lookup _ vpb) by done.
    assert (Hxi : xs !! (i / vpb)%nat = Some x) by (unfold xs; rewrite slice_lookup by (apply Nat.Div0.div_lt_upper_bound; lia); done).
    apply bind_Some. eexists. split; [apply list_lookup_fmap_Some; exists x; split; [reflexivity|exact Hxi]|].
    apply list_lookup_fmap_Some. eexists. split; [|by apply unpack_lookup]. rewrite Hf. symmetry. apply fits_back. by eapply Forall_lookup_1 in HF. }
  rewrite He in Hmv. apply (moves_splice _ k it off xs); [done|done|done|rewrite slice_length by lia; lia].
Qed.

Lemma q_encode_mid :
  Forall (fits 64 bpv) (slice off (it * vpb) arr) →
  ∃ blocks', s_EncodeLongsToLongs (E := E) (bulk_of bpv) arr (Z.of_nat off) (q_blocks q) (Z.of_nat k) (Z.of_nat it) = Ret blocks' ∧
    q_represents bpv (q_with_blocks q blocks') (splice (k * vpb) (slice off (it * vpb) arr) vs).
Proof using Hw Hp Hi Ho.
  intros Hfit. pose proof q_blocks_room as Hr. set (xs := slice off (it * vpb) arr) in *. assert (Hxs : length xs = (it * vpb)%nat) by (by apply slice_length).
  pose proof (chunks_fit vpb it xs Hfit ltac:(lia)) as Hvss. set (vss := chunks vpb it xs) in *.
  assert (Hc : concat vss = xs) by (unfold vss; rewrite chunks_concat, take_ge by lia; done).
  assert (Hl : length vss = it) by (unfold vss, chunks; by rewrite length_map, length_seq).
  assert (Hpl : length (packed_words bpv vss) = it) by (unfold packed_words; by rewrite length_map).
  destruct (single_words_roundtrip (E := E) bpv (bulk_of bpv) bulk_of_for vss Hvss) as [Hmv _]. rewrite Hc, Hl in Hmv.
  eexists. split; [apply (moves_splice _ off (it * vpb) k xs); [exact Hmv|done|done|lia]|].
  rewrite <- Hc. apply blocks_represent; [done|done|lia|lia].
Qed.
End Blocks.

(** ** Bulk operations *)

Lemma nblocks_eq k len : Z.quot (Z.of_nat (k * vpb) + Z.of_nat len) (Z.of_nat vpb) - Z.of_nat k = Z.of_nat (len / vpb) ∧ (len / vpb * vpb ≤ len)%nat.
Proof using Hw.
  destruct per_block_facts as (_ & Hn & _). rewrite <- Nat2Z.inj_add, quot_nat, Nat.add_comm, Nat.div_add by lia. split; [lia|].
  rewrite Nat.mul_comm. by apply Nat.Div0.mul_div_le.
Qed.

Lemma q_get_blocks_spec q vs arr k h off len :
  q_represents bpv q vs → (h ≤ k * vpb)%nat → (k * vpb + len ≤ length vs)%nat → (off + len ≤ length arr)%nat → (0 < h + len)%nat →
  ∃ n, (0 < h + n)%nat ∧ (n ≤ len)%nat ∧
    q_get_blocks (E := E) q (Z.of_nat (k * vpb - h)) arr (Z.of_nat off) (Z.of_nat (k * vpb)) (Z.of_nat len) =
    Ret (Z.of_nat (h + n), splice off (slice (k * vpb) n vs) arr).
Proof using Hw.
  intros Hp Hh Hi Ho Hpos. pose proof Hp as (Hsh & _). destruct per_block_facts as (Hq & Hn & _). unfold q_get_blocks.
  rewrite (qs_bits _ _ _ Hsh), (qs_per _ _ _ Hsh), Hq, bulk_of_single, go_bind_ret, quot_nat, Nat.div_mul by lia. cbn zeta.
  destruct (nblocks_eq k len) as [-> Hle]. set (it := (len / vpb)%nat) in *.
  rewrite (q_decode_mid q vs arr k it off Hp) by lia. rewrite go_bind_ret.
  destruct (Z.ltb_spec (Z.of_nat (k * vpb - h)) (Z.of_nat (k * vpb) + Z.of_nat it * Z.of_nat vpb)).
  - exists (it * vpb)%nat. split_and!; [lia|done|]. unfold mret, go_ret. pairs.
  - assert (it * vpb = 0 ∧ h = 0)%nat as [E0 ->] by lia. exists len. split_and!; [lia|done|]. rewrite E0.
    change (slice (k * vpb) 0 vs) with (@nil Z). rewrite splice_nil by lia.
    replace (Z.of_nat (k * vpb) + Z.of_nat it * Z.of_nat vpb) with (Z.of_nat (k * vpb)) by lia.
    replace (Z.of_nat len - Z.of_nat it * Z.of_nat vpb) with (Z.of_nat len) by lia.
    rewrite (readerBulkGet_spec q_Get q_valueCount (q_represents bpv) q_Get_spec q_size_spec q vs _ _ _ _ len) by (done || lia). done.
Qed.

Lemma q_set_blocks_spec q vs arr k h off len :
  q_represents bpv q vs → (h ≤ k * vpb)%nat → (k * vpb + len ≤ length vs)%nat → (off + len ≤ length arr)%nat → (0 < h + len)%nat →
  Forall (fits 64 bpv) (slice off len arr) →
  ∃ n q', (0 < h + n)%nat ∧ (n ≤ len)%nat ∧
    q_set_blocks (E := E) q (Z.of_nat (k * vpb - h)) arr (Z.of_nat off) (Z.of_nat (k * vpb)) (Z.of_nat len) = Ret (Z.of_nat (h + n), q') ∧
    q_represents bpv q' (splice (k * vpb) (slice off n arr) vs).
Proof using Hw.
  intros Hp Hh Hi Ho Hpos Hfit. pose proof Hp as (Hsh & _). destruct per_block_facts as (Hq & Hn & _). unfold q_set_blocks.
  rewrite (qs_bits _ _ _ Hsh), (qs_per _ _ _ Hsh), Hq, bulk_of_single, go_bind_ret, quot_nat, Nat.div_mul by lia. cbn zeta.
  destruct (nblocks_eq k len) as [-> Hle]. set (it := (len / vpb)%nat) in *.
  assert (Hfit' : Forall (fits 64 bpv) (slice off (it * vpb) arr)).
  { rewrite <- (Nat.add_0_r off). rewrite <- (slice_of_slice off len 0) by lia. by apply slice_Forall. }
  destruct (q_encode_mid q vs arr k it off Hp) as (blocks' & -> & Hp'); [lia|lia|done|]. rewrite go_bind_ret. cbn [q_valuesPerBlock q_with_blocks].
  rewrite (qs_per _ _ _ Hsh), Hq. destruct (Z.ltb_spec (Z.of_nat (k * vpb - h)) (Z.of_nat (k * vpb) + Z.of_nat it * Z.of_nat vpb)).
  - exists (it * vpb)%nat. eexists. split_and!; [lia|done| |exact Hp']. unfold mret, go_ret. pairs.
  - assert (it * vpb = 0 ∧ h = 0)%nat as [E0 ->] by lia. rewrite E0 in Hp'. change (slice off 0 arr) with (@nil Z) in Hp'.
    rewrite splice_nil in Hp' by lia.
    replace (Z.of_nat (k * vpb) + Z.of_nat it * Z.of_nat vpb) with (Z.of_nat (k * vpb)) by lia.
    replace (Z.of_nat len - Z.of_nat it * Z.of_nat vpb) with (Z.of_nat len) by lia.
    destruct (mutableBulkSet_spec q_Set q_valueCount (q_represents bpv) (fits 64 bpv) q_Set_spec q_size_spec _ vs (k * vpb) arr off (Z.of_nat len) len Hp')
      as (q' & HS & Hr); try done; try lia. exists len, q'. split_and!; [lia|done|exact HS|exact Hr].
Qed.

Lemma q_GetBulk_spec q vs index arr off len :
  q_represents bpv q vs → (index < length vs)%nat → (0 < len)%nat → (off + len ≤ length arr)%nat →
  ∃ n, (0 < n ≤ len ∧ index + n ≤ length vs)%nat ∧
    q_GetBulk (E := E) q (Z.of_nat index) arr (Z.of_nat off) (Z.of_nat len) = Ret (Z.of_nat n, splice off (slice index n vs) arr).
Proof using Hw.
  intros Hp Hi Hlen Ho. pose proof Hp as (Hsh & _). destruct per_block_facts as (Hq & Hn & _). unfold q_GetBulk.
  rewrite (proj2 (Z.leb_gt _ _)), (qs_per _ _ _ Hsh), Hq by lia.
  apply (get_aligned_spec q_Get q_valueCount (q_represents bpv) q_Get_spec q_size_spec q vs vpb); try done; try lia.
  intros. by apply q_get_blocks_spec.
Qed.

Lemma q_SetBulk_spec q vs index arr off len :
  q_represents bpv q vs → (index < length vs)%nat → (0 < len)%nat → (off + len ≤ length arr)%nat → Forall (fits 64 bpv) (slice off len arr) →
  ∃ n q', (0 < n ≤ len ∧ index + n ≤ length vs)%nat ∧
    q_SetBulk (E := E) q (Z.of_nat index) arr (Z.of_nat off) (Z.of_nat len) = Ret (Z.of_nat n, q') ∧
    q_represents bpv q' (splice index (slice off n arr) vs).
Proof using Hw.
  intros Hp Hi Hlen Ho Hfit. pose proof Hp as (Hsh & _). destruct per_block_facts as (Hq & Hn & _). unfold q_SetBulk.
  rewrite (proj2 (Z.leb_gt _ _)), (qs_per _ _ _ Hsh), Hq by lia.
  apply (set_aligned_spec q_Set q_valueCount (q_represents bpv) (fits 64 bpv) q_Set_spec q_size_spec q vs vpb); try done; try lia.
  intros. by apply q_set_blocks_spec.
Qed.

(** ** Filling *)

Lemma concat_replicate {A} (x : A) n k : concat (replicate k (replicate n x)) = replicate (k * n) x.
Proof using. clear Hw. induction k as [|k IH]; [done|]. cbn [replicate concat Nat.mul]. by rewrite IH, replicate_add. Qed.

(** A block full of one value. *)
Lemma block_value val :
  fits 64 bpv val →
  go_for (E := E) vpb 0 (fun i blockValue => mret (Z.lor blockValue (shl64 (to_uint64 val) (to_uint64 (i * bpv))))) 0 =
  Ret (pack_block bpv (replicate vpb (to_uint64 val))).
Proof using Hw.
  intros [_ Hv]. destruct per_block_facts as (_ & Hn & Hle).
  destruct (go_for_inv (E := E) (fun i u => u = join bpv (replicate (Z.to_nat i) (to_uint64 val))) vpb 0
    (fun i blockValue => mret (Z.lor blockValue (shl64 (to_uint64 val) (to_uint64 (i * bpv))))) 0) as (u & -> & ->).
  - done.
  - intros i s Hi ->. eexists. split; [done|]. replace (Z.to_nat (i + 1)) with (S (Z.to_nat i)) by lia. cbn [replicate join]. rewrite length_replicate.
    destruct (shift_small (Z.to_nat i)) as [Hs H64]; [lia|]. rewrite Z2Nat.id in Hs, H64 |- * by lia. rewrite Hs.
    assert (Hr : in_uint (bpv * i) (join bpv (replicate (Z.to_nat i) (to_uint64 val)))).
    { pose proof (join_range bpv ltac:(lia) (replicate (Z.to_nat i) (to_uint64 val)) ltac:(by apply Forall_replicate)) as Hr.
      by rewrite length_replicate, Z2Nat.id in Hr by lia. }
    unfold shl. rewrite (uwrap_id 64 (Z.shiftl (to_uint64 val) (bpv * i))); [apply lor_above; [lia|done]|]. unfold in_uint in *. rewrite Z.shiftl_mul_pow2 by lia.
    pose proof (pow2_pos (bpv * i) ltac:(lia)). pose proof (Z.pow_le_mono_r 2 (bpv + bpv * i) 64 ltac:(lia) ltac:(lia)) as Hpw.
    rewrite Z.pow_add_r in Hpw by lia. nia.
  - unfold pack_block. rewrite reverse_replicate. do 3 f_equal. lia.
Qed.

Lemma repeat_blocks n start x (blocks : list Z) :
  (start + n ≤ length blocks)%nat →
  go_for (E := E) n (Z.of_nat start) (fun i blocks => aset blocks i x) blocks = Ret (splice start (replicate n x) blocks).
Proof using.
  clear Hw. intros Hl. destruct (fill_loop (E := E) (fun (m : list Z) i v => aset m i v) (λ s vs, s = vs) (λ _, True)) with (n := n) (index := start) (val := x)
    (s := blocks) (vs := blocks) as (s' & -> & ->); try done.
  intros s vs i v -> Hi _. exists (<[i := v]> vs). split; [|done]. rewrite aset_splice, splice_one by done. done.
Qed.

Lemma q_Fill_spec q vs (from_ to_ : nat) val :
  q_represents bpv q vs → (from_ ≤ to_ ≤ length vs)%nat → fits 64 bpv val →
  ∃ q', q_Fill (E := E) q (Z.of_nat from_) (Z.of_nat to_) val = Ret q' ∧ q_represents bpv q' (splice from_ (replicate (to_ - from_) val) vs).
Proof using Hw.
  intros Hp Ht Hval. pose proof Hp as (Hsh & _). destruct per_block_facts as (Hq & Hn & _). unfold q_Fill.
  rewrite (qs_per _ _ _ Hsh), Hq. rewrite Z.shiftl_mul_pow2 by lia. change (2 ^ 1) with 2.
  destruct (Z.leb_spec (Z.of_nat to_ - Z.of_nat from_) (Z.of_nat vpb * 2)) as [|Hspan].
  { apply (mutableFill_spec q_Set (q_represents bpv) (fits 64 bpv) q_Set_spec); done. }
  rewrite (rem_nat from_ vpb) by lia. cbn zeta.
  destruct (fill_start q_Set (q_represents bpv) (fits 64 bpv) q_Set_spec q vs val from_ vpb Hp) as (q1 & k & h & -> & [Hk Hh] & Hp1); [lia|lia|done|].
  rewrite go_bind_ret. assert (Hl1 : length (splice from_ (replicate h val) vs) = length vs) by (apply splice_len; rewrite length_replicate; lia).
  pose proof Hp1 as (Hsh1 & _). rewrite Hl1 in Hsh1. rewrite (qs_per _ _ _ Hsh1), (qs_bits _ _ _ Hsh1), Hq, Nat2Z.id, block_value, go_bind_ret by done.
  rewrite !quot_nat, Nat.div_mul by lia. set (e1 := (to_ / vpb)%nat).
  assert (He1 : (e1 * vpb ≤ to_)%nat) by (unfold e1; rewrite Nat.mul_comm; apply Nat.Div0.mul_div_le).
  assert (Hke : (k ≤ e1)%nat) by (apply Nat.div_le_lower_bound; lia).
  pose proof (qs_room _ _ _ Hsh1) as Hroom. assert (Hroom1 : (e1 ≤ length (q_blocks q1))%nat) by nia.
  replace (Z.to_nat (Z.of_nat e1 - Z.of_nat k)) with (e1 - k)%nat by lia. rewrite repeat_blocks, go_bind_ret by lia.
  set (vss := replicate (e1 - k) (replicate vpb val)).
  assert (Hwd : replicate (e1 - k) (to_int64 (pack_block bpv (replicate vpb (to_uint64 val)))) = packed_words bpv vss).
  { unfold packed_words, vss. change (map ?f ?l) with (f <$> l). rewrite fmap_replicate. do 3 f_equal. change (map ?f ?l) with (f <$> l).
    by rewrite fmap_replicate. }
  assert (Hvss : Forall (λ c, length c = vpb ∧ Forall (fits 64 bpv) c) vss).
  { apply Forall_replicate. split; [apply length_replicate|by apply Forall_replicate]. }
  assert (Hvl : length vss = (e1 - k)%nat) by apply length_replicate.
  pose proof (blocks_represent q1 _ vss k Hp1 Hvss ltac:(rewrite Hl1, Hvl; nia) ltac:(lia)) as Hp2.
  unfold vss in Hp2. rewrite concat_replicate in Hp2. fold vss in Hp2. rewrite Hwd. cbn [q_valuesPerBlock q_with_blocks]. rewrite (qs_per _ _ _ Hsh1), Hq.
  replace (Z.of_nat vpb * Z.of_nat e1) with (Z.of_nat (vpb * e1)) by lia. replace (Z.to_nat (Z.of_nat to_ - Z.of_nat (vpb * e1))) with (to_ - vpb * e1)%nat by lia.
  destruct (fill_loop q_Set (q_represents bpv) (fits 64 bpv) q_Set_spec (to_ - vpb * e1) (vpb * e1) val _ _ Hp2) as (q' & -> & Hp').
  { rewrite splice_len by (rewrite length_replicate, Hl1; nia). rewrite Hl1. lia. }
  { done. }
  exists q'. split; [done|]. rewrite Hk in Hp'.
  rewrite <- (length_replicate h val) in Hp' at 1. rewrite splice_app, <- replicate_add in Hp' by (rewrite !length_replicate; nia).
  replace (vpb * e1)%nat with (from_ + length (replicate (h + (e1 - k) * vpb) val))%nat in Hp' at 1 by (rewrite length_replicate; nia).
  rewrite splice_app, <- replicate_add in Hp' by (rewrite !length_replicate; nia).
  by replace (h + (e1 - k) * vpb + (to_ - vpb * e1))%nat with (to_ - from_)%nat in Hp' by nia.
Qed.

(** ** Zeros *)

Lemma q_zeros q n blocks :
  q_shaped bpv q n → length blocks = length (q_blocks q) → Forall (eq 0) blocks → q_represents bpv (q_with_blocks q blocks) (replicate n 0).
Proof using Hw.
  intros [Hc Hbits Hw' Hper Hmask Hroom] Hl HZ. unfold q_represents. rewrite length_replicate.
  split; [by split; cbn; rewrite ?Hl|]. split; [apply Forall_replicate, fits_zero; lia|].
  intros i v [-> Hi]%lookup_replicate_1. destruct per_block_facts as (_ & Hn & _). exists 0. split.
  - destruct (lookup_lt_is_Some_2 blocks (i / vpb)) as [x Hx]; [rewrite Hl; apply Nat.Div0.div_lt_upper_bound; lia|].
    apply list_lookup_fmap_Some. exists x. split; [|done]. rewrite Forall_lookup in HZ. by rewrite <- (HZ _ _ Hx).
  - apply bits_ext. intros j Hj. rewrite field_testbit by nia. change (to_uint64 0) with 0. rewrite !Z.bits_0. by rewrite andb_false_r.
Qed.

Lemma q_Clear_spec q vs : q_represents bpv q vs → ∃ q', q_Clear (E := E) q = Ret q' ∧ q_represents bpv q' (replicate (length vs) 0).
Proof using Hw.
  intros (Hsh & _). eexists. split; [done|]. apply q_zeros; [done|by rewrite length_map|]. apply Forall_fmap, Forall_true. done.
Qed.

Lemma newPacked64SingleBlock_spec (n : nat) :
  packed64SingleBlockIsSupported bpv = true →
  ∃ q, newPacked64SingleBlock (E := E) (Z.of_nat n) bpv = Ret q ∧ q_represents bpv q (replicate n 0).
Proof using Hw.
  intros Hs. destruct per_block_facts as (Hq & Hn & _). unfold newPacked64SingleBlock. rewrite Hs. cbn [negb]. rewrite Hq, quot_nat, rem_nat by lia. cbn zeta.
  set (extra := if Z.of_nat (n mod vpb) =? 0 then 0 else 1). assert (He : 0 ≤ extra) by (unfold extra; destruct (_ =? _); lia).
  assert (Hroom : (n ≤ vpb * (n / vpb + Z.to_nat extra))%nat).
  { pose proof (Nat.div_mod_eq n vpb). pose proof (Nat.mod_upper_bound n vpb ltac:(lia)). unfold extra.
    destruct (Z.eqb_spec (Z.of_nat (n mod vpb)) 0); nia. }
  rewrite (proj2 (Z.ltb_ge _ _)) by lia. eexists. split; [done|].
  match goal with |- q_represents _ ?q _ => change q with (q_with_blocks q (q_blocks q)) end. apply q_zeros; [|done|by apply Forall_replicate].
  split; cbn; try done; [apply (sf_mask _ _ bulk_of_for)|]. rewrite length_replicate. replace (Z.to_nat (Z.of_nat (n / vpb) + extra)) with (n / vpb + Z.to_nat extra)%nat by lia. done.
Qed.
End Array.

(** * The array keeps what the interface promises *)

Section Laws.
Context {E : Type}.

Lemma q_width bpv q vs : q_represents bpv q vs → 1 ≤ bpv ≤ 32.
Proof using. intros (Hsh & _). apply (qs_width _ _ _ Hsh). Qed.

#[export] Instance Packed64SingleBlock_laws : MutableLaws (Packed64SingleBlock_ops (E := E)).
Proof using.
  refine {| represents := q_represents |}.
  - intros bpv q vs. apply q_size_spec.
  - intros bpv q vs i v Hq. pose proof (q_width _ _ _ Hq). by apply (q_Get_spec bpv).
  - intros bpv q vs i v Hq. pose proof (q_width _ _ _ Hq). by apply (q_Set_spec bpv).
  - intros bpv q vs index arr off len Hq. pose proof (q_width _ _ _ Hq). by apply (q_GetBulk_spec bpv).
  - intros bpv q vs index arr off len Hq. pose proof (q_width _ _ _ Hq). by apply (q_SetBulk_spec bpv).
  - intros bpv q vs from_ to_ v Hq. pose proof (q_width _ _ _ Hq). by apply (q_Fill_spec bpv).
  - intros bpv q vs Hq. pose proof (q_width _ _ _ Hq). by apply (q_Clear_spec bpv).
Defined.
End Laws.
