(* ===== verification/GetMutable.v ===== *)
(** Arrays of packed integers of either format: [GetMutableForFormat] of [util/packed/packed_ints.go].

    The arrays of both formats keep the laws of the interface, so the theorems about sequences of
    operations and about [Copy] hold for what [GetMutableForFormat] returns, and between formats. *)

From stdpp Require Import base tactics numbers list.
From Stdlib Require Import ZArith Lia.
From S2P Require Import Prelude Digits BulkOperation PackedMutable Packed64 PackedSingle PackedSingleArray.

Local Open Scope Z_scope.

(** What implements the interface [Mutable]. *)
Inductive Mutable :=
  | APacked64 (p : Packed64)
  | APacked64SingleBlock (q : Packed64SingleBlock).

Section Mutables.
Context {E : Type}.
Local Abbreviation G := (go E).

Definition GetMutableForFormat (valueCount bitsPerValue : Z) (format : Format) : G Mutable :=
  if valueCount <? 0 then Panic else
  match format with
  | FormatPackedSingleBlock => q ← newPacked64SingleBlock valueCount bitsPerValue; Ret (APacked64SingleBlock q)
  | FormatPacked => p ← newPacked64 valueCount bitsPerValue; Ret (APacked64 p)
  end.

Definition BitsPerValueOf (m : Mutable) : Z :=
  match m with APacked64 p => p_bitsPerValue p | APacked64SingleBlock q => q_bitsPerValue q end.
Definition GetFormat (m : Mutable) : Format :=
  match m with APacked64 _ => FormatPacked | APacked64SingleBlock _ => FormatPackedSingleBlock end.

(** A call of the interface is a call of the implementation. *)
#[export] Instance Mutable_ops : MutableOps E Mutable := {
  Size m := match m with APacked64 p => Size (E := E) p | APacked64SingleBlock q => Size (E := E) q end;
  Get m i := match m with APacked64 p => Get p i | APacked64SingleBlock q => Get q i end;
  SetAt m i v := match m with
    | APacked64 p => p ← SetAt p i v; Ret (APacked64 p)
    | APacked64SingleBlock q => q ← SetAt q i v; Ret (APacked64SingleBlock q) end;
  GetBulk m i arr off len := match m with APacked64 p => GetBulk p i arr off len | APacked64SingleBlock q => GetBulk q i arr off len end;
  SetBulk m i arr off len := match m with
    | APacked64 p => '(n, p) ← SetBulk p i arr off len; Ret (n, APacked64 p)
    | APacked64SingleBlock q => '(n, q) ← SetBulk q i arr off len; Ret (n, APacked64SingleBlock q) end;
  Fill m a b v := match m with
    | APacked64 p => p ← Fill p a b v; Ret (APacked64 p)
    | APacked64SingleBlock q => q ← Fill q a b v; Ret (APacked64SingleBlock q) end;
  Clear m := match m with
    | APacked64 p => p ← Clear p; Ret (APacked64 p)
    | APacked64SingleBlock q => q ← Clear q; Ret (APacked64SingleBlock q) end
}.

Definition m_represents (bpv : Z) (m : Mutable) (vs : list Z) : Prop :=
  match m with APacked64 p => p_represents bpv p vs | APacked64SingleBlock q => q_represents bpv q vs end.

#[export] Instance Mutable_laws : MutableLaws Mutable_ops.
Proof using.
  refine {| represents := m_represents |}.
  - intros bpv [p|q] vs H; [exact (Size_law (MutableLaws := Packed64_laws (E := E)) bpv p vs H)|
      exact (Size_law (MutableLaws := Packed64SingleBlock_laws (E := E)) bpv q vs H)].
  - intros bpv [p|q] vs i v H Hv; [exact (Get_law (MutableLaws := Packed64_laws (E := E)) bpv p vs i v H Hv)|
      exact (Get_law (MutableLaws := Packed64SingleBlock_laws (E := E)) bpv q vs i v H Hv)].
  - intros bpv [p|q] vs i v H Hi Hv; cbn [SetAt Mutable_ops].
    + destruct (SetAt_law (MutableLaws := Packed64_laws (E := E)) bpv p vs i v H Hi Hv) as (p' & -> & Hp'). by exists (APacked64 p').
    + destruct (SetAt_law (MutableLaws := Packed64SingleBlock_laws (E := E)) bpv q vs i v H Hi Hv) as (q' & -> & Hq'). by exists (APacked64SingleBlock q').
  - intros bpv [p|q] vs index arr off len H; [exact (GetBulk_law (MutableLaws := Packed64_laws (E := E)) bpv p vs index arr off len H)|
      exact (GetBulk_law (MutableLaws := Packed64SingleBlock_laws (E := E)) bpv q vs index arr off len H)].
  - intros bpv [p|q] vs index arr off len H H1 H2 H3 H4; cbn [SetBulk Mutable_ops].
    + destruct (SetBulk_law (MutableLaws := Packed64_laws (E := E)) bpv p vs index arr off len H H1 H2 H3 H4) as (n & p' & Hn & -> & Hp'). by exists n, (APacked64 p').
    + destruct (SetBulk_law (MutableLaws := Packed64SingleBlock_laws (E := E)) bpv q vs index arr off len H H1 H2 H3 H4) as (n & q' & Hn & -> & Hq').
      by exists n, (APacked64SingleBlock q').
  - intros bpv [p|q] vs from_ to_ v H H1 H2; cbn [Fill Mutable_ops].
    + destruct (Fill_law (MutableLaws := Packed64_laws (E := E)) bpv p vs from_ to_ v H H1 H2) as (p' & -> & Hp'). by exists (APacked64 p').
    + destruct (Fill_law (MutableLaws := Packed64SingleBlock_laws (E := E)) bpv q vs from_ to_ v H H1 H2) as (q' & -> & Hq'). by exists (APacked64SingleBlock q').
  - intros bpv [p|q] vs H; cbn [Clear Mutable_ops].
    + destruct (Clear_law (MutableLaws := Packed64_laws (E := E)) bpv p vs H) as (p' & -> & Hp'). by exists (APacked64 p').
    + destruct (Clear_law (MutableLaws := Packed64SingleBlock_laws (E := E)) bpv q vs H) as (q' & -> & Hq'). by exists (APacked64SingleBlock q').
Defined.

(** A new array holds zeros. *)
Lemma GetMutableForFormat_spec (n : nat) bpv format :
  IsSupported format bpv = true → bpv * Z.of_nat n + 7 < 2 ^ 63 →
  ∃ m, GetMutableForFormat (Z.of_nat n) bpv format = Ret m ∧ represents bpv m (replicate n 0) ∧ GetFormat m = format.
Proof using.
  intros Hs Hn. unfold GetMutableForFormat. rewrite (proj2 (Z.ltb_ge _ _)) by lia. destruct format; cbn [IsSupported] in Hs.
  - rewrite andb_true_iff, !Z.leb_le in Hs. destruct (newPacked64_spec (E := E) bpv n Hs Hn) as (p & -> & Hp). by exists (APacked64 p).
  - assert (Hw : 1 ≤ bpv ≤ 32).
    { unfold packed64SingleBlockIsSupported in Hs. apply existsb_exists in Hs as (b & Hb & <-%Z.eqb_eq).
      unfold packed64SingleBlockSupported in Hb. cbn [In] in Hb. lia. }
    destruct (newPacked64SingleBlock_spec (E := E) bpv Hw n Hs) as (q & -> & Hq). by exists (APacked64SingleBlock q).
Qed.
End Mutables.

(** C12. A mutable array of either format is a list of values: whatever is done to a new one with [Set], [SetBulk], [Fill] and
    [Clear], in range and with values that fit, it does not panic, and [Get] and [GetBulk] read what the same operations do
    to a list, whether or not values lie across the boundaries of blocks. *)
Theorem mutable_refines {E} (bpv : Z) (n : nat) (format : Format) (ops : list mutable_op)
    (Hb : IsSupported format bpv = true) (Hn : bpv * Z.of_nat n + 7 < 2 ^ 63) (Hops : Forall (op_valid bpv n) ops) :
  ∃ m0 m vs, GetMutableForFormat (E := E) (Z.of_nat n) bpv format = Ret m0 ∧ run_mutable (E := E) m0 ops = Ret m ∧
    list_steps ops (replicate n 0) vs ∧ length vs = n ∧ reads (E := E) m vs.
Proof.
  destruct (GetMutableForFormat_spec (E := E) n bpv format Hb Hn) as (m0 & H0 & Hm0 & _).
  destruct (run_mutable_refines (L := Mutable_laws (E := E)) bpv ops m0 _ Hm0) as (m & vs & Hr & Hm & Hst & Hl); [by rewrite length_replicate|].
  rewrite length_replicate in Hl. exists m0, m, vs. split_and!; [done|done|done|done|]. by apply (represents_reads (L := Mutable_laws) bpv).
Qed.

Lemma mutable_refines_witness :
  ∃ m0 m vs, GetMutableForFormat (E := unit) 70 12 FormatPacked = Ret m0 ∧
    run_mutable (E := unit) m0 [OpFill 1 69 7; OpSet 5 4095; OpSetBulk 30 (seqZ 0 20) 0 20] = Ret m ∧
    list_steps [OpFill 1 69 7; OpSet 5 4095; OpSetBulk 30 (seqZ 0 20) 0 20] (replicate 70 0) vs ∧ length vs = 70%nat ∧ reads (E := unit) m vs.
Proof.
  apply (mutable_refines 12 70 FormatPacked [OpFill 1 69 7; OpSet 5 4095; OpSetBulk 30 (seqZ 0 20) 0 20]); [reflexivity|lia|].
  assert (Hf : ∀ v, 0 ≤ v < 4096 → fits 64 12 v).
  { intros v Hv. unfold fits, in_sint, in_uint, uwrap. rewrite Z.mod_small by lia. lia. }
  repeat constructor; cbn [op_valid]; try lia; try (apply Hf; lia).
Defined.

(** C13. [Copy] copies: between any two implementations of the interface, through a buffer of any size or none, the
    values of the range are afterwards in the destination and nothing else has changed there.  That the bulk
    operations move fewer values than they are asked to does no harm, and the loops end. *)
Theorem Copy_correct {E S D} {OS : MutableOps E S} {OD : MutableOps E D} {LS : MutableLaws OS} {LD : MutableLaws OD}
    (bpv bpv' : Z) (src : S) (dest : D) (vs ws : list Z) (srcPos destPos length_ : nat) (mem : Z)
    (Hsrc : represents bpv src vs) (Hdest : represents bpv' dest ws)
    (Hfit : Forall (fits 64 bpv') (slice srcPos length_ vs))
    (Hs : (srcPos + length_ ≤ length vs)%nat) (Hd : (destPos + length_ ≤ length ws)%nat) (Hmem : 0 ≤ mem) :
  ∃ dest', Copy src (Z.of_nat srcPos) dest (Z.of_nat destPos) (Z.of_nat length_) mem = Ret dest' ∧
    represents bpv' dest' (splice destPos (slice srcPos length_ vs) ws).
Proof. by apply (Copy_copies bpv bpv' src vs ws srcPos destPos length_ Hsrc Hfit Hs Hd). Qed.

(** From an array without gaps to one of 21 bits. *)
Lemma Copy_correct_witness :
  ∃ src dest dest', GetMutableForFormat (E := unit) 50 12 FormatPacked = Ret src ∧
    GetMutableForFormat (E := unit) 40 21 FormatPackedSingleBlock = Ret dest ∧
    Copy (E := unit) src 10 dest 5 30 64 = Ret dest' ∧
    m_represents 21 dest' (splice 5 (slice 10 30 (replicate 50 0)) (replicate 40 0)).
Proof.
  destruct (GetMutableForFormat_spec (E := unit) 50 12 FormatPacked eq_refl ltac:(lia)) as (src & H1 & Hsrc & _).
  destruct (GetMutableForFormat_spec (E := unit) 40 21 FormatPackedSingleBlock eq_refl ltac:(lia)) as (dest & H2 & Hdest & _).
  destruct (Copy_correct (LS := Mutable_laws (E := unit)) (LD := Mutable_laws (E := unit)) 12 21 src dest _ _ 10 5 30 64 Hsrc Hdest) as (dest' & H3 & H4).
  - apply slice_Forall, Forall_replicate, fits_zero. lia.
  - rewrite length_replicate. lia.
  - rewrite length_replicate. lia.
  - lia.
  - exists src, dest, dest'. split; [exact H1|]. split; [exact H2|]. split; [exact H3|exact H4].
Defined.
