(* ===== verification/BulkInterface.v ===== *)
(** Bulk operations behind their interface: [BulkOperation] of [util/packed/packed_ints.go] and
    [BulkOperationOf] of [util/packed/bulk_operation.go].

    [BulkLaws] is what a client that goes over bytes may rely on: a number of values has an image in
    bytes ([encoded]) that the encoder writes and the decoder reads back, whole iterations have images
    that lie after each other, and zeros at the end are zeros in the image, beyond the bytes that
    [ByteCount] counts.  Both formats have these laws. *)

From stdpp Require Import base tactics numbers list strings.
From Stdlib Require Import ZArith Lia.
From S2P Require Import Prelude Digits BulkOperation PackedMutable Packed64 PackedSingle PackedSingleArray.

Local Open Scope Z_scope.

(** * The interface *)

Local Abbreviation operation := (list Z → Z → list Z → Z → Z → M (list Z)).

Record BulkOperation := {
  op_LongBlockCount : Z;
  op_LongValueCount : Z;
  op_ByteBlockCount : Z;
  op_ByteValueCount : Z;
  op_ComputeIterations : Z → Z → Z;
  op_DecodeLongs : operation;
  op_DecodeBytes : operation;
  op_DecodeLongsToInts : operation;
  op_DecodeBytesToInts : operation;
  op_EncodeLongsToLongs : operation;
  op_EncodeIntsToLongs : operation;
  op_EncodeLongsToBytes : operation;
  op_EncodeIntsToBytes : operation
}.

Definition packed_operation (b : bulkOperationPacked) : BulkOperation := {|
  op_LongBlockCount := longBlockCount b; op_LongValueCount := longValueCount b;
  op_ByteBlockCount := byteBlockCount b; op_ByteValueCount := byteValueCount b;
  op_ComputeIterations := ComputeIterations b;
  op_DecodeLongs := DecodeLongs b; op_DecodeBytes := DecodeBytes b;
  op_DecodeLongsToInts := DecodeLongsToInts b; op_DecodeBytesToInts := DecodeBytesToInts b;
  op_EncodeLongsToLongs := EncodeLongsToLongs b; op_EncodeIntsToLongs := EncodeIntsToLongs b;
  op_EncodeLongsToBytes := EncodeLongsToBytes b; op_EncodeIntsToBytes := EncodeIntsToBytes b
|}.

Definition single_operation (b : bulkOperationPackedSingleBlock) : BulkOperation := {|
  op_LongBlockCount := s_LongBlockCount; op_LongValueCount := s_valueCount b;
  op_ByteBlockCount := s_ByteBlockCount; op_ByteValueCount := s_valueCount b;
  op_ComputeIterations := s_ComputeIterations b;
  op_DecodeLongs := s_DecodeLongs b; op_DecodeBytes := s_DecodeBytes b;
  op_DecodeLongsToInts := s_DecodeLongsToInts b; op_DecodeBytesToInts := s_DecodeBytesToInts b;
  op_EncodeLongsToLongs := s_EncodeLongsToLongs b; op_EncodeIntsToLongs := s_EncodeIntsToLongs b;
  op_EncodeLongsToBytes := s_EncodeLongsToBytes b; op_EncodeIntsToBytes := s_EncodeIntsToBytes b
|}.

Definition BulkOperationOf (format : Format) (bitsPerValue : Z) : M BulkOperation :=
  match format with
  | FormatPacked =>
      if (bitsPerValue <? 1) || (64 <? bitsPerValue) then Err (Errorf "packed: bitsPerValue out of range for PACKED") else
      b ← newBulkOperationPacked bitsPerValue; Ret (packed_operation b)
  | FormatPackedSingleBlock =>
      if negb (packed64SingleBlockIsSupported bitsPerValue) then Err (Errorf "packed: bitsPerValue not supported by PACKED_SINGLE_BLOCK") else
      b ← newBulkOperationPackedSingleBlock bitsPerValue; Ret (single_operation b)
  end.

(** * What a client relies on *)

Class BulkLaws (format : Format) (bpv : Z) (op : BulkOperation) := {
  blocks_per : nat;
  values_per : nat;
  counts_law : op_ByteBlockCount op = Z.of_nat blocks_per ∧ op_ByteValueCount op = Z.of_nat values_per ∧
    (0 < blocks_per)%nat ∧ (0 < values_per)%nat;
  iterations_law n mem : op_ComputeIterations op n mem = computeIterations (op_ByteBlockCount op) (op_ByteValueCount op) n mem;
  (** the bytes of some values, and the number of bytes of [n] values *)
  encoded : list Z → list Z;
  bytes_of : nat → nat;
  encoded_length vs it : length vs = (it * values_per)%nat → length (encoded vs) = (it * blocks_per)%nat;
  encoded_bytes vs : Forall is_byte (encoded vs);
  encode_law vs it : length vs = (it * values_per)%nat → Forall (fits 64 bpv) vs →
    moves (op_EncodeLongsToBytes op) vs (encoded vs) (Z.of_nat it);
  decode_law vs it : length vs = (it * values_per)%nat → Forall (fits 64 bpv) vs →
    moves (op_DecodeBytes op) (encoded vs) vs (Z.of_nat it);
  encoded_app us vs i j : length us = (i * values_per)%nat → length vs = (j * values_per)%nat →
    Forall (fits 64 bpv) vs → encoded (us ++ vs) = encoded us ++ encoded vs;
  encoded_tail vs z it : (length vs + z = it * values_per)%nat → Forall (λ b, b = 0) (drop (bytes_of (length vs)) (encoded (vs ++ replicate z 0)));
  ByteCount_law version n : bpv * Z.of_nat n + 7 < 2 ^ 63 → ByteCount (E := goerr) format version (Z.of_nat n) bpv = Ret (Z.of_nat (bytes_of n));
  bytes_add it n : bytes_of (it * values_per + n) = (it * blocks_per + bytes_of n)%nat;
  bytes_mono n n' : (n ≤ n')%nat → (bytes_of n ≤ bytes_of n')%nat;
  bytes_none : bytes_of 0 = 0%nat
}.

(** * Values that lie bit after bit *)

Section Packed.
Context (bpv : Z) (b : bulkOperationPacked) (HB : bulk_for bpv b).

Definition packed_encoded (vs : list Z) : list Z :=
  digits 8 (Z.to_nat (bpv * Z.of_nat (length vs) / 8)) (join bpv (map to_uint64 vs)).
Definition packed_bytes_of (n : nat) : nat := Z.to_nat ((bpv * Z.of_nat n + 7) / 8).

Lemma packed_iterations it n : n = (it * Z.to_nat (byteValueCount b))%nat → bpv * Z.of_nat n = 8 * Z.of_nat (it * Z.to_nat (byteBlockCount b)).
Proof using HB. intros ->. destruct (bf_bytes _ _ HB) as (? & ? & ?). nia. Qed.

Lemma packed_size (vs : list Z) it :
  length vs = (it * Z.to_nat (byteValueCount b))%nat → Z.to_nat (bpv * Z.of_nat (length vs) / 8) = (it * Z.to_nat (byteBlockCount b))%nat.
Proof using HB. intros Hl. rewrite (packed_iterations it _ Hl), Z.mul_comm, Z.div_mul by lia. lia. Qed.

Lemma packed_moves vs it :
  length vs = (it * Z.to_nat (byteValueCount b))%nat → Forall (fits 64 bpv) vs →
  moves (EncodeLongsToBytes (E := goerr) b) vs (packed_encoded vs) (Z.of_nat it) ∧
  moves (DecodeBytes (E := goerr) b) (packed_encoded vs) vs (Z.of_nat it).
Proof using HB.
  intros Hl HF. destruct (bf_width _ _ HB), (bf_bytes _ _ HB) as (? & ? & ?). unfold packed_encoded. rewrite (packed_size _ it Hl).
  replace (it * Z.to_nat (byteBlockCount b))%nat with (Z.to_nat (byteBlockCount b * Z.of_nat it)) by lia.
  apply (bytes_roundtrip (E := goerr) bpv b HB 64 64 ltac:(lia) ltac:(lia) to_uint64 (mask b) vs (Z.of_nat it)); try done; try lia.
  apply (bf_mask _ _ HB).
Qed.

Lemma packed_app us vs i j :
  length us = (i * Z.to_nat (byteValueCount b))%nat → length vs = (j * Z.to_nat (byteValueCount b))%nat → Forall (fits 64 bpv) vs →
  packed_encoded (us ++ vs) = packed_encoded us ++ packed_encoded vs.
Proof using HB.
  intros Hu Hv HF. destruct (bf_width _ _ HB). unfold packed_encoded.
  assert (Huv : length (us ++ vs) = ((i + j) * Z.to_nat (byteValueCount b))%nat) by (rewrite length_app; lia).
  rewrite (packed_size _ _ Huv), (packed_size _ _ Hu), (packed_size _ _ Hv), Nat.mul_add_distr_r, digits_split by lia.
  assert (HR : in_uint (8 * Z.of_nat (j * Z.to_nat (byteBlockCount b))) (join bpv (map to_uint64 vs))).
  { rewrite <- (packed_iterations j _ Hv), <- (length_map to_uint64 vs). apply join_range; [lia|]. by apply fits_range. }
  rewrite map_app, join_app, length_map, (packed_iterations j _ Hv) by lia. f_equal.
  - f_equal. rewrite Z.shiftr_div_pow2, Z.div_add_l by lia. rewrite Z.div_small; [lia|exact HR].
  - apply digits_ext; [lia|]. intros p Hp. rewrite concat_testbit by (done || lia). by rewrite (proj2 (Z.ltb_lt _ _)) by lia.
Qed.

Lemma join_zeros z : join bpv (replicate z 0) = 0.
Proof using. induction z as [|z IH]; [done|]. cbn [replicate join]. lia. Qed.

(** The zeros at the end are zeros in the bytes that no other value reaches into. *)
Lemma packed_tail vs z it :
  (length vs + z = it * Z.to_nat (byteValueCount b))%nat →
  Forall (λ b, b = 0) (drop (packed_bytes_of (length vs)) (packed_encoded (vs ++ replicate z 0))).
Proof using HB.
  intros Hz. destruct (bf_width _ _ HB).
  assert (Hl : length (vs ++ replicate z 0) = (it * Z.to_nat (byteValueCount b))%nat) by (by rewrite length_app, length_replicate).
  pose proof (packed_iterations it _ Hl) as HN. unfold packed_encoded. rewrite (packed_size _ it Hl). set (N := (it * _)%nat) in *.
  apply Forall_lookup_2. intros i x. rewrite lookup_drop. intros Hx. apply lookup_lt_Some in Hx as Hi. rewrite digits_length in Hi.
  rewrite digits_lookup in Hx by done. injection Hx as <-. rewrite length_app, length_replicate in HN.
  apply bits_ext. intros j Hj. rewrite field_testbit, Z.bits_0 by lia. destruct (Z.ltb_spec j 8); [|done]. cbn [andb].
  unfold packed_bytes_of in *. pose proof (Z.div_mod (bpv * Z.of_nat (length vs) + 7) 8 ltac:(lia)). pose proof (Z.mod_pos_bound (bpv * Z.of_nat (length vs) + 7) 8 ltac:(lia)).
  assert (0 ≤ (bpv * Z.of_nat (length vs) + 7) / 8) by (apply Z.div_pos; lia).
  rewrite map_app, join_app, length_map, length_replicate by lia.
  replace (map to_uint64 (replicate z 0)) with (replicate z 0) by (symmetry; apply fmap_replicate).
  rewrite join_zeros, concat_testbit; [|lia|split; [lia|by apply pow2_pos; lia]|lia]. rewrite Z.bits_0.
  by rewrite (proj2 (Z.ltb_lt _ _)) by lia.
Qed.

Lemma packed_ByteCount version n :
  bpv * Z.of_nat n + 7 < 2 ^ 63 → ByteCount (E := goerr) FormatPacked version (Z.of_nat n) bpv = Ret (Z.of_nat (packed_bytes_of n)).
Proof using HB.
  intros Hn. destruct (bf_width _ _ HB). unfold ByteCount. rewrite !(proj2 (Z.ltb_ge _ _)) by lia. cbn [orb]. f_equal. unfold packed_byte_count, packed_bytes_of.
  assert (0 ≤ (bpv * Z.of_nat n + 7) / 8) by (apply Z.div_pos; lia).
  assert (Hs : ∀ x, 0 ≤ x < 2 ^ 63 → to_int64 x = x) by (intros x Hx; apply swrap_id; [lia|]; unfold in_sint; change (64 - 1) with 63; lia).
  rewrite (Z.mul_comm (Z.of_nat n)), (Hs (bpv * Z.of_nat n)), Hs, Z.quot_div_nonneg by lia. lia.
Qed.

#[export] Instance packed_laws : BulkLaws FormatPacked bpv (packed_operation b).
Proof using HB.
  destruct (bf_width _ _ HB), (bf_bytes _ _ HB) as (? & ? & ?).
  refine {| blocks_per := Z.to_nat (byteBlockCount b); values_per := Z.to_nat (byteValueCount b);
            encoded := packed_encoded; bytes_of := packed_bytes_of |}.
  - cbn [packed_operation op_ByteBlockCount op_ByteValueCount]. lia.
  - done.
  - intros vs it Hl. unfold packed_encoded. by rewrite digits_length, (packed_size _ it Hl).
  - intros vs. unfold packed_encoded. apply digits_in_range. lia.
  - intros vs it Hl HF. by apply packed_moves.
  - intros vs it Hl HF. by apply packed_moves.
  - intros us vs i j. apply packed_app.
  - exact packed_tail.
  - exact packed_ByteCount.
  - intros it n. unfold packed_bytes_of. rewrite Nat2Z.inj_add, Z.mul_add_distr_l, (packed_iterations it _ eq_refl).
    replace (8 * Z.of_nat (it * Z.to_nat (byteBlockCount b)) + bpv * Z.of_nat n + 7)
      with (bpv * Z.of_nat n + 7 + Z.of_nat (it * Z.to_nat (byteBlockCount b)) * 8) by lia.
    rewrite Z.div_add by lia. pose proof (Z.div_pos (bpv * Z.of_nat n + 7) 8 ltac:(lia) ltac:(lia)). lia.
  - intros n n' Hn. unfold packed_bytes_of. pose proof (Z.div_le_mono (bpv * Z.of_nat n + 7) (bpv * Z.of_nat n' + 7) 8 ltac:(lia) ltac:(nia)). lia.
  - unfold packed_bytes_of. by rewrite Z.mul_0_r.
Defined.
End Packed.

(** * Values that do not cross words *)

Section Single.
Context (bpv : Z) (Hw : 1 ≤ bpv ≤ 32).
Local Abbreviation vpb := (per_block bpv).

Definition single_encoded (vs : list Z) : list Z :=
  flat_map (λ x, digits 8 8 (to_uint64 x)) (packed_words bpv (chunks vpb (length vs / vpb) vs)).
Definition single_bytes_of (n : nat) : nat := (8 * ((n + vpb - 1) / vpb))%nat.

Lemma whole (vs : list Z) it : length vs = (it * vpb)%nat → (length vs / vpb = it)%nat.
Proof using Hw. intros ->. destruct (per_block_facts bpv Hw). apply Nat.div_mul. lia. Qed.

Lemma single_length (vs : list Z) it : length vs = (it * vpb)%nat → length (single_encoded vs) = (it * 8)%nat.
Proof using Hw.
  intros Hl. unfold single_encoded. rewrite (length_flat_map_eq _ _ 8) by (intros; apply digits_length).
  unfold packed_words, chunks. rewrite !length_map, length_seq, (whole _ it Hl). lia.
Qed.

Lemma chunks_app n us vs i j : length us = (i * n)%nat → chunks n (i + j) (us ++ vs) = chunks n i us ++ chunks n j vs.
Proof using.
  clear Hw. intros Hu. unfold chunks. rewrite seq_app, map_app. f_equal.
  - apply map_ext_in. intros t Ht%in_seq. unfold slice. rewrite drop_app_le, take_app_le by (rewrite ?length_drop; nia). done.
  - assert (seq (0 + i) j = map (Nat.add i) (seq 0 j)) as -> by (pose proof (fmap_add_seq i 0 j) as H; rewrite Nat.add_0_r in H; by symmetry).
    rewrite map_map. apply map_ext. intros t.
    unfold slice. rewrite drop_app_ge by nia. do 2 f_equal. nia.
Qed.

Lemma single_app us vs i j :
  length us = (i * vpb)%nat → length vs = (j * vpb)%nat → single_encoded (us ++ vs) = single_encoded us ++ single_encoded vs.
Proof using Hw.
  intros Hu Hv. assert (Huv : length (us ++ vs) = ((i + j) * vpb)%nat) by (rewrite length_app; lia). unfold single_encoded.
  rewrite (whole _ _ Huv), (whole _ _ Hu), (whole _ _ Hv), (chunks_app _ _ _ _ _ Hu). unfold packed_words. by rewrite map_app, flat_map_app.
Qed.

Lemma single_zeros it : Forall (λ b, b = 0) (single_encoded (replicate (it * vpb) 0)).
Proof using Hw.
  induction it as [|it IH]; [unfold single_encoded; cbn; rewrite Nat.Div0.div_0_l; constructor|]. cbn [Nat.mul]. rewrite replicate_add, (single_app _ _ 1 it) by (rewrite length_replicate; lia).
  apply Forall_app. split; [|done]. clear IH. destruct (per_block_facts bpv Hw) as (_ & Hn & _). unfold single_encoded.
  rewrite length_replicate, Nat.div_same by lia. unfold chunks, packed_words. cbn [seq map flat_map]. rewrite app_nil_r. unfold slice. cbn [Nat.mul].
  rewrite drop_0, take_ge by (rewrite length_replicate; lia). unfold pack_block. replace (map to_uint64 (replicate vpb 0)) with (replicate vpb 0) by (symmetry; apply fmap_replicate).
  rewrite reverse_replicate, join_zeros. repeat constructor.
Qed.

(** The zeros of the last word that is begun count for its bytes. *)
Lemma single_tail vs z it :
  (length vs + z = it * vpb)%nat → Forall (λ b, b = 0) (drop (single_bytes_of (length vs)) (single_encoded (vs ++ replicate z 0))).
Proof using Hw.
  intros Hz. destruct (per_block_facts bpv Hw) as (_ & Hn & _). unfold single_bytes_of. set (k := ((length vs + vpb - 1) / vpb)%nat).
  assert (Hk : (k * vpb < length vs + vpb ∧ length vs ≤ k * vpb)%nat).
  { pose proof (Nat.div_mod_eq (length vs + vpb - 1) vpb). pose proof (Nat.mod_upper_bound (length vs + vpb - 1) vpb ltac:(lia)). unfold k. nia. }
  assert (Hki : (k ≤ it)%nat) by nia. replace z with (k * vpb - length vs + (it - k) * vpb)%nat by nia. rewrite replicate_add, app_assoc.
  assert (Hl : length (vs ++ replicate (k * vpb - length vs) 0) = (k * vpb)%nat) by (rewrite length_app, length_replicate; lia).
  rewrite (single_app _ _ k (it - k) Hl) by (by rewrite length_replicate).
  rewrite drop_app_ge by (rewrite (single_length _ k Hl); lia). apply Forall_drop, single_zeros.
Qed.

Lemma single_moves vs it :
  length vs = (it * vpb)%nat → Forall (fits 64 bpv) vs →
  moves (s_EncodeLongsToBytes (E := goerr) (bulk_of bpv)) vs (single_encoded vs) (Z.of_nat it) ∧
  moves (s_DecodeBytes (E := goerr) (bulk_of bpv)) (single_encoded vs) vs (Z.of_nat it).
Proof using Hw.
  intros Hl HF. pose proof (chunks_fit bpv vpb it vs HF ltac:(lia)) as Hc.
  pose proof (single_bytes_roundtrip (E := goerr) bpv (bulk_of bpv) (bulk_of_for bpv Hw) _ Hc) as H.
  rewrite chunks_concat, take_ge in H by lia. unfold single_encoded. rewrite (whole _ it Hl).
  assert (Hn : length (chunks vpb it vs) = it) by (unfold chunks; by rewrite length_map, length_seq). rewrite Hn in H. exact H.
Qed.

Lemma single_ByteCount version n : ByteCount (E := goerr) FormatPackedSingleBlock version (Z.of_nat n) bpv = Ret (Z.of_nat (single_bytes_of n)).
Proof using Hw.
  destruct (per_block_facts bpv Hw) as (Hq & Hn & _). unfold ByteCount. rewrite !(proj2 (Z.ltb_ge _ _)) by lia. cbn [orb]. unfold single_long_count.
  rewrite (proj2 (Z.eqb_neq _ _)) by lia. cbn zeta. rewrite Hq, go_bind_ret. unfold single_bytes_of. f_equal.
  replace (Z.of_nat n + Z.of_nat vpb - 1) with (Z.of_nat (n + vpb - 1)) by lia. rewrite quot_nat by lia. lia.
Qed.

#[export] Instance single_laws : BulkLaws FormatPackedSingleBlock bpv (single_operation (bulk_of bpv)).
Proof using Hw.
  destruct (per_block_facts bpv Hw) as (Hq & Hn & _).
  refine {| blocks_per := 8; values_per := vpb; encoded := single_encoded; bytes_of := single_bytes_of |}.
  - cbn [single_operation op_ByteBlockCount op_ByteValueCount]. split_and!; [done|exact Hq|lia|lia].
  - done.
  - exact single_length.
  - intros vs. unfold single_encoded. apply Forall_flat_map, Forall_true. intros x. apply digits_in_range. lia.
  - intros vs it Hl HF. by apply single_moves.
  - intros vs it Hl HF. by apply single_moves.
  - intros us vs i j Hu Hv _. by apply (single_app us vs i j).
  - exact single_tail.
  - intros version n _. apply single_ByteCount.
  - intros it n. unfold single_bytes_of. replace (it * vpb + n + vpb - 1)%nat with (n + vpb - 1 + it * vpb)%nat by lia. rewrite Nat.div_add by lia. lia.
  - intros n n' Hle. unfold single_bytes_of. pose proof (Nat.Div0.div_le_mono (n + vpb - 1) (n' + vpb - 1) vpb ltac:(lia)). lia.
  - unfold single_bytes_of. rewrite Nat.div_small by lia. done.
Defined.
End Single.

Lemma BulkOperationOf_laws format bpv :
  IsSupported format bpv = true → ∃ (op : BulkOperation) (L : BulkLaws format bpv op), BulkOperationOf format bpv = Ret op.
Proof.
  intros Hs. destruct format; cbn [IsSupported BulkOperationOf] in *.
  - rewrite andb_true_iff, !Z.leb_le in Hs. destruct (newBulkOperationPacked_spec (E := goerr) bpv ltac:(lia)) as (b & Hb & HB).
    exists (packed_operation b), (packed_laws bpv b HB). rewrite !(proj2 (Z.ltb_ge _ _)) by lia. cbn [orb]. by rewrite Hb.
  - rewrite Hs. cbn [negb]. assert (Hw : 1 ≤ bpv ≤ 32).
    { unfold packed64SingleBlockIsSupported in Hs. apply existsb_exists in Hs as (x & Hx & <-%Z.eqb_eq). cbn in Hx. lia. }
    exists (single_operation (bulk_of bpv)), (single_laws bpv Hw). by rewrite bulk_of_single.
Qed.

Lemma supported_width format bpv : IsSupported format bpv = true → 1 ≤ bpv ≤ 64.
Proof.
  destruct format; cbn [IsSupported]; [rewrite andb_true_iff, !Z.leb_le; lia|]. unfold packed64SingleBlockIsSupported.
  intros (x & Hx & <-%Z.eqb_eq)%existsb_exists. cbn in Hx. lia.
Qed.

Lemma BulkOperationOf_error format bpv :
  IsSupported format bpv = false → ∃ msg, BulkOperationOf format bpv = Err (Errorf msg).
Proof.
  intros Hs. destruct format; cbn [IsSupported BulkOperationOf] in *.
  - rewrite andb_false_iff, !Z.leb_gt in Hs. eexists. destruct Hs; [rewrite (proj2 (Z.ltb_lt _ _)) by lia|rewrite orb_comm, (proj2 (Z.ltb_lt 64 _)) by lia]; done.
  - rewrite Hs. by eexists.
Qed.

(** * The bytes of any number of values

    The last iteration is filled with zeros, and the bytes beyond those that [ByteCount] counts are left out. *)
Section Image.
Context {format : Format} {bpv : Z} {op : BulkOperation} {L : BulkLaws format bpv op}.
Context (Hb : 1 ≤ bpv ≤ 64).

Definition filling (n : nat) : nat := ((n + values_per - 1) / values_per * values_per - n)%nat.
Definition image (vs : list Z) : list Z := take (bytes_of (length vs)) (encoded (vs ++ replicate (filling (length vs)) 0)).

Lemma filling_whole n : ∃ it, (n + filling n = it * values_per)%nat ∧ (n ≤ it * values_per < n + values_per)%nat.
Proof using.
  destruct counts_law as (_ & _ & _ & Hv). exists ((n + values_per - 1) / values_per)%nat. unfold filling.
  pose proof (Nat.div_mod_eq (n + values_per - 1) values_per). pose proof (Nat.mod_upper_bound (n + values_per - 1) values_per ltac:(lia)). lia.
Qed.

Lemma fits_zeros z : Forall (fits 64 bpv) (replicate z 0).
Proof using Hb. apply Forall_replicate, fits_zero. lia. Qed.

Lemma bytes_within (vs : list Z) z it : (length vs + z = it * values_per)%nat → (bytes_of (length vs) ≤ it * blocks_per)%nat.
Proof using. intros Hz. pose proof (bytes_mono (length vs) (it * values_per) ltac:(lia)). pose proof (bytes_add it 0) as Ha. rewrite bytes_none, !Nat.add_0_r in Ha. lia. Qed.

(** How many zeros there are is all the same. *)
Lemma image_filled vs z it :
  (length vs + z = it * values_per)%nat → Forall (fits 64 bpv) vs →
  encoded (vs ++ replicate z 0) = image vs ++ replicate (it * blocks_per - bytes_of (length vs)) 0.
Proof using Hb.
  intros Hz HF. destruct (filling_whole (length vs)) as (i & Hi & Hle).
  assert (Hii : (i ≤ it)%nat) by (destruct counts_law as (_ & _ & _ & Hv); nia).
  assert (Hz' : z = (filling (length vs) + (it - i) * values_per)%nat) by nia.
  assert (Hl1 : length (vs ++ replicate (filling (length vs)) 0) = (i * values_per)%nat) by (by rewrite length_app, length_replicate).
  pose proof (encoded_length _ i Hl1) as He. pose proof (bytes_within vs _ i Hi) as Hw.
  assert (Htake : image vs = take (bytes_of (length vs)) (encoded (vs ++ replicate z 0))).
  { rewrite Hz', replicate_add, app_assoc, (encoded_app _ _ i (it - i) Hl1) by (by rewrite ?length_replicate || apply fits_zeros).
    rewrite take_app_le by lia. done. }
  rewrite Htake. rewrite <- (take_drop (bytes_of (length vs)) (encoded (vs ++ replicate z 0))) at 1. f_equal.
  pose proof (encoded_tail vs z it Hz) as Ht. symmetry. apply replicate_as_elem_of. split.
  - rewrite length_drop. f_equal. apply encoded_length. by rewrite length_app, length_replicate.
  - by rewrite <- Forall_forall.
Qed.

Lemma image_length vs : Forall (fits 64 bpv) vs → length (image vs) = bytes_of (length vs).
Proof using.
  intros HF. destruct (filling_whole (length vs)) as (i & Hi & _). unfold image. rewrite length_take, (encoded_length _ i) by (by rewrite length_app, length_replicate).
  pose proof (bytes_within vs _ i Hi). lia.
Qed.

Lemma image_octets vs : Forall is_byte (image vs).
Proof using. apply Forall_take, encoded_bytes. Qed.

Lemma image_whole vs it : length vs = (it * values_per)%nat → Forall (fits 64 bpv) vs → image vs = encoded vs.
Proof using Hb.
  intros Hl HF. pose proof (image_filled vs 0 it ltac:(lia) HF) as He. cbn [replicate] in He. rewrite app_nil_r in He. rewrite He, Hl.
  pose proof (bytes_add it 0) as Ha. rewrite bytes_none, !Nat.add_0_r in Ha. rewrite Ha, Nat.sub_diag. by rewrite app_nil_r.
Qed.

(** Whole iterations first. *)
Lemma image_app us vs it :
  length us = (it * values_per)%nat → Forall (fits 64 bpv) us → Forall (fits 64 bpv) vs → image (us ++ vs) = encoded us ++ image vs.
Proof using Hb.
  intros Hu HFu HF. destruct (filling_whole (length vs)) as (i & Hi & _).
  assert (Hl : length (vs ++ replicate (filling (length vs)) 0) = (i * values_per)%nat) by (by rewrite length_app, length_replicate).
  assert (HF' : Forall (fits 64 bpv) (vs ++ replicate (filling (length vs)) 0)) by (apply Forall_app; split; [done|apply fits_zeros]).
  pose proof (image_filled (us ++ vs) (filling (length vs)) (it + i)) as He. rewrite <- app_assoc, (encoded_app us _ it i Hu Hl HF') in He.
  rewrite (image_filled vs _ i Hi HF), app_assoc in He.
  assert (Hbytes : (bytes_of (length (us ++ vs)) = it * blocks_per + bytes_of (length vs))%nat) by (rewrite length_app, Hu; apply bytes_add).
  pose proof (bytes_within vs _ i Hi). symmetry.
  apply app_inj_2 in He; [by destruct He| | |].
  - rewrite !length_replicate, Hbytes. lia.
  - rewrite length_app. lia.
  - by apply Forall_app.
Qed.
End Image.
