(* ===== verification/PackedStream.v ===== *)
(** Packed integers in streams: [util/packed/packed_writer.go], [util/packed/packed_reader_iterator.go],
    and [GetWriterNoHeader] and [GetReaderIteratorNoHeader] of [util/packed/packed_ints.go].

    Both go through a buffer of a whole number of iterations of a bulk operation, whose size depends on
    the memory they are given.  They are clients of [BulkLaws] and of the laws of streams. *)

From stdpp Require Import base tactics numbers list strings.
From Stdlib Require Import ZArith Lia.
From S2P Require Import Prelude DataIO Digits BulkOperation PackedMutable Packed64 PackedSingle PackedSingleArray BulkInterface.

Local Open Scope Z_scope.

(** * The writer *)

Record packedWriter (O : Type) := {
  w_out : O;
  w_format : Format;
  w_encoder : BulkOperation;
  w_nextBlocks : list Z;
  w_nextValues : list Z;
  w_iterations : Z;
  w_valueCount : Z;
  w_bitsPerValue : Z;
  w_off : Z;
  w_written : Z;
  w_finished : bool
}.
Arguments w_out {O} p.
Arguments w_format {O} p.
Arguments w_encoder {O} p.
Arguments w_nextBlocks {O} p.
Arguments w_nextValues {O} p.
Arguments w_iterations {O} p.
Arguments w_valueCount {O} p.
Arguments w_bitsPerValue {O} p.
Arguments w_off {O} p.
Arguments w_written {O} p.
Arguments w_finished {O} p.

Section Writer.
Context {O : Type} `{DataOutput O}.

(** [make([]T, n)] *)
Definition make (n : Z) : M (list Z) := if n <? 0 then Panic else Ret (replicate (Z.to_nat n) 0).

Definition newPackedWriter (format : Format) (out : O) (valueCount bitsPerValue mem : Z) : M (packedWriter O) :=
  if 64 <? bitsPerValue then Err (Errorf "packed: bitsPerValue must be <= 64") else
  if (valueCount <? 0) && negb (valueCount =? -1) then Err (Errorf "packed: valueCount must be >= 0 or -1") else
  encoder ← BulkOperationOf format bitsPerValue;
  let iterations := op_ComputeIterations encoder valueCount mem in
  nextBlocks ← make (iterations * op_ByteBlockCount encoder);
  nextValues ← make (iterations * op_ByteValueCount encoder);
  Ret {| w_out := out; w_format := format; w_encoder := encoder; w_nextBlocks := nextBlocks; w_nextValues := nextValues;
         w_iterations := iterations; w_valueCount := valueCount; w_bitsPerValue := bitsPerValue;
         w_off := 0; w_written := 0; w_finished := false |}.

Definition GetWriterNoHeader (out : O) (format : Format) (valueCount bitsPerValue mem : Z) : M (packedWriter O) :=
  newPackedWriter format out valueCount bitsPerValue mem.

(** What [flush] leaves: an output, the bytes that were written, and values that are zero. *)
Definition flushed (w : packedWriter O) (out : O) (nextBlocks : list Z) : packedWriter O :=
  {| w_out := out; w_format := w_format w; w_encoder := w_encoder w; w_nextBlocks := nextBlocks;
     w_nextValues := replicate (length (w_nextValues w)) 0;
     w_iterations := w_iterations w; w_valueCount := w_valueCount w; w_bitsPerValue := w_bitsPerValue w;
     w_off := 0; w_written := w_written w; w_finished := w_finished w |}.

Definition flush (w : packedWriter O) : M (packedWriter O) :=
  nextBlocks ← op_EncodeLongsToBytes (w_encoder w) (w_nextValues w) 0 (w_nextBlocks w) 0 (w_iterations w);
  blockCount ← ByteCount (w_format w) VersionCurrent (w_off w) (w_bitsPerValue w);
  out ← out_bytes nextBlocks 0 blockCount (w_out w);
  Ret (flushed w out nextBlocks).

(** [w.nextValues[w.off] = v; w.off++] and [w.written++] *)
Definition with_values (w : packedWriter O) (nextValues : list Z) (off : Z) : packedWriter O :=
  {| w_out := w_out w; w_format := w_format w; w_encoder := w_encoder w; w_nextBlocks := w_nextBlocks w; w_nextValues := nextValues;
     w_iterations := w_iterations w; w_valueCount := w_valueCount w; w_bitsPerValue := w_bitsPerValue w;
     w_off := off; w_written := w_written w; w_finished := w_finished w |}.

Definition with_written (w : packedWriter O) (written : Z) (finished : bool) : packedWriter O :=
  {| w_out := w_out w; w_format := w_format w; w_encoder := w_encoder w; w_nextBlocks := w_nextBlocks w; w_nextValues := w_nextValues w;
     w_iterations := w_iterations w; w_valueCount := w_valueCount w; w_bitsPerValue := w_bitsPerValue w;
     w_off := w_off w; w_written := written; w_finished := finished |}.

Definition Add (w : packedWriter O) (v : Z) : M (packedWriter O) :=
  if w_bitsPerValue w <? UnsignedBitsRequired (to_uint64 v) then Err (Errorf "packed: value does not fit") else
  if w_finished w then Err (Errorf "packed: writer is finished") else
  if negb (w_valueCount w =? -1) && (w_valueCount w <=? w_written w) then Err (Errorf "packed: writing past end of stream") else
  nextValues ← aset (w_nextValues w) (w_off w) v;
  let w := with_values w nextValues (w_off w + 1) in
  w ← (if w_off w =? Z.of_nat (length (w_nextValues w)) then flush w else mret w);
  Ret (with_written w (w_written w + 1) (w_finished w)).

(** Each turn adds a value. *)
Definition Finish (w : packedWriter O) : M (packedWriter O) :=
  if w_finished w then Err (Errorf "packed: writer already finished") else
  w ← (if negb (w_valueCount w =? -1)
       then go_while (Z.to_nat (w_valueCount w - w_written w)) (fun w => w_written w <? w_valueCount w) (fun w => Add w 0) w
       else mret w);
  w ← flush w;
  Ret (with_written w (w_written w) true).

(** A caller that adds some values in turn. *)
Fixpoint add_all (w : packedWriter O) (vs : list Z) : M (packedWriter O) :=
  match vs with [] => mret w | v :: vs => w ← Add w v; add_all w vs end.
End Writer.

(** * The reader *)

(** [nextValues] is a [LongsRef]: an array, an offset and a length. *)
Record packedReaderIterator (I : Type) := {
  r_in : I;
  r_packedIntsVersion : Z;
  r_format : Format;
  r_bulkOperation : BulkOperation;
  r_nextBlocks : list Z;
  r_Longs : list Z;
  r_Offset : Z;
  r_Length : Z;
  r_iterations : Z;
  r_valueCount : Z;
  r_bitsPerValue : Z;
  r_position : Z
}.
Arguments r_in {I} p.
Arguments r_packedIntsVersion {I} p.
Arguments r_format {I} p.
Arguments r_bulkOperation {I} p.
Arguments r_nextBlocks {I} p.
Arguments r_Longs {I} p.
Arguments r_Offset {I} p.
Arguments r_Length {I} p.
Arguments r_iterations {I} p.
Arguments r_valueCount {I} p.
Arguments r_bitsPerValue {I} p.
Arguments r_position {I} p.

Section Reader.
Context {I : Type} `{DataInput I}.

Definition newPackedReaderIterator (format : Format) (packedIntsVersion valueCount bitsPerValue : Z) (inp : I) (mem : Z)
    : M (packedReaderIterator I) :=
  op ← BulkOperationOf format bitsPerValue;
  let iterations := op_ComputeIterations op valueCount mem in
  longs ← make (iterations * op_ByteValueCount op);
  nextBlocks ← make (iterations * op_ByteBlockCount op);
  Ret {| r_in := inp; r_packedIntsVersion := packedIntsVersion; r_format := format; r_bulkOperation := op; r_nextBlocks := nextBlocks;
         r_Longs := longs; r_Offset := Z.of_nat (length longs); r_Length := 0; r_iterations := iterations;
         r_valueCount := valueCount; r_bitsPerValue := bitsPerValue; r_position := -1 |}.

Definition VersionStart : Z := 2.

Definition CheckVersion (version : Z) : M unit :=
  if version <? VersionStart then Err (Errorf "packed: version is too old") else
  if VersionCurrent <? version then Err (Errorf "packed: version is too new") else Ret tt.

Definition GetReaderIteratorNoHeader (inp : I) (format : Format) (version valueCount bitsPerValue mem : Z) : M (packedReaderIterator I) :=
  _ ← CheckVersion version;
  newPackedReaderIterator format version valueCount bitsPerValue inp mem.

(** The part of [NextN] that reads and decodes the next blocks: the new bytes, values and input. *)
Definition refill (it : packedReaderIterator I) (remaining : Z) : M (list Z * list Z * I) :=
  remainingBlocks ← ByteCount (r_format it) (r_packedIntsVersion it) remaining (r_bitsPerValue it);
  let size := Z.of_nat (length (r_nextBlocks it)) in
  let blocksToRead := if size <? remainingBlocks then size else remainingBlocks in
  '(nextBlocks, inp) ← (if 0 <? blocksToRead then in_bytes (r_nextBlocks it) 0 blocksToRead (r_in it) else mret (r_nextBlocks it, r_in it));
  nextBlocks ← (if blocksToRead <? size
    then go_for (Z.to_nat (size - blocksToRead)) blocksToRead (fun i nextBlocks => aset nextBlocks i 0) nextBlocks
    else mret nextBlocks);
  longs ← op_DecodeBytes (r_bulkOperation it) nextBlocks 0 (r_Longs it) 0 (r_iterations it);
  mret (nextBlocks, longs, inp).

Definition NextN (it : packedReaderIterator I) (count : Z) : M (packedReaderIterator I) :=
  if count <=? 0 then Err (Errorf "unexpected EOF") else
  let offset := r_Offset it + r_Length it in
  let remaining := r_valueCount it - r_position it - 1 in
  if remaining <=? 0 then Err EOF else
  let count := if remaining <? count then remaining else count in
  '(nextBlocks, longs, offset, inp) ←
    (if offset =? Z.of_nat (length (r_Longs it))
     then '(nextBlocks, longs, inp) ← refill it remaining; mret (nextBlocks, longs, 0, inp)
     else mret (r_nextBlocks it, r_Longs it, offset, r_in it));
  let available := Z.of_nat (length longs) - offset in
  let count := if available <? count then available else count in
  Ret {| r_in := inp; r_packedIntsVersion := r_packedIntsVersion it; r_format := r_format it; r_bulkOperation := r_bulkOperation it;
         r_nextBlocks := nextBlocks; r_Longs := longs; r_Offset := offset; r_Length := count; r_iterations := r_iterations it;
         r_valueCount := r_valueCount it; r_bitsPerValue := r_bitsPerValue it; r_position := r_position it + count |}.

(** [nextValues.Offset++; nextValues.Length--] *)
Definition with_window (it : packedReaderIterator I) (offset length : Z) : packedReaderIterator I :=
  {| r_in := r_in it; r_packedIntsVersion := r_packedIntsVersion it; r_format := r_format it; r_bulkOperation := r_bulkOperation it;
     r_nextBlocks := r_nextBlocks it; r_Longs := r_Longs it; r_Offset := offset; r_Length := length; r_iterations := r_iterations it;
     r_valueCount := r_valueCount it; r_bitsPerValue := r_bitsPerValue it; r_position := r_position it |}.

Definition Next (it : packedReaderIterator I) : M (Z * packedReaderIterator I) :=
  it ← NextN it 1;
  v ← aget (r_Longs it) (r_Offset it);
  Ret (v, with_window it (r_Offset it + 1) (r_Length it - 1)).

(** What a caller sees of the [LongsRef] that [NextN] returns. *)
Definition window (it : packedReaderIterator I) : list Z :=
  PackedMutable.slice (Z.to_nat (r_Offset it)) (Z.to_nat (r_Length it)) (r_Longs it).

(** A caller that reads until the end of the stream; turn [i] asks for one value ([None]) or for some number of them. *)
Definition read (it : packedReaderIterator I) (ask : option Z) : M (list Z * packedReaderIterator I) :=
  match ask with
  | None => '(v, it) ← Next it; mret ([v], it)
  | Some count => it ← NextN it count; mret (window it, it)
  end.

Fixpoint read_all (fuel : nat) (asks : nat → option Z) (i : nat) (it : packedReaderIterator I) : M (list Z) :=
  match fuel with
  | O => NoFuel
  | S fuel =>
      match read it (asks i) with
      | Ret (xs, it) => ys ← read_all fuel asks (S i) it; mret (xs ++ ys)
      | Err EOF => Ret []
      | Err e => Err e
      | Panic => Panic
      | NoFuel => NoFuel
      end
  end.
End Reader.

Definition out_example : ByteArrayDataOutput := bo_reset (replicate 40 0) 0 40.

Example packed_stream_run :
  (w ← GetWriterNoHeader out_example FormatPacked 11 12 100;
   w ← add_all w (seqZ 4080 9); w ← Finish w;
   it ← GetReaderIteratorNoHeader {| bi_bytes := bo_bytes (w_out w); bi_pos := 0; bi_limit := 40 |} FormatPacked 2 11 12 40;
   vs ← read_all 12 (λ i, if Nat.even i then Some 3 else None) 0 it;
   mret (bo_pos (w_out w), vs)) = Ret (17, seqZ 4080 9 ++ [0; 0]).
Proof. vm_compute. reflexivity. Qed.

Example packed_stream_run_single :
  (w ← GetWriterNoHeader out_example FormatPackedSingleBlock 7 21 100;
   w ← add_all w (seqZ 4080 7); w ← Finish w;
   it ← GetReaderIteratorNoHeader {| bi_bytes := bo_bytes (w_out w); bi_pos := 0; bi_limit := 40 |} FormatPackedSingleBlock 2 7 21 64;
   vs ← read_all 12 (λ i, if Nat.even i then Some 3 else None) 0 it;
   mret (bo_pos (w_out w), vs)) = Ret (24, seqZ 4080 7).
Proof. vm_compute. reflexivity. Qed.

(** * Buffers *)

Lemma moves_whole (op : list Z → Z → list Z → Z → Z → M (list Z)) xs ys old iterations :
  moves op xs ys iterations → length old = length ys → op xs 0 old 0 iterations = Ret ys.
Proof. intros Hm Hl. specialize (Hm [] [] [] old [] Hl). by rewrite !app_nil_r in Hm. Qed.

Lemma computeIterations_spec (bbc bvc : nat) (n : nat) mem :
  (0 < bbc)%nat → (0 < bvc)%nat → 0 ≤ mem →
  ∃ it : nat, computeIterations (Z.of_nat bbc) (Z.of_nat bvc) (Z.of_nat n) mem = Z.of_nat it ∧ (it = 0 → n = 0)%nat.
Proof.
  intros Hbb Hbv Hm. unfold computeIterations. rewrite Z.quot_div_nonneg by lia.
  pose proof (Z.div_pos mem (Z.of_nat bbc + 8 * Z.of_nat bvc) ltac:(lia) ltac:(lia)). set (q := mem / _) in *. destruct (Z.eqb_spec q 0); [by exists 1%nat|].
  destruct (Z.leb_spec (Z.of_nat n) ((q - 1) * Z.of_nat bvc)); [|exists (Z.to_nat q); lia].
  replace (Z.of_nat n + Z.of_nat bvc - 1) with (Z.of_nat (n + bvc - 1)) by lia. rewrite quot_nat by done. exists ((n + bvc - 1) / bvc)%nat. split; [done|].
  intros Hz. apply Nat.div_small_iff in Hz; lia.
Qed.

Section Streams.
Context {format : Format} {bpv : Z} {op : BulkOperation} {L : BulkLaws format bpv op}.
Context (Hop : BulkOperationOf format bpv = Ret op) (Hb : 1 ≤ bpv ≤ 64) (n : nat) (Hn : bpv * Z.of_nat n + 7 < 2 ^ 63).

Lemma few (k : nat) : (k ≤ n)%nat → bpv * Z.of_nat k + 7 < 2 ^ 63.
Proof using Hb Hn. nia. Qed.

Lemma make_nat k : make (Z.of_nat k) = Ret (replicate k 0).
Proof using. clear. unfold make. rewrite (proj2 (Z.ltb_ge _ _)) by lia. by rewrite Nat2Z.id. Qed.

(** ** Writing *)
Section Writing.
Context {O : Type} {HO : DataOutput O} {LO : DataOutputLaws O}.

Record buffers (w : packedWriter O) (it : nat) : Prop := {
  bu_format : w_format w = format;
  bu_encoder : w_encoder w = op;
  bu_bits : w_bitsPerValue w = bpv;
  bu_iterations : w_iterations w = Z.of_nat it;
  bu_blocks : length (w_nextBlocks w) = (it * blocks_per)%nat;
  bu_count : w_valueCount w = Z.of_nat n;
  bu_open : w_finished w = false
}.

Lemma writer_flushes w it part z m :
  buffers w it → w_nextValues w = part ++ replicate z 0 → (length part + z = it * values_per)%nat → w_off w = Z.of_nat (length part) →
  Forall (fits 64 bpv) part → (length part ≤ n)%nat → out_room (w_out w) (bytes_of (length part) + m) →
  ∃ out' nextBlocks, flush w = Ret (flushed w out' nextBlocks) ∧ out_view out' = out_view (w_out w) ++ image part ∧
    out_room out' m ∧ length nextBlocks = (it * blocks_per)%nat.
Proof using LO Hb Hn.
  intros [Hf He Hbits Hit Hbl _ _] Hv Hz Ho HF Hle Hroom. unfold flush. rewrite He, Hit, Hv, Hf, Ho, Hbits.
  assert (Hl : length (part ++ replicate z 0) = (it * values_per)%nat) by (by rewrite length_app, length_replicate).
  assert (HF' : Forall (fits 64 bpv) (part ++ replicate z 0)) by (apply Forall_app; split; [done|by apply fits_zeros]).
  pose proof (encoded_length _ it Hl) as Hel.
  rewrite (moves_whole _ _ _ (w_nextBlocks w) _ (encode_law _ it Hl HF')), go_bind_ret by lia.
  rewrite ByteCount_law, go_bind_ret by (by apply few).
  rewrite (image_filled Hb part z it Hz HF) in *. set (zs := replicate (it * blocks_per - _) 0) in *.
  pose proof (image_length part HF) as Hil. pose proof (bytes_within part z it Hz) as Hw.
  assert (Hs : DataIO.slice (image part ++ zs) 0 (Z.of_nat (bytes_of (length part))) = image part).
  { unfold DataIO.slice. rewrite Nat2Z.id. cbn [Z.to_nat]. by rewrite drop_0, <- Hil, take_app_length. }
  destruct (out_bytes_law (image part ++ zs) 0 (Z.of_nat (bytes_of (length part))) (w_out w) m) as (out' & -> & Hview & Hroom').
  - unfold slice_ok. rewrite length_app. lia.
  - rewrite Hs. apply image_octets.
  - by rewrite Nat2Z.id.
  - rewrite Hs in Hview. rewrite go_bind_ret. by exists out', (image part ++ zs).
Qed.

(** The writer holds the values [ws]: whole iterations are in the output, the others in the buffer.  [c] is what was in
    the output before, and there is room for [m] bytes after the stream. *)
Record holds (c : list Z) (m : nat) (w : packedWriter O) (ws : list Z) : Prop := {
  ho_written : w_written w = Z.of_nat (length ws);
  ho_fits : Forall (fits 64 bpv) ws;
  ho_within : (length ws ≤ n)%nat;
  ho_parts : ∃ it k full part z room, buffers w it ∧ ws = full ++ part ∧ length full = (k * values_per)%nat ∧
    w_nextValues w = part ++ replicate z 0 ∧ (length part + z = it * values_per)%nat ∧ (0 < z ∨ it = 0 ∧ n = 0)%nat ∧
    w_off w = Z.of_nat (length part) ∧ out_view (w_out w) = c ++ encoded full ∧
    out_room (w_out w) room ∧ (k * blocks_per + room = bytes_of n + m)%nat
}.

Lemma newPackedWriter_spec out mem m :
  0 ≤ mem → out_room out (bytes_of n + m) →
  ∃ w, newPackedWriter format out (Z.of_nat n) bpv mem = Ret w ∧ holds (out_view out) m w [].
Proof using Hop Hb.
  intros Hm Hroom. destruct counts_law as (Hbb & Hbv & Hbb0 & Hbv0). unfold newPackedWriter.
  rewrite !(proj2 (Z.ltb_ge _ _)) by lia. cbn [andb]. rewrite Hop, go_bind_ret, iterations_law, Hbb, Hbv. cbn zeta.
  destruct (computeIterations_spec blocks_per values_per n mem Hbb0 Hbv0 Hm) as (it & -> & Hit).
  rewrite <- !Nat2Z.inj_mul, !make_nat, !go_bind_ret. eexists. split; [done|].
  split; cbn [w_written length]; [done|constructor|lia|].
  exists it, 0%nat, [], [], (it * values_per)%nat, (bytes_of n + m)%nat. split; [split; cbn; try done; by rewrite length_replicate|].
  cbn [w_nextValues w_off w_out app length]. split_and!; try done; try lia.
  pose proof (encoded_length (op := op) [] 0 eq_refl) as He. apply nil_length_inv in He. by rewrite He, app_nil_r.
Qed.

(** One more value is in the buffer; when it is full it is written. *)
Lemma Add_spec c m w ws v :
  holds c m w ws → (length ws < n)%nat → fits 64 bpv v → ∃ w', Add w v = Ret w' ∧ holds c m w' (ws ++ [v]).
Proof using LO Hb Hn.
  intros [Hw HF Hle (it & k & full & part & z & room & Hbu & -> & Hfull & Hv & Hz & Hz0 & Ho & Hview & Hroom & Hr)] Hlt Hfv.
  unfold Add. pose proof Hbu as [Hf He Hbits Hit Hbl Hc Hfin]. rewrite Hbits, (proj2 (Z.ltb_ge _ _)) by (by apply fits_required).
  rewrite Hfin, Hc, Hw, (proj2 (Z.leb_gt _ _)), andb_false_r by lia. rewrite length_app in *.
  destruct z as [|z]; [lia|]. rewrite Hv, Ho. cbn [replicate].
  rewrite (aset_mid part _ 0 v) by done. rewrite go_bind_ret. cbn zeta. cbn [with_values w_nextValues w_off].
  set (w1 := with_values w (part ++ v :: replicate z 0) (Z.of_nat (length part) + 1)).
  apply Forall_app in HF as [HFf HFp]. assert (HF' : Forall (fits 64 bpv) (part ++ [v])) by (apply Forall_app; auto).
  assert (Hv1 : w_nextValues w1 = (part ++ [v]) ++ replicate z 0) by (by rewrite <- app_assoc).
  assert (Hl1 : (length (part ++ [v]) + z = it * values_per)%nat) by (rewrite length_app; cbn; lia).
  assert (Ho1 : w_off w1 = Z.of_nat (length (part ++ [v]))) by (rewrite length_app; cbn; lia).
  assert (Hbu1 : buffers w1 it) by (by split).
  replace (Z.of_nat (length part) + 1 =? Z.of_nat (length (part ++ v :: replicate z 0))) with (z =? 0)%nat
    by (rewrite length_app; cbn [length]; rewrite length_replicate; destruct (Nat.eqb_spec z 0); symmetry; [apply Z.eqb_eq|apply Z.eqb_neq]; lia).
  assert (Hlen : (length (part ++ [v]) ≤ n)%nat) by (rewrite length_app; cbn; lia).
  destruct (Nat.eqb_spec z 0) as [->|Hz1].
  - rewrite Nat.add_0_r in Hl1. pose proof (bytes_add it 0) as Ha. rewrite bytes_none, !Nat.add_0_r in Ha.
    assert (Hroom' : (room = bytes_of (length (part ++ [v])) + (room - it * blocks_per))%nat ∧ (k * blocks_per + it * blocks_per ≤ bytes_of n)%nat).
    { pose proof (bytes_mono (k * values_per + it * values_per) n ltac:(lia)) as Hmono. rewrite bytes_add, Ha in Hmono. rewrite Hl1, Ha. lia. }
    destruct Hroom' as [Hroom' Hk]. rewrite Hroom' in Hroom.
    destruct (writer_flushes w1 it (part ++ [v]) 0 _ Hbu1 Hv1 ltac:(lia) Ho1 HF' Hlen Hroom) as (out' & nb & -> & Hview' & Hroom1 & Hnb).
    rewrite go_bind_ret. eexists. split; [done|]. split; cbn [with_written flushed w_written w_finished].
    + rewrite !length_app. cbn. lia.
    + apply Forall_app. split; [by apply Forall_app|by constructor].
    + rewrite !length_app. cbn. lia.
    + exists it, (k + it)%nat, (full ++ part ++ [v]), [], (it * values_per)%nat, (room - it * blocks_per)%nat.
      cbn [with_written flushed w_nextValues w_out w_off app length]. split; [by split|]. rewrite app_nil_r, app_assoc. split; [done|].
      rewrite Hv1, app_nil_r. split_and!; [rewrite <- app_assoc, length_app; lia|by f_equal|done| |done| |done|lia].
      * left. rewrite length_app in Hl1. cbn in Hl1. lia.
      * rewrite Hview', (image_whole Hb _ it Hl1 HF'). cbn [w1 with_values w_out]. rewrite Hview, <- !app_assoc, (encoded_app _ _ k it Hfull Hl1 HF'). done.
  - eexists. split; [reflexivity|]. split; cbn [with_written w1 with_values w_written w_finished].
    + rewrite !length_app. cbn. lia.
    + apply Forall_app. split; [by apply Forall_app|by constructor].
    + rewrite !length_app. cbn. lia.
    + exists it, k, full, (part ++ [v]), z, room. split; [by split|]. split; [by rewrite app_assoc|]. split_and!; try done. left. lia.
Qed.

Lemma add_all_spec c m vs : ∀ w ws,
  holds c m w ws → (length ws + length vs ≤ n)%nat → Forall (fits 64 bpv) vs → ∃ w', add_all w vs = Ret w' ∧ holds c m w' (ws ++ vs).
Proof using LO Hb Hn.
  induction vs as [|v vs IH]; intros w ws Hw Hl HF; cbn [add_all length] in *.
  - exists w. by rewrite app_nil_r.
  - apply Forall_cons in HF as [Hv HF]. destruct (Add_spec c m w ws v Hw ltac:(lia) Hv) as (w' & -> & Hw'). rewrite go_bind_ret.
    destruct (IH w' (ws ++ [v]) Hw') as (w'' & -> & Hw''); [rewrite length_app; cbn; lia|done|]. exists w''. split; [done|]. by rewrite <- app_assoc in Hw''.
Qed.

Lemma fill_up c m fuel : ∀ w ws,
  holds c m w ws → (fuel = n - length ws)%nat →
  ∃ w', go_while fuel (fun w => w_written w <? w_valueCount w) (fun w => Add w 0) w = Ret w' ∧ holds c m w' (ws ++ replicate fuel 0).
Proof using LO Hb Hn.
  induction fuel as [|fuel IH]; intros w ws Hw Hf; cbn [go_while replicate];
    pose proof Hw as [Hwr _ Hle (it & k & full & part & z & room & [_ _ _ _ _ Hc _] & _)]; rewrite Hwr, Hc.
  - rewrite (proj2 (Z.ltb_ge _ _)) by lia. exists w. by rewrite app_nil_r.
  - rewrite (proj2 (Z.ltb_lt _ _)) by lia. destruct (Add_spec c m w ws 0 Hw ltac:(lia) (fits_zero bpv Hb)) as (w' & -> & Hw'). rewrite go_bind_ret.
    destruct (IH w' (ws ++ [0]) Hw') as (w'' & -> & Hw''); [rewrite length_app; cbn; lia|]. exists w''. split; [done|]. by rewrite <- app_assoc in Hw''.
Qed.

Lemma writer_finishes c m w ws :
  holds c m w ws → ∃ w', Finish w = Ret w' ∧ out_view (w_out w') = c ++ image (ws ++ replicate (n - length ws) 0) ∧ out_room (w_out w') m ∧ w_finished w' = true.
Proof using LO Hb Hn.
  intros Hw. unfold Finish. destruct (fill_up c m (n - length ws) w ws Hw eq_refl) as (w1 & Hl1 & Hw1).
  pose proof Hw as [Hwr _ Hle (_ & _ & _ & _ & _ & _ & [_ _ _ _ _ Hc Hfin] & _)]. rewrite Hfin, Hc.
  rewrite (proj2 (Z.eqb_neq _ _)) by lia. cbn [negb]. rewrite Hwr. replace (Z.to_nat _) with (n - length ws)%nat by lia.
  rewrite Hl1, go_bind_ret. set (vs := ws ++ _) in *.
  assert (Hvs : length vs = n) by (unfold vs; rewrite length_app, length_replicate; lia).
  destruct Hw1 as [_ HF _ (it & k & full & part & z & room & Hbu & E & Hfull & Hv & Hz & _ & Ho & Hview & Hroom & Hr)].
  rewrite E in *. rewrite length_app in Hvs. apply Forall_app in HF as [HFf HFp].
  pose proof (bytes_add k (length part)) as Ha. rewrite <- Hfull, Hvs in Ha.
  assert (room = bytes_of (length part) + m)%nat as -> by lia.
  destruct (writer_flushes w1 it part z m Hbu Hv Hz Ho HFp ltac:(lia) Hroom) as (out' & nb & -> & Hview' & Hroom' & _). rewrite go_bind_ret.
  eexists. split; [done|]. cbn. split_and!; [|done|done]. by rewrite Hview', Hview, (image_app Hb full part k Hfull HFf HFp), <- app_assoc.
Qed.
End Writing.

(** ** Reading *)

(** [for i := len(pre); i < len(nextBlocks); i++ { nextBlocks[i] = 0 }] *)
Lemma clear_rest (old pre : list Z) :
  go_for (length old) (Z.of_nat (length pre)) (fun i nextBlocks => aset nextBlocks i 0) (pre ++ old) = Ret (E := goerr) (pre ++ replicate (length old) 0).
Proof using.
  clear. revert pre. induction old as [|x old IH]; intros pre; cbn [go_for length replicate]; [done|].
  rewrite (aset_mid pre old x 0) by done. rewrite go_bind_ret. specialize (IH (pre ++ [0])). rewrite <- !app_assoc in IH. cbn [app] in IH.
  rewrite <- IH. f_equal. rewrite length_app. cbn. lia.
Qed.

Section Reading.
Context {I : Type} {HI : DataInput I} {LI : DataInputLaws I} (vs rest : list Z) (Hvs : length vs = n) (HF : Forall (fits 64 bpv) vs).

Record cursors (r : packedReaderIterator I) (it : nat) : Prop := {
  cu_format : r_format r = format;
  cu_op : r_bulkOperation r = op;
  cu_bits : r_bitsPerValue r = bpv;
  cu_iterations : r_iterations r = Z.of_nat it;
  cu_blocks : length (r_nextBlocks r) = (it * blocks_per)%nat;
  cu_longs : length (r_Longs r) = (it * values_per)%nat;
  cu_some : (it = 0 → n = 0)%nat;
  cu_count : r_valueCount r = Z.of_nat n
}.

(** [k] values have been read.  The rest of the array holds the next ones, and the stream the others: it is at the
    start of an iteration. *)
Record reads_from (r : packedReaderIterator I) (k : nat) : Prop := {
  rf_position : r_position r = Z.of_nat k - 1;
  rf_within : (k ≤ n)%nat;
  rf_parts : ∃ it q o, cursors r it ∧ 0 ≤ r_Offset r ∧ 0 ≤ r_Length r ∧ r_Offset r + r_Length r = Z.of_nat o ∧
    (o ≤ it * values_per)%nat ∧ (k + it * values_per = q * values_per + o)%nat ∧
    (∀ j v, (o + j < it * values_per)%nat → vs !! (k + j)%nat = Some v → r_Longs r !! (o + j)%nat = Some v) ∧
    in_at (r_in r) (image (drop (q * values_per) vs) ++ rest)
}.

Lemma newPackedReaderIterator_spec version inp mem :
  0 ≤ mem → in_at inp (image vs ++ rest) →
  ∃ r, newPackedReaderIterator format version (Z.of_nat n) bpv inp mem = Ret r ∧ reads_from r 0.
Proof using Hop Hvs.
  intros Hm Hin. destruct counts_law as (Hbb & Hbv & Hbb0 & Hbv0). unfold newPackedReaderIterator.
  rewrite Hop, go_bind_ret, iterations_law, Hbb, Hbv. cbn zeta.
  destruct (computeIterations_spec blocks_per values_per n mem Hbb0 Hbv0 Hm) as (it & -> & Hit).
  rewrite <- !Nat2Z.inj_mul, !make_nat, !go_bind_ret. eexists. split; [done|].
  split; cbn [r_position]; [done|lia|].
  exists it, 0%nat, (it * values_per)%nat. split; [split; cbn; try done; by rewrite length_replicate|].
  cbn. rewrite length_replicate. split_and!; try done; lia.
Qed.

(** The next iterations of the stream, filled with zeros after its end. *)
Lemma refill_spec r it q :
  cursors r it → (q * values_per < n)%nat → in_at (r_in r) (image (drop (q * values_per) vs) ++ rest) →
  ∃ nextBlocks longs inp, refill r (Z.of_nat (n - q * values_per)) = Ret (nextBlocks, longs, inp) ∧
    length nextBlocks = (it * blocks_per)%nat ∧ length longs = (it * values_per)%nat ∧
    (∀ j v, (j < it * values_per)%nat → vs !! (q * values_per + j)%nat = Some v → longs !! j = Some v) ∧
    in_at inp (image (drop ((q + it) * values_per) vs) ++ rest).
Proof using LI Hb Hn Hvs HF.
  intros [Hf Ho Hbits Hit Hbl Hl H0 _] Hq Hin. set (tl := drop (q * values_per) vs) in *.
  assert (Htl : length tl = (n - q * values_per)%nat) by (unfold tl; rewrite length_drop; lia).
  assert (HFt : Forall (fits 64 bpv) tl) by (by apply Forall_drop).
  set (cap := (it * values_per)%nat) in *. set (head := take cap tl). set (z := (cap - length head)%nat).
  assert (Hhead : (length head + z = it * values_per)%nat) by (unfold z; unfold head; rewrite length_take; fold cap; lia).
  assert (HFh : Forall (fits 64 bpv) head) by (by apply Forall_take).
  assert (Hsplit : image tl = image head ++ image (drop cap tl)).
  { destruct (decide (length tl ≤ cap)%nat).
    - unfold head. rewrite take_ge, drop_ge by lia. unfold image at 3. cbn [length]. rewrite bytes_none. cbn [take]. by rewrite app_nil_r.
    - rewrite <- (take_drop cap tl) at 1. assert (Hhl : length (take cap tl) = cap) by (rewrite length_take; lia).
      rewrite (image_app Hb (take cap tl) (drop cap tl) it Hhl) by (by apply Forall_take || by apply Forall_drop).
      by rewrite <- (image_whole Hb (take cap tl) it Hhl) by (by apply Forall_take). }
  pose proof (image_length head HFh) as Hil. pose proof (bytes_within head z it Hhead) as Hbw.
  assert (Hread : (if Z.of_nat (it * blocks_per) <? Z.of_nat (bytes_of (n - q * values_per)) then Z.of_nat (it * blocks_per)
    else Z.of_nat (bytes_of (n - q * values_per))) = Z.of_nat (length (image head))).
  { pose proof (bytes_add it 0) as Ha. rewrite bytes_none, !Nat.add_0_r in Ha. rewrite Hil. destruct (decide (length tl ≤ cap)%nat).
    - unfold head. rewrite take_ge, Htl by lia. unfold head in Hbw. rewrite take_ge, Htl in Hbw by lia. by rewrite (proj2 (Z.ltb_ge _ _)) by lia.
    - assert (Hhl : length head = cap) by (unfold head; rewrite length_take; lia). rewrite Hhl. unfold cap. rewrite Ha.
      pose proof (bytes_mono cap (n - q * values_per) ltac:(lia)) as Hm. unfold cap in Hm. rewrite Ha in Hm.
      destruct (Z.ltb_spec (Z.of_nat (it * blocks_per)) (Z.of_nat (bytes_of (n - q * values_per)))); lia. }
  rewrite Hsplit, <- app_assoc in Hin.
  unfold refill. rewrite Hf, Hbits, ByteCount_law, go_bind_ret, Hbl by (apply few; lia). cbn zeta. rewrite Hread.
  assert (Hfetch : ∃ inp, (if 0 <? Z.of_nat (length (image head)) then in_bytes (r_nextBlocks r) 0 (Z.of_nat (length (image head))) (r_in r)
    else mret (r_nextBlocks r, r_in r)) = Ret (image head ++ drop (length (image head)) (r_nextBlocks r), inp) ∧
    in_at inp (image (drop cap tl) ++ rest)).
  { destruct (Z.ltb_spec 0 (Z.of_nat (length (image head)))) as [|Hz].
    - destruct (in_bytes_law (r_in r) (r_nextBlocks r) 0 (image head) _ Hin) as (inp & -> & Hin'); [unfold slice_ok; lia|].
      exists inp. split; [|done]. unfold DataIO.splice. cbn [Z.to_nat take app plus]. by rewrite Nat.sub_0_r, Nat.min_l, firstn_all by lia.
    - assert (image head = []) as E by (apply nil_length_inv; lia). rewrite E in *. by exists (r_in r). }
  destruct Hfetch as (inp & -> & Hin'). rewrite go_bind_ret.
  set (old := drop (length (image head)) (r_nextBlocks r)).
  assert (Hold : length old = (it * blocks_per - length (image head))%nat) by (unfold old; rewrite length_drop; lia).
  assert (Hclear : (if Z.of_nat (length (image head)) <? Z.of_nat (it * blocks_per)
    then go_for (Z.to_nat (Z.of_nat (it * blocks_per) - Z.of_nat (length (image head)))) (Z.of_nat (length (image head)))
      (fun i nextBlocks => aset nextBlocks i 0) (image head ++ old) else mret (image head ++ old)) =
    Ret (E := goerr) (encoded (head ++ replicate z 0))).
  { rewrite (image_filled Hb head z it Hhead HFh), <- Hil, <- Hold. destruct (Z.ltb_spec (Z.of_nat (length (image head))) (Z.of_nat (it * blocks_per))).
    - replace (Z.to_nat _) with (length old) by lia. apply clear_rest.
    - assert (old = []) as -> by (apply nil_length_inv; lia). done. }
  rewrite Hclear, go_bind_ret, Ho, Hit.
  assert (Hvl : length (head ++ replicate z 0) = (it * values_per)%nat) by (by rewrite length_app, length_replicate).
  rewrite (moves_whole _ _ (head ++ replicate z 0) (r_Longs r) _ (decode_law _ it Hvl ltac:(apply Forall_app; split; [done|by apply fits_zeros]))), go_bind_ret by lia.
  eexists _, _, inp. split; [done|]. split; [by apply encoded_length|]. split; [done|]. split.
  - intros j v Hj Hv. apply lookup_app_l_Some. unfold head, tl. by rewrite lookup_take_lt, lookup_drop by done.
  - replace (drop ((q + it) * values_per) vs) with (drop cap tl); [done|]. unfold tl, cap. rewrite drop_drop. f_equal. lia.
Qed.

Lemma NextN_spec r k count :
  reads_from r k → (k < n)%nat → 0 < count →
  ∃ r' j, NextN r count = Ret r' ∧ (0 < j)%nat ∧ Z.of_nat j ≤ count ∧ (k + j ≤ n)%nat ∧
    reads_from r' (k + j) ∧ window r' = PackedMutable.slice k j vs ∧ r_Length r' = Z.of_nat j.
Proof using LI Hb Hn Hvs HF.
  intros [Hpos Hk (it & q & o & Hcu & Hoff & Hlen & Hsum & Ho & Hq & Hvals & Hin)] Hkn Hc. pose proof Hcu as [Hf Hop' Hbits Hit Hbl Hl H0 Hcount].
  destruct counts_law as (_ & _ & _ & Hvp).
  unfold NextN. rewrite (proj2 (Z.leb_gt _ _)), Hcount, Hpos, (proj2 (Z.leb_gt _ _)) by lia. cbn zeta. rewrite Hsum, Hl.
  set (cnt := if _ <? count then _ else count).
  assert (Hcnt : 0 < cnt ∧ cnt ≤ count ∧ cnt ≤ Z.of_nat (n - k)) by (unfold cnt; match goal with |- context [?a <? ?b] => destruct (Z.ltb_spec a b) end; lia).
  assert (Hwin : ∃ nb longs (o' : nat) q' inp,
    (if Z.of_nat o =? Z.of_nat (it * values_per)
     then '(nextBlocks, longs, inp) ← refill r (Z.of_nat n - (Z.of_nat k - 1) - 1); mret (nextBlocks, longs, 0, inp)
     else mret (r_nextBlocks r, r_Longs r, Z.of_nat o, r_in r)) = Ret (nb, longs, Z.of_nat o', inp) ∧
    length nb = (it * blocks_per)%nat ∧ length longs = (it * values_per)%nat ∧ (o' < it * values_per)%nat ∧ (k + it * values_per = q' * values_per + o')%nat ∧
    (∀ j v, (o' + j < it * values_per)%nat → vs !! (k + j)%nat = Some v → longs !! (o' + j)%nat = Some v) ∧
    in_at inp (image (drop (q' * values_per) vs) ++ rest)).
  { destruct (Z.eqb_spec (Z.of_nat o) (Z.of_nat (it * values_per))) as [E|].
    - assert (k = q * values_per)%nat as -> by lia.
      destruct (refill_spec r it q Hcu Hkn Hin) as (nb & longs & inp & Hr & Hnb & Hlo & Hv & Hin').
      replace (Z.of_nat n - (Z.of_nat (q * values_per) - 1) - 1) with (Z.of_nat (n - q * values_per)) by lia. rewrite Hr, go_bind_ret.
      exists nb, longs, 0%nat, (q + it)%nat, inp. split_and!; try done; [|lia]. destruct it; [lia|nia].
    - exists (r_nextBlocks r), (r_Longs r), o, q, (r_in r). split_and!; try done. lia. }
  destruct Hwin as (nb & longs & o' & q' & inp & -> & Hnb & Hlo & Ho' & Hq' & Hv' & Hin'). rewrite go_bind_ret, Hlo.
  set (j := if _ <? cnt then _ else cnt).
  assert (Hj : 0 < j ∧ j ≤ cnt ∧ j ≤ Z.of_nat (it * values_per - o')) by (unfold j; match goal with |- context [?a <? ?b] => destruct (Z.ltb_spec a b) end; lia).
  eexists _, (Z.to_nat j). split; [reflexivity|]. split_and!; [lia|lia|lia| | |cbn; lia].
  - split; cbn [r_position]; [lia|lia|]. exists it, q', (o' + Z.to_nat j)%nat. split; [by split|]. cbn. split_and!; try done; try lia.
    intros i v Hi Hv. rewrite <- Nat.add_assoc in Hv |- *. apply Hv'; [lia|done].
  - unfold window. cbn. rewrite Nat2Z.id. apply list_eq. intros i. destruct (decide (i < Z.to_nat j)%nat) as [Hi|].
    + rewrite !slice_lookup by done. destruct (lookup_lt_is_Some_2 vs (k + i)) as [v Hv]; [lia|]. rewrite Hv. apply Hv'; [lia|done].
    + rewrite !lookup_ge_None_2; [done|rewrite slice_length; lia|rewrite slice_length; lia].
Qed.

Lemma reader_next r k v :
  reads_from r k → vs !! k = Some v → ∃ r', Next r = Ret (v, r') ∧ reads_from r' (k + 1).
Proof using LI Hb Hn Hvs HF.
  intros Hr Hv. apply lookup_lt_Some in Hv as Hk. destruct (NextN_spec r k 1 Hr ltac:(lia) ltac:(lia)) as (r1 & j & Hr1 & Hj0 & Hj1 & _ & H1 & Hw & Hlen).
  assert (j = 1)%nat as -> by lia. unfold Next. rewrite Hr1, go_bind_ret.
  destruct H1 as [Hpos Hk1 (it & q & o & Hcu & Hoff & Hl0 & Hsum & Ho & Hq & Hvals & Hin)]. pose proof (cu_longs _ _ Hcu) as Hl.
  assert (Hx : r_Longs r1 !! Z.to_nat (r_Offset r1) = Some v).
  { unfold window in Hw. rewrite Hlen in Hw. apply (f_equal (λ l, l !! 0%nat)) in Hw. rewrite !slice_lookup, !Nat.add_0_r in Hw by lia. by rewrite Hw. }
  rewrite (aget_Ret _ _ v) by (done || lia). rewrite go_bind_ret. eexists. split; [done|].
  split; cbn [with_window r_position]; [done|done|]. exists it, q, o. split; [by destruct Hcu; split|]. cbn. split_and!; try done; lia.
Qed.

Lemma NextN_eof r count : reads_from r n → 0 < count → NextN r count = Err EOF.
Proof using Hvs.
  intros [Hpos _ (it & q & o & Hcu & _)] Hc. unfold NextN. rewrite (proj2 (Z.leb_gt _ _)), (cu_count _ _ Hcu), Hpos by lia.
  cbn zeta. by rewrite (proj2 (Z.leb_le _ _)) by lia.
Qed.

(** Whatever the caller asks for, it gets what is left, and then the end of the stream. *)
Lemma read_all_spec asks fuel : ∀ i r k,
  (∀ i c, asks i = Some c → 0 < c) → reads_from r k → (n - k < fuel)%nat → read_all fuel asks i r = Ret (drop k vs).
Proof using LI Hb Hn Hvs HF.
  induction fuel as [|fuel IH]; intros i r k Ha Hr Hf; [lia|]. cbn [read_all].
  assert (Hle : (k ≤ n)%nat) by (by destruct Hr). destruct (decide (k = n)) as [->|Hk].
  - rewrite drop_ge by lia. unfold read, Next. destruct (asks i) as [c|] eqn:Hi; rewrite NextN_eof by (done || lia || by eapply Ha); done.
  - destruct (asks i) as [c|] eqn:Hi; cbn [read].
    + destruct (NextN_spec r k c Hr ltac:(lia) (Ha i c Hi)) as (r' & j & -> & Hj0 & _ & Hkj & Hr' & Hw & _).
      rewrite go_bind_ret. cbn. rewrite (IH _ _ (k + j)%nat) by (done || lia). rewrite go_bind_ret, Hw. unfold mret, go_ret, PackedMutable.slice. f_equal.
      by rewrite <- drop_drop, take_drop.
    + destruct (lookup_lt_is_Some_2 vs k) as [v Hv]; [lia|]. destruct (reader_next r k v Hr Hv) as (r' & -> & Hr').
      rewrite go_bind_ret. cbn. rewrite (IH _ _ (k + 1)%nat) by (done || lia). rewrite go_bind_ret, (drop_S _ _ _ Hv), Nat.add_1_r. done.
Qed.
End Reading.
End Streams.

(** ** What goes wrong *)

(** A value of too many bits, a value too many, and anything after [Finish] is refused. *)
Lemma writer_refuses {O : Type} `{DataOutput O} {format bpv op} {L : BulkLaws format bpv op} (n : nat) c m (w : packedWriter O) ws v :
  holds n c m w ws →
  (bpv < UnsignedBitsRequired (to_uint64 v) → ∃ msg, Add w v = Err (Errorf msg)) ∧
  (length ws = n → ∃ msg, Add w v = Err (Errorf msg)) ∧
  (∃ msg, Add (with_written w (w_written w) true) v = Err (Errorf msg)) ∧ ∃ msg, Finish (with_written w (w_written w) true) = Err (Errorf msg).
Proof.
  intros [Hw _ Hle (it & k & full & part & z & room & Hbu & _)]. destruct Hbu as [_ _ Hbits _ _ Hc Hfin].
  assert (Hadd : ∀ w', w_bitsPerValue w' = bpv → bpv < UnsignedBitsRequired (to_uint64 v) ∨ w_finished w' = true ∨
    (w_valueCount w' = Z.of_nat n ∧ w_written w' = Z.of_nat n) → ∃ msg, Add w' v = Err (Errorf msg)).
  { intros w' Hb Hor. unfold Add. rewrite Hb. destruct (Z.ltb_spec bpv (UnsignedBitsRequired (to_uint64 v))); [by eexists|].
    destruct (w_finished w'); [by eexists|]. destruct Hor as [|[|[-> ->]]]; [lia|done|].
    rewrite (proj2 (Z.eqb_neq _ _)), (proj2 (Z.leb_le _ _)) by lia. by eexists. }
  split_and!; [intros; apply Hadd; auto|intros <-; apply Hadd; auto|apply Hadd; auto|by eexists].
Qed.

(** A writer of an unknown number of values has no room for any when there is memory for an iteration of several values. *)
Lemma writer_unknown_count_panics {O : Type} `{DataOutput O} {format bpv op} {L : BulkLaws format bpv op} (out : O) mem v :
  BulkOperationOf format bpv = Ret op → 1 ≤ bpv ≤ 64 → fits 64 bpv v → (1 < values_per)%nat → Z.of_nat blocks_per + 8 * Z.of_nat values_per ≤ mem →
  ∃ w, newPackedWriter format out (-1) bpv mem = Ret w ∧ Add w v = Panic.
Proof.
  intros Hop Hb Hv H1 Hm. destruct counts_law as (Hbb & Hbv & Hbb0 & _). unfold newPackedWriter.
  rewrite (proj2 (Z.ltb_ge _ _)) by lia. cbn [Z.ltb Z.compare Z.eqb andb negb Pos.eqb]. rewrite Hop, go_bind_ret, iterations_law, Hbb, Hbv. cbn zeta.
  assert (Hz : computeIterations (Z.of_nat blocks_per) (Z.of_nat values_per) (-1) mem = 0).
  { unfold computeIterations. rewrite Z.quot_div_nonneg by lia. set (size := Z.of_nat blocks_per + 8 * Z.of_nat values_per) in *.
    assert (Hq : 1 ≤ mem / size) by (apply Z.div_le_lower_bound; lia).
    rewrite (proj2 (Z.eqb_neq _ _)), (proj2 (Z.leb_le _ _)) by nia. apply Z.quot_small. lia. }
  rewrite Hz. cbn [Z.mul]. eexists. split; [reflexivity|]. unfold Add. cbn. rewrite (proj2 (Z.ltb_ge _ _)) by (by apply fits_required). done.
Qed.

(** C14. What is written to a packed stream is read back: for every width and format, any number of values up to the number
    that was announced, any size of either buffer, over any lawful streams, the writer puts exactly the bytes that
    [ByteCount] counts, which do not depend on the buffer, and the reader gives the values and zeros for those that were
    not added, however the caller mixes [Next] and [NextN], and then the end of the stream. *)
Theorem packed_stream_roundtrip {O I : Type} `{DataOutputLaws O} `{DataInputLaws I} (format : Format) (bpv : Z) (n : nat) (vs : list Z)
    (Hs : IsSupported format bpv = true) (Hn : bpv * Z.of_nat n + 7 < 2 ^ 63) (Hl : (length vs ≤ n)%nat) (HF : Forall (fits 64 bpv) vs) :
  ∃ bs, ByteCount (E := goerr) format VersionCurrent (Z.of_nat n) bpv = Ret (Z.of_nat (length bs)) ∧
    (∀ (out : O) mem m, 0 ≤ mem → out_room out (length bs + m) →
      ∃ w, (w ← GetWriterNoHeader out format (Z.of_nat n) bpv mem; w ← add_all w vs; Finish w) = Ret w ∧
        out_view (w_out w) = out_view out ++ bs ∧ out_room (w_out w) m) ∧
    (∀ (inp : I) rest mem asks, 0 ≤ mem → in_at inp (bs ++ rest) → (∀ i c, asks i = Some c → 0 < c) →
      (r ← GetReaderIteratorNoHeader inp format VersionCurrent (Z.of_nat n) bpv mem; read_all (S n) asks 0 r) =
      Ret (vs ++ replicate (n - length vs) 0)).
Proof.
  assert (Hb : 1 ≤ bpv ≤ 64) by (by apply (supported_width format)).
  destruct (BulkOperationOf_laws format bpv Hs) as (op & L & Hop). set (all := vs ++ replicate (n - length vs) 0).
  assert (HFa : Forall (fits 64 bpv) all) by (apply Forall_app; split; [done|by apply fits_zeros]).
  assert (Hal : length all = n) by (unfold all; rewrite length_app, length_replicate; lia).
  pose proof (image_length all HFa) as Hil. rewrite Hal in Hil. exists (image all). split_and!.
  - by rewrite ByteCount_law, Hil.
  - intros out mem m Hm Hroom. rewrite Hil in Hroom.
    destruct (newPackedWriter_spec Hop Hb n out mem m Hm Hroom) as (w & Hw & Hh). unfold GetWriterNoHeader. rewrite Hw, go_bind_ret.
    destruct (add_all_spec Hb n Hn _ m vs w [] Hh ltac:(cbn; lia) HF) as (w1 & -> & Hh1). rewrite go_bind_ret.
    destruct (writer_finishes Hb n Hn _ m w1 vs Hh1) as (w2 & -> & Hview & Hroom2 & _). by exists w2.
  - intros inp rest mem asks Hm Hin Ha. unfold GetReaderIteratorNoHeader.
    destruct (newPackedReaderIterator_spec Hop n all rest Hal VersionCurrent inp mem Hm Hin) as (r & Hr & Hr0). change (CheckVersion VersionCurrent) with (Ret (E := goerr) tt).
    rewrite go_bind_ret, Hr, go_bind_ret. by rewrite (read_all_spec Hb n Hn all rest Hal HFa asks (S n) 0 r 0 Ha Hr0) by lia.
Qed.

Lemma packed_stream_roundtrip_witness :
  ∃ bs, ByteCount (E := goerr) FormatPacked VersionCurrent 11 12 = Ret (Z.of_nat (length bs)) ∧
    (∀ (out : ByteArrayDataOutput) mem m, 0 ≤ mem → out_room out (length bs + m) →
      ∃ w, (w ← GetWriterNoHeader out FormatPacked 11 12 mem; w ← add_all w (seqZ 4080 9); Finish w) = Ret w ∧
        out_view (w_out w) = out_view out ++ bs ∧ out_room (w_out w) m) ∧
    (∀ (inp : ByteArrayDataInput) rest mem asks, 0 ≤ mem → in_at inp (bs ++ rest) → (∀ i c, asks i = Some c → 0 < c) →
      (r ← GetReaderIteratorNoHeader inp FormatPacked VersionCurrent 11 12 mem; read_all 12 asks 0 r) = Ret (seqZ 4080 9 ++ [0; 0])).
Proof.
  apply (packed_stream_roundtrip (O := ByteArrayDataOutput) (I := ByteArrayDataInput) FormatPacked 12 11 (seqZ 4080 9)).
  - reflexivity.
  - lia.
  - vm_compute. lia.
  - repeat (apply Forall_cons; split; [unfold fits, in_sint, in_uint, uwrap; vm_compute; intuition congruence|]). apply Forall_nil. exact Logic.I.
Defined.
