(* ===== verification/Growable.v ===== *)
(** Arrays that grow their width: [util/packed/growable_writer.go], with the choice of a width in
    [util/packed/packed_ints.go] ([FastestFormatAndBits], [GetMutable]).

    An overhead ratio is a [float32], a [spec_float] of 24 bits.  What the conversion of a NaN to an
    integer gives is up to the machine: it is a parameter. *)

From stdpp Require Import base tactics numbers list.
From Stdlib Require Import ZArith Lia.
From Stdlib Require Import SpecFloat.
From S2P Require Import Prelude Digits BulkOperation PackedMutable Packed64 PackedSingle PackedSingleArray GetMutable.

Local Open Scope Z_scope.

(** * Choosing a width *)

Local Abbreviation float32 := spec_float.

(** [float32(n)], products and comparisons; [int(f)] cuts the fraction off. *)
Definition float32_of (n : Z) : float32 := binary_normalize 24 128 n 0 false.
Definition float32_mul (a b : float32) : float32 := SFmul 24 128 a b.

Definition Fastest : float32 := float32_of 7.
Definition Compact : float32 := float32_of 0.

Class Platform := { int_of_nan : Z }.

Section Growable.
Context {E : Type} {HP : Platform}.
Local Abbreviation G := (go E).

Definition int_of (f : float32) : Z :=
  match f with
  | S754_zero _ => 0
  | S754_finite s m e => (if s then Z.opp else id) (Z.shiftl (Z.pos m) e)
  | S754_infinity _ | S754_nan => int_of_nan
  end.

Definition FastestFormatAndBits (valueCount bitsPerValue : Z) (acceptableOverheadRatio : float32) : Format * Z :=
  let ratio := if SFltb acceptableOverheadRatio Compact then Compact else acceptableOverheadRatio in
  let ratio := if SFltb Fastest ratio then Fastest else ratio in
  let acceptableOverheadPerValue := float32_mul ratio (float32_of bitsPerValue) in
  let maxBitsPerValue := to_int64 (bitsPerValue + int_of acceptableOverheadPerValue) in
  let actualBitsPerValue :=
    if (bitsPerValue <=? 8) && (8 <=? maxBitsPerValue) then 8 else
    if (bitsPerValue <=? 16) && (16 <=? maxBitsPerValue) then 16 else
    if (bitsPerValue <=? 32) && (32 <=? maxBitsPerValue) then 32 else
    if (bitsPerValue <=? 64) && (64 <=? maxBitsPerValue) then 64 else bitsPerValue in
  (FormatPacked, actualBitsPerValue).

Definition GetMutable (valueCount bitsPerValue : Z) (acceptableOverheadRatio : float32) : G Mutable :=
  let '(format, bits) := FastestFormatAndBits valueCount bitsPerValue acceptableOverheadRatio in
  GetMutableForFormat valueCount bits format.

Definition MaxValue (bitsPerValue : Z) : Z :=
  if bitsPerValue =? 64 then 0x7FFFFFFFFFFFFFFF else to_int64 (not64 (shl64 (not64 0) bitsPerValue)).

(** * The array *)

Record GrowableWriter := {
  g_currentMask : Z;
  g_current : Mutable;
  g_ratio : float32
}.

Definition with_current (g : GrowableWriter) (m : Mutable) : GrowableWriter :=
  {| g_currentMask := g_currentMask g; g_current := m; g_ratio := g_ratio g |}.

Definition defaultCopyMem : Z := 1024.

Definition growableMask (bitsPerValue : Z) : Z := if bitsPerValue =? 64 then Z.lnot 0 else MaxValue bitsPerValue.

Definition NewGrowableWriter (startBitsPerValue valueCount : Z) (acceptableOverheadRatio : float32) : G GrowableWriter :=
  current ← GetMutable valueCount startBitsPerValue acceptableOverheadRatio;
  Ret {| g_currentMask := growableMask (BitsPerValueOf current); g_current := current; g_ratio := acceptableOverheadRatio |}.

Definition g_Size (g : GrowableWriter) : Z := Size (E := E) (g_current g).
Definition g_BitsPerValue (g : GrowableWriter) : Z := BitsPerValueOf (g_current g).

Definition ensureGrowable (g : GrowableWriter) (value : Z) : G GrowableWriter :=
  if Z.land value (g_currentMask g) =? value then mret g else
  let bitsRequired := UnsignedBitsRequired (to_uint64 value) in
  let valueCount := g_Size g in
  next ← GetMutable valueCount bitsRequired (g_ratio g);
  next ← Copy (g_current g) 0 next 0 valueCount defaultCopyMem;
  mret {| g_currentMask := growableMask (BitsPerValueOf next); g_current := next; g_ratio := g_ratio g |}.

Definition g_Set (g : GrowableWriter) (index value : Z) : G GrowableWriter :=
  g ← ensureGrowable g value;
  m ← SetAt (g_current g) index value;
  mret (with_current g m).

Definition g_SetBulk (g : GrowableWriter) (index : Z) (arr : list Z) (off length : Z) : G (Z * GrowableWriter) :=
  max ← go_for (Z.to_nat length) off (fun i max => v ← aget arr i; mret (Z.lor max v)) 0;
  g ← ensureGrowable g max;
  '(n, m) ← SetBulk (g_current g) index arr off length;
  mret (n, with_current g m).

Definition g_Fill (g : GrowableWriter) (fromIndex toIndex val : Z) : G GrowableWriter :=
  g ← ensureGrowable g val;
  m ← Fill (g_current g) fromIndex toIndex val;
  mret (with_current g m).

Definition g_Clear (g : GrowableWriter) : G GrowableWriter := m ← Clear (g_current g); mret (with_current g m).

#[export] Instance GrowableWriter_ops : MutableOps E GrowableWriter := {
  Size := g_Size;
  Get g := Get (g_current g);
  SetAt := g_Set;
  GetBulk g := GetBulk (g_current g);
  SetBulk := g_SetBulk;
  Fill := g_Fill;
  Clear := g_Clear
}.

Definition g_Resize (g : GrowableWriter) (newSize : Z) : G GrowableWriter :=
  next ← NewGrowableWriter (g_BitsPerValue g) newSize (g_ratio g);
  let limit := g_Size g in
  let limit := if newSize <? limit then newSize else limit in
  Copy (g_current g) 0 next 0 limit defaultCopyMem.
End Growable.

Example growable_run :
  let _ := {| int_of_nan := - 2 ^ 63 |} in
  (g ← NewGrowableWriter (E := unit) 2 6 (float32_of 0);
   g ← SetAt g 1 3; g ← SetAt g 2 5; g ← SetAt g 3 300; let b1 := g_BitsPerValue g in
   '(n, g) ← SetBulk g 4 [7; -1; 9] 0 2; g ← g_Resize g 8;
   '(_, vs) ← GetBulk g 0 (repeat 9 8) 0 8;
   mret (b1, n, g_BitsPerValue g, vs, FastestFormatAndBits 6 5 (float32_of 1), FastestFormatAndBits 6 5 S754_nan))
  = Ret (9, 2, 64, [0; 3; 5; 300; 7; -1; 0; 0], (FormatPacked, 8), (FormatPacked, 5)).
Proof. vm_compute. reflexivity. Qed.

(** * The width that is chosen *)

Section Width.
Context {HP : Platform}.

(** Whatever the ratio is, [NaN] included: a width in range that is wide enough. *)
Lemma Fastest_width valueCount bpv ratio :
  1 ≤ bpv ≤ 64 → ∃ b, FastestFormatAndBits valueCount bpv ratio = (FormatPacked, b) ∧ bpv ≤ b ≤ 64.
Proof using.
  intros Hb. unfold FastestFormatAndBits. eexists. split; [reflexivity|].
  repeat match goal with |- context [if ?b then _ else _] => lazymatch b with andb (?x <=? _) _ => destruct b eqn:?E; [apply andb_prop in E as [E%Z.leb_le _]; lia|clear E] end end. lia.
Qed.

Context {E : Type}.

Lemma GetMutable_spec (n : nat) bpv ratio :
  1 ≤ bpv ≤ 64 → 64 * Z.of_nat n + 7 < 2 ^ 63 →
  ∃ m b, GetMutable (E := E) (Z.of_nat n) bpv ratio = Ret m ∧ bpv ≤ b ≤ 64 ∧ m_represents b m (replicate n 0).
Proof using.
  intros Hb Hn. unfold GetMutable. destruct (Fastest_width (Z.of_nat n) bpv ratio Hb) as (b & -> & Hbb).
  destruct (GetMutableForFormat_spec (E := E) n b FormatPacked) as (m & -> & Hm & _); [cbn [IsSupported]; rewrite andb_true_iff, !Z.leb_le; lia|nia|].
  by exists m, b.
Qed.

Lemma BitsPerValueOf_represents b m vs : m_represents b m vs → BitsPerValueOf m = b ∧ 1 ≤ b ≤ 64.
Proof using.
  destruct m as [p|q]; intros [Hsh _]; cbn [BitsPerValueOf].
  - split; [by apply (sh_bits _ _ _ Hsh)|by apply (sh_width _ _ _ Hsh)].
  - split; [by apply (qs_bits _ _ _ Hsh)|]. pose proof (qs_width _ _ _ Hsh). lia.
Qed.

Lemma represents_fits b m vs : m_represents b m vs → Forall (fits 64 b) vs.
Proof using. by destruct m as [p|q]; intros (_ & HF & _). Qed.
End Width.

(** * Values and masks *)

Lemma masks_checked : forallb (fun b => growableMask b =? 2 ^ b - 1) (seqZ 1 63) = true.
Proof. vm_compute. reflexivity. Qed.

Lemma growableMask_ones b : 1 ≤ b < 64 → growableMask b = Z.ones b.
Proof.
  intros Hb. pose proof masks_checked as H. rewrite forallb_forall in H. specialize (H b). rewrite Z.eqb_eq in H.
  rewrite H by (apply list_elem_of_In, elem_of_seqZ; lia). rewrite Z.ones_equiv. lia.
Qed.

(** What fits in fewer than 64 bits is not negative. *)
Lemma fits_small b v : 1 ≤ b < 64 → in_sint 64 v → fits 64 b v ↔ 0 ≤ v < 2 ^ b.
Proof.
  intros Hb Hv. pose proof (Z.pow_le_mono_r 2 b 63 ltac:(lia) ltac:(lia)). unfold fits, in_uint. unfold in_sint in *. change (64 - 1) with 63 in *. unfold uwrap.
  destruct (Z.lt_ge_cases v 0).
  - rewrite <- (Z.mod_add v 1), Z.mod_small by lia. lia.
  - rewrite Z.mod_small by lia. lia.
Qed.

Lemma fits_64 v : in_sint 64 v → fits 64 64 v.
Proof. intros Hv. split; [done|]. apply uwrap_range. lia. Qed.

Lemma mask_fits b v : 1 ≤ b ≤ 64 → in_sint 64 v → Z.land v (growableMask b) = v ↔ fits 64 b v.
Proof.
  intros Hb Hv. destruct (decide (b = 64)) as [->|].
  - change (growableMask 64) with (-1). rewrite Z.land_m1_r. split; [intros _; by apply fits_64|done].
  - rewrite growableMask_ones, Z.land_ones, fits_small by (done || lia). pose proof (pow2_pos b ltac:(lia)). split.
    + intros <-. apply Z.mod_pos_bound. lia.
    + intros. by apply Z.mod_small.
Qed.

(** A value whose bits are among those of a value that fits. *)
Lemma fits_subset b v x :
  1 ≤ b ≤ 64 → fits 64 b v → in_sint 64 x → (∀ j, 0 ≤ j → Z.testbit x j = true → Z.testbit v j = true) → fits 64 b x.
Proof.
  intros Hb Hv Hx Hsub. destruct (decide (b = 64)) as [->|]; [by apply fits_64|].
  apply mask_fits in Hv; [|done|by destruct Hv]. apply mask_fits; [done..|]. rewrite growableMask_ones in * by lia.
  apply bits_ext. intros j Hj. rewrite Z.land_spec. destruct (Z.testbit x j) eqn:Ex; [|done]. specialize (Hsub j Hj Ex).
  apply (f_equal (λ z, Z.testbit z j)) in Hv. rewrite Z.land_spec, Hsub in Hv. by rewrite andb_true_l in Hv |- *.
Qed.

Lemma fits_mono b b' v : 1 ≤ b → b ≤ b' → fits 64 b v → fits 64 b' v.
Proof. intros Hb Hle [Hv Hu]. split; [done|]. unfold in_uint in *. pose proof (Z.pow_le_mono_r 2 b b' ltac:(lia) Hle). lia. Qed.

Lemma required_fits v : in_sint 64 v → 1 ≤ UnsignedBitsRequired (to_uint64 v) ≤ 64 ∧ fits 64 (UnsignedBitsRequired (to_uint64 v)) v.
Proof.
  intros Hv. pose proof (uwrap_range 64 v ltac:(lia)) as Hu. unfold in_uint in Hu. set (b := UnsignedBitsRequired (to_uint64 v)).
  assert (Hb : 1 ≤ b ≤ 64 ∧ to_uint64 v < 2 ^ b).
  { unfold b, UnsignedBitsRequired. destruct (Z.eqb_spec (to_uint64 v) 0) as [->|]; [cbn; lia|].
    assert (0 ≤ Z.log2 (to_uint64 v) < 64) by (split; [apply Z.log2_nonneg|apply Z.log2_lt_pow2; lia]).
    destruct (Z.ltb_spec (Z.log2 (to_uint64 v) + 1) 1); [lia|]. split; [lia|]. apply (Z.log2_spec (to_uint64 v)). lia. }
  split; [lia|]. split; [done|]. unfold in_uint. lia.
Qed.

Lemma in_sint_shiftr x : in_sint 64 x ↔ -1 ≤ Z.shiftr x 63 ≤ 0.
Proof.
  unfold in_sint. change (64 - 1) with 63. rewrite Z.shiftr_div_pow2 by lia. pose proof (Z.div_mod x (2 ^ 63) ltac:(lia)).
  pose proof (Z.mod_pos_bound x (2 ^ 63) ltac:(lia)). lia.
Qed.

Lemma lor_sint a b : in_sint 64 a → in_sint 64 b → in_sint 64 (Z.lor a b).
Proof.
  rewrite !in_sint_shiftr, Z.shiftr_lor. intros Ha Hb.
  assert (Z.shiftr a 63 = 0 ∨ Z.shiftr a 63 = -1) as [->| ->] by lia; [by rewrite Z.lor_0_l|]. by rewrite Z.lor_m1_l.
Qed.

(** * A list of integers *)

(** Every [int64] can be stored: the width that the interface mentions does not matter. *)
Definition g_represents {E} {HP : Platform} (b : Z) (g : GrowableWriter) (vs : list Z) : Prop :=
  1 ≤ b ≤ 64 ∧ 64 * Z.of_nat (length vs) + 7 < 2 ^ 63 ∧
  ∃ w, represents (MutableLaws := Mutable_laws (E := E)) w (g_current g) vs ∧ g_currentMask g = growableMask w.

Section Laws.
Context {E : Type} {HP : Platform}.
Local Abbreviation stores := (represents (MutableLaws := Mutable_laws (E := E))).

Lemma splice_whole n (xs ys : list Z) : length xs = n → length ys = n → splice 0 (PackedMutable.slice 0 n xs) ys = xs.
Proof using.
  intros Hx Hy. unfold splice, PackedMutable.slice. rewrite drop_0, take_0, take_ge by lia. cbn [app plus]. rewrite drop_ge by lia. by rewrite app_nil_r.
Qed.

(** After [ensureCapacity] the array has the same values, and room for this one and every one with some of its bits. *)
Lemma ensure_spec b g vs v :
  g_represents (E := E) b g vs → in_sint 64 v →
  ∃ g' w, ensureGrowable (E := E) g v = Ret g' ∧ stores w (g_current g') vs ∧ g_currentMask g' = growableMask w ∧ g_ratio g' = g_ratio g ∧
    ∀ x, in_sint 64 x → (∀ j, 0 ≤ j → Z.testbit x j = true → Z.testbit v j = true) → fits 64 w x.
Proof using.
  intros (_ & Hn & w & Hw & Hmask) Hv. destruct (BitsPerValueOf_represents w _ vs Hw) as [_ Hww]. unfold ensureGrowable. rewrite Hmask.
  destruct (Z.eqb_spec (Z.land v (growableMask w)) v) as [Hl|Hl].
  - exists g, w. split; [done|]. split_and!; try done. intros x Hx. apply fits_subset; [done| |done]. by apply mask_fits.
  - destruct (required_fits v Hv) as [Hr Hrf]. set (r := UnsignedBitsRequired (to_uint64 v)) in *.
    assert (Hwr : w < r). { destruct (Z.lt_ge_cases w r); [done|]. exfalso. apply Hl, mask_fits; [done..|]. by apply (fits_mono r); try lia. }
    unfold g_Size. rewrite (Size_law (MutableLaws := Mutable_laws (E := E)) w _ vs Hw).
    destruct (GetMutable_spec (E := E) (length vs) r (g_ratio g) Hr Hn) as (m & b' & -> & Hb' & Hm). rewrite go_bind_ret.
    assert (HF : Forall (fits 64 b') (PackedMutable.slice 0 (length vs) vs)).
    { apply slice_Forall. eapply Forall_impl; [by eapply represents_fits|]. intros x. by apply fits_mono; lia. }
    destruct (Copy_copies (LS := Mutable_laws (E := E)) (LD := Mutable_laws (E := E)) w b' (g_current g) vs (replicate (length vs) 0) 0 0 (length vs)
      Hw HF ltac:(lia) ltac:(rewrite length_replicate; lia) m defaultCopyMem Hm ltac:(done)) as (m' & Hc & Hm').
    change (Z.of_nat 0) with 0 in Hc. rewrite Hc, go_bind_ret. rewrite splice_whole in Hm' by (done || apply length_replicate).
    destruct (BitsPerValueOf_represents b' _ vs Hm') as [Hbits _]. eexists _, b'. split; [reflexivity|]. cbn [g_current g_currentMask g_ratio]. rewrite Hbits.
    split_and!; try done. intros x Hx. apply fits_subset; [lia| |done]. by apply (fits_mono r); lia || done.
Qed.

(** The bits of all values of a bulk operation. *)
Lemma or_values arr off len m0 :
  (off + len ≤ length arr)%nat → in_sint 64 m0 → Forall (in_sint 64) (PackedMutable.slice off len arr) →
  ∃ m, go_for len (Z.of_nat off) (fun i max => v ← aget arr i; mret (Z.lor max v)) m0 = Ret (E := E) m ∧ in_sint 64 m ∧
    (∀ j, 0 ≤ j → Z.testbit m0 j = true → Z.testbit m j = true) ∧
    ∀ v, v ∈ PackedMutable.slice off len arr → ∀ j, 0 ≤ j → Z.testbit v j = true → Z.testbit m j = true.
Proof using.
  revert off m0. induction len as [|len IH]; intros off m0 Hl Hm HF; cbn [go_for].
  { exists m0. split_and!; try done. by intros v Hv%elem_of_nil. }
  destruct (lookup_lt_is_Some_2 arr off) as [x Hx]; [lia|]. rewrite (slice_first _ _ _ _ Hx) in HF |- *. apply Forall_cons in HF as [Hxs HF].
  rewrite (aget_Ret _ _ x) by (rewrite ?Nat2Z.id; done || lia). rewrite go_bind_ret.
  replace (Z.of_nat off + 1) with (Z.of_nat (S off)) by lia.
  destruct (IH (S off) (Z.lor m0 x) ltac:(lia)) as (m & Hr & Hms & Hm0 & Hv); [by apply lor_sint|done|].
  exists m. split; [exact Hr|]. split; [done|]. split.
  - intros j Hj H0. apply Hm0; [done|]. by rewrite Z.lor_spec, H0.
  - intros v [->|Hin]%elem_of_cons j Hj Hb; [|by apply (Hv v)]. apply Hm0; [done|]. by rewrite Z.lor_spec, Hb, orb_true_r.
Qed.

Lemma g_keeps b (g g' : GrowableWriter) vs vs' w m :
  g_represents (E := E) b g vs → g_currentMask g' = growableMask w → stores w m vs' → length vs' = length vs →
  g_represents (E := E) b (with_current g' m) vs'.
Proof using. intros (Hb & Hn & _) Hmask Hm Hl. split; [done|]. split; [by rewrite Hl|]. by exists w. Qed.

#[export] Instance GrowableWriter_laws : MutableLaws (GrowableWriter_ops (E := E)).
Proof using.
  refine {| represents := g_represents (E := E) |}.
  - intros b g vs (_ & _ & w & Hw & _). exact (Size_law (MutableLaws := Mutable_laws (E := E)) w _ vs Hw).
  - intros b g vs i v (_ & _ & w & Hw & _). exact (Get_law (MutableLaws := Mutable_laws (E := E)) w _ vs i v Hw).
  - intros b g vs i v Hg Hi Hv. cbn [SetAt GrowableWriter_ops]. unfold g_Set.
    destruct (ensure_spec b g vs v Hg ltac:(apply Hv)) as (g' & w & -> & Hw & Hmask & _ & Hfits). rewrite go_bind_ret.
    destruct (SetAt_law (MutableLaws := Mutable_laws (E := E)) w _ vs i v Hw Hi) as (m & -> & Hm); [apply Hfits; [apply Hv|done]|].
    rewrite go_bind_ret. eexists. split; [reflexivity|]. apply (g_keeps b g g' vs _ w); try done. apply length_insert.
  - intros b g vs index arr off len (_ & _ & w & Hw & _). exact (GetBulk_law (MutableLaws := Mutable_laws (E := E)) w _ vs index arr off len Hw).
  - intros b g vs index arr off len Hg Hi Hlen Ho HF. cbn [SetBulk GrowableWriter_ops]. unfold g_SetBulk. rewrite Nat2Z.id.
    assert (HFs : Forall (in_sint 64) (PackedMutable.slice off len arr)) by (eapply Forall_impl; [exact HF|]; by intros v [? _]).
    destruct (or_values arr off len 0 Ho) as (m & -> & Hm & _ & Hsub); [unfold in_sint; lia|done|]. rewrite go_bind_ret.
    destruct (ensure_spec b g vs m Hg Hm) as (g' & w & -> & Hw & Hmask & _ & Hfits). rewrite go_bind_ret.
    destruct (SetBulk_law (MutableLaws := Mutable_laws (E := E)) w _ vs index arr off len Hw Hi Hlen Ho) as (n & m' & [Hn Hin] & -> & Hm').
    { apply Forall_forall. intros v Hv. rewrite Forall_forall in HFs. apply Hfits; [by apply HFs|by apply Hsub]. }
    rewrite go_bind_ret. eexists n, _. split; [done|]. split; [reflexivity|]. apply (g_keeps b g g' vs _ w); try done.
    apply splice_len. rewrite slice_length; lia.
  - intros b g vs from_ to_ v Hg Ht Hv. cbn [Fill GrowableWriter_ops]. unfold g_Fill.
    destruct (ensure_spec b g vs v Hg ltac:(apply Hv)) as (g' & w & -> & Hw & Hmask & _ & Hfits). rewrite go_bind_ret.
    destruct (Fill_law (MutableLaws := Mutable_laws (E := E)) w _ vs from_ to_ v Hw Ht) as (m & -> & Hm); [apply Hfits; [apply Hv|done]|].
    rewrite go_bind_ret. eexists. split; [reflexivity|]. apply (g_keeps b g g' vs _ w); try done. apply splice_len. rewrite length_replicate. lia.
  - intros b g vs Hg. pose proof Hg as (_ & _ & w & Hw & Hmask). cbn [Clear GrowableWriter_ops]. unfold g_Clear.
    destruct (Clear_law (MutableLaws := Mutable_laws (E := E)) w _ vs Hw) as (m & -> & Hm). rewrite go_bind_ret.
    eexists. split; [reflexivity|]. apply (g_keeps b g g vs _ w); try done. apply length_replicate.
Defined.

Lemma NewGrowableWriter_spec b bpv (n : nat) ratio :
  1 ≤ b ≤ 64 → 1 ≤ bpv ≤ 64 → 64 * Z.of_nat n + 7 < 2 ^ 63 →
  ∃ g, NewGrowableWriter (E := E) bpv (Z.of_nat n) ratio = Ret g ∧ g_represents (E := E) b g (replicate n 0).
Proof using.
  intros Hb Hbpv Hn. unfold NewGrowableWriter. destruct (GetMutable_spec (E := E) n bpv ratio Hbpv Hn) as (m & w & -> & _ & Hm). rewrite go_bind_ret.
  eexists. split; [reflexivity|]. split; [done|]. split; [by rewrite length_replicate|]. exists w. split; [exact Hm|]. cbn [g_currentMask].
  by destruct (BitsPerValueOf_represents w _ _ Hm) as [-> _].
Qed.

(** As many values as there is room for, and zeros. *)
Definition resized (n : nat) (vs : list Z) : list Z := take n vs ++ replicate (n - length vs) 0.

Lemma resized_splice n vs : splice 0 (PackedMutable.slice 0 (Nat.min n (length vs)) vs) (replicate n 0) = resized n vs.
Proof using.
  unfold splice, PackedMutable.slice, resized. rewrite drop_0, take_0, length_take, drop_replicate. cbn [app plus].
  destruct (Nat.min_spec n (length vs)) as [[? ->]|[? ->]].
  - do 2 f_equal. lia.
  - rewrite !take_ge by lia. do 2 f_equal. lia.
Qed.

Lemma g_Resize_spec b g vs (n : nat) :
  g_represents (E := E) b g vs → 64 * Z.of_nat n + 7 < 2 ^ 63 →
  ∃ g', g_Resize (E := E) g (Z.of_nat n) = Ret g' ∧ g_represents (E := E) b g' (resized n vs).
Proof using.
  intros (Hb & _ & w & Hw & _) Hn. destruct (BitsPerValueOf_represents w _ vs Hw) as [Hbits Hww]. unfold g_Resize, g_BitsPerValue, g_Size. rewrite Hbits.
  destruct (NewGrowableWriter_spec b w n (g_ratio g) Hb Hww Hn) as (next & -> & Hnext). rewrite go_bind_ret.
  rewrite (Size_law (MutableLaws := Mutable_laws (E := E)) w _ vs Hw). cbn zeta.
  replace (if Z.of_nat n <? Z.of_nat (length vs) then _ else _) with (Z.of_nat (Nat.min n (length vs))) by (destruct (Z.ltb_spec (Z.of_nat n) (Z.of_nat (length vs))); lia).
  assert (HF : Forall (fits 64 64) (PackedMutable.slice 0 (Nat.min n (length vs)) vs)).
  { apply slice_Forall. eapply Forall_impl; [by eapply represents_fits|]. intros x [Hx _]. by apply fits_64. }
  assert (Hnext64 : g_represents (E := E) 64 next (replicate n 0)) by (destruct Hnext as [_ ?]; by split).
  destruct (Copy_copies (LS := Mutable_laws (E := E)) (LD := GrowableWriter_laws) w 64 (g_current g) vs (replicate n 0) 0 0 _
    Hw HF ltac:(lia) ltac:(rewrite length_replicate; lia) next defaultCopyMem Hnext64 ltac:(done)) as (g' & Hc & Hg').
  change (Z.of_nat 0) with 0 in Hc. rewrite Hc. exists g'. split; [done|]. rewrite resized_splice in Hg'. destruct Hg' as [_ Hg']. by split.
Qed.
End Laws.

(** C15. An array that grows its width is a list of 64-bit integers: it takes every value, negative ones included, growing
    when one does not fit; no operation in range panics or loses a value, [Get] and [GetBulk] read what the operations do
    to a list, and [Resize] keeps the values there is room for and adds zeros - whatever the width it starts with and
    whatever the overhead ratio, NaN included. *)
Theorem growable_refines {E} {HP : Platform} (bpv : Z) (n n' : nat) (ratio : spec_float) (ops : list mutable_op)
    (Hb : 1 ≤ bpv ≤ 64) (Hn : 64 * Z.of_nat n + 7 < 2 ^ 63) (Hn' : 64 * Z.of_nat n' + 7 < 2 ^ 63) (Hops : Forall (op_valid 64 n) ops) :
  ∃ g0 g g' vs, NewGrowableWriter (E := E) bpv (Z.of_nat n) ratio = Ret g0 ∧ run_mutable (E := E) g0 ops = Ret g ∧
    list_steps ops (replicate n 0) vs ∧ length vs = n ∧ reads (E := E) g vs ∧
    g_Resize (E := E) g (Z.of_nat n') = Ret g' ∧ reads (E := E) g' (resized n' vs).
Proof.
  destruct (NewGrowableWriter_spec (E := E) 64 bpv n ratio ltac:(lia) Hb Hn) as (g0 & H0 & Hg0).
  destruct (run_mutable_refines (L := GrowableWriter_laws (E := E)) 64 ops g0 _ Hg0) as (g & vs & Hr & Hg & Hst & Hl); [by rewrite length_replicate|].
  rewrite length_replicate in Hl. destruct (g_Resize_spec (E := E) 64 g vs n' Hg Hn') as (g' & Hr' & Hg').
  exists g0, g, g', vs. split_and!; [done..| |done|]; by apply (represents_reads (L := GrowableWriter_laws) 64).
Qed.

Lemma growable_refines_witness :
  let _ := {| int_of_nan := - 2 ^ 63 |} in
  ∃ g0 g g' vs, NewGrowableWriter (E := unit) 2 70 S754_nan = Ret g0 ∧
    run_mutable (E := unit) g0 [OpSet 5 300; OpFill 1 69 7; OpSetBulk 30 [-1; 2 ^ 40] 0 2] = Ret g ∧
    list_steps [OpSet 5 300; OpFill 1 69 7; OpSetBulk 30 [-1; 2 ^ 40] 0 2] (replicate 70 0) vs ∧ length vs = 70%nat ∧ reads (E := unit) g vs ∧
    g_Resize (E := unit) g 80 = Ret g' ∧ reads (E := unit) g' (resized 80 vs).
Proof.
  intros HP. apply (growable_refines 2 70 80 S754_nan [OpSet 5 300; OpFill 1 69 7; OpSetBulk 30 [-1; 2 ^ 40] 0 2]); [lia|lia|lia|].
  assert (Hf : ∀ v, - 2 ^ 63 ≤ v < 2 ^ 63 → fits 64 64 v) by (intros v Hv; apply fits_64; exact Hv).
  repeat constructor; cbn [op_valid]; try lia; try (apply Hf; lia).
Defined.
