(* ===== verification/Paged.v ===== *)
(** Arrays of any size made of pages: [util/packed/abstract_paged_mutable.go], [paged_mutable.go] and
    [paged_growable_writer.go], with [CheckBlockSize] and [NumBlocks] of [packed_ints.go].

    The pages are behind the interface [Mutable]; what makes a new page is an argument, as in the code.
    [PagesLaws] is what the paged array relies on; both kinds of pages have these laws. *)

From stdpp Require Import base tactics numbers list strings.
From Stdlib Require Import ZArith Lia.
From Stdlib Require Import SpecFloat.
From S2P Require Import Prelude Digits BulkOperation PackedMutable Packed64 PackedSingle PackedSingleArray GetMutable Growable.

Local Open Scope Z_scope.

(** * Sizes of blocks *)

(** [bits.TrailingZeros64] *)
Definition TrailingZeros64 (v : Z) : Z := if v =? 0 then 64 else Z.log2 (Z.land v (- v)).

Definition CheckBlockSize (blockSize minBlockSize maxBlockSize : Z) : M Z :=
  if (blockSize <? minBlockSize) || (maxBlockSize <? blockSize) then Err (Errorf "packed: blockSize out of range") else
  if negb (Z.land blockSize (blockSize - 1) =? 0) then Err (Errorf "packed: blockSize must be a power of two") else
  Ret (TrailingZeros64 (to_uint64 blockSize)).

Definition boolToInt (b : bool) : Z := if b then 1 else 0.

Definition NumBlocks (size blockSize : Z) : M Z :=
  if blockSize =? 0 then Panic else
  let numBlocks := Z.quot size blockSize + boolToInt (negb (Z.rem size blockSize =? 0)) in
  if to_int64 (numBlocks * blockSize) <? size then Err (Errorf "packed: size is too large for this block size") else Ret numBlocks.

(** * The array *)

(** A [Mutable] that says how wide its values are. *)
Class Pages (S : Type) := {
  pages_ops :: MutableOps goerr S;
  GetBitsPerValue : S → Z
}.

(** A page is [None] (nil) until it is made.  [newMutable] and [newUnfilledCopy] are the same for all copies. *)
Record AbstractPagedMutable (S : Type) := {
  a_size : Z;
  a_pageShift : Z;
  a_pageMask : Z;
  a_bitsPerValue : Z;
  a_subMutables : list (option S)
}.
Arguments a_size {S} a.
Arguments a_pageShift {S} a.
Arguments a_pageMask {S} a.
Arguments a_bitsPerValue {S} a.
Arguments a_subMutables {S} a.

Definition pagedMinBlockSize : Z := Z.shiftl 1 6.
Definition pagedMaxBlockSize : Z := Z.shiftl 1 30.

Section Paged.
Context {S : Type} {P : Pages S} (newMutable : Z → Z → M S).

Definition initAbstractPagedMutable (bitsPerValue size pageSize : Z) : M (AbstractPagedMutable S) :=
  pageShift ← CheckBlockSize pageSize pagedMinBlockSize pagedMaxBlockSize;
  numPages ← NumBlocks size pageSize;
  if numPages <? 0 then Panic else
  Ret {| a_size := size; a_pageShift := pageShift; a_pageMask := pageSize - 1; a_bitsPerValue := bitsPerValue;
         a_subMutables := replicate (Z.to_nat numPages) None |}.

Definition with_pages (a : AbstractPagedMutable S) (subMutables : list (option S)) : AbstractPagedMutable S :=
  {| a_size := a_size a; a_pageShift := a_pageShift a; a_pageMask := a_pageMask a; a_bitsPerValue := a_bitsPerValue a;
     a_subMutables := subMutables |}.

Definition pageSize (a : AbstractPagedMutable S) : Z := a_pageMask a + 1.
Definition pageIndex (a : AbstractPagedMutable S) (index : Z) : Z := Z.shiftr (to_uint64 index) (a_pageShift a).
Definition indexInPage (a : AbstractPagedMutable S) (index : Z) : Z := Z.land index (a_pageMask a).
Definition lastPageSize (a : AbstractPagedMutable S) (size : Z) : Z :=
  let sz := indexInPage a size in if sz =? 0 then pageSize a else sz.

Definition fillPages (a : AbstractPagedMutable S) : M (AbstractPagedMutable S) :=
  let numPages := length (a_subMutables a) in
  subs ← go_for numPages 0 (fun i subs =>
    let valueCount := if i =? Z.of_nat numPages - 1 then lastPageSize a (a_size a) else pageSize a in
    m ← newMutable valueCount (a_bitsPerValue a);
    aset subs i (Some m)) (a_subMutables a);
  Ret (with_pages a subs).

(** A call of a method of a page; nil has none. *)
Definition page (subs : list (option S)) (i : Z) : M S :=
  s ← aget subs i; match s with Some m => mret m | None => Panic end.

Definition PagedGet (a : AbstractPagedMutable S) (index : Z) : M Z :=
  if (index <? 0) || (a_size a <=? index) then Panic else
  m ← page (a_subMutables a) (pageIndex a index);
  Get m (indexInPage a index).

Definition PagedSet (a : AbstractPagedMutable S) (index value : Z) : M (AbstractPagedMutable S) :=
  if (index <? 0) || (a_size a <=? index) then Panic else
  m ← page (a_subMutables a) (pageIndex a index);
  m ← SetAt m (indexInPage a index) value;
  subs ← aset (a_subMutables a) (pageIndex a index) (Some m);
  Ret (with_pages a subs).

(** The constructors drop the error; the copy they return is nil then. *)
Definition newUnfilledCopy (a : AbstractPagedMutable S) (newSize : Z) : M (AbstractPagedMutable S) :=
  match initAbstractPagedMutable (a_bitsPerValue a) newSize (pageSize a) with Err _ => Panic | r => r end.

(** What goes into page [i] of the copy. *)
Definition copy_page (a : AbstractPagedMutable S) (newSize numPages commonPages i : Z) (buf : list Z) : M (S * list Z) :=
  let valueCount := if i =? numPages - 1 then lastPageSize a newSize else pageSize a in
  bpv ← (if i <? commonPages then m ← page (a_subMutables a) i; mret (GetBitsPerValue m) else mret (a_bitsPerValue a));
  m ← newMutable valueCount bpv;
  if i <? commonPages then
    src ← page (a_subMutables a) i;
    let copyLength := if Size (E := goerr) src <? valueCount then Size (E := goerr) src else valueCount in
    copyWithBuf src 0 m 0 copyLength buf
  else mret (m, buf).

Definition Resize (a : AbstractPagedMutable S) (newSize : Z) : M (AbstractPagedMutable S) :=
  copy ← newUnfilledCopy a newSize;
  let numPages := Z.of_nat (length (a_subMutables copy)) in
  let commonPages := if Z.of_nat (length (a_subMutables a)) <? numPages then Z.of_nat (length (a_subMutables a)) else numPages in
  '(subs, _) ← go_for (length (a_subMutables copy)) 0
    (fun i '(subs, buf) =>
      '(m, buf) ← copy_page a newSize numPages commonPages i buf;
      subs ← aset subs i (Some m);
      mret (subs, buf))
    (a_subMutables copy, replicate 1024 0);
  Ret (with_pages copy subs).

Definition Grow (a : AbstractPagedMutable S) (minSize : Z) : M (AbstractPagedMutable S) :=
  if minSize <=? a_size a then mret a else
  let extra := Z.shiftr minSize 3 in
  let extra := if extra <? 3 then 3 else extra in
  Resize a (to_int64 (minSize + extra)).

(** How both constructors go on. *)
Definition newPaged (bitsPerValue size pageSize : Z) : M (AbstractPagedMutable S) :=
  base ← initAbstractPagedMutable bitsPerValue size pageSize;
  fillPages base.
End Paged.

(** * The two kinds of pages *)

#[export] Instance Mutable_pages : Pages Mutable := { pages_ops := Mutable_ops; GetBitsPerValue := BitsPerValueOf }.

(** The pages of a [PagedMutable] always have its width and format. *)
Definition paged_mutable_page (bitsPerValue : Z) (format : Format) (valueCount _ : Z) : M Mutable := GetMutableForFormat valueCount bitsPerValue format.

Definition newPagedMutableFromFormat (size pageSize bitsPerValue : Z) (format : Format) : M (AbstractPagedMutable Mutable) :=
  newPaged (paged_mutable_page bitsPerValue format) bitsPerValue size pageSize.

Section Kinds.
Context {HP : Platform}.

Definition NewPagedMutable (size pageSize bitsPerValue : Z) (acceptableOverheadRatio : spec_float) : M (AbstractPagedMutable Mutable) :=
  let '(format, bits) := FastestFormatAndBits pageSize bitsPerValue acceptableOverheadRatio in
  newPagedMutableFromFormat size pageSize bits format.

#[export] Instance Growable_pages : Pages GrowableWriter := { pages_ops := GrowableWriter_ops; GetBitsPerValue := g_BitsPerValue }.

Definition growable_page (acceptableOverheadRatio : spec_float) (valueCount bitsPerValue : Z) : M GrowableWriter :=
  NewGrowableWriter bitsPerValue valueCount acceptableOverheadRatio.

Definition NewPagedGrowableWriter (size pageSize startBitsPerValue : Z) (acceptableOverheadRatio : spec_float)
    : M (AbstractPagedMutable GrowableWriter) :=
  newPaged (growable_page acceptableOverheadRatio) startBitsPerValue size pageSize.
End Kinds.

Example paged_run :
  let _ := {| int_of_nan := - 2 ^ 63 |} in
  (a ← NewPagedMutable 150 64 7 (float32_of 0);
   a ← PagedSet a 100 99; a ← PagedSet a 149 5; x ← PagedGet a 100; a ← Grow (paged_mutable_page 7 FormatPacked) a 200; y ← PagedGet a 149; z ← PagedGet a 220;
   a ← Resize (paged_mutable_page 7 FormatPacked) a 101; u ← PagedGet a 100; mret (x, y, z, u, length (a_subMutables a), a_size a))
  = Ret (99, 5, 0, 99, 2%nat, 101).
Proof. vm_compute. reflexivity. Qed.

Example paged_growable_run :
  let _ := {| int_of_nan := - 2 ^ 63 |} in
  (a ← NewPagedGrowableWriter 150 64 1 (float32_of 0);
   a ← PagedSet a 100 (-99); a ← PagedSet a 149 5; a ← Grow (growable_page (float32_of 0)) a 200;
   x ← PagedGet a 100; y ← PagedGet a 149; z ← PagedGet a 220;
   mret (x, y, z, map (option_map GetBitsPerValue) (a_subMutables a)))
  = Ret (-99, 5, 0, [Some 1; Some 64; Some 3; Some 1]).
Proof. vm_compute. reflexivity. Qed.

(** * What pages promise *)

Class PagesLaws {S} (P : Pages S) (newMutable : Z → Z → M S) := {
  pages_laws :: MutableLaws (pages_ops (S := S));
  width : Z;
  page_law (m : S) vs : represents (MutableLaws := pages_laws) width m vs → 1 ≤ GetBitsPerValue m ≤ 64 ∧ Forall (fits 64 width) vs;
  new_law (n : nat) b : 1 ≤ b ≤ 64 → Z.of_nat n ≤ 2 ^ 30 → ∃ m, newMutable (Z.of_nat n) b = Ret m ∧ represents (MutableLaws := pages_laws) width m (replicate n 0)
}.

Lemma paged_mutable_laws bpv format : IsSupported format bpv = true → PagesLaws Mutable_pages (paged_mutable_page bpv format).
Proof.
  intros Hs. refine {| pages_laws := Mutable_laws (E := goerr); width := bpv |}.
  - intros m vs Hm. split; [|by eapply represents_fits]. cbn [GetBitsPerValue Mutable_pages]. by destruct (BitsPerValueOf_represents bpv m vs Hm) as [-> ?].
  - intros n b _ Hn. unfold paged_mutable_page. assert (Hb : 1 ≤ bpv ≤ 64).
    { destruct format; cbn [IsSupported] in Hs; [rewrite andb_true_iff, !Z.leb_le in Hs; lia|].
      apply existsb_exists in Hs as (x & Hx & <-%Z.eqb_eq). cbn in Hx. lia. }
    destruct (GetMutableForFormat_spec (E := goerr) n bpv format Hs ltac:(nia)) as (m & Hm & Hr & _). by exists m.
Defined.

Section Instances.
Context {HP : Platform}.

Definition growable_interface : MutableLaws (pages_ops (S := GrowableWriter)).
Proof using. unfold pages_ops, Growable_pages. exact GrowableWriter_laws. Defined.

#[export] Instance paged_growable_laws ratio : PagesLaws Growable_pages (growable_page ratio).
Proof using.
  refine {| pages_laws := growable_interface; width := 64 |}.
  - intros g vs (_ & _ & w & Hw & _). destruct (BitsPerValueOf_represents w _ vs Hw) as [Hbits ?]. split.
    + cbn [GetBitsPerValue Growable_pages]. unfold g_BitsPerValue. by rewrite Hbits.
    + eapply Forall_impl; [by eapply represents_fits|]. intros x [Hx _]. by apply fits_64.
  - intros n b Hb Hn. destruct (NewGrowableWriter_spec (E := goerr) 64 b n ratio ltac:(lia) Hb ltac:(lia)) as (g & Hg & Hr). by exists g.
Defined.
End Instances.

(** * Positions *)

Lemma trailing_zeros_pow2 s : 0 ≤ s < 64 → TrailingZeros64 (2 ^ s) = s.
Proof.
  intros Hs. assert (H : forallb (fun s => TrailingZeros64 (2 ^ s) =? s) (seqZ 0 64) = true) by (vm_compute; reflexivity).
  rewrite forallb_forall in H. apply Z.eqb_eq, H, list_elem_of_In, elem_of_seqZ. lia.
Qed.

Lemma CheckBlockSize_spec s : 6 ≤ s ≤ 30 → CheckBlockSize (2 ^ s) pagedMinBlockSize pagedMaxBlockSize = Ret s.
Proof.
  intros Hs. assert (H : forallb (fun s => match CheckBlockSize (2 ^ s) pagedMinBlockSize pagedMaxBlockSize with Ret s' => s' =? s | _ => false end) (seqZ 6 25) = true)
    by (vm_compute; reflexivity).
  rewrite forallb_forall in H. specialize (H s ltac:(apply list_elem_of_In, elem_of_seqZ; lia)).
  destruct (CheckBlockSize _ _ _); try done. by apply Z.eqb_eq in H as ->.
Qed.

(** A size that is out of range or not a power of two is an error. *)
Lemma CheckBlockSize_error b mn mx : 0 < mn → mx < 2 ^ 63 → (b < mn ∨ mx < b ∨ Z.land b (b - 1) ≠ 0) → ∃ msg, CheckBlockSize b mn mx = Err (Errorf msg).
Proof.
  intros _ _ H. unfold CheckBlockSize. destruct (Z.ltb_spec b mn); [by eexists|]. destruct (Z.ltb_spec mx b); [by eexists|].
  cbn [orb]. destruct (Z.eqb_spec (Z.land b (b - 1)) 0); [lia|by eexists].
Qed.

Section Positions.
Context (s : Z) (Hs : 6 ≤ s ≤ 30).
Local Abbreviation psize := (Z.to_nat (2 ^ s)).

Lemma psize_facts : Z.of_nat psize = 2 ^ s ∧ 64 ≤ 2 ^ s ≤ 2 ^ 30.
Proof using Hs.
  pose proof (Z.pow_le_mono_r 2 6 s ltac:(lia) ltac:(lia)). pose proof (Z.pow_le_mono_r 2 s 30 ltac:(lia) ltac:(lia)). lia.
Qed.

(** How many pages [n] values take, and how long page [i] is. *)
Definition pages_of (n : nat) : nat := ((n + psize - 1) / psize)%nat.
Definition page_length (n i : nat) : nat := Nat.min psize (n - i * psize).

Lemma pages_of_bounds n i : (i < pages_of n)%nat ↔ (i * psize < n)%nat.
Proof using Hs.
  destruct psize_facts as [? _]. unfold pages_of. pose proof (Nat.div_mod_eq (n + psize - 1) psize). pose proof (Nat.mod_upper_bound (n + psize - 1) psize ltac:(lia)). nia.
Qed.

Lemma NumBlocks_spec (n : nat) : Z.of_nat n + 2 ^ 30 < 2 ^ 63 → NumBlocks (Z.of_nat n) (2 ^ s) = Ret (Z.of_nat (pages_of n)).
Proof using Hs.
  intros Hn. destruct psize_facts as [Hp Hb]. unfold NumBlocks. rewrite (proj2 (Z.eqb_neq _ _)) by lia.
  rewrite Z.quot_div_nonneg, Z.rem_mod_nonneg by lia. pose proof (Z.div_mod (Z.of_nat n) (2 ^ s) ltac:(lia)) as Hd. pose proof (Z.mod_pos_bound (Z.of_nat n) (2 ^ s) ltac:(lia)) as Hm.
  assert (Hq : Z.of_nat n / 2 ^ s + boolToInt (negb (Z.of_nat n mod 2 ^ s =? 0)) = Z.of_nat (pages_of n)).
  { unfold pages_of. pose proof (Nat.div_mod_eq (n + psize - 1) psize). pose proof (Nat.mod_upper_bound (n + psize - 1) psize ltac:(lia)).
    destruct (Z.eqb_spec (Z.of_nat n mod 2 ^ s) 0); cbn [negb boolToInt]; nia. }
  rewrite Hq. cbn zeta. assert (Hle : Z.of_nat n ≤ Z.of_nat (pages_of n) * 2 ^ s < Z.of_nat n + 2 ^ s).
  { rewrite <- Hq. destruct (Z.eqb_spec (Z.of_nat n mod 2 ^ s) 0); cbn [negb boolToInt]; nia. }
  rewrite swrap_id; [|lia|unfold in_sint; change (64 - 1) with 63; lia]. by rewrite (proj2 (Z.ltb_ge _ _)) by lia.
Qed.

Context {S : Type} (a : AbstractPagedMutable S) (Hsh : a_pageShift a = s) (Hmask : a_pageMask a = 2 ^ s - 1).

Lemma index_in_page (i : nat) : indexInPage a (Z.of_nat i) = Z.of_nat (i mod psize).
Proof using Hs Hmask.
  destruct psize_facts as [Hp _]. unfold indexInPage. rewrite Hmask. replace (2 ^ s - 1) with (Z.ones s) by (rewrite Z.ones_equiv; lia).
  rewrite Z.land_ones, Nat2Z.inj_mod, Hp by lia. done.
Qed.

Lemma page_index (i : nat) : Z.of_nat i < 2 ^ 63 → pageIndex a (Z.of_nat i) = Z.of_nat (i / psize).
Proof using Hs Hsh.
  intros Hi. destruct psize_facts as [Hp _]. unfold pageIndex. rewrite Hsh, uwrap_id by (unfold in_uint; lia).
  rewrite Z.shiftr_div_pow2, Nat2Z.inj_div, Hp by lia. done.
Qed.

Lemma page_size : pageSize a = Z.of_nat psize.
Proof using Hs Hmask. destruct psize_facts. unfold pageSize. lia. Qed.

(** The length the code computes for page [i]. *)
Lemma value_count (n i : nat) :
  (i < pages_of n)%nat →
  (if Z.of_nat i =? Z.of_nat (pages_of n) - 1 then lastPageSize a (Z.of_nat n) else pageSize a) = Z.of_nat (page_length n i).
Proof using Hs Hmask.
  intros Hi. destruct psize_facts as [Hp Hb]. apply pages_of_bounds in Hi as Hin.
  pose proof (pages_of_bounds n (i + 1)) as Hnext. unfold page_length. rewrite page_size.
  destruct (Z.eqb_spec (Z.of_nat i) (Z.of_nat (pages_of n) - 1)).
  - unfold lastPageSize. rewrite index_in_page, page_size. cbn zeta. assert (Hle : (n ≤ (i + 1) * psize)%nat) by lia.
    destruct (decide (n = (i + 1) * psize)%nat) as [->|].
    + rewrite Nat.Div0.mod_mul. change (Z.of_nat 0 =? 0) with true. cbv iota. f_equal. lia.
    + assert (n mod psize = n - i * psize)%nat as ->.
      { replace n with (n - i * psize + i * psize)%nat at 1 by lia. rewrite Nat.Div0.mod_add. apply Nat.mod_small. lia. }
      rewrite (proj2 (Z.eqb_neq _ _)) by lia. lia.
  - assert ((i + 1) * psize < n)%nat by lia. lia.
Qed.
End Positions.

(** * The pages hold a list *)

(** [n] values of which the first are those of [vs], and the others are zero ([resized]): page [i] of them. *)
Lemma resized_lookup n vs i : (i < n)%nat → resized n vs !! i = if bool_decide (i < length vs)%nat then vs !! i else Some 0.
Proof.
  intros Hi. unfold resized. case_bool_decide.
  - rewrite lookup_app_l by (rewrite length_take; lia). by apply lookup_take_lt.
  - rewrite lookup_app_r by (rewrite length_take; lia). apply lookup_replicate_2. rewrite length_take. lia.
Qed.

Lemma resized_length n vs : length (resized n vs) = n.
Proof. unfold resized. rewrite length_app, length_take, length_replicate. lia. Qed.

Section Pages.
Context {S : Type} {P : Pages S} {newMutable : Z → Z → M S} {L : PagesLaws P newMutable}.
Context (s : Z) (Hs : 6 ≤ s ≤ 30).
Local Abbreviation psize := (Z.to_nat (2 ^ s)).
Local Abbreviation holds_page := (represents (MutableLaws := pages_laws) width).

Record paged (a : AbstractPagedMutable S) (vs : list Z) : Prop := {
  pa_size : a_size a = Z.of_nat (length vs);
  pa_shift : a_pageShift a = s;
  pa_mask : a_pageMask a = 2 ^ s - 1;
  pa_bits : 1 ≤ a_bitsPerValue a ≤ 64;
  pa_small : Z.of_nat (length vs) + 2 ^ 30 < 2 ^ 63;
  pa_count : length (a_subMutables a) = pages_of s (length vs);
  pa_pages : ∀ i, (i < pages_of s (length vs))%nat →
    ∃ m, a_subMutables a !! i = Some (Some m) ∧ holds_page m (PackedMutable.slice (i * psize) psize vs)
}.

Lemma psize_pos : (0 < psize)%nat.
Proof using Hs. destruct (psize_facts s Hs). lia. Qed.

Lemma page_of (vs : list Z) i : (i < length vs)%nat → (i / psize < pages_of s (length vs))%nat.
Proof using Hs. intros Hi. pose proof psize_pos. apply (pages_of_bounds s Hs). pose proof (Nat.div_mod_eq i psize). nia. Qed.

Lemma slice_page (vs : list Z) i : PackedMutable.slice (i / psize * psize) psize vs !! (i mod psize)%nat = vs !! i.
Proof using Hs.
  pose proof psize_pos. pose proof (Nat.mod_upper_bound i psize ltac:(lia)). rewrite slice_lookup by done. f_equal.
  pose proof (Nat.div_mod_eq i psize). lia.
Qed.

Lemma init_spec bits (n : nat) :
  1 ≤ bits ≤ 64 → Z.of_nat n + 2 ^ 30 < 2 ^ 63 →
  initAbstractPagedMutable bits (Z.of_nat n) (2 ^ s) =
  Ret {| a_size := Z.of_nat n; a_pageShift := s; a_pageMask := 2 ^ s - 1; a_bitsPerValue := bits; a_subMutables := replicate (pages_of s n) (@None S) |}.
Proof using Hs.
  intros Hb Hn. unfold initAbstractPagedMutable. rewrite (CheckBlockSize_spec s Hs), go_bind_ret, (NumBlocks_spec s Hs n Hn), go_bind_ret.
  rewrite (proj2 (Z.ltb_ge _ _)) by lia. by rewrite Nat2Z.id.
Qed.

(** A loop that makes the pages in turn: [Q i] holds of page [i]. *)
Lemma make_pages {St} (Q : nat → S → Prop) (J : St → Prop) (f : Z → St → M (S * St)) n st :
  J st → (∀ i st, (i < n)%nat → J st → ∃ m st', f (Z.of_nat i) st = Ret (m, st') ∧ Q i m ∧ J st') →
  ∃ subs st', go_for n 0 (fun i '(subs, st) => '(m, st) ← f i st; subs ← aset subs i (Some m); mret (subs, st)) (replicate n None, st) = Ret (subs, st') ∧
    length subs = n ∧ ∀ i, (i < n)%nat → ∃ m, subs !! i = Some (Some m) ∧ Q i m.
Proof using.
  intros HJ Hf.
  destruct (go_for_inv (E := goerr) (fun i '(subs, st) => J st ∧ length subs = n ∧ ∀ k, (k < Z.to_nat i)%nat → ∃ m, subs !! k = Some (Some m) ∧ Q k m)
    n 0 (fun i '(subs, st) => '(m, st) ← f i st; subs ← aset subs i (Some m); mret (subs, st)) (replicate n None, st)) as ([subs st'] & Hr & _ & Hl & HQ).
  - split; [done|]. split; [apply length_replicate|]. intros k Hk. lia.
  - intros i [subs st0] Hi (HJ0 & Hl & HQ). destruct (Hf (Z.to_nat i) st0 ltac:(lia) HJ0) as (m & st1 & Hm & Hq & HJ1). rewrite Z2Nat.id in Hm by lia.
    rewrite Hm, go_bind_ret, aset_Ret, go_bind_ret by lia. eexists. split; [reflexivity|]. split; [done|]. split; [by rewrite length_insert|].
    intros k Hk. destruct (decide (k = Z.to_nat i)) as [->|]; [exists m; split; [apply list_lookup_insert_eq; lia|done]|].
    rewrite list_lookup_insert_ne by done. apply HQ. lia.
  - exists subs, st'. split; [done|]. split; [done|]. intros i Hi. apply HQ. lia.
Qed.

(** A loop without other state. *)
Lemma make_pages_plain (f : Z → M S) k : ∀ lo (st subs : list (option S)),
  go_for k lo (fun i '(subs, u) => '(m, u) ← (m ← f i; mret (m, u)); subs ← aset subs i (Some m); mret (subs, u)) (st, tt) = Ret (subs, tt) →
  go_for k lo (fun i subs => m ← f i; aset subs i (Some m)) st = Ret subs.
Proof using.
  clear. induction k as [|k IH]; intros lo st subs; cbn [go_for]; [by intros [= ->]|]. destruct (f lo); try done. cbn.
  destruct (aset st lo _); try done. cbn. apply IH.
Qed.

Lemma newPaged_spec bits (n : nat) :
  1 ≤ bits ≤ 64 → Z.of_nat n + 2 ^ 30 < 2 ^ 63 → ∃ a, newPaged newMutable bits (Z.of_nat n) (2 ^ s) = Ret a ∧ paged a (replicate n 0).
Proof using Hs L.
  intros Hb Hn. unfold newPaged. rewrite (init_spec bits n Hb Hn), go_bind_ret. unfold fillPages. cbn [a_subMutables a_size a_bitsPerValue]. rewrite length_replicate.
  set (a := {| a_size := _ |}). destruct (psize_facts s Hs) as [Hp Hpb].
  destruct (make_pages (λ i m, holds_page m (PackedMutable.slice (i * psize) psize (replicate n 0))) (λ _ : unit, True)
    (λ i u, m ← newMutable (if i =? Z.of_nat (pages_of s n) - 1 then lastPageSize a (Z.of_nat n) else pageSize a) bits; mret (m, u)) (pages_of s n) tt I)
    as (subs & [] & Hr & Hl & HQ).
  { intros i [] Hi _. rewrite (value_count s Hs a eq_refl n i Hi).
    destruct (new_law (PagesLaws := L) (page_length s n i) bits Hb ltac:(unfold page_length; lia)) as (m & -> & Hm). exists m, tt. split; [done|]. split; [|done].
    unfold PackedMutable.slice. by rewrite drop_replicate, take_replicate. }
  apply make_pages_plain in Hr. rewrite Hr, go_bind_ret. eexists. split; [reflexivity|]. split; cbn; rewrite ?length_replicate; done.
Qed.

Lemma PagedGet_spec a vs i v : paged a vs → vs !! i = Some v → PagedGet a (Z.of_nat i) = Ret v.
Proof using Hs.
  intros [Hsz Hsh Hma _ Hsm Hc Hp] Hv. apply lookup_lt_Some in Hv as Hi. unfold PagedGet.
  rewrite Hsz, (proj2 (Z.ltb_ge _ _)), (proj2 (Z.leb_gt _ _)) by lia. cbn [orb].
  rewrite (page_index s Hs a Hsh), (index_in_page s Hs a Hma) by lia.
  destruct (Hp _ (page_of vs i Hi)) as (m & Hm & Hh). unfold page. rewrite (aget_Ret _ _ (Some m)) by (rewrite ?Nat2Z.id; done || lia).
  rewrite !go_bind_ret. apply (Get_law (MutableLaws := pages_laws) width m _ _ v Hh). by rewrite slice_page.
Qed.

Lemma Paged_panics a vs i v :
  paged a vs → i < 0 ∨ Z.of_nat (length vs) ≤ i → PagedGet a i = Panic ∧ PagedSet a i v = Panic.
Proof using.
  intros [Hsz _ _ _ _ _ _] Hi. unfold PagedGet, PagedSet. rewrite Hsz.
  destruct (Z.ltb_spec i 0); [done|]. by rewrite (proj2 (Z.leb_le _ _)) by lia.
Qed.

Lemma PagedSet_spec a vs i v :
  paged a vs → (i < length vs)%nat → fits 64 width v → ∃ a', PagedSet a (Z.of_nat i) v = Ret a' ∧ paged a' (<[i := v]> vs).
Proof using Hs.
  intros Ha Hi Hv. pose proof Ha as [Hsz Hsh Hma Hb Hsm Hc Hp]. pose proof psize_pos as Hpos. unfold PagedSet.
  rewrite Hsz, (proj2 (Z.ltb_ge _ _)), (proj2 (Z.leb_gt _ _)) by lia. cbn [orb].
  rewrite (page_index s Hs a Hsh), (index_in_page s Hs a Hma) by lia. pose proof (page_of vs i Hi) as Hpg.
  destruct (Hp _ Hpg) as (m & Hm & Hh). unfold page. rewrite (aget_Ret _ _ (Some m)) by (rewrite ?Nat2Z.id; done || lia). rewrite !go_bind_ret, bind_mret.
  pose proof (slice_page vs i) as Hsl. destruct (lookup_lt_is_Some_2 vs i Hi) as [x Hx]. rewrite Hx in Hsl. apply lookup_lt_Some in Hsl.
  destruct (SetAt_law (MutableLaws := pages_laws) width m _ _ v Hh Hsl Hv) as (m' & -> & Hm'). rewrite go_bind_ret, aset_Ret, go_bind_ret by lia.
  eexists. split; [reflexivity|]. split; cbn; rewrite ?length_insert; try done. intros k Hk. rewrite Nat2Z.id.
  destruct (decide (k = i / psize)%nat) as [->|Hne].
  - exists m'. split; [apply list_lookup_insert_eq; lia|]. replace (PackedMutable.slice (i / psize * psize) psize (<[i:=v]> vs))
      with (<[(i mod psize)%nat := v]> (PackedMutable.slice (i / psize * psize) psize vs)); [done|].
    apply list_eq. intros j. pose proof (Nat.div_mod_eq i psize). pose proof (Nat.mod_upper_bound i psize ltac:(lia)).
    destruct (decide (j < psize)%nat).
    2: { rewrite !lookup_ge_None_2; [done|unfold PackedMutable.slice; rewrite length_take; lia|rewrite length_insert; unfold PackedMutable.slice; rewrite length_take; lia]. }
    rewrite slice_lookup by done. destruct (decide (j = i mod psize)%nat) as [->|].
    + rewrite list_lookup_insert_eq by done. replace (i / psize * psize + i mod psize)%nat with i by lia. by rewrite list_lookup_insert_eq.
    + rewrite list_lookup_insert_ne, slice_lookup by done. rewrite list_lookup_insert_ne by lia. done.
  - destruct (Hp k Hk) as (mk & Hmk & Hhk). exists mk. split; [by rewrite list_lookup_insert_ne|].
    replace (PackedMutable.slice (k * psize) psize (<[i:=v]> vs)) with (PackedMutable.slice (k * psize) psize vs); [done|].
    apply list_eq. intros j. pose proof (Nat.div_mod_eq i psize). pose proof (Nat.mod_upper_bound i psize ltac:(lia)).
    destruct (decide (j < psize)%nat).
    2: { rewrite !lookup_ge_None_2; [done|unfold PackedMutable.slice; rewrite length_take; lia..]. }
    rewrite !slice_lookup by done. rewrite list_lookup_insert_ne; [done|]. intros ->. apply Hne.
    by rewrite Nat.add_comm, Nat.div_add, Nat.div_small by lia.
Qed.

(** What one page of a copy gets from the old page. *)
Lemma copied_page (n i : nat) (vs : list Z) :
  splice 0 (PackedMutable.slice 0 (Nat.min (page_length s (length vs) i) (page_length s n i)) (PackedMutable.slice (i * psize) psize vs))
    (replicate (page_length s n i) 0) = PackedMutable.slice (i * psize) psize (resized n vs).
Proof using.
  clear L Hs. assert (Hlen : length (PackedMutable.slice (i * psize) psize vs) = page_length s (length vs) i)
    by (unfold PackedMutable.slice, page_length; rewrite length_take, length_drop; done).
  set (c := Nat.min _ _). assert (Hcl : length (PackedMutable.slice 0 c (PackedMutable.slice (i * psize) psize vs)) = c) by (apply slice_length; lia).
  apply list_eq. intros j. destruct (decide (j < page_length s n i)%nat) as [Hj|].
  2: { rewrite !lookup_ge_None_2; [done| |rewrite splice_len, length_replicate by (rewrite length_replicate; lia); lia].
       unfold PackedMutable.slice, page_length in *. rewrite length_take, length_drop, resized_length. lia. }
  rewrite splice_lookup by (rewrite length_replicate; lia). rewrite Hcl. unfold page_length in *.
  rewrite (slice_lookup (i * psize)), resized_lookup by lia. rewrite lookup_replicate_2 by done.
  repeat case_bool_decide; try lia; [|done]. rewrite Nat.sub_0_r, !slice_lookup by lia. done.
Qed.

Lemma copy_page_spec a vs (n i : nat) buf :
  paged a vs → (i < pages_of s n)%nat → length buf = 1024%nat →
  let common := Z.of_nat (Nat.min (pages_of s (length vs)) (pages_of s n)) in
  ∃ m buf', copy_page newMutable a (Z.of_nat n) (Z.of_nat (pages_of s n)) common (Z.of_nat i) buf = Ret (m, buf') ∧
    holds_page m (PackedMutable.slice (i * psize) psize (resized n vs)) ∧ length buf' = 1024%nat.
Proof using Hs.
  intros [Hsz Hsh Hma Hb Hsm Hc Hp] Hi Hbuf common. unfold copy_page. rewrite (value_count s Hs a Hma n i Hi).
  destruct (psize_facts s Hs) as [Hpz Hpb]. assert (Hvc : Z.of_nat (page_length s n i) ≤ 2 ^ 30) by (unfold page_length; lia).
  destruct (Z.ltb_spec (Z.of_nat i) common) as [Hcom|Hcom].
  - destruct (Hp i ltac:(lia)) as (src & Hsrc & Hh). unfold page. rewrite (aget_Ret _ _ (Some src)) by (rewrite ?Nat2Z.id; done || lia).
    rewrite !go_bind_ret, bind_mret, bind_mret. destruct (page_law src _ Hh) as [Hbits HF].
    destruct (new_law (PagesLaws := L) (page_length s n i) (GetBitsPerValue src) Hbits Hvc) as (m & -> & Hm). rewrite go_bind_ret, bind_mret.
    rewrite (Size_law (MutableLaws := pages_laws) width src _ Hh). cbn zeta.
    assert (Hlen : length (PackedMutable.slice (i * psize) psize vs) = page_length s (length vs) i)
      by (unfold PackedMutable.slice, page_length; by rewrite length_take, length_drop).
    rewrite Hlen. set (c := Nat.min (page_length s (length vs) i) (page_length s n i)).
    replace (if Z.of_nat (page_length s (length vs) i) <? Z.of_nat (page_length s n i) then _ else _) with (Z.of_nat c)
      by (unfold c; destruct (Z.ltb_spec (Z.of_nat (page_length s (length vs) i)) (Z.of_nat (page_length s n i))); lia).
    destruct (copyWithBuf_spec (LS := pages_laws) (LD := pages_laws) width width src _ (replicate (page_length s n i) 0) 0 0 c Hh) with (dest := m) (buf := buf)
      as (m' & buf' & Hcopy & Hm' & Hl'); try done; try lia.
    { by apply slice_Forall. }
    { rewrite length_replicate. lia. }
    exists m', buf'. split; [exact Hcopy|]. split; [|congruence]. unfold copied in Hm'. unfold c in Hm'. by rewrite copied_page in Hm'.
  - rewrite bind_mret. destruct (new_law (PagesLaws := L) (page_length s n i) (a_bitsPerValue a) Hb Hvc) as (m & -> & Hm). rewrite go_bind_ret.
    exists m, buf. split; [done|]. split; [|done]. rewrite <- copied_page.
    assert (page_length s (length vs) i = 0%nat) as ->.
    { assert (¬ (i < pages_of s (length vs))%nat) as Hn by lia. rewrite (pages_of_bounds s Hs) in Hn. unfold page_length. lia. }
    rewrite Nat.min_0_l. change (PackedMutable.slice 0 0 _) with (@nil Z). by rewrite splice_nil by lia.
Qed.

Lemma Resize_spec a vs (n : nat) :
  paged a vs → Z.of_nat n + 2 ^ 30 < 2 ^ 63 → ∃ a', Resize newMutable a (Z.of_nat n) = Ret a' ∧ paged a' (resized n vs).
Proof using Hs L.
  intros Ha Hn. pose proof Ha as [Hsz Hsh Hma Hb Hsm Hc Hp]. destruct (psize_facts s Hs) as [Hpz Hpb]. unfold Resize, newUnfilledCopy.
  rewrite (page_size s Hs a Hma), Hpz, (init_spec _ n Hb Hn), go_bind_ret. cbn [a_subMutables]. rewrite length_replicate, Hc.
  replace (if Z.of_nat (pages_of s (length vs)) <? Z.of_nat (pages_of s n) then _ else _)
    with (Z.of_nat (Nat.min (pages_of s (length vs)) (pages_of s n)))
    by (destruct (Z.ltb_spec (Z.of_nat (pages_of s (length vs))) (Z.of_nat (pages_of s n))); lia).
  destruct (make_pages (λ i m, holds_page m (PackedMutable.slice (i * psize) psize (resized n vs))) (λ buf, length buf = 1024%nat)
    (copy_page newMutable a (Z.of_nat n) (Z.of_nat (pages_of s n)) (Z.of_nat (Nat.min (pages_of s (length vs)) (pages_of s n)))) (pages_of s n) (replicate 1024 0))
    as (subs & buf & Hr & Hl & HQ).
  { apply length_replicate. }
  { intros i buf Hi Hbuf. by apply copy_page_spec. }
  cbn zeta. rewrite Hr, go_bind_ret. eexists. split; [reflexivity|]. split; cbn; rewrite ?resized_length; done.
Qed.

(** How far an array grows. *)
Definition grown (n : nat) (vs : list Z) : list Z :=
  if decide (n ≤ length vs)%nat then vs else resized (n + Nat.max 3 (n / 8)) vs.

Lemma Grow_spec a vs (n : nat) :
  paged a vs → Z.of_nat n < 2 ^ 62 → ∃ a', Grow newMutable a (Z.of_nat n) = Ret a' ∧ paged a' (grown n vs).
Proof using Hs L.
  intros Ha Hn. pose proof Ha as [Hsz _ _ _ _ _ _]. unfold Grow, grown. rewrite Hsz.
  destruct (decide (n ≤ length vs)%nat); [rewrite (proj2 (Z.leb_le _ _)) by lia; by exists a|]. rewrite (proj2 (Z.leb_gt _ _)) by lia. cbn zeta.
  assert (Hq : Z.shiftr (Z.of_nat n) 3 = Z.of_nat (n / 8)) by (rewrite Z.shiftr_div_pow2, Nat2Z.inj_div by lia; done). rewrite Hq.
  pose proof (Nat.Div0.mul_div_le n 8).
  replace (Z.of_nat n + _) with (Z.of_nat (n + Nat.max 3 (n / 8))) by (destruct (Z.ltb_spec (Z.of_nat (n / 8)) 3); lia).
  rewrite swrap_id by (lia || (unfold in_sint; change (64 - 1) with 63; lia)). apply Resize_spec; [done|lia].
Qed.
End Pages.

(** * Sequences of operations *)

Inductive paged_op := PSet (index : nat) (value : Z) | PResize (newSize : nat) | PGrow (minSize : nat).

Section Ops.
Context {S : Type} {P : Pages S} (newMutable : Z → Z → M S).

Definition run_paged_op (a : AbstractPagedMutable S) (op : paged_op) : M (AbstractPagedMutable S) :=
  match op with
  | PSet i v => PagedSet a (Z.of_nat i) v
  | PResize n => Resize newMutable a (Z.of_nat n)
  | PGrow n => Grow newMutable a (Z.of_nat n)
  end.

Fixpoint run_paged (a : AbstractPagedMutable S) (ops : list paged_op) : M (AbstractPagedMutable S) :=
  match ops with [] => mret a | op :: ops => a ← run_paged_op a op; run_paged a ops end.
End Ops.

(** What they do to a list, and what may be asked. *)
Definition on_list (vs : list Z) (op : paged_op) : list Z :=
  match op with PSet i v => <[i := v]> vs | PResize n => resized n vs | PGrow n => grown n vs end.

Fixpoint paged_valid (b : Z) (vs : list Z) (ops : list paged_op) : Prop :=
  match ops with
  | [] => True
  | op :: ops =>
      match op with PSet i v => (i < length vs)%nat ∧ fits 64 b v | PResize n | PGrow n => Z.of_nat n < 2 ^ 62 end ∧
      paged_valid b (on_list vs op) ops
  end.

Lemma run_paged_spec {S} {P : Pages S} {newMutable} {L : PagesLaws P newMutable} s (Hs : 6 ≤ s ≤ 30) ops : ∀ a vs,
  paged s a vs → paged_valid width vs ops → ∃ a', run_paged newMutable a ops = Ret a' ∧ paged s a' (foldl on_list vs ops).
Proof.
  induction ops as [|op ops IH]; intros a vs Ha HV; cbn [run_paged foldl paged_valid] in *; [by exists a|]. destruct HV as [Hop HV].
  assert (∃ a', run_paged_op newMutable a op = Ret a' ∧ paged s a' (on_list vs op)) as (a' & -> & Ha').
  { destruct op as [i v|n|n]; cbn [run_paged_op on_list].
    - destruct Hop. by apply PagedSet_spec.
    - apply Resize_spec; [done|done|lia].
    - by apply Grow_spec. }
  rewrite go_bind_ret. by apply IH.
Qed.

(** C16. An array made of pages is a list, over any pages with the laws of the interface - packed arrays of either format, or
    arrays that grow: for every page size that is a power of two from 64 to 2^30, a new array has zeros, [Set] changes one
    value, [Resize] and [Grow] keep the values there is room for and add zeros, the pages of a copy and the last, shorter page
    included; [Get] reads the list, and an index out of range panics. *)
Theorem paged_refines {S} {P : Pages S} {newMutable} {L : PagesLaws P newMutable} (s bits : Z) (n : nat) (ops : list paged_op)
    (Hs : 6 ≤ s ≤ 30) (Hb : 1 ≤ bits ≤ 64) (Hn : Z.of_nat n < 2 ^ 62) (Hops : paged_valid width (replicate n 0) ops) :
  ∃ a0 a, newPaged newMutable bits (Z.of_nat n) (2 ^ s) = Ret a0 ∧ run_paged newMutable a0 ops = Ret a ∧
    let vs := foldl on_list (replicate n 0) ops in
    a_size a = Z.of_nat (length vs) ∧
    (∀ i v, vs !! i = Some v → PagedGet a (Z.of_nat i) = Ret v) ∧
    ∀ i v, i < 0 ∨ Z.of_nat (length vs) ≤ i → PagedGet a i = Panic ∧ PagedSet a i v = Panic.
Proof.
  destruct (newPaged_spec (L := L) s Hs bits n Hb ltac:(lia)) as (a0 & H0 & Ha0).
  destruct (run_paged_spec s Hs ops a0 _ Ha0 Hops) as (a & Hr & Ha). exists a0, a. split; [done|]. split; [done|]. cbn zeta.
  split; [apply (pa_size _ _ _ Ha)|]. split.
  - intros i v. by apply (PagedGet_spec s Hs).
  - intros i v. by apply (Paged_panics s).
Qed.

(** Pages that grow. *)
Lemma paged_refines_witness :
  let _ := {| int_of_nan := - 2 ^ 63 |} in
  let ops := [PSet 100 (-99); PGrow 200; PSet 220 7; PResize 221] in
  ∃ a0 a, NewPagedGrowableWriter (Z.of_nat 150) (2 ^ 6) 1 (float32_of 0) = Ret a0 ∧ run_paged (growable_page (float32_of 0)) a0 ops = Ret a ∧
    let vs := foldl on_list (replicate 150 0) ops in
    a_size a = Z.of_nat (length vs) ∧
    (∀ i v, vs !! i = Some v → PagedGet a (Z.of_nat i) = Ret v) ∧
    ∀ i v, i < 0 ∨ Z.of_nat (length vs) ≤ i → PagedGet a i = Panic ∧ PagedSet a i v = Panic.
Proof.
  intros HP ops. apply (paged_refines (L := paged_growable_laws (float32_of 0)) 6 1 150 ops); [lia|lia|lia|].
  assert (Hf : ∀ v, - 2 ^ 63 ≤ v < 2 ^ 63 → fits 64 64 v) by (intros v Hv; apply fits_64; exact Hv).
  cbn [paged_valid ops]. split; [split; [vm_compute; lia|apply Hf; lia]|]. split; [lia|]. split; [split; [vm_compute; lia|apply Hf; lia]|]. split; [lia|exact I].
Defined.
